(* ===== verification/_CoqProject ===== *)
-Q . S2P
Prelude.v
JsString.v
JsNumber.v
JsMap.v
Messages.v
Json.v
IntegerText.v
FileLines.v
FileLog.v
Jsonl.v
PrivateFrame.v
FileIO.v
AtomicFile.v
EventLog.v
CommandJournal.v
Semaphore.v
DirLock.v
Truncate.v
ContextBudget.v
Tokens.v
ImageTtl.v
ToolOutputCap.v
EditDiff.v
DiffRows.v
EditTool.v
Jev.v
ContextJanitor.v
AgentTypes.v
EventStream.v
AgentEvents.v
AgentTools.v
AgentLoop.v
AgentRun.v
AgentOutside.v
AgentQueues.v
Agent.v
SessionEntries.v
SessionJson.v
SessionTree.v
SessionFacts.v
SessionFile.v
SessionRepair.v
SessionContext.v
SummaryText.v
Compaction.v
ContextStats.v
ContextHooks.v
Retry.v
Summarize.v
BranchSummary.v
OutputAccumulator.v
Goals.v
GoalSession.v
StdinBuffer.v
StateError.v
CronSchedule.v
CronStore.v
CronRuns.v
CronCommands.v
CronScheduler.v
SemanticEdges.v
EdgeRecorder.v
Autonomous.v
Replay.v
Sanitize.v
AnthropicMessages.v
CompletionsMessages.v
GoogleMessages.v
ResponsesMessages.v
ActionStore.v
JsonRepair.v
StreamFailure.v
AnthropicStream.v
CompactStream.v
SpawnLedger.v
SpawnFamily.v
SnapshotCache.v
