(* ===== verification/Prelude.v ===== *)
(** * Verification of the re-prime agent: overview

    re-prime is a coding agent: a loop that sends a transcript to a language
    model, runs the tools the model calls, and keeps the transcript in a session
    log that survives the process. This development models the parts that decide
    what the model sees and what is recorded, as functions translated from the
    TypeScript sources, and proves what they promise. Paths are under src/.

    ** The program and its models

    - The agent loop (packages/agent/src/agent-loop.ts). [AgentTypes] has its
      types and a state, error and event monad [M]: a computation takes a world
      (context messages, new messages, the partial message, the log of events)
      and returns a value or throws. Everything the loop calls (provider stream,
      tools, hooks, listeners, queues) is a field of [AgentLoopConfig] that gives
      an outcome and changes an opaque environment [X], which also holds the
      cancellation signal. [AgentTools] has the preparation, execution (in
      sequence or in parallel, with an arbitrary interleaving) and finalisation
      of tool calls; [AgentLoop] streams, turns and the run, function by function;
      [AgentEvents] the protocol of events as a state machine; [AgentRun] the
      proofs about whole runs.
    - The agent object (packages/agent/src/agent.ts). [AgentQueues] has the queues of
      steering and follow-up messages, [Agent] the state, its reduction of events and
      the lifecycle of a run: it instantiates the loop's outside [X] with the agent
      itself, which listeners and hooks change while the loop runs ([AgentOutside]
      has the rules for such an outside).
    - Messages to providers (packages/ai/src/providers/). [Replay] is
      transform-messages.ts: a transcript is made fit for the model it goes to;
      [Sanitize] removes what cannot be encoded. [AnthropicMessages],
      [CompletionsMessages], [ResponsesMessages] and [GoogleMessages] convert the
      result for one interface each (anthropic.ts, openai-completions.ts,
      openai-responses-shared.ts, google-shared.ts); they rely on nothing but
      [Replay.replayable], and each has the rule of its interface as a grammar.
    - Responses of providers. [AnthropicStream] reads the body of a response of
      anthropic.ts: bytes, lines, server-sent events, the message with its costs, and the
      events of [EventStream] that the agent loop consumes. [JsonRepair] is
      utils/json-parse.ts, [StreamFailure] utils/stream-failure.ts. [CompactStream]
      (modes/daemon/compact-session-stream.ts) takes these events on to the clients of
      the daemon, as deltas.
    - Spawned sessions. [SpawnLedger] is modes/daemon/rlm-ledger.ts over [EventLog], with
      [IntegerText] for the depths in its records: several processes, each with a cached
      reading, over one file. [SpawnFamily] is what is read from it: rows of families,
      siblings, descendants, and the seed from older registries. [FileLines] is
      utils/file-lines.ts.
    - The session log (packages/coding-agent/src/core/session-manager.ts).
      [SessionEntries] has the entries and [SessionJson] their JSON, field by field,
      with what the engine prints for fractions and instants as a parameter ([Engine]).
      [SessionTree] has the manager's state with the bytes of its file, and its
      operations in a state and error monad; writes take their outcome (written,
      refused, written in part) from a list. [SessionFacts] has the invariant
      [wf] and the step relation over all operations, [SessionFile] writing and
      reloading, [SessionRepair] the repair of a file that a crash damaged,
      [SessionContext] the context built from a branch.
    - Snapshots of the daemon. [SnapshotCache] is modes/daemon/snapshot-transcript-cache.ts:
      the messages of a session in chunks, and the store of chunks with its readers.
    - Compaction (core/compaction/). [Tokens] estimates sizes, [SummaryText] prints
      a conversation and the files it touched, [Compaction] chooses the cut and
      prepares it, [Summarize] makes the requests and the result. A preparation is
      proved against the log: [Compaction] uses the context of [SessionContext].
      [BranchSummary] is branch-summarization.ts: what is summarised when the user
      moves to another branch.
    - Tools. [EditDiff] (matching and replacing, core/tools/edit-diff.ts), [DiffRows]
      (the rows shown of a change) and [EditTool] (the call, line endings, and the
      queue of changes of a file, file-mutation-queue.ts) model the edit tool;
      [OutputAccumulator] is core/tools/output-accumulator.ts, which keeps the end of
      a command's output in memory and the whole of it in a file.
    - The provider's view (core/image-ttl.ts, context-janitor.ts,
      tool-output-cap.ts, tools/truncate.ts, context-budget.ts): [ImageTtl],
      [ContextJanitor], [ToolOutputCap], [Truncate], [ContextBudget] model each
      file whole; [ContextHooks] is the part of agent-session.ts that applies the
      first two before each request and stores the janitor's watermark in the
      session log; [ContextStats] its counters.
    - Goals. [Goals] is core/goals.ts, [GoalSession] the part of agent-session.ts that
      keeps the goal of a session: commands, token and time accounting, budget,
      continuations, and the state's record in the session log. The rest of the
      session is behind [GoalHost], which may do anything but change the goal.
    - Actions of a session (core/session-action-store.ts). [ActionStore] has the turns
      and commands that wait for a session, as objects of a heap with their life cycles,
      the two lanes, the tickets, and the rules by which idle sessions are put away.
    - Scheduled jobs (core/cron-jobs.ts). [CronSchedule] has time zones, calendar and
      schedules, [CronStore] the store of jobs over files that others change and calls
      that are refused, in the monad of [StateError]; [CronRuns] its runs,
      [CronCommands] the heartbeat commands, [CronScheduler] timer, claims and lanes.
    - Semantic edges (core/semantic-edges.ts). [SemanticEdges] is the fold of the
      ledgers of sessions into edges between requests, [EdgeRecorder] the recorder that
      writes a ledger, over [EventLog].
    - Autonomous mode (core/autonomous.ts). [Autonomous] has its limits, its quality
      gates with the snapshots of the work tree, and its continuations; processes and
      files are a world outside of any behaviour. The session, which counts continuations
      of other kinds and restores counts, is not part of it.
    - [StdinBuffer] is packages/tui/src/stdin-buffer.ts: keys and pastes cut out of
      the chunks a terminal sends.
    - [Retry] is provider-retry.ts: the retry loop that [Summarize] sends its
      requests through, and the bounded waits for recovery.
    - [Jev] is packages/agent/src/jev.ts: gates around an external decision
      service, a parameter. [Messages] has the message types of
      packages/ai/src/types.ts and core/messages.ts.
    - Durable files. [FileIO] is a monad over files, memory and the fates of the calls
      to come: a call works, fails, writes less than asked, or is the last one of the
      process; its rules speak of the return, of an error and of a death at once.
      [AtomicFile] is utils/atomic-file.ts; [FileLog] has lines of JSON in a file and
      torn lines; [EventLog] is core/semantic-event-log.ts, [CommandJournal]
      modes/daemon/command-recovery-journal.ts over the two.
    - Wires. [Jsonl] and [PrivateFrame] are the two formats the daemon and its workers
      speak (JSON lines, binary frames), as readers of chunks cut anywhere; [Json]
      prints and parses the JSON of the records.
    - Concurrency. [Semaphore] is utils/semaphore.ts, [EventStream]
      packages/ai/src/utils/event-stream.ts, [DirLock] utils/dir-lock.ts as steps of
      processes that interleave and die.
    - [JsString], [JsNumber], [JsMap] are what the source uses of the language:
      strings of UTF-16 units with UTF-8 encoding and decoding, doubles with their
      rounding, maps in insertion order.

    Every definition that models code is preceded by the lines it translates, as
    an alias of the file (declared at the top of each file) and a line range.

    ** What the theorems show

    - Runs of the agent (AgentRun, AgentTools): every turn answers all the tool calls
      of its message in their order, whatever the tools, the hooks and the
      interleaving do, and a failed or aborted response runs none (an aborted run may
      leave the last calls unanswered); the context, the returned messages and the
      announced messages agree; events follow their protocol; turns taken by the
      router are bounded; a stop gate stops the run. What is assumed of the outside
      ([AgentRun.protocol]): a response starts once, and no listener fails with the error
      of an abort as an answer is announced ([AgentRun.aborting_listener]).
    - The agent (Agent, AgentQueues): its transcript is what was announced, up to what
      callbacks and listeners assign to it, its pending
      calls and streaming message are those of the open events, prompts are refused
      while a run is active, every run ends with the agent idle, and a queued message
      is delivered once, in order, or withdrawn.
    - What providers get: whatever the transcript, every call is answered where the
      interface wants it and nothing else is; complete turns are sent unchanged but for
      identifiers, images and thinking the model cannot use.
    - What providers send: events do not depend on how bytes are cut (but behind a carriage
      return), each response ends once and how, careless JSON is read as it
      was meant, and
      a client that is sent deltas has the message.
    - Spawned sessions: what any process reads is what was appended, no session has two live
      parents, a deleted one has none, families are forests, and a seed ends and is read back.
    - Durability (EventLog, CommandJournal, AtomicFile): a death at any byte loses at
      most the record that was being written; a command that was answered as new is
      known after a restart, of a journal that began on a file without a torn tail; replacing
      a file is all or nothing.
    - Wires: chunks cut anywhere give the records that were written, frame encoding
      round trips, the decoder's buffer of chunks refines one buffer of bytes.
    - Concurrency: the semaphore's bound, fairness and progress; a stream delivers its
      events once and in order; the directory lock excludes, recovers from dead
      owners, and how it can be moved from a living one.
    - Sessions: branches lead to the root, history is only extended, the bytes of a file
      that is up to date load to the log in memory, an append under a rollback is all or
      nothing, a file that a crash damaged is repaired when it is opened, both loaders
      agree, the context grows with each entry, and compacting replaces a prefix.
    - Snapshots: chunks carry the messages in order and within their size; each chunk that
      was stored can be read, each promise of one is settled once and with that chunk.
    - Compaction: where the cut may be and how much is kept; what is handed over to
      be summarised is exactly what the new context no longer shows; the result
      accounts for every request; text and file lists are bounded and faithful.
    - Branches (BranchSummary): what is summarised is exactly what the new branch
      lacks, the newest messages that fit.
    - Editing (EditDiff, DiffRows, EditTool): the new text is the old one with each
      match replaced once, everything outside the matches stays byte by byte, edits
      that are unique apply, changes of a file happen one after the other and none is
      lost, the shown rows are lines of the two texts with their numbers.
    - Output of commands (OutputAccumulator): counts are those of the whole output,
      memory is bounded, a snapshot shows what truncating the whole output would, a
      file whose path is shown is complete.
    - The view of the provider: truncation keeps a prefix or suffix within its
      bounds, evicted images and compressed outputs are exactly those the rules
      name, the janitor prunes once per window, also across a resume.
    - Goals: in every run without moves that write a summary the state is well formed and
      what the log restores ([GoalSession.summary_move_revives] shows such a move), each
      response is counted once, the budget stops the goal, continuations are counted.
    - Session actions: none is lost, doubled or left without its ticket; the order in
      which they are taken; what has ended stays so, and what was dispatched waits again
      only with a proof that it was not delivered.
    - Scheduled jobs: a schedule runs next at the first minute it names; in every run of
      a store no occurrence of a job is dispatched twice; a claim dispatches exactly
      what is due; jobs of a session run one after the other, as claimed.
    - Semantic edges: edges are justified by events and unique, do not depend on the
      order of the ledgers; the recorder knows what its ledger says, also after
      restarts and torn writes; a request is sent again only with the same body.
    - Autonomous mode: a continuation is made within the limits and counted, a round of
      gates tells what the commands did.
    - Terminal input: keys do not depend on the chunks, a paste arrives once, unchanged.
    - Retries: how many attempts, which failures, which result; waits end.

    The examples ([Example]) evaluate the models on small inputs; several of them
    show behaviour that differs from what comments or documents of the source say
    (for instance [ContextHooks.pruned_output_comes_back]).

    ** Bounds and fuel

    [AgentLoop.run_from] takes fuel, one unit per turn or poll: the program's loop
    need not end (a model may call tools forever). The theorems about runs hold for
    every amount of fuel, and a run out of fuel is an outcome of its own that they
    exclude or carry. [SessionTree.walk] takes the number of entries as fuel;
    [session_branch_rooted] shows that this is enough in every reachable session.
    [AtomicFile.write_all] takes the number of bytes as fuel, each turn writes one at
    least; [PrivateFrame.push_loop] the number of unread bytes, each frame takes some.
    [BranchSummary.collect_walk] takes the number of entries, as the walk does;
    [EditDiff.split_turns] the length of the text, each copy found is not empty.
    [StdinBuffer.extract] takes the length of the text, each key takes a unit of it;
    [StdinBuffer.process] one more, the text after a paste is shorter.
    [CronSchedule.first_match] takes a unit for each minute up to the deadline of the
    source; [CronCommands.leading_flags] the length of the text, each flag takes some.
    [AnthropicStream.consume_lines] takes the length of the text, each line takes its break.
    [SpawnFamily.seed_walk] takes [measure]: what is queued and the paths not yet seen.
    [SessionTree.parse_loop] and [SessionRepair.repair_loop] take the number of bytes, each
    line takes some.
    Loops over lists are structural, the retry loop recurses on the retries that
    remain. Counts (tokens, bytes, turns) are integers, exact below 2^53; where the
    source multiplies fractions, results are rounded as doubles are.

    ** What is not modelled

    Network and process code (providers, tools, the Python kernel, MCP,
    the daemon's supervision), user interfaces, the command line, settings and resource loading,
    and the orchestration in agent-session.ts beyond the context hooks and the goal. Within the
    modelled files: session files' naming, listing, forking and migration, the
    tree view, and the pattern that reads a reset
    time from an error text. Time stamps are instants, numbers in tool arguments
    are their text, git contexts are opaque. *)

From stdpp Require Export base list sets numbers option.
From stdpp Require Import tactics.
From Stdlib Require Import ZArith Lia.

(** ** Automation shared by the component files *)

Create HintDb agent discriminated.

(** Splits conjunctive goals and hypotheses, then tries the arithmetic solver. *)
Ltac split_lia := repeat split; try lia.

(** Case analysis on every boolean test or match that blocks the goal. *)
Ltac break_match_goal :=
  match goal with
  | |- context [match ?x with _ => _ end] => destruct x eqn:?
  end.
Ltac break_match_hyp :=
  match goal with
  | H : context [match ?x with _ => _ end] |- _ => destruct x eqn:?
  end.
Ltac break_match := first [break_match_hyp | break_match_goal].

(** Turns the boolean comparisons the code tests into the orders they decide. *)
Ltac to_prop :=
  repeat match goal with
  | H : (_ && _) = true |- _ => apply andb_true_iff in H as [? ?]
  | H : (_ || _) = false |- _ => apply orb_false_iff in H as [? ?]
  | H : negb _ = true |- _ => apply negb_true_iff in H
  | H : negb _ = false |- _ => apply negb_false_iff in H
  | H : (_ <? _)%Z = true |- _ => apply Z.ltb_lt in H
  | H : (_ <? _)%Z = false |- _ => apply Z.ltb_ge in H
  | H : (_ <=? _)%Z = true |- _ => apply Z.leb_le in H
  | H : (_ <=? _)%Z = false |- _ => apply Z.leb_gt in H
  | H : (_ =? _)%Z = true |- _ => apply Z.eqb_eq in H
  | H : (_ =? _)%Z = false |- _ => apply Z.eqb_neq in H
  | H : (_ <? _)%N = true |- _ => apply N.ltb_lt in H
  | H : (_ <? _)%N = false |- _ => apply N.ltb_ge in H
  | H : (_ <=? _)%N = true |- _ => apply N.leb_le in H
  | H : (_ <=? _)%N = false |- _ => apply N.leb_gt in H
  | H : (_ =? _)%N = true |- _ => apply N.eqb_eq in H
  | H : (_ =? _)%N = false |- _ => apply N.eqb_neq in H
  | H : (_ <? _)%nat = true |- _ => apply Nat.ltb_lt in H
  | H : (_ <? _)%nat = false |- _ => apply Nat.ltb_ge in H
  | H : (_ <=? _)%nat = true |- _ => apply Nat.leb_le in H
  | H : (_ <=? _)%nat = false |- _ => apply Nat.leb_gt in H
  | H : (_ =? _)%nat = true |- _ => apply Nat.eqb_eq in H
  | H : (_ =? _)%nat = false |- _ => apply Nat.eqb_neq in H
  | H : bool_decide _ = true |- _ => apply bool_decide_eq_true in H
  | H : bool_decide _ = false |- _ => apply bool_decide_eq_false in H
  end.
Tactic Notation "breaks" := repeat (break_match; to_prop; try lia; try congruence).

(** Sum of an integer measure over a list: the [for (x of xs) total += f(x)] idiom. *)
Definition sumZ {A} (f : A -> Z) (l : list A) : Z := foldr (fun x acc => f x + acc)%Z 0%Z l.
#[global] Arguments sumZ : simpl never.

Section lists.
Context {A B : Type}.
Implicit Types (l k : list A).

Lemma sumZ_app (f : A -> Z) l k : sumZ f (l ++ k) = (sumZ f l + sumZ f k)%Z.
Proof. induction l as [|x l IH]; [done|]. unfold sumZ in *. simpl. lia. Qed.

Lemma sumZ_cons (f : A -> Z) x l : sumZ f (x :: l) = (f x + sumZ f l)%Z.
Proof. done. Qed.

Lemma sumZ_nonneg (f : A -> Z) l : (forall x, 0 <= f x)%Z -> (0 <= sumZ f l)%Z.
Proof. intros Hf. induction l as [|x l IH]; [done|]. rewrite sumZ_cons. specialize (Hf x). lia. Qed.

Lemma sumZ_ext (f g : A -> Z) l : (forall x, f x = g x) -> sumZ f l = sumZ g l.
Proof. intros Hfg. induction l as [|x l IH]; [done|]. by rewrite !sumZ_cons, Hfg, IH. Qed.

Lemma sumZ_le_Forall2 (f : A -> Z) (g : B -> Z) l (k : list B) :
  Forall2 (fun x y => f x <= g y)%Z l k -> (sumZ f l <= sumZ g k)%Z.
Proof. induction 1; [done|]. rewrite sumZ_cons. unfold sumZ in *; simpl in *. lia. Qed.

Lemma Forall2_imap_l (P : A -> B -> Prop) (f : nat -> A -> B) l :
  (forall i x, l !! i = Some x -> P x (f i x)) -> Forall2 P l (imap f l).
Proof.
  revert f. induction l as [|x l IH]; intros f Hf; simpl; constructor.
  - by apply (Hf 0).
  - apply IH. intros i y Hy. by apply (Hf (S i)).
Qed.

Lemma drop_S_lookup l i x : l !! i = Some x -> drop i l = x :: drop (S i) l.
Proof. apply drop_S. Qed.
End lists.

(** Reading an option with a default value: the [??] operator of the source. *)
Definition orElse {A} (o : option A) (d : A) : A := default d o.

(** ** Sorting *)

(** A stable sort, for the comparisons of the source when they order what they compare. *)
Fixpoint insert_by {A} (le : A -> A -> bool) (x : A) (l : list A) : list A :=
  match l with
  | [] => [x]
  | y :: l' => if le x y then x :: l else y :: insert_by le x l'
  end.
Definition sort_by {A} (le : A -> A -> bool) (l : list A) : list A := foldr (insert_by le) [] l.
