(* ===== verification/JsString.v ===== *)
(** * JavaScript strings

    A JavaScript string is its sequence of 16-bit code units. This file gives
    the operations of the language the components use ([split], [join],
    [Buffer.byteLength], [Buffer.from], [toString("utf-8")], [trim], decimal
    printing), with the lemmas on them that the components share. *)

From S2P Require Import Prelude.
From Stdlib Require Import Ascii String.
From Stdlib Require Export ZifyBool ZifyN.
From stdpp Require Export strings.
From stdpp Require Import numbers list.
Local Open Scope N_scope.

(** A string of the program: its UTF-16 code units. *)
Abbreviation jsstr := (list N).

(** An ASCII literal of the source. *)
Definition js (s : string) : jsstr := N_of_ascii <$> String.list_ascii_of_string s.
#[global] Arguments js s%_string_scope : simpl never.

Definition LF : N := 10.

Definition jseqb (a b : jsstr) : bool := bool_decide (a = b).

(** [s.split(c)] for a one-unit separator. *)
Fixpoint split_on (c : N) (s : jsstr) : list jsstr :=
  match s with
  | [] => [[]]
  | x :: s' =>
      if x =? c then [] :: split_on c s'
      else match split_on c s' with
           | [] => [[x]]
           | l :: ls => (x :: l) :: ls
           end
  end.

(** [parts.join(sep)]. *)
Fixpoint join (sep : jsstr) (parts : list jsstr) : jsstr :=
  match parts with
  | [] => []
  | [p] => p
  | p :: rest => p ++ sep ++ join sep rest
  end.

Definition lines_of (s : jsstr) : list jsstr := split_on LF s.
Definition unlines (ls : list jsstr) : jsstr := join [LF] ls.

Definition is_high (u : N) : bool := (0xD800 <=? u) && (u <=? 0xDBFF).
Definition is_low (u : N) : bool := (0xDC00 <=? u) && (u <=? 0xDFFF).
Definition replacement : N := 0xFFFD.

(** The code points an encoder reads from the code units; a lone surrogate is read as U+FFFD. *)
Fixpoint code_points (s : jsstr) : list N :=
  match s with
  | [] => []
  | u :: s' =>
      if is_high u then
        match s' with
        | [] => [replacement]
        | v :: s'' =>
            if is_low v then (0x10000 + (u - 0xD800) * 0x400 + (v - 0xDC00)) :: code_points s''
            else replacement :: code_points s'
        end
      else if is_low u then replacement :: code_points s'
      else u :: code_points s'
  end.

Definition utf8_encode1 (cp : N) : list N :=
  if cp <? 0x80 then [cp]
  else if cp <? 0x800 then [0xC0 + cp / 0x40; 0x80 + cp mod 0x40]
  else if cp <? 0x10000 then
    [0xE0 + cp / 0x1000; 0x80 + (cp / 0x40) mod 0x40; 0x80 + cp mod 0x40]
  else [0xF0 + cp / 0x40000; 0x80 + (cp / 0x1000) mod 0x40;
        0x80 + (cp / 0x40) mod 0x40; 0x80 + cp mod 0x40].

Definition utf8_encode (cps : list N) : list N := cps ≫= utf8_encode1.

(** [Buffer.from(s, "utf-8")]. *)
Definition buffer_from (s : jsstr) : list N := utf8_encode (code_points s).

(** [Buffer.byteLength(s, "utf8")]. *)
Definition byteLength (s : jsstr) : Z := Z.of_nat (length (buffer_from s)).

(** Decoding bytes as the WHATWG decoder does: an ill-formed sequence yields U+FFFD. *)
Inductive dstate := DStart | DCont (needed : nat) (cp lo hi : N).

Definition start_byte (b : N) : list N * dstate :=
  if b <? 0x80 then ([b], DStart)
  else if b <? 0xC2 then ([replacement], DStart)
  else if b <? 0xE0 then ([], DCont 1 (b - 0xC0) 0x80 0xBF)
  else if b <? 0xF0 then
    ([], DCont 2 (b - 0xE0) (if b =? 0xE0 then 0xA0 else 0x80) (if b =? 0xED then 0x9F else 0xBF))
  else if b <? 0xF5 then
    ([], DCont 3 (b - 0xF0) (if b =? 0xF0 then 0x90 else 0x80) (if b =? 0xF4 then 0x8F else 0xBF))
  else ([replacement], DStart).

Fixpoint utf8_decode_from (st : dstate) (bytes : list N) : list N :=
  match bytes with
  | [] => match st with DStart => [] | DCont _ _ _ _ => [replacement] end
  | b :: rest =>
      match st with
      | DStart => let '(out, st') := start_byte b in out ++ utf8_decode_from st' rest
      | DCont n cp lo hi =>
          if (lo <=? b) && (b <=? hi) then
            let cp' := cp * 0x40 + (b - 0x80) in
            match n with
            | S (S n') => utf8_decode_from (DCont (S n') cp' 0x80 0xBF) rest
            | _ => cp' :: utf8_decode_from DStart rest
            end
          else let '(out, st') := start_byte b in
               replacement :: out ++ utf8_decode_from st' rest
      end
  end.

Definition utf16_encode1 (cp : N) : jsstr :=
  if cp <? 0x10000 then [cp]
  else [0xD800 + (cp - 0x10000) / 0x400; 0xDC00 + (cp - 0x10000) mod 0x400].

Definition utf16_encode (cps : list N) : jsstr := cps ≫= utf16_encode1.

(** [buffer.toString("utf-8")]. *)
Definition buffer_toString (bytes : list N) : jsstr :=
  utf16_encode (utf8_decode_from DStart bytes).

(** The white space and line terminators [String.prototype.trim] strips. *)
Definition is_space (u : N) : bool :=
  bool_decide (u ∈ [9; 10; 11; 12; 13; 32; 0xA0; 0x1680; 0x2000; 0x2001; 0x2002; 0x2003; 0x2004;
                    0x2005; 0x2006; 0x2007; 0x2008; 0x2009; 0x200A; 0x2028; 0x2029; 0x202F;
                    0x205F; 0x3000; 0xFEFF]).

Fixpoint trim_start (s : jsstr) : jsstr :=
  match s with
  | [] => []
  | u :: s' => if is_space u then trim_start s' else s
  end.

(** [s.trimEnd()]. *)
Definition trim_end (s : jsstr) : jsstr := reverse (trim_start (reverse s)).
Definition trim (s : jsstr) : jsstr := trim_end (trim_start s).

(** Lower case of the letters that map to ASCII letters: [A-Z] and the Kelvin sign. *)
Definition lower1 (u : N) : N :=
  if (65 <=? u) && (u <=? 90) then u + 32 else if u =? 0x212A then 107 else u.

Definition is_digit (u : N) : bool := (48 <=? u) && (u <=? 57).

(** [`${n}`] for an integer [n]. *)
Fixpoint digits_aux (fuel : nat) (n : N) (acc : jsstr) : jsstr :=
  match fuel with
  | O => acc
  | S fuel' =>
      let acc' := (48 + n mod 10) :: acc in
      if n <? 10 then acc' else digits_aux fuel' (n / 10) acc'
  end.

Definition show_N (n : N) : jsstr := digits_aux (S (N.to_nat (N.log2 n))) n [].
Definition show_Z (z : Z) : jsstr :=
  if (z <? 0)%Z then 45 :: show_N (Z.to_N (- z)) else show_N (Z.to_N z).

(** [hay.includes(needle)]. *)
Definition starts_with (p s : jsstr) : bool := bool_decide (p = take (length p) s).
Definition ends_with (suffix s : jsstr) : bool := starts_with (reverse suffix) (reverse s).
Fixpoint includes (needle hay : jsstr) : bool :=
  starts_with needle hay || match hay with [] => false | _ :: hay' => includes needle hay' end.

(** [s.slice(0, e)]; a negative end counts from the end of the string. *)
Definition slice_to (e : Z) (s : jsstr) : jsstr :=
  take (Z.to_nat (if (e <? 0)%Z then Z.max (Z.of_nat (length s) + e) 0 else e)) s.

Example show_Z_ex : show_Z (-1205) = js "-1205". Proof. reflexivity. Qed.
Example byteLength_ex : byteLength [0x61; 0xE9; 0x20AC; 0xD83D; 0xDE00; 0xD800] = 13%Z.
Proof. reflexivity. Qed.
Example buffer_roundtrip_ex :
  buffer_toString (buffer_from [0x61; 0xE9; 0x20AC; 0xD83D; 0xDE00]) = [0x61; 0xE9; 0x20AC; 0xD83D; 0xDE00].
Proof. reflexivity. Qed.

(** ** White space *)

Lemma trim_start_idle s : match s with u :: _ => is_space u = false | [] => True end -> trim_start s = s.
Proof. destruct s as [|u s]; simpl; [done|]. by intros ->. Qed.
Lemma trim_start_head s : match trim_start s with u :: _ => is_space u = false | [] => True end.
Proof. induction s as [|u s IH]; simpl; [done|]. by destruct (is_space u) eqn:?. Qed.
Lemma trim_start_split s : exists a, s = a ++ trim_start s /\ Forall (fun u => is_space u = true) a.
Proof.
  induction s as [|u s (a & E & H)]; cbn [trim_start]; [by exists []|]. destruct (is_space u) eqn:Eu; [|by exists []].
  exists (u :: a). split; [by rewrite E at 1|by constructor].
Qed.
Lemma trim_end_split s : exists b, s = trim_end s ++ b /\ Forall (fun u => is_space u = true) b.
Proof.
  destruct (trim_start_split (reverse s)) as (a & E & H). exists (reverse a). unfold trim_end. rewrite <- reverse_app, <- E, reverse_involutive.
  split; [done|by apply Forall_reverse].
Qed.
Lemma trim_end_idem s : trim_end (trim_end s) = trim_end s.
Proof. unfold trim_end. rewrite reverse_involutive, trim_start_idle; [done|apply trim_start_head]. Qed.
Lemma trim_end_head s : match s with u :: _ => is_space u = false | [] => True end -> trim_start (trim_end s) = trim_end s.
Proof.
  intros Hs. apply trim_start_idle. destruct (trim_end_split s) as (b & E & _). destruct (trim_end s) as [|u t]; [done|].
  rewrite E in Hs. done.
Qed.
Lemma trim_idem s : trim (trim s) = trim s.
Proof. unfold trim. by rewrite (trim_end_head (trim_start s)), trim_end_idem by apply trim_start_head. Qed.
Lemma trim_end_trimmed s : trim s = s -> trim (trim_end s) = trim_end s.
Proof.
  intros Hs. unfold trim. rewrite trim_end_head, trim_end_idem; [done|]. rewrite <- Hs. unfold trim. rewrite <- trim_end_head; [|apply trim_start_head].
  apply trim_start_head.
Qed.

(** ** Lines *)

Lemma split_on_nonempty c s : split_on c s <> [].
Proof. destruct s as [|x s]; simpl; [done|]. destruct (x =? c); [done|]. by destruct (split_on c s). Qed.

Lemma join_cons sep p rest :
  rest <> [] -> join sep (p :: rest) = p ++ sep ++ join sep rest.
Proof. by destruct rest. Qed.

Lemma join_cons_head sep x l ls : join sep ((x :: l) :: ls) = x :: join sep (l :: ls).
Proof. by destruct ls. Qed.

(** Splitting and joining with the same separator restores the string. *)
Lemma join_split c s : join [c] (split_on c s) = s.
Proof.
  induction s as [|x s IH]; [done|]. simpl. destruct (x =? c) eqn:E; to_prop.
  - rewrite join_cons by apply split_on_nonempty. rewrite IH. by subst.
  - pose proof (split_on_nonempty c s). destruct (split_on c s) as [|l ls]; [done|].
    by rewrite join_cons_head, IH.
Qed.

Lemma split_on_no_sep c s : Forall (fun l => c ∉ l) (split_on c s).
Proof.
  induction s as [|x s IH]; simpl; [repeat constructor; set_solver|].
  destruct (x =? c) eqn:E; to_prop; [constructor; [set_solver|done]|].
  destruct (split_on c s) as [|l ls]; [repeat constructor; set_solver|].
  inversion IH; subst. constructor; [|done]. set_solver.
Qed.

Lemma split_on_plain c l : c ∉ l -> split_on c l = [l].
Proof.
  induction l as [|x l IH]; simpl; [done|]. intros Hn.
  destruct (x =? c) eqn:E; to_prop; [set_solver|]. rewrite IH by set_solver. done.
Qed.

Lemma split_on_app_sep c l s : c ∉ l -> split_on c (l ++ c :: s) = l :: split_on c s.
Proof.
  induction l as [|x l IH]; simpl; intros Hn; [by rewrite N.eqb_refl|].
  destruct (x =? c) eqn:E; to_prop; [set_solver|]. by rewrite IH by set_solver.
Qed.

(** Joining lines that contain no separator and splitting again gives them back. *)
Lemma split_join c ls :
  ls <> [] -> Forall (fun l => c ∉ l) ls -> split_on c (join [c] ls) = ls.
Proof.
  induction ls as [|l ls IH]; [done|]. intros _ Hf. inversion Hf as [|?? Hl Hls]; subst.
  destruct ls as [|l' ls]; [by apply split_on_plain|].
  rewrite join_cons by done. change ([c] ++ ?r) with (c :: r).
  rewrite split_on_app_sep by done. f_equal. by apply IH.
Qed.

(** ** UTF-16 and UTF-8 *)

(** Code units are 16 bits wide. *)
Definition js_wf (s : jsstr) : Prop := Forall (fun u => u < 0x10000) s.

(** A Unicode scalar value: a code point that is not a surrogate. *)
Definition is_scalar (cp : N) : Prop := cp < 0xD800 \/ (0xE000 <= cp < 0x110000).

(** Induction along the reading of [code_points]: one unit, or a surrogate pair, at a time. *)
Lemma units_ind (P : jsstr -> Prop) :
  P [] -> (forall u, P [u]) ->
  (forall u v s, P s -> P (v :: s) -> P (u :: v :: s)) ->
  forall s, P s.
Proof.
  intros H0 H1 H2 s. assert (P s /\ forall u, P (u :: s)) as [? _]; [|done].
  induction s as [|v s [IH1 IH2]]; [by auto|]. split; [by apply IH2|].
  intros u. by apply H2.
Qed.

Lemma code_points_cons_plain u s :
  is_high u = false -> is_low u = false -> code_points (u :: s) = u :: code_points s.
Proof. intros H1 H2. simpl. by rewrite H1, H2. Qed.

Lemma code_points_cons2 u v s :
  code_points (u :: v :: s) =
    if is_high u then
      if is_low v then (0x10000 + (u - 0xD800) * 0x400 + (v - 0xDC00)) :: code_points s
      else replacement :: code_points (v :: s)
    else if is_low u then replacement :: code_points (v :: s)
    else u :: code_points (v :: s).
Proof. done. Qed.

(** A unit that is no surrogate separates the readings of what precedes and follows it. *)
Lemma code_points_app_plain a u s :
  is_high u = false -> is_low u = false ->
  code_points (a ++ u :: s) = code_points a ++ u :: code_points s.
Proof.
  intros Hh Hl. induction a as [|x|x y a IH1 IH2] using units_ind.
  - by apply code_points_cons_plain.
  - simpl. rewrite Hh, Hl. destruct (is_high x), (is_low x); done.
  - change ((x :: y :: a) ++ u :: s) with (x :: y :: (a ++ u :: s)).
    change ((y :: a) ++ u :: s) with (y :: (a ++ u :: s)) in IH2.
    rewrite !code_points_cons2, IH1, IH2. by repeat case_match.
Qed.

Lemma buffer_from_app_LF a s : buffer_from (a ++ LF :: s) = buffer_from a ++ LF :: buffer_from s.
Proof.
  unfold buffer_from, utf8_encode. rewrite code_points_app_plain by done.
  by rewrite bind_app.
Qed.

Lemma byteLength_nonneg s : (0 <= byteLength s)%Z.
Proof. unfold byteLength. lia. Qed.

Lemma byteLength_nil : byteLength [] = 0%Z.
Proof. done. Qed.

Lemma byteLength_app_LF a s : byteLength (a ++ LF :: s) = (byteLength a + 1 + byteLength s)%Z.
Proof. unfold byteLength. rewrite buffer_from_app_LF, length_app. simpl. lia. Qed.

(** The bytes of joined lines: their own, and one per separator. *)
Lemma byteLength_unlines ls :
  byteLength (unlines ls) = (sumZ byteLength ls + Z.of_nat (pred (length ls)))%Z.
Proof.
  unfold unlines. induction ls as [|l ls IH]; [done|]. destruct ls as [|l' ls].
  - unfold sumZ. simpl. lia.
  - rewrite join_cons by done. change ([LF] ++ ?r) with (LF :: r).
    rewrite byteLength_app_LF, IH, (sumZ_cons _ l). cbn [length pred]. lia.
Qed.

Lemma unlines_lines s : unlines (lines_of s) = s.
Proof. apply join_split. Qed.

Lemma lines_unlines ls :
  ls <> [] -> Forall (fun l => LF ∉ l) ls -> lines_of (unlines ls) = ls.
Proof. apply split_join. Qed.

Lemma lines_of_nonempty s : lines_of s <> [].
Proof. apply split_on_nonempty. Qed.

Lemma lines_of_no_LF s : Forall (fun l => LF ∉ l) (lines_of s).
Proof. apply split_on_no_sep. Qed.

(** Arithmetic on the fields of an encoded code point. *)
Ltac solve_bytes :=
  repeat match goal with
  | |- context [?a / ?b] => let q := fresh "q" in let H := fresh in
      pose proof (N.div_mod a b ltac:(lia)) as H; pose proof (N.mod_lt a b ltac:(lia));
      set (q := a / b) in *
  end; lia.

Lemma is_surrogate_false u : is_scalar u -> is_high u = false /\ is_low u = false.
Proof. unfold is_scalar, is_high, is_low. lia. Qed.

Lemma code_points_scalar s : js_wf s -> Forall is_scalar (code_points s).
Proof.
  induction s as [|u|u v s IH1 IH2] using units_ind; intros Hwf; [constructor|..].
  - inversion Hwf; subst. cbn [code_points].
    destruct (is_high u) eqn:?; [|destruct (is_low u) eqn:?]; apply Forall_singleton;
      unfold is_high, is_low, is_scalar, replacement in *; lia.
  - inversion Hwf as [|? ? Hu Hwf']; subst. inversion Hwf' as [|? ? Hv Hwf'']; subst.
    specialize (IH1 Hwf''). specialize (IH2 Hwf'). rewrite code_points_cons2.
    assert (is_scalar replacement) by (unfold is_scalar, replacement; lia).
    destruct (is_high u) eqn:Eh; [destruct (is_low v) eqn:El|destruct (is_low u) eqn:El].
    + constructor; [|done]. unfold is_high, is_low, is_scalar in *. lia.
    + by constructor.
    + by constructor.
    + constructor; [|done]. unfold is_high, is_low, is_scalar in *. lia.
Qed.

Lemma code_points_utf16_encode cps : Forall is_scalar cps -> code_points (utf16_encode cps) = cps.
Proof.
  induction 1 as [|cp cps Hcp _ IH]; [done|].
  change (utf16_encode (cp :: cps)) with (utf16_encode1 cp ++ utf16_encode cps).
  unfold utf16_encode1. destruct (cp <? 0x10000) eqn:E; to_prop.
  - apply is_surrogate_false in Hcp as [H1 H2].
    change ([cp] ++ ?r) with (cp :: r). by rewrite code_points_cons_plain, IH.
  - simpl app. cbn [code_points].
    assert (cp < 0x110000) by (unfold is_scalar in Hcp; lia).
    pose proof (N.div_mod (cp - 0x10000) 0x400 ltac:(lia)) as Hdm.
    pose proof (N.mod_lt (cp - 0x10000) 0x400 ltac:(lia)) as Hlt.
    set (q := (cp - 0x10000) / 0x400) in *. set (r := (cp - 0x10000) mod 0x400) in *.
    assert (q < 0x400) by lia.
    replace (is_high (0xD800 + q)) with true
      by (unfold is_high; lia).
    replace (is_low (0xDC00 + r)) with true
      by (unfold is_low; lia).
    rewrite IH. f_equal. lia.
Qed.

(** Splits the lowest six bits off a code point, as the encoder does. *)
Ltac split64 x :=
  pose proof (N.div_mod x 0x40 ltac:(lia)); pose proof (N.mod_lt x 0x40 ltac:(lia));
  let q := fresh "q" in let r := fresh "r" in
  set (q := x / 0x40) in *; set (r := x mod 0x40) in *.

Lemma start_byte_2 q : 2 <= q < 0x20 -> start_byte (0xC0 + q) = ([], DCont 1 q 0x80 0xBF).
Proof.
  intros H. unfold start_byte.
  replace (0xC0 + q <? 0x80) with false by lia. replace (0xC0 + q <? 0xC2) with false by lia.
  replace (0xC0 + q <? 0xE0) with true by lia. do 2 f_equal. lia.
Qed.

Lemma start_byte_3 q :
  q < 0x10 ->
  start_byte (0xE0 + q) =
    ([], DCont 2 q (if q =? 0 then 0xA0 else 0x80) (if q =? 0xD then 0x9F else 0xBF)).
Proof.
  intros H. unfold start_byte.
  replace (0xE0 + q <? 0x80) with false by lia. replace (0xE0 + q <? 0xC2) with false by lia.
  replace (0xE0 + q <? 0xE0) with false by lia. replace (0xE0 + q <? 0xF0) with true by lia.
  replace (0xE0 + q =? 0xE0) with (q =? 0) by lia. replace (0xE0 + q =? 0xED) with (q =? 0xD) by lia.
  do 2 f_equal. lia.
Qed.

Lemma start_byte_4 q :
  q < 5 ->
  start_byte (0xF0 + q) =
    ([], DCont 3 q (if q =? 0 then 0x90 else 0x80) (if q =? 4 then 0x8F else 0xBF)).
Proof.
  intros H. unfold start_byte.
  replace (0xF0 + q <? 0x80) with false by lia. replace (0xF0 + q <? 0xC2) with false by lia.
  replace (0xF0 + q <? 0xE0) with false by lia. replace (0xF0 + q <? 0xF0) with false by lia.
  replace (0xF0 + q <? 0xF5) with true by lia.
  replace (0xF0 + q =? 0xF0) with (q =? 0) by lia. replace (0xF0 + q =? 0xF4) with (q =? 4) by lia.
  do 2 f_equal. lia.
Qed.

Lemma decode_start b rest :
  utf8_decode_from DStart (b :: rest) =
    (start_byte b).1 ++ utf8_decode_from (start_byte b).2 rest.
Proof. simpl. by destruct (start_byte b). Qed.

Lemma decode_cont n cp lo hi r rest :
  lo <= 0x80 + r <= hi ->
  utf8_decode_from (DCont n cp lo hi) ((0x80 + r) :: rest) =
    match n with
    | S (S n') => utf8_decode_from (DCont (S n') (cp * 0x40 + r) 0x80 0xBF) rest
    | _ => (cp * 0x40 + r) :: utf8_decode_from DStart rest
    end.
Proof.
  intros H. cbn [utf8_decode_from].
  replace ((lo <=? 0x80 + r) && (0x80 + r <=? hi)) with true by lia.
  by replace (0x80 + r - 0x80) with r by lia.
Qed.

(** Decoding what was encoded gives the code points back. *)
Lemma utf8_decode_encode1 cp bytes :
  is_scalar cp ->
  utf8_decode_from DStart (utf8_encode1 cp ++ bytes) = cp :: utf8_decode_from DStart bytes.
Proof.
  intros Hs. unfold utf8_encode1, is_scalar in *.
  destruct (cp <? 0x80) eqn:E1; to_prop; [|destruct (cp <? 0x800) eqn:E2; to_prop;
    [|destruct (cp <? 0x10000) eqn:E3; to_prop]]; simpl app; rewrite decode_start.
  - unfold start_byte. by replace (cp <? 0x80) with true by lia.
  - split64 cp. rewrite start_byte_2 by lia. cbn [fst snd app]. rewrite decode_cont by lia. f_equal. lia.
  - replace (cp / 0x1000) with (cp / 0x40 / 0x40) by (rewrite N.Div0.div_div; done).
    split64 cp. split64 q. rewrite start_byte_3 by lia. cbn [fst snd app].
    rewrite !decode_cont by (repeat case_match; lia). f_equal. lia.
  - replace (cp / 0x1000) with (cp / 0x40 / 0x40) by (rewrite N.Div0.div_div; done).
    replace (cp / 0x40000) with (cp / 0x40 / 0x40 / 0x40) by (rewrite !N.Div0.div_div; done).
    split64 cp. split64 q. split64 q0. rewrite start_byte_4 by lia. cbn [fst snd app].
    rewrite !decode_cont by (repeat case_match; lia). f_equal. lia.
Qed.

Lemma utf8_decode_encode cps :
  Forall is_scalar cps -> utf8_decode_from DStart (utf8_encode cps) = cps.
Proof.
  induction 1 as [|cp cps Hcp _ IH]; [done|].
  change (utf8_encode (cp :: cps)) with (utf8_encode1 cp ++ utf8_encode cps).
  by rewrite utf8_decode_encode1, IH.
Qed.

(** The bytes of a string decoded from encoded code points are those bytes. *)
Lemma buffer_from_toString cps :
  Forall is_scalar cps -> buffer_from (buffer_toString (utf8_encode cps)) = utf8_encode cps.
Proof.
  intros H. unfold buffer_from, buffer_toString.
  by rewrite utf8_decode_encode, code_points_utf16_encode.
Qed.

(** A continuation byte: [(b & 0xc0) === 0x80]. *)
Definition is_cont (b : N) : bool := N.land b 0xC0 =? 0x80.

Lemma is_cont_spec b : b < 0x100 -> is_cont b = (0x80 <=? b) && (b <? 0xC0).
Proof.
  intros H. assert (Hall : forallb (fun b => eqb (is_cont b) ((0x80 <=? b) && (b <? 0xC0)))
    (N.of_nat <$> seq 0 256) = true) by by vm_compute.
  rewrite forallb_forall in Hall. apply eqb_prop, Hall.
  apply list_elem_of_In, list_elem_of_fmap. exists (N.to_nat b). split; [lia|].
  apply elem_of_seq. lia.
Qed.

Lemma is_cont_tail r : r < 0x40 -> is_cont (0x80 + r) = true.
Proof. intros H. rewrite is_cont_spec by lia. lia. Qed.

Lemma is_cont_lead b : b < 0x80 \/ 0xC0 <= b < 0x100 -> is_cont b = false.
Proof. intros H. rewrite is_cont_spec by lia. lia. Qed.

(** An encoded code point is one leading byte followed by continuation bytes. *)
Lemma utf8_encode1_shape cp :
  is_scalar cp ->
  exists b bs, utf8_encode1 cp = b :: bs /\ is_cont b = false /\ Forall (fun x => is_cont x = true) bs.
Proof.
  intros Hs. assert (cp < 0x110000) as Hlt by (unfold is_scalar in Hs; lia). clear Hs.
  assert (Hm : forall x, x mod 0x40 < 0x40) by (intros x; apply N.mod_lt; lia).
  unfold utf8_encode1.
  destruct (cp <? 0x80) eqn:E1; to_prop; [|destruct (cp <? 0x800) eqn:E2; to_prop;
    [|destruct (cp <? 0x10000) eqn:E3; to_prop]]; (eexists _, _; split; [reflexivity|]);
    (split; [apply is_cont_lead|by auto using is_cont_tail]).
  - lia.
  - right. pose proof (N.Div0.div_lt_upper_bound cp 0x40 0x40 ltac:(lia)). lia.
  - right. pose proof (N.Div0.div_lt_upper_bound cp 0x1000 0x10 ltac:(lia)). lia.
  - right. pose proof (N.Div0.div_lt_upper_bound cp 0x40000 0x10 ltac:(lia)). lia.
Qed.

(** ** Newlines *)

Lemma split_on_app c a b : split_on c (a ++ c :: b) = split_on c a ++ split_on c b.
Proof.
  induction a as [|x a IH]; simpl; [by rewrite N.eqb_refl|].
  destruct (x =? c); [by rewrite IH|]. rewrite IH.
  pose proof (split_on_nonempty c a). by destruct (split_on c a).
Qed.

Lemma split_on_join c (a b : list N) xs x y ys : split_on c a = xs ++ [x] -> split_on c b = y :: ys -> split_on c (a ++ b) = xs ++ (x ++ y) :: ys.
Proof.
  intros Ha Hb. revert xs x Ha. induction a as [|u a IH]; intros xs x Ha; cbn [app split_on] in *.
  - destruct xs as [|? xs]; [|by destruct xs]. by injection Ha as <-.
  - destruct (u =? c)%N.
    + destruct xs as [|l xs]; injection Ha as <- Ha; [by apply split_on_nonempty in Ha|]. by rewrite (IH xs x).
    + pose proof (split_on_nonempty c a) as Hne. destruct (split_on c a) as [|l ls] eqn:El; [done|].
      destruct xs as [|l' xs]; injection Ha as <- Ha.
      * subst. by rewrite (IH [] l).
      * subst. by rewrite (IH (l :: xs) x).
Qed.
Lemma lines_of_app a b : lines_of (a ++ LF :: b) = lines_of a ++ lines_of b.
Proof. apply split_on_app. Qed.

Lemma LF_utf8_encode1 cp : LF ∈ utf8_encode1 cp -> cp = LF.
Proof.
  unfold utf8_encode1, LF. repeat case_match; to_prop; rewrite ?elem_of_cons, ?elem_of_nil;
    intuition lia.
Qed.

Lemma LF_code_points s : LF ∈ code_points s -> LF ∈ s.
Proof.
  induction s as [|u|u v s IH1 IH2] using units_ind; [done| |].
  - cbn [code_points]. destruct (is_high u); [set_solver|]. destruct (is_low u); set_solver.
  - rewrite code_points_cons2.
    destruct (is_high u); [destruct (is_low v)|destruct (is_low u)]; rewrite elem_of_cons;
      intros [Heq|Hin]; try (apply elem_of_cons; auto; fail); try (rewrite !elem_of_cons; auto; fail);
      try discriminate; unfold LF in *; lia.
Qed.

Lemma LF_buffer_from s : LF ∈ s -> LF ∈ buffer_from s.
Proof. intros (a & b & ->)%list_elem_of_split. rewrite buffer_from_app_LF. set_solver. Qed.

(** A string cut out of the characters of a line is on one line. *)
Lemma no_LF_of_bytes s line k :
  LF ∉ line -> buffer_from s = utf8_encode (drop k (code_points line)) -> LF ∉ s.
Proof.
  intros Hl Hs Hin%LF_buffer_from. rewrite Hs in Hin. apply Hl, LF_code_points.
  unfold utf8_encode in Hin. apply list_elem_of_bind in Hin as (cp & Hcp%LF_utf8_encode1 & Hd). subst.
  rewrite <- (take_drop k (code_points line)). set_solver.
Qed.

(** ** Streaming decoders

    [StringDecoder] and [TextDecoder] with [stream: true] keep the bytes of a character that is not whole yet. *)

Fixpoint decode_chunk (st : dstate) (bytes : list N) : list N * dstate :=
  match bytes with
  | [] => ([], st)
  | b :: rest =>
      match st with
      | DStart => let '(out, st') := start_byte b in let '(more, st2) := decode_chunk st' rest in (out ++ more, st2)
      | DCont n cp lo hi =>
          if (lo <=? b) && (b <=? hi) then
            let cp' := cp * 0x40 + (b - 0x80) in
            match n with
            | S (S n') => decode_chunk (DCont (S n') cp' 0x80 0xBF) rest
            | _ => let '(more, st2) := decode_chunk DStart rest in (cp' :: more, st2)
            end
          else let '(out, st') := start_byte b in
               let '(more, st2) := decode_chunk st' rest in (replacement :: out ++ more, st2)
      end
  end.

(** What is left of an incomplete character at the end. *)
Definition decode_end (st : dstate) : list N := utf8_decode_from st [].

(** Decoding in pieces is decoding at once. *)
Lemma decode_chunk_app st a b :
  utf8_decode_from st (a ++ b) = (decode_chunk st a).1 ++ utf8_decode_from (decode_chunk st a).2 b.
Proof.
  revert st. induction a as [|x a IH]; intros st; [done|]. destruct st as [|n cp lo hi]; cbn [app utf8_decode_from decode_chunk].
  - destruct (start_byte x) as [out st']. rewrite IH. destruct (decode_chunk st' a). cbn. by rewrite (assoc_L app).
  - destruct (_ && _).
    + destruct n as [|[|n']]; [| |apply IH]; rewrite IH; by destruct (decode_chunk DStart a).
    + destruct (start_byte x) as [out st']. rewrite IH. destruct (decode_chunk st' a). cbn. by rewrite (assoc_L app).
Qed.

Lemma utf16_encode_app a b : utf16_encode (a ++ b) = utf16_encode a ++ utf16_encode b.
Proof. apply bind_app. Qed.

(** ** Searching *)

Section searching.
Local Open Scope nat_scope.

(** [s.indexOf(p)]. *)
Fixpoint indexOf (p s : jsstr) : option nat :=
  if starts_with p s then Some 0
  else match s with [] => None | _ :: s' => S <$> indexOf p s' end.

(** [p] stands at position [i] of [s]; it occurs. *)
Definition stands_at (p s : jsstr) (i : nat) : Prop := exists a b, s = a ++ p ++ b /\ length a = i.
Definition contains (p s : jsstr) : Prop := exists a b, s = a ++ p ++ b.

Lemma starts_with_spec p s : starts_with p s = true <-> exists b, s = p ++ b.
Proof.
  unfold starts_with. rewrite bool_decide_eq_true. split.
  - intros H. exists (drop (length p) s). rewrite H at 1. by rewrite take_drop.
  - intros [b ->]. by rewrite take_app_length.
Qed.

Lemma indexOf_Some p s i : indexOf p s = Some i -> stands_at p s i.
Proof.
  revert i. induction s as [|u s IH]; intros i; simpl; destruct (starts_with _ _) eqn:E.
  1,3: intros [= <-]; apply starts_with_spec in E as [b E]; exists [], b; done.
  - done.
  - destruct (indexOf p s) as [j|]; intros [= <-]. destruct (IH j eq_refl) as (a & b & -> & <-). by exists (u :: a), b.
Qed.

(** The first occurrence is found. *)
Lemma indexOf_first p a b : exists i, indexOf p (a ++ p ++ b) = Some i /\ i <= length a.
Proof.
  assert (Hs : forall s, starts_with p (p ++ s) = true) by (intros s; apply starts_with_spec; by exists s).
  induction a as [|u a (i & Hi & Hle)].
  - exists 0. simpl. split; [|lia]. specialize (Hs b). destruct (p ++ b); simpl; by rewrite Hs.
  - simpl. destruct (starts_with _ _); [exists 0; split; [done|lia]|]. exists (S i). rewrite Hi. split; [done|simpl; lia].
Qed.
Lemma indexOf_None p s : indexOf p s = None <-> ~ contains p s.
Proof.
  split.
  - intros H (a & b & ->). destruct (indexOf_first p a b) as (i & Hi & _). congruence.
  - intros H. destruct (indexOf p s) as [i|] eqn:E; [|done]. apply indexOf_Some in E as (a & b & -> & _). destruct H. by exists a, b.
Qed.

Lemma stands_contains p s i : stands_at p s i -> contains p s.
Proof. intros (a & b & -> & _). by exists a, b. Qed.
Lemma stands_at_spec p s i : stands_at p s i <-> i + length p <= length s /\ drop i s = p ++ drop (i + length p) s.
Proof.
  split.
  - intros (a & b & -> & <-). rewrite drop_app_length. rewrite (assoc_L (++) a), <- length_app, drop_app_length, !length_app. split; [lia|done].
  - intros [Hle Hd]. exists (take i s), (drop (i + length p) s). rewrite <- Hd, take_drop, length_take. split; [done|lia].
Qed.
End searching.
