(* ===== verification/JsNumber.v ===== *)
(** * JavaScript numbers

    A number is an IEEE double: a rational, an infinity or NaN. [rnd] rounds a
    rational to the nearest double (ties to even, subnormals included), so the
    products, quotients and sums the source computes are modelled with their
    rounding. [Number(s)] is the conversion the environment variables go
    through. Counts of lines, bytes, tokens and turns, which the source only
    adds and compares, are kept as [Z] in the other files: the sums of such
    counts are exact below 2^53. *)

From S2P Require Import Prelude JsString.
From Stdlib Require Export QArith Qround.
Local Open Scope Z_scope.

(** [num / den] rounded to an integer, ties to even, for [0 <= num] and [0 < den]. *)
Definition round_half_even (num den : Z) : Z :=
  let f := num / den in
  let r := num mod den in
  if 2 * r <? den then f else if den <? 2 * r then f + 1 else if Z.even f then f else f + 1.

(** [floor (log2 (n / d))] for positive [n] and [d]. *)
Definition log2_quot (n d : Z) : Z :=
  let e := Z.log2 n - Z.log2 d in
  if 0 <=? e then (if n <? d * 2 ^ e then e - 1 else e)
  else (if n * 2 ^ (- e) <? d then e - 1 else e).

(** The exponent of the last bit of the double next to [n / d]. *)
Definition ulp_exponent (n d : Z) : Z := Z.max (log2_quot n d - 52) (-1074).

(** [n / d] to the nearest multiple of [2 ^ u]. *)
Definition round_at (u n d : Z) : Q :=
  if 0 <=? u then inject_Z (round_half_even n (d * 2 ^ u) * 2 ^ u)
  else Qmake (round_half_even (n * 2 ^ (- u)) d) (Z.to_pos (2 ^ (- u))).

(** The double nearest to a rational, with an unbounded exponent above. *)
Definition rnd (q : Q) : Q :=
  let n := Qnum q in
  let d := Zpos (Qden q) in
  if n =? 0 then 0%Q
  else if 0 <? n then Qred (round_at (ulp_exponent n d) n d)
  else Qred (Qopp (round_at (ulp_exponent (- n) d) (- n) d)).

Inductive num := Fin (q : Q) | Inf (negative : bool) | NaN.

(** A rational result as a number: it overflows to an infinity at [2 ^ 1024]. *)
Definition to_num (q : Q) : num :=
  let r := rnd q in
  if Qle_bool (inject_Z (2 ^ 1024)) r then Inf false
  else if Qle_bool r (inject_Z (- 2 ^ 1024)) then Inf true
  else Fin r.

(** [Number.isFinite], [Number.isInteger] and the comparisons; every comparison with NaN is false. *)
Definition is_finite (x : num) : bool := match x with Fin _ => true | _ => false end.
Definition is_integer (x : num) : bool := match x with Fin q => Zpos (Qden (Qred q)) =? 1 | _ => false end.
Definition num_le (x y : num) : bool :=
  match x, y with
  | NaN, _ | _, NaN => false
  | Inf true, _ | _, Inf false => true
  | Inf false, _ | _, Inf true => false
  | Fin a, Fin b => Qle_bool a b
  end.
Definition num_lt (x y : num) : bool :=
  match x, y with
  | NaN, _ | _, NaN => false
  | _, _ => negb (num_le y x)
  end.
Definition num_Z (z : Z) : num := Fin (inject_Z z).
#[global] Arguments num_lt : simpl never.
#[global] Arguments num_le : simpl never.
#[global] Arguments to_num : simpl never.

(** ** [Number(s)] *)

Fixpoint span (p : N -> bool) (s : jsstr) : jsstr * jsstr :=
  match s with
  | [] => ([], [])
  | u :: s' => if p u then let '(a, b) := span p s' in (u :: a, b) else ([], s)
  end.

Definition digits_value (base : Z) (f : N -> Z) (ds : jsstr) : Z :=
  foldl (fun acc d => acc * base + f d) 0 ds.
Definition dec_digit (u : N) : Z := Z.of_N u - 48.

(** [m * 10 ^ e]. *)
Definition scale10 (m e : Z) : Q :=
  if 0 <=? e then inject_Z (m * 10 ^ e) else Qmake m (Z.to_pos (10 ^ (- e))).

(** The exponent part: nothing, or [e] or [E], a sign and digits up to the end. *)
Definition parse_exponent (s : jsstr) : option Z :=
  match s with
  | [] => Some 0
  | e :: s1 =>
      if (e =? 101)%N || (e =? 69)%N then
        let '(sign, s2) := match s1 with
          | c :: r => if (c =? 45)%N then (-1, r) else if (c =? 43)%N then (1, r) else (1, s1)
          | [] => (1, s1) end in
        let '(ds, rest) := span is_digit s2 in
        match ds, rest with
        | _ :: _, [] => Some (sign * digits_value 10 dec_digit ds)
        | _, _ => None
        end
      else None
  end.

(** Digits with an optional point and exponent. *)
Definition parse_decimal (s : jsstr) : option Q :=
  let '(ip, r) := span is_digit s in
  let '(fp, r') := match r with
    | c :: r1 => if (c =? 46)%N then span is_digit r1 else ([], r)
    | [] => ([], r) end in
  match ip ++ fp with
  | [] => None
  | ds => match parse_exponent r' with
          | Some e => Some (scale10 (digits_value 10 dec_digit ds) (e - Z.of_nat (length fp)))
          | None => None
          end
  end.

Definition hex_value (u : N) : option Z :=
  (if is_digit u then Some (Z.of_N u - 48)
   else if (97 <=? u)%N && (u <=? 102)%N then Some (Z.of_N u - 87)
   else if (65 <=? u)%N && (u <=? 70)%N then Some (Z.of_N u - 55) else None).

(** The digits after [0x], [0o] or [0b]. *)
Definition parse_radix (base : Z) (s : jsstr) : option Q :=
  match s with
  | [] => None
  | _ => foldl (fun acc u =>
           match acc, hex_value u with
           | Some q, Some v => if v <? base then Some (q * inject_Z base + inject_Z v)%Q else None
           | _, _ => None
           end) (Some 0%Q) s
  end.

Definition signed (s : jsstr) : bool * jsstr :=
  match s with
  | c :: r => if (c =? 45)%N then (true, r) else if (c =? 43)%N then (false, r) else (false, s)
  | [] => (false, s)
  end.

(** [Number(s)] for a string [s]. *)
Definition Number (s : jsstr) : num :=
  let s := trim s in
  match s with
  | [] => Fin 0
  | _ =>
      let radix := match s with
        | 48%N :: c :: r =>
            if bool_decide (c ∈ [120; 88]%N) then Some (parse_radix 16 r)
            else if bool_decide (c ∈ [111; 79]%N) then Some (parse_radix 8 r)
            else if bool_decide (c ∈ [98; 66]%N) then Some (parse_radix 2 r) else None
        | _ => None end in
      match radix with
      | Some (Some q) => to_num q
      | Some None => NaN
      | None =>
          let '(neg, body) := signed s in
          if jseqb body (js "Infinity") then Inf neg
          else match parse_decimal body with
               | Some q => to_num (if neg then Qopp q else q)
               | None => NaN
               end
      end
  end.

Example Number_ex1 : Number (js " 16e3 ") = Fin (inject_Z 16000). Proof. by vm_compute. Qed.
Example Number_ex2 : Number (js "0x1F") = Fin (inject_Z 31). Proof. by vm_compute. Qed.
Example Number_ex3 : Number (js "1e999") = Inf false. Proof. by vm_compute. Qed.
Example Number_ex4 : Number (js "12px") = NaN. Proof. by vm_compute. Qed.
Example Number_ex5 : is_integer (Number (js "1.00000000000000000001")) = true. Proof. by vm_compute. Qed.
(** The double nearest to one tenth. *)
Example Number_ex6 : Number (js "0.1") = Fin (3602879701896397 # 36028797018963968). Proof. by vm_compute. Qed.

(** ** Rounding *)

Lemma round_half_even_bounds a b n d :
  0 < d -> a * d <= n <= b * d -> a <= round_half_even n d <= b.
Proof.
  intros Hd Hn. unfold round_half_even.
  pose proof (Z.div_mod n d ltac:(lia)). pose proof (Z.mod_pos_bound n d Hd).
  set (f := n / d) in *. set (r := n mod d) in *.
  assert (a <= f) by nia. assert (f <= b) by nia.
  assert (f = b -> r = 0) by nia. repeat case_match; to_prop; lia.
Qed.

Lemma log2_quot_upper n d k :
  0 < n -> 0 < d -> 0 <= k -> n < d * 2 ^ (k + 1) -> log2_quot n d <= k.
Proof.
  intros Hn Hd Hk H. unfold log2_quot. set (e := Z.log2 n - Z.log2 d).
  destruct (0 <=? e) eqn:E; to_prop; [|case_match; lia].
  destruct (n <? d * 2 ^ e) eqn:E2; to_prop.
  - pose proof (Z.log2_le_mono n (d * 2 ^ (k + 1)) ltac:(lia)) as Hl.
    rewrite Z.log2_mul_pow2 in Hl by lia. lia.
  - destruct (Z.le_gt_cases e k); [done|]. exfalso.
    assert (2 ^ (k + 1) <= 2 ^ e) by (apply Z.pow_le_mono_r; lia). nia.
Qed.

(** A rational between two integers below 2^53 rounds to a double between them. *)
Lemma rnd_between q a b :
  0 <= a -> b < 2 ^ 53 ->
  (inject_Z a <= q)%Q -> (q <= inject_Z b)%Q -> (inject_Z a <= rnd q)%Q /\ (rnd q <= inject_Z b)%Q.
Proof.
  intros Ha Hb H1 H2. destruct q as [n d]. unfold rnd. simpl Qnum. simpl Qden.
  unfold Qle in H1, H2. simpl in H1, H2. rewrite Z.mul_1_r in *.
  destruct (n =? 0) eqn:E0; to_prop; [subst; unfold Qle; simpl; nia|].
  assert (0 < n) by nia. replace (0 <? n) with true by lia.
  rewrite Qred_correct. unfold round_at, ulp_exponent. set (u := Z.max _ _).
  assert (u <= 0).
  { pose proof (log2_quot_upper n (Zpos d) 52 ltac:(lia) ltac:(lia) ltac:(lia)). unfold u. nia. }
  destruct (decide (u = 0)) as [Hu|Hu].
  - rewrite Hu. simpl. rewrite !Z.mul_1_r.
    pose proof (round_half_even_bounds a b n (Zpos d) ltac:(lia) ltac:(lia)).
    unfold Qle. simpl. lia.
  - replace (0 <=? u) with false by lia. assert (0 < 2 ^ (- u)) by (apply Z.pow_pos_nonneg; lia).
    pose proof (round_half_even_bounds (a * 2 ^ (- u)) (b * 2 ^ (- u)) (n * 2 ^ (- u)) (Zpos d)
      ltac:(lia) ltac:(nia)).
    unfold Qle. simpl. rewrite !Z2Pos.id by done. lia.
Qed.

(** [Math.floor] and [Math.ceil] of a rounded value stay between the same integers. *)
Lemma floor_rnd_between q a b :
  0 <= a -> b < 2 ^ 53 -> (inject_Z a <= q)%Q -> (q <= inject_Z b)%Q -> a <= Qfloor (rnd q) <= b.
Proof.
  intros Ha Hb H1 H2. destruct (rnd_between q a b Ha Hb H1 H2) as [G1 G2].
  rewrite <- (Qfloor_Z a), <- (Qfloor_Z b) at 1. split; by apply Qfloor_resp_le.
Qed.

Lemma ceiling_rnd_between q a b :
  0 <= a -> b < 2 ^ 53 -> (inject_Z a <= q)%Q -> (q <= inject_Z b)%Q -> a <= Qceiling (rnd q) <= b.
Proof.
  intros Ha Hb H1 H2. destruct (rnd_between q a b Ha Hb H1 H2) as [G1 G2].
  rewrite <- (Qceiling_Z a), <- (Qceiling_Z b) at 1. split; by apply Qceiling_resp_le.
Qed.

(** ** Comparing a quotient of counts with a count *)

Lemma inject_Z_div b r : 0 < r -> (inject_Z b / inject_Z r == Qmake b (Z.to_pos r))%Q.
Proof. intros Hr. destruct r as [|p|]; try lia. unfold Qdiv, Qinv, Qeq. simpl. lia. Qed.

Lemma rnd_small_gt b p h :
  0 <= h -> b < 2 ^ 26 -> Zpos p <= 2 ^ 26 -> h * Zpos p < b -> (inject_Z h < rnd (Qmake b p))%Q.
Proof.
  intros Hh Hb Hp Hlt. unfold rnd. simpl Qnum. simpl Qden.
  replace (b =? 0) with false by lia. replace (0 <? b) with true by lia.
  rewrite Qred_correct. unfold round_at, ulp_exponent. set (u := Z.max _ _).
  assert (Hu : u <= - 26).
  { pose proof (log2_quot_upper b (Zpos p) 25 ltac:(lia) ltac:(lia) ltac:(lia)). unfold u. nia. }
  replace (0 <=? u) with false by lia.
  assert (2 ^ 26 <= 2 ^ (- u)) by (apply Z.pow_le_mono_r; lia).
  set (U := 2 ^ (- u)) in *.
  assert (h * Zpos p * U <= (b - 1) * U) by (apply Z.mul_le_mono_nonneg_r; lia).
  assert (b * U * 1 <= b * U * Zpos p) by (apply Z.mul_le_mono_nonneg_l; lia).
  pose proof (round_half_even_bounds (h * U + 1) (b * U) (b * U) (Zpos p) ltac:(lia) ltac:(lia)).
  unfold Qlt. simpl. rewrite Z2Pos.id by lia. lia.
Qed.


(** The test [b / r > h] of doubles decides the integer inequality, for counts below 2^26. *)
Lemma num_lt_quotient b r h :
  0 <= b < 2 ^ 26 -> 0 < r <= 2 ^ 26 -> 0 <= h < 2 ^ 26 ->
  num_lt (num_Z h) (to_num (Qmake b (Z.to_pos r))) = (h * r <? b).
Proof.
  intros Hb Hr Hh. destruct r as [|p|]; try lia. simpl Z.to_pos.
  destruct (rnd_between (Qmake b p) 0 (2 ^ 26) ltac:(lia) ltac:(lia)) as [H0 H1];
    [unfold Qle; simpl; lia|unfold Qle; simpl; nia|].
  unfold to_num.
  destruct (Qle_bool (inject_Z (2 ^ 1024)) _) eqn:E1.
  { apply Qle_bool_iff in E1. exfalso. pose proof (Qle_trans _ _ _ E1 H1) as G. by apply Qle_bool_iff in G. }
  destruct (Qle_bool _ (inject_Z (- 2 ^ 1024))) eqn:E2.
  { apply Qle_bool_iff in E2. exfalso. pose proof (Qle_trans _ _ _ H0 E2) as G. by apply Qle_bool_iff in G. }
  unfold num_lt, num_Z, num_le. destruct (h * Zpos p <? b) eqn:E; to_prop.
  - apply negb_true_iff, not_true_iff_false. rewrite Qle_bool_iff.
    apply Qlt_not_le. apply rnd_small_gt; lia.
  - apply negb_false_iff, Qle_bool_iff.
    apply (rnd_between (Qmake b p) 0 h); [lia|lia|unfold Qle; simpl; lia|unfold Qle; simpl; lia].
Qed.

(** ** Integers of a file *)

(** The integer that the text of a number denotes, when it is written as the language writes integers. *)
Definition natural (ds : jsstr) : option Z :=
  match ds with [] => None | _ => if forallb is_digit ds then Some (digits_value 10 dec_digit ds) else None end.
Definition integer (t : jsstr) : option Z :=
  match t with
  | u :: ds => if (u =? 45)%N then Z.opp <$> natural ds else natural t
  | [] => None
  end.

Lemma digits_value_digits f n acc : (n < 2 ^ N.of_nat f)%N ->
  foldl (fun a d => a * 10 + dec_digit d) 0 (digits_aux f n acc) = foldl (fun a d => a * 10 + dec_digit d) (Z.of_N n) acc.
Proof.
  revert n acc. induction f as [|f IH]; intros n acc Hn.
  { simpl in *. assert (n = 0%N) as -> by lia. done. }
  cbn [digits_aux]. assert (Hm : dec_digit (48 + n mod 10) = Z.of_N n mod 10).
  { unfold dec_digit. rewrite N2Z.inj_add, N2Z.inj_mod. lia. }
  destruct (N.ltb_spec n 10).
  - cbn [foldl]. rewrite Hm. f_equal. rewrite Z.mod_small by lia. lia.
  - rewrite IH.
    + cbn [foldl]. rewrite Hm, N2Z.inj_div. f_equal. pose proof (Z.div_mod (Z.of_N n) 10). lia.
    + apply N.Div0.div_lt_upper_bound. rewrite Nat2N.inj_succ, N.pow_succ_r' in Hn. lia.
Qed.

Lemma digits_length_ge f n acc : (length acc <= length (digits_aux f n acc))%nat.
Proof.
  revert n acc. induction f as [|f IH]; intros n acc; simpl; [done|]. destruct (n <? 10)%N; simpl; [lia|].
  specialize (IH (n / 10)%N ((48 + n mod 10)%N :: acc)). simpl in IH. lia.
Qed.

Lemma show_N_digits n : show_N n <> [] /\ forallb is_digit (show_N n) = true.
Proof.
  unfold show_N. generalize (S (N.to_nat (N.log2 n))) at 2. assert (Hd : forall f n acc, forallb is_digit acc = true ->
    forallb is_digit (digits_aux f n acc) = true).
  { clear n. induction f as [|f IH]; intros n acc Ha; [done|]. cbn [digits_aux].
    assert (Hc : forallb is_digit ((48 + n mod 10)%N :: acc) = true).
    { simpl. rewrite Ha, andb_true_r. unfold is_digit. pose proof (N.mod_lt n 10).
      apply andb_true_iff. split; apply N.leb_le; lia. }
    destruct (n <? 10)%N; [exact Hc|by apply IH]. }
  intros f. split; [|by apply Hd]. cbn [digits_aux]. destruct (n <? 10)%N; [done|].
  intros He. pose proof (digits_length_ge (N.to_nat (N.log2 n)) (n / 10) [(48 + n mod 10)%N]) as Hl. rewrite He in Hl. simpl in Hl. lia.
Qed.

Lemma natural_show n : natural (show_N n) = Some (Z.of_N n).
Proof.
  destruct (show_N_digits n) as [Hne Hd]. unfold natural. rewrite Hd.
  destruct (show_N n) eqn:E; [done|]. rewrite <- E. f_equal. unfold digits_value, show_N. rewrite digits_value_digits; [done|].
  rewrite Nat2N.inj_succ, N2Nat.id. destruct (decide (n = 0%N)) as [->|Hn]; [done|]. apply N.log2_spec. lia.
Qed.

Lemma integer_show z : integer (show_Z z) = Some z.
Proof.
  unfold show_Z. destruct (Z.ltb_spec z 0).
  - cbn [integer]. rewrite natural_show. simpl. f_equal. lia.
  - destruct (show_N_digits (Z.to_N z)) as [Hne Hd]. pose proof (natural_show (Z.to_N z)) as Hs.
    destruct (show_N (Z.to_N z)) as [|u ds]; [done|]. cbn [integer].
    assert ((u =? 45)%N = false) as ->.
    { apply andb_true_iff in Hd as [Hu _]. unfold is_digit in Hu. apply andb_true_iff in Hu as [Hu _].
      apply N.leb_le in Hu. apply N.eqb_neq. lia. }
    rewrite Hs. f_equal. lia.
Qed.
