(* ===== verification/JsMap.v ===== *)
(** * Maps with an insertion order

    The [Map] of the source: [set] on a present key keeps its position,
    [delete] forgets it, and iteration follows the insertion order. *)

From S2P Require Import Prelude.

Section maps.
Context {K V : Type} `{!EqDecision K}.
Implicit Types (m : list (K * V)) (k : K) (v : V).

Fixpoint get m k : option V :=
  match m with
  | [] => None
  | (k', v) :: m' => if decide (k' = k) then Some v else get m' k
  end.
Fixpoint set m k v : list (K * V) :=
  match m with
  | [] => [(k, v)]
  | (k', v') :: m' => if decide (k' = k) then (k, v) :: m' else (k', v') :: set m' k v
  end.
Definition remove m k : list (K * V) := filter (fun p => p.1 <> k) m.
Definition has m k : bool := bool_decide (is_Some (get m k)).

Lemma get_set m k k' v : get (set m k v) k' = if decide (k = k') then Some v else get m k'.
Proof.
  induction m as [|[k1 v1] m IH]; simpl; [done|].
  destruct (decide (k1 = k)) as [->|]; simpl; [by destruct (decide (k = k'))|].
  rewrite IH. destruct (decide (k1 = k')) as [->|], (decide (k = k')) as [->|]; congruence.
Qed.

Lemma get_remove m k k' : get (remove m k) k' = if decide (k = k') then None else get m k'.
Proof.
  unfold remove. induction m as [|[k1 v1] m IH]; simpl; [by destruct (decide _)|].
  rewrite filter_cons. destruct (decide ((k1, v1).1 <> k)) as [Hk|Hk]; simpl in *; rewrite IH;
    destruct (decide (k1 = k')) as [->|], (decide (k = k')) as [->|]; naive_solver.
Qed.

Lemma get_elem m k v : get m k = Some v -> (k, v) ∈ m.
Proof.
  induction m as [|[k1 v1] m IH]; simpl; [done|]. destruct (decide (k1 = k)) as [->|].
  - intros [= ->]. apply list_elem_of_here.
  - intros H. apply list_elem_of_further. auto.
Qed.

Lemma get_None m k : get m k = None <-> k ∉ m.*1.
Proof.
  induction m as [|[k1 v1] m IH]; simpl; [split; [intros _; apply not_elem_of_nil|done]|].
  rewrite not_elem_of_cons. destruct (decide (k1 = k)) as [->|]; [split; [done|by intros []]|].
  rewrite IH. split; [by split|by intros []].
Qed.

Lemma set_new m k v : k ∉ m.*1 -> set m k v = m ++ [(k, v)].
Proof.
  induction m as [|[k1 v1] m IH]; simpl; [done|]. rewrite not_elem_of_cons. intros [Hk Hm].
  rewrite decide_False by done. by rewrite IH.
Qed.

Lemma remove_last m k v : k ∉ m.*1 -> remove (m ++ [(k, v)]) k = m.
Proof.
  intros Hk. unfold remove. rewrite list.filter_app, filter_cons_False by auto. rewrite app_nil_r.
  induction m as [|[k1 v1] m IH]; simpl in *; [done|]. apply not_elem_of_cons in Hk as [Hk Hm].
  rewrite filter_cons_True by auto. by rewrite IH.
Qed.

Lemma get_nodup m k v : NoDup m.*1 -> (k, v) ∈ m -> get m k = Some v.
Proof.
  induction m as [|[k1 v1] m IH]; simpl; [by intros _ ?%elem_of_nil|].
  intros [Hk Hm]%list.NoDup_cons [[= -> ->]|Hin]%elem_of_cons; [by rewrite decide_True|].
  rewrite decide_False; [auto|]. intros ->. apply Hk, list_elem_of_fmap. by exists (k, v).
Qed.

Lemma get_last m k v : k ∉ m.*1 -> get (m ++ [(k, v)]) k = Some v.
Proof. intros H. induction m as [|[k1 v1] m IH]; simpl; [by rewrite decide_True|]. apply not_elem_of_cons in H as [H1 H2]. rewrite decide_False by done. auto. Qed.
Lemma set_last m k v v' : k ∉ m.*1 -> set (m ++ [(k, v)]) k v' = m ++ [(k, v')].
Proof.
  intros H. induction m as [|[k1 v1] m IH]; simpl; [by rewrite decide_True|]. apply not_elem_of_cons in H as [H1 H2].
  rewrite decide_False by done. by rewrite IH.
Qed.
Lemma elem_of_set_keys m k v k' : k' ∈ (set m k v).*1 <-> k' = k \/ k' ∈ m.*1.
Proof.
  induction m as [|[k1 v1] m IH]; simpl; [by rewrite list_elem_of_singleton, elem_of_nil; naive_solver|].
  destruct (decide (k1 = k)) as [->|]; simpl; rewrite !elem_of_cons; [naive_solver|]. rewrite IH. naive_solver.
Qed.
Lemma set_nodup m k v : NoDup m.*1 -> NoDup (set m k v).*1.
Proof.
  induction m as [|[k1 v1] m IH]; simpl; [intros _; apply NoDup_singleton|]. intros [Hk Hm]%list.NoDup_cons.
  destruct (decide (k1 = k)) as [->|Hne]; simpl; [by apply list.NoDup_cons|]. apply list.NoDup_cons. split; [|auto].
  rewrite elem_of_set_keys. by intros [|].
Qed.
Lemma remove_keys m k : (remove m k).*1 `sublist_of` m.*1.
Proof.
  unfold remove. induction m as [|[k1 v1] m IH]; [done|]. rewrite filter_cons. destruct (decide _); simpl; by constructor.
Qed.
Lemma remove_nodup m k : NoDup m.*1 -> NoDup (remove m k).*1.
Proof. intros H. eapply sublist_NoDup; [exact H|]. apply remove_keys. Qed.
Lemma Forall_set (P : K * V -> Prop) m k v : P (k, v) -> Forall P m -> Forall P (set m k v).
Proof.
  intros Hk H. induction H as [|[k1 v1] m H1 H2 IH]; simpl; [by constructor|]. destruct (decide (k1 = k)); by constructor.
Qed.
Lemma Forall_remove (P : K * V -> Prop) m k : Forall P m -> Forall P (remove m k).
Proof. intros H. unfold remove. rewrite list.Forall_forall in *. intros x [_ Hx]%list_elem_of_filter. auto. Qed.
End maps.

Abbreviation jsmap K V := (list (K * V)).
