(* ===== verification/Messages.v ===== *)
(** * Messages (packages/ai/src/types.ts, agent/src/types.ts, core/messages.ts)

    The transcript of a session: the content parts, the messages of the
    provider protocol, the coding agent's own message kinds, and the
    conversion of a transcript to provider messages. *)

(* Source aliases:
   AI = src/packages/ai/src/types.ts
   AG = src/packages/agent/src/types.ts
   MS = src/packages/coding-agent/src/core/messages.ts
   US = src/packages/coding-agent/src/core/usage.ts *)

From S2P Require Import Prelude JsString JsNumber.
Local Open Scope Z_scope.

(** ** Values without a type in the source

    A number is carried by the text [Number.prototype.toString] gives it: nothing computes with
    the numbers of tool arguments, they are only printed. *)
Inductive json :=
| JNull
| JBool (b : bool)
| JNum (text : jsstr)
| JStr (s : jsstr)
| JArr (l : list json)
| JObj (fields : list (jsstr * json)).

Definition hex_digit (n : N) : N := (if n <? 10 then 48 + n else 87 + n)%N.
Definition hex4 (u : N) : jsstr :=
  [hex_digit (u / 0x1000 mod 16); hex_digit (u / 0x100 mod 16);
   hex_digit (u / 0x10 mod 16); hex_digit (u mod 16)]%N.

(** The escapes of [JSON.stringify]; a lone surrogate is escaped, a pair is not. *)
Definition escape1 (u : N) : jsstr :=
  (if u =? 34 then js "\" ++ [34] else if u =? 92 then js "\\"
   else if u =? 8 then js "\b" else if u =? 9 then js "\t" else if u =? 10 then js "\n"
   else if u =? 12 then js "\f" else if u =? 13 then js "\r"
   else if u <? 32 then js "\u" ++ hex4 u else [u])%N.

Fixpoint escape (s : jsstr) : jsstr :=
  match s with
  | [] => []
  | u :: s' =>
      if is_high u then
        match s' with
        | v :: s'' => if is_low v then u :: v :: escape s'' else js "\u" ++ hex4 u ++ escape s'
        | [] => js "\u" ++ hex4 u
        end
      else if is_low u then js "\u" ++ hex4 u ++ escape s'
      else escape1 u ++ escape s'
  end.

Definition json_quote (s : jsstr) : jsstr := [34%N] ++ escape s ++ [34%N].

(** [JSON.stringify(value)]. *)
Fixpoint stringify (v : json) : jsstr :=
  match v with
  | JNull => js "null"
  | JBool b => if b then js "true" else js "false"
  | JNum text => text
  | JStr s => json_quote s
  | JArr l => js "[" ++ join (js ",") (map stringify l) ++ js "]"
  | JObj fs => js "{" ++ join (js ",") (map (fun f => json_quote f.1 ++ js ":" ++ stringify f.2) fs) ++ js "}"
  end.

Example stringify_ex :
  stringify (JObj [(js "a", JArr [JNum (js "1"); JStr [9; 0xD800]%N]); (js "b", JNull)])
  = js "{" ++ [34%N] ++ js "a" ++ [34%N] ++ js ":[1," ++ [34%N] ++ js "\t\ud800" ++ [34%N] ++ js "]," ++
    [34%N] ++ js "b" ++ [34%N] ++ js ":null}".
Proof. reflexivity. Qed.

(** ** Content parts *)

(** AI 159-163 TextContent. *)
Record TextContent := { text : jsstr; textSignature : option jsstr }.
(** AI 165-173 ThinkingContent. *)
Record ThinkingContent := { thinking : jsstr; thinkingSignature : option jsstr; redacted : option bool }.
(** AI 175-179 ImageContent. *)
Record ImageContent := { data : jsstr; mimeType : jsstr }.
(** AI 181-187 ToolCall. *)
Record ToolCall := {
  id : jsstr; name : jsstr; arguments : list (jsstr * json); thoughtSignature : option jsstr }.

(** AI 208-208 UserMessage.content. The parts of a user or tool-result message. *)
Inductive Part := PText (t : TextContent) | PImage (i : ImageContent).
(** AI 214-214 AssistantMessage.content. The parts of an assistant message. *)
Inductive AssistantPart := AText (t : TextContent) | AThinking (t : ThinkingContent) | AToolCall (c : ToolCall).
(** AI 208-208 UserMessage.content. A string, or an array of parts. *)
Inductive Content := CString (s : jsstr) | CParts (ps : list Part).

Definition mkText (s : jsstr) : TextContent := {| text := s; textSignature := None |}.

(** ** Provider messages *)

(** AI 195-201 Usage.cost. *)
Record Cost := { cost_input : Q; cost_output : Q; cost_cacheRead : Q; cost_cacheWrite : Q; cost_total : Q }.
(** AI 189-202 Usage. *)
Record Usage := {
  input : Z; output : Z; cacheRead : Z; cacheWrite : Z; totalTokens : Z; cost : Cost }.

(** AI 204-204 StopReason. *)
Inductive StopReason := Stop | Length | ToolUse | Error | Aborted.
#[export] Instance StopReason_eq_dec : EqDecision StopReason.
Proof. solve_decision. Defined.

(** AI 206-210 UserMessage. *)
Record UserMessage := { u_content : Content; u_timestamp : Z }.

(** AI 212-226 AssistantMessage. The response identifiers and diagnostics, which no modelled code
    reads, are left out. *)
Record AssistantMessage := {
  a_content : list AssistantPart; api : jsstr; provider : jsstr; model : jsstr;
  usage : Usage; stopReason : StopReason; errorMessage : option jsstr; a_timestamp : Z }.

(** AI 228-236 ToolResultMessage. *)
Record ToolResultMessage := {
  toolCallId : jsstr; toolName : jsstr; t_content : list Part; details : option json;
  isError : bool; t_timestamp : Z }.

(** AI 238-238 Message. *)
Inductive Message := LUser (m : UserMessage) | LAssistant (m : AssistantMessage) | LToolResult (m : ToolResultMessage).

(** ** Messages of the coding agent *)

(** MS 306-317 BashExecutionMessage. *)
Record BashExecutionMessage := {
  command : jsstr; b_output : jsstr; exitCode : option Z; cancelled : bool; b_truncated : bool;
  fullOutputPath : option jsstr; b_timestamp : Z; excludeFromContext : bool }.
(** MS 323-330 CustomMessage. *)
Record CustomMessage := {
  customType : jsstr; c_content : Content; display : bool; c_details : option json; c_timestamp : Z }.
(** MS 345-350 BranchSummaryMessage. *)
Record BranchSummaryMessage := { bs_summary : jsstr; fromId : jsstr; bs_timestamp : Z }.
(** MS 352-365 CompactionSummaryMessage. *)
Record CompactionSummaryMessage := {
  cs_summary : jsstr; tokensBefore : Z; retainedMessageCount : option Z;
  customInstructions : option jsstr; harnessDigest : option jsstr;
  harnessStateFingerprint : option jsstr; cs_timestamp : Z }.

(** AG 347-347 AgentMessage. With the kinds MS 367-374 adds. *)
Inductive AgentMessage :=
| User (m : UserMessage)
| Assistant (m : AssistantMessage)
| ToolResult (m : ToolResultMessage)
| BashExecution (m : BashExecutionMessage)
| Custom (m : CustomMessage)
| BranchSummary (m : BranchSummaryMessage)
| CompactionSummary (m : CompactionSummaryMessage).

(** MS 414-421 createBranchSummaryMessage. *)
Definition createBranchSummaryMessage (summary fromId : jsstr) (timestamp : Z) : BranchSummaryMessage :=
  {| bs_summary := summary; fromId := fromId; bs_timestamp := timestamp |}.

(** MS 423-442 createCompactionSummaryMessage. *)
Definition createCompactionSummaryMessage (summary : jsstr) (tokensBefore timestamp : Z)
    (customInstructions : option jsstr) (retainedMessageCount : option Z)
    (harnessDigest harnessStateFingerprint : option jsstr) : CompactionSummaryMessage :=
  {| cs_summary := summary; tokensBefore := tokensBefore; retainedMessageCount := retainedMessageCount;
     customInstructions := customInstructions; harnessDigest := harnessDigest;
     harnessStateFingerprint := harnessStateFingerprint; cs_timestamp := timestamp |}.

(** MS 445-460 createCustomMessage. *)
Definition createCustomMessage (customType : jsstr) (content : Content) (display : bool)
    (details : option json) (timestamp : Z) : CustomMessage :=
  {| customType := customType; c_content := content; display := display; c_details := details;
     c_timestamp := timestamp |}.

(** ** Usage accounting *)

Definition zeroCost : Cost :=
  {| cost_input := 0; cost_output := 0; cost_cacheRead := 0; cost_cacheWrite := 0; cost_total := 0 |}.

(** US 17-32 emptyUsage. *)
Definition emptyUsage : Usage :=
  {| input := 0; output := 0; cacheRead := 0; cacheWrite := 0; totalTokens := 0; cost := zeroCost |}.

Definition addCost (total c : Cost) : Cost :=
  {| cost_input := rnd (cost_input total + cost_input c);
     cost_output := rnd (cost_output total + cost_output c);
     cost_cacheRead := rnd (cost_cacheRead total + cost_cacheRead c);
     cost_cacheWrite := rnd (cost_cacheWrite total + cost_cacheWrite c);
     cost_total := rnd (cost_total total + cost_total c) |}.

(** US 34-45 addAssistantUsage. The new value of [total]; costs are sums of doubles. *)
Definition addAssistantUsage (total u : Usage) : Usage :=
  {| input := input total + input u; output := output total + output u;
     cacheRead := cacheRead total + cacheRead u; cacheWrite := cacheWrite total + cacheWrite u;
     totalTokens := totalTokens total + totalTokens u;
     cost := addCost (cost total) (cost u) |}.

Definition Qmax0 (q : Q) : Q := if Qle_bool q 0 then 0%Q else q.
Definition subCost (total c : Cost) : Cost :=
  {| cost_input := Qmax0 (rnd (cost_input total - cost_input c));
     cost_output := Qmax0 (rnd (cost_output total - cost_output c));
     cost_cacheRead := Qmax0 (rnd (cost_cacheRead total - cost_cacheRead c));
     cost_cacheWrite := Qmax0 (rnd (cost_cacheWrite total - cost_cacheWrite c));
     cost_total := Qmax0 (rnd (cost_total total - cost_total c)) |}.

(** US 48-59 subtractAssistantUsage. The new value of [total], clamped at zero. *)
Definition subtractAssistantUsage (total u : Usage) : Usage :=
  {| input := Z.max 0 (input total - input u); output := Z.max 0 (output total - output u);
     cacheRead := Z.max 0 (cacheRead total - cacheRead u);
     cacheWrite := Z.max 0 (cacheWrite total - cacheWrite u);
     totalTokens := Z.max 0 (totalTokens total - totalTokens u);
     cost := subCost (cost total) (cost u) |}.

(** US 3-7 SessionUsageSummary. *)
Record SessionUsageSummary := { inputTokens : Z; outputTokens : Z; s_cost : Q }.

(** US 9-15 sessionUsageSummaryFrom. *)
Definition sessionUsageSummaryFrom (u : Usage) : option SessionUsageSummary :=
  let inputTokens := input u + cacheRead u + cacheWrite u in
  if (inputTokens =? 0) && (output u =? 0) && Qeq_bool (cost_total (cost u)) 0 then None
  else Some {| inputTokens := inputTokens; outputTokens := output u; s_cost := cost_total (cost u) |}.

(** ** Conversion to provider messages *)

Definition truthy (o : option jsstr) : bool :=
  match o with Some (_ :: _) => true | _ => false end.

(** MS 385-388 bashOutputToText. The longest run of backticks, with the run read so far. *)
Fixpoint longest_run (c : N) (s : jsstr) (current longest : nat) : nat :=
  match s with
  | [] => Nat.max longest current
  | u :: s' => if (u =? c)%N then longest_run c s' (S current) longest
               else longest_run c s' 0 (Nat.max longest current)
  end.

Definition BACKTICK : N := 96.

(** MS 389-390 bashOutputToText. The fence around the output. *)
Definition bash_fence (out : jsstr) : jsstr :=
  replicate (Nat.max 3 (longest_run BACKTICK out 0 0 + 1)) BACKTICK.

(** MS 380-405 bashOutputToText. *)
Definition bashOutputToText (m : BashExecutionMessage) : jsstr :=
  (match b_output m with
   | [] => js "(no output)"
   | out => bash_fence out ++ [LF] ++ out ++ [LF] ++ bash_fence out
   end) ++
  (if cancelled m then [LF; LF] ++ js "(command cancelled)"
   else match exitCode m with
        | Some c => if c =? 0 then [] else [LF; LF] ++ js "Command exited with code " ++ show_Z c
        | None => []
        end) ++
  (if b_truncated m then
     if truthy (fullOutputPath m)
     then [LF; LF] ++ js "[Output truncated. Full output: " ++ default [] (fullOutputPath m) ++ js "]"
     else [LF; LF] ++ js "[Output truncated.]"
   else []).

(** MS 410-412 bashExecutionToText. *)
Definition bashExecutionToText (m : BashExecutionMessage) : jsstr :=
  js "Ran `" ++ command m ++ js "`" ++ [LF] ++ bashOutputToText m.

(** MS 19-24 COMPACTION_SUMMARY_PREFIX. *)
Definition COMPACTION_SUMMARY_PREFIX : jsstr :=
  js "[compaction-summary]" ++ [LF; LF] ++
  js "The conversation history before this point was compacted into the following summary:" ++
  [LF; LF] ++ js "<summary>" ++ [LF].
(** MS 26-27 COMPACTION_SUMMARY_SUFFIX. *)
Definition COMPACTION_SUMMARY_SUFFIX : jsstr := [LF] ++ js "</summary>".
(** MS 29-34 BRANCH_SUMMARY_PREFIX. *)
Definition BRANCH_SUMMARY_PREFIX : jsstr :=
  js "[branch-summary]" ++ [LF; LF] ++
  js "The following is a summary of a branch that this conversation came back from:" ++
  [LF; LF] ++ js "<summary>" ++ [LF].
(** MS 36-36 BRANCH_SUMMARY_SUFFIX. *)
Definition BRANCH_SUMMARY_SUFFIX : jsstr := js "</summary>".
(** MS 196-201 HARNESS_DIGEST_PREFIX. *)
Definition HARNESS_DIGEST_PREFIX : jsstr :=
  js "[harness-digest]" ++ [LF; LF] ++
  js "The persistent memories produced across this session so far:" ++ [LF; LF] ++
  js "<harness_state>" ++ [LF].
(** MS 203-204 HARNESS_DIGEST_SUFFIX. *)
Definition HARNESS_DIGEST_SUFFIX : jsstr := [LF] ++ js "</harness_state>".

(** MS 38-50 HARNESS_DIGEST_CUSTOM_TYPE. The custom types the conversion and the compaction test. *)
Definition SESSION_SLASH_COMMAND_CUSTOM_TYPE := js "session_slash_command".
Definition SESSION_SLASH_COMMAND_RESULT_CUSTOM_TYPE := js "session_slash_command_result".
Definition COMPACTION_OUTCOME_CUSTOM_TYPE := js "compaction_outcome".
Definition MCP_CONNECTION_OUTCOME_CUSTOM_TYPE := js "mcp_connection_outcome".
Definition REFINEMENT_OUTCOME_CUSTOM_TYPE := js "refinement_outcome".
Definition HARNESS_DIGEST_CUSTOM_TYPE := js "harness_digest".

Definition user_text (s : jsstr) (timestamp : Z) : Message :=
  LUser {| u_content := CParts [PText (mkText s)]; u_timestamp := timestamp |}.

(** MS 800-809 convertToLlm. The custom messages the model never sees. *)
Definition hidden_custom (ty : jsstr) : bool :=
  bool_decide (ty ∈ [SESSION_SLASH_COMMAND_CUSTOM_TYPE; SESSION_SLASH_COMMAND_RESULT_CUSTOM_TYPE;
    COMPACTION_OUTCOME_CUSTOM_TYPE; MCP_CONNECTION_OUTCOME_CUSTOM_TYPE; REFINEMENT_OUTCOME_CUSTOM_TYPE]).

(** MS 789-847 convertToLlm. One message. *)
Definition convertToLlm1 (m : AgentMessage) : option Message :=
  match m with
  | BashExecution m =>
      if excludeFromContext m then None
      else Some (user_text (bashExecutionToText m) (b_timestamp m))
  | Custom m =>
      if hidden_custom (customType m) then None
      else Some (LUser {| u_content := CParts (match c_content m with
                            | CString s => [PText (mkText s)] | CParts ps => ps end);
                          u_timestamp := c_timestamp m |})
  | BranchSummary m =>
      Some (user_text (BRANCH_SUMMARY_PREFIX ++ bs_summary m ++ BRANCH_SUMMARY_SUFFIX) (bs_timestamp m))
  | CompactionSummary m =>
      let digestBlock := if truthy (harnessDigest m)
        then HARNESS_DIGEST_PREFIX ++ default [] (harnessDigest m) ++ HARNESS_DIGEST_SUFFIX ++ [LF; LF]
        else [] in
      Some (user_text (digestBlock ++ COMPACTION_SUMMARY_PREFIX ++ cs_summary m ++ COMPACTION_SUMMARY_SUFFIX)
              (cs_timestamp m))
  | User m => Some (LUser m)
  | Assistant m => Some (LAssistant m)
  | ToolResult m => Some (LToolResult m)
  end.

(** MS 787-849 convertToLlm. *)
Definition convertToLlm (messages : list AgentMessage) : list Message := omap convertToLlm1 messages.

(** ** The fence of a command's output *)

Lemma longest_run_ge c s current longest : (Nat.max longest current <= longest_run c s current longest)%nat.
Proof.
  revert current longest. induction s as [|u s IH]; intros current longest; simpl; [lia|].
  destruct (u =? c)%N; [specialize (IH (S current) longest)|specialize (IH 0%nat (Nat.max longest current))]; lia.
Qed.

Lemma starts_with_longest_run c n s current longest :
  starts_with (replicate n c) s = true -> (current + n <= longest_run c s current longest)%nat.
Proof.
  unfold starts_with. rewrite bool_decide_eq_true, length_replicate.
  revert s current longest. induction n as [|n IH]; intros s current longest Hs.
  { pose proof (longest_run_ge c s current longest). lia. }
  destruct s as [|u s]; [done|]. simpl in Hs. injection Hs as <- Hs. simpl.
  rewrite N.eqb_refl. specialize (IH s (S current) longest Hs). lia.
Qed.

Lemma includes_longest_run c n s current longest :
  includes (replicate n c) s = true -> (n <= longest_run c s current longest)%nat.
Proof.
  revert current longest. induction s as [|u s IH]; intros current longest; cbn [includes];
    intros [H|H]%orb_true_iff; try done.
  - apply (starts_with_longest_run _ _ _ current longest) in H. lia.
  - apply (starts_with_longest_run _ _ _ current longest) in H. lia.
  - simpl. destruct (u =? c)%N; by apply IH.
Qed.

(** The fence put around a command's output does not occur in the output, whatever the command
    printed: the output cannot end its own block. *)
Theorem bash_fence_not_in_output (out : jsstr) : includes (bash_fence out) out = false.
Proof.
  apply not_true_iff_false. unfold bash_fence. intros H.
  apply (includes_longest_run _ _ _ 0 0) in H. lia.
Qed.

(** ** Tool calls and their results *)

(** The ids of the tool calls of an assistant message, in order. *)
Definition call_ids (ps : list AssistantPart) : list jsstr :=
  omap (fun p => match p with AToolCall c => Some (id c) | _ => None end) ps.

Fixpoint remove_first (x : jsstr) (l : list jsstr) : option (list jsstr) :=
  match l with
  | [] => None
  | y :: l' => if jseqb x y then Some l' else cons y <$> remove_first x l'
  end.

(** The calls still unanswered after a transcript; [None] when a result answers no call. *)
Fixpoint pairing_from (pending : list jsstr) (ms : list AgentMessage) : option (list jsstr) :=
  match ms with
  | [] => Some pending
  | Assistant m :: ms' => pairing_from (pending ++ call_ids (a_content m)) ms'
  | ToolResult t :: ms' =>
      match remove_first (toolCallId t) pending with
      | Some pending' => pairing_from pending' ms'
      | None => None
      end
  | _ :: ms' => pairing_from pending ms'
  end.

(** Every result answers an earlier call, and every call is answered. *)
Definition well_paired (ms : list AgentMessage) : Prop := pairing_from [] ms = Some [].

Lemma pairing_from_app pending ms ms' :
  pairing_from pending (ms ++ ms') = pairing_from pending ms ≫= (fun p => pairing_from p ms').
Proof.
  revert pending. induction ms as [|m ms IH]; intros pending; [done|].
  destruct m as [| |t| | | |]; simpl; auto. by destruct (remove_first (toolCallId t) pending).
Qed.

(** ** Messages up to their text

    The context transforms rewrite the content of user messages and tool results and nothing else. Two
    messages have the same shape when they differ at most there. *)
Definition same_shape (m m' : AgentMessage) : Prop :=
  match m, m' with
  | User u, User u' => u_timestamp u = u_timestamp u'
  | ToolResult t, ToolResult t' =>
      toolCallId t = toolCallId t' /\ toolName t = toolName t' /\ details t = details t' /\
      isError t = isError t' /\ t_timestamp t = t_timestamp t'
  | User _, _ | ToolResult _, _ => False
  | _, _ => m = m'
  end.
#[export] Instance AgentMessage_equiv : Equiv AgentMessage := same_shape.

Lemma same_shape_unfold m m' : m ≡ m' <-> same_shape m m'.
Proof. done. Qed.

#[export] Instance same_shape_equivalence : Equivalence (≡@{AgentMessage}).
Proof.
  split; [intros x|intros x y|intros x y z]; rewrite !same_shape_unfold.
  - by destruct x; simpl; split_and?.
  - intros H. destruct x, y; simpl in *; intuition congruence.
  - intros H1 H2. destruct x, y; simpl in *; try done; destruct z; simpl in *; intuition congruence.
Qed.

(** Whether tool calls and results are paired does not depend on the text of the messages. *)
#[export] Instance pairing_from_proper pending : Proper ((≡) ==> (=)) (pairing_from pending).
Proof.
  intros ms ms' H. revert pending. induction H as [|m m' ms ms' Hm Hms IH]; intros pending; [done|].
  apply same_shape_unfold in Hm.
  destruct m, m'; simpl in Hm; try done; try (injection Hm as <-; apply IH); [apply IH|].
  simpl. destruct Hm as [-> _]. destruct (remove_first _ pending); [apply IH|done].
Qed.

#[export] Instance well_paired_proper : Proper ((≡) ==> iff) well_paired.
Proof. intros ms ms' H. unfold well_paired. by rewrite (pairing_from_proper [] ms ms' H). Qed.

(** What a transform of the context promises to the code that sends it to a provider: it keeps every
    message, in place and of the same shape. *)
Class ContextTransform (f : list AgentMessage -> list AgentMessage) : Prop :=
  transform_shape : forall ms, f ms ≡ ms.

Lemma transform_length f `{!ContextTransform f} ms : length (f ms) = length ms.
Proof. apply length_proper, transform_shape. Qed.

Lemma transform_well_paired f `{!ContextTransform f} ms : well_paired (f ms) <-> well_paired ms.
Proof. apply well_paired_proper, transform_shape. Qed.

#[export] Instance transform_id : ContextTransform (fun ms => ms).
Proof. by intros ms. Qed.

#[export] Instance transform_compose f g :
  ContextTransform f -> ContextTransform g -> ContextTransform (fun ms => f (g ms)).
Proof. intros Hf Hg ms. etrans; [apply Hf|apply Hg]. Qed.
