(* ===== verification/Json.v ===== *)
(** * JSON text

    [JSON.stringify] is in [Messages]. Here: what the text it prints is like
    (one line, no lone surrogate), and [JSON.parse], which reads it back and
    rejects every proper beginning of the text of an object. *)

From S2P Require Import Prelude JsString JsNumber JsMap Messages.
Local Open Scope N_scope.

(** ** Induction on values *)

Section json_ind'.
Variable P : json -> Prop.
Hypothesis HNull : P JNull.
Hypothesis HBool : forall b, P (JBool b).
Hypothesis HNum : forall t, P (JNum t).
Hypothesis HStr : forall s, P (JStr s).
Hypothesis HArr : forall l, Forall P l -> P (JArr l).
Hypothesis HObj : forall fs, Forall (fun f => P f.2) fs -> P (JObj fs).
Fixpoint json_ind' (v : json) : P v :=
  match v with
  | JNull => HNull
  | JBool b => HBool b
  | JNum t => HNum t
  | JStr s => HStr s
  | JArr l => HArr l ((fix go (l : list json) : Forall P l :=
      match l with [] => Forall_nil_2 _ | x :: l' => Forall_cons_2 _ _ _ (json_ind' x) (go l') end) l)
  | JObj fs => HObj fs ((fix go (fs : list (jsstr * json)) : Forall (fun f => P f.2) fs :=
      match fs with [] => Forall_nil_2 _ | f :: fs' => Forall_cons_2 _ _ _ (json_ind' f.2) (go fs') end) fs)
  end.
End json_ind'.

(** ** Numbers *)

Definition is_num_start (u : N) : bool := is_digit u || (u =? 45).

(** Digits, at least one. *)
Definition digits (s : jsstr) : option (jsstr * jsstr) :=
  match span is_digit s with ([], _) => None | r => Some r end.

(** An optional part of a number: [c] and what follows it. *)
Definition fraction (s : jsstr) : option (jsstr * jsstr) :=
  match s with
  | u :: s' => if u =? 46 then match digits s' with Some (d, r) => Some (u :: d, r) | None => None end else Some ([], s)
  | [] => Some ([], s)
  end.
Definition exponent (s : jsstr) : option (jsstr * jsstr) :=
  match s with
  | u :: s' =>
      if (u =? 101) || (u =? 69) then
        match s' with
        | v :: s'' =>
            if (v =? 43) || (v =? 45) then match digits s'' with Some (d, r) => Some (u :: v :: d, r) | None => None end
            else match digits s' with Some (d, r) => Some (u :: d, r) | None => None end
        | [] => None
        end
      else Some ([], s)
  | [] => Some ([], s)
  end.
Definition integer (s : jsstr) : option (jsstr * jsstr) :=
  match s with
  | u :: s' => if u =? 48 then Some ([u], s') else digits s
  | [] => None
  end.
Definition unsigned (s : jsstr) : option (jsstr * jsstr) :=
  match integer s with
  | Some (i, r) => match fraction r with
      | Some (f, r') => match exponent r' with Some (e, r'') => Some (i ++ f ++ e, r'') | None => None end
      | None => None end
  | None => None
  end.

(** A number keeps its text: the texts [Number.prototype.toString] prints are the only ones in question. *)
Definition parse_number (s : jsstr) : option (jsstr * jsstr) :=
  match s with
  | u :: s' => if u =? 45 then match unsigned s' with Some (t, r) => Some (u :: t, r) | None => None end else unsigned s
  | [] => None
  end.

(** ** Strings *)

Definition hex_value (u : N) : option N :=
  if (48 <=? u) && (u <=? 57) then Some (u - 48)
  else if (97 <=? u) && (u <=? 102) then Some (u - 87)
  else if (65 <=? u) && (u <=? 70) then Some (u - 55)
  else None.

Definition simple_escape (u : N) : option N :=
  if (u =? 34) || (u =? 92) || (u =? 47) then Some u
  else if u =? 98 then Some 8 else if u =? 102 then Some 12 else if u =? 110 then Some 10
  else if u =? 114 then Some 13 else if u =? 116 then Some 9 else None.

(** The rest of a string, after its opening quote. *)
Fixpoint parse_chars (s : jsstr) : option (jsstr * jsstr) :=
  match s with
  | [] => None
  | u :: s' =>
      if u =? 34 then Some ([], s')
      else if u =? 92 then
        match s' with
        | e :: s'' =>
            if e =? 117 then
              match s'' with
              | a :: b :: c :: d :: r =>
                  match hex_value a, hex_value b, hex_value c, hex_value d with
                  | Some a, Some b, Some c, Some d =>
                      match parse_chars r with
                      | Some (t, r') => Some ((a * 0x1000 + b * 0x100 + c * 0x10 + d) :: t, r')
                      | None => None
                      end
                  | _, _, _, _ => None
                  end
              | _ => None
              end
            else
              match simple_escape e with
              | Some x => match parse_chars s'' with Some (t, r) => Some (x :: t, r) | None => None end
              | None => None
              end
        | [] => None
        end
      else if u <? 32 then None
      else match parse_chars s' with Some (t, r) => Some (u :: t, r) | None => None end
  end.

(** ** Values *)

Definition is_ws (u : N) : bool := (u =? 32) || (u =? 9) || (u =? 10) || (u =? 13).
Fixpoint skip_ws (s : jsstr) : jsstr :=
  match s with
  | u :: s' => if is_ws u then skip_ws s' else s
  | [] => []
  end.

Definition keyword (w : jsstr) (v : json) (s : jsstr) : option (json * jsstr) :=
  if starts_with w s then Some (v, drop (length w) s) else None.

(** The parser, with fuel for the nesting and the items. A key that comes again replaces the value before. *)
Fixpoint parse_value (n : nat) (s : jsstr) : option (json * jsstr) :=
  match n with
  | O => None
  | S n =>
      match skip_ws s with
      | [] => None
      | u :: s' =>
          if u =? 34 then match parse_chars s' with Some (t, r) => Some (JStr t, r) | None => None end
          else if u =? 91 then
            match skip_ws s' with
            | v :: r => if v =? 93 then Some (JArr [], r)
                        else match parse_items n (v :: r) with Some (l, r') => Some (JArr l, r') | None => None end
            | [] => None
            end
          else if u =? 123 then
            match skip_ws s' with
            | v :: r => if v =? 125 then Some (JObj [], r)
                        else match parse_fields n [] (v :: r) with Some (fs, r') => Some (JObj fs, r') | None => None end
            | [] => None
            end
          else if u =? 110 then keyword (js "null") JNull (u :: s')
          else if u =? 116 then keyword (js "true") (JBool true) (u :: s')
          else if u =? 102 then keyword (js "false") (JBool false) (u :: s')
          else match parse_number (u :: s') with Some (t, r) => Some (JNum t, r) | None => None end
      end
  end
with parse_items (n : nat) (s : jsstr) : option (list json * jsstr) :=
  match n with
  | O => None
  | S n =>
      match parse_value n s with
      | Some (v, r) =>
          match skip_ws r with
          | u :: r' =>
              if u =? 93 then Some ([v], r')
              else if u =? 44 then match parse_items n r' with Some (l, r2) => Some (v :: l, r2) | None => None end
              else None
          | [] => None
          end
      | None => None
      end
  end
with parse_fields (n : nat) (fs : list (jsstr * json)) (s : jsstr) : option (list (jsstr * json) * jsstr) :=
  match n with
  | O => None
  | S n =>
      match skip_ws s with
      | q :: s' =>
          if q =? 34 then
            match parse_chars s' with
            | Some (k, r) =>
                match skip_ws r with
                | c :: r1 =>
                    if c =? 58 then
                      match parse_value n r1 with
                      | Some (v, r2) =>
                          match skip_ws r2 with
                          | u :: r3 =>
                              if u =? 125 then Some (set fs k v, r3)
                              else if u =? 44 then parse_fields n (set fs k v) r3
                              else None
                          | [] => None
                          end
                      | None => None
                      end
                    else None
                | [] => None
                end
            | None => None
            end
          else None
      | [] => None
      end
  end.

(** [JSON.parse(s)]; [None] is an exception. *)
Definition JSON_parse (s : jsstr) : option json :=
  match parse_value (2 * length s + 2) s with
  | Some (v, r) => match skip_ws r with [] => Some v | _ => None end
  | None => None
  end.

Example JSON_parse_ex :
  let q s := [34] ++ js s ++ [34] in
  JSON_parse (js " {" ++ q "a" ++ js ": [1, -2.5e+3,null ], " ++ q "b\u0041" ++ js ":{}}") =
  Some (JObj [(js "a", JArr [JNum (js "1"); JNum (js "-2.5e+3"); JNull]); (js "bA", JObj [])]).
Proof. by vm_compute. Qed.
Example JSON_parse_torn : JSON_parse (js "{" ++ [34] ++ js "a") = None.
Proof. by vm_compute. Qed.

(** ** More text after a value *)

(** Characters that cannot continue a number. *)
Definition delim (q : jsstr) : Prop :=
  match q with [] => True | u :: _ => is_digit u = false /\ u <> 46 /\ u <> 101 /\ u <> 69 end.

(** A reader [f] finds the same in [p ++ q] as in [p], when something is left of [p] or [q] does not go on. *)
Definition extends {A} (f : jsstr -> option (A * jsstr)) : Prop := forall p q a r,
  f p = Some (a, r) -> r <> [] \/ delim q -> f (p ++ q) = Some (a, r ++ q).

Lemma span_extends s q : (span is_digit s).2 <> [] \/ delim q ->
  span is_digit (s ++ q) = ((span is_digit s).1, (span is_digit s).2 ++ q).
Proof.
  intros H. induction s as [|u s IH].
  - cbn in *. destruct H as [H|H]; [done|]. destruct q as [|u q]; [done|]. cbn. by destruct H as [-> _].
  - cbn in *. destruct (is_digit u); [|done]. destruct (span is_digit s) as [a b]. cbn in *. by rewrite IH.
Qed.

Lemma digits_extends : extends digits.
Proof.
  intros p q a r Hp Hr. unfold digits in *. pose proof (span_extends p q) as H.
  destruct (span is_digit p) as [[|d ds] b]; [done|]. injection Hp as <- <-. by rewrite H.
Qed.
Lemma fraction_extends : extends fraction.
Proof.
  intros p q a r Hp Hr. destruct p as [|u p]; cbn in *.
  - injection Hp as <- <-. destruct Hr as [|Hr]; [done|]. destruct q as [|u q]; [done|]. cbn.
    destruct Hr as (_ & Hr & _). by rewrite (proj2 (N.eqb_neq _ _)).
  - destruct (u =? 46); [|by injection Hp as <- <-].
    destruct (digits p) as [[d r']|] eqn:E; [|done]. injection Hp as <- <-. by rewrite (digits_extends p q d r').
Qed.
Lemma exponent_extends : extends exponent.
Proof.
  intros p q a r Hp Hr. destruct p as [|u p]; cbn in *.
  - injection Hp as <- <-. destruct Hr as [|Hr]; [done|]. destruct q as [|u q]; [done|]. cbn.
    destruct Hr as (_ & _ & H1 & H2). by rewrite (proj2 (N.eqb_neq _ _) H1), (proj2 (N.eqb_neq _ _) H2).
  - destruct (_ || _); [|by injection Hp as <- <-]. destruct p as [|v p]; [done|]. cbn [app].
    destruct (_ || _).
    + destruct (digits p) as [[d r']|] eqn:E; [|done]. injection Hp as <- <-. by rewrite (digits_extends p q d r').
    + destruct (digits (v :: p)) as [[d r']|] eqn:E; [|done]. injection Hp as <- <-.
      change (v :: p ++ q) with ((v :: p) ++ q). by rewrite (digits_extends (v :: p) q d r').
Qed.
Lemma integer_extends : extends integer.
Proof.
  intros p q a r Hp Hr. destruct p as [|u p]; [done|]. unfold integer in *. cbn [app]. destruct (u =? 48); [by injection Hp as <- <-|].
  change (u :: p ++ q) with ((u :: p) ++ q). by apply digits_extends.
Qed.

Lemma unsigned_extends : extends unsigned.
Proof.
  intros p q a r Hp Hr. unfold unsigned in *.
  destruct (integer p) as [[i r1]|] eqn:E1; [|done]. destruct (fraction r1) as [[f r2]|] eqn:E2; [|done].
  destruct (exponent r2) as [[e r3]|] eqn:E3; [|done]. injection Hp as <- <-.
  assert (H2 : r2 <> [] \/ delim q).
  { destruct Hr as [Hr|]; [left|by right]. intros ->. cbn in E3. by injection E3 as _ <-. }
  assert (H1 : r1 <> [] \/ delim q).
  { destruct H2 as [Hr2|]; [left|by right]. intros ->. cbn in E2. by injection E2 as _ <-. }
  by rewrite (integer_extends _ _ _ _ E1 H1), (fraction_extends _ _ _ _ E2 H2), (exponent_extends _ _ _ _ E3 Hr).
Qed.
Lemma parse_number_extends : extends parse_number.
Proof.
  intros [|u p] q a r Hp Hr; [done|]. unfold parse_number in *. cbn [app]. destruct (u =? 45).
  - destruct (unsigned p) as [[t r']|] eqn:E; [|done]. injection Hp as <- <-. by rewrite (unsigned_extends _ _ _ _ E Hr).
  - exact (unsigned_extends (u :: p) q a r Hp Hr).
Qed.

(** A number begins with a digit or a sign. *)
Lemma parse_number_start u p a r : parse_number (u :: p) = Some (a, r) -> is_num_start u = true.
Proof.
  unfold parse_number, is_num_start. destruct (u =? 45) eqn:E; [by rewrite orb_true_r|]. rewrite orb_false_r.
  unfold unsigned, integer. destruct (u =? 48) eqn:E'; to_prop; [by subst|]. unfold digits. cbn.
  by destruct (is_digit u).
Qed.

Lemma parse_chars_extends p q t r : parse_chars p = Some (t, r) -> parse_chars (p ++ q) = Some (t, r ++ q).
Proof.
  revert t r. remember (length p) as n eqn:Hn. revert p Hn.
  induction n as [n IH] using lt_wf_ind. intros p -> t r. destruct p as [|u p]; [done|]. cbn [parse_chars app].
  destruct (u =? 34); [by intros [= <- <-]|]. destruct (u =? 92).
  - destruct p as [|e p]; [done|]. cbn [app]. destruct (e =? 117).
    + destruct p as [|a [|b [|c [|d p]]]]; try done. cbn [app].
      destruct (hex_value a), (hex_value b), (hex_value c), (hex_value d); try done.
      destruct (parse_chars p) as [[t' r']|] eqn:E; [|done]. intros [= <- <-].
      by rewrite (IH (length p) ltac:(cbn; lia) p eq_refl t' r' E).
    + destruct (simple_escape e); [|done]. destruct (parse_chars p) as [[t' r']|] eqn:E; [|done]. intros [= <- <-].
      by rewrite (IH (length p) ltac:(cbn; lia) p eq_refl t' r' E).
  - destruct (u <? 32); [done|]. destruct (parse_chars p) as [[t' r']|] eqn:E; [|done]. intros [= <- <-].
    by rewrite (IH (length p) ltac:(cbn; lia) p eq_refl t' r' E).
Qed.

Lemma skip_ws_extends p q : skip_ws p <> [] -> skip_ws (p ++ q) = skip_ws p ++ q.
Proof. induction p as [|u p IH]; [done|]. cbn. by destruct (is_ws u). Qed.

Lemma keyword_extends w v p q a r : keyword w v p = Some (a, r) -> keyword w v (p ++ q) = Some (a, r ++ q).
Proof.
  unfold keyword, starts_with. case_bool_decide as H; [|done]. intros [= <- <-].
  assert (Hl : (length w <= length p)%nat) by (rewrite H at 1; rewrite length_take; lia).
  rewrite bool_decide_true by (by rewrite take_app_le). by rewrite drop_app_le.
Qed.

Definition is_number (v : json) : bool := match v with JNum _ => true | _ => false end.

Ltac known := repeat match goal with H : ?x = Some _ |- context [?x] => rewrite H end.

(** More fuel, and more text, change nothing. *)
Lemma parse_extends n :
  (forall p q v r, parse_value n p = Some (v, r) -> r <> [] \/ delim q \/ is_number v = false ->
     forall m, (n <= m)%nat -> parse_value m (p ++ q) = Some (v, r ++ q)) /\
  (forall p q l r, parse_items n p = Some (l, r) -> forall m, (n <= m)%nat -> parse_items m (p ++ q) = Some (l, r ++ q)) /\
  (forall acc p q fs r, parse_fields n acc p = Some (fs, r) -> forall m, (n <= m)%nat -> parse_fields m acc (p ++ q) = Some (fs, r ++ q)).
Proof.
  induction n as [|n (IHv & IHi & IHf)]; [by split_and!|].
  assert (Hsk : forall p q u r, skip_ws p = u :: r -> skip_ws (p ++ q) = u :: r ++ q).
  { intros p q u r H. rewrite skip_ws_extends by (by rewrite H). by rewrite H. }
  split_and!.
  - intros p q v r H Hr [|m] Hm; [lia|]. cbn [parse_value] in *. destruct (skip_ws p) as [|u s] eqn:E; [done|].
    rewrite (Hsk _ q _ _ E). destruct (u =? 34).
    { destruct (parse_chars s) as [[t r']|] eqn:Ec; [|done]. injection H as <- <-. by rewrite (parse_chars_extends _ q _ _ Ec). }
    destruct (u =? 91).
    { destruct (skip_ws s) as [|w s'] eqn:E'; [done|]. rewrite (Hsk _ q _ _ E'). destruct (w =? 93); [by injection H as <- <-|].
      destruct (parse_items n (w :: s')) as [[l r']|] eqn:Ei; [|done]. injection H as <- <-.
      change (w :: s' ++ q) with ((w :: s') ++ q). by rewrite (IHi _ q _ _ Ei m) by lia. }
    destruct (u =? 123).
    { destruct (skip_ws s) as [|w s'] eqn:E'; [done|]. rewrite (Hsk _ q _ _ E'). destruct (w =? 125); [by injection H as <- <-|].
      destruct (parse_fields n [] (w :: s')) as [[l r']|] eqn:Ei; [|done]. injection H as <- <-.
      change (w :: s' ++ q) with ((w :: s') ++ q). by rewrite (IHf _ _ q _ _ Ei m) by lia. }
    change (u :: s ++ q) with ((u :: s) ++ q). destruct (u =? 110); [by apply keyword_extends|].
    destruct (u =? 116); [by apply keyword_extends|]. destruct (u =? 102); [by apply keyword_extends|].
    destruct (parse_number (u :: s)) as [[t r']|] eqn:En; [|done]. injection H as <- <-.
    rewrite (parse_number_extends _ q _ _ En); [done|]. destruct Hr as [?|[?|?]]; auto; done.
  - intros p q l r H [|m] Hm; [lia|]. cbn [parse_items] in *. destruct (parse_value n p) as [[v r']|] eqn:Ev; [|done].
    destruct (skip_ws r') as [|u s] eqn:E; [done|].
    rewrite (IHv _ q _ _ Ev) by (lia || (left; by intros ->)). rewrite (Hsk _ q _ _ E).
    destruct (u =? 93); [by injection H as <- <-|]. destruct (u =? 44); [|done].
    destruct (parse_items n s) as [[l' r2]|] eqn:Ei; [|done]. injection H as <- <-. by rewrite (IHi _ q _ _ Ei m) by lia.
  - intros acc p q fs r H [|m] Hm; [lia|]. cbn [parse_fields] in *. destruct (skip_ws p) as [|u s] eqn:E; [done|].
    rewrite (Hsk _ q _ _ E). destruct (u =? 34); [|done]. destruct (parse_chars s) as [[k r1]|] eqn:Ec; [|done].
    rewrite (parse_chars_extends _ q _ _ Ec). destruct (skip_ws r1) as [|c r2] eqn:E1; [done|]. rewrite (Hsk _ q _ _ E1).
    destruct (c =? 58); [|done]. destruct (parse_value n r2) as [[v r3]|] eqn:Ev; [|done].
    destruct (skip_ws r3) as [|w r4] eqn:E3; [done|].
    rewrite (IHv _ q _ _ Ev) by (lia || (left; by intros ->)). rewrite (Hsk _ q _ _ E3).
    destruct (w =? 125); [by injection H as <- <-|]. destruct (w =? 44); [|done]. by apply IHf; [|lia].
Qed.

(** ** What is left unread *)

Definition consumes (f : jsstr -> option (jsstr * jsstr)) : Prop := forall s a r, f s = Some (a, r) -> s = a ++ r.

Lemma digits_consume : consumes digits.
Proof.
  intros s a r H. unfold digits in H. assert (Hs : s = (span is_digit s).1 ++ (span is_digit s).2).
  { clear H. induction s as [|u s IH]; [done|]. cbn. destruct (is_digit u); [|done]. destruct (span is_digit s). cbn in *. by rewrite <- IH. }
  destruct (span is_digit s) as [[|d ds] b]; [done|]. by injection H as <- <-.
Qed.
Lemma fraction_consume : consumes fraction.
Proof.
  intros [|u s] a r H; cbn in H; [by injection H as <- <-|]. destruct (u =? 46); [|by injection H as <- <-].
  destruct (digits s) as [[d r']|] eqn:E; [|done]. injection H as <- <-. by rewrite (digits_consume _ _ _ E).
Qed.
Lemma exponent_consume : consumes exponent.
Proof.
  intros [|u s] a r H; cbn in H; [by injection H as <- <-|]. destruct (_ || _); [|by injection H as <- <-].
  destruct s as [|v s]; [done|]. destruct (_ || _).
  - destruct (digits s) as [[d r']|] eqn:E; [|done]. injection H as <- <-. by rewrite (digits_consume _ _ _ E).
  - destruct (digits (v :: s)) as [[d r']|] eqn:E; [|done]. injection H as <- <-. by rewrite (digits_consume _ _ _ E).
Qed.
Lemma unsigned_consume : consumes unsigned.
Proof.
  intros s a r H. unfold unsigned in H. destruct (integer s) as [[i r1]|] eqn:E1; [|done].
  assert (s = i ++ r1) as ->.
  { unfold integer in E1. destruct s as [|u s]; [done|]. destruct (u =? 48); [by injection E1 as <- <-|]. by apply digits_consume. }
  destruct (fraction r1) as [[f r2]|] eqn:E2; [|done]. destruct (exponent r2) as [[e r3]|] eqn:E3; [|done]. injection H as <- <-.
  by rewrite (fraction_consume _ _ _ E2), (exponent_consume _ _ _ E3), !(assoc_L app).
Qed.
Lemma number_suffix s a r : parse_number s = Some (a, r) -> r `suffix_of` s.
Proof.
  destruct s as [|u s]; [done|]. unfold parse_number. destruct (u =? 45).
  - destruct (unsigned s) as [[t r']|] eqn:E; [|done]. intros [= <- <-]. rewrite (unsigned_consume _ _ _ E). exists (u :: t). done.
  - intros H. rewrite (unsigned_consume _ _ _ H). by exists a.
Qed.

Lemma skip_ws_suffix s : skip_ws s `suffix_of` s.
Proof. induction s as [|u s IH]; [done|]. cbn. destruct (is_ws u); [by apply suffix_cons_r|done]. Qed.
Lemma keyword_suffix w v s a r : keyword w v s = Some (a, r) -> r `suffix_of` s.
Proof. unfold keyword. destruct (starts_with w s); [|done]. intros [= <- <-]. exists (take (length w) s). by rewrite take_drop. Qed.
Lemma suffix_tail {A} (u : A) r s : (u :: r) `suffix_of` s -> r `suffix_of` s.
Proof. intros [k ->]. exists (k ++ [u]). by rewrite <- (assoc_L app). Qed.
Lemma chars_suffix s t r : parse_chars s = Some (t, r) -> (34 :: r) `suffix_of` s.
Proof.
  revert t r. remember (length s) as n eqn:Hn. revert s Hn.
  induction n as [n IH] using lt_wf_ind. intros s -> t r. destruct s as [|u s]; [done|]. cbn [parse_chars].
  assert (Hrec : forall s' t r, parse_chars s' = Some (t, r) -> s' `suffix_of` s -> (34 :: r) `suffix_of` (u :: s)).
  { intros s' t' r' H Hs. apply suffix_cons_r. etrans; [|exact Hs]. eapply (IH (length s')); [|done|exact H].
    destruct Hs as [k ->]. cbn. rewrite length_app. lia. }
  destruct (u =? 34) eqn:E34; [intros [= <- <-]; to_prop; by subst|]. destruct (u =? 92).
  - destruct s as [|e s]; [done|]. destruct (e =? 117).
    + destruct s as [|a [|b [|c [|d s]]]]; try done. destruct (hex_value a), (hex_value b), (hex_value c), (hex_value d); try done.
      destruct (parse_chars s) as [[t' r']|] eqn:E; [|done]. intros [= <- <-]. eapply Hrec; [exact E|]. by exists [e; a; b; c; d].
    + destruct (simple_escape e); [|done]. destruct (parse_chars s) as [[t' r']|] eqn:E; [|done]. intros [= <- <-].
      eapply Hrec; [exact E|]. by exists [e].
  - destruct (u <? 32); [done|]. destruct (parse_chars s) as [[t' r']|] eqn:E; [|done]. intros [= <- <-]. by eapply Hrec.
Qed.

Definition is_obj (v : json) : bool := match v with JObj _ => true | _ => false end.

(** What a parser leaves is the end of its text; an object is left right after its brace. *)
Lemma parse_suffix n :
  (forall s v r, parse_value n s = Some (v, r) -> r `suffix_of` s /\ (is_obj v = true -> (125 :: r) `suffix_of` s)) /\
  (forall s l r, parse_items n s = Some (l, r) -> r `suffix_of` s) /\
  (forall acc s fs r, parse_fields n acc s = Some (fs, r) -> (125 :: r) `suffix_of` s).
Proof.
  induction n as [|n (IHv & IHi & IHf)]; [by split_and!|].
  assert (Hsk : forall s u r, skip_ws s = u :: r -> (u :: r) `suffix_of` s) by (intros s u r <-; apply skip_ws_suffix).
  split_and!.
  - intros s v r H. cbn [parse_value] in H. destruct (skip_ws s) as [|u s1] eqn:E; [done|]. apply Hsk in E.
    pose proof (suffix_tail _ _ _ E) as E1. destruct (u =? 34).
    { destruct (parse_chars s1) as [[t r']|] eqn:Ec; [|done]. injection H as <- <-. split; [|done].
      etrans; [|exact E1]. by eapply suffix_tail, chars_suffix. }
    destruct (u =? 91).
    { destruct (skip_ws s1) as [|w s2] eqn:E2; [done|]. apply Hsk in E2. destruct (w =? 93).
      - injection H as <- <-. split; [|done]. etrans; [|exact E1]. by eapply suffix_tail.
      - destruct (parse_items n (w :: s2)) as [[l r']|] eqn:Ei; [|done]. injection H as <- <-. split; [|done].
        etrans; [by eapply IHi|]. by etrans. }
    destruct (u =? 123).
    { destruct (skip_ws s1) as [|w s2] eqn:E2; [done|]. apply Hsk in E2. assert (Hb : (125 :: r) `suffix_of` s); [|by split; [eapply suffix_tail|]].
      destruct (w =? 125) eqn:E125.
      - injection H as _ <-. to_prop. subst. by etrans.
      - destruct (parse_fields n [] (w :: s2)) as [[l r']|] eqn:Ei; [|done]. injection H as _ <-. etrans; [by eapply IHf|]. by etrans. }
    assert (Hk : forall w v', is_obj v' = false -> keyword w v' (u :: s1) = Some (v, r) -> r `suffix_of` s /\ (is_obj v = true -> (125 :: r) `suffix_of` s)).
    { intros w v' Hv Hw. split; [etrans; [by eapply keyword_suffix|done]|]. unfold keyword in Hw. destruct (starts_with _ _); [|done].
      injection Hw as <- _. by rewrite Hv. }
    destruct (u =? 110); [eapply Hk; [|exact H]; done|]. destruct (u =? 116); [eapply Hk; [|exact H]; done|].
    destruct (u =? 102); [eapply Hk; [|exact H]; done|].
    destruct (parse_number (u :: s1)) as [[t r']|] eqn:En; [|done]. injection H as <- <-. split; [|done].
    etrans; [by eapply number_suffix|done].
  - intros s l r H. cbn [parse_items] in H. destruct (parse_value n s) as [[v r1]|] eqn:Ev; [|done]. apply IHv in Ev as [Ev _].
    destruct (skip_ws r1) as [|u r2] eqn:E; [done|]. apply Hsk, suffix_tail in E. destruct (u =? 93).
    + injection H as _ <-. by etrans.
    + destruct (u =? 44); [|done]. destruct (parse_items n r2) as [[l' r3]|] eqn:Ei; [|done]. injection H as _ <-.
      etrans; [by eapply IHi|]. by etrans.
  - intros acc s fs r H. cbn [parse_fields] in H. destruct (skip_ws s) as [|q s1] eqn:E; [done|]. apply Hsk, suffix_tail in E.
    destruct (q =? 34); [|done]. destruct (parse_chars s1) as [[k r1]|] eqn:Ec; [|done]. apply chars_suffix, suffix_tail in Ec.
    destruct (skip_ws r1) as [|c r2] eqn:E1; [done|]. apply Hsk, suffix_tail in E1. destruct (c =? 58); [|done].
    destruct (parse_value n r2) as [[v r3]|] eqn:Ev; [|done]. apply IHv in Ev as [Ev _].
    destruct (skip_ws r3) as [|u r4] eqn:E3; [done|]. apply Hsk in E3.
    assert (Hs : (u :: r4) `suffix_of` s) by (etrans; [exact E3|]; etrans; [exact Ev|]; etrans; [exact E1|]; by etrans).
    destruct (u =? 125) eqn:E125; [injection H as _ <-; to_prop; by subst|]. destruct (u =? 44); [|done].
    etrans; [by eapply IHf|]. by eapply suffix_tail.
Qed.

(** A text that begins with an opening brace and ends with anything but a brace or white space is no JSON text. *)
Lemma JSON_parse_unclosed s u : u <> 125 -> is_ws u = false -> JSON_parse (123 :: s ++ [u]) = None.
Proof.
  intros Hu Hw. unfold JSON_parse. destruct (parse_value _ _) as [[v r]|] eqn:E; [|done]. destruct (skip_ws r) as [|] eqn:Er; [exfalso|done].
  assert (Hv : is_obj v = true).
  { cbn [length] in E. replace (2 * S (length (s ++ [u])) + 2)%nat with (S (2 * length (s ++ [u]) + 3)) in E by lia.
    cbn [parse_value skip_ws] in E. change (is_ws 123) with false in E. change (123 =? 34) with false in E. change (123 =? 91) with false in E.
    change (123 =? 123) with true in E. cbv iota in E. destruct (skip_ws (s ++ [u])); [done|]. destruct (_ =? 125); [by injection E as <- _|].
    destruct (parse_fields _ _ _) as [[]|]; [by injection E as <- _|done]. }
  apply (proj1 (parse_suffix _)) in E as [_ E]. specialize (E Hv) as [k E].
  assert (Hl : last (123 :: s ++ [u]) = Some u) by (change (123 :: s ++ [u]) with ((123 :: s) ++ [u]); apply last_snoc).
  rewrite E in Hl. destruct (list_eq_nil_dec r) as [->|Hr]; [rewrite last_snoc in Hl; congruence|].
  destruct (exists_last Hr) as (r' & x & ->). change (125 :: r' ++ [x]) with ((125 :: r') ++ [x]) in Hl.
  rewrite (assoc_L app), last_snoc in Hl. injection Hl as ->. clear E Hr. induction r' as [|y r' IH]; cbn in Er; [by rewrite Hw in Er|].
  destruct (is_ws y); [auto|done].
Qed.

(** ** Printing, and reading back *)

(** Values whose numbers have the texts of numbers, whose strings are made of 16-bit units, and whose objects
    have distinct keys. *)
Inductive json_ok : json -> Prop :=
| ok_null : json_ok JNull
| ok_bool b : json_ok (JBool b)
| ok_num t : parse_number t = Some (t, []) -> Forall (fun u => 32 <= u < 128) t -> json_ok (JNum t)
| ok_str s : js_wf s -> json_ok (JStr s)
| ok_arr l : Forall json_ok l -> json_ok (JArr l)
| ok_obj fs : NoDup fs.*1 -> Forall js_wf fs.*1 -> Forall (fun f => json_ok f.2) fs -> json_ok (JObj fs).

Lemma stringify_arr l : stringify (JArr l) = 91 :: join [44] (stringify <$> l) ++ [93].
Proof. done. Qed.
Definition field_text (f : jsstr * json) : jsstr := json_quote f.1 ++ [58] ++ stringify f.2.
Lemma stringify_obj fs : stringify (JObj fs) = 123 :: join [44] (field_text <$> fs) ++ [125].
Proof. done. Qed.

Lemma hex_value_digit d : d < 16 -> hex_value (hex_digit d) = Some d.
Proof.
  intros H. assert (Hall : forallb (fun d => bool_decide (hex_value (hex_digit d) = Some d)) (N.of_nat <$> seq 0 16) = true) by by vm_compute.
  rewrite forallb_forall in Hall. specialize (Hall d). rewrite bool_decide_eq_true in Hall. apply Hall.
  apply list_elem_of_In, list_elem_of_fmap. exists (N.to_nat d). split; [lia|]. apply elem_of_seq. lia.
Qed.

Definition cons_chars (u : N) (o : option (jsstr * jsstr)) : option (jsstr * jsstr) :=
  match o with Some (t, r) => Some (u :: t, r) | None => None end.

Lemma parse_hex4 u rest : u < 0x10000 -> parse_chars (js "\u" ++ hex4 u ++ rest) = cons_chars u (parse_chars rest).
Proof.
  intros Hu. change (js "\u" ++ hex4 u ++ rest) with
    (92 :: 117 :: hex_digit (u / 0x1000 mod 16) :: hex_digit (u / 0x100 mod 16) :: hex_digit (u / 0x10 mod 16) :: hex_digit (u mod 16) :: rest).
  cbn [parse_chars]. change (92 =? 34) with false. change (92 =? 92) with true. change (117 =? 117) with true. cbv iota.
  rewrite !hex_value_digit by (apply N.mod_lt; lia). unfold cons_chars. destruct (parse_chars rest) as [[t r]|]; [|done].
  do 3 f_equal. replace (u / 0x1000) with (u / 0x10 / 0x10 / 0x10) by (rewrite !N.Div0.div_div; done).
  replace (u / 0x100) with (u / 0x10 / 0x10) by (rewrite !N.Div0.div_div; done).
  pose proof (N.div_mod u 16 ltac:(lia)). pose proof (N.div_mod (u / 16) 16 ltac:(lia)). pose proof (N.div_mod (u / 16 / 16) 16 ltac:(lia)).
  assert (u / 16 / 16 / 16 < 16) by (rewrite !N.Div0.div_div; apply N.Div0.div_lt_upper_bound; lia).
  rewrite (N.mod_small (u / 16 / 16 / 16)) by done. lia.
Qed.

Lemma parse_escape1 u rest : u < 0x10000 -> parse_chars (escape1 u ++ rest) = cons_chars u (parse_chars rest).
Proof.
  intros Hu. unfold escape1.
  destruct (u =? 34) eqn:E1; to_prop; [by subst|]. destruct (u =? 92) eqn:E2; to_prop; [by subst|].
  destruct (u =? 8) eqn:E3; to_prop; [by subst|]. destruct (u =? 9) eqn:E4; to_prop; [by subst|].
  destruct (u =? 10) eqn:E5; to_prop; [by subst|]. destruct (u =? 12) eqn:E6; to_prop; [by subst|].
  destruct (u =? 13) eqn:E7; to_prop; [by subst|]. destruct (u <? 32) eqn:E8.
  - rewrite <- (assoc_L app). by apply parse_hex4.
  - cbn. by rewrite (proj2 (N.eqb_neq _ _) E1), (proj2 (N.eqb_neq _ _) E2), E8.
Qed.

Lemma parse_plain u rest : 0xD800 <= u -> parse_chars (u :: rest) = cons_chars u (parse_chars rest).
Proof.
  intros Hu. cbn [parse_chars]. rewrite (proj2 (N.eqb_neq _ _)) by lia. rewrite (proj2 (N.eqb_neq _ _)) by lia. by rewrite (proj2 (N.ltb_ge _ _)) by lia.
Qed.

Lemma escape_cons2 u v s : escape (u :: v :: s) =
  if is_high u then if is_low v then u :: v :: escape s else js "\u" ++ hex4 u ++ escape (v :: s)
  else if is_low u then js "\u" ++ hex4 u ++ escape (v :: s) else escape1 u ++ escape (v :: s).
Proof. done. Qed.
Lemma escape_one u : escape [u] = if is_high u || is_low u then js "\u" ++ hex4 u else escape1 u.
Proof. cbn. destruct (is_high u), (is_low u); cbn; by rewrite ?app_nil_r. Qed.

Lemma parse_escape s rest : js_wf s -> parse_chars (escape s ++ 34 :: rest) = Some (s, rest).
Proof.
  induction s as [|u|u v s IH1 IH2] using units_ind; intros Hs; [done|..].
  - apply Forall_cons in Hs as [Hu _]. rewrite escape_one. destruct (_ || _).
    + rewrite <- (assoc_L app). rewrite parse_hex4 by done. done.
    + by rewrite parse_escape1.
  - apply Forall_cons in Hs as [Hu Hs]. pose proof Hs as [Hv Hs']%Forall_cons. specialize (IH1 Hs'). specialize (IH2 Hs).
    rewrite escape_cons2. destruct (is_high u) eqn:Eh; [destruct (is_low v) eqn:El|destruct (is_low u)].
    + change ((u :: v :: escape s) ++ 34 :: rest) with (u :: v :: (escape s ++ 34 :: rest)).
      unfold is_high, is_low in *. rewrite parse_plain by lia. rewrite parse_plain by lia. by rewrite IH1.
    + rewrite <- !(assoc_L app), parse_hex4 by done. by rewrite IH2.
    + rewrite <- !(assoc_L app), parse_hex4 by done. by rewrite IH2.
    + rewrite <- (assoc_L app), parse_escape1 by done. by rewrite IH2.
Qed.

(** The first character of a printed value is no white space. *)
Lemma stringify_head v : json_ok v -> exists u t, stringify v = u :: t /\ is_ws u = false.
Proof.
  intros H. destruct v as [|[]|t|s|l|fs]; try (by eexists _, _); try (by eexists (js "null"), _).
  inversion H as [| |? Ht ?| | |]; subst. destruct t as [|u t]; [done|]. exists u, t. split; [done|].
  apply parse_number_start in Ht. unfold is_num_start, is_digit, is_ws in *. lia.
Qed.

Lemma skip_stringify v rest : json_ok v -> skip_ws (stringify v ++ rest) = stringify v ++ rest.
Proof. intros H. destruct (stringify_head v H) as (u & t & -> & Hu). cbn. by rewrite Hu. Qed.

Lemma join_length_cons x (p : jsstr) l : length (join [x] (p :: l)) = (length p + match l with [] => 0 | _ => 1 + length (join [x] l) end)%nat.
Proof. destruct l; [cbn; lia|]. rewrite join_cons by done. rewrite !length_app. cbn [length]. lia. Qed.

Definition reads_back (v : json) : Prop := json_ok v -> forall n rest, (2 * length (stringify v) <= n)%nat ->
  (is_number v = true -> delim rest) -> parse_value n (stringify v ++ rest) = Some (v, rest).

Lemma stringify_length v : json_ok v -> (0 < length (stringify v))%nat.
Proof. intros H. destruct (stringify_head v H) as (u & t & -> & _). cbn. lia. Qed.

Definition COMMA : jsstr := [44].

Lemma items_read_back l rest n : l <> [] -> Forall reads_back l -> Forall json_ok l ->
  (2 * length (join COMMA (stringify <$> l)) + 1 <= n)%nat ->
  parse_items n (join [44] (stringify <$> l) ++ 93 :: rest) = Some (l, rest).
Proof.
  revert n. induction l as [|v l IH]; intros n Hl Hr Hok Hn; [done|]. apply Forall_cons in Hr as [Hv Hr]. apply Forall_cons in Hok as [Hok Hoks].
  destruct n as [|n]; [lia|]. rewrite fmap_cons in Hn. unfold COMMA in Hn. rewrite join_length_cons in Hn. change [44] with COMMA in Hn. rewrite fmap_cons. cbn [parse_items].
  destruct l as [|v' l].
  - cbn [fmap list_fmap join] in *. by rewrite (Hv Hok n (93 :: rest)) by (lia || done).
  - rewrite fmap_cons in *. rewrite join_cons by done. rewrite <- !(assoc_L app). rewrite <- fmap_cons in *.
    rewrite (Hv Hok n) by (lia || done). cbn [app skip_ws]. change (is_ws 44) with false. cbv iota.
    change (44 =? 93) with false. change (44 =? 44) with true. cbv iota. rewrite IH by (done || lia). done.
Qed.

Lemma fields_read_back fs acc rest n : fs <> [] -> Forall (fun f => reads_back f.2) fs -> Forall (fun f => json_ok f.2) fs ->
  NoDup (acc ++ fs).*1 -> Forall js_wf fs.*1 -> (2 * length (join COMMA (field_text <$> fs)) + 1 <= n)%nat ->
  parse_fields n acc (join [44] (field_text <$> fs) ++ 125 :: rest) = Some (acc ++ fs, rest).
Proof.
  revert n acc. induction fs as [|[k v] fs IH]; intros n acc Hl Hr Hok Hnd Hk Hn; [done|].
  apply Forall_cons in Hr as [Hv Hr]. apply Forall_cons in Hok as [Hok Hoks]. apply Forall_cons in Hk as [Hk Hks]. cbn [fst snd] in *.
  assert (Hset : set acc k v = acc ++ [(k, v)]).
  { apply set_new. rewrite fmap_app, fmap_cons in Hnd. apply NoDup_app in Hnd as (_ & Hnd & _). intros Hin. apply (Hnd k Hin). by left. }
  assert (Hlen : (length (field_text (k, v)) = 3 + length (escape k) + length (stringify v))%nat).
  { unfold field_text, json_quote. cbn [fst snd]. rewrite !length_app. cbn. lia. }
  assert (Htext : forall X, field_text (k, v) ++ X = 34 :: escape k ++ 34 :: 58 :: stringify v ++ X).
  { intros X. unfold field_text, json_quote. cbn [fst snd]. rewrite <- !(assoc_L app). done. }
  destruct n as [|n]; [lia|]. rewrite fmap_cons in Hn. unfold COMMA in Hn. rewrite join_length_cons in Hn. change [44] with COMMA in Hn. rewrite fmap_cons. cbn [parse_fields].
  destruct fs as [|f fs].
  - cbn [fmap list_fmap join] in *. rewrite Htext. cbn [skip_ws]. change (is_ws 34) with false. change (34 =? 34) with true. cbv iota.
    rewrite parse_escape by done. cbn [skip_ws]. change (is_ws 58) with false. change (58 =? 58) with true. cbv iota.
    rewrite (Hv Hok n) by (lia || done). cbn [skip_ws]. change (is_ws 125) with false. change (125 =? 125) with true. cbv iota. by rewrite Hset.
  - rewrite fmap_cons in *. rewrite join_cons by done. rewrite <- !(assoc_L app), Htext. cbn [skip_ws]. change (is_ws 34) with false. change (34 =? 34) with true. cbv iota.
    rewrite parse_escape by done. cbn [skip_ws]. change (is_ws 58) with false. change (58 =? 58) with true. cbv iota.
    rewrite (Hv Hok n) by (lia || done). cbn [app skip_ws]. change (is_ws 44) with false. change (44 =? 125) with false. change (44 =? 44) with true. cbv iota.
    rewrite <- fmap_cons in *. rewrite Hset, IH; [by rewrite <- (assoc_L app)|done..| |done|lia]. by rewrite <- (assoc_L app).
Qed.

Lemma join_head sep x (p : jsstr) ls : exists t, join sep ((x :: p) :: ls) = x :: t.
Proof. destruct ls; [by eexists|]. rewrite join_cons by done. by eexists. Qed.

Lemma value_reads_back v : reads_back v.
Proof.
  induction v as [| |t|s|l IH|fs IH] using json_ind'; intros Hok n rest Hn Hd; (destruct n as [|n]; [pose proof (stringify_length _ Hok); lia|]).
  - done.
  - by destruct b.
  - inversion Hok as [| |? Ht ?| | |]; subst. pose proof (parse_number_extends _ rest _ _ Ht (or_intror (Hd eq_refl))) as Hp.
    cbn [stringify]. destruct t as [|u t]; [done|]. pose proof (parse_number_start _ _ _ _ Ht) as Hu. cbn [parse_value app skip_ws] in *.
    unfold is_num_start, is_digit in Hu. assert (Hw : is_ws u = false) by (unfold is_ws; lia). rewrite Hw.
    rewrite !(proj2 (N.eqb_neq u _)) by lia. by rewrite Hp.
  - inversion Hok; subst. cbn [stringify]. unfold json_quote. rewrite <- !(assoc_L app). cbn [app parse_value skip_ws].
    change (is_ws 34) with false. change (34 =? 34) with true. cbv iota. by rewrite parse_escape.
  - inversion Hok as [| | | |? Hl|]; subst. rewrite stringify_arr in *. cbn [app parse_value skip_ws length] in *.
    change (is_ws 91) with false. change (91 =? 34) with false. change (91 =? 91) with true. cbv iota.
    rewrite <- (assoc_L app). destruct l as [|v l]; [done|]. rewrite length_app in Hn. cbn [length] in Hn.
    pose proof (items_read_back (v :: l) rest n ltac:(done) IH Hl ltac:(unfold COMMA; lia)) as Hi.
    apply Forall_cons in Hl as [Hv _]. destruct (stringify_head v Hv) as (u & t & Hst & Hw).
    assert (Hu : u <> 93).
    { intros ->. destruct v as [|[]|t'|s|l'|fs]; try discriminate. cbn in Hst. subst t'. inversion Hv as [| |? Ht ?| | |]; subst.
      by apply parse_number_start in Ht. }
    rewrite fmap_cons in *. rewrite Hst in *. destruct (join_head [44] u t (stringify <$> l)) as [t' Ht']. rewrite Ht' in *. cbn [app skip_ws] in *. rewrite Hw.
    rewrite (proj2 (N.eqb_neq u 93)) by done. by rewrite Hi.
  - inversion Hok as [| | | | |? Hnd Hk Hfs]; subst. rewrite stringify_obj in *. cbn [app parse_value skip_ws length] in *.
    change (is_ws 123) with false. change (123 =? 34) with false. change (123 =? 91) with false. change (123 =? 123) with true. cbv iota.
    rewrite <- (assoc_L app). destruct fs as [|f fs]; [done|]. rewrite length_app in Hn. cbn [length] in Hn.
    pose proof (fields_read_back (f :: fs) [] rest n ltac:(done) IH Hfs Hnd Hk ltac:(unfold COMMA; lia)) as Hi. cbn [app] in Hi.
    rewrite fmap_cons in *. assert (Hst : exists t, field_text f = 34 :: t) by by eexists.
    destruct Hst as [t Hst]. rewrite Hst in *. destruct (join_head [44] 34 t (field_text <$> fs)) as [t' Ht']. rewrite Ht' in *.
    cbn [app skip_ws] in *. change (is_ws 34) with false. change (34 =? 125) with false. cbv iota. by rewrite Hi.
Qed.

(** [JSON.parse(JSON.stringify(v))] is [v]. *)
Lemma JSON_parse_stringify v : json_ok v -> JSON_parse (stringify v) = Some v.
Proof.
  intros H. unfold JSON_parse. rewrite <- (app_nil_r (stringify v)) at 2. rewrite (value_reads_back v H) by (lia || done). done.
Qed.

(** A proper beginning of the text of an object is no JSON text. *)
Lemma JSON_parse_prefix fs p q : json_ok (JObj fs) -> stringify (JObj fs) = p ++ q -> q <> [] -> JSON_parse p = None.
Proof.
  intros Hok Hs Hq. unfold JSON_parse. destruct (parse_value (2 * length p + 2) p) as [[v r]|] eqn:E; [|done].
  destruct (skip_ws r) eqn:Er; [exfalso|done].
  destruct p as [|u p]; [cbn in E; discriminate|]. assert (Hu : u = 123) by (rewrite stringify_obj in Hs; by injection Hs).
  assert (Hv : is_number v = false).
  { subst u. cbn [length] in E. replace (2 * S (length p) + 2)%nat with (S (2 * length p + 3)) in E by lia. cbn [parse_value skip_ws] in E.
    change (is_ws 123) with false in E. change (123 =? 34) with false in E. change (123 =? 91) with false in E. change (123 =? 123) with true in E. cbv iota in E.
    destruct (skip_ws p) as [|w s]; [done|]. destruct (w =? 125); [by injection E as <- _|].
    destruct (parse_fields _ _ _) as [[]|]; [by injection E as <- _|done]. }
  set (m := Nat.max (2 * length (u :: p) + 2) (2 * length (stringify (JObj fs)))).
  pose proof (proj1 (parse_extends _) _ q _ _ E (or_intror (or_intror Hv)) m ltac:(lia)) as H1. rewrite <- Hs in H1.
  pose proof (value_reads_back (JObj fs) Hok m [] ltac:(lia) ltac:(done)) as H2. rewrite app_nil_r in H2.
  rewrite H2 in H1. injection H1 as _ H1. symmetry in H1. apply app_nil in H1 as [_ H1]. by destruct q.
Qed.

(** ** The text of a value as a line and as bytes *)

(** Text in which surrogates come in pairs. *)
Inductive paired : jsstr -> Prop :=
| paired_nil : paired []
| paired_unit u s : is_high u = false -> is_low u = false -> paired s -> paired (u :: s)
| paired_pair u v s : is_high u = true -> is_low v = true -> paired s -> paired (u :: v :: s).

Lemma paired_app a b : paired a -> paired b -> paired (a ++ b).
Proof. intros Ha Hb. induction Ha; cbn; [done|by constructor..]. Qed.
Lemma paired_ascii s : Forall (fun u => u < 0xD800) s -> paired s.
Proof. induction 1; constructor; unfold is_high, is_low in *; try lia; done. Qed.

Lemma paired_utf16 s : js_wf s -> paired s -> utf16_encode (code_points s) = s.
Proof.
  intros Hs Hp. induction Hp as [|u s H1 H2 Hp IH|u v s H1 H2 Hp IH]; [done| |].
  - apply Forall_cons in Hs as [Hu Hs]. rewrite code_points_cons_plain by done. cbn [utf16_encode mbind list_bind].
    fold (utf16_encode (code_points s)). rewrite IH by done. unfold utf16_encode1. by rewrite (proj2 (N.ltb_lt _ _) Hu).
  - apply Forall_cons in Hs as [Hu Hs]. apply Forall_cons in Hs as [Hv Hs]. rewrite code_points_cons2, H1, H2. cbn [utf16_encode mbind list_bind].
    fold (utf16_encode (code_points s)). rewrite IH by done. unfold utf16_encode1, is_high, is_low in *. rewrite (proj2 (N.ltb_ge _ _)) by lia.
    cbn [app]. replace (0x10000 + (u - 0xD800) * 0x400 + (v - 0xDC00) - 0x10000) with ((v - 0xDC00) + (u - 0xD800) * 0x400) by lia.
    rewrite N.div_add, N.Div0.mod_add by lia. rewrite (N.div_small (v - 0xDC00)), (N.mod_small (v - 0xDC00)) by lia. f_equal; [lia|]. f_equal. lia.
Qed.

(** [Buffer.from(s, "utf8").toString("utf8")] is [s]. *)
Lemma utf8_round_trip s : js_wf s -> paired s -> buffer_toString (buffer_from s) = s.
Proof.
  intros Hs Hp. unfold buffer_toString, buffer_from. rewrite utf8_decode_encode by by apply code_points_scalar. by apply paired_utf16.
Qed.

(** Printable, 16-bit, paired. *)
Definition line_text (s : jsstr) : Prop := Forall (fun u => 32 <= u < 0x10000) s /\ paired s.

Lemma line_text_app a b : line_text a -> line_text b -> line_text (a ++ b).
Proof. intros [H1 H2] [H3 H4]. split; [by apply Forall_app|by apply paired_app]. Qed.
Lemma line_text_ascii s : Forall (fun u => 32 <= u < 128) s -> line_text s.
Proof. intros H. split; [eapply Forall_impl; [exact H|cbn; lia]|]. apply paired_ascii. eapply Forall_impl; [exact H|]. cbn. lia. Qed.

Lemma hex_digit_range d : d < 16 -> 32 <= hex_digit d < 128.
Proof. intros H. unfold hex_digit. destruct (d <? 10) eqn:E; to_prop; lia. Qed.
Lemma line_text_hex u : line_text (js "\u" ++ hex4 u).
Proof.
  assert (H : forall d, 32 <= hex_digit (d mod 16) < 128) by (intros d; apply hex_digit_range, N.mod_lt; lia).
  apply line_text_ascii. unfold hex4. change (js "\u") with [92; 117]. cbn [app].
  repeat (apply Forall_cons; split; [first [apply H|lia]|]). constructor.
Qed.
Lemma line_text_escape1 u : u < 0x10000 -> is_high u = false -> is_low u = false -> line_text (escape1 u).
Proof.
  intros Hu H1 H2. unfold escape1. repeat (case_match; to_prop; [by apply line_text_ascii; repeat constructor|]).
  case_match; to_prop; [apply line_text_hex|]. split; [repeat constructor; lia|by repeat constructor].
Qed.

Lemma line_text_escape s : js_wf s -> line_text (escape s).
Proof.
  induction s as [|u|u v s IH1 IH2] using units_ind; intros Hs; [by repeat constructor|..].
  - apply Forall_cons in Hs as [Hu _]. rewrite escape_one. destruct (is_high u) eqn:E1; [apply line_text_hex|].
    destruct (is_low u) eqn:E2; [apply line_text_hex|by apply line_text_escape1].
  - apply Forall_cons in Hs as [Hu Hs]. pose proof Hs as [Hv Hs']%Forall_cons. rewrite escape_cons2.
    destruct (is_high u) eqn:Eh; [destruct (is_low v) eqn:El|destruct (is_low u) eqn:El].
    + destruct (IH1 Hs') as [H1 H2]. split; [unfold is_high, is_low in *; repeat constructor; try lia; done|]. by apply paired_pair.
    + rewrite (assoc_L app). by apply line_text_app; [apply line_text_hex|apply IH2].
    + rewrite (assoc_L app). by apply line_text_app; [apply line_text_hex|apply IH2].
    + by apply line_text_app; [apply line_text_escape1|apply IH2].
Qed.

Lemma line_text_quote s : js_wf s -> line_text (json_quote s).
Proof. intros Hs. unfold json_quote. repeat apply line_text_app; [by apply line_text_ascii; repeat constructor|by apply line_text_escape|by apply line_text_ascii; repeat constructor]. Qed.

Lemma line_text_join ls : Forall line_text ls -> line_text (join [44] ls).
Proof.
  induction 1 as [|l ls Hl Hls IH]; [by repeat constructor|]. destruct ls as [|l' ls]; [done|]. rewrite join_cons by done.
  repeat apply line_text_app; [done|by apply line_text_ascii; repeat constructor|done].
Qed.

Lemma line_text_stringify v : json_ok v -> line_text (stringify v).
Proof.
  induction v as [| |t|s|l IH|fs IH] using json_ind'; intros Hok.
  - by apply line_text_ascii; repeat constructor.
  - destruct b; by apply line_text_ascii; repeat constructor.
  - inversion Hok; subst. by apply line_text_ascii.
  - inversion Hok; subst. by apply line_text_quote.
  - inversion Hok as [| | | |? Hl|]; subst. rewrite stringify_arr. apply (line_text_app [91]); [by apply line_text_ascii; repeat constructor|].
    apply line_text_app; [|by apply line_text_ascii; repeat constructor]. apply line_text_join.
    clear Hok. induction l as [|v l IHl]; [constructor|]. apply Forall_cons in IH as [H1 H2]. apply Forall_cons in Hl as [H3 H4].
    rewrite fmap_cons. constructor; [by apply H1|by apply IHl].
  - inversion Hok as [| | | | |? Hnd Hk Hl]; subst. rewrite stringify_obj. apply (line_text_app [123]); [by apply line_text_ascii; repeat constructor|].
    apply line_text_app; [|by apply line_text_ascii; repeat constructor]. apply line_text_join.
    clear Hok Hnd. induction fs as [|[k v] fs IHl]; [constructor|]. apply Forall_cons in IH as [H1 H2]. apply Forall_cons in Hl as [H3 H4]. apply Forall_cons in Hk as [H5 H6].
    rewrite fmap_cons. constructor; [|by apply IHl]. unfold field_text. cbn [fst snd] in *.
    apply line_text_app; [by apply line_text_quote|]. apply (line_text_app [58]); [by apply line_text_ascii; repeat constructor|by apply H1].
Qed.

Lemma line_text_wf s : line_text s -> js_wf s.
Proof. intros [H _]. eapply Forall_impl; [exact H|]. cbn. lia. Qed.
Lemma line_text_LF s : line_text s -> LF ∉ s.
Proof. intros [H _] Hin. rewrite Forall_forall in H. apply H in Hin. unfold LF in Hin. lia. Qed.

Lemma paired_line s : line_text s -> paired (s ++ [LF]).
Proof. intros [_ H]. apply paired_app; [done|]. by repeat constructor. Qed.

(** Checks by evaluation. *)
Lemma printable_check t : forallb (fun u => (32 <=? u) && (u <? 128)) t = true -> Forall (fun u => 32 <= u < 128) t.
Proof. rewrite forallb_forall, Forall_forall. intros H u Hu%list_elem_of_In%H. to_prop. lia. Qed.
Lemma js_wf_check s : forallb (fun u => u <? 0x10000) s = true -> js_wf s.
Proof. unfold js_wf. rewrite forallb_forall, Forall_forall. intros H u Hu%list_elem_of_In%H. by to_prop. Qed.
