(* ===== verification/IntegerText.v ===== *)
(** * Integers as the language prints them and reads them back

    [`${n}`] of an integer below 2^53 is the text of a JSON number, and
    [Number] of that text is the same integer: no double lies between. *)

From S2P Require Import Prelude JsString JsNumber Messages Json.
Local Open Scope Z_scope.

(** [Number.isSafeInteger(x)], and the integer. *)
Definition MAX_SAFE_INTEGER : Z := 2 ^ 53 - 1.
Definition safe_integer (x : num) : option Z :=
  match x with
  | Fin q => let r := Qred q in if (Zpos (Qden r) =? 1) && (Z.abs (Qnum r) <=? MAX_SAFE_INTEGER) then Some (Qnum r) else None
  | _ => None
  end.

Lemma show_N_start n : (0 < n)%N -> exists u ds, show_N n = u :: ds /\ u <> 48%N.
Proof.
  intros Hn. unfold show_N.
  assert (H : forall f m acc, (0 < m)%N -> (m < 2 ^ N.of_nat f)%N -> exists u ds, digits_aux f m acc = u :: ds /\ u <> 48%N).
  { induction f as [|f IH]; intros m acc Hm Hf; [simpl in Hf; lia|]. cbn [digits_aux]. destruct (N.ltb_spec m 10) as [Hs|Hs].
    - do 2 eexists. split; [done|]. rewrite N.mod_small by lia. lia.
    - apply IH; [apply N.div_str_pos; lia|]. apply N.Div0.div_lt_upper_bound. rewrite Nat2N.inj_succ, N.pow_succ_r' in Hf. lia. }
  apply H; [done|]. rewrite Nat2N.inj_succ, N2Nat.id. by apply N.log2_spec.
Qed.

Lemma span_all (p : N -> bool) ds : forallb p ds = true -> JsNumber.span p ds = (ds, []).
Proof. induction ds as [|d ds IH]; [done|]. cbn. intros [-> H]%andb_true_iff. by rewrite IH. Qed.

Lemma digits_of_show n : digits (show_N n) = Some (show_N n, []).
Proof. destruct (show_N_digits n) as [Hne Hd]. unfold digits. rewrite span_all by done. by destruct (show_N n). Qed.

Lemma unsigned_show n : unsigned (show_N n) = Some (show_N n, []).
Proof.
  unfold unsigned. assert (Hi : Json.integer (show_N n) = Some (show_N n, [])).
  { destruct (decide (n = 0%N)) as [->|Hn]; [done|]. destruct (show_N_start n) as (u & ds & Hs & Hu); [lia|].
    pose proof (digits_of_show n) as Hd. rewrite Hs in Hd |- *. unfold Json.integer. by rewrite (proj2 (N.eqb_neq _ _) Hu). }
  rewrite Hi. cbn. by rewrite app_nil_r.
Qed.

Lemma digit_range u : is_digit u = true -> (48 <= u <= 57)%N.
Proof. unfold is_digit. intros [H1 H2]%andb_true_iff. apply N.leb_le in H1, H2. lia. Qed.

Lemma show_N_ok n : json_ok (JNum (show_N n)).
Proof.
  destruct (show_N_digits n) as [Hne Hd]. constructor.
  - pose proof (unsigned_show n) as Hu. unfold parse_number. destruct (show_N n) as [|u ds] eqn:E; [done|].
    cbn in Hd. apply andb_true_iff in Hd as [Hd _]. apply digit_range in Hd. by rewrite (proj2 (N.eqb_neq _ _)) by lia.
  - apply Forall_forall. intros u Hu. rewrite forallb_forall in Hd. apply list_elem_of_In in Hu. specialize (Hd u Hu). apply digit_range in Hd. lia.
Qed.

Lemma digits_trim ds : forallb is_digit ds = true -> trim ds = ds.
Proof.
  intros Hd. assert (Hs : forall l, forallb is_digit l = true -> trim_start l = l).
  { intros l Hl. apply trim_start_idle. destruct l as [|u l]; [done|]. cbn in Hl. apply andb_true_iff in Hl as [Hl _]. apply digit_range in Hl.
    apply bool_decide_eq_false. rewrite !elem_of_cons, elem_of_nil. lia. }
  unfold trim. rewrite Hs by done. unfold trim_end. rewrite Hs; [by rewrite reverse_involutive|].
  rewrite forallb_forall in Hd |- *. intros x Hx. apply Hd. apply list_elem_of_In. apply list_elem_of_In in Hx. by rewrite elem_of_reverse in Hx.
Qed.

Lemma rnd_integer z : 0 <= z < 2 ^ 53 -> Qred (rnd (inject_Z z)) = inject_Z z.
Proof.
  intros Hz. destruct (rnd_between (inject_Z z) z z) as [H1 H2]; [lia|lia|apply Qle_refl|apply Qle_refl|].
  rewrite (Qred_complete (rnd (inject_Z z)) (inject_Z z)) by (by apply Qle_antisym).
  unfold Qred, inject_Z. cbn. pose proof (Z.ggcd_gcd z 1) as Hg. pose proof (Z.ggcd_correct_divisors z 1) as Hc.
  destruct (Z.ggcd z 1) as [g [a b]]. cbn in Hg. rewrite Z.gcd_1_r in Hg. subst g. destruct Hc as [Ha Hb]. rewrite Z.mul_1_l in Ha, Hb. by subst.
Qed.

Lemma to_num_integer z : 0 <= z < 2 ^ 53 -> safe_integer (to_num (inject_Z z)) = Some z.
Proof.
  intros Hz. destruct (rnd_between (inject_Z z) z z) as [H1 H2]; [lia|lia|apply Qle_refl|apply Qle_refl|].
  unfold to_num. assert (Hb : forall a b, (a < b)%Z -> Qle_bool (inject_Z b) (inject_Z a) = false).
  { intros a b Hab. destruct (Qle_bool _ _) eqn:E; [|done]. apply Qle_bool_iff in E. unfold Qle in E. cbn in E. lia. }
  assert (Hhi : Qle_bool (inject_Z (2 ^ 1024)) (rnd (inject_Z z)) = false).
  { apply not_true_is_false. intros E. apply Qle_bool_iff in E. pose proof (proj2 (Qle_bool_iff _ _) (Qle_trans _ _ _ E H2)) as E2. rewrite Hb in E2; [done|].
    apply Z.lt_trans with (2 ^ 53); [lia|apply Z.pow_lt_mono_r; lia]. }
  assert (Hlo : Qle_bool (rnd (inject_Z z)) (inject_Z (- 2 ^ 1024)) = false).
  { apply not_true_is_false. intros E. apply Qle_bool_iff in E. pose proof (proj2 (Qle_bool_iff _ _) (Qle_trans _ _ _ H1 E)) as E2. rewrite Hb in E2; [done|].
    assert (0 < 2 ^ 1024) by (apply Z.pow_pos_nonneg; lia). lia. }
  rewrite Hhi, Hlo. cbv beta iota delta [safe_integer]. rewrite (rnd_integer z Hz). cbn [Qnum Qden inject_Z]. unfold MAX_SAFE_INTEGER.
  replace (Z.abs z <=? 2 ^ 53 - 1) with true by lia. done.
Qed.

(** A safe integer reads back as itself. *)
Lemma Number_show z : 0 <= z < 2 ^ 53 -> safe_integer (Number (show_Z z)) = Some z.
Proof.
  intros Hz. unfold show_Z. replace (z <? 0) with false by lia. destruct (show_N_digits (Z.to_N z)) as [Hne Hd].
  pose proof (natural_show (Z.to_N z)) as Hn. unfold natural in Hn. rewrite Hd in Hn. rewrite Z2N.id in Hn by lia.
  set (s := show_N (Z.to_N z)) in *. clearbody s. unfold Number. rewrite (digits_trim s) by done. destruct s as [|u ds]; [done|].
  injection Hn as Hn. pose proof Hd as Hd'. cbn in Hd'. apply andb_true_iff in Hd' as [Hu Hds]. apply digit_range in Hu.
  cbv zeta. match goal with |- safe_integer (match ?m with _ => _ end) = _ => assert (Hm : m = None) end.
  { destruct (decide (u = 48%N)) as [->|Hu0]; [|by repeat case_match].
    destruct ds as [|c ds]; [done|]. cbn in Hds. apply andb_true_iff in Hds as [Hc _]. apply digit_range in Hc.
    by rewrite !bool_decide_false by (rewrite !elem_of_cons, elem_of_nil; lia). }
  rewrite Hm. clear Hm. unfold signed. rewrite !(proj2 (N.eqb_neq _ _)) by lia.
  assert (Hinf : jseqb (u :: ds) (js "Infinity") = false) by (apply bool_decide_eq_false; intros [= -> _]; lia).
  rewrite Hinf. unfold parse_decimal. rewrite span_all by done. cbv beta iota zeta. rewrite app_nil_r. cbn [parse_exponent length Z.of_nat Z.sub].
  rewrite Hn. unfold scale10. cbn [Z.leb Z.compare Z.pow Z.add Z.opp]. rewrite Z.mul_1_r. by apply to_num_integer.
Qed.
