(* ===== verification/FileLines.v ===== *)
(** * Reading a file by lines (utils/file-lines.ts)

    A file arrives in pieces of any size: reads that return less than they
    were asked for, and the chunks of a stream. The lines do not depend on
    how it was cut. *)

(* Source aliases:
   FL = src/packages/coding-agent/src/utils/file-lines.ts *)

From S2P Require Import Prelude JsString.

(** [buffer.indexOf(0x0a)]. *)
Fixpoint index_LF (bytes : list N) : option nat :=
  match bytes with
  | [] => None
  | b :: rest => if (b =? LF)%N then Some 0 else S <$> index_LF rest
  end.

Section reading.
(** [readSync] at a position returns some of the bytes that are there, at least one unless the file ends:
    [short position] is how many more than one it would return at most. *)
Variable short : nat -> nat.
Definition readSync (file : list N) (position bytesToRead : nat) : list N := take (Nat.min bytesToRead (S (short position))) (drop position file).

(** [text.replace(/\r$/, "")]. *)
Definition strip_CR (s : jsstr) : jsstr := match reverse s with 13%N :: r => reverse r | _ => s end.

(** FL 9-27 readFirstLineSync. The loop: the first line or all chunks. *)
Fixpoint first_line_loop (fuel : nat) (file : list N) (maxBytes position : nat) (chunks : list (list N)) : option jsstr :=
  let rest := match chunks with [] => None | _ => Some (strip_CR (buffer_toString (concat chunks))) end in
  match fuel with
  | O => rest
  | S fuel =>
      if Nat.ltb position maxBytes then
        let chunk := readSync file position (Nat.min 1024 (maxBytes - position)) in
        match chunk with
        | [] => rest
        | _ =>
            match index_LF chunk with
            | Some newlineIndex => Some (strip_CR (buffer_toString (concat (chunks ++ [take newlineIndex chunk]))))
            | None => first_line_loop fuel file maxBytes (position + length chunk) (chunks ++ [chunk])
            end
        end
      else rest
  end.
(** FL 3-35 readFirstLineSync. Every read moves the position, so [maxBytes] rounds are enough. *)
Definition readFirstLineSync (file : list N) (maxBytes : nat) : option jsstr := first_line_loop (S maxBytes) file maxBytes 0 [].

(** FL 43-48 readBytesSync. The loop that fills the buffer. *)
Fixpoint fill (fuel : nat) (file : list N) (start length_ : nat) (buffer : list N) : list N :=
  match fuel with
  | O => buffer
  | S fuel =>
      if Nat.ltb (length buffer) length_ then
        match readSync file (start + length buffer) (length_ - length buffer) with
        | [] => buffer
        | bytesRead => fill fuel file start length_ (buffer ++ bytesRead)
        end
      else buffer
  end.
(** FL 38-53 readBytesSync. *)
Definition readBytesSync (file : list N) (start endExclusive : nat) : list N :=
  let length_ := endExclusive - start in fill (S length_) file start length_ [].
End reading.

(** FL 67-85 readLinesAsBuffers. One chunk from [start] on: the lines it ends, and the pending parts. *)
Fixpoint chunk_lines (fuel : nat) (buffer : list N) (pendingParts : list (list N)) (lines : list (list N)) : list (list N) * list (list N) :=
  match fuel, buffer with
  | S fuel, _ :: _ =>
      match index_LF buffer with
      | None => (lines, pendingParts ++ [buffer])
      | Some e =>
          let part := take e buffer in
          let line := match pendingParts with [] => part | _ => concat (pendingParts ++ [part]) end in
          chunk_lines fuel (drop (S e) buffer) [] (lines ++ [line])
      end
  | _, _ => (lines, pendingParts)
  end.
(** FL 61-93 readLinesAsBuffers. *)
Definition readLinesAsBuffers (chunks : list (list N)) : list (list N) :=
  let '(lines, pendingParts) := foldl (fun '(lines, pending) chunk => chunk_lines (length chunk) chunk pending lines) ([], []) chunks in
  match pendingParts with [] => lines | _ => lines ++ [concat pendingParts] end.

(** ** Line breaks *)

Lemma index_LF_None bytes : index_LF bytes = None <-> LF ∉ bytes.
Proof.
  induction bytes as [|b bytes IH]; cbn; [split; [intros _; apply not_elem_of_nil|done]|]. rewrite not_elem_of_cons.
  destruct (N.eqb_spec b LF) as [->|Hb]; [split; [done|by intros []]|]. rewrite fmap_None, IH. split; [intros H; split; [congruence|done]|by intros []].
Qed.
Lemma index_LF_Some bytes e : index_LF bytes = Some e -> exists rest, bytes = take e bytes ++ LF :: rest /\ drop (S e) bytes = rest /\ LF ∉ take e bytes /\ (e < length bytes)%nat.
Proof.
  revert e. induction bytes as [|b bytes IH]; intros e; cbn; [done|]. destruct (N.eqb_spec b LF) as [->|Hb].
  - intros [= <-]. exists bytes. cbn. rewrite drop_0. repeat split; [apply not_elem_of_nil|lia].
  - destruct (index_LF bytes) as [n|]; [|done]. intros [= <-]. destruct (IH n eq_refl) as (rest & H1 & H2 & H3 & H4). exists rest. cbn.
    split; [by f_equal|]. split; [done|]. split; [|lia]. rewrite not_elem_of_cons. split; [congruence|done].
Qed.

(** ** The stream *)

(** The lines of a file: a last line without its break is one, an empty one is not. *)
Definition file_lines (bytes : list N) : list (list N) :=
  match last (lines_of bytes) with Some [] => removelast (lines_of bytes) | _ => lines_of bytes end.

(** What has been read: the lines that are whole, and the pending parts of the next. *)
Definition reads (bytes : list N) (st : list (list N) * list (list N)) : Prop :=
  lines_of bytes = st.1 ++ [concat st.2] /\ Forall (fun p => p <> []) st.2.

Lemma chunk_lines_reads fuel chunk : forall bytes lines pending, (length chunk <= fuel)%nat -> reads bytes (lines, pending) ->
  reads (bytes ++ chunk) (chunk_lines fuel chunk pending lines).
Proof.
  induction fuel as [|fuel IH] in chunk |- *; intros bytes lines pending Hf Hr.
  { destruct chunk; [by rewrite app_nil_r|cbn in Hf; lia]. }
  cbn [chunk_lines]. destruct chunk as [|b chunk']; [by rewrite app_nil_r|]. set (chunk := b :: chunk') in *. destruct Hr as [Hl Hp]. cbn [fst snd] in *.
  destruct (index_LF chunk) as [e|] eqn:Ei.
  - destruct (index_LF_Some _ _ Ei) as (rest & Hc & Hd & Hn & He). rewrite Hc at 1. rewrite (assoc_L app), cons_middle, (assoc_L app). rewrite Hd.
    apply IH; [rewrite <- Hd, length_drop; lia|]. split; [|constructor]. cbn [fst snd concat].
    assert (Hline : match pending with [] => take e chunk | _ => concat (pending ++ [take e chunk]) end = concat pending ++ take e chunk).
    { destruct pending; [done|]. rewrite concat_app. cbn [concat]. by rewrite app_nil_r. }
    rewrite Hline. change [LF] with (LF :: []). rewrite lines_of_app. f_equal. unfold lines_of in *. rewrite (split_on_join LF bytes (take e chunk) lines _ (take e chunk) [] Hl); [done|].
    by apply split_on_plain.
  - apply index_LF_None in Ei. split; cbn [fst snd].
    + rewrite concat_app. cbn [concat]. rewrite app_nil_r. unfold lines_of in *. rewrite (split_on_join LF bytes chunk lines _ chunk [] Hl); [done|]. by apply split_on_plain.
    + apply Forall_app. split; [done|]. by repeat constructor.
Qed.

(** However a stream is cut into chunks, its lines are the lines of the file. *)
Theorem stream_lines (chunks : list (list N)) : readLinesAsBuffers chunks = file_lines (concat chunks).
Proof.
  unfold readLinesAsBuffers. assert (H : forall bytes st, reads bytes st ->
    reads (bytes ++ concat chunks) (foldl (fun '(lines, pending) chunk => chunk_lines (length chunk) chunk pending lines) st chunks)).
  { induction chunks as [|c cs IH]; intros bytes [ls ps] Hr; cbn [concat foldl]; [by rewrite app_nil_r|]. rewrite (assoc_L app). apply IH. by apply chunk_lines_reads. }
  specialize (H [] ([], []) ltac:(split; [done|constructor])). cbn [app] in H.
  destruct (foldl _ _ _) as [lines pending]. destruct H as [Hl Hp]. cbn [fst snd] in *. unfold file_lines. rewrite Hl, last_snoc.
  destruct pending as [|p ps]; [by rewrite removelast_last|]. apply Forall_cons in Hp as [Hp _]. destruct p; [done|]. done.
Qed.

(** ** The first line *)

Definition first_line (bytes : list N) : option jsstr :=
  match bytes with [] => None | _ => Some (strip_CR (buffer_toString (match index_LF bytes with Some e => take e bytes | None => bytes end))) end.

Lemma readSync_prefix short file position n : exists k, readSync short file position n = take k (drop position file) /\ (k <= n)%nat /\
  ((0 < n)%nat -> (position < length file)%nat -> (0 < k)%nat /\ (0 < length (readSync short file position n))%nat).
Proof.
  exists (Nat.min n (S (short position))). split; [done|]. split; [lia|]. intros Hn Hp. split; [lia|]. unfold readSync. rewrite length_take, length_drop. lia.
Qed.

Lemma index_LF_app a b : LF ∉ a -> index_LF (a ++ b) = (fun e => length a + e)%nat <$> index_LF b.
Proof.
  induction a as [|x a IH]; intros H; cbn; [by destruct (index_LF b)|]. apply not_elem_of_cons in H as [Hx H]. rewrite (proj2 (N.eqb_neq _ _)) by congruence.
  rewrite IH by done. by destruct (index_LF b).
Qed.
Lemma index_LF_take a k e : index_LF (take k a) = Some e -> index_LF a = Some e.
Proof.
  revert k e. induction a as [|x a IH]; intros [|k] e; cbn; try done. destruct (x =? LF)%N; [done|]. destruct (index_LF (take k a)) as [n|] eqn:E; [|done].
  intros [= <-]. by rewrite (IH _ _ E).
Qed.

Lemma first_line_loop_spec short file maxBytes fuel : forall position chunks,
  concat chunks = take position file -> LF ∉ take position file -> (position <= maxBytes)%nat -> (position <= length file)%nat ->
  Forall (fun c => c <> []) chunks -> (maxBytes < fuel + position)%nat ->
  first_line_loop short fuel file maxBytes position chunks = first_line (take maxBytes file).
Proof.
  induction fuel as [|fuel IH]; intros position chunks Hc Hn Hp Hl Hne Hf; [lia|]. cbn [first_line_loop].
  assert (Hlen : length (take position file) = position) by (rewrite length_take; lia).
  assert (Hrest : take maxBytes file = take position file ->
    match chunks with [] => None | _ => Some (strip_CR (buffer_toString (concat chunks))) end = first_line (take maxBytes file)).
  { intros ->. unfold first_line. rewrite (proj2 (index_LF_None _) Hn), <- Hc. destruct chunks as [|c cs]; [done|].
    apply Forall_cons in Hne as [Hne _]. by destruct c. }
  destruct (Nat.ltb_spec position maxBytes) as [Hlt|Hge]; [|apply Hrest; by replace maxBytes with position by lia].
  destruct (readSync_prefix short file position (Nat.min 1024 (maxBytes - position))) as (k & Hk & Hkn & Hpos). rewrite Hk in Hpos |- *.
  assert (Htake : take maxBytes file = take position file ++ take (maxBytes - position) (drop position file)).
  { replace maxBytes with (position + (maxBytes - position))%nat at 1 by lia. by rewrite take_take_drop. }
  destruct (take k (drop position file)) as [|b chunk'] eqn:Ec.
  { apply Hrest. assert (length file <= position)%nat by (destruct (decide (position < length file)%nat); [destruct (Hpos ltac:(lia) ltac:(lia)) as [_ H0]; cbn in H0; lia|lia]). by rewrite !take_ge by lia. }
  set (chunk := b :: chunk') in *. destruct (index_LF chunk) as [e|] eqn:Ei.
  - assert (Hidx : index_LF (take maxBytes file) = Some (position + e)%nat).
    { rewrite Htake, index_LF_app by done. rewrite (index_LF_take _ k e); [cbn; by rewrite Hlen|]. rewrite take_take, Nat.min_l by lia. by rewrite Ec. }
    assert (Hfl : first_line (take maxBytes file) = Some (strip_CR (buffer_toString (take (position + e) (take maxBytes file))))).
    { unfold first_line. rewrite Hidx. by destruct (take maxBytes file). }
    rewrite Hfl. do 3 f_equal. rewrite concat_app, Hc. cbn [concat]. rewrite app_nil_r, Htake, take_app_ge by (rewrite Hlen; lia). rewrite Hlen.
    replace (position + e - position)%nat with e by lia. f_equal. rewrite <- Ec, !take_take. f_equal.
    destruct (index_LF_Some _ _ Ei) as (_ & _ & _ & _ & He). rewrite <- Ec, length_take in He. lia.
  - apply index_LF_None in Ei. assert (Hck : length chunk = Nat.min k (length (drop position file))) by (rewrite <- Ec; apply length_take).
    assert (Htk : take (position + length chunk) file = take position file ++ chunk).
    { rewrite <- take_take_drop. f_equal. rewrite Hck, <- Ec. destruct (decide (k <= length (drop position file))%nat).
      - by rewrite Nat.min_l by lia.
      - rewrite Nat.min_r by lia. by rewrite !take_ge by lia. }
    rewrite length_drop in Hck. apply IH.
    + rewrite concat_app, Hc, Htk. cbn [concat]. by rewrite app_nil_r.
    + rewrite Htk. intros [H|H]%elem_of_app; contradiction.
    + lia.
    + lia.
    + apply Forall_app. split; [done|]. by repeat constructor.
    + change (length chunk) with (S (length chunk')). lia.
Qed.

(** However few bytes each read returns, the first line is that of the bytes up to the limit. *)
Theorem readFirstLine_spec (short : nat -> nat) (file : list N) (maxBytes : nat) :
  readFirstLineSync short file maxBytes = first_line (take maxBytes file).
Proof. apply first_line_loop_spec; [done|apply not_elem_of_nil|lia|lia|constructor|lia]. Qed.

Lemma fill_spec short file start length_ fuel : forall buffer, buffer = take (length buffer) (drop start file) -> (length buffer <= length_)%nat ->
  (length_ < fuel + length buffer)%nat -> fill short fuel file start length_ buffer = take length_ (drop start file).
Proof.
  induction fuel as [|fuel IH]; intros buffer Hb Hl Hf; [lia|]. cbn [fill]. destruct (Nat.ltb_spec (length buffer) length_) as [Hlt|Hge].
  - destruct (readSync_prefix short file (start + length buffer) (length_ - length buffer)) as (k & Hk & Hkn & Hpos). rewrite Hk in Hpos |- *.
    destruct (take k (drop (start + length buffer) file)) as [|b r] eqn:Er.
    + rewrite Hb. assert (length file <= start + length buffer)%nat by (destruct (decide (start + length buffer < length file)%nat); [destruct (Hpos ltac:(lia) ltac:(lia)) as [_ H0]; cbn in H0; lia|lia]).
      rewrite !take_ge; [done|rewrite length_drop; lia|]. rewrite Hb, length_take, length_drop. lia.
    + assert (Hlr : (length (b :: r) = Nat.min k (length file - (start + length buffer)))%nat) by (rewrite <- Er, length_take, length_drop; lia).
      apply IH; [|rewrite length_app; lia|rewrite length_app; cbn [length]; lia].
      rewrite length_app, <- take_take_drop, <- Hb. f_equal. rewrite drop_drop, Hlr, <- Er. destruct (decide (k <= length file - (start + length buffer))%nat).
      * by rewrite Nat.min_l by lia.
      * rewrite Nat.min_r by lia. rewrite !take_ge by (rewrite length_drop; lia). done.
  - rewrite Hb. f_equal. lia.
Qed.
(** The bytes of a range, fewer only when the file ends. *)
Theorem readBytes_spec (short : nat -> nat) (file : list N) (start endExclusive : nat) :
  readBytesSync short file start endExclusive = take (endExclusive - start) (drop start file).
Proof. apply fill_spec; [done|cbn; lia|cbn; lia]. Qed.

Example first_line_ex : readFirstLineSync (fun _ => 1%nat) (js "ab" ++ [13%N; LF] ++ js "c") 100 = Some (js "ab").
Proof. vm_compute. reflexivity. Qed.
Example stream_ex : readLinesAsBuffers [js "a"; js "b" ++ [LF]; [LF]; js "c"] = [js "ab"; []; js "c"].
Proof. vm_compute. reflexivity. Qed.
