(* ===== verification/FileLog.v ===== *)
(** * Files of JSON lines

    What the append-only files of the program have in common: the bytes of
    their lines, what a write that is cut short leaves, and what a reader
    makes of a torn last line. *)

From S2P Require Import Prelude JsString JsNumber JsMap Messages Json.
Local Open Scope N_scope.

Definition line_bytes (v : json) : list N := buffer_from (stringify v ++ [LF]).
Definition log_bytes (vs : list json) : list N := vs ≫= line_bytes.
Definition log_text (vs : list json) : jsstr := vs ≫= fun v => stringify v ++ [LF].

(** The values whose lines are whole in the first [w] bytes. *)
Fixpoint whole (w : nat) (vs : list json) : list json :=
  match vs with
  | [] => []
  | v :: rest => if Nat.leb (length (line_bytes v)) w then v :: whole (w - length (line_bytes v)) rest else []
  end.

(** ** Bytes and text *)

Lemma code_points_app a b : paired a -> code_points (a ++ b) = code_points a ++ code_points b.
Proof.
  induction 1 as [|u s H1 H2 _ IH|u v s H1 H2 _ IH]; [done| |].
  - cbn [app]. by rewrite !code_points_cons_plain, IH.
  - change ((u :: v :: s) ++ b) with (u :: v :: (s ++ b)). by rewrite !code_points_cons2, H1, H2, IH.
Qed.
Lemma buffer_from_app a b : paired a -> buffer_from (a ++ b) = buffer_from a ++ buffer_from b.
Proof. intros Ha. unfold buffer_from, utf8_encode. by rewrite code_points_app, bind_app. Qed.

Lemma decode_prefix cps bytes : Forall is_scalar cps ->
  utf8_decode_from DStart (utf8_encode cps ++ bytes) = cps ++ utf8_decode_from DStart bytes.
Proof.
  induction 1 as [|cp cps Hcp _ IH]; [done|]. change (utf8_encode (cp :: cps)) with (utf8_encode1 cp ++ utf8_encode cps).
  rewrite <- (assoc_L app). by rewrite utf8_decode_encode1, IH.
Qed.
Lemma toString_prefix s bytes : js_wf s -> paired s -> buffer_toString (buffer_from s ++ bytes) = s ++ buffer_toString bytes.
Proof.
  intros Hs Hp. unfold buffer_toString, buffer_from. rewrite decode_prefix by by apply code_points_scalar.
  by rewrite utf16_encode_app, paired_utf16.
Qed.

(** Bytes without a line feed decode to text without one. *)
Definition above_ascii (st : dstate) : Prop :=
  match st with DStart => True | DCont n cp lo _ => 0x80 <= lo /\ (1 <= cp \/ 0x90 <= lo /\ (2 <= n)%nat) end.
Lemma start_byte_above b : above_ascii (start_byte b).2 /\ (LF ∈ (start_byte b).1 -> b = LF).
Proof.
  unfold start_byte, LF. repeat case_match; to_prop; cbn; rewrite ?list_elem_of_singleton; unfold replacement; (split; [try done; lia|]); try done; try (by intros ?%elem_of_nil); intros ?; lia.
Qed.
Lemma decode_no_LF st bytes : above_ascii st -> LF ∉ bytes -> LF ∉ utf8_decode_from st bytes.
Proof.
  revert st. induction bytes as [|b bytes IH]; intros st Hst Hb; cbn [utf8_decode_from].
  { destruct st; [set_solver|]. rewrite list_elem_of_singleton. done. }
  apply not_elem_of_cons in Hb as [Hb Hbs]. pose proof (start_byte_above b) as [Ha Hl]. destruct (start_byte b) as [out st'] eqn:Es. cbn in Ha, Hl.
  assert (Hout : LF ∉ out ++ utf8_decode_from st' bytes) by (rewrite elem_of_app; intros [H%Hl|H]; [done|by apply (IH st')]).
  destruct st as [|n cp lo hi]; [done|]. destruct (_ && _) eqn:Er; to_prop.
  - destruct Hst as [Hlo Hst]. assert (Hcp : 0x10 <= cp * 0x40 + (b - 0x80)) by lia. destruct n as [|[|n']].
    + apply not_elem_of_cons. split; [unfold LF; lia|by apply IH].
    + apply not_elem_of_cons. split; [unfold LF; lia|by apply IH].
    + apply IH; [|done]. cbn. lia.
  - apply not_elem_of_cons. by split.
Qed.
Lemma toString_no_LF bytes : LF ∉ bytes -> LF ∉ buffer_toString bytes.
Proof.
  intros H Hin. unfold buffer_toString, utf16_encode in Hin. apply list_elem_of_bind in Hin as (cp & Hcp & Hd).
  unfold utf16_encode1, LF in *. assert (cp = LF).
  { destruct (cp <? 0x10000) eqn:E; to_prop; rewrite ?elem_of_cons, ?elem_of_nil in Hcp; unfold LF; intuition lia. }
  subst. by apply (decode_no_LF DStart bytes I H).
Qed.

Lemma log_text_wf vs (Hok : Forall json_ok vs) : js_wf (log_text vs) /\ paired (log_text vs).
Proof.
  unfold log_text. induction Hok as [|v vs' Hv _ [IH1 IH2]]; [split; [apply Forall_nil_2|apply paired_nil]|]. rewrite bind_cons.
  pose proof (line_text_stringify v Hv) as Hl. split.
  - repeat (apply Forall_app; split); [by apply line_text_wf|by repeat constructor|done].
  - apply paired_app; [by apply paired_line|done].
Qed.

Lemma log_bytes_text vs (Hok : Forall json_ok vs) : log_bytes vs = buffer_from (log_text vs).
Proof.
  unfold log_bytes, log_text. induction Hok as [|v vs' Hv _ IH]; [done|]. rewrite !bind_cons, IH.
  by rewrite (buffer_from_app (stringify v ++ [LF])) by by apply paired_line, line_text_stringify.
Qed.

Lemma lines_of_log vs rest (Hok : Forall json_ok vs) : lines_of (log_text vs ++ rest) = (stringify <$> vs) ++ lines_of rest.
Proof.
  unfold log_text, lines_of. induction Hok as [|v vs' Hv _ IH]; [done|]. rewrite bind_cons, fmap_cons, <- !(assoc_L app).
  change ([LF] ++ ?x) with (LF :: x). rewrite split_on_app_sep by by apply line_text_LF, line_text_stringify. cbn [app]. by rewrite IH.
Qed.

(** The text of a log with a torn tail. *)
Lemma read_log vs tail (Hok : Forall json_ok vs) : LF ∉ tail ->
  buffer_toString (log_bytes vs ++ tail) = log_text vs ++ buffer_toString tail /\
  lines_of (buffer_toString (log_bytes vs ++ tail)) = (stringify <$> vs) ++ [buffer_toString tail].
Proof.
  intros Ht. destruct (log_text_wf vs Hok) as [Hw Hp]. rewrite log_bytes_text, toString_prefix by done. split; [done|].
  rewrite lines_of_log by done. unfold lines_of. by rewrite (split_on_plain LF (buffer_toString tail)) by by apply toString_no_LF.
Qed.
Lemma line_bytes_app v : json_ok v -> line_bytes v = buffer_from (stringify v) ++ [LF].
Proof. intros H. unfold line_bytes. rewrite buffer_from_app; [done|]. apply line_text_stringify, H. Qed.

Lemma LF_of_buffer s : LF ∉ s -> LF ∉ buffer_from s.
Proof.
  intros H Hin. apply H, LF_code_points. unfold buffer_from, utf8_encode in Hin. by apply list_elem_of_bind in Hin as (cp & ->%LF_utf8_encode1 & ?).
Qed.

(** What a write leaves when it is cut short after [w] bytes: whole lines, and a piece of the next one. *)
Lemma torn_write vs w : Forall json_ok vs -> exists tail, take w (log_bytes vs) = log_bytes (whole w vs) ++ tail /\ LF ∉ tail /\
  (tail = [] \/ exists v, v ∈ vs /\ exists more, more <> [] /\ line_bytes v = tail ++ more).
Proof.
  intros H. revert w. induction H as [|v vs Hv _ IH]; intros w; [exists []; destruct w; set_solver|].
  change (log_bytes (v :: vs)) with (line_bytes v ++ log_bytes vs). cbn [whole]. destruct (Nat.leb (length (line_bytes v)) w) eqn:E; to_prop.
  - destruct (IH (w - length (line_bytes v))%nat) as (tail & Ht & Hl & Hp). exists tail. rewrite take_app_ge by done. rewrite Ht.
    change (log_bytes (v :: ?x)) with (line_bytes v ++ log_bytes x). rewrite (assoc_L app). split_and!; [done|done|].
    destruct Hp as [|(v' & Hv' & Hm)]; [by left|right; exists v'; set_solver].
  - exists (take w (line_bytes v)). rewrite take_app_le by lia. split; [done|]. split.
    + rewrite (line_bytes_app v Hv) in *. rewrite length_app in E. cbn in E. rewrite take_app_le by lia.
      intros Hin. apply (LF_of_buffer (stringify v)); [by apply line_text_LF, line_text_stringify|].
      rewrite <- (take_drop w (buffer_from (stringify v))). set_solver.
    + right. exists v. split; [set_solver|]. exists (drop w (line_bytes v)). split; [|by rewrite take_drop].
      intros Hd. apply (f_equal length) in Hd. rewrite length_drop in Hd. cbn in Hd. lia.
Qed.

Lemma whole_all vs w : (length (log_bytes vs) <= w)%nat -> whole w vs = vs.
Proof.
  revert w. induction vs as [|v vs IH]; intros w Hw; [done|]. change (log_bytes (v :: vs)) with (line_bytes v ++ log_bytes vs) in Hw.
  rewrite length_app in Hw. cbn [whole]. rewrite (proj2 (Nat.leb_le _ _)) by lia. f_equal. apply IH. lia.
Qed.

Lemma whole_ok vs w : Forall json_ok vs -> Forall json_ok (whole w vs).
Proof. intros H. revert w. induction H as [|v vs Hv _ IH]; intros w; cbn; [constructor|]. destruct (Nat.leb _ _); [by constructor|constructor]. Qed.

Lemma log_bytes_app a b : log_bytes (a ++ b) = log_bytes a ++ log_bytes b.
Proof. apply bind_app. Qed.

(** ** A line that is torn *)

(** The beginning of the bytes of one code point decodes to a replacement character. *)
Lemma decode_torn1 cp b c : is_scalar cp -> utf8_encode1 cp = b ++ c -> b <> [] -> c <> [] -> utf8_decode_from DStart b = [replacement].
Proof.
  intros Hs He Hb Hc. unfold utf8_encode1, is_scalar in *. destruct b as [|x b]; [done|]. rewrite decode_start.
  destruct (cp <? 0x80) eqn:E1; to_prop; [|destruct (cp <? 0x800) eqn:E2; to_prop; [|destruct (cp <? 0x10000) eqn:E3; to_prop]].
  - injection He as _ He. symmetry in He. by apply app_nil in He as [_ ?].
  - injection He as <- He. split64 cp. rewrite start_byte_2 by lia. destruct b as [|y b]; [done|].
    injection He as _ He. symmetry in He. by apply app_nil in He as [_ ?].
  - injection He as <- He. replace (cp / 0x1000) with (cp / 0x40 / 0x40) in * by (rewrite N.Div0.div_div; done).
    split64 cp. split64 q. rewrite start_byte_3 by lia. destruct b as [|y b]; [done|]. injection He as <- He. cbn [fst snd app].
    rewrite decode_cont by (repeat case_match; lia). destruct b as [|z b]; [done|].
    injection He as _ He. symmetry in He. by apply app_nil in He as [_ ?].
  - injection He as <- He. replace (cp / 0x1000) with (cp / 0x40 / 0x40) in * by (rewrite N.Div0.div_div; done).
    replace (cp / 0x40000) with (cp / 0x40 / 0x40 / 0x40) in * by (rewrite !N.Div0.div_div; done).
    split64 cp. split64 q. split64 q0. rewrite start_byte_4 by lia. destruct b as [|y b]; [done|]. injection He as <- He. cbn [fst snd app].
    rewrite decode_cont by (repeat case_match; lia). destruct b as [|z b]; [done|]. injection He as <- He.
    rewrite decode_cont by lia. destruct b as [|z b]; [done|]. injection He as _ He. symmetry in He. by apply app_nil in He as [_ ?].
Qed.

(** The beginning of encoded text decodes to a beginning of the text, and one replacement character when it ends
    inside a code point. *)
Lemma decode_torn cps b c : Forall is_scalar cps -> utf8_encode cps = b ++ c -> exists p q, cps = p ++ q /\
  (b = utf8_encode p /\ utf8_decode_from DStart b = p \/ q <> [] /\ utf8_decode_from DStart b = p ++ [replacement]).
Proof.
  intros H. revert b. induction H as [|cp cps Hcp Hcps IH]; intros b Hb.
  { symmetry in Hb. apply app_nil in Hb as [-> ->]. exists [], []. by split; [|left]. }
  change (utf8_encode (cp :: cps)) with (utf8_encode1 cp ++ utf8_encode cps) in Hb.
  destruct (app_eq_inv _ _ _ _ Hb) as [(k & He & Hk)|(k & -> & Hk)].
  - destruct b as [|x b].
    { exists [], (cp :: cps). split; [done|]. by left. }
    destruct k as [|y k].
    + rewrite app_nil_r in He. exists [cp], cps. split; [done|]. left. rewrite <- He. split; [cbn; by rewrite app_nil_r|].
      rewrite <- (app_nil_r (utf8_encode1 cp)), utf8_decode_encode1 by done. done.
    + exists [], (cp :: cps). split; [done|]. right. split; [done|]. by apply (decode_torn1 cp _ (y :: k)).
  - destruct (IH k Hk) as (p & q & -> & Hc). exists (cp :: p), q. split; [done|]. rewrite utf8_decode_encode1 by done.
    destruct Hc as [[-> Hc]|[Hq Hc]]; [left|right]; (split; [done|by rewrite Hc]).
Qed.

Lemma utf16_some cp cps : utf16_encode (cp :: cps) <> [].
Proof. cbn. unfold utf16_encode1. by destruct (cp <? 0x10000). Qed.

(** A line of an object whose last bytes are missing is empty, has all of its text, or is no JSON text. *)
Lemma torn_line fs tail more : json_ok (JObj fs) -> line_bytes (JObj fs) = tail ++ more -> more <> [] ->
  tail = [] \/ buffer_toString tail = stringify (JObj fs) \/ (buffer_toString tail <> [] /\ JSON_parse (buffer_toString tail) = None).
Proof.
  intros Hok Hl Hm. destruct (line_text_stringify _ Hok) as [Hr Hp]. pose proof (line_text_wf _ (conj Hr Hp)) as Hwf.
  rewrite (line_bytes_app _ Hok) in Hl. destruct (exists_last Hm) as (more' & x & ->). rewrite (assoc_L app) in Hl.
  apply app_inj_tail in Hl as [Hl _]. unfold buffer_from in Hl.
  destruct (decode_torn _ _ _ (code_points_scalar _ Hwf) Hl) as (p & q & Hpq & Hd).
  assert (Ht : stringify (JObj fs) = utf16_encode p ++ utf16_encode q) by by rewrite <- utf16_encode_app, <- Hpq, paired_utf16.
  destruct Hd as [[-> Hd]|[Hq Hd]]; unfold buffer_toString; rewrite Hd, ?utf16_encode_app.
  - destruct q as [|cp q]; [right; left; by rewrite Ht, app_nil_r|]. destruct p as [|cp' p]; [by left|]. right. right. split; [apply utf16_some|].
    eapply JSON_parse_prefix; [exact Hok|exact Ht|]. apply utf16_some.
  - right. right. split; [intros H; apply app_nil in H as [_ H]; discriminate|]. destruct p as [|cp' p]; [by vm_compute|].
    rewrite stringify_obj in Ht. destruct (utf16_encode (cp' :: p)) as [|u r] eqn:Eu; [by apply utf16_some in Eu|]. injection Ht as <- _.
    apply JSON_parse_unclosed; done.
Qed.

(** ** Logs of objects *)

Definition objects (vs : list json) : Prop := Forall (fun v => json_ok v /\ is_obj v = true) vs.
Lemma objects_ok vs : objects vs -> Forall json_ok vs.
Proof. intros H. eapply Forall_impl; [exact H|]. intros v Hv. exact (proj1 Hv). Qed.
Lemma objects_whole w vs : objects vs -> objects (whole w vs).
Proof. intros H. revert w. induction H as [|v vs Hv _ IH]; intros w; cbn; [constructor|]. destruct (Nat.leb _ _); [constructor; [done|apply IH]|constructor]. Qed.
Lemma objects_app a b : objects a -> objects b -> objects (a ++ b).
Proof. intros. by apply Forall_app. Qed.
