(* ===== verification/Jsonl.v ===== *)
(** * JSON lines over a stream (modes/rpc/jsonl.ts)

    The reader cuts a stream into records at line feeds, whatever the pieces
    the stream arrives in, and bounds the length of a record. *)

(* Source aliases:
   JL = src/packages/coding-agent/src/modes/rpc/jsonl.ts *)

From S2P Require Import Prelude JsString JsNumber JsMap Messages Json.
Local Open Scope Z_scope.

(** JL 10-12 serializeJsonLine. *)
Definition serializeJsonLine (value : json) : jsstr := stringify value ++ [LF].

(** What the reader reports: a line, or the beginning of one that is too long. *)
Inductive report := Line (line : jsstr) | Overflow (prefix : jsstr).

(** A piece of the stream. *)
Inductive chunk := Text (s : jsstr) | Bytes (bs : list N).

Section reader.
(** JL 14-17 JsonlLineReaderOptions.maxLineLength. *)
Variable maxLineLength : option Z.

(** JL 31-40 attachJsonlLineReader. The variables of the reader; [acc] is what it reported so far. *)
Record reader := {
  decoder : dstate; pending : list jsstr; pendingLength : Z; discardingOverflow : bool; acc : list report }.

Definition CR : N := 13.

(** [s.endsWith("\r") ? s.slice(0, -1) : s]. *)
Fixpoint strip_cr (s : jsstr) : jsstr :=
  match s with
  | [] => []
  | [u] => if (u =? CR)%N then [] else [u]
  | u :: s' => u :: strip_cr s'
  end.

Definition add_report (r : report) (st : reader) : reader :=
  {| decoder := decoder st; pending := pending st; pendingLength := pendingLength st;
     discardingOverflow := discardingOverflow st; acc := acc st ++ [r] |}.

(** JL 42-44 attachJsonlLineReader.emitLine. *)
Definition emitLine (line : jsstr) : reader -> reader := add_report (Line (strip_cr line)).

Definition set_discarding (b : bool) (st : reader) : reader :=
  {| decoder := decoder st; pending := pending st; pendingLength := pendingLength st; discardingOverflow := b; acc := acc st |}.
Definition set_decoder (d : dstate) (st : reader) : reader :=
  {| decoder := d; pending := pending st; pendingLength := pendingLength st;
     discardingOverflow := discardingOverflow st; acc := acc st |}.

(** JL 46-49 attachJsonlLineReader.resetPending. *)
Definition resetPending (st : reader) : reader :=
  {| decoder := decoder st; pending := []; pendingLength := 0; discardingOverflow := discardingOverflow st; acc := acc st |}.

(** JL 64-65 attachJsonlLineReader.appendPending. *)
Definition push_pending (segment : jsstr) (st : reader) : reader :=
  {| decoder := decoder st; pending := pending st ++ [segment]; pendingLength := pendingLength st + Z.of_nat (length segment);
     discardingOverflow := discardingOverflow st; acc := acc st |}.

(** JL 51-66 attachJsonlLineReader.appendPending. *)
Definition appendPending (segment : jsstr) (st : reader) : reader :=
  if discardingOverflow st || (Z.of_nat (length segment) =? 0) then st
  else
    match maxLineLength with
    | Some m =>
        if m <? pendingLength st + Z.of_nat (length segment) then
          let remaining := Z.max 0 (m - pendingLength st) in
          let kept := if 0 <? remaining then pending st ++ [take (Z.to_nat remaining) segment] else pending st in
          set_discarding true (resetPending (add_report (Overflow (concat kept)) st))
        else push_pending segment st
    | None => push_pending segment st
    end.

(** JL 68-81 attachJsonlLineReader.emitFrom. *)
Definition emitFrom (segment : jsstr) (st : reader) : reader :=
  if discardingOverflow st then resetPending (set_discarding false st)
  else
    let st' := appendPending segment st in
    if discardingOverflow st' then set_discarding false st'
    else resetPending (emitLine (concat (pending st')) st').

(** [s.indexOf("\n")], with what follows it. *)
Fixpoint cut_line (s : jsstr) : option (jsstr * jsstr) :=
  match s with
  | [] => None
  | u :: s' =>
      if (u =? LF)%N then Some ([], s')
      else match cut_line s' with Some (a, b) => Some (u :: a, b) | None => None end
  end.

(** JL 86-95 attachJsonlLineReader.onData. The loop over the line feeds of a piece; each iteration drops one
    unit at least, so the length of the piece is fuel enough. *)
Fixpoint text_loop (fuel : nat) (text : jsstr) (st : reader) : reader :=
  match fuel with
  | O => st
  | S fuel =>
      match cut_line text with
      | Some (segment, rest) => text_loop fuel rest (emitFrom segment st)
      | None => if 0 <? Z.of_nat (length text) then appendPending text st else st
      end
  end.
Definition onText (text : jsstr) (st : reader) : reader := text_loop (S (length text)) text st.

(** JL 83-96 attachJsonlLineReader.onData. *)
Definition onData (c : chunk) (st : reader) : reader :=
  match c with
  | Text s => onText s st
  | Bytes bs => let '(cps, d) := decode_chunk (decoder st) bs in onText (utf16_encode cps) (set_decoder d st)
  end.

(** JL 98-108 attachJsonlLineReader.onEnd. *)
Definition onEnd (st : reader) : reader :=
  let tail := utf16_encode (decode_end (decoder st)) in
  let st1 := set_decoder DStart st in
  let st2 := if 0 <? Z.of_nat (length tail) then appendPending tail st1 else st1 in
  let st3 := if negb (discardingOverflow st2) && (0 <? Z.of_nat (length (pending st2))) then emitLine (concat (pending st2)) st2 else st2 in
  set_discarding false (resetPending st3).

(** JL 26-117 attachJsonlLineReader. What a whole stream makes the reader report. *)
Definition start_reader : reader :=
  {| decoder := DStart; pending := []; pendingLength := 0; discardingOverflow := false; acc := [] |}.
Definition read_stream (cs : list chunk) : list report := acc (onEnd (foldl (fun st c => onData c st) start_reader cs)).

(** ** The reference: the records of a text *)

(** The report of one record. *)
Definition report_of (line : jsstr) : report :=
  match maxLineLength with
  | Some m => if (m <? Z.of_nat (length line)) && negb (bool_decide (line = [])) then Overflow (take (Z.to_nat m) line) else Line (strip_cr line)
  | None => Line (strip_cr line)
  end.

(** The records of a text: its lines, and what follows the last line feed when it is not empty. *)
Definition records (text : jsstr) : list report :=
  (report_of <$> removelast (lines_of text)) ++
  match last (lines_of text) with Some ((_ :: _) as l) => [report_of l] | _ => [] end.

(** The text of a stream. *)
Fixpoint stream_text (d : dstate) (cs : list chunk) : jsstr :=
  match cs with
  | [] => utf16_encode (decode_end d)
  | Text s :: cs => s ++ stream_text d cs
  | Bytes bs :: cs => utf16_encode (decode_chunk d bs).1 ++ stream_text (decode_chunk d bs).2 cs
  end.

(** ** The reader's state *)

Lemma cut_line_None s : cut_line s = None -> LF ∉ s.
Proof.
  induction s as [|u s IH]; cbn; [set_solver|]. destruct (u =? LF)%N eqn:E; [done|]. to_prop.
  destruct (cut_line s) as [[]|]; [done|]. intros _. apply not_elem_of_cons. split; [congruence|by apply IH].
Qed.
Lemma cut_line_Some s a b : cut_line s = Some (a, b) -> s = a ++ LF :: b /\ LF ∉ a.
Proof.
  revert a b. induction s as [|u s IH]; intros a b; cbn; [done|]. destruct (u =? LF)%N eqn:E; to_prop.
  - intros [= <- <-]. subst. split; [done|set_solver].
  - destruct (cut_line s) as [[a' b']|]; [|done]. intros [= <- <-]. destruct (IH _ _ eq_refl) as [-> Ha].
    split; [done|]. apply not_elem_of_cons. split; [congruence|done].
Qed.

(** A line the reader is in the middle of: kept whole while it is short enough; else reported already. *)
Definition reading (st : reader) (ls : list jsstr) (cur : jsstr) : Prop :=
  pendingLength st = Z.of_nat (length (concat (pending st))) /\ Forall (fun s => s <> []) (pending st) /\
  if discardingOverflow st
  then pending st = [] /\ acc st = (report_of <$> ls) ++ [report_of cur] /\
       exists m, maxLineLength = Some m /\ m < Z.of_nat (length cur) /\ cur <> []
  else concat (pending st) = cur /\ acc st = report_of <$> ls /\
       forall m, maxLineLength = Some m -> cur = [] \/ Z.of_nat (length cur) <= m.

Lemma reading_decoder d st ls cur : reading st ls cur -> reading (set_decoder d st) ls cur.
Proof. done. Qed.

Lemma report_of_long m line : maxLineLength = Some m -> m < Z.of_nat (length line) -> line <> [] ->
  report_of line = Overflow (take (Z.to_nat m) line).
Proof. intros Hm Hl Hn. unfold report_of. rewrite Hm, bool_decide_false by done. by rewrite (proj2 (Z.ltb_lt _ _)). Qed.

Lemma report_of_short line : (forall m, maxLineLength = Some m -> line = [] \/ Z.of_nat (length line) <= m) ->
  report_of line = Line (strip_cr line).
Proof.
  intros H. unfold report_of. destruct maxLineLength as [m|]; [|done].
  destruct (H m eq_refl) as [-> |Hl]; [by rewrite bool_decide_true, andb_false_r|].
  by rewrite (proj2 (Z.ltb_ge _ _)).
Qed.

Lemma appendPending_reading segment st ls cur : reading st ls cur -> reading (appendPending segment st) ls (cur ++ segment).
Proof.
  intros (Hlen & Hne & H). unfold appendPending. destruct (discardingOverflow st) eqn:Ed; cbn [orb].
  { destruct H as (Hp & Ha & m & Hm & Hl & Hc). split; [done|]. split; [done|]. rewrite Ed. split; [done|].
    split; [|exists m; split_and!; [done|rewrite length_app; lia|by destruct cur]].
    rewrite Ha, (report_of_long m cur), (report_of_long m (cur ++ segment)); rewrite ?length_app; try done; [|lia|by destruct cur].
    by rewrite take_app_le by lia. }
  destruct H as (Hc & Ha & Hm). destruct (Z.of_nat (length segment) =? 0) eqn:Es; to_prop.
  { assert (segment = []) as -> by (apply nil_length_inv; lia). rewrite app_nil_r. split; [done|]. split; [done|]. by rewrite Ed. }
  assert (Hpush : (forall m, maxLineLength = Some m -> Z.of_nat (length (cur ++ segment)) <= m) -> reading (push_pending segment st) ls (cur ++ segment)).
  { intros Hs. split; [|split].
    - cbn. rewrite concat_app, length_app. cbn. rewrite app_nil_r, Hlen. lia.
    - cbn. apply Forall_app. split; [done|]. repeat constructor. by intros ->.
    - cbn. rewrite Ed, concat_app. cbn. rewrite app_nil_r, Hc. split_and!; [done|done|]. intros m Hm'. right. by apply Hs. }
  rewrite length_app in Hpush. rewrite Hc in Hlen. destruct maxLineLength as [m|] eqn:Em; [|by apply Hpush].
  destruct (m <? _) eqn:El; to_prop; [|apply Hpush; intros m' [= <-]; lia].
  split; [done|]. split; [constructor|]. cbn. split; [done|]. assert (Hn : cur ++ segment <> []) by (destruct cur, segment; done).
  split; [|exists m; rewrite length_app; split_and!; [done|lia|done]].
  rewrite Ha, (report_of_long m) by (rewrite ?length_app; done || lia). do 3 f_equal.
  destruct (0 <? _) eqn:Er; to_prop.
  - rewrite concat_app, Hc. cbn. rewrite app_nil_r, take_app_ge by lia. do 2 f_equal. lia.
  - rewrite Hc. rewrite take_app_le by lia. destruct (Hm m eq_refl) as [-> |]; [by rewrite take_nil|]. by rewrite take_ge by lia.
Qed.

Lemma emitFrom_reading segment st ls cur : reading st ls cur -> reading (emitFrom segment st) (ls ++ [cur ++ segment]) [].
Proof.
  intros H. pose proof (appendPending_reading segment st ls cur H) as H'. unfold emitFrom.
  assert (Hdone : forall st', pending st' = [] -> pendingLength st' = 0 -> discardingOverflow st' = false ->
    acc st' = (report_of <$> ls) ++ [report_of (cur ++ segment)] -> reading st' (ls ++ [cur ++ segment]) []).
  { intros st' Hp Hl Hd Ha. unfold reading. rewrite Hp, Hl, Hd, Ha, fmap_app. split_and!; try done. by left. }
  destruct (discardingOverflow st) eqn:Ed.
  - unfold appendPending in H'. rewrite Ed in H'. cbn [orb] in H'. destruct H' as (_ & _ & H'). rewrite Ed in H'.
    destruct H' as (Hp & Ha & _). by apply Hdone.
  - destruct H' as (Hl & _ & H'). destruct (discardingOverflow (appendPending segment st)) eqn:Ed'.
    + destruct H' as (Hp & Ha & _). apply Hdone; [exact Hp| |done|exact Ha]. cbn. by rewrite Hl, Hp.
    + destruct H' as (Hc & Ha & Hm). apply Hdone; [done..|exact Ed'|]. cbn. rewrite Ha, Hc. by rewrite report_of_short.
Qed.

(** The state after a text: its lines, the last of which may go on. *)
Definition after_text (st : reader) (text : jsstr) : Prop := exists ls cur, lines_of text = ls ++ [cur] /\ reading st ls cur.

Lemma lines_of_extend text segment ls cur : lines_of text = ls ++ [cur] -> LF ∉ segment -> lines_of (text ++ segment) = ls ++ [cur ++ segment].
Proof.
  intros Hl Hs. revert ls cur Hl. induction text as [|u text IH]; intros ls cur Hl.
  - unfold lines_of in *. cbn [split_on app] in *. destruct ls as [|? []]; try done. injection Hl as <-. by rewrite split_on_plain.
  - unfold lines_of in *. cbn [split_on app] in *. destruct (u =? LF)%N.
    + destruct ls as [|l ls]; injection Hl as <- Hl; [by destruct (split_on_nonempty LF text)|]. cbn. f_equal. by apply IH.
    + destruct (split_on LF text) as [|l0 ls0] eqn:E; [by destruct (split_on_nonempty LF text)|].
      destruct ls as [|l ls]; injection Hl as <- Hl.
      * subst ls0. by rewrite (IH [] l0 eq_refl).
      * subst ls0. by rewrite (IH (l0 :: ls) cur eq_refl).
Qed.

Lemma text_loop_after fuel text st before : after_text st before -> (length text < fuel)%nat -> after_text (text_loop fuel text st) (before ++ text).
Proof.
  revert text st before. induction fuel as [|fuel IH]; intros text st before (ls & cur & Hl & Hr) Hf; [lia|]. cbn [text_loop].
  destruct (cut_line text) as [[segment rest]|] eqn:Ec.
  - apply cut_line_Some in Ec as [-> Hs]. rewrite length_app in Hf. cbn in Hf.
    change (LF :: rest) with ([LF] ++ rest). rewrite !(assoc_L app). apply IH; [|lia].
    exists (ls ++ [cur ++ segment]), []. split; [|by apply emitFrom_reading].
    change [LF] with (LF :: []). rewrite lines_of_app, (lines_of_extend _ _ _ _ Hl Hs). done.
  - apply cut_line_None in Ec. assert (Hst : after_text (appendPending text st) (before ++ text)).
    { exists ls, (cur ++ text). split; [by apply lines_of_extend|by apply appendPending_reading]. }
    destruct (0 <? _) eqn:E; to_prop; [done|]. assert (text = []) as -> by (apply nil_length_inv; lia).
    rewrite app_nil_r. by exists ls, cur.
Qed.

Lemma onText_after text st before : after_text st before -> after_text (onText text st) (before ++ text).
Proof. intros H. apply text_loop_after; [done|lia]. Qed.

Lemma decoder_appendPending s st : decoder (appendPending s st) = decoder st.
Proof. unfold appendPending. repeat case_match; done. Qed.
Lemma decoder_emitFrom s st : decoder (emitFrom s st) = decoder st.
Proof. unfold emitFrom. repeat case_match; cbn; by rewrite ?decoder_appendPending. Qed.
Lemma decoder_onText text st : decoder (onText text st) = decoder st.
Proof.
  unfold onText. generalize (S (length text)). intros n. revert text st. induction n as [|n IH]; intros text st; [done|]. cbn [text_loop].
  destruct (cut_line text) as [[s r]|]; [by rewrite IH, decoder_emitFrom|]. case_match; [by rewrite decoder_appendPending|done].
Qed.

Lemma onEnd_after st text : after_text st text -> acc (onEnd st) = records (text ++ utf16_encode (decode_end (decoder st))).
Proof.
  intros H. set (tail := utf16_encode (decode_end (decoder st))).
  assert (Ht : LF ∉ tail).
  { unfold tail, decode_end. destruct (decoder st); cbn; [set_solver|]. by rewrite list_elem_of_singleton. }
  assert (H2 : after_text (if 0 <? Z.of_nat (length tail) then appendPending tail (set_decoder DStart st) else set_decoder DStart st) (text ++ tail)).
  { destruct H as (ls & cur & Hl & Hr). destruct (0 <? _) eqn:E; to_prop.
    - exists ls, (cur ++ tail). split; [by apply lines_of_extend|]. by apply appendPending_reading, reading_decoder.
    - assert (tail = []) as -> by (apply nil_length_inv; lia). rewrite app_nil_r. exists ls, cur. split; [exact Hl|by apply reading_decoder]. }
  unfold onEnd. fold tail. set (st2 := if 0 <? Z.of_nat (length tail) then _ else _) in *.
  destruct H2 as (ls & cur & Hl & Hp & Hne & Hr). unfold records. rewrite Hl, removelast_last, last_snoc. cbn [acc set_discarding resetPending].
  destruct (discardingOverflow st2); cbn [negb andb].
  - destruct Hr as (_ & -> & m & _ & _ & Hc). by destruct cur.
  - destruct Hr as (Hc & Ha & Hm). destruct (0 <? Z.of_nat (length (pending st2))) eqn:E; to_prop.
    + cbn. rewrite Ha, Hc. destruct cur; [|by rewrite report_of_short].
      destruct (pending st2) as [|p ps]; [cbn in E; lia|]. apply Forall_cons in Hne as [Hne _]. by destruct p.
    + destruct (pending st2); [|cbn in E; lia]. subst cur. by rewrite Ha, app_nil_r.
Qed.

Lemma read_stream_spec cs : read_stream cs = records (stream_text DStart cs).
Proof.
  unfold read_stream. enough (H : forall cs st text, after_text st text ->
    acc (onEnd (foldl (fun st c => onData c st) st cs)) = records (text ++ stream_text (decoder st) cs)).
  { apply (H cs start_reader []). exists [], []. split; [done|]. split; [done|]. split; [constructor|]. cbn. split_and!; try done. by left. }
  clear cs. induction cs as [|[s|bs] cs IH]; intros st text Ht; cbn [foldl stream_text onData].
  - by apply onEnd_after.
  - rewrite (IH _ (text ++ s)) by by apply onText_after. by rewrite decoder_onText, (assoc_L app).
  - destruct (decode_chunk (decoder st) bs) as [cps d]. cbn [fst snd].
    assert (Ht' : after_text (set_decoder d st) text) by (destruct Ht as (ls & cur & ? & ?); by exists ls, cur).
    rewrite (IH _ (text ++ utf16_encode cps)) by by apply onText_after. by rewrite decoder_onText, (assoc_L app).
Qed.
End reader.

(** ** Properties *)

Lemma stream_text_bytes d bss : stream_text d (Bytes <$> bss) = utf16_encode (utf8_decode_from d (concat bss)).
Proof.
  revert d. induction bss as [|bs bss IH]; intros d; [done|]. rewrite fmap_cons. cbn [stream_text concat].
  by rewrite IH, decode_chunk_app, utf16_encode_app.
Qed.

(** Reading does not depend on how the stream is cut: for any cut into pieces of bytes, even inside a
    character, the reader reports the lines of the decoded text in their order, the last one too when it is not
    empty, and of a line over the limit only the units up to the limit, once. *)
Theorem jsonl_records (maxLineLength : option Z) (bss : list (list N)) :
  read_stream maxLineLength (Bytes <$> bss) = records maxLineLength (buffer_toString (concat bss)).
Proof. by rewrite read_stream_spec, stream_text_bytes. Qed.

Lemma strip_cr_line s : line_text s -> strip_cr s = s.
Proof.
  intros [H _]. induction s as [|u s IH]; [done|]. apply Forall_cons in H as [Hu H]. destruct s as [|v s].
  - cbn. unfold CR. by rewrite (proj2 (N.eqb_neq _ _)) by lia.
  - change (strip_cr (u :: v :: s)) with (u :: strip_cr (v :: s)). by rewrite IH.
Qed.

Lemma serialized_wf vs : Forall json_ok vs -> js_wf (concat (serializeJsonLine <$> vs)) /\ paired (concat (serializeJsonLine <$> vs)).
Proof.
  induction 1 as [|v vs Hv _ [IH1 IH2]]; [by repeat constructor|]. pose proof (line_text_stringify v Hv) as Hl. rewrite fmap_cons. cbn [concat]. split.
  - apply Forall_app. split; [|done]. apply Forall_app. split; [by apply line_text_wf|by repeat constructor].
  - apply paired_app; [by apply paired_line|done].
Qed.

Lemma serialized_lines vs : Forall json_ok vs -> lines_of (concat (serializeJsonLine <$> vs)) = (stringify <$> vs) ++ [[]].
Proof.
  induction 1 as [|v vs Hv _ IH]; [done|]. rewrite !fmap_cons. cbn [concat]. unfold serializeJsonLine at 1. rewrite <- (assoc_L app).
  change ([LF] ++ ?x) with (LF :: x). unfold lines_of in *. rewrite split_on_app_sep by by apply line_text_LF, line_text_stringify.
  by rewrite IH.
Qed.

(** What is written line by line is read back: for any cut of the bytes of serialized values, the reader
    reports one line per value, in order, as long as none is over the limit, and each parses to its value. *)
Theorem jsonl_round_trip (maxLineLength : option Z) (vs : list json) (bss : list (list N)) (Hok : Forall json_ok vs)
    (Hlimit : forall m, maxLineLength = Some m -> Forall (fun v => Z.of_nat (length (stringify v)) <= m) vs)
    (Hbytes : concat bss = buffer_from (concat (serializeJsonLine <$> vs))) :
  read_stream maxLineLength (Bytes <$> bss) = (fun v => Line (stringify v)) <$> vs /\
  Forall (fun v => JSON_parse (stringify v) = Some v) vs.
Proof.
  split; [|eapply Forall_impl; [exact Hok|apply JSON_parse_stringify]].
  rewrite read_stream_spec, stream_text_bytes, Hbytes. destruct (serialized_wf vs Hok) as [Hw Hp].
  fold (buffer_toString (buffer_from (concat (serializeJsonLine <$> vs)))). rewrite utf8_round_trip by done.
  unfold records. rewrite serialized_lines by done. rewrite removelast_last, last_snoc, app_nil_r, <- list_fmap_compose.
  apply list_fmap_ext. intros i v Hi. cbn. assert (Hv : v ∈ vs) by by eapply list_elem_of_lookup_2.
  rewrite Forall_forall in Hok. rewrite report_of_short.
  - by rewrite strip_cr_line by by apply line_text_stringify, Hok.
  - intros m Hm. right. specialize (Hlimit m Hm). rewrite Forall_forall in Hlimit. by apply Hlimit.
Qed.

Definition ex_values : list json := [JObj [(js "a", JNum (js "1"))]; JStr [10; 0xD83D; 0xDE00]%N].
Definition ex_bytes : list (list N) :=
  let b := buffer_from (concat (serializeJsonLine <$> ex_values)) in [take 3 b; take 10 (drop 3 b); drop 13 b].

Lemma jsonl_round_trip_witness :
  concat ex_bytes = buffer_from (concat (serializeJsonLine <$> ex_values)) /\
  read_stream (Some 20) (Bytes <$> ex_bytes) = (fun v => Line (stringify v)) <$> ex_values.
Proof.
  assert (Hb : concat ex_bytes = buffer_from (concat (serializeJsonLine <$> ex_values))) by (vm_compute; reflexivity).
  split; [exact Hb|].
  apply (jsonl_round_trip (Some 20) ex_values ex_bytes).
  - constructor.
    + apply ok_obj; [repeat constructor; set_solver|constructor; [|constructor]; by apply js_wf_check|].
      constructor; [|constructor]. apply ok_num; [reflexivity|]. by apply printable_check.
    + constructor; [|constructor]. apply ok_str. by apply js_wf_check.
  - intros m [= <-]. repeat constructor; vm_compute; discriminate.
  - exact Hb.
Defined.

(** A line over the limit is reported once, by its beginning; the next line is read. *)
Example jsonl_overflow :
  read_stream (Some 2) [Text (js "abc"); Text (js "def"); Text [LF]; Text (js "g")] = [Overflow (js "ab"); Line (js "g")].
Proof. reflexivity. Qed.
