(* ===== verification/PrivateFrame.v ===== *)
(** * Frames between the daemon and its workers (modes/session-worker/private-framing.ts)

    A frame is two lengths, a JSON header and a payload. The decoder keeps the
    pieces the socket delivered and joins the bytes of a frame once; it is
    proved to decode what the joined bytes contain. *)

(* Source aliases:
   PF = src/packages/coding-agent/src/modes/session-worker/private-framing.ts *)

From S2P Require Import Prelude JsString JsNumber JsMap Messages Json.
Local Open Scope Z_scope.

(** PF 3-3 FRAME_PREFIX_BYTES. *)
Definition FRAME_PREFIX_BYTES : Z := 8.
(** PF 6-6 PENDING_COMPACTION_MIN_HEAD. *)
Definition PENDING_COMPACTION_MIN_HEAD : Z := 32.

Abbreviation bytes := (list N).

(** PF 8-11 PrivateFrameLimits. *)
Record PrivateFrameLimits := { maxHeaderBytes : Z; maxPayloadBytes : Z }.
(** PF 13-16 DEFAULT_PRIVATE_FRAME_LIMITS. *)
Definition DEFAULT_PRIVATE_FRAME_LIMITS : PrivateFrameLimits :=
  {| maxHeaderBytes := 1024 * 1024; maxPayloadBytes := 1024 * 1024 * 1024 |}.

(** PF 18-21 PrivateFrame. *)
Record PrivateFrame := { header : json; payload : bytes }.

(** What coding and decoding may throw. *)
Inductive frame_error :=
| InvalidLength (what : jsstr) (value : Z)
| EmptyHeader
| OutOfRange (value : Z)
| InvalidJson
| InvalidHeader
| Incomplete (count : Z).

(** PF 25-29 assertFrameLength. [None] when the length is good. *)
Definition assertFrameLength (name : jsstr) (value maximum : Z) : option frame_error :=
  if (2 ^ 53 - 1 <? value) || (value <? 0) || (maximum <? value) then Some (InvalidLength name value) else None.

(** PF 31-33 isObjectHeader. *)
Definition isObjectHeader (v : json) : bool := match v with JObj _ => true | _ => false end.

(** [writeUInt32BE] and [readUInt32BE]. *)
Definition uint32_bytes (n : Z) : bytes :=
  Z.to_N <$> [n / 0x1000000; n / 0x10000 mod 0x100; n / 0x100 mod 0x100; n mod 0x100].
Definition readUInt32BE (buf : bytes) (offset : nat) : Z :=
  match drop offset buf with
  | a :: b :: c :: d :: _ => ((Z.of_N a * 0x100 + Z.of_N b) * 0x100 + Z.of_N c) * 0x100 + Z.of_N d
  | _ => 0
  end.

(** PF 35-54 encodePrivateFrame. *)
Definition encodePrivateFrame (h : json) (p : bytes) (limits : PrivateFrameLimits) : bytes + frame_error :=
  let headerBuffer := buffer_from (stringify h) in
  let hl := Z.of_nat (length headerBuffer) in
  let pl := Z.of_nat (length p) in
  match assertFrameLength (js "header length") hl (maxHeaderBytes limits) with
  | Some e => inr e
  | None =>
      match assertFrameLength (js "payload length") pl (maxPayloadBytes limits) with
      | Some e => inr e
      | None =>
          if hl =? 0 then inr EmptyHeader
          else if 2 ^ 32 <=? hl then inr (OutOfRange hl)
          else if 2 ^ 32 <=? pl then inr (OutOfRange pl)
          else inl (uint32_bytes hl ++ uint32_bytes pl ++ headerBuffer ++ p)
      end
  end.

(** ** The decoder *)

Section decoder.
Variable validateHeader : json -> bool.
Variable limits : PrivateFrameLimits.

(** PF 56-80 PrivateFrameDecoder. *)
Record PrivateFrameDecoder := { pending : list bytes; unreadBytes : Z; head : nat; offset : nat }.
Definition new_decoder : PrivateFrameDecoder := {| pending := []; unreadBytes := 0; head := 0; offset := 0 |}.

(** PF 142-152 PrivateFrameDecoder.slice. The loop over the pieces from [head]; [skip] is the offset in the
    first one. *)
Fixpoint slice_loop (chunks : list bytes) (skip : nat) (position start endExclusive : nat) : list bytes :=
  match chunks with
  | [] => []
  | chunk :: rest =>
      if Nat.ltb position endExclusive then
        let usable := drop skip chunk in
        let chunkEnd := (position + length usable)%nat in
        let parts := slice_loop rest 0 chunkEnd start endExclusive in
        if Nat.ltb start chunkEnd
        then (let a := (Nat.max start position - position)%nat in
              let b := (Nat.min endExclusive chunkEnd - position)%nat in take (b - a) (drop a usable)) :: parts
        else parts
      else []
  end.

(** [Buffer.concat(parts, total)]. *)
Definition buffer_concat (parts : list bytes) (total : nat) : bytes :=
  let all := take total (concat parts) in all ++ replicate (total - length all) 0%N.

(** PF 138-157 PrivateFrameDecoder.slice. *)
Definition slice (d : PrivateFrameDecoder) (start endExclusive : nat) : bytes :=
  match slice_loop (drop (head d) (pending d)) (offset d) 0 start endExclusive with
  | [part] => part
  | parts => buffer_concat parts (endExclusive - start)
  end.

(** PF 162-165 PrivateFrameDecoder.consume. The loop that skips spent pieces. *)
Fixpoint skip_spent (chunks : list bytes) (head offset : nat) : nat * nat :=
  match chunks with
  | [] => (head, offset)
  | chunk :: rest =>
      if Nat.leb (length chunk) offset then skip_spent rest (S head) (offset - length chunk) else (head, offset)
  end.

(** PF 159-182 PrivateFrameDecoder.consume. *)
Definition consume (count : nat) (d : PrivateFrameDecoder) : PrivateFrameDecoder :=
  let unread := unreadBytes d - Z.of_nat count in
  let '(h, o) := skip_spent (drop (head d) (pending d)) (head d) (offset d + count) in
  if Nat.eqb h (length (pending d)) then {| pending := []; unreadBytes := unread; head := 0; offset := 0 |}
  else if (PENDING_COMPACTION_MIN_HEAD <=? Z.of_nat h) && (Z.of_nat (length (pending d)) <=? Z.of_nat h * 2)
  then {| pending := drop h (pending d); unreadBytes := unread; head := 0; offset := o |}
  else {| pending := pending d; unreadBytes := unread; head := h; offset := o |}.

(** PF 93-126 PrivateFrameDecoder.push. One iteration of the loop: it stops, throws, or finds a frame. *)
Inductive step_result := Stop | Fail (e : frame_error) | Found (f : PrivateFrame) (d : PrivateFrameDecoder).

Definition push_step (d : PrivateFrameDecoder) : step_result :=
  if unreadBytes d <? FRAME_PREFIX_BYTES then Stop
  else
    let prefix := slice d 0 8 in
    let headerLength := readUInt32BE prefix 0 in
    let payloadLength := readUInt32BE prefix 4 in
    match assertFrameLength (js "header length") headerLength (maxHeaderBytes limits) with
    | Some e => Fail e
    | None =>
        match assertFrameLength (js "payload length") payloadLength (maxPayloadBytes limits) with
        | Some e => Fail e
        | None =>
            if headerLength =? 0 then Fail EmptyHeader
            else
              let frameLength := FRAME_PREFIX_BYTES + headerLength + payloadLength in
              if unreadBytes d <? frameLength then Stop
              else
                let payloadStart := (8 + Z.to_nat headerLength)%nat in
                match JSON_parse (buffer_toString (slice d 8 payloadStart)) with
                | None => Fail InvalidJson
                | Some decoded =>
                    if negb (isObjectHeader decoded) || negb (validateHeader decoded) then Fail InvalidHeader
                    else Found {| header := decoded; payload := slice d payloadStart (Z.to_nat frameLength) |}
                               (consume (Z.to_nat frameLength) d)
                end
        end
    end.

(** PF 92-129 PrivateFrameDecoder.push. The loop; a frame takes nine bytes at least, so the number of unread
    bytes is fuel enough. When it throws, the frames found so far are not returned. *)
Fixpoint push_loop (fuel : nat) (frames : list PrivateFrame) (d : PrivateFrameDecoder) : (list PrivateFrame + frame_error) * PrivateFrameDecoder :=
  match fuel with
  | O => (inl frames, d)
  | S fuel =>
      match push_step d with
      | Stop => (inl frames, d)
      | Fail e => (inr e, d)
      | Found f d' => push_loop fuel (frames ++ [f]) d'
      end
  end.

(** PF 87-90 PrivateFrameDecoder.push. *)
Definition receive (chunk : bytes) (d : PrivateFrameDecoder) : PrivateFrameDecoder :=
  if 0 <? Z.of_nat (length chunk)
  then {| pending := pending d ++ [chunk]; unreadBytes := unreadBytes d + Z.of_nat (length chunk); head := head d; offset := offset d |}
  else d.

(** PF 86-130 PrivateFrameDecoder.push. *)
Definition push (chunk : bytes) (d : PrivateFrameDecoder) : (list PrivateFrame + frame_error) * PrivateFrameDecoder :=
  let d' := receive chunk d in push_loop (S (Z.to_nat (unreadBytes d'))) [] d'.

(** PF 132-136 PrivateFrameDecoder.finish. *)
Definition finish (d : PrivateFrameDecoder) : option frame_error :=
  if unreadBytes d =? 0 then None else Some (Incomplete (unreadBytes d)).

(** ** The channel *)

(** PF 187-200 PrivateFramedChannel. What its listeners received, and whether its stream was destroyed. *)
Record channel := { decoder : PrivateFrameDecoder; received : list PrivateFrame; destroyed : option frame_error }.

(** PF 233-243 PrivateFramedChannel.handleData. *)
Definition handleData (chunk : bytes) (c : channel) : channel :=
  match push chunk (decoder c) with
  | (inl frames, d) => {| decoder := d; received := received c ++ frames; destroyed := destroyed c |}
  | (inr e, d) => {| decoder := d; received := received c; destroyed := Some e |}
  end.

(** PF 245-251 PrivateFramedChannel.handleEnd. *)
Definition handleEnd (c : channel) : channel :=
  match finish (decoder c) with
  | None => c
  | Some e => {| decoder := decoder c; received := received c; destroyed := Some e |}
  end.

Definition open_channel : channel := {| decoder := new_decoder; received := []; destroyed := None |}.
(** A stream delivers its pieces, then ends; a destroyed one does neither. *)
Definition unless_destroyed (f : channel -> channel) (c : channel) : channel := match destroyed c with Some _ => c | None => f c end.
Definition run_channel (chunks : list bytes) : channel :=
  unless_destroyed handleEnd (foldl (fun c chunk => unless_destroyed (handleData chunk) c) open_channel chunks).

(** ** The reference: a buffer *)

(** What the decoder holds unread, joined. *)
Definition unread (d : PrivateFrameDecoder) : bytes := drop (offset d) (concat (drop (head d) (pending d))).

(** The first frame of a buffer, and what follows it. *)
Inductive first_frame := NeedsMore | Bad (e : frame_error) | Frame (f : PrivateFrame) (rest : bytes).
Definition read_frame (u : bytes) : first_frame :=
  let n := Z.of_nat (length u) in
  if n <? 8 then NeedsMore
  else
    let hl := readUInt32BE u 0 in
    let pl := readUInt32BE u 4 in
    match assertFrameLength (js "header length") hl (maxHeaderBytes limits) with
    | Some e => Bad e
    | None =>
        match assertFrameLength (js "payload length") pl (maxPayloadBytes limits) with
        | Some e => Bad e
        | None =>
            if hl =? 0 then Bad EmptyHeader
            else if n <? 8 + hl + pl then NeedsMore
            else
              let body := drop 8 u in
              match JSON_parse (buffer_toString (take (Z.to_nat hl) body)) with
              | None => Bad InvalidJson
              | Some h =>
                  if negb (isObjectHeader h) || negb (validateHeader h) then Bad InvalidHeader
                  else Frame {| header := h; payload := take (Z.to_nat pl) (drop (Z.to_nat hl) body) |}
                             (drop (Z.to_nat hl + Z.to_nat pl) body)
              end
        end
    end.

(** All the frames of a buffer, the error that ends them if there is one, and what is left. *)
Fixpoint read_frames (fuel : nat) (u : bytes) : list PrivateFrame * option frame_error * bytes :=
  match fuel with
  | O => ([], None, u)
  | S fuel =>
      match read_frame u with
      | NeedsMore => ([], None, u)
      | Bad e => ([], Some e, u)
      | Frame f r => let '(fs, e, r') := read_frames fuel r in (f :: fs, e, r')
      end
  end.
Definition frames_of (u : bytes) : list PrivateFrame * option frame_error * bytes := read_frames (S (length u)) u.

(** ** The pieces are the buffer *)

(** The decoder counts what it holds, and its first piece has unread bytes. *)
Record wf (d : PrivateFrameDecoder) : Prop := {
  wf_count : unreadBytes d = Z.of_nat (length (unread d));
  wf_pieces : Forall (fun c => c <> []) (pending d);
  wf_first : match drop (head d) (pending d) with
             | [] => pending d = [] /\ head d = O /\ offset d = O
             | c :: _ => (offset d < length c)%nat
             end;
  wf_spent : (Z.of_nat (head d) < PENDING_COMPACTION_MIN_HEAD) \/ Z.of_nat (head d) * 2 < Z.of_nat (length (pending d)) }.

Lemma wf_new : wf new_decoder.
Proof. split; cbn; try done. by left. Qed.

Lemma drop_concat_first (c : bytes) cs n : (n <= length c)%nat -> drop n (concat (c :: cs)) = drop n c ++ concat cs.
Proof. intros H. cbn. by rewrite drop_app_le. Qed.

Lemma slice_loop_spec chunks skip pos start e : (match chunks with c :: _ => (skip <= length c)%nat | [] => True end) -> (start <= e)%nat ->
  concat (slice_loop chunks skip pos start e) = take ((e - pos) - (start - pos)) (drop (start - pos) (drop skip (concat chunks))).
Proof.
  revert skip pos. induction chunks as [|c cs IH]; intros skip pos Hs He; [cbn; by rewrite !drop_nil, take_nil|].
  rewrite drop_concat_first by done. cbn [slice_loop]. destruct (Nat.ltb pos e) eqn:E; to_prop.
  2:{ cbn. replace (e - pos)%nat with O by lia. done. }
  set (u := drop skip c). specialize (IH 0%nat (pos + length u)%nat). rewrite drop_0 in IH.
  assert (IH' := IH ltac:(destruct cs; [done|lia]) He). clear IH.
  destruct (Nat.ltb start (pos + length u)) eqn:E2; to_prop.
  - cbn [concat]. rewrite IH'. rewrite (drop_app_le u) by lia.
    replace (Nat.max start pos - pos)%nat with (start - pos)%nat by lia.
    destruct (decide (e <= pos + length u)%nat).
    + replace (Nat.min e (pos + length u) - pos)%nat with (e - pos)%nat by lia.
      replace (e - (pos + length u))%nat with O by lia. cbn [take Nat.sub]. rewrite app_nil_r. by rewrite take_app_le by (rewrite length_drop; lia).
    + replace (Nat.min e (pos + length u) - pos)%nat with (length u) by lia.
      rewrite take_ge by (rewrite length_drop; lia). rewrite take_app_ge by (rewrite length_drop; lia). rewrite length_drop. f_equal.
      replace (start - (pos + length u))%nat with O by lia. rewrite drop_0. f_equal. lia.
  - rewrite IH'. rewrite (drop_app_ge u) by lia. f_equal; [lia|]. f_equal. lia.
Qed.

Lemma wf_first_le d : wf d -> match drop (head d) (pending d) with c :: _ => (offset d <= length c)%nat | [] => True end.
Proof. intros [_ _ H _]. destruct (drop _ _); [done|lia]. Qed.

Lemma slice_spec d start e : wf d -> (start <= e <= length (unread d))%nat -> slice d start e = take (e - start) (drop start (unread d)).
Proof.
  intros Hd [H1 H2]. pose proof (slice_loop_spec (drop (head d) (pending d)) (offset d) 0 start e (wf_first_le d Hd) H1) as H.
  rewrite !Nat.sub_0_r in H. fold (unread d) in H. unfold slice, buffer_concat.
  assert (Hc : forall parts, concat parts = take (e - start) (drop start (unread d)) ->
    take (e - start) (concat parts) ++ replicate (e - start - length (take (e - start) (concat parts))) 0%N = take (e - start) (drop start (unread d))).
  { intros parts ->. rewrite take_take, Nat.min_id, length_take, length_drop.
    replace (e - start - Nat.min (e - start) (length (unread d) - start))%nat with O by lia. apply app_nil_r. }
  destruct (slice_loop _ _ _ _ _) as [|p [|p' ps]]; [by apply Hc| |by apply Hc]. cbn in H. by rewrite app_nil_r in H.
Qed.

Lemma skip_spent_spec chunks h o : let '(h', o') := skip_spent chunks h o in
  (h <= h' <= h + length chunks)%nat /\ drop o (concat chunks) = drop o' (concat (drop (h' - h) chunks)) /\
  match drop (h' - h) chunks with [] => True | c :: _ => (o' < length c)%nat end.
Proof.
  revert h o. induction chunks as [|c cs IH]; intros h o; cbn [skip_spent].
  { rewrite Nat.sub_diag. cbn. split; [lia|done]. }
  destruct (Nat.leb (length c) o) eqn:E; to_prop.
  - specialize (IH (S h) (o - length c)%nat). destruct (skip_spent cs (S h) (o - length c)) as [h' o'].
    destruct IH as (H1 & H2 & H3). replace (h' - h)%nat with (S (h' - S h)) by lia. cbn [drop length concat].
    split; [lia|]. split; [by rewrite drop_app_ge by lia|done].
  - rewrite Nat.sub_diag. cbn. split; [lia|]. done.
Qed.

Lemma consume_spec d n : wf d -> (n <= length (unread d))%nat -> wf (consume n d) /\ unread (consume n d) = drop n (unread d).
Proof.
  intros Hd Hn. unfold consume. pose proof (skip_spent_spec (drop (head d) (pending d)) (head d) (offset d + n)) as H.
  destruct (skip_spent _ _ _) as [h o]. destruct H as (H1 & H2 & H3). rewrite drop_drop in H2, H3. rewrite length_drop in H1.
  replace (head d + (h - head d))%nat with h in * by lia.
  assert (Hu : drop n (unread d) = drop o (concat (drop h (pending d)))).
  { unfold unread. by rewrite drop_drop, <- H2. }
  assert (Hc : unreadBytes d - Z.of_nat n = Z.of_nat (length (drop n (unread d)))) by (rewrite (wf_count d Hd), length_drop; lia).
  destruct (Nat.eqb h (length (pending d))) eqn:E; to_prop.
  - subst h. rewrite (drop_ge (pending d)) in Hu by done. cbn [concat] in Hu. rewrite drop_nil in Hu. rewrite Hu in *.
    split; [split; [exact Hc|constructor|done|by left]|done].
  - assert (Hlt : (head d <= h < length (pending d))%nat).
    { split; [lia|]. destruct (decide (length (pending d) <= head d)%nat) as [Hge|]; [|lia].
      pose proof (wf_first d Hd) as Hf. rewrite drop_ge in Hf by done. destruct Hf as (Hp & Hh & _). rewrite Hp, Hh in *. cbn in *. lia. }
    assert (Hfirst : exists c cs, drop h (pending d) = c :: cs /\ (o < length c)%nat).
    { destruct (drop h (pending d)) as [|c cs] eqn:Ed; [apply (f_equal length) in Ed; rewrite length_drop in Ed; cbn in Ed; lia|by exists c, cs]. }
    destruct Hfirst as (c & cs & Ed & Ho).
    destruct ((_ <=? _) && (_ <=? _)) eqn:Ec.
    + split; [split|].
      * unfold unread. cbn. rewrite drop_0. by rewrite <- Hu.
      * cbn. apply Forall_drop, Hd.
      * cbn. by rewrite drop_0, Ed.
      * by left.
      * unfold unread. cbn. by rewrite drop_0.
    + split; [split|].
      * unfold unread. cbn. by rewrite <- Hu.
      * apply Hd.
      * cbn. by rewrite Ed.
      * cbn. apply andb_false_iff in Ec as [Ec|Ec]; to_prop; lia.
      * done.
Qed.

(** The unread bytes of the lengths are those of the buffer. *)
Lemma read_prefix_spec (u : bytes) i : (i + 4 <= 8)%nat -> readUInt32BE (take 8 u) i = readUInt32BE u i.
Proof.
  intros Hi. unfold readUInt32BE. replace (drop i (take 8 u)) with (take (8 - i) (drop i u)) by (symmetry; apply skipn_firstn_comm).
  destruct (drop i u) as [|a [|b [|c [|x r]]]]; rewrite ?take_nil; try done; destruct (8 - i)%nat as [|[|[|[|k]]]] eqn:E; try lia; done.
Qed.

Lemma readUInt32BE_nonneg u i : 0 <= readUInt32BE u i.
Proof. unfold readUInt32BE. repeat case_match; lia. Qed.

Lemma assertFrameLength_ok name v m : assertFrameLength name v m = None -> 0 <= v <= m.
Proof. unfold assertFrameLength. destruct (_ || _) eqn:E; [done|]. to_prop. lia. Qed.

(** One iteration of the loop is one frame of the buffer. *)
Lemma push_step_spec d : wf d ->
  match read_frame (unread d) with
  | NeedsMore => push_step d = Stop
  | Bad e => push_step d = Fail e
  | Frame f r => exists d', push_step d = Found f d' /\ wf d' /\ unread d' = r
  end.
Proof.
  intros Hd. unfold read_frame, push_step. rewrite (wf_count d Hd). unfold FRAME_PREFIX_BYTES.
  destruct (Z.of_nat (length (unread d)) <? 8) eqn:E8; to_prop; [done|].
  rewrite (slice_spec d 0 8) by (done || lia). rewrite Nat.sub_0_r, drop_0, !read_prefix_spec by lia.
  set (hl := readUInt32BE (unread d) 0). set (pl := readUInt32BE (unread d) 4).
  pose proof (readUInt32BE_nonneg (unread d) 0) as Hhl. fold hl in Hhl. pose proof (readUInt32BE_nonneg (unread d) 4) as Hpl. fold pl in Hpl.
  destruct (assertFrameLength _ hl _); [done|]. destruct (assertFrameLength _ pl _); [done|].
  destruct (hl =? 0); [done|]. destruct (Z.of_nat (length (unread d)) <? 8 + hl + pl) eqn:El; to_prop; [done|].
  rewrite (slice_spec d 8) by (done || lia). replace (8 + Z.to_nat hl - 8)%nat with (Z.to_nat hl) by lia.
  destruct (JSON_parse _) as [h|]; [|done]. destruct (_ || _); [done|].
  destruct (consume_spec d (Z.to_nat (8 + hl + pl)) Hd ltac:(lia)) as [Hw Hu]. eexists. split; [|split; [exact Hw|]].
  - rewrite (slice_spec d) by (done || lia). rewrite drop_drop. do 3 f_equal. lia.
  - rewrite Hu, drop_drop. f_equal. lia.
Qed.

Lemma read_frame_shrinks u f r : read_frame u = Frame f r -> (length r < length u)%nat.
Proof.
  unfold read_frame. destruct (_ <? 8) eqn:E; [done|]. to_prop. repeat (case_match; try done). intros [= _ <-]. rewrite !length_drop. lia.
Qed.

Lemma read_frames_fuel n m u : (length u < n)%nat -> (length u < m)%nat -> read_frames n u = read_frames m u.
Proof.
  revert m u. induction n as [|n IH]; intros [|m] u Hn Hm; try lia. cbn [read_frames]. destruct (read_frame u) as [|e|f r] eqn:E; [done|done|].
  apply read_frame_shrinks in E. by rewrite (IH m r) by lia.
Qed.

Lemma frames_of_step u : frames_of u = match read_frame u with
  | NeedsMore => ([], None, u) | Bad e => ([], Some e, u)
  | Frame f r => let '(fs, e, r') := frames_of r in (f :: fs, e, r') end.
Proof.
  unfold frames_of. cbn [read_frames]. destruct (read_frame u) as [|e|f r] eqn:E; [done|done|].
  apply read_frame_shrinks in E. by rewrite (read_frames_fuel (length u) (S (length r))) by lia.
Qed.

Lemma push_loop_spec n d acc : wf d -> (length (unread d) < n)%nat ->
  match frames_of (unread d) with
  | (fs, None, r) => exists d', push_loop n acc d = (inl (acc ++ fs), d') /\ wf d' /\ unread d' = r
  | (fs, Some e, r) => exists d', push_loop n acc d = (inr e, d') /\ wf d' /\ unread d' = r
  end.
Proof.
  revert d acc. induction n as [|n IH]; intros d acc Hd Hn; [lia|]. pose proof (push_step_spec d Hd) as Hs. rewrite frames_of_step. cbn [push_loop].
  destruct (read_frame (unread d)) as [|e|f r] eqn:E.
  - rewrite Hs. exists d. by rewrite app_nil_r.
  - rewrite Hs. by exists d.
  - destruct Hs as (d' & -> & Hd' & <-). apply read_frame_shrinks in E. specialize (IH d' (acc ++ [f]) Hd' ltac:(lia)).
    destruct (frames_of (unread d')) as [[fs [e|]] r]; destruct IH as (d2 & H1 & H2 & H3); exists d2; split_and!; try done.
    rewrite H1. by rewrite <- (assoc_L app).
Qed.

Lemma receive_spec chunk d : wf d -> wf (receive chunk d) /\ unread (receive chunk d) = unread d ++ chunk.
Proof.
  intros Hd. unfold receive. destruct (0 <? _) eqn:E; to_prop.
  2:{ assert (chunk = []) as -> by (apply nil_length_inv; lia). by rewrite app_nil_r. }
  assert (Hu : drop (offset d) (concat (drop (head d) (pending d ++ [chunk]))) = unread d ++ chunk).
  { unfold unread. pose proof (wf_first d Hd) as Hf. destruct (drop (head d) (pending d)) as [|c cs] eqn:Ed.
    - destruct Hf as (-> & -> & ->). cbn. by rewrite app_nil_r.
    - rewrite drop_app_le by (apply (f_equal length) in Ed; rewrite length_drop in Ed; cbn in Ed; lia).
      rewrite Ed, concat_app. cbn [concat]. rewrite app_nil_r. rewrite drop_app_le; [done|]. rewrite length_app. lia. }
  split; [|exact Hu]. split; cbn [pending unreadBytes head offset].
  - unfold unread at 1. cbn [pending head offset]. rewrite Hu, length_app, (wf_count d Hd). lia.
  - apply Forall_app. split; [apply Hd|]. repeat constructor. intros ->. cbn in E. lia.
  - pose proof (wf_first d Hd) as Hf. destruct (drop (head d) (pending d)) as [|c cs] eqn:Ed.
    + destruct Hf as (-> & -> & ->). cbn. lia.
    + rewrite drop_app_le by (apply (f_equal length) in Ed; rewrite length_drop in Ed; cbn in Ed; lia). by rewrite Ed.
  - rewrite length_app. destruct (wf_spent d Hd); [by left|right; lia].
Qed.

Lemma push_spec chunk d : wf d ->
  let '(fs, e, r) := frames_of (unread d ++ chunk) in
  exists d', push chunk d = (match e with None => inl fs | Some e => inr e end, d') /\ wf d' /\ unread d' = r.
Proof.
  intros Hd. destruct (receive_spec chunk d Hd) as [Hw Hu]. unfold push.
  pose proof (push_loop_spec (S (Z.to_nat (unreadBytes (receive chunk d)))) (receive chunk d) [] Hw) as H.
  rewrite (wf_count _ Hw), Nat2Z.id in H. specialize (H ltac:(lia)). rewrite Hu in H.
  rewrite (wf_count _ Hw), Nat2Z.id, Hu. destruct (frames_of (unread d ++ chunk)) as [[fs [e|]] r]; exact H.
Qed.

(** ** More bytes after a frame *)

Lemma readUInt32BE_app u v i : (i + 4 <= length u)%nat -> readUInt32BE (u ++ v) i = readUInt32BE u i.
Proof.
  intros H. unfold readUInt32BE. rewrite drop_app_le by lia.
  assert (Hl : (4 <= length (drop i u))%nat) by (rewrite length_drop; lia).
  destruct (drop i u) as [|a [|b [|c [|x r]]]]; cbn in Hl; try lia; done.
Qed.

Lemma read_frame_app u v :
  match read_frame u with
  | NeedsMore => True
  | Bad e => read_frame (u ++ v) = Bad e
  | Frame f r => read_frame (u ++ v) = Frame f (r ++ v)
  end.
Proof.
  unfold read_frame. destruct (Z.of_nat (length u) <? 8) eqn:E8; to_prop; [done|].
  rewrite !readUInt32BE_app by lia. rewrite length_app. rewrite (proj2 (Z.ltb_ge (Z.of_nat (length u + length v)) 8)) by lia.
  pose proof (readUInt32BE_nonneg u 0). pose proof (readUInt32BE_nonneg u 4).
  set (hl := readUInt32BE u 0) in *. set (pl := readUInt32BE u 4) in *.
  destruct (assertFrameLength _ hl _); [done|]. destruct (assertFrameLength _ pl _); [done|]. destruct (hl =? 0); [done|].
  destruct (Z.of_nat (length u) <? 8 + hl + pl) eqn:El; to_prop; [done|]. rewrite (proj2 (Z.ltb_ge (Z.of_nat (length u + length v)) _)) by lia.
  rewrite !(drop_app_le u) by lia. rewrite take_app_le by (rewrite length_drop; lia).
  destruct (JSON_parse _); [|done]. destruct (_ || _); [done|].
  rewrite !drop_app_le by (rewrite ?length_drop; lia). by rewrite take_app_le by (rewrite !length_drop; lia).
Qed.

Lemma frames_of_app u v : match frames_of u with
  | (fs, None, r) => frames_of (u ++ v) = let '(fs', e, r') := frames_of (r ++ v) in (fs ++ fs', e, r')
  | (fs, Some e, _) => exists r', frames_of (u ++ v) = (fs, Some e, r')
  end.
Proof.
  remember (length u) as n eqn:Hn. revert u Hn. induction n as [n IH] using lt_wf_ind. intros u ->.
  rewrite (frames_of_step u). pose proof (read_frame_app u v) as Ha. destruct (read_frame u) as [|e|f r] eqn:E.
  - by destruct (frames_of (u ++ v)) as [[fs e] r].
  - exists (u ++ v). by rewrite frames_of_step, Ha.
  - apply read_frame_shrinks in E. specialize (IH (length r) E r eq_refl). rewrite (frames_of_step (u ++ v)), Ha.
    destruct (frames_of r) as [[fs [e|]] r'].
    + destruct IH as [r2 ->]. by exists r2.
    + rewrite IH. by destruct (frames_of (r' ++ v)) as [[fs' e] r2].
Qed.

(** ** Reading what was written *)

Lemma read_uint32 n rest : 0 <= n < 2 ^ 32 -> readUInt32BE (uint32_bytes n ++ rest) 0 = n.
Proof.
  intros Hn. unfold readUInt32BE, uint32_bytes. cbn [fmap list_fmap app drop].
  assert (Hm : forall a, 0 <= a mod 256) by (intros a; apply Z.mod_pos_bound; lia).
  rewrite !Z2N.id by (try apply Hm; try apply Z.div_pos; lia).
  replace (n / 0x1000000) with (n / 256 / 256 / 256) by (rewrite !Z.div_div; done).
  replace (n / 0x10000) with (n / 256 / 256) by (rewrite !Z.div_div; done).
  pose proof (Z.div_mod n 256). pose proof (Z.div_mod (n / 256) 256). pose proof (Z.div_mod (n / 256 / 256) 256). lia.
Qed.
Lemma uint32_length n : length (uint32_bytes n) = 4%nat.
Proof. done. Qed.
#[local] Arguments uint32_bytes : simpl never.

(** A frame whose header the receiver accepts. *)
Definition good_frame (f : PrivateFrame) : Prop := json_ok (header f) /\ isObjectHeader (header f) = true /\ validateHeader (header f) = true.

Lemma read_encoded f enc rest : good_frame f -> encodePrivateFrame (header f) (payload f) limits = inl enc ->
  read_frame (enc ++ rest) = Frame f rest.
Proof.
  intros (Hok & Hobj & Hval) He. unfold encodePrivateFrame in He. set (hb := buffer_from (stringify (header f))) in *.
  destruct (assertFrameLength (js "header length") _ _) eqn:E1; [done|]. destruct (assertFrameLength (js "payload length") _ _) eqn:E2; [done|].
  destruct (Z.of_nat (length hb) =? 0) eqn:E3; [done|]. destruct (2 ^ 32 <=? Z.of_nat (length hb)) eqn:E4; [done|].
  destruct (2 ^ 32 <=? Z.of_nat (length (payload f))) eqn:E5; [done|]. to_prop.
  assert (Henc : enc = uint32_bytes (Z.of_nat (length hb)) ++ uint32_bytes (Z.of_nat (length (payload f))) ++ hb ++ payload f) by congruence.
  subst enc. unfold read_frame. rewrite <- !(assoc_L app).
  assert (H0 : readUInt32BE (uint32_bytes (Z.of_nat (length hb)) ++ uint32_bytes (Z.of_nat (length (payload f))) ++ hb ++ payload f ++ rest) 0 = Z.of_nat (length hb))
    by (apply read_uint32; lia).
  assert (H4 : readUInt32BE (uint32_bytes (Z.of_nat (length hb)) ++ uint32_bytes (Z.of_nat (length (payload f))) ++ hb ++ payload f ++ rest) 4 = Z.of_nat (length (payload f)))
    by exact (read_uint32 (Z.of_nat (length (payload f))) (hb ++ payload f ++ rest) ltac:(lia)).
  rewrite H0, H4, E1, E2, (proj2 (Z.eqb_neq _ _) E3). rewrite !length_app, !uint32_length.
  rewrite (proj2 (Z.ltb_ge _ 8)) by lia. rewrite (proj2 (Z.ltb_ge _ (8 + _ + _))) by lia.
  change (drop 8 (uint32_bytes ?a ++ uint32_bytes ?b ++ ?x)) with x. rewrite !Nat2Z.id, take_app_length. unfold hb at 1.
  destruct (line_text_stringify _ Hok) as [_ Hp]. rewrite utf8_round_trip by (by apply line_text_wf, line_text_stringify || done).
  rewrite JSON_parse_stringify, Hobj, Hval by done. cbn [negb orb].
  rewrite <- drop_drop, !drop_app_length, take_app_length. by destruct f.
Qed.

Definition encodes (f : PrivateFrame) (enc : bytes) : Prop := good_frame f /\ encodePrivateFrame (header f) (payload f) limits = inl enc.

Lemma read_frame_nil : read_frame [] = NeedsMore.
Proof. done. Qed.

(** The frames of a beginning of an encoded sequence. *)
Lemma frames_of_prefix fs encs p cut : List.Forall2 encodes fs encs -> p ++ cut = concat encs ->
  exists k r, frames_of p = (take k fs, None, r) /\ p = concat (take k encs) ++ r /\ (cut = [] -> (k = length fs) /\ r = []).
Proof.
  intros H. revert p. induction H as [|f enc fs encs [Hg He] Hrest IH]; intros p Hp; cbn [concat] in Hp.
  { apply app_nil in Hp as [-> _]. exists O, []. by rewrite frames_of_step. }
  pose proof (read_frame_app p cut) as Ha. rewrite Hp, (read_encoded f enc (concat encs) Hg He) in Ha.
  rewrite frames_of_step. destruct (read_frame p) as [|e|f' r] eqn:E; [|done|].
  - exists O, p. split; [done|]. split; [done|]. intros ->. rewrite app_nil_r in Hp. subst p. by rewrite (read_encoded f enc _ Hg He) in E.
  - injection Ha as <- Hr. destruct (IH r (eq_sym Hr)) as (k & r' & -> & Hk & Hc). exists (S k), r'. cbn [take length concat].
    split; [done|]. split; [|intros Hcut; destruct (Hc Hcut) as [-> ->]; done].
    assert (Hpr : p = enc ++ r) by (apply (app_inv_tail cut); by rewrite Hp, Hr, (assoc_L app)). by rewrite Hpr, Hk, (assoc_L app).
Qed.

(** A channel whose stream has no bad frame has received the frames of the bytes so far. *)
Lemma channel_spec chunks : (frames_of (concat chunks)).1.2 = None ->
  let c := foldl (fun c chunk => unless_destroyed (handleData chunk) c) open_channel chunks in
  received c = (frames_of (concat chunks)).1.1 /\ destroyed c = None /\ wf (decoder c) /\ unread (decoder c) = (frames_of (concat chunks)).2.
Proof.
  induction chunks as [|chunk chunks IH] using rev_ind; intros He.
  { cbn. split_and!; try done. apply wf_new. }
  rewrite foldl_app. cbn [foldl]. rewrite concat_app in *. cbn [concat] in *. rewrite app_nil_r in *.
  pose proof (frames_of_app (concat chunks) chunk) as Ha. destruct (frames_of (concat chunks)) as [[fs [e|]] r]; cbn [fst snd] in *.
  { destruct Ha as [r' Ha]. rewrite Ha in He. done. }
  destruct (IH eq_refl) as (H1 & H2 & H3 & H4). set (c := foldl _ _ _) in *. unfold unless_destroyed. rewrite H2.
  pose proof (push_spec chunk (decoder c) H3) as Hp. rewrite H4 in Hp. rewrite Ha in *. destruct (frames_of (r ++ chunk)) as [[fs' e'] r']. cbn [fst snd] in *.
  subst e'. destruct Hp as (d' & Hp & Hw & Hu). unfold handleData. rewrite Hp. cbn. by rewrite H1, H2.
Qed.
End decoder.

(** The pieces a decoder keeps are a buffer. Pushing a piece finds exactly the frames that the unread bytes
    joined with it begin with, and leaves the bytes after them; when a frame is bad it fails with that frame's
    error. The spent pieces it keeps are fewer than thirty-two or than half of all. *)
Theorem push_decodes_buffer (validateHeader : json -> bool) (limits : PrivateFrameLimits) (chunk : bytes)
    (d : PrivateFrameDecoder) (Hd : wf d) :
  let '(frames, error, rest) := frames_of validateHeader limits (unread d ++ chunk) in
  exists d', push validateHeader limits chunk d = (match error with None => inl frames | Some e => inr e end, d') /\
    unread d' = rest /\ unreadBytes d' = Z.of_nat (length rest) /\
    (Z.of_nat (head d') < PENDING_COMPACTION_MIN_HEAD \/ Z.of_nat (head d') * 2 < Z.of_nat (length (pending d'))).
Proof.
  pose proof (push_spec validateHeader limits chunk d Hd) as H. destruct (frames_of _ _ _) as [[fs e] r].
  destruct H as (d' & Hp & [Hc _ _ Hs] & Hu). exists d'. rewrite Hc, Hu. by split_and!.
Qed.

(** Frames survive the wire. When a stream delivers a beginning of the encodings of some frames, cut into
    pieces in any way, the listeners receive the first of these frames, in order and unchanged; the stream is
    destroyed exactly when it ends inside a frame; and a stream that delivers all the bytes delivers all the
    frames. *)
Theorem frames_round_trip (validateHeader : json -> bool) (limits : PrivateFrameLimits) (fs : list PrivateFrame)
    (encs chunks : list bytes) (cut : bytes) (Hencs : List.Forall2 (encodes validateHeader limits) fs encs)
    (Hcut : concat chunks ++ cut = concat encs) :
  let c := run_channel validateHeader limits chunks in
  exists k, received c = take k fs /\ (destroyed c = None <-> concat chunks = concat (take k encs)) /\
    (cut = [] -> received c = fs /\ destroyed c = None).
Proof.
  destruct (frames_of_prefix validateHeader limits fs encs (concat chunks) cut Hencs Hcut) as (k & r & Hf & Hp & Hall).
  pose proof (channel_spec validateHeader limits chunks) as Hc. rewrite Hf in Hc. destruct (Hc eq_refl) as (H1 & H2 & H3 & H4). clear Hc.
  unfold run_channel. set (c := foldl _ _ _) in *. unfold unless_destroyed. rewrite H2. unfold handleEnd, finish. rewrite (wf_count _ H3), H4. cbn [fst snd].
  exists k. assert (Hr : r = [] <-> concat chunks = concat (take k encs)).
  { rewrite Hp. split; [intros ->; by rewrite app_nil_r|]. intros H. rewrite <- (app_nil_r (concat (take k encs))) in H at 2. by apply app_inv_head in H. }
  destruct (Z.of_nat (length r) =? 0) eqn:E; to_prop.
  - assert (r = []) as -> by (apply nil_length_inv; lia). rewrite H1, H2. split_and!; [done|by rewrite <- Hr|].
    intros Hcut'. destruct (Hall Hcut') as [-> _]. by rewrite take_ge.
  - cbn. rewrite H1. split_and!; [done| |].
    + rewrite <- Hr. split; [done|]. intros ->. done.
    + intros Hcut'. destruct (Hall Hcut') as [_ ->]. done.
Qed.

(** A frame in two pieces that cut a length and the payload. *)
Definition ex_frame : PrivateFrame := {| header := JObj [(js "t", JStr (js "x"))]; payload := [1; 2; 3]%N |}.
Definition ex_encoded : bytes := match encodePrivateFrame (header ex_frame) (payload ex_frame) DEFAULT_PRIVATE_FRAME_LIMITS with inl e => e | inr _ => [] end.

Lemma ex_encodes : encodes (fun _ => true) DEFAULT_PRIVATE_FRAME_LIMITS ex_frame ex_encoded.
Proof.
  split; [|by vm_compute]. split; [|done]. apply ok_obj; [repeat constructor; set_solver|constructor; [by apply js_wf_check|constructor]|].
  constructor; [|constructor]. apply ok_str. by apply js_wf_check.
Qed.

Lemma frames_round_trip_witness :
  concat [take 2 ex_encoded; take 17 (drop 2 ex_encoded)] ++ drop 19 ex_encoded = concat [ex_encoded] /\
  exists k, received (run_channel (fun _ => true) DEFAULT_PRIVATE_FRAME_LIMITS [take 2 ex_encoded; take 17 (drop 2 ex_encoded)]) = take k [ex_frame].
Proof.
  assert (H : concat [take 2 ex_encoded; take 17 (drop 2 ex_encoded)] ++ drop 19 ex_encoded = concat [ex_encoded]) by (vm_compute; reflexivity).
  split; [exact H|].
  destruct (frames_round_trip (fun _ => true) DEFAULT_PRIVATE_FRAME_LIMITS [ex_frame] [ex_encoded]
    [take 2 ex_encoded; take 17 (drop 2 ex_encoded)] (drop 19 ex_encoded)
    (List.Forall2_cons _ _ ex_encodes (List.Forall2_nil _)) H) as (k & Hk & _).
  exists k. exact Hk.
Defined.

Lemma push_decodes_buffer_witness :
  wf new_decoder /\ exists d', push (fun _ => true) DEFAULT_PRIVATE_FRAME_LIMITS ex_encoded new_decoder = (inl [ex_frame], d') /\ unread d' = [].
Proof.
  split; [apply wf_new|].
  pose proof (push_decodes_buffer (fun _ => true) DEFAULT_PRIVATE_FRAME_LIMITS ex_encoded new_decoder wf_new) as H.
  assert (Hf : frames_of (fun _ => true) DEFAULT_PRIVATE_FRAME_LIMITS (unread new_decoder ++ ex_encoded) = ([ex_frame], None, [])) by (vm_compute; reflexivity).
  rewrite Hf in H. destruct H as (d' & H1 & H2 & _). exists d'. split; [exact H1|exact H2].
Defined.

(** A bad frame takes the good ones of the same piece with it: they are spent, but never delivered. *)
Example bad_frame_hides_good :
  let bad := uint32_bytes 0 ++ uint32_bytes 0 in
  received (run_channel (fun _ => true) DEFAULT_PRIVATE_FRAME_LIMITS [ex_encoded; bad]) = [ex_frame] /\
  received (run_channel (fun _ => true) DEFAULT_PRIVATE_FRAME_LIMITS [ex_encoded ++ bad]) = [].
Proof. by vm_compute. Qed.
