(* ===== verification/FileIO.v ===== *)
(** * Files, and programs that may fail or die

    The file system calls of the program as a monad over the files, an
    object's own memory and the fates of the calls to come: a call works, is
    refused, writes only a part, or the process dies in it. Nothing runs after
    a death, not even a [finally]. A descriptor is the path it was opened on,
    and no other process touches the files. *)

From stdpp Require Import gmap.
From S2P Require Import Prelude JsString.

Abbreviation bytes := (list N).
Abbreviation filesystem := (gmap jsstr bytes).

Inductive errno := ENOENT | EEXIST | EPERM | EACCES | EBUSY | EOTHER.
#[export] Instance errno_eq_dec : EqDecision errno.
Proof. solve_decision. Defined.

(** What is thrown: a refusal of the system, a [TypeError], an [Error] with its message. *)
Inductive exn := Sys (e : errno) | TypeError | Failure (message : jsstr).
Inductive res (A : Type) := Ret (a : A) | Throw (e : exn) | Died.
#[global] Arguments Ret {A}.
#[global] Arguments Throw {A}.
#[global] Arguments Died {A}.

(** The fate of a call. [Wrote n] and [Dies n] matter to a write: it gets [n] bytes out. *)
Inductive fate := Works | Fails (e : errno) | Wrote (n : nat) | Dies (n : nat).

Section io.
Context {St : Type}.

(** The files, the memory of the object, and the fates of the next calls ([Works] once the list is used up). *)
Record world := { files : filesystem; mem : St; fates : list fate }.
Definition IO (A : Type) : Type := world -> res A * world.

Definition set_files (f : filesystem) (w : world) : world := {| files := f; mem := mem w; fates := fates w |}.
Definition set_mem (s : St) (w : world) : world := {| files := files w; mem := s; fates := fates w |}.
Definition next (w : world) : world := {| files := files w; mem := mem w; fates := tail (fates w) |}.
Definition fate_of (w : world) : fate := default Works (head (fates w)).

#[export] Instance IO_ret : MRet IO := fun A a w => (Ret a, w).
#[export] Instance IO_bind : MBind IO := fun A B k m w =>
  match m w with (Ret a, w') => k a w' | (Throw e, w') => (Throw e, w') | (Died, w') => (Died, w') end.
Definition raise {A} (e : exn) : IO A := fun w => (Throw e, w).
Definition read {A} (f : St -> A) : IO A := fun w => (Ret (f (mem w)), w).
Definition write (f : St -> St) : IO unit := fun w => (Ret tt, set_mem (f (mem w)) w).

(** [try m finally { h }]. *)
Definition try_finally {A} (m : IO A) (h : IO unit) : IO A := fun w =>
  match m w with
  | (Died, w') => (Died, w')
  | (r, w') => match h w' with (Ret _, w2) => (r, w2) | (Throw e, w2) => (Throw e, w2) | (Died, w2) => (Died, w2) end
  end.
(** [try m catch (e) { h(e) }]. *)
Definition try_catch {A} (m : IO A) (h : exn -> IO A) : IO A := fun w =>
  match m w with (Throw e, w') => h e w' | r => r end.

(** ** The calls *)

(** A call that does all of its effect, or nothing. *)
Definition sys {A} (effect : filesystem -> A * filesystem + errno) : IO A := fun w =>
  match fate_of w with
  | Works | Wrote _ =>
      match effect (files w) with
      | inl (a, f) => (Ret a, set_files f (next w))
      | inr e => (Throw (Sys e), next w)
      end
  | Fails e => (Throw (Sys e), next w)
  | Dies _ => (Died, next w)
  end.
(** A call that changes no file: [fsyncSync], [closeSync], [chmodSync], [mkdirSync]. *)
Definition sys_nop : IO unit := sys (fun f => inl (tt, f)).
(** [openSync(path, "a")]. *)
Definition openAppend (path : jsstr) : IO jsstr :=
  sys (fun f => inl (path, match f !! path with Some _ => f | None => <[path := []]> f end)).
(** [openSync(path, "wx")]. *)
Definition openExclusive (path : jsstr) : IO jsstr :=
  sys (fun f => match f !! path with Some _ => inr EEXIST | None => inl (path, <[path := []]> f) end).
(** [readFileSync(path)]. *)
Definition readFileSync (path : jsstr) : IO bytes :=
  sys (fun f => match f !! path with Some b => inl (b, f) | None => inr ENOENT end).
(** [renameSync(from, to)]. *)
Definition renameSync (from to : jsstr) : IO unit :=
  sys (fun f => match f !! from with Some b => inl (tt, <[to := b]> (delete from f)) | None => inr ENOENT end).
(** [rmSync(path, { force: true })]. *)
Definition rmSync (path : jsstr) : IO unit := sys (fun f => inl (tt, delete path f)).
(** [writeSync(descriptor, data)] at the end of the file: the number of bytes written. *)
Definition put (path : jsstr) (b : bytes) (f : filesystem) : filesystem := <[path := default [] (f !! path) ++ b]> f.
Definition writeSync (path : jsstr) (data : bytes) : IO nat := fun w =>
  match fate_of w with
  | Works => (Ret (length data), set_files (put path data (files w)) (next w))
  | Wrote n => (Ret (Nat.min n (length data)), set_files (put path (take n data) (files w)) (next w))
  | Fails e => (Throw (Sys e), next w)
  | Dies n => (Died, set_files (put path (take n data) (files w)) (next w))
  end.

(** ** Reasoning about runs *)

(** Whatever the fates, [m] run from [w] ends in [Q]. *)
Definition wp {A} (m : IO A) (Q : res A -> world -> Prop) (w : world) : Prop := Q (m w).1 (m w).2.

Lemma io_ret {A} (a : A) Q w : Q (Ret a) w -> wp (mret a) Q w.
Proof. done. Qed.
Lemma wp_raise {A} e (Q : res A -> world -> Prop) w : Q (Throw e) w -> wp (raise e) Q w.
Proof. done. Qed.
Lemma wp_read {A} (f : St -> A) Q w : Q (Ret (f (mem w))) w -> wp (read f) Q w.
Proof. done. Qed.
Lemma wp_write f Q w : Q (Ret tt) (set_mem (f (mem w)) w) -> wp (write f) Q w.
Proof. done. Qed.

Lemma io_bind {A B} (m : IO A) (k : A -> IO B) Q w :
  wp m (fun r w' => match r with Ret a => wp (k a) Q w' | Throw e => Q (Throw e) w' | Died => Q Died w' end) w -> wp (m ≫= k) Q w.
Proof. unfold wp, mbind, IO_bind. by destruct (m w) as [[] ?]. Qed.
Lemma io_mono {A} (m : IO A) (Q Q' : res A -> world -> Prop) w : wp m Q w -> (forall r w', Q r w' -> Q' r w') -> wp m Q' w.
Proof. unfold wp. auto. Qed.
Lemma io_catch {A} (m : IO A) h Q w :
  wp m (fun r w' => match r with Throw e => wp (h e) Q w' | r => Q r w' end) w -> wp (try_catch m h) Q w.
Proof. unfold wp, try_catch. by destruct (m w) as [[] ?]. Qed.
Lemma wp_finally {A} (m : IO A) h Q w :
  wp m (fun r w' => match r with Died => Q Died w'
                    | r => wp h (fun r' w2 => Q match r' with Ret _ => r | Throw e => Throw e | Died => Died end w2) w' end) w ->
  wp (try_finally m h) Q w.
Proof. unfold wp, try_finally. destruct (m w) as [[a|e|] w1]; cbn; [| |done]; destruct (h w1) as [[] ?]; done. Qed.

Lemma wp_sys {A} (effect : filesystem -> A * filesystem + errno) Q w :
  (forall e, Q (Throw (Sys e)) (next w)) -> Q Died (next w) ->
  (forall a f, effect (files w) = inl (a, f) -> Q (Ret a) (set_files f (next w))) -> wp (sys effect) Q w.
Proof.
  intros He Hd Ha. unfold wp, sys. destruct (fate_of w); try (cbn; auto; fail); destruct (effect (files w)) as [[a f]|e] eqn:E; cbn; auto.
Qed.
Lemma wp_sys_nop Q w : (forall e, Q (Throw (Sys e)) (next w)) -> Q Died (next w) -> Q (Ret tt) (next w) -> wp sys_nop Q w.
Proof. intros He Hd Hr. apply wp_sys; [done|done|]. intros [] f [= <-]. done. Qed.

(** A write may get any beginning of its data out before it stops, fails or the process dies; a count that is
    shorter than the data is returned, not thrown. *)
Lemma wp_writeSync path data Q w :
  (forall e, Q (Throw (Sys e)) (next w)) ->
  (forall n, Q Died (set_files (put path (take n data) (files w)) (next w))) ->
  (forall n, n < length data -> fate_of w = Wrote n -> Q (Ret n) (set_files (put path (take n data) (files w)) (next w))) ->
  Q (Ret (length data)) (set_files (put path data (files w)) (next w)) -> wp (writeSync path data) Q w.
Proof.
  intros He Hd Hs Ha. unfold wp, writeSync. destruct (fate_of w) as [| |n|n] eqn:E; cbn; [apply Ha|apply He| |apply Hd].
  destruct (Nat.lt_ge_cases n (length data)) as [Hn|Hn].
  - rewrite Nat.min_l by lia. by apply Hs.
  - rewrite Nat.min_r, take_ge by lia. done.
Qed.

(** Computations that use up fates and invent none. *)
Definition frugal {A} (m : IO A) : Prop := forall w, fates (m w).2 `suffix_of` fates w.
Lemma next_suffix w : fates (next w) `suffix_of` fates w.
Proof. cbn. destruct (fates w) as [|f l]; [done|]. by exists [f]. Qed.
Lemma frugal_ret {A} (a : A) : frugal (mret a).
Proof. by intros w. Qed.
Lemma frugal_raise {A} e : frugal (raise (A:=A) e).
Proof. by intros w. Qed.
Lemma frugal_read {A} (f : St -> A) : frugal (read f).
Proof. by intros w. Qed.
Lemma frugal_write f : frugal (write f).
Proof. by intros w. Qed.
Lemma frugal_bind {A B} (m : IO A) (k : A -> IO B) : frugal m -> (forall a, frugal (k a)) -> frugal (m ≫= k).
Proof.
  intros Hm Hk w. specialize (Hm w). unfold mbind, IO_bind. destruct (m w) as [[a|e|] w']; [|done..]. etrans; [apply Hk|done].
Qed.
Lemma frugal_catch {A} (m : IO A) h : frugal m -> (forall e, frugal (h e)) -> frugal (try_catch m h).
Proof. intros Hm Hh w. specialize (Hm w). unfold try_catch. destruct (m w) as [[a|e|] w']; [done| |done]. etrans; [apply Hh|done]. Qed.
Lemma frugal_finally {A} (m : IO A) h : frugal m -> frugal h -> frugal (try_finally m h).
Proof.
  intros Hm Hh w. specialize (Hm w). unfold try_finally. destruct (m w) as [[a|e|] w']; [| |done]; specialize (Hh w');
    destruct (h w') as [[] w2]; (etrans; [exact Hh|exact Hm]).
Qed.
Lemma frugal_sys {A} (effect : filesystem -> A * filesystem + errno) : frugal (sys effect).
Proof. intros w. unfold sys. destruct (fate_of w); try apply next_suffix; destruct (effect (files w)) as [[]|]; apply next_suffix. Qed.
Lemma frugal_writeSync path data : frugal (writeSync path data).
Proof. intros w. unfold writeSync. destruct (fate_of w); apply next_suffix. Qed.

(** Worlds in which no write is cut short without a death. *)
Definition no_short (w : world) : Prop := Forall (fun f => match f with Wrote _ => False | _ => True end) (fates w).
Lemma no_short_next w : no_short w -> no_short (next w).
Proof. unfold no_short, next. cbn. destruct (fates w); [done|]. by intros [_ ?]%Forall_cons. Qed.
Lemma no_short_fate w n : no_short w -> fate_of w <> Wrote n.
Proof. unfold no_short, fate_of. destruct (fates w); [done|]. intros [H _]%Forall_cons. cbn. by intros ->. Qed.
Lemma no_short_frugal {A} (m : IO A) w : frugal m -> no_short w -> no_short (m w).2.
Proof. intros Hm. unfold no_short. destruct (Hm w) as [k ->]. by intros [_ ?]%Forall_app. Qed.
End io.
Create HintDb frugal discriminated.
#[export] Hint Resolve frugal_ret frugal_raise frugal_read frugal_write frugal_bind frugal_catch frugal_finally frugal_sys frugal_writeSync : frugal.
#[global] Arguments world : clear implicits.
#[global] Arguments IO : clear implicits.

Lemma put_lookup path b f : put path b f !! path = Some (default [] (f !! path) ++ b).
Proof. apply lookup_insert_eq. Qed.
Lemma put_lookup_ne path p b f : path <> p -> put path b f !! p = f !! p.
Proof. apply lookup_insert_ne. Qed.
