(* ===== verification/AtomicFile.v ===== *)
(** * Atomic replacement of a file (utils/atomic-file.ts)

    The new contents go to a temporary file that is renamed onto the
    destination: whatever call fails, and wherever the process dies, the
    destination has its old contents or all of the new. *)

(* Source aliases:
   AF = src/packages/coding-agent/src/utils/atomic-file.ts *)

From stdpp Require Import gmap.
From S2P Require Import Prelude JsString FileIO.

(** AF 15-15 WIN32_RENAME_ATTEMPTS. *)
Definition WIN32_RENAME_ATTEMPTS : nat := 5.

Section atomic_file.
Context {St : Type}.
(** [process.platform === "win32"], [process.pid] and the identifier [randomUUID] gives. *)
Variables (win32 : bool) (pid uuid : jsstr).

(** AF 28-35 renameOntoSync. The errors that are worth another attempt. *)
Definition transient (e : exn) : bool := match e with Sys EPERM | Sys EACCES | Sys EBUSY => true | _ => false end.

(** AF 22-39 renameOntoSync. [more] attempts remain after this one; the pause between them is left out. *)
Fixpoint rename_attempts (more : nat) (from to : jsstr) : IO St unit :=
  try_catch (renameSync from to) (fun e =>
    match more with
    | O => raise e
    | S more => if negb win32 || negb (transient e) then raise e else rename_attempts more from to
    end).
Definition renameOntoSync (from to : jsstr) : IO St unit := rename_attempts (WIN32_RENAME_ATTEMPTS - 1) from to.

(** AF 41-49 WriteFileAtomicOptions. Whether a mode is set; the hook is [None] when there is none. *)
Record WriteFileAtomicOptions := {
  has_mode : bool; opt_fsync : bool; opt_fsyncDir : bool; beforeRename : option (jsstr -> IO St unit) }.

(** AF 53-53 writeFileAtomicSync.tempPath. *)
Definition tempPath (path : jsstr) : jsstr := path ++ js "." ++ pid ++ js "." ++ uuid ++ js ".tmp".

(** AF 59-64 writeFileAtomicSync. Each turn writes a byte at least, so [fuel] is enough from the number of bytes. *)
Fixpoint write_all (fuel : nat) (path descriptor : jsstr) (rest : bytes) : IO St unit :=
  match fuel with
  | O => mret tt
  | S fuel =>
      match rest with
      | [] => mret tt
      | _ =>
          written ← writeSync descriptor rest;
          if Nat.leb written 0 then raise (Failure (js "Short write persisting " ++ path))
          else write_all fuel path descriptor (drop written rest)
      end
  end.

Definition when (b : bool) (m : IO St unit) : IO St unit := if b then m else mret tt.

(** AF 54-75 writeFileAtomicSync. The temporary file and the rename. *)
Definition replace_file (path : jsstr) (data : jsstr) (options : WriteFileAtomicOptions) : IO St unit :=
  let temp := tempPath path in
  try_finally
    (descriptor ← openExclusive temp;
     _ ← try_finally
           (let b := buffer_from data in _ ← write_all (length b) path descriptor b; when (opt_fsync options) sys_nop)
           sys_nop;
     _ ← when (has_mode options) sys_nop;
     _ ← match beforeRename options with Some hook => hook temp | None => mret tt end;
     renameOntoSync temp path)
    (rmSync temp).

(** AF 52-88 writeFileAtomicSync. *)
Definition writeFileAtomicSync (path : jsstr) (data : jsstr) (options : WriteFileAtomicOptions) : IO St unit :=
  _ ← replace_file path data options;
  when (opt_fsyncDir options)
    (try_catch (_ ← sys_nop; try_finally sys_nop sys_nop) (fun _ => mret tt)).

(** ** What is kept *)

Section spec.
Variables (path data : jsstr) (w0 : world St).

(** Every file but the temporary one is as it was. *)
Definition elsewhere (w : world St) : Prop := forall p, p <> tempPath path -> files w !! p = files w0 !! p.
(** As before, or replaced. *)
Definition replaced (w : world St) : Prop :=
  files w !! path = Some (buffer_from data) /\ (forall p, p <> path -> p <> tempPath path -> files w !! p = files w0 !! p).
Definition before (w : world St) : Prop := elsewhere w /\ mem w = mem w0.
Definition after (w : world St) : Prop := replaced w /\ mem w = mem w0.
Definition either (w : world St) : Prop := before w \/ after w.

Lemma tempPath_other : path <> tempPath path.
Proof. unfold tempPath. intros H. apply (f_equal length) in H. rewrite !length_app in H. assert (length (js ".") = 1) by done. lia. Qed.

Definition temp_holds (b : bytes) (w : world St) : Prop := before w /\ files w !! tempPath path = Some b.

Lemma before_next w : before w -> before (next w).
Proof. done. Qed.
Lemma before_temp w f : before w -> (forall p, p <> tempPath path -> f !! p = files w !! p) -> before (set_files f (next w)).
Proof. intros [H1 H2] Hf. split; [|done]. intros p Hp. cbn. by rewrite Hf, H1. Qed.
Lemma temp_put b x w : temp_holds b w -> temp_holds (b ++ x) (set_files (put (tempPath path) x (files w)) (next w)).
Proof.
  intros [H1 H2]. split; [|cbn; by rewrite put_lookup, H2]. apply before_temp; [done|]. intros p Hp. apply put_lookup_ne. congruence.
Qed.

(** A part of the work that only touches the temporary file: it returns with [Q], or leaves the rest alone. *)
Definition early {A} (Q : A -> world St -> Prop) (r : res A) (w : world St) : Prop := match r with Ret a => Q a w | _ => before w end.

Lemma early_nop Q w : before w -> Q tt (next w) -> wp sys_nop (early Q) w.
Proof. intros H1 H2. apply wp_sys_nop; done. Qed.
Lemma early_when b Q w : before w -> Q tt w -> Q tt (next w) -> wp (when b sys_nop) (early Q) w.
Proof. intros H1 H2 H3. destruct b; [by apply early_nop|done]. Qed.

Lemma renamed w a f : temp_holds (buffer_from data) w ->
  match files w !! tempPath path with Some b => inl (tt, <[path := b]> (delete (tempPath path) (files w))) | None => inr ENOENT end = inl (a, f) ->
  after (set_files f (next w)) /\ f !! tempPath path = None.
Proof.
  intros [[H1 H2] ->] [= <- <-]. pose proof tempPath_other as Hne. split; [split; [split|done]|].
  - apply lookup_insert_eq.
  - intros p Hp Ht. cbn. rewrite lookup_insert_ne, lookup_delete_ne by done. by apply H1.
  - rewrite lookup_insert_ne by done. apply lookup_delete_eq.
Qed.

Lemma write_all_spec fuel done rest w : length rest <= fuel -> temp_holds done w ->
  wp (write_all fuel path (tempPath path) rest) (early (fun _ => temp_holds (done ++ rest))) w.
Proof.
  revert done rest w. induction fuel as [|fuel IH]; intros done rest w Hf Hw; cbn [write_all].
  { apply io_ret. destruct rest; [by rewrite app_nil_r|cbn in Hf; lia]. }
  destruct rest as [|b rest]; [apply io_ret; by rewrite app_nil_r|]. set (all := b :: rest) in *.
  apply io_bind, wp_writeSync.
  - intros e. apply Hw.
  - intros n. apply (temp_put _ (take n all) _ Hw).
  - intros n Hn _. destruct n as [|n]; [exact (proj1 (temp_put _ (take 0 all) _ Hw))|]. cbn [Nat.leb].
    replace (done ++ all) with ((done ++ take (S n) all) ++ drop (S n) all) by (by rewrite <- (assoc_L app), take_drop).
    apply IH; [|by apply temp_put]. rewrite length_drop. lia.
  - cbn [length all Nat.leb]. rewrite <- (app_nil_r (done ++ all)), drop_ge by (cbn; lia). apply IH; [cbn; lia|by apply temp_put].
Qed.

(** The rename: the destination is replaced by the temporary file, or nothing changed. *)
Lemma rename_spec more w : temp_holds (buffer_from data) w ->
  wp (rename_attempts more (tempPath path) path)
    (fun r w' => match r with Ret _ => after w' /\ files w' !! tempPath path = None | _ => before w' end) w.
Proof.
  revert w. induction more as [|more IH]; intros w Hw; cbn [rename_attempts]; apply io_catch, wp_sys;
    [intros e|exact (proj1 Hw)|intros a f; by apply renamed|intros e|exact (proj1 Hw)|intros a f; by apply renamed].
  - apply wp_raise, Hw.
  - destruct (_ || _); [apply wp_raise, Hw|]. by apply IH.
Qed.

(** The hook before the rename changes no file. *)
Definition reads_only (hook : jsstr -> IO St unit) : Prop := forall p w, files (hook p w).2 = files w /\ mem (hook p w).2 = mem w.
Definition good_hook (o : option (jsstr -> IO St unit)) : Prop := match o with Some hook => reads_only hook | None => True end.

Lemma hook_spec o w : good_hook o -> temp_holds (buffer_from data) w ->
  wp (match o with Some hook => hook (tempPath path) | None => mret tt end) (early (fun _ => temp_holds (buffer_from data))) w.
Proof.
  intros Ho [[H1 H2] H3]. destruct o as [hook|]; [|by apply io_ret]. destruct (Ho (tempPath path) w) as [Hf Hm]. unfold wp.
  assert (Hb : before (hook (tempPath path) w).2) by (split; [intros p Hp; rewrite Hf; by apply H1|congruence]).
  destruct (hook (tempPath path) w) as [[]w'] eqn:E; cbn in *; [|done..]. split; [done|]. by rewrite Hf.
Qed.

Lemma temp_holds_next b w : temp_holds b w -> temp_holds b (next w).
Proof. done. Qed.

(** What a run that ended leaves. *)
Definition replaced_or_not (r : res unit) (w : world St) : Prop :=
  match r with Ret _ => after w /\ files w !! tempPath path = None | _ => either w end.

Lemma removed_temp (r : res unit) w : either w -> (forall u, r = Ret u -> after w) ->
  wp (rmSync (tempPath path)) (fun r' w2 => replaced_or_not match r' with Ret _ => r | Throw e => Throw e | Died => Died end w2) w.
Proof.
  intros Hw Hr. apply wp_sys; [done|done|]. intros [] f [= <-]. pose proof tempPath_other as Hne.
  assert (Hb : before w -> before (set_files (delete (tempPath path) (files w)) (next w))).
  { intros H. apply before_temp; [done|]. intros p Hp. by rewrite lookup_delete_ne. }
  assert (Ha : after w -> after (set_files (delete (tempPath path) (files w)) (next w))).
  { intros [[H1 H2] H3]. split; [split|done]; cbn; [by rewrite lookup_delete_ne|]. intros p Hp Ht. rewrite lookup_delete_ne by done. by apply H2. }
  destruct r as [[]|e|]; cbn.
  - split; [apply Ha, (Hr tt), eq_refl|apply lookup_delete_eq].
  - destruct Hw; [left|right]; auto.
  - destruct Hw; [left|right]; auto.
Qed.

Lemma replace_file_spec options w : good_hook (beforeRename options) -> before w -> wp (replace_file path data options) replaced_or_not w.
Proof.
  intros Hh Hw. unfold replace_file. apply wp_finally.
  apply (io_mono _ (fun r w' => match r with Ret _ => after w' | _ => before w' end)).
  - apply io_bind, wp_sys; [done|done|]. intros d f Hd. destruct (files w !! tempPath path) eqn:Et; [done|]. injection Hd as <- <-.
    set (w1 := set_files _ _). assert (H1 : temp_holds [] w1).
    { split; [|apply lookup_insert_eq]. apply before_temp; [done|]. intros p Hp. by rewrite lookup_insert_ne. }
    apply io_bind, (io_mono _ (early (fun _ => temp_holds (buffer_from data)))).
    + apply wp_finally, (io_mono _ (early (fun _ => temp_holds (buffer_from data)))).
      * cbv zeta. apply io_bind, (io_mono _ _ _ _ (write_all_spec _ [] (buffer_from data) w1 (le_n _) H1)).
        intros [[]|e|] w' H'; cbn in *; [|done..]. apply early_when; [apply H'|done|done].
      * intros [[]|e|] w' H'; cbn in *; [..|done]; apply wp_sys_nop; cbn; intros; first [done|exact (proj1 H')].
    + intros [[]|e|] w' H'; cbn in H'; [cbv beta iota|done..]. apply io_bind.
      apply (io_mono _ (early (fun _ => temp_holds (buffer_from data)))); [apply early_when; [apply H'|done|done]|].
      intros [[]|e|] w2 H2; cbn in H2; [cbv beta iota|done..]. apply io_bind, (io_mono _ _ _ _ (hook_spec _ _ Hh H2)).
      intros [[]|e|] w3 H3; cbn in H3; [cbv beta iota|done..].
      apply (io_mono _ _ _ _ (rename_spec _ _ H3)). intros [[]|e|] w4 H4; [apply H4|done..].
  - intros [[]|e|] w' H'; [| |by left].
    + apply removed_temp; [by right|done].
    + apply removed_temp; [by left|done].
Qed.

Lemma writeFileAtomicSync_spec options w : good_hook (beforeRename options) -> before w -> wp (writeFileAtomicSync path data options) replaced_or_not w.
Proof.
  intros Hh Hw. apply io_bind, (io_mono _ _ _ _ (replace_file_spec _ _ Hh Hw)). intros [[]|e|] w1 H1; [|done..].
  destruct (opt_fsyncDir options); [|done]. apply io_catch, io_bind. destruct H1 as [H1 H2].
  assert (Hd : either w1) by by right.
  repeat first [done | apply wp_sys_nop; cbn; intros | apply wp_finally | apply io_ret].
Qed.
End spec.

Lemma frugal_write_all fuel path d rest : frugal (write_all fuel path d rest).
Proof.
  revert rest. induction fuel as [|fuel IH]; intros rest; cbn; [auto with frugal|]. destruct rest; [auto with frugal|].
  apply frugal_bind; [auto with frugal|]. intros k. destruct (Nat.leb k 0); auto with frugal.
Qed.
Lemma frugal_rename more from to : frugal (rename_attempts more from to).
Proof.
  induction more as [|more IH]; cbn; apply frugal_catch; try apply frugal_sys; intros e; [auto with frugal|]. destruct (_ || _); auto with frugal.
Qed.
Lemma frugal_when b m : frugal m -> frugal (when b m).
Proof. destruct b; [done|intros _; apply frugal_ret]. Qed.
#[local] Hint Resolve frugal_write_all frugal_rename frugal_when : frugal.
Lemma frugal_writeFileAtomicSync path data options : match beforeRename options with Some hook => forall p, frugal (hook p) | None => True end ->
  frugal (writeFileAtomicSync path data options).
Proof.
  intros Hh. unfold writeFileAtomicSync, replace_file, openExclusive, rmSync, sys_nop, renameOntoSync. cbv zeta.
  assert (Hk : forall p, frugal (match beforeRename options with Some hook => hook p | None => mret tt end)) by (destruct (beforeRename options); auto with frugal).
  repeat (apply frugal_bind || apply frugal_finally || apply frugal_catch || intros _ || apply frugal_when); intros; auto with frugal.
Qed.

(** C28. Replacing a file is all or nothing. Whatever calls fail, however the data is cut into writes, and wherever the
    process dies, the destination keeps its contents or has all of the new ones, and no other file but the
    temporary one changes; when the replacement returns, the destination has the new contents and the temporary file
    is gone. *)
Theorem writeFileAtomicSync_all_or_nothing (path data : jsstr) (options : WriteFileAtomicOptions) (w : world St)
    (Hhook : good_hook (beforeRename options)) :
  let '(r, w') := writeFileAtomicSync path data options w in
  (forall p, p <> path -> p <> tempPath path -> files w' !! p = files w !! p) /\
  (files w' !! path = files w !! path \/ files w' !! path = Some (buffer_from data)) /\
  (r = Ret tt -> files w' !! path = Some (buffer_from data) /\ files w' !! tempPath path = None).
Proof.
  assert (H : wp (writeFileAtomicSync path data options) (replaced_or_not path data w) w).
  { apply writeFileAtomicSync_spec; [done|]. by split. }
  assert (Hb : forall w', before path w w' -> (forall p, p <> path -> p <> tempPath path -> files w' !! p = files w !! p) /\
    (files w' !! path = files w !! path \/ files w' !! path = Some (buffer_from data))).
  { intros w' [H1 _]. split; [by intros p _ Ht; apply H1|]. left. apply H1, tempPath_other. }
  assert (Ha : forall w', after path data w w' -> (forall p, p <> path -> p <> tempPath path -> files w' !! p = files w !! p) /\
    (files w' !! path = files w !! path \/ files w' !! path = Some (buffer_from data))).
  { intros w' [[H1 H2] _]. by split; [|right]. }
  unfold wp in H. destruct (writeFileAtomicSync path data options w) as [[[]|e|] w']; cbn in H.
  - destruct H as [Hw H3]. destruct (Ha w' Hw). split_and!; [done..|]. intros _. split; [apply Hw|done].
  - destruct H as [H|H]; [destruct (Hb w' H)|destruct (Ha w' H)]; by split_and!.
  - destruct H as [H|H]; [destruct (Hb w' H)|destruct (Ha w' H)]; by split_and!.
Qed.
End atomic_file.

(** A replacement whose write is taken in two pieces, and one whose rename is refused. *)
Definition ex_options : @WriteFileAtomicOptions unit :=
  {| has_mode := true; opt_fsync := true; opt_fsyncDir := true; beforeRename := None |}.
Definition ex_world (fates : list fate) : world unit := {| files := {[ js "f" := buffer_from (js "old") ]}; mem := (); fates := fates |}.

Lemma writeFileAtomicSync_all_or_nothing_witness :
  good_hook (beforeRename ex_options) /\
  exists w', writeFileAtomicSync false (js "1") (js "u") (js "f") (js "new") ex_options (ex_world [Works; Wrote 2]) = (Ret tt, w') /\
    files w' !! js "f" = Some (buffer_from (js "new")).
Proof.
  split; [exact I|].
  pose proof (writeFileAtomicSync_all_or_nothing false (js "1") (js "u") (js "f") (js "new") ex_options (ex_world [Works; Wrote 2]) I) as H.
  destruct (writeFileAtomicSync _ _ _ _ _ _ _) as [r w'] eqn:E. exists w'.
  assert (r = Ret tt) as -> by (change r with (r, w').1; rewrite <- E; by vm_compute). split; [done|]. by apply H.
Defined.

Example refused_rename :
  let '(r, w') := writeFileAtomicSync false (js "1") (js "u") (js "f") (js "new") ex_options
    (ex_world [Works; Works; Works; Works; Works; Fails EBUSY]) in
  r = Throw (Sys EBUSY) /\ files w' !! js "f" = Some (buffer_from (js "old")).
Proof. by vm_compute. Qed.
