(* ===== verification/EventLog.v ===== *)
(** * The append-only event log (core/event-log.ts)

    Appends write whole lines at once and first cut off an unterminated tail;
    readers skip such a tail. A write may be cut short at any byte: what is
    read afterwards is what was whole. *)

(* Source aliases:
   EL = src/packages/coding-agent/src/core/event-log.ts *)

From S2P Require Import Prelude JsString JsNumber JsMap Messages Json FileLog.
Local Open Scope Z_scope.

(** EL 29-34 EventLogOptions. The bounds. *)
Record EventLogOptions := { maxBytes : option Z; maxRecords : option Z }.

Inductive log_error := TooManyBytes (size : Z) | TooManyRecords | ParseFailed (index : nat) | Missing | ShortWrite (written total : Z) | NotSerializable.

(** A file: absent, or its bytes. *)
Abbreviation file := (option (list N)).

Definition over (limit : option Z) (n : Z) : bool := match limit with Some m => m <? n | None => false end.

Section event_log.
Variable options : EventLogOptions.

(** EL 37-50 readAllSync. *)
Definition readAllSync (bytes : list N) : list N + log_error :=
  let size := Z.of_nat (length bytes) in if over (maxBytes options) size then inr (TooManyBytes size) else inl bytes.

(** EL 52-58 serializeLine. An event is a JSON value, which always serializes. *)
Definition serializeLine (event : json) : jsstr := stringify event ++ [LF].

(** EL 93-105 EventLog.replaySync. The loop over the lines; [parse] skips a line ([Some None]) or rejects it ([None]). *)
Fixpoint replay_loop {T} (parse : jsstr -> nat -> option (option T)) (endsWithNewline : bool) (rawLines : list jsstr)
    (index : nat) (recordCount : Z) (events : list T) : list T + log_error :=
  match rawLines with
  | [] => inl events
  | raw :: rest =>
      match trim raw with
      | [] => replay_loop parse endsWithNewline rest (S index) recordCount events
      | line =>
          if (match rest with [] => true | _ => false end) && negb endsWithNewline
          then replay_loop parse endsWithNewline rest (S index) recordCount events
          else
            let recordCount := recordCount + 1 in
            if over (maxRecords options) recordCount then inr TooManyRecords
            else match parse line index with
                 | None => inr (ParseFailed index)
                 | Some (Some e) => replay_loop parse endsWithNewline rest (S index) recordCount (events ++ [e])
                 | Some None => replay_loop parse endsWithNewline rest (S index) recordCount events
                 end
      end
  end.

(** [s.endsWith("\n")]. *)
Definition ends_with_LF (s : jsstr) : bool := bool_decide (last s = Some LF).

(** EL 71-107 EventLog.replaySync. *)
Definition replaySync {T} (parse : jsstr -> nat -> option (option T)) (missingFileThrows : bool) (f : file) : list T + log_error :=
  match f with
  | None => if missingFileThrows then inr Missing else inl []
  | Some bytes =>
      match readAllSync bytes with
      | inr e => inr e
      | inl bytes =>
          let contents := buffer_toString bytes in
          replay_loop parse (ends_with_LF contents) (lines_of contents) 0 0 []
      end
  end.

(** [buffer.lastIndexOf(0x0a) + 1]. *)
Fixpoint after_last_LF (bytes : list N) : nat :=
  match bytes with
  | [] => 0
  | b :: rest =>
      match after_last_LF rest with
      | O => if (b =? LF)%N then 1 else 0
      | S n => S (S n)
      end
  end.

(** EL 141-172 EventLog.repairTailSync. [stable] tells whether the two reads agree: no rival is writing. *)
Definition repairTailSync (stable : bool) (bytes : list N) : list N + log_error :=
  let size := Z.of_nat (length bytes) in
  if size =? 0 then inl bytes
  else if over (maxBytes options) size then inr (TooManyBytes size)
  else if bool_decide (last bytes = Some LF) then inl bytes
  else match readAllSync bytes with
       | inr e => inr e
       | inl first => if stable then inl (take (after_last_LF first) bytes) else inl bytes
       end.

(** EL 115-138 EventLog.appendSync. [written] is how many bytes the write gets to the file before it is cut short
    or the process dies; the file, and the error of a write that is too short. *)
Definition appendSync (events : list json) (onCreate : list json) (stable : bool) (written : nat) (f : file) : option log_error * file :=
  let lines := serializeLine <$> events in
  match (match f with
         | Some bytes => match repairTailSync stable bytes with inl b => inl (b, []) | inr e => inr e end
         | None => inl ([], serializeLine <$> onCreate)
         end) with
  | inr e => (Some e, f)
  | inl (bytes, leadLines) =>
      let buffer := buffer_from (concat (leadLines ++ lines)) in
      (if Nat.ltb written (length buffer) then Some (ShortWrite (Z.of_nat written) (Z.of_nat (length buffer))) else None,
       Some (bytes ++ take written buffer))
  end.
End event_log.

(** ** What is committed *)

(** An append, and how many of its bytes are written. *)
Record append := { a_events : list json; a_onCreate : list json; a_written : nat }.

(** A log that is not bounded, used by one writer. *)
Definition unbounded : EventLogOptions := {| maxBytes := None; maxRecords := None |}.
Definition run_appends (ops : list append) (f : file) : file :=
  foldl (fun f a => (appendSync unbounded (a_events a) (a_onCreate a) true (a_written a) f).2) f ops.

(** The abstract log: the values of each append whose lines were whole; the first append leads with the values of
    a new file. *)
Fixpoint committed (ops : list append) (fresh : bool) : list json :=
  match ops with
  | [] => []
  | a :: rest => whole (a_written a) ((if fresh then a_onCreate a else []) ++ a_events a) ++ committed rest false
  end.

Definition good_append (a : append) : Prop :=
  objects (a_events a) /\ objects (a_onCreate a).

(** The bytes of a log: whole lines, and a torn tail. *)
Definition holds (bytes : list N) (vs : list json) : Prop := exists tail, bytes = log_bytes vs ++ tail /\ LF ∉ tail.

Lemma after_last_no_LF bytes : LF ∉ bytes -> after_last_LF bytes = 0%nat.
Proof.
  induction bytes as [|b bytes IH]; [done|]. intros [Hb H]%not_elem_of_cons. cbn. rewrite IH by done.
  by rewrite (proj2 (N.eqb_neq _ _)).
Qed.
Lemma after_last_app a tail : LF ∉ tail -> after_last_LF (a ++ LF :: tail) = S (length a).
Proof. intros H. induction a as [|x a IH]; cbn; [by rewrite after_last_no_LF|by rewrite IH]. Qed.

Lemma log_bytes_end vs : Forall json_ok vs -> log_bytes vs = [] \/ exists a, log_bytes vs = a ++ [LF].
Proof.
  intros H. destruct vs as [|v vs _] using rev_ind; [by left|right]. apply Forall_app in H as [_ H]. apply Forall_cons in H as [Hv _].
  exists (log_bytes vs ++ buffer_from (stringify v)). rewrite log_bytes_app, <- (assoc_L app). f_equal.
  unfold log_bytes. rewrite bind_cons. cbn [mbind list_bind]. rewrite app_nil_r. by apply line_bytes_app.
Qed.

(** The repair cuts off the tail, and nothing else. *)
Lemma repair_in_bounds options bytes vs : holds bytes vs -> Forall json_ok vs -> over (maxBytes options) (Z.of_nat (length bytes)) = false ->
  repairTailSync options true bytes = inl (log_bytes vs).
Proof.
  intros (tail & -> & Ht) Hok Hb. unfold repairTailSync.
  destruct (Z.of_nat (length (log_bytes vs ++ tail)) =? 0) eqn:E; to_prop.
  { assert (H : log_bytes vs ++ tail = []) by (apply nil_length_inv; lia). apply app_nil in H as [-> ->]. done. }
  rewrite Hb. unfold readAllSync. rewrite Hb. destruct (log_bytes_end vs Hok) as [Hl|[a Hl]]; rewrite Hl.
  - cbn [app]. case_bool_decide as Hlast; [exfalso; apply Ht; by apply last_Some_elem_of|]. cbn. by rewrite after_last_no_LF.
  - destruct tail as [|b tail _] using rev_ind.
    + rewrite app_nil_r. case_bool_decide as Hlast; [done|]. by rewrite last_snoc in Hlast.
    + case_bool_decide as Hlast.
      { rewrite (assoc_L app), last_snoc in Hlast. injection Hlast as ->. set_solver. }
      rewrite <- (assoc_L app). cbn [app]. rewrite after_last_app by done.
      f_equal. replace (S (length a)) with (length (a ++ [LF])) by (rewrite length_app; cbn; lia).
      change (a ++ LF :: tail ++ [b]) with (a ++ [LF] ++ (tail ++ [b])). by rewrite (assoc_L app a [LF]), take_app_length.
Qed.
Lemma repair_spec bytes vs : holds bytes vs -> Forall json_ok vs -> repairTailSync unbounded true bytes = inl (log_bytes vs).
Proof. intros. by apply repair_in_bounds. Qed.

Lemma serialized_bytes vs : buffer_from (concat (serializeLine <$> vs)) = buffer_from (log_text vs).
Proof. f_equal. unfold log_text. induction vs as [|v vs IH]; [done|]. rewrite fmap_cons, bind_cons. cbn [concat]. by rewrite IH. Qed.

Lemma objects_committed ops fresh : Forall good_append ops -> objects (committed ops fresh).
Proof.
  intros H. revert fresh. induction H as [|a ops [Ha Hc] _ IH]; intros fresh; cbn; [constructor|]. apply Forall_app. split; [|apply IH].
  apply objects_whole, Forall_app. split; [by destruct fresh|done].
Qed.

(** An append leaves the whole lines of what it writes after what the file held. *)
Lemma append_in_bounds options a f vs : good_append a -> objects vs ->
  match f with Some bytes => holds bytes vs /\ over (maxBytes options) (Z.of_nat (length bytes)) = false | None => vs = [] end ->
  let new := (if f then [] else a_onCreate a) ++ a_events a in
  exists bytes, appendSync options (a_events a) (a_onCreate a) true (a_written a) f =
      (if Nat.ltb (a_written a) (length (log_bytes new))
       then Some (ShortWrite (Z.of_nat (a_written a)) (Z.of_nat (length (log_bytes new)))) else None, Some bytes) /\
    holds bytes (vs ++ whole (a_written a) new) /\ bytes = log_bytes vs ++ take (a_written a) (log_bytes new).
Proof.
  intros [Ha Hc] Hvs Hf new.
  assert (Hwrite : forall new, objects new -> holds (log_bytes vs ++ take (a_written a) (log_bytes new)) (vs ++ whole (a_written a) new)).
  { intros new' Hnew. destruct (torn_write new' (a_written a) (objects_ok _ Hnew)) as (tail & -> & Ht & _).
    exists tail. by rewrite log_bytes_app, (assoc_L app). }
  unfold appendSync. destruct f as [bytes|].
  - destruct Hf as [Hf Hb]. rewrite (repair_in_bounds options bytes vs Hf (objects_ok _ Hvs) Hb). eexists. cbn [app].
    rewrite serialized_bytes, <- log_bytes_text by by apply objects_ok. split; [done|]. split; [by apply Hwrite|done].
  - subst vs. eexists. rewrite <- fmap_app, serialized_bytes, <- log_bytes_text by (apply Forall_app; split; by apply objects_ok).
    split; [done|]. split; [apply Hwrite; by apply Forall_app|done].
Qed.
Lemma append_holds a f vs : good_append a -> objects vs ->
  match f with Some bytes => holds bytes vs | None => vs = [] end ->
  exists bytes, (appendSync unbounded (a_events a) (a_onCreate a) true (a_written a) f).2 = Some bytes /\
    holds bytes (vs ++ whole (a_written a) ((if f then [] else a_onCreate a) ++ a_events a)).
Proof.
  intros Ha Hvs Hf. destruct (append_in_bounds unbounded a f vs Ha Hvs) as (bytes & -> & H & _); [by destruct f|]. by exists bytes.
Qed.

Lemma run_appends_hold ops f vs : Forall good_append ops -> objects vs ->
  match f with Some bytes => holds bytes vs | None => vs = [] end ->
  match run_appends ops f with
  | Some bytes => holds bytes (vs ++ committed ops (if f then false else true))
  | None => vs ++ committed ops (if f then false else true) = []
  end.
Proof.
  intros H. revert f vs. induction H as [|a ops Ha Hops IH]; intros f vs Hvs Hf.
  { cbn. rewrite app_nil_r. exact Hf. }
  destruct (append_holds a f vs Ha Hvs Hf) as (bytes & Hb & Hh). cbn [run_appends foldl]. rewrite Hb.
  specialize (IH (Some bytes) (vs ++ whole (a_written a) ((if f then [] else a_onCreate a) ++ a_events a))).
  unfold run_appends in IH. cbn [committed]. destruct Ha as [Ha Hc].
  assert (Hobj : objects (vs ++ whole (a_written a) ((if f then [] else a_onCreate a) ++ a_events a))).
  { apply Forall_app. split; [done|]. apply objects_whole, Forall_app. split; [by destruct f; constructor || done|done]. }
  specialize (IH Hobj Hh). cbn in IH. rewrite <- (assoc_L app) in IH. destruct f; exact IH.
Qed.

(** ** Reading *)

Lemma trim_start_plain u s : is_space u = false -> trim_start (u :: s) = u :: s.
Proof. intros H. cbn. by rewrite H. Qed.
Lemma trim_object v : is_obj v = true -> trim (stringify v) = stringify v.
Proof.
  destruct v as [| | | | |fs]; try done. intros _. rewrite stringify_obj. unfold trim, trim_end. rewrite trim_start_plain by done.
  change (123 :: ?x)%N with ([123%N] ++ x). rewrite (assoc_L app), reverse_app, (reverse_singleton 125%N). cbn [app].
  rewrite trim_start_plain by done. change (125%N :: ?x) with ([125%N] ++ x). by rewrite reverse_app, reverse_involutive, reverse_singleton.
Qed.

Section reading.
Context {T : Type} (options : EventLogOptions) (parse : jsstr -> nat -> option (option T)) (read : json -> option T).

(** Whole lines that the parser accepts are read one by one, within the bound on the records. *)
Lemma replay_loop_reads nl vs rest i n acc : objects vs -> rest <> [] -> (forall v k, v ∈ vs -> parse (stringify v) k = Some (read v)) ->
  over (maxRecords options) (n + Z.of_nat (length vs)) = false ->
  replay_loop options parse nl ((stringify <$> vs) ++ rest) i n acc =
  replay_loop options parse nl rest (i + length vs) (n + Z.of_nat (length vs)) (acc ++ omap read vs).
Proof.
  intros H Hr Hp Ho. revert i n acc Ho. induction H as [|v vs [Hv Hobj] _ IH]; intros i n acc Ho.
  { cbn. rewrite app_nil_r. f_equal; lia. }
  rewrite fmap_cons. cbn [app replay_loop]. rewrite trim_object by done. destruct (stringify v) as [|u t] eqn:Es; [by apply stringify_length in Hv; rewrite Es in Hv; cbn in Hv; lia|].
  assert (Hnl : (match (stringify <$> vs) ++ rest with [] => true | _ => false end) = false) by (by destruct (stringify <$> vs), rest).
  rewrite Hnl. cbn [andb]. cbn [length] in Ho. assert (Ho1 : over (maxRecords options) (n + 1) = false) by (unfold over in *; destruct (maxRecords options); [lia|done]).
  rewrite Ho1, <- Es, Hp by apply list_elem_of_here. cbn [omap list_omap].
  assert (IH' : forall acc', replay_loop options parse nl ((stringify <$> vs) ++ rest) (S i) (n + 1) acc' =
    replay_loop options parse nl rest (i + S (length vs)) (n + Z.of_nat (S (length vs))) (acc' ++ omap read vs)).
  { intros acc'. rewrite IH; [f_equal; lia| |by replace (n + 1 + Z.of_nat (length vs)) with (n + Z.of_nat (S (length vs))) by lia].
    intros w k Hw. apply Hp. by apply list_elem_of_further. }
  cbn [length]. destruct (read v) as [x|]; rewrite IH'; [by rewrite <- (assoc_L app)|done].
Qed.

Lemma replay_reads bytes vs : holds bytes vs -> objects vs -> (forall v k, v ∈ vs -> parse (stringify v) k = Some (read v)) ->
  over (maxBytes options) (Z.of_nat (length bytes)) = false -> over (maxRecords options) (Z.of_nat (length vs)) = false ->
  replaySync options parse false (Some bytes) = inl (omap read vs).
Proof.
  intros (tail & -> & Ht) Hvs Hp Hb Hr. unfold replaySync, readAllSync. rewrite Hb.
  destruct (read_log vs tail (objects_ok _ Hvs) Ht) as [Htext Hlines]. rewrite Hlines, replay_loop_reads by done. cbn [app replay_loop].
  destruct (trim (buffer_toString tail)) as [|u t] eqn:E; [done|].
  assert (Hne : buffer_toString tail <> []) by (intros H; by rewrite H in E).
  assert (Hlf : ends_with_LF (buffer_toString (log_bytes vs ++ tail)) = false).
  { rewrite Htext. unfold ends_with_LF. apply bool_decide_eq_false. pose proof (toString_no_LF tail Ht) as Hn.
    destruct (buffer_toString tail) as [|x s _] using rev_ind; [done|].
    rewrite (assoc_L app), last_snoc. intros [= ->]. set_solver. }
  by rewrite Hlf.
Qed.
End reading.

Definition parse_json (line : jsstr) (_ : nat) : option (option json) := match JSON_parse line with Some v => Some (Some v) | None => None end.

Lemma replay_holds bytes vs : holds bytes vs -> objects vs -> replaySync unbounded parse_json false (Some bytes) = inl vs.
Proof.
  intros Hh Hvs. rewrite (replay_reads unbounded parse_json Some bytes vs Hh Hvs); [|intros v k Hv|done|done].
  - f_equal. clear. induction vs as [|v vs IH]; [done|]. cbn. f_equal. exact IH.
  - unfold parse_json. apply objects_ok in Hvs. rewrite Forall_forall in Hvs. by rewrite JSON_parse_stringify by by apply Hvs.
Qed.

(** C25. A log without a bound, that one process writes, is crash-safe. Whatever bytes each append gets to write before it is cut short, a reader finds
    exactly the events whose lines were whole, of all appends, in order: never a piece of one, and never an error.
    An append whose write was whole is committed whole. *)
Theorem event_log_crash_safe (ops : list append) (Hops : Forall good_append ops) :
  replaySync unbounded parse_json false (run_appends ops None) = inl (committed ops true) /\
  Forall (fun a => (length (log_bytes (a_onCreate a ++ a_events a)) <= a_written a)%nat ->
    whole (a_written a) (a_events a) = a_events a) ops.
Proof.
  split.
  - pose proof (run_appends_hold ops None [] Hops (Forall_nil_2 _) eq_refl) as H. cbn [app] in H. pose proof (objects_committed ops true Hops) as Ho.
    destruct (run_appends ops None) as [bytes|]; [by apply replay_holds|]. cbn. by rewrite H.
  - apply Forall_forall. intros a _ Hw. apply whole_all. rewrite log_bytes_app, length_app in Hw. lia.
Qed.

Definition ex_event (n : string) : json := JObj [(js "n", JStr (js n))].
Definition ex_appends : list append :=
  [{| a_events := [ex_event "a"; ex_event "b"]; a_onCreate := [ex_event "h"]; a_written := 25 |};
   {| a_events := [ex_event "c"]; a_onCreate := []; a_written := 100 |}].

Lemma ex_event_ok n : js_wf (js n) -> json_ok (ex_event n) /\ is_obj (ex_event n) = true.
Proof.
  intros H. split; [|done]. apply ok_obj; [repeat constructor; set_solver|constructor; [by apply js_wf_check|constructor]|].
  constructor; [by apply ok_str|constructor].
Qed.

(** The second append cuts off the torn line of the first. *)
Lemma event_log_crash_safe_witness :
  Forall good_append ex_appends /\
  replaySync unbounded parse_json false (run_appends ex_appends None) = inl [ex_event "h"; ex_event "a"; ex_event "c"].
Proof.
  assert (H : Forall good_append ex_appends).
  { repeat (apply Forall_cons; split); try apply Forall_nil_2; split; repeat (apply Forall_cons; split); try apply Forall_nil_2;
      try (apply ex_event_ok; by apply js_wf_check). }
  split; [exact H|].
  assert (Hc : committed ex_appends true = [ex_event "h"; ex_event "a"; ex_event "c"]) by (vm_compute; reflexivity).
  rewrite <- Hc. exact (proj1 (event_log_crash_safe ex_appends H)).
Defined.

(** A rival writer that is in the middle of its line makes the repair leave the tail alone. *)
Example unstable_tail_kept : repairTailSync unbounded false (js "x") = inl (js "x").
Proof. reflexivity. Qed.
