(* ===== verification/CommandJournal.v ===== *)
(** * The command journal of the supervisor (modes/daemon/command-recovery-journal.ts)

    A command is journalled before it is dispatched, its result when it is
    known, and its acknowledgement when the client has the result. A restarted
    supervisor reads the journal and dispatches no command again that it finds
    there. *)

(* Source aliases:
   CJ = src/packages/coding-agent/src/modes/daemon/command-recovery-journal.ts *)

From stdpp Require Import gmap.
From S2P Require Import Prelude JsString JsNumber JsMap Messages Json FileIO AtomicFile FileLog.

(** ** Records *)

(** [value.key], [undefined] for what is no object. *)
Definition prop (v : json) (key : string) : option json := match v with JObj fs => get fs (js key) | _ => None end.
Definition is_string (o : option json) : bool := match o with Some (JStr _) => true | _ => false end.
Definition is_text (s : string) (o : option json) : bool := match o with Some (JStr t) => jseqb t (js s) | _ => false end.
(** [value === 1]. *)
Definition is_one (o : option json) : bool :=
  match o with Some (JNum t) => match Number t with Fin q => Qeq_bool q 1 | _ => false end | _ => false end.

(** CJ 45-47 createCommandIdempotencyKey. *)
Definition createCommandIdempotencyKey (clientId commandId : jsstr) : jsstr := stringify (JArr [JStr clientId; JStr commandId]).

(** CJ 6-14 ReceivedRecord. *)
Definition ReceivedRecord (key clientId commandId commandType recordedAt : jsstr) : json :=
  JObj [(js "version", JNum (js "1")); (js "type", JStr (js "received")); (js "key", JStr key); (js "clientId", JStr clientId);
        (js "commandId", JStr commandId); (js "commandType", JStr commandType); (js "recordedAt", JStr recordedAt)].
(** CJ 16-22 ResultRecord. *)
Definition ResultRecord (key : jsstr) (response : json) (recordedAt : jsstr) : json :=
  JObj [(js "version", JNum (js "1")); (js "type", JStr (js "result")); (js "key", JStr key); (js "response", response);
        (js "recordedAt", JStr recordedAt)].
(** CJ 24-29 AcknowledgedRecord. *)
Definition AcknowledgedRecord (key recordedAt : jsstr) : json :=
  JObj [(js "version", JNum (js "1")); (js "type", JStr (js "acknowledged")); (js "key", JStr key); (js "recordedAt", JStr recordedAt)].

(** ** The journal *)

(** CJ 33-36 JournalEntry. *)
Record JournalEntry := { received : json; response : option json }.
(** CJ 54-56 CommandRecoveryJournal. *)
Record journal := { entries : jsmap jsstr JournalEntry; recordCount : Z }.
(** CJ 38-41 CommandJournalBeginResult. *)
Inductive BeginResult := BNew | BPending | BComplete (response : json).

(** CJ 43-43 COMPACT_AFTER_RECORDS. *)
Definition COMPACT_AFTER_RECORDS : Z := 4096.

Definition set_entries (es : jsmap jsstr JournalEntry) (j : journal) : journal := {| entries := es; recordCount := recordCount j |}.
Definition set_count (n : Z) (j : journal) : journal := {| entries := entries j; recordCount := n |}.

(** CJ 63-72 CommandRecoveryJournal.lookup. *)
Definition lookup (j : journal) (clientId commandId : jsstr) : option BeginResult :=
  match get (entries j) (createCommandIdempotencyKey clientId commandId) with
  | Some {| response := Some r |} => Some (BComplete r)
  | Some _ => Some BPending
  | None => None
  end.

(** CJ 150-171 CommandRecoveryJournal.load. One record; [null] has no [version] to read. *)
Definition load_record (record : json) (j : journal) : option journal :=
  match record with
  | JNull => None
  | _ =>
      if negb (is_one (prop record "version")) then Some j
      else match prop record "key" with
           | Some (JStr key) =>
               let j := set_count (recordCount j + 1) j in
               if is_text "received" (prop record "type") then
                 if is_string (prop record "clientId") && is_string (prop record "commandId") && is_string (prop record "commandType")
                 then Some (set_entries (set (entries j) key {| received := record; response := None |}) j) else Some j
               else if is_text "acknowledged" (prop record "type") then Some (set_entries (remove (entries j) key) j)
               else match get (entries j) key, prop record "response" with
                    | Some entry, Some r =>
                        if is_text "response" (prop r "type")
                        then Some (set_entries (set (entries j) key {| received := received entry; response := Some r |}) j) else Some j
                    | _, _ => Some j
                    end
           | _ => Some j
           end
  end.

(** CJ 139-149 CommandRecoveryJournal.load. The lines. *)
Fixpoint load_lines (lines : list jsstr) (j : journal) : option journal :=
  match lines with
  | [] => Some j
  | [] :: rest => load_lines rest j
  | line :: rest =>
      match JSON_parse line with
      | None => load_lines rest j
      | Some record => match load_record record j with Some j' => load_lines rest j' | None => None end
      end
  end.

Section command_journal.
(** The path of the journal, the platform and the process. *)
Variables (path : jsstr) (win32 : bool) (pid : jsstr).

(** What an operation reads from outside: the time, and an identifier. *)
Record env := { now : jsstr; uuid : jsstr }.
Implicit Types (en : env).

(** CJ 129-173 CommandRecoveryJournal.load. *)
Definition load : IO journal unit :=
  contents ← try_catch (b ← readFileSync path; mret (Some b))
               (fun e => match e with Sys ENOENT => mret None | _ => raise e end);
  match contents with
  | None => mret tt
  | Some b =>
      j ← read (fun j => load_lines (lines_of (buffer_toString b)) j);
      match j with Some j => write (fun _ => j) | None => raise TypeError end
  end.

(** CJ 58-61 CommandRecoveryJournal.constructor. *)
Definition new_journal : IO journal unit :=
  _ ← sys_nop; _ ← write (fun _ => {| entries := []; recordCount := 0 |}); load.

(** CJ 175-185 CommandRecoveryJournal.append. The number of bytes written is not looked at. *)
Definition append (record : json) : IO journal unit :=
  descriptor ← openAppend path;
  _ ← try_finally (_ ← writeSync descriptor (line_bytes record); sys_nop) sys_nop;
  _ ← sys_nop;
  write (fun j => set_count (recordCount j + 1) j).

(** CJ 188-200 CommandRecoveryJournal.compact. The records of the entries. *)
Definition entry_records (at_ : jsstr) (p : jsstr * JournalEntry) : list json :=
  received p.2 :: match response p.2 with Some r => [ResultRecord p.1 r at_] | None => [] end.
Definition live_records (at_ : jsstr) (es : jsmap jsstr JournalEntry) : list json := es ≫= entry_records at_.

(** CJ 187-207 CommandRecoveryJournal.compact. *)
Definition compact (en : env) : IO journal unit :=
  records ← read (fun j => live_records (now en) (entries j));
  _ ← writeFileAtomicSync win32 pid (uuid en) path (join [LF] (stringify <$> records) ++ [LF])
        {| has_mode := true; opt_fsync := true; opt_fsyncDir := true; beforeRename := None |};
  write (set_count (Z.of_nat (length records))).

(** CJ 74-90 CommandRecoveryJournal.begin. *)
Definition begin (clientId commandId commandType : jsstr) (en : env) : IO journal BeginResult :=
  let key := createCommandIdempotencyKey clientId commandId in
  existing ← read (fun j => lookup j clientId commandId);
  match existing with
  | Some r => mret r
  | None =>
      let record := ReceivedRecord key clientId commandId commandType (now en) in
      _ ← append record;
      _ ← write (fun j => set_entries (set (entries j) key {| received := record; response := None |}) j);
      mret BNew
  end.

(** CJ 92-110 CommandRecoveryJournal.recordResult. *)
Definition recordResult (clientId commandId : jsstr) (r : json) (en : env) : IO journal unit :=
  let key := createCommandIdempotencyKey clientId commandId in
  entry ← read (fun j => get (entries j) key);
  match entry with
  | None => raise (Failure (js "Cannot record a result before command receipt: " ++ key))
  | Some entry =>
      _ ← append (ResultRecord key r (now en));
      _ ← write (fun j => set_entries (set (entries j) key {| received := received entry; response := Some r |}) j);
      n ← read recordCount;
      if (COMPACT_AFTER_RECORDS <=? n)%Z then compact en else mret tt
  end.

(** CJ 112-127 CommandRecoveryJournal.acknowledge. *)
Definition acknowledge (clientId commandId : jsstr) (en : env) : IO journal unit :=
  let key := createCommandIdempotencyKey clientId commandId in
  present ← read (fun j => has (entries j) key);
  if negb present then mret tt
  else
    _ ← append (AcknowledgedRecord key (now en));
    _ ← write (fun j => set_entries (remove (entries j) key) j);
    j ← read (fun j => j);
    if Nat.eqb (length (entries j)) 0 || (COMPACT_AFTER_RECORDS <=? recordCount j)%Z then compact en else mret tt.
End command_journal.

(** ** Good records *)

Definition response_ok (r : json) : Prop := json_ok r /\ is_text "response" (prop r "type") = true.
Definition received_ok (key : jsstr) (v : json) : Prop :=
  json_ok v /\ is_obj v = true /\ is_one (prop v "version") = true /\ prop v "key" = Some (JStr key) /\
  is_text "received" (prop v "type") = true /\
  is_string (prop v "clientId") && is_string (prop v "commandId") && is_string (prop v "commandType") = true.
Definition entry_ok (p : jsstr * JournalEntry) : Prop :=
  received_ok p.1 (received p.2) /\ match response p.2 with Some r => response_ok r | None => True end.
(** What a journal in memory may hold. *)
Definition entries_ok (es : jsmap jsstr JournalEntry) : Prop := NoDup es.*1 /\ Forall entry_ok es.

Lemma key_wf c i : js_wf c -> js_wf i -> js_wf (createCommandIdempotencyKey c i).
Proof. intros. apply line_text_wf, line_text_stringify. repeat constructor; done. Qed.
Lemma key_inj c i c' i' : js_wf c -> js_wf i -> js_wf c' -> js_wf i' ->
  createCommandIdempotencyKey c i = createCommandIdempotencyKey c' i' -> c = c' /\ i = i'.
Proof.
  intros Hc Hi Hc' Hi' H. assert (Hok : forall c i, js_wf c -> js_wf i -> json_ok (JArr [JStr c; JStr i])) by (repeat constructor; done).
  pose proof (JSON_parse_stringify _ (Hok c i Hc Hi)) as H1. unfold createCommandIdempotencyKey in H.
  rewrite H, (JSON_parse_stringify _ (Hok c' i' Hc' Hi')) in H1. by injection H1 as -> ->.
Qed.

Lemma fields_ok fs : (bool_decide (NoDup fs.*1)) && forallb (fun f => forallb (fun u => (u <? 0x10000)%N) f) fs.*1 = true ->
  Forall (fun f => json_ok f.2) fs -> json_ok (JObj fs).
Proof.
  intros [H1%bool_decide_eq_true H2]%andb_true_iff H3. constructor; [done| |done]. clear H1 H3.
  induction fs.*1 as [|f l IH]; [constructor|]. cbn in H2. apply andb_true_iff in H2 as [Hf H2]. constructor; [by apply js_wf_check|auto].
Qed.
Ltac record_ok := apply fields_ok; [by vm_compute|];
  repeat (apply Forall_cons; split; [cbn [snd]; first [done|apply ok_num; [by vm_compute|by apply printable_check]|apply ok_str; first [done|by apply js_wf_check]]|]);
  apply Forall_nil_2.
Lemma ReceivedRecord_ok key c i t now : js_wf key -> js_wf c -> js_wf i -> js_wf t -> js_wf now -> received_ok key (ReceivedRecord key c i t now).
Proof. intros. split; [unfold ReceivedRecord; record_ok|by vm_compute]. Qed.
Lemma ResultRecord_ok key r now : js_wf key -> json_ok r -> js_wf now -> json_ok (ResultRecord key r now).
Proof. intros. unfold ResultRecord. record_ok. Qed.
Lemma AcknowledgedRecord_ok key now : js_wf key -> js_wf now -> json_ok (AcknowledgedRecord key now).
Proof. intros. unfold AcknowledgedRecord. record_ok. Qed.

(** ** Reading records back *)

Lemma load_received key v j : received_ok key v ->
  load_record v j = Some {| entries := set (entries j) key {| received := v; response := None |}; recordCount := recordCount j + 1 |}.
Proof. intros (_ & Ho & H1 & H2 & H3 & H4). unfold load_record. destruct v; try done. by rewrite H1, H2, H3, H4. Qed.
Lemma load_acknowledged key now j :
  load_record (AcknowledgedRecord key now) j = Some {| entries := remove (entries j) key; recordCount := recordCount j + 1 |}.
Proof. by vm_compute. Qed.
Lemma load_result key r now j : response_ok r ->
  load_record (ResultRecord key r now) j = Some {| entries := match get (entries j) key with
      | Some e => set (entries j) key {| received := received e; response := Some r |} | None => entries j end; recordCount := recordCount j + 1 |}.
Proof.
  intros [_ Hr]. unfold load_record, ResultRecord. change (is_one _) with true. cbv iota beta delta [negb].
  change (prop _ "key") with (Some (JStr key)). change (prop _ "response") with (Some r). cbv iota beta zeta.
  change (is_text "received" _) with false. change (is_text "acknowledged" _) with false. cbv iota beta. rewrite Hr. cbn.
  by destruct (get (entries j) key).
Qed.

(** ** What a file of records stands for *)

Definition apply_record (j : journal) (v : json) : journal := default j (load_record v j).
Definition empty_journal : journal := {| entries := []; recordCount := 0 |}.
Definition replay (rs : list json) : journal := foldl apply_record empty_journal rs.

Lemma load_object v j : is_obj v = true -> load_record v j = Some (apply_record j v).
Proof. intros H. unfold apply_record. destruct v; try done. unfold load_record. by repeat case_match. Qed.

Lemma apply_received key v j : received_ok key v ->
  apply_record j v = {| entries := set (entries j) key {| received := v; response := None |}; recordCount := recordCount j + 1 |}.
Proof. intros H. unfold apply_record. by rewrite (load_received key). Qed.
Lemma apply_result key r now j : response_ok r ->
  apply_record j (ResultRecord key r now) = {| entries := match get (entries j) key with
      | Some e => set (entries j) key {| received := received e; response := Some r |} | None => entries j end; recordCount := recordCount j + 1 |}.
Proof. intros H. unfold apply_record. by rewrite load_result. Qed.
Lemma apply_acknowledged key now j :
  apply_record j (AcknowledgedRecord key now) = {| entries := remove (entries j) key; recordCount := recordCount j + 1 |}.
Proof. unfold apply_record. by rewrite load_acknowledged. Qed.

Lemma prop_ok v k r : json_ok v -> prop v k = Some r -> json_ok r.
Proof.
  intros Hv Hr. destruct v as [| | | | |fs]; try done. cbn in Hr. apply get_elem in Hr. inversion Hv as [| | | | |fs' _ _ Hf]; subst.
  rewrite list.Forall_forall in Hf. by apply (Hf (js k, r)).
Qed.
Lemma received_key_wf key v : received_ok key v -> js_wf key.
Proof. intros (H1 & _ & _ & H2 & _). apply prop_ok in H2; [|done]. by inversion H2. Qed.

Lemma entries_ok_nil : entries_ok [].
Proof. split; constructor. Qed.
Lemma entries_ok_set es key e : entries_ok es -> entry_ok (key, e) -> entries_ok (set es key e).
Proof. intros [H1 H2] He. split; [by apply set_nodup|by apply Forall_set]. Qed.
Lemma entries_ok_remove es key : entries_ok es -> entries_ok (remove es key).
Proof. intros [H1 H2]. split; [by apply remove_nodup|by apply Forall_remove]. Qed.
Lemma entries_ok_get es key e : entries_ok es -> get es key = Some e -> entry_ok (key, e).
Proof. intros [_ H] Hg. apply get_elem in Hg. rewrite list.Forall_forall in H. by apply H. Qed.

Lemma apply_record_ok j v : json_ok v -> is_obj v = true -> entries_ok (entries j) -> entries_ok (entries (apply_record j v)).
Proof.
  intros Hv Ho Hj. unfold apply_record, load_record. destruct v; try done. set (v := JObj _) in *.
  destruct (is_one (prop v "version")) eqn:H1; [|done]. cbn [negb]. destruct (prop v "key") as [[| | |key| |]|] eqn:H2; try done. cbv zeta.
  destruct (is_text "received" (prop v "type")) eqn:H3.
  { destruct (_ && _) eqn:H4; [|done]. apply entries_ok_set; [done|]. by split; [split_and!|]. }
  destruct (is_text "acknowledged" _); [by apply entries_ok_remove|]. cbn [entries set_count].
  destruct (get (entries j) key) as [e|] eqn:H5; [|done]. destruct (prop v "response") as [r|] eqn:H6; [|done].
  destruct (is_text "response" (prop r "type")) eqn:H7; [|done]. apply entries_ok_set; [done|].
  split; [by apply (entries_ok_get _ _ _ Hj H5)|]. split; [by eapply prop_ok|done].
Qed.
Lemma replay_ok rs : objects rs -> entries_ok (entries (replay rs)).
Proof.
  unfold replay. generalize entries_ok_nil. change [] with (entries empty_journal) at 1. generalize empty_journal.
  intros j Hj H. revert j Hj. induction H as [|v rs [Hv Ho] _ IH]; intros j Hj; cbn; [done|]. by apply IH, apply_record_ok.
Qed.

(** The records a compaction writes stand for the entries in memory. *)
Lemma live_objects at_ es : js_wf at_ -> entries_ok es -> objects (live_records at_ es).
Proof.
  intros Ha [_ H]. unfold live_records. induction H as [|[key [v r]] es [Hv Hr] _ IH]; [constructor|]. rewrite bind_cons. apply objects_app; [|done].
  cbn in *. apply list.Forall_cons. split; [by split; apply Hv|]. destruct r as [r|]; [|constructor]. apply list.Forall_singleton.
  split; [|done]. apply ResultRecord_ok; [by eapply received_key_wf|apply Hr|done].
Qed.
Lemma entry_replayed at_ es n p : p.1 ∉ es.*1 -> entry_ok p ->
  foldl apply_record {| entries := es; recordCount := n |} (entry_records at_ p) =
  {| entries := es ++ [p]; recordCount := n + Z.of_nat (length (entry_records at_ p)) |}.
Proof.
  destruct p as [key [v r]]. intros Hk [Hv Hr]. unfold entry_records. cbn [fst snd received response foldl length] in *.
  rewrite (apply_received key) by done. cbn [entries recordCount]. rewrite set_new by done.
  destruct r as [r|]; [|done]. cbn [foldl length]. rewrite apply_result by done. cbn [entries recordCount].
  rewrite get_last, set_last by done. f_equal. lia.
Qed.
Lemma replay_live at_ es : entries_ok es ->
  replay (live_records at_ es) = {| entries := es; recordCount := Z.of_nat (length (live_records at_ es)) |}.
Proof.
  assert (Hgen : forall old n, NoDup (old ++ es).*1 -> Forall entry_ok es -> foldl apply_record {| entries := old; recordCount := n |} (live_records at_ es) =
    {| entries := old ++ es; recordCount := n + Z.of_nat (length (live_records at_ es)) |}); [|intros [Hn H]; by apply (Hgen [] 0%Z)].
  intros old n Hn H. revert old n Hn. unfold live_records. induction H as [|p es Hp _ IH]; intros old n Hn.
  { cbn. rewrite app_nil_r. f_equal. lia. }
  assert (Hk : p.1 ∉ old.*1).
  { rewrite fmap_app, fmap_cons in Hn. apply NoDup_app in Hn as (_ & Hn & _). intros Hd. apply (Hn p.1 Hd). set_solver. }
  rewrite bind_cons, foldl_app, entry_replayed, IH, length_app, <- (assoc_L app) by (done || by rewrite <- (assoc_L app)). cbn [app]. f_equal. lia.
Qed.

(** ** The file *)

Lemma load_lines_log rs rest j : objects rs ->
  load_lines ((stringify <$> rs) ++ rest) j = load_lines rest (foldl apply_record j rs).
Proof.
  intros H. revert j. induction H as [|v rs [Hv Ho] _ IH]; intros j; [done|]. rewrite fmap_cons. cbn [app load_lines foldl].
  destruct (stringify v) as [|u s] eqn:Es; [by apply stringify_length in Hv; rewrite Es in Hv; cbn in Hv; lia|].
  rewrite <- Es, JSON_parse_stringify by done. by rewrite (load_object v).
Qed.

(** A compaction of nothing leaves one empty line. *)
Definition blank (pre : bytes) : Prop := pre = [] \/ pre = [LF].
(** Whole records, and a torn tail; a file that is not there holds nothing. *)
Definition holds (o : option bytes) (rs : list json) (tail : bytes) : Prop :=
  exists pre, blank pre /\ default [] o = pre ++ log_bytes rs ++ tail.
(** What the tail makes a reader load. *)
Definition tail_loads (tail : bytes) (extra : list json) : Prop :=
  LF ∉ tail /\ forall j, load_lines [buffer_toString tail] j = Some (foldl apply_record j extra).

Lemma no_tail : tail_loads [] [].
Proof. split; [apply not_elem_of_nil|done]. Qed.

(** A torn record is lost, or all there but its line feed. *)
Lemma torn_loads v tail more : json_ok v -> is_obj v = true -> line_bytes v = tail ++ more -> more <> [] ->
  exists extra, (extra = [] \/ extra = [v]) /\ tail_loads tail extra.
Proof.
  intros Hv Ho Hl Hm. assert (Hlf : LF ∉ tail).
  { rewrite (line_bytes_app v Hv) in Hl. destruct (exists_last Hm) as (m & x & ->). rewrite (assoc_L app) in Hl. apply app_inj_tail in Hl as [Hl _].
    intros Hin. apply (LF_of_buffer (stringify v)); [by apply line_text_LF, line_text_stringify|]. rewrite Hl. set_solver. }
  destruct v as [| | | | |fs]; try done. destruct (torn_line fs tail more Hv Hl Hm) as [->|[Ht|[Hne Ht]]].
  - exists []. split; [by left|]. apply no_tail.
  - exists [JObj fs]. split; [by right|]. split; [done|]. intros j. rewrite Ht.
    apply (load_lines_log [JObj fs] []). by constructor.
  - exists []. split; [by left|]. split; [done|]. intros j. cbn [load_lines]. rewrite Ht. by destruct (buffer_toString tail).
Qed.

Lemma load_holds b rs tail extra : holds (Some b) rs tail -> objects rs -> tail_loads tail extra ->
  load_lines (lines_of (buffer_toString b)) empty_journal = Some (replay (rs ++ extra)).
Proof.
  intros (pre & Hpre & Hb) Hrs [Hlf Ht]. cbn in Hb. subst b.
  assert (H : load_lines (lines_of (buffer_toString (log_bytes rs ++ tail))) empty_journal = Some (replay (rs ++ extra))).
  { destruct (read_log rs tail (objects_ok _ Hrs) Hlf) as [_ ->]. rewrite load_lines_log by done. unfold replay. by rewrite Ht, foldl_app. }
  destruct Hpre as [->| ->]; [done|]. rewrite <- H. change [LF] with (buffer_from [LF]) at 1.
  rewrite toString_prefix by (repeat constructor). cbn [app]. unfold lines_of. done.
Qed.

Lemma joined_lines v rs : join [LF] (stringify <$> v :: rs) ++ [LF] = log_text (v :: rs).
Proof.
  revert v. induction rs as [|v' rs IH]; intros v; [cbn; by rewrite app_nil_r|].
  rewrite fmap_cons, join_cons by done. rewrite <- !(assoc_L app), IH, (assoc_L app). done.
Qed.
Lemma compact_bytes rs : objects rs -> exists pre, blank pre /\ buffer_from (join [LF] (stringify <$> rs) ++ [LF]) = pre ++ log_bytes rs.
Proof.
  intros H. destruct rs as [|v rs]; [exists [LF]; split; [by right|done]|]. exists []. split; [by left|].
  rewrite log_bytes_text by by apply objects_ok. by rewrite joined_lines.
Qed.

Section operations.
Variables (path : jsstr) (win32 : bool) (pid : jsstr).

(** A restarted supervisor, on a disk that works. *)
Definition reopen (w : world journal) : option journal :=
  match new_journal path {| files := files w; mem := mem w; fates := [] |} with (Ret _, w') => Some (mem w') | _ => None end.

Lemma reopen_holds w rs tail extra : holds (files w !! path) rs tail -> objects rs -> tail_loads tail extra -> reopen w = Some (replay (rs ++ extra)).
Proof.
  intros Hf Hrs Ht. unfold reopen, new_journal, load, mbind, IO_bind. cbn. unfold try_catch, readFileSync, sys. cbn.
  destruct (files w !! path) as [b|] eqn:E; cbn.
  - change ({| entries := []; recordCount := 0 |}) with empty_journal. by rewrite (load_holds b rs tail extra).
  - destruct Hf as (pre & Hpre & Hb). cbn in Hb. symmetry in Hb. apply app_nil in Hb as [_ Hb]. apply app_nil in Hb as [Hb ->].
    destruct rs as [|v rs].
    + destruct Ht as [_ Ht]. specialize (Ht empty_journal). cbn in Ht. injection Ht as Ht. f_equal. exact Ht.
    + apply app_nil in Hb as [Hb _]. rewrite line_bytes_app in Hb by by apply list.Forall_cons in Hrs as [[? _] _]. by apply app_nil in Hb as [_ ?].
Qed.

(** ** The operations of a life *)

Inductive operation := Begin (clientId commandId commandType : jsstr) | RecordResult (clientId commandId : jsstr) (response : json)
  | Acknowledge (clientId commandId : jsstr).
Inductive answer := Began (r : BeginResult) | Recorded | Acknowledged.

Definition perform (o : operation) (en : env) : IO journal answer :=
  match o with
  | Begin c i t => r ← begin path c i t en; mret (Began r)
  | RecordResult c i r => _ ← recordResult path win32 pid c i r en; mret Recorded
  | Acknowledge c i => _ ← acknowledge path win32 pid c i en; mret Acknowledged
  end.

(** Operations in order until the process dies; an exception reaches the caller of its operation only. *)
Fixpoint life (ops : list (operation * env)) (w : world journal) : list (operation * res answer) * world journal :=
  match ops with
  | [] => ([], w)
  | (o, en) :: rest =>
      match perform o en w with
      | (Died, w') => ([(o, Died)], w')
      | (r, w') => let '(rs, w2) := life rest w' in ((o, r) :: rs, w2)
      end
  end.

Definition key_of (o : operation) : jsstr :=
  match o with Begin c i _ | RecordResult c i _ | Acknowledge c i => createCommandIdempotencyKey c i end.
Definition operation_ok (p : operation * env) : Prop :=
  js_wf (now p.2) /\ match p.1 with
  | Begin c i t => js_wf c /\ js_wf i /\ js_wf t
  | RecordResult c i r => js_wf c /\ js_wf i /\ response_ok r
  | Acknowledge c i => js_wf c /\ js_wf i
  end.

(** A file of whole records; a file that a reader makes [l] of, perhaps with a torn tail. *)
Definition clean (w : world journal) (rs : list json) : Prop := holds (files w !! path) rs [] /\ objects rs.
Definition recovers (w : world journal) (l : list json) : Prop := exists rs tail extra,
  rs ++ extra = l /\ holds (files w !! path) rs tail /\ objects rs /\ tail_loads tail extra.
Lemma recovers_reopen w l : recovers w l -> reopen w = Some (replay l).
Proof. intros (rs & tail & extra & <- & H1 & H2 & H3). by apply reopen_holds with tail. Qed.
Lemma clean_recovers w rs : clean w rs -> recovers w rs.
Proof. intros [H1 H2]. exists rs, [], []. split_and!; [by rewrite app_nil_r|done..|apply no_tail]. Qed.

Lemma holds_put o rs v x y : line_bytes v = x ++ y -> holds o rs [] -> holds (Some (default [] o ++ x)) rs x.
Proof. intros Hl (pre & Hp & Hb). exists pre. split; [done|]. cbn. by rewrite Hb, app_nil_r, (assoc_L app). Qed.
Lemma holds_line o rs v : holds o rs (line_bytes v) -> holds o (rs ++ [v]) [].
Proof. intros (pre & Hp & Hb). exists pre. split; [done|]. rewrite Hb, log_bytes_app, app_nil_r. unfold log_bytes at 3. cbn. by rewrite app_nil_r. Qed.

(** What an append leaves: on a return the record is there; on an exception it is there whole or not at all; on a
    death it may be torn. *)
Definition counted (j : journal) : journal := set_count (recordCount j + 1) j.
Definition appended (v : json) (rs : list json) (j j' : journal) (r : res unit) (w : world journal) : Prop :=
  match r with
  | Ret _ => clean w (rs ++ [v]) /\ mem w = j'
  | Throw _ => (clean w rs \/ clean w (rs ++ [v])) /\ mem w = j
  | Died => recovers w rs \/ recovers w (rs ++ [v])
  end.
Lemma write_line v rs w : holds (files w !! path) rs [] -> objects rs -> json_ok v -> is_obj v = true -> no_short w ->
  wp (_ ← writeSync path (line_bytes v); sys_nop) (appended v rs (mem w) (mem w)) w.
Proof.
  intros Hf Hrs Hv Ho Hn. assert (Hv1 : objects (rs ++ [v])) by (apply objects_app; [done|by constructor]).
  apply io_bind, wp_writeSync.
  - intros e. by split; [left|].
  - intros n. pose proof (take_drop n (line_bytes v)) as Hsplit. symmetry in Hsplit.
    assert (Hp : holds (put path (take n (line_bytes v)) (files w) !! path) rs (take n (line_bytes v))) by (rewrite put_lookup; by eapply holds_put).
    destruct (drop n (line_bytes v)) as [|y more] eqn:Ed.
    + right. apply clean_recovers. split; [|done]. rewrite app_nil_r in Hsplit. apply holds_line. by rewrite Hsplit at 2.
    + destruct (torn_loads v _ _ Hv Ho Hsplit) as (extra & Hex & Ht); [done|].
      destruct Hex as [->| ->]; [left|right]; (eexists rs, _, _; split; [|split; [exact Hp|by split]]); [by rewrite app_nil_r|done].
  - intros n _ Hw. exfalso. by apply (no_short_fate w n Hn).
  - set (w1 := set_files _ _). assert (H1 : clean w1 (rs ++ [v])).
    { split; [|done]. apply holds_line. cbn. rewrite put_lookup. eapply (holds_put _ _ v _ []); [by rewrite app_nil_r|done]. }
    apply wp_sys_nop; [by split; [right|]|right; by apply clean_recovers|by split].
Qed.
Lemma append_spec v rs w : clean w rs -> json_ok v -> is_obj v = true -> no_short w ->
  wp (append path v) (appended v rs (mem w) (counted (mem w))) w.
Proof.
  intros [Hf Hrs] Hv Ho Hn.
  apply io_bind, wp_sys; [by split; [left|]|left; by apply clean_recovers|]. intros d f [= <- <-].
  set (w0 := set_files _ (next w)).
  assert (H0 : holds (files w0 !! path) rs []).
  { cbn. destruct (files w !! path) eqn:E; [by rewrite E|]. by rewrite lookup_insert_eq. }
  apply io_bind, wp_finally, (io_mono _ _ _ _ (write_line v rs w0 H0 Hrs Hv Ho (no_short_next _ Hn))).
  intros [[]|e|] w' H'; [..|done]; cbn in H'.
  - destruct H' as [H1 H2]. apply wp_sys_nop; [by split; [right|]|right; by apply clean_recovers|].
    apply io_bind, wp_sys_nop; [by split; [right|]|right; by apply clean_recovers|]. split; [done|]. cbn. by rewrite H2.
  - destruct H' as [H1 H2]. apply wp_sys_nop; [by split|destruct H1; [left|right]; by apply clean_recovers|by split].
Qed.

(** What a compaction leaves. *)
Lemma compact_spec en rs w : clean w rs -> entries_ok (entries (mem w)) -> js_wf (now en) ->
  wp (compact path win32 pid en) (fun r w' => let live := live_records (now en) (entries (mem w)) in
    match r with
    | Ret _ => clean w' live /\ mem w' = set_count (Z.of_nat (length live)) (mem w)
    | _ => (clean w' rs \/ clean w' live) /\ mem w' = mem w
    end) w.
Proof.
  intros [Hf Hrs] He Hen. apply io_bind, wp_read. set (live := live_records _ _).
  pose proof (live_objects _ _ Hen He : objects live) as Hl. set (data := join [LF] (stringify <$> live) ++ [LF]). set (options := Build_WriteFileAtomicOptions _ _ _ _).
  assert (Hb : forall w', before pid (uuid en) path w w' -> clean w' rs).
  { intros w' [H _]. split; [|done]. by rewrite H by apply tempPath_other. }
  assert (Ha : forall w', after pid (uuid en) path data w w' -> clean w' live).
  { intros w' [[H _] _]. split; [|done]. rewrite H. destruct (compact_bytes live Hl) as (pre & Hp & Hd). exists pre. split; [done|].
    cbn. by rewrite app_nil_r. }
  apply io_bind, (io_mono _ _ _ _ (writeFileAtomicSync_spec win32 pid (uuid en) path data w options w I (conj (fun _ _ => eq_refl) eq_refl))).
  intros [[]|e|] w' H'; cbn in H'.
  - destruct H' as [H1 H2]. apply wp_write. split; [exact (Ha w' H1)|]. cbn. rewrite (proj2 H1). done.
  - destruct H' as [H1|H1]; (split; [|apply H1]); [left|right]; auto.
  - destruct H' as [H1|H1]; (split; [|apply H1]); [left|right]; auto.
Qed.

(** ** One operation *)

(** The record an operation appends, when it appends one, and when it does. *)
Definition record_of (o : operation) (en : env) : json :=
  let key := key_of o in
  match o with
  | Begin c i t => ReceivedRecord key c i t (now en)
  | RecordResult c i r => ResultRecord key r (now en)
  | Acknowledge c i => AcknowledgedRecord key (now en)
  end.
Definition appends (o : operation) (j : journal) : Prop :=
  match o with Begin _ _ _ => get (entries j) (key_of o) = None | _ => is_Some (get (entries j) (key_of o)) end.

Lemma key_of_wf p : operation_ok p -> js_wf (key_of p.1).
Proof. destruct p as [[c i t|c i r|c i] en]; cbn; intros H; apply key_wf; apply H. Qed.
Lemma record_of_ok p : operation_ok p -> json_ok (record_of p.1 p.2) /\ is_obj (record_of p.1 p.2) = true.
Proof.
  intros H. pose proof (key_of_wf p H) as Hk. destruct p as [[c i t|c i r|c i] en]; cbn in *; (split; [|done]).
  - apply (ReceivedRecord_ok _ c i t (now en)); apply H || done.
  - apply ResultRecord_ok; apply H || done.
  - apply AcknowledgedRecord_ok; apply H || done.
Qed.

(** An operation on a journal changes its entries as its record changes them on a load. *)
Lemma get_applied p j k : operation_ok p ->
  get (entries (apply_record j (record_of p.1 p.2))) k =
  if decide (key_of p.1 = k) then
    match p.1 with
    | Begin _ _ _ => Some {| received := record_of p.1 p.2; response := None |}
    | RecordResult _ _ r => match get (entries j) k with Some e => Some {| received := received e; response := Some r |} | None => None end
    | Acknowledge _ _ => None
    end
  else get (entries j) k.
Proof.
  intros H. pose proof (key_of_wf p H) as Hk. destruct p as [o en]. destruct o as [c i t|c i r|c i]; cbn [fst snd record_of] in *.
  - rewrite (apply_received (key_of (Begin c i t))) by (apply ReceivedRecord_ok; apply H || done). cbn [entries]. by rewrite get_set.
  - rewrite apply_result by apply H. cbn [entries]. destruct (decide _) as [<-|Hne].
    + destruct (get (entries j) _) as [e|] eqn:E; [|done]. by rewrite get_set, decide_True.
    + destruct (get (entries j) (key_of _)) as [e|]; [|done]. by rewrite get_set, decide_False.
  - rewrite apply_acknowledged. cbn [entries]. by rewrite get_remove.
Qed.

(** How an operation that appends the record [v] can end, from the memory [j] and the file [rs]. *)
Definition settled {A} (v : json) (j : journal) (rs : list json) (r : res A) (w : world journal) : Prop :=
  match r with
  | Ret _ => exists rs', clean w rs' /\ (mem w = apply_record j v /\ rs' = rs ++ [v] \/
      entries (mem w) = entries (apply_record j v) /\ mem w = replay rs')
  | Throw _ => exists rs', clean w rs' /\ (mem w = j /\ (rs' = rs \/ rs' = rs ++ [v]) \/
      entries (mem w) = entries (apply_record j v) /\ (rs' = rs ++ [v] \/ entries (replay rs') = entries (mem w)))
  | Died => exists l, recovers w l /\ (l = rs \/ l = rs ++ [v] \/ entries (replay l) = entries (apply_record j v))
  end.

Lemma log_spec {A} v upd (k : IO journal A) rs w : clean w rs -> json_ok v -> is_obj v = true -> no_short w ->
  upd (counted (mem w)) = apply_record (mem w) v ->
  (forall w', clean w' (rs ++ [v]) -> mem w' = apply_record (mem w) v -> wp k (settled v (mem w) rs) w') ->
  wp (_ ← append path v; _ ← write upd; k) (settled v (mem w) rs) w.
Proof.
  intros Hc Hv Ho Hn Hu Hk. apply io_bind, (io_mono _ _ _ _ (append_spec v rs w Hc Hv Ho Hn)).
  intros [[]|e|] w' H'; cbn in H'.
  - apply io_bind, wp_write, Hk; [apply H'|]. cbn. by rewrite (proj2 H').
  - destruct H' as [[H1|H1] H2]; [exists rs|exists (rs ++ [v])]; (split; [done|left; auto]).
  - destruct H' as [H1|H1]; [exists rs|exists (rs ++ [v])]; auto.
Qed.

Lemma maybe_compact (cond : journal -> bool) en v j rs w :
  clean w (rs ++ [v]) -> mem w = apply_record j v -> entries_ok (entries (apply_record j v)) -> js_wf (now en) ->
  wp (if cond (mem w) then compact path win32 pid en else mret tt) (settled v j rs) w.
Proof.
  intros Hc Hm He Hen. destruct (cond (mem w)).
  - rewrite <- Hm in He. apply (io_mono _ _ _ _ (compact_spec en _ w Hc He Hen)). cbv zeta. intros [[]|e|] w' H'; rewrite Hm in *.
    + destruct H' as [H1 H2]. exists (live_records (now en) (entries (apply_record j v))). split; [done|]. right. rewrite H2. split; [done|]. by rewrite replay_live.
    + destruct H' as [[H1|H1] H2]; eexists; (split; [exact H1|right]); rewrite H2; [by split; [|left]|]. split; [done|]. right. by rewrite replay_live.
    + destruct H' as [[H1|H1] H2]; eexists; (split; [apply clean_recovers, H1|]); [by right; left|]. right. right. by rewrite replay_live.
  - apply io_ret. exists (rs ++ [v]). split; [done|]. by left.
Qed.

(** An operation answers without a change, or appends its record. *)
Lemma perform_spec p w rs : operation_ok p -> clean w rs -> entries_ok (entries (mem w)) -> no_short w ->
  wp (perform p.1 p.2) (fun r w' =>
    (w' = w /\ r <> Died /\ r <> Ret (Began BNew) /\ r <> Ret Recorded) \/
    (appends p.1 (mem w) /\ settled (record_of p.1 p.2) (mem w) rs r w')) w.
Proof.
  intros Hp Hc He Hn. destruct (record_of_ok p Hp) as [Hv Ho]. pose proof (apply_record_ok _ _ Hv Ho He) as He'. pose proof (key_of_wf p Hp) as Hkey.
  destruct p as [o en]. destruct o as [c i t|c i r|c i]; cbn [fst snd perform] in *.
  - unfold begin. apply io_bind, io_bind, wp_read. unfold lookup. change (createCommandIdempotencyKey c i) with (key_of (Begin c i t)).
    destruct (get (entries (mem w)) _) as [[v [r|]]|] eqn:E; [by left; split_and!|by left; split_and!|].
    apply (io_mono _ (settled (record_of (Begin c i t) en) (mem w) rs)); [|intros [a|e|] w' H'; [apply io_ret|..]; by right].
    apply log_spec; try done. intros w' H1 H2. apply io_ret. exists (rs ++ [record_of (Begin c i t) en]). by split; [|left].
  - unfold recordResult. apply io_bind, io_bind, wp_read. change (createCommandIdempotencyKey c i) with (key_of (RecordResult c i r)).
    destruct (get (entries (mem w)) _) as [e|] eqn:E; [|by left; split_and!].
    apply (io_mono _ (settled (record_of (RecordResult c i r) en) (mem w) rs)); [|intros [a|e'|] w' H'; [apply io_ret|..]; right; (split; [by eexists|done])].
    apply log_spec; try done.
    + cbn [record_of]. rewrite apply_result by apply Hp. by rewrite E.
    + intros w' H1 H2. exact (maybe_compact (fun j => COMPACT_AFTER_RECORDS <=? recordCount j)%Z en _ _ _ w' H1 H2 He' (proj1 Hp)).
  - unfold acknowledge. apply io_bind, io_bind, wp_read. change (createCommandIdempotencyKey c i) with (key_of (Acknowledge c i)). unfold has.
    case_bool_decide as E; [|by left; split_and!]. cbn [negb].
    apply (io_mono _ (settled (record_of (Acknowledge c i) en) (mem w) rs)); [|intros [a|e'|] w' H'; [apply io_ret|..]; by right].
    apply log_spec; try done. intros w' H1 H2. exact (maybe_compact (fun j => Nat.eqb (length (entries j)) 0 || (COMPACT_AFTER_RECORDS <=? recordCount j)%Z) en _ _ _ w' H1 H2 He' (proj1 Hp)).
Qed.

Lemma frugal_append v : frugal (append path v).
Proof. unfold append, openAppend, sys_nop. auto 12 with frugal. Qed.
Lemma frugal_compact en : frugal (compact path win32 pid en).
Proof.
  apply frugal_bind; [apply frugal_read|]. intros rs. apply frugal_bind; [|intros _; apply frugal_write].
  by apply frugal_writeFileAtomicSync.
Qed.
Lemma frugal_perform o en : frugal (perform o en).
Proof.
  pose proof frugal_append as Ha. pose proof frugal_compact as Hc.
  destruct o as [c i t|c i r|c i]; cbn [perform]; (apply frugal_bind; [|intros; apply frugal_ret]); (apply frugal_bind; [apply frugal_read|intros [|]]);
    cbn [negb]; auto with frugal; repeat (apply frugal_bind; [auto with frugal|intros ?]); auto with frugal; case_match; auto with frugal.
Qed.

Lemma answer_shape o en w a w' : perform o en w = (Ret a, w') ->
  match o with Begin _ _ _ => exists b, a = Began b | RecordResult _ _ _ => a = Recorded | Acknowledge _ _ => a = Acknowledged end.
Proof.
  assert (Hb : forall B (m : IO journal B) (f : B -> answer), (r ← m; mret (f r)) w = (Ret a, w') -> exists r, a = f r).
  { intros B m f. unfold mbind, IO_bind. destruct (m w) as [[r|e|] w1]; [|done..]. intros [= <- _]. by exists r. }
  destruct o as [c i t|c i r|c i]; cbn [perform]; [by intros ?%Hb|by intros [? ?]%Hb..].
Qed.

(** ** What is known about one command *)

Section one_command.
Local Open Scope nat_scope.
Variables (k : jsstr) (P : json -> Prop).

(** Level 1: the command is there; level 2: so is a response. *)
Definition known (n : nat) (es : jsmap jsstr JournalEntry) : Prop :=
  match n with O => True | 1 => is_Some (get es k) | _ => exists v r, get es k = Some {| received := v; response := Some r |} end.
Definition covers (j j' : journal) : Prop := forall n, known n (entries j) -> known n (entries j').
Definition answers (j : journal) : Prop := forall v r, get (entries j) k = Some {| received := v; response := Some r |} -> P r.
(** Operations that do not acknowledge the command, and record only such responses for it. *)
Definition tame (o : operation) : Prop :=
  key_of o = k -> match o with Acknowledge _ _ => False | RecordResult _ _ r => P r | Begin _ _ _ => True end.

Lemma covers_trans a b c : covers a b -> covers b c -> covers a c.
Proof. unfold covers. auto. Qed.
Lemma known_1 n es : known (S n) es -> known 1 es.
Proof. destruct n as [|n]; [done|]. intros (v & r & H). cbn. by rewrite H. Qed.
Lemma known_entry es e : get es k = Some e -> forall n, known n es <-> match n with O | 1 => True | _ => is_Some (response e) end.
Proof.
  intros H [|[|n]]; cbn; rewrite ?H; [done|by split|]. split; [intros (v & r & [= ->]); by eexists|]. destruct e as [v [r|]]; [|by intros []]. intros _. by exists v, r.
Qed.

Lemma answers_applied p j : operation_ok p -> tame p.1 -> answers j -> answers (apply_record j (record_of p.1 p.2)).
Proof.
  intros Hp Ht Hj v r. rewrite get_applied by done. destruct (decide _) as [E|]; [|apply Hj]. specialize (Ht E).
  destruct (p.1) as [| |]; [done| |done]. destruct (get (entries j) k); [|done]. by intros [= <- <-].
Qed.
Lemma covers_applied p j j' : operation_ok p -> covers j j' -> covers (apply_record j (record_of p.1 p.2)) (apply_record j' (record_of p.1 p.2)).
Proof.
  intros Hp Hc n Hn. destruct (decide (key_of p.1 = k)) as [E|E].
  - pose proof (get_applied p j k Hp) as H1. pose proof (get_applied p j' k Hp) as H2. rewrite decide_True in H1, H2 by done.
    destruct n as [|n]; [done|]. pose proof (known_1 _ _ Hn) as [e He]. rewrite H1 in He. destruct p.1 as [c i t|c i r|c i].
    + rewrite (known_entry _ _ H1) in Hn. by rewrite (known_entry _ _ H2).
    + destruct (get (entries j) k) as [e0|] eqn:E0; [|done]. destruct (Hc 1) as [e' He']; [cbn; by rewrite E0|]. rewrite He' in H2.
      rewrite (known_entry _ _ H2). by destruct n.
    + done.
  - assert (Hsame : forall j n, known n (entries (apply_record j (record_of p.1 p.2))) <-> known n (entries j)).
    { intros j0 [|[|m]]; cbn; [done|..]; by rewrite get_applied, decide_False. }
    rewrite Hsame in *. by apply Hc.
Qed.
(** A record that is in the file and not yet in memory takes nothing away. *)
Lemma covers_ahead p j j' : operation_ok p -> tame p.1 -> appends p.1 j -> covers j j' -> covers j (apply_record j' (record_of p.1 p.2)).
Proof.
  intros Hp Ht Ha Hc. destruct (decide (key_of p.1 = k)) as [E|E].
  - specialize (Ht E). intros n Hn. pose proof (get_applied p j' k Hp) as H2. rewrite decide_True in H2 by done. unfold appends in Ha. rewrite E in Ha.
    destruct n as [|n]; [done|]. pose proof (known_1 _ _ Hn) as [e He]. destruct p.1 as [c i t|c i r|c i]; [congruence| |done].
    destruct (Hc 1) as [e' He']; [cbn; by rewrite He|]. rewrite He' in H2. rewrite (known_entry _ _ H2). by destruct n.
  - intros n Hn. apply Hc in Hn. destruct n as [|[|n]]; cbn in *; [done|..]; by rewrite get_applied, decide_False.
Qed.
Lemma known_applied p j n : operation_ok p -> tame p.1 -> appends p.1 j -> known n (entries j) -> known n (entries (apply_record j (record_of p.1 p.2))).
Proof. intros Hp Ht Ha. apply (covers_ahead p j j Hp Ht Ha). by intros m. Qed.

Definition standing (w : world journal) (rs : list json) : Prop :=
  clean w rs /\ entries_ok (entries (mem w)) /\ no_short w /\ covers (mem w) (replay rs) /\ answers (mem w) /\ answers (replay rs).

Lemma answers_same j j' : entries j = entries j' -> answers j -> answers j'.
Proof. unfold answers. by intros ->. Qed.
Lemma covers_same j j' : entries j = entries j' -> covers j j'.
Proof. unfold covers. by intros ->. Qed.
Lemma replay_snoc rs v : replay (rs ++ [v]) = apply_record (replay rs) v.
Proof. unfold replay. by rewrite foldl_app. Qed.

(** One operation of a life: nothing known is lost, in memory or on the disk. *)
Lemma operation_stands p w rs : operation_ok p -> tame p.1 -> standing w rs ->
  let '(r, w') := perform p.1 p.2 w in
  match r with
  | Died => exists l, recovers w' l /\ answers (replay l) /\ covers (mem w) (replay l)
  | _ => exists rs', standing w' rs' /\ covers (mem w) (mem w') /\
      (key_of p.1 = k -> r = Ret (Began BNew) -> known 1 (entries (mem w'))) /\
      (key_of p.1 = k -> r = Ret Recorded -> known 2 (entries (mem w')))
  end.
Proof.
  intros Hp Ht (Hc & He & Hn & Hcov & Ha & Har). pose proof (perform_spec p w rs Hp Hc He Hn) as H. unfold wp in H.
  pose proof (no_short_frugal _ w (frugal_perform p.1 p.2) Hn) as Hn'. destruct (record_of_ok p Hp) as [Hv Ho].
  pose proof (apply_record_ok _ _ Hv Ho He) as He'. destruct (perform p.1 p.2 w) as [r w'] eqn:Er. cbn [fst snd] in *.
  set (v := record_of p.1 p.2) in *. set (j := mem w) in *.
  pose proof (covers_applied p j (replay rs) Hp Hcov) as Hca. pose proof (answers_applied p j Hp Ht Ha) as Haa.
  pose proof (answers_applied p (replay rs) Hp Ht Har) as Haar. fold v in Hca, Haa, Haar. rewrite <- replay_snoc in Hca, Haar.
  destruct H as [(-> & H1 & H2 & H3)|[Happ H]].
  { destruct r as [a|e|]; [| |done]; exists rs; (split; [by split_and!|split; [by intros n|]]); split; intros _ ?; congruence. }
  pose proof (covers_ahead p j (replay rs) Hp Ht Happ Hcov) as Hah. fold v in Hah. rewrite <- replay_snoc in Hah.
  assert (Hadv : covers j (apply_record j v)) by (intros n Hk; by apply known_applied).
  assert (Hshape : forall a, r = Ret a -> match p.1 with Begin _ _ _ => exists b, a = Began b | RecordResult _ _ _ => a = Recorded | _ => a = Acknowledged end).
  { intros a ->. by apply (answer_shape p.1 p.2 w a w'). }
  assert (Hentry : forall es, es = entries (apply_record j v) ->
    (key_of p.1 = k -> r = Ret (Began BNew) -> known 1 es) /\ (key_of p.1 = k -> r = Ret Recorded -> known 2 es)).
  { intros es ->. pose proof (get_applied p j k Hp) as Hg. fold v in Hg. unfold appends in Happ.
    split; intros E Hr; specialize (Hshape _ Hr); rewrite decide_True in Hg by done; rewrite E in Happ; destruct p.1 as [c i t|c i r'|c i];
      try (by destruct Hshape); try done; cbn [known]; rewrite Hg; [by eexists|].
    destruct Happ as [e He0]. rewrite He0. by eexists _, _. }
  destruct r as [a|e|]; cbn [settled] in H.
  - destruct H as (rs' & Hc' & H). exists rs'. assert (Hm : entries (mem w') = entries (apply_record j v)) by (by destruct H as [[-> _]|[H _]]).
    split; [|split; [unfold covers; rewrite Hm; exact Hadv|by apply Hentry]]. split_and!; [done|by rewrite Hm|done|..].
    + destruct H as [[-> ->]|[_ H]]; [done|]. rewrite H. by intros n.
    + by eapply answers_same.
    + destruct H as [[_ ->]|[_ H]]; [done|]. rewrite <- H. by eapply answers_same.
  - destruct H as (rs' & Hc' & H). exists rs'. destruct H as [[Hm H]|[Hm H]].
    + rewrite Hm. split; [|split; [by intros n|split; done]]. split_and!; [done|by rewrite Hm|done|..]; rewrite ?Hm; [|done|]; by destruct H as [->| ->].
    + split; [|split; [unfold covers; rewrite Hm; exact Hadv|split; done]]. split_and!; [done|by rewrite Hm|done|..].
      * destruct H as [->|H]; [eapply covers_trans; [by apply covers_same|done]|by apply covers_same].
      * by eapply answers_same.
      * destruct H as [->|H]; [done|]. eapply answers_same; [|exact Haa]. by rewrite H.
  - destruct H as (l & Hl & H). exists l. destruct H as [->|[->|H]]; [by split_and!..|]. split; [done|].
    split; [by eapply answers_same|]. eapply covers_trans; [exact Hadv|by apply covers_same].
Qed.

(** A life: what is known at its start, and what it answered, is there for its successor. *)
Lemma life_stands ops : Forall operation_ok ops -> Forall (fun p => tame p.1) ops -> forall w rs, standing w rs ->
  let '(answered, w') := life ops w in exists l, recovers w' l /\ answers (replay l) /\
    covers (mem w) (replay l) /\
    (forall o, key_of o = k -> (o, Ret (Began BNew)) ∈ answered -> known 1 (entries (replay l))) /\
    (forall o, key_of o = k -> (o, Ret Recorded) ∈ answered -> known 2 (entries (replay l))).
Proof.
  induction ops as [|p ops IH]; intros Hok Htame w rs Hw; cbn [life].
  { exists rs. destruct Hw as (Hc & _ & _ & Hcov & _ & Ha). split; [by apply clean_recovers|]. split_and!; [done..| |]; intros o _ ?%elem_of_nil; done. }
  apply list.Forall_cons in Hok as [Hp Hok], Htame as [Ht Htame]. pose proof (operation_stands p w rs Hp Ht Hw) as H.
  destruct p as [o en]. cbn [fst snd] in *. destruct (perform o en w) as [r w1].
  assert (Hgo : r <> Died -> let '(answered, w') := (let '(rs2, w2) := life ops w1 in ((o, r) :: rs2, w2)) in exists l, recovers w' l /\ answers (replay l) /\
    covers (mem w) (replay l) /\
    (forall o, key_of o = k -> (o, Ret (Began BNew)) ∈ answered -> known 1 (entries (replay l))) /\
    (forall o, key_of o = k -> (o, Ret Recorded) ∈ answered -> known 2 (entries (replay l)))).
  { intros Hr. assert (exists rs', standing w1 rs' /\ covers (mem w) (mem w1) /\ (key_of o = k -> r = Ret (Began BNew) -> known 1 (entries (mem w1))) /\
      (key_of o = k -> r = Ret Recorded -> known 2 (entries (mem w1)))) as (rs' & H1 & H2 & H3 & H4) by (by destruct r).
    specialize (IH Hok Htame w1 rs' H1). destruct (life ops w1) as [rs2 w2]. destruct IH as (l & Hl & Ha & Hc & Hb & Hr2). exists l.
    split; [done|]. split; [done|]. split; [by eapply covers_trans|].
    split; intros o' Ho' [Heq|Hin]%elem_of_cons; [injection Heq as -> <-; by apply Hc, H3|by eapply Hb|injection Heq as -> <-; by apply Hc, H4|by eapply Hr2]. }
  destruct r as [a|e|]; [by apply Hgo..|]. destruct H as (l & Hl & Ha & Hc). exists l. split_and!; [done..| |]; intros o' _ ?%list_elem_of_singleton; done.
Qed.
End one_command.
End operations.

(** ** Theorems *)

Section theorems.
Variables (path : jsstr) (win32 : bool) (pid : jsstr).
Local Open Scope nat_scope.

(** C26. One life of a supervisor and its restart: when it starts on a file that ends with a whole line ([clean]: a
    new file, or one no death has cut a write short in), the journal that is read after it forgets nothing. Whatever
    the operations, refused calls and a death at any byte of any write or between any two calls, it knows every
    command that was answered as new and not acknowledged, has a result for every command whose result was
    recorded, and no results but those. The clean start is needed: a supervisor that starts on the torn line a
    death left forgets the first command it is given ([torn_append_forgets_next]). Writes that get less out than
    they were given without an error are excluded too ([no_short]). *)
Theorem journal_never_forgets (ops : list (operation * env)) (w : world journal) (rs : list json) (c i : jsstr)
    (Hfile : clean path w rs) (Hmem : mem w = replay rs) (Hshort : no_short w) (Hops : Forall operation_ok ops)
    (Hc : js_wf c) (Hi : js_wf i) (Hack : Forall (fun p => p.1 <> Acknowledge c i) ops) :
  let '(answered, w') := life path win32 pid ops w in
  exists j, reopen path w' = Some j /\
    (forall t, (Begin c i t, Ret (Began BNew)) ∈ answered -> lookup j c i <> None) /\
    (forall r, (RecordResult c i r, Ret Recorded) ∈ answered -> exists r', lookup j c i = Some (BComplete r')) /\
    (forall r, lookup j c i = Some (BComplete r) ->
       lookup (mem w) c i = Some (BComplete r) \/ exists en, (RecordResult c i r, en) ∈ ops).
Proof.
  set (k := createCommandIdempotencyKey c i).
  set (P := fun r => lookup (mem w) c i = Some (BComplete r) \/ exists en, (RecordResult c i r, en) ∈ ops).
  assert (Hlook : forall j r, lookup j c i = Some (BComplete r) <-> exists v, get (entries j) k = Some {| received := v; response := Some r |}).
  { intros j r. unfold lookup. fold k. destruct (get (entries j) k) as [[v [r'|]]|]; naive_solver. }
  assert (Htame : Forall (fun p => tame k P p.1) ops).
  { rewrite list.Forall_forall in Hops, Hack |- *. intros [o en] Hin Hk. pose proof (Hops _ Hin) as Hok. pose proof (Hack _ Hin) as Hna.
    destruct o as [c' i' t|c' i' r|c' i']; cbn in *; [done| |]; destruct Hok as (_ & Hc' & Hi'); [destruct Hi' as [Hi' _]|];
      apply key_inj in Hk as [-> ->]; try done. right. by exists en. }
  assert (Hst : standing path k P w rs).
  { refine (conj Hfile (conj _ (conj Hshort (conj _ (conj _ _))))); [rewrite Hmem; apply replay_ok, Hfile|rewrite Hmem; by intros n|..];
      intros v r Hg; left; apply Hlook; rewrite ?Hmem in *; by exists v. }
  pose proof (life_stands path win32 pid k P ops Hops Htame w rs Hst) as H. destruct (life path win32 pid ops w) as [answered w'].
  destruct H as (l & Hl & Ha & _ & Hb & Hr). exists (replay l). split; [by apply recovers_reopen|]. split_and!.
  - intros t Hin. destruct (Hb (Begin c i t) eq_refl Hin) as [e He]. unfold lookup. fold k. rewrite He. by destruct e as [v [r|]].
  - intros r Hin. destruct (Hr (RecordResult c i r) eq_refl Hin) as (v & r' & Hg). exists r'. apply Hlook. by exists v.
  - intros r Hin. apply Hlook in Hin as [v Hg]. by apply (Ha v r).
Qed.

(** C27. Reading the journal again restores it. From a file that ends with a whole line ([clean]; a torn line would
    swallow the next record, [torn_append_forgets_next]), and as long as no call fails or writes less than it was
    given, the journal a restarted supervisor reads is the one the supervisor had in memory, entries in their order
    and count of records, across compactions. *)
Theorem journal_reload (ops : list (operation * env)) (w : world journal) (rs : list json)
    (Hfile : clean path w rs) (Hmem : mem w = replay rs) (Hshort : no_short w) (Hops : Forall operation_ok ops) :
  let '(answered, w') := life path win32 pid ops w in
  Forall (fun a => exists v, a.2 = Ret v) answered -> reopen path w' = Some (mem w').
Proof.
  revert w rs Hfile Hmem Hshort. induction Hops as [|p ops Hp Hops IH]; intros w rs Hfile Hmem Hshort; cbn [life].
  { intros _. rewrite Hmem. by apply recovers_reopen, clean_recovers. }
  destruct Hfile as [Hf Hrs]. assert (He : entries_ok (entries (mem w))) by (rewrite Hmem; by apply replay_ok).
  pose proof (perform_spec path win32 pid p w rs Hp (conj Hf Hrs) He Hshort) as H. unfold wp in H.
  pose proof (no_short_frugal _ w (frugal_perform path win32 pid p.1 p.2) Hshort) as Hn.
  destruct p as [o en]. cbn [fst snd] in *. destruct (perform path win32 pid o en w) as [r w1]. cbn [fst snd] in *.
  destruct r as [a|e|]; [|destruct (life path win32 pid ops w1); by intros [[v ?] _]%list.Forall_cons|by intros [[v ?] _]%list.Forall_cons].
  assert (exists rs', clean path w1 rs' /\ mem w1 = replay rs') as (rs' & H1 & H2).
  { destruct H as [(-> & _)|[_ (rs' & Hc & [[-> ->]|[_ ->]])]]; [by exists rs|exists (rs ++ [record_of o en])|by exists rs'].
    split; [done|]. by rewrite Hmem, replay_snoc. }
  specialize (IH w1 rs' H1 H2 Hn). destruct (life path win32 pid ops w1) as [rs2 w2]. intros [_ Hall]%list.Forall_cons. by apply IH.
Qed.

Lemma parse_two_braces s : JSON_parse (123%N :: 123%N :: s) = None.
Proof.
  unfold JSON_parse. cbn [length]. replace (2 * S (S (length s)) + 2) with (S (S (2 * length s + 4))) by lia. by cbn.
Qed.
Lemma line_behind_torn rs v : objects rs -> json_ok v -> is_obj v = true ->
  load_lines (lines_of (buffer_toString (log_bytes rs ++ [123%N] ++ line_bytes v))) empty_journal = Some (replay rs).
Proof.
  intros Hrs Hv Ho. pose proof (line_text_stringify _ Hv) as Hl.
  assert (Hp : line_text (123%N :: stringify v)) by (apply (line_text_app [123%N]); [by apply line_text_ascii, printable_check|done]).
  assert (Hw : js_wf ((123%N :: stringify v) ++ [LF])) by (apply Forall_app; split; [by apply line_text_wf|by repeat constructor]).
  replace ([123%N] ++ line_bytes v) with (buffer_from ((123%N :: stringify v) ++ [LF])).
  2: { unfold line_bytes. change (123%N :: ?s) with ([123%N] ++ s) at 1. rewrite <- (assoc_L app), (buffer_from_app [123%N]) by by repeat constructor. reflexivity. }
  destruct (log_text_wf rs (objects_ok _ Hrs)) as [Hlw Hlp]. rewrite log_bytes_text by by apply objects_ok.
  rewrite toString_prefix, utf8_round_trip, lines_of_log by (done || (by apply paired_line) || by apply objects_ok).
  rewrite load_lines_log by done. unfold lines_of. rewrite split_on_app_sep by by apply line_text_LF.
  destruct v as [| | | | |fs]; try discriminate. rewrite stringify_obj. cbn [load_lines app]. by rewrite parse_two_braces.
Qed.

Lemma new_journal_present w b j : fates w = [] -> files w !! path = Some b -> load_lines (lines_of (buffer_toString b)) empty_journal = Some j ->
  new_journal path w = (Ret tt, {| files := files w; mem := j; fates := [] |}).
Proof.
  intros Hw Hf Hl. destruct w as [fs m ft]. cbn in Hw, Hf. subst ft. unfold new_journal, load, mbind, IO_bind. cbn.
  unfold try_catch, readFileSync, sys. cbn. rewrite Hf. cbn. change ({| entries := []; recordCount := 0 |}) with empty_journal. by rewrite Hl.
Qed.
Lemma reopen_present w b j : files w !! path = Some b -> load_lines (lines_of (buffer_toString b)) empty_journal = Some j -> reopen path w = Some j.
Proof. intros Hf Hl. unfold reopen. by rewrite (new_journal_present _ b j). Qed.

(** A torn append makes the next receipt be forgotten. When a death left the first byte of a record in the
    file, a restarted supervisor appends to it: the next command is answered as new, its record joins the torn one
    into a line that is no JSON text, and after the next restart the command is unknown, so it would be
    dispatched again. *)
Theorem torn_append_forgets_next (rs : list json) (c i t : jsstr) (en : env) (w : world journal)
    (Hfile : files w !! path = Some (log_bytes rs ++ [123%N])) (Hrs : objects rs) (Hworks : fates w = [])
    (Hok : operation_ok (Begin c i t, en)) (Hnew : lookup (replay rs) c i = None) :
  exists w1 w2 j, new_journal path w = (Ret tt, w1) /\ begin path c i t en w1 = (Ret BNew, w2) /\
    reopen path w2 = Some j /\ lookup j c i = None.
Proof.
  assert (Htorn : tail_loads [123%N] []) by (split; [by rewrite list_elem_of_singleton|done]).
  assert (Hh : holds (Some (log_bytes rs ++ [123%N])) rs [123%N]) by (exists []; split; [by left|done]).
  pose proof (load_holds _ _ _ _ Hh Hrs Htorn) as Hload. rewrite app_nil_r in Hload.
  set (v := record_of (Begin c i t) en). destruct (record_of_ok (Begin c i t, en) Hok) as [Hv Ho]. fold v in Hv, Ho.
  set (w1 := {| files := files w; mem := replay rs; fates := [] |}).
  set (f2 := put path (line_bytes v) (files w)).
  set (w2 := {| files := f2; mem := apply_record (replay rs) v; fates := [] |}).
  exists w1, w2, (replay rs). split_and!.
  - by apply new_journal_present with (log_bytes rs ++ [123%N]).
  - unfold begin, mbind, IO_bind. cbn. rewrite Hnew. unfold append, openAppend, sys, mbind, IO_bind. cbn. rewrite Hfile. cbn. unfold w2.
    reflexivity.
  - apply (reopen_present w2 ((log_bytes rs ++ [123%N]) ++ line_bytes v)); [by unfold w2, f2; cbn [files]; rewrite put_lookup, Hfile|].
    rewrite <- (assoc_L app). by apply line_behind_torn.
  - exact Hnew.
Qed.
End theorems.

(** ** Examples *)

Definition ex_env : env := {| now := js "2026-01-01T00:00:00.000Z"; uuid := js "u" |}.
Definition ex_response : json := JObj [(js "type", JStr (js "response")); (js "ok", JBool true)].
Definition ex_path : jsstr := js "command-journal.jsonl".
Definition ex_open (fates : list fate) : world journal := {| files := ∅; mem := empty_journal; fates := fates |}.
(** A command is received; the process dies in the write of its result. *)
Definition ex_ops : list (operation * env) := [(Begin (js "a") (js "1") (js "prompt"), ex_env); (RecordResult (js "a") (js "1") ex_response, ex_env)].
Definition ex_fates : list fate := [Works; Works; Works; Works; Works; Works; Dies 20].

Lemma ex_open_clean fs : clean ex_path (ex_open fs) [] /\ mem (ex_open fs) = replay [].
Proof. split; [split; [exists []; by split; [left|]|constructor]|done]. Qed.
Lemma ex_ops_ok : Forall operation_ok ex_ops.
Proof.
  repeat (apply Forall_cons; split; [split; [by apply js_wf_check|]|]); [split_and!; by apply js_wf_check| |apply Forall_nil_2].
  split; [by apply js_wf_check|]. split; [by apply js_wf_check|]. split; [|by vm_compute]. apply fields_ok; [by vm_compute|].
  repeat constructor; by apply js_wf_check.
Qed.

Lemma journal_never_forgets_witness :
  let '(answered, w') := life ex_path false (js "1") ex_ops (ex_open ex_fates) in
  answered = [(Begin (js "a") (js "1") (js "prompt"), Ret (Began BNew)); (RecordResult (js "a") (js "1") ex_response, Died)] /\
  exists j, reopen ex_path w' = Some j /\ lookup j (js "a") (js "1") <> None.
Proof.
  pose proof (journal_never_forgets ex_path false (js "1") ex_ops (ex_open ex_fates) [] (js "a") (js "1")
    (proj1 (ex_open_clean ex_fates)) (proj2 (ex_open_clean ex_fates)) ltac:(by repeat constructor) ex_ops_ok
    ltac:(by apply js_wf_check) ltac:(by apply js_wf_check) ltac:(by repeat constructor)) as H.
  destruct (life _ _ _ _ _) as [answered w'] eqn:E. assert (Ha : answered = (life ex_path false (js "1") ex_ops (ex_open ex_fates)).1) by by rewrite E.
  vm_compute in Ha. subst answered. split; [by vm_compute|]. destruct H as (j & Hj & Hb & _). exists j. split; [done|]. apply (Hb (js "prompt")).
  apply elem_of_cons. by left.
Defined.

Lemma journal_reload_witness :
  let '(answered, w') := life ex_path false (js "1") ex_ops (ex_open []) in
  length (entries (mem w')) = 1%nat /\ reopen ex_path w' = Some (mem w').
Proof.
  pose proof (journal_reload ex_path false (js "1") ex_ops (ex_open []) [] (proj1 (ex_open_clean [])) (proj2 (ex_open_clean []))
    ltac:(by constructor) ex_ops_ok) as H.
  destruct (life _ _ _ _ _) as [answered w'] eqn:E. assert (Ha : (answered, w') = life ex_path false (js "1") ex_ops (ex_open [])) by by rewrite E.
  clear E. vm_compute in Ha. injection Ha as Ha Hw. split; [by rewrite Hw|]. apply H. rewrite Ha. repeat constructor; by eexists.
Defined.

Lemma torn_append_forgets_next_witness :
  exists w1 w2 j, new_journal ex_path {| files := {[ ex_path := log_bytes [] ++ [123%N] ]}; mem := empty_journal; fates := [] |} = (Ret tt, w1) /\
    begin ex_path (js "a") (js "1") (js "prompt") ex_env w1 = (Ret BNew, w2) /\ reopen ex_path w2 = Some j /\ lookup j (js "a") (js "1") = None.
Proof.
  apply (torn_append_forgets_next ex_path [] (js "a") (js "1") (js "prompt") ex_env); [done|constructor|done| |by vm_compute].
  exact (proj1 (proj1 (Forall_cons _ _ _) ex_ops_ok)).
Defined.
