(* ===== verification/Semaphore.v ===== *)
(** * The counting semaphore (utils/semaphore.ts)

    Permits are handed out in the order of the calls. A call that finds a
    permit takes it at once; otherwise it waits in a queue, from which an abort
    removes it; a release hands the permit to the first waiter. Each event is
    one turn of the event loop: nothing else runs inside it. *)

(* Source aliases:
   SP = src/packages/coding-agent/src/utils/semaphore.ts *)

From S2P Require Import Prelude.
Local Open Scope Z_scope.

(** A call of [run]. *)
Abbreviation task := nat.

(** SP 5-14 Semaphore. With the tasks that hold a permit: those between the return of [acquire] and their release. *)
Record Semaphore := { available : Z; waiters : list task; holding : list task }.

(** SP 9-14 Semaphore.constructor. [None] when it throws. *)
Definition new_semaphore (permits : Z) : option Semaphore :=
  if permits <? 1 then None else Some {| available := permits; waiters := []; holding := [] |}.

(** SP 16-18 Semaphore.queueLength. *)
Definition queueLength (s : Semaphore) : nat := length (waiters s).

(** What happens to a task. *)
Inductive notice := Acquired (t : task) | Rejected (t : task).

(** SP 20-43 Semaphore.acquire. *)
Definition acquire (t : task) (aborted : bool) (s : Semaphore) : list notice * Semaphore :=
  if aborted then ([Rejected t], s)
  else if 0 <? available s
  then ([Acquired t], {| available := available s - 1; waiters := waiters s; holding := holding s ++ [t] |})
  else ([], {| available := available s; waiters := waiters s ++ [t]; holding := holding s |}).

(** SP 35-39 Semaphore.acquire.onAbort. *)
Definition onAbort (t : task) (s : Semaphore) : list notice * Semaphore :=
  if bool_decide (t ∈ waiters s)
  then ([Rejected t], {| available := available s; waiters := filter (fun t' => t' <> t) (waiters s); holding := holding s |})
  else ([], s).

(** SP 45-52 Semaphore.release. By the task [t], which holds a permit. *)
Definition release (t : task) (s : Semaphore) : list notice * Semaphore :=
  let rest := filter (fun t' => t' <> t) (holding s) in
  match waiters s with
  | next :: ws => ([Acquired next], {| available := available s; waiters := ws; holding := rest ++ [next] |})
  | [] => ([], {| available := available s + 1; waiters := []; holding := rest |})
  end.

(** SP 54-62 Semaphore.run. The events of the calls of [run]: a call, the abort of its signal, the end of its [fn]. *)
Inductive event := Call (t : task) (aborted : bool) | Abort (t : task) | Settle (t : task).

(** SP 55-62 Semaphore.run. *)
Definition run_event (e : event) (s : Semaphore) : list notice * Semaphore :=
  match e with
  | Call t aborted => acquire t aborted s
  | Abort t => onAbort t s
  | Settle t => release t s
  end.

Fixpoint run_events (es : list event) (s : Semaphore) : list notice * Semaphore :=
  match es with
  | [] => ([], s)
  | e :: es => let '(n, s1) := run_event e s in let '(ns, s2) := run_events es s1 in (n ++ ns, s2)
  end.

(** What can happen next: a task calls [run] once, and only a task that holds a permit settles. *)
Definition called (es : list event) : list task := omap (fun e => match e with Call t false => Some t | _ => None end) es.
Definition enabled (e : event) (s : Semaphore) : Prop := match e with Settle t => t ∈ holding s | _ => True end.
Inductive trace : list event -> Semaphore -> Prop :=
| trace_nil s : trace [] s
| trace_cons e es s : enabled e s -> trace es (run_event e s).2 -> trace (e :: es) s.

Definition acquired (ns : list notice) : list task := omap (fun n => match n with Acquired t => Some t | _ => None end) ns.

(** ** The invariant *)

(** [arrived] are the tasks that called so far, [got] those that got a permit, both in order. *)
Record sound (permits : Z) (arrived got : list task) (s : Semaphore) : Prop := {
  s_permits : available s + Z.of_nat (length (holding s)) = permits;
  s_nonneg : 0 <= available s;
  s_waiting : waiters s <> [] -> available s = 0;
  s_order : (got ++ waiters s) `sublist_of` arrived;
  s_holds : forall t, t ∈ holding s -> t ∈ got;
  s_nodup : NoDup (holding s) }.

Lemma filter_one (l : list task) t : NoDup l -> t ∈ l -> S (length (filter (fun t' => t' <> t) l)) = length l.
Proof.
  induction 1 as [|x l Hx Hl IH]; intros Ht; [by apply elem_of_nil in Ht|]. rewrite filter_cons. apply elem_of_cons in Ht as [->|Ht].
  - rewrite decide_False by (intros H; by apply H). assert (filter (fun t' => t' <> x) l = l) as ->; [|done].
    clear IH. induction l as [|y l IH]; [done|]. apply not_elem_of_cons in Hx as [H1 H2]. apply list.NoDup_cons in Hl as [_ Hl].
    rewrite filter_cons_True by auto. by rewrite IH.
  - rewrite decide_True by (intros ->; done). cbn. by rewrite IH.
Qed.

Lemma run_event_sound permits arrived got s e : sound permits arrived got s -> enabled e s ->
  NoDup (arrived ++ called [e]) ->
  sound permits (arrived ++ called [e]) (got ++ acquired (run_event e s).1) (run_event e s).2.
Proof.
  intros [H1 H2 H3 H4 H5 H6] He Hn. assert (Hgot : forall t, t ∈ got -> t ∈ arrived) by (intros t Ht; eapply elem_of_sublist; [|exact H4]; set_solver).
  destruct e as [t [|]|t|t]; cbn [run_event acquire called omap list_omap]; rewrite ?app_nil_r.
  - by split.
  - apply list.NoDup_app in Hn as (_ & Hn & _). destruct (0 <? available s) eqn:E; to_prop; cbn.
    + destruct (waiters s) as [|w ws] eqn:Ew; [|exfalso; specialize (H3 ltac:(done)); lia]. split; cbn [available waiters holding].
      * rewrite length_app. cbn. lia.
      * lia.
      * done.
      * rewrite app_nil_r in *. by apply sublist_app.
      * intros t'. rewrite !elem_of_app, list_elem_of_singleton. naive_solver.
      * apply list.NoDup_app. split_and!; [done| |apply NoDup_singleton]. intros t' Ht' ->%list_elem_of_singleton. apply (Hn t); [auto|]. set_solver.
    + rewrite app_nil_r. split; cbn [available waiters holding]; try done.
      * intros _. lia.
      * rewrite (assoc_L app). by apply sublist_app.
  - unfold onAbort. case_bool_decide as Ht; cbn; rewrite app_nil_r; [|by split].
    split; cbn [available waiters holding]; try done.
    + intros Hw. apply H3. intros E. by rewrite E in Hw.
    + etrans; [|exact H4]. apply sublist_app; [done|]. apply sublist_filter.
  - cbn in He. unfold release. pose proof (filter_one _ _ H6 He) as Hlen. assert (Hsub : forall t', t' ∈ filter (fun x => x <> t) (holding s) -> t' ∈ holding s) by (intros t'; by intros [_ ?]%list_elem_of_filter).
    destruct (waiters s) as [|w ws] eqn:Ew; cbn; split; cbn [available waiters holding].
    + lia.
    + lia.
    + done.
    + rewrite ?app_nil_r in H4 |- *. by rewrite app_nil_r.
    + intros t' Ht'. rewrite app_nil_r. auto.
    + by apply list.NoDup_filter.
    + rewrite length_app. cbn. lia.
    + done.
    + intros _. by apply H3.
    + by rewrite <- (assoc_L app).
    + intros t'. rewrite !elem_of_app, list_elem_of_singleton. naive_solver.
    + assert (Hw : w ∉ got).
      { intros Hin. assert (Hnd : NoDup (got ++ w :: ws)) by (eapply sublist_NoDup; [exact Hn|]; by rewrite app_nil_r).
        apply list.NoDup_app in Hnd as (_ & Hnd & _). apply (Hnd w Hin). set_solver. }
      apply list.NoDup_app. split_and!; [by apply list.NoDup_filter| |apply NoDup_singleton]. intros t' Ht' ->%list_elem_of_singleton. auto.
Qed.

Lemma called_cons e es : called (e :: es) = called [e] ++ called es.
Proof. unfold called. change (e :: es) with ([e] ++ es) at 1. by rewrite omap_app. Qed.
Lemma acquired_app a b : acquired (a ++ b) = acquired a ++ acquired b.
Proof. apply omap_app. Qed.

Lemma run_events_sound permits es s arrived got : trace es s -> sound permits arrived got s -> NoDup (arrived ++ called es) ->
  sound permits (arrived ++ called es) (got ++ acquired (run_events es s).1) (run_events es s).2.
Proof.
  intros Ht. revert arrived got. induction Ht as [s|e es s He Ht IH]; intros arrived got Hs Hn.
  { cbn. by rewrite !app_nil_r in *. }
  rewrite called_cons, (assoc_L app) in *. cbn [run_events]. pose proof (run_event_sound _ _ _ _ _ Hs He) as H.
  destruct (run_event e s) as [n s1]. cbn [fst snd] in *. specialize (IH (arrived ++ called [e]) (got ++ acquired n)).
  destruct (run_events es s1) as [ns s2]. cbn [fst snd] in *. rewrite acquired_app, (assoc_L app). apply IH; [|done]. apply H. by apply list.NoDup_app in Hn as (Hn & _).
Qed.

Lemma new_sound permits s : new_semaphore permits = Some s -> 1 <= permits /\ sound permits [] [] s.
Proof.
  unfold new_semaphore. destruct (permits <? 1) eqn:E; to_prop; [done|]. intros [= <-]. split; [done|].
  split; cbn; try done; try lia; constructor.
Qed.

(** ** Theorems *)

(** The semaphore keeps its bound, loses no permit and is fair. After any calls, aborts and settlements, at most
    [permits] tasks hold a permit, and the free and the held ones add up to [permits]; tasks wait only while all
    permits are held; and permits were handed out in the order of the calls, with no task overtaken by a later one. *)
Theorem semaphore_bounded_fifo (permits : Z) (s0 : Semaphore) (es : list event)
    (Hnew : new_semaphore permits = Some s0) (Htrace : trace es s0) (Hcalls : NoDup (called es)) :
  let '(notices, s) := run_events es s0 in
  Z.of_nat (length (holding s)) <= permits /\
  available s + Z.of_nat (length (holding s)) = permits /\
  (waiters s <> [] -> Z.of_nat (length (holding s)) = permits /\ holding s <> []) /\
  acquired notices `sublist_of` called es.
Proof.
  destruct (new_sound _ _ Hnew) as [Hp Hs]. pose proof (run_events_sound permits es s0 [] [] Htrace Hs Hcalls) as [H1 H2 H3 H4 H5 H6].
  destruct (run_events es s0) as [notices s]. cbn [fst snd app] in *. split_and!; [lia|done| |].
  - intros Hw. specialize (H3 Hw). split; [lia|]. intros E. rewrite E in H1. cbn in H1. lia.
  - etrans; [|exact H4]. by apply sublist_inserts_r.
Qed.

Definition settles (es : list event) : nat := length (omap (fun e => match e with Settle t => Some t | _ => None end) es).

(** No waiter starves. A task that waits behind [n] others has its permit after [n + 1] settlements, whatever
    else is called or aborted in between, unless it is aborted itself. *)
Theorem semaphore_serves_waiters (s : Semaphore) (t : task) (ahead behind : list task) (es : list event)
    (Hwait : waiters s = ahead ++ t :: behind) (Hnot : Abort t ∉ es) (Henough : (length ahead < settles es)%nat) :
  Acquired t ∈ (run_events es s).1.
Proof.
  revert s ahead behind Hwait Henough. induction es as [|e es IH]; intros s ahead behind Hw Hn; [cbn in Hn; lia|].
  apply not_elem_of_cons in Hnot as [Hne Hnot]. specialize (IH Hnot). cbn [run_events].
  assert (Hlater : forall ns s1 ahead' behind', run_event e s = (ns, s1) -> waiters s1 = ahead' ++ t :: behind' -> (length ahead' < settles es)%nat ->
    Acquired t ∈ (let '(n, s1) := run_event e s in let '(ns, s2) := run_events es s1 in (n ++ ns, s2)).1).
  { intros ns s1 a b -> Hw1 Hlen. specialize (IH s1 a b Hw1 Hlen). destruct (run_events es s1). cbn in *. set_solver. }
  destruct e as [t' ab|t'|t'].
  - cbn [run_event] in *. unfold acquire in *. destruct ab; [by eapply Hlater|]. destruct (0 <? available s); [by eapply Hlater|].
    eapply Hlater; [done|cbn [waiters]; rewrite Hw, <- (assoc_L app); done|done].
  - assert (Ht : t' <> t) by congruence. cbn [run_event] in *. unfold onAbort in *. case_bool_decide; [|by eapply Hlater].
    eapply Hlater; [done|cbn [waiters]; rewrite Hw, list.filter_app, filter_cons_True by auto; done|].
    eapply Nat.le_lt_trans; [apply length_filter|done].
  - cbn [run_event] in *. unfold release in *. rewrite Hw in *. destruct ahead as [|w ahead]; cbn [app] in *.
    + destruct (run_events es _). cbn. set_solver.
    + eapply Hlater; [done|done|]. cbn [length] in Hn. unfold settles in *. cbn in Hn. lia.
Qed.

(** ** An example *)

(** Two permits, four calls, an abort in the queue, and settlements. *)
Definition ex_events : list event := [Call 1 false; Call 2 false; Call 3 false; Call 4 false; Abort 3; Settle 2; Settle 1].
Definition ex_semaphore : Semaphore := {| available := 2; waiters := []; holding := [] |}.
Lemma ex_trace : trace ex_events ex_semaphore.
Proof. repeat (apply trace_cons; [cbn; first [done|set_solver]|vm_compute (run_event _ _).2]). apply trace_nil. Qed.

Lemma semaphore_bounded_fifo_witness :
  new_semaphore 2 = Some ex_semaphore /\ trace ex_events ex_semaphore /\ NoDup (called ex_events) /\
  acquired (run_events ex_events ex_semaphore).1 = [1; 2; 4]%nat /\
  acquired (run_events ex_events ex_semaphore).1 `sublist_of` called ex_events.
Proof.
  assert (Hn : NoDup (called ex_events)) by (apply (bool_decide_unpack _); by vm_compute).
  split; [done|]. split; [apply ex_trace|]. split; [done|]. split; [by vm_compute|].
  pose proof (semaphore_bounded_fifo 2 ex_semaphore ex_events eq_refl ex_trace Hn) as H.
  destruct (run_events ex_events ex_semaphore) as [ns s]. apply H.
Defined.

Lemma semaphore_serves_waiters_witness :
  let s := {| available := 0; waiters := [3; 4]%nat; holding := [1; 2]%nat |} in Acquired 4 ∈ (run_events [Abort 3; Settle 2; Call 5 false; Settle 1] s).1.
Proof. apply (semaphore_serves_waiters _ 4%nat [3%nat] []); [done|set_solver|cbn; lia]. Defined.
