(* ===== verification/DirLock.v ===== *)
(** * The lock file of a directory (utils/dir-lock.ts)

    Processes publish a lock by linking a file of their own under its path, and
    move a lock aside when its owner is dead. Each system call is one step of
    its process; steps of different processes interleave, and a process may die
    between any two. Identifiers of files are fresh (the descriptor the code
    keeps open pins them), process identifiers are not reused. Legacy locks that
    are directories and file systems without identifiers are left out. *)

(* Source aliases:
   DL = src/packages/coding-agent/src/utils/dir-lock.ts
   BO = src/packages/coding-agent/src/core/kernel/bootstrap.ts *)

From S2P Require Import Prelude.

Abbreviation pid := nat.
(** A file, by its device and inode numbers. *)
Abbreviation file := nat.

(** DL 16-16 DirLockAttempt. [Threw] stands for an exception. *)
Inductive DirLockAttempt := acquired | held | reclaimed | Threw.
Inductive errno := ENOENT | EEXIST | EOTHER.

(** Where a process is: the call it makes next. *)
Inductive place :=
| Idle                                     (* tryAcquireDirLock is not running *)
| Publish (retry : bool)                   (* writeFileSync of the candidate *)
| Link (retry : bool)                      (* linkSync *)
| Recheck (retry : bool) (e : errno)       (* statSync of the candidate after an error *)
| Capture                                  (* statSync of the lock *)
| Pin (c : file)                           (* openSync and fstatSync of the lock *)
| Judge (c : file)                         (* readOwnerRaw *)
| Ask (c : file) (read : option file)      (* ownerAlive *)
| Rename (c : file) (read : option file)   (* renameSync of the lock *)
| Recover (c : file)                       (* statIdentity of the lock after an error *)
| Verify (c : file)                        (* statIdentity of the file aside *)
| RemoveAside                              (* rmSync of the judged lock *)
| Restore                                  (* linkSync of a lock that was not judged *)
| DropAside                                (* rmSync of the file aside *)
| Cleanup (r : DirLockAttempt)             (* rmSync of the candidate *)
| Returned (r : DirLockAttempt).

(** A process: whether it lives, where it is, and the files under its candidate and aside paths. *)
Record process := { alive : bool; at_ : place; candidate : option file; aside : option file }.
(** The lock path, the owner in each file in the order of their creation, the files earlier attempts left aside, and
    the processes by their pid. *)
Record state := { lock : option file; owners : list pid; stray : list file; procs : list process }.

Definition proc_at (p : place) (x : process) : process := {| alive := alive x; at_ := p; candidate := candidate x; aside := aside x |}.
Definition with_candidate (c : option file) (x : process) : process := {| alive := alive x; at_ := at_ x; candidate := c; aside := aside x |}.
Definition with_aside (a : option file) (x : process) : process := {| alive := alive x; at_ := at_ x; candidate := candidate x; aside := a |}.
Definition dead (x : process) : process := {| alive := false; at_ := at_ x; candidate := candidate x; aside := aside x |}.
Definition set_lock (l : option file) (s : state) : state := {| lock := l; owners := owners s; stray := stray s; procs := procs s |}.
Definition set_proc (p : pid) (x : process) (s : state) : state := {| lock := lock s; owners := owners s; stray := stray s; procs := <[p := x]> (procs s) |}.

(** [isProcessAlive(pid)]. *)
Definition living (s : state) (p : pid) : bool := match procs s !! p with Some x => alive x | None => false end.
(** The number of links of a candidate is 2: it is also under the lock path, or under an aside path. *)
Definition linked_twice (s : state) (f : file) : bool :=
  bool_decide (lock s = Some f) || bool_decide (f ∈ stray s) || existsb (fun x => bool_decide (aside x = Some f)) (procs s).

(** DL 47-188 tryAcquireDirLock. The next call of process [p]. [oops] tells that the reply of a link or a rename
    that landed is lost; [missing] is the answer of [ownerAlive(undefined)]. *)
Definition advance (p : pid) (x : process) (oops missing : bool) (s : state) : state :=
  let go (l : place) := set_proc p (proc_at l x) s in
  match at_ x with
  | Idle => set_proc p (with_aside None (proc_at (Publish true) x))
              {| lock := lock s; owners := owners s; stray := match aside x with Some f => f :: stray s | None => stray s end; procs := procs s |}
  | Publish retry =>
      let f := length (owners s) in
      set_proc p (with_candidate (Some f) (proc_at (Link retry) x)) {| lock := lock s; owners := owners s ++ [p]; stray := stray s; procs := procs s |}
  | Link retry =>
      match candidate x, lock s with
      | None, _ => go (Recheck retry ENOENT)
      | Some _, Some _ => go (Recheck retry EEXIST)
      | Some f, None => set_lock (Some f) (go (if oops then Recheck retry EOTHER else Cleanup acquired))
      end
  | Recheck retry e =>
      match candidate x with
      | Some f => if linked_twice s f then go (Cleanup acquired)
                  else match e with EEXIST => go Capture | _ => go (Cleanup Threw) end
      | None => if retry then go (Publish false)
                else match e with EEXIST => go Capture | _ => go (Cleanup Threw) end
      end
  | Capture => match lock s with None => go (Cleanup reclaimed) | Some c => go (Pin c) end
  | Pin c => match lock s with
             | Some c' => if Nat.eqb c' c then go (Judge c) else go (Cleanup held)
             | None => go (Judge c)
             end
  | Judge c => go (Ask c (lock s))
  | Ask c read =>
      let is_alive := match read with Some f => match owners s !! f with Some o => living s o | None => missing end | None => missing end in
      if is_alive then go (Cleanup held) else go (Rename c read)
  | Rename c _ =>
      match lock s with
      | None => go (Cleanup reclaimed)
      | Some f => set_lock None (set_proc p (with_aside (Some f) (proc_at (if oops then Recover c else Verify c) x)) s)
      end
  | Recover c => match lock s with Some _ => go (Cleanup Threw) | None => go (Verify c) end
  | Verify c => if bool_decide (aside x = Some c) then go RemoveAside else go Restore
  | RemoveAside => set_proc p (with_aside None (proc_at (Cleanup reclaimed) x)) s
  | Restore =>
      match aside x, lock s with
      | Some f, None => set_lock (Some f) (go DropAside)
      | _, _ => go (Cleanup held)
      end
  | DropAside => set_proc p (with_aside None (proc_at (Cleanup held) x)) s
  | Cleanup r => set_proc p (with_candidate None (proc_at (Returned r) x)) s
  | Returned _ => s
  end.

(** BO 515-515 acquireBootstrapLock. The holder removes the lock. *)
Definition releaseLock (p : pid) (x : process) (s : state) : state := set_lock None (set_proc p (proc_at Idle x) s).

(** What happens: a call of a process, its death, the sweep of its candidate (DL 26-45), the end of its work under the
    lock, or its next attempt. *)
Inductive event := Step (p : pid) (oops missing : bool) | Die (p : pid) | Sweep (p : pid) | Release (p : pid) | Again (p : pid).
Definition happen (e : event) (s : state) : state :=
  let on p (f : process -> state) := match procs s !! p with Some x => if alive x then f x else s | None => s end in
  match e with
  | Step p oops missing => on p (fun x => advance p x oops missing s)
  | Die p => on p (fun x => set_proc p (dead x) s)
  | Sweep p => match procs s !! p with Some x => set_proc p (with_candidate None x) s | None => s end
  | Release p => on p (fun x => match at_ x with Returned acquired => releaseLock p x s | _ => s end)
  | Again p => on p (fun x => match at_ x with Returned acquired => s | Returned _ => set_proc p (proc_at Idle x) s | _ => s end)
  end.

Definition new_process : process := {| alive := true; at_ := Idle; candidate := None; aside := None |}.
Definition start (n : nat) : state := {| lock := None; owners := []; stray := []; procs := replicate n new_process |}.
Definition run (es : list event) (s : state) : state := foldl (fun s e => happen e s) s es.

(** A process that lives and was given the lock, and has not released it. *)
Definition holds (s : state) (p : pid) : Prop :=
  exists x, procs s !! p = Some x /\ alive x = true /\ (at_ x = Cleanup acquired \/ at_ x = Returned acquired).

(** The rename of [e], if it is one, takes the file whose owner was read. *)
Definition judged_move (e : event) (s : state) : Prop :=
  match e with
  | Step p _ _ => forall x c read f, procs s !! p = Some x -> alive x = true -> at_ x = Rename c read -> lock s = Some f -> read = Some f
  | _ => True
  end.
Inductive judged_run : list event -> state -> Prop :=
| judged_nil s : judged_run [] s
| judged_cons e es s : judged_move e s -> judged_run es (happen e s) -> judged_run (e :: es) s.

(** ** The invariant *)

(** The owner in the file is dead. *)
Definition gone (s : state) (f : file) : Prop := exists o, owners s !! f = Some o /\ living s o = false.
Definition owned (s : state) (f : file) : Prop := is_Some (owners s !! f).
(** A process that has the lock, or will find that it has: the reply of its link was lost. *)
Definition has_lock (x : process) : Prop :=
  alive x = true /\ (at_ x = Cleanup acquired \/ at_ x = Returned acquired \/ exists b, at_ x = Recheck b EOTHER).

Record sound (s : state) : Prop := {
  (* a candidate names its process *)
  s_candidate : forall p x f, procs s !! p = Some x -> candidate x = Some f -> owners s !! f = Some p;
  s_lock : forall f, lock s = Some f -> owned s f;
  (* the lock names the process that has it *)
  s_holder : forall p x, procs s !! p = Some x -> has_lock x -> exists f, lock s = Some f /\ owners s !! f = Some p;
  (* what was moved aside belongs to the dead, and so does what is about to be *)
  s_aside : forall p x f, procs s !! p = Some x -> aside x = Some f -> gone s f;
  s_stray : forall f, f ∈ stray s -> gone s f;
  s_ask : forall p x c f, procs s !! p = Some x -> at_ x = Ask c (Some f) -> owned s f;
  s_rename : forall p x c f, procs s !! p = Some x -> at_ x = Rename c (Some f) -> gone s f }.

Lemma living_at s p x : procs s !! p = Some x -> living s p = alive x.
Proof. intros H. unfold living. by rewrite H. Qed.
Lemma gone_owned s f : gone s f -> owned s f.
Proof. intros (o & H & _). by exists o. Qed.

(** A lock that is free or of a dead owner is nobody's. *)
Lemma nobody s : sound s -> match lock s with Some f => gone s f | None => True end ->
  forall q y, procs s !! q = Some y -> ~ has_lock y.
Proof.
  intros Hs Hl q y Hq Hy. destruct (s_holder s Hs q y Hq Hy) as (f & Hf & Ho). rewrite Hf in Hl. destruct Hl as (o & Ho' & Hd).
  rewrite Ho in Ho'. injection Ho' as <-. rewrite (living_at _ _ _ Hq) in Hd. destruct Hy as [Hy _]. congruence.
Qed.

(** A step of one process keeps the invariant when the rest sees nothing but deaths, new files, and a lock that was
    nobody's. *)
Lemma sound_update s p x x' lock' new stray' : sound s -> procs s !! p = Some x -> (alive x' = true -> alive x = true) ->
  let s' := {| lock := lock'; owners := owners s ++ new; stray := stray'; procs := <[p := x']> (procs s) |} in
  (forall f, candidate x' = Some f -> owners s' !! f = Some p) ->
  (forall f, lock' = Some f -> owned s' f) ->
  (lock' = lock s \/ forall q y, q <> p -> procs s !! q = Some y -> ~ has_lock y) ->
  (has_lock x' -> exists f, lock' = Some f /\ owners s' !! f = Some p) ->
  (forall f, aside x' = Some f -> gone s' f) ->
  (forall f, f ∈ stray' -> gone s f \/ gone s' f) ->
  (forall c f, at_ x' = Ask c (Some f) -> owned s' f) ->
  (forall c f, at_ x' = Rename c (Some f) -> gone s' f) -> sound s'.
Proof.
  intros Hs Hp Halive s' Hcand Hlock Hother Hhold Haside Hstray Hask Hren.
  assert (Hown : forall f o, owners s !! f = Some o -> owners s' !! f = Some o) by (intros f o Ho; cbn; by apply lookup_app_l_Some).
  assert (Hgone : forall f, gone s f -> gone s' f).
  { intros f (o & Ho & Hd). exists o. split; [by apply Hown|]. unfold living in *. cbn. destruct (decide (o = p)) as [->|Hne].
    - rewrite list_lookup_insert_eq by by apply lookup_lt_Some in Hp. rewrite Hp in Hd. destruct (alive x') eqn:E; [|done]. by rewrite Halive in Hd.
    - by rewrite list_lookup_insert_ne. }
  assert (Hcase : forall q y, procs s' !! q = Some y -> (q = p /\ y = x') \/ (q <> p /\ procs s !! q = Some y)).
  { intros q y Hq. cbn in Hq. destruct (decide (q = p)) as [->|Hne].
    - rewrite list_lookup_insert_eq in Hq by by apply lookup_lt_Some in Hp. injection Hq as <-. by left.
    - rewrite list_lookup_insert_ne in Hq by done. by right. }
  split.
  - intros q y f Hq Hf. destruct (Hcase q y Hq) as [[-> ->]|[Hne Hq']]; [by apply Hcand|]. eapply Hown, s_candidate; done.
  - done.
  - intros q y Hq Hy. destruct (Hcase q y Hq) as [[-> ->]|[Hne Hq']]; [by apply Hhold|]. destruct Hother as [->|Hno]; [|by destruct (Hno q y Hne Hq')].
    destruct (s_holder s Hs q y Hq' Hy) as (f & Hf & Ho). exists f. split; [done|]. by apply Hown.
  - intros q y f Hq Hf. destruct (Hcase q y Hq) as [[-> ->]|[Hne Hq']]; [by apply Haside|]. by eapply Hgone, s_aside.
  - intros f Hf. destruct (Hstray f Hf); [by apply Hgone|done].
  - intros q y c f Hq Hf. destruct (Hcase q y Hq) as [[-> ->]|[Hne Hq']]; [by eapply Hask|]. destruct (s_ask s Hs q y c f Hq' Hf) as [o Ho]. exists o. by apply Hown.
  - intros q y c f Hq Hf. destruct (Hcase q y Hq) as [[-> ->]|[Hne Hq']]; [by eapply Hren|]. by eapply Hgone, s_rename.
Qed.

Lemma gone_now s p x x' lock' stray' f : procs s !! p = Some x -> (alive x' = true -> alive x = true) -> gone s f ->
  gone {| lock := lock'; owners := owners s; stray := stray'; procs := <[p := x']> (procs s) |} f.
Proof.
  intros Hp Ha (o & Ho & Hd). exists o. split; [done|]. unfold living in *. cbn. destruct (decide (o = p)) as [->|Hne].
  - rewrite list_lookup_insert_eq by by apply lookup_lt_Some in Hp. rewrite Hp in Hd. destruct (alive x') eqn:E; [|done]. by rewrite Ha in Hd.
  - by rewrite list_lookup_insert_ne.
Qed.

(** A process moves on, and perhaps drops its candidate or the file aside. *)
Lemma sound_move s p x x' lock' : sound s -> procs s !! p = Some x -> (alive x' = true -> alive x = true) ->
  (forall f, candidate x' = Some f -> candidate x = Some f) ->
  (forall f, aside x' = Some f -> gone s f) ->
  (forall f, lock' = Some f -> owned s f) ->
  (lock' = lock s \/ forall q y, q <> p -> procs s !! q = Some y -> ~ has_lock y) ->
  (has_lock x' -> exists f, lock' = Some f /\ owners s !! f = Some p) ->
  (forall c f, at_ x' = Ask c (Some f) -> owned s f) ->
  (forall c f, at_ x' = Rename c (Some f) -> gone s f) ->
  sound {| lock := lock'; owners := owners s; stray := stray s; procs := <[p := x']> (procs s) |}.
Proof.
  intros Hs Hp Ha Hc Has Hl Ho Hh Hk Hr. pose proof (sound_update s p x x' lock' [] (stray s) Hs Hp Ha) as H. rewrite app_nil_r in H. cbv zeta in H.
  assert (Hg : forall f, gone s f -> gone {| lock := lock'; owners := owners s; stray := stray s; procs := <[p := x']> (procs s) |} f) by (intros f; by apply gone_now with x).
  apply H; try done; auto.
  - intros f Hf. apply Hc in Hf. by apply (s_candidate s Hs p x).
  - intros f Hf. left. by apply (s_stray s Hs).
  - intros c f Hf. by eapply Hg, Hr.
Qed.
Lemma sound_go s p x l : sound s -> procs s !! p = Some x ->
  (has_lock (proc_at l x) -> exists f, lock s = Some f /\ owners s !! f = Some p) ->
  (forall c f, l = Ask c (Some f) -> owned s f) -> (forall c f, l = Rename c (Some f) -> gone s f) -> sound (set_proc p (proc_at l x) s).
Proof.
  intros Hs Hp Hh Hk Hr. apply (sound_move s p x); try done; [|apply Hs|by left]. intros f Hf. by apply (s_aside s Hs p x).
Qed.

Lemma linked_has_lock s p x f : sound s -> procs s !! p = Some x -> alive x = true -> candidate x = Some f -> linked_twice s f = true ->
  lock s = Some f /\ owners s !! f = Some p.
Proof.
  intros Hs Hp Ha Hc Hl. pose proof (s_candidate s Hs p x f Hp Hc) as Ho. split; [|done].
  assert (Hno : ~ gone s f) by (intros (o & Ho' & Hd); rewrite Ho in Ho'; injection Ho' as <-; rewrite (living_at _ _ _ Hp) in Hd; congruence).
  unfold linked_twice in Hl. apply orb_true_iff in Hl as [Hl|Hl]; [apply orb_true_iff in Hl as [Hl|Hl]; apply bool_decide_eq_true in Hl; [done|]|].
  - by destruct Hno; apply (s_stray s Hs).
  - apply existsb_exists in Hl as (y & Hin & Hy). apply bool_decide_eq_true in Hy. apply list_elem_of_In, list_elem_of_lookup in Hin as [q Hq].
    destruct Hno. by apply (s_aside s Hs q y).
Qed.

Ltac no_place := first [done | by intros ? ? [=] | (intros [_ [[=]|[[=]|[? [=]]]]]) | (intros [_ [H|[H|[? H]]]]; cbn in H; discriminate H)].

Lemma advance_sound s p x oops missing : sound s -> procs s !! p = Some x -> alive x = true -> judged_move (Step p oops missing) s ->
  sound (advance p x oops missing s).
Proof.
  intros Hs Hp Ha Hj. pose proof (s_holder s Hs p x Hp) as Hown. unfold advance. cbv zeta.
  assert (Hgo : forall l, (forall b, l <> Recheck b EOTHER) -> l <> Cleanup acquired -> l <> Returned acquired ->
    (forall c f, l = Ask c (Some f) -> owned s f) -> (forall c f, l = Rename c (Some f) -> gone s f) -> sound (set_proc p (proc_at l x) s)).
  { intros l H1 H2 H3 H4 H5. apply sound_go; try done. intros [_ [H|[H|[b H]]]]; cbn in H; [done|done|by destruct (H1 b)]. }
  destruct (at_ x) as [|retry|retry|retry e| |c|c|c read|c read|c|c| | | |r|r] eqn:Ex.
  - pose proof (sound_update s p x (with_aside None (proc_at (Publish true) x)) (lock s) [] (match aside x with Some f => f :: stray s | None => stray s end) Hs Hp) as H.
    rewrite app_nil_r in H. cbv zeta in H. apply H; try done; [|apply Hs|by left|no_place|].
    + intros f Hf. cbn in *. by apply (s_candidate s Hs p x).
    + intros f Hf. left. destruct (aside x) as [g|] eqn:Eg; [|by apply (s_stray s Hs)]. apply elem_of_cons in Hf as [->|Hf]; [by apply (s_aside s Hs p x)|by apply (s_stray s Hs)].
  - apply (sound_update s p x); try done; [..|no_place| |].
    + intros f [= <-]. cbn. by rewrite lookup_app_r, Nat.sub_diag.
    + intros f Hf. destruct (s_lock s Hs f Hf) as [o Ho]. exists o. cbn. by apply lookup_app_l_Some.
    + by left.
    + intros f Hf. cbn in Hf. destruct (s_aside s Hs p x f Hp Hf) as (o & Ho & Hd). exists o. split; [cbn; by apply lookup_app_l_Some|].
      unfold living in *. cbn. destruct (decide (o = p)) as [->|Hne]; [rewrite Hp in Hd; congruence|]. by rewrite list_lookup_insert_ne.
    + intros f Hf. left. by apply (s_stray s Hs).
  - destruct (candidate x) as [f|] eqn:Ec; [|apply Hgo; done]. destruct (lock s) as [g|] eqn:El; [apply Hgo; done|].
    pose proof (s_candidate s Hs p x f Hp Ec) as Ho.
    assert (Hlink : forall l, (forall c r, l <> Ask c r) -> (forall c r, l <> Rename c r) ->
      sound {| lock := Some f; owners := owners s; stray := stray s; procs := <[p := proc_at l x]> (procs s) |}).
    { intros l H1 H2. apply (sound_move s p x); try done.
      - intros g Hg. by apply (s_aside s Hs p x).
      - intros g [= <-]. by exists p.
      - right. intros q y _. apply nobody; [done|]. by rewrite El.
      - intros _. by exists f.
      - intros c g E. by destruct (H1 c (Some g)).
      - intros c g E. by destruct (H2 c (Some g)). }
    destruct oops; by apply Hlink.
  - destruct (candidate x) as [f|] eqn:Ec.
    + destruct (linked_twice s f) eqn:El; [|by destruct e; apply Hgo]. destruct (linked_has_lock s p x f Hs Hp Ha Ec El) as [H1 H2].
      apply sound_go; try done. intros _. by exists f.
    + destruct retry; [by apply Hgo|]. by destruct e; apply Hgo.
  - destruct (lock s) as [c|]; by apply Hgo.
  - destruct (lock s) as [c'|]; [|by apply Hgo]. by destruct (Nat.eqb c' c); apply Hgo.
  - apply Hgo; try done. intros c' f [= _ Hf]. by apply (s_lock s Hs).
  - destruct (match read with Some f => match owners s !! f with Some o => living s o | None => missing end | None => missing end) eqn:Er; [by apply Hgo|].
    apply Hgo; try done. intros c' f [= _ ->]. destruct (s_ask s Hs p x c f Hp Ex) as [o Ho]. rewrite Ho in Er. by exists o.
  - destruct (lock s) as [f|] eqn:El; [|by apply Hgo]. pose proof (Hj x c read f Hp Ha Ex El) as ->. pose proof (s_rename s Hs p x c f Hp Ex) as Hg.
    apply (sound_move s p x); try done.
    + by intros g [= <-].
    + right. intros q y _. apply nobody; [done|]. by rewrite El.
    + by destruct oops; no_place.
    + by destruct oops.
    + by destruct oops.
  - destruct (lock s); by apply Hgo.
  - destruct (bool_decide _); by apply Hgo.
  - apply (sound_move s p x); try done; [apply Hs|by left|no_place].
  - destruct (aside x) as [f|] eqn:Ea; [|by apply Hgo]. destruct (lock s) as [g|] eqn:El; [by apply Hgo|].
    apply (sound_move s p x); try done.
    + intros g Hg. by apply (s_aside s Hs p x).
    + intros g [= <-]. by apply gone_owned, (s_aside s Hs p x).
    + right. intros q y _. apply nobody; [done|]. by rewrite El.
    + no_place.
  - apply (sound_move s p x); try done; [apply Hs|by left|no_place].
  - apply (sound_move s p x); try done; [..|apply Hs|by left|].
    + intros f Hf. by apply (s_aside s Hs p x).
    + intros [_ [H|[H|[b H]]]]; cbn in H; try discriminate H. injection H as ->. apply Hown. split; [done|]. by left.
  - done.
Qed.

Lemma happen_sound e s : sound s -> judged_move e s -> sound (happen e s).
Proof.
  intros Hs Hj. destruct e as [p oops missing|p|p|p|p]; cbn [happen]; destruct (procs s !! p) as [x|] eqn:Hp; try done; try (destruct (alive x) eqn:Ha; [|done]).
  - by apply advance_sound.
  - apply (sound_move s p x); try done; [|apply Hs|by left|by intros [? _]|..].
    + intros f Hf. by apply (s_aside s Hs p x).
    + intros c f Hf. by apply (s_ask s Hs p x c).
    + intros c f Hf. by apply (s_rename s Hs p x c).
  - apply (sound_move s p x); try done; [|apply Hs|by left|..].
    + intros f Hf. by apply (s_aside s Hs p x).
    + intros [H1 H2]. by apply (s_holder s Hs p x Hp).
    + intros c f Hf. by apply (s_ask s Hs p x c).
    + intros c f Hf. by apply (s_rename s Hs p x c).
  - destruct (at_ x) as [| | | | | | | | | | | | | | |[]] eqn:Ex; try done.
    apply (sound_move s p x); try done; [| |no_place].
    + intros f Hf. by apply (s_aside s Hs p x).
    + right. intros q y Hne Hq Hy. destruct (s_holder s Hs p x Hp) as (f & Hf & Ho); [split; [done|by right; left]|].
      destruct (s_holder s Hs q y Hq Hy) as (g & Hg & Ho'). rewrite Hf in Hg. injection Hg as <-. congruence.
  - destruct (at_ x) as [| | | | | | | | | | | | | | |[]] eqn:Ex; try done; apply sound_go; try done; no_place.
Qed.

Lemma start_sound n : sound (start n).
Proof.
  assert (H : forall p x, procs (start n) !! p = Some x -> x = new_process) by (intros p x Hp; by apply lookup_replicate in Hp as [-> _]).
  split; try done.
  - by intros p x f ->%H.
  - intros p x ->%H [_ [Hx|[Hx|[b Hx]]]]; discriminate Hx.
  - by intros p x f ->%H.
  - by intros f ?%elem_of_nil.
  - by intros p x c f ->%H.
  - by intros p x c f ->%H.
Qed.
Lemma run_sound es s : sound s -> judged_run es s -> sound (run es s).
Proof. intros Hs H. revert Hs. induction H as [s|e es s Hj _ IH]; intros Hs; [done|]. by apply IH, happen_sound. Qed.

(** ** Theorems *)

(** C33. Mutual exclusion. However the calls of any number of processes interleave, with deaths between any two calls,
    lost replies and swept candidates, at most one living process holds the lock, and the lock file is its own, as
    long as every rename of a lock takes the lock whose owner was asked for (see lock_moved_from_its_holder). *)
Theorem dir_lock_excludes (n : nat) (es : list event) (p q : pid) (Hrun : judged_run es (start n)) :
  holds (run es (start n)) p -> holds (run es (start n)) q ->
  p = q /\ exists f, lock (run es (start n)) = Some f /\ owners (run es (start n)) !! f = Some p.
Proof.
  intros (x & Hp & Hx & Hax) (y & Hq & Hy & Hay). pose proof (run_sound es _ (start_sound n) Hrun) as Hs.
  destruct (s_holder _ Hs p x Hp) as (f & Hf & Ho); [split; [done|tauto]|].
  destruct (s_holder _ Hs q y Hq) as (g & Hg & Ho'); [split; [done|tauto]|].
  rewrite Hf in Hg. injection Hg as <-. split; [congruence|]. by exists f.
Qed.

(** Steps of one process alone. *)
Definition steps (p : pid) (k : nat) : list event := replicate k (Step p false false).

Lemma run_app a b s : run (a ++ b) s = run b (run a s).
Proof. apply foldl_app. Qed.

Lemma run_step p k s x : procs s !! p = Some x -> alive x = true -> run (steps p (S k)) s = run (steps p k) (advance p x false false s).
Proof.
  intros Hp Ha. change (run (steps p (S k)) s) with (run (steps p k) (happen (Step p false false) s)). cbn [happen]. by rewrite Hp, Ha.
Qed.

(** A process that runs alone: the state is what it was but for its own record, the lock, the files and the strays. *)
Definition only (s : state) (p : pid) (l : option file) (new : list pid) (st : list file) (x : process) : state :=
  {| lock := l; owners := owners s ++ new; stray := st; procs := <[p := x]> (procs s) |}.

Section alone.
Context (s : state) (p : pid) (x0 : process) (Hs : sound s) (Hp : procs s !! p = Some x0).

Lemma only_at l new st x : procs (only s p l new st x) !! p = Some x.
Proof. cbn. apply list_lookup_insert_eq. by apply lookup_lt_Some in Hp. Qed.
Lemma only_set l new st x y : set_proc p y (only s p l new st x) = only s p l new st y.
Proof. unfold set_proc, only. cbn. by rewrite list_insert_insert_eq. Qed.
Lemma only_step k l new st x : alive x = true ->
  run (steps p (S k)) (only s p l new st x) = run (steps p k) (advance p x false false (only s p l new st x)).
Proof. intros Ha. apply run_step; [apply only_at|done]. Qed.

(** The candidate it publishes is under no other path. *)
Lemma fresh_unlinked l new st x : (forall g, l = Some g -> owned s g) -> (forall g, g ∈ st -> owned s g) -> aside x = None ->
  linked_twice (only s p l new st x) (length (owners s)) = false.
Proof.
  intros Hl Hst Ha. assert (Hno : ~ owned s (length (owners s))) by (intros [o Ho]; apply lookup_lt_Some in Ho; lia).
  unfold linked_twice. apply orb_false_iff. split; [apply orb_false_iff; split; apply bool_decide_eq_false|].
  - intros E. by apply Hno, Hl.
  - intros E. by apply Hno, Hst.
  - apply not_true_is_false. intros E. apply existsb_exists in E as (y & Hin & Hy). apply bool_decide_eq_true in Hy.
    apply list_elem_of_In, list_elem_of_lookup in Hin as [q Hq]. cbn in Hq. destruct (decide (q = p)) as [->|Hne].
    + rewrite list_lookup_insert_eq in Hq by by apply lookup_lt_Some in Hp. injection Hq as <-. congruence.
    + rewrite list_lookup_insert_ne in Hq by done. apply Hno, gone_owned. by apply (s_aside s Hs q y).
Qed.
Lemma only_living l new st x o : o <> p -> living (only s p l new st x) o = living s o.
Proof. intros H. unfold living. cbn. by rewrite list_lookup_insert_ne. Qed.
End alone.

(** C38. A lock that its dead owner left does not stay. In any sound state, as those that runs lead to are, a process that attempts the
    lock alone finds it stale and returns reclaimed with the path free, and its next attempt acquires the lock. *)
Theorem stale_lock_recovered (s : state) (p : pid) (x : process) (f : file) (Hs : sound s)
    (Hp : procs s !! p = Some x) (Halive : alive x = true) (Hidle : at_ x = Idle) (Hlock : lock s = Some f) (Hdead : gone s f) :
  let s1 := run (steps p 12) s in
  let s2 := run (Again p :: steps p 4) s1 in
  (exists x1, procs s1 !! p = Some x1 /\ at_ x1 = Returned reclaimed) /\ lock s1 = None /\ holds s2 p.
Proof.
  destruct Hdead as (o & Ho & Hd). assert (Hop : o <> p) by (intros ->; rewrite (living_at _ _ _ Hp) in Hd; congruence).
  set (st := match aside x with Some g => g :: stray s | None => stray s end).
  assert (Hst : forall g, g ∈ st -> owned s g).
  { intros g Hg. apply gone_owned. unfold st in Hg. destruct (aside x) eqn:Ea; [|by apply (s_stray s Hs)].
    apply elem_of_cons in Hg as [->|Hg]; [by apply (s_aside s Hs p x)|by apply (s_stray s Hs)]. }
  set (X l c a := {| alive := true; at_ := l; candidate := c; aside := a |}).
  assert (Hstart : advance p x false false s = only s p (Some f) [] st (X (Publish true) (candidate x) None)).
  { unfold advance. rewrite Hidle. unfold only, set_proc, with_aside, proc_at, X. cbn. by rewrite app_nil_r, Hlock, Halive. }
  set (c := length (owners s)).
  assert (Hc : linked_twice (only s p (Some f) [p] st (X (Recheck true EEXIST) (Some c) None)) c = false).
  { apply (fresh_unlinked s p x Hs Hp); [|done|done]. intros g [= <-]. by exists o. }
  assert (Ho' : (owners s ++ [p]) !! f = Some o) by by apply lookup_app_l_Some.
  assert (Hnext : forall k l new st0 y l' new' y', alive y = true ->
    advance p y false false (only s p l new st0 y) = only s p l' new' st0 y' ->
    run (steps p (S k)) (only s p l new st0 y) = run (steps p k) (only s p l' new' st0 y')).
  { intros k l new st0 y l' new' y' Ha <-. by apply (only_step s p x Hp). }
  assert (Hset : forall l new st0 y z, set_proc p z (only s p l new st0 y) = only s p l new st0 z) by (intros; apply only_set).
  assert (H1 : run (steps p 12) s = only s p None [p] st (X (Returned reclaimed) None None)).
  { rewrite (run_step _ _ _ x), Hstart by done.
    rewrite (Hnext _ _ _ _ _ (Some f) [p] (X (Link true) (Some c) None)) by (try done; cbn [advance X at_]; unfold only, set_proc; cbn; by rewrite list_insert_insert_eq, !app_nil_r).
    rewrite (Hnext _ _ _ _ _ (Some f) [p] (X (Recheck true EEXIST) (Some c) None)) by (try done; cbn [advance X at_ candidate only lock]; apply Hset).
    rewrite (Hnext _ _ _ _ _ (Some f) [p] (X Capture (Some c) None)) by (try done; cbn [advance X at_ candidate]; fold X; rewrite Hc; apply Hset).
    rewrite (Hnext _ _ _ _ _ (Some f) [p] (X (Pin f) (Some c) None)) by (try done; apply Hset).
    rewrite (Hnext _ _ _ _ _ (Some f) [p] (X (Judge f) (Some c) None)) by (try done; cbn [advance X at_ only lock]; rewrite Nat.eqb_refl; apply Hset).
    rewrite (Hnext _ _ _ _ _ (Some f) [p] (X (Ask f (Some f)) (Some c) None)) by (try done; apply Hset).
    rewrite (Hnext _ _ _ _ _ (Some f) [p] (X (Rename f (Some f)) (Some c) None)) by
      (try done; cbn [advance X at_ only owners]; rewrite Ho'; rewrite (only_living s p) by done; rewrite Hd; apply Hset).
    rewrite (Hnext _ _ _ _ _ None [p] (X (Verify f) (Some c) (Some f))) by
      (try done; cbn [advance X at_ only lock]; unfold set_lock; rewrite Hset; done).
    rewrite (Hnext _ _ _ _ _ None [p] (X RemoveAside (Some c) (Some f))) by
      (try done; cbn [advance X at_ only aside]; rewrite bool_decide_true by done; apply Hset).
    rewrite (Hnext _ _ _ _ _ None [p] (X (Cleanup reclaimed) (Some c) None)) by (try done; apply Hset).
    rewrite (Hnext _ _ _ _ _ None [p] (X (Returned reclaimed) None None)) by (try done; apply Hset). done. }
  cbv zeta. rewrite H1. split; [exists (X (Returned reclaimed) None None); split; [apply (only_at s p x Hp)|done]|]. split; [done|].
  assert (Hagain : happen (Again p) (only s p None [p] st (X (Returned reclaimed) None None)) = only s p None [p] st (X Idle None None)).
  { cbn [happen]. rewrite (only_at s p x Hp). apply Hset. }
  change (run (Again p :: steps p 4) ?t) with (run (steps p 4) (happen (Again p) t)). rewrite Hagain.
  rewrite (Hnext _ _ _ _ _ None [p] (X (Publish true) None None)) by (try done; cbn [advance X at_]; unfold only, set_proc; cbn; by rewrite list_insert_insert_eq).
  set (d := length (owners s ++ [p])).
  rewrite (Hnext _ _ _ _ _ None [p; p] (X (Link true) (Some d) None)) by
    (try done; cbn [advance X at_]; unfold only, set_proc; cbn; by rewrite list_insert_insert_eq, <- (assoc_L app)).
  rewrite (Hnext _ _ _ _ _ (Some d) [p; p] (X (Cleanup acquired) (Some d) None)) by
    (try done; cbn [advance X at_ candidate only lock]; unfold set_lock; rewrite Hset; done).
  rewrite (Hnext _ _ _ _ _ (Some d) [p; p] (X (Returned acquired) None None)) by (try done; apply Hset).
  exists (X (Returned acquired) None None). split; [apply (only_at s p x Hp)|]. split; [done|by right].
Qed.

(** Process 0 dies with the lock. Processes 1 and 2 both judge its lock stale; 1 reclaims it and acquires the lock;
    then 2 moves the lock of 1 aside, finds that it is not the one it judged, and, before it puts it back,
    process 3 acquires the free path. *)
Definition takeover : list event :=
  steps 0 5 ++ [Die 0] ++ steps 1 8 ++ steps 2 8 ++ steps 1 4 ++ [Again 1] ++ steps 1 5 ++ steps 2 1 ++ steps 3 5.

(** The lock can be moved from its holder. Runs exist in which a process moves the lock of a living holder aside,
    because the lock changed hands after it had read the old owner, and a third process acquires the free path
    before the lock is put back: two living processes hold the lock. *)
Theorem lock_moved_from_its_holder :
  holds (run takeover (start 4)) 1 /\ holds (run takeover (start 4)) 3.
Proof.
  assert (H : forall k, (exists x, procs (run takeover (start 4)) !! k = Some x /\ alive x = true /\ at_ x = Returned acquired) -> holds (run takeover (start 4)) k).
  { intros k (x & H1 & H2 & H3). exists x. auto. }
  split; apply H; eexists; (split; [by vm_compute|by split]).
Qed.

(** ** Witnesses *)

(** Process 0 acquires and dies; process 1 recovers the lock. *)
Definition recovery : list event := steps 0 4 ++ [Die 0] ++ steps 1 12 ++ [Again 1] ++ steps 1 4.
Lemma recovery_judged : judged_run recovery (start 2).
Proof.
  assert (Hdec : forall es s, (fix ok (es : list event) (s : state) : bool := match es with
      | [] => true
      | e :: es => (match e with Step p _ _ => match procs s !! p with
          | Some x => match at_ x, lock s with Rename c read, Some f => bool_decide (read = Some f) | _, _ => true end | None => true end | _ => true end)
          && ok es (happen e s) end) es s = true -> judged_run es s).
  { induction es as [|e es IH]; intros s H; [constructor|]. apply andb_true_iff in H as [H1 H2]. constructor; [|by apply IH].
    destruct e as [p b m| | | |]; try done. intros x c read f Hp Ha Hat Hl. rewrite Hp, Hat, Hl in H1. by apply bool_decide_eq_true in H1. }
  apply Hdec. by vm_compute.
Qed.
Lemma dir_lock_excludes_witness :
  holds (run recovery (start 2)) 1 /\ forall q, holds (run recovery (start 2)) q -> 1 = q.
Proof.
  assert (H1 : holds (run recovery (start 2)) 1) by (eexists; split; [by vm_compute|split; [done|by right]]).
  split; [done|]. intros q Hq. by apply (dir_lock_excludes 2 recovery 1 q recovery_judged).
Defined.

Definition left_behind : state := run (steps 0 4 ++ [Die 0]) (start 2).
Lemma left_behind_sound : sound left_behind.
Proof.
  apply run_sound; [apply start_sound|]. repeat (constructor; [by intros x c read f [= <-] _ [=]|]). constructor; [done|]. constructor.
Qed.
Lemma stale_lock_recovered_witness : holds (run (Again 1 :: steps 1 4) (run (steps 1 12) left_behind)) 1.
Proof.
  apply (stale_lock_recovered left_behind 1 new_process 0 left_behind_sound); [by vm_compute|done|done|by vm_compute|].
  exists 0. by vm_compute.
Defined.
