(* ===== verification/Truncate.v ===== *)
(** * Truncation of tool output (core/tools/truncate.ts)

    [truncateHead] and [truncateTail] bound a text by a number of lines and a
    number of UTF-8 bytes. Each loop of the source is a fixpoint over the
    lines that threads the collected lines and the running byte count; the
    theorems say what part of the text is kept and that both bounds hold. *)

(* Source aliases:
   TR = src/packages/coding-agent/src/core/tools/truncate.ts *)

From S2P Require Import Prelude JsString.
Local Open Scope Z_scope.

(** TR 11-11 DEFAULT_MAX_LINES. *)
Definition DEFAULT_MAX_LINES : Z := 2000.
(** TR 12-12 DEFAULT_MAX_BYTES. *)
Definition DEFAULT_MAX_BYTES : Z := 50 * 1024.
(** TR 13-13 GREP_MAX_LINE_LENGTH. *)
Definition GREP_MAX_LINE_LENGTH : Z := 500.

(** TR 18-19 TruncationResult.truncatedBy. The limit that was hit. *)
Inductive TruncatedBy := ByLines | ByBytes.
#[export] Instance TruncatedBy_eq_dec : EqDecision TruncatedBy.
Proof. solve_decision. Defined.

(** TR 15-38 TruncationResult. *)
Record TruncationResult := {
  content : jsstr;
  truncated : bool;
  truncatedBy : option TruncatedBy;
  totalLines : Z;
  totalBytes : Z;
  outputLines : Z;
  outputBytes : Z;
  lastLinePartial : bool;
  firstLineExceedsLimit : bool;
  res_maxLines : Z;
  res_maxBytes : Z;
}.

(** TR 40-45 TruncationOptions. *)
Record TruncationOptions := {
  opt_maxLines : option Z;
  opt_maxBytes : option Z;
}.

(** TR 50-58 formatSize. [x.toFixed(1)] of a quotient by a power of two rounds
    the exact tenths, halves up. *)
Definition formatSize (bytes : Z) : jsstr :=
  let fixed1 d := let n := (bytes * 20 + d) / (2 * d) in show_Z (n / 10) ++ js "." ++ show_Z (n mod 10) in
  if bytes <? 1024 then show_Z bytes ++ js "B"
  else if bytes <? 1024 * 1024 then fixed1 1024 ++ js "KB"
  else fixed1 (1024 * 1024) ++ js "MB".

(** TR 112-123 truncateHead. The loop over the lines. *)
Fixpoint truncateHead_loop (lines : list jsstr) (i maxLines maxBytes : Z)
    (outputLinesArr : list jsstr) (outputBytesCount : Z) : list jsstr * Z * TruncatedBy :=
  match lines with
  | [] => (outputLinesArr, outputBytesCount, ByLines)
  | line :: rest =>
      if i <? maxLines then
        let lineBytes := byteLength line + (if 0 <? i then 1 else 0) in
        if maxBytes <? outputBytesCount + lineBytes then (outputLinesArr, outputBytesCount, ByBytes)
        else truncateHead_loop rest (i + 1) maxLines maxBytes
               (outputLinesArr ++ [line]) (outputBytesCount + lineBytes)
      else (outputLinesArr, outputBytesCount, ByLines)
  end.

(** TR 67-145 truncateHead. *)
Definition truncateHead (text : jsstr) (options : TruncationOptions) : TruncationResult :=
  let maxLines := default DEFAULT_MAX_LINES (opt_maxLines options) in
  let maxBytes := default DEFAULT_MAX_BYTES (opt_maxBytes options) in
  let totalBytes := byteLength text in
  let lines := lines_of text in
  let totalLines := Z.of_nat (length lines) in
  if (totalLines <=? maxLines) && (totalBytes <=? maxBytes) then
    {| content := text; truncated := false; truncatedBy := None; totalLines := totalLines;
       totalBytes := totalBytes; outputLines := totalLines; outputBytes := totalBytes;
       lastLinePartial := false; firstLineExceedsLimit := false;
       res_maxLines := maxLines; res_maxBytes := maxBytes |}
  else
    let firstLineBytes := byteLength (hd [] lines) in
    if maxBytes <? firstLineBytes then
      {| content := []; truncated := true; truncatedBy := Some ByBytes; totalLines := totalLines;
         totalBytes := totalBytes; outputLines := 0; outputBytes := 0;
         lastLinePartial := false; firstLineExceedsLimit := true;
         res_maxLines := maxLines; res_maxBytes := maxBytes |}
    else
      let '(outputLinesArr, outputBytesCount, by_) := truncateHead_loop lines 0 maxLines maxBytes [] 0 in
      let by_ := if (maxLines <=? Z.of_nat (length outputLinesArr)) && (outputBytesCount <=? maxBytes)
                 then ByLines else by_ in
      let outputContent := unlines outputLinesArr in
      {| content := outputContent; truncated := true; truncatedBy := Some by_; totalLines := totalLines;
         totalBytes := totalBytes; outputLines := Z.of_nat (length outputLinesArr);
         outputBytes := byteLength outputContent;
         lastLinePartial := false; firstLineExceedsLimit := false;
         res_maxLines := maxLines; res_maxBytes := maxBytes |}.

(** TR 236-241 truncateStringToBytesFromEnd. The loop that moves [start] to a character boundary. *)
Fixpoint skip_continuation (buf : list N) : list N :=
  match buf with
  | [] => []
  | b :: rest => if is_cont b then skip_continuation rest else buf
  end.

(** TR 230-244 truncateStringToBytesFromEnd. *)
Definition truncateStringToBytesFromEnd (str : jsstr) (maxBytes : Z) : jsstr :=
  let buf := buffer_from str in
  if Z.of_nat (length buf) <=? maxBytes then str
  else
    let start := Z.of_nat (length buf) - maxBytes in
    buffer_toString (skip_continuation (drop (Z.to_nat start) buf)).

(** TR 182-202 truncateTail. The loop from the last line to the first. *)
Fixpoint truncateTail_loop (rlines : list jsstr) (maxLines maxBytes : Z)
    (outputLinesArr : list jsstr) (outputBytesCount : Z) : list jsstr * Z * TruncatedBy * bool :=
  match rlines with
  | [] => (outputLinesArr, outputBytesCount, ByLines, false)
  | line :: rest =>
      let collected := Z.of_nat (length outputLinesArr) in
      if collected <? maxLines then
        let lineBytes := byteLength line + (if 0 <? collected then 1 else 0) in
        if maxBytes <? outputBytesCount + lineBytes then
          if forallb (fun l => bool_decide (l = [])) outputLinesArr then
            let keptBlanks := Z.min collected (Z.max 0 (maxBytes - 1)) in
            let truncatedLine := truncateStringToBytesFromEnd line (maxBytes - keptBlanks) in
            (truncatedLine :: take (Z.to_nat keptBlanks) outputLinesArr,
             byteLength truncatedLine + keptBlanks, ByBytes, true)
          else (outputLinesArr, outputBytesCount, ByBytes, false)
        else truncateTail_loop rest maxLines maxBytes (line :: outputLinesArr) (outputBytesCount + lineBytes)
      else (outputLinesArr, outputBytesCount, ByLines, false)
  end.

(** TR 153-224 truncateTail. *)
Definition truncateTail (text : jsstr) (options : TruncationOptions) : TruncationResult :=
  let maxLines := default DEFAULT_MAX_LINES (opt_maxLines options) in
  let maxBytes := default DEFAULT_MAX_BYTES (opt_maxBytes options) in
  let totalBytes := byteLength text in
  let lines := lines_of text in
  let totalLines := Z.of_nat (length lines) in
  if (totalLines <=? maxLines) && (totalBytes <=? maxBytes) then
    {| content := text; truncated := false; truncatedBy := None; totalLines := totalLines;
       totalBytes := totalBytes; outputLines := totalLines; outputBytes := totalBytes;
       lastLinePartial := false; firstLineExceedsLimit := false;
       res_maxLines := maxLines; res_maxBytes := maxBytes |}
  else
    let '(outputLinesArr, outputBytesCount, by_, partial) :=
      truncateTail_loop (reverse lines) maxLines maxBytes [] 0 in
    let by_ := if (maxLines <=? Z.of_nat (length outputLinesArr)) && (outputBytesCount <=? maxBytes)
               then ByLines else by_ in
    let outputContent := unlines outputLinesArr in
    {| content := outputContent; truncated := true; truncatedBy := Some by_; totalLines := totalLines;
       totalBytes := totalBytes; outputLines := Z.of_nat (length outputLinesArr);
       outputBytes := byteLength outputContent;
       lastLinePartial := partial; firstLineExceedsLimit := false;
       res_maxLines := maxLines; res_maxBytes := maxBytes |}.

(** TR 250-258 truncateLine. *)
Definition truncateLine (line : jsstr) (maxChars : Z) : jsstr * bool :=
  if Z.of_nat (length line) <=? maxChars then (line, false)
  else (slice_to maxChars line ++ js "... [truncated]", true).

(** ** Examples *)

Definition opts (ml mb : Z) : TruncationOptions :=
  {| opt_maxLines := Some ml; opt_maxBytes := Some mb |}.

Example truncateHead_ex :
  content (truncateHead (unlines [js "ab"; js "cd"; js "ef"]) (opts 2 100)) = unlines [js "ab"; js "cd"].
Proof. reflexivity. Qed.
Example truncateTail_ex :
  content (truncateTail (unlines [js "xxxx"; []; []; []]) (opts 5 2)) = unlines [js "x"; []].
Proof. reflexivity. Qed.
Example formatSize_ex : formatSize 1536 = js "1.5KB". Proof. reflexivity. Qed.

(** ** Bytes of joined lines *)

(** The running count of both loops: the bytes of the lines collected so far. *)
Lemma byteLength_unlines_snoc ls l :
  byteLength (unlines (ls ++ [l])) =
    byteLength (unlines ls) + byteLength l + (if bool_decide (ls = []) then 0 else 1).
Proof.
  rewrite !byteLength_unlines, sumZ_app, length_app. unfold sumZ at 2. simpl.
  case_bool_decide as H; [subst; simpl; lia|]. destruct ls; [done|]. simpl. lia.
Qed.

Lemma byteLength_unlines_cons l ls :
  byteLength (unlines (l :: ls)) =
    byteLength l + byteLength (unlines ls) + (if bool_decide (ls = []) then 0 else 1).
Proof.
  rewrite !byteLength_unlines, sumZ_cons. simpl.
  case_bool_decide as H; [subst; simpl; lia|]. destruct ls; [done|]. simpl. lia.
Qed.

Lemma byteLength_unlines_app ls ks :
  ls <> [] -> ks <> [] ->
  byteLength (unlines (ls ++ ks)) = byteLength (unlines ls) + 1 + byteLength (unlines ks).
Proof.
  intros H1 H2. rewrite !byteLength_unlines, sumZ_app, length_app.
  destruct ls, ks; try done. simpl. lia.
Qed.

Lemma length_pos_iff {A} (l : list A) : (0 <? Z.of_nat (length l)) = negb (bool_decide (l = [])).
Proof. destruct l; simpl; [done|]. apply Z.ltb_lt. lia. Qed.

Lemma separator_flag {A} (l : list A) :
  (if 0 <? Z.of_nat (length l) then 1 else 0) = (if bool_decide (l = []) then 0 else 1).
Proof. rewrite length_pos_iff. by destruct (bool_decide _). Qed.

(** ** The head loop *)

(** Started on the lines after [out], the loop returns a prefix of the lines that fits, counts its
    bytes, and stops early only at a line that would not fit. *)
Lemma truncateHead_loop_spec rest out maxLines maxBytes res count by_ :
  byteLength (unlines out) <= maxBytes \/ out = [] ->
  truncateHead_loop rest (Z.of_nat (length out)) maxLines maxBytes out (byteLength (unlines out)) =
    (res, count, by_) ->
  exists k, res = out ++ take k rest /\ (k <= length rest)%nat /\
    count = byteLength (unlines res) /\
    (Z.of_nat (length res) <= maxLines \/ k = 0%nat) /\
    (count <= maxBytes \/ res = []) /\
    match rest !! k with
    | None => True
    | Some l => match by_ with
                | ByLines => maxLines <= Z.of_nat (length res)
                | ByBytes => maxBytes < byteLength (unlines (res ++ [l]))
                end
    end.
Proof.
  revert out. induction rest as [|line rest IH]; intros out Hout; simpl.
  { intros [= <- <- <-]. exists 0%nat. rewrite app_nil_r. simpl. split_lia; auto. }
  destruct (_ <? maxLines) eqn:El; to_prop.
  2:{ intros [= <- <- <-]. exists 0%nat. rewrite app_nil_r. simpl. split_lia; auto. }
  rewrite separator_flag.
  replace (byteLength (unlines out) + _) with (byteLength (unlines (out ++ [line])))
    by (rewrite byteLength_unlines_snoc; lia).
  destruct (maxBytes <? _) eqn:Eb; to_prop.
  { intros [= <- <- <-]. exists 0%nat. rewrite app_nil_r. simpl. split_lia; auto. }
  replace (Z.of_nat (length out) + 1) with (Z.of_nat (length (out ++ [line])))
    by (rewrite length_app; simpl; lia).
  intros Hrun. apply IH in Hrun as (k & -> & Hk & Hc & Hl & Hb & Hn); [|by left].
  exists (S k). rewrite <- (assoc_L app). simpl.
  split_lia; try done; try (by left).
  - rewrite <- (assoc_L app) in Hc. by simpl in Hc.
  - left. rewrite !length_app in *. simpl in *. destruct Hl as [Hl| ->]; simpl; lia.
  - destruct Hb as [Hb|Hb]; [by left|]. by destruct out.
  - rewrite <- (assoc_L app) in Hn. simpl in Hn. by rewrite !length_app in *.
Qed.

Definition maxLines_of (o : TruncationOptions) : Z := default DEFAULT_MAX_LINES (opt_maxLines o).
Definition maxBytes_of (o : TruncationOptions) : Z := default DEFAULT_MAX_BYTES (opt_maxBytes o).

Lemma take_S_lines (ls : list jsstr) k l : ls !! k = Some l -> take (S k) ls = take k ls ++ [l].
Proof. apply take_S_r. Qed.

Lemma lines_of_hd text l : lines_of text !! 0%nat = Some l -> hd [] (lines_of text) = l.
Proof. destruct (lines_of text); simpl; congruence. Qed.

(** What [r] reports when it keeps the first [k] lines [kept] of [lines] under the two limits. *)
Definition head_report (r : TruncationResult) (lines : list jsstr) (k : nat) (maxLines maxBytes : Z) : Prop :=
  content r = unlines (take k lines) /\
  outputLines r = Z.of_nat k /\
  outputBytes r = byteLength (content r) /\
  outputLines r <= Z.max 0 maxLines /\
  outputBytes r <= maxBytes /\
  (truncated r = false <-> k = length lines) /\
  match truncatedBy r with
  | None => truncated r = false
  | Some ByLines => (k < length lines)%nat /\ maxLines <= Z.of_nat k
  | Some ByBytes => (k < length lines)%nat /\ maxBytes < byteLength (unlines (take (S k) lines))
  end.

Lemma head_report_whole text maxLines maxBytes :
  Z.of_nat (length (lines_of text)) <= maxLines -> byteLength text <= maxBytes ->
  head_report
    {| content := text; truncated := false; truncatedBy := None;
       totalLines := Z.of_nat (length (lines_of text));
       totalBytes := byteLength text; outputLines := Z.of_nat (length (lines_of text));
       outputBytes := byteLength text;
       lastLinePartial := false; firstLineExceedsLimit := false;
       res_maxLines := maxLines; res_maxBytes := maxBytes |}
    (lines_of text) (length (lines_of text)) maxLines maxBytes.
Proof.
  intros. unfold head_report. simpl. rewrite take_ge, unlines_lines by lia. split_lia; done.
Qed.

Lemma truncateHead_report (text : jsstr) (o : TruncationOptions) (Hb : 0 <= maxBytes_of o) :
  exists k, (k <= length (lines_of text))%nat /\
    head_report (truncateHead text o) (lines_of text) k (maxLines_of o) (maxBytes_of o).
Proof.
  unfold truncateHead. fold (maxLines_of o) (maxBytes_of o).
  set (ml := maxLines_of o) in *. set (mb := maxBytes_of o) in *.
  destruct (_ && _) eqn:Ew; to_prop; [eexists; split; [reflexivity|by apply head_report_whole]|].
  pose proof (lines_of_nonempty text) as Hne. assert (0 < length (lines_of text))%nat
    by (destruct (lines_of text); [done|simpl; lia]).
  destruct (lookup_lt_is_Some_2 (lines_of text) 0%nat ltac:(lia)) as [l0 Hl0].
  rewrite (lines_of_hd _ _ Hl0). destruct (mb <? byteLength l0) eqn:E0; to_prop.
  { exists 0%nat. split; [lia|]. unfold head_report. simpl.
    rewrite (take_S_r _ _ _ Hl0). simpl. split_lia; done. }
  destruct (truncateHead_loop _ 0 ml mb [] 0) as [[res count] by_] eqn:Erun.
  apply (truncateHead_loop_spec (lines_of text) []) in Erun as (k & -> & Hk & -> & Hl & Hc & Hn); [|by right].
  rewrite app_nil_l, length_take_le in * by lia. exists k. split; [done|].
  assert (Hbytes : byteLength (unlines (take k (lines_of text))) <= mb)
    by (destruct Hc as [?| ->]; [done|by change (0 <= mb)]).
  assert (Hlt : (k < length (lines_of text))%nat).
  { destruct (decide (k = length (lines_of text))) as [->|]; [|lia]. exfalso.
    rewrite take_ge, unlines_lines in Hbytes by lia. apply andb_false_iff in Ew. lia. }
  destruct (lookup_lt_is_Some_2 _ _ Hlt) as [l Hlk]. rewrite Hlk in Hn.
  rewrite <- (take_S_r _ _ _ Hlk) in Hn.
  unfold head_report. simpl.
  refine (conj eq_refl (conj eq_refl (conj eq_refl (conj _ (conj Hbytes (conj _ _)))))).
  - destruct Hl; lia.
  - split; [done|lia].
  - destruct ((ml <=? Z.of_nat k) && _) eqn:Eby; to_prop; [lia|].
    apply andb_false_iff in Eby. destruct by_; [|by split]. split; [done|]. lia.
Qed.

(** [truncateHead] keeps the longest run of whole first lines that the two limits allow: its
    content is the first [k] lines, the line and byte counts it reports are those of the content and
    within the limits, and when lines were dropped the limit it names is one that the next line
    would break. *)
Theorem truncateHead_keeps_prefix (text : jsstr) (o : TruncationOptions) (Hb : 0 <= maxBytes_of o) :
  exists k, (k <= length (lines_of text))%nat /\
    head_report (truncateHead text o) (lines_of text) k (maxLines_of o) (maxBytes_of o).
Proof. by apply truncateHead_report. Qed.

Lemma truncateHead_keeps_prefix_witness :
  0 <= maxBytes_of (opts 2 4) /\
  exists k, (k <= length (lines_of (unlines [js "ab"; js "cd"])))%nat /\
    head_report (truncateHead (unlines [js "ab"; js "cd"]) (opts 2 4))
      (lines_of (unlines [js "ab"; js "cd"])) k (maxLines_of (opts 2 4)) (maxBytes_of (opts 2 4)).
Proof. split; [done|]. apply truncateHead_keeps_prefix. done. Defined.

(** ** Cutting a string at a character boundary *)

Lemma skip_continuation_app_conts cs rest :
  Forall (fun b => is_cont b = true) cs -> skip_continuation (cs ++ rest) = skip_continuation rest.
Proof. induction 1 as [|b cs Hb _ IH]; [done|]. simpl. by rewrite Hb. Qed.

Lemma skip_continuation_encode cps :
  Forall is_scalar cps -> skip_continuation (utf8_encode cps) = utf8_encode cps.
Proof.
  destruct 1 as [|cp cps Hcp _]; [done|].
  change (utf8_encode (cp :: cps)) with (utf8_encode1 cp ++ utf8_encode cps).
  destruct (utf8_encode1_shape cp Hcp) as (b & bs & -> & Hb & _). simpl. by rewrite Hb.
Qed.

(** Wherever the bytes are cut, moving on to the next boundary leaves whole characters. *)
Lemma skip_continuation_drop cps n :
  Forall is_scalar cps ->
  exists k, skip_continuation (drop n (utf8_encode cps)) = utf8_encode (drop k cps).
Proof.
  intros Hs. revert n. induction Hs as [|cp cps Hcp Hcps IH]; intros n.
  { exists 0%nat. by destruct n. }
  change (utf8_encode (cp :: cps)) with (utf8_encode1 cp ++ utf8_encode cps).
  destruct (utf8_encode1_shape cp Hcp) as (b & bs & Henc & Hb & Hbs).
  destruct n as [|n].
  { exists 0%nat. rewrite !drop_0. apply (skip_continuation_encode (cp :: cps)). by constructor. }
  destruct (decide (n < length bs)%nat) as [Hn|Hn]; rewrite Henc; simpl.
  - exists 1%nat. rewrite drop_app_le by lia. simpl.
    rewrite skip_continuation_app_conts by by apply Forall_drop.
    rewrite drop_0. by apply skip_continuation_encode.
  - rewrite drop_app_ge by lia. destruct (IH (n - length bs)%nat) as [k ->]. by exists (S k).
Qed.

Lemma skip_continuation_length buf : (length (skip_continuation buf) <= length buf)%nat.
Proof. induction buf as [|b buf IH]; simpl; [lia|]. destruct (is_cont b); simpl; lia. Qed.

(** The kept bytes are a suffix of the string's bytes, in whole characters, within the limit. *)
Lemma truncateStringToBytesFromEnd_spec str maxBytes :
  js_wf str -> 0 <= maxBytes ->
  byteLength (truncateStringToBytesFromEnd str maxBytes) <= maxBytes /\
  exists k, buffer_from (truncateStringToBytesFromEnd str maxBytes) =
    utf8_encode (drop k (code_points str)).
Proof.
  intros Hwf Hm. unfold truncateStringToBytesFromEnd.
  destruct (_ <=? maxBytes) eqn:E; to_prop; [split; [done|by exists 0%nat]|].
  pose proof (code_points_scalar _ Hwf) as Hs.
  destruct (skip_continuation_drop (code_points str)
    (Z.to_nat (Z.of_nat (length (buffer_from str)) - maxBytes)) Hs) as [k Hk].
  unfold byteLength. fold (buffer_from str) in Hk. rewrite Hk.
  rewrite buffer_from_toString by by apply Forall_drop. split; [|by exists k].
  rewrite <- Hk. etrans; [apply inj_le, skip_continuation_length|]. rewrite length_drop. lia.
Qed.

(** ** The tail loop *)

(** Every line collected so far is blank. *)
Definition all_blank (ls : list jsstr) : bool := forallb (fun l => bool_decide (l = [])) ls.

Lemma blanks_unlines ls :
  all_blank ls = true ->
  byteLength (unlines ls) = Z.of_nat (pred (length ls)).
Proof.
  intros H. rewrite byteLength_unlines.
  assert (sumZ byteLength ls = 0) as ->; [|lia].
  induction ls as [|l ls IH]; [done|]. unfold all_blank in H. simpl in H. to_prop. subst. rewrite sumZ_cons, IH by done. done.
Qed.

Lemma blanks_take ls n :
  all_blank ls = true ->
  all_blank (take n ls) = true.
Proof.
  revert n. induction ls as [|l ls IH]; intros n H; [by destruct n|].
  unfold all_blank in H. simpl in H. to_prop. destruct n as [|n]; [done|]. simpl.
  unfold all_blank. simpl. apply andb_true_iff. split; [by apply bool_decide_eq_true|by apply IH].
Qed.

(** The reversed lines [rlines] still to be read, with [out] collected: the loop extends [out] with
    whole lines that fit, or, when [out] holds only blank lines, ends with a cut line. *)
Lemma truncateTail_loop_spec rlines out maxLines maxBytes res count by_ partial :
  Forall js_wf rlines -> 0 <= maxBytes ->
  byteLength (unlines out) <= maxBytes ->
  truncateTail_loop rlines maxLines maxBytes out (byteLength (unlines out)) = (res, count, by_, partial) ->
  count = byteLength (unlines res) /\ count <= maxBytes /\
  (Z.of_nat (length res) <= maxLines \/ res = out) /\
  exists k, (k <= length rlines)%nat /\
    if partial then
      exists line tl blanks, rlines !! k = Some line /\ res = tl :: blanks /\
        all_blank blanks = true /\
        all_blank (reverse (take k rlines) ++ out) = true /\
        maxBytes < byteLength (unlines (line :: reverse (take k rlines) ++ out)) /\
        exists j, buffer_from tl = utf8_encode (drop j (code_points line))
    else res = reverse (take k rlines) ++ out /\
      match rlines !! k with
      | None => True
      | Some l => match by_ with
                  | ByLines => maxLines <= Z.of_nat (length res)
                  | ByBytes => maxBytes < byteLength (unlines (l :: res))
                  end
      end.
Proof.
  intros Hwf Hm. revert out. induction Hwf as [|line rlines Hline Hwf IH]; intros out Hout; simpl.
  { intros [= <- <- <- <-]. split_and!; [done|done|by right|]. exists 0%nat. split; [simpl; lia|done]. }
  destruct (_ <? maxLines) eqn:El; to_prop.
  2:{ intros [= <- <- <- <-]. split_and!; [done|done|by right|]. exists 0%nat.
      split; [simpl; lia|]. split; [done|]. simpl. lia. }
  rewrite separator_flag.
  replace (byteLength (unlines out) + _) with (byteLength (unlines (line :: out)))
    by (rewrite byteLength_unlines_cons; lia).
  destruct (maxBytes <? _) eqn:Eb; to_prop; [fold (all_blank out); destruct (all_blank out) eqn:Ebl|].
  - (* the line is cut *)
    intros [= <- <- <- <-]. pose proof (blanks_unlines _ Ebl) as Hbl.
    set (kept := Z.min _ _) in *.
    destruct (truncateStringToBytesFromEnd_spec line (maxBytes - kept) Hline ltac:(lia)) as [Hle [j Hj]].
    set (tl := truncateStringToBytesFromEnd _ _) in *.
    assert (Hlt : length (take (Z.to_nat kept) out) = Z.to_nat kept) by (rewrite length_take; lia).
    assert (Hcnt : byteLength (unlines (tl :: take (Z.to_nat kept) out)) = byteLength tl + kept).
    { rewrite byteLength_unlines_cons, (blanks_unlines _ (blanks_take _ _ Ebl)), Hlt.
      case_bool_decide as H0; [rewrite H0 in Hlt; simpl in Hlt; lia|].
      destruct (take (Z.to_nat kept) out); [done|]. simpl in Hlt. lia. }
    split_and!; [done|lia|left; simpl; rewrite Hlt; lia|]. exists 0%nat. split; [lia|].
    exists line, tl, (take (Z.to_nat kept) out). split_and!; try done; [by apply blanks_take|].
    by exists j.
  - intros [= <- <- <- <-]. split_and!; [done|done|by right|]. exists 0%nat. split; [simpl; lia|done].
  - intros Hrun. apply IH in Hrun as (-> & Hc & Hl & k & Hk & Hres); [|done].
    split_and!; [done|done|destruct Hl as [?| ->]; left; simpl in *; lia|].
    exists (S k). split; [simpl; lia|]. simpl. rewrite reverse_cons, <- (assoc_L app). done.
Qed.

Lemma split_on_wf c s : js_wf s -> Forall js_wf (split_on c s).
Proof.
  induction 1 as [|x s Hx _ IH]; simpl; [repeat constructor|].
  destruct (x =? c)%N; [by repeat constructor|].
  destruct (split_on c s) as [|l ls]; [by repeat constructor|].
  inversion IH; subst. constructor; [by constructor|done].
Qed.

Lemma reverse_take_reverse {A} (l : list A) k :
  (k <= length l)%nat -> reverse (take k (reverse l)) = drop (length l - k) l.
Proof.
  intros Hk. rewrite <- (reverse_involutive (drop _ _)). f_equal.
  rewrite <- (take_drop (length l - k) l) at 1. rewrite reverse_app.
  rewrite take_app_le by (rewrite length_reverse, length_drop; lia).
  apply take_ge. rewrite length_reverse, length_drop. lia.
Qed.

Lemma lookup_reverse {A} (l : list A) k x :
  reverse l !! k = Some x -> l !! (length l - S k)%nat = Some x.
Proof.
  intros H. assert (k < length l)%nat by (apply lookup_lt_Some in H; by rewrite length_reverse in H).
  rewrite reverse_lookup in H by done. done.
Qed.

Lemma truncateTail_bounded (text : jsstr) (o : TruncationOptions)
    (Hwf : js_wf text) (Hb : 0 <= maxBytes_of o) :
  let r := truncateTail text o in
  outputBytes r = byteLength (content r) /\
  outputBytes r <= maxBytes_of o /\
  outputLines r <= Z.max 0 (maxLines_of o).
Proof.
  unfold truncateTail. fold (maxLines_of o) (maxBytes_of o).
  destruct (_ && _) eqn:Ew; to_prop; simpl; [split_lia|].
  destruct (truncateTail_loop _ _ _ [] 0) as [[[res count] by_] partial] eqn:Erun. simpl.
  assert (Forall js_wf (reverse (lines_of text))) by (apply Forall_reverse, split_on_wf, Hwf).
  apply (truncateTail_loop_spec (reverse (lines_of text)) []) in Erun as (-> & Hc & Hl & _); [|done..].
  split_lia; try done. destruct Hl as [?| ->]; simpl; lia.
Qed.

(** [truncateTail] respects both limits on every text, also when it cuts a line: the bytes it
    reports are those of its content and within the byte limit, and it keeps at most the line limit. *)
Theorem truncateTail_bounds (text : jsstr) (o : TruncationOptions)
    (Hwf : js_wf text) (Hb : 0 <= maxBytes_of o) :
  let r := truncateTail text o in
  outputBytes r = byteLength (content r) /\
  outputBytes r <= maxBytes_of o /\
  outputLines r <= Z.max 0 (maxLines_of o).
Proof. by apply truncateTail_bounded. Qed.

Lemma truncateTail_bounds_witness :
  (js_wf (js "hello") /\ 0 <= maxBytes_of (opts 2 4)) /\
  let r := truncateTail (js "hello") (opts 2 4) in
  outputBytes r = byteLength (content r) /\ outputBytes r <= maxBytes_of (opts 2 4) /\
  outputLines r <= Z.max 0 (maxLines_of (opts 2 4)).
Proof.
  assert (H : js_wf (js "hello")) by (repeat (constructor; [done|]); constructor).
  split; [split; [exact H|done]|]. apply (truncateTail_bounds (js "hello") (opts 2 4)); [exact H|done].
Defined.

(** Unless it had to cut a line, [truncateTail] keeps the longest run of whole last lines that the
    limits allow: its content is the text without its first [k] lines, nothing is dropped exactly
    when it reports no truncation, and otherwise one more line would break a limit. *)
Theorem truncateTail_keeps_suffix (text : jsstr) (o : TruncationOptions)
    (Hwf : js_wf text) (Hb : 0 <= maxBytes_of o) :
  let r := truncateTail text o in
  let lines := lines_of text in
  lastLinePartial r = false ->
  exists k, (k <= length lines)%nat /\
    content r = unlines (drop k lines) /\
    outputLines r = Z.of_nat (length lines - k) /\
    (truncated r = false <-> k = 0%nat) /\
    ((0 < k)%nat -> maxLines_of o <= outputLines r \/
                    maxBytes_of o < byteLength (unlines (drop (k - 1) lines))).
Proof.
  unfold truncateTail. fold (maxLines_of o) (maxBytes_of o).
  destruct (_ && _) eqn:Ew; to_prop; simpl.
  { intros _. exists 0%nat. rewrite drop_0, unlines_lines. split_lia. }
  destruct (truncateTail_loop _ _ _ [] 0) as [[[res count] by_] partial] eqn:Erun. simpl.
  assert (Hrev : Forall js_wf (reverse (lines_of text))) by (apply Forall_reverse, split_on_wf, Hwf).
  intros ->. apply (truncateTail_loop_spec (reverse (lines_of text)) []) in Erun
    as (-> & Hc & Hl & k & Hk & -> & Hn); [|done..].
  rewrite length_reverse in Hk. rewrite app_nil_r, reverse_take_reverse in * by done.
  exists (length (lines_of text) - k)%nat. rewrite length_drop in *.
  assert (Hlt : (k < length (lines_of text))%nat).
  { destruct (decide (k = length (lines_of text))) as [->|]; [|lia]. exfalso.
    rewrite Nat.sub_diag, drop_0, unlines_lines in *. apply andb_false_iff in Ew.
    destruct Hl as [Hl|Hl]; [lia|]. by apply lines_of_nonempty in Hl. }
  split_and!; [lia|done|lia|split; [done|lia]|intros _].
  destruct (lookup_lt_is_Some_2 (reverse (lines_of text)) k) as [l Hlk]; [by rewrite length_reverse|].
  rewrite Hlk in Hn. destruct by_; [left; lia|right].
  apply lookup_reverse in Hlk.   replace (length (lines_of text) - k - 1)%nat with (length (lines_of text) - S k)%nat by lia.
  rewrite (drop_S _ _ _ Hlk). by replace (S (length (lines_of text) - S k)) with (length (lines_of text) - k)%nat by lia.
Qed.

Lemma truncateTail_keeps_suffix_witness :
  (js_wf (unlines [js "ab"; js "cd"]) /\ 0 <= maxBytes_of (opts 1 4) /\
   lastLinePartial (truncateTail (unlines [js "ab"; js "cd"]) (opts 1 4)) = false) /\
  exists k, (k <= 2)%nat /\
    content (truncateTail (unlines [js "ab"; js "cd"]) (opts 1 4)) = unlines (drop k [js "ab"; js "cd"]).
Proof.
  assert (H : js_wf (unlines [js "ab"; js "cd"])) by (repeat (constructor; [done|]); constructor).
  split; [split; [exact H|split; [done|reflexivity]]|].
  destruct (truncateTail_keeps_suffix (unlines [js "ab"; js "cd"]) (opts 1 4) H ltac:(done) eq_refl)
    as (k & Hk & Hc & _).
  exists k. split; [exact Hk|exact Hc].
Defined.

(** With a limit of one line, a single line cut for its bytes is reported as cut for its lines. *)
Example truncateTail_reports_lines :
  let r := truncateTail (js "aaaaaaaa") (opts 1 4) in
  totalLines r = 1 /\ lastLinePartial r = true /\ truncatedBy r = Some ByLines.
Proof. by vm_compute. Qed.

(** ** Lines of the truncated text *)

Lemma lines_unlines_length ls :
  Forall (fun l => LF ∉ l) ls -> length (lines_of (unlines ls)) = Nat.max 1 (length ls).
Proof.
  intros H. destruct ls as [|l ls]; [done|]. rewrite lines_unlines by done. simpl. lia.
Qed.

Lemma all_blank_no_LF ls : all_blank ls = true -> Forall (fun l => LF ∉ l) ls.
Proof.
  induction ls as [|l ls IH]; [constructor|]. unfold all_blank. simpl. intros H. to_prop. subst.
  constructor; [set_solver|by apply IH].
Qed.

(** The text kept has as many lines as the result reports (the empty text has one). *)
Lemma truncateHead_lines text o :
  0 <= maxBytes_of o ->
  Z.of_nat (length (lines_of (content (truncateHead text o)))) = Z.max 1 (outputLines (truncateHead text o)).
Proof.
  intros Hb. destruct (truncateHead_report text o Hb) as (k & Hk & -> & -> & _).
  rewrite lines_unlines_length by apply Forall_take, lines_of_no_LF. rewrite length_take. lia.
Qed.

Lemma truncateTail_lines text o :
  js_wf text -> 0 <= maxBytes_of o ->
  Z.of_nat (length (lines_of (content (truncateTail text o)))) = Z.max 1 (outputLines (truncateTail text o)).
Proof.
  intros Hwf Hb. unfold truncateTail. fold (maxLines_of o) (maxBytes_of o).
  destruct (_ && _) eqn:Ew; simpl.
  { pose proof (lines_of_nonempty text). destruct (lines_of text); [done|]. simpl. lia. }
  destruct (truncateTail_loop _ _ _ [] 0) as [[[res count] by_] partial] eqn:Erun. simpl.
  assert (Forall js_wf (reverse (lines_of text))) by (apply Forall_reverse, split_on_wf, Hwf).
  apply (truncateTail_loop_spec (reverse (lines_of text)) []) in Erun
    as (_ & _ & _ & k & Hk & Hres); [|done..].
  rewrite lines_unlines_length; [lia|].
  assert (Hr : Forall (fun l => LF ∉ l) (reverse (lines_of text))) by apply Forall_reverse, lines_of_no_LF.
  destruct partial.
  - destruct Hres as (line & tl & blanks & Hl & -> & Hbl & _ & _ & j & Hj). constructor.
    + eapply no_LF_of_bytes; [|exact Hj]. by eapply Forall_lookup_1 in Hr.
    + by apply all_blank_no_LF.
  - destruct Hres as [-> _]. rewrite app_nil_r. by apply Forall_reverse, Forall_take.
Qed.
