(* ===== verification/ContextBudget.v ===== *)
(** * The context budget (core/context-budget.ts)

    Resolution of the budget flags from the environment, the settings and the
    defaults. The warnings the source logs are the output of a writer monad,
    in the order it logs them. *)

(* Source aliases:
   CB = src/packages/coding-agent/src/core/context-budget.ts *)

From S2P Require Import Prelude JsString JsNumber.
From stdpp Require Import gmap.
Local Open Scope Z_scope.

(** ** Settings and resolved budget *)

(** CB 7-12 ContextBudgetSettings.toolOutputCap. *)
Record ToolOutputCapSettings := {
  cap_enabled : option bool; cap_maxLines : option num; cap_maxBytes : option num; cap_headRatio : option num }.
(** CB 13-17 ContextBudgetSettings.imageTtl. *)
Record ImageTtlSettings := {
  ttl_enabled : option bool; ttl_ttlTurns : option num; ttl_paybackTurns : option num }.
(** CB 18-23 ContextBudgetSettings.contextJanitor. *)
Record ContextJanitorSettings := {
  jan_enabled : option bool; jan_minTokens : option num; jan_minTurns : option num;
  jan_successDumpMinBytes : option num }.
(** CB 6-24 ContextBudgetSettings. *)
Record ContextBudgetSettings := {
  set_toolOutputCap : option ToolOutputCapSettings;
  set_imageTtl : option ImageTtlSettings;
  set_contextJanitor : option ContextJanitorSettings }.

(** CB 26-30 ResolvedContextBudget. *)
Record ResolvedContextBudget := {
  r_cap_enabled : bool; r_maxLines : num; r_maxBytes : num; r_headRatio : num;
  r_ttl_enabled : bool; r_ttlTurns : num; r_paybackTurns : num;
  r_jan_enabled : bool; r_minTokens : num; r_minTurns : num; r_successDumpMinBytes : num }.

(** The double nearest to six tenths. *)
Definition six_tenths : Q := Eval vm_compute in rnd (6 # 10).

(** CB 32-32 DEFAULT_TOOL_OUTPUT_CAP. *)
Definition DEFAULT_maxLines : num := num_Z 200.
Definition DEFAULT_maxBytes : num := num_Z 16384.
Definition DEFAULT_headRatio : num := Fin six_tenths.
(** CB 33-33 DEFAULT_IMAGE_TTL. *)
Definition DEFAULT_ttlTurns : num := num_Z 2.
Definition DEFAULT_paybackTurns : num := num_Z 2.
(** CB 34-39 DEFAULT_CONTEXT_JANITOR. *)
Definition DEFAULT_minTokens : num := num_Z 40000.
Definition DEFAULT_minTurns : num := num_Z 15.
Definition DEFAULT_successDumpMinBytes : num := num_Z 8192.

(** The environment: a variable that is absent reads as [undefined]. *)
Abbreviation environment := (gmap string jsstr).

(** ** Warnings *)

Inductive Warning :=
| InvalidEnv (name : string) (value : jsstr) (fallback : num)
| InvalidSetting (name : string) (value : num) (fallback : num).

(** A computation that logs warnings. *)
Definition logged (A : Type) : Type := A * list Warning.
Definition ret {A} (a : A) : logged A := (a, []).
Definition warn (w : Warning) : logged unit := (tt, [w]).
Definition bindW {A B} (m : logged A) (f : A -> logged B) : logged B :=
  let '(a, w) := m in let '(b, w') := f a in (b, w ++ w').

Declare Scope logged_scope.
Delimit Scope logged_scope with logged.
Notation "'let!' x ':=' m 'in' k" := (bindW m (fun x => k))
  (at level 10, x pattern, m at level 100, k at level 200) : logged_scope.
Local Open Scope logged_scope.

(** ** Parsing *)

(** CB 57-69 parseBoolean. *)
Definition parseBoolean (value : option jsstr) : option bool :=
  match value with
  | None => None
  | Some v =>
      let normalized := lower1 <$> trim v in
      if bool_decide (normalized ∈ [js "1"; js "true"; js "yes"; js "on"]) then Some true
      else if bool_decide (normalized ∈ [js "0"; js "false"; js "no"; js "off"]) then Some false
      else None
  end.

(** CB 71-77 parseNumber. *)
Definition parseNumber (value : option jsstr) : option num :=
  match value with
  | None => None
  | Some v =>
      if bool_decide (trim v = []) then None
      else let parsed := Number v in if is_finite parsed then Some parsed else None
  end.

(** The shape the three resolvers of the source share: a valid environment value wins, then a valid
    setting, then the fallback; an invalid value is logged. *)
Definition resolve (valid : num -> bool) (envName : string) (env : environment)
    (setting : option num) (fallback : num) : logged num :=
  let from_setting : logged num :=
    match setting with
    | Some s => if valid s then ret s
                else let! _ := warn (InvalidSetting envName s fallback) in ret fallback
    | None => ret fallback
    end in
  match env !! envName with
  | Some raw =>
      match parseNumber (Some raw) with
      | Some parsed =>
          if valid parsed then ret parsed
          else let! _ := warn (InvalidEnv envName raw fallback) in from_setting
      | None => let! _ := warn (InvalidEnv envName raw fallback) in from_setting
      end
  | None => from_setting
  end.

Definition positive_int (x : num) : bool := is_integer x && num_lt (num_Z 0) x.
Definition nonnegative_int (x : num) : bool := is_integer x && num_le (num_Z 0) x.
Definition unit_ratio (x : num) : bool := num_le (num_Z 0) x && num_le x (num_Z 1).

(** CB 79-101 resolvePositiveInt. *)
Definition resolvePositiveInt := resolve positive_int.
(** CB 103-125 resolveNonNegativeInt. *)
Definition resolveNonNegativeInt := resolve nonnegative_int.
(** CB 127-149 resolveRatio. *)
Definition resolveRatio := resolve unit_ratio.

(** [a ?? b ?? false] on the enabled flags. *)
Definition flag (env : environment) (name : string) (setting : option bool) : bool :=
  match parseBoolean (env !! name) with Some b => b | None => default false setting end.

(** CB 41-53 CONTEXT_BUDGET_ENV. *)
Definition ENV_toolOutputCapEnabled : string := "PRIME_AGENT_TOOL_OUTPUT_CAP".
Definition ENV_toolOutputCapMaxLines : string := "PRIME_AGENT_TOOL_OUTPUT_MAX_LINES".
Definition ENV_toolOutputCapMaxBytes : string := "PRIME_AGENT_TOOL_OUTPUT_MAX_BYTES".
Definition ENV_toolOutputCapHeadRatio : string := "PRIME_AGENT_TOOL_OUTPUT_HEAD_RATIO".
Definition ENV_imageTtlEnabled : string := "PRIME_AGENT_IMAGE_TTL".
Definition ENV_imageTtlTurns : string := "PRIME_AGENT_IMAGE_TTL_TURNS".
Definition ENV_imageTtlPaybackTurns : string := "PRIME_AGENT_IMAGE_TTL_PAYBACK_TURNS".
Definition ENV_contextJanitorEnabled : string := "PRIME_AGENT_CONTEXT_JANITOR".
Definition ENV_contextJanitorMinTokens : string := "PRIME_AGENT_CONTEXT_JANITOR_TOKENS".
Definition ENV_contextJanitorMinTurns : string := "PRIME_AGENT_CONTEXT_JANITOR_TURNS".
Definition ENV_contextJanitorSuccessBytes : string := "PRIME_AGENT_CONTEXT_JANITOR_SUCCESS_BYTES".

(** CB 156-225 resolveContextBudget. *)
Definition resolveContextBudget (settings : ContextBudgetSettings) (env : environment)
    : logged ResolvedContextBudget :=
  let cap := set_toolOutputCap settings in
  let ttl := set_imageTtl settings in
  let jan := set_contextJanitor settings in
  let! maxLines := resolvePositiveInt ENV_toolOutputCapMaxLines env (cap ≫= cap_maxLines) DEFAULT_maxLines in
  let! maxBytes := resolvePositiveInt ENV_toolOutputCapMaxBytes env (cap ≫= cap_maxBytes) DEFAULT_maxBytes in
  let! headRatio := resolveRatio ENV_toolOutputCapHeadRatio env (cap ≫= cap_headRatio) DEFAULT_headRatio in
  let! ttlTurns := resolveNonNegativeInt ENV_imageTtlTurns env (ttl ≫= ttl_ttlTurns) DEFAULT_ttlTurns in
  let! paybackTurns := resolvePositiveInt ENV_imageTtlPaybackTurns env (ttl ≫= ttl_paybackTurns) DEFAULT_paybackTurns in
  let! minTokens := resolvePositiveInt ENV_contextJanitorMinTokens env (jan ≫= jan_minTokens) DEFAULT_minTokens in
  let! minTurns := resolvePositiveInt ENV_contextJanitorMinTurns env (jan ≫= jan_minTurns) DEFAULT_minTurns in
  let! successBytes := resolveNonNegativeInt ENV_contextJanitorSuccessBytes env
    (jan ≫= jan_successDumpMinBytes) DEFAULT_successDumpMinBytes in
  ret {| r_cap_enabled := flag env ENV_toolOutputCapEnabled (cap ≫= cap_enabled);
         r_maxLines := maxLines; r_maxBytes := maxBytes; r_headRatio := headRatio;
         r_ttl_enabled := flag env ENV_imageTtlEnabled (ttl ≫= ttl_enabled);
         r_ttlTurns := ttlTurns; r_paybackTurns := paybackTurns;
         r_jan_enabled := flag env ENV_contextJanitorEnabled (jan ≫= jan_enabled);
         r_minTokens := minTokens; r_minTurns := minTurns; r_successDumpMinBytes := successBytes |}.

Definition no_settings : ContextBudgetSettings :=
  {| set_toolOutputCap := None; set_imageTtl := None; set_contextJanitor := None |}.

Example resolve_ex :
  let env := {[ENV_toolOutputCapEnabled := js " Yes "; ENV_toolOutputCapMaxLines := js "-5";
               ENV_imageTtlTurns := js "0"]} in
  let '(b, w) := resolveContextBudget no_settings env in
  r_cap_enabled b = true /\ r_maxLines b = num_Z 200 /\ r_ttlTurns b = num_Z 0 /\
  w = [InvalidEnv ENV_toolOutputCapMaxLines (js "-5") (num_Z 200)].
Proof. by vm_compute. Qed.

(** ** Resolution *)

(** The abstract specification of one flag: the first valid candidate, else the fallback. *)
Fixpoint first_valid (valid : num -> bool) (candidates : list (option num)) (fallback : num) : num :=
  match candidates with
  | [] => fallback
  | Some x :: rest => if valid x then x else first_valid valid rest fallback
  | None :: rest => first_valid valid rest fallback
  end.

Lemma resolve_first_valid valid envName env setting fallback :
  (resolve valid envName env setting fallback).1 =
    first_valid valid [env !! envName ≫= (fun raw => parseNumber (Some raw)); setting] fallback.
Proof.
  unfold resolve.
  destruct (env !! envName) as [raw|]; cbn [mbind option_bind]; [destruct (parseNumber (Some raw)) as [p|]|];
    cbn [first_valid]; try destruct (valid p); destruct setting as [s|]; try done; by destruct (valid s).
Qed.

Lemma resolve_valid valid envName env setting fallback :
  valid fallback = true -> valid (resolve valid envName env setting fallback).1 = true.
Proof.
  intros Hf. rewrite resolve_first_valid. cbn [first_valid].
  destruct (env !! envName ≫= _) as [p|]; [destruct (valid p) eqn:?; [done|]|];
    (destruct setting as [s|]; [by destruct (valid s) eqn:?|done]).
Qed.

(** A flag warns exactly when it skips a candidate that is present and invalid. *)
Lemma resolve_silent valid envName env setting fallback :
  (resolve valid envName env setting fallback).2 = [] <->
  match env !! envName with
  | Some raw => exists p, parseNumber (Some raw) = Some p /\ valid p = true
  | None => match setting with Some s => valid s = true | None => True end
  end.
Proof.
  unfold resolve. destruct (env !! envName) as [raw|].
  - destruct (parseNumber (Some raw)) as [p|]; [destruct (valid p) eqn:Ep; [split; [by eauto|done]|]|].
    all: simpl; destruct (match setting with Some _ => _ | None => _ end) as [b w]; simpl.
    all: split; [done|intros (q & Hq & Hv)]; congruence.
  - destruct setting as [s|]; [|done]. by destruct (valid s).
Qed.

(** The budget the transforms run under. *)
Definition budget_ok (b : ResolvedContextBudget) : Prop :=
  positive_int (r_maxLines b) = true /\ positive_int (r_maxBytes b) = true /\
  unit_ratio (r_headRatio b) = true /\ nonnegative_int (r_ttlTurns b) = true /\
  positive_int (r_paybackTurns b) = true /\ positive_int (r_minTokens b) = true /\
  positive_int (r_minTurns b) = true /\ nonnegative_int (r_successDumpMinBytes b) = true.

Lemma bindW_fst {A B} (m : logged A) (f : A -> logged B) : (bindW m f).1 = (f m.1).1.
Proof. destruct m as [a w]. simpl. by destruct (f a). Qed.

(** Whatever the environment and the settings hold, the resolved budget is usable: the line, byte,
    token and payback limits are positive integers, the turn and dump limits are integers and not
    negative, and the head ratio is in [0, 1]. No value of a variable or setting makes it fail. *)
Theorem resolveContextBudget_ok (settings : ContextBudgetSettings) (env : environment) :
  budget_ok (resolveContextBudget settings env).1.
Proof.
  unfold resolveContextBudget. rewrite !bindW_fst. unfold budget_ok. simpl.
  split_and!; by apply resolve_valid.
Qed.

(** Each limit is the first valid one of the environment variable, the setting and the default. *)
Theorem resolveContextBudget_precedence (settings : ContextBudgetSettings) (env : environment) :
  let b := (resolveContextBudget settings env).1 in
  let var n := env !! n ≫= (fun raw => parseNumber (Some raw)) in
  r_maxLines b = first_valid positive_int
    [var ENV_toolOutputCapMaxLines; set_toolOutputCap settings ≫= cap_maxLines] (num_Z 200) /\
  r_maxBytes b = first_valid positive_int
    [var ENV_toolOutputCapMaxBytes; set_toolOutputCap settings ≫= cap_maxBytes] (num_Z 16384) /\
  r_headRatio b = first_valid unit_ratio
    [var ENV_toolOutputCapHeadRatio; set_toolOutputCap settings ≫= cap_headRatio] (Fin six_tenths) /\
  r_ttlTurns b = first_valid nonnegative_int
    [var ENV_imageTtlTurns; set_imageTtl settings ≫= ttl_ttlTurns] (num_Z 2) /\
  r_paybackTurns b = first_valid positive_int
    [var ENV_imageTtlPaybackTurns; set_imageTtl settings ≫= ttl_paybackTurns] (num_Z 2) /\
  r_minTokens b = first_valid positive_int
    [var ENV_contextJanitorMinTokens; set_contextJanitor settings ≫= jan_minTokens] (num_Z 40000) /\
  r_minTurns b = first_valid positive_int
    [var ENV_contextJanitorMinTurns; set_contextJanitor settings ≫= jan_minTurns] (num_Z 15) /\
  r_successDumpMinBytes b = first_valid nonnegative_int
    [var ENV_contextJanitorSuccessBytes; set_contextJanitor settings ≫= jan_successDumpMinBytes] (num_Z 8192).
Proof.
  unfold resolveContextBudget. rewrite !bindW_fst. simpl.
  split_and!; apply resolve_first_valid.
Qed.

(** An environment value that is not valid gives way to the setting, not to the default. *)
Example invalid_env_uses_setting :
  (resolvePositiveInt ENV_toolOutputCapMaxLines {[ENV_toolOutputCapMaxLines := js "many"]}
    (Some (num_Z 7)) DEFAULT_maxLines).1 = num_Z 7.
Proof. by vm_compute. Qed.

(** A flag that is not a boolean word is ignored without a warning. *)
Example invalid_boolean_silent :
  (resolveContextBudget no_settings {[ENV_imageTtlEnabled := js "maybe"]}).2 = [].
Proof. by vm_compute. Qed.
