(* ===== verification/Tokens.v ===== *)
(** * Token estimates (core/compaction/compaction.ts)

    The characters-over-four estimate of one message and the estimate of a
    whole context, which starts from the usage the provider last reported. *)

(* Source aliases:
   CO = src/packages/coding-agent/src/core/compaction/compaction.ts *)

From S2P Require Import Prelude JsString JsNumber Messages.
Local Open Scope Z_scope.

Definition strlen (s : jsstr) : Z := Z.of_nat (length s).

(** [Math.ceil(chars / 4)] for a count of characters. *)
Definition quarter (chars : Z) : Z := (chars + 3) / 4.

Definition text_chars (p : Part) : Z := match p with PText t => strlen (text t) | PImage _ => 0 end.
(** CO 262-272 estimateTokens. The characters a part of a custom or tool-result message counts for. *)
Definition part_chars (p : Part) : Z := match p with PText t => strlen (text t) | PImage _ => 4800 end.
(** CO 248-256 estimateTokens. The characters a part of an assistant message counts for. *)
Definition assistant_chars (p : AssistantPart) : Z :=
  match p with
  | AText t => strlen (text t)
  | AThinking t => strlen (thinking t)
  | AToolCall c => strlen (name c) + strlen (stringify (JObj (arguments c)))
  end.

(** CO 229-287 estimateTokens. *)
Definition estimateTokens (message : AgentMessage) : Z :=
  match message with
  | User m => quarter (match u_content m with
                       | CString s => strlen s
                       | CParts ps => sumZ text_chars ps end)
  | Assistant m => quarter (sumZ assistant_chars (a_content m))
  | Custom m => quarter (match c_content m with
                         | CString s => strlen s
                         | CParts ps => sumZ part_chars ps end)
  | ToolResult m => quarter (sumZ part_chars (t_content m))
  | BashExecution m => quarter (strlen (command m) + strlen (b_output m))
  | BranchSummary m => quarter (strlen (bs_summary m))
  | CompactionSummary m => quarter (strlen (cs_summary m))
  end.

(** CO 136-138 calculateContextTokens. *)
Definition calculateContextTokens (u : Usage) : Z :=
  if totalTokens u =? 0 then input u + output u + cacheRead u + cacheWrite u else totalTokens u.

(** CO 144-152 getAssistantUsage. *)
Definition getAssistantUsage (m : AgentMessage) : option Usage :=
  match m with
  | Assistant a =>
      if bool_decide (stopReason a <> Aborted) && bool_decide (stopReason a <> Error)
      then Some (usage a) else None
  | _ => None
  end.

(** CO 168-173 ContextUsageEstimate. *)
Record ContextUsageEstimate := {
  tokens : Z; usageTokens : Z; trailingTokens : Z; lastUsageIndex : option nat }.

(** CO 175-181 getLastAssistantUsageInfo. The loop from the last message down to the first. *)
Fixpoint lastUsage_loop (rmessages : list AgentMessage) : option (Usage * nat) :=
  match rmessages with
  | [] => None
  | m :: rest =>
      match getAssistantUsage m with
      | Some u => Some (u, length rest)
      | None => lastUsage_loop rest
      end
  end.
(** CO 175-181 getLastAssistantUsageInfo. *)
Definition getLastAssistantUsageInfo (messages : list AgentMessage) : option (Usage * nat) :=
  lastUsage_loop (reverse messages).

(** CO 187-215 estimateContextTokens. *)
Definition estimateContextTokens (messages : list AgentMessage) : ContextUsageEstimate :=
  match getLastAssistantUsageInfo messages with
  | None =>
      let estimated := sumZ estimateTokens messages in
      {| tokens := estimated; usageTokens := 0; trailingTokens := estimated; lastUsageIndex := None |}
  | Some (u, index) =>
      let usageTokens := calculateContextTokens u in
      let trailingTokens := sumZ estimateTokens (drop (S index) messages) in
      {| tokens := usageTokens + trailingTokens; usageTokens := usageTokens;
         trailingTokens := trailingTokens; lastUsageIndex := Some index |}
  end.

(** CO 118-122 CompactionSettings. *)
Record CompactionSettings := { enabled : bool; reserveTokens : Z; keepRecentTokens : Z }.
(** CO 124-128 DEFAULT_COMPACTION_SETTINGS. *)
Definition DEFAULT_COMPACTION_SETTINGS : CompactionSettings :=
  {| enabled := true; reserveTokens := 16384; keepRecentTokens := 20000 |}.

(** CO 220-224 shouldCompact. *)
Definition shouldCompact (contextTokens contextWindow : Z) (settings : CompactionSettings) : bool :=
  if negb (enabled settings) then false
  else if contextWindow <=? 0 then false
  else contextWindow - reserveTokens settings <? contextTokens.

Lemma strlen_nonneg s : 0 <= strlen s.
Proof. unfold strlen. lia. Qed.

Lemma quarter_nonneg c : 0 <= c -> 0 <= quarter c.
Proof. intros. apply Z.div_pos; lia. Qed.

Lemma quarter_mono a b : a <= b -> quarter a <= quarter b.
Proof. intros. apply Z.div_le_mono; lia. Qed.

Lemma estimateTokens_nonneg m : 0 <= estimateTokens m.
Proof.
  assert (Hp : forall p, 0 <= part_chars p) by (intros []; simpl; unfold strlen; lia).
  assert (Ht : forall p, 0 <= text_chars p) by (intros []; simpl; unfold strlen; lia).
  assert (Ha : forall p, 0 <= assistant_chars p) by (intros []; simpl; unfold strlen; lia).
  destruct m as [[[]]| | | |[? []]| |]; apply quarter_nonneg; simpl;
    first [apply sumZ_nonneg; done|unfold strlen; lia].
Qed.

(** ** The last reported usage *)

Lemma lastUsage_loop_spec rms :
  match lastUsage_loop rms with
  | None => Forall (fun m => getAssistantUsage m = None) rms
  | Some (u, i) => exists newer m older, rms = newer ++ m :: older /\ length older = i /\
      getAssistantUsage m = Some u /\ Forall (fun m => getAssistantUsage m = None) newer
  end.
Proof.
  induction rms as [|m rms IH]; simpl; [done|].
  destruct (getAssistantUsage m) as [u|] eqn:E.
  - exists [], m, rms. split_and!; [done..|constructor].
  - destruct (lastUsage_loop rms) as [[u i]|]; [|by constructor].
    destruct IH as (newer & m' & older & -> & Hi & Hu & Hf).
    exists (m :: newer), m', older. split_and!; [done..|by constructor].
Qed.

(** The context estimate is the usage of the last assistant message that finished (neither aborted
    nor failed) plus the estimates of the messages after it; without such a message it is the sum of
    the estimates of all messages. *)
Theorem estimateContextTokens_spec (messages : list AgentMessage) :
  let e := estimateContextTokens messages in
  match lastUsageIndex e with
  | None => Forall (fun m => getAssistantUsage m = None) messages /\
            tokens e = sumZ estimateTokens messages
  | Some i => exists m u, messages !! i = Some m /\ getAssistantUsage m = Some u /\
      Forall (fun m => getAssistantUsage m = None) (drop (S i) messages) /\
      tokens e = calculateContextTokens u + sumZ estimateTokens (drop (S i) messages)
  end.
Proof.
  unfold estimateContextTokens, getLastAssistantUsageInfo.
  pose proof (lastUsage_loop_spec (reverse messages)) as H.
  destruct (lastUsage_loop (reverse messages)) as [[u i]|]; simpl.
  - destruct H as (newer & m & older & Hrev & <- & Hu & Hf).
    assert (messages = reverse older ++ m :: reverse newer) as ->.
    { rewrite <- (reverse_involutive messages), Hrev, reverse_app, reverse_cons, <- (assoc_L app). done. }
    exists m, u. rewrite <- (length_reverse older).
    rewrite lookup_app_r, Nat.sub_diag by done. simpl.
    replace (drop _ _) with (reverse newer).
    2:{ change (m :: reverse newer) with ([m] ++ reverse newer). rewrite (assoc_L app).
        symmetry. apply drop_app_length'. rewrite length_app. simpl. lia. }
    split_and!; [done..| |done]. by apply Forall_reverse.
  - rewrite Forall_reverse in H. done.
Qed.
