(* ===== verification/ImageTtl.v ===== *)
(** * Stale-image eviction (core/image-ttl.ts)

    [evictStaleImages] replaces images older than a number of assistant turns
    by a text note; [planImageEviction] takes that step only when the tokens
    it recovers repay, within a number of turns, the cached prefix it breaks.

    The source compares array and message objects by reference to learn what
    changed. The model keeps that information: the walk returns, next to each
    message, whether it is a new object. *)

(* Source aliases:
   IT = src/packages/coding-agent/src/core/image-ttl.ts *)

From S2P Require Import Prelude JsString JsNumber Messages Tokens.
Local Open Scope Z_scope.

(** IT 5-13 ImageTtlOptions. *)
Record ImageTtlOptions := { ttlTurns : Z; paybackTurns_opt : option Z }.

(** IT 19-19 IMAGE_TOKEN_COST. *)
Definition IMAGE_TOKEN_COST : Z := 1200.
(** IT 124-124 IMAGE_TTL_PAYBACK_TURNS. *)
Definition IMAGE_TTL_PAYBACK_TURNS : Z := 2.

(** IT 47-49 isImagePart. *)
Definition isImagePart (p : Part) : bool := match p with PImage _ => true | PText _ => false end.

Definition image_count (ps : list Part) : Z := sumZ (fun p => if isImagePart p then 1 else 0) ps.

(** IT 26-41 countMessageImages. *)
Definition countMessageImages (message : AgentMessage) : Z :=
  match message with
  | User m => match u_content m with CString _ => 0 | CParts ps => image_count ps end
  | ToolResult m => image_count (t_content m)
  | _ => 0
  end.

(** IT 22-24 estimateMessageTokens. *)
Definition estimateMessageTokens (message : AgentMessage) : Z :=
  estimateTokens message + IMAGE_TOKEN_COST * countMessageImages message.

(** IT 43-45 imageEvictionPlaceholder. *)
Definition imageEvictionPlaceholder (mime : jsstr) (observation : option jsstr) : jsstr :=
  if truthy observation
  then js "[image evicted: " ++ mime ++ js "; observed: " ++ default [] observation ++ js "]"
  else js "[image evicted: " ++ mime ++ js "]".

(** IT 82-88 evictStaleImages. The content with its images replaced. *)
Definition evict_parts (observation : option jsstr) (content : list Part) : list Part :=
  let replaced := (fun p => match p with
    | PImage i => PText (mkText (imageEvictionPlaceholder (mimeType i) observation))
    | PText _ => p end) <$> content in
  match replaced with
  | [] => [PText (mkText (imageEvictionPlaceholder (js "unknown") None))]
  | _ => replaced
  end.

(** IT 71-91 evictStaleImages. What the walk does at one message, given the assistant turns seen after
    it: the message left there, and whether it is a new object. *)
Definition evict_one (ttl assistantsSeen : Z) (message : AgentMessage) : AgentMessage * bool :=
  match message with
  | User m =>
      match u_content m with
      | CString _ => (message, false)
      | CParts ps =>
          if negb (existsb isImagePart ps) then (message, false)
          else if assistantsSeen <=? ttl then (message, false)
          else (User {| u_content := CParts (evict_parts None ps); u_timestamp := u_timestamp m |}, true)
      end
  | ToolResult m =>
      if negb (existsb isImagePart (t_content m)) then (message, false)
      else if assistantsSeen <=? ttl then (message, false)
      else (ToolResult {| toolCallId := toolCallId m; toolName := toolName m;
                          t_content := evict_parts (Some (toolName m)) (t_content m);
                          details := details m; isError := isError m; t_timestamp := t_timestamp m |}, true)
  | _ => (message, false)
  end.

Definition is_assistant (m : AgentMessage) : bool := match m with Assistant _ => true | _ => false end.

(** IT 66-92 evictStaleImages. The walk from the last message to the first; [output] is what it has
    written after the current position. *)
Fixpoint evict_loop (rmessages : list AgentMessage) (ttl assistantsSeen : Z)
    (out : list (AgentMessage * bool)) : list (AgentMessage * bool) :=
  match rmessages with
  | [] => out
  | message :: rest =>
      if is_assistant message
      then evict_loop rest ttl (assistantsSeen + 1) ((message, false) :: out)
      else evict_loop rest ttl assistantsSeen (evict_one ttl assistantsSeen message :: out)
  end.

(** IT 57-95 evictStaleImages. The view with its change flags: [None] when the original array itself is
    returned. *)
Definition evict_view (messages : list AgentMessage) (options : ImageTtlOptions)
    : option (list (AgentMessage * bool)) :=
  if ttlTurns options <=? 0 then None
  else
    let out := evict_loop (reverse messages) (ttlTurns options) 0 [] in
    if existsb snd out then Some out else None.

(** IT 57-95 evictStaleImages. *)
Definition evictStaleImages (messages : list AgentMessage) (options : ImageTtlOptions) : list AgentMessage :=
  match evict_view messages options with
  | Some out => out.*1
  | None => messages
  end.

(** IT 98-104 countResidentImages. *)
Definition countResidentImages (messages : list AgentMessage) : Z := sumZ countMessageImages messages.

(** IT 106-117 ImageEvictionPlan. *)
Record ImageEvictionPlan := {
  plan_messages : list AgentMessage; evictedImages : Z; recoveredTokens : Z; breakTokens : Z;
  paybackTurns : num; evicted : bool }.

(** IT 147-157 planImageEviction. The tokens recovered at the positions whose object changed. *)
Fixpoint recovered_loop (messages : list AgentMessage) (view : list (AgentMessage * bool)) : Z :=
  match messages, view with
  | m :: ms, (v, changed) :: vs =>
      (if changed then estimateMessageTokens m - estimateMessageTokens v else 0) + recovered_loop ms vs
  | _, _ => 0
  end.

(** IT 147-156 planImageEviction. The first changed position. *)
Fixpoint firstChanged (view : list (AgentMessage * bool)) : nat :=
  match view with
  | [] => 0
  | (_, changed) :: vs => if changed then 0 else S (firstChanged vs)
  end.

(** IT 133-184 planImageEviction. *)
Definition planImageEviction (messages : list AgentMessage) (options : ImageTtlOptions) : ImageEvictionPlan :=
  match evict_view messages options with
  | None =>
      {| plan_messages := messages; evictedImages := 0; recoveredTokens := 0; breakTokens := 0;
         paybackTurns := Inf false; evicted := false |}
  | Some view =>
      let recovered := recovered_loop messages view in
      let break := sumZ estimateMessageTokens (take (firstChanged view) messages) in
      let payback := if 0 <? recovered then to_num (Qmake break (Z.to_pos recovered)) else Inf false in
      let horizon := default IMAGE_TTL_PAYBACK_TURNS (paybackTurns_opt options) in
      if num_lt (num_Z horizon) payback then
        {| plan_messages := messages; evictedImages := 0; recoveredTokens := recovered;
           breakTokens := break; paybackTurns := payback; evicted := false |}
      else
        {| plan_messages := view.*1;
           evictedImages := countResidentImages messages - countResidentImages view.*1;
           recoveredTokens := recovered; breakTokens := break; paybackTurns := payback; evicted := true |}
  end.

(** ** Examples *)

Definition png : Part := PImage {| data := js "aGk="; mimeType := js "image/png" |}.
Definition user_parts (ps : list Part) : AgentMessage := User {| u_content := CParts ps; u_timestamp := 0 |}.
Definition tool_result (call : jsstr) (tool : jsstr) (err : bool) (ps : list Part) : AgentMessage :=
  ToolResult {| toolCallId := call; toolName := tool; t_content := ps; details := None;
                isError := err; t_timestamp := 0 |}.
Definition assistant (ps : list AssistantPart) : AgentMessage :=
  Assistant {| a_content := ps; api := []; provider := []; model := []; usage := emptyUsage;
               stopReason := Stop; errorMessage := None; a_timestamp := 0 |}.

Example evict_ex :
  evictStaleImages [user_parts [png]; assistant []; user_parts [png]; assistant []]
    {| ttlTurns := 1; paybackTurns_opt := None |}
  = [user_parts [PText (mkText (js "[image evicted: image/png]"))]; assistant []; user_parts [png]; assistant []].
Proof. reflexivity. Qed.

(** An image of a tool result is priced twice: [estimateTokens] counts it, and so does the flat cost. *)
Example tool_result_image_counted_twice :
  estimateMessageTokens (user_parts [png]) = 1200 /\
  estimateMessageTokens (tool_result (js "c") (js "screenshot") false [png]) = 2400.
Proof. by vm_compute. Qed.

(** ** The walk, forwards *)

Definition assistants (ms : list AgentMessage) : Z := sumZ (fun m => if is_assistant m then 1 else 0) ms.

(** The reference definition: each message is judged by the assistant turns after it. *)
Fixpoint evict_fwd (ttl : Z) (ms : list AgentMessage) : list (AgentMessage * bool) :=
  match ms with
  | [] => []
  | m :: ms' => evict_one ttl (assistants ms') m :: evict_fwd ttl ms'
  end.

Lemma assistants_cons m ms : assistants (m :: ms) = (if is_assistant m then 1 else 0) + assistants ms.
Proof. done. Qed.

Lemma evict_loop_app rms rms' ttl seen out :
  evict_loop (rms ++ rms') ttl seen out = evict_loop rms' ttl (seen + assistants rms) (evict_loop rms ttl seen out).
Proof.
  revert seen out. induction rms as [|m rms IH]; intros seen out; [by rewrite Z.add_0_r|].
  rewrite assistants_cons. cbn [app evict_loop].
  destruct (is_assistant m); rewrite IH; f_equal; lia.
Qed.

Lemma assistants_reverse ms : assistants (reverse ms) = assistants ms.
Proof.
  induction ms as [|m ms IH]; [done|]. rewrite reverse_cons, assistants_cons, <- IH.
  unfold assistants. rewrite sumZ_app. unfold sumZ at 2. simpl. lia.
Qed.

Lemma evict_one_assistant ttl seen m : is_assistant m = true -> evict_one ttl seen m = (m, false).
Proof. by destruct m. Qed.

Lemma evict_loop_fwd ms ttl : evict_loop (reverse ms) ttl 0 [] = evict_fwd ttl ms.
Proof.
  induction ms as [|m ms IH]; [done|].
  rewrite reverse_cons, evict_loop_app, IH, assistants_reverse. simpl.
  destruct (is_assistant m) eqn:E; [by rewrite evict_one_assistant|done].
Qed.

Lemma evict_one_unchanged ttl seen m : (evict_one ttl seen m).2 = false -> (evict_one ttl seen m).1 = m.
Proof. destruct m as [[[|ps] ?]| |t| | | |]; simpl; try done; by repeat case_match. Qed.

Lemma evict_fwd_unchanged ttl ms : existsb snd (evict_fwd ttl ms) = false -> (evict_fwd ttl ms).*1 = ms.
Proof.
  induction ms as [|m ms IH]; [done|]. simpl. intros [H1 H2]%orb_false_iff.
  f_equal; [by apply evict_one_unchanged|by apply IH].
Qed.

Lemma evictStaleImages_fwd ms o :
  evictStaleImages ms o = if 0 <? ttlTurns o then (evict_fwd (ttlTurns o) ms).*1 else ms.
Proof.
  unfold evictStaleImages, evict_view. rewrite evict_loop_fwd.
  destruct (ttlTurns o <=? 0) eqn:E; to_prop.
  - by replace (0 <? ttlTurns o) with false by lia.
  - replace (0 <? ttlTurns o) with true by lia.
    destruct (existsb snd _) eqn:Ex; [done|]. by rewrite evict_fwd_unchanged.
Qed.

(** The message with every image replaced by its note. *)
Definition note (observation : option jsstr) (p : Part) : Part :=
  match p with
  | PImage i => PText (mkText (imageEvictionPlaceholder (mimeType i) observation))
  | PText _ => p
  end.
Definition without_images (m : AgentMessage) : AgentMessage :=
  match m with
  | User u => match u_content u with
              | CString _ => m
              | CParts ps => User {| u_content := CParts (note None <$> ps); u_timestamp := u_timestamp u |}
              end
  | ToolResult t =>
      ToolResult {| toolCallId := toolCallId t; toolName := toolName t;
                    t_content := note (Some (toolName t)) <$> t_content t;
                    details := details t; isError := isError t; t_timestamp := t_timestamp t |}
  | _ => m
  end.

Lemma evict_parts_note obs ps : existsb isImagePart ps = true -> evict_parts obs ps = note obs <$> ps.
Proof. by destruct ps. Qed.

Lemma note_no_image obs ps : existsb isImagePart ps = false -> note obs <$> ps = ps.
Proof.
  induction ps as [|p ps IH]; [done|]. simpl. intros [Hp Hps]%orb_false_iff.
  f_equal; [by destruct p|by apply IH].
Qed.

Lemma evict_one_spec ttl seen m :
  (evict_one ttl seen m).1 = if ttl <? seen then without_images m else m.
Proof.
  rewrite (Z.ltb_antisym seen ttl).
  destruct m as [[[|ps] ts]| |t| | | |]; simpl; try by destruct (seen <=? ttl).
  - destruct (existsb isImagePart ps) eqn:E; simpl; destruct (seen <=? ttl); simpl; try done;
      [by rewrite evict_parts_note|by rewrite note_no_image].
  - destruct (existsb isImagePart (t_content t)) eqn:E; simpl; destruct (seen <=? ttl); simpl; try done;
      [by rewrite evict_parts_note|rewrite note_no_image by done; by destruct t].
Qed.

Lemma evict_fwd_lookup ttl ms i m :
  ms !! i = Some m -> evict_fwd ttl ms !! i = Some (evict_one ttl (assistants (drop (S i) ms)) m).
Proof.
  revert i. induction ms as [|m' ms IH]; intros [|i] H; simpl in *; simplify_eq; try done. by rewrite IH.
Qed.

Lemma evict_fwd_length ttl ms : length (evict_fwd ttl ms) = length ms.
Proof. induction ms; simpl; congruence. Qed.

(** [evictStaleImages] treats every message by itself: a user message or tool result followed by more
    than [ttlTurns] assistant turns has each of its images replaced by a text note, in place, and every
    other message is returned as it is. *)
Theorem evictStaleImages_pointwise (ms : list AgentMessage) (o : ImageTtlOptions) (i : nat) :
  evictStaleImages ms o !! i =
    (fun m => if (0 <? ttlTurns o) && (ttlTurns o <? assistants (drop (S i) ms))
              then without_images m else m) <$> ms !! i.
Proof.
  rewrite evictStaleImages_fwd. destruct (0 <? ttlTurns o); simpl.
  2:{ by destruct (ms !! i). }
  rewrite list_lookup_fmap. destruct (ms !! i) as [m|] eqn:E.
  - rewrite (evict_fwd_lookup _ _ _ _ E). simpl. by rewrite evict_one_spec.
  - rewrite lookup_ge_None_2; [done|]. rewrite evict_fwd_length. by apply lookup_ge_None.
Qed.

(** ** Shape, idempotence, resident images *)

Lemma without_images_shape m : without_images m ≡ m.
Proof.
  apply same_shape_unfold. destruct m as [[[|ps] ts]| |t| | | |]; simpl; try done; by split_and?.
Qed.

Lemma evict_fwd_shape ttl ms : (evict_fwd ttl ms).*1 ≡ ms.
Proof.
  induction ms as [|m ms IH]; [done|]. cbn [evict_fwd]. rewrite fmap_cons, IH, evict_one_spec.
  destruct (_ <? _); [by rewrite without_images_shape|done].
Qed.

#[export] Instance evictStaleImages_transform o : ContextTransform (fun ms => evictStaleImages ms o).
Proof. intros ms. rewrite evictStaleImages_fwd. destruct (0 <? ttlTurns o); [apply evict_fwd_shape|done]. Qed.

Lemma is_assistant_proper m m' : m ≡ m' -> is_assistant m = is_assistant m'.
Proof. rewrite same_shape_unfold. by destruct m, m'. Qed.

#[export] Instance assistants_proper : Proper ((≡) ==> (=)) assistants.
Proof.
  intros ms ms' H. induction H as [|m m' ms ms' Hm Hms IH]; [done|].
  by rewrite !assistants_cons, IH, (is_assistant_proper m m' Hm).
Qed.

Lemma image_count_note obs ps : image_count (note obs <$> ps) = 0.
Proof.
  unfold image_count. induction ps as [|p ps IH]; [done|].
  rewrite fmap_cons, sumZ_cons, IH. by destruct p.
Qed.

Lemma without_images_count m : countMessageImages (without_images m) = 0.
Proof. destruct m as [[[|ps] ts]| |t| | | |]; simpl; try done; apply image_count_note. Qed.

Lemma note_idem obs (ps : list Part) : note obs <$> (note obs <$> ps) = note obs <$> ps.
Proof. rewrite <- list_fmap_compose. apply list_fmap_ext. by intros ? [] ?. Qed.

Lemma without_images_idem m : without_images (without_images m) = without_images m.
Proof. destruct m as [[[|ps] ts]| |t| | | |]; simpl; try done; by rewrite note_idem. Qed.

(** After an eviction no image is left on a message that more than [ttlTurns] assistant turns follow,
    and evicting again changes nothing. *)
Theorem evictStaleImages_settles (ms : list AgentMessage) (o : ImageTtlOptions) :
  (forall i m, evictStaleImages ms o !! i = Some m -> 0 < ttlTurns o ->
     ttlTurns o < assistants (drop (S i) ms) -> countMessageImages m = 0) /\
  evictStaleImages (evictStaleImages ms o) o = evictStaleImages ms o.
Proof.
  split.
  - intros i m H H0 Hlt. rewrite evictStaleImages_pointwise in H.
    replace (_ && _) with true in H by lia.
    destruct (ms !! i); simpl in H; simplify_eq. apply without_images_count.
  - apply list_eq. intros i. rewrite evictStaleImages_pointwise.
    rewrite (evictStaleImages_pointwise ms).
    assert (assistants (drop (S i) (evictStaleImages ms o)) = assistants (drop (S i) ms)) as ->.
    { apply assistants_proper, drop_proper, (transform_shape (f := fun ms => evictStaleImages ms o)). }
    destruct (ms !! i) as [m|]; simpl; [|done].
    destruct (_ && _); [by rewrite without_images_idem|done].
Qed.

(** ** The plan *)

Definition transcript_cost (ms : list AgentMessage) : Z := sumZ estimateMessageTokens ms.

Lemma recovered_loop_spec ttl ms :
  recovered_loop ms (evict_fwd ttl ms) = transcript_cost ms - transcript_cost (evict_fwd ttl ms).*1.
Proof.
  unfold transcript_cost. induction ms as [|m ms IH]; [done|].
  cbn [evict_fwd recovered_loop]. rewrite fmap_cons, !sumZ_cons.
  pose proof (evict_one_unchanged ttl (assistants ms) m) as Hu.
  destruct (evict_one ttl (assistants ms) m) as [v []]; simpl in *; rewrite IH; [lia|].
  rewrite Hu by done. lia.
Qed.

Lemma existsb_image_count ps : existsb isImagePart ps = true -> 0 < image_count ps.
Proof.
  unfold image_count. induction ps as [|p ps IH]; [done|]. rewrite sumZ_cons. simpl.
  assert (0 <= sumZ (fun p => if isImagePart p then 1 else 0) ps) by (apply sumZ_nonneg; intros []; simpl; lia).
  destruct p; simpl; [|lia]. intros Hps. specialize (IH Hps). lia.
Qed.

(** A message flagged as a new object had images and has none left. *)
Lemma evict_one_changed ttl seen m :
  (evict_one ttl seen m).2 = true -> (evict_one ttl seen m).1 <> m.
Proof.
  intros H Heq. assert (0 < countMessageImages m).
  { destruct m as [[[|ps] ts]| |t| | | |]; simpl in *; try done.
    all: destruct (existsb isImagePart _) eqn:E; simpl in *; [by apply existsb_image_count|done]. }
  assert (countMessageImages (evict_one ttl seen m).1 = 0); [|rewrite Heq in *; lia].
  rewrite evict_one_spec. destruct (ttl <? seen) eqn:E; [apply without_images_count|].
  replace (ttl <? seen) with (negb (seen <=? ttl)) in E by lia. apply negb_false_iff in E.
  destruct m as [[[|ps] ts]| |t| | | |]; simpl in *; try done; rewrite E in H; by case_match.
Qed.

Lemma firstChanged_spec ttl ms :
  existsb snd (evict_fwd ttl ms) = true ->
  let k := firstChanged (evict_fwd ttl ms) in
  (k < length ms)%nat /\ take k (evict_fwd ttl ms).*1 = take k ms /\ (evict_fwd ttl ms).*1 !! k <> ms !! k.
Proof.
  induction ms as [|m ms IH]; [done|]. simpl.
  pose proof (evict_one_changed ttl (assistants ms) m) as Hc.
  pose proof (evict_one_unchanged ttl (assistants ms) m) as Hu.
  destruct (evict_one ttl (assistants ms) m) as [v []]; simpl in *; intros H.
  - split_and!; [lia|done|]. intros [= ->]. by apply Hc.
  - destruct (IH H) as (? & Ht & ?). split_and!; [lia| |done]. f_equal; [by apply Hu|done].
Qed.

(** The plan's figures describe the eviction: its messages are the evicted view when it approves and
    the original otherwise; the images it counts are those no longer resident; the recovered tokens are
    the difference in cost between the transcript and the view; and the break is the cost of the
    messages before the first one the view changes. *)
Theorem planImageEviction_accounting (ms : list AgentMessage) (o : ImageTtlOptions) :
  let p := planImageEviction ms o in
  let view := evictStaleImages ms o in
  plan_messages p = (if evicted p then view else ms) /\
  evictedImages p = countResidentImages ms - countResidentImages (plan_messages p) /\
  recoveredTokens p = transcript_cost ms - transcript_cost view /\
  (view = ms -> breakTokens p = 0) /\
  (view <> ms -> exists k, take k view = take k ms /\ view !! k <> ms !! k /\
     breakTokens p = transcript_cost (take k ms)).
Proof.
  unfold planImageEviction, evictStaleImages, evict_view. rewrite evict_loop_fwd.
  destruct (ttlTurns o <=? 0) eqn:E0; simpl; [split_and!; by try lia|].
  set (view := evict_fwd (ttlTurns o) ms).
  destruct (existsb snd view) eqn:Ex; simpl; [|split_and!; by try lia].
  pose proof (recovered_loop_spec (ttlTurns o) ms) as Hrec. fold view in Hrec.
  destruct (firstChanged_spec _ _ Ex) as (Hk & Ht & Hne). fold view in Hk, Ht, Hne.
  assert (view.*1 <> ms) by (intros Heq; by rewrite Heq in Hne).
  case_match; simpl; (split_and!; [done|lia|done|by intros ?|]);
    intros _; by exists (firstChanged view).
Qed.

(** An eviction is taken exactly when some image is stale, it recovers tokens, and the break is at
    most the recovered tokens times the payback turns; the test is decided on doubles, and is exact for
    token counts below 2^26. *)
Theorem planImageEviction_decision (ms : list AgentMessage) (o : ImageTtlOptions) :
  let p := planImageEviction ms o in
  let horizon := default IMAGE_TTL_PAYBACK_TURNS (paybackTurns_opt o) in
  breakTokens p < 2 ^ 26 -> recoveredTokens p <= 2 ^ 26 -> 0 <= horizon < 2 ^ 26 ->
  evicted p = true <->
    evictStaleImages ms o <> ms /\ 0 < recoveredTokens p /\ breakTokens p <= horizon * recoveredTokens p.
Proof.
  unfold planImageEviction, evictStaleImages, evict_view. rewrite evict_loop_fwd.
  destruct (ttlTurns o <=? 0) eqn:E0; simpl; [by intuition|].
  set (view := evict_fwd (ttlTurns o) ms).
  destruct (existsb snd view) eqn:Ex; simpl; [|by intuition].
  destruct (firstChanged_spec _ _ Ex) as (Hk & Ht & Hne). fold view in Hk, Ht, Hne.
  assert (view.*1 <> ms) by (intros Heq; by rewrite Heq in Hne).
  assert (0 <= sumZ estimateMessageTokens (take (firstChanged view) ms)).
  { apply sumZ_nonneg. intros m. unfold estimateMessageTokens.
    pose proof (estimateTokens_nonneg m). assert (0 <= countMessageImages m); [|unfold IMAGE_TOKEN_COST; lia].
    destruct m as [[[]]| | | | | |]; simpl; try lia; apply sumZ_nonneg; intros []; simpl; lia. }
  set (break := sumZ _ _) in *. set (rec := recovered_loop ms view).
  set (h := default _ _). destruct (0 <? rec) eqn:Er; to_prop.
  - intros Hb Hr Hh. assert (num_lt (num_Z h) (to_num (Qmake break (Z.to_pos rec))) = (h * rec <? break)) as Hd.
    { apply num_lt_quotient; destruct (num_lt _ _); simpl in *; lia. }
    rewrite Hd. destruct (h * rec <? break) eqn:E; to_prop; simpl; split; intuition lia.
  - intros _ _ _. simpl. split; [done|]. lia.
Qed.

Definition plan_example : list AgentMessage := [user_parts [png]; assistant []; assistant []; assistant []].

Lemma planImageEviction_decision_witness :
  let o := {| ttlTurns := 2; paybackTurns_opt := None |} in
  let p := planImageEviction plan_example o in
  (breakTokens p < 2 ^ 26 /\ recoveredTokens p <= 2 ^ 26 /\ 0 <= default IMAGE_TTL_PAYBACK_TURNS None < 2 ^ 26) /\
  (evicted p = true <-> evictStaleImages plan_example o <> plan_example /\ 0 < recoveredTokens p /\
     breakTokens p <= default IMAGE_TTL_PAYBACK_TURNS None * recoveredTokens p).
Proof.
  split; [by vm_compute|].
  apply (planImageEviction_decision plan_example {| ttlTurns := 2; paybackTurns_opt := None |});
    by vm_compute.
Defined.
