(* ===== verification/ToolOutputCap.v ===== *)
(** * The tool-output cap (core/tool-output-cap.ts)

    [capToolOutput] bounds a tool result to a head and a tail window and
    points the model at a file with the full text. Writing that file is the
    caller's: [writeScratchpad] returns the path, or [None] when it throws. *)

(* Source aliases:
   TC = src/packages/coding-agent/src/core/tool-output-cap.ts *)

From S2P Require Import Prelude JsString JsNumber Messages Tokens Truncate.
Local Open Scope Z_scope.

(** TC 7-14 ToolOutputCapOptions. *)
Record ToolOutputCapOptions := { maxLines : Z; maxBytes : Z; headRatio : Q }.

(** TC 25-30 CappedToolOutput. *)
Record CappedToolOutput := {
  out_content : list Part; capped : bool; out_fullOutputPath : option jsstr; originalBytes : Z }.

(** TC 37-37 BEYOND_POINTER_OMITTED. *)
Definition BEYOND_POINTER_OMITTED : jsstr := js "[... middle omitted; see full output file ...]".

(** TC 43-45 exceedsOutputCap. *)
Definition exceedsOutputCap (text : jsstr) (options : ToolOutputCapOptions) : bool :=
  (maxBytes options <? byteLength text) || (maxLines options <? Z.of_nat (length (lines_of text))).

(** TC 47-58 buildPointer. *)
Definition buildPointer (path : jsstr) (totalLines totalBytes : Z) (options : ToolOutputCapOptions) : jsstr :=
  unlines [
    js "[Output exceeded " ++ show_Z (maxLines options) ++ js " lines / " ++ show_Z (maxBytes options) ++
      js " bytes (" ++ show_Z totalLines ++ js " lines, " ++ show_Z totalBytes ++ js " bytes).]";
    js "[Full output: " ++ path ++ js "]";
    js "[Use grep/awk/sed on that file to inspect specific sections.]"].

Definition part_text (p : Part) : option jsstr := match p with PText t => Some (text t) | PImage _ => None end.
Definition is_text (p : Part) : bool := match p with PText _ => true | PImage _ => false end.

(** TC 71-74 capToolOutput. The decoded size of the base64 data of the images. *)
Definition image_bytes (ps : list Part) : Z :=
  sumZ (fun p => match p with PImage i => (strlen (data i) * 3) / 4 | PText _ => 0 end) ps.

(** TC 85-86 capToolOutput. The lines of the two windows. *)
Definition headLines (options : ToolOutputCapOptions) : Z :=
  Z.max 1 (Qfloor (rnd (inject_Z (maxLines options) * headRatio options))).
Definition tailLines (options : ToolOutputCapOptions) : Z :=
  Z.max 0 (maxLines options - headLines options).
(** TC 89-89 capToolOutput. The byte limit of the head window. *)
Definition headBytes (options : ToolOutputCapOptions) : Z :=
  Z.max 1 (Qceiling (rnd (inject_Z (maxBytes options) * headRatio options))).

Definition nonempty (s : jsstr) : bool := match s with [] => false | _ => true end.

(** TC 85-94 capToolOutput. The head and tail windows around the note. *)
Definition windowed (txt : jsstr) (options : ToolOutputCapOptions) : jsstr :=
  let head := truncateHead txt (opts (headLines options) (headBytes options)) in
  let tail := if 0 <? tailLines options
              then Some (truncateTail txt (opts (tailLines options) (maxBytes options))) else None in
  let sections := filter (fun s => nonempty s = true)
                    (content head :: match tail with Some t => [content t] | None => [] end) in
  join ([LF] ++ BEYOND_POINTER_OMITTED ++ [LF]) sections.

Section cap.
  Context (writeScratchpad : jsstr -> option jsstr).

(** TC 66-107 capToolOutput. *)
Definition capToolOutput (parts : list Part) (existingFullOutputPath : option jsstr)
    (options : ToolOutputCapOptions) : CappedToolOutput :=
  let textParts := omap part_text parts in
  let restParts := filter (fun p => is_text p = false) parts in
  let txt := join [LF] textParts in
  let originalBytes := byteLength txt + image_bytes restParts in
  if negb (exceedsOutputCap txt options) then
    {| out_content := parts; capped := false; out_fullOutputPath := None; originalBytes := originalBytes |}
  else
    match (match existingFullOutputPath with Some p => Some p | None => writeScratchpad txt end) with
    | None => {| out_content := parts; capped := false; out_fullOutputPath := None; originalBytes := 0 |}
    | Some fullOutputPath =>
        let totalLines := Z.of_nat (length (lines_of txt)) in
        let totalBytes := byteLength txt in
        let w := windowed txt options in
        let pointer := buildPointer fullOutputPath totalLines totalBytes options in
        let bounded := mkText (if nonempty w then w ++ [LF] ++ pointer else pointer) in
        {| out_content := PText bounded :: restParts; capped := true;
           out_fullOutputPath := Some fullOutputPath; originalBytes := originalBytes |}
    end.
End cap.

(** ** Bounds of the window *)

(** Options as [resolveContextBudget] gives them, with counts a double holds exactly. *)
Definition cap_ok (o : ToolOutputCapOptions) : Prop :=
  0 < maxLines o < 2 ^ 53 /\ 0 < maxBytes o < 2 ^ 53 /\ (0 <= headRatio o)%Q /\ (headRatio o <= 1)%Q.

Lemma ratio_bounds n r :
  0 < n -> (0 <= r)%Q -> (r <= 1)%Q -> (inject_Z 0 <= inject_Z n * r)%Q /\ (inject_Z n * r <= inject_Z n)%Q.
Proof.
  intros Hn H0 H1. destruct r as [a d]. unfold Qle, inject_Z in *. simpl in *.
  rewrite !Z.mul_1_r in *. assert (0 <= n * a) by (apply Z.mul_nonneg_nonneg; lia).
  assert (n * a <= n * Zpos d) by (apply Z.mul_le_mono_nonneg_l; lia). split; lia.
Qed.

Lemma headLines_bounds o : cap_ok o -> 1 <= headLines o <= maxLines o.
Proof.
  intros (Hl & Hb & H0 & H1). destruct (ratio_bounds (maxLines o) _ ltac:(lia) H0 H1) as [G0 G1].
  pose proof (floor_rnd_between _ 0 (maxLines o) ltac:(lia) (proj2 Hl) G0 G1). unfold headLines. lia.
Qed.

Lemma headBytes_bounds o : cap_ok o -> 1 <= headBytes o <= maxBytes o.
Proof.
  intros (Hl & Hb & H0 & H1). destruct (ratio_bounds (maxBytes o) _ ltac:(lia) H0 H1) as [G0 G1].
  pose proof (ceiling_rnd_between _ 0 (maxBytes o) ltac:(lia) (proj2 Hb) G0 G1). unfold headBytes. lia.
Qed.

Lemma note_bytes a b :
  byteLength (a ++ ([LF] ++ BEYOND_POINTER_OMITTED ++ [LF]) ++ b) = byteLength a + 48 + byteLength b /\
  length (lines_of (a ++ ([LF] ++ BEYOND_POINTER_OMITTED ++ [LF]) ++ b)) =
    (length (lines_of a) + 1 + length (lines_of b))%nat.
Proof.
  replace (a ++ ([LF] ++ BEYOND_POINTER_OMITTED ++ [LF]) ++ b)
    with (a ++ LF :: BEYOND_POINTER_OMITTED ++ LF :: b) by by rewrite <- !(assoc_L app).
  rewrite byteLength_app_LF, byteLength_app_LF, !lines_of_app, !length_app.
  change (byteLength BEYOND_POINTER_OMITTED) with 46.
  change (length (lines_of BEYOND_POINTER_OMITTED)) with 1%nat. lia.
Qed.

Lemma sections_bounds x y :
  let sections := filter (fun s => nonempty s = true) (x :: y) in
  (length y <= 1)%nat ->
  let w := join ([LF] ++ BEYOND_POINTER_OMITTED ++ [LF]) sections in
  byteLength w <= byteLength x + 48 + byteLength (hd [] y) /\
  (length (lines_of w) <= length (lines_of x) + 1 + length (lines_of (hd [] y)))%nat.
Proof.
  cbv zeta. intros Hy.
  pose proof (byteLength_nonneg x). pose proof (byteLength_nonneg (hd [] y)).
  assert (Hn : forall s, (1 <= length (lines_of s))%nat).
  { intros s. pose proof (lines_of_nonempty s). destruct (lines_of s); [done|simpl; lia]. }
  pose proof (Hn x). pose proof (Hn (hd [] y)).
  rewrite filter_cons. destruct y as [|y [|]]; [| |simpl in Hy; lia]; simpl hd in *;
    rewrite ?filter_cons, ?filter_nil; repeat case_decide; cbn [join];
    try (change (byteLength []) with 0 in *; change (length (lines_of [])) with 1%nat in *; split; lia).
  destruct (note_bytes x y). split; lia.
Qed.

Lemma windowed_bounds txt o :
  js_wf txt -> cap_ok o ->
  byteLength (windowed txt o) <= headBytes o + maxBytes o + 48 /\
  Z.of_nat (length (lines_of (windowed txt o))) <= headLines o + Z.max 1 (tailLines o) + 1.
Proof.
  intros Hwf Hok. pose proof (headLines_bounds o Hok). pose proof (headBytes_bounds o Hok).
  unfold windowed. cbv zeta. set (h := truncateHead _ _).
  set (t := if 0 <? tailLines o then _ else _).
  destruct (sections_bounds (content h) (match t with Some t => [content t] | None => [] end)) as [Hb Hl];
    [destruct t; simpl; lia|].
  assert (Hhb : 0 <= maxBytes_of (opts (headLines o) (headBytes o))) by (change (0 <= headBytes o); lia).
  destruct (truncateHead_report txt _ Hhb) as (k & _ & _ & _ & Hbytes & Hlines & Hmax & _).
  pose proof (truncateHead_lines txt _ Hhb) as Hll. fold h in Hbytes, Hlines, Hmax, Hll.
  unfold maxLines_of, maxBytes_of in Hlines, Hmax. simpl in Hlines, Hmax.
  assert (Ht : byteLength (hd [] (match t with Some t => [content t] | None => [] end)) <= maxBytes o /\
    Z.of_nat (length (lines_of (hd [] (match t with Some t => [content t] | None => [] end)))) <= Z.max 1 (tailLines o)).
  { subst t. destruct (0 <? tailLines o) eqn:Et; to_prop; simpl.
    2:{ change (byteLength []) with 0. destruct Hok as (_ & ? & _). lia. }
    assert (Htb : 0 <= maxBytes_of (opts (tailLines o) (maxBytes o))) by (change (0 <= maxBytes o); destruct Hok as (_ & ? & _); lia).
    rewrite (truncateTail_lines _ _ Hwf Htb).
    destruct (truncateTail_bounded txt _ Hwf Htb) as (<- & Hm & Hn).
    unfold maxLines_of, maxBytes_of in Hm, Hn. simpl in Hm, Hn. lia. }
  destruct Ht. rewrite <- Hbytes in Hb. split; lia.
Qed.

(** A capped tool result keeps its images, in order, after one bounded text: a window of at most
    [maxLines + 2] lines (head, omission note and tail; the note and a one-line tail are the two) and at
    most twice [maxBytes] plus the note, followed by the pointer to the full output. *)
Theorem capToolOutput_bounded (write : jsstr -> option jsstr) (parts : list Part) (existing : option jsstr)
    (o : ToolOutputCapOptions) (Hok : cap_ok o) (Hwf : js_wf (join [LF] (omap part_text parts))) :
  let r := capToolOutput write parts existing o in
  capped r = true ->
  exists w path totalLines totalBytes,
    out_fullOutputPath r = Some path /\
    out_content r = PText (mkText (if nonempty w then w ++ [LF] ++ buildPointer path totalLines totalBytes o
                                   else buildPointer path totalLines totalBytes o))
                    :: filter (fun p => is_text p = false) parts /\
    Z.of_nat (length (lines_of w)) <= maxLines o + 2 /\
    byteLength w <= 2 * maxBytes o + 48.
Proof.
  unfold capToolOutput. set (txt := join [LF] (omap part_text parts)) in *.
  destruct (negb (exceedsOutputCap txt o)); [done|].
  destruct (match existing with Some p => Some p | None => write txt end) as [path|]; [|done]. intros _.
  exists (windowed txt o), path, (Z.of_nat (length (lines_of txt))), (byteLength txt). simpl.
  destruct (windowed_bounds txt o Hwf Hok). pose proof (headLines_bounds o Hok).
  pose proof (headBytes_bounds o Hok). unfold tailLines in *. split_and!; [done|done|lia|lia].
Qed.

Definition example_options : ToolOutputCapOptions := {| maxLines := 3; maxBytes := 10; headRatio := 3 # 4 |}.
Definition example_text : jsstr := unlines [js "a"; js "b"; js "c"; js "d"; js "e"; js "f"].

Lemma capToolOutput_bounded_witness :
  let parts := [PText (mkText example_text)] in
  let r := capToolOutput Some parts None example_options in
  (cap_ok example_options /\ js_wf (join [LF] (omap part_text parts)) /\ capped r = true) /\
  exists w path totalLines totalBytes,
    out_fullOutputPath r = Some path /\
    out_content r = PText (mkText (if nonempty w then w ++ [LF] ++ buildPointer path totalLines totalBytes example_options
                                   else buildPointer path totalLines totalBytes example_options))
                    :: filter (fun p => is_text p = false) parts /\
    Z.of_nat (length (lines_of w)) <= maxLines example_options + 2 /\
    byteLength w <= 2 * maxBytes example_options + 48.
Proof.
  assert (Hok : cap_ok example_options) by (repeat split; by vm_compute).
  assert (Hwf : js_wf (join [LF] (omap part_text [PText (mkText example_text)])))
    by (repeat (constructor; [done|]); constructor).
  split; [split; [exact Hok|split; [exact Hwf|reflexivity]]|].
  apply (capToolOutput_bounded Some [PText (mkText example_text)] None example_options Hok Hwf). reflexivity.
Defined.

(** The cap fails open: a result within the limits, and one whose full text cannot be written, is
    returned as it is. *)
Theorem capToolOutput_fail_open (write : jsstr -> option jsstr) (parts : list Part) (existing : option jsstr)
    (o : ToolOutputCapOptions) :
  let txt := join [LF] (omap part_text parts) in
  let r := capToolOutput write parts existing o in
  (capped r = true <->
     exceedsOutputCap txt o = true /\ (existing <> None \/ write txt <> None)) /\
  (capped r = false -> out_content r = parts /\ out_fullOutputPath r = None).
Proof.
  unfold capToolOutput. set (txt := join [LF] (omap part_text parts)) in *.
  destruct (exceedsOutputCap txt o); simpl; [|naive_solver].
  destruct existing as [p|]; simpl; [naive_solver|]. destruct (write txt) as [p|]; simpl; naive_solver.
Qed.

(** The tail window gets the whole byte limit, not what the head leaves of it: the two windows can overlap,
    and a capped text can show lines twice and outgrow the text it replaces. *)
Example capped_window_outgrows_text :
  let o := {| maxLines := 200; maxBytes := 10; headRatio := 3 # 5 |} in
  byteLength example_text = 11 /\ exceedsOutputCap example_text o = true /\
  content (truncateHead example_text (opts (headLines o) (headBytes o))) = unlines [js "a"; js "b"; js "c"] /\
  content (truncateTail example_text (opts (tailLines o) (maxBytes o))) =
    unlines [js "b"; js "c"; js "d"; js "e"; js "f"] /\
  byteLength (windowed example_text o) = 62.
Proof. by vm_compute. Qed.
