(* ===== verification/EditDiff.v ===== *)
(** * Replacing text in a file

    core/tools/edit-diff.ts without its diff (see [DiffRows]): line endings, the search for a text and for
    its approximation, and the application of several edits to one content. The Unicode normalisation form
    NFKC is a parameter: its tables belong to the language's library.

    [edits_replace] says what a successful application does and why every other one fails,
    [unique_edits_apply] that edits which can be applied are applied, [line_endings_restored] that the ends of
    lines survive. *)

(* Source aliases:
   ED = src/packages/coding-agent/src/core/tools/edit-diff.ts *)

From stdpp Require Import sorting.
From S2P Require Import Prelude JsString.
Local Open Scope nat_scope.

(** ** Searching and splitting strings *)

(** [s.split(sep)] for a separator of several units; an empty one splits between all units. *)
Fixpoint split_turns (fuel : nat) (sep s : jsstr) : list jsstr :=
  match fuel, indexOf sep s with
  | S fuel, Some i => take i s :: split_turns fuel sep (drop (i + length sep) s)
  | _, _ => [s]
  end.
Definition split_text (sep s : jsstr) : list jsstr :=
  match sep with
  | [] => (fun u => [u]) <$> s
  | _ => split_turns (length s) sep s
  end.

(** ** Line endings *)

Definition CR : N := 13.
Inductive ending := CRLF_ending | LF_ending.

(** ED 11-17 detectLineEnding. *)
Definition detectLineEnding (content : jsstr) : ending :=
  match indexOf [CR; LF] content, indexOf [LF] content with
  | _, None => LF_ending
  | None, _ => LF_ending
  | Some crlfIdx, Some lfIdx => if Nat.ltb crlfIdx lfIdx then CRLF_ending else LF_ending
  end.

(** ED 19-21 normalizeToLF. The two replacements. *)
Fixpoint replace_crlf (s : jsstr) : jsstr :=
  match s with
  | [] => []
  | u :: s' =>
      match s' with
      | v :: s'' => if ((u =? CR) && (v =? LF))%N then LF :: replace_crlf s'' else u :: replace_crlf s'
      | [] => [u]
      end
  end.
Definition replace_cr (s : jsstr) : jsstr := (fun u => if (u =? CR)%N then LF else u) <$> s.
Definition normalizeToLF (text : jsstr) : jsstr := replace_cr (replace_crlf text).

(** ED 23-25 restoreLineEndings. *)
Definition restoreLineEndings (text : jsstr) (e : ending) : jsstr :=
  match e with
  | CRLF_ending => text ≫= (fun u => if (u =? LF)%N then [CR; LF] else [u])
  | LF_ending => text
  end.

Definition BOM : N := 0xFEFF.
(** ED 124-126 stripBom. *)
Definition stripBom (content : jsstr) : jsstr * jsstr :=
  if starts_with [BOM] content then ([BOM], drop 1 content) else ([], content).

(** ED 62-65 Edit. *)
Record Edit := { oldText : jsstr; newText : jsstr }.

(** ED 46-60 FuzzyMatchResult. *)
Record FuzzyMatchResult := { found : bool; index : Z; matchLength : nat; usedFuzzyMatch : bool; contentForReplacement : jsstr }.

(** ED 67-72 MatchedEdit. *)
Record MatchedEdit := { editIndex : nat; matchIndex : nat; m_matchLength : nat; m_newText : jsstr }.

(** ED 74-77 AppliedEditsResult. *)
Record AppliedEditsResult := { baseContent : jsstr; newContent : jsstr }.

(** The errors; [error_message] is what they say. *)
Inductive edit_error :=
  | NotFound (editIndex totalEdits : nat)
  | Duplicate (editIndex totalEdits : nat) (occurrences : Z)
  | EmptyOldText (editIndex totalEdits : nat)
  | Overlap (previous current : nat)
  | NoChange (totalEdits : nat).

Definition show_nat (n : nat) : jsstr := show_Z (Z.of_nat n).
(** ED 134-143 getNotFoundError. *)
Definition getNotFoundError (path : jsstr) (i total : nat) : jsstr :=
  if Nat.eqb total 1
  then js "Could not find the exact text in " ++ path ++ js ". The old text must match exactly including all whitespace and newlines."
  else js "Could not find edits[" ++ show_nat i ++ js "] in " ++ path ++ js ". The oldText must match exactly including all whitespace and newlines.".
(** ED 145-154 getDuplicateError. *)
Definition getDuplicateError (path : jsstr) (i total : nat) (occurrences : Z) : jsstr :=
  if Nat.eqb total 1
  then js "Found " ++ show_Z occurrences ++ js " occurrences of the text in " ++ path ++ js ". The text must be unique. Please provide more context to make it unique."
  else js "Found " ++ show_Z occurrences ++ js " occurrences of edits[" ++ show_nat i ++ js "] in " ++ path ++ js ". Each oldText must be unique. Please provide more context to make it unique.".
(** ED 156-161 getEmptyOldTextError. *)
Definition getEmptyOldTextError (path : jsstr) (i total : nat) : jsstr :=
  if Nat.eqb total 1 then js "oldText must not be empty in " ++ path ++ js "."
  else js "edits[" ++ show_nat i ++ js "].oldText must not be empty in " ++ path ++ js ".".
(** ED 163-170 getNoChangeError. *)
Definition getNoChangeError (path : jsstr) (total : nat) : jsstr :=
  if Nat.eqb total 1
  then js "No changes made to " ++ path ++ js ". The replacement produced identical content. This might indicate an issue with special characters or the text not existing as expected."
  else js "No changes made to " ++ path ++ js ". The replacements produced identical content.".
(** ED 227-229 applyEditsToNormalizedContent. The message of an overlap. *)
Definition overlap_message (path : jsstr) (i j : nat) : jsstr :=
  js "edits[" ++ show_nat i ++ js "] and edits[" ++ show_nat j ++ js "] overlap in " ++ path ++ js ". Merge them into one edit or target disjoint regions.".

Definition error_message (path : jsstr) (e : edit_error) : jsstr :=
  match e with
  | NotFound i n => getNotFoundError path i n
  | Duplicate i n k => getDuplicateError path i n k
  | EmptyOldText i n => getEmptyOldTextError path i n
  | Overlap i j => overlap_message path i j
  | NoChange n => getNoChangeError path n
  end.

Section edit_diff.
(** [String.prototype.normalize("NFKC")]. *)
Variable NFKC : jsstr -> jsstr.

Definition one_of (us : list N) (u : N) : bool := bool_decide (u ∈ us).
(** ED 40-43 normalizeForFuzzyMatch. The four replacements, by unit. *)
Definition ascii_unit (u : N) : N :=
  (if one_of [0x2018; 0x2019; 0x201A; 0x201B] u then 39
  else if one_of [0x201C; 0x201D; 0x201E; 0x201F] u then 34
  else if one_of [0x2010; 0x2011; 0x2012; 0x2013; 0x2014; 0x2015; 0x2212] u then 45
  else if one_of [0xA0; 0x2002; 0x2003; 0x2004; 0x2005; 0x2006; 0x2007; 0x2008; 0x2009; 0x200A; 0x202F; 0x205F; 0x3000] u then 32
  else u)%N.

(** ED 34-44 normalizeForFuzzyMatch. *)
Definition normalizeForFuzzyMatch (text : jsstr) : jsstr :=
  ascii_unit <$> unlines (trim_end <$> lines_of (NFKC text)).

(** ED 85-121 fuzzyFindText. *)
Definition fuzzyFindText (content old : jsstr) : FuzzyMatchResult :=
  match indexOf old content with
  | Some exactIndex =>
      {| found := true; index := Z.of_nat exactIndex; matchLength := length old; usedFuzzyMatch := false; contentForReplacement := content |}
  | None =>
      let fuzzyContent := normalizeForFuzzyMatch content in
      let fuzzyOldText := normalizeForFuzzyMatch old in
      match indexOf fuzzyOldText fuzzyContent with
      | None => {| found := false; index := -1; matchLength := 0; usedFuzzyMatch := false; contentForReplacement := content |}
      | Some fuzzyIndex =>
          {| found := true; index := Z.of_nat fuzzyIndex; matchLength := length fuzzyOldText; usedFuzzyMatch := true;
             contentForReplacement := fuzzyContent |}
      end
  end.

(** ED 128-132 countOccurrences. *)
Definition countOccurrences (content old : jsstr) : Z :=
  Z.of_nat (length (split_text (normalizeForFuzzyMatch old) (normalizeForFuzzyMatch content))) - 1.

(** ED 185-188 applyEditsToNormalizedContent. *)
Definition normalizeEdit (e : Edit) : Edit := {| oldText := normalizeToLF (oldText e); newText := normalizeToLF (newText e) |}.

(** ED 190-194 applyEditsToNormalizedContent. The first edit whose text is empty. *)
Fixpoint check_empty (total i : nat) (edits : list Edit) : option edit_error :=
  match edits with
  | [] => None
  | e :: rest => match oldText e with [] => Some (EmptyOldText i total) | _ => check_empty total (S i) rest end
  end.

(** ED 201-219 applyEditsToNormalizedContent. *)
Fixpoint match_edits (base : jsstr) (total i : nat) (edits : list Edit) : list MatchedEdit + edit_error :=
  match edits with
  | [] => inl []
  | e :: rest =>
      let matchResult := fuzzyFindText base (oldText e) in
      if negb (found matchResult) then inr (NotFound i total)
      else
        let occurrences := countOccurrences base (oldText e) in
        if (1 <? occurrences)%Z then inr (Duplicate i total occurrences)
        else match match_edits base total (S i) rest with
             | inr err => inr err
             | inl ms => inl ({| editIndex := i; matchIndex := Z.to_nat (index matchResult);
                                 m_matchLength := matchLength matchResult; m_newText := newText e |} :: ms)
             end
  end.

(** ED 222-222 applyEditsToNormalizedContent. The sort of the language is stable. *)
Fixpoint insert_match (m : MatchedEdit) (ms : list MatchedEdit) : list MatchedEdit :=
  match ms with
  | [] => [m]
  | m' :: rest => if Nat.leb (matchIndex m) (matchIndex m') then m :: ms else m' :: insert_match m rest
  end.
Definition sort_matches (ms : list MatchedEdit) : list MatchedEdit := foldr insert_match [] ms.

(** ED 223-231 applyEditsToNormalizedContent. *)
Fixpoint check_overlap (ms : list MatchedEdit) : option edit_error :=
  match ms with
  | previous :: (current :: _) as rest =>
      if Nat.ltb (matchIndex current) (matchIndex previous + m_matchLength previous)
      then Some (Overlap (editIndex previous) (editIndex current)) else check_overlap rest
  | _ => None
  end.

(** ED 233-240 applyEditsToNormalizedContent. One replacement; the last one is made first. *)
Definition replace_match (m : MatchedEdit) (content : jsstr) : jsstr :=
  take (matchIndex m) content ++ m_newText m ++ drop (matchIndex m + m_matchLength m) content.

(** ED 196-199 applyEditsToNormalizedContent. The content the edits are applied to. *)
Definition base_content (normalizedContent : jsstr) (normalizedEdits : list Edit) : jsstr :=
  let initialMatches := (fun e => fuzzyFindText normalizedContent (oldText e)) <$> normalizedEdits in
  if existsb usedFuzzyMatch initialMatches then normalizeForFuzzyMatch normalizedContent else normalizedContent.

(** ED 180-247 applyEditsToNormalizedContent. *)
Definition applyEditsToNormalizedContent (normalizedContent : jsstr) (edits : list Edit) : AppliedEditsResult + edit_error :=
  let normalizedEdits := normalizeEdit <$> edits in
  let total := length normalizedEdits in
  match check_empty total 0 normalizedEdits with
  | Some err => inr err
  | None =>
      let base := base_content normalizedContent normalizedEdits in
      match match_edits base total 0 normalizedEdits with
      | inr err => inr err
      | inl matched =>
          let sorted := sort_matches matched in
          match check_overlap sorted with
          | Some err => inr err
          | None =>
              let new := foldr replace_match base sorted in
              if jseqb base new then inr (NoChange total) else inl {| baseContent := base; newContent := new |}
          end
      end
  end.
End edit_diff.

(** ** Searching *)

(** [p] occurs twice in [s] without sharing units. *)
Definition twice (p s : jsstr) : Prop := exists a b c, s = a ++ p ++ b ++ p ++ c.

(** ** Splitting *)

Lemma split_turns_length fuel sep s : 1 <= length (split_turns fuel sep s).
Proof. destruct fuel; simpl; [lia|]. destruct (indexOf sep s); simpl; lia. Qed.

Lemma join_split_turns fuel sep s : join sep (split_turns fuel sep s) = s.
Proof.
  revert s. induction fuel as [|fuel IH]; intros s; [done|]. simpl. destruct (indexOf sep s) as [i|] eqn:E; [|done].
  apply indexOf_Some, stands_at_spec in E as [_ Hd]. rewrite join_cons.
  - rewrite IH, <- Hd. apply take_drop.
  - intros H. pose proof (split_turns_length fuel sep (drop (i + length sep) s)). rewrite H in *. simpl in *. lia.
Qed.

(** Two copies that share no unit are counted. *)
Lemma split_twice p s : p <> [] -> twice p s -> 3 <= length (split_text p s).
Proof.
  intros Hp (a & b & c & ->). destruct p as [|u p]; [done|]. set (q := u :: p) in *.
  assert (Hlen : 2 <= length (a ++ q ++ b ++ q ++ c)) by (rewrite !length_app; simpl; lia).
  change (split_text q ?s) with (split_turns (length s) q s).
  destruct (length (a ++ _)) as [|[|n]]; [lia..|]. clear Hlen.
  destruct (indexOf_first q a (b ++ q ++ c)) as (i & Hi & Hle). cbn [split_turns]. rewrite Hi. cbn [length].
  assert (exists d, drop (i + length q) (a ++ q ++ b ++ q ++ c) = d ++ q ++ c) as [d ->].
  { exists (drop (i + length q) (a ++ q ++ b)).
    replace (a ++ q ++ b ++ q ++ c) with ((a ++ q ++ b) ++ q ++ c) by by rewrite <- !(assoc_L (++)).
    rewrite drop_app_le; [done|]. rewrite !length_app. lia. }
  destruct (indexOf_first q d c) as (j & -> & _). cbn [length].
  pose proof (split_turns_length n q (drop (j + length q) (d ++ q ++ c))). lia.
Qed.

(** ** Replacing *)

(** Pieces between gaps. *)
Definition weave {A} (f : A -> jsstr) (ps : list (jsstr * A)) (tail : jsstr) : jsstr :=
  concat ((fun p => p.1 ++ f p.2) <$> ps) ++ tail.

Lemma weave_cons {A} (f : A -> jsstr) gap x ps tail : weave f ((gap, x) :: ps) tail = gap ++ f x ++ weave f ps tail.
Proof. unfold weave. simpl. by rewrite <- !(assoc_L (++)). Qed.

Lemma weave_map {A B} (g : A -> B) (f : B -> jsstr) (f' : A -> jsstr) ps tail :
  Forall (fun x => f (g x) = f' x) ps.*2 -> weave f (prod_map id g <$> ps) tail = weave f' ps tail.
Proof.
  induction ps as [|[gap x] ps IH]; [done|]. intros [Hx Hps]%list.Forall_cons.
  change (prod_map id g <$> (gap, x) :: ps) with ((gap, g x) :: (prod_map id g <$> ps)).
  rewrite !weave_cons, IH by done. simpl in Hx. by rewrite Hx.
Qed.

Definition cut_out (base : jsstr) (m : MatchedEdit) : jsstr := take (m_matchLength m) (drop (matchIndex m) base).

(** Replacing matches that follow one another, the last one first, replaces each of them in the original. *)
Lemma replace_weave base ms from :
  Forall (fun m => matchIndex m + m_matchLength m <= length base) ms -> check_overlap ms = None ->
  match ms with m :: _ => from <= matchIndex m | [] => True end -> from <= length base ->
  exists ps tail, ps.*2 = ms /\ drop from base = weave (cut_out base) ps tail /\
    foldr replace_match base ms = take from base ++ weave m_newText ps tail.
Proof.
  revert from. induction ms as [|m ms IH]; intros from Hin Hover Hhead Hfrom.
  { exists [], (drop from base). split; [done|]. unfold weave. simpl. by rewrite take_drop. }
  apply list.Forall_cons in Hin as [Hm Hin].
  assert (check_overlap ms = None /\ match ms with m' :: _ => matchIndex m + m_matchLength m <= matchIndex m' | [] => True end) as [Hover' Hnext].
  { simpl in Hover. destruct ms as [|m' ms]; [done|]. destruct (Nat.ltb _ _) eqn:E; [done|]. to_prop. done. }
  destruct (IH (matchIndex m + m_matchLength m) Hin Hover' Hnext Hm) as (ps & tail & <- & Hold & Hnew).
  exists ((take (matchIndex m - from) (drop from base), m) :: ps), tail. split; [done|]. rewrite !weave_cons.
  assert (Hgap : take from base ++ take (matchIndex m - from) (drop from base) = take (matchIndex m) base).
  { rewrite <- (take_drop from (take (matchIndex m) base)), take_take, skipn_firstn_comm. do 2 f_equal. lia. }
  split.
  - rewrite <- Hold. unfold cut_out. rewrite <- (drop_drop base), take_drop.
    rewrite <- (take_drop (matchIndex m - from) (drop from base)) at 1. rewrite drop_drop. do 2 f_equal. lia.
  - simpl. rewrite Hnew. unfold replace_match. rewrite (assoc_L (++) (take from base)), Hgap. f_equal; [|f_equal].
    + rewrite take_app_le by (rewrite length_take; lia). rewrite take_take. f_equal. lia.
    + rewrite drop_app_le by (rewrite length_take; lia). rewrite drop_ge by (rewrite length_take; lia). done.
Qed.

Lemma insert_match_perm m ms : insert_match m ms ≡ₚ m :: ms.
Proof.
  induction ms as [|m' ms IH]; simpl; [done|]. destruct (Nat.leb _ _); [done|]. rewrite IH. apply Permutation_swap.
Qed.
Lemma sort_matches_perm ms : sort_matches ms ≡ₚ ms.
Proof. induction ms as [|m ms IH]; simpl; [done|]. by rewrite insert_match_perm, IH. Qed.

Definition before (m m' : MatchedEdit) : Prop := matchIndex m <= matchIndex m'.
Lemma insert_match_sorted m ms : StronglySorted before ms -> StronglySorted before (insert_match m ms).
Proof.
  induction 1 as [|m' ms Hs IH Hm']; simpl; [by repeat constructor|]. destruct (Nat.leb _ _) eqn:E; to_prop.
  - constructor; [by constructor|]. constructor; [done|]. eapply list.Forall_impl; [done|]. unfold before. lia.
  - constructor; [done|]. apply list.Forall_forall. intros x Hx. rewrite insert_match_perm in Hx.
    apply elem_of_cons in Hx as [->|Hx]; [unfold before; lia|]. by eapply list.Forall_forall in Hm'.
Qed.
Lemma sort_matches_sorted ms : StronglySorted before (sort_matches ms).
Proof. induction ms; simpl; [constructor|]. by apply insert_match_sorted. Qed.

(** ** Normalisation for the approximate search *)

Lemma ascii_unit_LF u : ascii_unit u = LF <-> u = LF.
Proof.
  unfold ascii_unit, LF. repeat match goal with |- context [one_of ?l u] => destruct (one_of l u) eqn:? end; unfold one_of in *; to_prop; try done.
  all: split; [done|intros ->; set_solver].
Qed.
Lemma ascii_unit_idem u : ascii_unit (ascii_unit u) = ascii_unit u.
Proof.
  unfold ascii_unit. repeat match goal with |- context [one_of ?l u] => destruct (one_of l u) eqn:? end; try done.
  all: repeat match goal with H : _ = false |- _ => rewrite H end; done.
Qed.
Lemma ascii_unit_space u : is_space u = false -> is_space (ascii_unit u) = false.
Proof.
  unfold ascii_unit. intros Hu. repeat match goal with |- context [one_of ?l u] => destruct (one_of l u) eqn:? end; try done.
  exfalso. unfold one_of, is_space in *. to_prop. set_solver.
Qed.

Lemma lines_of_map (f : N -> N) (s : jsstr) : (forall u, f u = LF <-> u = LF) -> lines_of (f <$> s) = (fmap f : jsstr -> jsstr) <$> lines_of s.
Proof.
  intros Hf. unfold lines_of. induction s as [|u s IH]; [done|].
  rewrite fmap_cons. cbn [split_on]. destruct (u =? LF)%N eqn:E; to_prop.
  - subst. assert (f LF = LF) as -> by by apply Hf. cbn [N.eqb]. by rewrite IH, N.eqb_refl.
  - assert ((f u =? LF)%N = false) as ->. { apply N.eqb_neq. by rewrite Hf. }
    rewrite IH. by destruct (split_on LF s).
Qed.

Lemma trim_end_map (f : N -> N) (s : jsstr) : (forall u, is_space u = false -> is_space (f u) = false) ->
  trim_end (f <$> trim_end s) = f <$> trim_end s.
Proof.
  intros Hf. unfold trim_end. rewrite <- (reverse_involutive (f <$> reverse _)). f_equal.
  rewrite <- fmap_reverse, !reverse_involutive. apply trim_start_idle.
  pose proof (trim_start_head (reverse s)). destruct (trim_start (reverse s)); simpl; auto.
Qed.

Lemma trim_start_LF s : LF ∉ s -> LF ∉ trim_start s.
Proof. induction s as [|u s IH]; [done|]. simpl. intros H. destruct (is_space u); [apply IH; set_solver|done]. Qed.
Lemma trim_end_LF s : LF ∉ s -> LF ∉ trim_end s.
Proof. unfold trim_end. rewrite elem_of_reverse. intros H. apply trim_start_LF. by rewrite elem_of_reverse. Qed.

Section edits.
Variable NFKC : jsstr -> jsstr.
Local Abbreviation fuzzy := (normalizeForFuzzyMatch NFKC).

(** Normalising again changes nothing, if the text stays in the normal form NFKC. *)
Lemma fuzzy_idem s : NFKC (fuzzy s) = fuzzy s -> fuzzy (fuzzy s) = fuzzy s.
Proof.
  intros Hn. unfold normalizeForFuzzyMatch at 1. rewrite Hn. unfold normalizeForFuzzyMatch.
  generalize (NFKC s) as r. intros r. rewrite lines_of_map by apply ascii_unit_LF. rewrite lines_unlines.
  - assert (He : forall ls : list jsstr, unlines ((fmap ascii_unit : jsstr -> jsstr) <$> ls) = ascii_unit <$> unlines ls).
    { unfold unlines. induction ls as [|l ls IH]; [done|]. destruct ls as [|l' ls]; [done|].
      change (join [LF] ((fmap ascii_unit : jsstr -> jsstr) <$> (l :: l' :: ls)))
        with ((ascii_unit <$> l) ++ [LF] ++ join [LF] ((fmap ascii_unit : jsstr -> jsstr) <$> (l' :: ls))).
      rewrite IH. change (join [LF] (l :: l' :: ls)) with (l ++ [LF] ++ join [LF] (l' :: ls)). by rewrite !fmap_app. }
    rewrite <- list_fmap_compose. assert (Ht : trim_end ∘ (fmap ascii_unit : jsstr -> jsstr) <$> (trim_end <$> lines_of r) =
      (fmap ascii_unit : jsstr -> jsstr) <$> (trim_end <$> lines_of r)).
    { rewrite <- !list_fmap_compose. apply list_fmap_ext. intros ? l _. simpl. by apply trim_end_map, ascii_unit_space. }
    rewrite Ht, He, <- list_fmap_compose. apply list_fmap_ext. intros ? ? _. apply ascii_unit_idem.
  - intros H%fmap_nil_inv. by apply lines_of_nonempty in H.
  - apply list.Forall_forall. intros l (l' & -> & Hl')%list_elem_of_fmap.
    pose proof (lines_of_no_LF r) as Hno. rewrite list.Forall_forall in Hno. by apply trim_end_LF, Hno.
Qed.

(** What is searched and replaced for an edit. *)
Definition text_in (base : jsstr) (e : Edit) : jsstr :=
  match indexOf (oldText e) base with Some _ => oldText e | None => fuzzy (oldText e) end.

Lemma find_spec base old :
  let r := fuzzyFindText NFKC base old in
  if found r then
    (if usedFuzzyMatch r then ~ contains old base /\ stands_at (fuzzy old) (fuzzy base) (Z.to_nat (index r)) /\ matchLength r = length (fuzzy old)
     else contains old base /\ stands_at old base (Z.to_nat (index r)) /\ matchLength r = length old)
  else ~ contains old base /\ ~ contains (fuzzy old) (fuzzy base) /\ usedFuzzyMatch r = false.
Proof.
  unfold fuzzyFindText. destruct (indexOf old base) as [i|] eqn:E.
  - apply indexOf_Some in E. simpl. rewrite Nat2Z.id. split; [|done]. destruct E as (a & b & -> & _). by exists a, b.
  - apply indexOf_None in E. destruct (indexOf (fuzzy old) (fuzzy base)) as [i|] eqn:E'; simpl.
    + rewrite Nat2Z.id. apply indexOf_Some in E'. done.
    + by apply indexOf_None in E'.
Qed.

Definition indexed (es : list Edit) : list (nat * Edit) := imap pair es.
Definition match_of (base : jsstr) (p : nat * Edit) : MatchedEdit :=
  let r := fuzzyFindText NFKC base (oldText p.2) in
  {| editIndex := p.1; matchIndex := Z.to_nat (index r); m_matchLength := matchLength r; m_newText := newText p.2 |}.
Definition findable (base : jsstr) (e : Edit) : Prop :=
  found (fuzzyFindText NFKC base (oldText e)) = true /\ (countOccurrences NFKC base (oldText e) <= 1)%Z.

Lemma check_empty_spec total i es :
  match check_empty total i es with
  | None => Forall (fun e => oldText e <> []) es
  | Some err => exists k e, es !! k = Some e /\ oldText e = [] /\ err = EmptyOldText (i + k) total
  end.
Proof.
  revert i. induction es as [|e es IH]; intros i; simpl; [done|]. destruct (oldText e) eqn:E.
  - exists 0, e. rewrite Nat.add_0_r. done.
  - specialize (IH (S i)). destruct (check_empty _ _ _) as [err|].
    + destruct IH as (k & e' & ? & ? & ->). exists (S k), e'. by rewrite Nat.add_succ_r.
    + constructor; [by rewrite E|done].
Qed.

Lemma match_edits_spec base total i es :
  match match_edits NFKC base total i es with
  | inl ms => ms = match_of base <$> imap (fun k e => (i + k, e)) es /\ Forall (findable base) es
  | inr err => exists k e, es !! k = Some e /\
      (err = NotFound (i + k) total /\ found (fuzzyFindText NFKC base (oldText e)) = false \/
       err = Duplicate (i + k) total (countOccurrences NFKC base (oldText e)) /\ (1 < countOccurrences NFKC base (oldText e))%Z)
  end.
Proof.
  revert i. induction es as [|e es IH]; intros i; simpl; [done|].
  destruct (found _) eqn:Ef; simpl; [|exists 0, e; rewrite Nat.add_0_r; auto].
  destruct (1 <? _)%Z eqn:Ec; to_prop; [exists 0, e; rewrite Nat.add_0_r; auto|].
  specialize (IH (S i)). destruct (match_edits _ _ _ _ _) as [ms|err].
  - destruct IH as [-> Hes]. split; [|by constructor; [split|]]. rewrite Nat.add_0_r. f_equal. f_equal. apply imap_ext.
    intros k e' _. simpl. f_equal. lia.
  - destruct IH as (k & e' & Hk & Herr). exists (S k), e'. by rewrite Nat.add_succ_r.
Qed.

Lemma check_overlap_spec ms :
  match check_overlap ms with
  | None => True
  | Some err => exists l previous current r, ms = l ++ previous :: current :: r /\ err = Overlap (editIndex previous) (editIndex current) /\
      matchIndex current < matchIndex previous + m_matchLength previous
  end.
Proof.
  induction ms as [|m ms IH]; [done|]. destruct ms as [|m' ms]; [done|].
  change (check_overlap (m :: m' :: ms)) with
    (if Nat.ltb (matchIndex m') (matchIndex m + m_matchLength m) then Some (Overlap (editIndex m) (editIndex m')) else check_overlap (m' :: ms)).
  destruct (Nat.ltb _ _) eqn:E; to_prop; [by exists [], m, m', ms|].
  destruct (check_overlap _) as [err|]; [|done]. destruct IH as (l & p & c & r & -> & ? & ?). by exists (m :: l), p, c, r.
Qed.

(** Matches that stand where the pieces of a weave do. *)
Fixpoint aligned (from : nat) (ps : list (jsstr * Edit)) (ms : list MatchedEdit) : Prop :=
  match ps, ms with
  | [], [] => True
  | (gap, e) :: ps, m :: ms =>
      matchIndex m = from + length gap /\ m_matchLength m = length (oldText e) /\ m_newText m = newText e /\
      aligned (from + length gap + length (oldText e)) ps ms
  | _, _ => False
  end.

Lemma aligned_result pre ps ms tail : aligned (length pre) ps ms ->
  foldr replace_match (pre ++ weave oldText ps tail) ms = pre ++ weave newText ps tail.
Proof.
  revert pre ms. induction ps as [|[gap e] ps IH]; intros pre [|m ms]; [done..|]. intros (Hi & Hl & Hn & Hrest).
  rewrite !weave_cons. change (foldr replace_match ?b (m :: ms)) with (replace_match m (foldr replace_match b ms)).
  replace (pre ++ gap ++ oldText e ++ weave oldText ps tail) with ((pre ++ gap ++ oldText e) ++ weave oldText ps tail) by by rewrite <- !(assoc_L (++)).
  rewrite IH by (by rewrite !length_app, Nat.add_assoc). unfold replace_match. rewrite Hi, Hl, Hn, <- length_app.
  rewrite !(assoc_L (++) pre gap), <- length_app, drop_app_length.
  rewrite <- (assoc_L (++) (pre ++ gap)), take_app_length. by rewrite <- !(assoc_L (++)).
Qed.

Definition strictly (m m' : MatchedEdit) : Prop := matchIndex m < matchIndex m'.
Lemma aligned_sorted from ps ms : Forall (fun e => oldText e <> []) ps.*2 -> aligned from ps ms ->
  Forall (fun m => from <= matchIndex m) ms /\ StronglySorted strictly ms /\ check_overlap ms = None.
Proof.
  revert from ms. induction ps as [|[gap e] ps IH]; intros from [|m ms]; [by repeat constructor|done..|].
  intros [He Hps]%list.Forall_cons (Hi & Hl & Hn & Hrest). destruct (IH _ ms Hps Hrest) as (Hge & Hs & Ho).
  simpl in He. destruct (oldText e) as [|u o] eqn:E; [done|]. simpl in *. split; [|split].
  - constructor; [lia|]. eapply list.Forall_impl; [done|]. simpl. lia.
  - constructor; [done|]. eapply list.Forall_impl; [done|]. unfold strictly. simpl. lia.
  - destruct ms as [|m' ms]; [done|]. apply list.Forall_cons in Hge as [Hge _].
    destruct (Nat.ltb _ _) eqn:El; [to_prop; lia|done].
Qed.

Lemma strictly_before ms : StronglySorted strictly ms -> StronglySorted before ms.
Proof. induction 1; constructor; [done|]. eapply list.Forall_impl; [done|]. unfold strictly, before. lia. Qed.
Lemma strictly_same ms x y : StronglySorted strictly ms -> x ∈ ms -> y ∈ ms -> matchIndex x = matchIndex y -> x = y.
Proof.
  unfold strictly. induction 1 as [|m ms Hs IH Hm]; intros Hx Hy He; [set_solver|]. rewrite list.Forall_forall in Hm.
  apply elem_of_cons in Hx as [->|Hx], Hy as [->|Hy]; [done|..|by apply IH].
  - specialize (Hm y Hy). lia.
  - specialize (Hm x Hx). lia.
Qed.

(** A text that stands at one place only. *)
Definition once (p s : jsstr) : Prop := forall i j, stands_at p s i -> stands_at p s j -> i = j.

Lemma match_once base p i : stands_at (oldText p.2) base i -> once (oldText p.2) base ->
  found (fuzzyFindText NFKC base (oldText p.2)) = true /\
  matchIndex (match_of base p) = i /\ m_matchLength (match_of base p) = length (oldText p.2).
Proof.
  intros Hat Honce. pose proof (stands_contains _ _ _ Hat).
  unfold match_of. simpl. pose proof (find_spec base (oldText p.2)) as Hs. cbv zeta in Hs.
  destruct (found _); [|naive_solver]. destruct (usedFuzzyMatch _); [naive_solver|].
  destruct Hs as (_ & Hat' & Hl). split; [done|]. split; [|done]. by apply Honce.
Qed.

Lemma aligned_matches base pre ps tail (l : list (nat * Edit)) :
  l.*2 = ps.*2 -> base = pre ++ weave oldText ps tail -> Forall (fun e => once (oldText e) base) ps.*2 ->
  aligned (length pre) ps (match_of base <$> l) /\ Forall (fun e => contains (oldText e) base /\ found (fuzzyFindText NFKC base (oldText e)) = true) ps.*2.
Proof.
  revert pre l. induction ps as [|[gap e] ps IH]; intros pre [|[i e'] l] Hl Hb Hf; simplify_eq/=; [by split|].
  apply list.Forall_cons in Hf as [He Hf]. rewrite weave_cons in *.
  set (base := pre ++ gap ++ oldText e ++ weave oldText ps tail) in *.
  assert (Hat : stands_at (oldText e) base (length (pre ++ gap))).
  { exists (pre ++ gap), (weave oldText ps tail). split; [|done]. unfold base. by rewrite <- !(assoc_L (++)). }
  destruct (match_once base (i, e) (length (pre ++ gap)) Hat He) as (Hfound & Hi & Hlen).
  destruct (IH (pre ++ gap ++ oldText e) l) as [Ha Hfs]; [done|unfold base; by rewrite <- !(assoc_L (++))|done|].
  rewrite !length_app in *. rewrite Nat.add_assoc in Ha. split_and!; [exact Hi|exact Hlen|done|exact Ha|]. constructor; [|done]. split; [|done]. by eapply stands_contains.
Qed.

(** The normal form NFKC is closed under what [normalizeForFuzzyMatch] does to it. *)
Hypothesis NFKC_settled : forall s, NFKC (fuzzy s) = fuzzy s.

(** The matches stand where they say, in the content they are applied to. *)
Lemma match_placed content es p : p.2 ∈ es -> let base := base_content NFKC content es in
  found (fuzzyFindText NFKC base (oldText p.2)) = true ->
  stands_at (text_in base p.2) base (matchIndex (match_of base p)) /\ m_matchLength (match_of base p) = length (text_in base p.2).
Proof.
  intros He base Hf. unfold match_of. simpl. pose proof (find_spec base (oldText p.2)) as Hs. cbv zeta in Hs. rewrite Hf in Hs.
  unfold text_in. destruct (usedFuzzyMatch _) eqn:Eu.
  - destruct Hs as (Hno & Hat & Hlen). apply indexOf_None in Hno as Hn. rewrite Hn. split; [|done].
    replace (fuzzy base) with base in Hat; [done|]. unfold base, base_content. destruct (existsb _ _) eqn:Ex.
    + by rewrite fuzzy_idem.
    + exfalso. assert (Hb : base = content) by (unfold base, base_content; by rewrite Ex). rewrite Hb in Eu.
      apply not_true_iff_false in Ex. destruct Ex. apply existsb_exists. exists (fuzzyFindText NFKC content (oldText p.2)). split; [|done].
      apply list_elem_of_In, list_elem_of_fmap. by exists p.2.
  - destruct Hs as (Hc & Hat & Hlen). destruct (indexOf (oldText p.2) base) eqn:Ei; [done|]. by apply indexOf_None in Ei.
Qed.

Lemma base_exact content es : Forall (fun e => contains (oldText e) content) es -> base_content NFKC content es = content.
Proof.
  intros Hall. unfold base_content. destruct (existsb _ _) eqn:Ex; [|done]. exfalso.
  apply existsb_exists in Ex as (r & (e & -> & He)%list_elem_of_In%list_elem_of_fmap & Hu). rewrite list.Forall_forall in Hall.
  pose proof (find_spec content (oldText e)) as Hs. cbv zeta in Hs. rewrite Hu in Hs. specialize (Hall e He).
  destruct (found _); naive_solver.
Qed.

Lemma indexed_keys es : (indexed es).*1 = seq 0 (length es).
Proof.
  unfold indexed. change (imap pair es) with (imap (fun i e => (0 + i, e)) es). generalize 0 as k.
  induction es as [|e es IH]; intros k; [done|]. simpl. rewrite Nat.add_0_r. f_equal. rewrite <- IH. f_equal. apply imap_ext. intros; simpl; f_equal; lia.
Qed.
Lemma indexed_snd es : (indexed es).*2 = es.
Proof. unfold indexed. rewrite fmap_imap. transitivity (imap (const (@id Edit)) es); [by apply imap_ext|]. by rewrite imap_const, list_fmap_id. Qed.
Lemma indexed_elem es i e : (i, e) ∈ indexed es -> es !! i = Some e.
Proof. intros (j & Hj)%list_elem_of_lookup. unfold indexed in Hj. rewrite list_lookup_imap in Hj. destruct (es !! j) eqn:?; simplify_eq/=. done. Qed.

(** The matches in their order, as a permutation of the edits. *)
Lemma sorted_edits base es : exists l, sort_matches (match_of base <$> indexed es) = match_of base <$> l /\ l ≡ₚ indexed es.
Proof.
  pose proof (sort_matches_perm (match_of base <$> indexed es)) as Hp. apply Permutation_map_inv in Hp as (l & Hl & Hp).
  by exists l.
Qed.

Lemma unmap {A B} (g : A -> B) (ps : list (jsstr * B)) (l : list A) : ps.*2 = g <$> l ->
  exists ps', ps = prod_map id g <$> ps' /\ ps'.*2 = l.
Proof.
  revert l. induction ps as [|[gap y] ps IH]; intros [|x l] H; simplify_eq/=; [by exists []|].
  match goal with H : _ = _ |- _ => destruct (IH l H) as (ps' & -> & <-) end. by exists ((gap, x) :: ps').
Qed.

Lemma weave_matches {A} (g : A -> MatchedEdit) (h : A -> Edit) f f' (psm : list (jsstr * MatchedEdit)) tail (l : list A) :
  psm.*2 = g <$> l -> Forall (fun x => f (g x) = f' (h x)) l ->
  exists ps, ps.*1 = psm.*1 /\ ps.*2 = h <$> l /\ weave f psm tail = weave f' ps tail.
Proof.
  intros (ps & -> & <-)%unmap Hf. exists (prod_map id h <$> ps). split; [|split].
  - by rewrite <- !list_fmap_compose.
  - by rewrite <- !list_fmap_compose.
  - rewrite !(weave_map _ _ (fun x => f' (h x))); [done|by apply list.Forall_true|done].
Qed.

Lemma same_pieces {A} (ps qs : list (jsstr * A)) : ps.*1 = qs.*1 -> ps.*2 = qs.*2 -> ps = qs.
Proof.
  revert qs. induction ps as [|[a x] ps IH]; intros [|[b y] qs] H1 H2; simplify_eq/=; [done|]. f_equal. by apply IH.
Qed.

Lemma applied content es (base := base_content NFKC content es) (sorted := sort_matches (match_of base <$> indexed es)) :
  Forall (findable base) es -> check_overlap sorted = None ->
  exists ps tail, ps.*2 ≡ₚ es /\ base = weave (text_in base) ps tail /\ foldr replace_match base sorted = weave newText ps tail.
Proof.
  intros Hfind Hover. destruct (sorted_edits base es) as (l & Hsort & Hl). fold sorted in Hsort. rewrite Hsort in *.
  assert (Hplaced : Forall (fun p => stands_at (text_in base p.2) base (matchIndex (match_of base p)) /\
    m_matchLength (match_of base p) = length (text_in base p.2)) l).
  { apply list.Forall_forall. intros [i e] Hp. rewrite Hl in Hp. apply indexed_elem, list_elem_of_lookup_2 in Hp.
    rewrite list.Forall_forall in Hfind. apply match_placed; [done|]. by destruct (Hfind e Hp). }
  destruct (replace_weave base (match_of base <$> l) 0) as (psm & tail & Hpsm & Hold & Hnew); [|done|..].
  - apply Forall_fmap. eapply list.Forall_impl; [exact Hplaced|]. intros p [Hat Hlen]. simpl in *. rewrite Hlen. by apply stands_at_spec in Hat as [? _].
  - destruct (match_of base <$> l); [done|lia].
  - lia.
  - destruct (weave_matches _ snd (cut_out base) (text_in base) psm tail l Hpsm) as (ps & H1 & H2 & Hw).
    { eapply list.Forall_impl; [exact Hplaced|]. intros p [Hat Hlen]. unfold cut_out. rewrite Hlen.
      apply stands_at_spec in Hat as [? ->]. by rewrite take_app_length. }
    destruct (weave_matches _ snd m_newText newText psm tail l Hpsm) as (ps' & H1' & H2' & Hw'); [by apply list.Forall_true|].
    exists ps, tail. rewrite drop_0 in Hold. rewrite take_0 in Hnew. simpl in Hnew. split; [|split].
    + by rewrite H2, Hl, indexed_snd.
    + congruence.
    + rewrite Hnew, Hw'. f_equal. apply same_pieces; congruence.
Qed.

Lemma overlapping content es (base := base_content NFKC content es) (sorted := sort_matches (match_of base <$> indexed es)) err :
  Forall (findable base) es -> check_overlap sorted = Some err ->
  exists i j e e' a b, err = Overlap i j /\ i <> j /\ es !! i = Some e /\ es !! j = Some e' /\
    stands_at (text_in base e) base a /\ stands_at (text_in base e') base b /\ a <= b < a + length (text_in base e).
Proof.
  intros Hfind Hover. pose proof (check_overlap_spec sorted) as Hs. rewrite Hover in Hs.
  destruct Hs as (l1 & p & c & l2 & Hsort & -> & Hlt). destruct (sorted_edits base es) as (l & Hl & Hp).
  pose proof (sort_matches_sorted (match_of base <$> indexed es)) as Hsorted. fold sorted in Hl, Hsorted. rewrite Hsort in *.
  apply StronglySorted_app in Hsorted as (_ & _ & Hsorted). apply StronglySorted_inv in Hsorted as [_ Hle].
  apply list.Forall_cons in Hle as [Hle _]. symmetry in Hl.
  apply fmap_app_inv in Hl as (k1 & k2 & -> & Hl & ->). destruct k2 as [|[i e] [|[j e'] k2]]; simplify_eq/=.
  assert (Hkeys : NoDup (k1 ++ (i, e) :: (j, e') :: k2).*1) by (rewrite Hp, indexed_keys; apply NoDup_seq).
  assert (Hi : (i, e) ∈ indexed es) by (rewrite <- Hp; set_solver). assert (Hj : (j, e') ∈ indexed es) by (rewrite <- Hp; set_solver).
  assert (Hat : forall p, p ∈ indexed es -> stands_at (text_in base p.2) base (matchIndex (match_of base p)) /\
    m_matchLength (match_of base p) = length (text_in base p.2)).
  { intros [k x] Hk%indexed_elem%list_elem_of_lookup_2. rewrite list.Forall_forall in Hfind. apply match_placed; [done|]. by destruct (Hfind x Hk). }
  destruct (Hat _ Hi) as [Hati Hleni], (Hat _ Hj) as [Hatj _]. apply indexed_elem in Hi, Hj. unfold before in Hle. simpl in *.
  do 6 eexists. split; [done|]. split.
  { rewrite fmap_app in Hkeys. apply list.NoDup_app in Hkeys as (_ & _ & Hkeys). simpl in Hkeys. inversion Hkeys as [|? ? Hn _]; subst. set_solver. }
  split_and!; [done|done|exact Hati|exact Hatj|exact Hle|lia].
Qed.

(** ** Theorems *)

(** C37. What a successful application does, and why any other one fails. The edits stand in the base content, one
    after the other, separated by gaps: the result has their new texts in the same gaps, whatever the order of the
    edits. The base is the content itself when all texts occur in it, else its normalised form. No applied text
    is empty; copies are counted in normalised form, so that an applied text whose normalised form is not empty has
    no two disjoint copies of that form in the normalised base, while one of white space may have
    ([blank_text_applied]). Each error names an edit that is at fault. *)
Theorem edits_replace (content : jsstr) (edits : list Edit) :
  let es := normalizeEdit <$> edits in
  let base := base_content NFKC content es in
  match applyEditsToNormalizedContent NFKC content edits with
  | inl r =>
      baseContent r = base /\ newContent r <> base /\
      (Forall (fun e => contains (oldText e) content) es -> base = content) /\
      (exists ps tail, ps.*2 ≡ₚ es /\ base = weave (text_in base) ps tail /\ newContent r = weave newText ps tail) /\
      Forall (fun e => oldText e <> [] /\ (fuzzy (oldText e) <> [] -> ~ twice (fuzzy (oldText e)) (fuzzy base))) es
  | inr (EmptyOldText i n) => n = length edits /\ exists e, es !! i = Some e /\ oldText e = []
  | inr (NotFound i n) => n = length edits /\
      exists e, es !! i = Some e /\ ~ contains (oldText e) base /\ ~ contains (fuzzy (oldText e)) (fuzzy base)
  | inr (Duplicate i n k) => n = length edits /\
      exists e, es !! i = Some e /\ k = countOccurrences NFKC base (oldText e) /\ (1 < k)%Z
  | inr (Overlap i j) =>
      exists e e' a b, i <> j /\ es !! i = Some e /\ es !! j = Some e' /\
        stands_at (text_in base e) base a /\ stands_at (text_in base e') base b /\ a <= b < a + length (text_in base e)
  | inr (NoChange n) => n = length edits /\
      exists ps tail, ps.*2 ≡ₚ es /\ base = weave (text_in base) ps tail /\ base = weave newText ps tail
  end.
Proof.
  intros es base. unfold applyEditsToNormalizedContent. fold es. assert (length es = length edits) as -> by apply length_fmap.
  pose proof (check_empty_spec (length edits) 0 es) as He. destruct (check_empty _ _ _) as [err|].
  { destruct He as (k & e & ? & ? & ->). eauto. }
  fold base. pose proof (match_edits_spec base (length edits) 0 es) as Hm. destruct (match_edits _ _ _ _ _) as [ms|err].
  2:{ destruct Hm as (k & e & Hk & [[-> Hf] | [-> Hc]]); (split; [done|]); exists e; [|done].
      pose proof (find_spec base (oldText e)) as Hs. cbv zeta in Hs. rewrite Hf in Hs. naive_solver. }
  destruct Hm as [-> Hfind]. change (imap (fun k e => (0 + k, e)) es) with (indexed es).
  destruct (check_overlap _) as [err|] eqn:Eo.
  { destruct (overlapping content es err Hfind Eo) as (i & j & e & e' & a & b & -> & ?). by exists e, e', a, b. }
  destruct (applied content es Hfind Eo) as (ps & tail & Hps & Hold & Hnew). fold base in Hps, Hold, Hnew. rewrite Hnew.
  unfold jseqb. case_bool_decide as Eq; [by eauto 8|]. simpl. split; [done|]. split; [done|]. split; [apply base_exact|].
  split; [by exists ps, tail|]. eapply list.Forall_impl; [by apply list.Forall_and; split; [exact He|exact Hfind]|].
  intros e [Hne [_ Hcount]]. split; [done|]. intros Hf Ht%split_twice; [|done]. unfold countOccurrences in Hcount. lia.
Qed.

(** Edits that can be applied are applied. When the texts of the edits stand in the content one after the other,
    in any order of the edits, each at that place only and counted once, and the result is another text, the edits
    are accepted and the result has the new texts in the same gaps. *)
Theorem unique_edits_apply (edits : list Edit) (ps : list (jsstr * Edit)) (tail : jsstr) (content := weave oldText ps tail)
    (Hps : ps.*2 ≡ₚ normalizeEdit <$> edits)
    (Hunique : Forall (fun e => oldText e <> [] /\ once (oldText e) content /\ (countOccurrences NFKC content (oldText e) <= 1)%Z) ps.*2)
    (Hchange : weave newText ps tail <> content) :
  applyEditsToNormalizedContent NFKC content edits = inl {| baseContent := content; newContent := weave newText ps tail |}.
Proof.
  set (es := normalizeEdit <$> edits) in *. apply list.Forall_and in Hunique as [Hne Hrest]. apply list.Forall_and in Hrest as [Honce Hcount].
  assert (exists l, l.*2 = ps.*2 /\ l ≡ₚ indexed es) as (l & Hl & Hperm).
  { assert (Hp : ps.*2 ≡ₚ map snd (indexed es)) by (etransitivity; [exact Hps|]; by rewrite <- (indexed_snd es) at 1).
    apply Permutation_map_inv in Hp as (l & -> & Hl). by exists l. }
  destruct (aligned_matches content [] ps tail l Hl eq_refl Honce) as [Ha Hfound].
  apply list.Forall_and in Hfound as [Hin Hfound].
  destruct (aligned_sorted _ _ _ Hne Ha) as (_ & Hs & Ho). pose proof (aligned_result [] ps _ tail Ha) as Hnew.
  assert (Hbase : base_content NFKC content es = content) by (apply base_exact; by rewrite <- Hps).
  assert (Hsort : sort_matches (match_of content <$> indexed es) = match_of content <$> l).
  { apply (StronglySorted_unique_strong before).
    - intros x y Hx Hy ? ?. rewrite sort_matches_perm, <- Hperm in Hx. apply (strictly_same _ _ _ Hs Hx Hy). unfold before in *. lia.
    - apply sort_matches_sorted.
    - by apply strictly_before.
    - by rewrite sort_matches_perm, Hperm. }
  unfold applyEditsToNormalizedContent. fold es. rewrite Hbase.
  pose proof (check_empty_spec (length es) 0 es) as He. destruct (check_empty _ _ _) as [err|].
  { destruct He as (k & e & Hk & Hempty & _). rewrite list.Forall_forall in Hne. apply list_elem_of_lookup_2 in Hk. rewrite <- Hps in Hk. by apply Hne in Hk. }
  pose proof (match_edits_spec content (length es) 0 es) as Hm. destruct (match_edits _ _ _ _ _) as [ms|err].
  2:{ destruct Hm as (k & e & Hk%list_elem_of_lookup_2 & Herr). rewrite <- Hps in Hk. rewrite list.Forall_forall in Hfound, Hcount.
      specialize (Hfound e Hk). specialize (Hcount e Hk). simpl in Hcount. destruct Herr as [[_ ?]|[_ ?]]; [congruence|lia]. }
  destruct Hm as [-> _]. change (imap (fun k e => (0 + k, e)) es) with (indexed es). rewrite Hsort, Ho.
  change (weave oldText ps tail) with content in Hnew. simpl in Hnew. rewrite Hnew. unfold jseqb. by rewrite bool_decide_eq_false_2.
Qed.

End edits.

(** ** Line endings *)

Lemma replace_crlf_restored t : CR ∉ t -> replace_crlf (restoreLineEndings t CRLF_ending) = t.
Proof.
  simpl. induction t as [|u t IH]; [done|]. intros Hu. rewrite bind_cons. destruct (u =? LF)%N eqn:E; to_prop.
  - subst. simpl. f_equal. apply IH. set_solver.
  - simpl. rewrite IH by set_solver. destruct (t ≫= _) as [|v s] eqn:Es.
    + destruct t as [|u' t]; [done|]. rewrite bind_cons in Es. destruct (u' =? LF)%N; discriminate.
    + assert ((u =? CR)%N = false) as -> by (apply N.eqb_neq; set_solver). done.
Qed.

Lemma replace_crlf_plain t : CR ∉ t -> replace_crlf t = t.
Proof.
  induction t as [|u t IH]; [done|]. intros Hu. simpl. rewrite IH by set_solver.
  assert ((u =? CR)%N = false) as -> by (apply N.eqb_neq; set_solver). by destruct t.
Qed.
Lemma replace_cr_plain t : CR ∉ t -> replace_cr t = t.
Proof.
  unfold replace_cr. induction t as [|u t IH]; [done|]. intros Hu. rewrite fmap_cons, IH by set_solver.
  assert ((u =? CR)%N = false) as -> by (apply N.eqb_neq; set_solver). done.
Qed.

Lemma normalize_restored t e : CR ∉ t -> normalizeToLF (restoreLineEndings t e) = t.
Proof.
  intros Ht. unfold normalizeToLF. destruct e; [rewrite replace_crlf_restored by done|rewrite replace_crlf_plain by done]; by apply replace_cr_plain.
Qed.

Lemma normalizeToLF_no_CR s : CR ∉ normalizeToLF s.
Proof.
  unfold normalizeToLF, replace_cr. intros (u & Hu & _)%list_elem_of_fmap. destruct (u =? CR)%N eqn:E; to_prop; [done|congruence].
Qed.

Lemma indexOf_cons p u s : indexOf p (u :: s) = if starts_with p (u :: s) then Some 0 else S <$> indexOf p s.
Proof. done. Qed.
Lemma starts_LF u s : starts_with [LF] (u :: s) = (u =? LF)%N.
Proof. unfold starts_with. simpl. rewrite take_0. case_bool_decide; [by simplify_eq|]. symmetry. apply N.eqb_neq. congruence. Qed.

(** The first line end tells the ends of all lines, when they are all the same. *)
Lemma detect_restored t e : CR ∉ t -> LF ∈ t -> detectLineEnding (restoreLineEndings t e) = e.
Proof.
  intros Hcr Hlf. destruct e; cbn [restoreLineEndings].
  - unfold detectLineEnding. assert (exists n, indexOf [CR; LF] (t ≫= fun u => if (u =? LF)%N then [CR; LF] else [u]) = Some n /\
      indexOf [LF] (t ≫= fun u => if (u =? LF)%N then [CR; LF] else [u]) = Some (S n)) as (n & -> & ->).
    { induction t as [|u t IH]; [set_solver|]. rewrite bind_cons. destruct (u =? LF)%N eqn:E; to_prop.
      - exists 0. split; by destruct t.
      - destruct IH as (n & H1 & H2); [set_solver..|]. exists (S n). change ([u] ++ ?s) with (u :: s).
        rewrite !indexOf_cons, H1, H2, starts_LF. assert ((u =? LF)%N = false) as -> by by apply N.eqb_neq.
        destruct (starts_with _ _) eqn:Es; [|done]. apply starts_with_spec in Es as [b Eb]. injection Eb. set_solver. }
    by destruct (Nat.ltb_spec n (S n)); [|lia].
  - unfold detectLineEnding. destruct (indexOf [CR; LF] t) as [i|] eqn:E; [|by destruct (indexOf [LF] t)].
    apply indexOf_Some in E as (a & b & -> & _). set_solver.
Qed.

(** A text whose lines all end in the same way is restored. *)
Lemma line_endings_restored t e : CR ∉ t ->
  restoreLineEndings (normalizeToLF (restoreLineEndings t e)) (detectLineEnding (restoreLineEndings t e)) = restoreLineEndings t e.
Proof.
  intros Ht. rewrite normalize_restored by done. destruct (decide (LF ∈ t)) as [Hl|Hl]; [by rewrite detect_restored|].
  assert (Hno : forall e, restoreLineEndings t e = t); [|by rewrite !Hno].
  intros []; simpl; [|done]. clear Ht. induction t as [|u t IH]; [done|]. rewrite bind_cons, IH by set_solver.
  assert ((u =? LF)%N = false) as -> by (apply N.eqb_neq; set_solver). done.
Qed.

Lemma restore_app s t e : restoreLineEndings (s ++ t) e = restoreLineEndings s e ++ restoreLineEndings t e.
Proof. destruct e; [apply bind_app|done]. Qed.
Lemma restore_weave {A} (f : A -> jsstr) ps tail e : let restore s := restoreLineEndings s e in
  restore (weave f ps tail) = weave (restore ∘ f) (prod_map restore id <$> ps) (restore tail).
Proof.
  intros restore. induction ps as [|[gap x] ps IH]; [done|].
  change (prod_map restore id <$> (gap, x) :: ps) with ((restore gap, x) :: (prod_map restore id <$> ps)).
  rewrite !weave_cons. unfold restore in *. rewrite !restore_app, IH. done.
Qed.

(** Examples of the test suite's kind; NFKC leaves ASCII as it is. *)
Definition plain (s : jsstr) : jsstr := s.
Example two_edits :
  applyEditsToNormalizedContent plain (js "one two three") [{| oldText := js "three"; newText := js "3" |}; {| oldText := js "one"; newText := js "1" |}] =
  inl {| baseContent := js "one two three"; newContent := js "1 two 3" |}.
Proof. reflexivity. Qed.

(** A text of white space is searched as the empty text, which is found between all units: an edit of the only tab of
    a file is refused because of eight occurrences. *)
Example blank_text_refused :
  applyEditsToNormalizedContent plain (js "one" ++ [LF; 9%N] ++ js "two" ++ [LF]) [{| oldText := [9%N]; newText := js "  " |}] =
  inr (Duplicate 0 1 8).
Proof. vm_compute. reflexivity. Qed.

(** In a short enough file the count is right by chance, and one of two blanks is replaced. *)
Example blank_text_applied :
  applyEditsToNormalizedContent plain (js "a  " ++ [LF]) [{| oldText := js " "; newText := js "x" |}] =
  inl {| baseContent := js "a  " ++ [LF]; newContent := js "ax " ++ [LF] |}.
Proof. vm_compute. reflexivity. Qed.

(** Copies that share units are not counted: the first one is replaced. *)
Example overlapping_copies_accepted :
  applyEditsToNormalizedContent plain (js "ababa") [{| oldText := js "aba"; newText := js "x" |}] =
  inl {| baseContent := js "ababa"; newContent := js "xba" |}.
Proof. reflexivity. Qed.

(** An edit that is found only approximately has the whole content normalised: here the last line loses its blanks. *)
Example fuzzy_edit_trims :
  applyEditsToNormalizedContent plain (js "it" ++ [0x2019%N] ++ js "s" ++ [LF] ++ js "kept  ") [{| oldText := js "it's"; newText := js "that's" |}] =
  inl {| baseContent := js "it's" ++ [LF] ++ js "kept"; newContent := js "that's" ++ [LF] ++ js "kept" |}.
Proof. vm_compute. reflexivity. Qed.

(** ** Witnesses *)

Definition ex_content : jsstr := js "one two three".
Definition ex_edits : list Edit := [{| oldText := js "three"; newText := js "3" |}; {| oldText := js "one"; newText := js "1" |}].
Lemma edits_replace_witness :
  match applyEditsToNormalizedContent plain ex_content ex_edits with
  | inl r => newContent r <> ex_content /\ exists ps tail, ps.*2 ≡ₚ ex_edits /\ newContent r = weave newText ps tail
  | inr _ => False
  end.
Proof.
  pose proof (edits_replace plain (fun _ => eq_refl) ex_content ex_edits) as H.
  change (applyEditsToNormalizedContent plain ex_content ex_edits) with
    (@inl AppliedEditsResult edit_error {| baseContent := ex_content; newContent := js "1 two 3" |}) in H |- *.
  destruct H as (_ & Hne & _ & (ps & tail & Hps & _ & Hnew) & _). split; [exact Hne|]. by exists ps, tail.
Defined.

Definition ex_pieces : list (jsstr * Edit) :=
  [([], {| oldText := js "one"; newText := js "1" |}); (js " two ", {| oldText := js "three"; newText := js "3" |})].
Lemma unique_edits_apply_witness :
  applyEditsToNormalizedContent plain (weave oldText ex_pieces []) ex_edits =
  inl {| baseContent := weave oldText ex_pieces []; newContent := weave newText ex_pieces [] |}.
Proof.
  assert (Hat : forall p i, Forall (fun k => stands_at p ex_content k -> k = i) (seq 0 14) -> once p ex_content).
  { intros p i H. assert (forall k, stands_at p ex_content k -> k = i) as Hk.
    { intros k Hk. rewrite list.Forall_forall in H. apply H; [|done]. apply elem_of_seq. apply stands_at_spec in Hk as [Hk _]. simpl in *. lia. }
    intros a b ->%Hk ->%Hk. done. }
  apply (unique_edits_apply plain ex_edits ex_pieces []).
  - simpl. apply Permutation_swap.
  - repeat constructor; try done.
    + apply (Hat _ 0). repeat constructor; intros [_ H]%stands_at_spec; done.
    + apply (Hat _ 8). repeat constructor; intros [_ H]%stands_at_spec; done.
  - done.
Defined.
