(* ===== verification/DiffRows.v ===== *)
(** * The diff shown for an edit

    generateDiffString of core/tools/edit-diff.ts: the rows of a diff with their line numbers and the gaps between
    them. The comparison of the two contents ([Diff.diffLines] of the package "diff") is outside the sources: its
    result is an argument, and [diff_rows_faithful] assumes what the package promises of it. *)

(* Source aliases:
   ED = src/packages/coding-agent/src/core/tools/edit-diff.ts *)

From S2P Require Import Prelude JsString.
Local Open Scope Z_scope.

(** A part of the result of [Diff.diffLines]. *)
Record Change := { value : jsstr; added : bool; removed : bool }.

(** A line of the output before it is printed. *)
Inductive row := Added (num : Z) (line : jsstr) | Removed (num : Z) (line : jsstr) | Same (num : Z) (line : jsstr) | Gap.

(** [s.padStart(width)]. *)
Definition padStart (width : nat) (s : jsstr) : jsstr := replicate (width - length s) 32%N ++ s.

(** ED 286-291 generateDiffString. With the other rows (lines 304, 321). *)
Definition print_row (width : nat) (r : row) : jsstr :=
  match r with
  | Added n line => js "+" ++ padStart width (show_Z n) ++ js " " ++ line
  | Removed n line => js "-" ++ padStart width (show_Z n) ++ js " " ++ line
  | Same n line => js " " ++ padStart width (show_Z n) ++ js " " ++ line
  | Gap => js " " ++ padStart width [] ++ js " ..."
  end.

(** ED 267-270 generateDiffString. The variables of the loop. *)
Record dstate := { oldLineNum : Z; newLineNum : Z; lastWasChange : bool; firstChangedLine : option Z; output : list row }.

Definition move_on (o n : Z) (rs : list row) (st : dstate) : dstate :=
  {| oldLineNum := oldLineNum st + o; newLineNum := newLineNum st + n; lastWasChange := lastWasChange st;
     firstChangedLine := firstChangedLine st; output := output st ++ rs |}.

(** ED 285-288 generateDiffString. *)
Definition push_added (st : dstate) (line : jsstr) : dstate := move_on 0 1 [Added (newLineNum st) line] st.
(** ED 289-293 generateDiffString. *)
Definition push_removed (st : dstate) (line : jsstr) : dstate := move_on 1 0 [Removed (oldLineNum st) line] st.
(** ED 303-308 generateDiffString. *)
Definition push_same (st : dstate) (line : jsstr) : dstate := move_on 1 1 [Same (oldLineNum st) line] st.
(** ED 321-323 generateDiffString. *)
Definition push_gap (skipped : nat) (st : dstate) : dstate := move_on (Z.of_nat skipped) (Z.of_nat skipped) [Gap] st.

(** ED 274-277 generateDiffString. *)
Definition raw_lines (part : Change) : list jsstr :=
  let raw := lines_of (value part) in
  match last raw with Some [] => removelast raw | _ => raw end.

Definition is_change (part : Change) : bool := added part || removed part.

(** ED 279-295 generateDiffString. *)
Definition change_part (part : Change) (st : dstate) : dstate :=
  let first := match firstChangedLine st with None => Some (newLineNum st) | f => f end in
  let st := {| oldLineNum := oldLineNum st; newLineNum := newLineNum st; lastWasChange := lastWasChange st; firstChangedLine := first; output := output st |} in
  foldl (if added part then push_added else push_removed) st (raw_lines part).

(** ED 297-365 generateDiffString. *)
Definition same_part (contextLines : nat) (hasLeadingChange hasTrailingChange : bool) (raw : list jsstr) (st : dstate) : dstate :=
  if hasLeadingChange && hasTrailingChange then
    if Nat.leb (length raw) (contextLines * 2) then foldl push_same st raw
    else
      let leadingLines := take contextLines raw in
      let trailingLines := drop (length raw - contextLines) raw in
      let skippedLines := (length raw - length leadingLines - length trailingLines)%nat in
      foldl push_same (push_gap skippedLines (foldl push_same st leadingLines)) trailingLines
  else if hasLeadingChange then
    let shownLines := take contextLines raw in
    let skippedLines := (length raw - length shownLines)%nat in
    let st := foldl push_same st shownLines in
    if Nat.ltb 0 skippedLines then push_gap skippedLines st else st
  else if hasTrailingChange then
    let skippedLines := (length raw - contextLines)%nat in
    let st := if Nat.ltb 0 skippedLines then push_gap skippedLines st else st in
    foldl push_same st (drop skippedLines raw)
  else move_on (Z.of_nat (length raw)) (Z.of_nat (length raw)) [] st.

Definition set_last (b : bool) (st : dstate) : dstate :=
  {| oldLineNum := oldLineNum st; newLineNum := newLineNum st; lastWasChange := b; firstChangedLine := firstChangedLine st; output := output st |}.

(** ED 272-369 generateDiffString. The loop over the parts. *)
Fixpoint diff_loop (contextLines : nat) (parts : list Change) (st : dstate) : dstate :=
  match parts with
  | [] => st
  | part :: rest =>
      if is_change part then diff_loop contextLines rest (set_last true (change_part part st))
      else
        let nextPartIsChange := match rest with next :: _ => is_change next | [] => false end in
        diff_loop contextLines rest (set_last false (same_part contextLines (lastWasChange st) nextPartIsChange (raw_lines part) st))
  end.

(** ED 267-270 generateDiffString. *)
Definition first_state (startLine : Z) : dstate :=
  {| oldLineNum := startLine; newLineNum := startLine; lastWasChange := false; firstChangedLine := None; output := [] |}.

(** ED 253-372 generateDiffString. The parts are those of [Diff.diffLines(oldContent, newContent)]. *)
Definition generateDiffString (parts : list Change) (oldContent newContent : jsstr) (contextLines : nat) (startLine : Z) : jsstr * option Z :=
  let maxLineNum := startLine - 1 + Z.of_nat (Nat.max (length (lines_of oldContent)) (length (lines_of newContent))) in
  let lineNumWidth := length (show_Z maxLineNum) in
  let st := diff_loop contextLines parts (first_state startLine) in
  (join [LF] (print_row lineNumWidth <$> output st), firstChangedLine st).

(** ** What the rows show *)

Definition old_lines (parts : list Change) : list jsstr := parts ≫= (fun p => if added p then [] else raw_lines p).
Definition new_lines (parts : list Change) : list jsstr := parts ≫= (fun p => if removed p then [] else raw_lines p).
Definition removed_lines (parts : list Change) : list jsstr := parts ≫= (fun p => if removed p then raw_lines p else []).
Definition added_lines (parts : list Change) : list jsstr := parts ≫= (fun p => if added p then raw_lines p else []).
Definition rows_removed (rs : list row) : list jsstr := omap (fun r => match r with Removed _ l => Some l | _ => None end) rs.
Definition rows_added (rs : list row) : list jsstr := omap (fun r => match r with Added _ l => Some l | _ => None end) rs.

(** A row with the number of a line shows that line, when the lines of [ol] have the numbers from [o], those of [nl]
    from [n]. *)
Definition row_at (o n : Z) (ol nl : list jsstr) (r : row) : Prop :=
  match r with
  | Added k l => n <= k /\ nl !! Z.to_nat (k - n) = Some l
  | Removed k l | Same k l => o <= k /\ ol !! Z.to_nat (k - o) = Some l
  | Gap => True
  end.

Lemma row_at_weaken o n ol nl ol' nl' r : ol `prefix_of` ol' -> nl `prefix_of` nl' -> row_at o n ol nl r -> row_at o n ol' nl' r.
Proof.
  intros [x ->] [y ->]. destruct r; simpl; [| | |done]; intros [? ?]; (split; [done|]); by apply lookup_app_l_Some.
Qed.
Lemma row_at_shift o n xs ys ol nl r : row_at (o + Z.of_nat (length xs)) (n + Z.of_nat (length ys)) ol nl r -> row_at o n (xs ++ ol) (ys ++ nl) r.
Proof.
  destruct r as [k l|k l|k l|]; simpl; [| | |done]; intros [? Hk]; (split; [lia|]).
  - rewrite lookup_app_r by lia. rewrite <- Hk. f_equal. lia.
  - rewrite lookup_app_r by lia. rewrite <- Hk. f_equal. lia.
  - rewrite lookup_app_r by lia. rewrite <- Hk. f_equal. lia.
Qed.

(** What a step of the loop does: the lines it goes past, its rows, the lines they remove and add. *)
Record goes (st st' : dstate) (ol nl rem add : list jsstr) : Prop := {
  goes_old : oldLineNum st' = oldLineNum st + Z.of_nat (length ol);
  goes_new : newLineNum st' = newLineNum st + Z.of_nat (length nl);
  goes_rows : exists rs, output st' = output st ++ rs /\ rows_removed rs = rem /\ rows_added rs = add /\
    Forall (row_at (oldLineNum st) (newLineNum st) ol nl) rs
}.

Lemma goes_refl st : goes st st [] [] [] [].
Proof. split; [simpl; lia..|]. exists []. by rewrite app_nil_r. Qed.

Lemma goes_trans s1 s2 s3 ol nl rem add ol' nl' rem' add' :
  goes s1 s2 ol nl rem add -> goes s2 s3 ol' nl' rem' add' -> goes s1 s3 (ol ++ ol') (nl ++ nl') (rem ++ rem') (add ++ add').
Proof.
  intros [Ho Hn (rs & Hr & <- & <- & Hf)] [Ho' Hn' (rs' & Hr' & <- & <- & Hf')]. split; [rewrite length_app; lia..|].
  exists (rs ++ rs'). split; [by rewrite Hr', Hr, (assoc_L (++))|]. split; [by apply omap_app|]. split; [by apply omap_app|].
  apply Forall_app. split.
  - eapply list.Forall_impl; [exact Hf|]. intros r. apply row_at_weaken; by apply prefix_app_r.
  - eapply list.Forall_impl; [exact Hf'|]. intros r. rewrite Ho, Hn. apply row_at_shift.
Qed.

Lemma goes_loop (push : dstate -> jsstr -> dstate) (o n r a : bool) ls st :
  let keep (b : bool) (ls : list jsstr) := if b then ls else [] in
  (forall st l, goes st (push st l) (keep o [l]) (keep n [l]) (keep r [l]) (keep a [l])) ->
  goes st (foldl push st ls) (keep o ls) (keep n ls) (keep r ls) (keep a ls).
Proof.
  intros keep Hpush. revert st. induction ls as [|l ls IH]; intros st; simpl.
  - destruct o, n, r, a; apply goes_refl.
  - pose proof (goes_trans _ _ _ _ _ _ _ _ _ _ _ (Hpush st l) (IH (push st l))) as H. by destruct o, n, r, a.
Qed.

Lemma goes_one (st : dstate) (o n : Z) (r : row) ol nl : o = Z.of_nat (length ol) -> n = Z.of_nat (length nl) ->
  row_at (oldLineNum st) (newLineNum st) ol nl r -> goes st (move_on o n [r] st) ol nl (rows_removed [r]) (rows_added [r]).
Proof. intros -> -> Hr. split; [done..|]. exists [r]. by repeat constructor. Qed.

Lemma here (ls : list jsstr) l : forall k, k <= k /\ (l :: ls) !! Z.to_nat (k - k) = Some l.
Proof. intros k. by rewrite Z.sub_diag. Qed.

Lemma goes_added ls st : goes st (foldl push_added st ls) [] ls [] ls.
Proof. apply (goes_loop push_added false true false true). intros. apply goes_one; [done..|apply here]. Qed.
Lemma goes_removed ls st : goes st (foldl push_removed st ls) ls [] ls [].
Proof. apply (goes_loop push_removed true false true false). intros. apply goes_one; [done..|apply here]. Qed.
Lemma goes_same ls st : goes st (foldl push_same st ls) ls ls [] [].
Proof. apply (goes_loop push_same true true false false). intros. apply goes_one; [done..|apply here]. Qed.
Lemma goes_gap ls st : goes st (push_gap (length ls) st) ls ls [] [].
Proof. by apply goes_one. Qed.

(** Lines that did not change, however many of them are shown. *)
Lemma goes_same_part c lead trail raw st : goes st (same_part c lead trail raw st) raw raw [] [].
Proof.
  unfold same_part. destruct lead, trail; simpl.
  - destruct (Nat.leb _ _) eqn:E; to_prop; [apply goes_same|].
    set (mid := take (length raw - c - c) (drop c raw)).
    assert (Hraw : raw = take c raw ++ mid ++ drop (length raw - c) raw).
    { rewrite <- (take_drop c raw) at 1. f_equal. unfold mid. rewrite <- (take_drop (length raw - c - c) (drop c raw)) at 1.
      rewrite drop_drop. do 2 f_equal. lia. }
    assert ((length raw - length (take c raw) - length (drop (length raw - c) raw))%nat = length mid) as ->.
    { unfold mid. rewrite !length_take, !length_drop. lia. }
    pose proof (goes_trans _ _ _ _ _ _ _ _ _ _ _ (goes_same (take c raw) st)
      (goes_trans _ _ _ _ _ _ _ _ _ _ _ (goes_gap mid _) (goes_same (drop (length raw - c) raw) _))) as H.
    rewrite <- Hraw in H. exact H.
  - assert ((length raw - length (take c raw))%nat = length (drop c raw)) as -> by (rewrite length_take, length_drop; lia).
    pose proof (goes_trans _ _ _ _ _ _ _ _ _ _ _ (goes_same (take c raw) st) (goes_gap (drop c raw) _)) as H. rewrite !take_drop in H.
    destruct (drop c raw) eqn:E; [|exact H]. simpl. rewrite <- (take_drop c raw) at 2 3. rewrite E, app_nil_r. apply goes_same.
  - pose proof (goes_trans _ _ _ _ _ _ _ _ _ _ _ (goes_gap (take (length raw - c) raw) st) (goes_same (drop (length raw - c) raw) _)) as H.
    rewrite !take_drop, length_take in H. replace (Nat.min (length raw - c) (length raw)) with (length raw - c)%nat in H by lia.
    destruct (length raw - c)%nat eqn:E; [|exact H]. simpl. rewrite drop_0. apply goes_same.
  - split; [done..|]. exists []. done.
Qed.

Lemma goes_set_last b st st' ol nl rem add : goes st st' ol nl rem add -> goes st (set_last b st') ol nl rem add.
Proof. intros []. by split. Qed.

Definition exclusive (p : Change) : Prop := added p && removed p = false.
Lemma goes_change_part p st : is_change p = true -> exclusive p ->
  goes st (change_part p st) (if added p then [] else raw_lines p) (if removed p then [] else raw_lines p)
    (if removed p then raw_lines p else []) (if added p then raw_lines p else []).
Proof.
  unfold is_change, exclusive, change_part. intros Hc He.
  set (st1 := {| oldLineNum := _ |}). assert (H1 : forall st' ol nl rem add, goes st1 st' ol nl rem add -> goes st st' ol nl rem add).
  { intros ????? []. by split. }
  apply H1. destruct (added p), (removed p); [done|apply goes_added|apply goes_removed|done].
Qed.

Lemma goes_diff_loop c parts st : Forall exclusive parts ->
  goes st (diff_loop c parts st) (old_lines parts) (new_lines parts) (removed_lines parts) (added_lines parts).
Proof.
  intros He. revert st. induction He as [|p parts Hp He IH]; intros st; [apply goes_refl|].
  cbn [diff_loop]. unfold old_lines, new_lines, removed_lines, added_lines. rewrite !bind_cons. destruct (is_change p) eqn:Ec.
  - exact (goes_trans _ _ _ _ _ _ _ _ _ _ _ (goes_set_last true _ _ _ _ _ _ (goes_change_part p st Ec Hp)) (IH _)).
  - unfold is_change in Ec. apply orb_false_iff in Ec as [Ea Er].
    rewrite Ea, Er.
    exact (goes_trans _ _ _ _ _ _ _ _ _ _ _ (goes_set_last false _ _ _ _ _ _ (goes_same_part c _ _ _ st)) (IH _)).
Qed.

(** ** The contents the parts come from *)

(** Lines, each with its end. *)
Definition whole (v : jsstr) : Prop := v = [] \/ last v = Some LF.
(** The values of the parts of one side: whole lines, but for the end of the last value. *)
Fixpoint line_cut (vs : list jsstr) : Prop :=
  match vs with
  | [] | [_] => True
  | v :: rest => whole v /\ line_cut rest
  end.

Definition drop_blank (ls : list jsstr) : list jsstr := match last ls with Some [] => removelast ls | _ => ls end.

Lemma drop_blank_prefix ls : drop_blank ls `prefix_of` ls.
Proof.
  unfold drop_blank. destruct (last ls) as [[|]|] eqn:E; [|done..]. apply last_Some in E as [k ->]. rewrite removelast_last. by apply prefix_app_r.
Qed.

Lemma lines_of_whole v s : whole v -> lines_of (v ++ s) = drop_blank (lines_of v) ++ lines_of s.
Proof.
  intros [->|[v' ->]%last_Some]; [done|]. rewrite <- (assoc_L (++)). change ([LF] ++ s) with (LF :: s). rewrite !lines_of_app.
  change (lines_of []) with [[] : jsstr]. unfold drop_blank. by rewrite last_snoc, removelast_last.
Qed.

Lemma line_cut_lines vs : line_cut vs -> (vs ≫= fun v => drop_blank (lines_of v)) `prefix_of` lines_of (concat vs).
Proof.
  induction vs as [|v vs IH]; [by intros; apply prefix_nil|]. destruct vs as [|v' vs].
  - intros _. simpl. rewrite !app_nil_r. apply drop_blank_prefix.
  - intros [Hv Hvs]. rewrite bind_cons. change (concat (v :: ?r)) with (v ++ concat r). rewrite lines_of_whole by done.
    by apply prefix_app, IH.
Qed.

Definition side (gone : Change -> bool) (parts : list Change) : list jsstr := value <$> filter (fun p => gone p = false) parts.

Lemma side_lines (gone : Change -> bool) (parts : list Change) :
  (parts ≫= fun p => if gone p then [] else raw_lines p) = (side gone parts ≫= fun v => drop_blank (lines_of v)).
Proof.
  unfold side. induction parts as [|p parts IH]; [done|]. rewrite bind_cons, filter_cons, IH.
  destruct (gone p); [by rewrite decide_False|]. rewrite decide_True, fmap_cons, bind_cons by done. done.
Qed.

(** What the package promises of [Diff.diffLines(oldContent, newContent)]. *)
Record compares (parts : list Change) (oldContent newContent : jsstr) : Prop := {
  compares_exclusive : Forall exclusive parts;
  compares_old : concat (side added parts) = oldContent /\ line_cut (side added parts);
  compares_new : concat (side removed parts) = newContent /\ line_cut (side removed parts)
}.

Lemma first_changed c parts st : Forall exclusive parts ->
  match firstChangedLine (diff_loop c parts st) with
  | Some k => firstChangedLine st = Some k \/ firstChangedLine st = None /\
      exists l p r, parts = l ++ p :: r /\ Forall (fun q => is_change q = false) l /\ is_change p = true /\
        k = newLineNum st + Z.of_nat (length (new_lines l))
  | None => firstChangedLine st = None /\ Forall (fun q => is_change q = false) parts
  end.
Proof.
  intros He. revert st. induction He as [|p parts Hp He IH]; intros st; simpl; [by destruct (firstChangedLine st); auto|].
  assert (Hloop : forall (push : dstate -> jsstr -> dstate) ls st, (forall st l, firstChangedLine (push st l) = firstChangedLine st) ->
    firstChangedLine (foldl push st ls) = firstChangedLine st).
  { intros push ls. induction ls as [|l ls IHl]; intros st' H; [done|]. simpl. by rewrite IHl, H. }
  destruct (is_change p) eqn:Ec.
  - specialize (IH (set_last true (change_part p st))). set (d := diff_loop _ _ _) in *.
    assert (Hf : firstChangedLine (change_part p st) = match firstChangedLine st with None => Some (newLineNum st) | f => f end).
    { unfold change_part. rewrite Hloop; [done|]. intros. by destruct (added p). }
    simpl in IH. rewrite Hf in IH. destruct (firstChangedLine d) as [k|], (firstChangedLine st) as [k'|].
    + naive_solver.
    + destruct IH as [IH|[? _]]; [|done]. injection IH as <-. right. split; [done|]. exists [], p, parts. simpl. split_and!; [done..|lia].
    + naive_solver.
    + naive_solver.
  - set (trail := match parts with next :: _ => is_change next | [] => false end).
    pose proof (goes_same_part c (lastWasChange st) trail (raw_lines p) st) as [_ Hn _].
    specialize (IH (set_last false (same_part c (lastWasChange st) trail (raw_lines p) st))). set (d := diff_loop _ _ _) in *.
    assert (Hf : firstChangedLine (same_part c (lastWasChange st) trail (raw_lines p) st) = firstChangedLine st).
    { assert (Hgap : forall n st, firstChangedLine (push_gap n st) = firstChangedLine st) by done. clear - Hloop Hgap.
      unfold same_part. repeat case_match; repeat first [rewrite Hgap|rewrite Hloop by done]; done. }
    simpl in IH. rewrite Hf in IH. destruct (firstChangedLine d) as [k|].
    + destruct IH as [IH|(IH & l & q & r & -> & Hl & Hq & ->)]; [by left|]. right. split; [done|]. exists (p :: l), q, r.
      split_and!; [done|by constructor|done|]. unfold new_lines. rewrite bind_cons. unfold is_change in Ec. apply orb_false_iff in Ec as [_ ->].
      rewrite length_app, Hn. lia.
    + destruct IH as [IH Hl]. split; [done|by constructor].
Qed.

(** ** Theorems *)

(** A diff shows the contents it compares. Every numbered row shows the line of that number, of the old content for
    removed and unchanged rows, of the new content for added rows; the removed and the added lines are all shown,
    in their order; and the first changed line is the number in the new content at which the first change stands. *)
Theorem diff_rows_faithful (parts : list Change) (oldContent newContent : jsstr) (contextLines : nat) (startLine : Z)
    (Hparts : compares parts oldContent newContent) :
  let '(diff, firstChanged) := generateDiffString parts oldContent newContent contextLines startLine in
  (exists rows width, diff = join [LF] (print_row width <$> rows) /\
     Forall (row_at startLine startLine (lines_of oldContent) (lines_of newContent)) rows /\
     rows_removed rows = removed_lines parts /\ rows_added rows = added_lines parts) /\
  match firstChanged with
  | Some k => exists l p r, parts = l ++ p :: r /\ Forall (fun q => is_change q = false) l /\ is_change p = true /\
      k = startLine + Z.of_nat (length (new_lines l))
  | None => Forall (fun q => is_change q = false) parts
  end.
Proof.
  destruct Hparts as [He [<- Hold] [<- Hnew]]. unfold generateDiffString. split.
  - destruct (goes_diff_loop contextLines parts (first_state startLine) He) as [_ _ (rs & Hout & Hrem & Hadd & Hat)].
    simpl in Hout, Hat. rewrite Hout. eexists rs, _. split; [done|]. split; [|done].
    eapply list.Forall_impl; [exact Hat|]. intros r. apply row_at_weaken.
    + unfold old_lines. rewrite side_lines. by apply line_cut_lines.
    + unfold new_lines. rewrite side_lines. by apply line_cut_lines.
  - pose proof (first_changed contextLines parts (first_state startLine) He) as H. destruct (firstChangedLine _); naive_solver.
Qed.

(** ** Witness *)

Definition ex_parts : list Change :=
  [{| value := js "a" ++ [LF]; added := false; removed := false |}; {| value := js "b" ++ [LF]; added := false; removed := true |};
   {| value := js "B" ++ [LF]; added := true; removed := false |}; {| value := js "c"; added := false; removed := false |}].
Definition ex_old : jsstr := js "a" ++ [LF] ++ js "b" ++ [LF] ++ js "c".
Definition ex_new : jsstr := js "a" ++ [LF] ++ js "B" ++ [LF] ++ js "c".
Lemma ex_compares : compares ex_parts ex_old ex_new.
Proof. split; [repeat constructor|..]; (split; [done|]); repeat constructor; by right. Qed.
Lemma diff_rows_faithful_witness :
  generateDiffString ex_parts ex_old ex_new 4 1 =
    (join [LF] [js " 1 a"; js "-2 b"; js "+2 B"; js " 3 c"], Some 2) /\
  exists rows : list row, Forall (row_at 1 1 (lines_of ex_old) (lines_of ex_new)) rows /\ rows_removed rows = [js "b"].
Proof.
  split; [reflexivity|]. pose proof (diff_rows_faithful ex_parts ex_old ex_new 4 1 ex_compares) as H.
  destruct (generateDiffString ex_parts ex_old ex_new 4 1) as [d f]. destruct H as [(rows & w & _ & Hat & Hrem & _) _]. by exists rows.
Defined.
