(* ===== verification/EditTool.v ===== *)
(** * The edit tool

    core/tools/edit.ts without its rendering: the arguments a model may send, and the execution of a call, with a
    signal that may abort it while it waits for a file operation; and core/tools/file-mutation-queue.ts, the queue
    that keeps two changes of one file apart, as steps of calls that interleave.

    [edit_keeps_rest] says that an edit changes nothing but the texts it names, down to the ends of lines and the byte
    order mark; [edit_reports] what a reply tells of the file; [mutations_in_turn] and [mutations_progress] that the
    changes of a file are made one at a time, in the order of the calls, and that none waits forever. *)

(* Source aliases:
   ET = src/packages/coding-agent/src/core/tools/edit.ts
   MQ = src/packages/coding-agent/src/core/tools/file-mutation-queue.ts *)

From stdpp Require Import gmap.
From S2P Require Import Prelude JsString JsMap Messages Json EditDiff DiffRows.
Local Open Scope nat_scope.

(** ** Arguments *)

Definition field (v : json) (key : string) : option json := match v with JObj fs => get fs (js key) | _ => None end.

(** ET 91-117 prepareEditArguments. The arguments that are returned, and the object that was given, which the
    function changes when its edits are the text of an array. *)
Definition prepareEditArguments (input : json) : json * json :=
  match input with
  | JObj fs =>
      let fs := match get fs (js "edits") with
                | Some (JStr text) => match JSON_parse text with Some (JArr parsed) => set fs (js "edits") (JArr parsed) | _ => fs end
                | _ => fs
                end in
      match get fs (js "oldText"), get fs (js "newText") with
      | Some (JStr old), Some (JStr new) =>
          let edits := match get fs (js "edits") with Some (JArr l) => l | _ => [] end in
          let rest := remove (remove fs (js "oldText")) (js "newText") in
          (JObj (set rest (js "edits") (JArr (edits ++ [JObj [(js "oldText", JStr old); (js "newText", JStr new)]]))), JObj fs)
      | _, _ => (JObj fs, JObj fs)
      end
  | _ => (input, input)
  end.

(** ET 119-124 validateEditInput. After the schema has been checked. *)
Definition validateEditInput (edits : list Edit) : option jsstr :=
  match edits with [] => Some (js "Edit tool input is invalid. edits must contain at least one replacement.") | _ => None end.

(** ** Execution *)

(** When the signal fires, if it does. *)
Inductive moment := Never | AtStart | AtAccess | AtRead | AtWrite.

(** What the operations on the file give: an error message, or a result. *)
Record EditOperations := { op_access : option jsstr; op_readFile : list N + jsstr; op_writeFile : option jsstr }.

Inductive reply := Resolved (text : jsstr) (diff : jsstr) (firstChangedLine : option Z) | Rejected (message : jsstr).

(** What a call does: its reply, the text it handed to [writeFile], and whether that operation had not ended yet when
    the reply came. *)
Record effect := { replied : reply; written : option jsstr; writing : bool }.
Definition untouched (r : reply) : effect := {| replied := r; written := None; writing := false |}.

Section execute.
Variable NFKC : jsstr -> jsstr.
(** [Diff.diffLines]. *)
Variable diffLines : jsstr -> jsstr -> list Change.

Definition aborted_reply : reply := Rejected (js "Operation aborted").
Definition fires (a b : moment) : bool := match a, b with AtStart, AtStart | AtAccess, AtAccess | AtRead, AtRead | AtWrite, AtWrite => true | _, _ => false end.

(** ET 344-442 createEditToolDefinition.execute. The body of the promise. *)
Definition execute (path : jsstr) (edits : list Edit) (ops : EditOperations) (abort : moment) : effect :=
  match validateEditInput edits with
  | Some message => untouched (Rejected message)
  | None =>
      if fires abort AtStart then untouched aborted_reply
      else if fires abort AtAccess then untouched aborted_reply
      else match op_access ops with
      | Some errorMessage => untouched (Rejected (js "Could not edit file: " ++ path ++ js ". " ++ errorMessage ++ js "."))
      | None =>
          if fires abort AtRead then untouched aborted_reply
          else match op_readFile ops with
          | inr message => untouched (Rejected message)
          | inl buffer =>
              let rawContent := buffer_toString buffer in
              let '(bom, content) := stripBom rawContent in
              let originalEnding := detectLineEnding content in
              match applyEditsToNormalizedContent NFKC (normalizeToLF content) edits with
              | inr err => untouched (Rejected (error_message path err))
              | inl r =>
                  let finalContent := bom ++ restoreLineEndings (newContent r) originalEnding in
                  if fires abort AtWrite then {| replied := aborted_reply; written := Some finalContent; writing := true |}
                  else match op_writeFile ops with
                  | Some message => {| replied := Rejected message; written := Some finalContent; writing := false |}
                  | None =>
                      let '(diff, first) := generateDiffString (diffLines (baseContent r) (newContent r)) (baseContent r) (newContent r) 4 1 in
                      {| replied := Resolved (js "Successfully replaced " ++ show_nat (length edits) ++ js " block(s) in " ++ path ++ js ".") diff first;
                         written := Some finalContent; writing := false |}
                  end
              end
          end
      end
  end.
End execute.

(** ** Changes of a file take turns *)

(** A call of [withFileMutationQueue]: the file, the call whose promise it found in the map, and where it stands. *)
Inductive progress := Waiting | Running | Settled.
Record call := { c_key : jsstr; c_before : option nat; c_progress : progress }.
(** The calls in the order they were made, and the map of the last promise of each file. *)
Record queues := { calls : list call; fileMutationQueues : gmap jsstr nat }.

Definition with_progress (p : progress) (c : call) : call := {| c_key := c_key c; c_before := c_before c; c_progress := p |}.
Definition set_call (i : nat) (c : call) (q : queues) : queues := {| calls := <[i := c]> (calls q); fileMutationQueues := fileMutationQueues q |}.

(** The promise of call [i] is resolved once the call is settled: it ran after the promise it waited for. *)
Definition resolved (q : queues) (before : option nat) : bool :=
  match before with
  | None => true
  | Some i => match calls q !! i with Some c => match c_progress c with Settled => true | _ => false end | None => false end
  end.

(** What happens: a call, a call that has waited runs its function, the function settles. *)
Inductive mutation_event := Enter (key : jsstr) | Run (i : nat) | Settle (i : nat).

(** MQ 19-39 withFileMutationQueue. *)
Definition mutation_step (e : mutation_event) (q : queues) : queues :=
  match e with
  | Enter key =>
      {| calls := calls q ++ [{| c_key := key; c_before := fileMutationQueues q !! key; c_progress := Waiting |}];
         fileMutationQueues := <[key := length (calls q)]> (fileMutationQueues q) |}
  | Run i =>
      match calls q !! i with
      | Some c => match c_progress c with
                  | Waiting => if resolved q (c_before c) then set_call i (with_progress Running c) q else q
                  | _ => q
                  end
      | None => q
      end
  | Settle i =>
      match calls q !! i with
      | Some c => match c_progress c with
                  | Running =>
                      let q' := set_call i (with_progress Settled c) q in
                      if decide (fileMutationQueues q !! c_key c = Some i)
                      then {| calls := calls q'; fileMutationQueues := delete (c_key c) (fileMutationQueues q) |} else q'
                  | _ => q
                  end
      | None => q
      end
  end.
Definition mutation_run (es : list mutation_event) : queues := foldl (fun q e => mutation_step e q) {| calls := []; fileMutationQueues := ∅ |} es.

(** ** The queue: invariant *)

Definition same_key (q : queues) (i : nat) (key : jsstr) : Prop := exists c, calls q !! i = Some c /\ c_key c = key.
Definition settled (q : queues) (i : nat) : Prop := exists c, calls q !! i = Some c /\ c_progress c = Settled.
(** All calls of the file before the [n]-th are settled. *)
Definition clear_before (q : queues) (n : nat) (key : jsstr) : Prop := forall i, i < n -> same_key q i key -> settled q i.

(** The call that a call waits for is the last one of the file before it; without one there is nothing to wait for. *)
Definition waits_for_last (q : queues) (k : nat) (c : call) : Prop :=
  match c_before c with
  | Some j => j < k /\ same_key q j (c_key c) /\ forall i, j < i < k -> ~ same_key q i (c_key c)
  | None => clear_before q k (c_key c)
  end.
Definition maps_last (q : queues) (key : jsstr) : Prop :=
  match fileMutationQueues q !! key with
  | Some i => same_key q i key /\ forall k, i < k -> ~ same_key q k key
  | None => clear_before q (length (calls q)) key
  end.
Record turns (q : queues) : Prop := {
  turns_order : forall k c, calls q !! k = Some c -> c_progress c <> Waiting -> clear_before q k (c_key c);
  turns_before : forall k c, calls q !! k = Some c -> waits_for_last q k c;
  turns_map : forall key, maps_last q key
}.

Lemma same_key_lt q i key : same_key q i key -> i < length (calls q).
Proof. intros (c & Hc & _). by apply lookup_lt_Some in Hc. Qed.

(** What stays when calls are added or make progress. *)
Definition grows (q q' : queues) : Prop :=
  (forall i key, i < length (calls q) -> same_key q' i key <-> same_key q i key) /\ (forall i, settled q i -> settled q' i).
Lemma grows_clear q q' n key : grows q q' -> n <= length (calls q) -> clear_before q n key -> clear_before q' n key.
Proof. intros [Hk Hs] Hn Hc i Hi Hi'. apply Hs, Hc; [done|]. apply Hk; [lia|done]. Qed.

Lemma grows_enter key q : grows q (mutation_step (Enter key) q).
Proof.
  split.
  - intros i k Hi. unfold same_key. simpl. by rewrite lookup_app_l.
  - intros i (c & Hc & Hs). exists c. split; [|done]. simpl. by apply lookup_app_l_Some.
Qed.

Lemma grows_set i p c m q : calls q !! i = Some c -> (c_progress c = Settled -> p = Settled) ->
  grows q {| calls := <[i := with_progress p c]> (calls q); fileMutationQueues := m |}.
Proof.
  intros Hi Hp. pose proof (lookup_lt_Some _ _ _ Hi). split.
  - intros j key Hj. unfold same_key. simpl. destruct (decide (j = i)) as [->|Hne]; [|by rewrite list_lookup_insert_ne].
    rewrite list_lookup_insert_eq by done. rewrite Hi. split; intros (c' & [= <-] & Hk); eauto.
  - intros j (c' & Hc' & Hs). unfold settled. simpl. destruct (decide (j = i)) as [->|Hne].
    + rewrite list_lookup_insert_eq by done. simplify_eq. eexists. split; [done|]. simpl. auto.
    + rewrite list_lookup_insert_ne by done. eauto.
Qed.

Lemma grows_waits q q' k c : grows q q' -> k < length (calls q) -> waits_for_last q k c -> waits_for_last q' k c.
Proof.
  intros Hg Hk. unfold waits_for_last. destruct (c_before c) as [j|].
  - intros (Hj & Hjk & Hno). destruct Hg as [Hg _]. split; [done|]. split; [apply (proj2 (Hg j _ ltac:(lia)) Hjk)|].
    intros i Hi Hs. apply (Hno i Hi), (proj1 (Hg i _ ltac:(lia)) Hs).
  - apply grows_clear; [done|lia].
Qed.

Lemma enter_calls key q k c : calls (mutation_step (Enter key) q) !! k = Some c ->
  calls q !! k = Some c \/ k = length (calls q) /\ c = {| c_key := key; c_before := fileMutationQueues q !! key; c_progress := Waiting |}.
Proof.
  simpl. intros [Hk|[Hlen Hk]]%lookup_app_Some; [by left|]. right. apply list_lookup_singleton_Some in Hk as [Hk <-]. split; [lia|done].
Qed.

Lemma enter_maps key key' q : turns q -> maps_last (mutation_step (Enter key) q) key'.
Proof.
  intros [_ _ Hmap]. pose proof (grows_enter key q) as [Hg Hs]. unfold maps_last. cbn [mutation_step fileMutationQueues].
  destruct (decide (key' = key)) as [->|Hne].
  - rewrite lookup_insert_eq. split; [eexists; simpl; by rewrite list_lookup_middle|].
    intros k Hk Hsame. apply same_key_lt in Hsame. simpl in Hsame. rewrite length_app in Hsame. simpl in Hsame. lia.
  - rewrite lookup_insert_ne by done. specialize (Hmap key'). unfold maps_last in Hmap.
    assert (Hold : forall k, same_key (mutation_step (Enter key) q) k key' -> same_key q k key').
    { intros k (c & [Hc|[_ ->]]%enter_calls & <-); [by exists c|done]. }
    destruct (fileMutationQueues q !! key') as [j|].
    + destruct Hmap as [Hj Hno]. split; [apply (proj2 (Hg j _ (same_key_lt _ _ _ Hj)) Hj)|]. intros k Hk Hk'. by apply (Hno k), Hold.
    + intros k _ Hk. apply Hs, Hmap; [|by apply Hold]. by eapply same_key_lt, Hold.
Qed.

Lemma turns_enter key q : turns q -> turns (mutation_step (Enter key) q).
Proof.
  intros Ht. pose proof (grows_enter key q) as Hg. split; [..|intros key'; by apply enter_maps].
  - intros k c [Hk|[-> ->]]%enter_calls Hp; [|done]. apply (grows_clear _ _ _ _ Hg); [apply lookup_lt_Some in Hk; lia|]. by eapply turns_order.
  - intros k c [Hk|[-> ->]]%enter_calls.
    + apply (grows_waits _ _ _ _ Hg); [by apply lookup_lt_Some in Hk|]. by apply turns_before.
    + pose proof (turns_map q Ht key) as Hmap. unfold maps_last, waits_for_last in *. cbn [c_before c_key].
      destruct (fileMutationQueues q !! key) as [j|]; [|by apply (grows_clear _ _ _ _ Hg)].
      destruct Hmap as [Hj Hno]. pose proof (same_key_lt _ _ _ Hj). destruct Hg as [Hg _]. split; [done|]. split; [apply (proj2 (Hg j _ H) Hj)|].
      intros i Hi Hs. apply (Hno i ltac:(lia)), (proj1 (Hg i _ ltac:(lia)) Hs).
Qed.

(** A call makes progress: it may if all before it are settled. *)
Lemma turns_set i p c m q (q' := {| calls := <[i := with_progress p c]> (calls q); fileMutationQueues := m |}) :
  turns q -> calls q !! i = Some c -> (c_progress c = Settled -> p = Settled) -> (p <> Waiting -> clear_before q i (c_key c)) ->
  (forall key, maps_last q' key) -> turns q'.
Proof.
  intros Ht Hi Hp Hclear Hmap. pose proof (grows_set i p c m q Hi Hp : grows q q') as Hg. split; [| |done].
  all: intros k ck Hk; simpl in Hk; apply list_lookup_insert_Some in Hk as [(<- & <- & Hlt)|[Hne Hk]].
  - intros Hw. apply (grows_clear _ _ _ _ Hg); [lia|]. by apply Hclear.
  - intros Hw. apply (grows_clear _ _ _ _ Hg); [apply lookup_lt_Some in Hk; lia|]. by eapply turns_order.
  - apply (grows_waits _ _ _ _ Hg Hlt). exact (turns_before q Ht i c Hi).
  - apply (grows_waits _ _ _ _ Hg); [by apply lookup_lt_Some in Hk|]. by apply turns_before.
Qed.

Lemma grows_maps q q' key : grows q q' -> length (calls q') = length (calls q) -> fileMutationQueues q' !! key = fileMutationQueues q !! key ->
  maps_last q key -> maps_last q' key.
Proof.
  intros Hg Hlen Hm. unfold maps_last. rewrite Hm, Hlen. destruct (fileMutationQueues q !! key) as [j|]; [|by apply (grows_clear _ _ _ _ Hg)].
  destruct Hg as [Hg _]. intros [Hj Hno]. split; [apply (proj2 (Hg j _ (same_key_lt _ _ _ Hj)) Hj)|].
  intros k Hk Hs. apply (Hno k Hk), Hg; [|done]. apply same_key_lt in Hs. lia.
Qed.

(** The promise a call waits for is resolved when the calls before it are settled. *)
Lemma resolved_clear q i c : turns q -> calls q !! i = Some c -> resolved q (c_before c) = true <-> clear_before q i (c_key c).
Proof.
  intros Ht Hi. pose proof (turns_before q Ht i c Hi) as Hb. unfold waits_for_last in Hb. destruct (c_before c) as [j|]; simpl; [|done].
  destruct Hb as (Hj & (cj & Hcj & Hkey) & Hno). rewrite Hcj. split.
  - intros Hset k Hk Hsame. destruct (decide (k = j)) as [->|]; [exists cj; split; [done|by destruct (c_progress cj)]|].
    destruct (decide (j < k)); [by destruct (Hno k)|]. apply (turns_order q Ht j cj Hcj); [by destruct (c_progress cj)|lia|by rewrite Hkey].
  - intros Hclear. destruct (Hclear j Hj) as (c' & Hc' & Hs); [by exists cj|]. simplify_eq. by rewrite Hs.
Qed.

Lemma turns_run i q : turns q -> turns (mutation_step (Run i) q).
Proof.
  intros Ht. simpl. destruct (calls q !! i) as [c|] eqn:Hi; [|done]. destruct (c_progress c) eqn:Hp; [|done..].
  destruct (resolved q (c_before c)) eqn:Hr; [|done]. apply turns_set; [done..|congruence| |].
  - intros _. by apply resolved_clear.
  - intros key. eapply grows_maps; [by apply grows_set; [|congruence]|by apply length_insert|done|by apply turns_map].
Qed.

Lemma turns_settle i q : turns q -> turns (mutation_step (Settle i) q).
Proof.
  intros Ht. simpl. destruct (calls q !! i) as [c|] eqn:Hi; [|done]. destruct (c_progress c) eqn:Hp; [done| |done].
  assert (Hclear : clear_before q i (c_key c)) by (eapply turns_order; [done..|congruence]).
  destruct (decide _) as [Hlast|]; apply turns_set; try done; intros key.
  - assert (Hg : grows q {| calls := <[i := with_progress Settled c]> (calls q); fileMutationQueues := delete (c_key c) (fileMutationQueues q) |}) by by apply grows_set.
    destruct (decide (key = c_key c)) as [->|Hne].
    + unfold maps_last. simpl. rewrite lookup_delete_eq. intros k Hk Hs. rewrite length_insert in Hk.
      destruct (decide (k = i)) as [->|]; [eexists; simpl; by rewrite list_lookup_insert_eq by by apply lookup_lt_Some in Hi|].
      apply Hg in Hs; [|done]. pose proof (turns_map q Ht (c_key c)) as Hm. unfold maps_last in Hm. rewrite Hlast in Hm.
      destruct Hm as [_ Hno]. apply Hg, Hclear; [|done]. destruct (decide (i < k)); [by destruct (Hno k)|lia].
    + eapply grows_maps; [exact Hg|by apply length_insert|by apply lookup_delete_ne|by apply turns_map].
  - eapply grows_maps; [by apply grows_set|by apply length_insert|done|by apply turns_map].
Qed.

Lemma turns_all es : turns (mutation_run es).
Proof.
  unfold mutation_run. set (q0 := {| calls := []; fileMutationQueues := ∅ |}).
  assert (Ht : turns q0).
  { split; [done..|]. intros key. unfold maps_last. simpl. rewrite lookup_empty. intros i Hi. simpl in Hi. lia. }
  revert Ht. generalize q0. clear q0. induction es as [|e es IH]; intros q Ht; [done|]. apply IH. destruct e; [by apply turns_enter|by apply turns_run|by apply turns_settle].
Qed.

Lemma settled_step e q i : settled q i -> settled (mutation_step e q) i.
Proof.
  intros Hs. destruct e as [key|j|j]; [by apply grows_enter| |]; simpl; destruct (calls q !! j) as [c|] eqn:Hj; [|done| |done];
    destruct (c_progress c) eqn:Hp; try done.
  - destruct (resolved q (c_before c)); [|done]. by apply (grows_set _ _ _ _ _ Hj); [congruence|].
  - by destruct (decide _); apply (grows_set _ _ _ _ _ Hj).
Qed.

(** A call whose turn it is runs and settles. *)
Lemma turn_settles q i c : turns q -> calls q !! i = Some c -> clear_before q i (c_key c) -> settled (mutation_step (Settle i) (mutation_step (Run i) q)) i.
Proof.
  intros Ht Hi Hclear. pose proof (lookup_lt_Some _ _ _ Hi) as Hlt.
  destruct (c_progress c) eqn:Hp; [| |by apply settled_step, settled_step; exists c].
  - assert (Hrun : mutation_step (Run i) q = set_call i (with_progress Running c) q).
    { simpl. rewrite Hi, Hp. by rewrite (proj2 (resolved_clear q i c Ht Hi) Hclear). }
    rewrite Hrun. simpl. rewrite list_lookup_insert_eq by done. simpl.
    destruct (decide _); eexists; simpl; by rewrite list_lookup_insert_eq by (rewrite ?length_insert; done).
  - assert (Hrun : mutation_step (Run i) q = q) by (simpl; by rewrite Hi, Hp). rewrite Hrun. simpl. rewrite Hi, Hp.
    destruct (decide _); eexists; simpl; by rewrite list_lookup_insert_eq.
Qed.

Lemma calls_progress q i : length (calls (mutation_step (Run i) q)) = length (calls q) /\ length (calls (mutation_step (Settle i) q)) = length (calls q).
Proof. simpl. repeat case_match; simpl; by rewrite ?length_insert. Qed.

Definition serve (n : nat) : list mutation_event := seq 0 n ≫= fun k => [Run k; Settle k].
Lemma serve_S n : serve (S n) = serve n ++ [Run n; Settle n].
Proof. unfold serve. by rewrite seq_S, bind_app. Qed.
Lemma mutation_run_app es es' : mutation_run (es ++ es') = foldl (fun q e => mutation_step e q) (mutation_run es) es'.
Proof. apply foldl_app. Qed.

Lemma served es n : n <= length (calls (mutation_run es)) ->
  length (calls (mutation_run (es ++ serve n))) = length (calls (mutation_run es)) /\ forall i, i < n -> settled (mutation_run (es ++ serve n)) i.
Proof.
  induction n as [|n IH]; intros Hn; [unfold serve; simpl; rewrite app_nil_r; split; [done|lia]|].
  destruct IH as [Hlen Hset]; [lia|]. rewrite serve_S, (assoc_L (++)), mutation_run_app. set (q := mutation_run (es ++ serve n)) in *.
  change (foldl _ q _) with (mutation_step (Settle n) (mutation_step (Run n) q)). split.
  - rewrite (proj2 (calls_progress _ n)), (proj1 (calls_progress _ n)). done.
  - intros i Hi. destruct (decide (i = n)) as [->|]; [|by apply settled_step, settled_step, Hset; lia].
    destruct (lookup_lt_is_Some_2 (calls q) n) as [c Hc]; [lia|]. apply (turn_settles q n c); [apply turns_all|done|]. intros j Hj _. by apply Hset.
Qed.

(** ** Theorems *)

(** The changes of a file take turns. However calls, runs and settlements interleave, a change does not start
    before all earlier calls for its file are settled: at most one runs at a time, and they run in the order in
    which they were called. *)
Theorem mutations_in_turn (es : list mutation_event) (i k : nat) (ci ck : call)
    (Hi : calls (mutation_run es) !! i = Some ci) (Hk : calls (mutation_run es) !! k = Some ck)
    (Hlt : i < k) (Hkey : c_key ci = c_key ck) (Hstarted : c_progress ck <> Waiting) :
  c_progress ci = Settled.
Proof.
  destruct (turns_order _ (turns_all es) k ck Hk Hstarted i Hlt) as (c & Hc & Hs); [by exists ci|]. congruence.
Qed.

(** No change waits forever: from every state, letting each call run and settle once, in the order of the calls,
    settles them all. *)
Theorem mutations_progress (es : list mutation_event) :
  let q := mutation_run es in
  let q' := mutation_run (es ++ serve (length (calls q))) in
  length (calls q') = length (calls q) /\ Forall (fun c => c_progress c = Settled) (calls q').
Proof.
  intros q q'. destruct (served es (length (calls q)) (le_n _)) as [Hlen Hset]. split; [done|].
  apply Forall_lookup. intros i c Hc. destruct (Hset i) as (c' & Hc' & Hs); [|unfold q' in Hc; congruence].
  apply lookup_lt_Some in Hc. unfold q' in Hc. fold q in Hlen. lia.
Qed.

(** A content all of whose lines end as the first one does. *)
Definition uniform (content : jsstr) : Prop := restoreLineEndings (normalizeToLF content) (detectLineEnding content) = content.

Lemma stripBom_app s : (stripBom s).1 ++ (stripBom s).2 = s.
Proof.
  unfold stripBom. destruct (starts_with [BOM] s) eqn:E; [|done]. by apply starts_with_spec in E as [b ->].
Qed.

(** An edit changes nothing but the texts it names. In a file whose lines all end in the same way, the edits'
    texts stand between gaps; after the call the gaps are the same, byte order mark and ends of lines included, and
    the new texts stand between them with the ends of lines of the file. *)
Theorem edit_keeps_rest (NFKC : jsstr -> jsstr) (diffLines : jsstr -> jsstr -> list Change) (path file : jsstr) (edits : list Edit)
    (ops : EditOperations) (abort : moment) (message diff : jsstr) (first : option Z)
    (HNFKC : forall s, NFKC (normalizeForFuzzyMatch NFKC s) = normalizeForFuzzyMatch NFKC s)
    (Hfile : js_wf file /\ paired file) (Hread : op_readFile ops = inl (buffer_from file)) (Hends : uniform (stripBom file).2)
    (Hexact : Forall (fun e => contains (normalizeToLF (oldText e)) (normalizeToLF (stripBom file).2)) edits)
    (Hdone : replied (execute NFKC diffLines path edits ops abort) = Resolved message diff first) :
  let restore s := restoreLineEndings (normalizeToLF s) (detectLineEnding (stripBom file).2) in
  exists ps tail, ps.*2 ≡ₚ edits /\ file = (stripBom file).1 ++ weave (restore ∘ oldText) ps tail /\
    written (execute NFKC diffLines path edits ops abort) = Some ((stripBom file).1 ++ weave (restore ∘ newText) ps tail).
Proof.
  intros restore. revert Hdone. unfold execute. rewrite Hread, utf8_round_trip by tauto. pose proof (stripBom_app file) as Hbom.
  destruct (stripBom file) as [bom content]. cbn [fst snd] in *. destruct (validateEditInput edits); [done|].
  destruct (fires abort AtStart), (fires abort AtAccess), (op_access ops), (fires abort AtRead); try done.
  pose proof (edits_replace NFKC HNFKC (normalizeToLF content) edits) as Hspec. cbv zeta in Hspec.
  destruct (applyEditsToNormalizedContent _ _ _) as [r|err]; [|done]. destruct (fires abort AtWrite), (op_writeFile ops); try done.
  destruct (generateDiffString _ _ _ _ _). intros _. cbn [written].
  destruct Hspec as (_ & _ & Hbase & (ps & tail & Hps & Hold & Hnew) & _).
  assert (Hall : Forall (fun e => contains (oldText e) (normalizeToLF content)) (normalizeEdit <$> edits)) by by apply Forall_fmap.
  rewrite (Hbase Hall) in Hold. apply Permutation_map_inv in Hps as (es & Hl & Hperm). apply unmap in Hl as (ps0 & -> & <-).
  set (R s := restoreLineEndings s (detectLineEnding content)). exists (prod_map R Datatypes.id <$> ps0), (R tail).
  split; [|split].
  - assert (Hsnd : (prod_map R Datatypes.id <$> ps0).*2 = ps0.*2) by (clear; induction ps0; [done|]; simpl; by f_equal).
    by rewrite Hsnd, Hperm.
  - rewrite <- Hbom. f_equal. unfold uniform in Hends. rewrite <- Hends at 1. fold (R (normalizeToLF content)). rewrite Hold.
    rewrite (weave_map _ _ (fun e => oldText (normalizeEdit e))); [apply restore_weave|].
    rewrite Hperm in Hexact. eapply list.Forall_impl; [exact Hexact|]. intros e Hin. unfold text_in. simpl in *.
    destruct (indexOf _ _) eqn:Ei; [done|]. by apply indexOf_None in Ei.
  - do 2 f_equal. fold (R (newContent r)). rewrite Hnew, (weave_map _ _ (fun e => newText (normalizeEdit e))); [apply restore_weave|].
    by apply list.Forall_true.
Qed.

(** What a reply tells. A resolved call has written its result and was not aborted. A rejected one has left the
    file as it was, unless its write failed or was going on when the signal fired: then the reply comes before the
    write ends. *)
Theorem edit_reports (NFKC : jsstr -> jsstr) (diffLines : jsstr -> jsstr -> list Change) (path : jsstr) (edits : list Edit)
    (ops : EditOperations) (abort : moment) :
  let e := execute NFKC diffLines path edits ops abort in
  match replied e with
  | Resolved _ _ _ => abort = Never /\ is_Some (written e) /\ writing e = false /\ op_writeFile ops = None
  | Rejected message => (written e = None /\ writing e = false) \/
      (is_Some (written e) /\ (if writing e then abort = AtWrite /\ message = js "Operation aborted"
                              else op_writeFile ops = Some message))
  end.
Proof.
  cbv zeta. unfold execute. destruct (validateEditInput edits); [by left|].
  destruct (fires abort AtStart) eqn:E1, (fires abort AtAccess) eqn:E2; [by left..|]. destruct (op_access ops); [by left|].
  destruct (fires abort AtRead) eqn:E3; [by left|]. destruct (op_readFile ops) as [buffer|]; [|by left]. destruct (stripBom _) as [bom content].
  destruct (applyEditsToNormalizedContent _ _ _) as [r|err]; [|by left].
  destruct (fires abort AtWrite) eqn:E4; [right; cbn; by destruct abort; eauto|].
  destruct (op_writeFile ops) eqn:Ew; [right; cbn; eauto|]. destruct (generateDiffString _ _ _ _ _). cbn. destruct abort; eauto; done.
Qed.

(** ** Examples and witnesses *)

Definition ex_diff (a b : jsstr) : list Change := [{| value := a; added := false; removed := true |}; {| value := b; added := true; removed := false |}].
Definition ex_ops (file : list N) : EditOperations := {| op_access := None; op_readFile := inl file; op_writeFile := None |}.
Definition crlf : jsstr := [CR; LF].
Definition ex_file : jsstr := BOM :: js "one" ++ crlf ++ js "two" ++ crlf.
Definition ex_edit : list Edit := [{| oldText := js "two"; newText := js "2" ++ [LF] ++ js "3" |}].

(** A file that is no UTF-8 is decoded and encoded again: an edit changes bytes far from its text. Here the byte E9
    (an accented letter of Latin-1) becomes the three bytes of U+FFFD. *)
Example other_encodings_change :
  buffer_from <$> written (execute plain ex_diff (js "f") [{| oldText := js "b"; newText := js "c" |}] (ex_ops ([0xE9%N; LF] ++ js "b")) Never) =
  Some ([0xEF; 0xBF; 0xBD]%N ++ [LF] ++ js "c").
Proof. reflexivity. Qed.

(** Lines that end in another way than the first one are rewritten. *)
Example mixed_ends_change :
  written (execute plain ex_diff (js "f") [{| oldText := js "b"; newText := js "c" |}] (ex_ops (js "a" ++ [LF] ++ js "b" ++ crlf)) Never) =
  Some (js "a" ++ [LF] ++ js "c" ++ [LF]).
Proof. reflexivity. Qed.

(** The text of an array and the two fields of older models become one list of edits. *)
Example prepared :
  prepareEditArguments (JObj [(js "path", JStr (js "f")); (js "edits", JStr (js "[1]")); (js "oldText", JStr (js "a")); (js "newText", JStr (js "b"))]) =
  (JObj [(js "path", JStr (js "f")); (js "edits", JArr [JNum (js "1"); JObj [(js "oldText", JStr (js "a")); (js "newText", JStr (js "b"))]])],
   JObj [(js "path", JStr (js "f")); (js "edits", JArr [JNum (js "1")]); (js "oldText", JStr (js "a")); (js "newText", JStr (js "b"))]).
Proof. reflexivity. Qed.

Lemma mutations_in_turn_witness :
  let es := [Enter (js "f"); Enter (js "f"); Run 1; Run 0; Settle 0; Run 1] in
  exists ci ck, calls (mutation_run es) !! 0 = Some ci /\ calls (mutation_run es) !! 1 = Some ck /\ c_progress ck = Running /\ c_progress ci = Settled.
Proof.
  intros es. eexists _, _. split; [reflexivity|]. split; [reflexivity|]. split; [reflexivity|].
  exact (mutations_in_turn es 0 1 _ _ eq_refl eq_refl (le_n 1) eq_refl ltac:(discriminate)).
Defined.

Lemma edit_keeps_rest_witness : exists ps tail, ps.*2 ≡ₚ ex_edit /\
  written (execute plain ex_diff (js "f") ex_edit (ex_ops (buffer_from ex_file)) Never) =
    Some ([BOM] ++ weave (fun e => restoreLineEndings (normalizeToLF (newText e)) CRLF_ending) ps tail).
Proof.
  destruct (edit_keeps_rest plain ex_diff (js "f") ex_file ex_edit (ex_ops (buffer_from ex_file)) Never
    (js "Successfully replaced 1 block(s) in f.") (join [LF] [js "-1 one"; js "-2 two"; js "+1 one"; js "+2 2"; js "+3 3"]) (Some 1%Z))
    as (ps & tail & Hps & _ & Hw).
  - done.
  - split; [by apply js_wf_check|]. repeat constructor.
  - reflexivity.
  - reflexivity.
  - repeat constructor. by exists (js "one" ++ [LF]), [LF].
  - vm_compute. reflexivity.
  - exists ps, tail. split; [exact Hps|exact Hw].
Defined.
