(* ===== verification/Jev.v ===== *)
(** * Jev, the control-flow classifier's contract (packages/agent/src/jev.ts)

    The classification of error texts, the gate every classifier decision
    passes, and the two adapters built on it: the stop gate and the
    zero-argument reflex router. The classifier itself is a parameter, a
    function that may throw ([None]). *)

(* Source aliases:
   JV = src/packages/agent/src/jev.ts
   AG = src/packages/agent/src/types.ts *)

From S2P Require Import Prelude JsString JsNumber Messages.
Local Open Scope Z_scope.

(** ** Error classification *)

(** JV 34-34 JevErrorCategory. *)
Inductive JevErrorCategory := TRANSIENT | DETERMINISTIC | NONE.
#[export] Instance JevErrorCategory_eq_dec : EqDecision JevErrorCategory.
Proof. solve_decision. Defined.

(** An item of an alternative of the two patterns: a word boundary, or one character of a set. *)
Inductive item := WordBoundary | OneOf (chars : list N).

Definition lit (s : String.string) : list item := (fun c => OneOf [c]) <$> js s.
Arguments lit s%_string_scope.

(** Case folding under the flags [iu], on the characters that fold to ASCII. *)
Definition fold1 (u : N) : N :=
  (if (65 <=? u) && (u <=? 90) then u + 32
   else if u =? 0x17F then 115 else if u =? 0x212A then 107 else u)%N.

(** Word characters under the flags [iu]. *)
Definition is_word (u : N) : bool :=
  (is_digit u || ((97 <=? fold1 u) && (fold1 u <=? 122)) || (u =? 95))%N.
Definition is_word_opt (o : option N) : bool := match o with Some u => is_word u | None => false end.

Fixpoint match_here (items : list item) (prev : option N) (s : jsstr) : bool :=
  match items with
  | [] => true
  | WordBoundary :: rest => xorb (is_word_opt prev) (is_word_opt (head s)) && match_here rest prev s
  | OneOf cs :: rest =>
      match s with
      | [] => false
      | u :: s' => existsb (fun c => (fold1 c =? fold1 u)%N) cs && match_here rest (Some u) s'
      end
  end.

Fixpoint search (items : list item) (prev : option N) (s : jsstr) : bool :=
  match_here items prev s || match s with [] => false | u :: s' => search items (Some u) s' end.

Definition pattern_test (alternatives : list (list item)) (s : jsstr) : bool :=
  existsb (fun alt => search alt None s) alternatives.

Definition word (items : list item) : list item := WordBoundary :: items ++ [WordBoundary].

(** JV 36-37 TRANSIENT_ERROR_PATTERN. *)
Definition TRANSIENT_ERROR_PATTERN : list (list item) :=
  [lit "ETIMEDOUT"; lit "ECONNRESET"; lit "ECONNREFUSED"; lit "EAI_AGAIN"; lit "ENETUNREACH"; lit "EPIPE";
   lit "socket hang up"; lit "rate limit"; lit "too many requests"; word (lit "429");
   word (lit "50" ++ [OneOf (js "0234")]); lit "timed out"; lit "timeout";
   lit "temporarily unavailable"; lit "resource busy"; lit "try again"; lit "lock wait"].

(** JV 38-39 DETERMINISTIC_ERROR_PATTERN. *)
Definition DETERMINISTIC_ERROR_PATTERN : list (list item) :=
  [lit "SyntaxError"; lit "NameError"; lit "TypeError"; lit "ReferenceError"; lit "ValueError";
   lit "IndentationError"; lit "ImportError"; lit "ModuleNotFoundError"; lit "command not found";
   lit "no such file"; word (lit "404"); lit "ENOENT"; lit "permission denied"; lit "already exists"].

(** JV 42-53 classifyJevError. *)
Definition classifyJevError (error : option jsstr) : JevErrorCategory :=
  match error with
  | None | Some [] => NONE
  | Some e =>
      if pattern_test TRANSIENT_ERROR_PATTERN e then TRANSIENT
      else if pattern_test DETERMINISTIC_ERROR_PATTERN e then DETERMINISTIC
      else NONE
  end.

Example classify_ex1 : classifyJevError (Some (js "HTTP 503: Try later")) = TRANSIENT. Proof. reflexivity. Qed.
Example classify_ex2 : classifyJevError (Some (js "bash: foo: Command Not Found")) = DETERMINISTIC. Proof. reflexivity. Qed.
Example classify_ex3 : classifyJevError (Some (js "error 5030 in x404y")) = NONE. Proof. reflexivity. Qed.

(** ** Decisions *)

(** JV 13-13 JevAction. *)
Inductive JevAction := EXECUTE_TOOL | DELEGATE | STOP | UNCERTAIN.
#[export] Instance JevAction_eq_dec : EqDecision JevAction.
Proof. solve_decision. Defined.

(** JV 16-26 JevDecision. *)
Record JevDecision := {
  action : JevAction; toolName : option jsstr; confidence : num;
  entropy : option num; topProbability : option num }.

(** JV 56-73 JevState. *)
Record JevState := {
  goal : option jsstr; turnIndex : Z; lastToolName : option jsstr; lastToolError : option jsstr;
  lastToolResult : option jsstr; lastAssistantText : option jsstr;
  errorCategory : option JevErrorCategory; consecutiveFailures : Z }.

(** JV 86-95 JevGateOptions. *)
Record JevGateOptions := {
  minConfidence : num; allowedTools : list jsstr; minProbability : option num; maxEntropy : option num }.

(** JV 103-113 meetsEntropyBar. *)
Definition meetsEntropyBar (d : JevDecision) (o : JevGateOptions) : bool :=
  match minProbability o, maxEntropy o, entropy d with
  | Some minP, Some maxE, Some e =>
      if is_finite e then
        let top := default (confidence d) (topProbability d) in
        is_finite top && num_le minP top && num_le e maxE
      else false
  | _, _, _ => false
  end.

(** JV 122-144 evaluateJevDecision. *)
Definition evaluateJevDecision (decision : option JevDecision) (o : JevGateOptions) : option JevDecision :=
  match decision with
  | None => None
  | Some d =>
      if bool_decide (action d = UNCERTAIN) then None
      else if negb (is_finite (confidence d)) then None
      else if num_lt (confidence d) (minConfidence o) && negb (meetsEntropyBar d o) then None
      else if bool_decide (action d = EXECUTE_TOOL) then
        if negb (truthy (toolName d)) || negb (bool_decide (default [] (toolName d) ∈ allowedTools o))
        then None else Some d
      else Some d
  end.

(** A classifier: it may throw, or have no opinion. *)
Definition classifier : Type := JevState -> option (option JevDecision).

(** JV 160-173 createJevStopGate. *)
Definition createJevStopGate (decider : classifier) (o : JevGateOptions) (state : JevState) : bool :=
  match decider state with
  | None => false
  | Some decision =>
      match evaluateJevDecision decision o with
      | Some d => bool_decide (action d = STOP)
      | None => false
      end
  end.

(** AG 125-133 PreTurnReflex. *)
Record PreTurnReflex := { r_toolName : jsstr; r_arguments : option (list (jsstr * json)) }.

(** JV 182-199 createZeroArgReflexRouter. *)
Definition createZeroArgReflexRouter (cl : classifier) (o : JevGateOptions) (routerTurnIndex : Z) : option PreTurnReflex :=
  match cl {| goal := None; turnIndex := routerTurnIndex; lastToolName := None; lastToolError := None;
              lastToolResult := None; lastAssistantText := None; errorCategory := None;
              consecutiveFailures := 0 |} with
  | None => None
  | Some raw =>
      match evaluateJevDecision raw o with
      | Some d =>
          if negb (bool_decide (action d = EXECUTE_TOOL)) || negb (truthy (toolName d)) then None
          else Some {| r_toolName := default [] (toolName d); r_arguments := Some [] |}
      | None => None
      end
  end.

(** ** The gate *)

(** A decision the gate lets through: decided, confident (or concentrated), and naming an allowed tool when
    it would run one. *)
Definition admissible (d : JevDecision) (o : JevGateOptions) : Prop :=
  action d <> UNCERTAIN /\ is_finite (confidence d) = true /\
  (num_lt (confidence d) (minConfidence o) = false \/ meetsEntropyBar d o = true) /\
  (action d = EXECUTE_TOOL -> exists t, toolName d = Some t /\ t <> [] /\ t ∈ allowedTools o).

Lemma truthy_spec o : truthy o = true <-> exists t, o = Some t /\ t <> [].
Proof. destruct o as [[|]|]; naive_solver. Qed.

Lemma tool_allowed_spec o (allowed : list jsstr) :
  negb (truthy o) || negb (bool_decide (default [] o ∈ allowed)) = false <->
  exists t, o = Some t /\ t <> [] /\ t ∈ allowed.
Proof.
  rewrite orb_false_iff, !negb_false_iff, truthy_spec, bool_decide_eq_true. split.
  - intros ((t & -> & Hn) & Hin). eauto.
  - intros (t & -> & Hn & Hin). eauto.
Qed.

Lemma evaluate_admissible d o : evaluateJevDecision (Some d) o = Some d <-> admissible d o.
Proof.
  unfold evaluateJevDecision, admissible. rewrite <- tool_allowed_spec.
  destruct (bool_decide (action d = UNCERTAIN)) eqn:Hu; to_prop; [intuition congruence|].
  destruct (is_finite (confidence d)); simpl; [|intuition congruence].
  destruct (num_lt (confidence d) (minConfidence o)), (meetsEntropyBar d o); simpl;
    try (split; [congruence|intros (_ & _ & [?|?] & _); congruence]).
  all: destruct (bool_decide (action d = EXECUTE_TOOL)) eqn:He; to_prop; [|intuition congruence].
  all: destruct (negb (truthy (toolName d)) || _); intuition congruence.
Qed.

Lemma evaluate_same d o d' : evaluateJevDecision (Some d) o = Some d' -> d' = d.
Proof. unfold evaluateJevDecision. repeat case_match; naive_solver. Qed.

(** A classifier can end a run only through a gated STOP: the stop gate is true exactly when the
    decider returned, without throwing, an admissible STOP decision. *)
Theorem createJevStopGate_only_stop (decider : classifier) (o : JevGateOptions) (s : JevState) :
  createJevStopGate decider o s = true <->
    exists d, decider s = Some (Some d) /\ action d = STOP /\ admissible d o.
Proof.
  unfold createJevStopGate. pose proof (evaluate_same) as Hs. pose proof evaluate_admissible as Ha.
  destruct (decider s) as [[d|]|].
  2-3: split; [done|by intros (d & ? & _)].
  destruct (evaluateJevDecision (Some d) o) as [d'|] eqn:Ev.
  - assert (d' = d) as -> by eauto. apply Ha in Ev. cbv iota. rewrite bool_decide_eq_true.
    split; [by eauto|]. by intros (d' & [= <-] & ? & _).
  - split; [done|]. intros (d' & [= <-] & _ & H). apply Ha in H. congruence.
Qed.

(** A classifier cannot fabricate a tool call: a reflex names a tool of the allow list, carries no
    arguments, and comes from an admissible EXECUTE_TOOL decision. *)
Theorem createZeroArgReflexRouter_allowed (cl : classifier) (o : JevGateOptions) (turn : Z) (r : PreTurnReflex)
    (Hr : createZeroArgReflexRouter cl o turn = Some r) :
  r_toolName r ∈ allowedTools o /\ r_arguments r = Some [] /\
  exists s d, cl s = Some (Some d) /\ Jev.turnIndex s = turn /\ action d = EXECUTE_TOOL /\
    toolName d = Some (r_toolName r) /\ admissible d o.
Proof.
  unfold createZeroArgReflexRouter in Hr. set (st := {| goal := None |}) in Hr.
  destruct (cl st) as [[d|]|] eqn:Ecl; [|done..].
  destruct (evaluateJevDecision (Some d) o) as [d'|] eqn:Ev; [|done].
  assert (d' = d) as -> by eauto using evaluate_same. apply evaluate_admissible in Ev.
  destruct (bool_decide (action d = EXECUTE_TOOL)) eqn:He; [|done]. to_prop.
  destruct (truthy (toolName d)) eqn:Et; [|done]. cbn in Hr.
  injection Hr as <-. pose proof Ev as (Hu & Hf & Hc & Ht). destruct (Ht He) as (t & Htn & Hn & Hin).
  rewrite Htn. split; [done|]. split; [done|]. exists st, d. done.
Qed.

Definition reflex_options : JevGateOptions :=
  {| minConfidence := num_Z 0; allowedTools := [js "poll"]; minProbability := None; maxEntropy := None |}.
Definition always_poll : classifier := fun _ =>
  Some (Some {| action := EXECUTE_TOOL; toolName := Some (js "poll"); confidence := num_Z 1;
                entropy := None; topProbability := None |}).

Lemma createZeroArgReflexRouter_allowed_witness :
  createZeroArgReflexRouter always_poll reflex_options 3 =
    Some {| r_toolName := js "poll"; r_arguments := Some [] |} /\
  js "poll" ∈ allowedTools reflex_options.
Proof.
  split; [reflexivity|].
  destruct (createZeroArgReflexRouter_allowed always_poll reflex_options 3
    {| r_toolName := js "poll"; r_arguments := Some [] |} eq_refl) as (Hin & _). exact Hin.
Defined.
