(* ===== verification/ContextJanitor.v ===== *)
(** * The context janitor (core/context-janitor.ts)

    At a phase transition the janitor replaces the content of failed tool
    results that a later success supersedes, and of large successful results
    whose exact call was repeated, by short tombstones. *)

(* Source aliases:
   CJ = src/packages/coding-agent/src/core/context-janitor.ts *)

From stdpp Require Import gmap.
From S2P Require Import Prelude JsString JsNumber Messages Tokens ImageTtl Jev.
Local Open Scope Z_scope.

(** CJ 25-31 CONTEXT_JANITOR_DEFAULTS. The two defaults [planContextJanitor] reads beside the option. *)
Definition DEFAULT_minFailures : Z := 2.
Definition DEFAULT_activeWindowTurns : Z := 6.
Definition DEFAULT_successDumpMinBytes : Z := 8192.

(** CJ 33-51 ContextJanitorOptions. [lastPruneTurn] is [None] for [-Infinity]. *)
Record ContextJanitorOptions := {
  minTokens : Z; minTurns : Z; turnIndex : Z; lastPruneTurn : option Z;
  minFailures : option Z; activeWindowTurns : option Z; successDumpMinBytes : option Z }.

(** CJ 53-61 ContextJanitorPlan. *)
Record ContextJanitorPlan := {
  plan_messages : list AgentMessage; changed : bool; trajectoriesCompressed : Z;
  successDumpsCompressed : Z; messagesCompressed : Z; estimatedTokensBefore : Z;
  estimatedTokensAfter : Z }.

(** CJ 63-73 uniqueInOrder. *)
Fixpoint uniqueInOrder_loop (values : list jsstr) (seen : list jsstr) : list jsstr :=
  match values with
  | [] => []
  | v :: rest => if bool_decide (v ∈ seen) then uniqueInOrder_loop rest seen
                 else v :: uniqueInOrder_loop rest (v :: seen)
  end.
Definition uniqueInOrder (values : list jsstr) : list jsstr := uniqueInOrder_loop values [].

Definition text_of_part (p : Part) : option jsstr := match p with PText t => Some (text t) | PImage _ => None end.
Definition text_of_assistant_part (p : AssistantPart) : option jsstr :=
  match p with AText t => Some (text t) | _ => None end.
Definition text_of_content (c : Content) : jsstr :=
  match c with CString s => s | CParts ps => join [LF] (omap text_of_part ps) end.

(** CJ 75-86 textOf. The messages without a content field have the empty text. *)
Definition textOf (message : AgentMessage) : jsstr :=
  match message with
  | User m => text_of_content (u_content m)
  | Assistant m => join [LF] (omap text_of_assistant_part (a_content m))
  | ToolResult m => join [LF] (omap text_of_part (t_content m))
  | Custom m => text_of_content (c_content m)
  | BashExecution _ | BranchSummary _ | CompactionSummary _ => []
  end.

(** CJ 88-90 isFailedToolResult. *)
Definition isFailedToolResult (m : AgentMessage) : bool :=
  match m with ToolResult t => isError t | _ => false end.
(** CJ 92-94 isAssistantToolCall. *)
Definition isAssistantToolCall (m : AgentMessage) : bool :=
  match m with
  | Assistant a => existsb (fun p => match p with AToolCall _ => true | _ => false end) (a_content a)
  | _ => false
  end.
(** CJ 202-202 planContextJanitor. The test for a successful tool result. *)
Definition isSuccess (m : AgentMessage) : bool :=
  match m with ToolResult t => negb (isError t) | _ => false end.

(** CJ 103-109 protectedStartIndex. The loop, from the last message to the first. *)
Fixpoint protected_loop (rmessages : list AgentMessage) (active assistantsSeen : Z) : nat :=
  match rmessages with
  | [] => 0
  | m :: rest =>
      if is_assistant m then
        if active <=? assistantsSeen + 1 then length rest
        else protected_loop rest active (assistantsSeen + 1)
      else protected_loop rest active assistantsSeen
  end.
(** CJ 100-110 protectedStartIndex. *)
Definition protectedStartIndex (messages : list AgentMessage) (active : Z) : nat :=
  if active <=? 0 then length messages else protected_loop (reverse messages) active 0.

(** CJ 196-196 planContextJanitor. An element of [runFailures]. *)
Record Failure := { f_index : nat; f_toolName : jsstr; f_category : JevErrorCategory }.

Definition category_text (c : JevErrorCategory) : jsstr :=
  match c with TRANSIENT => js "TRANSIENT" | DETERMINISTIC => js "DETERMINISTIC" | NONE => js "NONE" end.

(** CJ 112-120 trajectoryTombstone. *)
Definition trajectoryTombstone (failures : list Failure) (successTool : jsstr) : jsstr :=
  let tools := uniqueInOrder (f_toolName <$> failures) in
  let categories := uniqueInOrder (filter (fun c => c <> js "NONE") (category_text ∘ f_category <$> failures)) in
  let categoryText := match categories with [] => [] | _ => js " (" ++ join (js ", ") categories ++ js ")" end in
  let plural := if (length failures =? 1)%nat then js "attempt" else js "attempts" in
  js "[Historical execution compressed: " ++ show_Z (Z.of_nat (length failures)) ++ js " failed " ++
  join (js "/") tools ++ js " " ++ plural ++ categoryText ++ js " superseded by a successful " ++
  successTool ++ js " call; prior outputs omitted.]".

(** CJ 122-124 attemptTombstone. *)
Definition attemptTombstone (tool : jsstr) : jsstr := js "[compressed: failed " ++ tool ++ js " attempt]".

(** CJ 126-128 replaceToolResultContent. It is only applied to tool results. *)
Definition replaceToolResultContent (m : AgentMessage) (t : jsstr) : AgentMessage :=
  match m with
  | ToolResult r =>
      ToolResult {| toolCallId := toolCallId r; Messages.toolName := Messages.toolName r; t_content := [PText (mkText t)];
                    details := details r; isError := isError r; t_timestamp := t_timestamp r |}
  | _ => m
  end.

(** CJ 130-132 messageTextBytes. *)
Definition messageTextBytes (m : AgentMessage) : Z := byteLength (textOf m).

(** CJ 134-136 callSignature. *)
Definition callSignature (nm : jsstr) (args : list (jsstr * json)) : jsstr :=
  nm ++ js ":" ++ stringify (JObj args).

(** CJ 139-148 callSignaturesById. *)
Definition callSignaturesById (messages : list AgentMessage) : gmap jsstr jsstr :=
  foldl (fun sigs m =>
    match m with
    | Assistant a =>
        foldl (fun sigs p => match p with
                             | AToolCall c => <[id c := callSignature (name c) (arguments c)]> sigs
                             | _ => sigs end) sigs (a_content a)
    | _ => sigs
    end) ∅ messages.

(** CJ 150-152 successDumpTombstone. *)
Definition successDumpTombstone (tool : jsstr) (bytes : Z) : jsstr :=
  js "[Historical execution compressed: superseded successful " ++ tool ++ js " output (" ++ show_Z bytes ++
  js " bytes); a later identical call succeeded, prior output omitted.]".

(** CJ 192-196 planContextJanitor. The variables of the first pass. *)
Record RunState := {
  replacements : gmap nat jsstr; trajectories : Z; runStart : option nat; runFailures : list Failure }.

(** CJ 206-208 planContextJanitor. Tombstones for the failures of a run. *)
Fixpoint bury (failures : list Failure) (summary : option jsstr) (reps : gmap nat jsstr) : gmap nat jsstr :=
  match failures with
  | [] => reps
  | f :: rest => bury rest None (<[f_index f := default (attemptTombstone (f_toolName f)) summary]> reps)
  end.

(** CJ 198-213 planContextJanitor.closeRun. *)
Definition closeRun (messages : list AgentMessage) (minF : Z) (runEnd : nat) (st : RunState) : RunState :=
  let closed reps tr := {| replacements := reps; trajectories := tr; runStart := None; runFailures := [] |} in
  if bool_decide (runStart st <> None) && (minF <=? Z.of_nat (length (runFailures st))) then
    match List.find isSuccess (drop runEnd messages) with
    | Some (ToolResult t) =>
        closed (bury (runFailures st) (Some (trajectoryTombstone (runFailures st) (Messages.toolName t))) (replacements st))
               (trajectories st + 1)
    | _ => closed (replacements st) (trajectories st)
    end
  else closed (replacements st) (trajectories st).

(** CJ 218-224 planContextJanitor. *)
Definition push_failure (index : nat) (m : AgentMessage) (failures : list Failure) : list Failure :=
  match m with
  | ToolResult t =>
      if isError t
      then failures ++ [{| f_index := index; f_toolName := Messages.toolName t;
                           f_category := classifyJevError (Some (textOf m)) |}]
      else failures
  | _ => failures
  end.

(** CJ 215-229 planContextJanitor. The body of the loop over the transcript. *)
Definition scan_step (messages : list AgentMessage) (minF : Z) (index : nat) (m : AgentMessage) (st : RunState) : RunState :=
  if isAssistantToolCall m || isFailedToolResult m then
    {| replacements := replacements st; trajectories := trajectories st;
       runStart := match runStart st with None => Some index | s => s end;
       runFailures := push_failure index m (runFailures st) |}
  else closeRun messages minF index st.

Fixpoint scan (messages : list AgentMessage) (minF : Z) (index : nat) (todo : list AgentMessage) (st : RunState) : RunState :=
  match todo with
  | [] => st
  | m :: rest => scan messages minF (S index) rest (scan_step messages minF index m st)
  end.

Definition scan_start : RunState :=
  {| replacements := ∅; trajectories := 0; runStart := None; runFailures := [] |}.

(** CJ 215-230 planContextJanitor. The first pass. *)
Definition failure_pass (messages : list AgentMessage) (minF : Z) (boundary : nat) : RunState :=
  closeRun messages minF boundary (scan messages minF 0 (take boundary messages) scan_start).

(** CJ 247-253 planContextJanitor. [superseded]. *)
Definition rerun_later (messages : list AgentMessage) (sigs : gmap jsstr jsstr) (index : nat) (signature : jsstr) : bool :=
  existsb (fun later => match later with
                        | ToolResult t => negb (isError t) && bool_decide (sigs !! toolCallId t = Some signature)
                        | _ => false end) (drop (S index) messages).

(** CJ 240-257 planContextJanitor. The second pass; it returns the replacements and how many it added. *)
Fixpoint dump_pass (messages : list AgentMessage) (sigs : gmap jsstr jsstr) (minBytes : Z) (index : nat)
    (todo : list AgentMessage) (reps : gmap nat jsstr) (count : Z) : gmap nat jsstr * Z :=
  match todo with
  | [] => (reps, count)
  | m :: rest =>
      let skip := dump_pass messages sigs minBytes (S index) rest reps count in
      match m with
      | ToolResult t =>
          if isError t || bool_decide (is_Some (reps !! index)) then skip
          else if messageTextBytes m <? minBytes then skip
          else match sigs !! toolCallId t with
               | None => skip
               | Some signature =>
                   if rerun_later messages sigs index signature
                   then dump_pass messages sigs minBytes (S index) rest
                          (<[index := successDumpTombstone (Messages.toolName t) (messageTextBytes m)]> reps) (count + 1)
                   else skip
               end
      | _ => skip
      end
  end.

(** CJ 190-266 planContextJanitor. All replacements, with the counts of the two passes. *)
Definition all_replacements (messages : list AgentMessage) (o : ContextJanitorOptions) : gmap nat jsstr * Z * Z :=
  let boundary := protectedStartIndex messages (default DEFAULT_activeWindowTurns (activeWindowTurns o)) in
  let st := failure_pass messages (default DEFAULT_minFailures (minFailures o)) boundary in
  let minBytes := default DEFAULT_successDumpMinBytes (successDumpMinBytes o) in
  if 0 <? minBytes then
    let '(reps, dumps) := dump_pass messages (callSignaturesById messages) minBytes 0 (take boundary messages)
                            (replacements st) 0 in
    (reps, trajectories st, dumps)
  else (replacements st, trajectories st, 0).

(** CJ 264-266 planContextJanitor. *)
Definition apply_replacements (reps : gmap nat jsstr) (messages : list AgentMessage) : list AgentMessage :=
  imap (fun i m => match reps !! i with Some t => replaceToolResultContent m t | None => m end) messages.

(** CJ 171-183 planContextJanitor. The phase gate. *)
Definition gate_open (messages : list AgentMessage) (o : ContextJanitorOptions) : bool :=
  match lastPruneTurn o with Some last => minTurns o <=? turnIndex o - last | None => true end &&
  (minTokens o <=? tokens (estimateContextTokens messages)).

(** CJ 159-284 planContextJanitor. *)
Definition planContextJanitor (messages : list AgentMessage) (o : ContextJanitorOptions) : ContextJanitorPlan :=
  let empty before := {| plan_messages := messages; changed := false; trajectoriesCompressed := 0;
    successDumpsCompressed := 0; messagesCompressed := 0; estimatedTokensBefore := before;
    estimatedTokensAfter := 0 |} in
  if match lastPruneTurn o with Some last => turnIndex o - last <? minTurns o | None => false end then empty 0
  else
    let before := tokens (estimateContextTokens messages) in
    if before <? minTokens o then empty 0
    else
      let '(reps, tr, dumps) := all_replacements messages o in
      if (size reps =? 0)%nat then empty before
      else
        let out := apply_replacements reps messages in
        {| plan_messages := out; changed := true; trajectoriesCompressed := tr; successDumpsCompressed := dumps;
           messagesCompressed := Z.of_nat (size reps); estimatedTokensBefore := before;
           estimatedTokensAfter := tokens (estimateContextTokens out) |}.

(** ** Examples *)

Definition call (callId tool : jsstr) : AgentMessage :=
  assistant [AToolCall {| id := callId; name := tool; arguments := []; thoughtSignature := None |}].
Definition result (callId tool : jsstr) (err : bool) (out : jsstr) : AgentMessage :=
  tool_result callId tool err [PText (mkText out)].

Definition janitor_example : list AgentMessage :=
  [user_parts []; call (js "1") (js "bash"); result (js "1") (js "bash") true (js "connect ETIMEDOUT");
   call (js "2") (js "bash"); result (js "2") (js "bash") true (js "make: no such file");
   call (js "3") (js "bash"); result (js "3") (js "bash") false (js "ok"); assistant []].

Definition janitor_options : ContextJanitorOptions :=
  {| minTokens := 0; minTurns := 1; turnIndex := 1; lastPruneTurn := None; minFailures := None;
     activeWindowTurns := Some 1; successDumpMinBytes := None |}.

Example janitor_ex :
  let p := planContextJanitor janitor_example janitor_options in
  textOf <$> plan_messages p =
    [[]; []; js "[Historical execution compressed: 2 failed bash attempts (TRANSIENT, DETERMINISTIC) superseded by a successful bash call; prior outputs omitted.]";
     []; js "[compressed: failed bash attempt]"; []; js "ok"; []] /\
  trajectoriesCompressed p = 1 /\ messagesCompressed p = 2.
Proof. by vm_compute. Qed.

(** A second prune compresses the same trajectory again: the tombstones are still failed results, and the
    categories of the errors are lost with their text. *)
Example janitor_prunes_again :
  let p := planContextJanitor janitor_example janitor_options in
  let p' := planContextJanitor (plan_messages p) janitor_options in
  changed p' = true /\ trajectoriesCompressed p' = 1 /\
  textOf <$> plan_messages p' !! 2%nat = Some
    (js "[Historical execution compressed: 2 failed bash attempts superseded by a successful bash call; prior outputs omitted.]").
Proof. by vm_compute. Qed.

(** ** Which failures are superseded *)

Definition at_ (P : AgentMessage -> bool) (ms : list AgentMessage) (i : nat) : bool :=
  match ms !! i with Some m => P m | None => false end.
Definition in_run (m : AgentMessage) : bool := isAssistantToolCall m || isFailedToolResult m.

(** The positions of the failed results from [a] to [b]. *)
Definition fails (ms : list AgentMessage) (a b : nat) : list nat :=
  filter (fun i => at_ isFailedToolResult ms i = true) (seq a (b - a)).

(** The failed result at [i] lies, before [limit], in a stretch of tool calls and failed results with at
    least [minF] failures, and a result after the stretch succeeds. *)
Definition superseded_failure (ms : list AgentMessage) (minF : Z) (limit i : nat) : Prop :=
  at_ isFailedToolResult ms i = true /\
  exists a b j, (a <= i < b)%nat /\ (b <= limit)%nat /\
    (forall k, (a <= k < b)%nat -> at_ in_run ms k = true) /\
    minF <= Z.of_nat (length (fails ms a b)) /\ (b <= j)%nat /\ at_ isSuccess ms j = true.

Lemma success_not_in_run ms i : at_ isSuccess ms i = true -> at_ in_run ms i = false.
Proof. unfold at_. destruct (ms !! i) as [[| |t| | | |]|]; try done. unfold in_run; simpl. by destruct (isError t). Qed.

Lemma fails_S ms a k : (a <= k)%nat ->
  fails ms a (S k) = fails ms a k ++ (if at_ isFailedToolResult ms k then [k] else []).
Proof.
  intros. unfold fails. replace (S k - a)%nat with (S (k - a)) by lia.
  rewrite seq_S, filter_app. f_equal. rewrite filter_cons. replace (a + (k - a))%nat with k by lia.
  by destruct (at_ _ ms k).
Qed.

Lemma fails_empty ms k : fails ms k k = [].
Proof. unfold fails. by rewrite Nat.sub_diag. Qed.

Lemma fails_sub ms s a b k : (s <= a <= b)%nat -> (b <= k)%nat ->
  (length (fails ms a b) <= length (fails ms s k))%nat.
Proof.
  intros. unfold fails. replace (k - s)%nat with ((a - s) + ((b - a) + (k - b)))%nat by lia.
  rewrite !seq_app, !filter_app, !length_app. replace (s + (a - s))%nat with a by lia. lia.
Qed.

Lemma elem_of_fails ms a b i : i ∈ fails ms a b <-> at_ isFailedToolResult ms i = true /\ (a <= i < b)%nat.
Proof. unfold fails. rewrite list_elem_of_filter, elem_of_seq. split; intros [? ?]; split; try done; lia. Qed.

Lemma find_drop (P : AgentMessage -> bool) ms k :
  match List.find P (drop k ms) with
  | Some m => P m = true /\ exists j, (k <= j)%nat /\ at_ P ms j = true
  | None => forall j, (k <= j)%nat -> at_ P ms j = false
  end.
Proof.
  destruct (List.find P (drop k ms)) as [m|] eqn:E.
  - apply List.find_some in E as [Hin Hm]. split; [done|].
    apply list_elem_of_In, list_elem_of_lookup in Hin as [n Hn]. rewrite lookup_drop in Hn.
    exists (k + n)%nat. split; [lia|]. unfold at_. by rewrite Hn.
  - intros j Hj. unfold at_. destruct (ms !! j) as [m|] eqn:Em; [|done].
    apply (List.find_none _ _ E), list_elem_of_In, list_elem_of_lookup. exists (j - k)%nat.
    rewrite lookup_drop. by replace (k + (j - k))%nat with j by lia.
Qed.

Lemma bury_dom fs summary reps i :
  is_Some (bury fs summary reps !! i) <-> i ∈ f_index <$> fs \/ is_Some (reps !! i).
Proof.
  revert summary reps. induction fs as [|f fs IH]; intros summary reps; cbn [bury].
  { rewrite elem_of_nil. tauto. }
  rewrite IH, fmap_cons, elem_of_cons, lookup_insert_is_Some. destruct (decide (f_index f = i)); intuition.
Qed.

Section scan.
Context (ms : list AgentMessage) (minF : Z).

(** What the first pass knows at position [k]: the run that reaches [k] starts at [s], and the failures
    superseded before [s] have their tombstones. *)
Definition scanned (k : nat) (st : RunState) : Prop :=
  exists s, (s <= k)%nat /\ (forall j, (s <= j < k)%nat -> at_ in_run ms j = true) /\
    (s = 0%nat \/ at_ in_run ms (s - 1) = false) /\
    f_index <$> runFailures st = fails ms s k /\ (runStart st <> None <-> (s < k)%nat) /\
    forall i, is_Some (replacements st !! i) <-> superseded_failure ms minF s i.

Lemma superseded_mono l l' i : (l <= l')%nat -> superseded_failure ms minF l i -> superseded_failure ms minF l' i.
Proof. intros Hl (? & a & b & j & ? & ? & ?). split; [done|]. exists a, b, j. split; [done|]. split; [lia|done]. Qed.

Lemma superseded_extend s k i : (s <= k)%nat -> (forall j, (s <= j < k)%nat -> at_ in_run ms j = true) ->
  (s = 0%nat \/ at_ in_run ms (s - 1) = false) ->
  superseded_failure ms minF k i <->
    superseded_failure ms minF s i \/
    (i ∈ fails ms s k /\ minF <= Z.of_nat (length (fails ms s k)) /\ exists j, (k <= j)%nat /\ at_ isSuccess ms j = true).
Proof.
  intros Hsk Hrun Hs. split.
  - intros (Hi & a & b & j & Hab & Hb & Hr & Hmin & Hj & Hok).
    destruct (decide (b <= s)%nat); [left; split; [done|]; exists a, b, j; done|right].
    assert (s <= a)%nat.
    { destruct Hs as [->|Hs]; [lia|]. destruct (decide (s <= a)%nat); [done|]. rewrite Hr in Hs by lia. done. }
    split_and!; [apply elem_of_fails; split; [done|lia]| |].
    + pose proof (fails_sub ms s a b k). lia.
    + exists j. split; [|done]. destruct (decide (k <= j)%nat); [done|].
      apply success_not_in_run in Hok. rewrite Hrun in Hok by lia. done.
  - intros [H|(Hi & Hmin & j & Hj & Hok)]; [by eapply superseded_mono|].
    apply elem_of_fails in Hi as [Hi ?]. split; [done|]. exists s, k, j. done.
Qed.

Lemma closeRun_dom k st i : scanned k st ->
  is_Some (replacements (closeRun ms minF k st) !! i) <-> superseded_failure ms minF k i.
Proof.
  intros (s & Hsk & Hrun & Hs & Hf & Hst & Hdom). rewrite (superseded_extend s k) by done.
  assert (Hlen : length (runFailures st) = length (fails ms s k)) by (by rewrite <- Hf, length_fmap).
  unfold closeRun. rewrite Hlen. pose proof (find_drop isSuccess ms k) as Hfind.
  assert (Hno : (i ∈ fails ms s k /\ minF <= Z.of_nat (length (fails ms s k)) /\
    exists j, (k <= j)%nat /\ at_ isSuccess ms j = true) -> runStart st <> None).
  { intros (Hi & _). apply Hst. apply elem_of_fails in Hi. lia. }
  destruct (bool_decide (runStart st <> None)) eqn:Er, (minF <=? Z.of_nat (length (fails ms s k))) eqn:Em;
    cbn [andb]; to_prop; cbn [replacements].
  2-4: rewrite Hdom; split; [by left|]; intros [|H]; [done|]; exfalso; pose proof (Hno H);
    destruct H as (_ & H & _); first [lia|by destruct Er].
  destruct (List.find isSuccess (drop k ms)) as [m|]; cbn [replacements].
  - destruct Hfind as [Hm Hj]. destruct m; try done. cbn [replacements].
    rewrite bury_dom, Hf, Hdom. clear Hno. intuition.
  - rewrite Hdom. split; [by left|]. intros [|(_ & _ & j & Hj & Hok)]; [done|].
    by rewrite Hfind in Hok.
Qed.

Lemma scan_step_scanned k m st : ms !! k = Some m -> scanned k st -> scanned (S k) (scan_step ms minF k m st).
Proof.
  intros Hm Hk. assert (Hat : forall P, at_ P ms k = P m) by (intros P; unfold at_; by rewrite Hm).
  unfold scan_step. fold (in_run m). destruct (in_run m) eqn:Er.
  - destruct Hk as (s & Hsk & Hrun & Hs & Hf & Hst & Hdom). exists s. cbn [replacements runStart runFailures].
    split_and!; [lia| |done| | |done].
    + intros j Hj. destruct (decide (j = k)) as [->|]; [by rewrite Hat|apply Hrun; lia].
    + rewrite fails_S, <- Hf, Hat by done.
      destruct m as [| |t| | | |]; simpl; rewrite ?app_nil_r; try done.
      destruct (isError t); [by rewrite fmap_app|by rewrite app_nil_r].
    + split; [lia|]. destruct (runStart st); done.
  - pose proof (fun i => closeRun_dom k st i Hk) as Hdom.
    assert (Hrs : runFailures (closeRun ms minF k st) = [] /\ runStart (closeRun ms minF k st) = None).
    { unfold closeRun. by repeat case_match. }
    exists (S k). rewrite fails_empty, (proj1 Hrs), (proj2 Hrs).
    assert (Hlast : at_ in_run ms k = false) by (by rewrite Hat).
    split_and!; [lia|intros; lia| |done|split; [done|lia]|].
    + right. by replace (S k - 1)%nat with k by lia.
    + intros i. rewrite Hdom. split; [apply superseded_mono; lia|].
      intros (? & a & b & j & ? & Hb & Hr & ?). split; [done|]. exists a, b, j.
      destruct (decide (b = S k)) as [->|]; [|split_and!; try done; try lia; tauto].
      rewrite Hr in Hlast by lia. done.
Qed.

Lemma scan_scanned todo k st : todo = take (length todo) (drop k ms) -> scanned k st ->
  scanned (k + length todo) (scan ms minF k todo st).
Proof.
  revert k st. induction todo as [|m todo IH]; intros k st Ht Hk; simpl; [by rewrite Nat.add_0_r|].
  assert (Hm : ms !! k = Some m).
  { rewrite <- (Nat.add_0_r k), <- lookup_drop. destruct (drop k ms); simpl in *; congruence. }
  rewrite (drop_S ms m k Hm) in Ht. simpl in Ht. injection Ht as Ht.
  rewrite <- Nat.add_succ_comm. apply IH; [done|]. by apply scan_step_scanned.
Qed.

Lemma failure_pass_dom boundary i : (boundary <= length ms)%nat ->
  is_Some (replacements (failure_pass ms minF boundary) !! i) <-> superseded_failure ms minF boundary i.
Proof.
  intros Hb. unfold failure_pass. apply closeRun_dom.
  assert (Hl : length (take boundary ms) = boundary) by (rewrite length_take; lia).
  rewrite <- Hl at 1. rewrite <- (Nat.add_0_l (length _)). apply scan_scanned; [by rewrite Hl|].
  exists 0%nat. rewrite fails_empty. split_and!; [lia|intros; lia|by left|done|split; [done|lia]|].
  intros j. cbn. rewrite lookup_empty, is_Some_alt. split; [done|]. intros (_ & a & b & k & ? & ? & _). lia.
Qed.
End scan.

(** ** Which successful outputs are superseded *)

(** The successful result at [i] is large, and the call it answers succeeded again, with the same
    signature, later. *)
Definition superseded_dump (ms : list AgentMessage) (minBytes : Z) (i : nat) : Prop :=
  let sigs := callSignaturesById ms in
  exists t signature j t',
    ms !! i = Some (ToolResult t) /\ isError t = false /\ minBytes <= messageTextBytes (ToolResult t) /\
    sigs !! toolCallId t = Some signature /\
    (i < j)%nat /\ ms !! j = Some (ToolResult t') /\ isError t' = false /\ sigs !! toolCallId t' = Some signature.

Lemma rerun_later_spec ms sigs i sg :
  rerun_later ms sigs i sg = true <->
  exists j t, (i < j)%nat /\ ms !! j = Some (ToolResult t) /\ isError t = false /\ sigs !! toolCallId t = Some sg.
Proof.
  unfold rerun_later. rewrite List.existsb_exists. split.
  - intros (m & Hin & Hm). apply list_elem_of_In, list_elem_of_lookup in Hin as [n Hn]. rewrite lookup_drop in Hn.
    destruct m as [| |t| | | |]; try done. to_prop. exists (S i + n)%nat, t. split_and!; [lia|done..].
  - intros (j & t & Hj & Ht & He & Hs). exists (ToolResult t). rewrite He, bool_decide_true by done.
    split; [|done]. apply list_elem_of_In, list_elem_of_lookup. exists (j - S i)%nat. rewrite lookup_drop.
    by replace (S i + (j - S i))%nat with j by lia.
Qed.

(** The test the second pass makes at one message. *)
Definition dump_test (ms : list AgentMessage) (minBytes : Z) (i : nat) (m : AgentMessage) : bool :=
  match m with
  | ToolResult t =>
      negb (isError t) && (minBytes <=? messageTextBytes m) &&
      match callSignaturesById ms !! toolCallId t with
      | Some sg => rerun_later ms (callSignaturesById ms) i sg
      | None => false
      end
  | _ => false
  end.

Lemma dump_test_spec ms minBytes i m : ms !! i = Some m ->
  dump_test ms minBytes i m = true <-> superseded_dump ms minBytes i.
Proof.
  intros Hm. unfold dump_test, superseded_dump. split.
  - destruct m as [| |t| | | |]; try done. intros H. to_prop.
    destruct (_ !! toolCallId t) as [sg|] eqn:Es; [|done].
    apply rerun_later_spec in H0 as (j & t' & ?). exists t, sg, j, t'. intuition.
  - intros (t & sg & j & t' & Ht & He & Hb & Hs & H). rewrite Hm in Ht. injection Ht as ->.
    rewrite He, Hs. apply Z.leb_le in Hb as ->. apply rerun_later_spec. eauto.
Qed.

Lemma dump_pass_dom ms minBytes todo k reps c i : todo = take (length todo) (drop k ms) ->
  is_Some ((dump_pass ms (callSignaturesById ms) minBytes k todo reps c).1 !! i) <->
  is_Some (reps !! i) \/ (k <= i < k + length todo)%nat /\ superseded_dump ms minBytes i.
Proof.
  revert k reps c. induction todo as [|m todo IH]; intros k reps c Ht.
  { simpl. split; [by left|]. intros [?|[? ?]]; [done|lia]. }
  assert (Hm : ms !! k = Some m).
  { rewrite <- (Nat.add_0_r k), <- lookup_drop. destruct (drop k ms); simpl in *; congruence. }
  rewrite (drop_S ms m k Hm) in Ht. cbn in Ht. injection Ht as Ht.
  pose proof (dump_test_spec ms minBytes k m Hm) as Hd.
  assert (Hstep : exists reps' c',
    dump_pass ms (callSignaturesById ms) minBytes k (m :: todo) reps c =
      dump_pass ms (callSignaturesById ms) minBytes (S k) todo reps' c' /\
    forall j, is_Some (reps' !! j) <-> is_Some (reps !! j) \/ (j = k /\ superseded_dump ms minBytes j)).
  { cbn [dump_pass]. destruct (dump_test ms minBytes k m) eqn:E.
    - pose proof (proj1 Hd eq_refl) as Hsup. destruct m as [| |t| | | |]; try done. cbn in E. to_prop.
      rewrite H. cbn [orb]. rewrite (Z.ltb_antisym minBytes). apply Z.leb_le in H1 as ->. cbn [negb].
      destruct (bool_decide _) eqn:Er; to_prop.
      + do 2 eexists. split; [done|]. intros j. split; [by left|]. intros [?|[-> _]]; done.
      + destruct (_ !! toolCallId t); [|done]. rewrite H0. do 2 eexists. split; [done|].
        intros j. rewrite lookup_insert_is_Some. destruct (decide (k = j)) as [->|]; intuition.
    - assert (Hns : ~ superseded_dump ms minBytes k) by (rewrite <- Hd; done).
      exists reps, c. split; [|intros j; split; [by left|by intros [?|[-> ?]]]].
      destruct m as [| |t| | | |]; try done. cbn in E.
      destruct (isError t) eqn:Ee; [done|]. cbn [orb negb andb] in *. destruct (bool_decide _); [done|].
      rewrite (Z.ltb_antisym minBytes). destruct (minBytes <=? _); [|done]. cbn [negb andb] in *.
      destruct (_ !! toolCallId t); [by rewrite E|done]. }
  destruct Hstep as (reps' & c' & -> & Hreps). rewrite IH, Hreps by done. cbn [length].
  split.
  - intros [[?|[-> ?]]|[? ?]]; [by left|right; split; [lia|done]..].
  - intros [?|[? ?]]; [by left; left|]. destruct (decide (i = k)) as [->|]; [by left; right|].
    right. split; [lia|done].
Qed.

(** ** The plan *)

Lemma protected_loop_le rms active seen : (protected_loop rms active seen <= length rms)%nat.
Proof.
  revert seen. induction rms as [|m rms IH]; intros seen; simpl; [lia|].
  pose proof (IH seen). pose proof (IH (seen + 1)). repeat case_match; lia.
Qed.

Lemma protectedStartIndex_le ms active : (protectedStartIndex ms active <= length ms)%nat.
Proof.
  unfold protectedStartIndex. case_match; [done|].
  pose proof (protected_loop_le (reverse ms) active 0). rewrite length_reverse in *. done.
Qed.

(** The position where the protected tail begins, and the positions the janitor compresses. *)
Definition boundary (ms : list AgentMessage) (o : ContextJanitorOptions) : nat :=
  protectedStartIndex ms (default DEFAULT_activeWindowTurns (activeWindowTurns o)).
Definition compressed (ms : list AgentMessage) (o : ContextJanitorOptions) (i : nat) : Prop :=
  superseded_failure ms (default DEFAULT_minFailures (minFailures o)) (boundary ms o) i \/
  let minBytes := default DEFAULT_successDumpMinBytes (successDumpMinBytes o) in
  0 < minBytes /\ (i < boundary ms o)%nat /\ superseded_dump ms minBytes i.

Lemma all_replacements_dom ms o i : is_Some ((all_replacements ms o).1.1 !! i) <-> compressed ms o i.
Proof.
  unfold all_replacements, compressed. fold (boundary ms o).
  assert (Hb : (boundary ms o <= length ms)%nat) by apply protectedStartIndex_le.
  pose proof (failure_pass_dom ms (default DEFAULT_minFailures (minFailures o)) (boundary ms o) i Hb) as Hf.
  set (mb := default DEFAULT_successDumpMinBytes _). destruct (0 <? mb) eqn:E; to_prop.
  - pose proof (dump_pass_dom ms mb (take (boundary ms o) ms) 0
      (replacements (failure_pass ms (default DEFAULT_minFailures (minFailures o)) (boundary ms o))) 0 i) as Hd.
    destruct (dump_pass _ _ _ _ _ _ _) as [reps dumps]. cbn [fst] in *.
    rewrite length_take, Nat.min_l in Hd by lia. rewrite Hd, Hf by done. intuition lia.
  - cbn [fst]. rewrite Hf. intuition lia.
Qed.

Lemma compressed_tool_result ms o i m : compressed ms o i -> ms !! i = Some m -> exists t, m = ToolResult t.
Proof.
  intros [[H _]|(_ & _ & (t & sg & j & t' & Ht & _))] Hm.
  - unfold at_ in H. rewrite Hm in H. destruct m; try done. eauto.
  - rewrite Hm in Ht. injection Ht as ->. eauto.
Qed.

Lemma gate_open_spec ms o :
  gate_open ms o = negb (match lastPruneTurn o with Some last => turnIndex o - last <? minTurns o | None => false end) &&
                   negb (tokens (estimateContextTokens ms) <? minTokens o).
Proof. unfold gate_open. rewrite Z.leb_antisym. destruct (lastPruneTurn o); [by rewrite Z.leb_antisym|done]. Qed.

Lemma plan_messages_spec ms o :
  plan_messages (planContextJanitor ms o) =
    if gate_open ms o then apply_replacements (all_replacements ms o).1.1 ms else ms.
Proof.
  rewrite gate_open_spec. unfold planContextJanitor.
  destruct (match lastPruneTurn o with Some _ => _ | None => _ end); [done|].
  destruct (_ <? minTokens o); [done|]. cbn [negb andb].
  destruct (all_replacements ms o) as [[reps tr] dumps]. cbn [fst].
  destruct (size reps =? 0)%nat eqn:E; [|done]. to_prop. apply map_size_empty_inv in E as ->.
  cbn [plan_messages]. unfold apply_replacements. symmetry.
  apply list_eq. intros i. rewrite list_lookup_imap. destruct (ms !! i); simpl; [by rewrite lookup_empty|done].
Qed.

Lemma replaceToolResultContent_shape m t : replaceToolResultContent m t ≡ m.
Proof. apply same_shape_unfold. destruct m; simpl; try done; by split_and!. Qed.

#[export] Instance planContextJanitor_transform o :
  ContextTransform (fun ms => plan_messages (planContextJanitor ms o)).
Proof.
  intros ms. rewrite plan_messages_spec. destruct (gate_open ms o); [|done].
  apply list_equiv_lookup. intros i. unfold apply_replacements. rewrite list_lookup_imap.
  destruct (ms !! i) as [m|]; [|done]. cbn. f_equiv.
  destruct (_ !! i); [apply replaceToolResultContent_shape|done].
Qed.

(** While the phase gate is closed the janitor returns the transcript as it is. Once it is open, the tool
    results it compresses are exactly the failures before the protected tail that lie in a stretch of at
    least [minFailures] failed attempts followed by a success, and the large successes before the tail
    whose exact call succeeds again later; each keeps everything but its content, which becomes a short
    text, and every other message is returned as it is. *)
Theorem planContextJanitor_compresses (ms : list AgentMessage) (o : ContextJanitorOptions) :
  let p := planContextJanitor ms o in
  (gate_open ms o = false -> plan_messages p = ms /\ changed p = false) /\
  (gate_open ms o = true -> forall i m, ms !! i = Some m ->
     (compressed ms o i -> exists t tomb, m = ToolResult t /\
        plan_messages p !! i = Some (replaceToolResultContent m tomb)) /\
     (~ compressed ms o i -> plan_messages p !! i = Some m)).
Proof.
  cbv zeta. rewrite plan_messages_spec. split.
  - intros Hg. rewrite Hg. split; [done|]. rewrite gate_open_spec in Hg. unfold planContextJanitor.
    apply andb_false_iff in Hg as [Hg|Hg]; apply negb_false_iff in Hg; rewrite Hg; [done|by repeat case_match].
  - intros -> i m Hm. unfold apply_replacements. rewrite list_lookup_imap, Hm. cbn.
    pose proof (all_replacements_dom ms o i) as Hd. split.
    + intros Hc. destruct (compressed_tool_result ms o i m Hc Hm) as [t ->].
      apply Hd in Hc as [tomb ->]. eauto.
    + intros Hc. destruct ((all_replacements ms o).1.1 !! i); [|done]. destruct Hc. apply Hd. done.
Qed.

(** The plan reports what it did: [messagesCompressed] is the number of positions compressed, and the
    plan is marked changed exactly when there is one. *)
Theorem planContextJanitor_counts (ms : list AgentMessage) (o : ContextJanitorOptions) :
  let p := planContextJanitor ms o in
  exists positions : list nat, NoDup positions /\
    (forall i, i ∈ positions <-> gate_open ms o = true /\ compressed ms o i) /\
    messagesCompressed p = Z.of_nat (length positions) /\
    (changed p = true <-> positions <> []).
Proof.
  cbv zeta. destruct (gate_open ms o) eqn:Hg.
  2:{ exists []. pose proof Hg as Hg'. rewrite gate_open_spec in Hg'. unfold planContextJanitor.
      split; [constructor|]. split; [intros i; rewrite elem_of_nil; by split; [|intros [? ?]]|].
      apply andb_false_iff in Hg' as [Hg'|Hg']; apply negb_false_iff in Hg'; rewrite Hg';
        repeat case_match; done. }
  exists (elements (dom (all_replacements ms o).1.1)). split; [apply NoDup_elements|]. split.
  { intros i. rewrite elem_of_elements, elem_of_dom, all_replacements_dom. intuition. }
  pose proof Hg as Hg'. rewrite gate_open_spec in Hg'. apply andb_true_iff in Hg' as [H1 H2].
  apply negb_true_iff in H1, H2. unfold planContextJanitor. rewrite H1, H2.
  destruct (all_replacements ms o) as [[reps tr] dumps]. cbn [fst].
  pose proof (size_dom reps) as Hs. change (size (dom reps)) with (length (elements (dom reps))) in Hs. rewrite Hs.
  destruct (size reps =? 0)%nat eqn:E; to_prop; cbn [messagesCompressed changed]; rewrite ?E; split; try done.
  - rewrite E in Hs. apply nil_length_inv in Hs. rewrite Hs. done.
  - split; [|done]. intros _ Hn. rewrite Hn in Hs. simpl in Hs. lia.
Qed.
