(* ===== verification/AgentTypes.v ===== *)
(** * The agent loop's world (packages/agent/src/types.ts and the start of agent-loop.ts)

    Events, tools, the configuration of a run, and the monad the loop is
    written in. Everything outside the loop (the provider, the tools, the
    hooks, the listeners) shares an abstract state [X]; awaiting one of them
    is a call that may change that state, raise the abort signal, and settle.
    The loop always runs under an abort signal, as the agent runs it. *)

(* Source aliases:
   AG = src/packages/agent/src/types.ts
   AI = src/packages/ai/src/types.ts
   AL = src/packages/agent/src/agent-loop.ts *)

From S2P Require Import Prelude JsString JsNumber Messages Jev.
Local Open Scope Z_scope.

(** ** Thrown values *)

Inductive thrown := ErrorObject (name message : jsstr) | OtherValue (text : jsstr).

(** AL 29-29 ABORT_ERROR_MESSAGE. *)
Definition ABORT_ERROR_MESSAGE : jsstr := js "Request was aborted".
(** AL 31-31 DEFAULT_MAX_CONSECUTIVE_REFLEXES. *)
Definition DEFAULT_MAX_CONSECUTIVE_REFLEXES : Z := 3.
(** AL 41-43 createAbortError. *)
Definition createAbortError : thrown := ErrorObject (js "Error") ABORT_ERROR_MESSAGE.
(** AL 105-107 isAbortError. *)
Definition isAbortError (e : thrown) : bool :=
  match e with
  | ErrorObject n m => jseqb m ABORT_ERROR_MESSAGE || jseqb n (js "AbortError")
  | OtherValue _ => false
  end.
(** AL 913-913 prepareToolCall. [error instanceof Error ? error.message : String(error)]. *)
Definition error_text (e : thrown) : jsstr :=
  match e with ErrorObject _ m => m | OtherValue t => t end.

(** ** Tool results and events *)

(** AG 381-391 AgentToolResult. *)
Record AgentToolResult := {
  res_content : list Part; res_details : option json; terminate : option bool }.
(** AL 1023-1028 createErrorToolResult. *)
Definition createErrorToolResult (message : jsstr) : AgentToolResult :=
  {| res_content := [PText (mkText message)]; res_details := Some (JObj []); terminate := None |}.

(** AL 616-624 streamAssistantResponse. The kinds of incremental events. *)
Inductive DeltaKind :=
| text_start | text_delta | text_end | thinking_start | thinking_delta | thinking_end
| toolcall_start | toolcall_delta | toolcall_end.
(** AI 262-274 AssistantMessageEvent. *)
Inductive AssistantMessageEvent :=
| EStart (partial : AssistantMessage)
| EDelta (kind : DeltaKind) (partial : AssistantMessage)
| EDone (message : AssistantMessage)
| EError (error : AssistantMessage).

Abbreviation args := (list (jsstr * json)).

(** AG 439-456 AgentEvent. *)
Inductive AgentEvent :=
| agent_start
| agent_end (messages : list AgentMessage)
| turn_start
| turn_end (message : AssistantMessage) (toolResults : list ToolResultMessage)
| reflex (tool : jsstr) (turnIndex consecutiveReflexes : Z)
| message_start (m : AgentMessage)
| message_update (m : AgentMessage) (e : AssistantMessageEvent)
| message_end (m : AgentMessage)
| tool_execution_start (callId tool : jsstr) (a : args)
| tool_execution_update (callId tool : jsstr) (a : args) (partial : AgentToolResult)
| tool_execution_end (callId tool : jsstr) (result : AgentToolResult) (isErr : bool).

(** AG 37-37 ToolExecutionMode. *)
Inductive ToolExecutionMode := sequential | parallel.
#[export] Instance ToolExecutionMode_eq_dec : EqDecision ToolExecutionMode.
Proof. solve_decision. Defined.

(** AG 48-51 BeforeToolCallResult. *)
Record BeforeToolCallResult := { block : bool; reason : option jsstr }.
(** AG 65-74 AfterToolCallResult. *)
Record AfterToolCallResult := {
  after_content : option (list Part); after_details : option json;
  after_isError : option bool; after_terminate : option bool }.
(** AG 105-114 ShouldStopAfterTurnContext. The context is represented by its messages. *)
Record TurnContext := {
  turn_message : AssistantMessage; turn_toolResults : list ToolResultMessage;
  turn_context : list AgentMessage; turn_newMessages : list AgentMessage }.

(** ** Calls to the outside *)

Section world.
Context {X : Type}.

(** How a promise raced against the abort signal ends: [Preempted] when it has not settled before the
    signal is raised. *)
Inductive settlement (A : Type) := Fulfilled (a : A) | Rejected (e : thrown) | Preempted.
Arguments Fulfilled {A} a.
Arguments Rejected {A} e.
Arguments Preempted {A}.

(** What awaiting a call does: how it settles, whether the signal was raised meanwhile, and the state of
    the outside afterwards. *)
Record reply (A : Type) := { r_value : settlement A; r_abort : bool; r_ext : X }.
(** The same for a listener of events, which is awaited to its end. *)
Record emitted := { e_error : option thrown; e_abort : bool; e_ext : X }.

(** The rest of a running tool: the partial results it publishes, piece by piece, and its end. *)
Record execution := {
  chunks : list (X -> list AgentToolResult * bool * X);
  finish : X -> reply AgentToolResult }.

(** AG 397-420 AgentTool. *)
Record AgentTool := {
  tool_name : jsstr;
  executionMode : option ToolExecutionMode;
  prepareArguments : option (args -> args + thrown);
  execute : jsstr -> args -> X -> X * execution }.

(** The response of a provider: its events in the order the iterator yields them, and its result. *)
Record response := {
  pulls : list (X -> reply AssistantMessageEvent);
  response_result : X -> reply AssistantMessage }.

(** AL 580-584 streamAssistantResponse. The request. *)
Record LlmContext := {
  llm_systemPrompt : jsstr; llm_messages : list Message; llm_tools : list AgentTool; llm_apiKey : option jsstr }.

(** AG 152-322 AgentLoopConfig. With the tools and the system prompt of the context (AG 423-430), the
    provider's stream function, the listener of events, the schema validator, the clock, the generator of
    identifiers, and the order in which parallel tools progress. *)
Record AgentLoopConfig := {
  model_id : jsstr; model_api : jsstr; model_provider : jsstr;
  systemPrompt : jsstr; tools : list AgentTool;
  transformContext : option (list AgentMessage -> X -> reply (list AgentMessage));
  convertToLlm : list AgentMessage -> X -> reply (list Message);
  getSystemPrompt : option (X -> jsstr);
  getApiKey : option (jsstr -> X -> reply (option jsstr));
  apiKey : option jsstr;
  streamFunction : LlmContext -> X -> reply response;
  shouldStopAfterTurn : option (TurnContext -> X -> reply bool);
  shouldStopBeforeTurn : option (X -> bool * X);
  getSteeringMessages : option (X -> reply (list AgentMessage));
  getFollowUpMessages : option (X -> reply (list AgentMessage));
  getContinuationMessages : option (TurnContext -> X -> reply (list AgentMessage));
  preTurnRouter : option (Z -> Z -> list AgentMessage -> X -> reply (option PreTurnReflex));
  maxConsecutiveReflexes : option Z;
  toolExecution : option ToolExecutionMode;
  beforeToolCall : option (AssistantMessage -> ToolCall -> args -> list AgentMessage -> X -> reply (option BeforeToolCallResult));
  afterToolCall : option (AssistantMessage -> ToolCall -> args -> AgentToolResult -> bool -> list AgentMessage -> X ->
                          reply (option AfterToolCallResult));
  validateToolArguments : AgentTool -> ToolCall -> args + thrown;
  listener : AgentEvent -> X -> emitted;
  now : X -> Z;
  randomUUID : X -> jsstr * X;
  interleaving : X -> list nat }.

(** ** The monad of the loop

    The state of a run: the signal, the events emitted so far, the two arrays the loop pushes messages to,
    the partial message of the response being streamed, and the outside. *)

Record world := {
  aborted : bool;
  trace : list AgentEvent;
  context : list AgentMessage;
  newMessages : list AgentMessage;
  partialMessage : option AssistantMessage;
  ext : X }.

Inductive outcome (A : Type) := Ok (a : A) | Throw (e : thrown) | NoFuel.
Arguments Ok {A} a.
Arguments Throw {A} e.
Arguments NoFuel {A}.

Definition M (A : Type) : Type := world -> outcome A * world.

#[global] Instance M_ret : MRet M := fun A a w => (Ok a, w).
#[global] Instance M_bind : MBind M := fun A B f m w =>
  match m w with
  | (Ok a, w') => f a w'
  | (Throw e, w') => (Throw e, w')
  | (NoFuel, w') => (NoFuel, w')
  end.

Definition throw {A} (e : thrown) : M A := fun w => (Throw e, w).
Definition no_fuel {A} : M A := fun w => (NoFuel, w).
(** [try { m } catch (e) { h e }]. *)
Definition try_catch {A} (m : M A) (h : thrown -> M A) : M A := fun w =>
  match m w with
  | (Throw e, w') => h e w'
  | r => r
  end.
Definition gets {A} (f : world -> A) : M A := fun w => (Ok (f w), w).
Definition modify (f : world -> world) : M unit := fun w => (Ok tt, f w).

Definition set_ext (x : X) (ab : bool) (w : world) : world :=
  {| aborted := aborted w || ab; trace := trace w; context := context w; newMessages := newMessages w;
     partialMessage := partialMessage w; ext := x |}.
Definition set_context (f : list AgentMessage -> list AgentMessage) (w : world) : world :=
  {| aborted := aborted w; trace := trace w; context := f (context w); newMessages := newMessages w;
     partialMessage := partialMessage w; ext := ext w |}.
Definition set_newMessages (f : list AgentMessage -> list AgentMessage) (w : world) : world :=
  {| aborted := aborted w; trace := trace w; context := context w; newMessages := f (newMessages w);
     partialMessage := partialMessage w; ext := ext w |}.
Definition set_partialMessage (p : option AssistantMessage) (w : world) : world :=
  {| aborted := aborted w; trace := trace w; context := context w; newMessages := newMessages w;
     partialMessage := p; ext := ext w |}.
Definition log_event (e : AgentEvent) (w : world) : world :=
  {| aborted := aborted w; trace := trace w ++ [e]; context := context w; newMessages := newMessages w;
     partialMessage := partialMessage w; ext := ext w |}.

Definition push_context (m : AgentMessage) : M unit := modify (set_context (fun ms => ms ++ [m])).
Definition push_newMessages (m : AgentMessage) : M unit := modify (set_newMessages (fun ms => ms ++ [m])).
(** [context.messages[context.messages.length - 1] = m]. *)
Definition replace_last (m : AgentMessage) : M unit :=
  modify (set_context (fun ms => <[(length ms - 1)%nat := m]> ms)).

(** AL 45-49 throwIfAborted. *)
Definition throwIfAborted : M unit := fun w => if aborted w then (Throw createAbortError, w) else (Ok tt, w).

(** AL 51-103 raceWithAbort. Under a signal that is already raised the operation is still started, and
    its outcome ignored. *)
Definition raceWithAbort {A} (operation : X -> reply A) : M A := fun w =>
  let r := operation (ext w) in
  if aborted w then (Throw createAbortError, set_ext (r_ext _ r) true w)
  else match r_value _ r with
       | Fulfilled a => (Ok a, set_ext (r_ext _ r) (r_abort _ r) w)
       | Rejected e => (Throw e, set_ext (r_ext _ r) (r_abort _ r) w)
       | Preempted => (Throw createAbortError, set_ext (r_ext _ r) true w)
       end.

(** A call of the loop's own that reads or updates the outside at once. *)
Definition sync {A} (f : X -> A * X) : M A := fun w =>
  let '(a, x) := f (ext w) in (Ok a, set_ext x false w).

(** AL 111-120 settlePostTurn. [None] is the status [aborted]. *)
Definition settlePostTurn {A} (m : M A) : M (option A) :=
  try_catch (a ← m; mret (Some a)) (fun e =>
    ab ← gets aborted; if ab && isAbortError e then mret None else throw e).

(** AL 170-178 pollMessagesUnlessAborted. *)
Definition pollMessagesUnlessAborted (poll : option (X -> reply (list AgentMessage))) : M (list AgentMessage) :=
  ab ← gets aborted;
  match poll with
  | Some p => if ab : bool then mret [] else raceWithAbort p
  | None => mret []
  end.

(** AL 27-27 AgentEventSink. The event is logged, then its listener is awaited. *)
Definition emit (cfg : AgentLoopConfig) (e : AgentEvent) : M unit := fun w =>
  let r := listener cfg e (ext w) in
  let w' := set_ext (e_ext r) (e_abort r) (log_event e w) in
  match e_error r with
  | Some err => (Throw err, w')
  | None => (Ok tt, w')
  end.

(** ** Reasoning about the monad *)

(** [wp m Q E w]: run from [w], [m] returns a value and a world that satisfy [Q], or stops with an exception
    ([Some e]) or without fuel ([None]) in a world that satisfies [E]. *)
Definition wp {A} (m : M A) (Q : A -> world -> Prop) (E : option thrown -> world -> Prop) (w : world) : Prop :=
  match m w with
  | (Ok a, w') => Q a w'
  | (Throw e, w') => E (Some e) w'
  | (NoFuel, w') => E None w'
  end.

Lemma wp_ret {A} (a : A) Q E w : Q a w -> wp (mret a) Q E w.
Proof. done. Qed.

Lemma wp_throw {A} e (Q : A -> world -> Prop) (E : option thrown -> world -> Prop) w : E (Some e) w -> wp (throw e) Q E w.
Proof. done. Qed.

Lemma wp_bind {A B} (m : M A) (k : A -> M B) Q E w :
  wp m (fun a w' => wp (k a) Q E w') E w -> wp (m ≫= k) Q E w.
Proof. unfold wp, mbind, M_bind. by destruct (m w) as [[] ?]. Qed.

Lemma wp_mono {A} (m : M A) (Q Q' : A -> world -> Prop) (E E' : option thrown -> world -> Prop) w :
  wp m Q E w -> (forall a w', Q a w' -> Q' a w') -> (forall o w', E o w' -> E' o w') -> wp m Q' E' w.
Proof. unfold wp. destruct (m w) as [[] ?]; eauto. Qed.

Lemma wp_catch {A} (m : M A) h Q (E : option thrown -> world -> Prop) w :
  wp m Q (fun o w' => match o with Some e => wp (h e) Q E w' | None => E None w' end) w ->
  wp (try_catch m h) Q E w.
Proof. unfold wp, try_catch. by destruct (m w) as [[] w']. Qed.

Lemma wp_gets {A} (f : world -> A) Q E w : Q (f w) w -> wp (gets f) Q E w.
Proof. done. Qed.

Lemma wp_modify f Q E w : Q tt (f w) -> wp (modify f) Q E w.
Proof. done. Qed.
End world.

Arguments reply : clear implicits.
Arguments execution : clear implicits.
Arguments AgentTool : clear implicits.
Arguments response : clear implicits.
Arguments LlmContext : clear implicits.
Arguments AgentLoopConfig : clear implicits.
Arguments world : clear implicits.
Arguments emitted : clear implicits.
Arguments M : clear implicits.
Arguments Fulfilled {A} a.
Arguments Rejected {A} e.
Arguments Preempted {A}.
Arguments Ok {A} a.
Arguments Throw {A} e.
Arguments NoFuel {A}.
Arguments r_value {X A} _.
Arguments r_abort {X A} _.
Arguments r_ext {X A} _.
