(* ===== verification/EventStream.v ===== *)
(** * Event streams (packages/ai/src/utils/event-stream.ts)

    A queue between a producer and the iterators that read it: an event goes to
    an iterator that waits, or is kept. *)

(* Source aliases:
   ES = src/packages/ai/src/utils/event-stream.ts *)

From S2P Require Import Prelude JsString Messages AgentTypes.

(** An iterator of the stream. *)
Abbreviation consumer := nat.

Section event_stream.
Context {T R : Type}.
Variables (isComplete : T -> bool) (extractResult : T -> R).

(** ES 3-17 EventStream. The final result is [None] until its promise is resolved. *)
Record EventStream := { queue : list T; waiting : list consumer; done : bool; finalResult : option R }.
Definition new_stream : EventStream := {| queue := []; waiting := []; done := false; finalResult := None |}.

(** What an iterator is given: a value, or the end. *)
Inductive delivery := Value (c : consumer) (v : T) | Ended (c : consumer).

(** A promise is resolved once. *)
Definition resolveFinalResult (r : R) (o : option R) : option R := match o with Some r0 => Some r0 | None => Some r end.

(** ES 19-33 EventStream.push. *)
Definition push (event : T) (s : EventStream) : list delivery * EventStream :=
  if done s then ([], s)
  else
    let '(d, r) := if isComplete event then (true, resolveFinalResult (extractResult event) (finalResult s)) else (false, finalResult s) in
    match waiting s with
    | w :: ws => ([Value w event], {| queue := queue s; waiting := ws; done := d; finalResult := r |})
    | [] => ([], {| queue := queue s ++ [event]; waiting := []; done := d; finalResult := r |})
    end.

(** ES 35-44 EventStream.end. *)
Definition end_ (result : option R) (s : EventStream) : list delivery * EventStream :=
  (Ended <$> waiting s,
   {| queue := queue s; waiting := []; done := true;
      finalResult := match result with Some r => resolveFinalResult r (finalResult s) | None => finalResult s end |}).

(** ES 46-58 EventStream.asyncIterator. One turn of the loop: the iterator [c] asks for its next value. *)
Definition pull (c : consumer) (s : EventStream) : list delivery * EventStream :=
  match queue s with
  | v :: q => ([Value c v], {| queue := q; waiting := waiting s; done := done s; finalResult := finalResult s |})
  | [] =>
      if done s then ([Ended c], s)
      else ([], {| queue := []; waiting := waiting s ++ [c]; done := done s; finalResult := finalResult s |})
  end.

(** Calls in any order. *)
Inductive call := Push (event : T) | End (result : option R) | Pull (c : consumer).
Definition run_call (x : call) : EventStream -> list delivery * EventStream :=
  match x with Push e => push e | End r => end_ r | Pull c => pull c end.
Fixpoint run_calls (xs : list call) (s : EventStream) : list delivery * EventStream :=
  match xs with
  | [] => ([], s)
  | x :: xs => let '(d, s1) := run_call x s in let '(ds, s2) := run_calls xs s1 in (d ++ ds, s2)
  end.

(** ** What a stream promises *)

(** The events before the stream is over: those pushed up to the first that completes it, or the first [end]. *)
Fixpoint accepted (xs : list call) : list T :=
  match xs with
  | [] => []
  | Push e :: xs => e :: (if isComplete e then [] else accepted xs)
  | End _ :: _ => []
  | Pull _ :: xs => accepted xs
  end.
Fixpoint is_over (xs : list call) : bool :=
  match xs with [] => false | Push e :: xs => isComplete e || is_over xs | End _ :: _ => true | Pull _ :: xs => is_over xs end.
(** The result: of the first event that completes the stream or the first [end] that gives one. *)
Fixpoint outcome (over : bool) (xs : list call) : option R :=
  match xs with
  | [] => None
  | Push e :: xs => if negb over && isComplete e then Some (extractResult e) else outcome over xs
  | End (Some r) :: _ => Some r
  | End None :: xs => outcome true xs
  | Pull _ :: xs => outcome over xs
  end.

Definition values (ds : list delivery) : list T := omap (fun d => match d with Value _ v => Some v | Ended _ => None end) ds.
Definition pulls (xs : list call) : list consumer := omap (fun x => match x with Pull c => Some c | _ => None end) xs.
Definition receiver (d : delivery) : consumer := match d with Value c _ => c | Ended c => c end.

Lemma values_app a b : values (a ++ b) = values a ++ values b.
Proof. apply omap_app. Qed.
Lemma values_ended cs : values (Ended <$> cs) = [].
Proof. induction cs as [|c cs IH]; [done|]. exact IH. Qed.

(** An iterator waits only on an empty queue. *)
Definition calm (s : EventStream) : Prop := waiting s <> [] -> queue s = [].

Lemma run_call_calm x s : calm s -> calm (run_call x s).2.
Proof.
  intros H. unfold calm in *. destruct x as [e|r|c]; cbn [run_call].
  - unfold push. destruct (done s); [done|]. destruct (isComplete e), (waiting s) as [|w ws]; cbn; intros Hw; try done; by apply H.
  - done.
  - unfold pull. destruct (queue s) as [|v q] eqn:E; [by destruct (done s)|]. cbn. intros Hw. by specialize (H Hw).
Qed.

(** One call: what it delivers and keeps, whether the stream is over, and its result. *)
Lemma run_call_spec x s : calm s -> let '(ds, s') := run_call x s in
  values ds ++ queue s' = queue s ++ (if done s then [] else accepted [x]) /\
  done s' = done s || is_over [x] /\
  finalResult s' = match finalResult s with Some r => Some r | None => outcome (done s) [x] end /\
  (receiver <$> ds) ++ waiting s' ≡ₚ waiting s ++ pulls [x].
Proof.
  assert (Hends : forall cs : list consumer, receiver <$> (Ended <$> cs) = cs) by (intros cs; induction cs as [|c cs IH]; [done|]; cbn; by rewrite IH).
  intros Hc. destruct x as [e|r|c]; cbn [run_call accepted is_over outcome pulls omap list_omap].
  - unfold push. rewrite !app_nil_r. destruct (done s) eqn:Ed.
    { rewrite app_nil_r, Ed. split_and!; [done..|by destruct (finalResult s)|done]. }
    destruct (isComplete e) eqn:Ee; destruct (waiting s) as [|w ws] eqn:Ew; cbn; rewrite ?Ee, ?app_nil_r;
      (split_and!; [|done|by destruct (finalResult s)|done]); try done; by rewrite (Hc ltac:(by rewrite Ew)).
  - rewrite !app_nil_r, orb_true_r. cbn. rewrite values_ended, Hends, app_nil_r. split_and!; [by destruct (done s); rewrite ?app_nil_r|done| |done].
    by destruct r, (finalResult s).
  - unfold pull. rewrite orb_false_r. destruct (queue s) as [|v q] eqn:Eq.
    + destruct (done s) eqn:Ed; cbn; rewrite ?app_nil_r, ?Eq, ?Ed; (split_and!; [done..|by destruct (finalResult s)|]);
        [apply Permutation_cons_append|done].
    + cbn. rewrite ?app_nil_r. split_and!; [by destruct (done s); rewrite app_nil_r|done|by destruct (finalResult s)|].
      apply Permutation_cons_append.
Qed.

Lemma accepted_cons x xs (over : bool) : (if over then [] else accepted (x :: xs)) =
  (if over then [] else accepted [x]) ++ (if over || is_over [x] then [] else accepted xs).
Proof. destruct over; [done|]. destruct x as [e| |]; cbn; [|done|done]. rewrite orb_false_r. by destruct (isComplete e). Qed.
Lemma is_over_cons x xs : is_over (x :: xs) = is_over [x] || is_over xs.
Proof. destruct x as [e| |]; cbn; [|done|done]. by rewrite orb_false_r. Qed.
Lemma outcome_cons x xs (over : bool) : outcome over (x :: xs) = match outcome over [x] with Some r => Some r | None => outcome (over || is_over [x]) xs end.
Proof.
  destruct x as [e|[r|]|c]; cbn; [|done|by rewrite orb_true_r|by rewrite orb_false_r].
  destruct over; cbn; [done|]. destruct (isComplete e); [done|done].
Qed.
Lemma pulls_cons x xs : pulls (x :: xs) = pulls [x] ++ pulls xs.
Proof. unfold pulls. change (x :: xs) with ([x] ++ xs) at 1. by rewrite omap_app. Qed.

Lemma run_calls_spec xs s : calm s -> let '(ds, s') := run_calls xs s in
  calm s' /\ values ds ++ queue s' = queue s ++ (if done s then [] else accepted xs) /\
  done s' = done s || is_over xs /\
  finalResult s' = match finalResult s with Some r => Some r | None => outcome (done s) xs end /\
  (receiver <$> ds) ++ waiting s' ≡ₚ waiting s ++ pulls xs.
Proof.
  revert s. induction xs as [|x xs IH]; intros s Hc; cbn [run_calls].
  { cbn. rewrite app_nil_r, orb_false_r. split_and!; [done|by destruct (done s); rewrite app_nil_r|done|by destruct (finalResult s)|done]. }
  pose proof (run_call_spec x s Hc) as H. pose proof (run_call_calm x s Hc) as Hc1. destruct (run_call x s) as [d s1]. cbn [snd] in Hc1.
  specialize (IH s1 Hc1). destruct (run_calls xs s1) as [ds s2]. destruct H as (H1 & H2 & H3 & H4), IH as (Hc2 & I1 & I2 & I3 & I4).
  rewrite (pulls_cons x xs), (is_over_cons x xs), (accepted_cons x xs), (outcome_cons x xs). split_and!; [done|..].
  - rewrite values_app, <- (assoc_L app), I1, H2, !(assoc_L app), H1. done.
  - by rewrite I2, H2, orb_assoc.
  - rewrite I3, H3, H2. by destruct (finalResult s).
  - rewrite fmap_app, <- (assoc_L app), I4, !(assoc_L app), H4. done.
Qed.

(** Once an iterator was told the end, no value is delivered. *)
Definition is_value (d : delivery) : Prop := match d with Value _ _ => True | Ended _ => False end.
Definition finished (s : EventStream) : Prop := queue s = [] /\ done s = true.
Lemma finished_stays xs s : finished s -> Forall (fun d => ~ is_value d) (run_calls xs s).1.
Proof.
  revert s. induction xs as [|x xs IH]; intros s [Hq Hd]; [constructor|]. cbn [run_calls].
  assert (finished (run_call x s).2 /\ Forall (fun d => ~ is_value d) (run_call x s).1) as [Hf Hn].
  { destruct x as [e|r|c]; cbn [run_call].
    - unfold push. rewrite Hd. by split; [|constructor].
    - cbn. split; [by split|]. apply list.Forall_fmap, list.Forall_true. by intros c [].
    - unfold pull. rewrite Hq, Hd. split; [by split|]. constructor; [by intros []|constructor]. }
  destruct (run_call x s) as [d s1]. specialize (IH s1 Hf). destruct (run_calls xs s1). by apply list.Forall_app.
Qed.
Lemma ends_last xs s : calm s -> exists vs es, (run_calls xs s).1 = vs ++ es /\ Forall is_value vs /\ Forall (fun d => ~ is_value d) es.
Proof.
  revert s. induction xs as [|x xs IH]; intros s Hc; [by exists [], []|]. cbn [run_calls].
  assert ((finished (run_call x s).2 /\ Forall (fun d => ~ is_value d) (run_call x s).1) \/ Forall is_value (run_call x s).1) as [[Hf Hn]|Hv].
  { destruct x as [e|r|c]; cbn [run_call].
    - right. unfold push. destruct (done s); [constructor|]. destruct (isComplete e), (waiting s); repeat constructor.
    - cbn. destruct (waiting s) as [|w ws] eqn:Ew; [by right; constructor|left]. split; [split; [by apply Hc; rewrite Ew|done]|].
      apply list.Forall_fmap, list.Forall_true. by intros c [].
    - unfold pull. destruct (queue s) eqn:Eq; [|right; by repeat constructor]. destruct (done s) eqn:Ed; [left|by right; constructor].
      split; [by split|]. constructor; [by intros []|constructor]. }
  - pose proof (finished_stays xs _ Hf) as Hr. destruct (run_call x s) as [d s1]. cbn [fst snd] in *. destruct (run_calls xs s1). exists [], (d ++ l).
    split; [done|]. split; [by apply list.Forall_nil|by apply list.Forall_app].
  - pose proof (run_call_calm x s Hc) as Hc1. destruct (run_call x s) as [d s1]. destruct (IH s1 Hc1) as (vs & es & H1 & H2 & H3).
    destruct (run_calls xs s1) as [ds s2]. cbn in *. exists (d ++ vs), es. split_and!; [by rewrite H1, (assoc_L app)|by apply list.Forall_app|done].
Qed.

(** A stream hands its events over exactly once and in order. However pushes, ends and the requests of any
    iterators interleave, the values delivered so far and those still queued are the accepted events in their
    order; every value comes before the first end; every request was answered once or still waits, and waits only
    when nothing is queued; and the result is that of the first event, or of the first end with a result, that
    completes the stream. *)
Theorem event_stream_delivers (xs : list call) :
  let '(ds, s) := run_calls xs new_stream in
  values ds ++ queue s = accepted xs /\
  (exists vs es, ds = vs ++ es /\ Forall is_value vs /\ Forall (fun d => ~ is_value d) es) /\
  (receiver <$> ds) ++ waiting s ≡ₚ pulls xs /\
  (waiting s <> [] -> queue s = []) /\
  finalResult s = outcome false xs.
Proof.
  assert (Hc : calm new_stream) by done. pose proof (run_calls_spec xs new_stream Hc) as H. pose proof (ends_last xs new_stream Hc) as He.
  destruct (run_calls xs new_stream) as [ds s]. destruct H as (H0 & H1 & _ & H3 & H4). by split_and!.
Qed.
End event_stream.

(** ES 65-79 AssistantMessageEventStream.constructor. *)
Definition assistant_isComplete (e : AssistantMessageEvent) : bool := match e with EDone _ | EError _ => true | _ => false end.
(** ES 69-76 AssistantMessageEventStream.constructor. It is asked for completing events only. *)
Definition assistant_extractResult (e : AssistantMessageEvent) : option AssistantMessage :=
  match e with EDone m | EError m => Some m | _ => None end.

(** When two iterators wait, the event that completes the stream wakes the first; the second waits until [end]. *)
Example second_iterator_waits :
  let s := (run_calls (fun n => n =? 9)%nat (fun n => n) [Pull 1; Pull 2; Push 9]%nat new_stream) in
  s.1 = [Value 1 9]%nat /\ waiting s.2 = [2]%nat /\ done s.2 = true.
Proof. by vm_compute. Qed.
