(* ===== verification/AgentEvents.v ===== *)
(** * The grammar of an agent run's events

    The contract the loop keeps towards its listeners, as an automaton over
    [AgentEvent]: a run is one [agent_start], then turns, then one
    [agent_end]; within a turn messages do not overlap, and a tool execution
    is updated and ended only while it runs. *)

(* Source aliases:
   AG = src/packages/agent/src/types.ts *)

From stdpp Require Import gmultiset.
From S2P Require Import Prelude JsString JsNumber Messages AgentTypes.
Local Open Scope Z_scope.

(** Where a run is: before it, between two turns, in a turn (with a message open or not, and the calls that
    are executing), after it. *)
Inductive stage := SIdle | SBetween | STurn (message_open : bool) (running : gmultiset jsstr) | SEnded.

(** The stage after an event, if the event is allowed. *)
Definition next_stage (s : stage) (e : AgentEvent) : option stage :=
  match s, e with
  | SIdle, agent_start => Some SBetween
  | SBetween, turn_start => Some (STurn false ∅)
  | SBetween, reflex _ _ _ => Some SBetween
  | SBetween, agent_end _ => Some SEnded
  | STurn false r, reflex _ _ _ => if decide (r = ∅) then Some s else None
  | STurn false r, message_start _ => if decide (r = ∅) then Some (STurn true r) else None
  | STurn true _, message_update _ _ => Some s
  | STurn true r, message_end _ => Some (STurn false r)
  | STurn false r, tool_execution_start c _ _ => Some (STurn false ({[+ c +]} ⊎ r))
  | STurn false r, tool_execution_update c _ _ _ => if decide (c ∈ r) then Some s else None
  | STurn false r, tool_execution_end c _ _ _ =>
      if decide (c ∈ r) then Some (STurn false (r ∖ {[+ c +]})) else None
  | STurn false r, turn_end _ _ => if decide (r = ∅) then Some SBetween else None
  | _, _ => None
  end.

(** The stage a trace leads to; [None] when an event was out of place. *)
Definition stage_of (tr : list AgentEvent) : option stage :=
  foldl (fun s e => s ≫= (fun s => next_stage s e)) (Some SIdle) tr.

(** A complete run. *)
Definition complete_run (tr : list AgentEvent) : Prop := stage_of tr = Some SEnded.

Lemma stage_of_snoc tr e : stage_of (tr ++ [e]) = stage_of tr ≫= (fun s => next_stage s e).
Proof. unfold stage_of. by rewrite foldl_app. Qed.

(** Every prefix of an accepted trace is accepted. *)
Lemma stage_of_prefix tr tr' : is_Some (stage_of (tr ++ tr')) -> is_Some (stage_of tr).
Proof.
  revert tr. induction tr' as [|e tr' IH]; intros tr; [by rewrite app_nil_r|].
  change (e :: tr') with ([e] ++ tr'). rewrite (assoc_L app). intros H%IH.
  rewrite stage_of_snoc in H. destruct (stage_of tr); [done|by destruct H].
Qed.

(** The ends of tool executions in a trace, in order. *)
Definition tool_end : Type := jsstr * jsstr * AgentToolResult * bool.
Definition ends1 (e : AgentEvent) : option tool_end :=
  match e with tool_execution_end c t r b => Some (c, t, r, b) | _ => None end.
Definition ends (tr : list AgentEvent) : list tool_end := omap ends1 tr.

Lemma ends_snoc tr e : ends (tr ++ [e]) = ends tr ++ match ends1 e with Some x => [x] | None => [] end.
Proof. unfold ends. rewrite omap_app. simpl. by destruct (ends1 e). Qed.

(** What a run tells of itself: the messages announced as complete, and the events that are not about a
    message or a tool. *)
Inductive entry := Said (m : AgentMessage) | Frame (e : AgentEvent).
Definition logged (e : AgentEvent) : list entry :=
  match e with
  | message_end m => [Said m]
  | message_start _ | message_update _ _ | tool_execution_start _ _ _ | tool_execution_update _ _ _ _
  | tool_execution_end _ _ _ _ => []
  | _ => [Frame e]
  end.
Definition log_of (tr : list AgentEvent) : list entry := tr ≫= logged.

Lemma log_of_snoc tr e : log_of (tr ++ [e]) = log_of tr ++ logged e.
Proof. unfold log_of. by rewrite bind_app, bind_cons, app_nil_r. Qed.

Section rules.
Context {X : Type} (cfg : AgentLoopConfig X).

(** Whether a listener can fail. *)
Definition listeners_fail : Prop := exists e x, e_error (listener cfg e x) <> None.

(** A property of worlds that does not depend on the outside. *)
Definition stable (P : world X -> Prop) : Prop := forall x ab w, P w -> P (set_ext x ab w).

Lemma wp_emit e (Q : unit -> world X -> Prop) (E : option thrown -> world X -> Prop) w :
  (forall x ab, Q tt (set_ext x ab (log_event e w))) ->
  (listeners_fail -> forall err x ab, E (Some err) (set_ext x ab (log_event e w))) ->
  wp (emit cfg e) Q E w.
Proof.
  intros HQ HE. unfold wp, emit. destruct (e_error (listener cfg e (ext w))) as [err|] eqn:Ee; [|done].
  apply HE. exists e, (ext w). by rewrite Ee.
Qed.

Lemma wp_race {A} (op : X -> reply X A) (Q : A -> world X -> Prop) (E : option thrown -> world X -> Prop) w :
  (forall a x ab, aborted w = false -> Q a (set_ext x ab w)) ->
  (forall e x ab, E (Some e) (set_ext x ab w)) -> wp (raceWithAbort op) Q E w.
Proof.
  intros HQ HE. unfold wp, raceWithAbort. destruct (aborted w) eqn:Ea; [apply HE|].
  destruct (r_value (op (ext w))); auto.
Qed.

Lemma wp_throwIfAborted (Q : unit -> world X -> Prop) (E : option thrown -> world X -> Prop) w :
  (aborted w = false -> Q tt w) -> (aborted w = true -> E (Some createAbortError) w) -> wp throwIfAborted Q E w.
Proof. unfold wp, throwIfAborted. destruct (aborted w); auto. Qed.

Lemma wp_sync {A} (f : X -> A * X) (Q : A -> world X -> Prop) E w :
  (forall a x, Q a (set_ext x false w)) -> wp (sync f) Q E w.
Proof. intros H. unfold wp, sync. destruct (f (ext w)). apply H. Qed.
End rules.
