(* ===== verification/AgentTools.v ===== *)
(** * Executing the tool calls of a turn (packages/agent/src/agent-loop.ts)

    Preparation, execution and finalization of a tool call, and the two ways
    a turn runs its calls: one after the other, or concurrently. A running
    call is a [thread] that advances by atomic steps; the concurrent batch
    starts its threads in order and lets a schedule interleave their steps. *)

(* Source aliases:
   AL = src/packages/agent/src/agent-loop.ts *)

From stdpp Require Import gmultiset.
From S2P Require Import Prelude JsString JsNumber Messages AgentTypes AgentEvents.
Local Open Scope Z_scope.

Section tools.
Context {X : Type} (cfg : AgentLoopConfig X).

(** AL 838-842 FinalizedToolCallOutcome. *)
Record FinalizedToolCallOutcome := { f_toolCall : ToolCall; f_result : AgentToolResult; f_isError : bool }.
(** AL 820-825 PreparedToolCall. *)
Record PreparedToolCall := { p_toolCall : ToolCall; p_tool : AgentTool X; p_args : args }.
(** AL 827-831 ImmediateToolCallOutcome. *)
Inductive Preparation := Prepared (p : PreparedToolCall) | Immediate (r : AgentToolResult) (isErr : bool).

(** AL 694-697 ExecutedToolCallBatch. *)
Record ExecutedToolCallBatch := { batch_messages : list ToolResultMessage; batch_terminate : bool }.

(** AL 846-848 shouldTerminateToolBatch. *)
Definition shouldTerminateToolBatch (finalized : list FinalizedToolCallOutcome) : bool :=
  negb (Nat.eqb (length finalized) 0) &&
  forallb (fun f => match terminate (f_result f) with Some b => b | None => false end) finalized.

(** AL 850-862 prepareToolCallArguments. *)
Definition prepareToolCallArguments (tool : AgentTool X) (toolCall : ToolCall) : ToolCall + thrown :=
  match prepareArguments tool with
  | None => inl toolCall
  | Some f =>
      match f (arguments toolCall) with
      | inl a => inl {| id := id toolCall; name := name toolCall; arguments := a;
                        thoughtSignature := thoughtSignature toolCall |}
      | inr e => inr e
      end
  end.

(** AL 871-871 prepareToolCall. *)
Definition find_tool (nm : jsstr) : option (AgentTool X) :=
  List.find (fun t => jseqb (tool_name t) nm) (tools cfg).

Definition of_sum {A} (r : A + thrown) : M X A := match r with inl a => mret a | inr e => throw e end.

(** AL 864-917 prepareToolCall. *)
Definition prepareToolCall (assistantMessage : AssistantMessage) (toolCall : ToolCall) : M X Preparation :=
  match find_tool (name toolCall) with
  | None => mret (Immediate (createErrorToolResult (js "Tool " ++ name toolCall ++ js " not found")) true)
  | Some tool =>
      try_catch
        (preparedToolCall ← of_sum (prepareToolCallArguments tool toolCall);
         validatedArgs ← of_sum (validateToolArguments cfg tool preparedToolCall);
         let prepared := Prepared {| p_toolCall := toolCall; p_tool := tool; p_args := validatedArgs |} in
         match beforeToolCall cfg with
         | None => mret prepared
         | Some hook =>
             ms ← gets context;
             beforeResult ← raceWithAbort (hook assistantMessage toolCall validatedArgs ms);
             match beforeResult with
             | Some b =>
                 if block b
                 then mret (Immediate (createErrorToolResult
                             (if truthy (reason b) then default [] (reason b) else js "Tool execution was blocked")) true)
                 else mret prepared
             | None => mret prepared
             end
         end)
        (fun e => mret (Immediate (createErrorToolResult (error_text e)) true))
  end.

(** AL 833-836 ExecutedToolCallOutcome. *)
Record ExecutedToolCallOutcome := { x_result : AgentToolResult; x_isError : bool }.

(** AL 975-1021 finalizeExecutedToolCall. *)
Definition finalizeExecutedToolCall (assistantMessage : AssistantMessage) (prepared : PreparedToolCall)
    (executed : ExecutedToolCallOutcome) : M X FinalizedToolCallOutcome :=
  let call := p_toolCall prepared in
  let result := x_result executed in
  match afterToolCall cfg with
  | None => mret {| f_toolCall := call; f_result := result; f_isError := x_isError executed |}
  | Some hook =>
      try_catch
        (ms ← gets context;
         afterResult ← raceWithAbort (hook assistantMessage call (p_args prepared) result (x_isError executed) ms);
         match afterResult with
         | Some a =>
             mret {| f_toolCall := call;
                     f_result := {| res_content := default (res_content result) (after_content a);
                                    res_details := match after_details a with Some d => Some d | None => res_details result end;
                                    terminate := match after_terminate a with Some t => Some t | None => terminate result end |};
                     f_isError := default (x_isError executed) (after_isError a) |}
         | None => mret {| f_toolCall := call; f_result := result; f_isError := x_isError executed |}
         end)
        (fun e => mret {| f_toolCall := call; f_result := createErrorToolResult (error_text e); f_isError := true |})
  end.

(** AL 1030-1038 emitToolExecutionEnd. *)
Definition emitToolExecutionEnd (f : FinalizedToolCallOutcome) : M X unit :=
  emit cfg (tool_execution_end (id (f_toolCall f)) (name (f_toolCall f)) (f_result f) (f_isError f)).

(** AL 1040-1050 createToolResultMessage. *)
Definition createToolResultMessage (f : FinalizedToolCallOutcome) (timestamp : Z) : ToolResultMessage :=
  {| toolCallId := id (f_toolCall f); toolName := name (f_toolCall f); t_content := res_content (f_result f);
     details := res_details (f_result f); isError := f_isError f; t_timestamp := timestamp |}.

(** AL 1052-1055 emitToolResultMessage. *)
Definition emitToolResultMessage (m : ToolResultMessage) : M X unit :=
  emit cfg (message_start (ToolResult m)) ;; emit cfg (message_end (ToolResult m)).

(** ** Threads *)

(** Where a prepared call is: its tool running (with what remains of it and the first error of a listener
    of its updates), waiting to be finalized, waiting for its end to be announced, or done. *)
Inductive thread :=
| TRunning (p : PreparedToolCall) (rest : list (X -> list AgentToolResult * bool * X))
           (fin : X -> reply X AgentToolResult) (updateError : option thrown)
| TExecuted (p : PreparedToolCall) (executed : ExecutedToolCallOutcome)
| TFinalized (f : FinalizedToolCallOutcome)
| TDone (f : FinalizedToolCallOutcome).

(** AL 960-972 executePreparedToolCall. The handler of a failed execution. *)
Definition failed_execution (e : thrown) : M X ExecutedToolCallOutcome :=
  ab ← gets aborted;
  mret {| x_result := createErrorToolResult (if ab : bool then js "Tool execution aborted" else error_text e);
          x_isError := true |}.

(** AL 927-930 executePreparedToolCall. Starting the tool. *)
Definition start_thread (p : PreparedToolCall) : M X thread :=
  try_catch
    (throwIfAborted ;;
     ex ← sync (fun x => let '(x', ex) := execute (p_tool p) (id (p_toolCall p)) (p_args p) x in (ex, x'));
     mret (TRunning p (chunks ex) (finish ex) None))
    (fun e => executed ← failed_execution e; mret (TExecuted p executed)).

(** AL 930-945 executePreparedToolCall. The callback for partial results. A listener's error is kept
    until the tool has settled. *)
Fixpoint publish (p : PreparedToolCall) (partials : list AgentToolResult) (err : option thrown) : M X (option thrown) :=
  match partials with
  | [] => mret err
  | r :: rest =>
      ab ← gets aborted;
      if ab : bool then publish p rest err
      else
        err' ← try_catch
          (emit cfg (tool_execution_update (id (p_toolCall p)) (name (p_toolCall p)) (arguments (p_toolCall p)) r) ;;
           mret err)
          (fun e => mret (Some (default e err)));
        publish p rest err'
  end.

(** AL 929-971 executePreparedToolCall. One step of a running tool. *)
Definition step_running (p : PreparedToolCall) (rest : list (X -> list AgentToolResult * bool * X))
    (fin : X -> reply X AgentToolResult) (err : option thrown) : M X thread :=
  try_catch
    (throwIfAborted ;;
     match rest with
     | chunk :: rest' =>
         piece ← (fun w => let '(partials, ab, x) := chunk (ext w) in (Ok (partials, ab), set_ext x false w));
         err' ← publish p piece.1 err;
         modify (fun w => set_ext (ext w) piece.2 w) ;;
         mret (TRunning p rest' fin err')
     | [] =>
         result ← raceWithAbort fin;
         ab ← gets aborted;
         match err with
         | Some e => if ab : bool then mret (TExecuted p {| x_result := result; x_isError := false |}) else throw e
         | None => mret (TExecuted p {| x_result := result; x_isError := false |})
         end
     end)
    (fun e => executed ← failed_execution e; mret (TExecuted p executed)).

Definition thread_step (am : AssistantMessage) (t : thread) : M X thread :=
  match t with
  | TRunning p rest fin err => step_running p rest fin err
  | TExecuted p executed => f ← finalizeExecutedToolCall am p executed; mret (TFinalized f)
  | TFinalized f => emitToolExecutionEnd f ;; mret (TDone f)
  | TDone f => mret (TDone f)
  end.

(** The steps a thread can still take. *)
Definition thread_size (t : thread) : nat :=
  match t with
  | TRunning _ rest _ _ => length rest + 3
  | TExecuted _ _ => 2
  | TFinalized _ => 1
  | TDone _ => 0
  end.

Fixpoint iterate (am : AssistantMessage) (n : nat) (t : thread) : M X thread :=
  match n with
  | O => mret t
  | S n => t' ← thread_step am t; iterate am n t'
  end.

(** Running a thread to its end. *)
Definition drain (am : AssistantMessage) (t : thread) : M X FinalizedToolCallOutcome :=
  t' ← iterate am (thread_size t) t;
  match t' with TDone f => mret f | _ => no_fuel end.

(** ** Batches *)

Definition start_event (c : ToolCall) : AgentEvent := tool_execution_start (id c) (name c) (arguments c).

(** AL 722-730 executeToolCallsSequential. The thread of a prepared call, and of one that is already
    decided. *)
Definition thread_of (c : ToolCall) (preparation : Preparation) : M X thread :=
  match preparation with
  | Immediate r e => mret (TFinalized {| f_toolCall := c; f_result := r; f_isError := e |})
  | Prepared p => start_thread p
  end.

(** AL 710-756 executeToolCallsSequential. The loop over the calls. *)
Fixpoint sequential_loop (am : AssistantMessage) (calls : list ToolCall)
    (finalized : list FinalizedToolCallOutcome) (messages : list ToolResultMessage) : M X ExecutedToolCallBatch :=
  let stop := mret {| batch_messages := messages; batch_terminate := shouldTerminateToolBatch finalized |} in
  match calls with
  | [] => stop
  | c :: rest =>
      ab ← gets aborted;
      if ab : bool then stop
      else
        emit cfg (start_event c) ;;
        preparation ← prepareToolCall am c;
        t ← thread_of c preparation;
        f ← drain am t;
        ts ← gets (fun w => now cfg (ext w));
        let m := createToolResultMessage f ts in
        emitToolResultMessage m ;;
        ab ← gets aborted;
        if ab : bool
        then mret {| batch_messages := messages ++ [m]; batch_terminate := shouldTerminateToolBatch (finalized ++ [f]) |}
        else sequential_loop am rest (finalized ++ [f]) (messages ++ [m])
  end.

(** AL 699-757 executeToolCallsSequential. *)
Definition executeToolCallsSequential (am : AssistantMessage) (calls : list ToolCall) : M X ExecutedToolCallBatch :=
  sequential_loop am calls [] [].

(** AL 844-844 FinalizedToolCallEntry. *)
Definition call_entry : Type := (FinalizedToolCallOutcome + PreparedToolCall)%type.

(** AL 769-802 executeToolCallsParallel. The preparation of the calls, in order. *)
Fixpoint prepare_all (am : AssistantMessage) (calls : list ToolCall) : M X (list call_entry) :=
  match calls with
  | [] => mret []
  | c :: rest =>
      emit cfg (start_event c) ;;
      preparation ← prepareToolCall am c;
      e ← match preparation with
          | Immediate r isErr =>
              let f := {| f_toolCall := c; f_result := r; f_isError := isErr |} in
              emitToolExecutionEnd f ;; mret (inl f)
          | Prepared p => mret (inr p)
          end;
      es ← prepare_all am rest;
      mret (e :: es)
  end.

(** AL 805-805 executeToolCallsParallel. The calls start in order. *)
Fixpoint start_all (entries : list call_entry) : M X (list thread) :=
  match entries with
  | [] => mret []
  | e :: rest =>
      t ← match e with inl f => mret (TDone f) | inr p => start_thread p end;
      ts ← start_all rest;
      mret (t :: ts)
  end.

(** AL 804-806 executeToolCallsParallel. The steps of the started calls, interleaved by a schedule. *)
Fixpoint run_schedule (am : AssistantMessage) (schedule : list nat) (pool : list thread) : M X (list thread) :=
  match schedule with
  | [] => mret pool
  | i :: rest =>
      match pool !! i with
      | Some t => t' ← thread_step am t; run_schedule am rest (<[i := t']> pool)
      | None => run_schedule am rest pool
      end
  end.

(** What the schedule leaves undone. *)
Fixpoint drain_all (am : AssistantMessage) (pool : list thread) : M X (list FinalizedToolCallOutcome) :=
  match pool with
  | [] => mret []
  | t :: rest => f ← drain am t; fs ← drain_all am rest; mret (f :: fs)
  end.

(** AL 807-812 executeToolCallsParallel. The messages, in source order. *)
Fixpoint emit_results (finalized : list FinalizedToolCallOutcome) : M X (list ToolResultMessage) :=
  match finalized with
  | [] => mret []
  | f :: rest =>
      ts ← gets (fun w => now cfg (ext w));
      let m := createToolResultMessage f ts in
      emitToolResultMessage m ;;
      ms ← emit_results rest;
      mret (m :: ms)
  end.

(** AL 759-818 executeToolCallsParallel. *)
Definition executeToolCallsParallel (am : AssistantMessage) (calls : list ToolCall) : M X ExecutedToolCallBatch :=
  entries ← prepare_all am calls;
  pool ← start_all entries;
  schedule ← gets (fun w => interleaving cfg (ext w));
  pool' ← run_schedule am schedule pool;
  finalized ← drain_all am pool';
  messages ← emit_results finalized;
  mret {| batch_messages := messages; batch_terminate := shouldTerminateToolBatch finalized |}.

(** AL 441-441 runLoop. The tool calls of a message. *)
Definition tool_calls (am : AssistantMessage) : list ToolCall :=
  omap (fun p => match p with AToolCall c => Some c | _ => None end) (a_content am).

(** AL 685-687 executeToolCalls. *)
Definition is_sequential (c : ToolCall) : bool :=
  match find_tool (name c) with
  | Some t => bool_decide (executionMode t = Some sequential)
  | None => false
  end.

(** AL 677-692 executeToolCalls. *)
Definition executeToolCalls (am : AssistantMessage) : M X ExecutedToolCallBatch :=
  let calls := tool_calls am in
  if bool_decide (toolExecution cfg = Some sequential) || existsb is_sequential calls
  then executeToolCallsSequential am calls
  else executeToolCallsParallel am calls.

End tools.

(** ** What the execution of tool calls keeps

    [tinv w0 ms r es w]: the world [w] is reached from [w0] within a turn, no message is open, the calls [r]
    are executing, and since [w0] the calls [es] have ended and [ms] was logged. [broken] is
    a world where a listener failed. *)

Section spec.
Context {X : Type} (cfg : AgentLoopConfig X) (w0 : world X) (ms : list entry).

Definition kept (w : world X) : Prop := context w = context w0 /\ newMessages w = newMessages w0.
Definition tinv (r : gmultiset jsstr) (es : list tool_end) (w : world X) : Prop :=
  stage_of (trace w) = Some (STurn false r) /\ ends (trace w) = ends (trace w0) ++ es /\
  log_of (trace w) = log_of (trace w0) ++ ms /\ kept w /\
  (aborted w0 = true -> aborted w = true).
Definition broken (o : option thrown) (w : world X) : Prop :=
  o <> None /\ listeners_fail cfg /\ is_Some (stage_of (trace w)) /\ kept w.

Lemma tinv_stable r es : stable (tinv r es).
Proof. intros x ab w (? & ? & ? & ? & Ha). split_and!; [done..|]. intros Hab. simpl. by rewrite Ha. Qed.

Definition ends_of (e : AgentEvent) : list tool_end := match ends1 e with Some x => [x] | None => [] end.

Lemma tinv_log e r s' es w : tinv r es w -> next_stage (STurn false r) e = Some s' ->
  stage_of (trace (log_event e w)) = Some s' /\ ends (trace (log_event e w)) = ends (trace w0) ++ es ++ ends_of e /\
  log_of (trace (log_event e w)) = log_of (trace w0) ++ ms ++ logged e /\
  kept (log_event e w) /\ (aborted w0 = true -> aborted (log_event e w) = true).
Proof.
  intros (Hs & He & Hm & Hk & Ha) Hn. split; [|split; [|split; [|done]]]; simpl.
  - by rewrite stage_of_snoc, Hs.
  - by rewrite ends_snoc, He, <- (assoc_L app).
  - by rewrite log_of_snoc, Hm, <- (assoc_L app).
Qed.

Lemma wp_emit_tinv e r r' es w (Q : unit -> world X -> Prop) : tinv r es w ->
  next_stage (STurn false r) e = Some (STurn false r') -> logged e = [] ->
  (forall w', tinv r' (es ++ ends_of e) w' -> Q tt w') -> wp (emit cfg e) Q broken w.
Proof.
  intros Hw Hn Hend HQ. destruct (tinv_log e r _ es w Hw Hn) as (Hs & He & Hm & Hk & Ha).
  rewrite Hend, app_nil_r in Hm. apply wp_emit.
  - intros x ab. apply HQ. apply tinv_stable. done.
  - intros Hf err x ab. split; [done|]. split; [done|]. split; [exact (mk_is_Some _ _ Hs)|exact Hk].
Qed.

(** A try block whose body cannot leave the invariant. *)
Lemma wp_try_tinv {A} (m : M X A) h r es w (Q : A -> world X -> Prop) E :
  tinv r es w -> wp m Q (fun o w' => o <> None /\ tinv r es w') w ->
  (forall e w', tinv r es w' -> wp (h e) Q E w') -> wp (try_catch m h) Q E w.
Proof.
  intros Hw Hm Hh. apply wp_catch. eapply wp_mono; [exact Hm|done|].
  intros [e|] w' [? Hw']; [by apply Hh|done].
Qed.

Lemma wp_of_sum {A} (v : A + thrown) (Q : A -> world X -> Prop) (E : option thrown -> world X -> Prop) w :
  (forall a, v = inl a -> Q a w) -> (forall e, E (Some e) w) -> wp (of_sum v) Q E w.
Proof. intros HQ HE. destruct v as [a|e]; [by apply HQ|by apply HE]. Qed.

Definition prepares (c : ToolCall) (p : @Preparation X) : Prop :=
  match p with Prepared p => p_toolCall p = c | Immediate _ _ => True end.

(** Preparing and finalizing a call never fail: what goes wrong there is an error result. *)
Lemma prepareToolCall_spec am c r es w E : tinv r es w ->
  wp (prepareToolCall cfg am c) (fun p w' => tinv r es w' /\ prepares c p) E w.
Proof.
  intros Hw. unfold prepareToolCall. destruct (find_tool cfg (name c)) as [tool|]; [|by apply wp_ret].
  eapply wp_try_tinv; [exact Hw| |intros e w' Hw'; by apply wp_ret].
  apply wp_bind, wp_of_sum; [|done]. intros pc _. apply wp_bind, wp_of_sum; [|done]. intros va _. cbv zeta.
  destruct (beforeToolCall cfg) as [hook|]; [|by apply wp_ret].
  apply wp_bind, wp_gets, wp_bind, wp_race.
  - intros b x ab _. pose proof (tinv_stable r es x ab w Hw).
    destruct b as [b|]; [destruct (block b)|]; by apply wp_ret.
  - intros e x ab. split; [done|]. by apply tinv_stable.
Qed.

Lemma finalize_spec am p ex r es w E : tinv r es w ->
  wp (finalizeExecutedToolCall cfg am p ex) (fun f w' => tinv r es w' /\ f_toolCall f = p_toolCall p) E w.
Proof.
  intros Hw. unfold finalizeExecutedToolCall. destruct (afterToolCall cfg) as [hook|]; [|by apply wp_ret].
  eapply wp_try_tinv; [exact Hw| |intros e w' Hw'; by apply wp_ret].
  apply wp_bind, wp_gets, wp_bind, wp_race.
  - intros b x ab _. pose proof (tinv_stable r es x ab w Hw). destruct b as [a|]; by apply wp_ret.
  - intros e x ab. split; [done|]. by apply tinv_stable.
Qed.

(** ** Threads *)

Definition thread_call (t : @thread X) : ToolCall :=
  match t with
  | TRunning p _ _ _ | TExecuted p _ => p_toolCall p
  | TFinalized f | TDone f => f_toolCall f
  end.

Lemma start_thread_spec p r es w E : tinv r es w ->
  wp (start_thread p) (fun t w' => tinv r es w' /\ thread_call t = p_toolCall p /\ (0 < thread_size t)%nat) E w.
Proof.
  intros Hw. unfold start_thread. eapply wp_try_tinv; [exact Hw| |].
  - apply wp_bind, wp_throwIfAborted; [|done]. intros _. apply wp_bind, wp_sync. intros ex x.
    apply wp_ret. split; [by apply tinv_stable|]. split; [done|]. simpl. lia.
  - intros e w' Hw'. apply wp_bind. apply wp_bind, wp_gets, wp_ret, wp_ret. split; [done|]. split; [done|]. simpl. lia.
Qed.

Lemma publish_spec p partials err r es w E : tinv r es w -> id (p_toolCall p) ∈ r ->
  wp (publish cfg p partials err) (fun _ w' => tinv r es w') E w.
Proof.
  revert err w. induction partials as [|res partials IH]; intros err w Hw Hin; simpl; [by apply wp_ret|].
  apply wp_bind, wp_gets. destruct (aborted w); [by apply IH|].
  assert (Hn : next_stage (STurn false r) (tool_execution_update (id (p_toolCall p)) (name (p_toolCall p))
    (arguments (p_toolCall p)) res) = Some (STurn false r)) by (simpl; by rewrite decide_True).
  apply wp_bind. apply wp_catch, wp_bind.
  pose proof (tinv_log _ _ _ _ _ Hw Hn) as Hl. rewrite !app_nil_r in Hl. apply wp_emit.
  - intros x ab. apply wp_ret, IH; [by apply tinv_stable|done].
  - intros _ err' x ab. apply wp_ret, IH; [by apply tinv_stable|done].
Qed.

(** The announced end of a finalized call. *)
Definition end_of (f : FinalizedToolCallOutcome) : tool_end :=
  (id (f_toolCall f), name (f_toolCall f), f_result f, f_isError f).
Definition ended (t : @thread X) : list tool_end := match t with TDone f => [end_of f] | _ => [] end.
Definition live (t : @thread X) : gmultiset jsstr :=
  match t with TDone _ => ∅ | _ => {[+ id (thread_call t) +]} end.

Lemma live_not_done t : (0 < thread_size t)%nat -> live t = {[+ id (thread_call t) +]} /\ ended t = [].
Proof. destruct t; simpl; auto; lia. Qed.

Lemma step_running_spec p rest fin err r es w E : tinv r es w -> id (p_toolCall p) ∈ r ->
  wp (step_running cfg p rest fin err)
     (fun t w' => tinv r es w' /\ thread_call t = p_toolCall p /\ (0 < thread_size t < length rest + 3)%nat) E w.
Proof.
  intros Hw Hin. unfold step_running. eapply wp_try_tinv; [exact Hw| |].
  - apply wp_bind, wp_throwIfAborted; [intros _|done]. destruct rest as [|chunk rest].
    + apply wp_bind, wp_race; [|intros; split; [done|by apply tinv_stable]].
      intros res x ab _. apply wp_bind, wp_gets. pose proof (tinv_stable r es x ab w Hw).
      destruct err; [|apply wp_ret; simpl; split_and!; try done; lia].
      destruct (aborted _); [apply wp_ret; simpl; split_and!; try done; lia|by apply wp_throw].
    + apply wp_bind. unfold wp at 1. destruct (chunk (ext w)) as [[partials ab] x].
      apply wp_bind. eapply wp_mono; [eapply publish_spec; [by apply tinv_stable|done]| |intros ? ? H; exact H].
      intros err' w' Hw'. apply wp_bind, wp_modify, wp_ret. split; [by apply tinv_stable|].
      simpl. split; [done|lia].
  - intros e w' Hw'. apply wp_bind, wp_bind, wp_gets, wp_ret, wp_ret. simpl. split_and!; try done; lia.
Qed.

Lemma thread_step_spec am t r es w : tinv (live t ⊎ r) es w -> (0 < thread_size t)%nat ->
  wp (thread_step cfg am t)
     (fun t' w' => thread_call t' = thread_call t /\ (thread_size t' < thread_size t)%nat /\
        tinv (live t' ⊎ r) (es ++ ended t') w') broken w.
Proof.
  intros Hw Hsz. destruct t as [p rest fin err|p ex|f|f]; simpl in *; [| | |lia].
  - eapply wp_mono; [eapply step_running_spec; [exact Hw|multiset_solver]| |intros ? ? H; exact H].
    intros t' w' (Hw' & Hc & Hpos & Hlt). destruct (live_not_done t') as [-> ->]; [done|].
    rewrite app_nil_r, Hc. done.
  - apply wp_bind. eapply wp_mono; [by eapply finalize_spec| |intros ? ? H; exact H].
    intros f w' [Hw' Hc]. apply wp_ret. simpl. rewrite app_nil_r, Hc. split_and!; [done|lia|done].
  - apply wp_bind. eapply wp_emit_tinv; [exact Hw|simpl; by rewrite decide_True by multiset_solver|done|].
    intros w' Hw'. apply wp_ret. simpl. split_and!; [done|lia|].
    eapply (eq_ind _ (fun r => tinv r _ w')); [exact Hw'|multiset_solver].
Qed.

Lemma iterate_spec am n t r es w : tinv (live t ⊎ r) es w -> (0 < thread_size t <= n)%nat ->
  wp (iterate cfg am n t)
     (fun t' w' => exists f, t' = TDone f /\ f_toolCall f = thread_call t /\ tinv r (es ++ [end_of f]) w') broken w.
Proof.
  revert t es w. induction n as [|n IH]; intros t es w Hw Hn; [lia|]. cbn [iterate].
  apply wp_bind. eapply wp_mono; [eapply thread_step_spec; [exact Hw|lia]| |intros ? ? H; exact H].
  intros t' w' (Hc & Hlt & Hw'). rewrite <- Hc.
  destruct (decide (thread_size t' = 0%nat)) as [Hz|].
  - destruct t' as [? rest ? ?| | |f]; simpl in Hz; try lia. simpl in Hw'.
    rewrite (left_id_L ∅ (⊎)) in Hw'.
    clear -Hw'. induction n as [|n IHn]; cbn [iterate]; [apply wp_ret; eauto|].
    apply wp_bind, wp_ret. exact IHn.
  - destruct (live_not_done t') as [_ He]; [lia|]. rewrite He, app_nil_r in Hw'. apply IH; [done|lia].
Qed.

Lemma drain_spec am t r es w : tinv (live t ⊎ r) es w ->
  wp (drain cfg am t)
     (fun f w' => f_toolCall f = thread_call t /\ exists es', tinv r es' w' /\ es' ++ ended t = es ++ [end_of f]) broken w.
Proof.
  intros Hw. unfold drain. destruct (decide (thread_size t = 0%nat)) as [Hz|Hz].
  - destruct t as [? rest ? ?| | |f]; simpl in Hz; try lia. simpl. apply wp_bind, wp_ret, wp_ret.
    split; [done|]. exists es. simpl in Hw. by rewrite (left_id_L ∅ (⊎)) in Hw.
  - apply wp_bind. eapply wp_mono; [eapply iterate_spec; [exact Hw|lia]| |intros ? ? H; exact H].
    intros t' w' (f & -> & Hc & Hw'). apply wp_ret. split; [done|]. exists (es ++ [end_of f]).
    destruct (live_not_done t) as [_ ->]; [lia|]. by rewrite app_nil_r.
Qed.

(** ** Batches *)

Lemma emit_tool_start_spec c r es w (Q : unit -> world X -> Prop) : tinv r es w ->
  (forall w', tinv ({[+ id c +]} ⊎ r) es w' -> Q tt w') -> wp (emit cfg (start_event c)) Q broken w.
Proof.
  intros Hw HQ. eapply wp_emit_tinv; [exact Hw|done|done|]. intros w' Hw'. apply HQ.
  by rewrite app_nil_r in Hw'.
Qed.

Lemma thread_of_spec c prep r es w E : tinv r es w -> prepares c prep ->
  wp (thread_of c prep) (fun t w' => tinv r es w' /\ thread_call t = c /\ (0 < thread_size t)%nat) E w.
Proof.
  intros Hw Hp. destruct prep as [p|res e]; simpl.
  - rewrite <- Hp. by apply start_thread_spec.
  - apply wp_ret. simpl. split_and!; [done..|lia].
Qed.

Definition entry_call (e : FinalizedToolCallOutcome + @PreparedToolCall X) : ToolCall :=
  match e with inl f => f_toolCall f | inr p => p_toolCall p end.
Definition entry_ended (e : FinalizedToolCallOutcome + @PreparedToolCall X) : list tool_end :=
  match e with inl f => [end_of f] | inr _ => [] end.
Definition entry_live (e : FinalizedToolCallOutcome + @PreparedToolCall X) : gmultiset jsstr :=
  match e with inl _ => ∅ | inr p => {[+ id (p_toolCall p) +]} end.

Definition union_of {A} (f : A -> gmultiset jsstr) (l : list A) : gmultiset jsstr := foldr (fun a r => f a ⊎ r) ∅ l.
Lemma union_of_cons {A} (f : A -> gmultiset jsstr) a l : union_of f (a :: l) = f a ⊎ union_of f l.
Proof. done. Qed.

Lemma prepare_all_spec am calls r es w : tinv r es w ->
  wp (prepare_all cfg am calls)
     (fun entries w' => entry_call <$> entries = calls /\
        tinv (union_of entry_live entries ⊎ r) (es ++ (entries ≫= entry_ended)) w') broken w.
Proof.
  revert r es w. induction calls as [|c calls IH]; intros r es w Hw; cbn [prepare_all].
  { apply wp_ret. simpl. rewrite app_nil_r. by rewrite (left_id_L ∅ (⊎)). }
  apply wp_bind, (emit_tool_start_spec c r es w); [done|]. intros w1 Hw1.
  apply wp_bind. eapply wp_mono; [by eapply prepareToolCall_spec| |intros ? ? H; exact H].
  intros prep w2 [Hw2 Hp]. apply wp_bind.
  eapply (wp_mono _ (fun e w' => entry_call e = c /\ tinv (entry_live e ⊎ r) (es ++ entry_ended e) w') _ broken).
  - destruct prep as [p|res b]; simpl in Hp.
    + apply wp_ret. simpl. rewrite app_nil_r, Hp. done.
    + apply wp_bind. eapply wp_emit_tinv; [exact Hw2|simpl; by rewrite decide_True by multiset_solver|done|].
      intros w3 Hw3. apply wp_ret. split; [done|]. simpl.
      eapply (eq_ind _ (fun r => tinv r _ w3)); [exact Hw3|multiset_solver].
  - intros e w3 [Hc Hw3]. apply wp_bind. eapply wp_mono; [by eapply IH| |intros ? ? H; exact H].
    intros entries w4 [Hcs Hw4]. apply wp_ret. rewrite fmap_cons, Hc, Hcs. split; [done|].
    rewrite bind_cons, (assoc_L app), union_of_cons, (comm_L (⊎) (entry_live e)), <- (assoc_L (⊎)). done.
  - intros ? ? H; exact H.
Qed.

Lemma start_all_spec entries r es w E : tinv r es w ->
  wp (start_all entries)
     (fun pool w' => thread_call <$> pool = entry_call <$> entries /\ union_of live pool = union_of entry_live entries /\
        (pool ≫= ended) = (entries ≫= entry_ended) /\ tinv r es w') E w.
Proof.
  revert w. induction entries as [|e entries IH]; intros w Hw; cbn [start_all]; [by apply wp_ret|].
  apply wp_bind. eapply (wp_mono _ (fun t w' => thread_call t = entry_call e /\ live t = entry_live e /\
    ended t = entry_ended e /\ tinv r es w')).
  - destruct e as [f|p]; [by apply wp_ret|]. eapply wp_mono; [by eapply start_thread_spec| |intros ? ? H; exact H].
    intros t w' (Hw' & Hc & Hpos). destruct (live_not_done t Hpos) as [Hl He]. by rewrite Hl, He, Hc.
  - intros t w1 (Hc & Hl & He & Hw1). apply wp_bind. eapply wp_mono; [by eapply IH| |intros ? ? H; exact H].
    intros pool w2 (Hcs & Hls & Hes & Hw2). apply wp_ret. split_and!; try done.
    + by rewrite !fmap_cons, Hc, Hcs.
    + by rewrite !union_of_cons, Hl, Hls.
    + by rewrite !bind_cons, He, Hes.
  - intros ? ? H; exact H.
Qed.

Lemma union_of_middle {A} (f : A -> gmultiset jsstr) l a l' : union_of f (l ++ a :: l') = f a ⊎ union_of f (l ++ l').
Proof.
  induction l as [|b l IH]; [done|]. cbn [app]. rewrite !union_of_cons, IH.
  by rewrite (assoc_L (⊎)), (comm_L (⊎) (f b)), <- (assoc_L (⊎)).
Qed.

(** A pool of threads: the calls not yet done are executing, and the ends of the others are announced. *)
Definition pool_ok (pool : list (@thread X)) (w : world X) : Prop :=
  exists es, es ≡ₚ pool ≫= ended /\ tinv (union_of live pool) es w.

Lemma thread_done_step am t : thread_size t = 0%nat -> thread_step cfg am t = mret t.
Proof. destruct t as [? rest ? ?| | |]; simpl; try lia; done. Qed.

Lemma pool_step am pool i t w : pool !! i = Some t -> pool_ok pool w ->
  wp (thread_step cfg am t)
     (fun t' w' => thread_call <$> <[i := t']> pool = thread_call <$> pool /\ pool_ok (<[i := t']> pool) w') broken w.
Proof.
  intros Hi (es & Hes & Hw). destruct (decide (thread_size t = 0%nat)) as [Hz|Hz].
  { rewrite thread_done_step by done. apply wp_ret. rewrite list_insert_id by done. split; [done|by exists es]. }
  destruct (live_not_done t) as [_ He]; [lia|].
  rewrite <- (take_drop_middle pool i t Hi) in Hes, Hw.
  set (l1 := take i pool) in *. set (l2 := drop (S i) pool) in *. rewrite union_of_middle in Hw.
  eapply wp_mono; [eapply thread_step_spec; [exact Hw|lia]| |intros ? ? H; exact H].
  intros t' w' (Hc & _ & Hw').
  assert (Hpool : <[i := t']> pool = l1 ++ t' :: l2).
  { apply insert_take_drop. by eapply lookup_lt_Some. }
  rewrite Hpool. split.
  - rewrite <- (take_drop_middle pool i t Hi). fold l1 l2. rewrite !fmap_app, !fmap_cons. by rewrite Hc.
  - exists (es ++ ended t'). rewrite union_of_middle. split; [|done].
    rewrite Hes, !bind_app, !bind_cons, He. simpl. solve_Permutation.
Qed.

Lemma run_schedule_spec am schedule pool w : pool_ok pool w ->
  wp (run_schedule cfg am schedule pool)
     (fun pool' w' => thread_call <$> pool' = thread_call <$> pool /\ pool_ok pool' w') broken w.
Proof.
  revert pool w. induction schedule as [|i schedule IH]; intros pool w Hw; cbn [run_schedule]; [by apply wp_ret|].
  destruct (pool !! i) as [t|] eqn:Hi; [|by apply IH].
  apply wp_bind. eapply wp_mono; [by eapply pool_step| |intros ? ? H; exact H].
  intros t' w' [Hc Hw']. eapply wp_mono; [by apply IH| |intros ? ? H; exact H].
  intros pool' w2 [Hc' Hw2]. split; [by rewrite Hc'|done].
Qed.

Lemma drain_all_spec am pool es w : tinv (union_of live pool) es w ->
  wp (drain_all cfg am pool)
     (fun fs w' => f_toolCall <$> fs = thread_call <$> pool /\
        exists es', tinv ∅ es' w' /\ es' ++ (pool ≫= ended) ≡ₚ es ++ (end_of <$> fs)) broken w.
Proof.
  revert es w. induction pool as [|t pool IH]; intros es w Hw; cbn [drain_all].
  { apply wp_ret. split; [done|]. by exists es. }
  apply wp_bind. eapply wp_mono; [by eapply drain_spec| |intros ? ? H; exact H].
  intros f w1 (Hf & es1 & Hw1 & Hes1). apply wp_bind.
  eapply wp_mono; [by eapply IH| |intros ? ? H; exact H]. intros fs w2 (Hfs & es2 & Hw2 & Hes2).
  apply wp_ret. rewrite !fmap_cons, Hf, Hfs. split; [done|]. exists es2. split; [done|].
  rewrite bind_cons. transitivity ((es2 ++ (pool ≫= ended)) ++ ended t); [solve_Permutation|].
  rewrite Hes2. transitivity ((es1 ++ ended t) ++ (end_of <$> fs)); [solve_Permutation|].
  rewrite Hes1. solve_Permutation.
Qed.

End spec.

Section batches.
Context {X : Type} (cfg : AgentLoopConfig X) (w0 : world X).

Lemma emit_message_spec m ms es w : tinv w0 ms ∅ es w ->
  wp (emit cfg (message_start m) ;; emit cfg (message_end m)) (fun _ w' => tinv w0 (ms ++ [Said m]) ∅ es w') (broken cfg w0) w.
Proof.
  intros Hw. destruct (tinv_log w0 ms (message_start m) ∅ (STurn true ∅) es w Hw eq_refl) as (Hs & He & Hm & Hk & Ha).
  apply wp_bind, wp_emit.
  - intros x ab. set (w1 := set_ext x ab _). assert (Hs1 : stage_of (trace (log_event (message_end m) w1)) = Some (STurn false ∅)).
    { simpl. rewrite stage_of_snoc. simpl in Hs. by rewrite Hs. }
    assert (Hk1 : kept w0 (log_event (message_end m) w1)) by done.
    apply wp_emit.
    + intros x' ab'. split; [done|]. simpl in He, Hm, Ha. split; [|split; [|split; [done|]]]; simpl.
      * by rewrite ends_snoc, He, !app_nil_r.
      * by rewrite log_of_snoc, Hm, app_nil_r, <- (assoc_L app).
      * intros Hab. by rewrite Ha.
    + intros Hf err x' ab'. split; [done|]. split; [done|]. split; [exact (mk_is_Some _ _ Hs1)|done].
  - intros Hf err x ab. split; [done|]. split; [done|]. split; [exact (mk_is_Some _ _ Hs)|done].
Qed.

(** A tool result that reports a finalized call. *)
Definition reports (f : FinalizedToolCallOutcome) (m : ToolResultMessage) : Prop :=
  exists ts, m = createToolResultMessage f ts.

(** What a batch returns: the results of the calls, in their order (of the first calls only, if the run was
    aborted), its ends announced, in whatever order. *)
Definition batch_ok (calls : list ToolCall) (b : ExecutedToolCallBatch) (w : world X) : Prop :=
  exists fs es, f_toolCall <$> fs = take (length fs) calls /\
    (aborted w = false -> length fs = length calls) /\
    Forall2 reports fs (batch_messages b) /\ batch_terminate b = shouldTerminateToolBatch fs /\
    es ≡ₚ end_of <$> fs /\ tinv w0 ((Said ∘ ToolResult) <$> batch_messages b) ∅ es w.

Lemma sequential_loop_spec am calls fs ms es w :
  tinv w0 ((Said ∘ ToolResult) <$> ms) ∅ es w -> es ≡ₚ end_of <$> fs -> Forall2 reports fs ms ->
  wp (sequential_loop cfg am calls fs ms)
     (fun b w' => batch_ok ((f_toolCall <$> fs) ++ calls) b w') (broken cfg w0) w.
Proof.
  revert fs ms es w. induction calls as [|c calls IH]; intros fs ms es w Hw Hes Hms; cbn [sequential_loop].
  { apply wp_ret. exists fs, es. rewrite app_nil_r, length_fmap, firstn_all2 by (by rewrite length_fmap). done. }
  assert (Hstop : forall w, tinv w0 ((Said ∘ ToolResult) <$> ms) ∅ es w -> aborted w = true ->
    batch_ok ((f_toolCall <$> fs) ++ c :: calls)
      {| batch_messages := ms; batch_terminate := shouldTerminateToolBatch fs |} w).
  { intros w1 Hw1 Hab. exists fs, es. rewrite take_app_length' by (by rewrite length_fmap).
    split_and!; try done. by rewrite Hab. }
  apply wp_bind, wp_gets. destruct (aborted w) eqn:Eab; [apply wp_ret; by apply Hstop|].
  apply wp_bind, (emit_tool_start_spec cfg w0 ((Said ∘ ToolResult) <$> ms) c ∅ es w); [done|]. intros w1 Hw1.
  apply wp_bind. eapply wp_mono; [by eapply prepareToolCall_spec| |intros ? ? H; exact H].
  intros prep w2 [Hw2 Hp]. apply wp_bind.
  eapply wp_mono; [by eapply thread_of_spec| |intros ? ? H; exact H].
  intros t w3 (Hw3 & Hc & Hpos). apply wp_bind. destruct (live_not_done t Hpos) as [Hl He].
  eapply wp_mono; [apply (drain_spec cfg w0 ((Said ∘ ToolResult) <$> ms) am t ∅ es); by rewrite Hl, Hc| |intros ? ? H; exact H].
  intros f w4 (Hf & es' & Hw4 & Hes'). rewrite He, app_nil_r in Hes'. subst es'.
  apply wp_bind, wp_gets. cbv zeta. apply wp_bind.
  eapply wp_mono; [by eapply emit_message_spec| |intros ? ? H; exact H]. intros [] w5 Hw5.
  set (m := createToolResultMessage f _) in *.
  change (tinv w0 (((Said ∘ ToolResult) <$> ms) ++ ((Said ∘ ToolResult) <$> [m])) ∅ (es ++ [end_of f]) w5) in Hw5.
  rewrite <- fmap_app in Hw5.
  apply wp_bind, wp_gets.
  assert (Hes5 : es ++ [end_of f] ≡ₚ end_of <$> fs ++ [f]) by (rewrite fmap_app, Hes; done).
  assert (Hms5 : Forall2 reports (fs ++ [f]) (ms ++ [m])).
  { apply Forall2_app; [done|]. constructor; [by eexists|constructor]. }
  assert (Hcalls : (f_toolCall <$> fs) ++ c :: calls = (f_toolCall <$> fs ++ [f]) ++ calls).
  { rewrite fmap_app, <- (assoc_L app). simpl. by rewrite Hf, Hc. }
  rewrite Hcalls. destruct (aborted w5) eqn:Eab5; [|by eapply IH].
  apply wp_ret. exists (fs ++ [f]), (es ++ [end_of f]).
  rewrite take_app_length' by (by rewrite length_fmap). split_and!; try done. by rewrite Eab5.
Qed.

Lemma emit_results_spec fs ms es w : tinv w0 ms ∅ es w ->
  wp (emit_results cfg fs) (fun rs w' => Forall2 reports fs rs /\ tinv w0 (ms ++ ((Said ∘ ToolResult) <$> rs)) ∅ es w') (broken cfg w0) w.
Proof.
  revert ms w. induction fs as [|f fs IH]; intros ms w Hw; cbn [emit_results].
  { apply wp_ret. split; [constructor|]. by rewrite app_nil_r. }
  apply wp_bind, wp_gets. cbv zeta. apply wp_bind.
  eapply wp_mono; [by eapply emit_message_spec| |intros ? ? H; exact H]. intros [] w1 Hw1. apply wp_bind.
  eapply wp_mono; [by eapply IH| |intros ? ? H; exact H]. intros rs w2 [Hrs Hw2]. apply wp_ret.
  split; [constructor; [by eexists|done]|]. by rewrite <- (assoc_L app) in Hw2.
Qed.

(** A concurrent batch answers every call, aborted or not. *)
Lemma executeToolCallsParallel_spec am calls w : tinv w0 [] ∅ [] w ->
  wp (executeToolCallsParallel cfg am calls)
     (fun b w' => batch_ok calls b w' /\ length (batch_messages b) = length calls) (broken cfg w0) w.
Proof.
  intros Hw. unfold executeToolCallsParallel. apply wp_bind.
  eapply wp_mono; [by eapply prepare_all_spec| |intros ? ? H; exact H]. intros entries w1 [Hc1 Hw1].
  rewrite (right_id_L ∅ (⊎)) in Hw1. simpl in Hw1.
  apply wp_bind. eapply wp_mono; [by eapply start_all_spec| |intros ? ? H; exact H].
  intros pool w2 (Hc2 & Hl2 & He2 & Hw2). apply wp_bind, wp_gets, wp_bind.
  eapply wp_mono; [apply run_schedule_spec| |intros ? ? H; exact H].
  { exists (entries ≫= entry_ended). rewrite He2. split; [done|]. by rewrite Hl2. }
  intros pool' w3 (Hc3 & es3 & Hes3 & Hw3). apply wp_bind.
  eapply wp_mono; [by eapply drain_all_spec| |intros ? ? H; exact H]. intros fs w4 (Hc4 & es4 & Hw4 & Hes4).
  apply wp_bind. eapply wp_mono; [by eapply emit_results_spec| |intros ? ? H; exact H].
  intros ms w5 [Hms Hw5]. apply wp_ret.
  assert (Hcalls : f_toolCall <$> fs = calls) by (by rewrite Hc4, Hc3, Hc2).
  assert (Hlen : length fs = length calls) by (by rewrite <- Hcalls, length_fmap).
  split; [|simpl; by rewrite <- (Forall2_length _ _ _ Hms)].
  exists fs, es4. rewrite Hlen, firstn_all. split_and!; try done.
  rewrite Hes3, (comm (++)) in Hes4. by apply Permutation_app_inv_l in Hes4.
Qed.

Lemma executeToolCalls_spec am w : tinv w0 [] ∅ [] w ->
  wp (executeToolCalls cfg am) (fun b w' => batch_ok (tool_calls am) b w') (broken cfg w0) w.
Proof.
  intros Hw. unfold executeToolCalls. destruct (_ || _).
  - apply (sequential_loop_spec am _ [] [] []); [done|done|constructor].
  - eapply wp_mono; [by apply executeToolCallsParallel_spec|by intros b w' [? _]|intros ? ? H; exact H].
Qed.
End batches.

(** ** What a turn's tool calls come to *)

Lemma shouldTerminate_ends fs es : es ≡ₚ end_of <$> fs ->
  shouldTerminateToolBatch fs = true <->
    es <> [] /\ Forall (fun e : tool_end => terminate e.1.2 = Some true) es.
Proof.
  intros Hes. unfold shouldTerminateToolBatch. rewrite andb_true_iff, forallb_forall.
  assert (Hne : negb (length fs =? 0)%nat = true <-> es <> []).
  { rewrite negb_true_iff, Nat.eqb_neq, <- (length_fmap end_of fs), <- Hes. destruct es; simpl; naive_solver lia. }
  rewrite Hne. apply and_iff_compat_l. rewrite Hes, Forall_fmap, List.Forall_forall.
  split; intros H f Hf; specialize (H f Hf); simpl in *.
  - destruct (terminate _) as [[]|]; congruence.
  - by rewrite H.
Qed.

(** C5. The tool calls of a message are answered in the order of the message: every result carries the id
    and the name of its call, all calls are answered unless the run was aborted, and the executions
    announced as ended are those of the results. An exception escapes only when a listener throws. *)
Theorem executeToolCalls_answers {X : Type} (cfg : AgentLoopConfig X) (am : AssistantMessage) (w : world X)
    (Hturn : stage_of (trace w) = Some (STurn false ∅)) :
  match executeToolCalls cfg am w with
  | (Ok b, w') =>
      (exists n, (fun m => (toolCallId m, Messages.toolName m)) <$> batch_messages b =
                   take n ((fun c => (id c, name c)) <$> tool_calls am) /\
                 (aborted w' = false -> n = length (tool_calls am))) /\
      (exists es, ends (trace w') = ends (trace w) ++ es /\
         (fun e : tool_end => (e.1.1.1, e.1.1.2, res_content e.1.2, e.2)) <$> es ≡ₚ
         (fun m => (toolCallId m, Messages.toolName m, t_content m, isError m)) <$> batch_messages b) /\
      stage_of (trace w') = Some (STurn false ∅)
  | (Throw _, _) => listeners_fail cfg
  | (NoFuel, _) => False
  end.
Proof.
  assert (Hw : tinv w [] ∅ [] w) by (split; [done|]; rewrite !app_nil_r; done).
  pose proof (executeToolCalls_spec cfg w am w Hw) as H. unfold wp in H.
  destruct (executeToolCalls cfg am w) as [[b|e|] w'].
  - destruct H as (fs & es & Hfs & Hall & Hms & _ & Hes & Hs & He & _). split; [|split; [|done]].
    + exists (length fs). split; [|done].
      rewrite <- fmap_take, <- Hfs. clear -Hms. induction Hms as [|f m fs ms [ts ->] _ IH]; [done|].
      rewrite !fmap_cons. by rewrite IH.
    + exists es. split; [done|]. rewrite Hes. apply eq_subrelation; [apply _|]. clear -Hms.
      induction Hms as [|f m fs ms [ts ->] _ IH]; [done|]. rewrite !fmap_cons. by rewrite IH.
  - by destruct H as (_ & ? & _).
  - by destruct H as [? _].
Qed.

(** A batch ends the run of tool calls exactly when it ran at least one call and each of its ended calls
    asked to terminate. *)
Theorem executeToolCalls_terminate {X : Type} (cfg : AgentLoopConfig X) (am : AssistantMessage) (w w' : world X)
    (b : ExecutedToolCallBatch) (Hturn : stage_of (trace w) = Some (STurn false ∅))
    (Hrun : executeToolCalls cfg am w = (Ok b, w')) :
  exists es, ends (trace w') = ends (trace w) ++ es /\
    (batch_terminate b = true <-> es <> [] /\ Forall (fun e : tool_end => terminate e.1.2 = Some true) es).
Proof.
  assert (Hw : tinv w [] ∅ [] w) by (split; [done|]; rewrite !app_nil_r; done).
  pose proof (executeToolCalls_spec cfg w am w Hw) as H. unfold wp in H. rewrite Hrun in H.
  destruct H as (fs & es & _ & _ & _ & -> & Hes & _ & He & _). exists es. split; [done|].
  by apply shouldTerminate_ends.
Qed.

(** ** A run of concrete tools

    The outside of the example is the script of the provider: the messages it answers with. *)

Definition ok {X A : Type} (a : A) (x : X) : reply X A := {| r_value := Fulfilled a; r_abort := false; r_ext := x |}.

Definition script : Type := list AssistantMessage.

(** A tool that publishes one partial result and returns its own name. *)
Definition echo_tool (nm : string) (mode : option ToolExecutionMode) (term : option bool) : AgentTool script :=
  let res t := {| res_content := [PText (mkText t)]; res_details := None; terminate := term |} in
  {| tool_name := js nm; executionMode := mode; prepareArguments := None;
     execute := fun _ _ x => (x, {| chunks := [fun x => ([res (js "partial")], false, x)];
                                    finish := ok (res (js nm)) |}) |}.

(** A tool that never settles by itself: the signal preempts it. *)
Definition stuck_tool (nm : string) : AgentTool script :=
  {| tool_name := js nm; executionMode := None; prepareArguments := None;
     execute := fun _ _ x => (x, {| chunks := [];
       finish := fun x => {| r_value := Preempted; r_abort := true; r_ext := x |} |}) |}.

Definition blank (ps : list AssistantPart) (reason : StopReason) : AssistantMessage :=
  {| a_content := ps; api := []; provider := []; model := []; usage := emptyUsage; stopReason := reason;
     errorMessage := None; a_timestamp := 0 |}.

Definition call_part (i nm : string) : AssistantPart :=
  AToolCall {| id := js i; name := js nm; arguments := []; thoughtSignature := None |}.

Definition scripted_stream (_ : LlmContext script) (x : script) : reply script (response script) :=
  let m := default (blank [] Stop) (head x) in
  ok {| pulls := [ok (EStart m); ok (EDelta text_delta m); ok (EDone m)]; response_result := ok m |} (tail x).

Definition example_cfg (mode : option ToolExecutionMode) (schedule : list nat) : AgentLoopConfig script :=
  {| model_id := []; model_api := []; model_provider := []; systemPrompt := [];
     tools := [echo_tool "a" None None; echo_tool "b" None None; echo_tool "end" None (Some true); stuck_tool "stuck"];
     transformContext := None; convertToLlm := fun ms => ok (omap (fun m => match m with
       | User u => Some (LUser u) | Assistant a => Some (LAssistant a) | ToolResult t => Some (LToolResult t)
       | _ => None end) ms);
     getSystemPrompt := None; getApiKey := None; apiKey := None; streamFunction := scripted_stream;
     shouldStopAfterTurn := None; shouldStopBeforeTurn := None; getSteeringMessages := None;
     getFollowUpMessages := None; getContinuationMessages := None; preTurnRouter := None;
     maxConsecutiveReflexes := None; toolExecution := mode; beforeToolCall := None; afterToolCall := None;
     validateToolArguments := fun _ c => inl (arguments c);
     listener := fun _ x => {| e_error := None; e_abort := false; e_ext := x |};
     now := fun _ => 0; randomUUID := fun x => (js "uuid", x); interleaving := fun _ => schedule |}.

Definition in_turn (x : script) : world script :=
  {| aborted := false; trace := [agent_start; turn_start]; context := []; newMessages := []; partialMessage := None; ext := x |}.

Definition two_calls : AssistantMessage := blank [call_part "1" "a"; call_part "2" "b"; call_part "3" "missing"] ToolUse.

(** The second call ends first under this schedule; the results keep the order of the message. *)
Example parallel_order :
  let '(o, w) := executeToolCalls (example_cfg None [1; 1; 1; 1; 0; 1]%nat) two_calls (in_turn []) in
  (fun e : tool_end => e.1.1.1) <$> ends (trace w) = [js "3"; js "2"; js "1"] /\
  match o with Ok b => toolCallId <$> batch_messages b = [js "1"; js "2"; js "3"] | _ => False end.
Proof. by vm_compute. Qed.

Lemma executeToolCalls_answers_witness :
  stage_of (trace (in_turn [])) = Some (STurn false ∅) /\
  match executeToolCalls (example_cfg None []) two_calls (in_turn []) with
  | (Ok b, w') => stage_of (trace w') = Some (STurn false ∅)
  | _ => False
  end.
Proof.
  pose proof (executeToolCalls_answers (example_cfg None []) two_calls (in_turn []) eq_refl) as H.
  split; [reflexivity|].
  destruct (executeToolCalls (example_cfg None []) two_calls (in_turn [])) as [[b|e|] w'].
  - exact (proj2 (proj2 H)).
  - destruct H as (e' & x & He). exact (He eq_refl).
  - exact H.
Defined.

Definition ending_call : AssistantMessage := blank [call_part "1" "end"] ToolUse.

Lemma executeToolCalls_terminate_witness :
  exists b w', executeToolCalls (example_cfg (Some sequential) []) ending_call (in_turn []) = (Ok b, w') /\
    batch_terminate b = true /\
    exists es, ends (trace w') = ends (trace (in_turn [])) ++ es /\
      (batch_terminate b = true <-> es <> [] /\ Forall (fun e : tool_end => terminate e.1.2 = Some true) es).
Proof.
  eexists _, _. split; [vm_compute; reflexivity|]. split; [reflexivity|].
  apply (executeToolCalls_terminate (example_cfg (Some sequential) []) ending_call (in_turn [])); [reflexivity|].
  vm_compute; reflexivity.
Defined.
