(* ===== verification/AgentLoop.v ===== *)
(** * The agent loop (packages/agent/src/agent-loop.ts)

    Streaming one assistant response, one turn, what happens between turns,
    and the run. [run_from] is the two nested loops of [runLoop]; its fuel
    counts iterations of the inner and outer loop together. *)

(* Source aliases:
   AL = src/packages/agent/src/agent-loop.ts *)

From stdpp Require Import gmultiset.
From S2P Require Import Prelude JsString JsNumber Messages Jev AgentTypes AgentEvents AgentTools.
Local Open Scope Z_scope.

Section loop.
Context {X : Type} (cfg : AgentLoopConfig X).

(** AL 135-150 createAbortedAssistantMessage. *)
Definition createAbortedAssistantMessage (partial : option AssistantMessage) (timestamp : Z) : AssistantMessage :=
  {| a_content := match partial with Some p => a_content p | None => [AText (mkText [])] end;
     api := match partial with Some p => api p | None => model_api cfg end;
     provider := match partial with Some p => provider p | None => model_provider cfg end;
     model := match partial with Some p => model p | None => model_id cfg end;
     usage := match partial with Some p => usage p | None => emptyUsage end;
     stopReason := Aborted; errorMessage := Some ABORT_ERROR_MESSAGE; a_timestamp := timestamp |}.

(** AL 646-655 streamAssistantResponse. The final message takes the place of the partial one; it is
    announced as started when no partial message was. *)
Definition finish_message (final : AssistantMessage) : M X AssistantMessage :=
  partial ← gets partialMessage;
  match partial with
  | Some _ => replace_last (Assistant final)
  | None => push_context (Assistant final) ;; emit cfg (message_start (Assistant final))
  end ;;
  emit cfg (message_end (Assistant final)) ;;
  mret final.

(** AL 552-562 streamAssistantResponse.finishAbortedMessage. *)
Definition finishAbortedMessage : M X AssistantMessage :=
  partial ← gets partialMessage;
  ts ← gets (fun w => now cfg (ext w));
  finish_message (createAbortedAssistantMessage partial ts).

(** AL 598-668 streamAssistantResponse. The loop over the events of the response. *)
Fixpoint stream_loop (resp : response X) (todo : list (X -> reply X AssistantMessageEvent)) : M X AssistantMessage :=
  match todo with
  | [] => final ← raceWithAbort (response_result resp); finish_message final
  | next :: rest =>
      event ← raceWithAbort next;
      match event with
      | EStart p =>
          modify (set_partialMessage (Some p)) ;;
          push_context (Assistant p) ;;
          emit cfg (message_start (Assistant p)) ;;
          stream_loop resp rest
      | EDelta _ p =>
          partial ← gets partialMessage;
          match partial with
          | Some _ =>
              modify (set_partialMessage (Some p)) ;;
              replace_last (Assistant p) ;;
              emit cfg (message_update (Assistant p) event)
          | None => mret tt
          end ;;
          stream_loop resp rest
      | EDone m | EError m =>
          final ← try_catch (raceWithAbort (response_result resp))
            (fun e => ab ← gets aborted; if negb ab || negb (isAbortError e) then throw e else mret m);
          finish_message final
      end
  end.

(** AL 564-593 streamAssistantResponse. The request. *)
Definition open_response : M X (response X) :=
  throwIfAborted ;;
  ms ← gets context;
  messages ← match transformContext cfg with
             | Some f => raceWithAbort (f ms)
             | None => mret ms
             end;
  llmMessages ← raceWithAbort (convertToLlm cfg messages);
  key ← match getApiKey cfg with
        | Some f => raceWithAbort (f (model_provider cfg))
        | None => mret None
        end;
  prompt ← gets (fun w => match getSystemPrompt cfg with Some f => f (ext w) | None => systemPrompt cfg end);
  raceWithAbort (streamFunction cfg
    {| llm_systemPrompt := prompt; llm_messages := llmMessages; llm_tools := tools cfg;
       llm_apiKey := if truthy key then key else apiKey cfg |}).

(** AL 543-675 streamAssistantResponse. *)
Definition streamAssistantResponse : M X AssistantMessage :=
  modify (set_partialMessage None) ;;
  try_catch
    (resp ← open_response; stream_loop resp (pulls resp))
    (fun e => ab ← gets aborted; if ab && isAbortError e then finishAbortedMessage else throw e).

(** ** Turns *)

(** AL 360-371 runLoop. The variables of the loop. [lastTurn] keeps the message and the results; the
    arrays it refers to are the current ones. *)
Record locals := {
  firstTurn : bool; lastTurn : option (AssistantMessage * list ToolResultMessage); turnIndex : Z;
  consecutiveReflexes : Z; pendingMessages : list AgentMessage; hasMoreToolCalls : bool }.

Inductive progress := Next (l : locals) | Ended.

(** AL 364-364 runLoop. *)
Definition max_reflexes : Z := default DEFAULT_MAX_CONSECUTIVE_REFLEXES (maxConsecutiveReflexes cfg).

Definition end_run : M X progress :=
  ms ← gets newMessages; emit cfg (agent_end ms) ;; mret Ended.

(** AL 311-329 createReflexAssistantMessage. *)
Definition createReflexAssistantMessage (r : PreTurnReflex) (uuid : jsstr) (timestamp : Z) : AssistantMessage :=
  {| a_content := [AToolCall {| id := js "reflex-" ++ uuid; name := r_toolName r;
                                arguments := default [] (r_arguments r); thoughtSignature := None |}];
     api := model_api cfg; provider := model_provider cfg; model := model_id cfg; usage := emptyUsage;
     stopReason := ToolUse; errorMessage := None; a_timestamp := timestamp |}.

(** AL 331-350 resolvePreTurnReflex. *)
Definition resolvePreTurnReflex (index consecutive : Z) : M X (option PreTurnReflex) :=
  match preTurnRouter cfg with
  | None => mret None
  | Some router =>
      try_catch (ms ← gets context; raceWithAbort (router index consecutive ms)) (fun _ => mret None)
  end.

(** AL 367-367 runLoop.shouldStopBeforeTurn. *)
Definition shouldStop (l : locals) : M X bool :=
  if firstTurn l then mret false
  else match shouldStopBeforeTurn cfg with
       | Some f => sync f
       | None => mret false
       end.

(** AL 414-418 runLoop. *)
Definition begin_turn (l : locals) : M X unit := if firstTurn l then mret tt else emit cfg turn_start.

(** AL 400-403 runLoop. *)
Fixpoint push_results (results : list ToolResultMessage) : M X unit :=
  match results with
  | [] => mret tt
  | r :: rest => push_context (ToolResult r) ;; push_newMessages (ToolResult r) ;; push_results rest
  end.

(** AL 421-426 runLoop. *)
Fixpoint inject (messages : list AgentMessage) : M X unit :=
  match messages with
  | [] => mret tt
  | m :: rest =>
      emit cfg (message_start m) ;; emit cfg (message_end m) ;;
      push_context m ;; push_newMessages m ;; inject rest
  end.

(** AL 381-411 runLoop. A turn taken by the router. *)
Definition reflex_turn (l : locals) (r : PreTurnReflex) : M X progress :=
  let consecutive := consecutiveReflexes l + 1 in
  emit cfg (reflex (r_toolName r) (turnIndex l) consecutive) ;;
  begin_turn l ;;
  uuid ← sync (randomUUID cfg);
  ts ← gets (fun w => now cfg (ext w));
  let m := createReflexAssistantMessage r uuid ts in
  emit cfg (message_start (Assistant m)) ;;
  emit cfg (message_end (Assistant m)) ;;
  push_context (Assistant m) ;;
  push_newMessages (Assistant m) ;;
  batch ← executeToolCalls cfg m;
  push_results (batch_messages batch) ;;
  emit cfg (turn_end m (batch_messages batch)) ;;
  ab ← gets aborted;
  if ab : bool then end_run
  else mret (Next {| firstTurn := false; lastTurn := lastTurn l; turnIndex := turnIndex l + 1;
                     consecutiveReflexes := consecutive; pendingMessages := pendingMessages l;
                     hasMoreToolCalls := negb (batch_terminate batch) |}).

Definition turn_context (m : AssistantMessage) (results : list ToolResultMessage) : M X TurnContext :=
  gets (fun w => {| turn_message := m; turn_toolResults := results;
                    turn_context := context w; turn_newMessages := newMessages w |}).

(** AL 443-454 runLoop. The tool calls of the message: the results, and whether to go on. *)
Definition run_tools (message : AssistantMessage) : M X (list ToolResultMessage * bool) :=
  match tool_calls message with
  | [] => mret ([], false)
  | _ =>
      batch ← executeToolCalls cfg message;
      push_results (batch_messages batch) ;;
      mret (batch_messages batch, negb (batch_terminate batch))
  end.

(** AL 461-502 runLoop. After the turn: the stop hooks, then steering. *)
Definition after_turn (message : AssistantMessage) (results : list ToolResultMessage) (l : locals) : M X progress :=
  tc ← turn_context message results;
  stop ← settlePostTurn (raceWithAbort (match shouldStopAfterTurn cfg with
           | Some hook => hook tc
           | None => fun x => {| r_value := Fulfilled false; r_abort := false; r_ext := x |}
           end));
  match stop with
  | None | Some true => end_run
  | Some false =>
      stop ← shouldStop l;
      if stop : bool then end_run
      else
        steering ← settlePostTurn (pollMessagesUnlessAborted (getSteeringMessages cfg));
        match steering with
        | None => end_run
        | Some pending =>
            let l' := {| firstTurn := firstTurn l; lastTurn := lastTurn l; turnIndex := turnIndex l;
                         consecutiveReflexes := consecutiveReflexes l; pendingMessages := pending;
                         hasMoreToolCalls := hasMoreToolCalls l |} in
            match pending with
            | [] => stop ← shouldStop l; if stop : bool then end_run else mret (Next l')
            | _ => mret (Next l')
            end
        end
  end.

(** AL 414-502 runLoop. A turn taken by the provider. *)
Definition provider_turn (l : locals) : M X progress :=
  begin_turn l ;;
  inject (pendingMessages l) ;;
  message ← streamAssistantResponse;
  push_newMessages (Assistant message) ;;
  if bool_decide (stopReason message = Error) || bool_decide (stopReason message = Aborted)
  then emit cfg (turn_end message []) ;; end_run
  else
    outcome ← run_tools message;
    emit cfg (turn_end message outcome.1) ;;
    ab ← gets aborted;
    if ab : bool then end_run
    else after_turn message outcome.1
           {| firstTurn := false; lastTurn := Some (message, outcome.1); turnIndex := turnIndex l + 1;
              consecutiveReflexes := 0; pendingMessages := []; hasMoreToolCalls := outcome.2 |}.

(** AL 374-502 runLoop. The body of the inner loop. *)
Definition turn (l : locals) : M X progress :=
  throwIfAborted ;;
  r ← match pendingMessages l with
      | [] => if consecutiveReflexes l <? max_reflexes
              then resolvePreTurnReflex (turnIndex l) (consecutiveReflexes l) else mret None
      | _ => mret None
      end;
  match r with
  | Some r => reflex_turn l r
  | None => provider_turn l
  end.

Definition with_pending (l : locals) (pending : list AgentMessage) : locals :=
  {| firstTurn := firstTurn l; lastTurn := lastTurn l; turnIndex := turnIndex l;
     consecutiveReflexes := consecutiveReflexes l; pendingMessages := pending; hasMoreToolCalls := true |}.

(** AL 505-537 runLoop. *)
Definition continuation (l : locals) : M X progress :=
  stop ← shouldStop l;
  if stop : bool then end_run
  else
    messages ← match lastTurn l with
      | Some (m, results) =>
          tc ← turn_context m results;
          settlePostTurn (raceWithAbort (match getContinuationMessages cfg with
            | Some hook => hook tc
            | None => fun x => {| r_value := Fulfilled []; r_abort := false; r_ext := x |}
            end))
      | None => mret (Some [])
      end;
    match messages with
    | None | Some [] => end_run
    | Some pending => mret (Next (with_pending l pending))
    end.

(** AL 505-540 runLoop. The end of the body of the outer loop, and what follows the loop. *)
Definition between_turns (l : locals) : M X progress :=
  stop ← shouldStop l;
  if stop : bool then end_run
  else
    followUps ← settlePostTurn (pollMessagesUnlessAborted (getFollowUpMessages cfg));
    match followUps with
    | None => end_run
    | Some [] => continuation l
    | Some pending => mret (Next (with_pending l pending))
    end.

(** AL 369-541 runLoop. From the head of the inner loop. *)
Fixpoint run_from (fuel : nat) (l : locals) : M X unit :=
  match fuel with
  | O => no_fuel
  | S fuel =>
      if hasMoreToolCalls l || negb (Nat.eqb (length (pendingMessages l)) 0)
      then p ← turn l; match p with Next l' => run_from fuel l' | Ended => mret tt end
      else p ← between_turns l;
           match p with Next l' => throwIfAborted ;; run_from fuel l' | Ended => mret tt end
  end.

(** AL 360-365 runLoop. The initial values of the variables. *)
Definition start_locals (pending : list AgentMessage) : locals :=
  {| firstTurn := true; lastTurn := None; turnIndex := 0; consecutiveReflexes := 0;
     pendingMessages := pending; hasMoreToolCalls := true |}.

(** AL 352-541 runLoop. *)
Definition runLoop (fuel : nat) : M X unit :=
  pending ← pollMessagesUnlessAborted (getSteeringMessages cfg);
  throwIfAborted ;;
  run_from fuel (start_locals pending).

(** AL 266-269 runAgentLoop. *)
Fixpoint announce (prompts : list AgentMessage) : M X unit :=
  match prompts with
  | [] => mret tt
  | p :: rest => emit cfg (message_start p) ;; emit cfg (message_end p) ;; announce rest
  end.

(** AL 250-273 runAgentLoop. The context's messages are those of the initial world. *)
Definition runAgentLoop (fuel : nat) (prompts : list AgentMessage) : M X (list AgentMessage) :=
  modify (set_newMessages (fun _ => prompts)) ;;
  modify (set_context (fun ms => ms ++ prompts)) ;;
  emit cfg agent_start ;;
  emit cfg turn_start ;;
  announce prompts ;;
  runLoop fuel ;;
  gets newMessages.

(** AL 275-298 runAgentLoopContinue. *)
Definition runAgentLoopContinue (fuel : nat) : M X (list AgentMessage) :=
  ms ← gets context;
  match last ms with
  | None => throw (ErrorObject (js "Error") (js "Cannot continue: no messages in context"))
  | Some (Assistant _) => throw (ErrorObject (js "Error") (js "Cannot continue from message role: assistant"))
  | Some _ =>
      modify (set_newMessages (fun _ => [])) ;;
      emit cfg agent_start ;;
      emit cfg turn_start ;;
      runLoop fuel ;;
      gets newMessages
  end.
End loop.
