(* ===== verification/AgentRun.v ===== *)
(** * What a run of the agent loop promises

    Invariants of the loop of [AgentLoop.v], by the [wp] rules: the grammar of
    the events, the correspondence between the context, the new messages and
    the announced messages, the answers to tool calls, and the bound on
    reflexes. *)

From stdpp Require Import gmultiset.
From S2P Require Import Prelude JsString JsNumber Messages Jev AgentTypes AgentEvents AgentTools AgentLoop.
Local Open Scope Z_scope.

(** A provider's response begins at most once. *)
Definition never_starts {X} (pull : X -> reply X AssistantMessageEvent) : Prop :=
  forall x p, r_value (pull x) <> Fulfilled (EStart p).
Fixpoint starts_once {X} (pulls : list (X -> reply X AssistantMessageEvent)) : Prop :=
  match pulls with
  | [] => True
  | p :: rest => Forall never_starts rest \/ never_starts p /\ starts_once rest
  end.

(** The announcements of an answer that is complete: its end, and its start when nothing of it streamed. *)
Definition announces_answer (e : AgentEvent) : bool :=
  match e with message_start (Assistant _) | message_end (Assistant _) => true | _ => false end.

(** The contract of the outside: responses follow the protocol of [AssistantMessageEvent], and no listener
    fails with the error of an abort when an answer is announced. It may fail in any other way, and in this one
    at any other event. Without the second clause an answer may be ended twice: [aborting_listener] below. *)
Record protocol {X} (cfg : AgentLoopConfig X) : Prop := {
  response_starts_once : forall llm x resp, r_value (streamFunction cfg llm x) = Fulfilled resp -> starts_once (pulls resp);
  listener_errors : forall e x err, announces_answer e = true ->
    e_error (listener cfg e x) = Some err -> isAbortError err = false }.

Section at_.
Context {X : Type} (cfg : AgentLoopConfig X).

(** A world at a stage, with a context, new messages and log. *)
Record at_ (st : stage) (ctx new : list AgentMessage) (lg : list entry) (w : world X) : Prop := {
  at_stage : stage_of (trace w) = Some st;
  at_context : context w = ctx;
  at_new : newMessages w = new;
  at_log : log_of (trace w) = lg }.

(** A world whose events so far are in order, left by an exception. *)
Definition so_far (w : world X) : Prop := is_Some (stage_of (trace w)).
Definition in_order (o : option thrown) (w : world X) : Prop := o <> None /\ so_far w.

Lemma at_so_far st ctx new lg w : at_ st ctx new lg w -> so_far w.
Proof. intros H. unfold so_far. by rewrite (at_stage _ _ _ _ _ H). Qed.
Lemma at_in_order st ctx new lg e w : at_ st ctx new lg w -> in_order (Some e) w.
Proof. intros H. split; [done|by eapply at_so_far]. Qed.

Lemma at_set_ext st ctx new lg x ab w : at_ st ctx new lg w -> at_ st ctx new lg (set_ext x ab w).
Proof. by intros []. Qed.
Lemma at_set_partial st ctx new lg p w : at_ st ctx new lg w -> at_ st ctx new lg (set_partialMessage p w).
Proof. by intros []. Qed.
Lemma at_log_event st st' ctx new lg e w : at_ st ctx new lg w -> next_stage st e = Some st' ->
  at_ st' ctx new (lg ++ logged e) (log_event e w).
Proof. intros [Hs Hc Hn Hl] He. split; simpl; [by rewrite stage_of_snoc, Hs|done|done|by rewrite log_of_snoc, Hl]. Qed.

Lemma wp_emit_from e (Q : unit -> world X -> Prop) (E : option thrown -> world X -> Prop) w :
  (forall x ab, Q tt (set_ext x ab (log_event e w))) ->
  (forall err x ab, e_error (listener cfg e (ext w)) = Some err -> E (Some err) (set_ext x ab (log_event e w))) ->
  wp (emit cfg e) Q E w.
Proof.
  intros HQ HE. unfold wp, emit. destruct (e_error (listener cfg e (ext w))) as [err|] eqn:Ee; [by apply HE|done].
Qed.

Lemma wp_emit_at e st st' ctx new lg (Q : unit -> world X -> Prop) w :
  at_ st ctx new lg w -> next_stage st e = Some st' ->
  (forall w', at_ st' ctx new (lg ++ logged e) w' -> Q tt w') -> wp (emit cfg e) Q in_order w.
Proof.
  intros Hw He HQ. pose proof (at_log_event _ _ _ _ _ _ _ Hw He) as Hl.
  apply wp_emit_from.
  - intros x ab. by apply HQ, at_set_ext.
  - intros err x ab _. eapply at_in_order, at_set_ext, Hl.
Qed.

Lemma wp_push_context m st ctx new lg (Q : unit -> world X -> Prop) E w :
  at_ st ctx new lg w -> (forall w', at_ st (ctx ++ [m]) new lg w' -> Q tt w') -> wp (push_context m) Q E w.
Proof. intros [? <- ? ?] HQ. apply wp_modify, HQ. done. Qed.

Lemma wp_push_new m st ctx new lg (Q : unit -> world X -> Prop) E w :
  at_ st ctx new lg w -> (forall w', at_ st ctx (new ++ [m]) lg w' -> Q tt w') -> wp (push_newMessages m) Q E w.
Proof. intros [? ? <- ?] HQ. apply wp_modify, HQ. done. Qed.

Lemma wp_replace_last m m' st ctx new lg (Q : unit -> world X -> Prop) E w :
  at_ st (ctx ++ [m']) new lg w -> (forall w', at_ st (ctx ++ [m]) new lg w' -> partialMessage w' = partialMessage w -> Q tt w') ->
  wp (replace_last m) Q E w.
Proof.
  intros [Hs Hc ? ?] HQ. apply wp_modify, HQ; [|done]. split; try done. simpl. rewrite Hc, length_app. simpl.
  rewrite Nat.add_sub. rewrite insert_app_r_alt by done. by rewrite Nat.sub_diag.
Qed.

(** ** Computations that only touch the outside *)

Definition outside {A} (m : M X A) : Prop := forall w st ctx new lg, at_ st ctx new lg w ->
  wp m (fun _ w' => at_ st ctx new lg w' /\ partialMessage w' = partialMessage w)
       (fun o w' => o <> None /\ at_ st ctx new lg w' /\ partialMessage w' = partialMessage w) w.

Lemma out_ret {A} (a : A) : outside (mret a).
Proof. intros w st ctx new lg Hw. by apply wp_ret. Qed.
Lemma out_throw {A} e : outside (throw (A := A) e).
Proof. intros w st ctx new lg Hw. by apply wp_throw. Qed.
Lemma out_gets {A} (f : world X -> A) : outside (gets f).
Proof. intros w st ctx new lg Hw. by apply wp_gets. Qed.
Lemma out_race {A} (op : X -> reply X A) : outside (raceWithAbort op).
Proof. intros w st ctx new lg Hw. apply wp_race; intros; split; try done; [by apply at_set_ext|split; [by apply at_set_ext|done]]. Qed.
Lemma out_sync {A} (f : X -> A * X) : outside (sync f).
Proof. intros w st ctx new lg Hw. apply wp_sync. intros a x. split; [by apply at_set_ext|done]. Qed.
Lemma out_throwIfAborted : outside throwIfAborted.
Proof. intros w st ctx new lg Hw. by apply wp_throwIfAborted. Qed.
Lemma out_bind {A B} (m : M X A) (k : A -> M X B) : outside m -> (forall a, outside (k a)) -> outside (m ≫= k).
Proof.
  intros Hm Hk w st ctx new lg Hw. apply wp_bind. eapply wp_mono; [by apply Hm| |done].
  intros a w' [Hw' Hp]. rewrite <- Hp. by apply Hk.
Qed.
Lemma out_catch {A} (m : M X A) h : outside m -> (forall e, outside (h e)) -> outside (try_catch m h).
Proof.
  intros Hm Hh w st ctx new lg Hw. apply wp_catch. eapply wp_mono; [by apply Hm|done|].
  intros [e|] w' (? & Hw' & Hp); [|done]. rewrite <- Hp. by apply Hh.
Qed.
Create HintDb outside discriminated.
Hint Resolve out_ret out_throw out_gets out_race out_sync out_throwIfAborted out_bind out_catch : outside.

Ltac outside_tac :=
  repeat match goal with
  | |- outside (match ?x with _ => _ end) => destruct x
  | |- outside (_ ≫= _) => apply out_bind
  | |- outside (try_catch _ _) => apply out_catch
  | |- outside _ => solve [auto with outside nocore]
  | |- forall _, _ => intros ?
  end.

Lemma out_settle {A} (m : M X A) : outside m -> outside (settlePostTurn m).
Proof. intros Hm. unfold settlePostTurn. by outside_tac. Qed.
Lemma out_poll poll : outside (pollMessagesUnlessAborted (X := X) poll).
Proof. unfold pollMessagesUnlessAborted. outside_tac. Qed.
Lemma out_open : outside (open_response cfg).
Proof. unfold open_response. outside_tac. Qed.
Lemma out_reflex index n : outside (resolvePreTurnReflex cfg index n).
Proof. unfold resolvePreTurnReflex. outside_tac. Qed.
Lemma out_shouldStop l : outside (shouldStop cfg l).
Proof. unfold shouldStop. outside_tac. Qed.
Lemma out_turn_context m rs : outside (turn_context (X := X) m rs).
Proof. apply out_gets. Qed.

Lemma wp_outside {A} (m : M X A) (Q : A -> world X -> Prop) st ctx new lg w : outside m -> at_ st ctx new lg w ->
  (forall a w', at_ st ctx new lg w' -> Q a w') -> wp m Q in_order w.
Proof.
  intros Hm Hw HQ. eapply wp_mono; [by apply Hm|by intros a w' [? _]; apply HQ|].
  intros [e|] w' (Ho & ? & _); [by eapply at_in_order|done].
Qed.
End at_.

#[export] Hint Resolve out_ret out_throw out_gets out_race out_sync out_throwIfAborted out_bind out_catch
  out_settle out_poll out_open out_reflex out_shouldStop out_turn_context : outside.

(** ** One assistant response *)

Section stream.
Context {X : Type} (cfg : AgentLoopConfig X) (Hp : protocol cfg).
Context (ctx new : list AgentMessage) (lg : list entry).

(** While a response streams: its partial message, once there is one, is the last of the context. *)
Definition streaming (p : option AssistantMessage) (w : world X) : Prop :=
  partialMessage w = p /\
  at_ (STurn (match p with Some _ => true | None => false end) ∅) (ctx ++ match p with Some p => [Assistant p] | None => [] end) new lg w.

Definition streamed (m : AssistantMessage) (w : world X) : Prop :=
  at_ (STurn false ∅) (ctx ++ [Assistant m]) new (lg ++ [Said (Assistant m)]) w.

(** An exception that is not an abort. *)
Definition failed (o : option thrown) (w : world X) : Prop :=
  match o with Some e => isAbortError e = false /\ in_order o w | None => False end.
Definition interrupted (o : option thrown) (w : world X) : Prop :=
  failed o w \/ o <> None /\ exists p, streaming p w.

Lemma streaming_ext p x ab w : streaming p w -> streaming p (set_ext x ab w).
Proof. intros [? ?]. split; [done|by apply at_set_ext]. Qed.

Lemma failed_weaken A (m : M X A) (Q : A -> world X -> Prop) w : wp m Q failed w -> wp m Q interrupted w.
Proof. intros H. eapply wp_mono; [exact H|done|by left]. Qed.

Lemma wp_emit_failed e st st' ctx' new' lg' (Q : unit -> world X -> Prop) w :
  announces_answer e = true -> at_ st ctx' new' lg' w -> next_stage st e = Some st' ->
  (forall x ab, at_ st' ctx' new' (lg' ++ logged e) (set_ext x ab (log_event e w)) -> Q tt (set_ext x ab (log_event e w))) ->
  wp (emit cfg e) Q failed w.
Proof.
  intros Ha Hw He HQ. pose proof (at_log_event _ _ _ _ _ _ _ Hw He) as Hl. apply wp_emit_from.
  - intros x ab. by apply HQ, at_set_ext.
  - intros err x ab Herr. split; [by eapply listener_errors|]. eapply at_in_order, at_set_ext, Hl.
Qed.

(** An event that leaves the message open: whatever the listeners do, the message still streams. *)
Lemma wp_emit_streaming e p (Q : unit -> world X -> Prop) w :
  streaming p (log_event e w) -> (forall w', streaming p w' -> Q tt w') -> wp (emit cfg e) Q interrupted w.
Proof.
  intros Hw HQ. apply wp_emit_from.
  - intros x ab. by apply HQ, streaming_ext.
  - intros err x ab _. right. split; [done|]. exists p. by apply streaming_ext.
Qed.

Lemma finish_message_spec p final w : streaming p w ->
  wp (finish_message cfg final) (fun m w' => m = final /\ streamed final w') failed w.
Proof.
  intros [Hpart Hw]. unfold finish_message. apply wp_bind, wp_gets. rewrite Hpart. apply wp_bind.
  apply (wp_mono _ (fun _ w' => at_ (STurn true ∅) (ctx ++ [Assistant final]) new lg w') _ failed); [| |done].
  - destruct p as [p|]; simpl in Hw.
    + eapply wp_replace_last; [exact Hw|]. by intros w' Hw' _.
    + rewrite app_nil_r in Hw. apply wp_bind. eapply wp_push_context; [exact Hw|]. intros w1 Hw1.
      eapply wp_emit_failed; [done|exact Hw1|done|]. intros x ab. simpl. by rewrite app_nil_r.
  - intros _ w1 Hw1. apply wp_bind. eapply wp_emit_failed; [done|exact Hw1|done|]. intros x ab Hw2.
    by apply wp_ret.
Qed.

Lemma wp_race_from {A} (op : X -> reply X A) (Q : A -> world X -> Prop) (E : option thrown -> world X -> Prop) w :
  (forall a x ab, r_value (op (ext w)) = Fulfilled a -> Q a (set_ext x ab w)) ->
  (forall e x ab, E (Some e) (set_ext x ab w)) -> wp (raceWithAbort op) Q E w.
Proof.
  intros HQ HE. unfold wp, raceWithAbort. destruct (aborted w); [apply HE|].
  destruct (r_value (op (ext w))) eqn:Er; auto.
Qed.

Lemma wp_race_streaming {A} (op : X -> reply X A) (Q : A -> world X -> Prop) p w : streaming p w ->
  (forall a w', r_value (op (ext w)) = Fulfilled a -> streaming p w' -> Q a w') -> wp (raceWithAbort op) Q interrupted w.
Proof.
  intros Hw HQ. apply wp_race_from.
  - intros a x ab Ha. apply HQ; [done|by apply streaming_ext].
  - intros e x ab. right. split; [done|]. exists p. by apply streaming_ext.
Qed.

(** The events still to come, given whether the response has begun. *)
Definition may_follow (p : option AssistantMessage) (todo : list (X -> reply X AssistantMessageEvent)) : Prop :=
  match p with Some _ => Forall never_starts todo | None => starts_once todo end.

Lemma never_starts_once (todo : list (X -> reply X AssistantMessageEvent)) : Forall never_starts todo -> starts_once todo.
Proof. destruct todo; [done|]. intros H. apply Forall_cons in H as [_ H]. by left. Qed.

Lemma may_follow_tail p next rest : may_follow p (next :: rest) -> may_follow p rest.
Proof.
  destruct p; simpl; [by intros [_ ?]%Forall_cons|].
  intros [?|[_ ?]]; [by apply never_starts_once|done].
Qed.

Lemma stream_loop_spec resp todo p w : streaming p w -> may_follow p todo ->
  wp (stream_loop cfg resp todo) streamed interrupted w.
Proof.
  assert (Hfin : forall p final w, streaming p w -> wp (finish_message cfg final) streamed interrupted w).
  { intros p' final w' Hw'. apply failed_weaken. eapply wp_mono; [by eapply finish_message_spec| |done].
    intros m w2 [-> ?]. done. }
  revert p w. induction todo as [|next rest IH]; intros p w Hw Hf; cbn [stream_loop].
  { apply wp_bind. eapply wp_race_streaming; [exact Hw|]. intros final w' _ Hw'. by eapply Hfin. }
  assert (Hdone : forall m w, streaming p w ->
    wp (final ← try_catch (raceWithAbort (response_result resp))
          (fun e => ab ← gets aborted; if negb ab || negb (isAbortError e) then throw e else mret m);
        finish_message cfg final) streamed interrupted w).
  { intros m w' Hw'. apply wp_bind, wp_catch. apply wp_race_from.
    - intros a x ab _. eapply Hfin, streaming_ext, Hw'.
    - intros e x ab. apply wp_bind, wp_gets. pose proof (streaming_ext p x ab w' Hw') as Hx.
      destruct (_ || _); [apply wp_throw|apply wp_ret; by eapply Hfin]. right. split; [done|by exists p]. }
  apply wp_bind. eapply wp_race_streaming; [exact Hw|]. intros event w1 Hev Hw1.
  destruct event as [q|k q|m|m]; [| |by apply Hdone..].
  - destruct p as [p|]; simpl in Hf.
    { apply Forall_cons in Hf as [Hf _]. by destruct (Hf _ _ Hev). }
    assert (Hrest : Forall never_starts rest) by (destruct Hf as [?|[Hn _]]; [done|by destruct (Hn _ _ Hev)]).
    destruct Hw1 as [_ Hw1]. simpl in Hw1. rewrite app_nil_r in Hw1.
    apply wp_bind, wp_modify, wp_bind, wp_modify, wp_bind.
    assert (Hw2 : at_ (STurn false ∅) (ctx ++ [Assistant q]) new lg
      (set_context (fun ms => ms ++ [Assistant q]) (set_partialMessage (Some q) w1))).
    { destruct Hw1 as [? Hc ? ?]. split; try done. simpl. by rewrite Hc. }
    pose proof (at_log_event _ (STurn true ∅) _ _ _ (message_start (Assistant q)) _ Hw2 eq_refl) as Hl.
    simpl in Hl. rewrite app_nil_r in Hl.
    apply (wp_emit_streaming _ (Some q)); [by split|]. intros w3 Hw3. by apply IH with (p := Some q).
  - apply may_follow_tail in Hf. apply wp_bind, wp_gets. destruct Hw1 as [Hp1 Hw1]. rewrite Hp1.
    destruct p as [p|].
    + simpl in Hw1. apply wp_bind, wp_bind, wp_modify, wp_bind.
      eapply wp_replace_last; [by apply at_set_partial, Hw1|]. intros w2 Hw2 Hp2. simpl in Hp2.
      pose proof (at_log_event _ (STurn true ∅) _ _ _ (message_update (Assistant q) (EDelta k q)) _ Hw2 eq_refl) as Hl.
      simpl in Hl. rewrite app_nil_r in Hl.
      apply (wp_emit_streaming _ (Some q)); [by split|]. intros w3 Hw3. by apply IH with (p := Some q).
    + apply wp_bind, wp_ret. by apply IH with (p := None).
Qed.

(** What the request returns is what the provider's function fulfilled. *)
Definition returns {A} (m : M X A) (P : A -> Prop) : Prop := forall w a w', m w = (Ok a, w') -> P a.
Lemma returns_bind {A B} (m : M X A) (k : A -> M X B) P : (forall a, returns (k a) P) -> returns (m ≫= k) P.
Proof. intros Hk w b w'. unfold mbind, M_bind. destruct (m w) as [[] ?]; [apply Hk|done..]. Qed.
Lemma returns_race {A} (op : X -> reply X A) P : (forall x a, r_value (op x) = Fulfilled a -> P a) -> returns (raceWithAbort op) P.
Proof.
  intros Hop w a w'. unfold raceWithAbort. destruct (aborted w); [done|].
  destruct (r_value (op (ext w))) eqn:E; intros [= <- <-]. by eapply Hop.
Qed.
Lemma wp_returns {A} (m : M X A) (P : A -> Prop) (Q : A -> world X -> Prop) E w :
  returns m P -> wp m (fun a w' => P a -> Q a w') E w -> wp m Q E w.
Proof. intros Hr. unfold wp. destruct (m w) as [[] ?] eqn:Em; eauto. Qed.

Lemma open_response_once : returns (open_response cfg) (fun resp => starts_once (pulls resp)).
Proof.
  unfold open_response. repeat (apply returns_bind; intros ?).
  apply returns_race. intros x resp. by apply response_starts_once.
Qed.

Lemma streamAssistantResponse_spec w : at_ (STurn false ∅) ctx new lg w ->
  wp (streamAssistantResponse cfg) streamed in_order w.
Proof.
  intros Hw. unfold streamAssistantResponse. apply wp_bind, wp_modify.
  assert (Hw0 : streaming None (set_partialMessage None w)).
  { split; [done|]. rewrite app_nil_r. by apply at_set_partial. }
  apply wp_catch. apply (wp_mono _ streamed _ interrupted); [|done|].
  - apply wp_bind. eapply wp_returns; [apply open_response_once|].
    destruct Hw0 as [Hp0 Hw0]. eapply wp_mono; [by apply out_open| |].
    + intros resp w1 [Hw1 Hp1] Hs. apply stream_loop_spec with (p := None); [|done]. split; [by rewrite Hp1|done].
    + intros o w1 (Ho & Hw1 & Hp1). right. split; [done|]. exists None. split; [by rewrite Hp1|done].
  - intros [e|] w1 [Hf|[Ho [p Hs]]]; try done.
    + destruct Hf as [Habort Hin]. apply wp_bind, wp_gets. rewrite Habort, andb_false_r. by apply wp_throw.
    + apply wp_bind, wp_gets. destruct (_ && _).
      * unfold finishAbortedMessage. apply wp_bind, wp_gets, wp_bind, wp_gets.
        eapply wp_mono; [by eapply finish_message_spec| |].
        -- by intros m w2 [-> ?].
        -- by intros [e'|] w2 Hf; [destruct Hf|].
      * apply wp_throw. by eapply at_in_order, Hs.
Qed.
End stream.

(** ** The log of a run *)

Definition said (lg : list entry) : list AgentMessage := omap (fun e => match e with Said m => Some m | Frame _ => None end) lg.
Definition turn_ends (lg : list entry) : list (AssistantMessage * list ToolResultMessage) :=
  omap (fun e => match e with Frame (turn_end m rs) => Some (m, rs) | _ => None end) lg.

Lemma said_app l l' : said (l ++ l') = said l ++ said l'.
Proof. apply omap_app. Qed.
Lemma turn_ends_app l l' : turn_ends (l ++ l') = turn_ends l ++ turn_ends l'.
Proof. apply omap_app. Qed.
Lemma said_Said ms : said (Said <$> ms) = ms.
Proof. induction ms as [|m ms IH]; [done|]. rewrite fmap_cons. cbn. f_equal. exact IH. Qed.
Lemma turn_ends_Said ms : turn_ends (Said <$> ms) = [].
Proof. induction ms as [|m ms IH]; [done|]. done. Qed.

(** The results [rs] answer the first [n] calls of [m], in order. *)
Definition answers (m : AssistantMessage) (rs : list ToolResultMessage) (n : nat) : Prop :=
  (fun r => (toolCallId r, Messages.toolName r)) <$> rs = take n ((fun c => (id c, name c)) <$> tool_calls m).
Definition stopped_early (m : AssistantMessage) : bool :=
  bool_decide (stopReason m = Error) || bool_decide (stopReason m = Aborted).
(** A turn that answers all the calls of its message; a failed or aborted message has none answered. *)
Definition complete_turn (t : AssistantMessage * list ToolResultMessage) : Prop :=
  if stopped_early t.1 then t.2 = [] else answers t.1 t.2 (length (tool_calls t.1)).
Definition partial_turn (t : AssistantMessage * list ToolResultMessage) : Prop :=
  if stopped_early t.1 then t.2 = [] else exists n, answers t.1 t.2 n.

(** All turns are complete, but possibly the last one of an aborted run. *)
Definition turns_final (ts : list (AssistantMessage * list ToolResultMessage)) (ab : bool) : Prop :=
  Forall complete_turn ts \/
  ab = true /\ exists done t, ts = done ++ [t] /\ Forall complete_turn done /\ partial_turn t.

Lemma turns_final_snoc ts t ab : Forall complete_turn ts -> partial_turn t -> (ab = false -> complete_turn t) ->
  turns_final (ts ++ [t]) ab.
Proof.
  intros Hts Hp Hc. unfold turns_final. destruct ab; [right; eauto 6|]. left. apply Forall_app. split; [done|].
  apply Forall_singleton. auto.
Qed.

(** The reflexes since the last turn of the provider, and whether the current turn is a reflex. *)
Definition streak1 (s : Z * bool) (e : entry) : Z * bool :=
  match e with
  | Frame (reflex _ _ _) => (s.1 + 1, true)
  | Frame (turn_end _ _) => if s.2 then (s.1, false) else (0, false)
  | _ => s
  end.
Definition streak (lg : list entry) : Z * bool := foldl streak1 (0, false) lg.
(** Each reflex reports the length of the streak it extends, and no streak exceeds [bound]. *)
Fixpoint reflexes_from (bound : Z) (s : Z * bool) (lg : list entry) : Prop :=
  match lg with
  | [] => True
  | e :: rest =>
      match e with Frame (reflex _ _ k) => k = s.1 + 1 /\ k <= bound | _ => True end /\
      reflexes_from bound (streak1 s e) rest
  end.

Lemma reflexes_from_app bound s l l' :
  reflexes_from bound s (l ++ l') <-> reflexes_from bound s l /\ reflexes_from bound (foldl streak1 s l) l'.
Proof. revert s. induction l as [|e l IH]; intros s; simpl; [tauto|]. rewrite IH. tauto. Qed.
Lemma streak_app l l' : streak (l ++ l') = foldl streak1 (streak l) l'.
Proof. apply foldl_app. Qed.
Lemma streak_Said s ms : foldl streak1 s (Said <$> ms) = s.
Proof. by induction ms. Qed.
Lemma reflexes_Said bound s ms : reflexes_from bound s (Said <$> ms).
Proof. by induction ms. Qed.

(** ** Turns *)

Section turns.
Context {X : Type} (cfg : AgentLoopConfig X) (Hp : protocol cfg) (ctx0 : list AgentMessage).

(** The log of a run in good order: it announces the new messages and bounds its reflexes. *)
Record good (new : list AgentMessage) (lg : list entry) (s : Z * bool) : Prop := {
  good_said : said lg = new;
  good_reflexes : reflexes_from (max_reflexes cfg) (0, false) lg;
  good_streak : streak lg = s }.

Lemma good_Said new lg s ms : good new lg s -> good (new ++ ms) (lg ++ (Said <$> ms)) s.
Proof.
  intros [Hs Hr Hk]. split.
  - by rewrite said_app, said_Said, Hs.
  - apply reflexes_from_app. split; [done|apply reflexes_Said].
  - by rewrite streak_app, streak_Said.
Qed.

Lemma good_frame new lg s e : good new lg s -> match e with reflex _ _ _ => False | _ => True end ->
  good new (lg ++ [Frame e]) (streak1 s (Frame e)).
Proof.
  intros [Hs Hr Hk] He. split.
  - by rewrite said_app, Hs, app_nil_r.
  - apply reflexes_from_app. split; [done|]. by destruct e.
  - rewrite streak_app, Hk. done.
Qed.

(** Between two turns. *)
Definition linv (l : locals) (w : world X) : Prop :=
  exists new lg, at_ (if firstTurn l then STurn false ∅ else SBetween) (ctx0 ++ new) new lg w /\
    good new lg (consecutiveReflexes l, false) /\ Forall complete_turn (turn_ends lg).
(** After the run. *)
Definition final (w : world X) : Prop :=
  exists new lg s, at_ SEnded (ctx0 ++ new) new (lg ++ [Frame (agent_end new)]) w /\
    good new lg s /\ turns_final (turn_ends lg) (aborted w).

Definition progressed (p : progress) (w : world X) : Prop :=
  match p with Next l => linv l w /\ firstTurn l = false | Ended => final w end.

Lemma end_run_spec new lg s w : at_ SBetween (ctx0 ++ new) new lg w -> good new lg s ->
  turns_final (turn_ends lg) (aborted w) -> wp (end_run cfg) progressed in_order w.
Proof.
  intros Hw Hg Ht. unfold end_run. apply wp_bind, wp_gets. rewrite (at_new _ _ _ _ _ Hw). apply wp_bind.
  pose proof (at_log_event _ _ _ _ _ (agent_end new) _ Hw eq_refl) as Hl.
  apply wp_emit_from.
  - intros x ab. apply wp_ret. exists new, lg, s. split; [by apply at_set_ext|]. split; [done|].
    simpl. destruct Ht as [|[Hab ?]]; [by left|]. right. rewrite Hab. done.
  - intros err x ab _. eapply at_in_order, at_set_ext, Hl.
Qed.

Lemma end_run_linv l w : firstTurn l = false -> linv l w -> wp (end_run cfg) progressed in_order w.
Proof.
  intros Hf (new & lg & Hw & Hg & Ht). rewrite Hf in Hw. eapply end_run_spec; [done..|by left].
Qed.

(** A call of a hook between turns keeps the invariant. *)
Lemma wp_hook {A} (m : M X A) (Q : A -> world X -> Prop) l w : outside m -> linv l w ->
  (forall a w', linv l w' -> Q a w') -> wp m Q in_order w.
Proof.
  intros Hm (new & lg & Hw & Hg & Ht) HQ. eapply wp_outside; [done..|].
  intros a w' Hw'. apply HQ. by exists new, lg.
Qed.

Lemma inject_spec ms ctx new lg (Q : unit -> world X -> Prop) w : at_ (STurn false ∅) ctx new lg w ->
  (forall w', at_ (STurn false ∅) (ctx ++ ms) (new ++ ms) (lg ++ (Said <$> ms)) w' -> Q tt w') ->
  wp (inject cfg ms) Q in_order w.
Proof.
  revert ctx new lg w. induction ms as [|m ms IH]; intros ctx new lg w Hw HQ; cbn [inject].
  { apply wp_ret, HQ. by rewrite !app_nil_r. }
  apply wp_bind. eapply (wp_emit_at cfg _ _ (STurn true ∅)); [exact Hw|done|]. intros w1 Hw1.
  apply wp_bind. eapply wp_emit_at; [exact Hw1|done|]. intros w2 Hw2. simpl in Hw2. rewrite app_nil_r in Hw2.
  apply wp_bind. eapply wp_push_context; [exact Hw2|]. intros w3 Hw3.
  apply wp_bind. eapply wp_push_new; [exact Hw3|]. intros w4 Hw4. eapply IH; [exact Hw4|].
  intros w' Hw'. apply HQ. by rewrite <- !(assoc_L app) in Hw'.
Qed.

Lemma announce_spec ms ctx new lg (Q : unit -> world X -> Prop) w : at_ (STurn false ∅) ctx new lg w ->
  (forall w', at_ (STurn false ∅) ctx new (lg ++ (Said <$> ms)) w' -> Q tt w') ->
  wp (announce cfg ms) Q in_order w.
Proof.
  revert lg w. induction ms as [|m ms IH]; intros lg w Hw HQ; cbn [announce].
  { apply wp_ret, HQ. by rewrite app_nil_r. }
  apply wp_bind. eapply (wp_emit_at cfg _ _ (STurn true ∅)); [exact Hw|done|]. intros w1 Hw1.
  apply wp_bind. eapply wp_emit_at; [exact Hw1|done|]. intros w2 Hw2. simpl in Hw2. rewrite app_nil_r in Hw2.
  eapply IH; [exact Hw2|]. intros w' Hw'. apply HQ. by rewrite <- (assoc_L app) in Hw'.
Qed.

Lemma push_results_spec rs st ctx new lg (Q : unit -> world X -> Prop) E w : at_ st ctx new lg w ->
  (forall w', at_ st (ctx ++ (ToolResult <$> rs)) (new ++ (ToolResult <$> rs)) lg w' -> aborted w' = aborted w -> Q tt w') ->
  wp (push_results rs) Q E w.
Proof.
  revert ctx new w. induction rs as [|r rs IH]; intros ctx new w Hw HQ; cbn [push_results].
  { apply wp_ret, HQ; [|done]. by rewrite !app_nil_r. }
  apply wp_bind, wp_modify, wp_bind, wp_modify. destruct Hw as [Hs Hc Hn Hl].
  eapply IH.
  - split; [done| | |done]; simpl; [by rewrite Hc|by rewrite Hn].
  - intros w' Hw' Hab. apply HQ; [|done]. by rewrite <- !(assoc_L app) in Hw'.
Qed.

Lemma begin_turn_spec l ctx new lg (Q : unit -> world X -> Prop) w :
  at_ (if firstTurn l then STurn false ∅ else SBetween) ctx new lg w ->
  (forall w' fs, fs = [] \/ fs = [Frame turn_start] -> at_ (STurn false ∅) ctx new (lg ++ fs) w' -> Q tt w') ->
  wp (begin_turn cfg l) Q in_order w.
Proof.
  intros Hw HQ. unfold begin_turn. destruct (firstTurn l).
  - apply wp_ret, (HQ _ []); [by left|]. by rewrite app_nil_r.
  - eapply wp_emit_at; [exact Hw|done|]. intros w' Hw'. eapply (HQ _ [Frame turn_start]); [by right|done].
Qed.

Lemma executeToolCalls_at m ctx new lg w : at_ (STurn false ∅) ctx new lg w ->
  wp (executeToolCalls cfg m)
     (fun b w' => at_ (STurn false ∅) ctx new (lg ++ ((Said ∘ ToolResult) <$> batch_messages b)) w' /\
        exists n, answers m (batch_messages b) n /\ (aborted w' = false -> n = length (tool_calls m))) in_order w.
Proof.
  intros [Hs Hc Hn Hl]. eapply wp_mono; [apply (executeToolCalls_spec cfg w)| |].
  - split; [done|]. by rewrite !app_nil_r.
  - intros b w' (fs & es & Hfs & Hall & Hms & _ & Hes & Hs' & He & Hlog & [Hk1 Hk2] & _). split.
    + split; [done|by rewrite Hk1|by rewrite Hk2|by rewrite Hlog, Hl].
    + exists (length fs). split; [|done]. unfold answers. rewrite <- fmap_take, <- Hfs.
      clear -Hms. induction Hms as [|f r fs ms [ts ->] _ IH]; [done|]. rewrite !fmap_cons. by rewrite IH.
  - intros o w' (Ho & _ & Hin & _). by split.
Qed.

Lemma good_reflex new lg k tool i : good new lg (k, false) -> k + 1 <= max_reflexes cfg ->
  good new (lg ++ [Frame (reflex tool i (k + 1))]) (k + 1, true).
Proof.
  intros [Hs Hr Hk] Hle. split.
  - by rewrite said_app, Hs, app_nil_r.
  - apply reflexes_from_app. split; [done|]. fold (streak lg). rewrite Hk. done.
  - by rewrite streak_app, Hk.
Qed.

Lemma good_starts new lg s fs : fs = [] \/ fs = [Frame turn_start] -> good new lg s -> good new (lg ++ fs) s.
Proof. intros [->| ->] Hg; [by rewrite app_nil_r|]. exact (good_frame new lg s turn_start Hg I). Qed.

Lemma turn_ends_starts lg fs : fs = [] \/ fs = [Frame turn_start] -> turn_ends (lg ++ fs) = turn_ends lg.
Proof. intros [->| ->]; rewrite turn_ends_app; by rewrite app_nil_r. Qed.

(** The end of a turn: its event, and what is known of the turn afterwards. *)
Lemma turn_end_spec m rs new lg s w (Q : unit -> world X -> Prop) :
  at_ (STurn false ∅) (ctx0 ++ new) new lg w -> good new lg s -> Forall complete_turn (turn_ends lg) ->
  partial_turn (m, rs) -> (aborted w = false -> complete_turn (m, rs)) ->
  (forall w', at_ SBetween (ctx0 ++ new) new (lg ++ [Frame (turn_end m rs)]) w' ->
     good new (lg ++ [Frame (turn_end m rs)]) (streak1 s (Frame (turn_end m rs))) ->
     turns_final (turn_ends (lg ++ [Frame (turn_end m rs)])) (aborted w') ->
     (aborted w' = false -> Forall complete_turn (turn_ends (lg ++ [Frame (turn_end m rs)]))) -> Q tt w') ->
  wp (emit cfg (turn_end m rs)) Q in_order w.
Proof.
  intros Hw Hg Ht Hpart Hcomp HQ.
  pose proof (at_log_event _ SBetween _ _ _ (turn_end m rs) _ Hw eq_refl) as Hl.
  apply wp_emit_from.
  - intros x ab. rewrite turn_ends_app in HQ. apply HQ.
    + by apply at_set_ext.
    + by apply (good_frame new lg s (turn_end m rs)).
    + apply turns_final_snoc; [done..|]. simpl. intros [Ha _]%orb_false_iff. auto.
    + simpl. intros [Ha _]%orb_false_iff. apply Forall_app. split; [done|]. apply Forall_singleton. auto.
  - intros err x ab _. eapply at_in_order, at_set_ext, Hl.
Qed.

Lemma reflex_turn_spec l r w : linv l w -> consecutiveReflexes l < max_reflexes cfg -> wp (reflex_turn cfg l r) progressed in_order w.
Proof.
  intros (new & lg & Hw & Hg & Ht) Hlt. unfold reflex_turn. cbv zeta.
  set (k := consecutiveReflexes l) in *.
  apply wp_bind. eapply (wp_emit_at cfg _ _ (if firstTurn l then STurn false ∅ else SBetween)); [exact Hw|by destruct (firstTurn l)|].
  intros w1 Hw1. pose proof (good_reflex new lg k (r_toolName r) (turnIndex l) Hg ltac:(lia)) as Hg1.
  set (lg1 := lg ++ [Frame _]) in *.
  assert (Ht1 : Forall complete_turn (turn_ends lg1)) by (unfold lg1; by rewrite turn_ends_app, app_nil_r).
  apply wp_bind. eapply begin_turn_spec; [exact Hw1|]. intros w2 fs Hfs Hw2.
  apply (good_starts _ _ _ fs Hfs) in Hg1. rewrite <- (turn_ends_starts lg1 fs Hfs) in Ht1.
  set (lg2 := lg1 ++ fs) in *. change (at_ (STurn false ∅) (ctx0 ++ new) new lg2 w2) in Hw2. clearbody lg2.
  apply wp_bind. eapply wp_outside; [apply out_sync|exact Hw2|]. intros uuid w3 Hw3. apply wp_bind, wp_gets.
  set (m := createReflexAssistantMessage cfg r uuid _).
  apply wp_bind. eapply (wp_emit_at cfg _ _ (STurn true ∅)); [exact Hw3|done|]. intros w4 Hw4.
  apply wp_bind. eapply wp_emit_at; [exact Hw4|done|]. intros w5 Hw5. simpl in Hw5. rewrite app_nil_r in Hw5.
  apply wp_bind. eapply wp_push_context; [exact Hw5|]. intros w6 Hw6.
  apply wp_bind. eapply wp_push_new; [exact Hw6|]. intros w7 Hw7.
  apply wp_bind. eapply wp_mono; [by eapply executeToolCalls_at| |done]. intros b w8 (Hw8 & n & Hn & Hall).
  apply wp_bind. eapply push_results_spec; [exact Hw8|]. intros w9 Hw9 Hab.
  rewrite <- !(assoc_L app) in Hw9. apply wp_bind.
  assert (Hlog : [Said (Assistant m)] ++ ((Said ∘ ToolResult) <$> batch_messages b) =
    Said <$> ([Assistant m] ++ (ToolResult <$> batch_messages b))) by (by rewrite fmap_app, <- list_fmap_compose).
  rewrite Hlog in Hw9. eapply turn_end_spec; [exact Hw9|by apply good_Said|by rewrite turn_ends_app, turn_ends_Said, app_nil_r| | |].
  - exists n. exact Hn.
  - intros Ha. hnf. cbn [stopped_early fst]. change (answers m (batch_messages b) (length (tool_calls m))).
    rewrite <- Hall by (by rewrite <- Hab). exact Hn.
  - intros w10 Hw10 Hg10 Htf Htc. apply wp_bind, wp_gets. destruct (aborted w10) eqn:Ea.
    + eapply end_run_spec; [exact Hw10|exact Hg10|by rewrite Ea].
    + apply wp_ret. split; [|done]. do 2 eexists. split; [exact Hw10|]. split; [exact Hg10|by apply Htc].
Qed.

Lemma run_tools_spec m new lg w : at_ (STurn false ∅) (ctx0 ++ new) new lg w -> stopped_early m = false ->
  wp (run_tools cfg m) (fun r w' => at_ (STurn false ∅) (ctx0 ++ new ++ (ToolResult <$> r.1)) (new ++ (ToolResult <$> r.1))
        (lg ++ (Said <$> (ToolResult <$> r.1))) w' /\ partial_turn (m, r.1) /\ (aborted w' = false -> complete_turn (m, r.1))) in_order w.
Proof.
  intros Hw He. unfold run_tools, partial_turn, complete_turn. simpl. rewrite He.
  destruct (tool_calls m) as [|c cs] eqn:Ec.
  - apply wp_ret. simpl. rewrite !app_nil_r. split; [done|]. split; [|done]. by exists 0%nat.
  - apply wp_bind. eapply wp_mono; [by eapply executeToolCalls_at| |done]. intros b w1 (Hw1 & n & Hn & Hall).
    apply wp_bind. eapply push_results_spec; [exact Hw1|]. intros w2 Hw2 Hab. apply wp_ret. simpl.
    rewrite <- list_fmap_compose. rewrite <- (assoc_L app) in Hw2. split; [done|]. split; [by exists n|].
    intros Ha. rewrite Hab in Ha. rewrite Ec in Hall. simpl in Hall. by rewrite <- Hall.
Qed.

Lemma shouldStop_end l w (k : M X progress) : linv l w -> firstTurn l = false ->
  (forall w', linv l w' -> wp k progressed in_order w') ->
  wp (stop ← shouldStop cfg l; if stop : bool then end_run cfg else k) progressed in_order w.
Proof.
  intros Hw Hf Hk. apply wp_bind. eapply wp_hook; [apply out_shouldStop|exact Hw|].
  intros [] w' Hw'; [by eapply end_run_linv|by apply Hk].
Qed.

Lemma after_turn_spec m rs l w : linv l w -> firstTurn l = false -> wp (after_turn cfg m rs l) progressed in_order w.
Proof.
  intros Hw Hf. unfold after_turn.
  apply wp_bind. eapply wp_hook; [apply out_turn_context|exact Hw|]. intros tc w1 Hw1.
  apply wp_bind. eapply wp_hook; [apply out_settle, out_race|exact Hw1|].
  intros [[]|] w2 Hw2; [by eapply end_run_linv| |by eapply end_run_linv].
  apply shouldStop_end; [done..|]. intros w3 Hw3.
  apply wp_bind. eapply wp_hook; [apply out_settle, out_poll|exact Hw3|].
  intros [pending|] w4 Hw4; [|by eapply end_run_linv]. cbv zeta.
  destruct pending as [|p ps]; [|by apply wp_ret].
  apply shouldStop_end; [done..|]. intros w5 Hw5. by apply wp_ret.
Qed.

Lemma provider_turn_spec l w : linv l w -> wp (provider_turn cfg l) progressed in_order w.
Proof.
  intros (new & lg & Hw & Hg & Ht). unfold provider_turn.
  apply wp_bind. eapply begin_turn_spec; [exact Hw|]. intros w1 fs Hfs Hw1.
  apply (good_starts _ _ _ fs Hfs) in Hg. rewrite <- (turn_ends_starts lg fs Hfs) in Ht. set (lg1 := lg ++ fs) in *.
  apply wp_bind. eapply inject_spec; [exact Hw1|]. intros w2 Hw2.
  apply (good_Said _ _ _ (pendingMessages l)) in Hg. rewrite <- (assoc_L app) in Hw2.
  set (new2 := new ++ _) in *. set (lg2 := lg1 ++ (Said <$> _)) in *.
  assert (Ht2 : Forall complete_turn (turn_ends lg2)) by (unfold lg2; by rewrite turn_ends_app, turn_ends_Said, app_nil_r).
  apply wp_bind. eapply wp_mono; [by eapply streamAssistantResponse_spec| |done]. intros m w3 Hw3.
  apply wp_bind. eapply wp_push_new; [exact Hw3|]. intros w4 Hw4. rewrite <- (assoc_L app) in Hw4.
  pose proof (good_Said _ _ _ [Assistant m] Hg) as Hg4. simpl in Hg4.
  assert (Ht4 : Forall complete_turn (turn_ends (lg2 ++ [Said (Assistant m)]))) by (by rewrite turn_ends_app, app_nil_r).
  change (bool_decide (stopReason m = Error) || bool_decide (stopReason m = Aborted)) with (stopped_early m).
  destruct (stopped_early m) eqn:Ee.
  - apply wp_bind. eapply turn_end_spec; [exact Hw4|exact Hg4|exact Ht4| | |].
    1-2: unfold partial_turn, complete_turn; simpl; by rewrite Ee.
    intros w5 Hw5 Hg5 Htf _. by eapply end_run_spec.
  - apply wp_bind. eapply wp_mono; [by eapply run_tools_spec| |done]. intros [rs more] w5 (Hw5 & Hpart & Hcomp).
    pose proof (good_Said _ _ _ (ToolResult <$> rs) Hg4) as Hg5. cbn [fst snd] in *.
    apply wp_bind. eapply turn_end_spec; [exact Hw5|exact Hg5| |done|done|].
    { by rewrite turn_ends_app, turn_ends_Said, app_nil_r. }
    intros w6 Hw6 Hg6 Htf Htc. apply wp_bind, wp_gets. destruct (aborted w6) eqn:Ea.
    + eapply end_run_spec; [exact Hw6|exact Hg6|by rewrite Ea].
    + apply after_turn_spec; [|done]. do 2 eexists. split; [exact Hw6|]. split; [exact Hg6|by apply Htc].
Qed.

(** ** The run *)

Lemma turn_spec l w : linv l w -> wp (turn cfg l) progressed in_order w.
Proof.
  intros Hw. unfold turn. apply wp_bind. eapply wp_hook; [apply out_throwIfAborted|exact Hw|].
  intros _ w1 Hw1. destruct (pendingMessages l) as [|p ps].
  - destruct (consecutiveReflexes l <? max_reflexes cfg) eqn:E; to_prop.
    + apply wp_bind. eapply wp_hook; [apply out_reflex|exact Hw1|].
      intros [r|] w2 Hw2; [by apply reflex_turn_spec|by apply provider_turn_spec].
    + apply wp_bind, wp_ret. by apply provider_turn_spec.
  - apply wp_bind, wp_ret. by apply provider_turn_spec.
Qed.

Lemma continuation_spec l w : linv l w -> firstTurn l = false -> wp (continuation cfg l) progressed in_order w.
Proof.
  intros Hw Hf. unfold continuation. apply shouldStop_end; [done..|]. intros w1 Hw1. apply wp_bind.
  eapply wp_hook; [|exact Hw1|].
  - destruct (lastTurn l) as [[m rs]|]; [|apply out_ret]. apply out_bind; [apply out_turn_context|].
    intros tc. apply out_settle, out_race.
  - intros [[|p ps]|] w2 Hw2; [by eapply end_run_linv| |by eapply end_run_linv]. by apply wp_ret.
Qed.

Lemma between_turns_spec l w : linv l w -> firstTurn l = false -> wp (between_turns cfg l) progressed in_order w.
Proof.
  intros Hw Hf. unfold between_turns. apply shouldStop_end; [done..|]. intros w1 Hw1. apply wp_bind.
  eapply wp_hook; [apply out_settle, out_poll|exact Hw1|].
  intros [[|p ps]|] w2 Hw2; [by apply continuation_spec| |by eapply end_run_linv]. by apply wp_ret.
Qed.

Lemma wp_hook_far {A} (m : M X A) (Q : A -> world X -> Prop) l w : outside m -> linv l w ->
  (forall a w', linv l w' -> Q a w') -> wp m Q (fun _ => so_far) w.
Proof.
  intros Hm (new & lg & Hw & Hg & Ht) HQ. eapply wp_mono; [by apply Hm| |].
  - intros a w' [Hw' _]. apply HQ. by exists new, lg.
  - intros o w' (_ & Hw' & _). by eapply at_so_far.
Qed.

Lemma run_from_spec fuel l w : linv l w -> (firstTurn l = true -> hasMoreToolCalls l = true) ->
  wp (run_from cfg fuel l) (fun _ => final) (fun _ => so_far) w.
Proof.
  revert l w. induction fuel as [|fuel IH]; intros l w Hw Hf; cbn [run_from].
  { destruct Hw as (new & lg & Hw & _). by eapply at_so_far. }
  destruct (hasMoreToolCalls l) eqn:Em; simpl; [|destruct (negb _); simpl].
  1-2: apply wp_bind; eapply wp_mono; [by apply turn_spec| |by intros o w' [_ ?]]; intros [l'|] w' Hp'; [|by apply wp_ret];
    destruct Hp' as [Hw' Hf']; apply IH; [done|by rewrite Hf'].
  apply wp_bind. eapply wp_mono; [apply between_turns_spec; [done|by destruct (firstTurn l); [specialize (Hf eq_refl)|]]| |by intros o w' [_ ?]].
  intros [l'|] w' Hp'; [|by apply wp_ret]. destruct Hp' as [Hw' Hf'].
  apply wp_bind. eapply wp_hook_far; [apply out_throwIfAborted|exact Hw'|]. intros _ w2 Hw2. apply IH; [done|by rewrite Hf'].
Qed.

Lemma runLoop_spec fuel new lg w : at_ (STurn false ∅) (ctx0 ++ new) new lg w -> good new lg (0, false) ->
  turn_ends lg = [] -> wp (runLoop cfg fuel) (fun _ => final) (fun _ => so_far) w.
Proof.
  intros Hw Hg Ht. unfold runLoop.
  assert (Hl : forall pending, linv (start_locals pending) w) by (intros; exists new, lg; by rewrite Ht).
  apply wp_bind. eapply wp_hook_far; [apply out_poll|apply (Hl [])|]. intros pending w1 (new1 & lg1 & Hw1).
  apply wp_bind. eapply (wp_hook_far _ _ (start_locals pending)); [apply out_throwIfAborted|by exists new1, lg1|].
  intros _ w2 Hw2. by apply run_from_spec.
Qed.

Lemma good_start prompts : good prompts ([Frame agent_start] ++ [Frame turn_start] ++ (Said <$> prompts)) (0, false).
Proof.
  split.
  - cbn. apply said_Said.
  - cbn. split; [done|]. split; [done|]. apply reflexes_Said.
  - cbn. apply streak_Said.
Qed.

Lemma runAgentLoop_spec fuel prompts w : trace w = [] -> context w = ctx0 ->
  wp (runAgentLoop cfg fuel prompts) (fun ms w' => final w' /\ ms = newMessages w') (fun _ => so_far) w.
Proof.
  intros Ht Hc. unfold runAgentLoop. apply wp_bind, wp_modify, wp_bind, wp_modify.
  set (w0 := set_context _ _).
  assert (Hw0 : at_ SIdle (ctx0 ++ prompts) prompts [] w0).
  { split; simpl; rewrite ?Ht, ?Hc; done. }
  assert (Hfar : forall A (m : M X A) Q w, wp m Q in_order w -> wp m Q (fun _ => so_far) w).
  { intros A m Q w1 H. eapply wp_mono; [exact H|done|by intros o w2 [_ ?]]. }
  apply wp_bind, Hfar. eapply (wp_emit_at cfg _ _ SBetween); [exact Hw0|done|]. intros w1 Hw1.
  apply wp_bind, Hfar. eapply wp_emit_at; [exact Hw1|done|]. intros w2 Hw2. simpl in Hw2.
  apply wp_bind, Hfar. eapply announce_spec; [exact Hw2|]. intros w3 Hw3.
  apply wp_bind. eapply wp_mono; [eapply runLoop_spec; [exact Hw3|apply good_start|]| |done].
  - cbn. apply turn_ends_Said.
  - intros [] w' Hf. by apply wp_bind, wp_ret, wp_gets || apply wp_gets.
Qed.

Lemma runAgentLoopContinue_spec fuel w : trace w = [] -> context w = ctx0 ->
  wp (runAgentLoopContinue cfg fuel) (fun ms w' => final w' /\ ms = newMessages w') (fun _ => so_far) w.
Proof.
  intros Ht Hc. unfold runAgentLoopContinue. apply wp_bind, wp_gets.
  assert (Hsf : so_far w) by (unfold so_far; by rewrite Ht).
  destruct (last (context w)) as [m|]; [|by apply wp_throw]. assert (Hfar : forall A (m : M X A) Q w, wp m Q in_order w -> wp m Q (fun _ => so_far) w).
  { intros A k Q w1 H. eapply wp_mono; [exact H|done|by intros o w2 [_ ?]]. }
  assert (Hgo : wp (modify (set_newMessages (fun _ => [])) ;; emit cfg agent_start ;; emit cfg turn_start ;; runLoop cfg fuel ;; gets newMessages)
    (fun ms w' => final w' /\ ms = newMessages w') (fun _ => so_far) w); [|by destruct m; try apply wp_throw].
  apply wp_bind, wp_modify. set (w0 := set_newMessages _ _).
  assert (Hw0 : at_ SIdle (ctx0 ++ []) [] [] w0).
  { split; simpl; rewrite ?Ht, ?Hc, ?app_nil_r; done. }
  apply wp_bind, Hfar. eapply (wp_emit_at cfg _ _ SBetween); [exact Hw0|done|]. intros w1 Hw1.
  apply wp_bind, Hfar. eapply wp_emit_at; [exact Hw1|done|]. intros w2 Hw2. simpl in Hw2.
  apply wp_bind. eapply wp_mono; [eapply runLoop_spec; [exact Hw2|apply (good_start [])|done]| |done].
  intros [] w' Hf. by apply wp_gets.
Qed.
End turns.

(** ** The properties of a run *)

Definition fresh_world {X} (ctx : list AgentMessage) (x : X) : world X :=
  {| aborted := false; trace := []; context := ctx; newMessages := []; partialMessage := None; ext := x |}.

(** C3. The events of a run keep their grammar. The contract of the outside ([protocol]) is assumed: a response
    starts at most once, and no listener fails with an abort error at the moment an answer is announced (without
    that an answer can be ended twice, [aborting_listener]). Under it, whether the run returns, fails or is cut
    short, its events are in order so far: a run starts once, turns do not nest, a message ends before another
    starts, a tool is updated and ended only while it runs, and no turn ends while a message or a tool is open. A
    run that returns has emitted one [agent_end], as its last event, carrying the messages it returns. *)
Theorem runAgentLoop_events {X : Type} (cfg : AgentLoopConfig X) (Hp : protocol cfg) (fuel : nat)
    (prompts ctx : list AgentMessage) (x : X) :
  let '(o, w) := runAgentLoop cfg fuel prompts (fresh_world ctx x) in
  is_Some (stage_of (trace w)) /\
  (forall ms, o = Ok ms -> complete_run (trace w) /\ last (log_of (trace w)) = Some (Frame (agent_end ms))).
Proof.
  pose proof (runAgentLoop_spec cfg Hp ctx fuel prompts (fresh_world ctx x) eq_refl eq_refl) as H.
  unfold wp in H. destruct (runAgentLoop cfg fuel prompts (fresh_world ctx x)) as [[ms|e|] w]; [|by split..].
  destruct H as ((new & lg & s & Hw & _ & _) & ->). destruct Hw as [Hs Hc Hn Hl].
  split; [by rewrite Hs|]. intros ms [= <-]. split; [exact Hs|]. by rewrite Hl, last_snoc, Hn.
Qed.

(** C2. The transcript, the returned messages and the announcements agree. Under the contract of the outside
    ([protocol]: a response starts at most once, and no listener fails with an abort error at the moment an answer
    is announced; [aborting_listener] shows what happens otherwise), a run that returns has extended the context
    by exactly the messages it returns, and has announced each of them as complete exactly once, in that order. *)
Theorem runAgentLoop_messages {X : Type} (cfg : AgentLoopConfig X) (Hp : protocol cfg) (fuel : nat)
    (prompts ctx ms : list AgentMessage) (x : X) (w : world X)
    (Hrun : runAgentLoop cfg fuel prompts (fresh_world ctx x) = (Ok ms, w)) :
  context w = ctx ++ ms /\ newMessages w = ms /\ said (log_of (trace w)) = ms.
Proof.
  pose proof (runAgentLoop_spec cfg Hp ctx fuel prompts (fresh_world ctx x) eq_refl eq_refl) as H.
  unfold wp in H. rewrite Hrun in H. destruct H as ((new & lg & s & [Hs Hc Hn Hl] & Hg & _) & ->).
  rewrite Hc, Hn, Hl, said_app, app_nil_r. split_and!; try done. by apply good_said in Hg.
Qed.

(** C1. Under the contract of the outside ([protocol]), every turn of a run that returns answers all the tool
    calls of its message, in order, unless the run was aborted, when its last turn may have answered only the
    first of them; a failed or aborted response runs no tool at all. *)
Theorem runAgentLoop_answers {X : Type} (cfg : AgentLoopConfig X) (Hp : protocol cfg) (fuel : nat)
    (prompts ctx ms : list AgentMessage) (x : X) (w : world X)
    (Hrun : runAgentLoop cfg fuel prompts (fresh_world ctx x) = (Ok ms, w)) :
  turns_final (turn_ends (log_of (trace w))) (aborted w).
Proof.
  pose proof (runAgentLoop_spec cfg Hp ctx fuel prompts (fresh_world ctx x) eq_refl eq_refl) as H.
  unfold wp in H. rewrite Hrun in H. destruct H as ((new & lg & s & [Hs Hc Hn Hl] & _ & Ht) & _).
  by rewrite Hl, turn_ends_app, app_nil_r.
Qed.

(** A router cannot keep the model out: every reflex event reports how many turns in a row the router
    has taken since the last turn of the provider, and the number never exceeds the configured maximum. *)
Theorem runAgentLoop_reflexes {X : Type} (cfg : AgentLoopConfig X) (Hp : protocol cfg) (fuel : nat)
    (prompts ctx ms : list AgentMessage) (x : X) (w : world X)
    (Hrun : runAgentLoop cfg fuel prompts (fresh_world ctx x) = (Ok ms, w)) :
  reflexes_from (max_reflexes cfg) (0, false) (log_of (trace w)).
Proof.
  pose proof (runAgentLoop_spec cfg Hp ctx fuel prompts (fresh_world ctx x) eq_refl eq_refl) as H.
  unfold wp in H. rewrite Hrun in H. destruct H as ((new & lg & s & [Hs Hc Hn Hl] & Hg & _) & _).
  rewrite Hl. apply reflexes_from_app. split; [by apply good_reflexes in Hg|done].
Qed.

(** ** Termination under a stop hook *)

Section stops.
Context {X : Type} (cfg : AgentLoopConfig X) (Hp : protocol cfg) (ctx0 : list AgentMessage).
Context (hook : TurnContext -> X -> reply X bool) (Hhook : shouldStopAfterTurn cfg = Some hook).
Context (Hstop : forall tc x, r_value (hook tc x) = Fulfilled true).

Lemma returns_ret {A} (a : A) (P : A -> Prop) : P a -> returns (X := X) (mret a) P.
Proof. by intros Ha w b w' [= <- <-]. Qed.
Lemma returns_bind_with {A B} (m : M X A) (k : A -> M X B) (P : A -> Prop) Q :
  returns m P -> (forall a, P a -> returns (k a) Q) -> returns (m ≫= k) Q.
Proof.
  intros Hm Hk w b w'. unfold mbind, M_bind. destruct (m w) as [[a| |] w1] eqn:E; [|done..].
  apply Hk. by eapply Hm.
Qed.

Definition ended (p : progress) : Prop := p = Ended.
Lemma end_run_ended : returns (end_run cfg) ended.
Proof. unfold end_run. repeat (apply returns_bind; intros ?). by apply returns_ret. Qed.

Lemma after_turn_ended m rs l : returns (after_turn cfg m rs l) ended.
Proof.
  unfold after_turn. rewrite Hhook. apply returns_bind. intros tc.
  apply (returns_bind_with _ _ (fun o => o = None \/ o = Some true)).
  - intros w o w'. unfold settlePostTurn, try_catch, mbind, M_bind, raceWithAbort, gets.
    rewrite Hstop. destruct (aborted w); simpl.
    + rewrite orb_true_r. simpl. intros [= <- <-]. by left.
    + intros [= <- <-]. by right.
  - intros o [-> | ->]; apply end_run_ended.
Qed.

Lemma provider_turn_ended l : returns (provider_turn cfg l) ended.
Proof.
  unfold provider_turn. do 4 (apply returns_bind; intros ?).
  destruct (_ || _); apply returns_bind; intros ?; [apply end_run_ended|].
  apply returns_bind; intros ?. apply returns_bind; intros [|]; [apply end_run_ended|apply after_turn_ended].
Qed.

(** After a reflex the streak is longer. *)
Definition longer (l : locals) (p : progress) : Prop :=
  match p with
  | Ended => True
  | Next l' => consecutiveReflexes l' = consecutiveReflexes l + 1 /\ pendingMessages l' = pendingMessages l
  end.

Lemma reflex_turn_longer l r : returns (reflex_turn cfg l r) (longer l).
Proof.
  unfold reflex_turn. do 11 (apply returns_bind; intros ?). apply returns_bind; intros [|].
  - eapply returns_bind_with; [|intros ? _]; [intros ? ? ? ?; exact I|]. apply returns_bind; intros ?. by apply returns_ret.
  - by apply returns_ret.
Qed.

(** The iterations that may still come. *)
Definition needed (l : locals) : nat :=
  match pendingMessages l with
  | [] => Z.to_nat (max_reflexes cfg - consecutiveReflexes l) + 2
  | _ => 1
  end.

Definition shrinks (l : locals) (p : progress) : Prop :=
  match p with Ended => True | Next l' => (needed l' < needed l)%nat end.

Lemma ended_shrinks l m : returns (X := X) m ended -> returns m (shrinks l).
Proof. intros Hm w p w' H. by rewrite (Hm _ _ _ H). Qed.

Lemma turn_shrinks l : returns (turn cfg l) (shrinks l).
Proof.
  unfold turn. apply returns_bind; intros _. destruct (pendingMessages l) as [|q qs] eqn:E.
  - destruct (consecutiveReflexes l <? max_reflexes cfg) eqn:Ec; to_prop.
    + apply returns_bind; intros [r|]; [|apply ended_shrinks, provider_turn_ended].
      intros w [l'|] w' H; [|done]. apply reflex_turn_longer in H as [Hk Hpend].
      unfold shrinks, needed. rewrite Hpend, E, Hk. lia.
    + apply (returns_bind_with _ _ (fun r => r = None)); [by apply returns_ret|].
      intros ? ->. apply ended_shrinks, provider_turn_ended.
  - apply (returns_bind_with _ _ (fun r => r = None)); [by apply returns_ret|].
    intros ? ->. apply ended_shrinks, provider_turn_ended.
Qed.

Lemma between_turns_shrinks l : pendingMessages l = [] -> returns (between_turns cfg l) (shrinks l).
Proof.
  intros E. assert (Hnext : forall q qs, shrinks l (Next (with_pending l (q :: qs)))).
  { intros q qs. unfold shrinks, needed. simpl. rewrite E. lia. }
  unfold between_turns. apply returns_bind; intros [|]; [apply ended_shrinks, end_run_ended|].
  apply returns_bind; intros [[|q qs]|]; [|by apply returns_ret|apply ended_shrinks, end_run_ended].
  unfold continuation. apply returns_bind; intros [|]; [apply ended_shrinks, end_run_ended|].
  apply returns_bind; intros [[|q qs]|]; [apply ended_shrinks, end_run_ended|by apply returns_ret|
    apply ended_shrinks, end_run_ended].
Qed.

Definition not_out (o : option thrown) (_ : world X) : Prop := o <> None.

Lemma run_from_stops fuel l w : linv cfg ctx0 l w -> (firstTurn l = true -> hasMoreToolCalls l = true) ->
  (needed l <= fuel)%nat -> wp (run_from cfg fuel l) (fun _ _ => True) not_out w.
Proof.
  revert l w. induction fuel as [|fuel IH]; intros l w Hw Hf Hn; cbn [run_from].
  { unfold needed in Hn. destruct (pendingMessages l); lia. }
  destruct (hasMoreToolCalls l || negb (length (pendingMessages l) =? 0)%nat) eqn:Em; apply wp_bind.
  - eapply wp_returns; [apply turn_shrinks|].
    eapply wp_mono; [by apply turn_spec| |by intros o w' [? _]].
    intros [l'|] w' Hp' Hs; [|by apply wp_ret]. destruct Hp' as [Hw' Hf'].
    apply IH; [done|by rewrite Hf'|]. simpl in Hs. lia.
  - apply orb_false_iff in Em as [Em Hpend]. apply negb_false_iff, Nat.eqb_eq, nil_length_inv in Hpend.
    eapply wp_returns; [by apply between_turns_shrinks|].
    eapply wp_mono; [apply between_turns_spec; [done..|by destruct (firstTurn l); [rewrite Hf in Em|]]| |by intros o w' [? _]].
    intros [l'|] w' Hp' Hs; [|by apply wp_ret]. destruct Hp' as [Hw' Hf']. apply wp_bind.
    destruct Hw' as (new & lg & Hat & Hg & Ht). eapply wp_mono; [by apply out_throwIfAborted| |by intros o w2 [? _]].
    intros _ w2 [Hw2 _]. apply IH; [by exists new, lg|by rewrite Hf'|]. simpl in Hs. lia.
Qed.
Lemma runLoop_stops fuel new lg w : at_ (STurn false ∅) (ctx0 ++ new) new lg w -> good cfg new lg (0, false) -> turn_ends lg = [] ->
  (Z.to_nat (max_reflexes cfg) + 2 <= fuel)%nat -> wp (runLoop cfg fuel) (fun _ _ => True) not_out w.
Proof.
  intros Hw Hg Ht Hfuel. unfold runLoop.
  assert (Hout : forall A (m : M X A) Q w, wp m Q in_order w -> wp m Q not_out w).
  { intros A m Q w1 H. eapply wp_mono; [exact H|done|by intros o w2 [? _]]. }
  apply wp_bind, Hout. eapply wp_outside; [apply out_poll|exact Hw|]. intros pending w4 Hw4.
  apply wp_bind, Hout. eapply wp_outside; [apply out_throwIfAborted|exact Hw4|]. intros _ w5 Hw5.
  apply (run_from_stops fuel (start_locals pending)); [|done|unfold needed; simpl; destruct pending; lia].
  eexists _, _. split; [exact Hw5|]. split; [exact Hg|]. by rewrite Ht.
Qed.

Lemma runAgentLoop_returns fuel prompts w : trace w = [] -> context w = ctx0 -> (Z.to_nat (max_reflexes cfg) + 2 <= fuel)%nat ->
  wp (runAgentLoop cfg fuel prompts) (fun _ _ => True) not_out w.
Proof.
  intros Ht Hc Hfuel. unfold runAgentLoop. apply wp_bind, wp_modify, wp_bind, wp_modify. set (w0 := set_context _ _).
  assert (Hw0 : at_ SIdle (ctx0 ++ prompts) prompts [] w0).
  { split; simpl; rewrite ?Ht, ?Hc; done. }
  assert (Hout : forall A (m : M X A) Q w, wp m Q in_order w -> wp m Q not_out w).
  { intros A m Q w1 H. eapply wp_mono; [exact H|done|by intros o w2 [? _]]. }
  apply wp_bind, Hout. eapply (wp_emit_at cfg _ _ SBetween); [exact Hw0|done|]. intros w1 Hw1.
  apply wp_bind, Hout. eapply wp_emit_at; [exact Hw1|done|]. intros w2 Hw2. simpl in Hw2.
  apply wp_bind, Hout. eapply announce_spec; [exact Hw2|]. intros w3 Hw3. apply wp_bind.
  eapply wp_mono; [eapply runLoop_stops; [exact Hw3|apply good_start|cbn; apply turn_ends_Said|done]| |done].
  intros [] w6 _. by apply wp_gets.
Qed.

Lemma runAgentLoopContinue_returns fuel w : trace w = [] -> context w = ctx0 -> (Z.to_nat (max_reflexes cfg) + 2 <= fuel)%nat ->
  wp (runAgentLoopContinue cfg fuel) (fun _ _ => True) not_out w.
Proof.
  intros Ht Hc Hfuel. unfold runAgentLoopContinue. apply wp_bind, wp_gets.
  destruct (last (context w)) as [m|]; [|by apply wp_throw].
  assert (Hout : forall A (m : M X A) Q w, wp m Q in_order w -> wp m Q not_out w).
  { intros A k Q w1 H. eapply wp_mono; [exact H|done|by intros o w2 [? _]]. }
  assert (Hgo : wp (modify (set_newMessages (fun _ => [])) ;; emit cfg agent_start ;; emit cfg turn_start ;; runLoop cfg fuel ;; gets newMessages)
    (fun _ _ => True) not_out w); [|by destruct m; try apply wp_throw].
  apply wp_bind, wp_modify. set (w0 := set_newMessages _ _).
  assert (Hw0 : at_ SIdle (ctx0 ++ []) [] [] w0).
  { split; simpl; rewrite ?Ht, ?Hc, ?app_nil_r; done. }
  apply wp_bind, Hout. eapply (wp_emit_at cfg _ _ SBetween); [exact Hw0|done|]. intros w1 Hw1.
  apply wp_bind, Hout. eapply wp_emit_at; [exact Hw1|done|]. intros w2 Hw2. simpl in Hw2.
  apply wp_bind. eapply wp_mono; [eapply runLoop_stops; [exact Hw2|apply (good_start cfg [])|done|done]| |done].
  intros [] w6 _. by apply wp_gets.
Qed.
End stops.

(** A run whose stop hook always asks to stop returns: beside the one turn of the provider only the turns
    the router may take in a row are left, so a fuel of the maximal number of reflexes plus two is enough,
    whatever the other hooks do. *)
Theorem runAgentLoop_stops {X : Type} (cfg : AgentLoopConfig X) (Hp : protocol cfg)
    (hook : TurnContext -> X -> reply X bool) (Hhook : shouldStopAfterTurn cfg = Some hook)
    (Hstop : forall tc x, r_value (hook tc x) = Fulfilled true)
    (fuel : nat) (Hfuel : (Z.to_nat (max_reflexes cfg) + 2 <= fuel)%nat) (prompts ctx : list AgentMessage) (x : X) :
  (runAgentLoop cfg fuel prompts (fresh_world ctx x)).1 <> NoFuel.
Proof.
  pose proof (runAgentLoop_returns cfg Hp ctx hook Hhook Hstop fuel prompts (fresh_world ctx x) eq_refl eq_refl Hfuel) as H.
  unfold wp in H. by destruct (runAgentLoop cfg fuel prompts _) as [[]].
Qed.

(** ** A run *)

(** A router that always asks for the tool [a], and a stop hook. *)
Definition run_cfg : AgentLoopConfig script :=
  let c := example_cfg None [] in
  {| model_id := model_id c; model_api := model_api c; model_provider := model_provider c;
     systemPrompt := systemPrompt c; tools := tools c; transformContext := transformContext c;
     convertToLlm := convertToLlm c; getSystemPrompt := getSystemPrompt c; getApiKey := getApiKey c;
     apiKey := apiKey c; streamFunction := streamFunction c;
     shouldStopAfterTurn := Some (fun _ => ok true); shouldStopBeforeTurn := shouldStopBeforeTurn c;
     getSteeringMessages := getSteeringMessages c; getFollowUpMessages := getFollowUpMessages c;
     getContinuationMessages := getContinuationMessages c;
     preTurnRouter := Some (fun _ _ _ => ok (Some {| r_toolName := js "a"; r_arguments := None |}));
     maxConsecutiveReflexes := Some 2; toolExecution := toolExecution c; beforeToolCall := beforeToolCall c;
     afterToolCall := afterToolCall c; validateToolArguments := validateToolArguments c; listener := listener c;
     now := now c; randomUUID := randomUUID c; interleaving := interleaving c |}.

Lemma run_cfg_protocol : protocol run_cfg.
Proof.
  split.
  - intros llm x resp [= <-]. left. repeat constructor; intros y p; discriminate.
  - intros e x err _. discriminate.
Qed.

Definition run_prompts : list AgentMessage := [User {| u_content := CString (js "hi"); u_timestamp := 0 |}].
Definition run_script : script := [two_calls].
Abbreviation a_run := (runAgentLoop run_cfg 4 run_prompts (fresh_world [] run_script)).

(** Two reflexes, then the turn of the provider, whose three calls are answered. *)
Example a_run_log :
  match a_run with
  | (Ok ms, w) => length ms = 9%nat /\
      (fun t => length t.2) <$> turn_ends (log_of (trace w)) = [1; 1; 3]%nat
  | _ => False
  end.
Proof. by vm_compute. Qed.

Lemma runAgentLoop_events_witness :
  protocol run_cfg /\ is_Some (stage_of (trace a_run.2)) /\
  (forall ms, a_run.1 = Ok ms -> complete_run (trace a_run.2)).
Proof.
  split; [exact run_cfg_protocol|].
  assert (H : let '(o, w) := a_run in is_Some (stage_of (trace w)) /\
    (forall ms, o = Ok ms -> complete_run (trace w) /\ last (log_of (trace w)) = Some (Frame (agent_end ms))))
    by exact (runAgentLoop_events run_cfg run_cfg_protocol 4 run_prompts [] run_script).
  destruct a_run as [o w]. destruct H as [Hs Hend]. split; [exact Hs|].
  intros ms Hms. exact (proj1 (Hend ms Hms)).
Defined.

Definition run_messages : list AgentMessage := match a_run with (Ok ms, _) => ms | _ => [] end.

Lemma runAgentLoop_messages_witness :
  a_run = (Ok run_messages, a_run.2) /\ context a_run.2 = [] ++ run_messages /\ said (log_of (trace a_run.2)) = run_messages.
Proof.
  assert (Hrun : a_run = (Ok run_messages, a_run.2)) by (vm_compute; reflexivity).
  destruct (runAgentLoop_messages run_cfg run_cfg_protocol 4 run_prompts [] run_messages run_script a_run.2 Hrun)
    as (Hc & _ & Hs).
  split; [exact Hrun|]. split; [exact Hc|exact Hs].
Defined.

Lemma runAgentLoop_answers_witness :
  a_run = (Ok run_messages, a_run.2) /\ turns_final (turn_ends (log_of (trace a_run.2))) (aborted a_run.2).
Proof.
  assert (Hrun : a_run = (Ok run_messages, a_run.2)) by (vm_compute; reflexivity).
  split; [exact Hrun|].
  exact (runAgentLoop_answers run_cfg run_cfg_protocol 4 run_prompts [] run_messages run_script a_run.2 Hrun).
Defined.

Lemma runAgentLoop_reflexes_witness :
  a_run = (Ok run_messages, a_run.2) /\ reflexes_from 2 (0, false) (log_of (trace a_run.2)).
Proof.
  assert (Hrun : a_run = (Ok run_messages, a_run.2)) by (vm_compute; reflexivity).
  split; [exact Hrun|].
  exact (runAgentLoop_reflexes run_cfg run_cfg_protocol 4 run_prompts [] run_messages run_script a_run.2 Hrun).
Defined.

Lemma runAgentLoop_stops_witness :
  (Z.to_nat (max_reflexes run_cfg) + 2 <= 4)%nat /\ a_run.1 <> NoFuel.
Proof.
  split; [vm_compute; lia|].
  apply (runAgentLoop_stops run_cfg run_cfg_protocol (fun _ => ok true) eq_refl (fun _ _ => eq_refl)).
  vm_compute. lia.
Defined.

(** ** A listener that breaks the contract

    The provider's answer is announced as complete to a listener that notices an abort and fails with its error.
    The handler of aborts in [streamAssistantResponse] takes the error for one of the request, replaces the answer
    by an aborted one and announces that too: the run returns, and its answer has ended twice. *)
Definition aborting_cfg : AgentLoopConfig script :=
  let c := example_cfg None [] in
  {| model_id := model_id c; model_api := model_api c; model_provider := model_provider c;
     systemPrompt := systemPrompt c; tools := tools c; transformContext := transformContext c;
     convertToLlm := convertToLlm c; getSystemPrompt := getSystemPrompt c; getApiKey := getApiKey c;
     apiKey := apiKey c; streamFunction := streamFunction c;
     shouldStopAfterTurn := shouldStopAfterTurn c; shouldStopBeforeTurn := shouldStopBeforeTurn c;
     getSteeringMessages := getSteeringMessages c; getFollowUpMessages := getFollowUpMessages c;
     getContinuationMessages := getContinuationMessages c; preTurnRouter := preTurnRouter c;
     maxConsecutiveReflexes := maxConsecutiveReflexes c; toolExecution := toolExecution c;
     beforeToolCall := beforeToolCall c; afterToolCall := afterToolCall c;
     validateToolArguments := validateToolArguments c;
     listener := fun e x => match e with
       | message_end (Assistant m) =>
           if bool_decide (stopReason m = Stop)
           then {| e_error := Some (ErrorObject (js "AbortError") (js "stopped")); e_abort := true; e_ext := x |}
           else {| e_error := None; e_abort := false; e_ext := x |}
       | _ => {| e_error := None; e_abort := false; e_ext := x |} end;
     now := now c; randomUUID := randomUUID c; interleaving := interleaving c |}.

Example aborting_listener :
  match runAgentLoop aborting_cfg 4 run_prompts (fresh_world [] [blank [] Stop]) with
  | (Ok ms, w) => length ms = 2%nat /\
      omap (fun e => match e with message_end (Assistant m) => Some (stopReason m) | _ => None end) (trace w) = [Stop; Aborted] /\
      stage_of (trace w) = None
  | _ => False
  end.
Proof. by vm_compute. Qed.
