(* ===== verification/AgentOutside.v ===== *)
(** * What the agent loop does to the outside

    The loop touches the state of its caller only through the calls of its
    configuration and through the events it emits. An invariant that these keep
    holds through a whole run, whether it returns, fails or runs out of fuel. *)

From stdpp Require Import gmultiset.
From S2P Require Import Prelude JsString JsNumber Messages Jev AgentTypes AgentEvents AgentTools AgentLoop.
Local Open Scope Z_scope.

Section contained.
Context {X : Type} (R : X -> X -> Prop).

(** A call changes the outside within [R]. *)
Definition stays {A} (f : X -> reply X A) : Prop := forall x, R x (r_ext (f x)).
Definition good_execution (e : execution X) : Prop :=
  Forall (fun chunk => forall x, R x (chunk x).2) (chunks e) /\ stays (finish e).
Definition good_tool (t : AgentTool X) : Prop :=
  forall i a x, R x (execute t i a x).1 /\ good_execution (execute t i a x).2.
Definition good_response (r : response X) : Prop := Forall stays (pulls r) /\ stays (response_result r).
Definition good_poll {A} (p : option (X -> reply X A)) : Prop := match p with Some f => stays f | None => True end.

(** Every call of a configuration, its listener apart, changes the outside within [R]. *)
Record contained (cfg : AgentLoopConfig X) : Prop := {
  c_transform : match transformContext cfg with Some f => forall ms, stays (f ms) | None => True end;
  c_convert : forall ms, stays (convertToLlm cfg ms);
  c_key : match getApiKey cfg with Some f => forall p, stays (f p) | None => True end;
  c_stream : forall llm, stays (streamFunction cfg llm);
  c_response : forall llm x resp, r_value (streamFunction cfg llm x) = Fulfilled resp -> good_response resp;
  c_stop_after : match shouldStopAfterTurn cfg with Some f => forall tc, stays (f tc) | None => True end;
  c_stop_before : match shouldStopBeforeTurn cfg with Some f => forall x, R x (f x).2 | None => True end;
  c_steering : good_poll (getSteeringMessages cfg);
  c_followUp : good_poll (getFollowUpMessages cfg);
  c_continuation : match getContinuationMessages cfg with Some f => forall tc, stays (f tc) | None => True end;
  c_router : match preTurnRouter cfg with Some f => forall i n ms, stays (f i n ms) | None => True end;
  c_before : match beforeToolCall cfg with Some f => forall am c a ms, stays (f am c a ms) | None => True end;
  c_after : match afterToolCall cfg with Some f => forall am c a r b ms, stays (f am c a r b ms) | None => True end;
  c_tools : Forall good_tool (tools cfg);
  c_uuid : forall x, R x (randomUUID cfg x).2;
  c_refl : forall x, R x x }.
End contained.

Section keeps.
Context {X : Type} (cfg : AgentLoopConfig X) (R : X -> X -> Prop) (HR : contained R cfg).
Context (I : world X -> Prop).
Hypothesis I_ext : forall w x ab, I w -> R (ext w) x -> I (set_ext x ab w).
Hypothesis I_context : forall f w, I w -> I (set_context f w).
Hypothesis I_new : forall f w, I w -> I (set_newMessages f w).
Hypothesis I_partial : forall p w, I w -> I (set_partialMessage p w).
Hypothesis I_emit : forall e w ab, I w -> I (set_ext (e_ext (listener cfg e (ext w))) ab (log_event e w)).

(** [m] keeps the invariant, and what it returns satisfies [V]. *)
Definition gives {A} (V : A -> Prop) (m : M X A) : Prop :=
  forall w, I w -> I (m w).2 /\ forall a, (m w).1 = Ok a -> V a.
Abbreviation keeps := (gives (fun _ => True)).

Lemma gives_ret {A} (V : A -> Prop) a : V a -> gives V (mret a).
Proof. intros Ha w Hw. split; [done|]. by intros b [= <-]. Qed.
Lemma outer_ret {A} (a : A) : keeps (mret a).
Proof. by apply gives_ret. Qed.
Lemma gives_throw {A} (V : A -> Prop) e : gives V (throw e).
Proof. by intros w Hw. Qed.
Lemma gives_no_fuel {A} (V : A -> Prop) : gives V no_fuel.
Proof. by intros w Hw. Qed.
Lemma gives_bind {A B} (V : A -> Prop) (W : B -> Prop) (m : M X A) (k : A -> M X B) :
  gives V m -> (forall a, V a -> gives W (k a)) -> gives W (m ≫= k).
Proof.
  intros Hm Hk w Hw. specialize (Hm w Hw). unfold mbind, M_bind. destruct (m w) as [[a|e|] w']; simpl in *.
  - apply Hk; [by apply Hm|apply Hm].
  - by split; [apply Hm|].
  - by split; [apply Hm|].
Qed.
Lemma outer_bind {A B} (W : B -> Prop) (m : M X A) (k : A -> M X B) : keeps m -> (forall a, gives W (k a)) -> gives W (m ≫= k).
Proof. intros Hm Hk. eapply gives_bind; [exact Hm|auto]. Qed.
Lemma gives_catch {A} (V : A -> Prop) (m : M X A) h : gives V m -> (forall e, gives V (h e)) -> gives V (try_catch m h).
Proof.
  intros Hm Hh w Hw. specialize (Hm w Hw). unfold try_catch. destruct (m w) as [[a|e|] w']; simpl in *; [done| |done].
  apply Hh, Hm.
Qed.
Lemma gives_gets {A} (f : world X -> A) : keeps (gets f).
Proof. by intros w Hw. Qed.
Lemma gives_weaken {A} (V W : A -> Prop) (m : M X A) : gives V m -> (forall a, V a -> W a) -> gives W m.
Proof. intros Hm HVW w Hw. destruct (Hm w Hw) as [? HV]. split; [done|]. eauto. Qed.
Lemma gives_race {A} (V : A -> Prop) (op : X -> reply X A) :
  stays R op -> (forall x a, r_value (op x) = Fulfilled a -> V a) -> gives V (raceWithAbort op).
Proof.
  intros Hop HV w Hw. unfold raceWithAbort. specialize (Hop (ext w)).
  destruct (aborted w); [split; [by apply I_ext|done]|].
  destruct (r_value (op (ext w))) as [a|e|] eqn:Ea; (split; [by apply I_ext|]); [|done..].
  intros b [= <-]. eauto.
Qed.
Lemma keeps_race {A} (op : X -> reply X A) : stays R op -> keeps (raceWithAbort op).
Proof. intros Hop. by apply gives_race. Qed.
Lemma keeps_sync {A} (f : X -> A * X) : (forall x, R x (f x).2) -> keeps (sync f).
Proof. intros Hf w Hw. unfold sync. specialize (Hf (ext w)). destruct (f (ext w)) as [a x]. split; [by apply I_ext|done]. Qed.
Lemma keeps_throwIfAborted : keeps throwIfAborted.
Proof. intros w Hw. unfold throwIfAborted. by destruct (aborted w). Qed.
Lemma keeps_emit e : keeps (emit cfg e).
Proof.
  intros w Hw. unfold emit. pose proof (I_emit e w (e_abort (listener cfg e (ext w))) Hw) as H.
  by destruct (e_error (listener cfg e (ext w))).
Qed.
Lemma keeps_push_context m : keeps (push_context m).
Proof. intros w Hw. split; [by apply I_context|done]. Qed.
Lemma keeps_push_new m : keeps (push_newMessages m).
Proof. intros w Hw. split; [by apply I_new|done]. Qed.
Lemma keeps_replace_last m : keeps (replace_last m).
Proof. intros w Hw. split; [by apply I_context|done]. Qed.
Lemma keeps_partial p : keeps (modify (set_partialMessage p)).
Proof. intros w Hw. split; [by apply I_partial|done]. Qed.
Lemma keeps_set_new f : keeps (modify (set_newMessages f)).
Proof. intros w Hw. split; [by apply I_new|done]. Qed.
Lemma keeps_set_context f : keeps (modify (set_context f)).
Proof. intros w Hw. split; [by apply I_context|done]. Qed.

#[local] Hint Resolve outer_ret gives_throw gives_no_fuel gives_gets keeps_race keeps_sync keeps_throwIfAborted keeps_emit
  keeps_push_context keeps_push_new keeps_replace_last keeps_partial keeps_set_new keeps_set_context : keeps.

Ltac step :=
  match goal with
  | |- gives _ (match ?x with _ => _ end) => destruct x
  | |- gives _ (_ ≫= _) => apply outer_bind
  | |- gives _ (try_catch _ _) => apply gives_catch
  | H : gives _ ?m |- gives _ ?m => exact H
  | |- gives _ _ => solve [auto with keeps nocore]
  | |- forall _, _ => intros ?
  end.
Ltac keeps_tac := repeat step.

Lemma keeps_settle {A} (m : M X A) : keeps m -> keeps (settlePostTurn m).
Proof. intros Hm. unfold settlePostTurn. by keeps_tac. Qed.
Lemma keeps_poll poll : good_poll R poll -> keeps (pollMessagesUnlessAborted poll).
Proof. intros Hp. unfold pollMessagesUnlessAborted. destruct poll; keeps_tac. Qed.
#[local] Hint Resolve keeps_settle keeps_poll : keeps.

(** ** Tool calls *)

(** A prepared call has a tool of the configuration, and a running thread only makes calls within [R]. *)
Definition good_prepared (p : PreparedToolCall (X := X)) : Prop := good_tool R (p_tool p).
Definition good_preparation (p : Preparation (X := X)) : Prop := match p with Prepared p => good_prepared p | Immediate _ _ => True end.
Definition good_thread (t : thread (X := X)) : Prop :=
  match t with
  | TRunning _ rest fin _ => Forall (fun chunk => forall x, R x (chunk x).2) rest /\ stays R fin
  | _ => True
  end.

Lemma find_tool_good nm t : find_tool cfg nm = Some t -> good_tool R t.
Proof.
  unfold find_tool. intros H%List.find_some. pose proof (c_tools R cfg HR) as Ht. rewrite Forall_forall in Ht.
  apply Ht, list_elem_of_In. apply H.
Qed.

Lemma keeps_of_sum {A} (r : A + thrown) : keeps (of_sum (X := X) r).
Proof. unfold of_sum. keeps_tac. Qed.
#[local] Hint Resolve keeps_of_sum : keeps.

Lemma gives_prepare am c : gives good_preparation (prepareToolCall cfg am c).
Proof.
  unfold prepareToolCall. destruct (find_tool cfg (name c)) as [t|] eqn:Et; [|by apply gives_ret].
  apply find_tool_good in Et. pose proof (c_before R cfg HR) as Hb.
  apply gives_catch; [|intros e; by apply gives_ret]. apply outer_bind; [keeps_tac|]. intros pc.
  apply outer_bind; [keeps_tac|]. intros a. destruct (beforeToolCall cfg) as [hook|]; [|by apply gives_ret].
  apply outer_bind; [keeps_tac|]. intros ms. apply outer_bind; [by apply keeps_race|].
  intros [b|]; [destruct (block b)|]; by apply gives_ret.
Qed.

Lemma keeps_finalize am p e : keeps (finalizeExecutedToolCall cfg am p e).
Proof.
  unfold finalizeExecutedToolCall. pose proof (c_after R cfg HR) as Ha. destruct (afterToolCall cfg) as [hook|]; keeps_tac.
Qed.
Lemma keeps_failed e : keeps (failed_execution (X := X) e).
Proof. unfold failed_execution. keeps_tac. Qed.
#[local] Hint Resolve keeps_finalize keeps_failed : keeps.

Lemma gives_start_thread p : good_prepared p -> gives good_thread (start_thread p).
Proof.
  intros Hp. unfold start_thread. apply gives_catch.
  - apply outer_bind; [keeps_tac|]. intros _. apply (gives_bind (good_execution R)).
    + intros w Hw. unfold sync. destruct (Hp (id (p_toolCall p)) (p_args p) (ext w)) as [H1 H2].
      destruct (execute _ _ _ _) as [x ex]. simpl in *. split; [by apply I_ext|]. by intros a [= <-].
    + intros ex Hex. by apply gives_ret.
  - intros e. apply outer_bind; [keeps_tac|]. intros x. by apply gives_ret.
Qed.

Lemma keeps_publish p partials err : keeps (publish cfg p partials err).
Proof. revert err. induction partials as [|r partials IH]; intros err; cbn [publish]; keeps_tac; apply IH. Qed.
#[local] Hint Resolve keeps_publish : keeps.

Lemma gives_step_running p rest fin err : Forall (fun chunk => forall x, R x (chunk x).2) rest -> stays R fin ->
  gives good_thread (step_running cfg p rest fin err).
Proof.
  intros Hr Hf. unfold step_running. apply gives_catch.
  - apply outer_bind; [keeps_tac|]. intros _. destruct rest as [|chunk rest].
    + apply outer_bind; [keeps_tac|]. intros r. apply outer_bind; [keeps_tac|]. intros ab.
      destruct err; [destruct ab|]; by (apply gives_ret || apply gives_throw).
    + apply Forall_cons in Hr as [Hc Hr]. apply outer_bind.
      { intros w Hw. specialize (Hc (ext w)). destruct (chunk (ext w)) as [[ps ab] x]. split; [by apply I_ext|done]. }
      intros piece. apply outer_bind; [keeps_tac|]. intros err'. apply outer_bind.
      { intros w Hw. split; [|done]. apply I_ext; [done|]. apply (c_refl R cfg HR). }
      intros _. by apply gives_ret.
  - intros e. apply outer_bind; [keeps_tac|]. intros x. by apply gives_ret.
Qed.

Lemma gives_thread_step am t : good_thread t -> gives good_thread (thread_step cfg am t).
Proof.
  intros Ht. destruct t as [p rest fin err|p e|f|f]; cbn [thread_step].
  - destruct Ht. by apply gives_step_running.
  - apply outer_bind; [keeps_tac|]. intros f. by apply gives_ret.
  - apply outer_bind; [apply keeps_emit|]. intros _. by apply gives_ret.
  - by apply gives_ret.
Qed.

Lemma gives_iterate am n t : good_thread t -> gives good_thread (iterate cfg am n t).
Proof.
  revert t. induction n as [|n IH]; intros t Ht; cbn [iterate]; [by apply gives_ret|].
  eapply gives_bind; [by apply gives_thread_step|]. apply IH.
Qed.

Lemma keeps_drain am t : good_thread t -> keeps (drain cfg am t).
Proof.
  intros Ht. unfold drain. eapply gives_bind; [by apply gives_iterate|]. intros t' _. destruct t'; keeps_tac.
Qed.

Lemma gives_thread_of c p : good_preparation p -> gives good_thread (thread_of c p).
Proof. intros Hp. destruct p; [by apply gives_start_thread|by apply gives_ret]. Qed.

Lemma keeps_emit_result m : keeps (emitToolResultMessage cfg m).
Proof. unfold emitToolResultMessage. keeps_tac. Qed.
Lemma keeps_emit_end f : keeps (emitToolExecutionEnd cfg f).
Proof. apply keeps_emit. Qed.
#[local] Hint Resolve keeps_emit_result keeps_emit_end : keeps.

Lemma keeps_sequential am calls finalized ms : keeps (sequential_loop cfg am calls finalized ms).
Proof.
  revert finalized ms. induction calls as [|c calls IH]; intros finalized ms; cbn [sequential_loop]; [apply outer_ret|].
  apply outer_bind; [keeps_tac|]. intros [|]; [apply outer_ret|]. apply outer_bind; [keeps_tac|]. intros _.
  eapply gives_bind; [apply gives_prepare|]. intros p Hp. eapply gives_bind; [by apply gives_thread_of|]. intros t Ht.
  eapply gives_bind; [by apply keeps_drain|]. intros f _. keeps_tac.
Qed.

Lemma gives_prepare_all am calls :
  gives (Forall (fun e : FinalizedToolCallOutcome + PreparedToolCall => match e with inr p => good_prepared p | inl _ => True end))
    (prepare_all cfg am calls).
Proof.
  induction calls as [|c calls IH]; cbn [prepare_all]; [by apply gives_ret|].
  apply outer_bind; [keeps_tac|]. intros _. eapply gives_bind; [apply gives_prepare|]. intros p Hp.
  eapply (gives_bind (fun e : FinalizedToolCallOutcome + PreparedToolCall => match e with inr p => good_prepared p | inl _ => True end)).
  - destruct p; [by apply gives_ret|]. apply outer_bind; [keeps_tac|]. intros _. by apply gives_ret.
  - intros e He. eapply gives_bind; [exact IH|]. intros es Hes. apply gives_ret. by constructor.
Qed.

Lemma gives_start_all entries :
  Forall (fun e : FinalizedToolCallOutcome + PreparedToolCall => match e with inr p => good_prepared p | inl _ => True end) entries ->
  gives (Forall good_thread) (start_all entries).
Proof.
  induction 1 as [|e entries He _ IH]; cbn [start_all]; [by apply gives_ret|].
  eapply (gives_bind good_thread); [destruct e; [by apply gives_ret|by apply gives_start_thread]|].
  intros t Ht. eapply gives_bind; [exact IH|]. intros ts Hts. apply gives_ret. by constructor.
Qed.

Lemma gives_run_schedule am schedule pool : Forall good_thread pool ->
  gives (Forall good_thread) (run_schedule cfg am schedule pool).
Proof.
  revert pool. induction schedule as [|i schedule IH]; intros pool Hp; cbn [run_schedule]; [by apply gives_ret|].
  destruct (pool !! i) as [t|] eqn:Et; [|by apply IH].
  eapply gives_bind; [apply gives_thread_step; by eapply Forall_lookup_1|].
  intros t' Ht. apply IH. by apply Forall_insert.
Qed.

Lemma keeps_drain_all am pool : Forall good_thread pool -> keeps (drain_all cfg am pool).
Proof.
  induction 1 as [|t pool Ht _ IH]; cbn [drain_all]; [apply outer_ret|].
  apply outer_bind; [by apply keeps_drain|]. intros f. keeps_tac.
Qed.

Lemma keeps_emit_results finalized : keeps (emit_results cfg finalized).
Proof. induction finalized as [|f finalized IH]; cbn [emit_results]; keeps_tac. Qed.
#[local] Hint Resolve keeps_emit_results keeps_sequential : keeps.

Lemma keeps_tools am : keeps (executeToolCalls cfg am).
Proof.
  unfold executeToolCalls. cbv zeta. destruct (_ || _); [apply keeps_sequential|]. unfold executeToolCallsParallel.
  eapply gives_bind; [apply gives_prepare_all|]. intros es Hes. eapply gives_bind; [by apply gives_start_all|]. intros pool Hpool.
  apply outer_bind; [keeps_tac|]. intros schedule. eapply gives_bind; [by apply gives_run_schedule|]. intros pool' Hp.
  apply outer_bind; [by apply keeps_drain_all|]. intros f. keeps_tac.
Qed.
#[local] Hint Resolve keeps_tools : keeps.

(** ** Streaming, turns and runs *)

Lemma keeps_finish_message final : keeps (finish_message cfg final).
Proof. unfold finish_message. keeps_tac. Qed.
Lemma keeps_finish_aborted : keeps (finishAbortedMessage cfg).
Proof. unfold finishAbortedMessage. apply outer_bind; [keeps_tac|]. intros p. apply outer_bind; [keeps_tac|]. intros ts. apply keeps_finish_message. Qed.
#[local] Hint Resolve keeps_finish_message keeps_finish_aborted : keeps.

Lemma gives_open : gives (good_response R) (open_response cfg).
Proof.
  destruct HR. unfold open_response. repeat (apply outer_bind; [keeps_tac; auto|]; intros).
  apply gives_race; [done|]. eauto.
Qed.

Lemma keeps_stream_loop resp todo : good_response R resp -> Forall (stays R) todo -> keeps (stream_loop cfg resp todo).
Proof.
  intros [_ Hres]. induction 1 as [|next rest Hn _ IH]; cbn [stream_loop]; keeps_tac.
Qed.

Lemma keeps_response : keeps (streamAssistantResponse cfg).
Proof.
  unfold streamAssistantResponse. apply outer_bind; [keeps_tac|]. intros _. apply gives_catch; [|keeps_tac].
  eapply gives_bind; [apply gives_open|]. intros resp Hr. apply keeps_stream_loop; [done|apply Hr].
Qed.

Lemma keeps_inject ms : keeps (inject cfg ms).
Proof. induction ms as [|m ms IH]; cbn [inject]; keeps_tac. Qed.
Lemma keeps_push_results rs : keeps (push_results (X := X) rs).
Proof. induction rs as [|m ms IH]; cbn [push_results]; keeps_tac. Qed.
Lemma keeps_announce ms : keeps (announce cfg ms).
Proof. induction ms as [|m ms IH]; cbn [announce]; keeps_tac. Qed.
Lemma keeps_end_run : keeps (end_run cfg).
Proof. unfold end_run. keeps_tac. Qed.
Lemma keeps_begin l : keeps (begin_turn cfg l).
Proof. unfold begin_turn. keeps_tac. Qed.
Lemma keeps_shouldStop l : keeps (shouldStop cfg l).
Proof. pose proof (c_stop_before R cfg HR). unfold shouldStop. destruct (shouldStopBeforeTurn cfg); keeps_tac. Qed.
Lemma keeps_turn_context m rs : keeps (turn_context (X := X) m rs).
Proof. apply gives_gets. Qed.
Lemma keeps_router i n : keeps (resolvePreTurnReflex cfg i n).
Proof. pose proof (c_router R cfg HR). unfold resolvePreTurnReflex. destruct (preTurnRouter cfg); keeps_tac. Qed.
#[local] Hint Resolve keeps_response keeps_inject keeps_push_results keeps_announce keeps_end_run keeps_begin
  keeps_shouldStop keeps_turn_context keeps_router : keeps.

Lemma stays_return {A} (a : A) : stays R (fun x => {| r_value := Fulfilled a; r_abort := false; r_ext := x |}).
Proof. intros x. apply (c_refl R cfg HR). Qed.
#[local] Hint Resolve stays_return : keeps.

Lemma keeps_reflex_turn l r : keeps (reflex_turn cfg l r).
Proof. pose proof (c_uuid R cfg HR). unfold reflex_turn. keeps_tac. Qed.
Lemma keeps_after_turn m rs l : keeps (after_turn cfg m rs l).
Proof.
  pose proof (c_stop_after R cfg HR). pose proof (c_steering R cfg HR). unfold after_turn. apply outer_bind; [keeps_tac|].
  intros tc. apply outer_bind; [|keeps_tac]. apply keeps_settle, keeps_race.
  destruct (shouldStopAfterTurn cfg); [auto|apply stays_return].
Qed.
Lemma keeps_run_tools m : keeps (run_tools cfg m).
Proof. unfold run_tools. keeps_tac. Qed.
#[local] Hint Resolve keeps_reflex_turn keeps_after_turn keeps_run_tools : keeps.
Lemma keeps_turn l : keeps (turn cfg l).
Proof. unfold turn, provider_turn. keeps_tac. Qed.
Lemma keeps_continuation l : keeps (continuation cfg l).
Proof.
  pose proof (c_continuation R cfg HR). unfold continuation. apply outer_bind; [keeps_tac|]. intros [|]; [keeps_tac|].
  apply outer_bind; [|keeps_tac]. destruct (lastTurn l) as [[m rs]|]; [|keeps_tac]. apply outer_bind; [keeps_tac|]. intros tc.
  apply keeps_settle, keeps_race. destruct (getContinuationMessages cfg); [auto|apply stays_return].
Qed.
#[local] Hint Resolve keeps_turn keeps_continuation : keeps.
Lemma keeps_between l : keeps (between_turns cfg l).
Proof. pose proof (c_followUp R cfg HR). unfold between_turns. keeps_tac. Qed.
#[local] Hint Resolve keeps_between : keeps.
Lemma keeps_run_from fuel l : keeps (run_from cfg fuel l).
Proof. revert l. induction fuel as [|fuel IH]; intros l; cbn [run_from]; keeps_tac. Qed.
#[local] Hint Resolve keeps_run_from : keeps.
Lemma keeps_runLoop fuel : keeps (runLoop cfg fuel).
Proof. pose proof (c_steering R cfg HR). unfold runLoop. keeps_tac. Qed.
#[local] Hint Resolve keeps_runLoop : keeps.

Lemma keeps_runAgentLoop fuel prompts : keeps (runAgentLoop cfg fuel prompts).
Proof. unfold runAgentLoop. keeps_tac. Qed.
Lemma keeps_runAgentLoopContinue fuel : keeps (runAgentLoopContinue cfg fuel).
Proof. unfold runAgentLoopContinue. keeps_tac. Qed.
End keeps.
