(* ===== verification/AgentQueues.v ===== *)
(** * The queues of an agent (packages/agent/src/agent.ts)

    Messages that wait to be injected into a run, in batches. A queue is read
    one batch at a time or whole. *)

(* Source aliases:
   AT = src/packages/agent/src/agent.ts *)

From S2P Require Import Prelude JsString JsNumber Messages.

(** AT 59-59 QueueMode. *)
Inductive QueueMode := all | one_at_a_time.
#[export] Instance QueueMode_eq_dec : EqDecision QueueMode.
Proof. solve_decision. Defined.

(** AT 121-124 PendingMessageQueue. *)
Record PendingMessageQueue := { mode : QueueMode; batches : list (list AgentMessage) }.

Definition set_batches (bs : list (list AgentMessage)) (q : PendingMessageQueue) : PendingMessageQueue :=
  {| mode := mode q; batches := bs |}.

(** AT 126-131 PendingMessageQueue.enqueue. A single message is given as the batch of it. *)
Definition enqueue (batch : list AgentMessage) (q : PendingMessageQueue) : PendingMessageQueue :=
  if Nat.ltb 0 (length batch) then set_batches (batches q ++ [batch]) q else q.

(** AT 133-135 PendingMessageQueue.hasItems. *)
Definition hasItems (q : PendingMessageQueue) : bool := Nat.ltb 0 (length (batches q)).

(** AT 137-150 PendingMessageQueue.drain. *)
Definition drain (q : PendingMessageQueue) : list AgentMessage * PendingMessageQueue :=
  if bool_decide (mode q = all) then (concat (batches q), set_batches [] q)
  else match batches q with
       | [] => ([], q)
       | first :: rest => (first, set_batches rest q)
       end.

(** AT 152-154 PendingMessageQueue.clear. *)
Definition clear (q : PendingMessageQueue) : PendingMessageQueue := set_batches [] q.

(** AT 159-165 PendingMessageQueue.removeWhere. The loop. *)
Fixpoint remove_loop (predicate : AgentMessage -> bool) (todo : list (list AgentMessage))
    (removed : list AgentMessage) (retained : list (list AgentMessage)) : list AgentMessage * list (list AgentMessage) :=
  match todo with
  | [] => (removed, retained)
  | batch :: rest =>
      if existsb predicate batch then remove_loop predicate rest (removed ++ batch) retained
      else remove_loop predicate rest removed (retained ++ [batch])
  end.

(** AT 156-168 PendingMessageQueue.removeWhere. *)
Definition removeWhere (predicate : AgentMessage -> bool) (q : PendingMessageQueue) : list AgentMessage * PendingMessageQueue :=
  let '(removed, retained) := remove_loop predicate (batches q) [] [] in (removed, set_batches retained q).

(** ** Sequences of operations *)

(** What the owner of a queue does to it. *)
Inductive queue_op := Enqueue (batch : list AgentMessage) | SetMode (m : QueueMode) | Drain | RemoveWhere (p : AgentMessage -> bool) | Clear.

(** What an operation takes out of the queue: the result of a drain, with the mode it was made in, or messages
    that were withdrawn. *)
Inductive taken := Delivered (m : QueueMode) (ms : list AgentMessage) | Withdrawn (ms : list AgentMessage) | Nothing.

Definition apply_op (op : queue_op) (q : PendingMessageQueue) : taken * PendingMessageQueue :=
  match op with
  | Enqueue batch => (Nothing, enqueue batch q)
  | SetMode m => (Nothing, {| mode := m; batches := batches q |})
  | Drain => let '(ms, q') := drain q in (Delivered (mode q) ms, q')
  | RemoveWhere p => let '(ms, q') := removeWhere p q in (Withdrawn ms, q')
  | Clear => (Withdrawn (concat (batches q)), clear q)
  end.

Fixpoint run_ops (ops : list queue_op) (q : PendingMessageQueue) : list taken * PendingMessageQueue :=
  match ops with
  | [] => ([], q)
  | op :: rest => let '(t, q1) := apply_op op q in let '(ts, q2) := run_ops rest q1 in (t :: ts, q2)
  end.

(** Queues hold no empty batch. *)
Definition wf_queue (q : PendingMessageQueue) : Prop := Forall (fun b => b <> []) (batches q).

(** The batches that went in. *)
Definition enqueued (ops : list queue_op) : list (list AgentMessage) :=
  ops ≫= fun op => match op with Enqueue (m :: b) => [m :: b] | _ => [] end.

(** ** Lemmas *)

Lemma remove_loop_spec p todo removed retained :
  remove_loop p todo removed retained =
  (removed ++ concat (List.filter (existsb p) todo), retained ++ List.filter (fun b => negb (existsb p b)) todo).
Proof.
  revert removed retained. induction todo as [|b todo IH]; intros; cbn; [by rewrite !app_nil_r|].
  destruct (existsb p b); cbn; by rewrite IH, <- (assoc_L app).
Qed.

Lemma removeWhere_spec p q :
  removeWhere p q = (concat (List.filter (existsb p) (batches q)), set_batches (List.filter (fun b => negb (existsb p b)) (batches q)) q).
Proof. unfold removeWhere. by rewrite remove_loop_spec. Qed.

Lemma enqueue_batches b q : batches (enqueue b q) = batches q ++ enqueued [Enqueue b].
Proof. destruct b; cbn; [by rewrite app_nil_r|done]. Qed.

Lemma wf_enqueue b q : wf_queue q -> wf_queue (enqueue b q).
Proof. unfold wf_queue. rewrite enqueue_batches, Forall_app. intros H. split; [done|]. destruct b; cbn; by repeat constructor. Qed.

(** A drain takes consecutive batches from the front, at most one of them when they are read one at a time. *)
Lemma queue_drain_spec q : exists g, (drain q).1 = concat g /\ batches q = g ++ batches (drain q).2 /\
  mode (drain q).2 = mode q /\ (mode q = all -> batches (drain q).2 = []) /\ (mode q = one_at_a_time -> (length g <= 1)%nat).
Proof.
  unfold drain. destruct q as [[] bs]; cbn.
  - exists bs. by rewrite app_nil_r.
  - destruct bs as [|b bs]; [by exists []; cbn; auto with lia|]. exists [b]. cbn. rewrite app_nil_r. split_and!; try done; lia.
Qed.

Lemma wf_drain q : wf_queue q -> wf_queue (drain q).2.
Proof. unfold wf_queue. destruct (queue_drain_spec q) as (g & _ & -> & _). by intros [_ ?]%Forall_app. Qed.

Lemma drain_nil q : wf_queue q -> (drain q).1 = [] -> batches q = [].
Proof.
  unfold wf_queue, drain. destruct q as [[] [|[|m b] bs]]; cbn; intros Hw; try done; by apply Forall_cons in Hw as [? _].
Qed.

Lemma drain_empty q : batches q = [] -> drain q = ([], q).
Proof. unfold drain. destruct q as [[] bs]; cbn; by intros ->. Qed.

Lemma hasItems_spec q : hasItems q = true <-> batches q <> [].
Proof. unfold hasItems. rewrite Nat.ltb_lt. destruct (batches q); cbn; split; (lia || done). Qed.

Lemma hasItems_false q : hasItems q = false <-> batches q = [].
Proof. unfold hasItems. rewrite Nat.ltb_ge. destruct (batches q); cbn; split; (lia || done). Qed.

(** ** Delivery *)

(** What was taken is whole batches, at most one when they are read one at a time. *)
Definition taken_batches (t : taken) (g : list (list AgentMessage)) : Prop :=
  match t with
  | Delivered m ms => ms = concat g /\ (m = one_at_a_time -> (length g <= 1)%nat)
  | Withdrawn ms => ms = concat g
  | Nothing => g = []
  end.
Definition delivered1 (t : taken) (g : list (list AgentMessage)) : list (list AgentMessage) :=
  match t with Delivered _ _ => g | _ => [] end.
Definition delivered (ts : list taken) (groups : list (list (list AgentMessage))) : list (list AgentMessage) :=
  concat (zip_with delivered1 ts groups).

Lemma filter_split {A} (p : A -> bool) (l : list A) : List.filter p l ++ List.filter (fun x => negb (p x)) l ≡ₚ l.
Proof.
  induction l as [|x l IH]; [done|]. cbn. destruct (p x); cbn; [by rewrite IH|]. by rewrite <- Permutation_middle, IH.
Qed.
Lemma filter_sublist {A} (p : A -> bool) (l : list A) : sublist (List.filter p l) l.
Proof. induction l as [|x l IH]; [constructor|]. cbn. destruct (p x); by constructor. Qed.

Lemma apply_op_spec op q : exists g, taken_batches (apply_op op q).1 g /\
  g ++ batches (apply_op op q).2 ≡ₚ batches q ++ enqueued [op] /\
  sublist (delivered1 (apply_op op q).1 g ++ batches (apply_op op q).2) (batches q ++ enqueued [op]).
Proof.
  destruct op as [b|m| |p|]; cbn [apply_op].
  - exists []. cbn [fst snd delivered1 app]. by rewrite enqueue_batches.
  - exists []. cbn. by rewrite app_nil_r.
  - destruct (queue_drain_spec q) as (g & H1 & H2 & H3 & H4 & H5). exists g. destruct (drain q) as [ms q']. cbn in *.
    rewrite app_nil_r, H2. done.
  - rewrite removeWhere_spec. eexists. cbn. rewrite app_nil_r. split_and!; [done|apply filter_split|apply filter_sublist].
  - exists (batches q). cbn. rewrite !app_nil_r. split_and!; try done. apply sublist_nil_l.
Qed.

Lemma enqueued_cons op ops : enqueued (op :: ops) = enqueued [op] ++ enqueued ops.
Proof. unfold enqueued. by rewrite !bind_cons, app_nil_r. Qed.

(** Whatever is done to a queue, in any order, every batch that went in is delivered whole, withdrawn
    whole or still waiting, exactly once; what is delivered and what still waits keeps the order it went in,
    and a queue read one batch at a time delivers at most one batch at each reading. *)
Theorem queue_delivery (ops : list queue_op) (q : PendingMessageQueue) :
  exists groups, Forall2 taken_batches (run_ops ops q).1 groups /\
    concat groups ++ batches (run_ops ops q).2 ≡ₚ batches q ++ enqueued ops /\
    sublist (delivered (run_ops ops q).1 groups ++ batches (run_ops ops q).2) (batches q ++ enqueued ops).
Proof.
  revert q. induction ops as [|op ops IH]; intros q; cbn [run_ops].
  { exists []. cbn. rewrite app_nil_r. by split_and!. }
  destruct (apply_op_spec op q) as (g & Hg & Hp & Hs). destruct (apply_op op q) as [t q1]. cbn in Hg, Hp, Hs.
  destruct (IH q1) as (gs & Hgs & Hps & Hss). destruct (run_ops ops q1) as [ts q2]. cbn in Hgs, Hps, Hss.
  exists (g :: gs). cbn [fst snd concat]. rewrite enqueued_cons, (assoc_L app (batches q)), <- !(assoc_L app). split_and!; [by constructor| |].
  - by rewrite Hps, !(assoc_L app), Hp.
  - unfold delivered. cbn [zip_with concat]. rewrite <- (assoc_L app). etrans; [by apply sublist_app; [done|exact Hss]|].
    rewrite !(assoc_L app). by apply sublist_app.
Qed.

(** Batches read one at a time, and the rest at once. *)
Example queue_ex :
  let m n := Custom {| customType := js "t"; c_content := CString []; display := true; c_details := None; c_timestamp := Z.of_nat n |} in
  (run_ops [Enqueue [m 1%nat; m 2%nat]; Enqueue [m 3%nat]; Drain; Enqueue [m 4%nat]; SetMode all; Drain; Drain]
     {| mode := one_at_a_time; batches := [] |}).1
  = [Nothing; Nothing; Delivered one_at_a_time [m 1%nat; m 2%nat]; Nothing; Nothing; Delivered all [m 3%nat; m 4%nat]; Delivered all []].
Proof. reflexivity. Qed.
