(* ===== verification/Agent.v ===== *)
(** * The agent (packages/agent/src/agent.ts)

    The object that owns the transcript and the queues and drives the loop:
    its state, how it follows the events of a run, and the entry points
    [prompt] and [continue]. The callbacks of a run may call the agent's own
    methods, so the outside of the loop ([Host]) holds the agent itself. *)

(* Source aliases:
   AT = src/packages/agent/src/agent.ts
   AG = src/packages/agent/src/types.ts *)

From stdpp Require Import gmap gmultiset.
From S2P Require Import Prelude JsString JsNumber Messages Jev AgentTypes AgentEvents AgentTools AgentLoop AgentRun.
From S2P Require Import AgentOutside AgentQueues.
Local Open Scope Z_scope.

(** ** State *)

(** AT 46-57 DEFAULT_MODEL. The part of a model the agent reads. *)
Record Model := { m_id : jsstr; m_api : jsstr; m_provider : jsstr }.
(** AT 46-57 DEFAULT_MODEL. *)
Definition DEFAULT_MODEL : Model := {| m_id := js "unknown"; m_api := js "unknown"; m_provider := js "unknown" |}.

(** AT 37-44 EMPTY_USAGE. *)
Definition EMPTY_USAGE : Usage := emptyUsage.

(** AT 61-66 MutableAgentState. The tools are an option of the run: it takes them when it starts. *)
Record AgentState := {
  st_systemPrompt : jsstr; st_model : Model; messages : list AgentMessage; isStreaming : bool;
  streamingMessage : option AgentMessage; pendingToolCalls : gset jsstr; st_errorMessage : option jsstr }.

(** AT 68-96 createMutableAgentState. *)
Definition createMutableAgentState (systemPrompt : option jsstr) (model : option Model) (initial : option (list AgentMessage)) : AgentState :=
  {| st_systemPrompt := default [] systemPrompt; st_model := default DEFAULT_MODEL model; messages := default [] initial;
     isStreaming := false; streamingMessage := None; pendingToolCalls := ∅; st_errorMessage := None |}.

(** AT 191-195 Agent. [activeRun] tells whether a run is active; its signal is the one of the run's world. *)
Record Agent := {
  _state : AgentState; steeringQueue : PendingMessageQueue; followUpQueue : PendingMessageQueue; activeRun : bool }.

Definition set_state (f : AgentState -> AgentState) (a : Agent) : Agent :=
  {| _state := f (_state a); steeringQueue := steeringQueue a; followUpQueue := followUpQueue a; activeRun := activeRun a |}.
Definition set_steering (q : PendingMessageQueue) (a : Agent) : Agent :=
  {| _state := _state a; steeringQueue := q; followUpQueue := followUpQueue a; activeRun := activeRun a |}.
Definition set_followUp (q : PendingMessageQueue) (a : Agent) : Agent :=
  {| _state := _state a; steeringQueue := steeringQueue a; followUpQueue := q; activeRun := activeRun a |}.
Definition set_active (b : bool) (a : Agent) : Agent :=
  {| _state := _state a; steeringQueue := steeringQueue a; followUpQueue := followUpQueue a; activeRun := b |}.

(** AT 225-241 Agent.constructor. *)
Definition new_agent (systemPrompt : option jsstr) (model : option Model) (initial : option (list AgentMessage))
    (steeringMode followUpMode : option QueueMode) : Agent :=
  {| _state := createMutableAgentState systemPrompt model initial;
     steeringQueue := {| mode := default one_at_a_time steeringMode; batches := [] |};
     followUpQueue := {| mode := default one_at_a_time followUpMode; batches := [] |};
     activeRun := false |}.

(** ** The queues of the agent *)

(** AT 289-291 Agent.steer. *)
Definition steer (ms : list AgentMessage) (a : Agent) : Agent := set_steering (enqueue ms (steeringQueue a)) a.
(** AT 294-296 Agent.followUp. *)
Definition followUp (ms : list AgentMessage) (a : Agent) : Agent := set_followUp (enqueue ms (followUpQueue a)) a.
(** AT 298-300 Agent.clearSteeringQueue. *)
Definition clearSteeringQueue (a : Agent) : Agent := set_steering (clear (steeringQueue a)) a.
(** AT 302-304 Agent.clearFollowUpQueue. *)
Definition clearFollowUpQueue (a : Agent) : Agent := set_followUp (clear (followUpQueue a)) a.
(** AT 306-309 Agent.clearAllQueues. *)
Definition clearAllQueues (a : Agent) : Agent := clearFollowUpQueue (clearSteeringQueue a).
(** AT 311-313 Agent.removeQueuedMessages. *)
Definition removeQueuedMessages (p : AgentMessage -> bool) (a : Agent) : list AgentMessage * Agent :=
  let '(steering, q) := removeWhere p (steeringQueue a) in
  let '(follow, q') := removeWhere p (followUpQueue a) in
  (steering ++ follow, set_followUp q' (set_steering q a)).
(** AT 315-317 Agent.hasQueuedMessages. *)
Definition hasQueuedMessages (a : Agent) : bool := hasItems (steeringQueue a) || hasItems (followUpQueue a).
(** AT 336-344 Agent.reset. *)
Definition reset (a : Agent) : Agent :=
  clearSteeringQueue (clearFollowUpQueue (set_state (fun s =>
    {| st_systemPrompt := st_systemPrompt s; st_model := st_model s; messages := []; isStreaming := false;
       streamingMessage := None; pendingToolCalls := ∅; st_errorMessage := None |}) a)).

(** ** Following the events of a run *)

Definition with_streaming (m : option AgentMessage) (s : AgentState) : AgentState :=
  {| st_systemPrompt := st_systemPrompt s; st_model := st_model s; messages := messages s; isStreaming := isStreaming s;
     streamingMessage := m; pendingToolCalls := pendingToolCalls s; st_errorMessage := st_errorMessage s |}.
Definition with_pending_calls (f : gset jsstr -> gset jsstr) (s : AgentState) : AgentState :=
  {| st_systemPrompt := st_systemPrompt s; st_model := st_model s; messages := messages s; isStreaming := isStreaming s;
     streamingMessage := streamingMessage s; pendingToolCalls := f (pendingToolCalls s); st_errorMessage := st_errorMessage s |}.
Definition with_error (e : option jsstr) (s : AgentState) : AgentState :=
  {| st_systemPrompt := st_systemPrompt s; st_model := st_model s; messages := messages s; isStreaming := isStreaming s;
     streamingMessage := streamingMessage s; pendingToolCalls := pendingToolCalls s; st_errorMessage := e |}.
(** AT 88-90 createMutableAgentState.messages. What an assignment to [agent.state.messages] does, with the new array
    as a function of the old one. *)
Definition set_messages (f : list AgentMessage -> list AgentMessage) (s : AgentState) : AgentState :=
  {| st_systemPrompt := st_systemPrompt s; st_model := st_model s; messages := f (messages s); isStreaming := isStreaming s;
     streamingMessage := streamingMessage s; pendingToolCalls := pendingToolCalls s; st_errorMessage := st_errorMessage s |}.
(** The changes of [processEvents]. *)
Definition push_message (m : AgentMessage) (s : AgentState) : AgentState :=
  {| st_systemPrompt := st_systemPrompt s; st_model := st_model s; messages := messages s ++ [m]; isStreaming := isStreaming s;
     streamingMessage := None; pendingToolCalls := pendingToolCalls s; st_errorMessage := st_errorMessage s |}.

(** AT 562-599 Agent.processEvents. The change of the state. *)
Definition reduce (s : AgentState) (e : AgentEvent) : AgentState :=
  match e with
  | message_start m | message_update m _ => with_streaming (Some m) s
  | message_end m => push_message m s
  | tool_execution_start c _ _ => with_pending_calls (fun p => {[ c ]} ∪ p) s
  | tool_execution_end c _ _ _ => with_pending_calls (fun p => p ∖ {[ c ]}) s
  | turn_end m _ => if truthy (errorMessage m) then with_error (errorMessage m) s else s
  | agent_end _ => with_streaming None s
  | _ => s
  end.

Section agent.
Context {X : Type}.

(** The outside of a run: the agent, the variable of [createLoopConfig], and the rest of the world. *)
Record Host := { agent : Agent; skipInitialSteeringPoll : bool; rest : X }.

Definition on_agent (f : Agent -> Agent) (h : Host) : Host :=
  {| agent := f (agent h); skipInitialSteeringPoll := skipInitialSteeringPoll h; rest := rest h |}.
Definition set_skip (b : bool) (h : Host) : Host :=
  {| agent := agent h; skipInitialSteeringPoll := b; rest := rest h |}.

(** AT 98-119 AgentOptions. With the listeners, in the order they subscribed, the tools of the state, the
    schema validator, the clock, the generator of identifiers and the schedule of parallel tools. *)
Record AgentOptions := {
  o_tools : list (AgentTool Host);
  o_convertToLlm : option (list AgentMessage -> Host -> reply Host (list Message));
  o_transformContext : option (list AgentMessage -> Host -> reply Host (list AgentMessage));
  o_streamFn : LlmContext Host -> Host -> reply Host (response Host);
  o_getApiKey : option (jsstr -> Host -> reply Host (option jsstr));
  o_beforeToolCall : option (AssistantMessage -> ToolCall -> args -> list AgentMessage -> Host -> reply Host (option BeforeToolCallResult));
  o_afterToolCall : option (AssistantMessage -> ToolCall -> args -> AgentToolResult -> bool -> list AgentMessage -> Host ->
                            reply Host (option AfterToolCallResult));
  o_shouldStopAfterTurn : option (TurnContext -> Host -> reply Host bool);
  o_shouldStopBeforeTurn : option (Host -> bool * Host);
  o_getContinuationMessages : option (TurnContext -> Host -> reply Host (list AgentMessage));
  o_preTurnRouter : option (Z -> Z -> list AgentMessage -> Host -> reply Host (option PreTurnReflex));
  o_maxConsecutiveReflexes : option Z;
  o_toolExecution : option ToolExecutionMode;
  o_listeners : list (AgentEvent -> Host -> emitted Host);
  o_validateToolArguments : AgentTool Host -> ToolCall -> args + thrown;
  o_now : Host -> Z;
  o_randomUUID : Host -> jsstr * Host;
  o_interleaving : Host -> list nat }.

Context (o : AgentOptions).

(** AT 605-607 Agent.processEvents. The listeners, one after the other; the first that fails is the last. *)
Fixpoint notify (listeners : list (AgentEvent -> Host -> emitted Host)) (e : AgentEvent) (h : Host) : emitted Host :=
  match listeners with
  | [] => {| e_error := None; e_abort := false; e_ext := h |}
  | l :: ls =>
      let r := l e h in
      match e_error r with
      | Some _ => r
      | None =>
          let r' := notify ls e (e_ext r) in
          {| e_error := e_error r'; e_abort := e_abort r || e_abort r'; e_ext := e_ext r' |}
      end
  end.

(** AT 561-608 Agent.processEvents. *)
Definition processEvents (e : AgentEvent) (h : Host) : emitted Host :=
  let h' := on_agent (set_state (fun s => reduce s e)) h in
  if activeRun (agent h') then notify (o_listeners o) e h'
  else {| e_error := Some (ErrorObject (js "Error") (js "Agent listener invoked outside active run"));
          e_abort := false; e_ext := h' |}.

(** AT 31-35 defaultConvertToLlm. *)
Definition defaultConvertToLlm (ms : list AgentMessage) : list Message :=
  omap (fun m => match m with
    | User u => Some (LUser u)
    | Assistant a => Some (LAssistant a)
    | ToolResult r => Some (LToolResult r)
    | _ => None
    end) ms.

(** A reply that settles at once. *)
Definition settled {A} (a : A) (h : Host) : reply Host A := {| r_value := Fulfilled a; r_abort := false; r_ext := h |}.

(** AT 486-492 Agent.createLoopConfig.getSteeringMessages. *)
Definition pollSteering (h : Host) : reply Host (list AgentMessage) :=
  if skipInitialSteeringPoll h then settled [] (set_skip false h)
  else let '(ms, q) := drain (steeringQueue (agent h)) in settled ms (on_agent (set_steering q) h).

(** AT 493-493 Agent.createLoopConfig.getFollowUpMessages. *)
Definition pollFollowUp (h : Host) : reply Host (list AgentMessage) :=
  let '(ms, q) := drain (followUpQueue (agent h)) in settled ms (on_agent (set_followUp q) h).

(** AT 466-498 Agent.createLoopConfig. Built when the run starts, from the model of that moment; the system
    prompt is read at each request. *)
Definition createLoopConfig (h : Host) : AgentLoopConfig Host :=
  let m := st_model (_state (agent h)) in
  {| model_id := m_id m; model_api := m_api m; model_provider := m_provider m;
     systemPrompt := st_systemPrompt (_state (agent h)); tools := o_tools o;
     transformContext := o_transformContext o;
     convertToLlm := match o_convertToLlm o with Some f => f | None => fun ms => settled (defaultConvertToLlm ms) end;
     getSystemPrompt := Some (fun h => st_systemPrompt (_state (agent h)));
     getApiKey := o_getApiKey o; apiKey := None; streamFunction := o_streamFn o;
     shouldStopAfterTurn := Some (match o_shouldStopAfterTurn o with Some f => f | None => fun _ => settled false end);
     shouldStopBeforeTurn := Some (match o_shouldStopBeforeTurn o with Some f => f | None => fun h => (false, h) end);
     getSteeringMessages := Some pollSteering;
     getFollowUpMessages := Some pollFollowUp;
     getContinuationMessages := Some (match o_getContinuationMessages o with Some f => f | None => fun _ => settled [] end);
     preTurnRouter := o_preTurnRouter o; maxConsecutiveReflexes := o_maxConsecutiveReflexes o;
     toolExecution := Some (default parallel (o_toolExecution o));
     beforeToolCall := o_beforeToolCall o; afterToolCall := o_afterToolCall o;
     validateToolArguments := o_validateToolArguments o; listener := processEvents;
     now := o_now o; randomUUID := o_randomUUID o; interleaving := o_interleaving o |}.

(** ** Runs *)

(** AT 178-178 AgentContinueErrorCode. *)
Inductive AgentContinueErrorCode := busy | nothing_to_continue.

(** How an entry point ends: it refuses to start, the run settles (with the events it emitted), or the run
    does not end within the fuel. *)
Inductive run_result :=
| Refused (code : option AgentContinueErrorCode) (message : jsstr) (h : Host)
| Settled (tr : list AgentEvent) (h : Host)
| Unfinished.

(** AT 526-539 Agent.handleRunFailure. *)
Definition failureMessage (e : thrown) (aborted : bool) (h : Host) : AssistantMessage :=
  let m := st_model (_state (agent h)) in
  {| a_content := [AText (mkText [])]; api := m_api m; provider := m_provider m; model := m_id m; usage := EMPTY_USAGE;
     stopReason := if aborted then Aborted else Error; errorMessage := Some (error_text e); a_timestamp := o_now o h |}.

(** AT 525-544 Agent.handleRunFailure. The events it emits and the host it leaves; errors of listeners are
    dropped. *)
Definition handleRunFailure (e : thrown) (aborted : bool) (h : Host) : list AgentEvent * Host :=
  let m := Assistant (failureMessage e aborted h) in
  let h0 := on_agent (set_state (with_error (Some (error_text e)))) h in
  let h1 := e_ext (processEvents (message_start m) h0) in
  let h2 := e_ext (processEvents (message_end m) h1) in
  let h3 := e_ext (processEvents (agent_end [m]) h2) in
  ([message_start m; message_end m; agent_end [m]], h3).

(** AT 546-552 Agent.finishRun. *)
Definition finishRun (a : Agent) : Agent :=
  set_active false (set_state (fun s =>
    {| st_systemPrompt := st_systemPrompt s; st_model := st_model s; messages := messages s; isStreaming := false;
       streamingMessage := None; pendingToolCalls := ∅; st_errorMessage := st_errorMessage s |}) a).

(** AT 505-514 Agent.runWithLifecycle. *)
Definition beginRun (a : Agent) : Agent :=
  set_active true (set_state (fun s =>
    {| st_systemPrompt := st_systemPrompt s; st_model := st_model s; messages := messages s; isStreaming := true;
       streamingMessage := None; pendingToolCalls := pendingToolCalls s; st_errorMessage := None |}) a).

(** AT 500-523 Agent.runWithLifecycle. *)
Definition runWithLifecycle (executor : Host -> outcome (list AgentMessage) * world Host) (h : Host) : run_result :=
  if activeRun (agent h) then Refused None (js "Agent is already processing.") h
  else
    match executor (on_agent beginRun h) with
    | (Ok _, w) => Settled (trace w) (on_agent finishRun (ext w))
    | (Throw e, w) =>
        let '(tr, h') := handleRunFailure e (aborted w) (ext w) in
        Settled (trace w ++ tr) (on_agent finishRun h')
    | (NoFuel, _) => Unfinished
    end.

(** AT 430-444 Agent.runPromptMessages. The context is a copy of the transcript (AT 458-464). *)
Definition runPromptMessages (fuel : nat) (prompts : list AgentMessage) (skip : bool) : Host -> run_result :=
  runWithLifecycle (fun h =>
    runAgentLoop (createLoopConfig h) fuel prompts (fresh_world (messages (_state (agent h))) (set_skip skip h))).

(** AT 446-456 Agent.runContinuation. *)
Definition runContinuation (fuel : nat) : Host -> run_result :=
  runWithLifecycle (fun h =>
    runAgentLoopContinue (createLoopConfig h) fuel (fresh_world (messages (_state (agent h))) (set_skip false h))).

(** AT 348-348 Agent.prompt.input. *)
Inductive PromptInput := PromptText (input : jsstr) (images : list ImageContent) | PromptMessage (m : AgentMessage) | PromptMessages (ms : list AgentMessage).

(** AT 411-428 Agent.normalizePromptInput. *)
Definition normalizePromptInput (input : PromptInput) (h : Host) : list AgentMessage :=
  match input with
  | PromptMessages ms => ms
  | PromptMessage m => [m]
  | PromptText s images => [User {| u_content := CParts (PText (mkText s) :: (PImage <$> images)); u_timestamp := o_now o h |}]
  end.

(** AT 348-356 Agent.prompt. *)
Definition prompt (fuel : nat) (input : PromptInput) (h : Host) : run_result :=
  if activeRun (agent h)
  then Refused None (js "Agent is already processing a prompt. Use steer() or followUp() to queue messages, or wait for completion.") h
  else runPromptMessages fuel (normalizePromptInput input h) false h.

(** AT 364-376 Agent.continue.runQueuedMessages. A run of queued messages, or the host it leaves. *)
Definition runQueuedMessages (fuel : nat) (h : Host) : run_result + Host :=
  let '(queuedSteering, q) := drain (steeringQueue (agent h)) in
  let h1 := on_agent (set_steering q) h in
  match queuedSteering with
  | _ :: _ => inl (runPromptMessages fuel queuedSteering true h1)
  | [] =>
      let '(queuedFollowUps, q') := drain (followUpQueue (agent h1)) in
      let h2 := on_agent (set_followUp q') h1 in
      match queuedFollowUps with
      | _ :: _ => inl (runPromptMessages fuel queuedFollowUps false h2)
      | [] => inr h2
      end
  end.

(** AT 359-409 Agent.continue. *)
Definition continue (fuel : nat) (h : Host) : run_result :=
  if activeRun (agent h)
  then Refused (Some busy) (js "Agent is already processing. Wait for completion before continuing.") h
  else
    match last (messages (_state (agent h))) with
    | None =>
        match runQueuedMessages fuel h with
        | inl r => r
        | inr h' => Refused (Some nothing_to_continue) (js "No messages to continue from") h'
        end
    | Some (Assistant _) =>
        match runQueuedMessages fuel h with
        | inl r => r
        | inr h' => Refused (Some nothing_to_continue) (js "Cannot continue from message role: assistant") h'
        end
    | Some (Custom _) =>
        match runQueuedMessages fuel h with
        | inl r => r
        | inr h' => runContinuation fuel h'
        end
    | Some _ => runContinuation fuel h
    end.
End agent.
Arguments Host : clear implicits.
Arguments AgentOptions : clear implicits.
Arguments run_result : clear implicits.

(** ** The view of a run *)

(** What only the run changes of the state: the source declares these fields read-only ([AgentState] in types.ts). *)
Definition kept (s : AgentState) := (isStreaming s, streamingMessage s, pendingToolCalls s, st_errorMessage s).

(** The transcript may be assigned by anyone. [R] is what the assignments may do to it; it is a preorder that
    the messages appended later do not disturb. *)
Class Edits (R : relation (list AgentMessage)) : Prop := {
  edits_preorder :: PreOrder R;
  edits_snoc ms ms' m : R ms ms' -> R (ms ++ [m]) (ms' ++ [m]) }.

(** No assignment, any that only drops messages, and any at all. *)
#[export] Instance edits_eq : Edits eq.
Proof. split; [apply _|]. by intros ms ms' m ->. Qed.
#[export] Instance edits_drop : Edits (flip sublist).
Proof. split; [apply _|]. intros ms ms' m H. by apply sublist_app. Qed.
#[export] Instance edits_any : Edits (fun _ _ => True).
Proof. split; [by split|done]. Qed.

Section edited.
Context (R : relation (list AgentMessage)) `{!Edits R}.

(** The same state up to such assignments. *)
Definition edited (s s' : AgentState) : Prop := R (messages s) (messages s') /\ kept s = kept s'.

#[export] Instance edited_preorder : PreOrder edited.
Proof.
  split; [by intros s|]. intros s1 s2 s3 [H1 K1] [H2 K2]. split; [by etransitivity|congruence].
Qed.

Lemma edited_reduce s s' e : edited s s' -> edited (reduce s e) (reduce s' e).
Proof.
  destruct s, s'. unfold edited, kept. cbn. intros [Hm [= -> -> -> ->]].
  destruct e as [| | |m rs| |m|m k|m|c n a|c n a p|c n r b]; try done; cbn; [by destruct (truthy (errorMessage m))|].
  split; [by apply edits_snoc|done].
Qed.
End edited.

(** The state after a sequence of events. *)
Definition view (s : AgentState) (tr : list AgentEvent) : AgentState := foldl reduce s tr.
Lemma view_snoc s tr e : view s (tr ++ [e]) = reduce (view s tr) e.
Proof. apply foldl_snoc. Qed.

Lemma view_messages s tr : messages (view s tr) = messages s ++ said (log_of tr).
Proof.
  induction tr as [|e tr IH] using rev_ind; [by rewrite app_nil_r|].
  rewrite view_snoc, log_of_snoc, said_app, (assoc_L app), <- IH.
  destruct e as [| | |m rs| |m|m k|m|c n a|c n a p|c n r b]; cbn; rewrite ?app_nil_r; try done.
  by destruct (truthy (errorMessage m)).
Qed.

(** A message is shown as streaming exactly while it is open, and no call is shown as pending that does not
    execute. *)
Definition in_view (st : stage) (s : AgentState) : Prop :=
  match st with
  | STurn open running => (is_Some (streamingMessage s) <-> open = true) /\ forall c, c ∈ pendingToolCalls s -> c ∈ running
  | _ => streamingMessage s = None /\ pendingToolCalls s = ∅
  end.

Lemma reduce_in_view st st' s e : in_view st s -> next_stage st e = Some st' -> in_view st' (reduce s e).
Proof.
  intros Hv Hn. destruct st as [| |open running|]; [| | |by destruct e].
  - destruct e; try done. by injection Hn as <-.
  - destruct Hv as [Hs Hp]. destruct e; try done; injection Hn as <-; cbn; [done| |done]. split; [|set_solver].
    rewrite Hs. split; [by intros []|done].
  - destruct Hv as [Hs Hp].
    destruct e as [| | |m rs| |m|m k|m|c n a|c n a p|c n r b]; destruct open; try done; unfold next_stage in Hn.
    + destruct (decide (running = ∅)) as [->|]; [|done]. injection Hn as <-. cbn.
      assert (Hr : streamingMessage s = None /\ pendingToolCalls s = ∅).
      { split; [apply eq_None_not_Some; by intros ?%Hs|]. apply elem_of_equiv_empty_L. intros c Hc%Hp. multiset_solver. }
      by destruct (truthy (errorMessage m)).
    + destruct (decide _); [|done]. by injection Hn as <-.
    + destruct (decide _); [|done]. injection Hn as <-. split; [by split|exact Hp].
    + injection Hn as <-. split; [by split|exact Hp].
    + injection Hn as <-. split; [|exact Hp]. split; [by intros []|done].
    + injection Hn as <-. split; [exact Hs|]. intros x Hx. change (x ∈ {[ c ]} ∪ pendingToolCalls s) in Hx.
      apply gmultiset_elem_of_disj_union. rewrite gmultiset_elem_of_singleton.
      apply elem_of_union in Hx as [->%elem_of_singleton | Hx%Hp]; auto.
    + destruct (decide _); [|done]. by injection Hn as <-.
    + destruct (decide _); [|done]. injection Hn as <-. split; [exact Hs|]. intros x Hx. change (x ∈ pendingToolCalls s ∖ {[ c ]}) in Hx.
      apply elem_of_difference in Hx as [Hx%Hp Hc]. rewrite elem_of_singleton in Hc. clear -Hx Hc. multiset_solver.
Qed.

Lemma view_in_view s tr st : in_view SIdle s -> stage_of tr = Some st -> in_view st (view s tr).
Proof.
  intros Hs. revert st. induction tr as [|e tr IH] using rev_ind; intros st.
  - by intros [= <-].
  - rewrite stage_of_snoc, view_snoc. destruct (stage_of tr) as [st0|]; [|done]. intros H. by eapply reduce_in_view; [apply IH|].
Qed.

(** ** Runs of a well-behaved host *)

Section runs.
Context {X : Type}.
Implicit Types h : Host X.

(** Callbacks may do anything to the world, and assign the transcript within [R]. *)
Context (R : relation (list AgentMessage)) `{!Edits R}.
Definition untouched h h' : Prop := edited R (_state (agent h)) (_state (agent h')) /\ activeRun (agent h') = activeRun (agent h).

(** The contract the loop needs: a response starts at most once, and no listener fails with the error of an
    abort when an answer is announced. *)
Record contract (o : AgentOptions X) : Prop := {
  co_response : forall llm h resp, r_value (o_streamFn o llm h) = Fulfilled resp -> starts_once (pulls resp);
  co_listeners : Forall (fun l => forall e h err, announces_answer e = true ->
    e_error (l e h) = Some err -> isAbortError err = false) (o_listeners o) }.

(** Every callback and every listener changes the agent's state by assigning the transcript within [R], if at
    all; they may queue messages, abort, and do anything to the rest of the world. *)
Record well_behaved (o : AgentOptions X) : Prop := {
  wb_contract : contract o;
  wb_tools : Forall (good_tool untouched) (o_tools o);
  wb_convert : match o_convertToLlm o with Some f => forall ms, stays untouched (f ms) | None => True end;
  wb_transform : match o_transformContext o with Some f => forall ms, stays untouched (f ms) | None => True end;
  wb_stream : forall llm, stays untouched (o_streamFn o llm);
  wb_response : forall llm h resp, r_value (o_streamFn o llm h) = Fulfilled resp -> good_response untouched resp;
  wb_key : match o_getApiKey o with Some f => forall p, stays untouched (f p) | None => True end;
  wb_before : match o_beforeToolCall o with Some f => forall am c a ms, stays untouched (f am c a ms) | None => True end;
  wb_after : match o_afterToolCall o with Some f => forall am c a r b ms, stays untouched (f am c a r b ms) | None => True end;
  wb_stop_after : match o_shouldStopAfterTurn o with Some f => forall tc, stays untouched (f tc) | None => True end;
  wb_stop_before : match o_shouldStopBeforeTurn o with Some f => forall h, untouched h (f h).2 | None => True end;
  wb_continuation : match o_getContinuationMessages o with Some f => forall tc, stays untouched (f tc) | None => True end;
  wb_router : match o_preTurnRouter o with Some f => forall i n ms, stays untouched (f i n ms) | None => True end;
  wb_uuid : forall h, untouched h (o_randomUUID o h).2;
  wb_listeners : Forall (fun l => forall e h, untouched h (e_ext (l e h))) (o_listeners o) }.

Lemma untouched_refl h : untouched h h.
Proof. by split. Qed.
Lemma untouched_trans h1 h2 h3 : untouched h1 h2 -> untouched h2 h3 -> untouched h1 h3.
Proof. intros [H1 A1] [H2 A2]. split; [by etransitivity|congruence]. Qed.
Lemma stays_settled {A} (a : A) : stays untouched (settled (X := X) a).
Proof. intros h. apply untouched_refl. Qed.
Lemma stays_steering : stays untouched (pollSteering (X := X)).
Proof. intros h. unfold pollSteering. destruct (skipInitialSteeringPoll h); [by split|]. destruct (drain _). by split. Qed.
Lemma stays_followUp : stays untouched (pollFollowUp (X := X)).
Proof. intros h. unfold pollFollowUp. destruct (drain _). by split. Qed.

(** ** The protocol of the loop, from the contract *)

Section protocol.
Context (o : AgentOptions X) (Ho : contract o).

Lemma notify_errors ls e h err : Forall (fun l => forall e h err, announces_answer e = true ->
    e_error (l e h) = Some err -> isAbortError err = false) ls ->
  announces_answer e = true -> e_error (notify ls e h) = Some err -> isAbortError err = false.
Proof.
  intros Hls Ha. revert h. induction Hls as [|l ls Hl _ IH]; intros h; cbn; [done|].
  destruct (e_error (l e h)) as [err'|] eqn:Ee; [|exact (IH (e_ext (l e h)))].
  rewrite Ee. intros [= <-]. by eapply Hl.
Qed.

Lemma config_protocol h : protocol (createLoopConfig o h).
Proof.
  split; cbn; [intros llm h0 resp; by apply co_response|].
  intros e h0 err Ha. unfold processEvents. destruct (activeRun _); [|by intros [= <-]].
  by apply notify_errors; [apply co_listeners|].
Qed.
End protocol.

Context (o : AgentOptions X) (Ho : well_behaved o).

Lemma config_contained h : contained untouched (createLoopConfig o h).
Proof.
  destruct Ho. split; cbn; try done; try by (intros; apply stays_settled).
  - by destruct (o_convertToLlm o).
  - by destruct (o_shouldStopAfterTurn o).
  - destruct (o_shouldStopBeforeTurn o); [done|]. intros h0. apply untouched_refl.
  - apply stays_steering.
  - apply stays_followUp.
  - by destruct (o_getContinuationMessages o).
Qed.

Lemma notify_untouched ls e h : Forall (fun l => forall e h, untouched h (e_ext (l e h))) ls -> untouched h (e_ext (notify ls e h)).
Proof.
  intros Hls. revert h. induction Hls as [|l ls Hl _ IH]; intros h; cbn; [apply untouched_refl|].
  destruct (e_error (l e h)); [apply Hl|]. eapply untouched_trans; [apply Hl|apply IH].
Qed.

(** What an event does while a run is active. *)
Lemma processEvents_active e h s : edited R s (_state (agent h)) -> activeRun (agent h) = true ->
  edited R (reduce s e) (_state (agent (e_ext (processEvents o e h)))) /\ activeRun (agent (e_ext (processEvents o e h))) = true.
Proof.
  intros Hs Ha. unfold processEvents. cbn. rewrite Ha.
  destruct (notify_untouched (o_listeners o) e (on_agent (set_state (fun s => reduce s e)) h) (wb_listeners o Ho)) as [Hu Hu'].
  split; [|by rewrite Hu']. etransitivity; [|exact Hu]. by apply edited_reduce.
Qed.

(** ** The state follows the events *)

(** The invariant of a run: the state is what its events so far make of the state it began with, up to the
    assignments of the callbacks. *)
Definition follows (s : AgentState) (w : world (Host X)) : Prop :=
  edited R (view s (trace w)) (_state (agent (ext w))) /\ activeRun (agent (ext w)) = true.

Lemma follows_untouched s x ab w : follows s w -> untouched (ext w) x -> follows s (set_ext x ab w).
Proof. intros [Hf Ha] [Hu Hu']. split; cbn; [by etransitivity|congruence]. Qed.
Lemma follows_emit h0 s e w ab : follows s w ->
  follows s (set_ext (e_ext (listener (createLoopConfig o h0) e (ext w))) ab (log_event e w)).
Proof. intros [Hf Ha]. unfold follows. cbn. rewrite view_snoc. by apply processEvents_active. Qed.

Lemma runs_follow h0 s fuel prompts : gives (X := Host X) (follows s) (fun _ => True) (runAgentLoop (createLoopConfig o h0) fuel prompts).
Proof.
  apply (keeps_runAgentLoop _ untouched (config_contained h0)); try done.
  - intros. by apply follows_untouched.
  - intros. by apply follows_emit.
Qed.
Lemma continuations_follow h0 s fuel : gives (X := Host X) (follows s) (fun _ => True) (runAgentLoopContinue (createLoopConfig o h0) fuel).
Proof.
  apply (keeps_runAgentLoopContinue _ untouched (config_contained h0)); try done.
  - intros. by apply follows_untouched.
  - intros. by apply follows_emit.
Qed.
(** ** How runs settle *)

(** No run is active, nothing streams and no call is pending. *)
Definition idle (a : Agent) : Prop := activeRun a = false /\ isStreaming (_state a) = false /\ in_view SIdle (_state a).

(** A run that the loop completed: its events are one whole run, which ends with the messages it announced. *)
Definition completed (tr : list AgentEvent) : Prop :=
  complete_run tr /\ last (log_of tr) = Some (Frame (agent_end (said (log_of tr)))).

(** A run that failed: after its events, which are in order, a message that reports the error. *)
Definition crashed (tr : list AgentEvent) (a : Agent) : Prop :=
  exists before m, tr = before ++ [message_start (Assistant m); message_end (Assistant m); agent_end [Assistant m]] /\
    is_Some (stage_of before) /\ stopped_early m = true /\
    is_Some (errorMessage m) /\ st_errorMessage (_state a) = errorMessage m.

Definition settles h (r : run_result X) : Prop :=
  match r with
  | Settled tr h' => idle (agent h') /\
      R (messages (_state (agent h)) ++ said (log_of tr)) (messages (_state (agent h'))) /\
      (completed tr \/ crashed tr (agent h'))
  | Unfinished => True
  | Refused _ _ _ => False
  end.

Lemma finishRun_idle a : idle (finishRun a).
Proof. by split_and!. Qed.

(** The state after the three events of a failure. *)
Lemma handleRunFailure_spec e ab h s : edited R s (_state (agent h)) -> activeRun (agent h) = true ->
  let m := failureMessage o e ab h in
  (handleRunFailure o e ab h).1 = [message_start (Assistant m); message_end (Assistant m); agent_end [Assistant m]] /\
  R (messages s ++ [Assistant m]) (messages (_state (agent (handleRunFailure o e ab h).2))) /\
  st_errorMessage (_state (agent (handleRunFailure o e ab h).2)) = Some (error_text e).
Proof.
  intros Hs Ha m. split; [done|]. unfold handleRunFailure. fold m. cbn [snd].
  set (h0 := on_agent _ h). assert (H0 : edited R (with_error (Some (error_text e)) s) (_state (agent h0)) /\ activeRun (agent h0) = true).
  { split; [|done]. destruct Hs as [Hm Hk]. split; [done|]. unfold kept in *. cbn. by injection Hk as -> -> ->. }
  destruct H0 as [H0 A0].
  destruct (processEvents_active (message_start (Assistant m)) _ _ H0 A0) as [H1 A1].
  destruct (processEvents_active (message_end (Assistant m)) _ _ H1 A1) as [H2 A2].
  destruct (processEvents_active (agent_end [Assistant m]) _ _ H2 A2) as [[H3 K3] _].
  split; [exact H3|]. unfold kept in K3. cbn in K3. by injection K3 as _ _ _ <-.
Qed.

Lemma lifecycle_settles h (executor : Host X -> outcome (list AgentMessage) * world (Host X)) :
  activeRun (agent h) = false ->
  (let '(out, w) := executor (on_agent beginRun h) in
   follows (_state (agent (on_agent beginRun h))) w /\ is_Some (stage_of (trace w)) /\ (forall ms, out = Ok ms -> completed (trace w))) ->
  settles h (runWithLifecycle o executor h).
Proof.
  intros Ha H. unfold runWithLifecycle. rewrite Ha. destruct (executor (on_agent beginRun h)) as [[ms|e|] w]; [| |done];
    destruct H as ([Hf Hact] & Hst & Hc); pose proof (proj1 Hf) as Hm; rewrite view_messages in Hm.
  - split; [apply finishRun_idle|]. split; [exact Hm|]. left. by eapply Hc.
  - pose proof (handleRunFailure_spec e (aborted w) (ext w) _ Hf Hact) as (Ht & Hm' & He).
    destruct (handleRunFailure o e (aborted w) (ext w)) as [tr h']. cbn [fst snd] in *. subst tr.
    split; [apply finishRun_idle|]. split.
    + rewrite view_messages in Hm'. unfold log_of. rewrite bind_app, said_app, (assoc_L app). exact Hm'.
    + right. eexists _, _. split; [done|]. split; [done|]. split_and!; [|done|exact He].
      unfold stopped_early. cbn. by destruct (aborted w).
Qed.

Lemma follows_fresh h ctx h' : activeRun (agent h) = true -> agent h' = agent h -> follows (_state (agent h)) (fresh_world ctx h').
Proof. intros Ha He. unfold follows. cbn. by rewrite He, Ha. Qed.

Lemma final_completed ctx (w : world (Host X)) h0 : final (createLoopConfig o h0) ctx w -> completed (trace w).
Proof.
  intros (new & lg & s & [Hs Hc Hn Hl] & Hg & _). split; [exact Hs|].
  rewrite Hl, last_snoc, said_app, app_nil_r. by rewrite (good_said _ _ _ _ Hg).
Qed.

Lemma prompts_settle fuel prompts skip h : activeRun (agent h) = false -> settles h (runPromptMessages o fuel prompts skip h).
Proof.
  intros Ha. apply lifecycle_settles; [done|]. set (h1 := on_agent beginRun h). set (w0 := fresh_world _ _).
  pose proof (runs_follow h1 (_state (agent h1)) fuel prompts w0 (follows_fresh h1 _ (set_skip skip h1) eq_refl eq_refl)) as [Hf _].
  pose proof (runAgentLoop_spec (createLoopConfig o h1) (config_protocol o (wb_contract o Ho) h1) _ fuel prompts w0 eq_refl eq_refl) as H.
  unfold wp in H. destruct (runAgentLoop (createLoopConfig o h1) fuel prompts w0) as [[ms|e|] w]; [|by split_and!..].
  destruct H as [H _]. apply final_completed in H. split; [exact Hf|]. split; [|done]. destruct H as [H _]. by rewrite H.
Qed.

Lemma continuation_settles fuel h : activeRun (agent h) = false -> settles h (runContinuation o fuel h).
Proof.
  intros Ha. apply lifecycle_settles; [done|]. set (h1 := on_agent beginRun h). set (w0 := fresh_world _ _).
  pose proof (continuations_follow h1 (_state (agent h1)) fuel w0 (follows_fresh h1 _ (set_skip false h1) eq_refl eq_refl)) as [Hf _].
  pose proof (runAgentLoopContinue_spec (createLoopConfig o h1) (config_protocol o (wb_contract o Ho) h1) _ fuel w0 eq_refl eq_refl) as H.
  unfold wp in H. destruct (runAgentLoopContinue (createLoopConfig o h1) fuel w0) as [[ms|e|] w]; [|by split_and!..].
  destruct H as [H _]. apply final_completed in H. split; [exact Hf|]. split; [|done]. destruct H as [H _]. by rewrite H.
Qed.
End runs.

(** ** The entry points *)

Inductive call := CallPrompt (input : PromptInput) | CallContinue.
Definition perform {X} (o : AgentOptions X) (fuel : nat) (c : call) (h : Host X) : run_result X :=
  match c with CallPrompt input => prompt o fuel input h | CallContinue => continue o fuel h end.

(** [continue] cannot go on from the transcript alone. *)
Definition stuck (ms : list AgentMessage) : bool := match last ms with None | Some (Assistant _) => true | _ => false end.

Section entry.
Context {X : Type} (o : AgentOptions X).
Implicit Types h : Host X.

Lemma on_agent_eta h (f : Agent -> Agent) : f (agent h) = agent h -> on_agent f h = h.
Proof. unfold on_agent. intros ->. by destruct h. Qed.

(** A run of queued messages starts exactly when there are any; else nothing has changed. *)
Lemma runQueuedMessages_spec fuel h : wf_queue (steeringQueue (agent h)) -> wf_queue (followUpQueue (agent h)) ->
  match runQueuedMessages o fuel h with
  | inl r => hasQueuedMessages (agent h) = true /\ exists prompts skip h', r = runPromptMessages o fuel prompts skip h' /\
      _state (agent h') = _state (agent h) /\ activeRun (agent h') = activeRun (agent h) /\
      prompts = (if skip : bool then drain (steeringQueue (agent h)) else drain (followUpQueue (agent h))).1
  | inr h' => hasQueuedMessages (agent h) = false /\ h' = h
  end.
Proof.
  intros Hs Hf. unfold runQueuedMessages, hasQueuedMessages.
  destruct (drain (steeringQueue (agent h))) as [[|m ms] q] eqn:Es.
  - assert (Hb : batches (steeringQueue (agent h)) = []) by (apply drain_nil; [done|by rewrite Es]).
    rewrite (drain_empty _ Hb) in Es. injection Es as <-. rewrite (proj2 (hasItems_false _) Hb).
    rewrite (on_agent_eta h) by (by destruct (agent h)).
    destruct (drain (followUpQueue (agent h))) as [[|m ms] q'] eqn:Ef.
    + assert (Hb' : batches (followUpQueue (agent h)) = []) by (apply drain_nil; [done|by rewrite Ef]).
      rewrite (drain_empty _ Hb') in Ef. injection Ef as <-. rewrite (proj2 (hasItems_false _) Hb').
      by rewrite (on_agent_eta h) by (by destruct (agent h)).
    + split.
      * apply hasItems_spec. intros Hb'. by rewrite (drain_empty _ Hb') in Ef.
      * eexists _, false, _. by split_and!.
  - split.
    + apply orb_true_intro. left. apply hasItems_spec. intros Hb. by rewrite (drain_empty _ Hb) in Es.
    + eexists _, true, _. by split_and!.
Qed.

Definition started (r : run_result X) : Prop := match r with Refused _ _ _ => False | _ => True end.

Lemma runWithLifecycle_starts executor h : activeRun (agent h) = false -> started (runWithLifecycle o executor h).
Proof.
  intros Ha. unfold runWithLifecycle. rewrite Ha. destruct (executor _) as [[ms|e|] w]; [done| |done].
  by destruct (handleRunFailure o e (aborted w) (ext w)).
Qed.

(** What an entry point does at first. *)
Inductive start_of (c : call) h : run_result X -> Prop :=
| start_busy code msg : activeRun (agent h) = true -> start_of c h (Refused code msg h)
| start_nothing msg : activeRun (agent h) = false -> c = CallContinue ->
    stuck (messages (_state (agent h))) = true -> hasQueuedMessages (agent h) = false ->
    start_of c h (Refused (Some nothing_to_continue) msg h)
| start_run r : activeRun (agent h) = false -> started r ->
    (c = CallContinue -> stuck (messages (_state (agent h))) = false \/ hasQueuedMessages (agent h) = true) ->
    start_of c h r.

(** An entry point refuses to start exactly when a run is active, or when [continue] has nothing to go on
    from: no transcript or an answer at its end, and both queues empty. A refusal changes nothing. *)
Theorem perform_refuses (fuel : nat) (c : call) (h : Host X)
    (Hs : wf_queue (steeringQueue (agent h))) (Hf : wf_queue (followUpQueue (agent h))) :
  start_of c h (perform o fuel c h).
Proof.
  destruct c as [input|]; cbn [perform]; unfold prompt, continue; destruct (activeRun (agent h)) eqn:Ha; try by constructor.
  - apply start_run; [done|by apply runWithLifecycle_starts|done].
  - assert (Hgo : stuck (messages (_state (agent h))) = false -> start_of CallContinue h (runContinuation o fuel h)).
    { intros Hst. apply start_run; [done|by apply runWithLifecycle_starts|by left]. }
    pose proof (runQueuedMessages_spec fuel h Hs Hf) as Hq. unfold stuck in Hgo.
    destruct (runQueuedMessages o fuel h) as [r|h'].
    + destruct Hq as (Hq & prompts & skip & h' & -> & _ & Ha' & _). rewrite Ha in Ha'.
      assert (Hrun : start_of CallContinue h (runPromptMessages o fuel prompts skip h')).
      { apply start_run; [done|by apply runWithLifecycle_starts|by right]. }
      destruct (last _) as [[]|]; auto.
    + destruct Hq as [Hq ->]. destruct (last (messages (_state (agent h)))) as [[]|] eqn:El; auto; apply start_nothing; try done; unfold stuck; by rewrite El.
Qed.
End entry.

Section theorems.
Context {X : Type} (R : relation (list AgentMessage)) `{!Edits R} (o : AgentOptions X) (Ho : well_behaved R o).
Implicit Types h : Host X.

Lemma settles_from h h0 r : messages (_state (agent h0)) = messages (_state (agent h)) -> settles R h0 r -> settles R h r.
Proof. unfold settles. destruct r; [done| |done]. by intros ->. Qed.

Lemma perform_settles fuel c h tr h' : perform o fuel c h = Settled tr h' -> settles R h (perform o fuel c h).
Proof.
  destruct c as [input|]; cbn [perform]; unfold prompt, continue; destruct (activeRun (agent h)) eqn:Ha; [done| |done|].
  { intros _. by apply prompts_settle. }
  assert (Hq : forall r, runQueuedMessages o fuel h = inl r -> settles R h r).
  { unfold runQueuedMessages. destruct (drain (steeringQueue (agent h))) as [[|m ms] q].
    - destruct (drain (followUpQueue _)) as [[|m ms] q']; intros r [= <-].
      eapply settles_from; [|by apply prompts_settle]. done.
    - intros r [= <-]. eapply settles_from; [|by apply prompts_settle]. done. }
  assert (Hc : forall h0, activeRun (agent h0) = false -> messages (_state (agent h0)) = messages (_state (agent h)) ->
    settles R h (runContinuation o fuel h0)).
  { intros h0 Ha0 Hm. eapply settles_from; [exact Hm|]. by apply continuation_settles. }
  assert (Hr : forall h0, runQueuedMessages o fuel h = inr h0 -> activeRun (agent h0) = false /\ _state (agent h0) = _state (agent h)).
  { unfold runQueuedMessages. destruct (drain (steeringQueue (agent h))) as [[|m ms] q]; [|done].
    destruct (drain (followUpQueue _)) as [[|m ms] q']; [|done]. by intros h0 [= <-]. }
  destruct (last _) as [[]|]; try (intros _; by apply Hc); destruct (runQueuedMessages o fuel h) as [r|h0] eqn:E; try done;
    try (intros _; by apply Hq).
  intros _. destruct (Hr _ eq_refl) as [Ha0 Hm]. apply Hc; [done|by rewrite Hm].
Qed.

Lemma kept_in_view st s s' : kept s = kept s' -> in_view st s -> in_view st s'.
Proof. unfold kept. intros [= _ Hs Hp _]. unfold in_view. by rewrite Hs, Hp. Qed.
End theorems.

(** C4. A run the agent starts ends with the agent idle, and with a transcript that has grown by exactly the
    messages announced as complete, in their order, up to what callbacks and listeners assign to it. Their
    assignments are within [R]: with equality nobody assigns the transcript and it is those messages; with the
    relation that drops messages, which allows the session's own listener at the end of a run, nothing else is in
    it and their order is kept; with any relation the rest holds. The contract assumed of the outside
    ([well_behaved]): no callback changes the other fields of the state, which are read-only in the source, a
    response starts at most once, and no listener fails with an abort error as an answer is announced. Either the
    loop completed the run, and its last event carries the announced messages, or it failed, and the last of them
    reports the error, which the state shows too. *)
Theorem agent_transcript {X : Type} (R : relation (list AgentMessage)) `{!Edits R} (o : AgentOptions X)
    (Ho : well_behaved R o) (fuel : nat) (c : call) (h h' : Host X)
    (tr : list AgentEvent) (Hrun : perform o fuel c h = Settled tr h') :
  idle (agent h') /\
  R (messages (_state (agent h)) ++ said (log_of tr)) (messages (_state (agent h'))) /\
  (completed tr \/ crashed tr (agent h')).
Proof. pose proof (perform_settles R o Ho fuel c h tr h' Hrun) as H. by rewrite Hrun in H. Qed.

(** At every moment of a run, even one that fails or is cut short, what the agent shows follows the events
    so far: the transcript holds the messages that are complete (up to the assignments of the callbacks), a message
    streams exactly while it is open, and every call shown as pending is executing. *)
Theorem agent_view {X : Type} (R : relation (list AgentMessage)) `{!Edits R} (o : AgentOptions X) (Ho : well_behaved R o)
    (fuel : nat) (prompts : list AgentMessage) (skip : bool) (h : Host X) (Hidle : idle (agent h)) :
  let h1 := on_agent beginRun h in
  let w := (runAgentLoop (createLoopConfig o h1) fuel prompts (fresh_world (messages (_state (agent h))) (set_skip skip h1))).2 in
  exists st, stage_of (trace w) = Some st /\ in_view st (_state (agent (ext w))) /\
    R (messages (_state (agent h)) ++ said (log_of (trace w))) (messages (_state (agent (ext w)))).
Proof.
  intros h1 w. set (w0 := fresh_world _ _) in w.
  pose proof (runs_follow R o Ho h1 (_state (agent h1)) fuel prompts w0 (follows_fresh R h1 _ (set_skip skip h1) eq_refl eq_refl)) as [[[Hm Hk] _] _].
  pose proof (runAgentLoop_spec (createLoopConfig o h1) (config_protocol o (wb_contract R o Ho) h1) _ fuel prompts w0 eq_refl eq_refl) as H.
  fold w in Hm, Hk.
  assert (Hst : is_Some (stage_of (trace w))).
  { unfold w in *. unfold wp in H. destruct (runAgentLoop (createLoopConfig o h1) fuel prompts w0) as [[ms|e|] w']; [|done..].
    destruct H as [H _]. apply final_completed in H as [H _]. by rewrite H. }
  destruct Hst as [st Hst]. exists st. split; [done|]. split.
  - eapply kept_in_view; [exact Hk|]. apply view_in_view; [|exact Hst]. destruct Hidle as (_ & _ & _ & Hp). by split.
  - by rewrite view_messages in Hm.
Qed.

(** C39. With a stop hook that always asks to stop, an entry point is never cut short: a fuel of the turns the
    router may take in a row plus two is enough for the run it starts to settle. Callbacks and listeners may do
    anything, to the agent's state too; only the [contract] is assumed of them: a response starts at most once,
    and no listener fails with an abort error as an answer is announced. *)
Theorem agent_settles {X : Type} (o : AgentOptions X) (Ho : contract o)
    (hook : TurnContext -> Host X -> reply (Host X) bool) (Hhook : o_shouldStopAfterTurn o = Some hook)
    (Hstop : forall tc h, r_value (hook tc h) = Fulfilled true)
    (fuel : nat) (Hfuel : (Z.to_nat (default DEFAULT_MAX_CONSECUTIVE_REFLEXES (o_maxConsecutiveReflexes o)) + 2 <= fuel)%nat)
    (c : call) (h : Host X) :
  perform o fuel c h <> Unfinished.
Proof.
  assert (Hcfg : forall h, shouldStopAfterTurn (createLoopConfig o h) = Some hook) by (intros; cbn; by rewrite Hhook).
  assert (Hp : forall prompts skip h, runPromptMessages o fuel prompts skip h <> Unfinished).
  { intros prompts skip h0. unfold runPromptMessages, runWithLifecycle. destruct (activeRun _); [done|]. set (h1 := on_agent _ _). set (w0 := fresh_world _ _).
    pose proof (runAgentLoop_returns _ (config_protocol o Ho h1) _ hook (Hcfg h1) Hstop fuel prompts w0 eq_refl eq_refl Hfuel) as H.
    unfold wp in H. destruct (runAgentLoop _ _ _ w0) as [[]]; [done|by destruct (handleRunFailure _ _ _ _)|done]. }
  assert (Hc : forall h, runContinuation o fuel h <> Unfinished).
  { intros h0. unfold runContinuation, runWithLifecycle. destruct (activeRun _); [done|]. set (h1 := on_agent _ _). set (w0 := fresh_world _ _).
    pose proof (runAgentLoopContinue_returns _ (config_protocol o Ho h1) _ hook (Hcfg h1) Hstop fuel w0 eq_refl eq_refl Hfuel) as H.
    unfold wp in H. destruct (runAgentLoopContinue _ _ w0) as [[]]; [done|by destruct (handleRunFailure _ _ _ _)|done]. }
  destruct c as [input|]; cbn [perform]; unfold prompt, continue; destruct (activeRun _); try (by auto).
  assert (Hq : forall r, runQueuedMessages o fuel h = inl r -> r <> Unfinished).
  { unfold runQueuedMessages. destruct (drain _) as [[|m ms] q]; [destruct (drain _) as [[|m ms] q']|]; intros r [= <-]; apply Hp. }
  destruct (last _) as [[]|]; try apply Hc; destruct (runQueuedMessages o fuel h) as [r|h0]; try apply Hc; try done; by apply Hq.
Qed.

(** ** A concrete agent

    The rest of the world is the script of the provider. The tool steers the agent while it runs. *)

Definition ex_note (s : string) : AgentMessage := User {| u_content := CString (js s); u_timestamp := 0 |}.
Definition ex_tool : AgentTool (Host script) :=
  {| tool_name := js "a"; executionMode := None; prepareArguments := None;
     execute := fun _ _ h => (on_agent (steer [ex_note "steered"]) h,
       {| chunks := []; finish := settled {| res_content := []; res_details := None; terminate := None |} |}) |}.
Definition ex_stream (_ : LlmContext (Host script)) (h : Host script) : reply (Host script) (response (Host script)) :=
  let m := default (blank [] Stop) (head (rest h)) in
  settled {| pulls := [settled (EStart m); settled (EDelta text_delta m); settled (EDone m)]; response_result := settled m |}
    {| agent := agent h; skipInitialSteeringPoll := skipInitialSteeringPoll h; rest := tail (rest h) |}.
Definition ex_options (stop : bool) (listeners : list (AgentEvent -> Host script -> emitted (Host script))) : AgentOptions script :=
  {| o_tools := [ex_tool]; o_convertToLlm := None; o_transformContext := None; o_streamFn := ex_stream; o_getApiKey := None;
     o_beforeToolCall := None; o_afterToolCall := None;
     o_shouldStopAfterTurn := if stop then Some (fun _ => settled true) else None;
     o_shouldStopBeforeTurn := None; o_getContinuationMessages := None; o_preTurnRouter := None;
     o_maxConsecutiveReflexes := None; o_toolExecution := None; o_listeners := listeners;
     o_validateToolArguments := fun _ c => inl (arguments c); o_now := fun _ => 0; o_randomUUID := fun h => (js "uuid", h);
     o_interleaving := fun _ => [] |}.

(** A listener that removes messages from the transcript at the end of a run, as the one of the session does. *)
Definition removing (drops : AgentMessage -> bool) (e : AgentEvent) (h : Host script) : emitted (Host script) :=
  {| e_error := None; e_abort := false;
     e_ext := match e with
       | agent_end _ => on_agent (set_state (set_messages (List.filter (fun m => negb (drops m))))) h
       | _ => h end |}.

Lemma filter_drops {A} (f : A -> bool) (l : list A) : List.filter f l `sublist_of` l.
Proof. induction l as [|x l IH]; [done|]. cbn. by destruct (f x); constructor. Qed.

Lemma removing_untouched drops e h : untouched (flip sublist) h (e_ext (removing drops e h)).
Proof. destruct e; try (by split). split; [|done]. split; [apply filter_drops|done]. Qed.

Lemma ex_contract stop drops : contract (ex_options stop [removing drops]).
Proof.
  split; cbn.
  - intros llm h resp [= <-]. left. repeat constructor; by intros x p.
  - by constructor.
Qed.

Lemma unchanged (h : Host script) : untouched (flip sublist) h h.
Proof. split; [|done]. by split. Qed.
Lemma ex_well_behaved stop drops : well_behaved (flip sublist) (ex_options stop [removing drops]).
Proof.
  split; try (by apply ex_contract); cbn; try done.
  - constructor; [|done]. intros i a h. split; [by split|]. split; [by constructor|by split].
  - intros llm h resp [= <-]. split; [|intros h'; apply unchanged].
    repeat (constructor; [intros h'; apply unchanged|]). constructor.
  - destruct stop; [|done]. intros tc h. apply unchanged.
  - constructor; [|done]. intros e h. apply removing_untouched.
Qed.

Definition ex_agent : Agent := new_agent None None None None None.
Definition ex_host (s : script) : Host script := {| agent := ex_agent; skipInitialSteeringPoll := false; rest := s |}.
Definition ex_script : script := [blank [call_part "1" "a"] ToolUse; blank [] Stop].
Definition ex_input : PromptInput := PromptMessage (ex_note "hi").

(** The steered message is injected after the results of the turn that steered. *)
Example ex_transcript :
  match perform (ex_options false []) 5 (CallPrompt ex_input) (ex_host ex_script) with
  | Settled tr h => match messages (_state (agent h)) with
      | [User _; Assistant _; ToolResult _; m; Assistant _] => m = ex_note "steered"
      | _ => False end
  | _ => False
  end.
Proof. by vm_compute. Qed.

(** The same agent with a listener that removes the results of tools at the end of the run. *)
Definition is_result (m : AgentMessage) : bool := match m with ToolResult _ => true | _ => false end.
Abbreviation dropping := (ex_options false [removing is_result]).
Abbreviation ex_run := (perform dropping 5 (CallPrompt ex_input) (ex_host ex_script)).
Definition ex_trace : list AgentEvent := match ex_run with Settled tr _ => tr | _ => [] end.
Definition ex_final : Host script := match ex_run with Settled _ h => h | _ => ex_host [] end.

Example ex_dropped : match messages (_state (agent ex_final)) with [User _; Assistant _; m; Assistant _] => m = ex_note "steered" | _ => False end /\
  length (said (log_of ex_trace)) = 5%nat.
Proof. by vm_compute. Qed.

Lemma agent_transcript_witness :
  ex_run = Settled ex_trace ex_final /\
  flip sublist (messages (_state (agent (ex_host ex_script))) ++ said (log_of ex_trace)) (messages (_state (agent ex_final))).
Proof.
  assert (Hrun : ex_run = Settled ex_trace ex_final) by (vm_compute; reflexivity).
  destruct (agent_transcript (flip sublist) dropping (ex_well_behaved false is_result) 5 (CallPrompt ex_input)
    (ex_host ex_script) ex_final ex_trace Hrun) as (_ & H & _).
  exact (conj Hrun H).
Defined.

Lemma perform_refuses_witness :
  wf_queue (steeringQueue ex_agent) /\ start_of CallContinue (ex_host []) (perform (ex_options false []) 5 CallContinue (ex_host [])).
Proof.
  split; [constructor|]. apply (perform_refuses (ex_options false []) 5 CallContinue (ex_host [])); constructor.
Defined.

Lemma agent_view_witness :
  idle ex_agent /\
  exists st, in_view st (_state (agent (ext (runAgentLoop (createLoopConfig dropping (on_agent beginRun (ex_host ex_script))) 1
    [ex_note "hi"] (fresh_world [] (set_skip false (on_agent beginRun (ex_host ex_script))))).2))).
Proof.
  assert (Hi : idle ex_agent) by (repeat split).
  split; [exact Hi|].
  destruct (agent_view (flip sublist) dropping (ex_well_behaved false is_result) 1 [ex_note "hi"] false (ex_host ex_script) Hi) as (st & _ & Hv & _).
  exists st. exact Hv.
Defined.

Lemma agent_settles_witness :
  (Z.to_nat (default DEFAULT_MAX_CONSECUTIVE_REFLEXES (o_maxConsecutiveReflexes (ex_options true [removing is_result]))) + 2 <= 5)%nat /\
  perform (ex_options true [removing is_result]) 5 (CallPrompt ex_input) (ex_host ex_script) <> Unfinished.
Proof.
  split; [vm_compute; lia|].
  apply (agent_settles (ex_options true [removing is_result]) (ex_contract true is_result) (fun _ => settled true) eq_refl (fun _ _ => eq_refl)).
  vm_compute. lia.
Defined.
