(* ===== verification/SessionEntries.v ===== *)
(** * The entries of a session log (core/session-manager.ts)

    The header and the fourteen kinds of entries, as records; [SessionJson]
    gives them their JSON values. Timestamps are instants (the source keeps
    them in ISO format). *)

(* Source aliases:
   SM = src/packages/coding-agent/src/core/session-manager.ts *)

From S2P Require Import Prelude JsString JsNumber Messages.
Local Open Scope Z_scope.

(** SM 177-177 SessionStateStatus. *)
Inductive SessionStateStatus := active | archived | crash.
(** SM 188-194 AgentStatus. *)
Inductive AgentTaskState := needs_input | completed | task_error.
Record AgentStatus := { st_summary : jsstr; taskState : option AgentTaskState; basedOnMessageCount : Z }.
(** SM 163-163 ChildUsageAttributionEntry.origin. *)
Inductive Origin := spawn_task | agent_message | direct_user.

(** SM 123-136 CompactionEntry. *)
Record Compaction := {
  cmp_summary : jsstr; firstKeptEntryId : jsstr; cmp_tokensBefore : Z; cmp_details : option json;
  cmp_fromHook : bool; cmp_customInstructions : option jsstr; cmp_usage : option Usage;
  cmp_harnessDigest : option jsstr; cmp_harnessStateFingerprint : option jsstr }.
(** SM 138-145 BranchSummaryEntry. *)
Record BranchSummaryData := {
  br_fromId : jsstr; br_summary : jsstr; br_details : option json; br_fromHook : bool; br_usage : option Usage }.
(** SM 206-212 CustomMessageEntry. *)
Record CustomMessageData := {
  cm_customType : jsstr; cm_content : Content; cm_details : option json; cm_display : bool }.

(** SM 214-228 SessionEntry. The kinds, with the fields of SM 100-204; git contexts are values the model
    does not look into. *)
Inductive Kind :=
| KMessage (m : AgentMessage)
| KThinkingLevel (level : jsstr)
| KServiceTier (tier : jsstr)
| KModel (provider modelId : jsstr)
| KCompaction (c : Compaction)
| KBranchSummary (b : BranchSummaryData)
| KCustom (customType : jsstr) (data : option json)
| KChildUsage (targetId : jsstr) (childUsage aggregateUsage : Usage) (origin : option Origin)
| KCustomMessage (c : CustomMessageData)
| KLabel (targetId : jsstr) (label : option jsstr)
| KSessionInfo (name : option jsstr)
| KSessionState (status : SessionStateStatus)
| KAgentStatus (status : AgentStatus)
| KGitState (git : json).

(** SM 93-98 SessionEntryBase. *)
Record SessionEntry := { e_id : jsstr; parentId : option jsstr; e_timestamp : Z; kind : Kind }.
(** SM 74-83 SessionHeader. *)
Record SessionHeader := {
  version : option Z; h_id : jsstr; h_timestamp : Z; cwd : jsstr; parentSession : option jsstr;
  rlmDepth : option Z; git : option json }.
(** SM 230-230 FileEntry. *)
Inductive FileEntry := Header (h : SessionHeader) | Entry (e : SessionEntry).

Definition entry_of (f : FileEntry) : option SessionEntry := match f with Entry e => Some e | Header _ => None end.
Definition is_assistant_kind (k : Kind) : bool := match k with KMessage (Assistant _) => true | _ => false end.
Definition is_assistant_file_entry (f : FileEntry) : bool :=
  match f with Entry e => is_assistant_kind (kind e) | Header _ => false end.
