(* ===== verification/SessionJson.v ===== *)
(** * The JSON of a session log (core/session-manager.ts, its entry types)

    An entry is written as the JSON text of its object: the fields of its
    interface, without those that are undefined. What the engine prints for a
    cost, a fraction, and for an instant is a parameter, [Engine]; what is relied
    on is that these texts are read back ([engine_ok]). Counts and times are
    integers, printed in digits as the language does below 10^21. A flag that is
    false is left out; so are the fields of messages that the model leaves out.

    [file_entry_back] says that an entry is what its object shows,
    [line_read] that a line that was written is read as its entry. *)

(* Source aliases:
   SM = src/packages/coding-agent/src/core/session-manager.ts
   AI = src/packages/ai/src/types.ts
   MS = src/packages/coding-agent/src/core/messages.ts
   AG = src/packages/agent/src/types.ts *)

From Stdlib Require Import Ascii.
From stdpp Require Import countable.
From S2P Require Import Prelude JsString JsNumber JsMap Messages Json IntegerText FileLog SessionEntries.
Local Open Scope Z_scope.

(** [Number.prototype.toString] with [Number], and [Date.prototype.toISOString] with [Date.parse]. *)
Record Engine := {
  number_text : Q -> jsstr; number_value : jsstr -> option Q;
  instant_text : Z -> jsstr; instant_value : jsstr -> option Z }.
(** A number is printed as a JSON number that is read as the same number, an instant as a text that is read as the
    same instant. *)
Record engine_ok (E : Engine) : Prop := {
  number_back q : number_value E (number_text E q) = Some q;
  number_json q : json_ok (JNum (number_text E q));
  instant_back t : instant_value E (instant_text E t) = Some t;
  instant_wf t : js_wf (instant_text E t) }.

(** ** Objects *)

(** Fields by name; the ones that are undefined are not printed. *)
Abbreviation fields := (list (string * option json)).
Definition obj (fs : fields) : json := JObj (omap (fun f : string * option json => (fun v => (js f.1, v)) <$> f.2) fs).
Definition get_field (k : string) (v : json) : option json := match v with JObj fs => get fs (js k) | _ => None end.
Fixpoint find_field (k : string) (fs : fields) : option json :=
  match fs with [] => None | (k', v) :: fs => if String.eqb k' k then v else find_field k fs end.
Fixpoint distinct (fs : fields) : bool :=
  match fs with [] => true | (k, _) :: fs => negb (existsb (fun f => String.eqb f.1 k) fs) && distinct fs end.

Lemma js_inj (a b : string) : js a = js b -> a = b.
Proof.
  unfold js. intros H. assert (Hf : forall s, String.string_of_list_ascii (ascii_of_N <$> (N_of_ascii <$> String.list_ascii_of_string s)) = s).
  { intros s. induction s as [|c s IH]; [done|]. cbn. rewrite ascii_N_embedding. f_equal. exact IH. }
  by rewrite <- (Hf a), H, Hf.
Qed.
Lemma js_eqb (a b : string) : bool_decide (js a = js b) = String.eqb a b.
Proof.
  destruct (String.eqb_spec a b) as [->|Hn]; [by apply bool_decide_eq_true|]. apply bool_decide_eq_false. by intros ?%js_inj.
Qed.
Lemma js_ascii (s : string) : js_wf (js s).
Proof.
  unfold js_wf, js. apply Forall_fmap, Forall_forall. intros c _. cbn. pose proof (N_ascii_bounded c). lia.
Qed.

Lemma get_field_missing k fs : existsb (fun f : string * option json => String.eqb f.1 k) fs = false -> get_field k (obj fs) = None.
Proof.
  unfold obj, get_field. induction fs as [|[k' v] fs IH]; [done|]. cbn. intros [Hk Hfs]%orb_false_iff. destruct v as [v|]; cbn; [|by apply IH].
  rewrite decide_False; [by apply IH|]. intros ->%js_inj. by rewrite String.eqb_refl in Hk.
Qed.
Lemma get_field_obj k fs : distinct fs = true -> get_field k (obj fs) = find_field k fs.
Proof.
  induction fs as [|[k' v] fs IH]; [done|]. cbn [distinct find_field]. intros [Hk Hfs]%andb_true_iff. apply negb_true_iff in Hk.
  destruct (String.eqb_spec k' k) as [->|Hn].
  - destruct v as [v|]; [unfold obj; cbn; by rewrite decide_True|]. exact (get_field_missing k fs Hk).
  - rewrite <- IH by done. unfold obj, get_field. destruct v as [v|]; [|done]. cbn. rewrite decide_False; [done|]. by intros ?%js_inj.
Qed.

Definition field_ok (f : string * option json) : Prop := match f.2 with Some v => json_ok v | None => True end.
Lemma obj_keys k fs : js k ∈ (omap (fun f : string * option json => (fun v => (js f.1, v)) <$> f.2) fs).*1 -> existsb (fun f => String.eqb f.1 k) fs = true.
Proof.
  induction fs as [|[k' v] fs IH]; cbn; [by intros ?%elem_of_nil|]. destruct v as [v|]; cbn; [|intros H; rewrite IH by done; apply orb_true_r].
  intros [->%js_inj|H]%elem_of_cons; [by rewrite String.eqb_refl|]. rewrite IH by done. apply orb_true_r.
Qed.
Lemma obj_ok fs : distinct fs = true -> json_ok (obj fs) <-> Forall field_ok fs.
Proof.
  intros Hd. set (kvs := omap (fun f : string * option json => (fun v => (js f.1, v)) <$> f.2) fs).
  assert (Hk : NoDup kvs.*1 /\ Forall js_wf kvs.*1).
  { unfold kvs. clear kvs. induction fs as [|[k v] fs IH]; [split; constructor|]. cbn [distinct] in Hd. apply andb_true_iff in Hd as [Hk Hd]. apply negb_true_iff in Hk.
    destruct (IH Hd) as [H1 H2]. cbn. destruct v as [v|]; cbn; [|done]. split; constructor; try done; [|apply js_ascii].
    intros Hin%obj_keys. by rewrite Hin in Hk. }
  assert (Hv : Forall (fun f => json_ok f.2) kvs <-> Forall field_ok fs).
  { unfold kvs. clear. induction fs as [|[k v] fs IH]; [split; constructor|]. cbn. rewrite Forall_cons, <- IH. destruct v as [v|]; cbn; [by rewrite Forall_cons|].
    split; [by split|by intros [_ ?]]. }
  unfold obj. fold kvs. split.
  - intros H. apply Hv. by inversion H.
  - intros H. destruct Hk. by constructor; [..|apply Hv].
Qed.

(** ** Reading values *)

Definition as_string (v : json) : option jsstr := match v with JStr s => Some s | _ => None end.
Definition as_int (v : json) : option Z := match v with JNum t => JsNumber.integer t | _ => None end.
Definition as_bool (v : json) : option bool := match v with JBool b => Some b | _ => None end.
Definition as_list {A} (d : json -> option A) (v : json) : option (list A) := match v with JArr l => mapM d l | _ => None end.
Definition as_fields (v : json) : option (list (jsstr * json)) := match v with JObj fs => Some fs | _ => None end.
(** A field that is required, one that may be missing, and a flag that is set or missing. *)
Definition req {A} (k : string) (d : json -> option A) (v : json) : option A := get_field k v ≫= d.
Definition opt {A} (k : string) (d : json -> option A) (v : json) : option (option A) :=
  match get_field k v with Some w => Some <$> d w | None => Some None end.
Definition flag (k : string) (v : json) : option bool := match get_field k v with Some w => as_bool w | None => Some false end.
(** The case of a tag. *)
Definition tagged (s : string) (tag : jsstr) : bool := bool_decide (tag = js s).

Definition int (z : Z) : json := JNum (show_Z z).
Definition str (s : string) : json := JStr (js s).
Definition set_flag (b : bool) : option json := if b then Some (JBool true) else None.

Lemma req_obj {A} k (d : json -> option A) fs : distinct fs = true -> req k d (obj fs) = find_field k fs ≫= d.
Proof. intros H. unfold req. by rewrite get_field_obj. Qed.
Lemma opt_obj {A} k (d : json -> option A) fs : distinct fs = true ->
  opt k d (obj fs) = match find_field k fs with Some w => Some <$> d w | None => Some None end.
Proof. intros H. unfold opt. by rewrite get_field_obj. Qed.
Lemma flag_obj k fs : distinct fs = true -> flag k (obj fs) = match find_field k fs with Some w => as_bool w | None => Some false end.
Proof. intros H. unfold flag. by rewrite get_field_obj. Qed.
Lemma as_list_back {A} (e : A -> json) d l : (forall a, d (e a) = Some a) -> as_list d (JArr (e <$> l)) = Some l.
Proof. intros H. cbn. induction l as [|a l IH]; [done|]. cbn. rewrite H. cbn. by rewrite IH. Qed.
Lemma as_int_back z : as_int (int z) = Some z.
Proof. apply integer_show. Qed.
Lemma int_ok z : json_ok (int z).
Proof.
  unfold int, show_Z. destruct (z <? 0); [|apply show_N_ok]. pose proof (show_N_ok (Z.to_N (- z))) as H. inversion H as [| |t Ht Hp| | |]; subst.
  constructor; [|by constructor]. change (js "-" ++ ?x) with (45%N :: x). cbn [parse_number N.eqb Pos.eqb]. by rewrite unsigned_show.
Qed.

(** ** The values of the entries *)

(** A field that is always there, and one that may be undefined. *)
Definition must (k : string) (v : json) : string * option json := (k, Some v).
Definition may {A} (k : string) (e : A -> json) (o : option A) : string * option json := (k, e <$> o).

Section entries.
Variable E : Engine.

Definition num (q : Q) : json := JNum (number_text E q).
Definition as_num (v : json) : option Q := match v with JNum t => number_value E t | _ => None end.
Definition iso (t : Z) : json := JStr (instant_text E t).
Definition as_iso (v : json) : option Z := match v with JStr t => instant_value E t | _ => None end.

(** AI 195-201 Usage.cost. *)
Definition enc_cost (c : Cost) : json :=
  obj [must "input" (num (cost_input c)); must "output" (num (cost_output c)); must "cacheRead" (num (cost_cacheRead c));
       must "cacheWrite" (num (cost_cacheWrite c)); must "total" (num (cost_total c))].
Definition dec_cost (v : json) : option Cost :=
  i ← req "input" as_num v; o ← req "output" as_num v; r ← req "cacheRead" as_num v; w ← req "cacheWrite" as_num v; t ← req "total" as_num v;
  Some {| cost_input := i; cost_output := o; cost_cacheRead := r; cost_cacheWrite := w; cost_total := t |}.
(** AI 189-202 Usage. *)
Definition enc_usage (u : Usage) : json :=
  obj [must "input" (int (input u)); must "output" (int (output u)); must "cacheRead" (int (cacheRead u));
       must "cacheWrite" (int (cacheWrite u)); must "totalTokens" (int (totalTokens u)); must "cost" (enc_cost (cost u))].
Definition dec_usage (v : json) : option Usage :=
  i ← req "input" as_int v; o ← req "output" as_int v; r ← req "cacheRead" as_int v; w ← req "cacheWrite" as_int v;
  t ← req "totalTokens" as_int v; c ← req "cost" dec_cost v;
  Some {| input := i; output := o; cacheRead := r; cacheWrite := w; totalTokens := t; cost := c |}.

(** AI 159-163 TextContent. *)
Definition enc_text (t : TextContent) : json :=
  obj [must "type" (str "text"); must "text" (JStr (text t)); may "textSignature" JStr (textSignature t)].
Definition dec_text (v : json) : option TextContent :=
  t ← req "text" as_string v; s ← opt "textSignature" as_string v; Some {| text := t; textSignature := s |}.
(** AI 165-173 ThinkingContent. *)
Definition enc_thinking (t : ThinkingContent) : json :=
  obj [must "type" (str "thinking"); must "thinking" (JStr (thinking t)); may "thinkingSignature" JStr (thinkingSignature t);
       may "redacted" JBool (redacted t)].
Definition dec_thinking (v : json) : option ThinkingContent :=
  t ← req "thinking" as_string v; s ← opt "thinkingSignature" as_string v; r ← opt "redacted" as_bool v;
  Some {| thinking := t; thinkingSignature := s; redacted := r |}.
(** AI 175-179 ImageContent. *)
Definition enc_image (i : ImageContent) : json :=
  obj [must "type" (str "image"); must "data" (JStr (data i)); must "mimeType" (JStr (mimeType i))].
Definition dec_image (v : json) : option ImageContent :=
  d ← req "data" as_string v; m ← req "mimeType" as_string v; Some {| data := d; mimeType := m |}.
(** AI 181-187 ToolCall. *)
Definition enc_call (c : ToolCall) : json :=
  obj [must "type" (str "toolCall"); must "id" (JStr (id c)); must "name" (JStr (name c)); must "arguments" (JObj (arguments c));
       may "thoughtSignature" JStr (thoughtSignature c)].
Definition dec_call (v : json) : option ToolCall :=
  i ← req "id" as_string v; n ← req "name" as_string v; a ← req "arguments" as_fields v; s ← opt "thoughtSignature" as_string v;
  Some {| id := i; name := n; arguments := a; thoughtSignature := s |}.

(** AI 208-208 UserMessage.content. *)
Definition enc_part (p : Part) : json := match p with PText t => enc_text t | PImage i => enc_image i end.
Definition dec_part (v : json) : option Part :=
  tag ← req "type" as_string v;
  if tagged "text" tag then PText <$> dec_text v else if tagged "image" tag then PImage <$> dec_image v else None.
Definition enc_content (c : Content) : json := match c with CString s => JStr s | CParts ps => JArr (enc_part <$> ps) end.
Definition dec_content (v : json) : option Content :=
  match v with JStr s => Some (CString s) | JArr l => CParts <$> mapM dec_part l | _ => None end.
(** AI 214-214 AssistantMessage.content. *)
Definition enc_apart (p : AssistantPart) : json :=
  match p with AText t => enc_text t | AThinking t => enc_thinking t | AToolCall c => enc_call c end.
Definition dec_apart (v : json) : option AssistantPart :=
  tag ← req "type" as_string v;
  if tagged "text" tag then AText <$> dec_text v else if tagged "thinking" tag then AThinking <$> dec_thinking v
  else if tagged "toolCall" tag then AToolCall <$> dec_call v else None.

(** AI 204-204 StopReason. *)
Definition stop_text (r : StopReason) : string :=
  match r with Stop => "stop" | Length => "length" | ToolUse => "toolUse" | Error => "error" | Aborted => "aborted" end.
Definition dec_stop (v : json) : option StopReason :=
  tag ← as_string v; List.find (fun r => tagged (stop_text r) tag) [Stop; Length; ToolUse; Error; Aborted].

(** AI 206-210 UserMessage. *)
Definition enc_user (m : UserMessage) : json :=
  obj [must "role" (str "user"); must "content" (enc_content (u_content m)); must "timestamp" (int (u_timestamp m))].
Definition dec_user (v : json) : option UserMessage :=
  c ← req "content" dec_content v; t ← req "timestamp" as_int v; Some {| u_content := c; u_timestamp := t |}.
(** AI 212-226 AssistantMessage. Without the fields the model leaves out. *)
Definition enc_assistant (m : AssistantMessage) : json :=
  obj [must "role" (str "assistant"); must "content" (JArr (enc_apart <$> a_content m)); must "api" (JStr (api m));
       must "provider" (JStr (provider m)); must "model" (JStr (model m)); must "usage" (enc_usage (usage m));
       must "stopReason" (str (stop_text (stopReason m))); may "errorMessage" JStr (errorMessage m); must "timestamp" (int (a_timestamp m))].
Definition dec_assistant (v : json) : option AssistantMessage :=
  c ← req "content" (as_list dec_apart) v; a ← req "api" as_string v; p ← req "provider" as_string v; m ← req "model" as_string v;
  u ← req "usage" dec_usage v; r ← req "stopReason" dec_stop v; e ← opt "errorMessage" as_string v; t ← req "timestamp" as_int v;
  Some {| a_content := c; api := a; provider := p; model := m; usage := u; stopReason := r; errorMessage := e; a_timestamp := t |}.
(** AI 228-236 ToolResultMessage. *)
Definition enc_result (m : ToolResultMessage) : json :=
  obj [must "role" (str "toolResult"); must "toolCallId" (JStr (toolCallId m)); must "toolName" (JStr (toolName m));
       must "content" (JArr (enc_part <$> t_content m)); may "details" Datatypes.id (details m); must "isError" (JBool (isError m));
       must "timestamp" (int (t_timestamp m))].
Definition dec_result (v : json) : option ToolResultMessage :=
  i ← req "toolCallId" as_string v; n ← req "toolName" as_string v; c ← req "content" (as_list dec_part) v; d ← opt "details" Some v;
  e ← req "isError" as_bool v; t ← req "timestamp" as_int v;
  Some {| toolCallId := i; toolName := n; t_content := c; details := d; isError := e; t_timestamp := t |}.
(** MS 306-317 BashExecutionMessage. *)
Definition enc_bash (m : BashExecutionMessage) : json :=
  obj [must "role" (str "bashExecution"); must "command" (JStr (command m)); must "output" (JStr (b_output m)); may "exitCode" int (exitCode m);
       must "cancelled" (JBool (cancelled m)); must "truncated" (JBool (b_truncated m)); may "fullOutputPath" JStr (fullOutputPath m);
       must "timestamp" (int (b_timestamp m)); ("excludeFromContext"%string, set_flag (excludeFromContext m))].
Definition dec_bash (v : json) : option BashExecutionMessage :=
  c ← req "command" as_string v; o ← req "output" as_string v; x ← opt "exitCode" as_int v; n ← req "cancelled" as_bool v;
  r ← req "truncated" as_bool v; p ← opt "fullOutputPath" as_string v; t ← req "timestamp" as_int v; e ← flag "excludeFromContext" v;
  Some {| command := c; b_output := o; exitCode := x; cancelled := n; b_truncated := r; fullOutputPath := p; b_timestamp := t;
          excludeFromContext := e |}.
(** MS 323-330 CustomMessage. *)
Definition enc_custom (m : CustomMessage) : json :=
  obj [must "role" (str "custom"); must "customType" (JStr (customType m)); must "content" (enc_content (c_content m));
       must "display" (JBool (display m)); may "details" Datatypes.id (c_details m); must "timestamp" (int (c_timestamp m))].
Definition dec_custom (v : json) : option CustomMessage :=
  k ← req "customType" as_string v; c ← req "content" dec_content v; y ← req "display" as_bool v; d ← opt "details" Some v;
  t ← req "timestamp" as_int v;
  Some {| customType := k; c_content := c; display := y; c_details := d; c_timestamp := t |}.
(** MS 345-350 BranchSummaryMessage. *)
Definition enc_branch (m : BranchSummaryMessage) : json :=
  obj [must "role" (str "branchSummary"); must "summary" (JStr (bs_summary m)); must "fromId" (JStr (fromId m));
       must "timestamp" (int (bs_timestamp m))].
Definition dec_branch (v : json) : option BranchSummaryMessage :=
  s ← req "summary" as_string v; f ← req "fromId" as_string v; t ← req "timestamp" as_int v;
  Some {| bs_summary := s; fromId := f; bs_timestamp := t |}.
(** MS 352-365 CompactionSummaryMessage. *)
Definition enc_compaction (m : CompactionSummaryMessage) : json :=
  obj [must "role" (str "compactionSummary"); must "summary" (JStr (cs_summary m)); must "tokensBefore" (int (tokensBefore m));
       may "retainedMessageCount" int (retainedMessageCount m); may "customInstructions" JStr (customInstructions m);
       may "harnessDigest" JStr (harnessDigest m); may "harnessStateFingerprint" JStr (harnessStateFingerprint m);
       must "timestamp" (int (cs_timestamp m))].
Definition dec_compaction (v : json) : option CompactionSummaryMessage :=
  s ← req "summary" as_string v; b ← req "tokensBefore" as_int v; r ← opt "retainedMessageCount" as_int v;
  c ← opt "customInstructions" as_string v; h ← opt "harnessDigest" as_string v; f ← opt "harnessStateFingerprint" as_string v;
  t ← req "timestamp" as_int v;
  Some {| cs_summary := s; tokensBefore := b; retainedMessageCount := r; customInstructions := c; harnessDigest := h;
          harnessStateFingerprint := f; cs_timestamp := t |}.
(** AG 347-347 AgentMessage. *)
Definition enc_message (m : AgentMessage) : json :=
  match m with
  | User m => enc_user m | Assistant m => enc_assistant m | ToolResult m => enc_result m | BashExecution m => enc_bash m
  | Custom m => enc_custom m | BranchSummary m => enc_branch m | CompactionSummary m => enc_compaction m
  end.
Definition dec_message (v : json) : option AgentMessage :=
  tag ← req "role" as_string v;
  if tagged "user" tag then User <$> dec_user v else if tagged "assistant" tag then Assistant <$> dec_assistant v
  else if tagged "toolResult" tag then ToolResult <$> dec_result v else if tagged "bashExecution" tag then BashExecution <$> dec_bash v
  else if tagged "custom" tag then Custom <$> dec_custom v else if tagged "branchSummary" tag then BranchSummary <$> dec_branch v
  else if tagged "compactionSummary" tag then CompactionSummary <$> dec_compaction v else None.

(** SM 177-194 SessionStateStatus. *)
Definition state_text (s : SessionStateStatus) : string := match s with active => "active" | archived => "archived" | crash => "crash" end.
Definition dec_state (v : json) : option SessionStateStatus :=
  tag ← as_string v; List.find (fun s => tagged (state_text s) tag) [active; archived; crash].
Definition enc_state (s : SessionStateStatus) : json := obj [must "status" (str (state_text s))].
Definition dec_state_field (v : json) : option SessionStateStatus := req "status" dec_state v.
Definition task_text (s : AgentTaskState) : string :=
  match s with needs_input => "needs_input" | completed => "completed" | task_error => "error" end.
Definition dec_task (v : json) : option AgentTaskState :=
  tag ← as_string v; List.find (fun s => tagged (task_text s) tag) [needs_input; completed; task_error].
Definition enc_status (s : AgentStatus) : json :=
  obj [must "summary" (JStr (st_summary s)); may "taskState" (fun t => str (task_text t)) (taskState s);
       must "basedOnMessageCount" (int (basedOnMessageCount s))].
Definition dec_status (v : json) : option AgentStatus :=
  s ← req "summary" as_string v; t ← opt "taskState" dec_task v; n ← req "basedOnMessageCount" as_int v;
  Some {| st_summary := s; taskState := t; basedOnMessageCount := n |}.
(** SM 163-163 ChildUsageAttributionEntry.origin. *)
Definition origin_text (o : Origin) : string :=
  match o with spawn_task => "spawn_task" | agent_message => "agent_message" | direct_user => "direct_user" end.
Definition dec_origin (v : json) : option Origin :=
  tag ← as_string v; List.find (fun o => tagged (origin_text o) tag) [spawn_task; agent_message; direct_user].

(** SM 93-98 SessionEntryBase. The fields all entries have. *)
Definition base (e : SessionEntry) : fields :=
  [must "id" (JStr (e_id e)); must "parentId" (match parentId e with Some p => JStr p | None => JNull end); must "timestamp" (iso (e_timestamp e))].
Definition as_parent (v : json) : option (option jsstr) := match v with JNull => Some None | JStr p => Some (Some p) | _ => None end.

(** SM 123-136 CompactionEntry. *)
Definition compaction_fields (c : Compaction) : fields :=
  [must "summary" (JStr (cmp_summary c)); must "firstKeptEntryId" (JStr (firstKeptEntryId c)); must "tokensBefore" (int (cmp_tokensBefore c));
   may "details" Datatypes.id (cmp_details c); ("fromHook"%string, set_flag (cmp_fromHook c)); may "customInstructions" JStr (cmp_customInstructions c);
   may "usage" enc_usage (cmp_usage c); may "harnessDigest" JStr (cmp_harnessDigest c);
   may "harnessStateFingerprint" JStr (cmp_harnessStateFingerprint c)].
Definition dec_compaction_entry (v : json) : option Compaction :=
  s ← req "summary" as_string v; k ← req "firstKeptEntryId" as_string v; b ← req "tokensBefore" as_int v; d ← opt "details" Some v;
  h ← flag "fromHook" v; c ← opt "customInstructions" as_string v; u ← opt "usage" dec_usage v; g ← opt "harnessDigest" as_string v;
  f ← opt "harnessStateFingerprint" as_string v;
  Some {| cmp_summary := s; firstKeptEntryId := k; cmp_tokensBefore := b; cmp_details := d; cmp_fromHook := h; cmp_customInstructions := c;
          cmp_usage := u; cmp_harnessDigest := g; cmp_harnessStateFingerprint := f |}.
(** SM 138-145 BranchSummaryEntry. *)
Definition branch_fields (b : BranchSummaryData) : fields :=
  [must "fromId" (JStr (br_fromId b)); must "summary" (JStr (br_summary b)); may "details" Datatypes.id (br_details b);
   ("fromHook"%string, set_flag (br_fromHook b)); may "usage" enc_usage (br_usage b)].
Definition dec_branch_entry (v : json) : option BranchSummaryData :=
  f ← req "fromId" as_string v; s ← req "summary" as_string v; d ← opt "details" Some v; h ← flag "fromHook" v; u ← opt "usage" dec_usage v;
  Some {| br_fromId := f; br_summary := s; br_details := d; br_fromHook := h; br_usage := u |}.
(** SM 206-212 CustomMessageEntry. *)
Definition custom_fields (c : CustomMessageData) : fields :=
  [must "customType" (JStr (cm_customType c)); must "content" (enc_content (cm_content c)); must "display" (JBool (cm_display c));
   may "details" Datatypes.id (cm_details c)].
Definition dec_custom_entry (v : json) : option CustomMessageData :=
  t ← req "customType" as_string v; c ← req "content" dec_content v; y ← req "display" as_bool v; d ← opt "details" Some v;
  Some {| cm_customType := t; cm_content := c; cm_details := d; cm_display := y |}.

(** SM 100-228 SessionEntry. The object of an entry, as the append operations build it. *)
Definition enc_entry (e : SessionEntry) : json :=
  match kind e with
  | KMessage m => obj (must "type" (str "message") :: base e ++ [must "message" (enc_message m)])
  | KThinkingLevel l => obj (must "type" (str "thinking_level_change") :: base e ++ [must "thinkingLevel" (JStr l)])
  | KServiceTier t => obj (must "type" (str "service_tier_change") :: base e ++ [must "serviceTier" (JStr t)])
  | KModel p m => obj (must "type" (str "model_change") :: base e ++ [must "provider" (JStr p); must "modelId" (JStr m)])
  | KCompaction c => obj (must "type" (str "compaction") :: base e ++ compaction_fields c)
  | KBranchSummary b => obj (must "type" (str "branch_summary") :: base e ++ branch_fields b)
  | KCustom t d => obj (must "type" (str "custom") :: must "customType" (JStr t) :: may "data" Datatypes.id d :: base e)
  | KChildUsage t c a o => obj (must "type" (str "child_usage_attributed") :: base e ++ [must "targetId" (JStr t); must "childUsage" (enc_usage c);
                             must "aggregateUsage" (enc_usage a); may "origin" (fun o => str (origin_text o)) o])
  | KCustomMessage c => obj (must "type" (str "custom_message") :: custom_fields c ++ base e)
  | KLabel t l => obj (must "type" (str "label") :: base e ++ [must "targetId" (JStr t); may "label" JStr l])
  | KSessionInfo n => obj (must "type" (str "session_info") :: base e ++ [may "name" JStr n])
  | KSessionState s => obj (must "type" (str "session_state") :: base e ++ [must "state" (enc_state s)])
  | KAgentStatus s => obj (must "type" (str "agent_status") :: base e ++ [must "status" (enc_status s)])
  | KGitState g => obj (must "type" (str "git_state") :: base e ++ [must "git" g])
  end.
(** SM 100-228 SessionEntry. The kind of an object with a given tag. *)
Definition dec_kind (tag : jsstr) (v : json) : option Kind :=
  if tagged "message" tag then KMessage <$> req "message" dec_message v
  else if tagged "thinking_level_change" tag then KThinkingLevel <$> req "thinkingLevel" as_string v
  else if tagged "service_tier_change" tag then KServiceTier <$> req "serviceTier" as_string v
  else if tagged "model_change" tag then p ← req "provider" as_string v; m ← req "modelId" as_string v; Some (KModel p m)
  else if tagged "compaction" tag then KCompaction <$> dec_compaction_entry v
  else if tagged "branch_summary" tag then KBranchSummary <$> dec_branch_entry v
  else if tagged "custom" tag then t ← req "customType" as_string v; d ← opt "data" Some v; Some (KCustom t d)
  else if tagged "child_usage_attributed" tag then
    t ← req "targetId" as_string v; c ← req "childUsage" dec_usage v; a ← req "aggregateUsage" dec_usage v; o ← opt "origin" dec_origin v;
    Some (KChildUsage t c a o)
  else if tagged "custom_message" tag then KCustomMessage <$> dec_custom_entry v
  else if tagged "label" tag then t ← req "targetId" as_string v; l ← opt "label" as_string v; Some (KLabel t l)
  else if tagged "session_info" tag then KSessionInfo <$> opt "name" as_string v
  else if tagged "session_state" tag then KSessionState <$> req "state" dec_state_field v
  else if tagged "agent_status" tag then KAgentStatus <$> req "status" dec_status v
  else if tagged "git_state" tag then KGitState <$> req "git" Some v
  else None.
(** SM 93-98 SessionEntryBase. *)
Definition dec_entry (tag : jsstr) (v : json) : option SessionEntry :=
  i ← req "id" as_string v; p ← req "parentId" as_parent v; t ← req "timestamp" as_iso v; k ← dec_kind tag v;
  Some {| e_id := i; parentId := p; e_timestamp := t; kind := k |}.

(** SM 74-83 SessionHeader. *)
Definition enc_header (h : SessionHeader) : json :=
  obj [must "type" (str "session"); may "version" int (version h); must "id" (JStr (h_id h)); must "timestamp" (iso (h_timestamp h));
       must "cwd" (JStr (cwd h)); may "parentSession" JStr (parentSession h); may "rlmDepth" int (rlmDepth h); may "git" Datatypes.id (git h)].
Definition dec_header (v : json) : option SessionHeader :=
  n ← opt "version" as_int v; i ← req "id" as_string v; t ← req "timestamp" as_iso v; c ← req "cwd" as_string v;
  p ← opt "parentSession" as_string v; r ← opt "rlmDepth" as_int v; g ← opt "git" Some v;
  Some {| version := n; h_id := i; h_timestamp := t; cwd := c; parentSession := p; rlmDepth := r; git := g |}.

(** SM 230-230 FileEntry. *)
Definition enc (f : FileEntry) : json := match f with Header h => enc_header h | Entry e => enc_entry e end.
(** SM 572-572 appendEntryFromBuffer. What a value is taken for. *)
Definition dec (v : json) : option FileEntry :=
  tag ← req "type" as_string v; if tagged "session" tag then Header <$> dec_header v else Entry <$> dec_entry tag v.

(** ** An entry is what its object shows *)

Hypothesis HE : engine_ok E.

Lemma as_num_back q : as_num (num q) = Some q.
Proof. apply (number_back E HE). Qed.
Lemma as_iso_back t : as_iso (iso t) = Some t.
Proof. apply (instant_back E HE). Qed.
Lemma as_string_back s : as_string (JStr s) = Some s.
Proof. done. Qed.
Lemma tagged_str s t : tagged s (js t) = String.eqb t s.
Proof. apply js_eqb. Qed.
Lemma dec_stop_back r : dec_stop (str (stop_text r)) = Some r.
Proof. destruct r; reflexivity. Qed.
Lemma dec_state_back r : dec_state (str (state_text r)) = Some r.
Proof. destruct r; reflexivity. Qed.
Lemma dec_task_back r : dec_task (str (task_text r)) = Some r.
Proof. destruct r; reflexivity. Qed.
Lemma dec_origin_back r : dec_origin (str (origin_text r)) = Some r.
Proof. destruct r; reflexivity. Qed.
Lemma as_parent_back (p : option jsstr) : as_parent (match p with Some p => JStr p | None => JNull end) = Some p.
Proof. by destruct p. Qed.
Lemma flag_back b : match set_flag b with Some w => as_bool w | None => Some false end = Some b.
Proof. by destruct b. Qed.
Lemma opt_back {A} (e : A -> json) (d : json -> option A) o : (forall a, d (e a) = Some a) ->
  match e <$> o with Some w => Some <$> d w | None => Some None end = Some o.
Proof. intros H. destruct o; cbn; [by rewrite H|done]. Qed.
Lemma any_back o : match Datatypes.id <$> o with Some w => Some <$> Some w | None => Some None end = Some (o : option json).
Proof. by destruct o. Qed.

(** Reads the fields of an object one after the other. *)
Create HintDb back discriminated.
#[local] Hint Rewrite as_num_back as_int_back as_iso_back as_string_back dec_stop_back dec_state_back dec_task_back dec_origin_back as_parent_back
  flag_back any_back tagged_str : back.
Ltac back_step := autorewrite with back; cbn [mbind option_bind fmap option_fmap option_map String.eqb Ascii.eqb Bool.eqb].
Ltac fields_tac :=
  unfold req, opt, flag, must, may; cbn [app]; rewrite ?get_field_obj by reflexivity;
  lazy [find_field String.eqb Ascii.eqb Bool.eqb]; cbn [mbind option_bind]; back_step;
  repeat (first [rewrite opt_back by (intros; first [done|by autorewrite with back]) | progress back_step]).

Lemma dec_cost_back c : dec_cost (enc_cost c) = Some c.
Proof. destruct c. unfold dec_cost, enc_cost. fields_tac. done. Qed.
#[local] Hint Rewrite dec_cost_back : back.
Lemma dec_usage_back u : dec_usage (enc_usage u) = Some u.
Proof. destruct u. unfold dec_usage, enc_usage. fields_tac. done. Qed.
#[local] Hint Rewrite dec_usage_back : back.
Lemma dec_text_back t : dec_text (enc_text t) = Some t.
Proof. destruct t. unfold dec_text, enc_text. fields_tac. done. Qed.
Lemma dec_thinking_back t : dec_thinking (enc_thinking t) = Some t.
Proof. destruct t. unfold dec_thinking, enc_thinking. fields_tac. done. Qed.
Lemma dec_image_back i : dec_image (enc_image i) = Some i.
Proof. destruct i. unfold dec_image, enc_image. fields_tac. done. Qed.
Lemma dec_call_back c : dec_call (enc_call c) = Some c.
Proof. destruct c. unfold dec_call, enc_call. fields_tac. done. Qed.
Lemma dec_part_back p : dec_part (enc_part p) = Some p.
Proof.
  destruct p as [t|i]; cbn [enc_part]; [pose proof (dec_text_back t) as H|pose proof (dec_image_back i) as H]; unfold dec_part, enc_text, enc_image in *;
    rewrite H; fields_tac; done.
Qed.
Lemma dec_apart_back p : dec_apart (enc_apart p) = Some p.
Proof.
  destruct p as [t|t|c]; cbn [enc_apart];
    [pose proof (dec_text_back t) as H|pose proof (dec_thinking_back t) as H|pose proof (dec_call_back c) as H];
    unfold dec_apart, enc_text, enc_thinking, enc_call in *; rewrite H; fields_tac; done.
Qed.
Lemma dec_parts_back ps : as_list dec_part (JArr (enc_part <$> ps)) = Some ps.
Proof. apply as_list_back, dec_part_back. Qed.
Lemma dec_aparts_back ps : as_list dec_apart (JArr (enc_apart <$> ps)) = Some ps.
Proof. apply as_list_back, dec_apart_back. Qed.
Lemma dec_content_back c : dec_content (enc_content c) = Some c.
Proof. destruct c as [s|ps]; [done|]. pose proof (dec_parts_back ps) as H. cbn in *. by rewrite H. Qed.
#[local] Hint Rewrite dec_parts_back dec_aparts_back dec_content_back : back.

Lemma dec_user_back m : dec_user (enc_user m) = Some m.
Proof. destruct m. unfold dec_user, enc_user. fields_tac. done. Qed.
Lemma dec_assistant_back m : dec_assistant (enc_assistant m) = Some m.
Proof. destruct m. unfold dec_assistant, enc_assistant. fields_tac. done. Qed.
Lemma dec_result_back m : dec_result (enc_result m) = Some m.
Proof. destruct m. unfold dec_result, enc_result. fields_tac. done. Qed.
Lemma dec_bash_back m : dec_bash (enc_bash m) = Some m.
Proof. destruct m. unfold dec_bash, enc_bash. fields_tac. done. Qed.
Lemma dec_custom_back m : dec_custom (enc_custom m) = Some m.
Proof. destruct m. unfold dec_custom, enc_custom. fields_tac. done. Qed.
Lemma dec_branch_back m : dec_branch (enc_branch m) = Some m.
Proof. destruct m. unfold dec_branch, enc_branch. fields_tac. done. Qed.
Lemma dec_compaction_back m : dec_compaction (enc_compaction m) = Some m.
Proof. destruct m. unfold dec_compaction, enc_compaction. fields_tac. done. Qed.
Lemma dec_message_back m : dec_message (enc_message m) = Some m.
Proof.
  destruct m as [m|m|m|m|m|m|m]; cbn [enc_message];
    [pose proof (dec_user_back m) as H|pose proof (dec_assistant_back m) as H|pose proof (dec_result_back m) as H|pose proof (dec_bash_back m) as H
    |pose proof (dec_custom_back m) as H|pose proof (dec_branch_back m) as H|pose proof (dec_compaction_back m) as H];
    unfold dec_message, enc_user, enc_assistant, enc_result, enc_bash, enc_custom, enc_branch, enc_compaction in *; rewrite H; fields_tac; done.
Qed.
Lemma dec_status_back s : dec_status (enc_status s) = Some s.
Proof. destruct s. unfold dec_status, enc_status. fields_tac. done. Qed.
Lemma dec_state_field_back s : dec_state_field (enc_state s) = Some s.
Proof. unfold dec_state_field, enc_state. fields_tac. done. Qed.
#[local] Hint Rewrite dec_message_back dec_status_back dec_state_field_back : back.

(** The object of an entry says its kind and has the fields of all entries. *)
Lemma entry_base e : exists tag, req "type" as_string (enc_entry e) = Some tag /\ tagged "session" tag = false /\
  req "id" as_string (enc_entry e) = Some (e_id e) /\ req "parentId" as_parent (enc_entry e) = Some (parentId e) /\
  req "timestamp" as_iso (enc_entry e) = Some (e_timestamp e) /\ dec_kind tag (enc_entry e) = Some (kind e).
Proof.
  destruct e as [i p t k]. destruct k as [m|l|st|pr mo|[]|[]|ct d|tg c a o|[]|tg l|n|s|s|g]; eexists;
    unfold enc_entry, base, compaction_fields, branch_fields, custom_fields; cbn [e_id parentId e_timestamp kind];
    (split; [fields_tac; done|]); (split; [by rewrite tagged_str|]); (split; [fields_tac; done|]); (split; [fields_tac; done|]);
    (split; [fields_tac; done|]); unfold dec_kind; rewrite !tagged_str; lazy [String.eqb Ascii.eqb Bool.eqb];
    unfold dec_compaction_entry, dec_branch_entry, dec_custom_entry; fields_tac; done.
Qed.

(** An entry of a session file is what its object shows. *)
Lemma file_entry_back f : dec (enc f) = Some f.
Proof.
  destruct f as [h|e]; cbn [enc].
  - destruct h. unfold dec, dec_header, enc_header. fields_tac. done.
  - destruct (entry_base e) as (tag & Ht & Hs & H1 & H2 & H3 & H4). unfold dec, dec_entry. rewrite Ht. cbn [mbind option_bind]. rewrite Hs.
    rewrite H1, H2, H3, H4. by destruct e.
Qed.
End entries.

(** ** The lines of the file *)

(** The bytes of the lines of a log. *)
Definition log_lines (E : Engine) (fs : list FileEntry) : list N := log_bytes (enc E <$> fs).
(** The text of an entry is JSON: its strings are made of 16-bit units, and the values it carries are JSON values. *)
Definition entry_ok (E : Engine) (f : FileEntry) : Prop := json_ok (enc E f).

Lemma log_lines_app E a b : log_lines E (a ++ b) = log_lines E a ++ log_lines E b.
Proof. unfold log_lines. by rewrite fmap_app, log_bytes_app. Qed.
Lemma entries_json_ok E fs : Forall (entry_ok E) fs -> Forall json_ok (enc E <$> fs).
Proof. intros H. by apply Forall_fmap. Qed.
Lemma enc_is_obj E f : is_obj (enc E f) = true.
Proof. destruct f as [h|e]; [done|]. destruct e as [i p t []]; done. Qed.
Lemma line_read E f : entry_ok E f -> JSON_parse (buffer_toString (buffer_from (stringify (enc E f)))) = Some (enc E f).
Proof.
  intros Hf. pose proof (line_text_stringify _ Hf) as Hl. rewrite utf8_round_trip; [by apply JSON_parse_stringify|by apply line_text_wf|apply Hl].
Qed.

(** The usage of a message has a JSON text, so that replacing it does not matter. *)
Lemma usage_ok E u : engine_ok E -> json_ok (enc_usage E u).
Proof.
  intros HE. assert (Hn : forall q, json_ok (num E q)) by apply (number_json E HE). unfold enc_usage, enc_cost. rewrite obj_ok by reflexivity.
  repeat (apply Forall_cons; split; [unfold field_ok; cbn; try apply int_ok|]); [|by constructor]. rewrite obj_ok by reflexivity.
  repeat (apply Forall_cons; split; [unfold field_ok; cbn; apply Hn|]). constructor.
Qed.

(** ** An engine to compute with *)

Definition ex_engine : Engine :=
  {| number_text q := show_Z (Zpos (encode (Qnum q, Qden q)));
     number_value t := z ← JsNumber.integer t; match z with Zpos p => (fun nd : Z * positive => Qmake nd.1 nd.2) <$> decode p | _ => None end;
     instant_text := show_Z; instant_value := JsNumber.integer |}.
Lemma ex_engine_ok : engine_ok ex_engine.
Proof.
  split; cbn [number_text number_value instant_text instant_value ex_engine].
  - intros [n d]. cbn [Qnum Qden]. rewrite integer_show. cbn [mbind option_bind]. by rewrite decode_encode.
  - intros q. apply int_ok.
  - apply integer_show.
  - intros t. pose proof (int_ok t) as H. inversion H as [| |t' _ Hp| | |]; subst. eapply Forall_impl; [exact Hp|]. cbn. lia.
Qed.
(** A check of [json_ok] by evaluation. *)
Fixpoint json_check (v : json) : bool :=
  match v with
  | JNull | JBool _ => true
  | JNum t => bool_decide (parse_number t = Some (t, [])) && forallb (fun u => (32 <=? u)%N && (u <? 128)%N) t
  | JStr s => forallb (fun u => (u <? 0x10000)%N) s
  | JArr l => forallb json_check l
  | JObj fs => bool_decide (NoDup fs.*1) && forallb (fun f : jsstr * json => forallb (fun u => (u <? 0x10000)%N) f.1 && json_check f.2) fs
  end.
Lemma json_check_ok v : json_check v = true -> json_ok v.
Proof.
  induction v as [| |t|s|l IH|fs IH] using json_ind'; cbn [json_check]; intros H; [constructor|constructor|..].
  - apply andb_true_iff in H as [Hp%bool_decide_eq_true Ht]. constructor; [done|by apply printable_check].
  - constructor. by apply js_wf_check.
  - constructor. induction IH as [|v l Hv _ IHl]; [constructor|]. cbn in H. apply andb_true_iff in H as [H1 H2]. constructor; [by apply Hv|by apply IHl].
  - apply andb_true_iff in H as [Hn%bool_decide_eq_true H]. constructor; [done|..]; clear Hn; induction IH as [|[k v] fs Hv _ IHl]; try constructor;
      cbn in H; apply andb_true_iff in H as [[H1 H2]%andb_true_iff H3]; [by apply js_wf_check|by apply IHl|by apply Hv|by apply IHl].
Qed.
Definition entries_check (E : Engine) (fs : list FileEntry) : bool := forallb (fun f => json_check (enc E f)) fs.
Lemma entries_check_ok E fs : entries_check E fs = true -> Forall (entry_ok E) fs.
Proof.
  unfold entries_check. induction fs as [|f fs IH]; cbn; [constructor|]. intros [H1 H2]%andb_true_iff. constructor; [by apply json_check_ok|by apply IH].
Qed.
Example line_ex : log_lines ex_engine [Entry {| e_id := js "a"; parentId := None; e_timestamp := 5; kind := KLabel (js "b") (Some (js "c")) |}] =
  js "{" ++ json_quote (js "type") ++ js ":" ++ json_quote (js "label") ++ js "," ++ json_quote (js "id") ++ js ":" ++ json_quote (js "a") ++
  js "," ++ json_quote (js "parentId") ++ js ":null," ++ json_quote (js "timestamp") ++ js ":" ++ json_quote (js "5") ++
  js "," ++ json_quote (js "targetId") ++ js ":" ++ json_quote (js "b") ++ js "," ++ json_quote (js "label") ++ js ":" ++ json_quote (js "c") ++
  js "}" ++ [LF].
Proof. vm_compute. reflexivity. Qed.
