(* ===== verification/SessionTree.v ===== *)
(** * The session log (core/session-manager.ts)

    A session is an append-only log of entries that form a tree; the leaf is
    the point the conversation continues from. The manager indexes the log by
    id, keeps labels, and writes the log, a JSON line for each entry, to a file
    that may refuse a write or take only a part of it. *)

(* Source aliases:
   SM = src/packages/coding-agent/src/core/session-manager.ts *)

From S2P Require Import Prelude JsString JsNumber JsMap Messages Json FileLog FileLines SessionEntries SessionJson.
Local Open Scope Z_scope.

(** ** The file *)

(** How a write ends; one that is cut short has written its first [n] bytes. *)
Inductive IoResult := Written | Refused | WrittenPartly (n : nat).

(** ** The manager *)

(** SM 1449-1465 SessionManager. With the bytes of the file the manager writes ([None] when it does not exist), the
    outcomes of the writes to come ([Written] once the list is used up), and the engine that prints numbers. *)
Record session := {
  sessionId : jsstr; sessionFile : option jsstr; persist : bool; flushed : bool; hasAssistantEntry : bool;
  fileEntries : list FileEntry; byId : jsmap jsstr SessionEntry;
  labelsById : jsmap jsstr jsstr; labelTimestampsById : jsmap jsstr Z; leafId : option jsstr;
  disk : option (list N); io : list IoResult; engine : Engine }.

(** The current time, and the identifiers [randomUUID] returns next. *)
Record env := { now : Z; uuid : nat -> jsstr }.

Inductive error := EntryNotFound (id : jsstr) | AssistantNotFound (id : jsstr) | WriteFailed.
Definition op (A : Type) : Type := session -> (A + error) * session.

#[export] Instance op_ret : MRet op := fun A a s => (inl a, s).
#[export] Instance op_bind : MBind op := fun A B f m s =>
  match m s with (inl a, s') => f a s' | (inr e, s') => (inr e, s') end.
Definition throw {A} (e : error) : op A := fun s => (inr e, s).
Definition gets {A} (f : session -> A) : op A := fun s => (inl (f s), s).
Definition modify (f : session -> session) : op unit := fun s => (inl tt, f s).

Definition set_flushed (b : bool) (s : session) : session :=
  {| sessionId := sessionId s; sessionFile := sessionFile s; persist := persist s; flushed := b;
     hasAssistantEntry := hasAssistantEntry s; fileEntries := fileEntries s; byId := byId s;
     labelsById := labelsById s; labelTimestampsById := labelTimestampsById s; leafId := leafId s;
     disk := disk s; io := io s; engine := engine s |}.
Definition set_disk (d : option (list N)) (i : list IoResult) (s : session) : session :=
  {| sessionId := sessionId s; sessionFile := sessionFile s; persist := persist s; flushed := flushed s;
     hasAssistantEntry := hasAssistantEntry s; fileEntries := fileEntries s; byId := byId s;
     labelsById := labelsById s; labelTimestampsById := labelTimestampsById s; leafId := leafId s;
     disk := d; io := i; engine := engine s |}.
Definition set_log (fs : list FileEntry) (has : bool) (ix : jsmap jsstr SessionEntry) (leaf : option jsstr) (s : session) : session :=
  {| sessionId := sessionId s; sessionFile := sessionFile s; persist := persist s; flushed := flushed s;
     hasAssistantEntry := has; fileEntries := fs; byId := ix;
     labelsById := labelsById s; labelTimestampsById := labelTimestampsById s; leafId := leaf;
     disk := disk s; io := io s; engine := engine s |}.
Definition set_labels (ls : jsmap jsstr jsstr) (ts : jsmap jsstr Z) (s : session) : session :=
  {| sessionId := sessionId s; sessionFile := sessionFile s; persist := persist s; flushed := flushed s;
     hasAssistantEntry := hasAssistantEntry s; fileEntries := fileEntries s; byId := byId s;
     labelsById := ls; labelTimestampsById := ts; leafId := leafId s; disk := disk s; io := io s; engine := engine s |}.
Definition set_leaf (l : option jsstr) (s : session) : session :=
  set_log (fileEntries s) (hasAssistantEntry s) (byId s) l s.

(** The outcome of the next write. *)
Definition next_io : op IoResult := fun s =>
  match io s with
  | [] => (inl Written, s)
  | r :: rest => (inl r, set_disk (disk s) rest s)
  end.

(** SM 333-339 generateId. *)
Fixpoint generateId_loop (e : env) (taken : jsstr -> bool) (i fuel : nat) : jsstr :=
  match fuel with
  | O => uuid e i
  | S fuel => let candidate := take 8 (uuid e i) in
              if taken candidate then generateId_loop e taken (S i) fuel else candidate
  end.
Definition generateId (e : env) (taken : jsstr -> bool) : jsstr := generateId_loop e taken 0 100.

(** SM 1619-1619 SessionManager._rewriteFile. The content: the lines of all entries. *)
Definition file_content (E : Engine) (fs : list FileEntry) : list N :=
  buffer_from (join [LF] ((fun e => stringify (enc E e)) <$> fs) ++ [LF]).
(** SM 1617-1631 SessionManager._rewriteFile. The write is atomic: it happens or it does not. *)
Definition rewriteFile : op unit :=
  p ← gets (fun s => persist s && truthy (sessionFile s));
  if negb p then mret tt
  else
    r ← next_io;
    match r with
    | Written => modify (fun s => set_disk (Some (file_content (engine s) (fileEntries s))) (io s) s)
    | _ => throw WriteFailed
    end.

(** SM 1717-1722 SessionManager.flushNow. *)
Definition flushNow : op unit :=
  s ← gets (fun s => s);
  if negb (persist s && truthy (sessionFile s)) then mret tt
  else if flushed s && bool_decide (disk s <> None) then mret tt
  else rewriteFile ;; modify (set_flushed true).

(** SM 1724-1745 SessionManager._persist. *)
Definition persist_entry (e : SessionEntry) : op unit :=
  s ← gets (fun s => s);
  if negb (persist s && truthy (sessionFile s)) then mret tt
  else
    let shouldPersistWithoutAssistant :=
      match kind e with KSessionState _ | KSessionInfo _ => true | _ => false end in
    if negb (hasAssistantEntry s) && negb shouldPersistWithoutAssistant then modify (set_flushed false)
    else
      match flushed s, disk s with
      | true, Some d =>
          let line := line_bytes (enc (engine s) (Entry e)) in
          r ← next_io;
          match r with
          | Written => modify (fun s => set_disk (Some (d ++ line)) (io s) s)
          | Refused => throw WriteFailed
          | WrittenPartly n => modify (fun s => set_disk (Some (d ++ take n line)) (io s) s) ;; throw WriteFailed
          end
      | _, _ => rewriteFile ;; modify (set_flushed true)
      end.

(** SM 1747-1755 SessionManager._appendEntry. *)
Definition appendEntry (e : SessionEntry) : op unit :=
  modify (fun s => set_log (fileEntries s ++ [Entry e]) (hasAssistantEntry s || is_assistant_kind (kind e))
                     (set (byId s) (e_id e) e) (Some (e_id e)) s) ;;
  persist_entry e.

(** SM 1757-1767 SessionManager.appendMessage. The shape all append operations share. *)
Definition append (en : env) (k : Kind) : op jsstr :=
  s ← gets (fun s => s);
  let e := {| e_id := generateId en (has (byId s)); parentId := leafId s; e_timestamp := now en; kind := k |} in
  appendEntry e ;; mret (e_id e).

(** SM 1757-1767 SessionManager.appendMessage. *)
Definition appendMessage en m := append en (KMessage m).
(** SM 1769-1779 SessionManager.appendThinkingLevelChange. *)
Definition appendThinkingLevelChange en level := append en (KThinkingLevel level).
(** SM 1781-1791 SessionManager.appendServiceTierChange. *)
Definition appendServiceTierChange en tier := append en (KServiceTier tier).
(** SM 1793-1804 SessionManager.appendModelChange. *)
Definition appendModelChange en provider modelId := append en (KModel provider modelId).
(** SM 1806-1834 SessionManager.appendCompaction. *)
Definition appendCompaction en c := append en (KCompaction c).
(** SM 1836-1847 SessionManager.appendCustomEntry. *)
Definition appendCustomEntry en customType data := append en (KCustom customType data).
(** SM 1879-1889 SessionManager.appendSessionInfo. *)
Definition appendSessionInfo en nm := append en (KSessionInfo (Some (trim nm))).
(** SM 1891-1901 SessionManager.appendSessionState. *)
Definition appendSessionState en status := append en (KSessionState status).
(** SM 1954-1968 SessionManager.appendAgentStatus. *)
Definition appendAgentStatus en status := append en (KAgentStatus status).
(** SM 1970-1980 SessionManager.appendGitState. *)
Definition appendGitState en g := append en (KGitState g).
(** SM 2014-2032 SessionManager.appendCustomMessageEntry. *)
Definition appendCustomMessageEntry en c := append en (KCustomMessage c).

(** The assistant message of an entry, with its usage replaced: the message object is shared by the log
    and the index. *)
Definition with_usage (u : Usage) (e : SessionEntry) : SessionEntry :=
  match kind e with
  | KMessage (Assistant a) =>
      {| e_id := e_id e; parentId := parentId e; e_timestamp := e_timestamp e;
         kind := KMessage (Assistant {| a_content := a_content a; api := api a; provider := provider a;
           model := model a; usage := u; stopReason := stopReason a; errorMessage := errorMessage a;
           a_timestamp := a_timestamp a |}) |}
  | _ => e
  end.
Definition set_usage (target : jsstr) (u : Usage) (e : SessionEntry) : SessionEntry :=
  if bool_decide (e_id e = target) then with_usage u e else e.
Definition on_entry (f : SessionEntry -> SessionEntry) (fe : FileEntry) : FileEntry :=
  match fe with Entry e => Entry (f e) | Header h => Header h end.

(** SM 1853-1877 SessionManager.appendChildUsageAttribution. *)
Definition appendChildUsageAttribution (en : env) (target : jsstr) (child aggregate : Usage) (origin : option Origin) : op jsstr :=
  s ← gets (fun s => s);
  match get (byId s) target with
  | Some e =>
      if is_assistant_kind (kind e) then
        modify (fun s => set_log (on_entry (set_usage target aggregate) <$> fileEntries s) (hasAssistantEntry s)
                           (prod_map (fun i => i) (set_usage target aggregate) <$> byId s) (leafId s) s) ;;
        append en (KChildUsage target child aggregate origin)
      else throw (AssistantNotFound target)
  | None => throw (AssistantNotFound target)
  end.

(** SM 1605-1613 SessionManager._buildIndex. The labels after one entry. *)
Definition apply_label (target : jsstr) (label : option jsstr) (ts : Z) (ls : jsmap jsstr jsstr) (tss : jsmap jsstr Z)
    : jsmap jsstr jsstr * jsmap jsstr Z :=
  if truthy label then (set ls target (default [] label), set tss target ts) else (remove ls target, remove tss target).

(** SM 2100-2121 SessionManager.appendLabelChange. *)
Definition appendLabelChange (en : env) (target : jsstr) (label : option jsstr) : op jsstr :=
  s ← gets (fun s => s);
  if negb (has (byId s) target) then throw (EntryNotFound target)
  else
    i ← append en (KLabel target label);
    modify (fun s => let '(ls, ts) := apply_label target label (now en) (labelsById s) (labelTimestampsById s) in
                     set_labels ls ts s) ;;
    mret i.

(** SM 2198-2203 SessionManager.branch. *)
Definition branch (from : jsstr) : op unit :=
  s ← gets (fun s => s);
  if negb (has (byId s) from) then throw (EntryNotFound from) else modify (set_leaf (Some from)).

(** SM 2205-2207 SessionManager.resetLeaf. *)
Definition resetLeaf : op unit := modify (set_leaf None).

(** SM 2209-2233 SessionManager.branchWithSummary. *)
Definition branchWithSummary (en : env) (from : option jsstr) (summary : jsstr) (details : option json)
    (fromHook : bool) (u : option Usage) : op jsstr :=
  s ← gets (fun s => s);
  match from with
  | Some f => if negb (has (byId s) f) then throw (EntryNotFound f) else mret tt
  | None => mret tt
  end ;;
  modify (set_leaf from) ;;
  append en (KBranchSummary {| br_fromId := default (js "root") from; br_summary := summary;
                               br_details := details; br_fromHook := fromHook; br_usage := u |}).

(** SM 2047-2072 SessionManager._appendEntryWithRollback. *)
Definition appendEntryWithRollback (append : op jsstr) : op jsstr := fun s0 =>
  match (i ← append; flushNow ;; mret i) s0 with
  | (inr err, s) =>
      if bool_decide (leafId s <> None) && bool_decide (leafId s <> leafId s0) then
        let fs := removelast (fileEntries s) in
        let s1 := set_log fs (existsb is_assistant_file_entry fs) (remove (byId s) (default [] (leafId s))) (leafId s0) s in
        match flushNow (set_flushed false s1) with
        | (inl _, s2) => (inr err, s2)
        | (inr _, s2) => (inr err, set_flushed false s2)
        end
      else (inr err, s)
  | r => r
  end.

(** SM 1849-1851 SessionManager.appendCustomEntryWithRollback. *)
Definition appendCustomEntryWithRollback en customType data := appendEntryWithRollback (appendCustomEntry en customType data).
(** SM 2038-2045 SessionManager.appendCustomMessageEntryWithRollback. *)
Definition appendCustomMessageEntryWithRollback en c := appendEntryWithRollback (appendCustomMessageEntry en c).

(** ** Loading *)

(** SM 569-576 appendEntryFromBuffer. The value of one line; malformed and blank lines are skipped. *)
Definition appendEntryFromBuffer (entries : list json) (buffer : list N) : list json :=
  match buffer with
  | [] => entries
  | _ => match JSON_parse (buffer_toString buffer) with Some v => entries ++ [v] | None => entries end
  end.
(** SM 581-586 parseEntriesFromBuffer. The loop from [start] on. *)
Fixpoint parse_loop (fuel : nat) (rest : list N) (entries : list json) : list json :=
  match fuel, rest with
  | S fuel, _ :: _ =>
      let e := default (length rest) (index_LF rest) in
      parse_loop fuel (drop (S e) rest) (appendEntryFromBuffer entries (take e rest))
  | _, _ => entries
  end.
(** SM 578-588 parseEntriesFromBuffer. Every round moves [start], so the bytes of the buffer are enough rounds. *)
Definition parseEntriesFromBuffer (buffer : list N) : list json := parse_loop (length buffer) buffer [].

(** SM 418-432 applyChildUsageAttributions. The ids of the assistant messages, and the loop over the
    attributions. *)
Definition assistant_ids (fs : list FileEntry) : list jsstr :=
  omap (fun f => match f with Entry e => if is_assistant_kind (kind e) then Some (e_id e) else None | Header _ => None end) fs.
Definition apply_attribution (fs : list FileEntry) (f : FileEntry) : list FileEntry :=
  match f with
  | Entry {| kind := KChildUsage target _ aggregate _ |} => on_entry (set_usage target aggregate) <$> fs
  | _ => fs
  end.
Definition applyChildUsageAttributions (fs : list FileEntry) : list FileEntry := foldl apply_attribution fs fs.

(** SM 727-735 finalizeLoadedEntries. *)
Definition finalizeLoadedEntries (fs : list FileEntry) : list FileEntry :=
  match fs with
  | Header _ :: _ => applyChildUsageAttributions fs
  | _ => []
  end.

(** The entries the values of a file show; [None] when one of them is no entry (the source takes any value for one). *)
Definition entries_of (E : Engine) (vs : list json) : option (list FileEntry) := mapM (dec E) vs.
(** SM 737-740 loadEntriesFromFile. *)
Definition loadEntriesFromFile (E : Engine) (file : option (list N)) : option (list FileEntry) :=
  match file with None => Some [] | Some bytes => finalizeLoadedEntries <$> entries_of E (parseEntriesFromBuffer bytes) end.
(** SM 745-770 loadEntriesFromFileAsync. The file in the chunks its stream gives; pauses change nothing. *)
Definition loadEntriesFromFileAsync (E : Engine) (streamThresholdBytes : nat) (chunks : option (list (list N))) : option (list FileEntry) :=
  match chunks with
  | None => Some []
  | Some cs =>
      if Nat.ltb (length (concat cs)) streamThresholdBytes then finalizeLoadedEntries <$> entries_of E (parseEntriesFromBuffer (concat cs))
      else finalizeLoadedEntries <$> entries_of E (foldl appendEntryFromBuffer [] (readLinesAsBuffers cs))
  end.

(** SM 1601-1614 SessionManager._buildIndex. *)
Definition index_entry (acc : jsmap jsstr SessionEntry * jsmap jsstr jsstr * jsmap jsstr Z * option jsstr) (f : FileEntry) :=
  match f with
  | Header _ => acc
  | Entry e =>
      let '(ix, ls, ts, _) := acc in
      let ix' := set ix (e_id e) e in
      match kind e with
      | KLabel target label => let '(ls', ts') := apply_label target label (e_timestamp e) ls ts in (ix', ls', ts', Some (e_id e))
      | _ => (ix', ls, ts, Some (e_id e))
      end
  end.
(** SM 1596-1615 SessionManager._buildIndex. *)
Definition buildIndex (s : session) : session :=
  let '(ix, ls, ts, leaf) := foldl index_entry ([], [], [], None) (fileEntries s) in
  set_labels ls ts (set_log (fileEntries s) (hasAssistantEntry s) ix leaf s).

(** ** Queries *)

(** SM 2150-2152 SessionManager.getEntries. *)
Definition getEntries (s : session) : list SessionEntry := omap entry_of (fileEntries s).
(** SM 2074-2084 SessionManager.getLeafEntry. *)
Definition getLeafEntry (s : session) : option SessionEntry :=
  if truthy (leafId s) then get (byId s) (default [] (leafId s)) else None.
(** SM 2086-2094 SessionManager.getChildren. *)
Definition getChildren (s : session) (p : jsstr) : list SessionEntry :=
  filter (fun e => parentId e = Some p) (snd <$> byId s).
(** SM 2096-2098 SessionManager.getLabel. *)
Definition getLabel (s : session) (i : jsstr) : option jsstr := get (labelsById s) i.

(** SM 2123-2134 SessionManager.getBranch. *)
Definition parent_of (ix : jsmap jsstr SessionEntry) (e : SessionEntry) : option SessionEntry :=
  if truthy (parentId e) then get ix (default [] (parentId e)) else None.
(** SM 2123-2134 SessionManager.getBranch. The walk from an entry to the root, with its fuel. *)
Fixpoint walk (fuel : nat) (ix : jsmap jsstr SessionEntry) (current : option SessionEntry) : option (list SessionEntry) :=
  match current with
  | None => Some []
  | Some e =>
      match fuel with
      | O => None
      | S fuel => cons e <$> walk fuel ix (parent_of ix e)
      end
  end.
(** SM 2123-2134 SessionManager.getBranch. [None] when the walk does not end. *)
Definition getBranch (s : session) (from : option jsstr) : option (list SessionEntry) :=
  let start := match from with Some f => Some f | None => leafId s end in
  reverse <$> walk (length (byId s)) (byId s) (if truthy start then get (byId s) (default [] start) else None).

(** SM 1903-1912 SessionManager.getSessionName. *)
Definition getSessionName (s : session) : option jsstr :=
  match List.find (fun e => match kind e with KSessionInfo _ => true | _ => false end) (reverse (getEntries s)) with
  | Some {| kind := KSessionInfo (Some n) |} => match trim n with [] => None | n' => Some n' end
  | _ => None
  end.
(** SM 1914-1926 SessionManager.getSessionState. *)
Definition getSessionState (s : session) : option SessionStateStatus :=
  match List.find (fun e => match kind e with KSessionState _ => true | _ => false end) (reverse (getEntries s)) with
  | Some {| kind := KSessionState st |} => Some st
  | _ => None
  end.

(** SM 51-62 CONTENT_ENTRY_TYPES. *)
Definition is_content (k : Kind) : bool :=
  match k with
  | KMessage _ | KCustomMessage _ | KCustom _ _ | KModel _ _ | KThinkingLevel _ | KServiceTier _
  | KSessionInfo _ | KLabel _ _ | KCompaction _ | KBranchSummary _ => true
  | KChildUsage _ _ _ _ | KSessionState _ | KAgentStatus _ | KGitState _ => false
  end.
Definition skip_kind (p : Kind -> bool) (ks : list Kind) : list Kind :=
  match ks with k :: rest => if p k then rest else ks | [] => [] end.
(** SM 1939-1952 SessionManager.hasUserContent. *)
Definition hasUserContent (s : session) : bool :=
  let ks := filter (fun k => is_content k = true) (kind <$> getEntries s) in
  let ks := skip_kind (fun k => match k with KModel _ _ => true | _ => false end) ks in
  let ks := skip_kind (fun k => match k with KThinkingLevel _ => true | _ => false end) ks in
  let ks := skip_kind (fun k => match k with KServiceTier _ => true | _ => false end) ks in
  negb (length ks =? 0)%nat.
