(* ===== verification/SessionFacts.v ===== *)
(** * What the session log promises

    The invariant of the manager over every sequence of its operations: the
    index is the index of the log, the log is a tree whose parents come first,
    history is only ever extended, and the file, when it is up to date, loads
    back to the log. *)

From S2P Require Import Prelude JsString JsNumber JsMap Messages SessionEntries SessionJson SessionTree.
Local Open Scope Z_scope.

(** ** Fresh identifiers *)

(** The identifiers to come are usable: none is empty, and one of the hundred the manager tries is new. *)
Definition fresh (en : env) (s : session) : Prop :=
  (forall i, take 8 (uuid en i) <> []) /\ exists i, (i < 100)%nat /\ has (byId s) (take 8 (uuid en i)) = false.

Lemma generateId_loop_spec en taken i fuel :
  (forall j, take 8 (uuid en j) <> []) -> (exists j, (i <= j < i + fuel)%nat /\ taken (take 8 (uuid en j)) = false) ->
  taken (generateId_loop en taken i fuel) = false /\ generateId_loop en taken i fuel <> [].
Proof.
  intros Hne. revert i. induction fuel as [|fuel IH]; intros i (j & Hj & Ht); [lia|]. simpl.
  destruct (taken (take 8 (uuid en i))) eqn:E; [|split; [done|apply Hne]].
  apply IH. exists j. split; [|done]. assert (j <> i) by congruence. lia.
Qed.

Lemma generateId_spec en s : fresh en s ->
  has (byId s) (generateId en (has (byId s))) = false /\ generateId en (has (byId s)) <> [].
Proof. intros [Hne (i & Hi & Ht)]. apply generateId_loop_spec; [done|]. exists i. split; [lia|done]. Qed.

(** ** Well-formed sessions *)

Definition ids (s : session) : list jsstr := e_id <$> getEntries s.

(** The parents of the entries of a list come before them. *)
Fixpoint parents_in (seen : list jsstr) (es : list SessionEntry) : Prop :=
  match es with
  | [] => True
  | e :: rest => (forall p, parentId e = Some p -> p ∈ seen) /\ parents_in (e_id e :: seen) rest
  end.

Lemma parents_in_app seen es es' :
  parents_in seen (es ++ es') <-> parents_in seen es /\ parents_in (reverse (e_id <$> es) ++ seen) es'.
Proof.
  revert seen. induction es as [|e es IH]; intros seen; [simpl; tauto|].
  cbn [parents_in app]. rewrite IH, fmap_cons, reverse_cons, <- (assoc_L app). tauto.
Qed.

Lemma parents_in_mono seen seen' es : seen ⊆ seen' -> parents_in seen es -> parents_in seen' es.
Proof.
  revert seen seen'. induction es as [|e es IH]; intros seen seen' Hs; simpl; [done|].
  intros [Hp Hr]. split; [intros p ?; by apply Hs, Hp|]. eapply IH; [|exact Hr]. set_solver.
Qed.

Record wf (s : session) : Prop := {
  wf_index : byId s = (fun e => (e_id e, e)) <$> getEntries s;
  wf_nodup : NoDup (ids s);
  wf_ids : Forall (fun i => i <> []) (ids s);
  wf_parents : parents_in [] (getEntries s);
  wf_leaf : forall l, leafId s = Some l -> l ∈ ids s }.

Lemma index_keys (es : list SessionEntry) : ((fun e => (e_id e, e)) <$> es).*1 = e_id <$> es.
Proof. by rewrite <- list_fmap_compose. Qed.

Lemma wf_get s i e : wf s -> get (byId s) i = Some e <-> e ∈ getEntries s /\ e_id e = i.
Proof.
  intros Hw. rewrite (wf_index s Hw). split.
  - intros H%get_elem. apply list_elem_of_fmap in H as (e' & [= -> ->] & Hin). done.
  - intros [Hin <-]. apply get_nodup.
    + rewrite index_keys. apply (wf_nodup s Hw).
    + apply list_elem_of_fmap. by exists e.
Qed.

Lemma wf_has s i : wf s -> has (byId s) i = true <-> i ∈ ids s.
Proof.
  intros Hw. unfold has. rewrite bool_decide_eq_true. split.
  - intros [e He]. apply (wf_get s i e Hw) in He as [Hin <-]. by apply list_elem_of_fmap_2.
  - intros (e & -> & Hin)%list_elem_of_fmap. exists e. by apply wf_get.
Qed.

(** ** Writing never touches the log *)

(** Everything of a session but the state of its file. *)
Definition log_part (s : session) :=
  (fileEntries s, byId s, labelsById s, labelTimestampsById s, leafId s, hasAssistantEntry s, (persist s, sessionFile s, engine s)).
Definition keeps_log {A} (m : op A) : Prop := forall s, log_part (m s).2 = log_part s.

Lemma keeps_ret {A} (a : A) : keeps_log (mret a).
Proof. done. Qed.
Lemma keeps_throw {A} e : keeps_log (throw (A := A) e).
Proof. done. Qed.
Lemma keeps_gets {A} (f : session -> A) : keeps_log (gets f).
Proof. done. Qed.
Lemma keeps_bind {A B} (m : op A) (k : A -> op B) : keeps_log m -> (forall a, keeps_log (k a)) -> keeps_log (m ≫= k).
Proof.
  intros Hm Hk s. unfold mbind, op_bind. specialize (Hm s). destruct (m s) as [[a|e] s']; simpl in *; [|done].
  by rewrite Hk.
Qed.
Lemma keeps_flushed b : keeps_log (modify (set_flushed b)).
Proof. done. Qed.
Lemma keeps_disk (d : session -> option (list N)) (i : session -> list IoResult) :
  keeps_log (modify (fun s => set_disk (d s) (i s) s)).
Proof. done. Qed.
Lemma keeps_io : keeps_log next_io.
Proof. intros s. unfold next_io. by destruct (io s). Qed.
Create HintDb session discriminated.
#[export] Hint Resolve keeps_ret keeps_throw keeps_gets keeps_bind keeps_flushed keeps_disk keeps_io : session.

Ltac keeps_tac :=
  repeat match goal with
  | |- keeps_log (match ?x with _ => _ end) => destruct x
  | |- keeps_log (_ ≫= _) => apply keeps_bind
  | |- keeps_log (modify (fun s => set_disk (@?d s) (@?i s) s)) => apply (keeps_disk d i)
  | |- keeps_log _ => solve [auto with session nocore]
  | |- forall _, _ => intros ?
  end.

Lemma keeps_rewrite : keeps_log rewriteFile.
Proof. unfold rewriteFile. keeps_tac. Qed.
#[export] Hint Resolve keeps_rewrite : session.
Lemma keeps_flushNow : keeps_log flushNow.
Proof. unfold flushNow. keeps_tac. Qed.
Lemma keeps_persist e : keeps_log (persist_entry e).
Proof. unfold persist_entry. keeps_tac. Qed.
#[export] Hint Resolve keeps_flushNow keeps_persist : session.

Lemma log_part_wf s s' : log_part s = log_part s' -> wf s -> wf s'.
Proof.
  unfold log_part. intros [= Hf Hb Hl Ht Hlf Ha Hp Hsf He0] [H1 H2 H3 H4 H5].
  assert (He : getEntries s' = getEntries s) by (unfold getEntries; by rewrite Hf).
  split; unfold ids in *; rewrite ?He, <- ?Hb, <- ?Hlf; done.
Qed.

(** ** Appending *)

(** The session after the entry is logged and indexed, before it is written. *)
Definition logged (e : SessionEntry) (s : session) : session :=
  set_log (fileEntries s ++ [Entry e]) (hasAssistantEntry s || is_assistant_kind (kind e))
    (set (byId s) (e_id e) e) (Some (e_id e)) s.

Lemma appendEntry_log e s : log_part (appendEntry e s).2 = log_part (logged e s).
Proof. unfold appendEntry, mbind, op_bind. simpl. apply keeps_persist. Qed.

Lemma getEntries_snoc fs e : omap entry_of (fs ++ [Entry e]) = omap entry_of fs ++ [e].
Proof. by rewrite omap_app. Qed.

Lemma logged_wf e s : wf s -> e_id e ∉ ids s -> e_id e <> [] -> (forall p, parentId e = Some p -> p ∈ ids s) ->
  wf (logged e s).
Proof.
  intros [H1 H2 H3 H4 H5] Hnew Hne Hp.
  assert (He : getEntries (logged e s) = getEntries s ++ [e]) by apply getEntries_snoc.
  assert (Hi : ids (logged e s) = ids s ++ [e_id e]) by (unfold ids; by rewrite He, fmap_app).
  split; rewrite ?Hi, ?He; simpl.
  - rewrite fmap_app, H1. apply set_new. by rewrite index_keys.
  - apply NoDup_app. split_and!; [done| |apply NoDup_singleton].
    intros x Hx ->%list_elem_of_singleton. done.
  - apply Forall_app. split; [done|by apply Forall_singleton].
  - apply parents_in_app. split; [done|]. simpl. split; [|done]. intros p Hpp.
    rewrite app_nil_r, elem_of_reverse. by apply Hp.
  - intros l [= <-]. apply elem_of_app. right. by apply list_elem_of_singleton.
Qed.

Definition new_entry (en : env) (k : Kind) (s : session) : SessionEntry :=
  {| e_id := generateId en (has (byId s)); parentId := leafId s; e_timestamp := now en; kind := k |}.

Lemma append_log en k s : log_part (append en k s).2 = log_part (logged (new_entry en k s) s).
Proof.
  rewrite <- appendEntry_log. unfold append, mbind, op_bind. simpl.
  fold (new_entry en k s). by destruct (appendEntry (new_entry en k s) s) as [[[]|] s'].
Qed.

Lemma new_entry_fresh en k s : wf s -> fresh en s -> e_id (new_entry en k s) ∉ ids s /\ e_id (new_entry en k s) <> [].
Proof.
  intros Hw Hf. destruct (generateId_spec en s Hf) as [Hh Hn]. split; [|done].
  rewrite <- wf_has by done. simpl. by rewrite Hh.
Qed.

Lemma append_wf en k s : wf s -> fresh en s -> wf (append en k s).2.
Proof.
  intros Hw Hf. eapply log_part_wf; [symmetry; apply append_log|].
  destruct (new_entry_fresh en k s Hw Hf). apply logged_wf; [done..|apply (wf_leaf s Hw)].
Qed.

(** ** The operations *)

(** The operations that change a session. [CDelete] is the deletion of its file by someone else. *)
Inductive command :=
| CAppend (k : Kind)
| CLabel (target : jsstr) (label : option jsstr)
| CAttribution (target : jsstr) (child aggregate : Usage) (origin : option Origin)
| CBranch (from : jsstr)
| CResetLeaf
| CBranchWithSummary (from : option jsstr) (summary : jsstr) (details : option json) (hook : bool) (u : option Usage)
| CFlush
| CDelete.

(** The kinds the plain append operations write. *)
Definition plain (k : Kind) : bool := match k with KLabel _ _ | KChildUsage _ _ _ _ => false | _ => true end.

Definition run (en : env) (c : command) (s : session) : session :=
  match c with
  | CAppend k => if plain k then (append en k s).2 else s
  | CLabel target label => (appendLabelChange en target label s).2
  | CAttribution target child aggregate origin => (appendChildUsageAttribution en target child aggregate origin s).2
  | CBranch from => (branch from s).2
  | CResetLeaf => (resetLeaf s).2
  | CBranchWithSummary from summary details hook u => (branchWithSummary en from summary details hook u s).2
  | CFlush => (flushNow s).2
  | CDelete => set_disk None (io s) s
  end.

(** One operation, with usable identifiers; the operation may fail. *)
Inductive step : session -> session -> Prop :=
| step_run en c s : fresh en s -> step s (run en c s).

(** The sessions reached from [s0]. *)
Inductive reachable (s0 : session) : session -> Prop :=
| reach_start : reachable s0 s0
| reach_step s s' : reachable s0 s -> step s s' -> reachable s0 s'.

(** A new session (SM 1565-1581), with the outcomes of the writes to come. *)
Definition empty_session (E : Engine) (h : SessionHeader) (file : option jsstr) (persisted : bool) (writes : list IoResult) : session :=
  {| sessionId := h_id h; sessionFile := file; persist := persisted; flushed := false; hasAssistantEntry := false;
     fileEntries := [Header h]; byId := []; labelsById := []; labelTimestampsById := []; leafId := None;
     disk := None; io := writes; engine := E |}.

Lemma empty_wf E h file p w : wf (empty_session E h file p w).
Proof. split; try done; constructor. Qed.

(** ** The tree *)

Lemma set_leaf_wf l s : wf s -> (forall i, l = Some i -> i ∈ ids s) -> wf (set_leaf l s).
Proof. intros [H1 H2 H3 H4 H5] Hl. by split. Qed.

Lemma set_labels_wf ls ts s : wf s -> wf (set_labels ls ts s).
Proof. by intros [H1 H2 H3 H4 H5]. Qed.

Lemma e_id_set_usage t u e : e_id (set_usage t u e) = e_id e.
Proof. unfold set_usage, with_usage. case_bool_decide; [|done]. by destruct (kind e) as [[]| | | | | | | | | | | | |]. Qed.
Lemma parentId_set_usage t u e : parentId (set_usage t u e) = parentId e.
Proof. unfold set_usage, with_usage. case_bool_decide; [|done]. by destruct (kind e) as [[]| | | | | | | | | | | | |]. Qed.

Definition attributed (t : jsstr) (u : Usage) (s : session) : session :=
  set_log (on_entry (set_usage t u) <$> fileEntries s) (hasAssistantEntry s)
    (prod_map (fun i => i) (set_usage t u) <$> byId s) (leafId s) s.

Lemma getEntries_on_entry f (fs : list FileEntry) : omap entry_of (on_entry f <$> fs) = f <$> omap entry_of fs.
Proof. induction fs as [|[h|e] fs IH]; [done|exact IH|]. cbn. f_equal. exact IH. Qed.

Lemma parents_in_map f es seen : (forall e, e_id (f e) = e_id e /\ parentId (f e) = parentId e) ->
  parents_in seen es -> parents_in seen (f <$> es).
Proof.
  intros Hf. revert seen. induction es as [|e es IH]; intros seen; [done|]. cbn [parents_in].
  rewrite fmap_cons. cbn [parents_in]. destruct (Hf e) as [-> ->]. intros [? ?]. auto.
Qed.

Lemma attributed_ids t u s : ids (attributed t u s) = ids s.
Proof.
  unfold ids, getEntries. simpl. rewrite getEntries_on_entry, <- list_fmap_compose.
  apply list_fmap_ext. intros i e _. apply e_id_set_usage.
Qed.

Lemma attributed_wf t u s : wf s -> wf (attributed t u s).
Proof.
  intros [H1 H2 H3 H4 H5]. split; rewrite ?attributed_ids; try done.
  - unfold getEntries. simpl. rewrite H1, getEntries_on_entry, <- !list_fmap_compose.
    apply list_fmap_ext. intros i e _. simpl. by rewrite e_id_set_usage.
  - unfold getEntries. simpl. rewrite getEntries_on_entry. apply parents_in_map; [|done].
    intros e. by rewrite e_id_set_usage, parentId_set_usage.
Qed.

Lemma fresh_ids en s s' : wf s -> wf s' -> ids s' = ids s -> fresh en s -> fresh en s'.
Proof.
  intros Hw Hw' Hi [Hne (i & Hlt & Hh)]. split; [done|]. exists i. split; [done|].
  apply not_true_iff_false. rewrite wf_has, Hi by done. rewrite <- wf_has by done. by rewrite Hh.
Qed.

Lemma step_wf s s' : wf s -> step s s' -> wf s'.
Proof.
  intros Hw Hs. revert Hw. destruct Hs as [en c s1 Hf]. intros Hw. destruct c as [k|t l|t ch ag o|f| |f su d h u| |]; simpl.
  - destruct (plain k); [by apply append_wf|done].
  - unfold appendLabelChange, mbind, op_bind. simpl. destruct (has (byId s1) t); simpl; [|done].
    pose proof (append_wf en (KLabel t l) s1 Hw Hf) as Ha.
    destruct (append en (KLabel t l) s1) as [[i|e] s2]; simpl in *; [|done].
    destruct (apply_label _ _ _ _ _). by apply set_labels_wf.
  - unfold appendChildUsageAttribution, mbind, op_bind. simpl. destruct (get (byId s1) t) as [e|]; [|done].
    destruct (is_assistant_kind (kind e)); [|done]. simpl. fold (attributed t ag s1).
    pose proof (attributed_wf t ag s1 Hw) as Hw2. apply append_wf; [done|].
    eapply fresh_ids; [exact Hw|done|apply attributed_ids|done].
  - unfold branch, mbind, op_bind. simpl. destruct (has (byId s1) f) eqn:E; [|done].
    apply set_leaf_wf; [done|]. intros i [= <-]. by apply wf_has in E.
  - by apply set_leaf_wf.
  - unfold branchWithSummary, mbind, op_bind. simpl.
    assert (Hleaf : match f with Some i => i ∈ ids s1 | None => True end ->
      wf (append en (KBranchSummary {| br_fromId := default (js "root") f; br_summary := su; br_details := d;
            br_fromHook := h; br_usage := u |}) (set_leaf f s1)).2).
    { intros Hl. assert (wf (set_leaf f s1)) by (apply set_leaf_wf; [done|by intros i ->]).
      apply append_wf; [done|]. by eapply fresh_ids; [exact Hw| | |]. }
    destruct f as [f|]; [|by apply Hleaf]. destruct (has (byId s1) f) eqn:E; [|done].
    apply Hleaf. by apply wf_has.
  - eapply log_part_wf; [symmetry; apply keeps_flushNow|done].
  - by eapply log_part_wf; [|exact Hw].
Qed.

Lemma reachable_wf s0 s : wf s0 -> reachable s0 s -> wf s.
Proof. intros Hw Hr. induction Hr as [|s s' _ IH Hs]; [done|]. by eapply step_wf. Qed.

(** The entries of a branch, from the root: the first has no parent, and each is the parent of the next. *)
Fixpoint rooted (p : option jsstr) (es : list SessionEntry) : Prop :=
  match es with
  | [] => True
  | e :: rest => parentId e = p /\ rooted (Some (e_id e)) rest
  end.

Lemma rooted_snoc p es e : rooted p es -> parentId e = match last es with Some l => Some (e_id l) | None => p end ->
  rooted p (es ++ [e]).
Proof.
  revert p. induction es as [|e1 es IH]; intros p; [by simpl|]. intros [H1 H2] Hp. split; [done|].
  apply IH; [done|]. rewrite Hp, last_cons. by destruct (last es).
Qed.

Lemma walk_S fuel ix c l : walk fuel ix c = Some l -> walk (S fuel) ix c = Some l.
Proof.
  revert c l. induction fuel as [|fuel IH]; intros [e|] l H; try done.
  change (cons e <$> walk (S fuel) ix (parent_of ix e) = Some l).
  change (cons e <$> walk fuel ix (parent_of ix e) = Some l) in H.
  destruct (walk fuel ix (parent_of ix e)) eqn:E; [|done]. by rewrite (IH _ _ E).
Qed.
Lemma walk_le fuel fuel' ix c l : (fuel <= fuel')%nat -> walk fuel ix c = Some l -> walk fuel' ix c = Some l.
Proof. induction 1; auto using walk_S. Qed.

(** The walk from an entry reaches the root within as many steps as there are entries up to it. *)
Lemma walk_total s pre e post : wf s -> getEntries s = pre ++ e :: post ->
  exists l, walk (S (length pre)) (byId s) (Some e) = Some l /\ rooted None (reverse l) /\ last (reverse l) = Some e /\
    l ⊆ pre ++ [e].
Proof.
  intros Hw. remember (length pre) as n eqn:Hn. revert pre e post Hn.
  induction n as [n IH] using lt_wf_ind. intros pre e post -> Hes.
  pose proof (wf_parents s Hw) as Hp. rewrite Hes, parents_in_app in Hp. destruct Hp as [_ [Hp _]].
  simpl. unfold parent_of. destruct (parentId e) as [p|] eqn:Ep.
  - specialize (Hp p eq_refl). rewrite app_nil_r, elem_of_reverse in Hp.
    apply list_elem_of_fmap in Hp as (e' & -> & Hin). apply list_elem_of_split in Hin as (pre1 & pre2 & ->).
    assert (Hne : truthy (Some (e_id e')) = true).
    { pose proof (wf_ids s Hw) as Hi. unfold ids in Hi. rewrite Hes, !fmap_app, fmap_cons, !Forall_app in Hi.
      destruct Hi as [[_ Hi] _]. apply Forall_cons in Hi as [Hi _]. by destruct (e_id e'). }
    rewrite Hne. simpl. assert (get (byId s) (e_id e') = Some e') as ->.
    { apply wf_get; [done|]. split; [|done]. rewrite Hes. set_solver. }
    destruct (IH (length pre1) ltac:(rewrite length_app; simpl; lia) pre1 e' (pre2 ++ e :: post) eq_refl) as (l & Hl & Hr & Hlast & Hsub).
    { rewrite Hes, <- (assoc_L app). done. }
    rewrite (walk_le (S (length pre1)) (length (pre1 ++ e' :: pre2)) _ _ _ ltac:(rewrite length_app; simpl; lia) Hl). simpl.
    exists (e :: l). split; [done|]. rewrite reverse_cons. split; [|split; [by rewrite last_snoc|set_solver]].
    apply rooted_snoc; [done|]. by rewrite Hlast, Ep.
  - exists [e]. simpl. destruct (length pre); simpl; split_and!; try done; set_solver.
Qed.

(** The point a branch is asked for. *)
Definition start_id (s : session) (from : option jsstr) : option jsstr :=
  match from with Some f => Some f | None => leafId s end.

Lemma getBranch_spec s from : wf s ->
  exists l, getBranch s from = Some l /\ rooted None l /\ l ⊆ getEntries s /\
    match start_id s from with
    | Some i => (i ∈ ids s -> exists e, last l = Some e /\ e_id e = i) /\ (i ∉ ids s -> l = [])
    | None => l = []
    end.
Proof.
  intros Hw. unfold getBranch. fold (start_id s from).
  assert (Hempty : forall A, exists l : list A, reverse <$> Some [] = Some l /\ l = []) by (intros A; by exists []).
  destruct (start_id s from) as [i|]; simpl.
  2:{ destruct (length (byId s)); (exists []; split_and!; [done..|set_solver|done]). }
  destruct (get (byId s) i) as [e|] eqn:Eg.
  - apply wf_get in Eg as [Hin <-]; [|done].
    assert (Hne : truthy (Some (e_id e)) = true).
    { pose proof (wf_ids s Hw) as Hi. eapply Forall_forall in Hi; [|by apply list_elem_of_fmap_2]. by destruct (e_id e). }
    simpl in Hne. rewrite Hne. apply list_elem_of_split in Hin as Hsplit. destruct Hsplit as (pre & post & Hes).
    destruct (walk_total s pre e post Hw Hes) as (l & Hl & Hr & Hlast & Hsub).
    assert (Hlen : length (byId s) = length (getEntries s)) by (by rewrite (wf_index s Hw), length_fmap).
    rewrite (walk_le (S (length pre)) (length (byId s)) _ _ _ ltac:(rewrite Hlen, Hes, length_app; simpl; lia) Hl).
    exists (reverse l). simpl. split; [done|]. split; [done|]. split.
    + intros x. rewrite elem_of_reverse, Hes. set_solver.
    + split; [intros _; by exists e|]. intros []. by apply list_elem_of_fmap_2.
  - assert ((if truthy (Some i) then None else None) = (None : option SessionEntry)) as Hif by (by destruct (truthy _)).
    simpl in Hif. rewrite Hif. exists [].
    assert (i ∉ ids s).
    { intros Hin. apply wf_has in Hin; [|done]. unfold has in Hin. rewrite Eg in Hin. by apply bool_decide_eq_true in Hin as []. }
    split_and!; [by destruct (length (byId s))|done|set_solver|done|done].
Qed.

(** ** Extending the branch *)

Lemma walk_extend s ix fuel c l : wf s ->
  (forall i e, get (byId s) i = Some e -> get ix i = Some e) -> (forall e, c = Some e -> e ∈ getEntries s) ->
  walk fuel (byId s) c = Some l -> walk fuel ix c = Some l.
Proof.
  intros Hw Hix. revert c l. induction fuel as [|fuel IH]; intros [e|] l Hc H; try done.
  change (cons e <$> walk fuel ix (parent_of ix e) = Some l).
  change (cons e <$> walk fuel (byId s) (parent_of (byId s) e) = Some l) in H.
  destruct (walk fuel (byId s) (parent_of (byId s) e)) as [l'|] eqn:E; [|done].
  assert (Hpar : parent_of ix e = parent_of (byId s) e /\ (forall e', parent_of (byId s) e = Some e' -> e' ∈ getEntries s)).
  { unfold parent_of. destruct (truthy (parentId e)) eqn:Et; [|done]. destruct (parentId e) as [p|] eqn:Ep; [|done]. simpl.
    assert (Hin : p ∈ ids s).
    { specialize (Hc e eq_refl). apply list_elem_of_split in Hc as (pre & post & Hes).
      pose proof (wf_parents s Hw) as Hp. rewrite Hes, parents_in_app in Hp. destruct Hp as [_ [Hp _]].
      specialize (Hp p Ep). rewrite app_nil_r, elem_of_reverse in Hp. unfold ids. rewrite Hes, fmap_app. set_solver. }
    apply wf_has in Hin; [|done]. unfold has in Hin. apply bool_decide_eq_true in Hin as [e' He'].
    rewrite He', (Hix _ _ He'). split; [done|]. intros e'' [= <-]. by apply wf_get in He' as [? _]. }
  destruct Hpar as [-> Hpar]. by rewrite (IH _ _ Hpar E).
Qed.

Lemma log_part_branch s s' from : log_part s = log_part s' -> getBranch s from = getBranch s' from.
Proof. unfold log_part, getBranch. by intros [= _ -> _ _ -> _ _ _ _]. Qed.

Lemma append_branch en k s : wf s -> fresh en s ->
  getBranch (append en k s).2 None = (fun l => l ++ [new_entry en k s]) <$> getBranch s None.
Proof.
  intros Hw Hf. rewrite (log_part_branch _ _ None (append_log en k s)).
  destruct (new_entry_fresh en k s Hw Hf) as [Hnew Hne]. set (e := new_entry en k s) in *.
  unfold getBranch. cbn [leafId byId logged set_log].
  assert (Hset : set (byId s) (e_id e) e = byId s ++ [(e_id e, e)]).
  { apply set_new. rewrite (wf_index s Hw), index_keys. exact Hnew. }
  assert (Htr : truthy (Some (e_id e)) = true) by (by destruct (e_id e)). rewrite Htr. cbn [default from_option].
  rewrite get_set, decide_True by done. rewrite Hset, length_app, Nat.add_comm. simpl length.
  change (reverse <$> (cons e <$> walk (length (byId s)) (byId s ++ [(e_id e, e)]) (parent_of (byId s ++ [(e_id e, e)]) e)) =
    (fun l => l ++ [e]) <$> (reverse <$> walk (length (byId s)) (byId s) (if truthy (leafId s) then get (byId s) (default [] (leafId s)) else None))).
  rewrite <- Hset.
  assert (Hpar : parent_of (set (byId s) (e_id e) e) e = if truthy (leafId s) then get (byId s) (default [] (leafId s)) else None).
  { unfold parent_of. change (parentId e) with (leafId s). destruct (leafId s) as [i|] eqn:Ei; [|done].
    destruct (truthy (Some i)); [|done]. simpl. rewrite get_set, decide_False; [done|].
    intros <-. apply Hnew. by apply (wf_leaf s Hw). }
  rewrite Hpar. destruct (getBranch_spec s None Hw) as (l & Hl & _). unfold getBranch in Hl.
  destruct (walk (length (byId s)) (byId s) _) as [l'|] eqn:Ew; [|done].
  rewrite (walk_extend s _ _ _ l' Hw); [simpl; by rewrite reverse_cons| | |exact Ew].
  - intros i e' He'. rewrite get_set, decide_False; [done|]. intros <-. apply Hnew.
    apply wf_get in He' as [Hin <-]; [|done]. by apply list_elem_of_fmap_2.
  - intros e' He'. destruct (truthy (leafId s)); [|done]. by apply wf_get in He' as [? _].
Qed.

Definition demo_env : env := {| now := 0; uuid := fun i => js "id" ++ show_Z (Z.of_nat i) |}.
Definition demo_header : SessionHeader :=
  {| version := Some 3; h_id := js "s"; h_timestamp := 0; cwd := js "/"; parentSession := None; rlmDepth := None; git := None |}.
Definition demo_session : session := empty_session ex_engine demo_header (Some (js "f")) true [].

Definition demo_assistant : AgentMessage :=
  Assistant {| a_content := []; api := []; provider := []; model := []; usage := emptyUsage; stopReason := Stop;
               errorMessage := None; a_timestamp := 0 |}.

Lemma demo_fresh s : byId s = [] -> fresh demo_env s.
Proof.
  intros Hb. split; [by intros i; simpl|]. exists 0%nat. split; [lia|]. by rewrite Hb.
Qed.

(** In every session reached by the manager's operations, failed ones included, the walk from the leaf
    (or from a given entry) ends, and gives the branch from the root to that entry: the first entry has no
    parent, each is the parent of the next, and all are entries of the log. *)
Theorem session_branch_rooted (s0 s : session) (from : option jsstr) (Hw : wf s0) (Hr : reachable s0 s) :
  exists l, getBranch s from = Some l /\ rooted None l /\ l ⊆ getEntries s /\
    match start_id s from with
    | Some i => (i ∈ ids s -> exists e, last l = Some e /\ e_id e = i) /\ (i ∉ ids s -> l = [])
    | None => l = []
    end.
Proof. apply getBranch_spec. by eapply reachable_wf. Qed.

Lemma session_branch_rooted_witness :
  wf demo_session /\ exists s, reachable demo_session s /\ exists l, getBranch s None = Some l /\ rooted None l.
Proof.
  assert (Hw : wf demo_session) by apply empty_wf. split; [exact Hw|].
  set (s := run demo_env (CAppend (KThinkingLevel (js "high"))) demo_session).
  assert (Hr : reachable demo_session s).
  { eapply reach_step; [apply reach_start|]. apply step_run. by apply demo_fresh. }
  exists s. split; [exact Hr|].
  destruct (session_branch_rooted demo_session s None Hw Hr) as (l & Hl & Hroot & _).
  exists l. split; [exact Hl|exact Hroot].
Defined.

(** A log whose entry is its own parent (a damaged file): the walk never ends. *)
Example branch_of_a_cycle (fuel : nat) :
  let e := {| e_id := js "a"; parentId := Some (js "a"); e_timestamp := 0; kind := KThinkingLevel (js "off") |} in
  walk fuel [(js "a", e)] (Some e) = None.
Proof. cbv zeta. induction fuel as [|fuel IH]; [done|]. cbn [walk]. unfold parent_of. simpl. simpl in IH. by rewrite IH. Qed.

(** ** History *)

Definition skeleton (s : session) : list (jsstr * option jsstr) := (fun e => (e_id e, parentId e)) <$> getEntries s.

Lemma log_part_skeleton s s' : log_part s = log_part s' -> skeleton s = skeleton s'.
Proof. unfold log_part, skeleton, getEntries. by intros [= -> _ _ _ _ _ _ _ _]. Qed.

Lemma append_skeleton en k s : skeleton (append en k s).2 = skeleton s ++ [(generateId en (has (byId s)), leafId s)].
Proof.
  rewrite (log_part_skeleton _ _ (append_log en k s)). unfold skeleton, getEntries. simpl.
  by rewrite getEntries_snoc, fmap_app.
Qed.

Lemma attributed_skeleton t u s : skeleton (attributed t u s) = skeleton s.
Proof.
  unfold skeleton, getEntries. simpl. rewrite getEntries_on_entry, <- list_fmap_compose.
  apply list_fmap_ext. intros i e _. simpl. by rewrite e_id_set_usage, parentId_set_usage.
Qed.

(** History is never rewritten: an operation, failed or not, leaves the entries of the log in place, with
    their ids and parents, and adds at most one entry, at the end. *)
Theorem step_append_only (s s' : session) (Hs : step s s') :
  exists more, skeleton s' = skeleton s ++ more /\ (length more <= 1)%nat.
Proof.
  assert (H0 : forall s, exists more, skeleton s = skeleton s ++ more /\ (length more <= 1)%nat).
  { intros s1. exists []. split; [by rewrite app_nil_r|simpl; lia]. }
  assert (H1 : forall s en k s1, skeleton s1 = skeleton s ->
    exists more, skeleton (append en k s1).2 = skeleton s ++ more /\ (length more <= 1)%nat).
  { intros s1 en k s2 Hsk. eexists. split; [by rewrite append_skeleton, Hsk|simpl; lia]. }
  destruct Hs as [en c s1 Hf]. destruct c as [k|t l|t ch ag o|f| |f su d h u| |]; simpl.
  - destruct (plain k); [by apply H1|apply H0].
  - unfold appendLabelChange, mbind, op_bind. simpl. destruct (has (byId s1) t); simpl; [|apply H0].
    pose proof (H1 s1 en (KLabel t l) s1 eq_refl) as Ha.
    destruct (append en (KLabel t l) s1) as [[i|e] s2]; simpl in *; [|done]. by destruct (apply_label _ _ _ _ _).
  - unfold appendChildUsageAttribution, mbind, op_bind. simpl. destruct (get (byId s1) t) as [e|]; [|apply H0].
    destruct (is_assistant_kind (kind e)); [|apply H0]. simpl. fold (attributed t ag s1).
    by apply H1, attributed_skeleton.
  - unfold branch, mbind, op_bind. simpl. destruct (has (byId s1) f); apply (H0 s1).
  - apply (H0 s1).
  - unfold branchWithSummary, mbind, op_bind. simpl.
    destruct f as [f|]; [destruct (has (byId s1) f); [|apply H0]|]; by apply H1.
  - rewrite (log_part_skeleton _ s1); [apply H0|apply keeps_flushNow].
  - apply (H0 s1).
Qed.

Lemma step_append_only_witness :
  exists s', step demo_session s' /\ exists more, skeleton s' = skeleton demo_session ++ more /\ (length more <= 1)%nat.
Proof.
  exists (run demo_env (CAppend (KThinkingLevel (js "high"))) demo_session).
  assert (Hs : step demo_session (run demo_env (CAppend (KThinkingLevel (js "high"))) demo_session))
    by (apply step_run; by apply demo_fresh).
  split; [exact Hs|]. exact (step_append_only _ _ Hs).
Defined.
