(* ===== verification/SessionFile.v ===== *)
(** * The session file (core/session-manager.ts)

    What is on disk and what is in memory: while writes succeed, a file that is
    up to date loads back to the log, and indexing it gives the index of the
    live session; a write that fails under a rollback leaves no trace of its
    entry. *)

From S2P Require Import Prelude JsString JsNumber JsMap Messages Json FileLog FileLines SessionEntries SessionJson SessionTree SessionFacts.
Local Open Scope Z_scope.

(** ** The bytes of a log *)

(** What a loader finds in a file: the values of its lines. *)
Definition values (bytes : list N) : list json := foldl appendEntryFromBuffer [] (file_lines bytes).

Lemma file_lines_cons a r : LF ∉ a -> file_lines (a ++ LF :: r) = a :: file_lines r.
Proof.
  intros Ha. unfold file_lines. unfold lines_of at 1 2 3. rewrite split_on_app_sep by done. fold (lines_of r). rewrite last_cons.
  pose proof (lines_of_nonempty r) as Hn. destruct (last (lines_of r)) as [l|] eqn:E; [|by apply last_None in E].
  destruct l; [|done]. destruct (lines_of r); [done|reflexivity].
Qed.
Lemma file_lines_last a : LF ∉ a -> file_lines a = match a with [] => [] | _ => [a] end.
Proof. intros Ha. unfold file_lines, lines_of. rewrite split_on_plain by done. by destruct a. Qed.

(** The loop that cuts a buffer at its line breaks. *)
Lemma parse_loop_spec fuel : forall rest entries, (length rest <= fuel)%nat ->
  parse_loop fuel rest entries = foldl appendEntryFromBuffer entries (file_lines rest).
Proof.
  induction fuel as [|fuel IH]; intros [|b rest] entries Hf; try done; [cbn in Hf; lia|]. cbn [parse_loop]. set (bytes := b :: rest) in *.
  destruct (index_LF bytes) as [e|] eqn:Ei; cbn [default from_option Datatypes.id].
  - destruct (index_LF_Some _ _ Ei) as (r & Hb & Hd & Hn & He). rewrite Hb at 3. rewrite file_lines_cons, Hd by done. cbn [foldl].
    apply IH. rewrite <- Hd, length_drop. lia.
  - apply index_LF_None in Ei. rewrite file_lines_last, drop_ge, take_ge by (done || lia). by destruct fuel.
Qed.
Lemma parse_values bytes : parseEntriesFromBuffer bytes = values bytes.
Proof. by apply parse_loop_spec. Qed.

(** A file of whole lines and a torn tail. *)
Lemma values_lines vs tail : Forall json_ok vs -> LF ∉ tail -> values (log_bytes vs ++ tail) = appendEntryFromBuffer vs tail.
Proof.
  intros Hvs Ht. unfold values. change vs with ([] ++ vs) at 2. generalize (@nil json). induction Hvs as [|v vs Hv _ IH]; intros acc.
  - cbn [app]. rewrite app_nil_r. change (log_bytes []) with (@nil N). cbn [app]. rewrite file_lines_last by done. by destruct tail.
  - change (log_bytes (v :: vs)) with (line_bytes v ++ log_bytes vs). rewrite line_bytes_app, <- !(assoc_L app) by done.
    pose proof (line_text_stringify _ Hv) as Hl. cbn [app]. rewrite file_lines_cons by by apply LF_of_buffer, line_text_LF. cbn [foldl].
    rewrite cons_middle, (assoc_L app), <- IH. f_equal.
    unfold appendEntryFromBuffer. destruct (buffer_from (stringify v)) as [|b r] eqn:E.
    + exfalso. assert (Hp : buffer_toString (buffer_from (stringify v)) = stringify v) by (apply utf8_round_trip; [by apply line_text_wf|apply Hl]).
      rewrite E in Hp. apply stringify_length in Hv. rewrite <- Hp in Hv. cbn in Hv. lia.
    + rewrite <- E, utf8_round_trip, JSON_parse_stringify by (done || by apply line_text_wf || apply Hl). done.
Qed.

Section engine.
Context (E : Engine) (HE : engine_ok E).

Lemma entries_back fs : entries_of E (enc E <$> fs) = Some fs.
Proof. unfold entries_of. induction fs as [|f fs IH]; [done|]. cbn. rewrite file_entry_back by done. cbn. by rewrite IH. Qed.
(** The lines of a log load to that log. *)
Lemma load_log fs : Forall (entry_ok E) fs -> loadEntriesFromFile E (Some (log_lines E fs)) = Some (finalizeLoadedEntries fs).
Proof.
  intros Hok. unfold loadEntriesFromFile, log_lines. rewrite parse_values, <- (app_nil_r (log_bytes _)), values_lines; [|by apply entries_json_ok|set_solver].
  cbn [appendEntryFromBuffer]. by rewrite entries_back.
Qed.

Lemma content_lines fs : fs <> [] -> Forall (entry_ok E) fs -> file_content E fs = log_lines E fs.
Proof.
  intros Hne Hok. unfold log_lines. rewrite log_bytes_text by by apply entries_json_ok. unfold file_content. f_equal. clear Hok.
  induction fs as [|f fs IH]; [done|]. unfold log_text in *. rewrite !fmap_cons, bind_cons. destruct fs as [|f' fs]; [cbn; by rewrite app_nil_r|].
  rewrite <- IH by done. rewrite !fmap_cons, join_cons by done. by rewrite <- !(assoc_L app).
Qed.

(** The usage of a message does not matter for its text to be JSON. *)
Lemma entry_ok_usage t u f : entry_ok E (on_entry (set_usage t u) f) <-> entry_ok E f.
Proof.
  destruct f as [h|e]; [done|]. cbn [on_entry]. unfold set_usage, with_usage. case_bool_decide as Ht; [|done].
  destruct e as [i p ts [[m|m|m|m|m|m|m]| | | | | | | | | | | | |]]; try done. unfold entry_ok, enc, enc_entry. cbn [kind].
  rewrite !obj_ok by reflexivity. unfold base. cbn [app]. rewrite !Forall_cons.
  assert (Hm : field_ok (must "message" (enc_message E (Assistant {| a_content := a_content m; api := api m; provider := provider m; model := model m;
    usage := u; stopReason := stopReason m; errorMessage := errorMessage m; a_timestamp := a_timestamp m |}))) <->
    field_ok (must "message" (enc_message E (Assistant m)))); [|unfold base in *; tauto].
  unfold field_ok. cbn [must snd enc_message]. unfold enc_assistant. rewrite !obj_ok by reflexivity. rewrite !Forall_cons.
  assert (Hu : forall u, field_ok (must "usage" (enc_usage E u))) by (intros u'; by apply usage_ok).
  pose proof (Hu u). pose proof (Hu (usage m)). cbn [a_content api provider model usage stopReason errorMessage a_timestamp]. tauto.
Qed.
End engine.

(** ** Usage attributions *)

(** What one line of a log does to an entry, and what a log does. *)
Definition attr_fun (f : FileEntry) (e : SessionEntry) : SessionEntry :=
  match f with
  | Entry {| kind := KChildUsage target _ aggregate _ |} => set_usage target aggregate e
  | _ => e
  end.
Definition attr_all (atts : list FileEntry) (e : SessionEntry) : SessionEntry := foldl (fun e f => attr_fun f e) e atts.

Lemma on_entry_id (fs : list FileEntry) : on_entry (fun e => e) <$> fs = fs.
Proof. induction fs as [|[h|e] fs IH]; [done|..]; cbn; f_equal; exact IH. Qed.
Lemma on_entry_compose f g (fs : list FileEntry) : on_entry f <$> (on_entry g <$> fs) = on_entry (fun e => f (g e)) <$> fs.
Proof. induction fs as [|[h|e] fs IH]; [done|..]; cbn; f_equal; exact IH. Qed.

Lemma apply_attribution_on fs f : apply_attribution fs f = on_entry (attr_fun f) <$> fs.
Proof.
  destruct f as [h|e]; simpl; [by rewrite on_entry_id|].
  unfold attr_fun. destruct e as [i p t k]. destruct k; simpl; by rewrite ?on_entry_id.
Qed.

Lemma foldl_attributions fs atts : foldl apply_attribution fs atts = on_entry (attr_all atts) <$> fs.
Proof.
  revert fs. induction atts as [|f atts IH]; intros fs; simpl; [by rewrite on_entry_id|].
  by rewrite IH, apply_attribution_on, on_entry_compose.
Qed.

Lemma attr_all_snoc atts f e : attr_all (atts ++ [f]) e = attr_fun f (attr_all atts e).
Proof. unfold attr_all. by rewrite foldl_app. Qed.

(** The entries of a log that are attributions, to which entry, and what they set. *)
Definition attribution (f : FileEntry) : option (jsstr * Usage) :=
  match f with Entry {| kind := KChildUsage t _ u _ |} => Some (t, u) | _ => None end.
Lemma attr_fun_spec f e : attr_fun f e = match attribution f with Some (t, u) => set_usage t u e | None => e end.
Proof. destruct f as [h|[i p ts []]]; done. Qed.

Lemma attr_all_ext atts atts' e : omap attribution atts = omap attribution atts' -> attr_all atts e = attr_all atts' e.
Proof.
  assert (H : forall atts e, attr_all atts e = foldl (fun e (tu : jsstr * Usage) => set_usage tu.1 tu.2 e) e (omap attribution atts)).
  { clear. intros atts. induction atts as [|f atts IH]; intros e; [done|]. unfold attr_all in *. cbn [foldl].
    rewrite IH, attr_fun_spec. cbn. destruct (attribution f) as [[t u]|]; done. }
  intros Heq. by rewrite !H, Heq.
Qed.

Lemma attribution_on_entry t u f : attribution (on_entry (set_usage t u) f) = attribution f.
Proof.
  destruct f as [h|e]; [done|]. simpl. unfold set_usage, with_usage. case_bool_decide; [|done].
  destruct e as [i p ts [[]| | | | | | | | | | | | |]]; done.
Qed.

Lemma omap_attribution_on t u (fs : list FileEntry) : omap attribution (on_entry (set_usage t u) <$> fs) = omap attribution fs.
Proof.
  induction fs as [|f fs IH]; [done|]. rewrite fmap_cons. cbn. rewrite attribution_on_entry.
  destruct (attribution f); [f_equal|]; exact IH.
Qed.

(** Setting a usage twice, or after other attributions, is setting it once. *)
Lemma with_usage_twice u v e : with_usage u (with_usage v e) = with_usage u e.
Proof. destruct e as [i p ts [[]| | | | | | | | | | | | |]]; done. Qed.
Lemma set_usage_absorbs t u atts e : set_usage t u (attr_all atts (set_usage t u e)) = set_usage t u (attr_all atts e).
Proof.
  assert (H : forall atts e, e_id (attr_all atts e) = e_id e /\ (forall u, with_usage u (attr_all atts e) = with_usage u e)).
  { clear. intros atts. induction atts as [|f atts IH]; intros e; [done|]. unfold attr_all in *. cbn [foldl].
    destruct (IH (attr_fun f e)) as [-> Hu]. split.
    - rewrite attr_fun_spec. destruct (attribution f) as [[t u]|]; [apply e_id_set_usage|done].
    - intros v. rewrite Hu, attr_fun_spec. destruct (attribution f) as [[t u]|]; [|done].
      unfold set_usage. case_bool_decide; [apply with_usage_twice|done]. }
  unfold set_usage at 1 3. destruct (H atts (set_usage t u e)) as [-> Hu], (H atts e) as [-> Hu'].
  rewrite e_id_set_usage. unfold set_usage. case_bool_decide; [|done].
  assert (Hw : with_usage u e = set_usage t u e) by (unfold set_usage; by rewrite bool_decide_true).
  rewrite Hu', Hw. rewrite Hu. rewrite <- Hw. apply with_usage_twice.
Qed.

(** ** The invariant *)

Definition attribution_targets (fs : list FileEntry) : list jsstr := (omap attribution fs).*1.

(** A log with a header, that its attributions do not change. *)
Definition closed (fs : list FileEntry) : Prop :=
  (exists h es, fs = Header h :: es) /\ applyChildUsageAttributions fs = fs.

(** A session in order: its attributions are about its entries, and its index is that of its log. *)
Record settled (s : session) : Prop := {
  settled_wf : wf s;
  settled_closed : closed (fileEntries s);
  settled_targets : forall t, t ∈ attribution_targets (fileEntries s) -> t ∈ ids s;
  settled_index : exists leaf, foldl index_entry ([], [], [], None) (fileEntries s) =
                               (byId s, labelsById s, labelTimestampsById s, leaf) }.

(** The entries of a session can be written. *)
Definition writable (s : session) : Prop := engine_ok (engine s) /\ Forall (entry_ok (engine s)) (fileEntries s).
(** A file that is up to date has the lines of a log whose attributions make it [fs]. *)
Definition saved_as (s : session) (fs : list FileEntry) : Prop :=
  persist s = true -> truthy (sessionFile s) = true -> flushed s = true ->
  forall d, disk s = Some d -> exists raw, d = log_lines (engine s) raw /\ finalizeLoadedEntries raw = fs.
Definition saved (s : session) : Prop := writable s -> saved_as s (fileEntries s).

Lemma closed_load fs : closed fs -> finalizeLoadedEntries fs = fs.
Proof. intros [(h & es & ->) Ha]. exact Ha. Qed.

(** A rewritten file is up to date. *)
Lemma rewritten_saved s : closed (fileEntries s) -> disk s = Some (file_content (engine s) (fileEntries s)) -> saved s.
Proof.
  intros Hc Hd [HE Hok] _ _ _ d Hd'. rewrite Hd in Hd'. injection Hd' as <-. exists (fileEntries s). split; [|by apply closed_load].
  apply content_lines; [|done]. by destruct Hc as [(h & es & ->) _].
Qed.

(** The entries of a log have a text when those it is loaded as have one. *)
Lemma loaded_ok E raw h es : engine_ok E -> finalizeLoadedEntries raw = Header h :: es -> Forall (entry_ok E) (Header h :: es) -> Forall (entry_ok E) raw.
Proof.
  intros HE Hf Hok. assert (Ha : applyChildUsageAttributions raw = Header h :: es) by (destruct raw as [|[h'|e] rest]; done).
  rewrite <- Ha in Hok. unfold applyChildUsageAttributions in Hok. rewrite foldl_attributions, Forall_fmap in Hok.
  eapply Forall_impl; [exact Hok|]. cbn. generalize raw at 1. clear -HE. intros atts f. revert f.
  induction atts as [|g atts IH]; intros [h|e]; try done. cbn [compose on_entry]. change (attr_all (g :: atts) e) with (attr_all atts (attr_fun g e)).
  intros H%(IH (Entry (attr_fun g e))). rewrite attr_fun_spec in H. destruct (attribution g) as [[t u]|]; [|done]. by apply (entry_ok_usage E HE t u (Entry e)).
Qed.

(** The file of a session that is up to date loads to its log. *)
Lemma saved_loads s : closed (fileEntries s) -> writable s -> saved_as s (fileEntries s) ->
  persist s = true -> truthy (sessionFile s) = true -> flushed s = true ->
  forall d, disk s = Some d -> loadEntriesFromFile (engine s) (Some d) = Some (fileEntries s).
Proof.
  intros [(h & es & Hfs) _] [HE Hok] Hs H1 H2 H3 d Hd. destruct (Hs H1 H2 H3 d Hd) as (raw & -> & Hf). rewrite load_log; [by rewrite Hf|done|].
  rewrite Hfs in *. by eapply loaded_ok.
Qed.

(** Loading a log to which an entry is appended. *)
Lemma load_append raw f h es : finalizeLoadedEntries raw = Header h :: es ->
  finalizeLoadedEntries (raw ++ [f]) = applyChildUsageAttributions (raw ++ [f]) /\ applyChildUsageAttributions raw = Header h :: es.
Proof. intros Hl. by destruct raw as [|[h'|e] rest]. Qed.

Lemma apply_snoc_plain fs e : attribution (Entry e) = None -> (forall t u, (t, u) ∈ omap attribution fs -> t <> e_id e) ->
  applyChildUsageAttributions (fs ++ [Entry e]) = applyChildUsageAttributions fs ++ [Entry e].
Proof.
  intros Hp Ht. unfold applyChildUsageAttributions. rewrite !foldl_attributions, fmap_app.
  assert (Hall : forall x, attr_all (fs ++ [Entry e]) x = attr_all fs x).
  { intros x. rewrite attr_all_snoc, attr_fun_spec, Hp. done. }
  f_equal.
  - apply list_fmap_ext. intros i [h|x] _; simpl; [done|]. by rewrite Hall.
  - cbn. do 2 f_equal. rewrite Hall. clear -Ht. unfold attr_all.
    induction fs as [|f fs IH]; [done|]. cbn [foldl]. rewrite attr_fun_spec. cbn in Ht.
    destruct (attribution f) as [[t u]|].
    + assert (set_usage t u e = e) as ->.
      { unfold set_usage. rewrite bool_decide_false; [done|]. intros Heq. eapply Ht; [apply list_elem_of_here|done]. }
      apply IH. intros t' u' Hin. eapply Ht, list_elem_of_further, Hin.
    + by apply IH.
Qed.

Lemma apply_snoc_attribution fs e t u : attribution (Entry e) = Some (t, u) ->
  applyChildUsageAttributions (fs ++ [Entry e]) = (on_entry (set_usage t u) <$> applyChildUsageAttributions fs) ++ [Entry e].
Proof.
  intros Hp. unfold applyChildUsageAttributions. rewrite !foldl_attributions, fmap_app, on_entry_compose. f_equal.
  - apply list_fmap_ext. intros i [h|x] _; simpl; [done|]. by rewrite attr_all_snoc, attr_fun_spec, Hp.
  - cbn. do 2 f_equal. destruct e as [i p ts k]. destruct k; try done.
    assert (H : forall atts, attr_all atts {| e_id := i; parentId := p; e_timestamp := ts;
      kind := KChildUsage targetId childUsage aggregateUsage origin |} =
      {| e_id := i; parentId := p; e_timestamp := ts; kind := KChildUsage targetId childUsage aggregateUsage origin |}).
    { clear. intros atts. induction atts as [|f atts IH]; [done|]. unfold attr_all in *. cbn [foldl].
      rewrite attr_fun_spec. destruct (attribution f) as [[t u]|]; [|done]. unfold set_usage, with_usage. simpl.
      by case_bool_decide. }
    apply H.
Qed.

Lemma attribution_attr_all atts f : attribution (on_entry (attr_all atts) f) = attribution f.
Proof.
  revert f. induction atts as [|g atts IH]; intros [h|e]; try done.
  change (attribution (on_entry (attr_all atts) (Entry (attr_fun g e))) = attribution (Entry e)).
  rewrite IH, attr_fun_spec. destruct (attribution g) as [[t u]|]; [|done]. apply (attribution_on_entry t u (Entry e)).
Qed.

Lemma attributions_applied fs : omap attribution (applyChildUsageAttributions fs) = omap attribution fs.
Proof.
  unfold applyChildUsageAttributions. rewrite foldl_attributions. generalize fs at 1. intros atts.
  induction fs as [|f fs IH]; [done|]. rewrite fmap_cons. cbn. rewrite attribution_attr_all.
  destruct (attribution f); [f_equal|]; exact IH.
Qed.

(** ** Writing an entry *)

Definition writes (s : session) : Prop := persist s = true /\ truthy (sessionFile s) = true.

(** While writes succeed: the entry is written to a file that is up to date, or the file is rewritten, or the
    file is left for later. *)
Lemma persist_written e s : io s = [] ->
  exists s', persist_entry e s = (inl tt, s') /\ io s' = [] /\
    (flushed s' = false \/ ~ writes s' \/ disk s' = Some (file_content (engine s') (fileEntries s')) \/
     (flushed s = true /\ exists d, disk s = Some d /\ disk s' = Some (d ++ line_bytes (enc (engine s) (Entry e))))).
Proof.
  intros Hio. unfold persist_entry, rewriteFile, next_io, writes, mbind, op_bind, gets, modify, mret, op_ret.
  destruct (persist s) eqn:Ep; simpl.
  2:{ exists s. split; [done|]. split; [done|]. right. left. rewrite Ep. by intros []. }
  destruct (truthy (sessionFile s)) eqn:Ef; simpl.
  2:{ exists s. split; [done|]. split; [done|]. right. left. rewrite Ef. by intros []. }
  destruct (_ && _); simpl; [eexists; split; [done|]; split; [done|]; by left|].
  destruct (flushed s) eqn:Efl, (disk s) as [d|] eqn:Ed; simpl; rewrite ?Ep, ?Ef; simpl; rewrite Hio; simpl;
    (eexists; split; [done|]; split; [done|]; right; right); [right|left..]; try done.
  split; [done|]. by exists d.
Qed.

Lemma logged_writable e s : writable (logged e s) -> writable s.
Proof. intros [HE Hok]. split; [done|]. cbn in Hok. by apply Forall_app in Hok as [Hok _]. Qed.
Lemma attributed_writable t u s : writable (attributed t u s) -> writable s.
Proof.
  intros [HE Hok]. split; [done|]. cbn in HE, Hok. rewrite Forall_fmap in Hok. eapply Forall_impl; [exact Hok|]. intros f. by apply entry_ok_usage.
Qed.
Lemma append_written en k s fs0 : io s = [] -> closed (fileEntries (logged (new_entry en k s) s)) ->
  (writable (logged (new_entry en k s) s) -> saved_as s fs0) -> closed fs0 ->
  (forall ls, applyChildUsageAttributions ls = fs0 ->
     applyChildUsageAttributions (ls ++ [Entry (new_entry en k s)]) = fileEntries (logged (new_entry en k s) s)) ->
  exists s', append en k s = (inl (generateId en (has (byId s))), s') /\ io s' = [] /\ saved s' /\
    log_part s' = log_part (logged (new_entry en k s) s).
Proof.
  intros Hio Hc Hsaved [(h & es & Hh) _] Happ. set (e := new_entry en k s) in *.
  destruct (persist_written e (logged e s) Hio) as (s' & Hp & Hio' & Hcase).
  assert (Hlog : log_part s' = log_part (logged e s)) by (pose proof (keeps_persist e (logged e s)) as Hk; by rewrite Hp in Hk).
  exists s'. split.
  { transitivity (match persist_entry e (logged e s) with
      | (inl _, s') => (inl (e_id e), s') | (inr er, s') => (inr er, s') end); [reflexivity|by rewrite Hp]. }
  split; [done|]. split; [|done].
  assert (Hfs : fileEntries s' = fileEntries (logged e s) /\ persist s' = persist s /\ sessionFile s' = sessionFile s /\ engine s' = engine s).
  { unfold log_part in Hlog. injection Hlog as ? ? ? ? ? ? ? ? ?. by split_and!. }
  destruct Hfs as (Hfs & Hps1 & Hps2 & HEs). intros Hw. pose proof Hw as Hw'. unfold writable in Hw'. rewrite HEs, Hfs in Hw'. specialize (Hsaved Hw').
  intros Hp1 Hf1 Hfl d Hd. destruct Hcase as [Hn|[Hn|[Hr|(Hfl0 & d0 & Hd0 & Hd1)]]].
  - congruence.
  - by destruct Hn.
  - rewrite <- Hfs in Hc. exact (rewritten_saved s' Hc Hr Hw Hp1 Hf1 Hfl d Hd).
  - rewrite Hd1 in Hd. injection Hd as <-.
    destruct (Hsaved ltac:(congruence) ltac:(congruence) Hfl0 d0 Hd0) as (raw & -> & Hl). exists (raw ++ [Entry e]).
    rewrite Hh in Hl. destruct (load_append raw (Entry e) h es Hl) as [-> Ha].
    rewrite Hfs, HEs, log_lines_app. split; [unfold log_lines at 3; cbn; by rewrite app_nil_r|]. apply Happ. by rewrite Ha, Hh.
Qed.

(** ** The operations, one by one *)

Definition sound (s : session) : Prop := settled s /\ saved s /\ io s = [].

Lemma log_part_settled s s' : log_part s = log_part s' -> settled s -> settled s'.
Proof.
  intros Hl [H1 H2 H3 H4]. pose proof (log_part_wf _ _ Hl H1) as Hw. unfold log_part in Hl.
  injection Hl as Hf Hb Hls Ht Hlf Ha Hp Hsf HE. split; [done|by rewrite <- Hf| |].
  - unfold ids, getEntries in *. by rewrite <- Hf.
  - rewrite <- Hf, <- Hb, <- Hls, <- Ht. done.
Qed.

Lemma targets_snoc fs f : attribution_targets (fs ++ [f]) =
  attribution_targets fs ++ match attribution f with Some (t, _) => [t] | None => [] end.
Proof. unfold attribution_targets. rewrite omap_app, fmap_app. f_equal. cbn. by destruct (attribution f) as [[]|]. Qed.

Lemma plain_new_target s e t u : settled s -> e_id e ∉ ids s -> (t, u) ∈ omap attribution (fileEntries s) -> t <> e_id e.
Proof.
  intros Hs Hn Hin ->. apply Hn, (settled_targets s Hs). apply list_elem_of_fmap. by exists (e_id e, u).
Qed.

Lemma closed_snoc_plain s e : settled s -> e_id e ∉ ids s -> attribution (Entry e) = None ->
  closed (fileEntries s ++ [Entry e]) /\
  forall ls, applyChildUsageAttributions ls = fileEntries s ->
    applyChildUsageAttributions (ls ++ [Entry e]) = fileEntries s ++ [Entry e].
Proof.
  intros Hs Hn Ha. destruct (settled_closed s Hs) as [(h & es & Hfs) Happ]. split.
  - split; [exists h, (es ++ [Entry e]); by rewrite Hfs|].
    rewrite apply_snoc_plain, Happ; [done|done|]. intros t u. by apply plain_new_target.
  - intros ls Hls. rewrite apply_snoc_plain, Hls; [done|done|]. intros t u Hin.
    eapply plain_new_target; [done..|]. rewrite <- Hls, attributions_applied. exact Hin.
Qed.

Lemma index_snoc fs f : foldl index_entry ([], [], [], None) (fs ++ [f]) =
  index_entry (foldl index_entry ([], [], [], None) fs) f.
Proof. by rewrite foldl_app. Qed.

(** Any entry that is not an attribution. *)
Lemma append_sound en k s : sound s -> fresh en s -> attribution (Entry (new_entry en k s)) = None ->
  exists s', append en k s = (inl (generateId en (has (byId s))), s') /\ io s' = [] /\ saved s' /\
    log_part s' = log_part (logged (new_entry en k s) s) /\ wf s' /\ closed (fileEntries s') /\
    (forall t, t ∈ attribution_targets (fileEntries s') -> t ∈ ids s').
Proof.
  intros (Hs & Hsv & Hio) Hf Ha. set (e := new_entry en k s) in *.
  destruct (new_entry_fresh en k s (settled_wf s Hs) Hf) as [Hn Hne]. fold e in Hn, Hne.
  destruct (closed_snoc_plain s e Hs Hn Ha) as [Hc Happ].
  destruct (append_written en k s (fileEntries s) Hio Hc (fun Hw => Hsv (logged_writable _ _ Hw)) (settled_closed s Hs) Happ) as (s' & Heq & Hio' & Hsv' & Hl).
  fold e in Hl. exists s'. split; [done|]. split; [done|]. split; [done|]. split; [done|].
  assert (Hfs : fileEntries s' = fileEntries s ++ [Entry e]) by (unfold log_part in Hl; injection Hl; done).
  split; [|split; [by rewrite Hfs|]].
  - eapply log_part_wf; [by symmetry|]. apply logged_wf; [apply (settled_wf s Hs)|done|done|apply (wf_leaf s (settled_wf s Hs))].
  - intros t. rewrite Hfs, targets_snoc, Ha, app_nil_r. intros Ht%(settled_targets s Hs).
    unfold ids, getEntries. rewrite Hfs, getEntries_snoc, fmap_app. apply elem_of_app. by left.
Qed.

Lemma settled_set_leaf l s : settled s -> (forall i, l = Some i -> i ∈ ids s) -> settled (set_leaf l s).
Proof. intros [H1 H2 H3 [leaf H4]] Hl. split; [by apply set_leaf_wf|done|done|by exists leaf]. Qed.

Lemma sound_set_leaf l s : sound s -> (forall i, l = Some i -> i ∈ ids s) -> sound (set_leaf l s).
Proof. intros (Hs & Hsv & Hio) Hl. split; [by apply settled_set_leaf|done]. Qed.

Lemma append_plain_sound en k s : sound s -> fresh en s -> plain k = true -> sound (append en k s).2.
Proof.
  intros Hs Hf Hk. assert (Ha : attribution (Entry (new_entry en k s)) = None) by (by destruct k).
  destruct (append_sound en k s Hs Hf Ha) as (s' & -> & Hio & Hsv & Hl & Hw & Hc & Ht).
  split; [|done]. split; [done..|]. destruct (settled_index s (proj1 Hs)) as [leaf Hix].
  unfold log_part in Hl. injection Hl as Hfs Hb Hls Hts _ _ _ _ _. eexists. simpl.
  rewrite Hfs, index_snoc, Hix, Hb, Hls, Hts. simpl. by destruct k.
Qed.

Lemma label_sound en t l s : sound s -> fresh en s -> sound (appendLabelChange en t l s).2.
Proof.
  intros Hs Hf. unfold appendLabelChange, mbind, op_bind. simpl. destruct (has (byId s) t); simpl; [|done].
  destruct (append_sound en (KLabel t l) s Hs Hf eq_refl) as (s' & -> & Hio & Hsv & Hlog & Hw & Hc & Ht). simpl.
  unfold log_part in Hlog. injection Hlog as Hfs Hb Hls Hts _ _ _ _ _. rewrite Hls, Hts. simpl.
  destruct (settled_index s (proj1 Hs)) as [leaf Hix].
  destruct (apply_label t l (now en) (labelsById s) (labelTimestampsById s)) as [ls ts] eqn:El.
  split; [|done]. split; [by apply set_labels_wf|done|done|]. eexists. simpl.
  rewrite Hfs, index_snoc, Hix, Hb. simpl. by rewrite El.
Qed.

(** The index of a log whose entries have their usage replaced. *)
Lemma set_map {V} (f : V -> V) (m : jsmap jsstr V) k v : set (prod_map (fun i => i) f <$> m) k (f v) = prod_map (fun i => i) f <$> set m k v.
Proof.
  induction m as [|[k1 v1] m IH]; [done|]. rewrite fmap_cons. simpl. destruct (decide (k1 = k)); [done|].
  rewrite IH. done.
Qed.

Lemma kind_label_set_usage t u e : match kind (set_usage t u e) with KLabel a b => Some (a, b) | _ => None end =
  match kind e with KLabel a b => Some (a, b) | _ => None end.
Proof.
  unfold set_usage, with_usage. case_bool_decide; [|done]. destruct e as [i p ts k]. by destruct k as [[]| | | | | | | | | | | | |].
Qed.
Lemma timestamp_set_usage t u e : e_timestamp (set_usage t u e) = e_timestamp e.
Proof. unfold set_usage, with_usage. case_bool_decide; [|done]. by destruct (kind e) as [[]| | | | | | | | | | | | |]. Qed.

Definition map_index (g : SessionEntry -> SessionEntry) (acc : jsmap jsstr SessionEntry * jsmap jsstr jsstr * jsmap jsstr Z * option jsstr) :=
  let '(ix, ls, ts, leaf) := acc in (prod_map (fun i => i) g <$> ix, ls, ts, leaf).

Lemma index_entry_label acc e : index_entry acc (Entry e) =
  let '(ix, ls, ts, _) := acc in
  match match kind e with KLabel a b => Some (a, b) | _ => None end with
  | Some (a, b) => let '(ls', ts') := apply_label a b (e_timestamp e) ls ts in (set ix (e_id e) e, ls', ts', Some (e_id e))
  | None => (set ix (e_id e) e, ls, ts, Some (e_id e))
  end.
Proof. destruct acc as [[[ix ls] ts] leaf]. simpl. by destruct (kind e). Qed.

Lemma index_mapped t u fs acc : foldl index_entry (map_index (set_usage t u) acc) (on_entry (set_usage t u) <$> fs) =
  map_index (set_usage t u) (foldl index_entry acc fs).
Proof.
  revert acc. induction fs as [|f fs IH]; intros acc; [done|]. rewrite fmap_cons. cbn [foldl].
  assert (Hone : index_entry (map_index (set_usage t u) acc) (on_entry (set_usage t u) f) =
    map_index (set_usage t u) (index_entry acc f)); [|by rewrite Hone, IH].
  destruct acc as [[[ix ls] ts] leaf]. destruct f as [h|e]; [done|].
  cbn [on_entry]. rewrite !index_entry_label. cbn [map_index].
  rewrite kind_label_set_usage, timestamp_set_usage, e_id_set_usage, set_map.
  destruct (match kind e with KLabel a b => Some (a, b) | _ => None end) as [[a b]|]; [|done].
  by destruct (apply_label _ _ _ _ _).
Qed.

Lemma attribution_sound en t child u origin s : sound s -> fresh en s -> sound (appendChildUsageAttribution en t child u origin s).2.
Proof.
  intros (Hs & Hsv & Hio) Hf. unfold appendChildUsageAttribution, mbind, op_bind. simpl.
  destruct (get (byId s) t) as [target|] eqn:Eg; [|done].
  destruct (is_assistant_kind (kind target)); [|done]. simpl. fold (attributed t u s).
  set (s1 := attributed t u s). set (k := KChildUsage t child u origin). set (e := new_entry en k s1).
  destruct (settled_closed s Hs) as [(h & es & Hfs) Happ].
  assert (Hw1 : wf s1) by (apply attributed_wf, (settled_wf s Hs)).
  assert (Hf1 : fresh en s1) by (eapply fresh_ids; [apply (settled_wf s Hs)|done|apply attributed_ids|done]).
  destruct (new_entry_fresh en k s1 Hw1 Hf1) as [Hn Hne]. fold e in Hn, Hne.
  assert (Hfs1 : fileEntries s1 = on_entry (set_usage t u) <$> fileEntries s) by done.
  assert (Hself : applyChildUsageAttributions (fileEntries s1 ++ [Entry e]) = fileEntries s1 ++ [Entry e]).
  { rewrite (apply_snoc_attribution _ e t u) by done. f_equal. unfold applyChildUsageAttributions in *.
    rewrite foldl_attributions in Happ |- *. rewrite Hfs1, !on_entry_compose.
    transitivity (on_entry (set_usage t u) <$> (on_entry (attr_all (fileEntries s)) <$> fileEntries s)); [|by rewrite Happ].
    rewrite on_entry_compose. apply list_fmap_ext. intros i [|x] _; simpl; [done|]. f_equal.
    rewrite (attr_all_ext _ (fileEntries s)) by apply omap_attribution_on. apply set_usage_absorbs. }
  destruct (append_written en k s1 (fileEntries s)) as (s' & -> & Hio' & Hsv' & Hl).
  - done.
  - split; [|exact Hself]. simpl. rewrite Hfs. eexists h, _. rewrite fmap_cons. done.
  - intros Hw. by apply Hsv, (attributed_writable t u), (logged_writable e).
  - by split; [exists h, es|].
  - intros ls Hls. rewrite (apply_snoc_attribution _ _ t u), Hls by done. done.
  - split; [|done]. fold e in Hl. unfold log_part in Hl. injection Hl as Hf' Hb Hls Hts Hlf Ha Hp Hsf HE'.
    assert (Hids : ids s' = ids s1 ++ [e_id e]) by (unfold ids, getEntries; rewrite Hf', getEntries_snoc, fmap_app; done).
    assert (Hti : t ∈ ids s1).
    { unfold s1. rewrite attributed_ids. apply wf_get in Eg as [Hin <-]; [|apply (settled_wf s Hs)]. by apply list_elem_of_fmap_2. }
    split.
    + apply (log_part_wf (logged e s1)); [unfold log_part; simpl; by rewrite Hf', Hb, Hls, Hts, Hlf, Ha, Hp, Hsf, HE'|].
      apply logged_wf; [done..|apply (wf_leaf s1 Hw1)].
    + cbn [snd]. rewrite Hf'. split; [|exact Hself]. simpl. rewrite Hfs. eexists h, _. rewrite fmap_cons. done.
    + cbn [snd]. intros t' Ht'. rewrite Hids. apply elem_of_app. left. simpl in Ht'. rewrite Hf' in Ht'.
      change (t' ∈ attribution_targets (fileEntries s1 ++ [Entry e])) in Ht'.
      rewrite targets_snoc in Ht'. apply elem_of_app in Ht' as [Ht'|Ht'].
      * unfold s1. rewrite attributed_ids. apply (settled_targets s Hs).
        unfold attribution_targets in *. by rewrite Hfs1, omap_attribution_on in Ht'.
      * simpl in Ht'. by apply list_elem_of_singleton in Ht' as ->.
    + destruct (settled_index s Hs) as [leaf Hix]. eexists. simpl. rewrite Hf'. simpl. rewrite index_snoc.
      change ([], [], [], None) with (map_index (set_usage t u) ([], [], [], None)). rewrite index_mapped, Hix. simpl.
      by rewrite Hb, Hls, Hts.
Qed.

Lemma flush_sound s : sound s -> sound (flushNow s).2.
Proof.
  intros (Hs & Hsv & Hio). pose proof (keeps_flushNow s) as Hl.
  assert (Hs' : settled (flushNow s).2) by (eapply log_part_settled; [symmetry; exact Hl|done]).
  split; [done|]. revert Hs' Hl. unfold flushNow, rewriteFile, next_io, mbind, op_bind, gets, modify, mret, op_ret.
  destruct (negb (persist s && truthy (sessionFile s))) eqn:Ep; simpl; [done|].
  destruct (flushed s && bool_decide (disk s <> None)); simpl; [done|]. rewrite Ep. simpl. rewrite Hio. simpl.
  intros Hs' _. split; [|done]. apply rewritten_saved; [apply (settled_closed _ Hs')|done].
Qed.

Lemma step_sound s s' : sound s -> step s s' -> sound s'.
Proof.
  intros Hs Hst. revert Hs. destruct Hst as [en c s Hf]. intros Hs.
  destruct c as [k|t l|t ch u o|f| |f su d h u| |]; simpl.
  - destruct (plain k) eqn:Hk; [by apply append_plain_sound|done].
  - by apply label_sound.
  - by apply attribution_sound.
  - unfold branch, mbind, op_bind. simpl. destruct (has (byId s) f) eqn:E; [|done].
    apply sound_set_leaf; [done|]. intros i [= <-]. by apply wf_has in E; [|apply Hs].
  - by apply sound_set_leaf.
  - unfold branchWithSummary, mbind, op_bind. simpl.
    assert (Hleaf : match f with Some i => i ∈ ids s | None => True end ->
      sound (append en (KBranchSummary {| br_fromId := default (js "root") f; br_summary := su; br_details := d;
            br_fromHook := h; br_usage := u |}) (set_leaf f s)).2).
    { intros Hl. assert (Hs1 : sound (set_leaf f s)) by (apply sound_set_leaf; [done|by intros i ->]).
      apply append_plain_sound; [done| |done]. eapply fresh_ids; [apply Hs|apply Hs1|done|done]. }
    destruct f as [f|]; [|by apply Hleaf]. destruct (has (byId s) f) eqn:E; [|done].
    apply Hleaf. by apply wf_has; [apply Hs|].
  - by apply flush_sound.
  - destruct Hs as (Hs & _ & Hio). split; [|split; [|done]].
    + by eapply log_part_settled; [|exact Hs].
    + by intros _ _ _ _ d.
Qed.

(** The engine does not change. *)
Lemma append_engine en k s : engine (append en k s).2 = engine s.
Proof. pose proof (append_log en k s) as Hl. unfold log_part in Hl. by injection Hl. Qed.
Lemma step_engine s s' : step s s' -> engine s' = engine s.
Proof.
  intros Hst. destruct Hst as [en c s _]. destruct c as [k|t l|t ch u o|f| |f su d h u| |]; cbn [run]; try done.
  - destruct (plain k); [apply append_engine|done].
  - unfold appendLabelChange, mbind, op_bind. cbn. destruct (has (byId s) t); cbn; [|done]. pose proof (append_engine en (KLabel t l) s) as He.
    destruct (append en (KLabel t l) s) as [[i|er] s']; cbn in *; [|done]. by destruct (apply_label _ _ _ _ _).
  - unfold appendChildUsageAttribution, mbind, op_bind. cbn. destruct (get (byId s) t) as [e|]; [|done]. destruct (is_assistant_kind (kind e)); [|done].
    apply (append_engine en _ (attributed t u s)).
  - unfold branch, mbind, op_bind. cbn. by destruct (has (byId s) f).
  - unfold branchWithSummary, mbind, op_bind. cbn. destruct f as [f|]; [destruct (has (byId s) f); [|done]|]; apply (append_engine en _ (set_leaf _ s)).
  - pose proof (keeps_flushNow s) as Hl. unfold log_part in Hl. by injection Hl.
Qed.

Lemma empty_sound E h file p : sound (empty_session E h file p []).
Proof.
  split; [|split; [|done]].
  - split; [apply empty_wf|split; [by exists h, []|done]|by intros t ?%elem_of_nil|by exists None].
  - by intros _ _ _ _ d.
Qed.

(** C15. Reopening a session restores it. While writes succeed, and whatever the operations were (the file may
    even have been deleted meanwhile), the bytes of a file that is up to date, cut into lines, decoded and
    parsed, load to exactly the log in memory, with the attributed usages; and indexing that log gives the
    entries, labels and label times the live manager holds. The entries must have a JSON text, and the engine
    must read its numbers and instants back. *)
Theorem session_reload (E : Engine) (h : SessionHeader) (file : option jsstr) (p : bool) (s : session)
    (HE : engine_ok E) (Hr : reachable (empty_session E h file p []) s) (Hok : Forall (entry_ok E) (fileEntries s)) :
  (persist s = true -> truthy (sessionFile s) = true -> flushed s = true ->
   forall d, disk s = Some d -> loadEntriesFromFile E (Some d) = Some (fileEntries s)) /\
  byId (buildIndex s) = byId s /\ labelsById (buildIndex s) = labelsById s /\
  labelTimestampsById (buildIndex s) = labelTimestampsById s.
Proof.
  assert (Hs : sound s /\ engine s = E).
  { clear Hok. induction Hr as [|s s' _ [IH1 IH2] Hst]; [split; [apply empty_sound|done]|].
    split; [by eapply step_sound|]. by rewrite (step_engine _ _ Hst). }
  destruct Hs as ((Hs & Hsv & _) & Hen). split.
  - assert (Hw : writable s) by (split; by rewrite Hen). intros H1 H2 H3 d Hd. rewrite <- Hen.
    apply (saved_loads s); try done; [apply (settled_closed s Hs)|by apply Hsv].
  - destruct (settled_index s Hs) as [leaf Hix]. unfold buildIndex. by rewrite Hix.
Qed.

Lemma demo_entries_ok : Forall (entry_ok ex_engine) (fileEntries (run demo_env (CAppend (KMessage demo_assistant)) demo_session)).
Proof. apply entries_check_ok. vm_compute. reflexivity. Qed.
Lemma session_reload_witness :
  engine_ok ex_engine /\ exists s, reachable (empty_session ex_engine demo_header (Some (js "f")) true []) s /\
    Forall (entry_ok ex_engine) (fileEntries s) /\ flushed s = true /\
    exists d, disk s = Some d /\ loadEntriesFromFile ex_engine (Some d) = Some (fileEntries s).
Proof.
  split; [exact ex_engine_ok|].
  set (s := run demo_env (CAppend (KMessage demo_assistant)) demo_session).
  assert (Hr : reachable (empty_session ex_engine demo_header (Some (js "f")) true []) s).
  { eapply reach_step; [apply reach_start|]. apply step_run. by apply demo_fresh. }
  exists s. split; [exact Hr|]. split; [exact demo_entries_ok|]. split; [reflexivity|]. eexists. split; [reflexivity|].
  exact (proj1 (session_reload ex_engine demo_header (Some (js "f")) true s ex_engine_ok Hr demo_entries_ok) eq_refl eq_refl eq_refl _ eq_refl).
Defined.

(** ** Failed writes *)

Lemma writes_true s : writes s -> persist s && truthy (sessionFile s) = true.
Proof. intros [-> ->]. done. Qed.
Lemma rewrite_spec s : writes s ->
  match rewriteFile s with
  | (inl _, s') => flushed s' = flushed s /\ disk s' = Some (file_content (engine s) (fileEntries s))
  | (inr _, s') => flushed s' = flushed s
  end.
Proof.
  intros Hw%writes_true. unfold rewriteFile, next_io, mbind, op_bind, gets, modify, mret, op_ret. rewrite Hw. cbn [negb].
  by destruct (io s) as [|[] ?].
Qed.
(** A flush leaves a file that is up to date alone and rewrites any other. *)
Lemma flush_spec s : writes s ->
  match flushNow s with
  | (inl _, s') => flushed s' = true /\
      disk s' = (if flushed s then disk s else None) ∪ Some (file_content (engine s) (fileEntries s))
  | (inr _, s') => flushed s' = flushed s
  end.
Proof.
  intros Hw. pose proof (rewrite_spec s Hw) as Hr. apply writes_true in Hw. unfold flushNow, mbind, op_bind, gets, modify, mret, op_ret in *. rewrite Hw. cbn [negb].
  destruct (flushed s) eqn:Ef, (disk s) eqn:Ed; cbn [andb]; rewrite ?bool_decide_true, ?bool_decide_false by (done || by intros []);
    try done; destruct (rewriteFile s) as [[]]; cbn; try done; destruct Hr as [_ ->]; done.
Qed.

(** The kinds of entries that wait for the first answer. *)
Definition waits (k : Kind) : bool := match k with KSessionState _ | KSessionInfo _ => false | _ => negb (is_assistant_kind k) end.
(** A write of such an entry. *)
Lemma persist_spec e s : writes s -> waits (kind e) = true ->
  match persist_entry e s with
  | (inl _, s') => if hasAssistantEntry s
      then flushed s' = true /\ disk s' = Some (match flushed s, disk s with
             | true, Some d => d ++ line_bytes (enc (engine s) (Entry e)) | _, _ => file_content (engine s) (fileEntries s) end)
      else flushed s' = false
  | (inr _, s') => True
  end.
Proof.
  intros Hw Hk. pose proof (rewrite_spec s Hw) as Hr. apply writes_true in Hw. unfold persist_entry, mbind, op_bind, gets, modify, mret, op_ret in *. rewrite Hw. cbn [negb].
  assert (match kind e with KSessionState _ | KSessionInfo _ => true | _ => false end = false) as -> by (by destruct (kind e)).
  destruct (hasAssistantEntry s); cbn [negb andb]; [|done].
  destruct (flushed s) eqn:Ef, (disk s) as [d|]; try (destruct (rewriteFile s) as [[]]; cbn; try done; by destruct Hr).
  unfold next_io. by destruct (io s) as [|[] ?].
Qed.

(** The bytes of the file after such an entry was written and flushed: its line is added to the file, or the file
    is written anew. *)
Definition file_after (e : SessionEntry) (s : session) : list N :=
  match flushed s && hasAssistantEntry s, disk s with
  | true, Some d => d ++ line_bytes (enc (engine s) (Entry e))
  | _, _ => file_content (engine s) (fileEntries s ++ [Entry e])
  end.
Lemma append_flushed en k s : waits k = true ->
  match (i ← append en k; flushNow ;; mret i) s with
  | (inl i, s') => i = generateId en (has (byId s)) /\ log_part s' = log_part (logged (new_entry en k s) s) /\
      (writes s -> flushed s' = true /\ disk s' = Some (file_after (new_entry en k s) s))
  | (inr _, s') => log_part s' = log_part (logged (new_entry en k s) s)
  end.
Proof.
  intros Hk. set (e := new_entry en k s). pose proof (append_log en k s) as Hl. fold e in Hl. unfold mbind, op_bind.
  assert (Happ : append en k s = match persist_entry e (logged e s) with (inl _, s') => (inl (e_id e), s') | (inr er, s') => (inr er, s') end) by reflexivity.
  rewrite Happ in *. pose proof (persist_spec e (logged e s)) as Hp. destruct (persist_entry e (logged e s)) as [[[]|er] s1]; cbn [snd] in Hl; [|done].
  pose proof (keeps_flushNow s1) as Hkf. pose proof (flush_spec s1) as Hf. destruct (flushNow s1) as [[[]|er] s2]; cbn [snd] in Hkf; [|by rewrite Hkf].
  split; [done|]. split; [by rewrite Hkf|]. intros Hw. specialize (Hp Hw Hk).
  assert (Hs1 : writes s1 /\ engine s1 = engine s /\ fileEntries s1 = fileEntries s ++ [Entry e]).
  { unfold writes in *. unfold log_part in Hl. injection Hl as ? ? ? ? ? ? -> -> ?. done. }
  destruct Hs1 as (Hw1 & HE1 & Hfs1). destruct (Hf Hw1) as [H1 H2]. split; [done|]. rewrite H2, HE1, Hfs1. unfold file_after.
  assert (Ha : is_assistant_kind k = false) by (by destruct k as [[]| | | | | | | | | | | | |]).
  cbn [hasAssistantEntry logged set_log] in Hp. change (kind e) with k in Hp. rewrite Ha, orb_false_r in Hp.
  destruct (hasAssistantEntry s); [|rewrite Hp; by rewrite andb_false_r]. destruct Hp as [-> ->]. cbn. by destruct (flushed s), (disk s).
Qed.

Lemma file_after_loads e s : settled s -> saved s -> writes s -> e_id e ∉ ids s -> attribution (Entry e) = None -> writable (logged e s) ->
  loadEntriesFromFile (engine s) (Some (file_after e s)) = Some (fileEntries s ++ [Entry e]).
Proof.
  intros Hs Hsv [Hp Hfi] Hn Ha Hw. destruct (closed_snoc_plain s e Hs Hn Ha) as [Hc Happ]. pose proof (Hsv (logged_writable e s Hw)) as Hsaved.
  destruct Hw as [HE Hok]. cbn in HE, Hok.
  assert (Hcontent : loadEntriesFromFile (engine s) (Some (file_content (engine s) (fileEntries s ++ [Entry e]))) = Some (fileEntries s ++ [Entry e])).
  { rewrite content_lines, load_log, (closed_load _ Hc) by (done || by destruct (fileEntries s)). done. }
  unfold file_after. destruct (flushed s) eqn:Efl, (hasAssistantEntry s), (disk s) as [d|] eqn:Ed; cbn [andb]; try exact Hcontent.
  destruct (Hsaved Hp Hfi Efl d Ed) as (raw & -> & Hl). destruct (settled_closed s Hs) as [(h & es & Hfs) _].
  pose proof Hok as Hok'. apply Forall_app in Hok' as [Hok1 Hok2].
  assert (Hlines : log_lines (engine s) raw ++ line_bytes (enc (engine s) (Entry e)) = log_lines (engine s) (raw ++ [Entry e])).
  { rewrite log_lines_app. f_equal. unfold log_lines. cbn. by rewrite app_nil_r. }
  rewrite Hfs in Hl, Hok1. rewrite Hlines, load_log by (done || (apply Forall_app; split; [by eapply loaded_ok|done])).
  destruct (load_append raw (Entry e) h es Hl) as [-> Hr]. f_equal. apply Happ. by rewrite Hr, Hfs.
Qed.

(** C19. An append under a rollback is all or nothing. When a write fails, in whatever way, the log, the index
    and the leaf are those of before, and the file is either marked for rewriting or has just been rewritten
    to that log. When it succeeds the entry is logged, and the file of a session that is written to one holds
    it: the line of the entry follows the bytes that were there, or the whole log is written anew; so a file
    that was up to date loads to the new log. *)
Theorem rollback_all_or_nothing (en : env) (customType : jsstr) (data : option json) (s : session)
    (Hw : wf s) (Hf : fresh en s) (Hhas : hasAssistantEntry s = existsb is_assistant_file_entry (fileEntries s)) :
  let e := new_entry en (KCustom customType data) s in
  let '(r, s') := appendCustomEntryWithRollback en customType data s in
  match r with
  | inr _ => log_part s' = log_part s /\
      (writes s -> flushed s' = true -> disk s' = Some (file_content (engine s) (fileEntries s)))
  | inl i => i = e_id e /\ log_part s' = log_part (logged e s) /\
      (writes s -> flushed s' = true /\ disk s' = Some (file_after e s) /\
        (settled s -> saved s -> writable s' -> loadEntriesFromFile (engine s) (disk s') = Some (fileEntries s ++ [Entry e])))
  end.
Proof.
  cbv zeta. unfold appendCustomEntryWithRollback, appendEntryWithRollback, appendCustomEntry.
  set (k := KCustom customType data). set (e := new_entry en k s).
  destruct (new_entry_fresh en k s Hw Hf) as [Hn Hne]. fold e in Hn, Hne.
  pose proof (append_flushed en k s eq_refl) as Hrun. fold e in Hrun.
  destruct ((i ← append en k; flushNow ;; mret i) s) as [[i|err] s2].
  - destruct Hrun as (Hi & Hl & Hd). split; [done|]. split; [done|]. intros Hwr. destruct (Hd Hwr) as [Hfl Hdisk]. split; [done|]. split; [done|].
    intros Hs Hsv [HE Hok]. unfold log_part in Hl. injection Hl as Hfs _ _ _ _ _ _ _ HEs. rewrite Hfs, HEs in *. rewrite Hdisk.
    by apply file_after_loads.
  - assert (Hparts : fileEntries s2 = fileEntries s ++ [Entry e] /\ byId s2 = set (byId s) (e_id e) e /\
      leafId s2 = Some (e_id e) /\ labelsById s2 = labelsById s /\ labelTimestampsById s2 = labelTimestampsById s /\
      persist s2 = persist s /\ sessionFile s2 = sessionFile s /\ engine s2 = engine s).
    { unfold log_part in Hrun. injection Hrun as ? ? ? ? ? ? ? ? ?. by split_and!. }
    destruct Hparts as (Hfs & Hb & Hlf & Hls & Hts & Hp & Hsf & HEs). rewrite Hlf.
    assert (Hleaf : bool_decide (Some (e_id e) <> None) && bool_decide (Some (e_id e) <> leafId s) = true).
    { apply andb_true_iff. rewrite !bool_decide_eq_true. split; [done|]. intros Heq. apply Hn. by apply (wf_leaf s Hw). }
    rewrite Hleaf. cbv zeta. rewrite Hfs, removelast_last, <- Hhas, Hb. cbn [default from_option Datatypes.id].
    assert (Hrem : remove (set (byId s) (e_id e) e) (e_id e) = byId s).
    { assert (e_id e ∉ (byId s).*1) by (by rewrite (wf_index s Hw), index_keys). by rewrite set_new, remove_last. }
    rewrite Hrem. set (s1 := set_flushed false (set_log _ _ _ _ s2)).
    assert (Hl1 : log_part s1 = log_part s) by (unfold log_part; simpl; by rewrite Hls, Hts, Hp, Hsf, HEs).
    pose proof (flush_spec s1) as Hfl. pose proof (keeps_flushNow s1) as Hk.
    destruct (flushNow s1) as [[[]|err'] s3]; cbn [snd] in Hk; [|by rewrite <- Hl1, <- Hk].
    split; [by rewrite Hk, <- Hl1|]. intros [H1 H2] _. destruct (Hfl ltac:(split; simpl; congruence)) as [_ ->]. simpl. by rewrite HEs.
Qed.

(** A disk that takes half of a line and then refuses every write. *)
Definition full_disk : session :=
  let s := run demo_env (CAppend (KMessage demo_assistant)) demo_session in
  set_disk (disk s) [WrittenPartly 40; Refused] s.
Definition demo_env2 : env := {| now := 1; uuid := fun i => js "next" ++ show_Z (Z.of_nat i) |}.

Lemma full_disk_wf : wf full_disk.
Proof.
  apply (log_part_wf (run demo_env (CAppend (KMessage demo_assistant)) demo_session)); [done|].
  apply (append_wf demo_env (KMessage demo_assistant) demo_session); [apply empty_wf|by apply demo_fresh].
Qed.
Lemma full_disk_fresh : fresh demo_env2 full_disk.
Proof. split; [by intros i; simpl|]. exists 0%nat. split; [lia|]. reflexivity. Qed.

(** A disk that takes everything. *)
Definition good_disk : session := run demo_env (CAppend (KMessage demo_assistant)) demo_session.
Lemma good_disk_sound : sound good_disk.
Proof. apply (step_sound demo_session); [apply empty_sound|]. apply step_run. by apply demo_fresh. Qed.
Lemma good_disk_fresh : fresh demo_env2 good_disk.
Proof. split; [by intros i; simpl|]. exists 0%nat. split; [lia|]. reflexivity. Qed.
Definition noted : session := (appendCustomEntryWithRollback demo_env2 (js "note") None good_disk).2.
Lemma noted_writable : writable noted.
Proof. split; [exact ex_engine_ok|]. apply entries_check_ok. vm_compute. reflexivity. Qed.

Lemma rollback_all_or_nothing_witness :
  (wf full_disk /\ fresh demo_env2 full_disk /\
   log_part (appendCustomEntryWithRollback demo_env2 (js "note") None full_disk).2 = log_part full_disk /\
   flushed (appendCustomEntryWithRollback demo_env2 (js "note") None full_disk).2 = false) /\
  (wf good_disk /\ fresh demo_env2 good_disk /\
   loadEntriesFromFile ex_engine (disk noted) = Some (fileEntries good_disk ++ [Entry (new_entry demo_env2 (KCustom (js "note") None) good_disk)])).
Proof.
  split.
  - split; [exact full_disk_wf|]. split; [exact full_disk_fresh|].
    pose proof (rollback_all_or_nothing demo_env2 (js "note") None full_disk full_disk_wf full_disk_fresh eq_refl) as H.
    assert (Hr : (appendCustomEntryWithRollback demo_env2 (js "note") None full_disk).1 = inr WriteFailed) by reflexivity.
    assert (Hf : flushed (appendCustomEntryWithRollback demo_env2 (js "note") None full_disk).2 = false) by reflexivity.
    split; [|exact Hf]. destruct (appendCustomEntryWithRollback demo_env2 (js "note") None full_disk) as [r s'].
    simpl in Hr. rewrite Hr in H. exact (proj1 H).
  - pose proof good_disk_sound as (Hs & Hsv & _). split; [exact (settled_wf _ Hs)|]. split; [exact good_disk_fresh|].
    pose proof (rollback_all_or_nothing demo_env2 (js "note") None good_disk (settled_wf _ Hs) good_disk_fresh eq_refl) as H.
    assert (Hr : (appendCustomEntryWithRollback demo_env2 (js "note") None good_disk).1 = inl (js "next0")) by (vm_compute; reflexivity).
    pose proof noted_writable as Hw. unfold noted in *. destruct (appendCustomEntryWithRollback demo_env2 (js "note") None good_disk) as [r s'].
    cbn [fst snd] in *. rewrite Hr in H. exact (proj2 (proj2 (proj2 (proj2 H) (conj eq_refl eq_refl))) Hs Hsv Hw).
Defined.

(** Without a rollback a failed append stays in the log, and the file keeps counting as up to date: the next
    entry is appended after the torn line, as the child of an entry the file does not have. *)
Example failed_append_orphans_the_next :
  let s0 := set_disk (disk full_disk) [WrittenPartly 40; Written] full_disk in
  let '(r1, s1) := append demo_env2 (KThinkingLevel (js "high")) s0 in
  let '(r2, s2) := append demo_env (KThinkingLevel (js "low")) s1 in
  let '(r3, s3) := append {| now := 3; uuid := fun _ => js "last" |} (KThinkingLevel (js "off")) s2 in
  r1 = inr WriteFailed /\ (exists i, r3 = inl i) /\ flushed s3 = true /\
  (fun e => e_id e) <$> getEntries s3 = [js "id0"; js "next0"; js "id1"; js "last"] /\
  omap entry_of <$> loadEntriesFromFile ex_engine (disk s3) =
    (fun es => omap entry_of es ++ [{| e_id := js "last"; parentId := Some (js "id1"); e_timestamp := 3; kind := KThinkingLevel (js "off") |}]) <$>
    loadEntriesFromFile ex_engine (disk full_disk).
Proof. vm_compute. split_and!; eauto. Qed.

(** ** The loader of the daemon *)

(** The loader that reads off the event loop loads what the other one loads: whatever the threshold beyond which
    the file is streamed, and however the stream is cut into chunks. *)
Theorem loaders_agree (E : Engine) (threshold : nat) (chunks : option (list (list N))) :
  loadEntriesFromFileAsync E threshold chunks = loadEntriesFromFile E (@concat N <$> chunks).
Proof.
  destruct chunks as [cs|]; [|done]. unfold loadEntriesFromFileAsync, loadEntriesFromFile. cbn [fmap option_fmap option_map]. destruct (Nat.ltb (length (concat cs)) threshold); [reflexivity|]. rewrite stream_lines. by rewrite parse_values.
Qed.
