(* ===== verification/SessionRepair.v ===== *)
(** * Crash damage in a session file (core/session-manager.ts)

    A crash leaves a torn last line, or bytes of zero where an append was to
    go. The file is repaired when it is opened, since the next append would
    become a part of the damaged line. *)

(* Source aliases:
   SM = src/packages/coding-agent/src/core/session-manager.ts *)

From S2P Require Import Prelude JsString JsNumber JsMap Messages Json FileLog FileLines SessionEntries SessionJson SessionTree SessionFacts SessionFile.

(** SM 718-725 parsesAsJson. *)
Definition parsesAsJson (line : list N) : bool := bool_decide (JSON_parse (buffer_toString line) <> None).

(** SM 610-610 REPAIR_SUSPICION_WINDOW_BYTES. *)
Definition REPAIR_SUSPICION_WINDOW_BYTES : N := (1024 * 1024)%N.

(** The bytes after the last line break of a buffer. *)
Definition last_line (bytes : list N) : list N := default [] (last (lines_of bytes)).

(** SM 613-639 tailLooksDamaged. What the last bytes of the file say; the file can be read. *)
Definition tailLooksDamaged (file : list N) : bool :=
  match file with
  | [] => false
  | _ =>
      let windowBytes := N.to_nat (N.min (N.of_nat (length file)) REPAIR_SUSPICION_WINDOW_BYTES) in
      let window := drop (length file - windowBytes) file in
      if bool_decide (0%N ∈ window) then true
      else if bool_decide (last window <> Some LF) then true
      else
        let before := removelast window in
        if bool_decide (LF ∉ before) && Nat.ltb windowBytes (length file) then true
        else let lastLine := last_line before in bool_decide (lastLine <> []) && negb (parsesAsJson lastLine)
  end.

(** SM 664-665 repairJsonlDamage. The bytes after the zeros a line begins with. *)
Fixpoint skip_zeros (line : list N) : list N := match line with 0%N :: line => skip_zeros line | _ => line end.
(** SM 661-688 repairJsonlDamage. One round, on the line [rest] begins with. *)
Definition repair_round (rest : list N) (keptLines : list (list N)) (dirty : bool) : list (list N) * bool :=
  let terminated := bool_decide (index_LF rest <> None) in
  let e := default (length rest) (index_LF rest) in
  let line := skip_zeros (take e rest) in
  let keep := if bool_decide (line <> []) && parsesAsJson line then keptLines ++ [line] else keptLines in
  if Nat.ltb (length line) (length (take e rest)) then (keep, true)
  else if negb terminated then (keep, true)
  else if Nat.leb (length rest) (S e) && bool_decide (line <> []) && negb (parsesAsJson line) then (keptLines, true)
  else (keptLines ++ [line], dirty).
(** SM 660-690 repairJsonlDamage. The loop from [start] on: the lines that are kept, and whether any was damaged. *)
Fixpoint repair_loop (fuel : nat) (rest : list N) (keptLines : list (list N)) (dirty : bool) : list (list N) * bool :=
  match fuel, rest with
  | S fuel, _ :: _ =>
      let '(kept, dirty) := repair_round rest keptLines dirty in
      repair_loop fuel (drop (S (default (length rest) (index_LF rest))) rest) kept dirty
  | _, _ => (keptLines, dirty)
  end.
(** SM 641-716 repairJsonlDamage. The file as the repair leaves it, when nobody else writes to it meanwhile and the
    new file can be written. *)
Definition repairJsonlDamage (file : list N) : list N :=
  if negb (tailLooksDamaged file) then file
  else
    let '(keptLines, dirty) := repair_loop (length file) file [] false in
    if negb dirty then file
    else match keptLines with [] => [] | _ => buffer_from (join [LF] (buffer_toString <$> keptLines) ++ [LF]) end.

(** SM 1496-1497 SessionManager.setSessionFile. Opening a file: the repair, then the loader. *)
Definition open_file (E : Engine) (file : list N) : option (list FileEntry) := loadEntriesFromFile E (Some (repairJsonlDamage file)).

(** ** What the repair keeps *)

(** The text of a value, as bytes. *)
Definition text_bytes (v : json) : list N := buffer_from (stringify v).
Lemma text_parses v : json_ok v -> buffer_toString (text_bytes v) = stringify v /\ parsesAsJson (text_bytes v) = true.
Proof.
  intros Hv. pose proof (line_text_stringify _ Hv) as Hl. unfold text_bytes.
  assert (Ht : buffer_toString (buffer_from (stringify v)) = stringify v) by (apply utf8_round_trip; [by apply line_text_wf|apply Hl]).
  split; [done|]. unfold parsesAsJson. rewrite Ht, JSON_parse_stringify by done. by apply bool_decide_eq_true.
Qed.
Lemma text_no_LF v : json_ok v -> LF ∉ text_bytes v.
Proof. intros Hv. by apply LF_of_buffer, line_text_LF, line_text_stringify. Qed.
Lemma text_head v : json_ok v -> is_obj v = true -> exists r, text_bytes v = 123%N :: r.
Proof. intros Hv Ho. destruct v; try done. unfold text_bytes. rewrite stringify_obj. by eexists. Qed.

Lemma skip_zeros_text v : json_ok v -> is_obj v = true -> forall more, skip_zeros (text_bytes v ++ more) = text_bytes v ++ more.
Proof. intros Hv Ho more. destruct (text_head v Hv Ho) as [r ->]. done. Qed.
Lemma skip_zeros_replicate k l : skip_zeros (replicate k 0%N ++ l) = skip_zeros l.
Proof. induction k as [|k IH]; [done|exact IH]. Qed.
Lemma index_LF_line a rest : LF ∉ a -> index_LF (a ++ LF :: rest) = Some (length a).
Proof. intros Ha. rewrite index_LF_app by done. cbn. by rewrite Nat.add_0_r. Qed.

Lemma text_nonempty v : json_ok v -> is_obj v = true -> bool_decide (text_bytes v <> []) = true.
Proof. intros Hv Ho. apply bool_decide_eq_true. destruct (text_head v Hv Ho) as [r ->]. done. Qed.

(** A round on a line that is whole, behind some zeros. *)
Lemma repair_line v zeros rest fuel kept dirty : json_ok v -> is_obj v = true ->
  repair_loop (S fuel) (replicate zeros 0%N ++ line_bytes v ++ rest) kept dirty =
  repair_loop fuel rest (kept ++ [text_bytes v]) (dirty || negb (zeros =? 0)%nat).
Proof.
  intros Hv Ho. set (z := replicate zeros 0%N). rewrite line_bytes_app by done. fold (text_bytes v). rewrite <- (assoc_L app). cbn [app]. rewrite (assoc_L app).
  assert (Hn : LF ∉ z ++ text_bytes v).
  { intros [Hz|Ht]%elem_of_app; [|by apply (text_no_LF v Hv)]. by apply elem_of_replicate in Hz as [Hz _]. }
  pose proof (index_LF_line (z ++ text_bytes v) rest Hn) as Hi.
  assert (Hs : skip_zeros (z ++ text_bytes v) = text_bytes v).
  { unfold z. by rewrite skip_zeros_replicate, <- (app_nil_r (text_bytes v)), skip_zeros_text. }
  assert (Hr : repair_round ((z ++ text_bytes v) ++ LF :: rest) kept dirty = (kept ++ [text_bytes v], dirty || negb (zeros =? 0)%nat)).
  { unfold repair_round. rewrite Hi. cbn [default from_option Datatypes.id]. rewrite take_app_length, Hs, (text_nonempty v Hv Ho), (proj2 (text_parses v Hv)).
    cbn [andb negb]. rewrite andb_false_r, length_app. unfold z. rewrite length_replicate. destruct zeros as [|zeros]; cbn [Nat.eqb negb].
    - rewrite Nat.ltb_irrefl, orb_false_r. by rewrite bool_decide_true.
    - rewrite (proj2 (Nat.ltb_lt _ _)) by lia. by rewrite orb_true_r. }
  assert (Hd : drop (S (length (z ++ text_bytes v))) ((z ++ text_bytes v) ++ LF :: rest) = rest).
  { rewrite drop_app_ge by lia. rewrite Nat.sub_succ_l, Nat.sub_diag by lia. done. }
  destruct ((z ++ text_bytes v) ++ LF :: rest) as [|b r]; [done|]. cbn [repair_loop]. rewrite Hr, Hi. cbn [default from_option Datatypes.id]. by rewrite Hd.
Qed.

(** A round on the last line when it has no line break. *)
Lemma repair_open tail fuel kept dirty : LF ∉ tail -> tail <> [] -> let line := skip_zeros tail in
  repair_loop (S fuel) tail kept dirty = (if bool_decide (line <> []) && parsesAsJson line then kept ++ [line] else kept, true).
Proof.
  intros Hn Hne line. apply index_LF_None in Hn. destruct tail as [|b r]; [done|]. set (tail := b :: r) in *.
  assert (Hr : repair_round tail kept dirty = (if bool_decide (line <> []) && parsesAsJson line then kept ++ [line] else kept, true)).
  { unfold repair_round. rewrite Hn. cbn [default from_option Datatypes.id]. rewrite take_ge by done. fold line. change (bool_decide (@None nat <> None)) with false.
    cbn [negb]. by destruct (Nat.ltb _ _). }
  cbn [repair_loop]. fold tail. rewrite Hr, Hn. cbn [default from_option Datatypes.id]. rewrite drop_ge by lia. by destruct fuel.
Qed.

(** The lines of a log are kept; what is behind them is left to do. *)
Lemma repair_lines vs tail : Forall json_ok vs -> Forall (fun v => is_obj v = true) vs -> forall kept fuel, (length (log_bytes vs ++ tail) <= fuel)%nat ->
  exists fuel', (length tail <= fuel')%nat /\ repair_loop fuel (log_bytes vs ++ tail) kept false = repair_loop fuel' tail (kept ++ (text_bytes <$> vs)) false.
Proof.
  intros Hvs Hobj. induction Hvs as [|v vs Hv _ IH]; intros kept fuel Hf; [exists fuel; split; [done|by rewrite app_nil_r]|].
  apply Forall_cons in Hobj as [Ho Hobj]. change (log_bytes (v :: vs)) with (line_bytes v ++ log_bytes vs) in *. rewrite <- (assoc_L app) in *.
  destruct fuel as [|fuel]; [rewrite (line_bytes_app v Hv), !length_app in Hf; cbn in Hf; lia|].
  pose proof (repair_line v 0 (log_bytes vs ++ tail) fuel kept false Hv Ho) as Hr. cbn [replicate app Nat.eqb negb orb] in Hr. rewrite Hr. destruct (IH Hobj (kept ++ [text_bytes v]) fuel) as (fuel' & Hf' & ->).
  - rewrite !length_app, (line_bytes_app v Hv), !length_app in Hf. cbn in Hf. rewrite length_app. lia.
  - exists fuel'. split; [done|]. by rewrite fmap_cons, <- (assoc_L app).
Qed.

(** ** Which files are suspected *)

Lemma window_last (file : list N) n : file <> [] -> (0 < n)%nat -> (n <= length file)%nat -> last (drop (length file - n) file) = last file.
Proof.
  intros Hne H1 H2. rewrite <- (take_drop (length file - n) file) at 3. rewrite last_app. destruct (last (drop _ file)) eqn:El; [done|].
  apply last_None, (f_equal length) in El. rewrite length_drop in El. cbn in El. destruct file; [done|]. cbn in *. lia.
Qed.
(** A file that does not end with a line break is. *)
Lemma open_suspected file : file <> [] -> last file <> Some LF -> tailLooksDamaged file = true.
Proof.
  intros Hne Hl. unfold tailLooksDamaged. destruct file as [|b r]; [done|]. set (file := b :: r) in *.
  set (w := N.to_nat _). assert (Hw : (0 < w <= length file)%nat).
  { unfold w, REPAIR_SUSPICION_WINDOW_BYTES. assert (0 < length file)%nat by (cbn; lia). lia. }
  rewrite (window_last file w) by (done || lia). case_bool_decide; [done|]. by rewrite bool_decide_true.
Qed.
(** So is one with zeros before its last line. *)
Lemma zeros_suspected a zeros text : LF ∉ text -> (0 < zeros)%nat -> tailLooksDamaged (a ++ replicate zeros 0%N ++ text ++ [LF]) = true.
Proof.
  intros Ht Hz. set (file := a ++ replicate zeros 0%N ++ text ++ [LF]).
  assert (Hlen : length file = (length a + zeros + length text + 1)%nat) by (unfold file; rewrite !length_app, length_replicate; cbn; lia).
  unfold tailLooksDamaged. destruct file as [|b r] eqn:Ef; [cbn in Hlen; lia|]. rewrite <- Ef in *. set (w := N.to_nat _).
  assert (Hw : (0 < w <= length file)%nat) by (unfold w, REPAIR_SUSPICION_WINDOW_BYTES; lia). clearbody w. clear b r Ef.
  assert (Hfn : file <> []) by (intros He; rewrite He in Hlen; cbn in Hlen; lia).
  case_bool_decide as H0; [done|]. rewrite (window_last file w) by (lia || done).
  assert (last file = Some LF) as -> by (unfold file; by rewrite !(assoc_L app), last_snoc). rewrite bool_decide_false by (intros H; by apply H).
  assert (Hin : (length a + zeros <= length file - w)%nat).
  { destruct (decide (length a + zeros <= length file - w)%nat) as [|Hlt]; [done|]. exfalso. apply H0. unfold file at 2. rewrite !(assoc_L app), <- (assoc_L app).
    apply list_elem_of_lookup. exists (length a + zeros - 1 - (length file - w))%nat. rewrite lookup_drop, lookup_app_l by (rewrite length_app, length_replicate; lia).
    rewrite lookup_app_r by lia. apply lookup_replicate. lia. }
  assert (Hb : exists k, removelast (drop (length file - w) file) = drop k text).
  { exists (length file - w - (length a + zeros))%nat. unfold file at 2. rewrite (assoc_L app), drop_app_ge by (rewrite length_app, length_replicate; lia).
    rewrite length_app, length_replicate, drop_app_le by lia. by rewrite removelast_last. }
  destruct Hb as [k ->]. rewrite bool_decide_true; [|intros Hk; apply Ht; rewrite <- (take_drop k text); apply elem_of_app; by right].
  rewrite (proj2 (Nat.ltb_lt _ _)) by lia. done.
Qed.

(** ** Opening after a crash *)

(** What a crash leaves of an append, and what a later append makes of it: a part of the line, zeros in the place of
    the line, or a line behind such zeros. *)
Inductive crash_tail (line : list N) : list N -> Prop :=
| torn n : crash_tail line (take n line)
| zeroed k : crash_tail line (replicate k 0%N)
| behind_zeros k : crash_tail line (replicate k 0%N ++ line).

Lemma enc_obj E f : exists fs, enc E f = JObj fs.
Proof. pose proof (enc_is_obj E f) as H. destruct (enc E f); try done. by eexists. Qed.

Section repair.
Context (E : Engine) (HE : engine_ok E).

Lemma values_ok fs : Forall (entry_ok E) fs -> Forall json_ok (enc E <$> fs) /\ Forall (fun v => is_obj v = true) (enc E <$> fs).
Proof. intros H. split; [by apply entries_json_ok|]. apply Forall_fmap, Forall_forall. intros g _. apply enc_is_obj. Qed.

(** A log that is not damaged stays. *)
Lemma repair_clean fs : Forall (entry_ok E) fs -> repairJsonlDamage (log_lines E fs) = log_lines E fs.
Proof.
  intros Hok. destruct (values_ok fs Hok) as [H1 H2]. unfold repairJsonlDamage. destruct (tailLooksDamaged _); [|done]. cbn [negb].
  destruct (repair_lines _ [] H1 H2 [] (length (log_lines E fs))) as (fuel & _ & Hr); [by rewrite app_nil_r|]. rewrite app_nil_r in Hr. fold (log_lines E fs) in Hr.
  rewrite Hr. by destruct fuel.
Qed.

(** What is written when the lines of a log are kept. *)
Lemma repair_writes file fs kept : fs <> [] -> Forall (entry_ok E) fs -> tailLooksDamaged file = true ->
  repair_loop (length file) file [] false = (kept, true) -> buffer_toString <$> kept = stringify <$> (enc E <$> fs) ->
  repairJsonlDamage file = log_lines E fs.
Proof.
  intros Hne Hok Hs Hr Hk. unfold repairJsonlDamage. rewrite Hs, Hr. cbn [negb]. destruct kept as [|k ks]; [by destruct fs|].
  rewrite <- content_lines by done. unfold file_content. by rewrite Hk, <- list_fmap_compose.
Qed.
Lemma texts_back fs : Forall (entry_ok E) fs -> buffer_toString <$> (text_bytes <$> (enc E <$> fs)) = stringify <$> (enc E <$> fs).
Proof.
  intros Hok. rewrite <- list_fmap_compose. apply list_fmap_ext. intros i v Hv. apply text_parses.
  apply list_lookup_fmap_Some in Hv as (g & -> & Hg). rewrite Forall_forall in Hok. by eapply Hok, list_elem_of_lookup_2.
Qed.

Context (log : list FileEntry) (f : FileEntry) (Hne : log <> []) (Hok : Forall (entry_ok E) (log ++ [f])).

(** A last line without its break. *)
Lemma repair_torn tail : LF ∉ tail -> tail <> [] ->
  let line := skip_zeros tail in
  let file := log_lines E log ++ tail in
  repair_loop (length file) file [] false =
    (if bool_decide (line <> []) && parsesAsJson line then (text_bytes <$> (enc E <$> log)) ++ [line] else text_bytes <$> (enc E <$> log), true) /\
    tailLooksDamaged file = true.
Proof.
  intros Hn Ht line file. apply Forall_app in Hok as [Hlog _]. destruct (values_ok log Hlog) as [H1 H2].
  destruct (repair_lines _ tail H1 H2 [] (length file)) as (fuel & Hf & Hr); [done|]. fold (log_lines E log) in Hr. unfold file in *. rewrite Hr.
  destruct fuel as [|fuel]; [destruct tail; [done|cbn in Hf; lia]|]. rewrite (repair_open tail fuel _ _ Hn Ht). split; [done|]. apply open_suspected.
  - by destruct (log_lines E log), tail.
  - rewrite last_app. destruct (last tail) as [b|] eqn:El; [|by apply last_None in El]. intros [= ->]. apply Hn. apply last_Some in El as [l ->]. set_solver.
Qed.

Lemma repair_tail t : crash_tail (line_bytes (enc E f)) t -> exists kept, (kept = log \/ kept = log ++ [f]) /\
  repairJsonlDamage (log_lines E log ++ t) = log_lines E kept.
Proof.
  pose proof Hok as Hok'. apply Forall_app in Hok' as [Hlog Hf]. apply Forall_cons in Hf as [Hf _].
  assert (Hline : log_lines E log ++ line_bytes (enc E f) = log_lines E (log ++ [f])) by (rewrite log_lines_app; unfold log_lines at 3; cbn; by rewrite app_nil_r).
  assert (Hnil : exists kept, (kept = log \/ kept = log ++ [f]) /\ repairJsonlDamage (log_lines E log ++ []) = log_lines E kept).
  { exists log. split; [by left|]. rewrite app_nil_r. by apply repair_clean. }
  assert (Hall : exists kept, (kept = log \/ kept = log ++ [f]) /\ repairJsonlDamage (log_lines E log ++ line_bytes (enc E f)) = log_lines E kept).
  { exists (log ++ [f]). split; [by right|]. rewrite Hline. by apply repair_clean. }
  intros [n|k|k].
  - destruct (decide (drop n (line_bytes (enc E f)) = [])) as [Hd|Hd].
    { assert (take n (line_bytes (enc E f)) = line_bytes (enc E f)) as ->; [|exact Hall].
      rewrite <- (take_drop n (line_bytes (enc E f))) at 2. by rewrite Hd, app_nil_r. }
    destruct (decide (take n (line_bytes (enc E f)) = [])) as [->|Ht]; [exact Hnil|]. set (tail := take n _) in *.
    assert (Hl : line_bytes (enc E f) = tail ++ drop n (line_bytes (enc E f))) by (symmetry; apply take_drop).
    set (more := drop n (line_bytes (enc E f))) in *. clearbody tail more. clear Hall Hline.
    assert (Hn : LF ∉ tail).
    { rewrite line_bytes_app in Hl by exact Hf. destruct (exists_last Hd) as (m & x & Hm). rewrite Hm, (assoc_L app) in Hl. apply app_inj_tail in Hl as [Hl _].
      intros Hin. apply (text_no_LF _ Hf). unfold text_bytes. rewrite Hl. set_solver. }
    destruct (text_head _ Hf (enc_is_obj E f)) as [r Hhead].
    assert (Hz : skip_zeros tail = tail).
    { rewrite line_bytes_app in Hl by exact Hf. fold (text_bytes (enc E f)) in Hl. rewrite Hhead in Hl. destruct tail as [|b tl]; [done|]. by injection Hl as <- _. }
    destruct (repair_torn tail Hn Ht) as [Hr Hs]. rewrite Hz in Hr. rewrite bool_decide_true in Hr by done. cbn [andb] in Hr.
    destruct (enc_obj E f) as [fs Hfs]. assert (Hj : json_ok (enc E f)) by exact Hf. rewrite Hfs in Hj, Hl. destruct (torn_line fs tail _ Hj Hl Hd) as [|[Htext|[_ Hbad]]]; [done|..].
    + exists (log ++ [f]). split; [by right|]. unfold parsesAsJson in Hr. rewrite Htext, JSON_parse_stringify, bool_decide_true in Hr by done.
      eapply repair_writes; [by destruct log|done|exact Hs|exact Hr|]. rewrite !fmap_app. cbn. rewrite Htext, Hfs. f_equal. by apply texts_back.
    + exists log. split; [by left|]. unfold parsesAsJson in Hr. rewrite Hbad, bool_decide_false in Hr by (intros H; by apply H).
      eapply repair_writes; [done|done|exact Hs|exact Hr|by apply texts_back].
  - destruct k as [|k]; [exact Hnil|]. exists log. split; [by left|].
    destruct (repair_torn (replicate (S k) 0%N)) as [Hr Hs]; [by intros [H _]%elem_of_replicate|done|].
    rewrite <- (app_nil_r (replicate (S k) 0%N)), skip_zeros_replicate, app_nil_r in Hr. cbn [skip_zeros] in Hr. rewrite bool_decide_false in Hr by (intros H; by apply H).
    cbn [andb] in Hr. eapply repair_writes; [done|done|exact Hs|exact Hr|by apply texts_back].
  - destruct k as [|k]; [exact Hall|]. exists (log ++ [f]). split; [by right|].
    pose proof (zeros_suspected (log_lines E log) (S k) (text_bytes (enc E f)) (text_no_LF _ Hf) ltac:(lia)) as Hs. unfold text_bytes in Hs.
    rewrite <- line_bytes_app in Hs by exact Hf. destruct (values_ok log Hlog) as [H1 H2].
    destruct (repair_lines _ (replicate (S k) 0%N ++ line_bytes (enc E f)) H1 H2 [] (length (log_lines E log ++ replicate (S k) 0%N ++ line_bytes (enc E f)))) as (fuel & Hfu & Hr); [done|].
    fold (log_lines E log) in Hr. destruct fuel as [|fuel]; [cbn in Hfu; lia|].
    pose proof (fun kept => repair_line (enc E f) (S k) [] fuel kept false Hf (enc_is_obj E f)) as Hround. rewrite app_nil_r in Hround. rewrite Hround in Hr.
    eapply repair_writes; [by destruct log|done|exact Hs|rewrite Hr; by destruct fuel|]. cbn [app]. rewrite !fmap_app. cbn. f_equal; [by apply texts_back|].
    by rewrite (proj1 (text_parses _ Hf)).
Qed.
End repair.

(** C36. Opening a session file after a crash. Behind the whole lines of a log a crash leaves a part of the line of an
    append, zeros in its place, or (once another process has written) a line behind such zeros: whatever is left, the
    file is repaired to the lines of the log, with the entry of that append or without it, it loads to that log, and
    the next entry that is appended is loaded too. Nobody else may write to the file during the repair, and the
    entries must have a JSON text. *)
Theorem session_repair (E : Engine) (log : list FileEntry) (f g : FileEntry) (tail : list N) (HE : engine_ok E)
    (Hne : log <> []) (Hok : Forall (entry_ok E) (log ++ [f])) (Hg : entry_ok E g)
    (Ht : crash_tail (line_bytes (enc E f)) tail) :
  let file := log_lines E log ++ tail in
  exists kept, (kept = log \/ kept = log ++ [f]) /\
    repairJsonlDamage file = log_lines E kept /\
    open_file E file = Some (finalizeLoadedEntries kept) /\
    loadEntriesFromFile E (Some (repairJsonlDamage file ++ line_bytes (enc E g))) = Some (finalizeLoadedEntries (kept ++ [g])).
Proof.
  cbv zeta. destruct (repair_tail E HE log f Hne Hok tail Ht) as (kept & Hk & Hr). exists kept. split; [done|]. split; [done|].
  assert (Hkept : Forall (entry_ok E) kept) by (destruct Hk as [-> | ->]; [by apply Forall_app in Hok as [Hok _]|done]).
  unfold open_file. rewrite Hr. split; [by apply load_log|].
  assert (Hline : log_lines E kept ++ line_bytes (enc E g) = log_lines E (kept ++ [g])) by (rewrite log_lines_app; unfold log_lines at 3; cbn; by rewrite app_nil_r).
  rewrite Hline. apply load_log; [done|]. apply Forall_app. split; [done|]. by constructor.
Qed.

Definition ex_log : list FileEntry := fileEntries good_disk.
Definition ex_entry (n : string) : FileEntry := Entry {| e_id := js n; parentId := Some (js "id0"); e_timestamp := 7%Z; kind := KThinkingLevel (js "high") |}.
Lemma ex_log_ok : Forall (entry_ok ex_engine) (ex_log ++ [ex_entry "a"]).
Proof. apply entries_check_ok. vm_compute. reflexivity. Qed.
Lemma ex_entry_ok : entry_ok ex_engine (ex_entry "b").
Proof. apply json_check_ok. vm_compute. reflexivity. Qed.

Lemma session_repair_witness :
  engine_ok ex_engine /\ ex_log <> [] /\ crash_tail (line_bytes (enc ex_engine (ex_entry "a"))) (take 40 (line_bytes (enc ex_engine (ex_entry "a")))) /\
  exists kept, (kept = ex_log \/ kept = ex_log ++ [ex_entry "a"]) /\
    open_file ex_engine (log_lines ex_engine ex_log ++ take 40 (line_bytes (enc ex_engine (ex_entry "a")))) = Some (finalizeLoadedEntries kept).
Proof.
  assert (Hne : ex_log <> []) by discriminate.
  split; [exact ex_engine_ok|]. split; [exact Hne|]. split; [apply torn|].
  destruct (session_repair ex_engine ex_log (ex_entry "a") (ex_entry "b") (take 40 (line_bytes (enc ex_engine (ex_entry "a"))))
    ex_engine_ok Hne ex_log_ok ex_entry_ok (torn _ 40)) as (kept & Hk & _ & Ho & _).
  exists kept. exact (conj Hk Ho).
Defined.

(** Without the repair an entry that is appended after a torn line is lost with it. *)
Example torn_poisons_next :
  let file := log_lines ex_engine ex_log ++ take 40 (line_bytes (enc ex_engine (ex_entry "a"))) in
  let next := line_bytes (enc ex_engine (ex_entry "b")) in
  loadEntriesFromFile ex_engine (Some (file ++ next)) = Some (finalizeLoadedEntries ex_log) /\
  loadEntriesFromFile ex_engine (Some (repairJsonlDamage file ++ next)) = Some (finalizeLoadedEntries (ex_log ++ [ex_entry "b"])).
Proof. vm_compute. split; reflexivity. Qed.
(** A last line that lacks only its break is kept. *)
Example torn_break_kept :
  let line := line_bytes (enc ex_engine (ex_entry "a")) in
  repairJsonlDamage (log_lines ex_engine ex_log ++ removelast line) = log_lines ex_engine (ex_log ++ [ex_entry "a"]).
Proof. vm_compute. reflexivity. Qed.
