(* ===== verification/SessionContext.v ===== *)
(** * The context of a session (core/session-manager.ts, [buildSessionContext])

    What the model is sent: the messages of the branch, with everything before
    the last compaction's first kept entry replaced by its summary, and the
    model and thinking settings in force at the leaf. *)

(* Source aliases:
   SM = src/packages/coding-agent/src/core/session-manager.ts *)

From S2P Require Import Prelude JsString JsNumber JsMap Messages SessionEntries SessionTree SessionFacts.
Local Open Scope Z_scope.

(** SM 242-247 SessionContext. *)
Record SessionContext := {
  messages : list AgentMessage; ctx_thinkingLevel : jsstr; ctx_serviceTier : jsstr;
  ctx_model : option (jsstr * jsstr) }.

(** SM 457-457 buildSessionContext. *)
Definition empty_context : SessionContext :=
  {| messages := []; ctx_thinkingLevel := js "off"; ctx_serviceTier := js "default"; ctx_model := None |}.

(** SM 484-496 buildSessionContext. The settings, after one more entry of the path. *)
Definition apply_settings (c : SessionContext) (e : SessionEntry) : SessionContext :=
  let keep t s m := {| messages := messages c; ctx_thinkingLevel := t; ctx_serviceTier := s; ctx_model := m |} in
  match kind e with
  | KThinkingLevel l => keep l (ctx_serviceTier c) (ctx_model c)
  | KServiceTier t => keep (ctx_thinkingLevel c) t (ctx_model c)
  | KModel p m => keep (ctx_thinkingLevel c) (ctx_serviceTier c) (Some (p, m))
  | KMessage (Assistant a) => keep (ctx_thinkingLevel c) (ctx_serviceTier c) (Some (provider a, model a))
  | _ => c
  end.

Definition compaction_of (e : SessionEntry) : option Compaction :=
  match kind e with KCompaction c => Some c | _ => None end.

(** SM 493-495 buildSessionContext. The last compaction of the path. *)
Definition last_compaction (path : list SessionEntry) : option (SessionEntry * Compaction) :=
  foldl (fun acc e => match compaction_of e with Some c => Some (e, c) | None => acc end) None path.

(** SM 434-441 getLatestCompactionEntry. *)
Definition getLatestCompactionEntry (entries : list SessionEntry) : option SessionEntry :=
  List.find (fun e => bool_decide (is_Some (compaction_of e))) (reverse entries).

(** SM 503-513 buildSessionContext. The message an entry puts into the context. *)
Definition entry_message (e : SessionEntry) : option AgentMessage :=
  match kind e with
  | KMessage m => Some m
  | KCustomMessage c =>
      Some (Custom (createCustomMessage (cm_customType c) (cm_content c) (cm_display c) (cm_details c) (e_timestamp e)))
  | KBranchSummary b =>
      if truthy (Some (br_summary b))
      then Some (BranchSummary (createBranchSummaryMessage (br_summary b) (br_fromId b) (e_timestamp e))) else None
  | _ => None
  end.

(** SM 522-531 buildSessionContext. The entries from the first kept one on. *)
Fixpoint from_id (i : jsstr) (path : list SessionEntry) : list SessionEntry :=
  match path with
  | [] => []
  | e :: rest => if decide (e_id e = i) then path else from_id i rest
  end.

(** SM 516-516 buildSessionContext. *)
Definition compaction_index (i : jsstr) (path : list SessionEntry) : nat :=
  default 0%nat (fst <$> list_find (fun e => is_Some (compaction_of e) /\ e_id e = i) path).

(** SM 533-543 buildSessionContext. *)
Definition summary_message (e : SessionEntry) (c : Compaction) (retained : nat) : AgentMessage :=
  CompactionSummary (createCompactionSummaryMessage (cmp_summary c) (cmp_tokensBefore c) (e_timestamp e)
    (cmp_customInstructions c) (Some (Z.of_nat retained)) (cmp_harnessDigest c) (cmp_harnessStateFingerprint c)).

(** SM 501-554 buildSessionContext. *)
Definition path_messages (path : list SessionEntry) : list AgentMessage :=
  match last_compaction path with
  | Some (e, c) =>
      let compactionIdx := compaction_index (e_id e) path in
      let retainedMessages := omap entry_message (from_id (firstKeptEntryId c) (take compactionIdx path)) in
      [summary_message e c (length retainedMessages)] ++ retainedMessages ++ omap entry_message (drop (S compactionIdx) path)
  | None => omap entry_message path
  end.

(** SM 479-556 buildSessionContext. *)
Definition path_context (path : list SessionEntry) : SessionContext :=
  let c := foldl apply_settings empty_context path in
  {| messages := path_messages path; ctx_thinkingLevel := ctx_thinkingLevel c;
     ctx_serviceTier := ctx_serviceTier c; ctx_model := ctx_model c |}.

(** SM 443-557 buildSessionContext. The leaf is undefined ([None]), null ([Some None]) or an id; [None] is
    returned when the walk to the root does not end. *)
Definition buildSessionContext (entries : list SessionEntry) (leafId : option (option jsstr))
    (index : option (jsmap jsstr SessionEntry)) : option SessionContext :=
  let ix := match index with Some ix => ix | None => foldl (fun m e => set m (e_id e) e) [] entries end in
  let leaf := match leafId with Some (Some i) => if truthy (Some i) then get ix i else None | _ => None end in
  let leaf := match leaf with Some e => Some e | None => last entries end in
  match leafId with
  | Some None => Some empty_context
  | _ =>
      match leaf with
      | None => Some empty_context
      | Some e => (fun p => path_context (reverse p)) <$> walk (S (length ix)) ix (Some e)
      end
  end.

(** SM 2136-2144 SessionManager.buildSessionContext. The entries only matter when the leaf is not in the
    index; then the header alone, of which nothing is shown, gives what an empty list gives. *)
Definition session_context (s : session) : option SessionContext :=
  buildSessionContext (getEntries s) (Some (leafId s)) (Some (byId s)).

(** SM 2001-2012 SessionManager.getLatestAgentStatus. The walk reads the branch from the leaf up. *)
Definition getLatestAgentStatus (s : session) : option (option AgentStatus) :=
  (fun p => head (omap (fun e => match kind e with KAgentStatus st => Some st | _ => None end) p)) <$>
    walk (length (byId s)) (byId s) (getLeafEntry s).

(** SM 1991-1999 SessionManager.getActiveGitContext. *)
Definition getActiveGitContext (s : session) : option (option json) :=
  (fun p => match head (omap (fun e => match kind e with KGitState g => Some g | _ => None end) p) with
            | Some g => Some g
            | None => match fileEntries s with Header h :: _ => git h | _ => None end
            end) <$>
    walk (length (byId s)) (byId s) (getLeafEntry s).

(** SM 1982-1989 SessionManager.recordGitStateIfChanged. The git context of the directory ([captureGitContext])
    and the test whether two are equal are the environment's. *)
Definition recordGitStateIfChanged (en : env) (same : json -> json -> bool) (captured : option json) (s : session)
    : option ((option jsstr + error) * session) :=
  if negb (persist s) then Some (inl None, s)
  else match captured with
  | None => Some (inl None, s)
  | Some g =>
      last ← getActiveGitContext s;
      if match last with Some g0 => same g0 g | None => false end then Some (inl None, s)
      else Some ((i ← appendGitState en g; mret (Some i)) s)
  end.

(** ** What the context holds *)

Lemma last_compaction_snoc path e :
  last_compaction (path ++ [e]) = match compaction_of e with Some c => Some (e, c) | None => last_compaction path end.
Proof. unfold last_compaction. by rewrite foldl_app. Qed.

Lemma last_compaction_spec path :
  match last_compaction path with
  | None => Forall (fun e => compaction_of e = None) path
  | Some (e, c) => exists pre post, path = pre ++ e :: post /\ compaction_of e = Some c /\
      Forall (fun e => compaction_of e = None) post
  end.
Proof.
  induction path as [|e path IH] using rev_ind; [constructor|]. rewrite last_compaction_snoc.
  destruct (compaction_of e) as [c|] eqn:E; [by exists path, []|].
  destruct (last_compaction path) as [[e' c']|].
  - destruct IH as (pre & post & -> & Hc & Hf). exists pre, (post ++ [e]). rewrite <- (assoc_L app). simpl.
    split_and!; [done..|]. apply Forall_app. by split; [|apply Forall_singleton].
  - apply Forall_app. by split; [|apply Forall_singleton].
Qed.

Lemma compaction_index_first e c pre post : compaction_of e = Some c -> e_id e ∉ e_id <$> pre ->
  compaction_index (e_id e) (pre ++ e :: post) = length pre.
Proof.
  intros Hc Hn. unfold compaction_index. rewrite list_find_app_r.
  - cbn [list_find]. rewrite decide_True by (split; [by exists c|done]). done.
  - apply list_find_None, Forall_forall. intros x Hx [_ Heq]. apply Hn. rewrite <- Heq. by apply list_elem_of_fmap_2.
Qed.

(** A path with its last compaction. *)
Lemma path_messages_split pre e c post : compaction_of e = Some c -> e_id e ∉ e_id <$> pre ->
  Forall (fun e => compaction_of e = None) post ->
  path_messages (pre ++ e :: post) =
    let kept := omap entry_message (from_id (firstKeptEntryId c) pre) in
    [summary_message e c (length kept)] ++ kept ++ omap entry_message post.
Proof.
  intros Hc Hn Hp. unfold path_messages.
  assert (last_compaction (pre ++ e :: post) = Some (e, c)) as ->.
  { induction post as [|x post IH] using rev_ind; [by rewrite last_compaction_snoc, Hc|].
    apply Forall_app in Hp as [Hp [Hx _]%Forall_cons].
    change (e :: post ++ [x]) with ((e :: post) ++ [x]). rewrite (assoc_L app), last_compaction_snoc.
    rewrite Hx. by apply IH. }
  rewrite (compaction_index_first e c pre post Hc Hn), take_app_length. cbv zeta. do 3 f_equal.
  change (e :: post) with ([e] ++ post). rewrite (assoc_L app). apply drop_app_length'. rewrite length_app. simpl. lia.
Qed.

Lemma entry_message_compaction e c : compaction_of e = Some c -> entry_message e = None.
Proof. unfold compaction_of, entry_message. by destruct (kind e). Qed.

(** One more entry that is not a compaction adds its message. *)
Lemma path_messages_snoc path e : compaction_of e = None ->
  path_messages (path ++ [e]) = path_messages path ++ option_list (entry_message e).
Proof.
  intros He. unfold path_messages. rewrite last_compaction_snoc, He.
  assert (Hs : omap entry_message [e] = option_list (entry_message e)) by (simpl; by destruct (entry_message e)).
  pose proof (last_compaction_spec path) as H. destruct (last_compaction path) as [[e' c]|].
  2:{ by rewrite omap_app, Hs. }
  destruct H as (pre & post & Hpath & Hc & Hf).
  assert (Hi : exists i x, list_find (fun e => is_Some (compaction_of e) /\ e_id e = e_id e') path = Some (i, x)).
  { destruct (list_find_elem_of (fun e => is_Some (compaction_of e) /\ e_id e = e_id e') path e') as [[i x] Hix].
    - rewrite Hpath. set_solver.
    - split; [by exists c|done].
    - by exists i, x. }
  destruct Hi as (i & x & Hi). unfold compaction_index.
  rewrite (list_find_app_l _ path [e] i x Hi), Hi. simpl.
  apply list_find_Some in Hi as (Hi & _ & _). apply lookup_lt_Some in Hi.
  rewrite take_app_le by lia. rewrite drop_app_le, omap_app, Hs by lia. by rewrite (assoc_L app).
Qed.

Lemma path_settings_snoc path e : foldl apply_settings empty_context (path ++ [e]) =
  apply_settings (foldl apply_settings empty_context path) e.
Proof. by rewrite foldl_app. Qed.

(** ** The context of a session *)

Lemma walk_ids_nodup s pre e post fuel l : wf s -> getEntries s = pre ++ e :: post ->
  walk fuel (byId s) (Some e) = Some l -> NoDup (e_id <$> l).
Proof.
  intros Hw. revert pre e post fuel l. induction pre as [pre IH] using (induction_ltof1 _ length). unfold ltof in IH.
  intros e post fuel l Hes Hl. destruct fuel as [|fuel]; [done|].
  change (cons e <$> walk fuel (byId s) (parent_of (byId s) e) = Some l) in Hl.
  destruct (walk fuel (byId s) (parent_of (byId s) e)) as [l'|] eqn:E; [|done]. injection Hl as <-.
  rewrite fmap_cons. apply list.NoDup_cons.
  unfold parent_of in E. destruct (truthy (parentId e)) eqn:Et.
  2:{ destruct fuel; injection E as <-; split; [apply not_elem_of_nil|apply NoDup_nil_2|apply not_elem_of_nil|apply NoDup_nil_2]. }
  destruct (parentId e) as [p|] eqn:Ep; [|done]. simpl in E.
  destruct (get (byId s) p) as [e'|] eqn:Eg.
  2:{ destruct fuel; injection E as <-; split; [apply not_elem_of_nil|apply NoDup_nil_2|apply not_elem_of_nil|apply NoDup_nil_2]. }
  apply wf_get in Eg as [Hin <-]; [|done].
  pose proof (wf_parents s Hw) as Hp. rewrite Hes, parents_in_app in Hp. destruct Hp as [_ [Hp _]].
  specialize (Hp _ Ep). rewrite app_nil_r, elem_of_reverse in Hp. pose proof (wf_nodup s Hw) as Hnd. unfold ids in Hnd.
  assert (Hin' : e' ∈ pre).
  { rewrite Hes in Hin. apply elem_of_app in Hin as [Hin|Hin]; [done|]. exfalso.
    rewrite Hes, fmap_app in Hnd. apply NoDup_app in Hnd as (_ & Hd & _). apply (Hd _ Hp). by apply list_elem_of_fmap_2. }
  apply list_elem_of_split in Hin' as (pre1 & pre2 & ->).
  assert (Hes' : getEntries s = pre1 ++ e' :: (pre2 ++ e :: post)) by (rewrite Hes, <- (assoc_L app); done).
  assert (Hlt : (length pre1 < length (pre1 ++ e' :: pre2))%nat) by (rewrite length_app; simpl; lia).
  split; [|exact (IH pre1 Hlt e' (pre2 ++ e :: post) fuel l' Hes' E)].
  destruct (walk_total s pre1 e' _ Hw Hes') as (l2 & Hl2 & _ & _ & Hsub).
  assert (l2 = l') as ->.
  { assert (Some l2 = Some l') as [= ->]; [|done].
    rewrite <- (walk_le (S (length pre1)) (S (length pre1) + fuel)%nat _ _ _ ltac:(lia) Hl2).
    apply (walk_le fuel); [lia|done]. }
  intros Hc. apply list_elem_of_fmap in Hc as (x & Hx & Hxl). apply Hsub in Hxl.
  rewrite Hes', fmap_app, fmap_cons, fmap_app, fmap_cons in Hnd. rewrite Hx in Hnd.
  assert (He : e_id x ∈ (e_id <$> pre1) ++ [e_id e']).
  { change [e_id e'] with (e_id <$> [e']). rewrite <- fmap_app. by apply list_elem_of_fmap_2. }
  change (e_id e' :: (e_id <$> pre2) ++ e_id x :: (e_id <$> post)) with ([e_id e'] ++ ((e_id <$> pre2) ++ e_id x :: (e_id <$> post))) in Hnd.
  rewrite (assoc_L app) in Hnd. apply NoDup_app in Hnd as (_ & Hd & _). apply (Hd _ He). set_solver.
Qed.

Lemma getBranch_ids_nodup s from l : wf s -> getBranch s from = Some l -> NoDup (e_id <$> l).
Proof.
  intros Hw. unfold getBranch. set (c := if truthy _ then _ else _). intros (l' & Hl & ->)%fmap_Some.
  rewrite fmap_reverse, reverse_Permutation. destruct c as [e|] eqn:Ec.
  2:{ destruct (length (byId s)); injection Hl as <-; apply NoDup_nil_2. }
  assert (Hin : e ∈ getEntries s).
  { unfold c in Ec. destruct (truthy _); [|done]. by apply wf_get in Ec as [? _]. }
  apply list_elem_of_split in Hin as (pre & post & Hes). by eapply walk_ids_nodup.
Qed.

Lemma wf_leaf_entry s i : wf s -> leafId s = Some i -> truthy (Some i) = true /\ exists e, get (byId s) i = Some e.
Proof.
  intros Hw Hi. pose proof (wf_leaf s Hw i Hi) as Hin. split.
  - pose proof (wf_ids s Hw) as Hne. eapply Forall_forall in Hne; [|exact Hin]. by destruct i.
  - apply wf_has in Hin; [|done]. unfold has in Hin. by apply bool_decide_eq_true in Hin as [e He]; exists e.
Qed.

(** The context is that of the branch to the leaf. *)
Lemma session_context_branch s : wf s -> session_context s = path_context <$> getBranch s None.
Proof.
  intros Hw. destruct (getBranch_spec s None Hw) as (l & Hl & _). rewrite Hl.
  unfold session_context, buildSessionContext, getBranch in *. destruct (leafId s) as [i|] eqn:Ei.
  - destruct (wf_leaf_entry s i Hw Ei) as (Ht & e & He). rewrite Ht in *. simpl in Hl. rewrite He in *.
    apply fmap_Some in Hl as (l' & Hl & ->). rewrite (walk_S _ _ _ _ Hl). done.
  - simpl in Hl. destruct (length (byId s)); by injection Hl as <-.
Qed.

Definition extend_context (c : SessionContext) (e : SessionEntry) : SessionContext :=
  apply_settings {| messages := messages c ++ option_list (entry_message e); ctx_thinkingLevel := ctx_thinkingLevel c;
    ctx_serviceTier := ctx_serviceTier c; ctx_model := ctx_model c |} e.

Lemma path_context_snoc path e : compaction_of e = None ->
  path_context (path ++ [e]) = extend_context (path_context path) e.
Proof.
  intros He. unfold path_context, extend_context. rewrite path_messages_snoc, path_settings_snoc by done.
  unfold apply_settings. destruct (kind e) as [[]| | | | | | | | | | | | |]; done.
Qed.

Lemma path_context_compact path e c : compaction_of e = Some c -> e_id e ∉ e_id <$> path ->
  let kept := omap entry_message (from_id (firstKeptEntryId c) path) in
  path_context (path ++ [e]) =
    {| messages := summary_message e c (length kept) :: kept; ctx_thinkingLevel := ctx_thinkingLevel (path_context path);
       ctx_serviceTier := ctx_serviceTier (path_context path); ctx_model := ctx_model (path_context path) |}.
Proof.
  intros Hc Hn. cbv zeta. unfold path_context.
  rewrite (path_messages_split path e c [] Hc Hn (List.Forall_nil _)), path_settings_snoc. cbv zeta. simpl omap at 4.
  rewrite app_nil_r. unfold apply_settings. unfold compaction_of in Hc. by destruct (kind e).
Qed.

Lemma branch_fresh_id en k s l : wf s -> fresh en s -> getBranch s None = Some l -> e_id (new_entry en k s) ∉ e_id <$> l.
Proof.
  intros Hw Hf Hl Hin. destruct (new_entry_fresh en k s Hw Hf) as [Hn _]. apply Hn.
  destruct (getBranch_spec s None Hw) as (l' & Hl' & _ & Hsub & _). rewrite Hl in Hl'. injection Hl' as <-.
  apply list_elem_of_fmap in Hin as (x & -> & Hx). apply list_elem_of_fmap_2. by apply Hsub.
Qed.

(** Every entry but a compaction extends the context: appending it, written to the file or not, keeps
    what the model was going to see, adds the entry's message (if it has one) at the end, and changes only the
    setting it is about. *)
Theorem append_extends_context (en : env) (k : Kind) (s : session) (Hw : wf s) (Hf : fresh en s)
    (Hk : forall c, k <> KCompaction c) :
  exists c, session_context s = Some c /\
    session_context (append en k s).2 = Some (extend_context c (new_entry en k s)).
Proof.
  destruct (getBranch_spec s None Hw) as (l & Hl & _).
  exists (path_context l). rewrite !session_context_branch by auto using append_wf.
  rewrite (append_branch en k s Hw Hf), Hl. split; [done|]. simpl. f_equal. apply path_context_snoc.
  unfold compaction_of. simpl. destruct k; naive_solver.
Qed.

Lemma append_extends_context_witness :
  wf demo_session /\ fresh demo_env demo_session /\ (forall c, KThinkingLevel (js "high") <> KCompaction c) /\
  exists c, session_context demo_session = Some c /\
    session_context (append demo_env (KThinkingLevel (js "high")) demo_session).2 =
      Some (extend_context c (new_entry demo_env (KThinkingLevel (js "high")) demo_session)).
Proof.
  assert (Hw : wf demo_session) by apply empty_wf.
  assert (Hf : fresh demo_env demo_session) by (by apply demo_fresh).
  assert (Hk : forall c, KThinkingLevel (js "high") <> KCompaction c) by done.
  split; [exact Hw|]. split; [exact Hf|]. split; [exact Hk|].
  exact (append_extends_context demo_env (KThinkingLevel (js "high")) demo_session Hw Hf Hk).
Defined.

(** A compaction replaces the conversation before its first kept entry: afterwards the context is its
    summary, with the number of messages kept, then the messages of the branch from that entry on, earlier
    summaries gone and the settings unchanged. *)
Theorem compaction_replaces_prefix (en : env) (c : Compaction) (s : session) (Hw : wf s) (Hf : fresh en s) :
  exists path c0, getBranch s None = Some path /\ session_context s = Some c0 /\
    let kept := omap entry_message (from_id (firstKeptEntryId c) path) in
    session_context (appendCompaction en c s).2 =
      Some {| messages := summary_message (new_entry en (KCompaction c) s) c (length kept) :: kept;
              ctx_thinkingLevel := ctx_thinkingLevel c0; ctx_serviceTier := ctx_serviceTier c0; ctx_model := ctx_model c0 |}.
Proof.
  destruct (getBranch_spec s None Hw) as (l & Hl & _). exists l, (path_context l).
  unfold appendCompaction. rewrite !session_context_branch by auto using append_wf.
  rewrite (append_branch en _ s Hw Hf), Hl. split; [done|]. split; [done|]. cbv zeta. simpl. f_equal.
  apply path_context_compact; [done|]. by apply branch_fresh_id.
Qed.

(** A session with an assistant message and a message of the user after it, compacted from the latter on. *)
Definition demo_user : AgentMessage := User {| u_content := CString (js "go on"); u_timestamp := 1 |}.
Definition env_after (e : env) : env := {| now := now e + 1; uuid := fun i => uuid e (S i) |}.
Definition demo_talk : session :=
  run (env_after demo_env) (CAppend (KMessage demo_user)) (run demo_env (CAppend (KMessage demo_assistant)) demo_session).
Definition demo_compaction : Compaction :=
  {| cmp_summary := js "so far"; firstKeptEntryId := js "id1"; cmp_tokensBefore := 2; cmp_details := None;
     cmp_fromHook := false; cmp_customInstructions := None; cmp_usage := None; cmp_harnessDigest := None;
     cmp_harnessStateFingerprint := None |}.
Definition demo_env3 : env := env_after (env_after demo_env).

Lemma demo_talk_reachable : reachable demo_session demo_talk.
Proof.
  eapply reach_step; [eapply reach_step; [apply reach_start|]|]; apply step_run; [by apply demo_fresh|].
  split; [by intros i; simpl|]. exists 0%nat. split; [lia|reflexivity].
Qed.
Lemma demo_talk_wf : wf demo_talk.
Proof. apply (reachable_wf demo_session); [apply empty_wf|apply demo_talk_reachable]. Qed.
Lemma demo_talk_fresh : fresh demo_env3 demo_talk.
Proof. split; [by intros i; simpl|]. exists 0%nat. split; [lia|reflexivity]. Qed.

Lemma compaction_replaces_prefix_witness :
  wf demo_talk /\ fresh demo_env3 demo_talk /\
  exists c, session_context (appendCompaction demo_env3 demo_compaction demo_talk).2 = Some c /\
    messages c = [summary_message (new_entry demo_env3 (KCompaction demo_compaction) demo_talk) demo_compaction 1; demo_user].
Proof.
  split; [exact demo_talk_wf|]. split; [exact demo_talk_fresh|].
  destruct (compaction_replaces_prefix demo_env3 demo_compaction demo_talk demo_talk_wf demo_talk_fresh) as (path & c0 & Hp & _ & Hc).
  assert (Hp' : getBranch demo_talk None = Some (getEntries demo_talk)) by reflexivity.
  rewrite Hp in Hp'. injection Hp' as ->. eexists. split; [exact Hc|]. reflexivity.
Defined.
