(* ===== verification/SummaryText.v ===== *)
(** * The text a summary is made of (core/compaction/utils.ts)

    The files a stretch of conversation touched, and the conversation printed
    as text for the model that summarises it. *)

(* Source aliases:
   UT = src/packages/coding-agent/src/core/compaction/utils.ts *)

From stdpp Require Import sorting.
From S2P Require Import Prelude JsString JsNumber JsMap Messages Tokens.
Local Open Scope Z_scope.

(** ** Sets of file names *)

(** [Set.prototype.add]: a set keeps the order of first insertion. *)
Definition add (x : jsstr) (s : list jsstr) : list jsstr := if decide (x ∈ s) then s else s ++ [x].

(** The default order of [Array.prototype.sort] on strings: by code units. *)
Fixpoint str_leb (a b : jsstr) : bool :=
  match a, b with
  | [], _ => true
  | _ :: _, [] => false
  | x :: a', y :: b' => if (x <? y)%N then true else if (y <? x)%N then false else str_leb a' b'
  end.
Definition str_le (a b : jsstr) : Prop := str_leb a b = true.
#[export] Instance str_le_dec : RelDecision str_le.
Proof. intros a b. unfold str_le. apply _. Defined.

(** UT 7-11 FileOperations. *)
Record FileOperations := { read : list jsstr; written : list jsstr; edited : list jsstr }.
(** UT 13-19 createFileOps. *)
Definition createFileOps : FileOperations := {| read := []; written := []; edited := [] |}.

Definition add_read (f : jsstr) (o : FileOperations) : FileOperations :=
  {| read := add f (read o); written := written o; edited := edited o |}.
Definition add_edited (f : jsstr) (o : FileOperations) : FileOperations :=
  {| read := read o; written := written o; edited := add f (edited o) |}.

(** A property of an object; undefined when the value is not an object. *)
Definition property (v : json) (k : jsstr) : option json :=
  match v with JObj fields => get fields k | _ => None end.
(** A property that is a string and not empty. *)
Definition path_of (v : option json) : option jsstr :=
  match v with Some (JStr (u :: p)) => Some (u :: p) | _ => None end.

(** UT 62-74 extractFileOpsFromToolResult. *)
Definition extractFileOpsFromToolResult (m : ToolResultMessage) (o : FileOperations) : FileOperations :=
  if negb (jseqb (Messages.toolName m) (js "ipython")) then o
  else
    let diffs := match details m ≫= (fun d => property d (js "diffs")) with Some (JArr l) => l | _ => [] end in
    foldl (fun o diff => match path_of (property diff (js "path")) with Some p => add_edited p o | None => o end) o diffs.

(** UT 35-48 extractFileOpsFromMessage. One block of an assistant message. *)
Definition extract_block (o : FileOperations) (block : AssistantPart) : FileOperations :=
  match block with
  | AToolCall c =>
      match path_of (get (arguments c) (js "path")) with
      | Some p => if jseqb (name c) (js "edit") then add_edited p o else o
      | None => o
      end
  | _ => o
  end.

(** UT 25-50 extractFileOpsFromMessage. *)
Definition extractFileOpsFromMessage (message : AgentMessage) (o : FileOperations) : FileOperations :=
  match message with
  | ToolResult m => extractFileOpsFromToolResult m o
  | Assistant a => foldl extract_block o (a_content a)
  | _ => o
  end.

(** UT 80-80 FILE_LIST_MAX_ENTRIES. *)
Definition FILE_LIST_MAX_ENTRIES : nat := 200.

(** UT 87-95 computeFileLists. *)
Definition computeFileLists (o : FileOperations) : list jsstr * list jsstr :=
  let modified := foldl (fun s f => add f s) [] (edited o ++ written o) in
  let readOnly := take FILE_LIST_MAX_ENTRIES (merge_sort str_le (filter (fun f => f ∉ modified) (read o))) in
  (readOnly, take FILE_LIST_MAX_ENTRIES (merge_sort str_le modified)).

(** UT 100-110 formatFileOperations. *)
Definition formatFileOperations (readFiles modifiedFiles : list jsstr) : jsstr :=
  let section tag files :=
    match files with
    | [] => []
    | _ => [js "<" ++ tag ++ js ">" ++ [LF] ++ unlines files ++ [LF] ++ js "</" ++ tag ++ js ">"]
    end in
  match section (js "read-files") readFiles ++ section (js "modified-files") modifiedFiles with
  | [] => []
  | sections => [LF; LF] ++ join [LF; LF] sections
  end.

(** ** The conversation as text *)

(** UT 112-112 TOOL_RESULT_MAX_CHARS. *)
Definition TOOL_RESULT_MAX_CHARS : Z := 2000.
(** UT 117-117 TOOL_RESULT_TAIL_CHARS. *)
Definition TOOL_RESULT_TAIL_CHARS : Z := 500.

(** UT 129-133 truncateForSummary. The line that stands for the middle. *)
Definition truncation_marker (elided first : Z) : jsstr :=
  js "[... " ++ show_Z elided ++ js " characters truncated; first " ++ show_Z first ++ js " and last " ++
  show_Z TOOL_RESULT_TAIL_CHARS ++ js " kept ...]".

(** [s.slice(a)] with [a] in the string. *)
Definition slice_from (a : Z) (s : jsstr) : jsstr := drop (Z.to_nat a) s.

(** UT 124-134 truncateForSummary. *)
Definition truncateForSummary (text : jsstr) (maxChars : Z) : jsstr :=
  if strlen text <=? maxChars then text
  else
    let markerMaxLength := strlen (truncation_marker (strlen text) maxChars) in
    let headChars := maxChars - TOOL_RESULT_TAIL_CHARS - markerMaxLength - 4 in
    let elided := strlen text - headChars - TOOL_RESULT_TAIL_CHARS in
    slice_to headChars text ++ [LF; LF] ++ truncation_marker elided headChars ++ [LF; LF] ++
    slice_from (strlen text - TOOL_RESULT_TAIL_CHARS) text.

(** The texts of the parts of a message. *)
Definition part_texts (ps : list Part) : list jsstr :=
  omap (fun p => match p with PText t => Some (text t) | PImage _ => None end) ps.

(** UT 181-183 serializeConversation. *)
Definition call_text (index : Z) (c : ToolCall) : jsstr :=
  js "#" ++ show_Z index ++ js " " ++ name c ++ js "(" ++
  join (js ", ") ((fun kv => kv.1 ++ js "=" ++ stringify kv.2) <$> arguments c) ++ js ")".

(** UT 148-155 serializeConversation. What the loop keeps. *)
Record serializer := { parts : list jsstr; toolCallIndices : jsmap jsstr Z; toolCallIndex : Z }.

(** UT 176-187 serializeConversation. The tool calls of one assistant message. *)
Definition serialize_call (acc : list jsstr * jsmap jsstr Z * Z) (block : AssistantPart) : list jsstr * jsmap jsstr Z * Z :=
  match block with
  | AToolCall c =>
      let '(calls, indices, index) := acc in
      (calls ++ [call_text (index + 1) c], set indices (id c) (index + 1), index + 1)
  | _ => acc
  end.

(** UT 188-196 serializeConversation. A labelled group, when it has members. *)
Definition group (label : jsstr) (sep : jsstr) (ls : list jsstr) : list jsstr :=
  match ls with [] => [] | _ => [label ++ join sep ls] end.

(** UT 210-214 serializeConversation. *)
Definition result_label (m : ToolResultMessage) (index : option Z) : jsstr :=
  js "[Tool result (" ++ Messages.toolName m ++ (if isError m then js ", error)" else js ")") ++
  (match index with Some n => js " #" ++ show_Z n | None => [] end) ++ js "]".

(** UT 157-218 serializeConversation. One message. *)
Definition serialize_message (st : serializer) (msg : Message) : serializer :=
  let push ps indices index := {| parts := parts st ++ ps; toolCallIndices := indices; toolCallIndex := index |} in
  match msg with
  | LUser m =>
      let content := match u_content m with CString s => s | CParts ps => concat (part_texts ps) end in
      push (match content with [] => [] | _ => [js "[User]: " ++ content] end) (toolCallIndices st) (toolCallIndex st)
  | LAssistant m =>
      let textParts := omap (fun b => match b with AText t => Some (text t) | _ => None end) (a_content m) in
      let thinkingParts := omap (fun b => match b with AThinking t => Some (thinking t) | _ => None end) (a_content m) in
      let '(toolCalls, indices, index) := foldl serialize_call ([], toolCallIndices st, toolCallIndex st) (a_content m) in
      push (group (js "[Assistant thinking]: ") [LF] thinkingParts ++ group (js "[Assistant]: ") [LF] textParts ++
            group (js "[Assistant tool calls]: ") (js "; ") toolCalls) indices index
  | LToolResult m =>
      let content := concat (part_texts (t_content m)) in
      push (match content with
            | [] => []
            | _ => [result_label m (get (toolCallIndices st) (toolCallId m)) ++ js ": " ++
                    truncateForSummary content TOOL_RESULT_MAX_CHARS]
            end) (toolCallIndices st) (toolCallIndex st)
  end.

(** UT 147-221 serializeConversation. *)
Definition serializeConversation (messages : list Message) : jsstr :=
  join [LF; LF] (parts (foldl serialize_message {| parts := []; toolCallIndices := []; toolCallIndex := 0 |} messages)).

(** ** File lists *)

Lemma str_leb_refl a : str_leb a a = true.
Proof. induction a as [|x a IH]; [done|]. simpl. by rewrite N.ltb_irrefl. Qed.

#[export] Instance str_le_total : Total str_le.
Proof.
  intros a. unfold str_le. induction a as [|x a IH]; intros [|y b]; simpl; auto.
  destruct (N.ltb_spec x y), (N.ltb_spec y x); auto; lia.
Qed.

#[export] Instance str_le_trans : Transitive str_le.
Proof.
  intros a. unfold str_le. induction a as [|x a IH]; intros [|y b] [|z c]; simpl; try done.
  destruct (N.ltb_spec x y), (N.ltb_spec y x), (N.ltb_spec y z), (N.ltb_spec z y), (N.ltb_spec x z), (N.ltb_spec z x);
    try done; try lia. apply IH.
Qed.

Lemma elem_of_add x y s : x ∈ add y s <-> x = y \/ x ∈ s.
Proof. unfold add. destruct (decide (y ∈ s)); set_solver. Qed.
Lemma NoDup_add y s : NoDup s -> NoDup (add y s).
Proof.
  intros Hs. unfold add. destruct (decide (y ∈ s)) as [|Hn]; [done|]. apply NoDup_app.
  split_and!; [done|set_solver|apply NoDup_singleton].
Qed.
Lemma elem_of_adds x s l : x ∈ foldl (fun s f => add f s) s l <-> x ∈ s \/ x ∈ l.
Proof. revert s. induction l as [|y l IH]; intros s; simpl; [set_solver|]. rewrite IH, elem_of_add. set_solver. Qed.
Lemma NoDup_adds s l : NoDup s -> NoDup (foldl (fun s f => add f s) s l).
Proof. revert s. induction l as [|y l IH]; intros s Hs; simpl; [done|]. apply IH, NoDup_add, Hs. Qed.

Lemma take_sorted (n : nat) (l : list jsstr) : StronglySorted str_le l -> StronglySorted str_le (take n l).
Proof.
  intros H. revert n. induction H as [|x l Hs IH Hx]; intros [|n]; simpl; try constructor; [done|].
  by apply Forall_take.
Qed.

(** A sorted list cut at the cap: what it holds, and when nothing was cut off. *)
Lemma capped_sort (l : list jsstr) :
  let c := take FILE_LIST_MAX_ENTRIES (merge_sort str_le l) in
  StronglySorted str_le c /\ (length c <= FILE_LIST_MAX_ENTRIES)%nat /\ c ⊆ l /\
  ((length c < FILE_LIST_MAX_ENTRIES)%nat -> l ⊆ c) /\ (NoDup l -> NoDup c).
Proof.
  pose proof (merge_sort_Permutation str_le l) as Hp. pose proof (StronglySorted_merge_sort str_le l) as Hs.
  set (m := merge_sort str_le l) in *. generalize FILE_LIST_MAX_ENTRIES as n. intros n. cbv zeta.
  split; [by apply take_sorted|]. rewrite length_take. split; [lia|].
  assert (Hsub : take n m ⊆ m) by (intros x Hx; rewrite <- (take_drop n m); apply elem_of_app; by left).
  split; [intros x Hx; rewrite <- Hp; by apply Hsub|]. split.
  - intros Hlt x Hx. rewrite take_ge by lia. by rewrite Hp.
  - intros Hn. rewrite <- Hp, <- (take_drop n m) in Hn. by apply NoDup_app in Hn as [? _].
Qed.

(** The file lists of a summary are sorted by code units and hold at most 200 names each. The modified
    files are files that were edited or written, each once; the read files were read and not modified, even
    by an operation whose name was cut from the list; and a list shorter than the cap is complete. *)
Theorem computeFileLists_spec (o : FileOperations) :
  let '(readFiles, modifiedFiles) := computeFileLists o in
  StronglySorted str_le readFiles /\ StronglySorted str_le modifiedFiles /\
  (length readFiles <= 200)%nat /\ (length modifiedFiles <= 200)%nat /\ NoDup modifiedFiles /\
  (forall f, f ∈ modifiedFiles -> f ∈ edited o ++ written o) /\
  (forall f, f ∈ readFiles -> f ∈ read o /\ f ∉ edited o ++ written o) /\
  ((length modifiedFiles < 200)%nat -> forall f, f ∈ edited o ++ written o -> f ∈ modifiedFiles) /\
  ((length readFiles < 200)%nat -> forall f, f ∈ read o -> f ∉ edited o ++ written o -> f ∈ readFiles).
Proof.
  unfold computeFileLists. set (modified := foldl _ [] _). set (reads := filter _ (read o)).
  assert (Hm : forall f, f ∈ modified <-> f ∈ edited o ++ written o) by (intros f; unfold modified; rewrite elem_of_adds; set_solver).
  assert (Hr : forall f, f ∈ reads <-> f ∈ read o /\ f ∉ edited o ++ written o)
    by (intros f; unfold reads; rewrite list_elem_of_filter, Hm; tauto).
  destruct (capped_sort modified) as (M1 & M2 & M3 & M4 & M5). destruct (capped_sort reads) as (R1 & R2 & R3 & R4 & _).
  split_and!; try done.
  - apply M5, NoDup_adds, NoDup_nil_2.
  - intros f Hf. apply Hm. by apply M3.
  - intros f Hf. apply Hr. by apply R3.
  - intros Hl f Hf. apply M4; [done|]. by apply Hm.
  - intros Hl f Hf Hn. apply R4; [done|]. by apply Hr.
Qed.

(** ** Truncation *)

Lemma digits_length_mono f f' m n acc acc' : (f <= f')%nat -> (m <= n)%N -> (length acc <= length acc')%nat ->
  (length (digits_aux f m acc) <= length (digits_aux f' n acc'))%nat.
Proof.
  revert f' m n acc acc'. induction f as [|f IH]; intros f' m n acc acc' Hf Hmn Hl.
  - simpl. etransitivity; [exact Hl|apply digits_length_ge].
  - destruct f' as [|f']; [lia|]. simpl. destruct (N.ltb_spec m 10), (N.ltb_spec n 10); simpl; try lia.
    + etransitivity; [|apply digits_length_ge]. simpl. lia.
    + apply IH; [lia| |simpl; lia]. apply N.Div0.div_le_mono. lia.
Qed.

Lemma show_length_mono a b : 0 <= a <= b -> strlen (show_Z a) <= strlen (show_Z b).
Proof.
  intros [Ha Hb]. unfold show_Z. destruct (Z.ltb_spec a 0), (Z.ltb_spec b 0); try lia.
  unfold strlen, show_N. apply inj_le, digits_length_mono; [|lia|done].
  assert (N.log2 (Z.to_N a) <= N.log2 (Z.to_N b))%N by (apply N.log2_le_mono; lia). lia.
Qed.

Lemma strlen_app a b : strlen (a ++ b) = strlen a + strlen b.
Proof. unfold strlen. rewrite length_app. lia. Qed.

Lemma truncation_marker_length e f : strlen (truncation_marker e f) = 57 + strlen (show_Z e) + strlen (show_Z f).
Proof.
  unfold truncation_marker. rewrite !strlen_app. generalize (strlen (show_Z e)) (strlen (show_Z f)). intros x y.
  set (a := strlen (js "[... ")). set (b := strlen (js " characters truncated; first ")).
  set (c := strlen (js " and last ")). set (d := strlen (show_Z _)). set (k := strlen (js " kept ...]")).
  vm_compute in a, b, c, d, k. lia.
Qed.

Lemma show_length_max a : 0 <= a <= 2 ^ 53 -> strlen (show_Z a) <= 16.
Proof. intros Ha. etransitivity; [by apply show_length_mono|]. vm_compute. discriminate. Qed.

(** A tool result in a summary never exceeds its budget of 2000 characters, the marker of the cut
    included: a shorter text is kept whole, a longer one keeps a beginning and its last 500 characters. *)
Theorem truncateForSummary_bounded (text : jsstr) (Hlen : strlen text <= 2 ^ 53) :
  let r := truncateForSummary text TOOL_RESULT_MAX_CHARS in
  strlen r <= TOOL_RESULT_MAX_CHARS /\
  (strlen text <= TOOL_RESULT_MAX_CHARS -> r = text) /\
  (TOOL_RESULT_MAX_CHARS < strlen text -> exists first middle marker, 0 < strlen first /\
     let lastChars := drop (length text - 500) text in
     text = first ++ middle ++ lastChars /\ r = first ++ marker ++ lastChars /\
     marker = [LF; LF] ++ truncation_marker (strlen middle) (strlen first) ++ [LF; LF]).
Proof.
  cbv zeta. unfold truncateForSummary, TOOL_RESULT_MAX_CHARS. destruct (Z.leb_spec (strlen text) 2000) as [Hs|Hs].
  { split_and!; [done..|lia]. }
  set (head := 2000 - TOOL_RESULT_TAIL_CHARS - strlen (truncation_marker (strlen text) 2000) - 4).
  assert (Hm : strlen (truncation_marker (strlen text) 2000) <= 57 + 16 + 4).
  { rewrite truncation_marker_length. pose proof (show_length_max (strlen text) ltac:(unfold strlen in *; lia)).
    assert (strlen (show_Z 2000) = 4) by reflexivity. lia. }
  pose proof (strlen_nonneg (truncation_marker (strlen text) 2000)) as Hm0.
  assert (Hh : 0 < head <= 1500) by (unfold head, TOOL_RESULT_TAIL_CHARS; lia). unfold TOOL_RESULT_TAIL_CHARS.
  unfold slice_to, slice_from. destruct (Z.ltb_spec head 0); [lia|].
  assert (Hle : Z.of_nat (length text) = strlen text) by done.
  replace (Z.to_nat (strlen text - 500)) with (length text - 500)%nat by lia.
  set (first := take (Z.to_nat head) text). set (lastChars := drop (length text - 500) text).
  set (middle := drop (Z.to_nat head) (take (length text - 500) text)).
  assert (Hf : strlen first = head) by (unfold strlen, first; rewrite length_take; lia).
  assert (Hl : strlen lastChars = 500) by (unfold strlen, lastChars; rewrite length_drop; lia).
  assert (Hmid : strlen middle = strlen text - head - 500) by (unfold strlen at 1, middle; rewrite length_drop, length_take; lia).
  assert (Htext : text = first ++ middle ++ lastChars).
  { unfold first, middle, lastChars. rewrite (assoc_L app).
    assert (Ht : take (Z.to_nat head) text = take (Z.to_nat head) (take (length text - 500) text)) by (rewrite take_take; f_equal; lia).
    by rewrite Ht, take_drop, take_drop. }
  rewrite <- Hmid. split; [|split; [lia|]].
  - rewrite !strlen_app, Hf, Hl, truncation_marker_length.
    pose proof (show_length_mono (strlen middle) (strlen text) ltac:(unfold strlen in *; lia)).
    pose proof (show_length_mono head 2000 ltac:(lia)).
    assert (head = 2000 - 500 - (57 + strlen (show_Z (strlen text)) + strlen (show_Z 2000)) - 4)
      by (unfold head, TOOL_RESULT_TAIL_CHARS; by rewrite truncation_marker_length).
    change (strlen [LF; LF]) with 2. lia.
  - intros _. exists first, middle, ([LF; LF] ++ truncation_marker (strlen middle) (strlen first) ++ [LF; LF]).
    rewrite Hf. split; [lia|]. split; [exact Htext|]. split; [|done]. by rewrite <- !(assoc_L app).
Qed.

Lemma truncateForSummary_bounded_witness :
  strlen (replicate 3000 65%N) <= 2 ^ 53 /\
  strlen (truncateForSummary (replicate 3000 65%N) TOOL_RESULT_MAX_CHARS) <= TOOL_RESULT_MAX_CHARS.
Proof.
  assert (H : strlen (replicate 3000 65%N) <= 2 ^ 53) by (unfold strlen; rewrite length_replicate; lia).
  split; [exact H|]. exact (proj1 (truncateForSummary_bounded (replicate 3000 65%N) H)).
Defined.

(** ** Calls and their results *)

Definition block_calls (blocks : list AssistantPart) : list ToolCall :=
  omap (fun b => match b with AToolCall c => Some c | _ => None end) blocks.
(** The tool calls of a conversation, in order. *)
Definition calls_of (ms : list Message) : list ToolCall :=
  ms ≫= (fun m => match m with LAssistant a => block_calls (a_content a) | _ => [] end).
(** The number of the last call with an id, counting from one. *)
Definition call_number (cs : list ToolCall) (i : jsstr) : option Z :=
  (fun p => Z.of_nat (length cs - p.1)) <$> list_find (fun c => id c = i) (reverse cs).

(** What a message is printed as, given the calls before it. *)
Definition printed (before : list ToolCall) (msg : Message) : list jsstr :=
  match msg with
  | LUser m =>
      let content := match u_content m with CString s => s | CParts ps => concat (part_texts ps) end in
      match content with [] => [] | _ => [js "[User]: " ++ content] end
  | LAssistant m =>
      group (js "[Assistant thinking]: ") [LF] (omap (fun b => match b with AThinking t => Some (thinking t) | _ => None end) (a_content m)) ++
      group (js "[Assistant]: ") [LF] (omap (fun b => match b with AText t => Some (text t) | _ => None end) (a_content m)) ++
      group (js "[Assistant tool calls]: ") (js "; ")
        (imap (fun n c => call_text (Z.of_nat (length before + n) + 1) c) (block_calls (a_content m)))
  | LToolResult m =>
      let content := concat (part_texts (t_content m)) in
      match content with
      | [] => []
      | _ => [result_label m (call_number before (toolCallId m)) ++ js ": " ++ truncateForSummary content TOOL_RESULT_MAX_CHARS]
      end
  end.

Lemma call_number_snoc cs c i : call_number (cs ++ [c]) i =
  if decide (id c = i) then Some (Z.of_nat (length cs) + 1) else call_number cs i.
Proof.
  unfold call_number. rewrite reverse_snoc. cbn [list_find]. destruct (decide (id c = i)).
  - cbn [fmap option_fmap option_map fst]. rewrite length_app. f_equal. simpl. lia.
  - destruct (list_find _ (reverse cs)) as [[k x]|]; [|done]. cbn [fmap option_fmap option_map prod_map fst].
    rewrite length_app. f_equal. simpl. lia.
Qed.

Definition numbered (indices : jsmap jsstr Z) (cs : list ToolCall) : Prop := forall i, get indices i = call_number cs i.

Lemma numbered_snoc indices cs c : numbered indices cs ->
  numbered (set indices (id c) (Z.of_nat (length cs) + 1)) (cs ++ [c]).
Proof. intros H i. rewrite get_set, call_number_snoc. destruct (decide (id c = i)); [done|apply H]. Qed.

Lemma serialize_calls blocks acc indices cs : numbered indices cs ->
  exists indices', foldl serialize_call (acc, indices, Z.of_nat (length cs)) blocks =
    (acc ++ imap (fun n c => call_text (Z.of_nat (length cs + n) + 1) c) (block_calls blocks), indices',
     Z.of_nat (length (cs ++ block_calls blocks))) /\ numbered indices' (cs ++ block_calls blocks).
Proof.
  revert acc indices cs. induction blocks as [|b blocks IH]; intros acc indices cs Hn.
  { exists indices. cbn [foldl block_calls omap list_omap imap]. by rewrite !app_nil_r. }
  destruct b as [t|t|c]; [by apply IH..|].
  destruct (IH (acc ++ [call_text (Z.of_nat (length cs) + 1) c]) _ (cs ++ [c]) (numbered_snoc _ _ c Hn)) as (indices' & Hf & Hn').
  exists indices'. change (block_calls (AToolCall c :: blocks)) with (c :: block_calls blocks).
  rewrite <- (assoc_L app) in Hn', Hf. split; [|exact Hn'].
  replace (Z.of_nat (length (cs ++ [c]))) with (Z.of_nat (length cs) + 1) in Hf by (rewrite length_app; simpl; lia).
  cbn [foldl serialize_call]. rewrite Hf, <- (assoc_L app), imap_cons, Nat.add_0_r. simpl app.
  assert (Him : forall l, imap (fun n c0 => call_text (Z.of_nat (length (cs ++ [c]) + n) + 1) c0) l =
    imap ((fun n c0 => call_text (Z.of_nat (length cs + n) + 1) c0) ∘ S) l).
  { intros l. apply imap_ext. intros n x _. simpl. rewrite length_app. simpl. f_equal. lia. }
  by rewrite Him.
Qed.

Lemma serialize_state ms :
  let st := foldl serialize_message {| parts := []; toolCallIndices := []; toolCallIndex := 0 |} ms in
  parts st = concat (imap (fun i m => printed (calls_of (take i ms)) m) ms) /\
  numbered (toolCallIndices st) (calls_of ms) /\ toolCallIndex st = Z.of_nat (length (calls_of ms)).
Proof.
  induction ms as [|m ms IH] using rev_ind; [done|]. cbv zeta in *. rewrite foldl_app.
  set (st := foldl _ _ ms) in *. destruct IH as (Hp & Hn & Hi). cbn [foldl].
  assert (Hc : calls_of (ms ++ [m]) = calls_of ms ++ match m with LAssistant a => block_calls (a_content a) | _ => [] end)
    by (unfold calls_of; rewrite bind_app; simpl; by rewrite app_nil_r).
  assert (Hprint : concat (imap (fun i x => printed (calls_of (take i (ms ++ [m]))) x) (ms ++ [m])) =
    parts st ++ printed (calls_of ms) m).
  { rewrite imap_app, concat_app, Hp. f_equal.
    - f_equal. apply imap_ext. intros i x Hx. apply lookup_lt_Some in Hx. by rewrite take_app_le by lia.
    - simpl. by rewrite app_nil_r, Nat.add_0_r, take_app_length. }
  rewrite Hprint, Hc. destruct m as [u|a|r]; cbn [serialize_message]; rewrite ?app_nil_r; [done| |].
  - destruct (serialize_calls (a_content a) [] (toolCallIndices st) (calls_of ms) Hn) as (ix & Hf & Hn').
    rewrite Hi, Hf. done.
  - cbn [parts toolCallIndices toolCallIndex printed]. by rewrite Hn.
Qed.

(** In the text of a conversation the tool calls are numbered from one in the order they were made, and a
    tool result bears the number of the last call before it that has its id (none when the call is not part
    of the text), whatever calls share a name or an id: the text is that of the stateless printing of each
    message after the calls before it. *)
Theorem serializeConversation_numbers (messages : list Message) :
  serializeConversation messages =
    join [LF; LF] (concat (imap (fun i m => printed (calls_of (take i messages)) m) messages)).
Proof. unfold serializeConversation. by rewrite (proj1 (serialize_state messages)). Qed.
