(* ===== verification/Compaction.v ===== *)
(** * Compaction (core/compaction/compaction.ts)

    Where the conversation is cut, what is summarised and what is kept: the
    functions that prepare a compaction, and what a compacted session's
    context holds. *)

(* Source aliases:
   CO = src/packages/coding-agent/src/core/compaction/compaction.ts *)

From stdpp Require Import sorting.
From S2P Require Import Prelude JsString JsNumber JsMap Messages Tokens SummaryText SessionEntries SessionTree SessionFacts SessionContext.
Local Open Scope Z_scope.

(** ** Messages of the log *)

(** CO 74-93 getMessageFromEntry. *)
Definition getMessageFromEntry (e : SessionEntry) : option AgentMessage :=
  match kind e with
  | KMessage m => Some m
  | KCustomMessage c =>
      Some (Custom (createCustomMessage (cm_customType c) (cm_content c) (cm_display c) (cm_details c) (e_timestamp e)))
  | KBranchSummary b =>
      Some (BranchSummary (createBranchSummaryMessage (br_summary b) (br_fromId b) (e_timestamp e)))
  | KCompaction c =>
      Some (CompactionSummary (createCompactionSummaryMessage (cmp_summary c) (cmp_tokensBefore c) (e_timestamp e)
        (cmp_customInstructions c) None None None))
  | _ => None
  end.

(** CO 95-104 getMessageFromEntryForCompaction. *)
Definition getMessageFromEntryForCompaction (e : SessionEntry) : option AgentMessage :=
  match kind e with
  | KCompaction _ => None
  | KCustomMessage c => if jseqb (cm_customType c) HARNESS_DIGEST_CUSTOM_TYPE then None else getMessageFromEntry e
  | _ => getMessageFromEntry e
  end.

(** CO 157-166 getLastAssistantUsage. *)
Definition getLastAssistantUsage (entries : list SessionEntry) : option Usage :=
  head (omap (fun e => match kind e with KMessage m => getAssistantUsage m | _ => None end) (reverse entries)).

(** ** The cut point *)

(** CO 299-330 findValidCutPoints. One entry. *)
Definition is_cut_point (e : SessionEntry) : bool :=
  match kind e with
  | KMessage (ToolResult _) => false
  | KMessage _ => true
  | KBranchSummary _ | KCustomMessage _ => true
  | _ => false
  end.

Definition at_index (p : SessionEntry -> bool) (entries : list SessionEntry) (i : nat) : bool :=
  match entries !! i with Some e => p e | None => false end.

(** CO 296-333 findValidCutPoints. *)
Definition findValidCutPoints (entries : list SessionEntry) (startIndex endIndex : nat) : list nat :=
  filter (fun i => at_index is_cut_point entries i = true) (seq startIndex (endIndex - startIndex)).

(** CO 342-351 findTurnStartIndex. One entry. *)
Definition is_turn_start (e : SessionEntry) : bool :=
  match kind e with
  | KBranchSummary _ | KCustomMessage _ => true
  | KMessage (User _) | KMessage (BashExecution _) => true
  | _ => false
  end.

(** CO 340-354 findTurnStartIndex. [None] is the [-1] of the source. *)
Definition findTurnStartIndex (entries : list SessionEntry) (entryIndex startIndex : nat) : option nat :=
  List.find (at_index is_turn_start entries) (reverse (seq startIndex (S entryIndex - startIndex))).

(** CO 356-363 CutPointResult. *)
Record CutPointResult := { firstKeptEntryIndex : nat; turnStartIndex : option nat; isSplitTurn : bool }.

(** CO 394-396 findCutPoint. The tokens an entry counts for. *)
Definition message_tokens (e : SessionEntry) : Z :=
  match kind e with KMessage m => estimateTokens m | _ => 0 end.
Definition is_message (e : SessionEntry) : bool := match kind e with KMessage _ => true | _ => false end.

(** CO 392-411 findCutPoint. The index where the tokens from the end reach the amount to keep. *)
Fixpoint threshold_index (entries : list SessionEntry) (keep accumulated : Z) (indices : list nat) : option nat :=
  match indices with
  | [] => None
  | i :: rest =>
      match entries !! i with
      | Some e =>
          if is_message e then
            let accumulated := accumulated + message_tokens e in
            if keep <=? accumulated then Some i else threshold_index entries keep accumulated rest
          else threshold_index entries keep accumulated rest
      | None => threshold_index entries keep accumulated rest
      end
  end.

(** CO 400-407 findCutPoint. *)
Definition cut_from (cutPoints : list nat) (i : nat) : nat :=
  match List.find (fun c => (i <=? c)%nat) cutPoints with Some c => c | None => default 0%nat (last cutPoints) end.

(** CO 412-421 findCutPoint. *)
Fixpoint back_up (entries : list SessionEntry) (startIndex cutIndex : nat) : nat :=
  match cutIndex with
  | O => O
  | S prev =>
      if (startIndex <? cutIndex)%nat then
        match entries !! prev with
        | Some e => if is_message e || bool_decide (is_Some (compaction_of e)) then cutIndex else back_up entries startIndex prev
        | None => cutIndex
        end
      else cutIndex
  end.

Definition is_user (e : SessionEntry) : bool := match kind e with KMessage (User _) => true | _ => false end.

(** CO 381-432 findCutPoint. *)
Definition findCutPoint (entries : list SessionEntry) (startIndex endIndex : nat) (keepRecentTokens : Z) : CutPointResult :=
  let cutPoints := findValidCutPoints entries startIndex endIndex in
  match cutPoints with
  | [] => {| firstKeptEntryIndex := startIndex; turnStartIndex := None; isSplitTurn := false |}
  | first :: _ =>
      let cutIndex :=
        match threshold_index entries keepRecentTokens 0 (reverse (seq startIndex (endIndex - startIndex))) with
        | Some i => cut_from cutPoints i
        | None => first
        end in
      let cutIndex := back_up entries startIndex cutIndex in
      let isUserMessage := at_index is_user entries cutIndex in
      let turnStart := if isUserMessage then None else findTurnStartIndex entries cutIndex startIndex in
      {| firstKeptEntryIndex := cutIndex; turnStartIndex := turnStart;
         isSplitTurn := negb isUserMessage && bool_decide (is_Some turnStart) |}
  end.

(** ** Preparation *)

(** CO 50-62 extractFileOperations. The files an earlier compaction recorded; they are strings. *)
Definition recorded_files (details : option json) (k : jsstr) : list jsstr :=
  match details ≫= (fun d => property d k) with
  | Some (JArr l) => omap (fun v => match v with JStr s => Some s | _ => None end) l
  | _ => []
  end.

(** CO 45-69 extractFileOperations. *)
Definition extractFileOperations (messages : list AgentMessage) (prev : option Compaction) : FileOperations :=
  let fileOps :=
    match prev with
    | Some c =>
        if negb (cmp_fromHook c) then
          foldl (fun o f => add_edited f o)
            (foldl (fun o f => add_read f o) createFileOps (recorded_files (cmp_details c) (js "readFiles")))
            (recorded_files (cmp_details c) (js "modifiedFiles"))
        else createFileOps
    | None => createFileOps
    end in
  foldl (fun o m => extractFileOpsFromMessage m o) fileOps messages.

(** CO 583-599 CompactionPreparation. *)
Record CompactionPreparation := {
  prep_firstKeptEntryId : jsstr; messagesToSummarize : list AgentMessage; turnPrefixMessages : list AgentMessage;
  prep_isSplitTurn : bool; prep_tokensBefore : Z; previousSummary : option jsstr; fileOps : FileOperations;
  prep_settings : CompactionSettings }.

(** The elements from [a] up to [b]. *)
Definition between {A} (a b : nat) (l : list A) : list A := take (b - a) (drop a l).

(** CO 614-620 prepareCompaction. The last compaction, with its index. *)
Definition prev_compaction (path : list SessionEntry) : option (nat * Compaction) :=
  foldl (fun acc ie => match compaction_of ie.2 with Some c => Some (ie.1, c) | None => acc end) None (imap pair path).

(** CO 622-628 prepareCompaction. *)
Definition boundary_start (path : list SessionEntry) : nat :=
  match prev_compaction path with
  | Some (i, c) =>
      match list_find (fun e => e_id e = firstKeptEntryId c) path with Some (k, _) => k | None => S i end
  | None => 0%nat
  end.

(** CO 601-672 prepareCompaction. The outer option is that of [buildSessionContext], the inner one the
    [undefined] of the source. *)
Definition prepareCompaction (pathEntries : list SessionEntry) (settings : CompactionSettings)
    : option (option CompactionPreparation) :=
  if match last pathEntries with Some e => bool_decide (is_Some (compaction_of e)) | None => false end then Some None
  else
    let prev := snd <$> prev_compaction pathEntries in
    let previousSummary := cmp_summary <$> prev in
    let boundaryStart := boundary_start pathEntries in
    let boundaryEnd := length pathEntries in
    ctx ← buildSessionContext pathEntries None None;
    let tokensBefore := tokens (estimateContextTokens (messages ctx)) in
    let cutPoint := findCutPoint pathEntries boundaryStart boundaryEnd (keepRecentTokens settings) in
    let k := firstKeptEntryIndex cutPoint in
    match pathEntries !! k with
    | None => Some None
    | Some firstKeptEntry =>
        if negb (truthy (Some (e_id firstKeptEntry))) then Some None
        else
          let historyEnd := if isSplitTurn cutPoint then default 0%nat (turnStartIndex cutPoint) else k in
          let toSummarize := omap getMessageFromEntryForCompaction (between boundaryStart historyEnd pathEntries) in
          let turnPrefix :=
            if isSplitTurn cutPoint
            then omap getMessageFromEntryForCompaction (between (default 0%nat (turnStartIndex cutPoint)) k pathEntries) else [] in
          if bool_decide (toSummarize = []) && bool_decide (turnPrefix = []) && negb (truthy previousSummary) then Some None
          else
            let ops := extractFileOperations toSummarize prev in
            let ops := if isSplitTurn cutPoint then foldl (fun o m => extractFileOpsFromMessage m o) ops turnPrefix else ops in
            Some (Some {| prep_firstKeptEntryId := e_id firstKeptEntry; messagesToSummarize := toSummarize;
                          turnPrefixMessages := turnPrefix; prep_isSplitTurn := isSplitTurn cutPoint;
                          prep_tokensBefore := tokensBefore; previousSummary := previousSummary; fileOps := ops;
                          prep_settings := settings |})
    end.

(** ** Where the conversation is cut *)

(** The tokens of the messages of the entries from [i] on. *)
Definition tokens_from (entries : list SessionEntry) (i : nat) : Z := sumZ message_tokens (drop i entries).

Lemma message_tokens_nonneg e : 0 <= message_tokens e.
Proof. unfold message_tokens. destruct (kind e); try done. apply estimateTokens_nonneg. Qed.

Lemma tokens_from_S entries i e : entries !! i = Some e -> tokens_from entries i = message_tokens e + tokens_from entries (S i).
Proof. intros H. unfold tokens_from. by rewrite (drop_S _ _ _ H), sumZ_cons. Qed.

Lemma tokens_from_mono entries i j : (i <= j)%nat -> tokens_from entries j <= tokens_from entries i.
Proof.
  intros Hij. unfold tokens_from. replace (drop j entries) with (drop (j - i) (drop i entries)) by (rewrite drop_drop; f_equal; lia).
  rewrite <- (take_drop (j - i) (drop i entries)) at 2. rewrite sumZ_app.
  pose proof (sumZ_nonneg message_tokens (take (j - i) (drop i entries)) message_tokens_nonneg). lia.
Qed.

Lemma cut_points_elem entries a b i : i ∈ findValidCutPoints entries a b <->
  (a <= i < b)%nat /\ at_index is_cut_point entries i = true.
Proof. unfold findValidCutPoints. rewrite list_elem_of_filter, elem_of_seq. split; intros []; split; try done; lia. Qed.

Lemma cut_points_sorted entries a b : StronglySorted lt (findValidCutPoints entries a b).
Proof.
  unfold findValidCutPoints. generalize (b - a)%nat as n. intros n. revert a. induction n as [|n IH]; intros a; [constructor|].
  cbn [seq]. rewrite filter_cons. destruct (decide _); [|apply IH]. constructor; [apply IH|].
  apply Forall_forall. intros x Hx. apply list_elem_of_filter in Hx as [_ Hx]. apply elem_of_seq in Hx. lia.
Qed.

Lemma reverse_seq_S a n : reverse (seq a (S n)) = (a + n)%nat :: reverse (seq a n).
Proof. by rewrite seq_S, reverse_snoc. Qed.

Lemma threshold_spec entries keep a n acc : (a + n <= length entries)%nat -> acc = tokens_from entries (a + n) -> acc < keep ->
  match threshold_index entries keep acc (reverse (seq a n)) with
  | Some i => (a <= i < a + n)%nat /\ tokens_from entries (S i) < keep <= tokens_from entries i
  | None => tokens_from entries a < keep
  end.
Proof.
  revert acc. induction n as [|n IH]; intros acc Hn Hacc Hk.
  { simpl. rewrite Nat.add_0_r in Hacc. lia. }
  rewrite reverse_seq_S. cbn [threshold_index].
  destruct (lookup_lt_is_Some_2 entries (a + n) ltac:(lia)) as [e He]. rewrite He.
  pose proof (tokens_from_S entries (a + n) e He) as Ht. rewrite Nat.add_succ_r in Hacc. rewrite <- Hacc in Ht.
  destruct (is_message e) eqn:Em.
  - destruct (Z.leb_spec keep (acc + message_tokens e)); [split; [lia|]; rewrite <- Hacc; lia|].
    specialize (IH (acc + message_tokens e) ltac:(lia) ltac:(lia) ltac:(lia)).
    destruct (threshold_index _ _ _ _); [destruct IH; split; [lia|done]|done].
  - assert (message_tokens e = 0) as H0 by (unfold message_tokens, is_message in *; by destruct (kind e)).
    specialize (IH acc ltac:(lia) ltac:(lia) Hk). destruct (threshold_index _ _ _ _); [destruct IH; split; [lia|done]|done].
Qed.

Lemma find_first l i : StronglySorted lt l ->
  match List.find (fun c => (i <=? c)%nat) l with
  | Some c => c ∈ l /\ (i <= c)%nat /\ forall j, j ∈ l -> (j < c)%nat -> (j < i)%nat
  | None => forall j, j ∈ l -> (j < i)%nat
  end.
Proof.
  induction 1 as [|x l Hs IH Hx]; simpl; [by intros j ?%elem_of_nil|]. rewrite Forall_forall in Hx.
  destruct (Nat.leb_spec i x).
  - split; [set_solver|]. split; [done|]. intros j [->|Hj]%elem_of_cons Hlt; [lia|]. specialize (Hx _ Hj). lia.
  - destruct (List.find _ l) as [c|].
    + destruct IH as (Hc & Hic & IH). split; [set_solver|]. split; [done|]. intros j [->|Hj]%elem_of_cons Hlt; [lia|auto].
    + intros j [->|Hj]%elem_of_cons; [lia|auto].
Qed.

Lemma last_greatest l m : StronglySorted lt l -> last l = Some m -> m ∈ l /\ forall j, j ∈ l -> (j <= m)%nat.
Proof.
  induction 1 as [|x l Hs IH Hx]; [done|]. rewrite last_cons, Forall_forall in *. intros Hm.
  destruct (last l) as [y|] eqn:El.
  - injection Hm as ->. destruct (IH eq_refl) as [Hm IH']. split; [set_solver|].
    intros j [->|Hj]%elem_of_cons; [|auto]. specialize (Hx _ Hm). lia.
  - injection Hm as ->. apply last_None in El as ->. split; [set_solver|]. intros j ->%list_elem_of_singleton. lia.
Qed.

Lemma cut_from_spec l i : l <> [] -> StronglySorted lt l ->
  cut_from l i ∈ l /\ (forall j, j ∈ l -> (j < cut_from l i)%nat -> (j < i)%nat) /\
  ((i <= cut_from l i)%nat \/ forall j, j ∈ l -> (j <= cut_from l i)%nat).
Proof.
  intros Hne Hs. unfold cut_from. pose proof (find_first l i Hs) as Hf. destruct (List.find _ l) as [c|].
  - destruct Hf as (? & ? & ?). split_and!; auto.
  - destruct (last l) as [m|] eqn:El; [|by apply last_None in El].
    destruct (last_greatest l m Hs El) as [Hm Hmax]. simpl. split_and!; auto.
Qed.

Lemma back_up_spec entries start c : (start <= c < length entries)%nat ->
  (start <= back_up entries start c <= c)%nat /\
  forall i, (back_up entries start c <= i < c)%nat -> at_index is_message entries i = false /\
    at_index (fun e => bool_decide (is_Some (compaction_of e))) entries i = false.
Proof.
  induction c as [|c IH]; intros Hc; [simpl; split; [lia|intros; lia]|]. cbn [back_up].
  destruct (Nat.ltb_spec start (S c)); [|split; [lia|intros; lia]].
  destruct (entries !! c) as [e|] eqn:He; [|split; [lia|intros; lia]].
  destruct (is_message e || bool_decide (is_Some (compaction_of e))) eqn:Eb; [split; [lia|intros; lia]|].
  destruct (IH ltac:(lia)) as [IH1 IH2]. split; [lia|]. intros i Hi. destruct (decide (i = c)) as [->|]; [|apply IH2; lia].
  unfold at_index. rewrite He. by apply orb_false_iff in Eb.
Qed.

(** The cut point [findCutPoint] chooses, before it backs up. *)
Definition chosen (entries : list SessionEntry) (start : nat) (keep : Z) (c : nat) : Prop :=
  (start <= c)%nat /\ at_index is_cut_point entries c = true /\
  (forall j, (start <= j < c)%nat -> at_index is_cut_point entries j = true -> keep <= tokens_from entries j) /\
  (tokens_from entries (S c) < keep \/ forall j, (c < j)%nat -> at_index is_cut_point entries j = false).

Lemma at_index_lt p entries i : at_index p entries i = true -> (i < length entries)%nat.
Proof. unfold at_index. destruct (entries !! i) eqn:E; [|done]. intros _. by apply lookup_lt_Some in E. Qed.

Lemma choice_spec entries start keep : (start <= length entries)%nat -> 0 < keep ->
  let cutPoints := findValidCutPoints entries start (length entries) in
  forall first rest, cutPoints = first :: rest ->
  chosen entries start keep
    match threshold_index entries keep 0 (reverse (seq start (length entries - start))) with
    | Some i => cut_from cutPoints i | None => first end.
Proof.
  intros Hs Hk cutPoints first rest Hcut.
  assert (Helem : forall j, j ∈ cutPoints <-> (start <= j)%nat /\ at_index is_cut_point entries j = true).
  { intros j. unfold cutPoints. rewrite cut_points_elem. split; [intros [[] ?]; done|].
    intros [? Hj]. split; [|done]. apply at_index_lt in Hj. lia. }
  pose proof (cut_points_sorted entries start (length entries)) as Hsort. fold cutPoints in Hsort.
  assert (H0 : 0 = tokens_from entries (start + (length entries - start))).
  { unfold tokens_from. rewrite drop_ge by lia. done. }
  pose proof (threshold_spec entries keep start (length entries - start) 0 ltac:(lia) H0 Hk) as Ht.
  destruct (threshold_index _ _ _ _) as [i|].
  - destruct Ht as (Hi & Ht1 & Ht2). destruct (cut_from_spec cutPoints i ltac:(by rewrite Hcut) Hsort) as (Hin & Hlt & Hge).
    apply Helem in Hin as [Hc1 Hc2]. split_and!; [done..| |].
    + intros j Hj Hjc. etransitivity; [exact Ht2|]. apply tokens_from_mono.
      assert (j < i)%nat; [|lia]. apply Hlt; [by apply Helem; split; [lia|]|lia].
    + destruct Hge as [Hge|Hmax].
      * left. eapply Z.le_lt_trans; [|exact Ht1]. apply tokens_from_mono. lia.
      * right. intros j Hj. destruct (at_index is_cut_point entries j) eqn:E; [|done].
        assert (j <= cut_from cutPoints i)%nat; [|lia]. apply Hmax, Helem. split; [lia|done].
  - rewrite Hcut in Hsort. apply StronglySorted_inv in Hsort as [_ Hx]. rewrite Forall_forall in Hx.
    destruct (proj1 (Helem first)) as [Hc1 Hc2]; [rewrite Hcut; set_solver|]. split_and!; [done..| |].
    + intros j Hj Hjc. assert (Hin : j ∈ cutPoints) by (apply Helem; split; [lia|done]).
      rewrite Hcut in Hin. apply elem_of_cons in Hin as [->|Hin]; [lia|]. specialize (Hx _ Hin). lia.
    + left. eapply Z.le_lt_trans; [|exact Ht]. apply tokens_from_mono. lia.
Qed.

Lemma find_down (p : nat -> bool) a n :
  match List.find p (reverse (seq a n)) with
  | Some t => (a <= t < a + n)%nat /\ p t = true /\ forall i, (t < i < a + n)%nat -> p i = false
  | None => forall i, (a <= i < a + n)%nat -> p i = false
  end.
Proof.
  induction n as [|n IH]; [intros i Hi; lia|]. rewrite reverse_seq_S. cbn [List.find].
  destruct (p (a + n)%nat) eqn:Ep; [split; [lia|split; [done|intros; lia]]|].
  destruct (List.find p _) as [t|].
  - destruct IH as (H1 & H2 & H3). split; [lia|]. split; [done|]. intros i Hi.
    destruct (decide (i = (a + n)%nat)) as [->|]; [done|apply H3; lia].
  - intros i Hi. destruct (decide (i = (a + n)%nat)) as [->|]; [done|apply IH; lia].
Qed.

Lemma turn_start_spec entries k a :
  match findTurnStartIndex entries k a with
  | Some t => (a <= t <= k)%nat /\ at_index is_turn_start entries t = true /\
      forall i, (t < i <= k)%nat -> at_index is_turn_start entries i = false
  | None => forall i, (a <= i <= k)%nat -> at_index is_turn_start entries i = false
  end.
Proof.
  unfold findTurnStartIndex. pose proof (find_down (at_index is_turn_start entries) a (S k - a)) as H.
  destruct (List.find _ _) as [t|].
  - destruct H as (H1 & H2 & H3). split; [lia|]. split; [done|]. intros i Hi. apply H3. lia.
  - intros i Hi. apply H. lia.
Qed.

(** The bounds the preparation needs. *)
Lemma findCutPoint_bounds entries start keep : (start <= length entries)%nat -> 0 < keep ->
  let r := findCutPoint entries start (length entries) keep in
  (start <= firstKeptEntryIndex r)%nat /\
  match turnStartIndex r with
  | Some t => isSplitTurn r = true /\ (start <= t <= firstKeptEntryIndex r)%nat
  | None => isSplitTurn r = false
  end.
Proof.
  intros Hs Hk. cbv zeta. unfold findCutPoint.
  destruct (findValidCutPoints _ _ _) as [|first rest] eqn:Hcut; [simpl; split; [lia|done]|].
  pose proof (choice_spec entries start keep Hs Hk first rest Hcut) as Hc. rewrite Hcut in Hc.
  set (c := match threshold_index _ _ _ _ with Some _ => _ | None => _ end) in *. cbv zeta. simpl.
  destruct Hc as (Hc1 & Hc2 & _). destruct (back_up_spec entries start c) as [Hb _]; [split; [done|by eapply at_index_lt]|].
  set (k := back_up entries start c) in *. split; [lia|].
  destruct (at_index is_user entries k); simpl; [done|].
  pose proof (turn_start_spec entries k start) as Ht. destruct (findTurnStartIndex entries k start) as [t|]; simpl; [|done].
  split; [done|lia].
Qed.

(** The cut of a conversation. When no message can start the kept part, everything is kept. Otherwise the
    kept part starts with a message the provider accepts there, in particular not with a tool result (entries
    that are not messages may come before it): every earlier such cut would keep at least the tokens asked
    for, and the messages after the first kept one stay below them, unless only tool results are left to cut
    at. A cut inside a turn is reported with the entry that starts this turn. *)
Theorem findCutPoint_spec (entries : list SessionEntry) (start : nat) (keep : Z)
    (Hs : (start <= length entries)%nat) (Hk : 0 < keep) :
  let r := findCutPoint entries start (length entries) keep in
  let k := firstKeptEntryIndex r in
  ((k = start /\ forall i, (start <= i)%nat -> at_index is_cut_point entries i = false) \/
   exists c, chosen entries start keep c /\ (start <= k <= c)%nat /\
     forall i, (k <= i < c)%nat -> at_index is_message entries i = false) /\
  match turnStartIndex r with
  | Some t => isSplitTurn r = true /\ (start <= t <= k)%nat /\ at_index is_user entries k = false /\
      at_index is_turn_start entries t = true /\ forall i, (t < i <= k)%nat -> at_index is_turn_start entries i = false
  | None => isSplitTurn r = false
  end.
Proof.
  cbv zeta. unfold findCutPoint. destruct (findValidCutPoints _ _ _) as [|first rest] eqn:Hcut.
  { simpl. split; [|done]. left. split; [done|]. intros i Hi.
    destruct (at_index is_cut_point entries i) eqn:E; [|done]. pose proof (at_index_lt _ _ _ E).
    assert (Hin : i ∈ findValidCutPoints entries start (length entries)) by (apply cut_points_elem; split; [lia|done]).
    rewrite Hcut in Hin. by apply elem_of_nil in Hin. }
  pose proof (choice_spec entries start keep Hs Hk first rest Hcut) as Hc. rewrite Hcut in Hc.
  set (c := match threshold_index _ _ _ _ with Some _ => _ | None => _ end) in *. cbv zeta. simpl.
  destruct (back_up_spec entries start c) as [Hb Hbm]; [split; [apply Hc|eapply at_index_lt, Hc]|].
  set (k := back_up entries start c) in *. split.
  - right. exists c. split; [done|]. split; [done|]. intros i Hi. by apply Hbm.
  - destruct (at_index is_user entries k) eqn:Eu; simpl; [done|].
    pose proof (turn_start_spec entries k start) as Ht. destruct (findTurnStartIndex entries k start) as [t|]; simpl; [|done].
    destruct Ht as (H1 & H2 & H3). done.
Qed.

Definition entry_at (i : Z) (k : Kind) : SessionEntry :=
  {| e_id := js "e" ++ show_Z i; parentId := if i =? 0 then None else Some (js "e" ++ show_Z (i - 1)); e_timestamp := i; kind := k |}.
Definition user_says (s : jsstr) : Kind := KMessage (User {| u_content := CString s; u_timestamp := 0 |}).
Definition assistant_says (s : jsstr) : Kind :=
  KMessage (Assistant {| a_content := [AText (mkText s)]; api := []; provider := []; model := []; usage := emptyUsage;
                         stopReason := Stop; errorMessage := None; a_timestamp := 0 |}).
Definition two_turns : list SessionEntry :=
  [entry_at 0 (user_says (js "first question")); entry_at 1 (assistant_says (js "first answer"));
   entry_at 2 (KModel (js "p") (js "m")); entry_at 3 (user_says (js "second question"));
   entry_at 4 (assistant_says (js "second answer"))].

Lemma findCutPoint_spec_witness :
  (0 <= length two_turns)%nat /\ 0 < 4 /\
  (0 <= firstKeptEntryIndex (findCutPoint two_turns 0 (length two_turns) 4))%nat /\
  turnStartIndex (findCutPoint two_turns 0 (length two_turns) 4) = Some 3%nat /\
  isSplitTurn (findCutPoint two_turns 0 (length two_turns) 4) = true.
Proof.
  pose proof (findCutPoint_spec two_turns 0 4 ltac:(simpl; lia) ltac:(lia)) as H. cbv zeta in H.
  assert (Ht : turnStartIndex (findCutPoint two_turns 0 (length two_turns) 4) = Some 3%nat) by reflexivity.
  destruct H as [_ H]. rewrite Ht in H. split; [lia|]. split; [lia|]. split; [lia|]. split; [exact Ht|]. apply H.
Defined.

(** Cutting before the second question backs up over the change of the model; the first kept entry is then no
    user message, and the whole first turn counts as the beginning of a split turn. *)
Example cut_before_model_change :
  findCutPoint two_turns 0 5 8 = {| firstKeptEntryIndex := 2; turnStartIndex := Some 0%nat; isSplitTurn := true |}.
Proof. reflexivity. Qed.

(** ** The context of a path *)

Lemma rooted_mid p pre e post : rooted p (pre ++ e :: post) ->
  parentId e = match last pre with Some l => Some (e_id l) | None => p end.
Proof.
  revert p. induction pre as [|x pre IH]; intros p; [by intros []|]. intros [_ H]. rewrite (IH _ H), last_cons.
  by destruct (last pre).
Qed.

Definition index_of (path : list SessionEntry) : jsmap jsstr SessionEntry := (fun e => (e_id e, e)) <$> path.

Lemma fold_index path : NoDup (e_id <$> path) -> foldl (fun m e => set m (e_id e) e) [] path = index_of path.
Proof.
  induction path as [|e path IH] using rev_ind; [done|]. rewrite fmap_app. intros (Hn & Hd & _)%NoDup_app.
  unfold index_of. rewrite foldl_app, fmap_app. simpl. rewrite IH by done. apply set_new. rewrite index_keys.
  intros Hin. apply (Hd _ Hin). set_solver.
Qed.

Lemma walk_path path pre e post : path = pre ++ e :: post -> rooted None path -> NoDup (e_id <$> path) ->
  Forall (fun i => i <> []) (e_id <$> path) ->
  walk (S (length pre)) (index_of path) (Some e) = Some (reverse (pre ++ [e])).
Proof.
  intros Hpath Hr Hn Hne. revert e post Hpath. induction pre as [|x pre IH] using rev_ind; intros e post Hpath.
  - pose proof Hr as Hr'. rewrite Hpath in Hr'. pose proof (rooted_mid None [] e post Hr') as Hp. simpl in Hp.
    cbn [walk length]. unfold parent_of. by rewrite Hp.
  - rewrite length_app, Nat.add_1_r. cbn [walk]. pose proof Hr as Hr'. rewrite Hpath in Hr'. apply rooted_mid in Hr'.
    rewrite last_snoc in Hr'. unfold parent_of at 1. rewrite Hr'.
    assert (Ht : truthy (Some (e_id x)) = true).
    { assert (e_id x <> []); [|by destruct (e_id x)]. rewrite Hpath, Forall_forall in Hne. apply Hne.
      apply list_elem_of_fmap_2. set_solver. }
    rewrite Ht. cbn [default from_option].
    assert (get (index_of path) (Datatypes.id (e_id x)) = Some x) as ->.
    { apply get_nodup; [by unfold index_of; rewrite index_keys|]. apply list_elem_of_fmap. exists x. split; [done|]. rewrite Hpath. set_solver. }
    specialize (IH x (e :: post)). rewrite <- (assoc_L app) in Hpath. specialize (IH Hpath). cbn [walk] in IH.
    change (cons e <$> (cons x <$> walk (length pre) (index_of path) (parent_of (index_of path) x)) = Some (reverse ((pre ++ [x]) ++ [e]))).
    change (cons x <$> walk (length pre) (index_of path) (parent_of (index_of path) x) = Some (reverse (pre ++ [x]))) in IH.
    rewrite IH. simpl. by rewrite (reverse_app _ [e]).
Qed.

(** The context of a whole branch, built from its entries alone. *)
Lemma build_path path : rooted None path -> NoDup (e_id <$> path) -> Forall (fun i => i <> []) (e_id <$> path) ->
  buildSessionContext path None None = Some (path_context path).
Proof.
  intros Hr Hn Hne. unfold buildSessionContext. destruct (last path) as [e|] eqn:El.
  - apply last_Some in El as [pre Hpath]. rewrite fold_index by done.
    pose proof (walk_path path pre e [] Hpath Hr Hn Hne) as Hw.
    unfold index_of at 1. rewrite length_fmap.
    rewrite (walk_le (S (length pre)) (S (length path)) (index_of path) (Some e) _ ltac:(rewrite Hpath, length_app; simpl; lia) Hw).
    simpl. by rewrite reverse_involutive, <- Hpath.
  - by apply last_None in El as ->.
Qed.

(** ** What a compaction keeps *)

Lemma from_id_find i l : from_id i l = match list_find (fun e => e_id e = i) l with Some (k, _) => drop k l | None => [] end.
Proof.
  induction l as [|e l IH]; [done|]. cbn [from_id list_find]. destruct (decide (e_id e = i)); [done|]. rewrite IH.
  by destruct (list_find _ l) as [[k x]|].
Qed.

Lemma from_id_lookup k e path : NoDup (e_id <$> path) -> path !! k = Some e -> from_id (e_id e) path = drop k path.
Proof.
  revert k. induction path as [|x path IH]; intros k Hn Hk; [done|]. rewrite fmap_cons in Hn. apply list.NoDup_cons in Hn as [Hx Hn].
  destruct k as [|k]; [injection Hk as ->; simpl; by rewrite decide_True|]. cbn [from_id lookup list_lookup] in *.
  rewrite decide_False; [by apply IH|]. intros Heq. apply Hx. rewrite Heq. apply list_elem_of_fmap_2. by eapply list_elem_of_lookup_2.
Qed.

Lemma prev_compaction_spec path :
  match prev_compaction path with
  | Some (i, c) => exists pre e post, path = pre ++ e :: post /\ length pre = i /\ compaction_of e = Some c /\
      last_compaction path = Some (e, c) /\ Forall (fun e => compaction_of e = None) post
  | None => last_compaction path = None /\ Forall (fun e => compaction_of e = None) path
  end.
Proof.
  induction path as [|x path IH] using rev_ind; [by split|].
  unfold prev_compaction in *. rewrite imap_app, foldl_app, last_compaction_snoc. cbn [foldl imap snd fst]. rewrite Nat.add_0_r.
  destruct (compaction_of x) as [c|] eqn:Ex; [exists path, x, []; by split_and!|].
  destruct (foldl _ None (imap pair path)) as [[i c]|].
  - destruct IH as (pre & e & post & -> & Hi & Hc & Hl & Hp). exists pre, e, (post ++ [x]). rewrite <- (assoc_L app).
    split_and!; try done. apply Forall_app. by split; [|apply Forall_singleton].
  - destruct IH as [Hl Hp]. split; [done|]. apply Forall_app. by split; [|apply Forall_singleton].
Qed.

(** The first kept entry of the last compaction does not come after it: [prepareCompaction] only names entries
    of the branch so far. *)
Definition kept_before (path : list SessionEntry) : Prop :=
  forall pre e c post, path = pre ++ e :: post -> compaction_of e = Some c ->
    Forall (fun e => compaction_of e = None) post -> firstKeptEntryId c ∉ e_id <$> post.

Definition last_summary (path : list SessionEntry) : list AgentMessage :=
  match last_compaction path with Some _ => take 1 (path_messages path) | None => [] end.

(** The context is the last summary and the messages from the boundary on. *)
Lemma path_messages_boundary path : NoDup (e_id <$> path) -> kept_before path ->
  path_messages path = last_summary path ++ omap entry_message (drop (boundary_start path) path) /\
  (boundary_start path <= length path)%nat.
Proof.
  intros Hn Hk. unfold boundary_start, last_summary. pose proof (prev_compaction_spec path) as H.
  destruct (prev_compaction path) as [[i c]|].
  2:{ destruct H as [Hl _]. unfold path_messages. rewrite Hl. split; [done|lia]. }
  destruct H as (pre & e & post & Hpath & Hi & Hc & Hl & Hp). rewrite Hl. specialize (Hk pre e c post Hpath Hc Hp).
  assert (He : e_id e ∉ e_id <$> pre).
  { rewrite Hpath, fmap_app in Hn. apply NoDup_app in Hn as (_ & Hd & _). intros Hin. apply (Hd _ Hin). rewrite fmap_cons. set_solver. }
  rewrite Hpath, (path_messages_split pre e c post Hc He Hp). cbv zeta. cbn [take app]. rewrite take_0, from_id_find.
  assert (Hdrop : forall k, (k <= length pre)%nat -> omap entry_message (drop k (pre ++ e :: post)) =
    omap entry_message (drop k pre) ++ omap entry_message post).
  { intros k Hle. rewrite drop_app_le, omap_app by done. f_equal. cbn [omap list_omap]. by rewrite (entry_message_compaction e c Hc). }
  destruct (list_find (fun x => e_id x = firstKeptEntryId c) pre) as [[k x]|] eqn:Ef.
  - rewrite (list_find_app_l _ pre (e :: post) k x Ef). apply list_find_Some in Ef as (Hk1 & _ & _).
    apply lookup_lt_Some in Hk1. rewrite Hdrop by lia. split; [done|]. rewrite length_app. lia.
  - rewrite (list_find_app_r _ pre (e :: post) Ef). cbn [list_find]. destruct (decide (e_id e = firstKeptEntryId c)).
    + simpl. rewrite Hdrop by lia. rewrite drop_ge by lia. split; [done|]. rewrite length_app. simpl. lia.
    + destruct (list_find (fun x => e_id x = firstKeptEntryId c) post) as [[k x]|] eqn:Ep.
      { exfalso. apply list_find_Some in Ep as (Hk1 & Hk2 & _). apply Hk. rewrite <- Hk2. apply list_elem_of_fmap_2.
        by eapply list_elem_of_lookup_2. }
      simpl. rewrite <- Hi, length_app. split; [|simpl; lia]. do 2 f_equal.
      change (e :: post) with ([e] ++ post). rewrite (assoc_L app). symmetry. apply drop_app_length'. rewrite length_app. simpl. lia.
Qed.

Lemma between_app {A} (a b c : nat) (l : list A) : (a <= b <= c)%nat -> between a b l ++ between b c l = between a c l.
Proof.
  intros H. unfold between. rewrite <- (take_drop (b - a) (take (c - a) (drop a l))).
  rewrite take_take, skipn_firstn_comm, drop_drop. f_equal; [f_equal; lia|]. f_equal; [lia|f_equal; lia].
Qed.

Lemma between_drop {A} (a b : nat) (l : list A) : (a <= b)%nat -> between a b l ++ drop b l = drop a l.
Proof. intros H. unfold between. rewrite <- (take_drop (b - a) (drop a l)) at 2. rewrite drop_drop. do 2 f_equal. lia. Qed.

(** A preparation names a kept entry of the branch; what comes between the boundary and it is summarised. *)
Lemma prepareCompaction_parts path settings p : (boundary_start path <= length path)%nat -> 0 < keepRecentTokens settings ->
  prepareCompaction path settings = Some (Some p) ->
  exists k e, path !! k = Some e /\ (boundary_start path <= k)%nat /\ prep_firstKeptEntryId p = e_id e /\
    messagesToSummarize p ++ turnPrefixMessages p =
      omap getMessageFromEntryForCompaction (between (boundary_start path) k path) /\
    previousSummary p = cmp_summary <$> (snd <$> prev_compaction path) /\
    exists ctx, buildSessionContext path None None = Some ctx /\
      prep_tokensBefore p = tokens (estimateContextTokens (messages ctx)).
Proof.
  intros Hb Hk. unfold prepareCompaction. destruct (match last path with Some _ => _ | None => _ end); [done|].
  destruct (buildSessionContext path None None) as [ctx|]; [|done]. cbn [mbind option_bind].
  pose proof (findCutPoint_bounds path (boundary_start path) (keepRecentTokens settings) Hb Hk) as [H1 H2].
  set (r := findCutPoint _ _ _ _) in *. destruct (path !! firstKeptEntryIndex r) as [e|] eqn:He; [|done].
  destruct (negb (truthy (Some (e_id e)))); [done|].
  destruct (_ && _ && _); [done|]. intros [= <-]. cbn [messagesToSummarize turnPrefixMessages prep_firstKeptEntryId previousSummary prep_tokensBefore].
  exists (firstKeptEntryIndex r), e. split_and!; try done; [|by exists ctx].
  destruct (turnStartIndex r) as [t|].
  - destruct H2 as [-> Ht]. simpl. by rewrite <- omap_app, between_app.
  - rewrite H2. by rewrite app_nil_r.
Qed.

(** C14. Preparing a compaction loses nothing. Let a branch be prepared for compaction and the compaction, with any summary,
    appended with the first kept entry the preparation names. The old context was the last summary, if any,
    and the messages of some entries that split into dropped ones and kept ones. The messages the
    preparation hands over to be summarised (the history and the prefix of a split turn, in order) are exactly
    those of the dropped entries, together with the last summary; the new context is the new summary and the
    messages of the kept entries. The token count before is the estimate of the old context. *)
Theorem preparation_loses_nothing (en : env) (s : session) (settings : CompactionSettings) (path : list SessionEntry)
    (p : CompactionPreparation) (c : Compaction) (Hw : wf s) (Hf : fresh en s) (Hpath : getBranch s None = Some path)
    (Hord : kept_before path) (Hkeep : 0 < keepRecentTokens settings)
    (Hp : prepareCompaction path settings = Some (Some p)) (Hc : firstKeptEntryId c = prep_firstKeptEntryId p) :
  exists old new dropped kept,
    session_context s = Some old /\ session_context (appendCompaction en c s).2 = Some new /\
    messages old = last_summary path ++ omap entry_message dropped ++ omap entry_message kept /\
    messagesToSummarize p ++ turnPrefixMessages p = omap getMessageFromEntryForCompaction dropped /\
    previousSummary p = cmp_summary <$> (snd <$> last_compaction path) /\
    messages new = summary_message (new_entry en (KCompaction c) s) c (length (omap entry_message kept)) :: omap entry_message kept /\
    prep_tokensBefore p = tokens (estimateContextTokens (messages old)).
Proof.
  destruct (getBranch_spec s None Hw) as (l & Hl & Hr & Hsub & _). rewrite Hpath in Hl. injection Hl as <-.
  pose proof (getBranch_ids_nodup s None path Hw Hpath) as Hn.
  assert (Hne : Forall (fun i => i <> []) (e_id <$> path)).
  { apply Forall_forall. intros i (e & -> & He)%list_elem_of_fmap. pose proof (wf_ids s Hw) as Hi.
    eapply Forall_forall in Hi; [exact Hi|]. apply list_elem_of_fmap_2. by apply Hsub. }
  destruct (path_messages_boundary path Hn Hord) as [Hm Hb].
  destruct (prepareCompaction_parts path settings p Hb Hkeep Hp) as (k & e & He & Hbk & Hid & Hparts & Hprev & ctx & Hctx & Htok).
  rewrite build_path in Hctx by done. injection Hctx as <-.
  exists (path_context path), (path_context (path ++ [new_entry en (KCompaction c) s])), (between (boundary_start path) k path), (drop k path).
  unfold appendCompaction. rewrite !session_context_branch by auto using append_wf.
  rewrite (append_branch en _ s Hw Hf), Hpath. split; [done|]. split; [done|].
  rewrite (path_context_compact path _ c) by (done || by eapply branch_fresh_id).
  rewrite Hc, Hid, (from_id_lookup k e path Hn He). split; [|split; [done|split; [|done]]].
  - unfold path_context. cbn [messages]. rewrite Hm at 1. f_equal. by rewrite <- omap_app, between_drop.
  - rewrite Hprev. pose proof (prev_compaction_spec path) as H. destruct (prev_compaction path) as [[i c0]|].
    + destruct H as (pre & e0 & post & _ & _ & _ & -> & _). done.
    + by destruct H as [-> _].
Qed.

Definition keep_little : CompactionSettings := {| enabled := true; reserveTokens := 16384; keepRecentTokens := 1 |}.

Lemma demo_kept_before : kept_before (getEntries demo_talk).
Proof.
  intros pre e c post Hpath Hc _. exfalso.
  assert (Hno : Forall (fun e => compaction_of e = None) (getEntries demo_talk)) by (repeat constructor).
  rewrite Hpath, Forall_app, Forall_cons in Hno. destruct Hno as (_ & He & _). congruence.
Qed.

Lemma preparation_loses_nothing_witness :
  wf demo_talk /\ fresh demo_env3 demo_talk /\ getBranch demo_talk None = Some (getEntries demo_talk) /\
  kept_before (getEntries demo_talk) /\ exists p, prepareCompaction (getEntries demo_talk) keep_little = Some (Some p) /\
  exists old new dropped kept, session_context demo_talk = Some old /\
    session_context (appendCompaction demo_env3 demo_compaction demo_talk).2 = Some new /\
    messages old = omap entry_message dropped ++ omap entry_message kept /\
    messagesToSummarize p ++ turnPrefixMessages p = omap getMessageFromEntryForCompaction dropped.
Proof.
  assert (Hb : getBranch demo_talk None = Some (getEntries demo_talk)) by reflexivity.
  split; [exact demo_talk_wf|]. split; [exact demo_talk_fresh|]. split; [exact Hb|]. split; [exact demo_kept_before|].
  assert (Hid : match prepareCompaction (getEntries demo_talk) keep_little with
    | Some (Some p) => prep_firstKeptEntryId p | _ => [] end = js "id1") by (vm_compute; reflexivity).
  destruct (prepareCompaction (getEntries demo_talk) keep_little) as [[p|]|] eqn:Hp; [|discriminate Hid..].
  exists p. split; [reflexivity|].
  destruct (preparation_loses_nothing demo_env3 demo_talk keep_little _ p demo_compaction demo_talk_wf demo_talk_fresh
    Hb demo_kept_before ltac:(simpl; lia) Hp (eq_sym Hid)) as (old & new & dropped & kept & H1 & H2 & H3 & H4 & _).
  exists old, new, dropped, kept. split; [exact H1|]. split; [exact H2|]. split; [exact H3|exact H4].
Defined.
