(* ===== verification/ContextStats.v ===== *)
(** * Counters of the context (core/context-stats.ts)

    What one turn added to the context, counted in bytes and messages, and the
    bounded history of the last turns. *)

(* Source aliases:
   CS = src/packages/coding-agent/src/core/context-stats.ts *)

From S2P Require Import Prelude JsString JsNumber Messages Tokens.
Local Open Scope Z_scope.

(** CS 10-22 ContextStats. *)
Record ContextStats := {
  st_turnIndex : Z; st_inputTokens : Z; st_outputTokens : Z; st_cacheReadTokens : Z; st_cacheWriteTokens : Z;
  st_toolResultBytes : Z; st_imageBytes : Z; st_estimatedContextTokens : Z; st_toolResultsCapped : Z;
  st_imagesEvicted : Z; st_janitorCompressedMessages : Z }.

(** ** The history *)

(** CS 41-41 CONTEXT_STATS_HISTORY_LIMIT. *)
Definition CONTEXT_STATS_HISTORY_LIMIT : nat := 8.
(** CS 52-55 createContextStatsHistory. The [push] of the history. *)
Definition history_push (limit : nat) (entries : list ContextStats) (stats : ContextStats) : list ContextStats :=
  let entries := entries ++ [stats] in
  if (limit <? length entries)%nat then drop (length entries - limit) entries else entries.
(** CS 49-60 createContextStatsHistory. The history after some turns. *)
Definition createContextStatsHistory (limit : nat) (turns : list ContextStats) : list ContextStats :=
  foldl (history_push limit) [] turns.

(** ** Sizes *)

(** CS 64-66 utf8Bytes. *)
Definition utf8Bytes (s : jsstr) : Z := byteLength s.

(** CS 69-75 estimateBase64Bytes. *)
Definition estimateBase64Bytes (data : jsstr) : Z :=
  match data with
  | [] => 0
  | _ =>
      let padding := if ends_with (js "==") data then 2 else if ends_with (js "=") data then 1 else 0 in
      Z.max 0 (strlen data * 3 / 4 - padding)
  end.

(** CS 77-90 contentByteSize. The total and the share of the images. *)
Definition contentByteSize (content : list Part) : Z * Z :=
  foldl (fun acc part =>
    match part with
    | PText t => (acc.1 + utf8Bytes (text t), acc.2)
    | PImage i => (acc.1 + estimateBase64Bytes (data i), acc.2 + estimateBase64Bytes (data i))
    end) (0, 0) content.

(** ** The accumulator *)

(** CS 93-97 createContextStatsAccumulator. *)
Record accumulator := {
  toolResultBytes : Z; imageBytes : Z; toolResultsCapped : Z; imagesEvicted : Z; janitorCompressedMessages : Z }.
(** CS 135-141 createContextStatsAccumulator. The state a reset leaves, and the first one. *)
Definition accumulator_empty : accumulator :=
  {| toolResultBytes := 0; imageBytes := 0; toolResultsCapped := 0; imagesEvicted := 0; janitorCompressedMessages := 0 |}.

(** CS 100-107 createContextStatsAccumulator. *)
Definition observeToolResult (content : list Part) (capped : bool) (a : accumulator) : accumulator :=
  let size := contentByteSize content in
  {| toolResultBytes := toolResultBytes a + size.1; imageBytes := imageBytes a + size.2;
     toolResultsCapped := toolResultsCapped a + (if capped then 1 else 0);
     imagesEvicted := imagesEvicted a; janitorCompressedMessages := janitorCompressedMessages a |}.
(** CS 108-110 createContextStatsAccumulator. *)
Definition observeEviction (imageCount : Z) (a : accumulator) : accumulator :=
  {| toolResultBytes := toolResultBytes a; imageBytes := imageBytes a; toolResultsCapped := toolResultsCapped a;
     imagesEvicted := imagesEvicted a + imageCount; janitorCompressedMessages := janitorCompressedMessages a |}.
(** CS 111-113 createContextStatsAccumulator. *)
Definition observeJanitor (messagesCompressed : Z) (a : accumulator) : accumulator :=
  {| toolResultBytes := toolResultBytes a; imageBytes := imageBytes a; toolResultsCapped := toolResultsCapped a;
     imagesEvicted := imagesEvicted a; janitorCompressedMessages := janitorCompressedMessages a + messagesCompressed |}.
(** CS 114-134 createContextStatsAccumulator. *)
Definition snapshot (turnIndex : Z) (u : Usage) (messages : list AgentMessage) (a : accumulator) : ContextStats :=
  {| st_turnIndex := turnIndex; st_inputTokens := input u; st_outputTokens := output u;
     st_cacheReadTokens := cacheRead u; st_cacheWriteTokens := cacheWrite u;
     st_toolResultBytes := toolResultBytes a; st_imageBytes := imageBytes a;
     st_estimatedContextTokens := tokens (estimateContextTokens messages);
     st_toolResultsCapped := toolResultsCapped a; st_imagesEvicted := imagesEvicted a;
     st_janitorCompressedMessages := janitorCompressedMessages a |}.

(** CS 146-160 formatContextStatsLine. *)
Definition formatContextStatsLine (s : ContextStats) : jsstr :=
  join (js " ") [
    js "turn=" ++ show_Z (st_turnIndex s); js "input=" ++ show_Z (st_inputTokens s);
    js "output=" ++ show_Z (st_outputTokens s); js "cacheRead=" ++ show_Z (st_cacheReadTokens s);
    js "cacheWrite=" ++ show_Z (st_cacheWriteTokens s); js "toolResultBytes=" ++ show_Z (st_toolResultBytes s);
    js "imageBytes=" ++ show_Z (st_imageBytes s); js "estContext=" ++ show_Z (st_estimatedContextTokens s);
    js "capped=" ++ show_Z (st_toolResultsCapped s); js "evicted=" ++ show_Z (st_imagesEvicted s);
    js "janitor=" ++ show_Z (st_janitorCompressedMessages s)].

(** ** The history keeps the last turns *)

(** The history is the last [limit] turns, oldest first. *)
Lemma history_recent limit turns :
  createContextStatsHistory limit turns = drop (length turns - limit) turns.
Proof.
  unfold createContextStatsHistory. induction turns as [|t turns IH] using rev_ind; [done|].
  rewrite foldl_app, IH. cbn [foldl]. unfold history_push. rewrite !length_app, length_drop. simpl.
  destruct (decide (limit <= length turns)%nat).
  - destruct (Nat.ltb_spec limit (length turns - (length turns - limit) + 1)); [|lia].
    replace (length turns - (length turns - limit) + 1 - limit)%nat with 1%nat by lia.
    rewrite <- (drop_app_le turns [t] (length turns - limit)) by lia.
    rewrite drop_drop. f_equal. lia.
  - replace (length turns - limit)%nat with 0%nat by lia. rewrite drop_0.
    destruct (Nat.ltb_spec limit (length turns - 0 + 1)).
    + assert (limit = length turns)%nat by lia. lia.
    + replace (length turns + 1 - limit)%nat with 0%nat by lia. by rewrite drop_0.
Qed.

(** The observations of a tool result add up, and the images are part of the total. *)
Lemma contentByteSize_sum content :
  contentByteSize content =
    (sumZ (fun p => match p with PText t => utf8Bytes (text t) | PImage i => estimateBase64Bytes (data i) end) content,
     sumZ (fun p => match p with PText _ => 0 | PImage i => estimateBase64Bytes (data i) end) content).
Proof.
  unfold contentByteSize. induction content as [|p content IH] using rev_ind; [done|].
  rewrite foldl_app, IH, !sumZ_app, !sumZ_cons. destruct p; simpl; f_equal; unfold sumZ; simpl; lia.
Qed.
