(* ===== verification/ContextHooks.v ===== *)
(** * The context hooks of a session (core/agent-session.ts)

    Before every request the session rewrites the provider's view of the
    transcript: stale images are evicted, and the janitor compresses superseded
    tool output, at most once per window. The turn of the last prune is kept in
    memory and in the session log. *)

(* Source aliases:
   AS = src/packages/coding-agent/src/core/agent-session.ts *)

From stdpp Require Import gmap.
From S2P Require Import Prelude JsString JsNumber JsMap Messages Tokens ImageTtl ContextJanitor ContextStats.
From S2P Require Import SummaryText SessionEntries SessionTree SessionFacts.
Local Open Scope Z_scope.

(** ** The persisted watermark *)

(** AS 1114-1114 CONTEXT_JANITOR_STATE_CUSTOM_TYPE. *)
Definition CONTEXT_JANITOR_STATE_CUSTOM_TYPE : jsstr := js "context_janitor_state".

(** AS 2072-2072 _persistContextJanitorPruneTurn. The data that is stored. *)
Definition janitor_state (lastPruneTurn : Z) : json := JObj [(js "lastPruneTurn", JNum (show_Z lastPruneTurn))].

(** AS 1161-1167 isPersistedContextJanitorState. With the turn it holds. *)
Definition isPersistedContextJanitorState (value : option json) : option Z :=
  match value ≫= (fun v => property v (js "lastPruneTurn")) with
  | Some (JNum t) => integer t
  | _ => None
  end.

(** AS 2056-2063 _contextJanitorPruneTurn. *)
Definition persisted_turn (e : SessionEntry) : option Z :=
  match kind e with
  | KCustom ty data => if jseqb ty CONTEXT_JANITOR_STATE_CUSTOM_TYPE then isPersistedContextJanitorState data else None
  | _ => None
  end.

(** ** The janitor's clock *)

(** AS 1585-1587 _contextJanitorTurn. The clock, and the last prune: not looked up yet ([None]), never
    ([Some None]), or its turn. *)
Record clock := { turn : Z; lastPrune : option (option Z) }.
Definition clock_start : clock := {| turn := 0; lastPrune := None |}.

(** AS 2050-2067 _contextJanitorPruneTurn. [None] when the branch of the session has no end. *)
Definition contextJanitorPruneTurn (s : session) (c : clock) : option (option Z * clock) :=
  match lastPrune c with
  | Some l => Some (l, c)
  | None =>
      branch ← getBranch s None;
      let l := head (omap persisted_turn (reverse branch)) in
      Some (l, {| turn := turn c; lastPrune := Some l |})
  end.

(** AS 2069-2076 _persistContextJanitorPruneTurn. A write that fails is ignored. *)
Definition persistContextJanitorPruneTurn (en : env) (lastPruneTurn : Z) (c : clock) (s : session) : clock * session :=
  ({| turn := turn c; lastPrune := Some (Some lastPruneTurn) |},
   (appendCustomEntry en CONTEXT_JANITOR_STATE_CUSTOM_TYPE (Some (janitor_state lastPruneTurn)) s).2).

(** AS 2032-2032 _applyContextJanitor. The configuration it takes. *)
Record JanitorConfig := { cfg_minTokens : Z; cfg_minTurns : Z; cfg_successDumpMinBytes : Z }.

(** The session as the hooks see it. *)
Record hooks := { h_clock : clock; h_stats : accumulator; h_session : session }.

(** AS 2035-2041 _applyContextJanitor. *)
Definition janitor_options_at (config : JanitorConfig) (now : Z) (last : option Z) : ContextJanitorOptions :=
  {| minTokens := cfg_minTokens config; minTurns := cfg_minTurns config; turnIndex := now; lastPruneTurn := last;
     minFailures := None; activeWindowTurns := None; successDumpMinBytes := Some (cfg_successDumpMinBytes config) |}.

(** AS 2030-2048 _applyContextJanitor. With the turns it pruned at: [true] when this call prunes. *)
Definition applyContextJanitor (en : env) (config : JanitorConfig) (messages : list AgentMessage) (h : hooks)
    : option (list AgentMessage * bool * hooks) :=
  let c := {| turn := turn (h_clock h) + 1; lastPrune := lastPrune (h_clock h) |} in
  '(last, c) ← contextJanitorPruneTurn (h_session h) c;
  let plan := planContextJanitor messages (janitor_options_at config (turn c) last) in
  if negb (changed plan) then Some (messages, false, {| h_clock := c; h_stats := h_stats h; h_session := h_session h |})
  else
    let '(c, s) := persistContextJanitorPruneTurn en (turn c) c (h_session h) in
    Some (ContextJanitor.plan_messages plan, true,
          {| h_clock := c; h_stats := observeJanitor (messagesCompressed plan) (h_stats h); h_session := s |}).

(** The budget's parts the hooks read. *)
Record HookBudget := { hb_imageTtl : option ImageTtlOptions; hb_janitor : option JanitorConfig }.

(** AS 2007-2022 _installContextBudgetHooks. What the installed hook does with the transformed messages. *)
Definition contextBudgetHook (en : env) (budget : HookBudget) (transformed : list AgentMessage) (h : hooks)
    : option (list AgentMessage * bool * hooks) :=
  let '(next, h) :=
    match hb_imageTtl budget with
    | Some options =>
        let plan := planImageEviction transformed options in
        if evicted plan
        then (ImageTtl.plan_messages plan,
              {| h_clock := h_clock h; h_stats := observeEviction (evictedImages plan) (h_stats h); h_session := h_session h |})
        else (transformed, h)
    | None => (transformed, h)
    end in
  match hb_janitor budget with
  | Some config => applyContextJanitor en config next h
  | None => Some (next, false, h)
  end.

(** ** Reading the watermark back *)

Lemma persisted_state z : isPersistedContextJanitorState (Some (janitor_state z)) = Some z.
Proof. unfold isPersistedContextJanitorState, janitor_state. cbn [mbind option_bind property get]. rewrite decide_True by done. apply integer_show. Qed.

(** ** The janitor prunes once per window *)

Lemma changed_gate messages o : changed (planContextJanitor messages o) = true ->
  match lastPruneTurn o with Some last => minTurns o <= turnIndex o - last | None => True end.
Proof.
  unfold planContextJanitor. destruct (lastPruneTurn o) as [l|]; [|done].
  destruct (Z.ltb_spec (turnIndex o - l) (minTurns o)); [done|lia].
Qed.

(** One request, with the session as the rest of the program left it: the view that is sent, whether the
    janitor pruned, and the hooks after it. *)
Record request := { q_env : env; q_session : session; q_messages : list AgentMessage }.
Definition view_session (s : session) (h : hooks) : hooks :=
  {| h_clock := h_clock h; h_stats := h_stats h; h_session := s |}.
Fixpoint requests (config : JanitorConfig) (qs : list request) (h : hooks) : list (list AgentMessage * bool) :=
  match qs with
  | [] => []
  | q :: qs =>
      match applyContextJanitor (q_env q) config (q_messages q) (view_session (q_session q) h) with
      | None => []
      | Some (view, pruned, h) => (view, pruned) :: requests config qs h
      end
  end.

Lemma apply_spec en config messages h view pruned h' : applyContextJanitor en config messages h = Some (view, pruned, h') ->
  turn (h_clock h') = turn (h_clock h) + 1 /\
  (if pruned then lastPrune (h_clock h') = Some (Some (turn (h_clock h'))) /\
     (forall l, lastPrune (h_clock h) = Some (Some l) -> cfg_minTurns config <= turn (h_clock h') - l)
   else view = messages /\ (forall l, lastPrune (h_clock h) = Some l -> lastPrune (h_clock h') = Some l)).
Proof.
  unfold applyContextJanitor. destruct (contextJanitorPruneTurn _ _) as [[last c]|] eqn:Ec; [|done]. cbn [mbind option_bind].
  assert (Hc : turn c = turn (h_clock h) + 1 /\ (forall l, lastPrune (h_clock h) = Some l -> last = l /\ lastPrune c = Some l)).
  { unfold contextJanitorPruneTurn in Ec. cbn [lastPrune turn] in Ec. destruct (lastPrune (h_clock h)) as [l|].
    - injection Ec as <- <-. split; [done|]. by intros l' [= <-].
    - destruct (getBranch _ None) as [b|]; [|done]. injection Ec as <- <-. done. }
  destruct Hc as [Ht Hl]. destruct (changed _) eqn:Ech; cbn [negb].
  - intros [= <- <- <-]. cbn [h_clock turn lastPrune]. split; [done|]. split; [done|]. intros l Hh.
    destruct (Hl _ Hh) as [-> _]. by apply (changed_gate _ _ Ech).
  - intros [= <- <- <-]. cbn [h_clock]. split; [done|]. split; [done|]. intros l Hh. by apply Hl.
Qed.

Lemma requests_gap config qs h j l : lastPrune (h_clock h) = Some (Some l) ->
  (snd <$> requests config qs h) !! j = Some true -> cfg_minTurns config <= turn (h_clock h) + Z.of_nat j + 1 - l.
Proof.
  revert h j. induction qs as [|q qs IH]; intros h j Hl Hj; [done|]. cbn [requests] in *.
  destruct (applyContextJanitor _ _ _ _) as [[[view pruned] h']|] eqn:E; [|done].
  apply apply_spec in E as [Ht Hp]. cbn [h_clock view_session] in *. rewrite fmap_cons in Hj.
  destruct pruned; [destruct Hp as [_ Hp]; specialize (Hp l Hl); lia|]. destruct j as [|j]; [done|].
  destruct Hp as [_ Hp]. specialize (IH h' j (Hp _ Hl) Hj). lia.
Qed.

(** The janitor prunes at most once per window: two requests it prunes are at least the configured number
    of turns apart, whatever happens to the transcript and the session in between. A request it does not
    prune gets the transcript as it is: the view pruned before is not sent again. *)
Theorem janitor_window (config : JanitorConfig) (qs : list request) (h : hooks) :
  let sent := requests config qs h in
  (forall i j, (i < j)%nat -> (snd <$> sent) !! i = Some true -> (snd <$> sent) !! j = Some true ->
     cfg_minTurns config <= Z.of_nat j - Z.of_nat i) /\
  (forall i view, sent !! i = Some (view, false) -> q_messages <$> qs !! i = Some view).
Proof.
  cbv zeta. revert h. induction qs as [|q qs IH]; intros h; [done|]. cbn [requests].
  destruct (applyContextJanitor _ _ _ _) as [[[view pruned] h']|] eqn:E; [|done].
  apply apply_spec in E as [Ht Hp]. destruct (IH h') as [IH1 IH2]. rewrite fmap_cons. split.
  - intros [|i] [|j] Hij Hi Hj; try lia.
    + injection Hi as ->. destruct Hp as [Hp _]. pose proof (requests_gap config qs h' j _ Hp Hj). lia.
    + specialize (IH1 i j ltac:(lia) Hi Hj). lia.
  - intros [|i] view' Hv; [|by apply IH2]. injection Hv as -> ->. by destruct Hp as [-> _].
Qed.

(** The watermark outlives the process. After a prune, whether or not the file took the entry, a new
    session object on the same log finds the turn of that prune, so that its janitor, whose own clock starts
    at zero again, does not prune before this clock is past that turn by the configured gap. *)
Theorem janitor_watermark_resumes (en : env) (config : JanitorConfig) (messages view : list AgentMessage) (h h' : hooks)
    (Hw : wf (h_session h)) (Hf : fresh en (h_session h))
    (Ha : applyContextJanitor en config messages h = Some (view, true, h')) :
  contextJanitorPruneTurn (h_session h') clock_start =
    Some (Some (turn (h_clock h')), {| turn := 0; lastPrune := Some (Some (turn (h_clock h'))) |}) /\
  forall q qs st n, q_session q = h_session h' ->
    (snd <$> requests config (q :: qs) {| h_clock := clock_start; h_stats := st; h_session := h_session h' |}) !! n = Some true ->
    turn (h_clock h') + cfg_minTurns config <= Z.of_nat n + 1.
Proof.
  assert (Hres : forall c, lastPrune c = None -> contextJanitorPruneTurn (h_session h') c =
    Some (Some (turn (h_clock h')), {| turn := turn c; lastPrune := Some (Some (turn (h_clock h'))) |})).
  { intros c Hnone. unfold applyContextJanitor in Ha. destruct (contextJanitorPruneTurn _ _) as [[last c1]|]; [|done].
    cbn [mbind option_bind] in Ha. destruct (changed _); [|done]. injection Ha as _ <-. cbn [h_clock turn h_session].
    unfold contextJanitorPruneTurn. rewrite Hnone. unfold appendCustomEntry.
    rewrite (append_branch en _ _ Hw Hf). destruct (getBranch_spec (h_session h) None Hw) as (l & Hl & _). rewrite Hl.
    cbn [fmap option_fmap option_map mbind option_bind]. rewrite reverse_snoc. cbn [omap list_omap].
    assert (Hp : forall z, persisted_turn (new_entry en (KCustom CONTEXT_JANITOR_STATE_CUSTOM_TYPE (Some (janitor_state z)))
      (h_session h)) = Some z) by (intros z; apply persisted_state). by rewrite Hp. }
  split; [by apply Hres|]. intros q qs st n Hq. cbn [requests]. rewrite Hq.
  unfold view_session at 1. cbn [h_clock h_stats].
  destruct (applyContextJanitor (q_env q) _ _ _) as [[[view1 pruned] h1]|] eqn:E; [|done].
  unfold applyContextJanitor in E. cbn [h_session h_clock turn lastPrune clock_start] in E. rewrite Hres in E by done.
  cbn [mbind option_bind] in E. destruct (changed _) eqn:Ech; cbn [negb] in E.
  - apply changed_gate in Ech. cbn [lastPruneTurn janitor_options_at minTurns turnIndex turn] in Ech. intros _.
    pose proof (Nat2Z.is_nonneg n). lia.
  - injection E as <- <- <-. destruct n as [|n]; [done|]. rewrite fmap_cons. intros Hn.
    apply (requests_gap _ _ _ _ (turn (h_clock h'))) in Hn; [|done]. cbn [h_clock turn] in Hn. lia.
Qed.

(** ** A session that prunes *)

(** A failed attempt twice, then a success, then six more turns. *)
Definition long_transcript : list AgentMessage := janitor_example ++ replicate 6 (assistant []).
Definition every_two : JanitorConfig := {| cfg_minTokens := 0; cfg_minTurns := 2; cfg_successDumpMinBytes := 0 |}.
Definition fresh_hooks : hooks := {| h_clock := clock_start; h_stats := accumulator_empty; h_session := demo_session |}.
Definition ask (s : session) : request := {| q_env := demo_env; q_session := s; q_messages := long_transcript |}.

Lemma janitor_watermark_resumes_witness :
  wf demo_session /\ fresh demo_env demo_session /\
  exists view h', applyContextJanitor demo_env every_two long_transcript fresh_hooks = Some (view, true, h') /\
    contextJanitorPruneTurn (h_session h') clock_start = Some (Some 1, {| turn := 0; lastPrune := Some (Some 1) |}).
Proof.
  assert (Hw : wf demo_session) by apply empty_wf.
  assert (Hf : fresh demo_env demo_session) by (by apply demo_fresh).
  split; [exact Hw|]. split; [exact Hf|].
  assert (Hc : match applyContextJanitor demo_env every_two long_transcript fresh_hooks with
    | Some (_, pruned, h) => pruned = true /\ turn (h_clock h) = 1 | None => False end) by (vm_compute; split; reflexivity).
  destruct (applyContextJanitor demo_env every_two long_transcript fresh_hooks) as [[[view pruned] h']|] eqn:Ha; [|destruct Hc].
  destruct Hc as [Hp Ht]. rewrite Hp in Ha. rewrite Hp. exists view, h'. split; [reflexivity|].
  pose proof (proj1 (janitor_watermark_resumes demo_env every_two long_transcript view fresh_hooks h' Hw Hf Ha)) as H.
  rewrite Ht in H. exact H.
Defined.

(** The request after a prune gets the whole transcript again: the failed output the janitor compressed is
    back in the view, and at the next window it is compressed anew. *)
Example pruned_output_comes_back :
  let sent := requests every_two [ask demo_session; ask demo_session; ask demo_session] fresh_hooks in
  (snd <$> sent) = [true; false; true] /\
  (fun v : list AgentMessage * bool => length (default [] (textOf <$> v.1 !! 2%nat))) <$> sent = [145; 17; 145]%nat.
Proof. vm_compute. done. Qed.

(** A session resumed after its prune at turn 40 does not prune in its first 40 + 1 requests: its clock
    restarts at zero, and the distance to the stored turn stays below any gap. *)
Example resumed_gate_stays_closed :
  gate_open long_transcript (janitor_options_at every_two 41 (Some 40)) = false /\
  gate_open long_transcript (janitor_options_at every_two 42 (Some 40)) = true.
Proof. vm_compute. done. Qed.
