(* ===== verification/Retry.v ===== *)
(** * Retrying a provider (core/provider-retry.ts)

    Which failures are retried, how long to wait before the next attempt, the
    loop of a single completion, and the bounded waits for a provider to
    recover. Delays are numbers of milliseconds; [2 ** n] is exact, as the
    double is for the attempts a policy allows (below 1024). *)

(* Source aliases:
   PR = src/packages/coding-agent/src/core/provider-retry.ts *)

From stdpp Require Import sorting.
From S2P Require Import Prelude JsString JsNumber JsMap Messages SummaryText.
Local Open Scope Z_scope.

(** ** Failures *)

(** The diagnostics of a message ([AssistantMessageDiagnostic] of packages/ai/src/types.ts): their type and details. *)
Record Diagnostic := { d_type : jsstr; d_details : option json }.
(** A completion: a message with its diagnostics. *)
Record Completion := { c_message : AssistantMessage; diagnostics : list Diagnostic }.

(** PR 10-16 ProviderRetryPolicy. *)
Record ProviderRetryPolicy := { p_enabled : bool; maxRetries : nat; baseDelayMs : Z; maxRetryDelayMs : Z }.

(** PR 26-28 isAgentLifecycleFailure. *)
Definition isAgentLifecycleFailure (c : Completion) : bool :=
  existsb (fun d => jseqb (d_type d) (js "agent_lifecycle_failure")) (diagnostics c).

(** PR 31-33 isFauxProviderQueueExhausted. *)
Definition isFauxProviderQueueExhausted (c : Completion) : bool :=
  jseqb (provider (c_message c)) (js "faux") &&
  bool_decide (errorMessage (c_message c) = Some (js "No more faux responses queued")).

(** PR 35-42 providerStreamFailureDetails. *)
Definition providerStreamFailureDetails (c : Completion) : option json :=
  match List.find (fun d => jseqb (d_type d) (js "provider_stream_failure")) (diagnostics c) with
  | Some d => match d_details d with Some (JObj fs) => Some (JObj fs) | Some (JArr l) => Some (JArr l) | _ => None end
  | None => None
  end.

(** PR 44-47 providerStreamFailureKind. *)
Definition providerStreamFailureKind (c : Completion) : option jsstr :=
  match providerStreamFailureDetails c ≫= (fun d => property d (js "kind")) with Some (JStr s) => Some s | _ => None end.

(** PR 49-52 providerStreamFailureRetryAfterMs. *)
Definition providerStreamFailureRetryAfterMs (c : Completion) : option num :=
  match providerStreamFailureDetails c ≫= (fun d => property d (js "retryAfterMs")) with
  | Some (JNum t) => if num_le (num_Z 0) (Number t) then Some (Number t) else None
  | _ => None
  end.

(** PR 54-57 providerStreamFailureStatus. *)
Definition providerStreamFailureStatus (c : Completion) : option num :=
  match providerStreamFailureDetails c ≫= (fun d => property d (js "status")) with Some (JNum t) => Some (Number t) | _ => None end.

Definition is_404 (status : option num) : bool :=
  match status with Some x => num_le x (num_Z 404) && num_le (num_Z 404) x | None => false end.
Definition kind_in (kind : option jsstr) (ks : list jsstr) : bool :=
  match kind with Some k => existsb (jseqb k) ks | None => false end.

(** PR 65-77 isPermanentProviderFailureKind. *)
Definition isPermanentProviderFailureKind (kind : option jsstr) (retriesPerformed : nat) (status : option num) : bool :=
  if kind_in kind [js "invalid_request"] && is_404 status then false
  else if kind_in kind [js "invalid_request"; js "refusal"; js "permission"] then true
  else (0 <? retriesPerformed)%nat && kind_in kind [js "auth"].

(** ** Delays *)

(** PR 79-79 ProviderRetryDelay. *)
Inductive ProviderRetryDelay := DWait (delayMs : num) | ExceedsCap (retryAfterMs : num).

(** PR 82-82 MAX_TIMER_DELAY_MS. *)
Definition MAX_TIMER_DELAY_MS : num := num_Z 2147483647.

(** [Math.min] and [Math.max] of numbers other than NaN. *)
Definition num_min (a b : num) : num := if num_lt b a then b else a.
Definition num_max (a b : num) : num := if num_lt a b then b else a.

(** PR 85-97 providerRetryDelay. *)
Definition providerRetryDelay (attempt : nat) (retryAfterMs : option num) (policy : ProviderRetryPolicy) : ProviderRetryDelay :=
  match retryAfterMs with
  | Some r =>
      if (0 <? maxRetryDelayMs policy) && num_lt (num_Z (maxRetryDelayMs policy)) r then ExceedsCap r
      else DWait (num_min (num_max (num_Z (baseDelayMs policy * 2 ^ (Z.of_nat attempt - 1))) r) MAX_TIMER_DELAY_MS)
  | None => DWait (num_min (num_max (num_Z (baseDelayMs policy * 2 ^ (Z.of_nat attempt - 1))) (num_Z 0)) MAX_TIMER_DELAY_MS)
  end.

(** PR 139-144 DEFAULT_PROVIDER_RETRY_POLICY. *)
Definition DEFAULT_PROVIDER_RETRY_POLICY : ProviderRetryPolicy :=
  {| p_enabled := true; maxRetries := 3; baseDelayMs := 2000; maxRetryDelayMs := 60000 |}.

(** ** One completion *)

(** What happens around attempt [n] (from zero): its completion, or [None] when it throws; whether the signal
    is aborted after it; and whether the sleep after it runs to its end. *)
Record attempt := { attemptCompletion : option Completion; aborted : bool; slept : bool }.

(** What the loop returns or throws, and the delays it slept for. *)
Record outcome := { returned : option Completion; attempts : nat; delays : list num }.

Definition as_aborted (c : Completion) : Completion :=
  {| c_message := let a := c_message c in
       {| a_content := a_content a; api := api a; provider := provider a; model := model a; usage := usage a;
          stopReason := Aborted; errorMessage := errorMessage a; a_timestamp := a_timestamp a |};
     diagnostics := diagnostics c |}.

(** PR 110-136 completeWithProviderRetry. The loop, by the retries that remain. *)
Fixpoint retry_loop (env : nat -> attempt) (policy : ProviderRetryPolicy) (retriesPerformed remaining : nat) : outcome :=
  let stop r := {| returned := r; attempts := 1; delays := [] |} in
  match attemptCompletion (env retriesPerformed) with
  | None => stop None
  | Some message =>
      if negb (bool_decide (stopReason (c_message message) = Error)) then stop (Some message)
      else if aborted (env retriesPerformed) then stop (Some (as_aborted message))
      else
        match remaining with
        | O => stop (Some message)
        | S remaining =>
            if isAgentLifecycleFailure message || isFauxProviderQueueExhausted message then stop (Some message)
            else if isPermanentProviderFailureKind (providerStreamFailureKind message) retriesPerformed
                      (providerStreamFailureStatus message) then stop (Some message)
            else
              match providerRetryDelay (S retriesPerformed) (providerStreamFailureRetryAfterMs message) policy with
              | ExceedsCap _ => stop (Some message)
              | DWait delayMs =>
                  if slept (env retriesPerformed) then
                    let o := retry_loop env policy (S retriesPerformed) remaining in
                    {| returned := returned o; attempts := S (attempts o); delays := delayMs :: delays o |}
                  else {| returned := Some (as_aborted message); attempts := 1; delays := [delayMs] |}
              end
        end
  end.

(** PR 103-137 completeWithProviderRetry. *)
Definition completeWithProviderRetry (env : nat -> attempt) (policy : option ProviderRetryPolicy) : outcome :=
  let policy := default DEFAULT_PROVIDER_RETRY_POLICY policy in
  retry_loop env policy 0 (if p_enabled policy then maxRetries policy else 0).

(** ** Waiting for recovery *)

(** PR 154-154 ProviderWaitClass. *)
Inductive ProviderWaitClass := WQuota | WTransient | WPermanent.

(** PR 166-171 providerWaitClass. *)
Definition providerWaitClass (kind : option jsstr) (status : option num) : ProviderWaitClass :=
  if kind_in kind [js "rate_limit"; js "quota"] then WQuota
  else if kind_in kind [js "server_error"; js "overloaded"; js "unknown"] then WTransient
  else if kind_in kind [js "invalid_request"] && is_404 status then WTransient
  else WPermanent.

(** PR 173-183 ProviderWaitPolicy. *)
Record ProviderWaitPolicy := {
  w_enabled : bool; w_baseDelayMs : Z; maxDelayMs : Z; maxAttempts : Z; maxWaitMs : Z }.
(** PR 185-191 DEFAULT_PROVIDER_WAIT_POLICY. *)
Definition DEFAULT_PROVIDER_WAIT_POLICY : ProviderWaitPolicy :=
  {| w_enabled := true; w_baseDelayMs := 1000; maxDelayMs := 300000; maxAttempts := 30; maxWaitMs := 900000 |}.

(** PR 193-195 ProviderWaitDecision. *)
Inductive AbortReason := TooManyAttempts | TooLong | ResetTooFar.
Inductive ProviderWaitDecision := Wait (delayMs : num) | Abort (reason : AbortReason) (message : jsstr).

(** PR 198-205 providerWaitPingDelay. *)
Definition providerWaitPingDelay (attempt : Z) (policy : ProviderWaitPolicy) : Z :=
  let exponential := w_baseDelayMs policy * 2 ^ (attempt - 1) in
  let capped := if exponential <? 2 ^ 1024 then Z.min exponential (maxDelayMs policy) else maxDelayMs policy in
  Z.min capped 2147483647.

(** PR 208-211 providerWaitJitter. For a random number [r] as a rational. *)
Definition providerWaitJitter (delayMs : Z) (r : Q) : Z :=
  let clamped := if Qle_bool 1 r then 1%Q else if Qle_bool r 0 then 0%Q else r in
  let factor := rnd ((3 # 4) + rnd ((1 # 2) * clamped)) in
  Z.max 0 (Qfloor (rnd (inject_Z delayMs * factor) + (1 # 2))).

(** PR 213-217 formatWaitDuration. *)
Definition formatWaitDuration (ms : Z) : jsstr :=
  if ms <? 60000 then show_Z (Z.max 1 (Qfloor (rnd (Qmake ms 1000) + (1 # 2)))) ++ js "s"
  else if ms <? 3600000 then show_Z (Qfloor (rnd (Qmake ms 60000) + (1 # 2))) ++ js "m"
  else let n := Qfloor (10 * rnd (Qmake ms 3600000) + (1 # 2)) in show_Z (n / 10) ++ js "." ++ show_Z (n mod 10) ++ js "h".

(** PR 226-260 providerWaitDecision. The reset times the provider names are whole milliseconds. *)
Definition providerWaitDecision (attempt elapsedMs : Z) (resetMs : option Z) (policy : ProviderWaitPolicy) (r : Q)
    : ProviderWaitDecision :=
  if maxAttempts policy <? attempt then
    Abort TooManyAttempts (js "Provider recovery wait gave up after " ++ show_Z (maxAttempts policy) ++
      js " pings (retry.provider.waitForUsage.maxAttempts)")
  else
    let remainingMs := maxWaitMs policy - elapsedMs in
    if remainingMs <=? 0 then
      Abort TooLong (js "Provider recovery wait exceeded its bound of " ++ formatWaitDuration (maxWaitMs policy) ++
        js " (retry.provider.waitForUsage.maxWaitMs)")
    else
      match resetMs with
      | Some reset =>
          if remainingMs <? reset then
            Abort ResetTooFar (js "Provider reported recovery in " ++ formatWaitDuration reset ++
              js ", beyond the configured wait bound of " ++ formatWaitDuration (maxWaitMs policy) ++
              js " (retry.provider.waitForUsage.maxWaitMs)")
          else Wait (num_Z (Z.min (Z.max reset 0) 2147483647))
      | None =>
          let pingMs := providerWaitJitter (providerWaitPingDelay attempt policy) r in
          Wait (num_Z (Z.min pingMs remainingMs))
      end.

(** ** The loop of one completion *)

(** A failure the loop may retry, [i] attempts having been retried before. *)
Definition retryable (policy : ProviderRetryPolicy) (i : nat) (m : Completion) : Prop :=
  stopReason (c_message m) = Error /\ isAgentLifecycleFailure m = false /\ isFauxProviderQueueExhausted m = false /\
  isPermanentProviderFailureKind (providerStreamFailureKind m) i (providerStreamFailureStatus m) = false /\
  exists d, providerRetryDelay (S i) (providerStreamFailureRetryAfterMs m) policy = DWait d.

(** How attempt [i] is answered when it is the last one of at most [bound]. *)
Definition last_attempt (env : nat -> attempt) (policy : ProviderRetryPolicy) (bound i : nat) (r : option Completion) : Prop :=
  match attemptCompletion (env i) with
  | None => r = None
  | Some m =>
      r = Some m /\ (i = bound \/ ~ retryable policy i m) /\ (stopReason (c_message m) = Error -> aborted (env i) = false) \/
      r = Some (as_aborted m) /\ stopReason (c_message m) = Error /\ (aborted (env i) = true \/ slept (env i) = false)
  end.

(** The loop ends with attempt [i]. *)
Lemma stops_now env policy i remaining r (P : nat -> Prop) : last_attempt env policy (i + remaining) i r ->
  exists n, 1%nat = S n /\ (n <= remaining)%nat /\ last_attempt env policy (i + remaining) (i + n) r /\
    forall k, (k < n)%nat -> P k.
Proof. intros H. exists 0%nat. rewrite Nat.add_0_r. split_and!; [done|lia|done|intros; lia]. Qed.

Lemma retry_loop_spec env policy i remaining :
  let o := retry_loop env policy i remaining in
  exists n, attempts o = S n /\ (n <= remaining)%nat /\
    last_attempt env policy (i + remaining) (i + n) (returned o) /\
    (forall k, (k < n)%nat -> exists m d, attemptCompletion (env (i + k)%nat) = Some m /\ retryable policy (i + k) m /\
       aborted (env (i + k)%nat) = false /\ slept (env (i + k)%nat) = true /\
       providerRetryDelay (S (i + k)) (providerStreamFailureRetryAfterMs m) policy = DWait d /\ delays o !! k = Some d).
Proof.
  revert i. induction remaining as [|remaining IH]; intros i; cbv zeta; cbn [retry_loop];
    (destruct (attemptCompletion (env i)) as [m|] eqn:Em; [|apply stops_now; unfold last_attempt; by rewrite Em]);
    (destruct (bool_decide (stopReason (c_message m) = Error)) eqn:Es; to_prop; cbn [negb];
     [|apply stops_now; unfold last_attempt; rewrite Em; left; split; [done|]; split; [right; by intros []|done]]);
    (destruct (aborted (env i)) eqn:Ea; [apply stops_now; unfold last_attempt; rewrite Em; right; auto|]).
  { apply stops_now. unfold last_attempt. rewrite Em, Nat.add_0_r. left. auto. }
  assert (Hdone : forall P, ~ retryable policy i m -> exists n, 1%nat = S n /\ (n <= S remaining)%nat /\
    last_attempt env policy (i + S remaining) (i + n) (Some m) /\ forall k, (k < n)%nat -> P k).
  { intros P Hr. apply stops_now. unfold last_attempt. rewrite Em. left. auto. }
  destruct (isAgentLifecycleFailure m || isFauxProviderQueueExhausted m) eqn:E1.
  { apply Hdone. intros (_ & H1 & H2 & _). by rewrite H1, H2 in E1. }
  destruct (isPermanentProviderFailureKind _ i _) eqn:E2; [apply Hdone; intros (_ & _ & _ & H & _); congruence|].
  destruct (providerRetryDelay (S i) _ policy) as [d|d] eqn:E3; [|apply Hdone; intros (_ & _ & _ & _ & d' & H); congruence].
  to_prop. destruct (slept (env i)) eqn:E4.
  - destruct (IH (S i)) as (n & Hn & Hle & Hl & Hk). exists (S n). cbn [attempts returned delays].
    split; [by rewrite Hn|]. split; [lia|]. rewrite !Nat.add_succ_r. split; [exact Hl|].
    intros [|k] Hlt; [|rewrite Nat.add_succ_r; apply (Hk k); lia].
    rewrite Nat.add_0_r. exists m, d. split; [done|]. split; [unfold retryable; rewrite E3; eauto 10|]. by split_and!.
  - apply stops_now. unfold last_attempt. rewrite Em. right. auto.
Qed.

(** A completion with retries makes at most one attempt more than the policy allows retries (one when
    retries are off), and retries only failures that may go away: an error that is neither a crash of the
    agent nor permanent, whose requested delay the policy accepts; before each it sleeps the delay of that
    attempt. It returns the last attempt's message as it is when this succeeded, may not be retried or was the
    last one allowed, marks it as aborted when a cancellation came with or during the wait after it, and
    throws what the last attempt throws. *)
Theorem completeWithProviderRetry_spec (env : nat -> attempt) (policy : option ProviderRetryPolicy) :
  let p := default DEFAULT_PROVIDER_RETRY_POLICY policy in
  let bound := if p_enabled p then maxRetries p else 0%nat in
  let o := completeWithProviderRetry env policy in
  exists n, attempts o = S n /\ (n <= bound)%nat /\ last_attempt env p bound n (returned o) /\
    (forall k, (k < n)%nat -> exists m d, attemptCompletion (env k) = Some m /\ retryable p k m /\
       aborted (env k) = false /\ slept (env k) = true /\
       providerRetryDelay (S k) (providerStreamFailureRetryAfterMs m) p = DWait d /\ delays o !! k = Some d).
Proof. apply retry_loop_spec. Qed.

(** ** Waits are bounded *)

(** Consecutive waits, from ping [k] after [elapsed] milliseconds: the clock advances at least by each wait. *)
Fixpoint waits (policy : ProviderWaitPolicy) (k elapsed : Z) (ds : list Z) : Prop :=
  match ds with
  | [] => True
  | d :: rest => exists resetMs r elapsed',
      providerWaitDecision k elapsed resetMs policy r = Wait (num_Z d) /\ elapsed + d <= elapsed' /\
      waits policy (k + 1) elapsed' rest
  end.

Lemma num_Z_inj a b : num_Z a = num_Z b -> a = b.
Proof. intros H. by injection H. Qed.

Lemma wait_bounds policy k elapsed resetMs r d : providerWaitDecision k elapsed resetMs policy r = Wait (num_Z d) ->
  k <= maxAttempts policy /\ 0 <= d <= maxWaitMs policy - elapsed.
Proof.
  unfold providerWaitDecision. destruct (Z.ltb_spec (maxAttempts policy) k); [done|].
  destruct (Z.leb_spec (maxWaitMs policy - elapsed) 0); [done|]. destruct resetMs as [reset|].
  - destruct (Z.ltb_spec (maxWaitMs policy - elapsed) reset); [done|]. intros [= Hd]. split; [done|]. lia.
  - intros [= Hd]. split; [done|].
    assert (0 <= providerWaitJitter (providerWaitPingDelay k policy) r) by (unfold providerWaitJitter; lia). lia.
Qed.

Lemma waits_bounded policy k elapsed ds : waits policy k elapsed ds ->
  (ds <> [] -> sumZ (fun d => d) ds <= maxWaitMs policy - elapsed /\ Z.of_nat (length ds) <= maxAttempts policy - k + 1) /\
  Forall (fun d => 0 <= d) ds.
Proof.
  revert k elapsed. induction ds as [|d ds IH]; intros k elapsed H; [done|].
  destruct H as (reset & r & elapsed' & Hd & He & Hw). apply wait_bounds in Hd as [Hk Hd].
  destruct (IH _ _ Hw) as [IH1 IH2]. split; [intros _|constructor; [lia|done]]. rewrite sumZ_cons.
  destruct ds as [|d2 ds]; [unfold sumZ; simpl; lia|]. destruct (IH1 ltac:(done)) as [Hs Hl]. cbn [length] in *. lia.
Qed.

(** Waiting for a provider to recover ends. Whatever recovery times the provider reports, whatever the
    random numbers are and however late the timers fire, consecutive waits are at most [maxAttempts], none is
    negative, and together they take at most [maxWaitMs]. *)
Theorem provider_waits_bounded (policy : ProviderWaitPolicy) (ds : list Z) (Ha : 0 <= maxAttempts policy)
    (Hm : 0 <= maxWaitMs policy) (H : waits policy 1 0 ds) :
  Z.of_nat (length ds) <= maxAttempts policy /\ Forall (fun d => 0 <= d) ds /\
  sumZ (fun d => d) ds <= maxWaitMs policy.
Proof.
  destruct (waits_bounded policy 1 0 ds H) as [H1 H2]. destruct ds as [|d ds]; [done|].
  destruct (H1 ltac:(done)) as [Hs Hl]. split_and!; [lia|done|lia].
Qed.

Lemma provider_waits_bounded_witness :
  0 <= maxAttempts DEFAULT_PROVIDER_WAIT_POLICY /\ 0 <= maxWaitMs DEFAULT_PROVIDER_WAIT_POLICY /\
  waits DEFAULT_PROVIDER_WAIT_POLICY 1 0 [1000; 600000] /\ sumZ (fun d => d) [1000; 600000] <= 900000.
Proof.
  assert (Hw : waits DEFAULT_PROVIDER_WAIT_POLICY 1 0 [1000; 600000]).
  { exists None, (1 # 2), 1500. split; [reflexivity|]. split; [lia|].
    exists (Some 600000), 0%Q, 601500. split; [reflexivity|]. split; [lia|exact I]. }
  assert (Ha : 0 <= maxAttempts DEFAULT_PROVIDER_WAIT_POLICY) by (simpl; lia).
  assert (Hm : 0 <= maxWaitMs DEFAULT_PROVIDER_WAIT_POLICY) by (simpl; lia).
  split; [exact Ha|]. split; [exact Hm|]. split; [exact Hw|].
  exact (proj2 (proj2 (provider_waits_bounded DEFAULT_PROVIDER_WAIT_POLICY _ Ha Hm Hw))).
Defined.
