(* ===== verification/Summarize.v ===== *)
(** * Summarising (core/compaction/compaction.ts)

    The requests that summarise what a compaction drops, and the result of a
    compaction. The provider is a parameter: what it answers to each attempt of
    a request; a request goes through the retry loop. *)

(* Source aliases:
   CO = src/packages/coding-agent/src/core/compaction/compaction.ts
   UT = src/packages/coding-agent/src/core/compaction/utils.ts *)

From stdpp Require Import sorting.
From S2P Require Import Prelude JsString JsNumber JsMap Messages Tokens SummaryText SessionEntries SessionTree SessionFacts.
From S2P Require Import SessionContext Compaction Retry.
Local Open Scope Z_scope.

(** ** Prompts *)

(** CO 433-464 SUMMARIZATION_PROMPT. *)
Definition SUMMARIZATION_PROMPT : jsstr :=
  unlines [
    js "The messages above are a conversation to summarize. Create a structured context checkpoint summary that another LLM will use to continue the work.";
    [];
    js "Use this EXACT format:";
    [];
    js "## Goal";
    js "[What is the user trying to accomplish? Can be multiple items if the session covers different tasks.]";
    [];
    js "## Constraints & Preferences";
    js "- [Any constraints, preferences, or requirements mentioned by user]";
    js "- [Or " ++ [34%N] ++ js "(none)" ++ [34%N] ++ js " if none were mentioned]";
    [];
    js "## Progress";
    js "### Done";
    js "- [x] [Completed tasks/changes]";
    [];
    js "### In Progress";
    js "- [ ] [Current work]";
    [];
    js "### Blocked";
    js "- [Issues preventing progress, if any]";
    [];
    js "## Key Decisions";
    js "- **[Decision]**: [Brief rationale]";
    [];
    js "## Next Steps";
    js "1. [Ordered list of what should happen next]";
    [];
    js "## Critical Context";
    js "- [Any data, examples, or references needed to continue]";
    js "- [Or " ++ [34%N] ++ js "(none)" ++ [34%N] ++ js " if not applicable]";
    [];
    js "Keep each section concise. Preserve exact file paths, function names, and error messages."].

(** CO 466-467 KERNEL_PERSIST_SUMMARY_NOTE. *)
Definition KERNEL_PERSIST_SUMMARY_NOTE : jsstr :=
  js "Note: the Python kernel keeps running after this summary " ++ [8212%N] ++ js " every Python variable, import, and helper you defined stays available. The cells that defined them won't appear above, so record in the summary any names worth remembering so you reuse them instead of redefining them.".

(** CO 469-506 UPDATE_SUMMARIZATION_PROMPT. *)
Definition UPDATE_SUMMARIZATION_PROMPT : jsstr :=
  unlines [
    js "The messages above are NEW conversation messages to incorporate into the existing summary provided in <previous-summary> tags.";
    [];
    js "Update the existing structured summary with new information. RULES:";
    js "- PRESERVE all existing information from the previous summary";
    js "- ADD new progress, decisions, and context from the new messages";
    js "- UPDATE the Progress section: move items from " ++ [34%N] ++ js "In Progress" ++ [34%N] ++ js " to " ++ [34%N] ++ js "Done" ++ [34%N] ++ js " when completed";
    js "- UPDATE " ++ [34%N] ++ js "Next Steps" ++ [34%N] ++ js " based on what was accomplished";
    js "- PRESERVE exact file paths, function names, and error messages";
    js "- If something is no longer relevant, you may remove it";
    [];
    js "Use this EXACT format:";
    [];
    js "## Goal";
    js "[Preserve existing goals, add new ones if the task expanded]";
    [];
    js "## Constraints & Preferences";
    js "- [Preserve existing, add new ones discovered]";
    [];
    js "## Progress";
    js "### Done";
    js "- [x] [Include previously done items AND newly completed items]";
    [];
    js "### In Progress";
    js "- [ ] [Current work - update based on progress]";
    [];
    js "### Blocked";
    js "- [Current blockers - remove if resolved]";
    [];
    js "## Key Decisions";
    js "- **[Decision]**: [Brief rationale] (preserve all previous, add new)";
    [];
    js "## Next Steps";
    js "1. [Update based on current state]";
    [];
    js "## Critical Context";
    js "- [Preserve important context, add new if needed]";
    [];
    js "Keep each section concise. Preserve exact file paths, function names, and error messages."].

(** CO 673-686 TURN_PREFIX_SUMMARIZATION_PROMPT. *)
Definition TURN_PREFIX_SUMMARIZATION_PROMPT : jsstr :=
  unlines [
    js "This is the PREFIX of a turn that was too large to keep. The SUFFIX (recent work) is retained.";
    [];
    js "Summarize the prefix to provide context for the retained suffix:";
    [];
    js "## Original Request";
    js "[What did the user ask for in this turn?]";
    [];
    js "## Early Progress";
    js "- [Key decisions and work done in the prefix]";
    [];
    js "## Context for Suffix";
    js "- [Information needed to understand the retained recent work]";
    [];
    js "Be concise. Focus on what's needed to understand the kept suffix."].

(** UT 222-224 SUMMARIZATION_SYSTEM_PROMPT. *)
Definition SUMMARIZATION_SYSTEM_PROMPT : jsstr :=
  unlines [
    js "You are a context summarization assistant. Your task is to read a conversation between a user and an AI coding assistant, then produce a structured summary following the exact format specified.";
    [];
    js "Do NOT continue the conversation. Do NOT respond to any questions in the conversation. ONLY output the structured summary."].

(** CO 512-518 buildSummarizationPrompt. *)
Definition buildSummarizationPrompt (custom previous : option jsstr) : jsstr :=
  (if truthy previous then UPDATE_SUMMARIZATION_PROMPT else SUMMARIZATION_PROMPT) ++
  (if truthy custom then
     [LF; LF] ++ js "<user-instructions>" ++ [LF] ++
     js "The user provided these instructions for this summary. Follow them with high priority while keeping the section format above: emphasize what they ask to focus on, and preserve verbatim anything they ask to remember." ++
     [LF] ++ default [] custom ++ [LF] ++ js "</user-instructions>"
   else []) ++
  [LF; LF] ++ KERNEL_PERSIST_SUMMARY_NOTE.

(** ** Requests *)

(** CO 36-39 SummarySlice. *)
Record SummarySlice := { slice_summary : jsstr; slice_usage : option Usage }.
(** CO 107-115 CompactionResult. With the details of CO 31-34. *)
Record CompactionResult := {
  res_summary : jsstr; res_firstKeptEntryId : jsstr; res_tokensBefore : Z;
  readFiles : list jsstr; modifiedFiles : list jsstr; res_usage : option Usage }.

Inductive SummaryError := Thrown | SummarizationFailed (m : jsstr) | TurnPrefixFailed (m : jsstr) | NoFirstKeptEntry.

(** What a request sends; keys, headers and the session id are left out. *)
Record SummaryRequest := { rq_system : jsstr; rq_prompt : jsstr; rq_maxTokens : Z; rq_reasoning : option jsstr }.

(** The settings of the calls: whether the model reasons, the thinking level, the retry policy. *)
Record CallSettings := { reasons : bool; level : option jsstr; retry : option ProviderRetryPolicy }.

(** CO 557-560 generateSummary. *)
Definition reasoning_of (c : CallSettings) : option jsstr :=
  if reasons c && truthy (level c) && negb (bool_decide (level c = Some (js "off"))) then level c else None.

(** [Math.floor(f * tokens)] for a decimal fraction [f]. *)
Definition fraction_of (f : Q) (tokens : Z) : Z := Qfloor (rnd (rnd f * inject_Z tokens)).

Definition conversation_block (messages : list AgentMessage) : jsstr :=
  js "<conversation>" ++ [LF] ++ serializeConversation (convertToLlm messages) ++ [LF] ++ js "</conversation>" ++ [LF; LF].

(** CO 537-560 generateSummary. The request. *)
Definition summary_request (messages : list AgentMessage) (reserve : Z) (custom previous : option jsstr) (c : CallSettings)
    : SummaryRequest :=
  {| rq_system := SUMMARIZATION_SYSTEM_PROMPT;
     rq_prompt := conversation_block messages ++
       (if truthy previous
        then js "<previous-summary>" ++ [LF] ++ default [] previous ++ [LF] ++ js "</previous-summary>" ++ [LF; LF] else []) ++
       buildSummarizationPrompt custom previous;
     rq_maxTokens := fraction_of (8 # 10) reserve; rq_reasoning := reasoning_of c |}.

(** CO 816-836 generateTurnPrefixSummary. The request. *)
Definition prefix_request (messages : list AgentMessage) (reserve : Z) (c : CallSettings) : SummaryRequest :=
  {| rq_system := SUMMARIZATION_SYSTEM_PROMPT;
     rq_prompt := conversation_block messages ++ TURN_PREFIX_SUMMARIZATION_PROMPT;
     rq_maxTokens := fraction_of (5 # 10) reserve; rq_reasoning := reasoning_of c |}.

(** CO 576-579 generateSummary. The text of a response. *)
Definition response_text (m : AssistantMessage) : jsstr :=
  unlines (omap (fun b => match b with AText t => Some (text t) | _ => None end) (a_content m)).

Section Provider.
(** What happens around each attempt of a request. *)
Variable provider_answers : SummaryRequest -> nat -> attempt.

Definition complete (c : CallSettings) (rq : SummaryRequest) : option Completion :=
  returned (completeWithProviderRetry (provider_answers rq) (retry c)).

(** CO 562-582 generateSummary. A response as a slice; [fail] is the error it throws. *)
Definition slice_of (fail : jsstr -> SummaryError) (response : option Completion) : SummarySlice + SummaryError :=
  match response with
  | None => inr Thrown
  | Some r =>
      let m := c_message r in
      if bool_decide (stopReason m = Error)
      then inr (fail (if truthy (errorMessage m) then default [] (errorMessage m) else js "Unknown error"))
      else inl {| slice_summary := response_text m; slice_usage := Some (usage m) |}
  end.

(** CO 524-582 generateSummary. *)
Definition generateSummary (messages : list AgentMessage) (reserve : Z) (custom previous : option jsstr) (c : CallSettings)
    : SummarySlice + SummaryError :=
  slice_of SummarizationFailed (complete c (summary_request messages reserve custom previous c)).

(** CO 805-851 generateTurnPrefixSummary. *)
Definition generateTurnPrefixSummary (messages : list AgentMessage) (reserve : Z) (c : CallSettings)
    : SummarySlice + SummaryError :=
  slice_of TurnPrefixFailed (complete c (prefix_request messages reserve c)).

(** CO 787-792 compact. *)
Definition add_slice (u : option Usage) (s : SummarySlice) : option Usage :=
  match slice_usage s with Some v => Some (addAssistantUsage (default emptyUsage u) v) | None => u end.

(** CO 727-758 compact. The summaries of a split turn; both calls run at once, and [first] says whose failure
    comes first when both fail. *)
Definition split_slices (first : bool) (p : CompactionPreparation) (custom : option jsstr) (c : CallSettings)
    : (SummarySlice * SummarySlice) + SummaryError :=
  let history :=
    if bool_decide (messagesToSummarize p <> [])
    then generateSummary (messagesToSummarize p) (reserveTokens (prep_settings p)) custom (previousSummary p) c
    else inl {| slice_summary := js "No prior history."; slice_usage := None |} in
  match history, generateTurnPrefixSummary (turnPrefixMessages p) (reserveTokens (prep_settings p)) c with
  | inl h, inl t => inl (h, t)
  | inr e, inl _ => inr e
  | inl _, inr e => inr e
  | inr e, inr e' => inr (if first then e else e')
  end.

(** CO 760-760 compact. *)
Definition TURN_CONTEXT_SEPARATOR : jsstr :=
  [LF; LF] ++ js "---" ++ [LF; LF] ++ js "**Turn Context (split turn):**" ++ [LF; LF].

(** CO 722-779 compact. The summary without the file lists, and the slices it is made of. *)
Definition compact_slices (first : bool) (p : CompactionPreparation) (custom : option jsstr) (c : CallSettings)
    : (jsstr * list SummarySlice) + SummaryError :=
  if prep_isSplitTurn p && bool_decide (turnPrefixMessages p <> []) then
    match split_slices first p custom c with
    | inl (h, t) =>
        inl (slice_summary h ++ TURN_CONTEXT_SEPARATOR ++ slice_summary t, [h; t])
    | inr e => inr e
    end
  else
    match generateSummary (messagesToSummarize p) (reserveTokens (prep_settings p)) custom (previousSummary p) c with
    | inl s => inl (slice_summary s, [s])
    | inr e => inr e
    end.

(** CO 700-800 compact. *)
Definition compact (first : bool) (p : CompactionPreparation) (custom : option jsstr) (c : CallSettings)
    : CompactionResult + SummaryError :=
  match compact_slices first p custom c with
  | inr e => inr e
  | inl (summary, slices) =>
      let '(reads, modified) := computeFileLists (fileOps p) in
      if negb (truthy (Some (prep_firstKeptEntryId p))) then inr NoFirstKeptEntry
      else inl {| res_summary := summary ++ formatFileOperations reads modified;
                  res_firstKeptEntryId := prep_firstKeptEntryId p; res_tokensBefore := prep_tokensBefore p;
                  readFiles := reads; modifiedFiles := modified; res_usage := foldl add_slice None slices |}
  end.
End Provider.

(** ** What a compaction returns *)

(** The requests a compaction makes. *)
Definition compact_requests (p : CompactionPreparation) (custom : option jsstr) (c : CallSettings) : list SummaryRequest :=
  let reserve := reserveTokens (prep_settings p) in
  let history := summary_request (messagesToSummarize p) reserve custom (previousSummary p) c in
  if prep_isSplitTurn p && bool_decide (turnPrefixMessages p <> []) then
    (if bool_decide (messagesToSummarize p <> []) then [history] else []) ++ [prefix_request (turnPrefixMessages p) reserve c]
  else [history].

(** A response that is no failure. *)
Definition answered (answers : SummaryRequest -> nat -> attempt) (c : CallSettings) (rq : SummaryRequest) (r : Completion) : Prop :=
  complete answers c rq = Some r /\ stopReason (c_message r) <> Error.

Lemma slice_answered answers c rq fail :
  match slice_of fail (complete answers c rq) with
  | inl s => exists r, answered answers c rq r /\ s = {| slice_summary := response_text (c_message r); slice_usage := Some (usage (c_message r)) |}
  | inr _ => ~ exists r, answered answers c rq r
  end.
Proof.
  unfold slice_of, answered. destruct (complete answers c rq) as [r|]; [|by intros (r & ? & _)].
  destruct (bool_decide (stopReason (c_message r) = Error)) eqn:E; to_prop.
  - intros (r' & [= <-] & H). done.
  - by exists r.
Qed.

(** The slices of a compaction are the responses to its requests. *)
Lemma compact_slices_spec answers first p custom c :
  match compact_slices answers first p custom c with
  | inl (summary, slices) => exists rs, Forall2 (answered answers c) (compact_requests p custom c) rs /\
      foldl add_slice None slices = Some (foldl addAssistantUsage emptyUsage ((fun r => usage (c_message r)) <$> rs)) /\
      Forall (fun r => exists a b, summary = a ++ response_text (c_message r) ++ b) rs
  | inr _ => exists rq, rq ∈ compact_requests p custom c /\ ~ exists r, answered answers c rq r
  end.
Proof.
  unfold compact_slices, compact_requests, split_slices, generateSummary, generateTurnPrefixSummary. cbv zeta.
  set (history := summary_request _ _ _ _ _). set (prefix := prefix_request _ _ _).
  pose proof (slice_answered answers c history SummarizationFailed) as Hh.
  pose proof (slice_answered answers c prefix TurnPrefixFailed) as Ht.
  destruct (prep_isSplitTurn p && bool_decide (turnPrefixMessages p <> [])).
  - destruct (slice_of TurnPrefixFailed _) as [t|et].
    + destruct Ht as (rt & Ht & ->). destruct (bool_decide (messagesToSummarize p <> [])).
      * destruct (slice_of SummarizationFailed _) as [h|eh]; [|exists history; split; [set_solver|done]].
        destruct Hh as (rh & Hh & ->). exists [rh; rt]. cbn [app]. split; [cbn [app]; auto using List.Forall2_cons, List.Forall2_nil|]. split; [done|].
        cbn [slice_summary]. constructor; [|constructor; [|constructor]].
        -- by exists [], (TURN_CONTEXT_SEPARATOR ++ response_text (c_message rt)).
        -- exists (response_text (c_message rh) ++ TURN_CONTEXT_SEPARATOR), []. by rewrite app_nil_r, <- (assoc_L app).
      * exists [rt]. split; [cbn [app]; auto using List.Forall2_cons, List.Forall2_nil|]. split; [done|]. cbn [slice_summary]. constructor; [|constructor].
        exists (js "No prior history." ++ TURN_CONTEXT_SEPARATOR), []. by rewrite app_nil_r, <- (assoc_L app).
    + assert (He : exists rq, rq ∈ (if bool_decide (messagesToSummarize p <> []) then [history] else []) ++ [prefix] /\
        ~ exists r, answered answers c rq r) by (exists prefix; split; [set_solver|done]).
      destruct (if bool_decide _ then _ else inl _) as [h|eh]; exact He.
  - destruct (slice_of SummarizationFailed _) as [h|eh]; [|exists history; split; [set_solver|done]].
    destruct Hh as (rh & Hh & ->). exists [rh]. split; [cbn [app]; auto using List.Forall2_cons, List.Forall2_nil|]. split; [done|].
    constructor; [|constructor]. exists [], []. by rewrite app_nil_r.
Qed.

(** A compaction succeeds exactly when every request it makes is answered without a failure (and the kept
    entry has an id). Its summary then holds the text of each answer and ends with the lists of the files read
    and modified, which it also returns; it keeps the preparation's first kept entry and token count, and
    bills the sum of what the answers were billed. *)
Theorem compact_result (answers : SummaryRequest -> nat -> attempt) (first : bool) (p : CompactionPreparation)
    (custom : option jsstr) (c : CallSettings) :
  match compact answers first p custom c with
  | inl r => exists rs, Forall2 (answered answers c) (compact_requests p custom c) rs /\
      (readFiles r, modifiedFiles r) = computeFileLists (fileOps p) /\
      res_firstKeptEntryId r = prep_firstKeptEntryId p /\ res_tokensBefore r = prep_tokensBefore p /\
      res_usage r = Some (foldl addAssistantUsage emptyUsage ((fun r => usage (c_message r)) <$> rs)) /\
      Forall (fun a => exists b e, res_summary r = b ++ response_text (c_message a) ++ e ++
        formatFileOperations (readFiles r) (modifiedFiles r)) rs
  | inr _ => prep_firstKeptEntryId p = [] \/
      exists rq, rq ∈ compact_requests p custom c /\ ~ exists r, answered answers c rq r
  end.
Proof.
  unfold compact. pose proof (compact_slices_spec answers first p custom c) as H.
  destruct (compact_slices answers first p custom c) as [[summary slices]|e]; [|by right].
  destruct H as (rs & Hrs & Hu & Ht). destruct (computeFileLists (fileOps p)) as [reads modified].
  destruct (prep_firstKeptEntryId p) as [|u i] eqn:Hi; [by left|]. cbn [truthy negb].
  exists rs. split_and!; try done. eapply Forall_impl; [exact Ht|]. intros a (b & e & ->). exists b, e.
  by rewrite <- !(assoc_L app).
Qed.

(** ** The previous summary of a split turn *)

Definition with_previous (s : option jsstr) (p : CompactionPreparation) : CompactionPreparation :=
  {| prep_firstKeptEntryId := prep_firstKeptEntryId p; messagesToSummarize := messagesToSummarize p;
     turnPrefixMessages := turnPrefixMessages p; prep_isSplitTurn := prep_isSplitTurn p;
     prep_tokensBefore := prep_tokensBefore p; previousSummary := s; fileOps := fileOps p; prep_settings := prep_settings p |}.

(** A branch where this happens: it was compacted at its second question, whose turn then grew too long. *)
Definition long_second_turn : list SessionEntry :=
  [entry_at 0 (user_says (js "first question")); entry_at 1 (assistant_says (js "first answer"));
   entry_at 2 (user_says (js "second question"));
   entry_at 3 (KCompaction {| cmp_summary := js "the first question was answered"; firstKeptEntryId := js "e2";
     cmp_tokensBefore := 0; cmp_details := None; cmp_fromHook := false; cmp_customInstructions := None;
     cmp_usage := None; cmp_harnessDigest := None; cmp_harnessStateFingerprint := None |});
   entry_at 4 (assistant_says (js "a long step")); entry_at 5 (assistant_says (js "another step"))].

(** When the cut splits the very turn the last compaction kept from its start, there is no history to
    summarise, and the compaction forgets the last summary: it is in no request, and the result is the same
    whatever it says. *)
Theorem split_turn_drops_previous_summary (answers : SummaryRequest -> nat -> attempt) (first : bool)
    (p : CompactionPreparation) (custom : option jsstr) (c : CallSettings) (s : option jsstr)
    (H1 : prep_isSplitTurn p = true) (H2 : messagesToSummarize p = []) (H3 : turnPrefixMessages p <> []) :
  compact answers first (with_previous s p) custom c = compact answers first p custom c /\
  compact_requests (with_previous s p) custom c = compact_requests p custom c.
Proof.
  unfold compact, compact_slices, split_slices, compact_requests, with_previous. cbn [prep_isSplitTurn messagesToSummarize
    turnPrefixMessages prep_firstKeptEntryId prep_tokensBefore previousSummary fileOps prep_settings].
  rewrite H1, H2. rewrite (bool_decide_true _ H3). done.
Qed.

(** A provider that answers every request with the same text. *)
Definition always_answers (t : jsstr) : SummaryRequest -> nat -> attempt := fun _ _ =>
  {| attemptCompletion := Some {| c_message := {| a_content := [AText (mkText t)]; api := []; provider := []; model := [];
       usage := emptyUsage; stopReason := Stop; errorMessage := None; a_timestamp := 0 |}; diagnostics := [] |};
     aborted := false; slept := true |}.

Lemma split_turn_drops_previous_summary_witness :
  exists p, prepareCompaction long_second_turn keep_little = Some (Some p) /\
    previousSummary p = Some (js "the first question was answered") /\ prep_isSplitTurn p = true /\
    messagesToSummarize p = [] /\ turnPrefixMessages p <> [] /\
    compact (always_answers (js "steps")) true (with_previous None p) None {| reasons := false; level := None; retry := None |} =
    compact (always_answers (js "steps")) true p None {| reasons := false; level := None; retry := None |}.
Proof.
  assert (H : match prepareCompaction long_second_turn keep_little with
    | Some (Some p) => previousSummary p = Some (js "the first question was answered") /\ prep_isSplitTurn p = true /\
        messagesToSummarize p = [] /\ length (turnPrefixMessages p) = 2%nat
    | _ => False end) by (vm_compute; repeat split; reflexivity).
  destruct (prepareCompaction long_second_turn keep_little) as [[p|]|]; [|destruct H..].
  destruct H as (H0 & H1 & H2 & H3).
  assert (H4 : turnPrefixMessages p <> []) by (intros E; rewrite E in H3; discriminate H3).
  exists p. split; [reflexivity|]. split; [exact H0|]. split; [exact H1|]. split; [exact H2|]. split; [exact H4|].
  exact (proj1 (split_turn_drops_previous_summary (always_answers (js "steps")) true p None
    {| reasons := false; level := None; retry := None |} None H1 H2 H4)).
Defined.
