(* ===== verification/BranchSummary.v ===== *)
(** * The summary of an abandoned branch (core/compaction/branch-summarization.ts)

    When the conversation goes on from another point of the tree, the entries that the new branch does not have are
    collected, their messages are selected from the newest to the oldest within a budget of tokens, and a model is
    asked for a summary. [branch_entries_split] says which entries are collected, [prepareBranchEntries_spec] which
    messages are selected, [generateBranchSummary_spec] what is asked and returned. *)

(* Source aliases:
   BS = src/packages/coding-agent/src/core/compaction/branch-summarization.ts *)

From S2P Require Import Prelude JsString JsNumber JsMap Messages Tokens SummaryText SessionEntries SessionTree SessionFacts.
From S2P Require Import SessionContext Compaction Retry Summarize.
Local Open Scope Z_scope.

(** ** The entries between two points *)

(** BS 105-110 collectEntriesForBranchSummary. *)
Fixpoint common_ancestor (oldPath : list jsstr) (fromLeaf : list SessionEntry) : option jsstr :=
  match fromLeaf with
  | [] => None
  | e :: rest => if bool_decide (e_id e ∈ oldPath) then Some (e_id e) else common_ancestor oldPath rest
  end.

(** BS 112-119 collectEntriesForBranchSummary. The walk from [current] until [stop]; [None] when it does not end. *)
Fixpoint collect_walk (fuel : nat) (ix : jsmap jsstr SessionEntry) (stop current : option jsstr) : option (list SessionEntry) :=
  if truthy current && negb (bool_decide (current = stop)) then
    match get ix (default [] current) with
    | None => Some []
    | Some entry => match fuel with O => None | S fuel => cons entry <$> collect_walk fuel ix stop (parentId entry) end
    end
  else Some [].

(** BS 94-123 collectEntriesForBranchSummary. *)
Definition collectEntriesForBranchSummary (s : session) (oldLeafId : option jsstr) (targetId : jsstr)
    : option (list SessionEntry * option jsstr) :=
  if negb (truthy oldLeafId) then Some ([], None)
  else
    oldBranch ← getBranch s oldLeafId;
    targetPath ← getBranch s (Some targetId);
    let commonAncestorId := common_ancestor (e_id <$> oldBranch) (reverse targetPath) in
    entries ← collect_walk (length (byId s)) (byId s) commonAncestorId oldLeafId;
    Some (reverse entries, commonAncestorId).

(** ** The selection of messages *)

(** BS 128-157 getMessageFromEntry. *)
Definition getMessageFromEntryForBranch (e : SessionEntry) : option AgentMessage :=
  match kind e with
  | KMessage (ToolResult _) => None
  | KCustomMessage c => if jseqb (cm_customType c) HARNESS_DIGEST_CUSTOM_TYPE then None else getMessageFromEntry e
  | _ => getMessageFromEntry e
  end.

Definition strings_of (v : option json) : list jsstr :=
  match v with Some (JArr l) => omap (fun v => match v with JStr s => Some s | _ => None end) l | _ => [] end.

(** BS 180-192 prepareBranchEntries. The lists of files are strings, as the details of a summary have them. *)
Definition nested_file_ops (o : FileOperations) (e : SessionEntry) : FileOperations :=
  match kind e with
  | KBranchSummary b =>
      match br_fromHook b, br_details b with
      | false, Some details =>
          let o := foldl (fun o f => add_read f o) o (strings_of (property details (js "readFiles"))) in
          foldl (fun o f => add_edited f o) o (strings_of (property details (js "modifiedFiles")))
      | _, _ => o
      end
  | _ => o
  end.

(** BS 47-54 BranchPreparation. *)
Record BranchPreparation := { bp_messages : list AgentMessage; bp_fileOps : FileOperations; bp_totalTokens : Z }.

(** [total < budget * 0.9]. *)
Definition below_nine_tenths (total budget : Z) : bool := negb (Qle_bool (rnd (rnd (9 # 10) * inject_Z budget)) (inject_Z total)).
Definition is_summary_entry (e : SessionEntry) : bool := match kind e with KCompaction _ | KBranchSummary _ => true | _ => false end.

(** BS 193-212 prepareBranchEntries. The entries from the newest to the oldest. *)
Fixpoint select_loop (tokenBudget : Z) (newest : list SessionEntry) (p : BranchPreparation) : BranchPreparation :=
  match newest with
  | [] => p
  | entry :: rest =>
      match getMessageFromEntryForBranch entry with
      | None => select_loop tokenBudget rest p
      | Some message =>
          let ops := extractFileOpsFromMessage message (bp_fileOps p) in
          let tokens := estimateTokens message in
          let with_message := {| bp_messages := message :: bp_messages p; bp_fileOps := ops; bp_totalTokens := bp_totalTokens p + tokens |} in
          if (0 <? tokenBudget) && (tokenBudget <? bp_totalTokens p + tokens) then
            if is_summary_entry entry && below_nine_tenths (bp_totalTokens p) tokenBudget then with_message
            else {| bp_messages := bp_messages p; bp_fileOps := ops; bp_totalTokens := bp_totalTokens p |}
          else select_loop tokenBudget rest with_message
      end
  end.

(** BS 172-215 prepareBranchEntries. *)
Definition prepareBranchEntries (entries : list SessionEntry) (tokenBudget : Z) : BranchPreparation :=
  select_loop tokenBudget (reverse entries)
    {| bp_messages := []; bp_fileOps := foldl nested_file_ops createFileOps entries; bp_totalTokens := 0 |}.

(** ** The request *)

(** BS 216-219 BRANCH_SUMMARY_PREAMBLE. *)
Definition BRANCH_SUMMARY_PREAMBLE : jsstr :=
  unlines [js "The user explored a different conversation branch before returning here."; js "Summary of that exploration:"; []; []].

(** BS 221-248 BRANCH_SUMMARY_PROMPT. *)
Definition BRANCH_SUMMARY_PROMPT : jsstr :=
  unlines [
    js "Create a structured summary of this conversation branch for context when returning later.";
    [];
    js "Use this EXACT format:";
    [];
    js "## Goal";
    js "[What was the user trying to accomplish in this branch?]";
    [];
    js "## Constraints & Preferences";
    js "- [Any constraints, preferences, or requirements mentioned]";
    js "- [Or " ++ [34%N] ++ js "(none)" ++ [34%N] ++ js " if none were mentioned]";
    [];
    js "## Progress";
    js "### Done";
    js "- [x] [Completed tasks/changes]";
    [];
    js "### In Progress";
    js "- [ ] [Work that was started but not finished]";
    [];
    js "### Blocked";
    js "- [Issues preventing progress, if any]";
    [];
    js "## Key Decisions";
    js "- **[Decision]**: [Brief rationale]";
    [];
    js "## Next Steps";
    js "1. [What should happen next to continue this work]";
    [];
    js "Keep each section concise. Preserve exact file paths, function names, and error messages."].

(** BS 30-37 BranchSummaryResult. *)
Record BranchSummaryResult := {
  bs_summary : option jsstr; bs_readFiles : option (list jsstr); bs_modifiedFiles : option (list jsstr);
  bs_aborted : bool; bs_error : option jsstr; bs_usage : option Usage }.
Definition only_summary (s : jsstr) : BranchSummaryResult :=
  {| bs_summary := Some s; bs_readFiles := None; bs_modifiedFiles := None; bs_aborted := false; bs_error := None; bs_usage := None |}.
Definition only_aborted : BranchSummaryResult :=
  {| bs_summary := None; bs_readFiles := None; bs_modifiedFiles := None; bs_aborted := true; bs_error := None; bs_usage := None |}.
Definition only_error (e : jsstr) : BranchSummaryResult :=
  {| bs_summary := None; bs_readFiles := None; bs_modifiedFiles := None; bs_aborted := false; bs_error := Some e; bs_usage := None |}.

(** BS 63-81 GenerateBranchSummaryOptions. What the request depends on besides keys and headers. *)
Record BranchSummaryOptions := {
  contextWindow : Z; bo_customInstructions : option jsstr; replaceInstructions : bool; bo_retry : option ProviderRetryPolicy; reserve : Z }.

(** BS 283-290 generateBranchSummary. *)
Definition branch_instructions (o : BranchSummaryOptions) : jsstr :=
  match bo_customInstructions o with
  | Some ((_ :: _) as custom) => if replaceInstructions o then custom else BRANCH_SUMMARY_PROMPT ++ [LF; LF] ++ js "Additional focus: " ++ custom
  | _ => BRANCH_SUMMARY_PROMPT
  end.

(** BS 280-306 generateBranchSummary. The request. *)
Definition branch_request (messages : list AgentMessage) (o : BranchSummaryOptions) : SummaryRequest :=
  {| rq_system := SUMMARIZATION_SYSTEM_PROMPT; rq_prompt := conversation_block messages ++ branch_instructions o;
     rq_maxTokens := 2048; rq_reasoning := None |}.

(** BS 271-272 generateBranchSummary. *)
Definition branch_budget (o : BranchSummaryOptions) : Z := (if contextWindow o =? 0 then 128000 else contextWindow o) - reserve o.

Section provider.
Variable provider_answers : SummaryRequest -> nat -> attempt.

(** BS 256-330 generateBranchSummary. [None] when the request throws. *)
Definition generateBranchSummary (entries : list SessionEntry) (o : BranchSummaryOptions) : option BranchSummaryResult :=
  let p := prepareBranchEntries entries (branch_budget o) in
  match bp_messages p with
  | [] => Some (only_summary (js "No content to summarize"))
  | messages =>
      response ← returned (completeWithProviderRetry (provider_answers (branch_request messages o)) (bo_retry o));
      let m := c_message response in
      if bool_decide (stopReason m = Aborted) then Some only_aborted
      else if bool_decide (stopReason m = Error)
      then Some (only_error (if truthy (errorMessage m) then default [] (errorMessage m) else js "Summarization failed"))
      else
        let '(reads, modified) := computeFileLists (bp_fileOps p) in
        Some {| bs_summary := Some (BRANCH_SUMMARY_PREAMBLE ++ response_text m ++ formatFileOperations reads modified);
                bs_readFiles := Some reads; bs_modifiedFiles := Some modified; bs_aborted := false; bs_error := None;
                bs_usage := Some (usage m) |}
  end.
End provider.

(** ** Two branches of one tree *)

(** An entry determines the way to the root. *)
Lemma same_way s pre1 pre2 e post1 post2 : wf s ->
  rooted None (pre1 ++ e :: post1) -> rooted None (pre2 ++ e :: post2) ->
  pre1 ⊆ getEntries s -> pre2 ⊆ getEntries s -> pre1 = pre2.
Proof.
  intros Hw. revert pre2 e post1 post2. induction pre1 as [|x pre1 IH] using rev_ind; intros pre2 e post1 post2 H1 H2 Hs1 Hs2;
    pose proof (rooted_mid _ _ _ _ H1) as Hp1; pose proof (rooted_mid _ _ _ _ H2) as Hp2;
    destruct pre2 as [|y pre2 _] using rev_ind; [done|by rewrite last_snoc in Hp2; simpl in Hp1; congruence|
      by rewrite last_snoc in Hp1; simpl in Hp2; congruence|].
  rewrite !last_snoc in *. rewrite Hp1 in Hp2. injection Hp2 as Hid.
  assert (x = y) as ->.
  { assert (Hx : get (byId s) (e_id x) = Some x) by (apply wf_get; [done|split; [set_solver|done]]).
    assert (Hy : get (byId s) (e_id x) = Some y) by (apply wf_get; [done|split; [set_solver|done]]). congruence. }
  rewrite <- (assoc_L app) in H1, H2. f_equal. eapply IH; [exact H1|exact H2|set_solver|set_solver].
Qed.

Lemma getBranch_length s from l : getBranch s from = Some l -> (length l <= length (byId s))%nat.
Proof.
  unfold getBranch. set (c := if truthy _ then _ else _). intros (w & Hw & ->)%fmap_Some. rewrite length_reverse. revert Hw.
  generalize c, (length (byId s)) as n. clear c. intros c n. revert w c. induction n as [|n IH]; intros w [c|]; simpl; intros H; simplify_eq/=; try lia.
  apply fmap_Some in H as (w' & H & ->). apply IH in H. simpl. lia.
Qed.

Lemma common_ancestor_spec oldPath l :
  match common_ancestor oldPath l with
  | Some i => exists a e b, l = a ++ e :: b /\ e_id e = i /\ e_id e ∈ oldPath /\ Forall (fun x => e_id x ∉ oldPath) a
  | None => Forall (fun x => e_id x ∉ oldPath) l
  end.
Proof.
  induction l as [|e l IH]; simpl; [done|]. case_bool_decide as He; [by exists [], e, l|].
  destruct (common_ancestor oldPath l) as [i|]; [|by constructor].
  destruct IH as (a & e' & b & -> & ? & ? & ?). exists (e :: a), e', b. by repeat constructor.
Qed.

Lemma collect_walk_spec s shared left fuel : wf s -> rooted None (shared ++ left) -> shared ++ left ⊆ getEntries s ->
  NoDup (e_id <$> shared ++ left) -> (length left <= fuel)%nat ->
  collect_walk fuel (byId s) (e_id <$> last shared) (e_id <$> last (shared ++ left)) = Some (reverse left).
Proof.
  intros Hw. revert fuel. induction left as [|x left IH] using rev_ind; intros fuel Hr Hsub Hnd Hfuel.
  - rewrite app_nil_r. destruct (last shared) as [c|]; [|by destruct fuel].
    assert (bool_decide (e_id <$> Some c = e_id <$> Some c) = true) as H by by apply bool_decide_eq_true.
    destruct fuel; simpl in *; by rewrite H, andb_false_r.
  - rewrite (assoc_L app) in *. rewrite last_snoc. rewrite length_app in Hfuel. simpl in Hfuel. destruct fuel as [|fuel]; [lia|].
    assert (Hx : x ∈ getEntries s) by (apply Hsub; set_solver).
    assert (Hget : get (byId s) (e_id x) = Some x) by (by apply wf_get).
    assert (Ht : truthy (Some (e_id x)) = true).
    { pose proof (wf_ids s Hw) as Hi. rewrite Forall_forall in Hi. specialize (Hi (e_id x) ltac:(by apply list_elem_of_fmap_2)). by destruct (e_id x). }
    assert (Hstop : Some (e_id x) <> e_id <$> last shared).
    { intros Heq. destruct (last shared) as [c|] eqn:El; [|done]. injection Heq as Heq. apply last_Some in El as [k ->].
      rewrite fmap_app in Hnd. apply NoDup_app in Hnd as (_ & Hd & _). apply (Hd (e_id c)); [|rewrite <- Heq; set_solver].
      apply list_elem_of_fmap_2. set_solver. }
    cbn [collect_walk fmap option_fmap option_map]. rewrite Ht, (bool_decide_eq_false_2 _ Hstop). cbn [andb negb default from_option].
    change (Datatypes.id (e_id x)) with (e_id x). rewrite Hget. pose proof (rooted_mid None (shared ++ left) x [] Hr) as Hp.
    assert (parentId x = e_id <$> last (shared ++ left)) as -> by (rewrite Hp; by destruct (last _)).
    rewrite IH; [by rewrite reverse_snoc| | |by rewrite fmap_app in Hnd; apply NoDup_app in Hnd as [? _]|lia].
    + clear -Hr. revert Hr. generalize (shared ++ left) as l. generalize (@None jsstr) as p. intros p l. revert p. induction l as [|e l IH]; intros p; [done|].
      intros [? H]. split; [done|]. by apply IH.
    + set_solver.
Qed.

(** ** What is selected *)

(** The messages of the entries from [k] on, with the reasons for the choice of [k]. *)
Record selection (budget : Z) (entries : list SessionEntry) (p : BranchPreparation) (k : nat) : Prop := {
  sel_messages : bp_messages p = omap getMessageFromEntryForBranch (drop k entries);
  sel_tokens : bp_totalTokens p = sumZ estimateTokens (bp_messages p);
  sel_all : budget <= 0 -> k = 0%nat;
  sel_within : 0 < budget -> bp_totalTokens p <= budget \/
    exists e m, entries !! k = Some e /\ getMessageFromEntryForBranch e = Some m /\ is_summary_entry e = true /\
      below_nine_tenths (bp_totalTokens p - estimateTokens m) budget = true;
  sel_full : k = 0%nat \/ budget < bp_totalTokens p \/
    exists e m, entries !! pred k = Some e /\ getMessageFromEntryForBranch e = Some m /\ budget < bp_totalTokens p + estimateTokens m
}.

Lemma select_loop_spec budget older newer p :
  bp_messages p = omap getMessageFromEntryForBranch newer -> bp_totalTokens p = sumZ estimateTokens (bp_messages p) ->
  (0 < budget -> bp_totalTokens p <= budget) ->
  exists k, selection budget (older ++ newer) (select_loop budget (reverse older) p) k.
Proof.
  revert newer p. induction older as [|e older IH] using rev_ind; intros newer p Hm Ht Hb.
  { exists 0%nat. simpl. split; auto. }
  rewrite reverse_snoc, <- (assoc_L app). cbn [select_loop app].
  assert (Hdrop : drop (length older) (older ++ e :: newer) = e :: newer) by apply drop_app_length.
  assert (Hat : (older ++ e :: newer) !! length older = Some e) by by apply list_lookup_middle.
  destruct (getMessageFromEntryForBranch e) as [m|] eqn:Em.
  2:{ apply IH; [by simpl; rewrite Em|done..]. }
  destruct (_ && _) eqn:Eb.
  - apply andb_true_iff in Eb as [Hpos Hover]. to_prop. destruct (is_summary_entry e && _) eqn:Es.
    + apply andb_true_iff in Es as [Hs Hbelow]. exists (length older). split; cbn [bp_messages bp_totalTokens]; [|rewrite sumZ_cons|lia| |].
      * rewrite Hdrop. simpl. by rewrite Em, Hm.
      * lia.
      * intros _. right. exists e, m. split_and!; [done..|]. by replace (bp_totalTokens p + estimateTokens m - estimateTokens m) with (bp_totalTokens p) by lia.
      * right. left. done.
    + exists (S (length older)). split; cbn [bp_messages bp_totalTokens]; [|done|lia|auto|].
      * rewrite (drop_S _ _ _ Hat) in Hdrop. injection Hdrop as ->. done.
      * right. right. by exists e, m.
  - apply IH; cbn [bp_messages bp_totalTokens].
    + simpl. by rewrite Em, Hm.
    + rewrite sumZ_cons. lia.
    + intros Hpos. apply andb_false_iff in Eb as [Eb|Eb]; to_prop; lia.
Qed.

(** ** Theorems *)

(** What is abandoned is what the new branch lacks. In every reachable session, the branches of two entries are a
    shared way from the root and two remainders without a common entry; the walk ends and collects the remainder of
    the old branch, in its order, and the common ancestor is the last shared entry. *)
Theorem branch_entries_split (s0 s : session) (old target : jsstr) (Hw0 : wf s0) (Hr : reachable s0 s)
    (Hold : old ∈ ids s) :
  exists shared left rest,
    getBranch s (Some old) = Some (shared ++ left) /\ getBranch s (Some target) = Some (shared ++ rest) /\
    (forall e, e ∈ left -> e ∉ rest) /\
    collectEntriesForBranchSummary s (Some old) target = Some (left, e_id <$> last shared).
Proof.
  assert (Hw : wf s) by by eapply reachable_wf.
  destruct (getBranch_spec s (Some old) Hw) as (l1 & Hb1 & Hr1 & Hs1 & [Hlast _]).
  destruct (getBranch_spec s (Some target) Hw) as (l2 & Hb2 & Hr2 & Hs2 & _).
  destruct (Hlast Hold) as (eo & Hlo & Heo). clear Hlast.
  pose proof (getBranch_ids_nodup s _ l1 Hw Hb1) as Hnd.
  pose proof (getBranch_length s _ l1 Hb1) as Hlen.
  assert (Ht : truthy (Some old) = true) by (pose proof (wf_ids s Hw) as Hi; rewrite Forall_forall in Hi; specialize (Hi _ Hold); by destruct old).
  assert (Hcollect : forall shared left, l1 = shared ++ left -> common_ancestor (e_id <$> l1) (reverse l2) = e_id <$> last shared ->
    collectEntriesForBranchSummary s (Some old) target = Some (left, e_id <$> last shared)).
  { intros shared left -> Hc. unfold collectEntriesForBranchSummary. rewrite Ht, Hb1, Hb2. cbn [negb mbind option_bind]. rewrite Hc.
    replace (Some old) with (e_id <$> last (shared ++ left)) by (rewrite Hlo; by subst).
    rewrite collect_walk_spec; [|done..|rewrite length_app in Hlen; lia]. simpl. by rewrite reverse_involutive. }
  pose proof (common_ancestor_spec (e_id <$> l1) (reverse l2)) as Hc.
  destruct (common_ancestor (e_id <$> l1) (reverse l2)) as [i|] eqn:Ei.
  - destruct Hc as (a & c & b & Hrev & Hci & Hin & Hno).
    assert (Hl2 : l2 = reverse b ++ c :: reverse a) by (rewrite <- (reverse_involutive l2), Hrev, reverse_app, reverse_cons, <- (assoc_L app); done).
    apply list_elem_of_fmap in Hin as (c' & Hcc & Hin). assert (c' = c) as ->.
    { assert (get (byId s) (e_id c) = Some c) by (apply wf_get; [done|split; [|done]; apply Hs2; rewrite Hl2; set_solver]).
      assert (get (byId s) (e_id c) = Some c') by (apply wf_get; [done|split; [by apply Hs1|done]]). congruence. }
    apply list_elem_of_split in Hin as (pre & left & Hl1).
    assert (pre = reverse b) as ->.
    { rewrite Hl1 in Hr1, Hs1. rewrite Hl2 in Hr2, Hs2. eapply (same_way s); [done|exact Hr1|exact Hr2|set_solver|set_solver]. }
    exists (reverse b ++ [c]), left, (reverse a). rewrite <- !(assoc_L app). cbn [app]. split; [by rewrite Hb1, Hl1|]. split; [by rewrite Hb2, Hl2|]. split.
    + intros e He Ha. rewrite elem_of_reverse in Ha. rewrite Forall_forall in Hno. apply (Hno e Ha), list_elem_of_fmap_2. rewrite Hl1. set_solver.
    + apply Hcollect; [by rewrite <- (assoc_L app)|]. rewrite last_snoc. simpl. by subst.
  - exists [], l1, l2. split; [done|]. split; [done|]. split; [|by apply Hcollect].
    intros e He He2. rewrite Forall_forall in Hc. apply (Hc e); [by apply elem_of_reverse|by apply list_elem_of_fmap_2].
Qed.

(** The newest messages are selected, as many as fit. The selection is the messages of the entries from some entry
    on; without a positive budget these are all; else their tokens are within the budget, unless the oldest one is
    a summary, which is taken when the others fill less than nine tenths; and the next older message would not fit. *)
Theorem prepareBranchEntries_spec (entries : list SessionEntry) (budget : Z) :
  exists k, selection budget entries (prepareBranchEntries entries budget) k.
Proof.
  unfold prepareBranchEntries. destruct (select_loop_spec budget entries [] {| bp_messages := []; bp_fileOps := foldl nested_file_ops createFileOps entries; bp_totalTokens := 0 |})
    as [k Hk]; [done|done|simpl; lia|]. rewrite app_nil_r in Hk. by exists k.
Qed.

(** ** Examples and a witness *)

(** The log of [demo_talk], with another entry beside its second one. *)
Definition demo_fork : session :=
  run demo_env3 (CAppend (KMessage demo_user)) (run demo_env3 (CBranch (js "id0")) demo_talk).
Lemma demo_fork_reachable : reachable demo_session demo_fork.
Proof.
  eapply reach_step; [eapply reach_step; [apply demo_talk_reachable|]|]; apply step_run; [exact demo_talk_fresh|].
  split; [by intros i; simpl|]. exists 0%nat. split; [lia|reflexivity].
Qed.

Lemma branch_entries_split_witness :
  exists e, collectEntriesForBranchSummary demo_fork (Some (js "id1")) (js "id2") = Some ([e], Some (js "id0")) /\
    exists shared left rest, getBranch demo_fork (Some (js "id1")) = Some (shared ++ left) /\
      getBranch demo_fork (Some (js "id2")) = Some (shared ++ rest) /\ left = [e].
Proof.
  assert (Hold : js "id1" ∈ ids demo_fork) by (change (js "id1" ∈ [js "id0"; js "id1"; js "id2"]); set_solver).
  destruct (branch_entries_split demo_session demo_fork (js "id1") (js "id2") ltac:(apply empty_wf) demo_fork_reachable Hold)
    as (shared & left & rest & H1 & H2 & _ & Hc).
  assert (exists e, collectEntriesForBranchSummary demo_fork (Some (js "id1")) (js "id2") = Some ([e], Some (js "id0"))) as [e He]
    by (eexists; vm_compute; reflexivity).
  exists e. split; [exact He|]. rewrite Hc in He. injection He as -> _. by exists shared, [e], rest.
Defined.

(** A model whose context window is smaller than the reserve has a negative budget, which counts as none. *)
Example small_window_unlimited :
  branch_budget {| contextWindow := 8192; bo_customInstructions := None; replaceInstructions := false; bo_retry := None; reserve := 16384 |} = -8192 /\
  length (bp_messages (prepareBranchEntries (replicate 50 {| e_id := js "a"; parentId := None; e_timestamp := 0; kind := KMessage demo_user |}) (-8192))) = 50%nat.
Proof. split; reflexivity. Qed.

(** Files that tool results report as changed are not in the lists of a branch summary: results are left out before
    their files are looked at. A compaction of the same entry lists the file. *)
Definition demo_result : AgentMessage :=
  ToolResult {| toolCallId := js "c"; Messages.toolName := js "ipython"; t_content := [];
    details := Some (JObj [(js "diffs", JArr [JObj [(js "path", JStr (js "changed.py"))]])]); isError := false; t_timestamp := 0 |}.
Example result_files_left_out :
  edited (bp_fileOps (prepareBranchEntries [{| e_id := js "a"; parentId := None; e_timestamp := 0; kind := KMessage demo_result |}] 0)) = [] /\
  edited (extractFileOpsFromMessage demo_result createFileOps) = [js "changed.py"].
Proof. split; reflexivity. Qed.
