(* ===== verification/OutputAccumulator.v ===== *)
(** * The output of a running command (core/tools/output-accumulator.ts)

    The bytes of a command arrive in chunks; the accumulator decodes them, keeps a bounded tail and counts of what
    went by, and spills the bytes to a file once the output is too long to be shown whole. The stream that writes
    the file may fail at any time.

    [accumulator_counts] says that the counts are those of the whole output, [accumulator_bounded] that memory is
    bounded, [snapshot_is_tail] that a snapshot shows what truncating the whole output would, and [spill_complete]
    that a file whose path is given has all bytes. *)

(* Source aliases:
   OA = src/packages/coding-agent/src/core/tools/output-accumulator.ts *)

From S2P Require Import Prelude JsString Truncate Messages Json FileLog.
Local Open Scope Z_scope.

(** ** The spill file *)

(** OA 30-34 OutputSpill. [path] tells whether there is a path to advertise, [stream] whether the stream is open;
    [file] is what the stream was given. *)
Record OutputSpill := { path : bool; stream : bool; failed : bool; file : list N }.
Definition new_spill : OutputSpill := {| path := false; stream := false; failed := false; file := [] |}.

(** OA 46-74 OutputSpill.open. *)
Definition open (replay : list (list N)) (s : OutputSpill) : OutputSpill :=
  if stream s || failed s then s else {| path := true; stream := true; failed := false; file := concat replay |}.

(** OA 53-69 OutputSpill.open. The handler of the stream's errors. *)
Definition on_error (s : OutputSpill) : OutputSpill := {| path := false; stream := false; failed := true; file := file s |}.

(** OA 76-78 OutputSpill.write. *)
Definition write (chunk : list N) (s : OutputSpill) : OutputSpill :=
  if stream s then {| path := path s; stream := true; failed := failed s; file := file s ++ chunk |} else s.

(** OA 80-92 OutputSpill.finalize. [flush_fails] tells whether the last flush fails. *)
Definition finalize (flush_fails : bool) (s : OutputSpill) : OutputSpill :=
  if stream s && flush_fails then on_error s
  else {| path := path s; stream := false; failed := failed s; file := file s |}.

(** ** The decoder *)

(** A [TextDecoder] that streams: the start of a character that is not whole yet, and whether anything was decoded,
    since a byte order mark at the start is left out. *)
Record TextDecoder := { state : dstate; started : bool }.
Definition drop_bom (cps : list N) : list N := match cps with c :: rest => if (c =? 0xFEFF)%N then rest else cps | [] => [] end.
Definition decoded (d : TextDecoder) (cps : list N) : list N := if started d then cps else drop_bom cps.
Definition decode_stream (data : list N) (d : TextDecoder) : jsstr * TextDecoder :=
  let '(cps, st) := decode_chunk (state d) data in
  (utf16_encode (decoded d cps), {| state := st; started := started d || bool_decide (cps <> []) |}).
Definition decode_flush (d : TextDecoder) : jsstr := utf16_encode (decoded d (decode_end (state d))).

(** ** The accumulator *)

(** OA 106-123 OutputAccumulator. *)
Record OutputAccumulator := {
  maxLines : Z; maxBytes : Z; decoder : TextDecoder; rawChunks : list (list N); tailText : jsstr; tailBytes : Z;
  tailStartsAtLineBoundary : bool; totalRawBytes : Z; totalDecodedBytes : Z; a_totalLines : Z; currentLineBytes : Z;
  finished : bool; spill : OutputSpill }.

(** OA 128-128 OutputAccumulator.constructor. *)
Definition maxRollingBytes (a : OutputAccumulator) : Z := Z.max (maxBytes a * 2) 1.

(** OA 125-131 OutputAccumulator.constructor. *)
Definition new_accumulator (o : TruncationOptions) : OutputAccumulator :=
  {| maxLines := default DEFAULT_MAX_LINES (opt_maxLines o); maxBytes := default DEFAULT_MAX_BYTES (opt_maxBytes o);
     decoder := {| state := DStart; started := false |}; rawChunks := []; tailText := []; tailBytes := 0; tailStartsAtLineBoundary := true;
     totalRawBytes := 0; totalDecodedBytes := 0; a_totalLines := 1; currentLineBytes := 0; finished := false; spill := new_spill |}.

Definition set_tail (text : jsstr) (bytes : Z) (boundary : bool) (a : OutputAccumulator) : OutputAccumulator :=
  {| maxLines := maxLines a; maxBytes := maxBytes a; decoder := decoder a; rawChunks := rawChunks a; tailText := text; tailBytes := bytes;
     tailStartsAtLineBoundary := boundary; totalRawBytes := totalRawBytes a; totalDecodedBytes := totalDecodedBytes a;
     a_totalLines := a_totalLines a; currentLineBytes := currentLineBytes a; finished := finished a; spill := spill a |}.
Definition set_counts (decoded lines current : Z) (a : OutputAccumulator) : OutputAccumulator :=
  {| maxLines := maxLines a; maxBytes := maxBytes a; decoder := decoder a; rawChunks := rawChunks a; tailText := tailText a; tailBytes := tailBytes a;
     tailStartsAtLineBoundary := tailStartsAtLineBoundary a; totalRawBytes := totalRawBytes a; totalDecodedBytes := decoded;
     a_totalLines := lines; currentLineBytes := current; finished := finished a; spill := spill a |}.
Definition set_input (raw : Z) (d : TextDecoder) (fin : bool) (a : OutputAccumulator) : OutputAccumulator :=
  {| maxLines := maxLines a; maxBytes := maxBytes a; decoder := d; rawChunks := rawChunks a; tailText := tailText a; tailBytes := tailBytes a;
     tailStartsAtLineBoundary := tailStartsAtLineBoundary a; totalRawBytes := raw; totalDecodedBytes := totalDecodedBytes a;
     a_totalLines := a_totalLines a; currentLineBytes := currentLineBytes a; finished := fin; spill := spill a |}.
Definition set_store (chunks : list (list N)) (s : OutputSpill) (a : OutputAccumulator) : OutputAccumulator :=
  {| maxLines := maxLines a; maxBytes := maxBytes a; decoder := decoder a; rawChunks := chunks; tailText := tailText a; tailBytes := tailBytes a;
     tailStartsAtLineBoundary := tailStartsAtLineBoundary a; totalRawBytes := totalRawBytes a; totalDecodedBytes := totalDecodedBytes a;
     a_totalLines := a_totalLines a; currentLineBytes := currentLineBytes a; finished := finished a; spill := s |}.

(** OA 232-235 OutputAccumulator.trimTail. The start of the kept bytes, moved to a character boundary. *)
Fixpoint skip_to_boundary (start : nat) (rest : list N) : nat :=
  match rest with
  | [] => start
  | b :: rest => if is_cont b then skip_to_boundary (S start) rest else start
  end.

(** OA 225-240 OutputAccumulator.trimTail. *)
Definition trimTail (a : OutputAccumulator) : OutputAccumulator :=
  let buffer := buffer_from (tailText a) in
  if Z.of_nat (length buffer) <=? maxRollingBytes a then set_tail (tailText a) (Z.of_nat (length buffer)) (tailStartsAtLineBoundary a) a
  else
    let start := (length buffer - Z.to_nat (maxRollingBytes a))%nat in
    let start := skip_to_boundary start (drop start buffer) in
    let boundary := if Nat.eqb start 0 then tailStartsAtLineBoundary a else bool_decide (buffer !! pred start = Some LF) in
    let text := buffer_toString (drop start buffer) in
    set_tail text (byteLength text) boundary a.

(** OA 198-223 OutputAccumulator.appendDecodedText. *)
Definition appendDecodedText (text : jsstr) (a : OutputAccumulator) : OutputAccumulator :=
  match text with
  | [] => a
  | _ =>
      let bytes := byteLength text in
      let a1 := set_counts (totalDecodedBytes a + bytes) (a_totalLines a) (currentLineBytes a) a in
      let a2 := set_tail (tailText a1 ++ text) (tailBytes a1 + bytes) (tailStartsAtLineBoundary a1) a1 in
      let a3 := if maxRollingBytes a2 * 2 <? tailBytes a2 then trimTail a2 else a2 in
      let ls := lines_of text in
      if Nat.eqb (length ls) 1 then set_counts (totalDecodedBytes a3) (a_totalLines a3) (currentLineBytes a3 + bytes) a3
      else set_counts (totalDecodedBytes a3) (a_totalLines a3 + Z.of_nat (pred (length ls))) (byteLength (default [] (last ls))) a3
  end.

(** OA 251-255 OutputAccumulator.shouldUseTempFile. *)
Definition shouldUseTempFile (a : OutputAccumulator) : bool :=
  (maxBytes a <? totalRawBytes a) || (maxBytes a <? totalDecodedBytes a) || (maxLines a <? a_totalLines a).

(** OA 257-260 OutputAccumulator.ensureTempFile. *)
Definition ensureTempFile (a : OutputAccumulator) : OutputAccumulator := set_store [] (open (rawChunks a) (spill a)) a.

(** OA 133-147 OutputAccumulator.append. [None] when it throws. *)
Definition append (data : list N) (a : OutputAccumulator) : option OutputAccumulator :=
  if finished a then None
  else
    let '(text, d) := decode_stream data (decoder a) in
    let a1 := set_input (totalRawBytes a + Z.of_nat (length data)) d false a in
    let a2 := appendDecodedText text a1 in
    Some (if stream (spill a2) || shouldUseTempFile a2 then
            let a3 := ensureTempFile a2 in set_store (rawChunks a3) (write data (spill a3)) a3
          else match data with [] => a2 | _ => set_store (rawChunks a2 ++ [data]) (spill a2) a2 end).

(** OA 149-158 OutputAccumulator.finish. *)
Definition finish (a : OutputAccumulator) : OutputAccumulator :=
  if finished a then a
  else
    let a1 := appendDecodedText (decode_flush (decoder a)) (set_input (totalRawBytes a) {| state := DStart; started := false |} true a) in
    if shouldUseTempFile a1 then ensureTempFile a1 else a1.

(** OA 242-249 OutputAccumulator.getSnapshotText. *)
Definition getSnapshotText (a : OutputAccumulator) : jsstr :=
  if tailStartsAtLineBoundary a then tailText a
  else match lines_of (tailText a) with _ :: (_ :: _) as rest => unlines rest | _ => tailText a end.

(** OA 160-184 OutputAccumulator.snapshot. The result, and whether the path of the file is in it. *)
Definition snapshot (a : OutputAccumulator) : TruncationResult * bool :=
  let tailTruncation := truncateTail (getSnapshotText a) (opts (maxLines a) (maxBytes a)) in
  let truncated := (maxLines a <? a_totalLines a) || (maxBytes a <? totalDecodedBytes a) in
  let by_ := if truncated then match truncatedBy tailTruncation with
                               | Some b => Some b
                               | None => Some (if maxBytes a <? totalDecodedBytes a then ByBytes else ByLines)
                               end else None in
  ({| content := content tailTruncation; Truncate.truncated := truncated; truncatedBy := by_; totalLines := a_totalLines a;
      totalBytes := totalDecodedBytes a; outputLines := outputLines tailTruncation; outputBytes := outputBytes tailTruncation;
      lastLinePartial := lastLinePartial tailTruncation; firstLineExceedsLimit := firstLineExceedsLimit tailTruncation;
      res_maxLines := maxLines a; res_maxBytes := maxBytes a |}, path (spill a)).

(** OA 190-192 OutputAccumulator.closeTempFile. *)
Definition closeTempFile (flush_fails : bool) (a : OutputAccumulator) : OutputAccumulator := set_store (rawChunks a) (finalize flush_fails (spill a)) a.

(** What happens while the command runs: a chunk arrives, or the stream of the file fails. *)
Inductive event := Chunk (data : list N) | StreamError.
Definition happen (a : OutputAccumulator) (e : event) : OutputAccumulator :=
  match e with
  | Chunk data => default a (append data a)
  | StreamError => if stream (spill a) then set_store (rawChunks a) (on_error (spill a)) a else a
  end.
Definition run (es : list event) (o : TruncationOptions) : OutputAccumulator := foldl happen (new_accumulator o) es.
Definition received (es : list event) : list N := concat (omap (fun e => match e with Chunk data => Some data | _ => None end) es).

(** ** Decoded text *)

(** What is decoded is made of scalar values, whatever the bytes. *)
Fixpoint completes (n : nat) (cp lo hi : N) : Prop :=
  forall b, (lo <= b <= hi)%N ->
    match n with
    | S (S _ as m) => completes m (cp * 0x40 + (b - 0x80))%N 0x80 0xBF
    | _ => is_scalar (cp * 0x40 + (b - 0x80))
    end.
Definition sane (st : dstate) : Prop := match st with DStart => True | DCont n cp lo hi => completes n cp lo hi end.

Lemma replacement_scalar : is_scalar replacement.
Proof. unfold is_scalar, replacement. lia. Qed.

Lemma start_byte_sane b : Forall is_scalar (start_byte b).1 /\ sane (start_byte b).2.
Proof.
  unfold start_byte. pose proof replacement_scalar.
  repeat match goal with |- context [if (?x <? ?y)%N then _ else _] => destruct (x <? y)%N eqn:?; to_prop end; simpl; (split; [apply Forall_nil || (apply Forall_cons; split; [|apply Forall_nil])|]).
  all: try done; unfold is_scalar; repeat case_match; to_prop; intros; try done; lia.
Qed.

Lemma decode_chunk_sane st bytes : sane st -> Forall is_scalar (decode_chunk st bytes).1 /\ sane (decode_chunk st bytes).2.
Proof.
  revert st. induction bytes as [|b bytes IH]; intros st Hst; [by split; [constructor|]|]. pose proof replacement_scalar.
  destruct st as [|n cp lo hi]; cbn [decode_chunk].
  - destruct (start_byte_sane b) as [H1 H2]. destruct (start_byte b) as [out st']. destruct (IH st' H2) as [H3 H4].
    destruct (decode_chunk st' bytes). simpl in *. split; [by apply Forall_app|done].
  - destruct (_ && _) eqn:Eb.
    + assert (Hb : (lo <= b <= hi)%N) by (to_prop; lia). destruct n as [|[|n]]; specialize (Hst b Hb).
      1,2: destruct (IH DStart I) as [H3 H4]; destruct (decode_chunk DStart bytes); simpl in *; (split; [apply Forall_cons; split; [exact Hst|done]|done]).
      by apply IH.
    + destruct (start_byte_sane b) as [H1 H2]. destruct (start_byte b) as [out st']. destruct (IH st' H2) as [H3 H4].
      destruct (decode_chunk st' bytes). simpl in *. split; [constructor; [done|by apply Forall_app]|done].
Qed.

Lemma decode_chunk_chunks st a b :
  decode_chunk st (a ++ b) = ((decode_chunk st a).1 ++ (decode_chunk (decode_chunk st a).2 b).1, (decode_chunk (decode_chunk st a).2 b).2).
Proof.
  revert st. induction a as [|x a IH]; intros st; [simpl; by destruct (decode_chunk st b)|]. destruct st as [|n cp lo hi]; cbn [app decode_chunk].
  - destruct (start_byte x) as [out st']. rewrite IH. destruct (decode_chunk st' a) as [o s]. cbn. by rewrite (assoc_L app).
  - destruct (_ && _).
    + destruct n as [|[|n']]; [| |apply IH]; rewrite IH; by destruct (decode_chunk DStart a).
    + destruct (start_byte x) as [out st']. rewrite IH. destruct (decode_chunk st' a) as [o s]. cbn. by rewrite (assoc_L app).
Qed.

Section scalars.
Implicit Types (cps : list N).

Lemma encode_app cps cps' : utf8_encode (cps ++ cps') = utf8_encode cps ++ utf8_encode cps'.
Proof. apply bind_app. Qed.
Lemma buffer_utf16 cps : Forall is_scalar cps -> buffer_from (utf16_encode cps) = utf8_encode cps.
Proof. intros H. unfold buffer_from. by rewrite code_points_utf16_encode. Qed.
Lemma byteLength_utf16 cps : Forall is_scalar cps -> byteLength (utf16_encode cps) = Z.of_nat (length (utf8_encode cps)).
Proof. intros H. unfold byteLength. by rewrite buffer_utf16. Qed.
Lemma toString_utf8 cps : Forall is_scalar cps -> buffer_toString (utf8_encode cps) = utf16_encode cps.
Proof. intros H. unfold buffer_toString. by rewrite utf8_decode_encode. Qed.

Lemma LF_utf16 cp : is_scalar cp -> cp <> LF -> LF ∉ utf16_encode1 cp.
Proof.
  unfold is_scalar, utf16_encode1, LF. intros Hs Hn. destruct (cp <? 0x10000)%N eqn:E; to_prop; rewrite !elem_of_cons, elem_of_nil; [naive_solver|].
  intros [H|[H|[]]]; lia.
Qed.

(** Lines of code units and lines of code points are the same lines. *)
Lemma lines_utf16 cps : Forall is_scalar cps -> lines_of (utf16_encode cps) = utf16_encode <$> split_on LF cps.
Proof.
  unfold lines_of. induction 1 as [|cp cps Hcp _ IH]; [done|]. change (utf16_encode (cp :: cps)) with (utf16_encode1 cp ++ utf16_encode cps).
  cbn [split_on]. destruct (cp =? LF)%N eqn:E; to_prop.
  - subst. change (utf16_encode1 LF) with [LF]. cbn [app split_on]. by rewrite N.eqb_refl, IH.
  - pose proof (LF_utf16 cp Hcp E) as Hno. pose proof (split_on_nonempty LF cps). destruct (split_on LF cps) as [|c cs]; [done|].
    rewrite fmap_cons in IH. change (utf16_encode (cp :: c)) with (utf16_encode1 cp ++ utf16_encode c). rewrite fmap_cons.
    change (utf16_encode (cp :: c)) with (utf16_encode1 cp ++ utf16_encode c).
    revert Hno. generalize (utf16_encode1 cp). intros l. induction l as [|u l IHl]; intros Hl; [done|]. cbn [app split_on].
    assert ((u =? LF)%N = false) as -> by (apply N.eqb_neq; set_solver). rewrite IHl by set_solver. done.
Qed.

Lemma js_wf_utf16 cps : Forall is_scalar cps -> js_wf (utf16_encode cps).
Proof.
  induction 1 as [|cp cps Hcp _ IH]; [constructor|]. change (utf16_encode (cp :: cps)) with (utf16_encode1 cp ++ utf16_encode cps).
  apply Forall_app. split; [|done]. unfold utf16_encode1, is_scalar in *. destruct (cp <? 0x10000)%N eqn:E; to_prop.
  - apply Forall_cons. split; [done|constructor].
  - apply Forall_cons. split; [|apply Forall_cons; split; [|constructor]].
    + pose proof (N.Div0.div_lt_upper_bound (cp - 0x10000) 0x400 0x400 ltac:(lia)). lia.
    + pose proof (N.mod_lt (cp - 0x10000) 0x400 ltac:(lia)). lia.
Qed.

Lemma encode1_length cp : (1 <= length (utf8_encode1 cp) <= 4)%nat.
Proof. unfold utf8_encode1. repeat case_match; simpl; lia. Qed.

(** The start of the kept bytes, moved to a boundary, passes at most three bytes. *)
Lemma boundary_found cps n : Forall is_scalar cps -> (n <= length (utf8_encode cps))%nat ->
  exists j, (j <= length cps)%nat /\ skip_to_boundary n (drop n (utf8_encode cps)) = length (utf8_encode (take j cps)) /\
    (n <= length (utf8_encode (take j cps)) <= n + 3)%nat /\ (n = 0 <-> length (utf8_encode (take j cps)) = 0)%nat.
Proof.
  intros Hs. revert n. assert (Hconts : forall cs rest n, Forall (fun b => is_cont b = true) cs -> skip_to_boundary n (cs ++ rest) = skip_to_boundary (n + length cs) rest).
  { clear. intros cs rest. induction cs as [|c cs IH]; intros n Hc; [simpl; f_equal; lia|]. apply Forall_cons in Hc as [Hc Hcs]. simpl. rewrite Hc, IH by done. f_equal. lia. }
  assert (Hstart : forall cps n, Forall is_scalar cps -> skip_to_boundary n (utf8_encode cps) = n).
  { clear. intros cps n [|cp cps' Hcp _]; [done|]. change (utf8_encode (cp :: cps')) with (utf8_encode1 cp ++ utf8_encode cps').
    destruct (utf8_encode1_shape cp Hcp) as (b & bs & -> & Hb & _). simpl. by rewrite Hb. }
  assert (Hshift : forall l n m, skip_to_boundary (m + n) l = (m + skip_to_boundary n l)%nat).
  { clear. intros l. induction l as [|b l IH]; intros n m; [done|]. simpl. destruct (is_cont b); [|done]. rewrite <- IH. f_equal. lia. }
  induction Hs as [|cp cps Hcp Hcps IH]; intros n Hn.
  { exists 0%nat. simpl in *. rewrite drop_nil. simpl. split; [lia|]. lia. }
  change (utf8_encode (cp :: cps)) with (utf8_encode1 cp ++ utf8_encode cps) in *.
  destruct (utf8_encode1_shape cp Hcp) as (b & bs & Henc & Hb & Hbs). pose proof (encode1_length cp) as Hlen. rewrite Henc in *. simpl in Hlen.
  destruct n as [|n].
  { exists 0%nat. split; [lia|]. split; [|simpl; lia]. cbn [drop app skip_to_boundary]. by rewrite Hb. }
  destruct (decide (n < length bs)%nat) as [Hlt|Hge].
  - exists 1%nat. split; [simpl; lia|]. change (utf8_encode (take 1 (cp :: cps))) with (utf8_encode1 cp ++ []). rewrite app_nil_r, Henc. cbn [drop app length]. split; [|lia].
    rewrite drop_app_le by lia. rewrite Hconts by by apply Forall_drop. rewrite Hstart by done. rewrite length_drop. lia.
  - cbn [drop app]. rewrite drop_app_ge by lia. destruct (IH (n - length bs)%nat) as (j & Hjl & Hj & Hb1 & Hb2).
    { rewrite length_app in Hn. simpl in Hn. lia. }
    exists (S j). split; [simpl; lia|]. change (utf8_encode (take (S j) (cp :: cps))) with (utf8_encode1 cp ++ utf8_encode (take j cps)). rewrite Henc, length_app. cbn [length].
    replace (S n) with (S (length bs) + (n - length bs))%nat at 1 by lia. rewrite Hshift, Hj. lia.
Qed.
End scalars.

(** ** What the accumulator knows of the text *)


(** The lines of a text that grows: the last line is continued, and the others follow. *)
Lemma lines_grow (E D : list N) : Forall is_scalar E -> Forall is_scalar D ->
  exists xs x y ys, split_on LF E = xs ++ [x] /\ split_on LF D = y :: ys /\ split_on LF (E ++ D) = xs ++ (x ++ y) :: ys /\
    Forall is_scalar x /\ Forall is_scalar y /\ Forall (Forall is_scalar) ys.
Proof.
  intros HE HD. assert (Hin : forall l, Forall is_scalar l -> Forall (Forall is_scalar) (split_on LF l)).
  { clear. intros l. induction 1 as [|u l Hu _ IH]; cbn [split_on]; [by repeat constructor|].
    destruct (u =? LF)%N; [by constructor|]. pose proof (split_on_nonempty LF l). destruct (split_on LF l) as [|c cs]; [done|].
    apply Forall_cons in IH as [? ?]. constructor; [by constructor|done]. }
  specialize (Hin E HE) as HinE. specialize (Hin D HD).
  destruct (split_on LF E) as [|x0 xs0] eqn:EE; [by apply split_on_nonempty in EE|].
  destruct (exists_last (l := x0 :: xs0) ltac:(done)) as (xs & x & Hx0). rewrite Hx0 in *. clear Hx0 x0 xs0.
  destruct (split_on LF D) as [|y ys] eqn:ED; [by apply split_on_nonempty in ED|].
  exists xs, x, y, ys. apply Forall_app in HinE as [_ [Hx _]%Forall_cons]. apply Forall_cons in Hin as [Hy Hys]. split_and!; [done..| |done|done|done].
  by apply split_on_join.
Qed.

Lemma last_utf16 (ls : list (list N)) x : last (utf16_encode <$> ls ++ [x]) = Some (utf16_encode x).
Proof. rewrite fmap_app. apply last_snoc. Qed.

(** The tail: the text from its [k]-th character on. *)
Record keeps_tail (a : OutputAccumulator) (E : list N) (k : nat) : Prop := {
  kt_in : (k <= length E)%nat;
  kt_text : tailText a = utf16_encode (drop k E);
  kt_bytes : tailBytes a = byteLength (tailText a);
  kt_start : k = 0%nat /\ tailStartsAtLineBoundary a = true \/
    (0 < k)%nat /\ maxRollingBytes a - 3 <= tailBytes a /\ tailStartsAtLineBoundary a = bool_decide (E !! pred k = Some LF)
}.
Record counts (a : OutputAccumulator) (E : list N) : Prop := {
  ct_scalar : Forall is_scalar E;
  ct_decoded : totalDecodedBytes a = byteLength (utf16_encode E);
  ct_lines : a_totalLines a = Z.of_nat (length (lines_of (utf16_encode E)));
  ct_current : currentLineBytes a = byteLength (default [] (last (lines_of (utf16_encode E))))
}.
Definition holds_text (a : OutputAccumulator) (E : list N) : Prop :=
  counts a E /\ (exists k, keeps_tail a E k) /\ tailBytes a <= 2 * maxRollingBytes a.

Lemma tail_grows a E D k : keeps_tail a E k -> Forall is_scalar (E ++ D) ->
  keeps_tail (set_tail (tailText a ++ utf16_encode D) (tailBytes a + byteLength (utf16_encode D)) (tailStartsAtLineBoundary a) a) (E ++ D) k.
Proof.
  intros [Hk Ht Hb Hs] Hsc. assert (Hd : tailText a ++ utf16_encode D = utf16_encode (drop k (E ++ D))) by (rewrite drop_app_le, utf16_encode_app by done; by rewrite Ht).
  apply Forall_app in Hsc as [HE HD].
  assert (Hbytes : byteLength (tailText a ++ utf16_encode D) = byteLength (tailText a) + byteLength (utf16_encode D)).
  { rewrite Ht, <- utf16_encode_app, !byteLength_utf16, encode_app, length_app by auto using Forall_app_2, Forall_drop. lia. }
  split; cbn [set_tail tailText tailBytes tailStartsAtLineBoundary].
  - rewrite length_app. lia.
  - done.
  - by rewrite Hbytes, Hb.
  - destruct Hs as [?|(Hk0 & Hmin & Hbd)]; [by left|]. right. split; [done|]. change (maxRollingBytes (set_tail _ _ _ a)) with (maxRollingBytes a).
    split; [pose proof (byteLength_nonneg (utf16_encode D)); lia|]. rewrite Hbd. by rewrite lookup_app_l by lia.
Qed.

Lemma LF_last_byte cps : Forall is_scalar cps -> last (utf8_encode cps) = Some LF <-> last cps = Some LF.
Proof.
  intros Hs. destruct cps as [|cp cps _] using rev_ind; [done|]. apply Forall_app in Hs as [_ [Hcp _]%Forall_cons].
  rewrite encode_app, last_snoc. change (utf8_encode [cp]) with (utf8_encode1 cp ++ []). rewrite app_nil_r.
  pose proof (encode1_length cp) as Hlen. destruct (utf8_encode1 cp) as [|b0 l0] eqn:Ee; [simpl in Hlen; lia|].
  destruct (exists_last (l := b0 :: l0) ltac:(done)) as (l & b & Hb0). rewrite Hb0 in *. clear Hb0 b0 l0 Hlen.
  rewrite (assoc_L app), last_snoc. split; intros [= ->].
  - f_equal. apply LF_utf8_encode1. rewrite Ee. set_solver.
  - change (utf8_encode1 LF) with ([] ++ [LF]) in Ee. apply app_inj_tail in Ee as [_ <-]. done.
Qed.

Lemma trimmed_tail a E k : Forall is_scalar E -> keeps_tail a E k -> 2 * maxRollingBytes a < tailBytes a ->
  exists k', keeps_tail (trimTail a) E k' /\ tailBytes (trimTail a) <= maxRollingBytes a.
Proof.
  intros HE [Hk Ht Hb Hs] Hlong. set (cps := drop k E) in *. assert (Hsc : Forall is_scalar cps) by by apply Forall_drop.
  assert (Hmax : 1 <= maxRollingBytes a) by (unfold maxRollingBytes; lia).
  unfold trimTail. rewrite Ht, buffer_utf16 by done. rewrite Hb, Ht, byteLength_utf16 in Hlong by done. set (B := utf8_encode cps) in *.
  destruct (Z.of_nat (length B) <=? maxRollingBytes a) eqn:El; to_prop; [lia|].
  set (n := (length B - Z.to_nat (maxRollingBytes a))%nat). destruct (boundary_found cps n Hsc ltac:(unfold n, B; lia)) as (j & Hj & Hskip & Hn & _).
  fold B in Hskip. rewrite Hskip. set (m := length (utf8_encode (take j cps))) in *.
  assert (HB : B = utf8_encode (take j cps) ++ utf8_encode (drop j cps)) by (unfold B; rewrite <- encode_app; by rewrite take_drop).
  assert (Hdrop : drop m B = utf8_encode (drop j cps)) by (rewrite HB; unfold m; apply drop_app_length).
  rewrite Hdrop, toString_utf8 by by apply Forall_drop.
  assert (Hm0 : (0 < m)%nat) by (unfold n in Hn; lia).
  assert (Hlen : byteLength (utf16_encode (drop j cps)) = Z.of_nat (length B - m)).
  { rewrite byteLength_utf16 by by apply Forall_drop. rewrite <- Hdrop, length_drop. done. }
  assert (HmB : (m <= length B)%nat) by (rewrite HB, length_app; lia).
  assert (Hj0 : (0 < j)%nat) by (destruct j; [by unfold m in Hm0|lia]).
  exists (k + j)%nat. split; [|cbn [set_tail tailBytes]; rewrite Hlen; unfold n in Hn; lia].
  split; cbn [set_tail tailText tailBytes tailStartsAtLineBoundary].
  - unfold cps in Hj. rewrite length_drop in Hj. lia.
  - unfold cps. by rewrite drop_drop.
  - done.
  - right. split; [lia|]. split; [change (maxRollingBytes (set_tail _ _ _ a)) with (maxRollingBytes a); rewrite Hlen; unfold n in Hn; lia|].
    destruct (Nat.eqb m 0) eqn:E0; [apply Nat.eqb_eq in E0; lia|]. apply bool_decide_ext.
    assert (B !! pred m = last (utf8_encode (take j cps))) as ->.
    { rewrite last_lookup, HB. fold m. rewrite lookup_app_l by (fold m; lia). done. }
    rewrite LF_last_byte by by apply Forall_take. rewrite last_lookup, length_take.
    replace (Nat.min j (length cps)) with j by lia. rewrite lookup_take_lt by lia. unfold cps. rewrite lookup_drop.
    by replace (k + pred j)%nat with (pred (k + j)) by lia.
Qed.

(** What the counts are made of. *)
Definition same_input (a a' : OutputAccumulator) : Prop :=
  maxLines a' = maxLines a /\ maxBytes a' = maxBytes a /\ decoder a' = decoder a /\ rawChunks a' = rawChunks a /\
  totalRawBytes a' = totalRawBytes a /\ finished a' = finished a /\ spill a' = spill a.

Lemma trimTail_same a : same_input a (trimTail a) /\ totalDecodedBytes (trimTail a) = totalDecodedBytes a /\
  a_totalLines (trimTail a) = a_totalLines a /\ currentLineBytes (trimTail a) = currentLineBytes a.
Proof. unfold trimTail. by destruct (_ <=? _). Qed.

Lemma utf16_nil D : utf16_encode D = [] <-> D = [].
Proof.
  split; [|by intros ->]. destruct D as [|d D]; [done|]. change (utf16_encode (d :: D)) with (utf16_encode1 d ++ utf16_encode D).
  unfold utf16_encode1. by destruct (_ <? _)%N.
Qed.

Lemma appendDecodedText_spec a E D : holds_text a E -> Forall is_scalar (E ++ D) ->
  holds_text (appendDecodedText (utf16_encode D) a) (E ++ D) /\ same_input a (appendDecodedText (utf16_encode D) a).
Proof.
  intros (Hc & (k & Hk) & Hbound) Hsc. unfold appendDecodedText. destruct (utf16_encode D) as [|u text] eqn:Etext.
  { apply utf16_nil in Etext as ->. rewrite app_nil_r. split; [by split; [|split; [exists k|]]|by unfold same_input]. }
  rewrite <- Etext. clear u text Etext. pose proof Hsc as [HE HD]%Forall_app.
  set (a1 := set_counts _ _ _ a). set (a2 := set_tail _ _ _ a1).
  assert (Hk2 : keeps_tail a2 (E ++ D) k) by exact (tail_grows a1 E D k ltac:(by destruct Hk; split) Hsc).
  set (a3 := if maxRollingBytes a2 * 2 <? tailBytes a2 then trimTail a2 else a2).
  assert (H3 : (exists k', keeps_tail a3 (E ++ D) k') /\ tailBytes a3 <= 2 * maxRollingBytes a3 /\ same_input a a3 /\
    totalDecodedBytes a3 = totalDecodedBytes a + byteLength (utf16_encode D) /\ a_totalLines a3 = a_totalLines a /\ currentLineBytes a3 = currentLineBytes a).
  { unfold a3. destruct (_ <? _) eqn:El; to_prop.
    - destruct (trimmed_tail a2 (E ++ D) k Hsc Hk2 ltac:(lia)) as (k' & Hk' & Hb'). destruct (trimTail_same a2) as (Hs & Hd & Hl & Hcur).
      split; [by exists k'|]. unfold maxRollingBytes in *. destruct Hs as (? & Hmb & ?). rewrite Hmb in *. split; [lia|]. split; [by unfold same_input|done].
    - split; [by exists k|]. split; [lia|]. by unfold same_input. }
  destruct H3 as ((k' & Hk') & Hb3 & Hs3 & Hd3 & Hl3 & Hc3).
  destruct (lines_grow E D HE HD) as (xs & x & y & ys & HlE & HlD & HlED & Hx & Hy & Hys). destruct Hc as [_ Hdec Hlines Hcur].
  rewrite (lines_utf16 E HE), HlE in Hlines, Hcur. rewrite last_utf16 in Hcur. rewrite length_fmap, length_app in Hlines. simpl in Hlines, Hcur.
  assert (Hnew : length (lines_of (utf16_encode (E ++ D))) = (length xs + S (length ys))%nat).
  { rewrite lines_utf16, HlED, length_fmap, length_app by done. done. }
  assert (Hbytes : byteLength (utf16_encode (E ++ D)) = byteLength (utf16_encode E) + byteLength (utf16_encode D)).
  { rewrite !byteLength_utf16, encode_app, length_app by done. lia. }
  rewrite lines_utf16, HlD, length_fmap by done. cbn [length].
  destruct (Nat.eqb (S (length ys)) 1) eqn:E1.
  - apply Nat.eqb_eq in E1. destruct ys; [|done]. split; [|exact Hs3]. split; [|split; [by exists k'; destruct Hk'; split|done]].
    split; cbn [set_counts totalDecodedBytes a_totalLines currentLineBytes]; [done|lia| |].
    + rewrite Hnew, Hl3, Hlines. simpl. lia.
    + rewrite lines_utf16, HlED, last_utf16 by done. simpl. rewrite Hc3, Hcur, utf16_encode_app.
      assert (D = y) as -> by (pose proof (join_split LF D) as HJ; rewrite HlD in HJ; done).
      rewrite <- utf16_encode_app, !byteLength_utf16, encode_app, length_app by (try apply Forall_app; done). lia.
  - apply Nat.eqb_neq in E1. split; [|exact Hs3]. split; [|split; [by exists k'; destruct Hk'; split|done]].
    split; cbn [set_counts totalDecodedBytes a_totalLines currentLineBytes]; [done|lia| |].
    + rewrite Hnew, Hl3, Hlines. simpl. lia.
    + rewrite lines_utf16, HlED by done. destruct (exists_last (l := ys)) as (zs & z & ->); [by destruct ys|].
      change (y :: zs ++ [z]) with ((y :: zs) ++ [z]). replace (xs ++ (x ++ y) :: zs ++ [z]) with ((xs ++ (x ++ y) :: zs) ++ [z]) by by rewrite <- (assoc_L app).
      by rewrite !last_utf16.
Qed.

(** ** Runs *)

(** What has been decoded of the bytes received so far, and the whole text at the end. *)
Definition text_so_far (data : list N) : list N := drop_bom (decode_chunk DStart data).1.
Definition whole_text (data : list N) : list N := drop_bom (utf8_decode_from DStart data).

Lemma drop_bom_scalar cps : Forall is_scalar cps -> Forall is_scalar (drop_bom cps).
Proof. destruct 1; [constructor|]. simpl. destruct (_ =? _)%N; [done|by constructor]. Qed.
Lemma drop_bom_app a b : a <> [] -> drop_bom (a ++ b) = drop_bom a ++ b.
Proof. destruct a as [|x a]; [done|]. simpl. by destruct (_ =? _)%N. Qed.

(** The store of the bytes: in memory as long as they are few, else in the file, or lost with it. *)
Definition stored (a : OutputAccumulator) (data : list N) : Prop :=
  if stream (spill a) then path (spill a) = true /\ failed (spill a) = false /\ file (spill a) = data /\ rawChunks a = [] /\ shouldUseTempFile a = true
  else path (spill a) = false /\
    (if failed (spill a) then rawChunks a = [] /\ shouldUseTempFile a = true else concat (rawChunks a) = data /\ Z.of_nat (length data) <= Z.max 0 (maxBytes a)).

Record inv (a : OutputAccumulator) (data : list N) : Prop := {
  inv_text : holds_text a (text_so_far data);
  inv_decoder : decoder a = {| state := (decode_chunk DStart data).2; started := bool_decide ((decode_chunk DStart data).1 <> []) |};
  inv_raw : totalRawBytes a = Z.of_nat (length data);
  inv_running : finished a = false;
  inv_stored : stored a data
}.

Lemma decoded_next data raw st (more : list N) : decode_chunk DStart data = (raw, st) ->
  drop_bom (raw ++ more) = drop_bom raw ++ decoded {| state := st; started := bool_decide (raw <> []) |} more.
Proof. intros _. unfold decoded. simpl. destruct raw as [|x raw]; [done|]. rewrite bool_decide_eq_true_2 by done. by apply drop_bom_app. Qed.

Lemma holds_text_input a E raw d fin : holds_text a E -> holds_text (set_input raw d fin a) E.
Proof. intros ([] & (k & []) & ?). split; [by split|]. split; [exists k; by split|done]. Qed.
Lemma holds_text_store a E chunks s : holds_text a E -> holds_text (set_store chunks s a) E.
Proof. intros ([] & (k & []) & ?). split; [by split|]. split; [exists k; by split|done]. Qed.

(** Output that is too long stays too long. *)
Lemma too_long_stays a a' E D : counts a E -> counts a' (E ++ D) -> maxLines a' = maxLines a -> maxBytes a' = maxBytes a ->
  totalRawBytes a <= totalRawBytes a' -> shouldUseTempFile a = true -> shouldUseTempFile a' = true.
Proof.
  intros [HE Hd Hl _] [HED Hd' Hl' _] HmL HmB Hraw. pose proof HED as [_ HD]%Forall_app. unfold shouldUseTempFile.
  destruct (lines_grow E D HE HD) as (xs & x & y & ys & HlE & _ & HlED & _).
  rewrite lines_utf16, length_fmap in Hl, Hl' by done. rewrite HlE, length_app in Hl. rewrite HlED, length_app in Hl'. simpl in Hl, Hl'.
  rewrite byteLength_utf16 in Hd, Hd' by done. rewrite encode_app, length_app in Hd'. rewrite HmL, HmB. intros H.
  apply orb_true_iff in H as [H|H]; [apply orb_true_iff in H as [H|H]|]; to_prop; rewrite !orb_true_iff, !Z.ltb_lt; lia.
Qed.

(** The text a chunk adds, and what the accumulator holds then. *)
Lemma append_text a data chunk : inv a data ->
  let '(text, d) := decode_stream chunk (decoder a) in
  let a2 := appendDecodedText text (set_input (totalRawBytes a + Z.of_nat (length chunk)) d false a) in
  rawChunks a2 = rawChunks a /\ spill a2 = spill a /\ maxLines a2 = maxLines a /\ maxBytes a2 = maxBytes a /\
  (shouldUseTempFile a = true -> shouldUseTempFile a2 = true) /\ totalRawBytes a2 = Z.of_nat (length (data ++ chunk)) /\
  forall chunks s, stored (set_store chunks s a2) (data ++ chunk) -> inv (set_store chunks s a2) (data ++ chunk).
Proof.
  intros [Htext Hdec Hraw Hrun Hst]. unfold decode_stream. rewrite Hdec. cbn [state started].
  pose proof (decode_chunk_chunks DStart data chunk) as Hchunks. destruct (decode_chunk DStart data) as [raw st] eqn:Ed. cbn [fst snd] in *.
  destruct (decode_chunk st chunk) as [cps st'] eqn:Ec. cbn [fst snd] in *. set (d := {| state := st'; started := _ |}).
  pose proof (decode_chunk_sane DStart (data ++ chunk) I) as [Hsc _]. rewrite Hchunks in Hsc. cbn [fst] in Hsc. apply drop_bom_scalar in Hsc.
  assert (Hnext : drop_bom (raw ++ cps) = text_so_far data ++ decoded {| state := st; started := bool_decide (raw <> []) |} cps).
  { unfold text_so_far. rewrite Ed. by apply (decoded_next data). }
  rewrite Hnext in Hsc. set (a1 := set_input _ d false a). set (D := decoded _ cps) in *. pose proof (holds_text_input a _ (totalRawBytes a + Z.of_nat (length chunk)) d false Htext) as Ht1.
  destruct (appendDecodedText_spec a1 (text_so_far data) D Ht1 Hsc) as [Ht2 (H1 & H2 & H3 & H4 & H5 & H6 & H7)].
  set (a2 := appendDecodedText (utf16_encode D) a1) in *. cbn [a1 set_input maxLines maxBytes decoder rawChunks totalRawBytes finished spill] in *.
  split_and!; [done..| | |].
  - apply (too_long_stays a a2 (text_so_far data) D); [by destruct Htext|by destruct Ht2|done..|lia].
  - rewrite H5, length_app, Hraw. lia.
  - intros chunks s Hs. split; cbn [set_store decoder totalRawBytes finished]; [|..|done].
    + apply holds_text_store. unfold text_so_far at 1. rewrite Hchunks. cbn [fst]. by rewrite Hnext.
    + rewrite H3, Hchunks. unfold d. cbn [fst snd]. f_equal. by destruct raw, cps.
    + rewrite H5, length_app, Hraw. lia.
    + done.
Qed.

Lemma append_keeps a data chunk : inv a data -> exists a', append chunk a = Some a' /\ inv a' (data ++ chunk) /\ maxLines a' = maxLines a /\ maxBytes a' = maxBytes a.
Proof.
  intros Hinv. pose proof (append_text a data chunk Hinv) as Ht. unfold append. rewrite (inv_running a data Hinv).
  pose proof (inv_stored a data Hinv) as Hst. destruct (decode_stream chunk (decoder a)) as [text d]. cbv zeta in Ht.
  set (a2 := appendDecodedText _ _) in *. destruct Ht as (Hraw & Hsp & HL & HB & Hlong & Hbytes & Hkeep). unfold stored in Hst.
  eexists. split; [reflexivity|]. unfold ensureTempFile, open, write. rewrite Hsp, Hraw.
  destruct (stream (spill a)) eqn:Es; cbn [orb].
  - destruct Hst as (Hp & Hfail & Hfile & Hch & Hu). cbn [set_store rawChunks spill]. rewrite Es. split; [|done]. apply Hkeep.
    unfold stored. cbn [set_store spill stream path failed file rawChunks]. rewrite Hfile. split_and!; [done..|]. by apply Hlong.
  - destruct Hst as [Hp Hst]. destruct (failed (spill a)) eqn:Ef.
    + destruct Hst as [Hch Hu]. rewrite (Hlong Hu). cbn [set_store rawChunks spill]. rewrite Es. split; [|done]. apply Hkeep.
      unfold stored. cbn [set_store spill rawChunks]. rewrite Es, Ef. split_and!; [done..|]. by apply Hlong.
    + destruct Hst as [Hch Hu]. destruct (shouldUseTempFile a2) eqn:Eu.
      * cbn [set_store rawChunks spill stream path failed file]. split; [|done]. apply Hkeep. unfold stored.
        cbn [set_store spill stream path failed file rawChunks]. rewrite Hch. done.
      * assert (Hsame : forall chunks, concat chunks = data ++ chunk -> inv (set_store chunks (spill a) a2) (data ++ chunk)).
        { intros chunks Hc. apply Hkeep. unfold stored. cbn [set_store spill rawChunks maxBytes]. rewrite Es, Ef. split_and!; [done..|].
          unfold shouldUseTempFile in Eu. to_prop. lia. }
        destruct chunk as [|b chunk].
        -- assert (a2 = set_store (rawChunks a) (spill a) a2) as -> by (rewrite <- Hraw, <- Hsp; by destruct a2). split; [|done]. apply Hsame. by rewrite Hch, app_nil_r.
        -- split; [|done]. apply Hsame. rewrite concat_app, Hch. simpl. by rewrite app_nil_r.
Qed.

Lemma new_inv o : inv (new_accumulator o) [].
Proof.
  split; [|done..|]; [|by unfold stored; simpl; split_and!; [..|lia]]. split; [by split; [constructor|..]|]. split.
  - exists 0%nat. split; [simpl; lia|done..|by left].
  - cbn [new_accumulator tailBytes]. unfold maxRollingBytes. lia.
Qed.

Lemma happen_spec a data e : inv a data ->
  inv (happen a e) (data ++ received [e]) /\ maxLines (happen a e) = maxLines a /\ maxBytes (happen a e) = maxBytes a.
Proof.
  intros Hinv. destruct e as [chunk|]; cbn [happen].
  - destruct (append_keeps a data chunk Hinv) as (a' & -> & H & ?). cbn. by rewrite app_nil_r.
  - cbn. rewrite app_nil_r. destruct (stream (spill a)) eqn:Es; [|done]. split; [|done]. destruct Hinv as [H1 H2 H3 H4 H5].
    split; [by apply holds_text_store|done..|]. unfold stored in *. rewrite Es in H5. cbn. destruct H5 as (_ & _ & _ & ? & ?). done.
Qed.

(** Every run keeps the invariant. *)
Lemma run_spec es o : inv (run es o) (received es) /\ maxLines (run es o) = maxLines_of o /\ maxBytes (run es o) = maxBytes_of o.
Proof.
  induction es as [|e es IH] using rev_ind; [split; [apply new_inv|done]|]. unfold run in *. rewrite foldl_snoc.
  destruct IH as (IH & HL & HB). destruct (happen_spec _ _ e IH) as (H & HL' & HB'). rewrite HL', HB'. split; [|done].
  replace (received (es ++ [e])) with (received es ++ received [e]); [done|]. unfold received. by rewrite omap_app, concat_app.
Qed.

(** ** The end of the output *)

(** Once finished, the bytes are in the file, or lost with it, or few and in memory. *)
Definition settled (a : OutputAccumulator) (data : list N) : Prop :=
  if stream (spill a) then path (spill a) = true /\ failed (spill a) = false /\ file (spill a) = data
  else path (spill a) = false /\ (failed (spill a) = true \/ concat (rawChunks a) = data /\ shouldUseTempFile a = false).

Lemma finish_spec a data : inv a data ->
  holds_text (finish a) (whole_text data) /\ settled (finish a) data /\ finished (finish a) = true /\
  totalRawBytes (finish a) = Z.of_nat (length data) /\ Z.of_nat (length (concat (rawChunks (finish a)))) <= Z.max 0 (maxBytes a) /\
  maxLines (finish a) = maxLines a /\ maxBytes (finish a) = maxBytes a.
Proof.
  intros [Htext Hdec Hraw Hrun Hst]. unfold finish, decode_flush. rewrite Hrun, Hdec. cbn [state started].
  pose proof (decode_chunk_app DStart data []) as Hwhole. rewrite app_nil_r in Hwhole. fold (decode_end (decode_chunk DStart data).2) in Hwhole.
  destruct (decode_chunk DStart data) as [raw st] eqn:Ed. cbn [fst snd] in *.
  set (a1 := set_input _ _ true a). set (D := decoded _ _).
  assert (Hnext : whole_text data = text_so_far data ++ D).
  { unfold whole_text, text_so_far. rewrite Hwhole, Ed. by apply (decoded_next data). }
  assert (Hsc : Forall is_scalar (whole_text data)).
  { unfold whole_text. rewrite Hwhole. apply drop_bom_scalar, Forall_app. pose proof (decode_chunk_sane DStart data I) as [H _]. rewrite Ed in H. split; [done|].
    pose proof replacement_scalar. unfold decode_end. destruct st; simpl; by repeat constructor. }
  rewrite Hnext in *. destruct (appendDecodedText_spec a1 (text_so_far data) D) as [Ht (H1 & H2 & H3 & H4 & H5 & H6 & H7)];
    [by apply holds_text_input|done|]. set (a2 := appendDecodedText _ a1) in *. cbn [a1 set_input maxLines maxBytes rawChunks totalRawBytes finished spill] in *.
  assert (Hlong : shouldUseTempFile a = true -> shouldUseTempFile a2 = true).
  { apply (too_long_stays a a2 (text_so_far data) D); [by destruct Htext|by destruct Ht|done..|lia]. }
  unfold stored in Hst. assert (Hmem : Z.of_nat (length (concat (rawChunks a))) <= Z.max 0 (maxBytes a)).
  { destruct (stream _); [destruct Hst as (_ & _ & _ & -> & _); simpl; lia|]. destruct Hst as [_ Hst].
    destruct (failed _); [destruct Hst as [-> _]; simpl; lia|]. destruct Hst as [-> ?]. done. }
  assert (Hlost : Z.of_nat (length (concat (@nil (list N)))) <= Z.max 0 (maxBytes a)) by (simpl; lia).
  unfold settled, ensureTempFile, open. destruct (shouldUseTempFile a2) eqn:Eu.
  - rewrite H4, H7. destruct (stream (spill a)) eqn:Es; cbn [orb]; [|destruct (failed (spill a)) eqn:Ef]; cbn [set_store spill stream path failed file rawChunks maxLines maxBytes totalRawBytes finished].
    + destruct Hst as (Hp & Hf & Hfile & _). rewrite Es, Hp, Hf, Hfile, H5. split_and!; [by apply holds_text_store|done..].
    + destruct Hst as [Hp _]. rewrite Es, Ef, Hp, H5. split_and!; [by apply holds_text_store|done|by left|done..].
    + destruct Hst as [Hp [Hc _]]. rewrite H5, Hc. split_and!; [by apply holds_text_store|done..].
  - rewrite H4, H7, H5. split_and!; [done| |done..]. destruct (stream (spill a)).
    + by destruct Hst as (? & ? & ? & _).
    + destruct Hst as [Hp Hst]. destruct (failed (spill a)); [by split; [|left]|]. split; [done|]. right. destruct Hst as [Hc _]. by split.
Qed.

(** The accumulator after the events, finished or not, and the text it has decoded. *)
Definition accumulated (es : list event) (o : TruncationOptions) (fin : bool) : OutputAccumulator :=
  if fin then finish (run es o) else run es o.
Definition text_of (es : list event) (fin : bool) : list N := (if fin then whole_text else text_so_far) (received es).

Lemma accumulated_holds es o fin : let a := accumulated es o fin in
  holds_text a (text_of es fin) /\ totalRawBytes a = Z.of_nat (length (received es)) /\
  Z.of_nat (length (concat (rawChunks a))) <= Z.max 0 (maxBytes a) /\ maxLines a = maxLines_of o /\ maxBytes a = maxBytes_of o.
Proof.
  destruct (run_spec es o) as (Hinv & HL & HB). unfold accumulated, text_of. cbv zeta. destruct fin.
  - destruct (finish_spec _ _ Hinv) as (? & _ & _ & ? & ? & HL' & HB'). rewrite HL', HB', HL, HB in *. done.
  - pose proof Hinv as [H1 _ H3 _ Hst]. rewrite <- HB at 1. rewrite HL, HB. split_and!; [done..| |done|done]. unfold stored in Hst. rewrite HB in *.
    destruct (stream _); [destruct Hst as (_ & _ & _ & -> & _); simpl; lia|]. destruct Hst as [_ Hst].
    destruct (failed _); [destruct Hst as [-> _]; simpl; lia|]. destruct Hst as [-> ?]. done.
Qed.

(** At any time the counts are those of the output so far, however it was cut into chunks and whatever happened to
    the file: the bytes received, the bytes of the decoded text, its lines, and the bytes of its last line. *)
Theorem accumulator_counts (es : list event) (o : TruncationOptions) (fin : bool) :
  let a := accumulated es o fin in
  let text := utf16_encode (text_of es fin) in
  totalRawBytes a = Z.of_nat (length (received es)) /\ totalDecodedBytes a = byteLength text /\
  a_totalLines a = Z.of_nat (length (lines_of text)) /\ currentLineBytes a = byteLength (default [] (last (lines_of text))).
Proof. destruct (accumulated_holds es o fin) as (([] & _) & ? & _). done. Qed.

(** Memory is bounded at any time: the tail takes at most four times [maxBytes] (or two bytes), and the chunks kept
    as they came at most [maxBytes] bytes. *)
Theorem accumulator_bounded (es : list event) (o : TruncationOptions) (fin : bool) :
  let a := accumulated es o fin in
  byteLength (tailText a) <= 2 * Z.max (2 * maxBytes_of o) 1 /\
  Z.of_nat (length (concat (rawChunks a))) <= Z.max 0 (maxBytes_of o).
Proof.
  destruct (accumulated_holds es o fin) as ((_ & (k & []) & Hb) & _ & Hm & HL & HB). cbv zeta. unfold maxRollingBytes in Hb.
  rewrite HB in *. split; lia.
Qed.

(** When the command is over and the file closed, a path is shown only of a file that has every byte received, in
    order; without a path the stream failed, or the output fits the limits and is in memory whole. *)
Theorem spill_complete (es : list event) (o : TruncationOptions) (flush_fails : bool) :
  let a := closeTempFile flush_fails (finish (run es o)) in
  stream (spill a) = false /\
  if (snapshot a).2 then file (spill a) = received es /\ failed (spill a) = false
  else failed (spill a) = true \/ concat (rawChunks a) = received es /\ shouldUseTempFile a = false.
Proof.
  destruct (run_spec es o) as (Hinv & _ & _). destruct (finish_spec _ _ Hinv) as (_ & Hs & _). set (a := finish (run es o)) in *.
  unfold settled in Hs. unfold closeTempFile, finalize, snapshot. cbn [set_store spill rawChunks]. destruct (stream (spill a)) eqn:Es; cbn [andb snd].
  - destruct Hs as (Hp & Hf & Hfile). destruct flush_fails; cbn; [by split; [|left]|]. by rewrite Hp, Hf.
  - destruct Hs as [Hp Hs]. cbn. rewrite Hp. done.
Qed.

(** ** Snapshots *)

Lemma byteLength_unlines_suffix ls ks : byteLength (unlines ks) <= byteLength (unlines (ls ++ ks)).
Proof.
  destruct ls as [|l ls]; [done|]. destruct ks as [|k ks]; [apply byteLength_nonneg|]. rewrite byteLength_unlines_app by done.
  pose proof (byteLength_nonneg (unlines (l :: ls))). lia.
Qed.

(** The loop over [rlines] and then [more] is the loop over [rlines], unless it reads all of [rlines]. *)
Lemma truncateTail_loop_app rlines more maxLines maxBytes out :
  let run ls := truncateTail_loop ls maxLines maxBytes in let bytes ls := byteLength (unlines ls) in let all := reverse rlines ++ out in
  run (rlines ++ more) out (bytes out) = run rlines out (bytes out) /\
    (Z.of_nat (length all) <= maxLines -> bytes all <= maxBytes -> (run rlines out (bytes out)).1.1.1 = all /\ (run rlines out (bytes out)).2 = false) \/
  run rlines out (bytes out) = (all, bytes all, ByLines, false) /\ run (rlines ++ more) out (bytes out) = run more all (bytes all) /\
    (rlines = [] \/ bytes all <= maxBytes).
Proof.
  cbv zeta. revert out. induction rlines as [|l rlines IH]; intros out; [right; split_and!; [done..|by left]|].
  rewrite reverse_cons, <- (assoc_L app). cbn [app truncateTail_loop].
  destruct (_ <? maxLines) eqn:E; to_prop; [|left; split; [done|]; rewrite length_app; simpl; lia]. rewrite separator_flag.
  replace (byteLength (unlines out) + _) with (byteLength (unlines (l :: out))) by (rewrite byteLength_unlines_cons; lia).
  destruct (maxBytes <? _) eqn:E2; to_prop.
  - left. split; [done|]. pose proof (byteLength_unlines_suffix (reverse rlines) (l :: out)). lia.
  - destruct (IH (l :: out)) as [?|(H1 & H2 & H3)]; [by left|right]. split_and!; [done..|]. right. destruct H3 as [->|?]; done.
Qed.

(** What [truncateTail] reports is what its loop collects, also for a text that fits. *)
Lemma truncateTail_report text o :
  let r := truncateTail text o in let lines := lines_of text in
  let '(res, _, _, partial) := truncateTail_loop (reverse lines) (maxLines_of o) (maxBytes_of o) [] 0 in
  content r = unlines res /\ outputLines r = Z.of_nat (length res) /\ outputBytes r = byteLength (unlines res) /\ lastLinePartial r = partial /\
  truncated r = (maxLines_of o <? Z.of_nat (length lines)) || (maxBytes_of o <? byteLength text) /\
  totalLines r = Z.of_nat (length lines) /\ totalBytes r = byteLength text.
Proof.
  unfold truncateTail. fold (maxLines_of o) (maxBytes_of o). cbv zeta. set (lines := lines_of text).
  pose proof (truncateTail_loop_app (reverse lines) [] (maxLines_of o) (maxBytes_of o) []) as H. cbv zeta in H. rewrite reverse_involutive, !app_nil_r in H.
  change (byteLength (unlines [])) with 0 in H. assert (Ht : unlines lines = text) by apply unlines_lines. rewrite Ht in H.
  destruct (truncateTail_loop (reverse lines) _ _ [] 0) as [[[res count] by_] partial] eqn:Er. cbn [fst snd] in H.
  destruct (_ && _) eqn:E; to_prop; cbn.
  - assert (res = lines /\ partial = false) as [-> ->] by (destruct H as [[_ H]|[[= -> _ _ ->] _]]; [by apply H|done]).
    rewrite Ht. split_and!; [done..| |done|done]. symmetry. by rewrite orb_false_iff, !Z.ltb_ge.
  - split_and!; [done..| |done|done]. apply andb_false_iff in E. symmetry. rewrite orb_true_iff, !Z.ltb_lt. destruct E; to_prop; lia.
Qed.

Section cut.
Context (o : TruncationOptions).
Notation mL := (maxLines_of o).
Notation mB := (maxBytes_of o).
Notation tail_loop ls := (truncateTail_loop (reverse ls) mL mB [] 0).

(** What the loop finds at the end of a text, when only whole lines are cut off, or a part of a line too long to fit. *)
Lemma tail_loop_lines ls ks : mB < byteLength (unlines ks) -> ks <> [] -> tail_loop (ls ++ ks) = tail_loop ks.
Proof.
  intros HB Hne. rewrite reverse_app. pose proof (truncateTail_loop_app (reverse ks) (reverse ls) mL mB []) as H. cbv zeta in H.
  rewrite reverse_involutive, app_nil_r in H. change (byteLength (unlines [])) with 0 in H.
  destruct H as [[H _]|(_ & _ & [H|H])]; [done| |lia]. destruct Hne. by apply (f_equal reverse) in H; rewrite reverse_involutive in H.
Qed.

Lemma tail_loop_part ls x y ys : mB < byteLength (unlines (y :: ys)) -> byteLength y <= byteLength (x ++ y) -> all_blank ys = false ->
  (tail_loop (ls ++ (x ++ y) :: ys)).1.1.1 = (tail_loop ys).1.1.1 /\ (tail_loop (ls ++ (x ++ y) :: ys)).2 = (tail_loop ys).2.
Proof.
  intros HB Hx Hys. change (ls ++ (x ++ y) :: ys) with (ls ++ [x ++ y] ++ ys). rewrite (assoc_L app), reverse_app, (reverse_snoc ls).
  pose proof (truncateTail_loop_app (reverse ys) ((x ++ y) :: reverse ls) mL mB []) as H. cbv zeta in H. rewrite reverse_involutive, app_nil_r in H.
  change (byteLength (unlines [])) with 0 in H. destruct H as [[-> _]|(Hr & -> & _)]; [done|]. rewrite Hr. cbn [truncateTail_loop].
  destruct (_ <? mL); [|done]. rewrite separator_flag. rewrite byteLength_unlines_cons in HB.
  destruct (mB <? _) eqn:E; to_prop; [|lia]. fold (all_blank ys). by rewrite Hys.
Qed.

Lemma truncate_end (x y : list N) : Forall is_scalar (x ++ y) -> mB < byteLength (utf16_encode y) -> 0 <= mB ->
  truncateStringToBytesFromEnd (utf16_encode (x ++ y)) mB = truncateStringToBytesFromEnd (utf16_encode y) mB.
Proof.
  intros Hs HB H0. pose proof Hs as [_ Hy]%Forall_app. rewrite byteLength_utf16 in HB by done. unfold truncateStringToBytesFromEnd.
  rewrite !buffer_utf16, encode_app, length_app by done. destruct (_ <=? mB) eqn:E1; to_prop; [lia|]. destruct (_ <=? mB) eqn:E2; to_prop; [lia|].
  rewrite drop_app_ge by lia. do 3 f_equal. lia.
Qed.

Lemma tail_loop_end ls (x y : list N) : Forall is_scalar (x ++ y) -> mB < byteLength (utf16_encode y) -> 0 <= mB ->
  tail_loop (ls ++ [utf16_encode (x ++ y)]) = tail_loop [utf16_encode y].
Proof.
  intros Hs HB H0. rewrite reverse_app. cbn [reverse rev_append app truncateTail_loop length]. destruct (_ <? mL); [|done].
  assert (byteLength (utf16_encode y) <= byteLength (utf16_encode (x ++ y))).
  { pose proof Hs as [_ Hy]%Forall_app. rewrite !byteLength_utf16, encode_app, length_app by done. lia. }
  change (if 0 <? Z.of_nat 0 then 1 else 0) with 0. destruct (mB <? _) eqn:E1; to_prop; [|lia]. destruct (mB <? _) eqn:E2; to_prop; [|lia].
  cbn [forallb]. replace (mB - Z.min _ _) with mB by lia. by rewrite truncate_end.
Qed.
End cut.

(** The tail as a snapshot cuts it: whole, or without its first line, which may be a part of one. *)
Definition shows_a_line (a : OutputAccumulator) : Prop :=
  tailStartsAtLineBoundary a = true \/ length (lines_of (tailText a)) = 1%nat \/ all_blank (tail (lines_of (tailText a))) = false.

Lemma split_on_end c (l : list N) : split_on c (l ++ [c]) = split_on c l ++ [[]].
Proof.
  destruct (split_on c l) as [|l0 ls0] eqn:E; [by apply split_on_nonempty in E|]. destruct (exists_last (l := l0 :: ls0) ltac:(done)) as (ls & x & Hl).
  rewrite Hl in *. assert (Hc : split_on c [c] = [[]; []]) by (simpl; by rewrite N.eqb_refl).
  rewrite (split_on_join c l [c] ls x [] [[]]) by done. by rewrite app_nil_r, <- (assoc_L app).
Qed.

Lemma snapshot_loop a E o : holds_text a E -> maxLines a = maxLines_of o -> maxBytes a = maxBytes_of o -> 4 <= maxBytes_of o -> shows_a_line a ->
  let run ls := truncateTail_loop (reverse ls) (maxLines_of o) (maxBytes_of o) [] 0 in
  let seen := run (lines_of (getSnapshotText a)) in let all := run (lines_of (utf16_encode E)) in seen.1.1.1 = all.1.1.1 /\ seen.2 = all.2.
Proof.
  intros ([HE _ _ _] & (k & [Hk Ht Hb Hs]) & _) HL HB H4 Hshow. cbv zeta. unfold getSnapshotText, shows_a_line in *.
  destruct Hs as [[-> Hbd]|(Hk0 & Hmin & Hbd)]; [rewrite Hbd, Ht; done|]. unfold maxRollingBytes in Hmin. rewrite HB, Hb, Ht in Hmin.
  rewrite Ht in *. pose proof HE as HE0. rewrite <- (take_drop k E) in HE0. apply Forall_app in HE0 as [Hpre Htail].
  destruct (lines_grow (take k E) (drop k E) Hpre Htail) as (xs & x & y & ys & Hl1 & Hl2 & Hl & Hx & Hy & Hys). rewrite take_drop in Hl.
  assert (Hlines : lines_of (utf16_encode (drop k E)) = utf16_encode <$> y :: ys) by (by rewrite lines_utf16, Hl2).
  assert (HB' : maxBytes_of o < byteLength (unlines (utf16_encode <$> y :: ys))) by (rewrite <- Hlines, unlines_lines; lia).
  rewrite (lines_utf16 E HE), Hl, fmap_app, fmap_cons. destruct (tailStartsAtLineBoundary a) eqn:Ebd.
  - symmetry in Hbd. apply bool_decide_eq_true in Hbd. assert (x = []) as ->.
    { rewrite <- (Nat.succ_pred_pos k Hk0), (take_S_r _ _ LF Hbd), split_on_end in Hl1. by apply app_inj_tail in Hl1 as [_ <-]. }
    rewrite Hlines, app_nil_l, <- fmap_cons, tail_loop_lines by done. done.
  - rewrite Hlines in Hshow |- *. pose proof (lines_of_no_LF (utf16_encode (drop k E))) as Hno. rewrite Hlines, fmap_cons in Hno.
    apply list.Forall_cons in Hno as [_ Hno]. destruct ys as [|z ys].
    + cbn [fmap list_fmap] in *. cbn in HB'. rewrite Hlines. by rewrite tail_loop_end; [|by apply Forall_app|..|lia].
    + destruct Hshow as [?|[?|Hshow]]; [done..|]. cbn [fmap list_fmap tail] in *. rewrite lines_unlines by done.
      rewrite utf16_encode_app. destruct (tail_loop_part o (utf16_encode <$> xs) (utf16_encode x) (utf16_encode y) _ HB') as [-> ->]; [|done|done].
      rewrite <- utf16_encode_app, !byteLength_utf16, encode_app, length_app by (try apply Forall_app; done). lia.
Qed.

(** At any time, finished or not, a snapshot shows what truncating the whole text decoded so far would show, and the
    same counts, though only a bounded tail of it is kept: when there is room for a character, and the tail starts at
    a line, is within a line, or has something after its first, cut, line. *)
Theorem snapshot_is_tail (es : list event) (o : TruncationOptions) (fin : bool)
    (Hroom : 4 <= maxBytes_of o) (Hshow : shows_a_line (accumulated es o fin)) :
  let r := (snapshot (accumulated es o fin)).1 in let whole := truncateTail (utf16_encode (text_of es fin)) o in
  content r = content whole /\ truncated r = truncated whole /\ totalLines r = totalLines whole /\ totalBytes r = totalBytes whole /\
  outputLines r = outputLines whole /\ outputBytes r = outputBytes whole /\ lastLinePartial r = lastLinePartial whole.
Proof.
  destruct (accumulated_holds es o fin) as (Ht & _ & _ & HL & HB). set (a := accumulated es o fin) in *. set (E := text_of es fin) in *. cbv zeta.
  pose proof (snapshot_loop a E o Ht HL HB Hroom Hshow) as [H1 H2]. pose proof (truncateTail_report (getSnapshotText a) o) as Hs.
  pose proof (truncateTail_report (utf16_encode E) o) as Hw. cbv zeta in *. unfold snapshot. rewrite HL, HB. cbn [fst].
  change (truncateTail _ (opts _ _)) with (truncateTail (getSnapshotText a) o). destruct Ht as ([_ Hd Hl _] & _). rewrite Hd, Hl.
  destruct (truncateTail_loop (reverse (lines_of (getSnapshotText a))) _ _ _ _) as [[[res c] b] p].
  destruct (truncateTail_loop (reverse (lines_of (utf16_encode E))) _ _ _ _) as [[[res' c'] b'] p']. cbn [fst snd] in H1, H2. subst res' p'.
  cbn. destruct Hs as (-> & -> & -> & -> & _). destruct Hw as (-> & -> & -> & -> & -> & -> & ->). done.
Qed.

Lemma snapshot_is_tail_witness :
  let es := [Chunk (unlines [js "aaaa"; js "bbbb"; js "cccc"; js "dd"]); Chunk (unlines [js "dd"; js "ee"])] in let o := opts 5 4 in
  (4 <= maxBytes_of o /\ shows_a_line (accumulated es o true)) /\
  content (snapshot (accumulated es o true)).1 = content (truncateTail (utf16_encode (text_of es true)) o).
Proof.
  cbv zeta. set (es := [_; _]). set (o := opts 5 4).
  assert (H : 4 <= maxBytes_of o /\ shows_a_line (accumulated es o true)) by (split; [done|right; right; vm_compute; reflexivity]).
  split; [exact H|]. destruct H as [H1 H2]. by destruct (snapshot_is_tail es o true H1 H2) as [Hc _].
Defined.

(** The tail of the witness is cut within a line, and the snapshot shows the last line. *)
Example snapshot_cut :
  let a := accumulated [Chunk (unlines [js "aaaa"; js "bbbb"; js "cccc"; js "dd"]); Chunk (unlines [js "dd"; js "ee"])] (opts 5 4) true in
  tailStartsAtLineBoundary a = false /\ content (snapshot a).1 = js "ee".
Proof. vm_compute. done. Qed.

(** A line too long for the tail, then the end of the line: the rest after the cut line is empty, and so is the snapshot,
    though truncating the whole text would show the end of the line. *)
Example snapshot_loses_long_line :
  let es := [Chunk (repeat 120%N 20 ++ [LF])] in let o := opts 5 4 in
  content (snapshot (accumulated es o true)).1 = [] /\ content (truncateTail (utf16_encode (text_of es true)) o) = js "xxx" ++ [LF].
Proof. vm_compute. done. Qed.
