(* ===== verification/GoalSession.v ===== *)
(** * The goal of a session (core/agent-session.ts)

    A session keeps the state of its goal, counts the tokens and the time the goal takes, writes every state to the
    session log, and queues the messages that keep the model working on it. What else the session is (its queues,
    listeners, tools and children) is outside, behind [GoalHost]: whatever it does, what is proved here holds.

    [goal_run_sound] says that in every run without moves that summarise a branch the state is well formed and within
    its budget, and is what the session log would restore; [tokens_counted_once] that each response is counted once and that the budget stops the goal;
    [continuation_counted] when the goal is continued. *)

(* Source aliases:
   AS = src/packages/coding-agent/src/core/agent-session.ts *)

From stdpp Require Import gmap.
From S2P Require Import Prelude JsString JsNumber JsMap Messages SummaryText SessionEntries SessionTree SessionFacts Goals.
Local Open Scope Z_scope.

(** ** Commands *)

(** AS 1014-1019 GoalSlashCommand. *)
Inductive GoalSlashCommand := GStatus | GClear | GPause | GResume | GStart (objective : jsstr) (tokenBudget : option Z).

(** AS 1169-1178 parseGoalBudgetValue. *)
Definition parseGoalBudgetValue (value : jsstr) : Z + jsstr :=
  let matches := match value with u :: ds => (49 <=? u)%N && (u <=? 57)%N && forallb is_digit ds | [] => false end in
  if negb matches then inr budget_error
  else match validateGoalBudget (Some (Number value)) with
       | inl (Some b) => inl b
       | inl None => inr budget_error
       | inr e => inr e
       end.

Definition is_token (u : N) : bool := negb (is_space u).
(** AS 2541-2566 _parseGoalSlashCommand. The flag of the budget: the text of its value, and the objective. *)
Definition budget_flag (rest : jsstr) : option ((jsstr * jsstr) + jsstr) :=
  let '(firstToken, after) := span is_token rest in
  if jseqb firstToken (js "--budget") || jseqb firstToken (js "--token-budget") then
    let withoutFlag := trim_start after in
    match span is_token withoutFlag with
    | (_, []) => Some (inr (js "Usage: /goal [--budget <tokens>] <objective>"))
    | (valueText, _ :: objective) => Some (inl (valueText, trim objective))
    end
  else if starts_with (js "--budget=") firstToken || starts_with (js "--token-budget=") firstToken then
    Some (inl (drop 1 (span (fun u => negb (u =? 61)%N) firstToken).2, trim after))
  else None.

(** AS 2526-2571 _parseGoalSlashCommand. From the arguments of the command; [inr] is the error it throws. *)
Definition parseGoalArgs (rest : jsstr) : GoalSlashCommand + jsstr :=
  let normalized := lower1 <$> rest in
  if bool_decide (rest = []) || jseqb normalized (js "status") then inl GStatus
  else if jseqb normalized (js "clear") || jseqb normalized (js "stop") then inl GClear
  else if jseqb normalized (js "pause") then inl GPause
  else if jseqb normalized (js "resume") then inl GResume
  else
    let start objective tokenBudget := match validateGoalObjective objective with
                                       | inl o => inl (GStart o tokenBudget)
                                       | inr e => inr e
                                       end in
    match budget_flag rest with
    | None => start rest None
    | Some (inr e) => inr e
    | Some (inl (valueText, objective)) =>
        match parseGoalBudgetValue valueText with inl b => start objective (Some b) | inr e => inr e end
    end.

(** ** The session around the goal *)

(** Where a message is queued: at the front before any other input, behind what is queued, or to be read at the next
    boundary of the running turn. *)
Inductive placement := Pinned | Behind | Threshold | Steer.

(** The rest of the session. [admitInput] gives the message of the error when it throws. *)
Record GoalHost (X : Type) := {
  includeGoals : bool;
  hasIpython : X -> bool;
  activateIpython : bool -> X -> X;
  notify : GoalState -> X -> X;
  dropGoalContexts : X -> X;
  pushNextTurn : CustomMessage -> X -> X;
  admitInput : placement -> CustomMessage -> X -> option jsstr * X;
  validateCanStartAgentRun : X -> option jsstr * X;
  isStreaming : X -> bool;
  hasUnsettledRlmWork : X -> bool;
  closing : X -> bool;
  admissionPaused : X -> bool;
  queuedActionCount : X -> Z;
  arrivalEpoch : X -> Z;
  thresholdQueued : X -> bool;
  withdrawThreshold : X -> bool * X }.
#[global] Arguments includeGoals {X}. #[global] Arguments hasIpython {X}. #[global] Arguments activateIpython {X}.
#[global] Arguments notify {X}. #[global] Arguments dropGoalContexts {X}. #[global] Arguments pushNextTurn {X}. #[global] Arguments admitInput {X}.
#[global] Arguments validateCanStartAgentRun {X}. #[global] Arguments isStreaming {X}. #[global] Arguments hasUnsettledRlmWork {X}.
#[global] Arguments closing {X}. #[global] Arguments admissionPaused {X}. #[global] Arguments queuedActionCount {X}.
#[global] Arguments arrivalEpoch {X}. #[global] Arguments thresholdQueued {X}. #[global] Arguments withdrawThreshold {X}.

(** AS 1471-1475 _goalState. With the session log, the readings taken so far of the clock and of random identifiers,
    and the rest of the session. Responses are known by a number, since the source compares objects. *)
Record goals (X : Type) := {
  goalState : GoalState; accountingStartedAt : option Z; awaitsRlmWork : bool; accountedMessages : list nat; abortInProgress : bool;
  log : session; readings : nat; outside : X }.
#[global] Arguments goalState {X}. #[global] Arguments accountingStartedAt {X}. #[global] Arguments awaitsRlmWork {X}.
#[global] Arguments accountedMessages {X}. #[global] Arguments abortInProgress {X}. #[global] Arguments log {X}.
#[global] Arguments readings {X}. #[global] Arguments outside {X}.

(** What an operation throws: an error of its own, or one of the session log. *)
Inductive goal_error := Refused (message : jsstr) | LogFailed (e : error).

(** AS 2195-2208 _loadPersistedGoalState. The last state on a branch. *)
Definition persisted_goal (e : SessionEntry) : option GoalState :=
  match kind e with
  | KCustom ty (Some v) => if jseqb ty GOAL_STATE_CUSTOM_TYPE then goal_of_json v else None
  | _ => None
  end.
Definition last_goal (branch : list SessionEntry) : GoalState :=
  match head (omap persisted_goal (reverse branch)) with Some g => normalizeGoalState g | None => emptyGoalState end.
Definition loadPersistedGoalState (s : session) : option GoalState := last_goal <$> getBranch s None.

(** AS 2219-2236 _isBranchSeedable. *)
Definition isBranchSeedable (branch : list SessionEntry) : bool :=
  forallb (fun e => match kind e with KModel _ _ | KThinkingLevel _ | KServiceTier _ => true | _ => false end) branch.

Section session.
Context {X : Type} (host : GoalHost X) (tape : nat -> env).

(** A computation changes the goals of a session, also when it throws. *)
Definition gop (A : Type) : Type := goals X -> (A + goal_error) * goals X.
#[export] Instance gop_ret : MRet gop := fun A a s => (inl a, s).
#[export] Instance gop_bind : MBind gop := fun A B f m s =>
  match m s with (inl a, s') => f a s' | (inr e, s') => (inr e, s') end.
Definition refuse {A} (message : jsstr) : gop A := fun s => (inr (Refused message), s).
Definition get_goals : gop (goals X) := fun s => (inl s, s).
Definition change (f : goals X -> goals X) : gop unit := fun s => (inl tt, f s).
Definition try_catch {A} (m : gop A) (h : goal_error -> gop A) : gop A := fun s =>
  match m s with (inl a, s') => (inl a, s') | (inr e, s') => h e s' end.
Definition accept {A} (r : A + jsstr) : gop A := match r with inl a => mret a | inr e => refuse e end.

Definition set_goal (g : GoalState) (started : option Z) (s : goals X) : goals X :=
  {| goalState := g; accountingStartedAt := started; awaitsRlmWork := awaitsRlmWork s; accountedMessages := accountedMessages s;
     abortInProgress := abortInProgress s; log := log s; readings := readings s; outside := outside s |}.
Definition set_flags (awaits abort : bool) (s : goals X) : goals X :=
  {| goalState := goalState s; accountingStartedAt := accountingStartedAt s; awaitsRlmWork := awaits; accountedMessages := accountedMessages s;
     abortInProgress := abort; log := log s; readings := readings s; outside := outside s |}.
Definition set_accounted (ids : list nat) (s : goals X) : goals X :=
  {| goalState := goalState s; accountingStartedAt := accountingStartedAt s; awaitsRlmWork := awaitsRlmWork s; accountedMessages := ids;
     abortInProgress := abortInProgress s; log := log s; readings := readings s; outside := outside s |}.
Definition set_world (l : session) (n : nat) (x : X) (s : goals X) : goals X :=
  {| goalState := goalState s; accountingStartedAt := accountingStartedAt s; awaitsRlmWork := awaitsRlmWork s; accountedMessages := accountedMessages s;
     abortInProgress := abortInProgress s; log := l; readings := n; outside := x |}.

(** [Date.now()] and the identifiers of the next entry. *)
Definition reading : gop env := fun s => (inl (tape (readings s)), set_world (log s) (S (readings s)) (outside s) s).
Definition tick : gop Z := en ← reading; mret (now en).
(** An operation of the session log. *)
Definition on_log {A} (m : op A) : gop A := fun s =>
  let '(r, l) := m (log s) in
  (match r with inl a => inl a | inr e => inr (LogFailed e) end, set_world l (readings s) (outside s) s).
Definition logging {A} (m : env -> op A) : gop A := en ← reading; on_log (m en).
(** What the rest of the session does. *)
Definition outdoors (f : X -> X) : gop unit := change (fun s => set_world (log s) (readings s) (f (outside s)) s).
Definition outdoors_try {A} (f : X -> A * X) : gop A := fun s =>
  let '(a, x) := f (outside s) in (inl a, set_world (log s) (readings s) x s).
Definition outdoors_may_throw (f : X -> option jsstr * X) : gop unit :=
  r ← outdoors_try f; match r with None => mret tt | Some e => refuse e end.

(** ** The state and its clock *)

(** The seconds since the time of the goal was last counted; zero when it is not being counted. *)
Definition elapsed_seconds (now : Z) (s : goals X) : Z :=
  match accountingStartedAt s with
  | Some t => if bool_decide (status (goalState s) = Active) && negb (t =? 0) then Z.max 0 ((now - t) / 1000) else 0
  | None => 0
  end.
(** AS 2297-2309 _goalWithCurrentWallClock. *)
Definition goalWithCurrentWallClock (now : Z) (s : goals X) : GoalState :=
  let g := goalState s in with_counts (tokensUsed g) (timeUsedSeconds g + elapsed_seconds now s) (continuationsUsed g) g.

(** AS 2311-2318 _goalWithAccountedWallClock. *)
Definition goalWithAccountedWallClock : gop GoalState :=
  now ← tick;
  s ← get_goals;
  let goal := goalWithCurrentWallClock now s in
  (if 0 <? elapsed_seconds now s then change (set_goal (goalState s) (Some now)) else mret tt) ;;
  mret goal.

(** AS 2154-2156 _emitGoalUpdate. The listeners get the state with the running time; what they throw is dropped. *)
Definition emitGoalUpdate : gop unit :=
  now ← tick;
  s ← get_goals;
  outdoors (notify host (goalWithCurrentWallClock now s)).

(** AS 2272-2278 _persistGoalState. *)
Definition persistGoalState (g : GoalState) : gop unit :=
  logging (fun en => appendCustomEntry en GOAL_STATE_CUSTOM_TYPE (Some (goal_json g))) ;;
  logging (fun _ => flushNow).

(** AS 2280-2295 _setGoalState. No caller asks for a state that is not written. *)
Definition setGoalState (next : GoalState) : gop unit :=
  updated ← tick;
  let normalized := normalizeGoalState (with_updatedAt updated next) in
  s ← get_goals;
  started ← (if bool_decide (status normalized = Active)
             then match accountingStartedAt s with Some t => mret (Some t) | None => t ← tick; mret (Some t) end
             else mret None);
  change (set_goal normalized started) ;;
  persistGoalState normalized ;;
  emitGoalUpdate.

(** AS 2394-2408 _clearQueuedGoalContexts. *)
Definition clearQueuedGoalContexts : gop unit :=
  change (fun s => set_flags false (abortInProgress s) s) ;;
  outdoors (dropGoalContexts host).

(** ** From state to state *)

(** AS 2410-2430 _startGoal. *)
Definition startGoal (objectiveText : jsstr) (budget : option num) : gop GoalState :=
  objective ← accept (validateGoalObjective objectiveText);
  budget ← accept (validateGoalBudget budget);
  en ← reading;
  let goal := {| active := true; status := Active; goalId := Some (uuid en 0); objective := Some objective; tokenBudget := budget; tokensUsed := 0;
                 timeUsedSeconds := 0; continuationsUsed := 0; createdAt := Some (now en); updatedAt := Some (now en);
                 lastReason := None; lastError := None |} in
  change (fun s => set_goal (goalState s) (Some (now en)) (set_flags false (abortInProgress s) s)) ;;
  setGoalState goal ;;
  s ← get_goals; mret (goalState s).

(** AS 2432-2435 _clearGoal. *)
Definition clearGoal : gop unit := clearQueuedGoalContexts ;; setGoalState emptyGoalState.

(** AS 2437-2451 _pauseGoal. *)
Definition pauseGoal (reason : jsstr) : gop unit :=
  clearQueuedGoalContexts ;;
  s ← get_goals;
  if negb (bool_decide (status (goalState s) = Active)) then emitGoalUpdate
  else
    goal ← goalWithAccountedWallClock;
    setGoalState (with_status false Paused (Some reason) None goal).

(** AS 2697-2717 _ensureGoalRuntimeActive. *)
Definition ensureGoalRuntimeActive (context : bool) : gop unit :=
  s ← get_goals;
  if negb (includeGoals host) then refuse (js "Goals are disabled. Enable goals before using /goal.")
  else if negb (hasIpython host (outside s)) then refuse (js "Goals require the ipython tool, which is not available in this session.")
  else outdoors (activateIpython host context).

(** [createGoalContextMessage] at the time it is called. *)
Definition goalContextMessage (k : GoalContextKind) (images : list ImageContent) : gop CustomMessage :=
  now ← tick;
  s ← get_goals;
  accept (createGoalContextMessage now (goalState s) k images).

(** AS 3002-3014 _runOrQueueGoalContext. *)
Definition runOrQueueGoalContext (k : GoalContextKind) (images : list ImageContent) : gop unit :=
  s ← get_goals;
  if negb (has_objective (goalState s)) then mret tt
  else
    ensureGoalRuntimeActive false ;;
    message ← goalContextMessage k images;
    outdoors_may_throw (admitInput host Pinned message).

Definition exhausted (g : GoalState) : bool := match tokenBudget g with Some b => b <=? tokensUsed g | None => false end.

(** AS 2453-2475 _resumeGoal. *)
Definition resumeGoal : gop unit :=
  s ← get_goals;
  let g := goalState s in
  if negb (has_objective g) then emitGoalUpdate
  else if negb (bool_decide (status g = Paused)) && negb (bool_decide (status g = BudgetLimited)) then emitGoalUpdate
  else
    let nextStatus := if exhausted g then BudgetLimited else Active in
    setGoalState (with_status (negb (exhausted g)) nextStatus
      (if exhausted g then Some (js "Goal token budget already reached") else None) None g) ;;
    if exhausted g then mret tt else runOrQueueGoalContext Continuation [].

(** AS 2477-2489 _finishGoalWithError. *)
Definition finishGoalWithError (errorMessage : jsstr) : gop unit :=
  s ← get_goals;
  if negb (has_objective (goalState s)) || negb (bool_decide (status (goalState s) = Active)) then mret tt
  else
    goal ← goalWithAccountedWallClock;
    setGoalState (with_status false Failed (Some errorMessage) (Some errorMessage) goal).

(** AS 2491-2508 _finishGoalForTerminalAssistantMessage. *)
Definition finishGoalForTerminalAssistantMessage (m : AssistantMessage) : gop unit :=
  s ← get_goals;
  if negb (bool_decide (status (goalState s) = Active)) then mret tt
  else match stopReason m with
       | Aborted => change (fun s => set_flags (awaitsRlmWork s) false s)
       | Error =>
           if abortInProgress s then change (fun s => set_flags (awaitsRlmWork s) false s)
           else finishGoalWithError (match errorMessage m with Some (u :: t) => u :: t | _ => js "Assistant response failed" end)
       | _ => mret tt
       end.

(** AS 2510-2520 _stopGoalContinuationForTerminalMessage. *)
Definition stopGoalContinuationForTerminalMessage (m : AssistantMessage) : gop bool :=
  match stopReason m with
  | Error | Aborted => try_catch (finishGoalForTerminalAssistantMessage m) (fun _ => mret tt) ;; mret true
  | _ => mret false
  end.

(** ** Accounting *)

(** AS 3053-3091 _accountGoalUsageForAssistantMessage. The response [i] is [m]; the result tells whether it reached the budget. *)
Definition accountGoalUsageForAssistantMessage (i : nat) (m : AssistantMessage) : gop bool :=
  s ← get_goals;
  if negb (has_objective (goalState s)) || bool_decide (stopReason m = Error) || bool_decide (stopReason m = Aborted) ||
     bool_decide (i ∈ accountedMessages s) || negb (bool_decide (status (goalState s) = Active)) then mret false
  else
    change (fun s => set_accounted (i :: accountedMessages s) s) ;;
    goal ← goalWithAccountedWallClock;
    let nextGoal := with_counts (tokensUsed goal + goalTokenDeltaForUsage (usage m)) (timeUsedSeconds goal) (continuationsUsed goal) goal in
    if negb (exhausted nextGoal) then setGoalState nextGoal ;; mret false
    else
      setGoalState (with_status false BudgetLimited
        (Some (js "Reached " ++ show_Z (default 0 (tokenBudget nextGoal)) ++ js " token goal budget")) None nextGoal) ;;
      mret true.

Definition steerBudgetLimit : gop unit :=
  message ← goalContextMessage BudgetLimit [];
  outdoors_may_throw (admitInput host Steer message).
(** AS 4584-4592 _handleAgentEvent. At the end of a response, and (AS 3115-3122) after its turn. *)
Definition accountAndSteer (i : nat) (m : AssistantMessage) : gop unit :=
  reached ← accountGoalUsageForAssistantMessage i m;
  if (reached : bool) then steerBudgetLimit else mret tt.

(** AS 3110-3125 _shouldStopAfterTurn. The part about the goal; [true] stops the run. *)
Definition goalAfterTurn (i : nat) (m : AssistantMessage) : gop bool :=
  stop ← stopGoalContinuationForTerminalMessage m;
  if (stop : bool) then mret true else try_catch (accountAndSteer i m) (fun _ => mret tt) ;; mret false.

(** ** Continuations *)

Definition one_more (g : GoalState) : GoalState :=
  with_status (active g) (status g) None None (with_counts (tokensUsed g) (timeUsedSeconds g) (continuationsUsed g + 1) g).
(** AS 2789-2791 _goalOwnsContinuationWakeup. *)
Definition pursued (g : GoalState) : bool := bool_decide (status g = Active) && has_objective g.

(** The text of an error that is not one of these operations. *)
Context (error_text : error -> jsstr).
Definition text_of_error (e : goal_error) : jsstr := match e with Refused m => m | LogFailed e => error_text e end.

(** AS 4224-4232 _getGoalContinuationMessages. *)
Definition continueGoal : gop (list CustomMessage) :=
  ensureGoalRuntimeActive true ;;
  s ← get_goals;
  setGoalState (one_more (goalState s)) ;;
  message ← goalContextMessage Continuation [];
  mret [message].

(** AS 4206-4241 _getGoalContinuationMessages. *)
Definition getGoalContinuationMessages (m : AssistantMessage) (aborted : bool) : gop (list CustomMessage) :=
  stop ← stopGoalContinuationForTerminalMessage m;
  s ← get_goals;
  if (stop : bool) || aborted || negb (pursued (goalState s)) then mret []
  else if hasUnsettledRlmWork host (outside s) then change (fun s => set_flags true (abortInProgress s) s) ;; mret []
  else
    change (fun s => set_flags false (abortInProgress s) s) ;;
    try_catch continueGoal (fun e => try_catch (finishGoalWithError (text_of_error e)) (fun _ => mret tt) ;; mret []).

(** AS 4244-4262 _getContinuationMessages. The part about the goal; [None] when the other continuations are asked. *)
Definition getContinuationMessages (m : AssistantMessage) (aborted : bool) : gop (option (list CustomMessage)) :=
  before ← get_goals;
  if 0 <? queuedActionCount host (outside before) then mret (Some [])
  else
    goalMessages ← getGoalContinuationMessages m aborted;
    s ← get_goals;
    match goalMessages with
    | [] => mret (if aborted then Some [] else None)
    | _ =>
        if arrivalEpoch host (outside s) =? arrivalEpoch host (outside before) then mret (Some goalMessages)
        else
          setGoalState (goalState before) ;;
          change (fun s => set_goal (goalState s) (accountingStartedAt before) s) ;;
          mret (Some [])
    end.

(** AS 2730-2747 _maybeResumeGoalContinuationAfterRlmWork. *)
Definition resumeContinuation : gop unit :=
  ensureGoalRuntimeActive false ;;
  s ← get_goals;
  setGoalState (one_more (goalState s)) ;;
  message ← goalContextMessage Continuation [];
  outdoors_may_throw (admitInput host Behind message) ;;
  change (fun s => set_flags false (abortInProgress s) s).

(** AS 2719-2753 _maybeResumeGoalContinuationAfterRlmWork. *)
Definition maybeResumeGoalContinuationAfterRlmWork : gop unit :=
  s ← get_goals;
  if negb (awaitsRlmWork s) then mret tt
  else if closing host (outside s) || hasUnsettledRlmWork host (outside s) then mret tt
  else if negb (pursued (goalState s)) then change (fun s => set_flags false (abortInProgress s) s)
  else if admissionPaused host (outside s) then mret tt
  else try_catch resumeContinuation (fun _ => setGoalState (goalState s)).

(** AS 3769-3785 _queueGoalContinuationForThresholdCompaction. *)
Definition queueContinuation : gop bool :=
  ensureGoalRuntimeActive false ;;
  s ← get_goals;
  setGoalState (one_more (goalState s)) ;;
  message ← goalContextMessage Continuation [];
  outdoors_may_throw (admitInput host Threshold message) ;;
  mret true.

(** AS 3746-3789 _queueGoalContinuationForThresholdCompaction. Whether a continuation that was queued is still
    undelivered is known to the rest of the session. *)
Definition queueGoalContinuationForThresholdCompaction (m : AssistantMessage) : gop bool :=
  s ← get_goals;
  if bool_decide (stopReason m = Error) || bool_decide (stopReason m = Aborted) || negb (pursued (goalState s)) then mret false
  else if thresholdQueued host (outside s) then mret true
  else try_catch queueContinuation (fun _ => mret false).

(** AS 3793-3807 _clearQueuedGoalContinuationAfterCancelledThresholdCompaction. Of a continuation that was queued. *)
Definition clearQueuedGoalContinuation : gop unit :=
  cancelled ← outdoors_try (withdrawThreshold host);
  if negb cancelled then mret tt
  else
    s ← get_goals;
    let g := goalState s in
    setGoalState (with_counts (tokensUsed g) (timeUsedSeconds g) (continuationsUsed g - 1) g).

(** AS 2981-3000 _refreshGoalContextMessageAtDelivery. The kind and the goal of a message are those of its details. *)
Definition refreshGoalContextMessageAtDelivery (c : CustomMessage) : gop CustomMessage :=
  s ← get_goals;
  let g := goalState s in
  let detail k := json_string (c_details c ≫= fun d => property d k) in
  if negb (jseqb (customType c) GOAL_CONTEXT_CUSTOM_TYPE) || negb (bool_decide (detail (js "kind") = Some (kind_text Continuation))) ||
     bool_decide (detail (js "goalId") = None) || negb (pursued g) || negb (bool_decide (goalId g = detail (js "goalId"))) then mret c
  else
    let images := match c_content c with CParts ps => omap (fun p => match p with PImage i => Some i | PText _ => None end) ps | CString _ => [] end in
    fresh ← goalContextMessage Continuation images;
    mret {| customType := customType c; c_content := c_content fresh; display := display c; c_details := c_details fresh; c_timestamp := c_timestamp fresh |}.

(** ** Requests *)

(** AS 4167-4185 _createGoalFromHost. *)
Definition createGoalFromHost (objectiveText : jsstr) (budget : option num) : gop GoalState :=
  s ← get_goals;
  match status (goalState s) with
  | Active => refuse (js "cannot create a new goal because this thread already has an active goal; run `await goal.complete()` when it is achieved, or ask the user to clear it with /goal clear")
  | Paused => refuse (js "cannot create a new goal because a paused goal exists; ask the user to resume it with /goal resume or clear it with /goal clear")
  | BudgetLimited => refuse (js "cannot create a new goal because a budget-limited goal exists; ask the user to resume it with /goal resume or clear it with /goal clear")
  | _ => startGoal objectiveText budget
  end.

(** AS 4187-4204 _completeGoalFromHost. *)
Definition completeGoalFromHost : gop GoalState :=
  s ← get_goals;
  if negb (has_objective (goalState s)) || bool_decide (status (goalState s) = Idle) then refuse (js "cannot complete goal because this thread has no goal")
  else
    goal ← goalWithAccountedWallClock;
    clearQueuedGoalContexts ;;
    setGoalState (with_status false Complete (Some (js "Goal achieved")) None goal) ;;
    s ← get_goals; mret (goalState s).

(** AS 3870-3890 handleGoalHostRequest. A budget that is not a number is refused. *)
Definition handleGoalHostRequest (type : jsstr) (payload : json) : gop GoalHostResponse :=
  if negb (includeGoals host) then refuse (js "goals are disabled in this session")
  else if jseqb type (js "goal.get") then
    now ← tick; s ← get_goals; mret (goalHostResponse (goalWithCurrentWallClock now s) false)
  else if jseqb type (js "goal.create") then
    match property payload (js "objective"), property payload (js "token_budget") with
    | Some (JStr o), None => g ← createGoalFromHost o None; mret (goalHostResponse g false)
    | Some (JStr o), Some (JNum t) => g ← createGoalFromHost o (Some (Number t)); mret (goalHostResponse g false)
    | Some (JStr _), Some _ => refuse (js "goal.create token_budget must be an integer when provided")
    | _, _ => refuse (js "goal.create objective must be a string")
    end
  else if jseqb type (js "goal.complete") then g ← completeGoalFromHost; mret (goalHostResponse g true)
  else refuse (js "unknown goal request type " ++ [34%N] ++ type ++ [34%N]).

(** AS 3042-3050 _handleGoalSlashCommand. *)
Definition startFromCommand (objective : jsstr) (budget : option Z) (images : list ImageContent) : gop unit :=
  s ← get_goals;
  let previousWasActive := bool_decide (status (goalState s) = Active) in
  (if isStreaming host (outside s) then mret tt else outdoors_may_throw (validateCanStartAgentRun host)) ;;
  ensureGoalRuntimeActive false ;;
  clearQueuedGoalContexts ;;
  startGoal objective (num_Z <$> budget) ;;
  runOrQueueGoalContext (if previousWasActive then ObjectiveUpdated else Continuation) images.

(** AS 3016-3051 _handleGoalSlashCommand. For the arguments of the command. *)
Definition handleGoalSlashCommand (rest : jsstr) (images : list ImageContent) : gop unit :=
  command ← accept (parseGoalArgs rest);
  match command with
  | GStatus => emitGoalUpdate
  | GClear => clearGoal
  | GPause => pauseGoal (js "Paused by user")
  | GResume => resumeGoal
  | GStart objective budget => startFromCommand objective budget images
  end.

(** ** The branch and the life of the session *)

(** AS 2238-2259 _reloadGoalStateFromBranch. *)
Definition reloadGoalStateFromBranch (monotonicTokens : bool) : gop unit :=
  s ← get_goals;
  let previous := goalState s in
  let reloaded := default emptyGoalState (loadPersistedGoalState (log s)) in
  let next := if monotonicTokens && bool_decide (goalId reloaded <> None) && bool_decide (goalId reloaded = goalId previous)
              then with_counts (Z.max (tokensUsed previous) (tokensUsed reloaded)) (Z.max (timeUsedSeconds previous) (timeUsedSeconds reloaded))
                     (Z.max (continuationsUsed previous) (continuationsUsed reloaded)) previous
              else reloaded in
  started ← (if bool_decide (status next = Active) then t ← tick; mret (Some t) else mret None);
  change (set_goal next started) ;;
  emitGoalUpdate.

(** AS 1733-1738 constructor. [initial] is the goal of the command line, for a session that is no child. *)
Definition seedGoal (initial : option (jsstr * option num)) : gop unit :=
  s ← get_goals;
  match initial with
  | Some (objectiveText, budget) =>
      if isBranchSeedable (default [] (getBranch (log s) None)) then
        startGoal objectiveText budget ;;
        message ← goalContextMessage Continuation [];
        outdoors (pushNextTurn host message)
      else mret tt
  | None => mret tt
  end.
(** AS 1740-1742 constructor. *)
Definition startAccounting : gop unit :=
  s ← get_goals;
  if bool_decide (status (goalState s) = Active) then t ← tick; change (fun s => set_goal (goalState s) (Some t) s) else mret tt.
(** AS 1727-1742 constructor. The goal of a new session object. *)
Definition load_goal (initial : option (jsstr * option num)) : gop unit :=
  change (fun s => set_goal (default emptyGoalState (loadPersistedGoalState (log s))) (accountingStartedAt s) s) ;;
  seedGoal initial ;;
  startAccounting.

(** AS 8099-8099 abort. The abort begins. *)
Definition beginAbort : gop unit := change (fun s => set_flags (awaitsRlmWork s) (bool_decide (status (goalState s) = Active)) s).
(** AS 8107-8109 abort. The abort is over. *)
Definition endAbort : gop unit := change (fun s => set_flags (awaitsRlmWork s) false s).

(** ** Runs *)

(** What happens to the goal of a session: a response ends, its turn ends, the loop asks for continuations, children
    settle, a compaction needs a continuation or is cancelled, a message is delivered, the kernel or the user asks,
    the run ends, is aborted; the user moves to another entry of the session, without or with a summary of the branch
    that is left; other entries are written to the log (labels and usage attributions apart, which hold no goals), its
    file is deleted, and the rest of the session changes. *)
Inductive event :=
| EResponse (i : nat) (m : AssistantMessage) | ETurn (i : nat) (m : AssistantMessage) | EContinue (m : AssistantMessage) (aborted : bool)
| ESettled | EThreshold (m : AssistantMessage) | ECancelled | EDeliver (c : CustomMessage) | EHost (type : jsstr) (payload : json)
| ECommand (rest : jsstr) (images : list ImageContent) | EEnd (m : AssistantMessage) | EAbort | EAborted
| EMove (target : option jsstr)
| ESummary (target : option jsstr) (summary : jsstr) (details : option json) (fromExtension : bool) (u : option Usage)
| EEntry (k : Kind) | EFlush | EDelete | EOutside (f : X -> X).

(** Entries of other parts of the session. *)
Definition foreign (k : Kind) : bool :=
  plain k && match k with KCustom ty _ => negb (jseqb ty GOAL_STATE_CUSTOM_TYPE) | _ => true end.

(** AS 13753-13772 navigateTree. The end of a move, without a summary of the branch that is left. *)
Definition moveTo (target : option jsstr) : gop unit :=
  on_log (match target with Some t => branch t | None => resetLeaf end) ;;
  reloadGoalStateFromBranch false.

(** AS 13739-13772 navigateTree. The end of a move with a summary: the counters of the goal may not regress. *)
Definition summaryMove (target : option jsstr) (summary : jsstr) (details : option json) (fromExtension : bool) (u : option Usage) : gop unit :=
  logging (fun en => branchWithSummary en target summary details fromExtension u) ;;
  reloadGoalStateFromBranch true.
Definition summarises (e : event) : bool := match e with ESummary _ _ _ _ _ => true | _ => false end.

(** What the operations above do at each event. *)
Definition happens (e : event) : gop unit :=
  match e with
  | EResponse i m => accountAndSteer i m
  | ETurn i m => goalAfterTurn i m ;; mret tt
  | EContinue m aborted => getContinuationMessages m aborted ;; mret tt
  | ESettled => maybeResumeGoalContinuationAfterRlmWork
  | EThreshold m => queueGoalContinuationForThresholdCompaction m ;; mret tt
  | ECancelled => clearQueuedGoalContinuation
  | EDeliver c => refreshGoalContextMessageAtDelivery c ;; mret tt
  | EHost type payload => handleGoalHostRequest type payload ;; mret tt
  | ECommand rest images => handleGoalSlashCommand rest images
  | EEnd m => finishGoalForTerminalAssistantMessage m
  | EAbort => beginAbort
  | EAborted => endAbort
  | EMove target => moveTo target
  | ESummary target summary details fromExtension u => summaryMove target summary details fromExtension u
  | EEntry k => if foreign k then logging (fun en => append en k) ;; mret tt else mret tt
  | EFlush => on_log flushNow
  | EDelete => change (fun s => set_world (set_disk None (io (log s)) (log s)) (readings s) (outside s) s)
  | EOutside f => outdoors f
  end.

(** A session object on a log, and what happened to it; an operation that throws changes what it changed. *)
Definition start (l : session) (x : X) : goals X :=
  {| goalState := emptyGoalState; accountingStartedAt := None; awaitsRlmWork := false; accountedMessages := []; abortInProgress := false;
     log := l; readings := 0; outside := x |}.
Definition goal_run (l : session) (x : X) (initial : option (jsstr * option num)) (es : list event) : goals X :=
  foldl (fun s e => (happens e s).2) (load_goal initial (start l x)).2 es.

(** ** What every state satisfies *)

Record fit (g : GoalState) : Prop := {
  fit_objective : status g <> Idle -> has_objective g = true;
  fit_budget : forall b, tokenBudget g = Some b -> 0 < b;
  fit_active : status g = Active -> exhausted g = false;
  fit_limited : status g = BudgetLimited -> exhausted g = true;
  fit_tokens : 0 <= tokensUsed g
}.
Definition sound (g : GoalState) : Prop := fit g /\ normalizeGoalState g = g.

Lemma fit_sound t g : fit g -> sound (normalizeGoalState (with_updatedAt t g)).
Proof.
  intros [H1 H2 H3 H4 H5]. split; [|apply goal_state_saved].
  split; cbn; [done..| | |lia]; unfold exhausted in *; cbn; intros H; [specialize (H3 H)|specialize (H4 H)]; destruct (tokenBudget g); try done; by rewrite Z.max_r.
Qed.
Lemma empty_fit : fit emptyGoalState.
Proof. by split. Qed.
Lemma empty_goal_sound : sound emptyGoalState.
Proof. split; [apply empty_fit|done]. Qed.

(** The identifiers of the tape are new, each time. *)
Record unique_tape (l : session) : Prop := {
  ut_some : forall n i, take 8 (uuid (tape n) i) <> [];
  ut_once : forall n m i j, n <> m -> take 8 (uuid (tape n) i) <> take 8 (uuid (tape m) j);
  ut_new : forall n i, take 8 (uuid (tape n) i) ∉ ids l
}.
Context (l0 : session) (Htape : unique_tape l0).

Record ready (s : goals X) : Prop := {
  rd_wf : wf (log s);
  rd_ids : forall n i, (readings s <= n)%nat -> take 8 (uuid (tape n) i) ∉ ids (log s);
  rd_entries : forall e g, e ∈ getEntries (log s) -> persisted_goal e = Some g -> sound (normalizeGoalState g)
}.
Record inv (s : goals X) : Prop := {
  inv_ready : ready s;
  inv_sound : sound (goalState s);
  inv_saved : loadPersistedGoalState (log s) = Some (goalState s)
}.

(** [m] keeps the invariant, also when it throws; if it returns, [Q] holds. *)
Definition wp {A} (m : gop A) (Q : A -> goals X -> Prop) (s : goals X) : Prop :=
  inv (m s).2 /\ match (m s).1 with inl a => Q a (m s).2 | inr _ => True end.

Lemma goal_ret {A} (a : A) Q s : inv s -> Q a s -> wp (mret a) Q s.
Proof. done. Qed.
Lemma wp_refuse {A} msg (Q : A -> goals X -> Prop) s : inv s -> wp (refuse msg) Q s.
Proof. done. Qed.
Lemma wp_get Q s : inv s -> Q s s -> wp get_goals Q s.
Proof. done. Qed.
Lemma goal_bind {A B} (m : gop A) (f : A -> gop B) Q s : wp m (fun a s => wp (f a) Q s) s -> wp (m ≫= f) Q s.
Proof. unfold wp, mbind, gop_bind. destruct (m s) as [[a|e] s']; cbn; [by intros [_ H]|by intros [H _]]. Qed.
Lemma goal_mono {A} (m : gop A) (Q Q' : A -> goals X -> Prop) s : wp m Q s -> (forall a s, inv s -> Q a s -> Q' a s) -> wp m Q' s.
Proof. intros [H1 H2] H. split; [done|]. destruct (m s) as [[a|e] s']; cbn in *; [by apply H|done]. Qed.
Lemma goal_catch {A} (m : gop A) h Q s : wp m Q s -> (forall e s, inv s -> wp (h e) Q s) -> wp (try_catch m h) Q s.
Proof. unfold wp, try_catch. destruct (m s) as [[a|e] s']; cbn; [done|]. intros [H _] Hh. by apply Hh. Qed.
Lemma wp_change f (Q : unit -> goals X -> Prop) s : inv (f s) -> Q tt (f s) -> wp (change f) Q s.
Proof. done. Qed.

Lemma ready_same s s' : log s' = log s -> (readings s <= readings s')%nat -> ready s -> ready s'.
Proof. intros Hl Hr [H1 H2 H3]. split; rewrite Hl; [done| |done]. intros n i Hn. apply H2. lia. Qed.
Lemma inv_same s s' : log s' = log s -> goalState s' = goalState s -> (readings s <= readings s')%nat -> inv s -> inv s'.
Proof. intros Hl Hg Hr [H1 H2 H3]. split; rewrite ?Hl, ?Hg; [by apply (ready_same s)|done..]. Qed.

Lemma wp_reading (Q : env -> goals X -> Prop) s : inv s -> Q (tape (readings s)) (set_world (log s) (S (readings s)) (outside s) s) -> wp reading Q s.
Proof. intros Hi HQ. split; [|exact HQ]. apply (inv_same s); [done..| |done]. simpl. lia. Qed.
Lemma wp_tick Q s : inv s -> (forall t, Q t (set_world (log s) (S (readings s)) (outside s) s)) -> wp tick Q s.
Proof. intros Hi HQ. apply goal_bind, wp_reading; [done|]. split; [|apply HQ]. apply (inv_same s); [done..| |done]. simpl. lia. Qed.
Lemma wp_accept {A} (r : A + jsstr) Q s : inv s -> (forall a, r = inl a -> Q a s) -> wp (accept r) Q s.
Proof. destruct r; [intros; apply goal_ret; auto|intros; by apply wp_refuse]. Qed.
Lemma wp_outdoors f Q s : inv s -> (forall s', goalState s' = goalState s -> inv s' -> Q tt s') -> wp (outdoors f) Q s.
Proof. intros Hi HQ. assert (inv (outdoors f s).2) by by apply (inv_same s). split; [done|]. by apply HQ. Qed.
Lemma wp_outdoors_try {A} (f : X -> A * X) Q s : inv s -> (forall a s', goalState s' = goalState s -> inv s' -> Q a s') -> wp (outdoors_try f) Q s.
Proof. intros Hi HQ. unfold wp, outdoors_try. destruct (f (outside s)) as [a x]. cbn. assert (inv (set_world (log s) (readings s) x s)) by by apply (inv_same s). split; [done|]. by apply HQ. Qed.
Lemma wp_may_throw f Q s : inv s -> (forall s', goalState s' = goalState s -> inv s' -> Q tt s') -> wp (outdoors_may_throw f) Q s.
Proof. intros Hi HQ. apply goal_bind, wp_outdoors_try; [done|]. intros [e|] s' Hg Hi'; [by apply wp_refuse|]. apply goal_ret; [done|by apply HQ]. Qed.

(** ** Writing a state *)

Lemma generateId_candidate en s : fresh en s -> exists i, generateId en (has (byId s)) = take 8 (uuid en i).
Proof.
  intros [_ (j & Hj & Ht)]. unfold generateId. assert (H : forall fuel i, (i <= j < i + fuel)%nat -> exists k, generateId_loop en (has (byId s)) i fuel = take 8 (uuid en k)).
  { clear Hj. induction fuel as [|fuel IH]; intros i Hij; [lia|]. cbn [generateId_loop]. destruct (has _ (take 8 (uuid en i))) eqn:E; [|by exists i].
    apply IH. assert (j <> i) by (intros ->; congruence). lia. }
  apply (H 100%nat 0%nat). lia.
Qed.

Lemma ready_fresh s : ready s -> fresh (tape (readings s)) (log s).
Proof.
  intros [Hw Hi _]. split; [apply Htape|]. exists 0%nat. split; [lia|]. destruct (has _ _) eqn:E; [|done].
  apply wf_has in E; [|done]. by destruct (Hi (readings s) 0%nat).
Qed.

(** An entry that is written, whether or not the file takes it. *)
Lemma ready_append k s : ready s -> (forall g, persisted_goal (new_entry (tape (readings s)) k (log s)) = Some g -> sound (normalizeGoalState g)) ->
  let r := logging (fun en => append en k) s in
  ready r.2 /\ goalState r.2 = goalState s /\ readings r.2 = S (readings s) /\
  (forall l, getBranch (log s) None = Some l -> getBranch (log r.2) None = Some (l ++ [new_entry (tape (readings s)) k (log s)])).
Proof.
  intros Hr Hk. cbv zeta. pose proof (ready_fresh s Hr) as Hf. pose proof Hr as [Hw Hi He]. set (en := tape (readings s)) in *.
  assert (Hlog : log (logging (fun en => append en k) s).2 = (append en k (log s)).2 /\
    goalState (logging (fun en => append en k) s).2 = goalState s /\ readings (logging (fun en => append en k) s).2 = S (readings s)).
  { unfold logging, mbind, gop_bind, reading, on_log, set_world. cbn. fold en. by destruct (append en k (log s)). }
  destruct Hlog as (Hlog & -> & Hrd). rewrite Hlog, Hrd.
  assert (Hent : getEntries (append en k (log s)).2 = getEntries (log s) ++ [new_entry en k (log s)]).
  { pose proof (append_log en k (log s)) as Hl. unfold log_part in Hl. injection Hl as Hfe _. unfold getEntries. rewrite Hfe. apply getEntries_snoc. }
  split_and!; [|done..|].
  - split; rewrite Hlog, ?Hrd.
    + by apply append_wf.
    + intros n i Hn Hin. unfold ids in Hin. rewrite Hent, fmap_app in Hin. apply elem_of_app in Hin as [Hin|Hin]; [by apply (Hi n i ltac:(lia))|].
      apply list_elem_of_singleton in Hin. change (take 8 (uuid (tape n) i) = generateId en (has (byId (log s)))) in Hin. destruct (generateId_candidate en (log s) Hf) as [j Hj]. rewrite Hj in Hin.
      by apply (ut_once _ Htape) in Hin; [|lia].
    + intros e g Hin Hg. rewrite Hent in Hin. apply elem_of_app in Hin as [Hin| ->%list_elem_of_singleton]; [by apply (He e)|by apply Hk].
  - intros l Hl. by rewrite append_branch, Hl by done.
Qed.

Lemma log_part_ready s l n x : log_part l = log_part (log s) -> (readings s <= n)%nat -> ready s -> ready (set_world l n x s).
Proof.
  intros Hl Hn [Hw Hi He]. assert (Hg : getEntries l = getEntries (log s)) by (unfold log_part in Hl; injection Hl as Hfe _; unfold getEntries; by rewrite Hfe).
  split; cbn [log set_world readings].
  - by apply (log_part_wf (log s)).
  - intros m i Hm. unfold ids. rewrite Hg. apply Hi. lia.
  - intros e g. rewrite Hg. apply He.
Qed.
Lemma log_part_inv s l n x : log_part l = log_part (log s) -> (readings s <= n)%nat -> inv s -> inv (set_world l n x s).
Proof.
  intros Hl Hn [H1 H2 H3]. split; [by apply log_part_ready|done|]. cbn. unfold loadPersistedGoalState in *. by rewrite (log_part_branch _ (log s) None Hl).
Qed.

Lemma wp_on_log {A} (m : op A) Q s : keeps_log m -> inv s -> (forall a s', goalState s' = goalState s -> inv s' -> Q a s') -> wp (on_log m) Q s.
Proof.
  intros Hm Hi HQ. unfold wp, on_log. specialize (Hm (log s)). destruct (m (log s)) as [r l]. cbn in *.
  assert (inv (set_world l (readings s) (outside s) s)) by by apply log_part_inv. split; [done|]. destruct r; [by apply HQ|done].
Qed.

Lemma goal_emit Q s : inv s -> (forall s', goalState s' = goalState s -> inv s' -> Q tt s') -> wp emitGoalUpdate Q s.
Proof.
  intros Hi HQ. apply goal_bind, wp_tick; [done|]. intros t. set (s1 := set_world _ _ _ s). assert (inv s1) by (apply (inv_same s); simpl; auto).
  apply goal_bind, wp_get; [done|]. apply wp_outdoors; [done|]. intros s' Hg. by apply HQ.
Qed.

(** Setting a state that fits keeps the invariant; the state set is the one asked for, with the time. *)
Lemma wp_setGoalState next Q s : ready s -> fit next ->
  (forall t s', goalState s' = normalizeGoalState (with_updatedAt t next) -> inv s' -> Q tt s') -> wp (setGoalState next) Q s.
Proof.
  intros Hr Hfit HQ. unfold setGoalState. set (n := readings s).
  assert (Hbind : forall (B : Type) (f : Z -> gop B) Q, (wp (f (now (tape n))) Q (set_world (log s) (S n) (outside s) s)) -> wp (tick ≫= f) Q s).
  { intros B f Q' H. exact H. }
  apply Hbind. clear Hbind. set (g := normalizeGoalState (with_updatedAt (now (tape n)) next)).
  pose proof (fit_sound (now (tape n)) next Hfit) as Hg. fold g in Hg.
  (* the state in memory is set, the log is not yet written *)
  assert (Hset : forall started n', (n < n')%nat -> wp (persistGoalState g ;; emitGoalUpdate) Q (set_goal g started (set_world (log s) n' (outside s) s))).
  { intros started n' Hn'. set (s1 := set_goal _ _ _). assert (Hr1 : ready s1) by (apply (ready_same s); [done|simpl; lia|done]).
    unfold persistGoalState. set (k := KCustom GOAL_STATE_CUSTOM_TYPE (Some (goal_json g))).
    destruct (ready_append k s1 Hr1) as (Hr2 & Hg2 & _ & Hb2).
    { intros g' Hp. change (goal_of_json (goal_json g) = Some g') in Hp. destruct (goal_state_saved g) as [Hs _]. rewrite Hp in Hs. apply (inj Some) in Hs. rewrite Hs. by rewrite (proj2 Hg). }
    set (r := logging _ s1) in *. assert (Hinv : inv r.2).
    { split; [done|by rewrite Hg2|]. destruct (getBranch_spec (log s1) None (rd_wf _ Hr1)) as (l & Hl & _).
      unfold loadPersistedGoalState. rewrite (Hb2 l Hl). cbn [fmap option_fmap option_map]. unfold last_goal. rewrite reverse_snoc. cbn [omap list_omap].
      destruct (goal_state_saved g) as [Hs _]. change (persisted_goal _) with (goal_of_json (goal_json g)). destruct (goal_of_json _) as [g'|]; [|done].
      apply (inj Some) in Hs. cbn [head]. rewrite Hs, (proj2 Hg), Hg2. done. }
    apply goal_bind, goal_bind. change (wp (logging (fun en => append en k)) (fun _ s => wp (logging (fun _ => flushNow)) (fun _ s => wp emitGoalUpdate Q s) s) s1).
    split; [done|]. fold r. destruct r as [[a|e] s2]; [|done]. cbn [fst snd] in *. apply goal_bind, wp_reading; [done|]. set (s3 := set_world _ _ _ s2).
    assert (inv s3) by (apply (inv_same s2); simpl; auto). apply wp_on_log; [apply keeps_flushNow|done|]. intros _ s4 Hg4 Hi4.
    apply goal_emit; [done|]. intros s5 Hg5 Hi5. apply (HQ (now (tape n))); [|done]. rewrite Hg5, Hg4. exact Hg2. }
  change (wp (started ← (if bool_decide (status g = Active) then match accountingStartedAt s with Some t => mret (Some t) | None => t ← tick; mret (Some t) end else mret None);
    change (set_goal g started) ;; persistGoalState g ;; emitGoalUpdate) Q (set_world (log s) (S n) (outside s) s)).
  destruct (bool_decide _); [destruct (accountingStartedAt s) as [t|]|].
  - apply (Hset (Some t) (S n)). lia.
  - apply (Hset (Some (now (tape (S n)))) (S (S n))). lia.
  - apply (Hset None (S n)). lia.
Qed.

(** ** Every operation keeps the invariant *)

Lemma wp_tick_same Q s : inv s -> (forall t s', goalState s' = goalState s -> inv s' -> Q t s') -> wp tick Q s.
Proof. intros Hi HQ. apply wp_tick; [done|]. intros t. apply HQ; [done|]. apply (inv_same s); simpl; auto. Qed.
Lemma wp_change_same (f : goals X -> goals X) Q s : goalState (f s) = goalState s -> log (f s) = log s -> readings (f s) = readings s ->
  inv s -> (forall s', goalState s' = goalState s -> inv s' -> Q tt s') -> wp (change f) Q s.
Proof. intros Hg Hl Hr Hi HQ. assert (inv (f s)) by (apply (inv_same s); [done..|lia|done]). apply wp_change; [done|]. by apply HQ. Qed.
Lemma wp_set Q next s : inv s -> fit next -> (forall s', inv s' -> Q tt s') -> wp (setGoalState next) Q s.
Proof. intros Hi Hf HQ. apply wp_setGoalState; [apply Hi|done|]. intros t s' _. apply HQ. Qed.
Lemma wp_true {A} (m : gop A) s : wp m (fun _ _ => True) s -> inv (m s).2.
Proof. by intros [H _]. Qed.

(** The state with the time that has passed. *)
Definition timed (g g' : GoalState) : Prop := exists e, g' = with_counts (tokensUsed g) (timeUsedSeconds g + e) (continuationsUsed g) g.
Lemma wp_accounted (Q : GoalState -> goals X -> Prop) s : inv s -> (forall g s', goalState s' = goalState s -> inv s' -> timed (goalState s') g -> Q g s') -> wp goalWithAccountedWallClock Q s.
Proof.
  intros Hi HQ. apply goal_bind, wp_tick_same; [done|]. intros t s1 Hg1 Hi1. apply goal_bind, wp_get; [done|].
  assert (Ht : timed (goalState s1) (goalWithCurrentWallClock t s1)) by (eexists; reflexivity). apply goal_bind. destruct (0 <? _).
  - apply wp_change_same; [done..|]. intros s2 Hg2 Hi2. apply goal_ret; [done|]. apply HQ; [congruence|done|]. by rewrite Hg2.
  - apply goal_ret; [done|]. apply goal_ret; [done|]. by apply HQ.
Qed.

(** States made of a state that fits. *)
Lemma timed_fit g g' : fit g -> timed g g' -> fit g'.
Proof. intros [] [e ->]. by split. Qed.
Lemma stopped_fit g st reason err : fit g -> has_objective g = true -> st <> Active -> st <> BudgetLimited -> fit (with_status false st reason err g).
Proof. intros [] Ho H1 H2. split; cbn; [done|done|by intros ->|by intros ->|done]. Qed.
Lemma continued_fit g t c : fit g -> fit (with_status (active g) (status g) None None (with_counts (tokensUsed g) t c g)).
Proof. intros []. by split. Qed.
Lemma counted_fit g t c : fit g -> fit (with_counts (tokensUsed g) t c g).
Proof. intros []. by split. Qed.
Lemma timed_objective g g' : timed g g' -> has_objective g' = has_objective g.
Proof. by intros [e ->]. Qed.
Lemma inv_fit s : inv s -> fit (goalState s).
Proof. by intros [_ [H _] _]. Qed.

Lemma validated_objective t o : validateGoalObjective t = inl o -> truthy (Some o) = true.
Proof. unfold validateGoalObjective. destruct (trim t) as [|u l]; [done|]. destruct (_ <? _); [done|]. by intros [= <-]. Qed.
Lemma validated_budget v b : validateGoalBudget v = inl (Some b) -> 0 < b.
Proof.
  unfold validateGoalBudget. destruct v as [[q| |]|]; try done. destruct (is_integer _) eqn:Ei; [|done]. destruct (Qle_bool q 0) eqn:E; [done|]. intros [= <-].
  unfold is_integer in Ei. apply Z.eqb_eq in Ei. assert (Hq : ~ (q <= 0)%Q) by (intros H; apply Qle_bool_iff in H; congruence).
  apply Qnot_le_lt in Hq. pose proof (Qred_correct q) as Hr. rewrite <- Hr in Hq |- *. destruct (Qred q) as [n d]. cbn in Ei. assert (d = 1%positive) as -> by congruence.
  unfold Qlt in Hq. cbn in *. rewrite Z.div_1_r. lia.
Qed.

Ltac wp_step := lazymatch goal with
  | |- wp (_ ≫= _) _ _ => apply goal_bind
  | |- wp (mret _) _ _ => apply goal_ret; [assumption|]
  | |- wp (refuse _) _ _ => apply wp_refuse; assumption
  | |- wp get_goals _ _ => apply wp_get; [assumption|]
  | |- wp tick _ _ => apply wp_tick_same; [assumption|]; intros ? ? ? ?
  | |- wp (change _) _ _ => apply wp_change_same; [reflexivity..|assumption|]; intros ? ? ?
  | |- wp (accept _) _ _ => apply wp_accept; [assumption|]; intros ? ?
  | |- wp (outdoors _) _ _ => apply wp_outdoors; [assumption|]; intros ? ? ?
  | |- wp (outdoors_try _) _ _ => apply wp_outdoors_try; [assumption|]; intros ? ? ? ?
  | |- wp (outdoors_may_throw _) _ _ => apply wp_may_throw; [assumption|]; intros ? ? ?
  | |- wp emitGoalUpdate _ _ => apply goal_emit; [assumption|]; intros ? ? ?
  | |- wp goalWithAccountedWallClock _ _ => apply wp_accounted; [assumption|]; intros ? ? ? ? ?
  | |- wp (let _ := _ in _) _ _ => cbv zeta
  | |- wp (if ?b then _ else _) _ _ => destruct b eqn:?
  | |- True => exact I
  end.
Ltac wp_steps := repeat wp_step.

Definition keeps {A} (m : gop A) : Prop := forall s, inv s -> wp m (fun _ _ => True) s.
Lemma keeps_wp {A} (m : gop A) (Q : A -> goals X -> Prop) s : keeps m -> inv s -> (forall a s', inv s' -> Q a s') -> wp m Q s.
Proof. intros Hm Hi HQ. apply (goal_mono m (fun _ _ => True)); [by apply Hm|]. auto. Qed.

Lemma wp_clear Q s : inv s -> (forall s', goalState s' = goalState s -> inv s' -> Q tt s') -> wp clearQueuedGoalContexts Q s.
Proof. intros Hi HQ. unfold clearQueuedGoalContexts. wp_steps. apply HQ; [congruence|done]. Qed.
Lemma wp_context k images Q s : inv s -> (forall m s', goalState s' = goalState s -> inv s' -> Q m s') -> wp (goalContextMessage k images) Q s.
Proof. intros Hi HQ. unfold goalContextMessage. wp_steps. by apply HQ. Qed.
Lemma wp_ensure b Q s : inv s -> (forall s', goalState s' = goalState s -> inv s' -> Q tt s') -> wp (ensureGoalRuntimeActive b) Q s.
Proof. intros Hi HQ. unfold ensureGoalRuntimeActive. wp_steps. by apply HQ. Qed.

Lemma start_keeps o b : keeps (startGoal o b).
Proof.
  intros s Hi. unfold startGoal. wp_steps. apply wp_reading; [done|].
  assert (Hr : inv (set_world (log s) (S (readings s)) (outside s) s)) by (apply (inv_same s); simpl; auto).
  wp_steps. apply wp_set; [done| |intros; by wp_steps]. split; cbn; try done.
  - intros _. by eapply validated_objective.
  - intros z ->. by eapply validated_budget.
  - intros _. destruct a0 as [z|]; [|done]. apply Z.leb_gt. by eapply validated_budget.
Qed.

Lemma clear_keeps : keeps clearGoal.
Proof. intros s Hi. unfold clearGoal. wp_steps. apply wp_clear; [done|]. intros. apply wp_set; [done|apply empty_fit|done]. Qed.

(** Stopping an active goal. *)
Lemma wp_stop st reason err s : inv s -> has_objective (goalState s) = true -> st <> Active -> st <> BudgetLimited ->
  wp (goal ← goalWithAccountedWallClock; setGoalState (with_status false st reason err goal)) (fun _ _ => True) s.
Proof.
  intros Hi Ho H1 H2. wp_steps. apply wp_set; [done| |done]. apply stopped_fit; [|by erewrite timed_objective by done; congruence|done..].
  eapply timed_fit; [by apply inv_fit|done].
Qed.

Lemma active_objective s : inv s -> status (goalState s) = Active -> has_objective (goalState s) = true.
Proof. intros Hi Ha. apply fit_objective; [by apply inv_fit|]. congruence. Qed.

Lemma pause_keeps reason : keeps (pauseGoal reason).
Proof.
  intros s Hi. unfold pauseGoal. apply goal_bind, wp_clear; [done|]. intros s1 _ Hi1. wp_step. wp_step. destruct (bool_decide _) eqn:E; [|by wp_steps].
  apply bool_decide_eq_true in E. cbn [negb]. apply wp_stop; [done|by apply active_objective|done..].
Qed.

Lemma context_keeps k images : keeps (runOrQueueGoalContext k images).
Proof. intros s Hi. unfold runOrQueueGoalContext. wp_steps. apply wp_ensure; [done|]. intros. wp_steps. apply wp_context; [done|]. intros. by wp_steps. Qed.

Lemma resume_keeps : keeps resumeGoal.
Proof.
  intros s Hi. unfold resumeGoal. wp_step. wp_step. cbv zeta. wp_step; [by wp_steps|]. wp_step; [by wp_steps|]. wp_step.
  destruct (inv_fit s Hi) as [F1 F2 F3 F4 F5]. apply wp_set; [done| |].
  - split; [by intros _; to_prop|done|..|done]; change (exhausted (with_status _ _ _ _ ?g)) with (exhausted g); cbn [status with_status]; by destruct (exhausted (goalState s)).
  - intros s' Hi'. wp_step; [by wp_steps|]. by apply context_keeps.
Qed.

Lemma error_keeps msg : keeps (finishGoalWithError msg).
Proof.
  intros s Hi. unfold finishGoalWithError. wp_step. wp_step. destruct (_ || _) eqn:E; [by wp_steps|]. to_prop. by apply wp_stop.
Qed.

Lemma finish_keeps m : keeps (finishGoalForTerminalAssistantMessage m).
Proof.
  intros s Hi. unfold finishGoalForTerminalAssistantMessage. wp_step. wp_step. wp_step; [by wp_steps|].
  destruct (stopReason m); wp_steps. by apply error_keeps.
Qed.

Lemma stop_keeps m : keeps (stopGoalContinuationForTerminalMessage m).
Proof.
  intros s Hi. unfold stopGoalContinuationForTerminalMessage. destruct (stopReason m); wp_steps.
  all: apply goal_catch; [apply keeps_wp; [apply finish_keeps|done|intros; by wp_steps]|intros; by wp_steps].
Qed.

Lemma account_keeps i m : keeps (accountGoalUsageForAssistantMessage i m).
Proof.
  intros s Hi. unfold accountGoalUsageForAssistantMessage. wp_step. wp_step. destruct (_ || _) eqn:E; [by wp_steps|]. to_prop.
  apply goal_bind, wp_change_same; [done..|]. intros s1 Hg1 Hi1. apply goal_bind, wp_accounted; [done|]. intros g s2 Hg2 Hi2 Ht. cbv zeta.
  pose proof (timed_fit _ _ (inv_fit s2 Hi2) Ht) as [F1 F2 F3 F4 F5]. assert (Ha : status g = Active) by (destruct Ht as [e ->]; cbn; congruence).
  assert (Hd : 0 <= goalTokenDeltaForUsage (usage m)) by (unfold goalTokenDeltaForUsage; lia).
  set (next := with_counts _ _ _ g). destruct (exhausted next) eqn:Ex; cbn [negb].
  - wp_steps. apply wp_set; [done| |intros; by wp_steps]. split; cbn; [intros _; apply F1; congruence|done..|lia].
  - wp_steps. apply wp_set; [done| |intros; by wp_steps]. split; cbn; [done|done|done|congruence|lia].
Qed.

Lemma continue_keeps : keeps continueGoal.
Proof. intros s Hi. unfold continueGoal. apply goal_bind, wp_ensure; [done|]. intros. wp_steps. apply wp_set; [done|by apply continued_fit, inv_fit|]. intros. wp_steps. apply wp_context; [done|]. intros. by wp_steps. Qed.
Lemma queue_keeps : keeps queueContinuation.
Proof. intros s Hi. unfold queueContinuation. apply goal_bind, wp_ensure; [done|]. intros. wp_steps. apply wp_set; [done|by apply continued_fit, inv_fit|]. intros. wp_steps. apply wp_context; [done|]. intros. by wp_steps. Qed.
Lemma resumption_keeps : keeps resumeContinuation.
Proof. intros s Hi. unfold resumeContinuation. apply goal_bind, wp_ensure; [done|]. intros. wp_steps. apply wp_set; [done|by apply continued_fit, inv_fit|]. intros. wp_steps. apply wp_context; [done|]. intros. by wp_steps. Qed.

Lemma keeps_caught {A} (m : gop A) h : keeps m -> (forall e, keeps (h e)) -> keeps (try_catch m h).
Proof. intros Hm Hh s Hi. apply goal_catch; [by apply Hm|]. intros e s' Hi'. by apply Hh. Qed.

Lemma settled_keeps : keeps maybeResumeGoalContinuationAfterRlmWork.
Proof.
  intros s Hi. unfold maybeResumeGoalContinuationAfterRlmWork. wp_steps. apply goal_catch; [by apply resumption_keeps|].
  intros e s' Hi'. apply wp_set; [done|by apply inv_fit|done].
Qed.

Lemma goal_messages_keeps m aborted : keeps (getGoalContinuationMessages m aborted).
Proof.
  intros s Hi. unfold getGoalContinuationMessages. apply goal_bind, keeps_wp; [apply stop_keeps|done|]. intros. wp_steps. apply keeps_caught; [apply continue_keeps| |done].
  intros e s2 Hi2. wp_steps. apply keeps_wp; [apply keeps_caught; [apply error_keeps|intros ?; intros ? ?; by wp_steps]|done|]. intros. by wp_steps.
Qed.

Lemma continuation_keeps m aborted : keeps (getContinuationMessages m aborted).
Proof.
  intros s Hi. unfold getContinuationMessages. wp_step. wp_step. wp_step; [by wp_steps|]. apply goal_bind, keeps_wp; [apply goal_messages_keeps|done|].
  intros [|c l] s1 Hi1; [by wp_steps|]. wp_steps. apply wp_set; [done|by apply inv_fit|]. intros. by wp_steps.
Qed.

Lemma threshold_keeps m : keeps (queueGoalContinuationForThresholdCompaction m).
Proof. intros s Hi. unfold queueGoalContinuationForThresholdCompaction. wp_steps. apply keeps_caught; [apply queue_keeps| |done]. intros e s' Hi'. by wp_steps. Qed.

Lemma cancelled_keeps : keeps clearQueuedGoalContinuation.
Proof. intros s Hi. unfold clearQueuedGoalContinuation. wp_steps. apply wp_set; [done|by apply counted_fit, inv_fit|done]. Qed.

Lemma deliver_keeps c : keeps (refreshGoalContextMessageAtDelivery c).
Proof. intros s Hi. unfold refreshGoalContextMessageAtDelivery. wp_steps. apply wp_context; [done|]. intros. by wp_steps. Qed.

Lemma create_keeps o b : keeps (createGoalFromHost o b).
Proof. intros s Hi. unfold createGoalFromHost. wp_step. wp_step. destruct (status _); first [by apply start_keeps|by wp_steps]. Qed.

Lemma complete_keeps : keeps completeGoalFromHost.
Proof.
  intros s Hi. unfold completeGoalFromHost. wp_step. wp_step. destruct (_ || _) eqn:E; [by wp_steps|]. to_prop. wp_steps. apply wp_clear; [done|].
  intros s2 Hg2 Hi2. wp_steps. apply wp_set; [done| |intros; by wp_steps]. match goal with H : timed _ _ |- _ => rename H into Ht end.
  apply stopped_fit; [eapply timed_fit; [|exact Ht]; by apply inv_fit|rewrite (timed_objective _ _ Ht); congruence|done..].
Qed.

Lemma host_keeps type payload : keeps (handleGoalHostRequest type payload).
Proof.
  intros s Hi. unfold handleGoalHostRequest. wp_steps.
  - destruct (property payload _) as [[]|]; try (by wp_steps). destruct (property payload _) as [[]|]; try (by wp_steps).
    all: wp_steps; apply keeps_wp; [apply create_keeps|done|]; intros; by wp_steps.
  - apply keeps_wp; [apply complete_keeps|done|]. intros. by wp_steps.
Qed.

Lemma command_keeps rest images : keeps (handleGoalSlashCommand rest images).
Proof.
  intros s Hi. unfold handleGoalSlashCommand. wp_steps. destruct a; [by wp_steps|by apply clear_keeps|by apply pause_keeps|by apply resume_keeps|].
  unfold startFromCommand. wp_step. wp_step. cbv zeta. wp_step.
  assert (Hstart : forall s1, inv s1 -> wp (ensureGoalRuntimeActive false ;; clearQueuedGoalContexts ;; startGoal objective (num_Z <$> tokenBudget) ;;
    runOrQueueGoalContext (if bool_decide (status (goalState s) = Active) then ObjectiveUpdated else Continuation) images) (fun _ _ => True) s1).
  { intros s1 Hi1. apply goal_bind, wp_ensure; [done|]. intros s2 _ Hi2. apply goal_bind, wp_clear; [done|]. intros s3 _ Hi3.
    apply goal_bind, keeps_wp; [apply start_keeps|done|]. intros. by apply context_keeps. }
  wp_step; wp_step; by apply Hstart.
Qed.

(** What a branch restores fits. *)
Lemma last_goal_sound s branch : ready s -> branch ⊆ getEntries (log s) -> sound (last_goal branch).
Proof.
  intros [_ _ He] Hb. unfold last_goal. destruct (head _) as [g|] eqn:E; [|apply empty_goal_sound].
  apply head_Some_elem_of, list_elem_of_omap in E as (e & Hin & Hg). apply (He e); [|done]. apply Hb. by apply elem_of_reverse.
Qed.

Lemma loaded s : ready s -> exists g, loadPersistedGoalState (log s) = Some g /\ sound g.
Proof.
  intros Hr. destruct (getBranch_spec (log s) None (rd_wf s Hr)) as (l & Hl & _ & Hin & _). unfold loadPersistedGoalState. rewrite Hl.
  eexists. split; [reflexivity|]. by apply (last_goal_sound s).
Qed.

Lemma reload_wp Q s : ready s -> (forall s', inv s' -> Q tt s') -> wp (reloadGoalStateFromBranch false) Q s.
Proof.
  intros Hr HQ. destruct (loaded s Hr) as (g & Hg & Hs). unfold reloadGoalStateFromBranch. 
  assert (Hset : forall started n, (readings s <= n)%nat -> inv (set_goal g started (set_world (log s) n (outside s) s))).
  { intros started n Hn. split; [by apply (ready_same s)|done|done]. }
  assert (Hemit : forall started n, (readings s <= n)%nat -> wp emitGoalUpdate Q (set_goal g started (set_world (log s) n (outside s) s))).
  { intros started n Hn. apply goal_emit; [by apply Hset|]. intros s' _. apply HQ. }
  change (wp (started ← (if bool_decide (status (default emptyGoalState (loadPersistedGoalState (log s))) = Active) then t ← tick; mret (Some t) else mret None);
    change (set_goal (default emptyGoalState (loadPersistedGoalState (log s))) started) ;; emitGoalUpdate) Q s).
  rewrite Hg. cbn [default]. destruct (bool_decide _).
  - apply (Hemit (Some (now (tape (readings s)))) (S (readings s))). lia.
  - apply (Hemit None (readings s)). lia.
Qed.

Lemma move_keeps target : keeps (moveTo target).
Proof.
  intros s Hi. unfold moveTo, wp, mbind, gop_bind, on_log. set (m := match target with Some t => branch t | None => resetLeaf end).
  assert (Hm : ((m (log s)).2 = log s /\ exists e, (m (log s)).1 = inr e) \/ (m (log s)).1 = inl tt /\ exists l, (m (log s)).2 = set_leaf l (log s) /\ wf (set_leaf l (log s))).
  { unfold m. destruct target as [t|].
    - unfold branch, mbind, op_bind, gets. destruct (has _ t) eqn:E; cbn; [right|left; by eauto]. split; [done|]. eexists. split; [reflexivity|].
      apply set_leaf_wf; [apply Hi|]. intros i [= ->]. by apply wf_has; [apply Hi|].
    - right. split; [done|]. exists None. split; [done|]. apply set_leaf_wf; [apply Hi|done]. }
  destruct (m (log s)) as [r l]. cbn [fst snd] in Hm. destruct Hm as [[-> [e ->]]|(-> & l' & -> & Hw)].
  - cbn. split; [|done]. by apply (inv_same s).
  - apply (reload_wp (fun _ _ => True) (set_world (set_leaf l' (log s)) (readings s) (outside s) s)); [|done]. destruct Hi as [[_ H2 H3] _ _]. by split.
Qed.

Lemma entry_keeps k : foreign k = true -> keeps (logging (fun en => append en k)).
Proof.
  intros Hk s Hi. unfold foreign in Hk. apply andb_true_iff in Hk as [_ Hk].
  assert (Hn : persisted_goal (new_entry (tape (readings s)) k (log s)) = None).
  { destruct k; try done. unfold persisted_goal, new_entry. cbn [kind]. destruct data; [|done]. apply negb_true_iff in Hk. by rewrite Hk. }
  destruct (ready_append k s (inv_ready s Hi)) as (Hr & Hg & _ & Hb); [by rewrite Hn|]. set (r := logging _ s) in *.
  assert (inv r.2); [|split; [done|fold r; by destruct (r.1)]]. split; [done|rewrite Hg; apply Hi|].
  destruct (getBranch_spec (log s) None (rd_wf s (inv_ready s Hi))) as (l & Hl & _). pose proof (inv_saved s Hi) as Hsv.
  unfold loadPersistedGoalState in *. rewrite Hl in Hsv. rewrite (Hb l Hl), Hg. cbn [fmap option_fmap option_map] in *. rewrite <- Hsv. f_equal.
  unfold last_goal. rewrite reverse_snoc. cbn [omap list_omap]. by rewrite Hn.
Qed.

Lemma happens_keeps e : summarises e = false -> keeps (happens e).
Proof.
  intros Hno s Hi. destruct e; try discriminate Hno; cbn [happens].
  - unfold accountAndSteer, steerBudgetLimit. apply goal_bind, keeps_wp; [apply account_keeps|done|]. intros. wp_steps. apply wp_context; [done|]. intros. by wp_steps.
  - unfold goalAfterTurn, accountAndSteer, steerBudgetLimit. apply goal_bind, goal_bind, keeps_wp; [apply stop_keeps|done|]. intros. wp_steps.
    apply goal_catch; [|intros; by wp_steps]. apply goal_bind, keeps_wp; [apply account_keeps|done|]. intros. wp_steps. apply wp_context; [done|]. intros. by wp_steps.
  - apply goal_bind, keeps_wp; [apply continuation_keeps|done|]. intros. by wp_steps.
  - by apply settled_keeps.
  - apply goal_bind, keeps_wp; [apply threshold_keeps|done|]. intros. by wp_steps.
  - by apply cancelled_keeps.
  - apply goal_bind, keeps_wp; [apply deliver_keeps|done|]. intros. by wp_steps.
  - apply goal_bind, keeps_wp; [apply host_keeps|done|]. intros. by wp_steps.
  - by apply command_keeps.
  - by apply finish_keeps.
  - unfold beginAbort. by wp_steps.
  - unfold endAbort. by wp_steps.
  - by apply move_keeps.
  - destruct (foreign k) eqn:Hk; [|by wp_steps]. apply goal_bind, keeps_wp; [by apply entry_keeps|done|]. intros. by wp_steps.
  - apply wp_on_log; [apply keeps_flushNow|done|done].
  - apply wp_change; [|done]. by apply log_part_inv.
  - by wp_steps.
Qed.

Lemma load_inv initial x : wf l0 -> (forall e g, e ∈ getEntries l0 -> persisted_goal e = Some g -> sound (normalizeGoalState g)) ->
  inv (load_goal initial (start l0 x)).2.
Proof.
  intros Hw He. assert (Hr : ready (start l0 x)) by (split; [done|intros n i _; apply Htape|exact He]).
  destruct (loaded _ Hr) as (g & Hg & Hs). cbn [log start] in Hg.
  change (inv ((seedGoal initial ;; startAccounting) (set_goal (default emptyGoalState (loadPersistedGoalState l0)) None (start l0 x))).2).
  rewrite Hg. cbn [default]. apply (wp_true (seedGoal initial ;; startAccounting)).  apply goal_bind. set (s0 := set_goal g None (start l0 x)).
  assert (Hi : inv s0) by (split; [by apply (ready_same (start l0 x))|done..]).
  assert (Hend : forall s, inv s -> wp startAccounting (fun _ _ => True) s) by (intros; unfold startAccounting; by wp_steps).
  unfold seedGoal. wp_step. wp_step. destruct initial as [[o b]|]; [|wp_steps; by apply Hend]. wp_step; [|wp_steps; by apply Hend].
  apply goal_bind, keeps_wp; [apply start_keeps|done|]. intros. apply goal_bind, wp_context; [done|]. intros. apply wp_outdoors; [done|]. intros. by apply Hend.
Qed.
End session.

(** ** Theorems *)

(** C29. In every run without moves that summarise a branch, from a session log whose goals are well formed, whatever
    else happens, in whatever order, and whatever fails: the state of the goal is well formed (a state that is not idle
    has an objective, a budget is positive, an active goal is below its budget and a limited one is not), and it is the
    state that a session resumed from the log as it is then would restore. A move with a summary keeps the state in
    memory with the larger counters, and neither holds after it ([summary_move_revives]). *)
Theorem goal_run_sound {X} (host : GoalHost X) (tape : nat -> env) (error_text : error -> jsstr) (l : session) (x : X)
    (initial : option (jsstr * option num)) (es : list (event (X := X)))
    (Hwf : wf l) (Htape : unique_tape tape l)
    (Hgoals : forall e g, e ∈ getEntries l -> persisted_goal e = Some g -> sound (normalizeGoalState g))
    (Hmoves : Forall (fun e => summarises e = false) es) :
  let s := goal_run host tape error_text l x initial es in
  sound (goalState s) /\ wf (log s) /\ loadPersistedGoalState (log s) = Some (goalState s).
Proof.
  cbv zeta. assert (H : inv tape (goal_run host tape error_text l x initial es)).
  { induction es as [|e es IH] using rev_ind; [by eapply load_inv|]. apply list.Forall_app in Hmoves as [Hes He].
    apply list.Forall_cons in He as [He _]. unfold goal_run in *. rewrite foldl_snoc. eapply wp_true, happens_keeps; [exact Htape|exact He|by apply IH]. }
  destruct H as [[Hw _ _] Hs Hl]. done.
Qed.

(** ** What operations change *)

Section effects.
Context {X : Type} (host : GoalHost X) (tape : nat -> env).
Implicit Types (s : goals X).

(** [m] leaves the state and the responses that were counted as they are. *)
Definition quiet {A} (m : gop A) : Prop := forall s, goalState (m s).2 = goalState s /\ accountedMessages (m s).2 = accountedMessages s.
Lemma quiet_bind {A B} (m : gop A) (f : A -> gop B) : quiet m -> (forall a, quiet (f a)) -> quiet (m ≫= f).
Proof. intros Hm Hf s. unfold mbind, gop_bind. specialize (Hm s). destruct (m s) as [[a|e] s']; [|done]. destruct (Hf a s') as [-> ->]. done. Qed.
Lemma quiet_ret {A} (a : A) : quiet (mret a).
Proof. done. Qed.
Lemma quiet_get : quiet get_goals.
Proof. done. Qed.
Lemma quiet_reading : quiet (reading tape).
Proof. done. Qed.
Lemma quiet_tick : quiet (tick tape).
Proof. by apply quiet_bind. Qed.
Lemma quiet_on_log {A} (m : op A) : quiet (on_log m).
Proof. intros s. unfold on_log. by destruct (m (log s)). Qed.
Lemma quiet_outdoors (f : X -> X) : quiet (outdoors f).
Proof. done. Qed.
Lemma quiet_may_throw f : quiet (outdoors_may_throw f).
Proof. apply quiet_bind; [intros s; unfold outdoors_try; by destruct (f (outside s))|]. by intros [e|]. Qed.
Lemma quiet_persist g : quiet (persistGoalState tape g).
Proof. unfold persistGoalState, logging. repeat (apply quiet_bind; [|intros]); auto using quiet_reading, quiet_on_log. Qed.
Lemma quiet_emit : quiet (emitGoalUpdate host tape).
Proof. unfold emitGoalUpdate. repeat (apply quiet_bind; [|intros]); auto using quiet_tick, quiet_get, quiet_outdoors. Qed.
Lemma quiet_message k images : quiet (goalContextMessage tape k images).
Proof. unfold goalContextMessage. repeat (apply quiet_bind; [|intros]); auto using quiet_tick, quiet_get. intros s. unfold accept. by case_match. Qed.
Lemma quiet_ensure b : quiet (ensureGoalRuntimeActive host b).
Proof. unfold ensureGoalRuntimeActive. apply quiet_bind; [done|]. intros s. repeat case_match; try done. Qed.

(** Whether or not the log takes it, a state that is set is the state. *)
Lemma set_effect next s : let r := (setGoalState host tape next s).2 in
  (exists t, goalState r = normalizeGoalState (with_updatedAt t next)) /\ accountedMessages r = accountedMessages s.
Proof.
  cbv zeta. set (n := readings s). set (g := normalizeGoalState (with_updatedAt (now (tape n)) next)).
  assert (H : forall started n', let r := ((persistGoalState tape g ;; emitGoalUpdate host tape) (set_goal g started (set_world (log s) n' (outside s) s))).2 in
    goalState r = g /\ accountedMessages r = accountedMessages s).
  { intros started n'. cbv zeta. assert (Hq : quiet (persistGoalState tape g ;; emitGoalUpdate host tape)) by (apply quiet_bind; [apply quiet_persist|intros; apply quiet_emit]).
    destruct (Hq (set_goal g started (set_world (log s) n' (outside s) s))) as [-> ->]. done. }
  enough (Hr : exists started n', (setGoalState host tape next s).2 = ((persistGoalState tape g ;; emitGoalUpdate host tape) (set_goal g started (set_world (log s) n' (outside s) s))).2).
  { destruct Hr as (started & n' & ->). destruct (H started n') as [H1 H2]. split; [by eexists|done]. }
  change (setGoalState host tape next s) with ((started ← (if bool_decide (status g = Active) then match accountingStartedAt s with Some t => mret (Some t) | None => t ← tick tape; mret (Some t) end else mret None);
    change (set_goal g started) ;; persistGoalState tape g ;; emitGoalUpdate host tape) (set_world (log s) (S n) (outside s) s)).
  destruct (bool_decide _); [destruct (accountingStartedAt s) as [t|]|].
  - by exists (Some t), (S n).
  - by exists (Some (now (tape (S n)))), (S (S n)).
  - by exists None, (S n).
Qed.

Lemma get_bind {B} (f : goals X -> gop B) s : (get_goals ≫= f) s = f s s.
Proof. done. Qed.
Lemma change_bind {B} h (f : unit -> gop B) s : (change h ≫= f) s = f tt (h s).
Proof. done. Qed.
Lemma ret_bind {A B} (m : gop A) a (f : A -> gop B) s s' : m s = (inl a, s') -> (m ≫= f) s = f a s'.
Proof. intros H. unfold mbind, gop_bind. by rewrite H. Qed.

Lemma accounted_effect s : exists g started n, goalWithAccountedWallClock tape s =
    (inl g, set_goal (goalState s) started (set_world (log s) n (outside s) s)) /\ timed (goalState s) g.
Proof.
  unfold goalWithAccountedWallClock, tick, mbind, gop_bind, reading, get_goals, change. cbn.
  destruct (0 <? _); eexists _, _, _; (split; [reflexivity|by eexists]).
Qed.

(** A response is counted when the goal is active, it did not fail and was not counted before. *)
Definition counts_for (seen : list nat) (p : nat * AssistantMessage) : bool :=
  negb (bool_decide (stopReason p.2 = Error)) && negb (bool_decide (stopReason p.2 = Aborted)) && negb (bool_decide (p.1 ∈ seen)).

Lemma account_effect i m s : fit (goalState s) ->
  let r := (accountGoalUsageForAssistantMessage host tape i m s).2 in let g := goalState s in
  if bool_decide (status g = Active) && counts_for (accountedMessages s) (i, m) then
    accountedMessages r = i :: accountedMessages s /\ tokenBudget (goalState r) = tokenBudget g /\
    tokensUsed (goalState r) = tokensUsed g + goalTokenDeltaForUsage (usage m) /\ fit (goalState r) /\
    status (goalState r) = if exhausted (goalState r) then BudgetLimited else Active
  else r = s.
Proof.
  intros Hf. cbv zeta. unfold accountGoalUsageForAssistantMessage, counts_for. cbn [fst snd].
  destruct (bool_decide (status (goalState s) = Active)) eqn:Ea; cbn [andb].
  2:{ rewrite get_bind, Ea. cbn [negb]. by rewrite orb_true_r. }
  apply bool_decide_eq_true in Ea. rewrite get_bind, (bool_decide_eq_true_2 (status _ = Active)) by done. rewrite (fit_objective _ Hf) by congruence. cbn [negb orb].
  rewrite orb_false_r.
  destruct (bool_decide (stopReason m = Error)) eqn:E1; [done|]. destruct (bool_decide (stopReason m = Aborted)) eqn:E2; [done|].
  destruct (bool_decide (i ∈ accountedMessages s)) eqn:E3; [done|]. cbn [negb andb orb].
  rewrite change_bind. set (s1 := set_accounted _ s).
  destruct (accounted_effect s1) as (g & started & n & Hr & Ht). rewrite (ret_bind _ _ _ _ _ Hr). cbv zeta.
  set (next := with_counts _ _ _ g). set (s2 := set_goal _ _ _).
  assert (Hd : 0 <= goalTokenDeltaForUsage (usage m)) by (unfold goalTokenDeltaForUsage; lia).
  assert (Hset : forall next' (b : bool), exhausted next' = exhausted next -> tokenBudget next' = tokenBudget next -> tokensUsed next' = tokensUsed next -> fit next' ->
    let r := (((setGoalState host tape next' ≫= fun _ => mret b) : gop bool) s2).2 in
    accountedMessages r = i :: accountedMessages s /\ tokenBudget (goalState r) = tokenBudget (goalState s) /\
    tokensUsed (goalState r) = tokensUsed (goalState s) + goalTokenDeltaForUsage (usage m) /\ fit (goalState r) /\
    status (goalState r) = status next' /\ exhausted (goalState r) = exhausted next).
  { intros next' b He Hb Ht' Hf'. cbv zeta. destruct (set_effect next' s2) as [[t Hg] Hacc].
    assert (Hsame : (((setGoalState host tape next' ≫= fun _ => mret b) : gop bool) s2).2 = (setGoalState host tape next' s2).2) by (unfold mbind, gop_bind; by destruct (setGoalState _ _ _ _) as [[]]).
    rewrite Hsame, Hacc, Hg. destruct (fit_sound t next' Hf') as [Hfit _]. destruct Ht as [e ->]. destruct Hf' as [_ _ _ _ H0].
    assert (Hge : goalState s1 = goalState s) by done. rewrite Hge in *.
    assert (Htok : Z.max 0 (tokensUsed next') = tokensUsed next) by lia.
    split_and!; [done| | |done|done|]; cbn; [by rewrite Hb|rewrite Htok; done|]. unfold exhausted. cbn. rewrite Hb, Htok. done. }
  assert (Hfg : fit g) by (eapply timed_fit; [|exact Ht]; done). destruct Hfg as [F1 F2 F3 F4 F5].
  assert (Hag : status g = Active) by (destruct Ht as [e ->]; exact Ea).
  destruct (exhausted next) eqn:Ex; cbn [negb].
  - edestruct (Hset (with_status false BudgetLimited (Some (js "Reached " ++ show_Z (default 0 (tokenBudget next)) ++ js " token goal budget")) None next) true)
      as (H1 & H2 & H3 & H4 & H5 & H6); [done..| |]; [|rewrite H6; done]. split; cbn; [intros _; apply F1; congruence|done|done|done|lia].
  - destruct (Hset next false) as (H1 & H2 & H3 & H4 & H5 & H6); [done..| |]; [|rewrite H6, H5; done]. split; cbn; [intros _; apply F1; congruence|done|done|congruence|lia].
Qed.
End effects.

(** ** The budget *)

(** The tokens of the responses that count, each once. *)
Fixpoint deltas (seen : list nat) (ps : list (nat * AssistantMessage)) : list Z :=
  match ps with
  | [] => []
  | p :: ps => if counts_for seen p then goalTokenDeltaForUsage (usage p.2) :: deltas (p.1 :: seen) ps else deltas seen ps
  end.
Definition responses {X} (host : GoalHost X) (tape : nat -> env) (ps : list (nat * AssistantMessage)) (s : goals X) : goals X :=
  foldl (fun s p => (accountGoalUsageForAssistantMessage host tape p.1 p.2 s).2) s ps.

Lemma responses_inactive {X} (host : GoalHost X) tape ps (s : goals X) : fit (goalState s) -> status (goalState s) <> Active -> responses host tape ps s = s.
Proof.
  intros Hf Hs. induction ps as [|[i m] ps IH]; [done|]. cbn [responses foldl]. pose proof (account_effect host tape i m s Hf) as He. cbv zeta in He.
  rewrite bool_decide_eq_false_2 in He by done. cbn [andb fst snd] in *. rewrite He. exact IH.
Qed.

(** C30. Each response is counted once, however often it is reported, and the budget stops the goal. Without a budget, and
    below it, the tokens of the goal are those of the distinct responses that did not fail; else the goal is limited by
    the response that reached the budget, and later ones are not counted. *)
Theorem tokens_counted_once {X} (host : GoalHost X) (tape : nat -> env) (ps : list (nat * AssistantMessage)) (s : goals X)
    (Hfit : fit (goalState s)) (Hactive : status (goalState s) = Active) :
  let ds := deltas (accountedMessages s) ps in let g := goalState s in let r := goalState (responses host tape ps s) in
  let within n := match tokenBudget g with Some b => tokensUsed g + sumZ (fun d => d) (take n ds) < b | None => True end in
  within (length ds) /\ status r = Active /\ tokensUsed r = tokensUsed g + sumZ (fun d => d) ds \/
  exists n, within n /\ ~ within (S n) /\ status r = BudgetLimited /\ tokensUsed r = tokensUsed g + sumZ (fun d => d) (take (S n) ds).
Proof.
  cbv zeta. revert s Hfit Hactive. induction ps as [|[i m] ps IH]; intros s Hf Ha.
  - left. cbn. rewrite Z.add_0_r. split_and!; [|done|done]. pose proof (fit_active _ Hf Ha) as He. unfold exhausted in He. destruct (tokenBudget _); [by apply Z.leb_gt in He|done].
  - cbn [responses foldl deltas]. pose proof (account_effect host tape i m s Hf) as He. cbv zeta in He. rewrite bool_decide_eq_true_2 in He by done. cbn [andb fst snd] in *.
    set (s1 := (accountGoalUsageForAssistantMessage host tape i m s).2) in *. fold (responses host tape ps s1).
    destruct (counts_for (accountedMessages s) (i, m)); [|rewrite He; by apply IH].
    destruct He as (Hacc & Hbud & Htok & Hfit1 & Hst). set (d := goalTokenDeltaForUsage (usage m)) in *.
    destruct (exhausted (goalState s1)) eqn:Ex.
    + right. exists 0%nat. pose proof (fit_active _ Hf Ha) as He0. unfold exhausted in *. rewrite Hbud in Ex. destruct (tokenBudget (goalState s)) as [b|]; [|done]. to_prop.
      rewrite responses_inactive by (done || congruence). cbn [take]. rewrite sumZ_cons, take_0, Htok. change (sumZ (fun d0 : Z => d0) []) with 0.
      rewrite Htok in Ex. split_and!; [lia|lia|done|lia].
    + specialize (IH s1 Hfit1 Hst). rewrite Hacc, Hbud, Htok in IH. destruct IH as [(H1 & H2 & H3)|(n & H1 & H2 & H3 & H4)].
      * left. cbn [length take]. rewrite !sumZ_cons, H3. split_and!; [|done|lia]. destruct (tokenBudget _); [|done]. lia.
      * right. exists (S n). cbn [take] in *. rewrite !sumZ_cons, H4 in *. destruct (tokenBudget _); [|tauto]. split_and!; [lia|lia|done|lia].
Qed.

(** ** Continuations *)

Lemma bind_inl {X A B} (m : gop (X := X) A) (f : A -> gop B) s b s' : (m ≫= f) s = (inl b, s') -> exists a s1, m s = (inl a, s1) /\ f a s1 = (inl b, s').
Proof. unfold mbind, gop_bind. destruct (m s) as [[a|e] s1]; [|done]. intros H. by exists a, s1. Qed.

Lemma message_made {X} tape k images (s : goals X) c s' : goalContextMessage tape k images s = (inl c, s') ->
  exists t, createGoalContextMessage t (goalState s') k images = inl c.
Proof.
  unfold goalContextMessage. intros H. apply bind_inl in H as (t & s1 & _ & H). apply bind_inl in H as (s2 & s3 & [= <- <-] & H). exists t.
  unfold accept in H. destruct (createGoalContextMessage _ _ _ _) eqn:E; [|done]. by injection H as <- <-.
Qed.

Lemma continued {X} (host : GoalHost X) tape s l s' : 0 <= continuationsUsed (goalState s) -> continueGoal host tape s = (inl l, s') ->
  continuationsUsed (goalState s') = continuationsUsed (goalState s) + 1 /\ status (goalState s') = status (goalState s) /\
  exists c t, l = [c] /\ createGoalContextMessage t (goalState s') Continuation [] = inl c.
Proof.
  intros H0 H. unfold continueGoal in H. apply bind_inl in H as ([] & s1 & H1 & H). pose proof (quiet_ensure host true s) as [Hg1 _]. rewrite H1 in Hg1. cbn [snd] in Hg1.
  apply bind_inl in H as (s2 & s3 & [= <- <-] & H). apply bind_inl in H as ([] & s4 & H4 & H). destruct (set_effect host tape (one_more (goalState s1)) s1) as [[t Hg4] _].
  rewrite H4 in Hg4. cbn [snd] in Hg4. apply bind_inl in H as (c & s5 & H5 & H). injection H as <- <-.
  pose proof (quiet_message tape Continuation [] s4) as [Hg5 _]. rewrite H5 in Hg5. cbn [snd] in Hg5. apply message_made in H5 as [t' Hc].
  split_and!; [|rewrite Hg5, Hg4, Hg1; done|by exists c, t']. rewrite Hg5, Hg4, Hg1. cbn. lia.
Qed.

(** The hook that asks for continuations never throws. It gives a message only for an active goal with an objective,
    after a response that did not fail, when the run was not aborted and no child is at work; then one message, which
    shows the state of the goal with the continuation counted. *)
Theorem continuation_counted {X} (host : GoalHost X) (tape : nat -> env) (error_text : error -> jsstr) (m : AssistantMessage)
    (aborted : bool) (s : goals X) (Hs : sound (goalState s)) :
  exists l s', getGoalContinuationMessages host tape error_text m aborted s = (inl l, s') /\
    (l = [] \/ exists c t, l = [c] /\ createGoalContextMessage t (goalState s') Continuation [] = inl c /\
      continuationsUsed (goalState s') = continuationsUsed (goalState s) + 1 /\ status (goalState s') = Active /\
      pursued (goalState s) = true /\ stopReason m <> Error /\ stopReason m <> Aborted /\ aborted = false /\ hasUnsettledRlmWork host (outside s) = false).
Proof.
  assert (H0 : 0 <= continuationsUsed (goalState s)) by (destruct Hs as [_ <-]; cbn; lia).
  unfold getGoalContinuationMessages. assert (Hstop : exists s1, stopGoalContinuationForTerminalMessage host tape m s = (inl (bool_decide (stopReason m = Error) || bool_decide (stopReason m = Aborted)), s1) /\
    (stopReason m <> Error -> stopReason m <> Aborted -> s1 = s)).
  { unfold stopGoalContinuationForTerminalMessage, try_catch, mbind, gop_bind.
    destruct (stopReason m); [by eexists..| |]; destruct (finishGoalForTerminalAssistantMessage host tape m s) as [[[]|e] s1]; by eexists. }
  destruct Hstop as (s1 & Hst & Hsame). rewrite (ret_bind _ _ _ _ _ Hst), get_bind. set (stop := bool_decide (stopReason m = Error) || _) in *.
  destruct stop eqn:Estop; [cbn [orb]; eexists [], s1; split; [done|by left]|]. cbn [orb]. unfold stop in Estop. to_prop. rewrite Hsame by done.
  destruct aborted; [cbn [orb]; eexists [], s; split; [done|by left]|]. cbn [orb]. destruct (pursued (goalState s)) eqn:Ep; [|eexists [], s; split; [done|by left]]. cbn [negb].
  destruct (hasUnsettledRlmWork host (outside s)) eqn:Eu; [eexists [], _; split; [done|by left]|]. rewrite change_bind. set (s2 := set_flags false _ s).
  unfold try_catch at 1. destruct (continueGoal host tape s2) as [[l|e] s3] eqn:Ec.
  - eexists l, s3. split; [done|]. right. destruct (continued host tape s2 l s3 H0 Ec) as (HC1 & HC2 & c & t & -> & HC3).
    exists c, t. split_and!; try done. rewrite HC2. change (goalState s2) with (goalState s). unfold pursued in Ep. by apply andb_true_iff in Ep as [?%bool_decide_eq_true _].
  - unfold mbind, gop_bind, try_catch. destruct (finishGoalWithError host tape (text_of_error error_text e) s3) as [[[]|e'] s4]; (eexists [], s4; split; [done|by left]).
Qed.

(** ** Examples and witnesses *)

(** A session with all it needs, which notes the messages it is asked to queue; [throws] makes it refuse them. *)
Definition demo_host (throws : bool) : GoalHost (list CustomMessage) :=
  {| includeGoals := true; hasIpython := fun _ => true; activateIpython := fun _ x => x; notify := fun _ x => x; dropGoalContexts := fun _ => [];
     pushNextTurn := fun m x => x ++ [m]; admitInput := fun _ m x => if throws then (Some (js "paused"), x) else (None, x ++ [m]);
     validateCanStartAgentRun := fun x => (None, x); isStreaming := fun _ => false; hasUnsettledRlmWork := fun _ => false; closing := fun _ => false;
     admissionPaused := fun _ => false; queuedActionCount := fun _ => 0; arrivalEpoch := fun _ => 0; thresholdQueued := fun _ => false;
     withdrawThreshold := fun x => (false, x) |}.
(** Half a second between two readings. *)
Definition demo_tape (n : nat) : env := {| now := 1000 + 500 * Z.of_nat n; uuid := fun i => [N.of_nat n; N.of_nat i] |}.
Definition no_text (_ : error) : jsstr := [].

Definition response (out : Z) : AssistantMessage :=
  {| a_content := []; api := []; provider := []; model := [];
     usage := {| input := 10; output := out; cacheRead := 0; cacheWrite := 0; totalTokens := 10 + out; cost := zeroCost |};
     stopReason := Stop; errorMessage := None; a_timestamp := 0 |}.
Definition demo_run (es : list event) : goals (list CustomMessage) :=
  goal_run (demo_host false) demo_tape no_text demo_session [] None es.

Lemma demo_tape_unique : unique_tape demo_tape demo_session.
Proof. split; [done| |intros n i; apply not_elem_of_nil]. intros n m i j Hn H. injection H as H _. lia. Qed.

Lemma goal_run_sound_witness :
  (wf demo_session /\ unique_tape demo_tape demo_session /\
   (forall e g, e ∈ getEntries demo_session -> persisted_goal e = Some g -> sound (normalizeGoalState g))) /\
  let s := demo_run [ECommand (js "--budget=50 tidy up") []; EResponse 0 (response 20); EResponse 1 (response 20)] in
  sound (goalState s) /\ loadPersistedGoalState (log s) = Some (goalState s).
Proof.
  assert (H : wf demo_session /\ unique_tape demo_tape demo_session /\
   (forall e g, e ∈ getEntries demo_session -> persisted_goal e = Some g -> sound (normalizeGoalState g))).
  { split; [apply empty_wf|]. split; [exact demo_tape_unique|]. intros e g He. by apply not_elem_of_nil in He. }
  split; [exact H|]. destruct H as (H1 & H2 & H3). cbv zeta.
  pose proof (goal_run_sound (demo_host false) demo_tape no_text demo_session [] None
    [ECommand (js "--budget=50 tidy up") []; EResponse 0 (response 20); EResponse 1 (response 20)] H1 H2 H3
    ltac:(by repeat constructor)) as H.
  destruct H as (Hs & _ & Hl). split; [exact Hs|exact Hl].
Defined.

(** The goal of the witness is limited by its second response, and the model is told. *)
Example budget_reached :
  let s := demo_run [ECommand (js "--budget=50 tidy up") []; EResponse 0 (response 20); ETurn 0 (response 20); EResponse 1 (response 20)] in
  status (goalState s) = BudgetLimited /\ tokensUsed (goalState s) = 60 /\ tokenBudget (goalState s) = Some 50 /\
  length (outside s) = 2%nat /\ objective (goalState s) = Some (js "tidy up").
Proof. vm_compute. done. Qed.

Definition limited_session : goals (list CustomMessage) := demo_run [ECommand (js "--budget=50 tidy up") []].

Lemma tokens_counted_once_witness :
  (fit (goalState limited_session) /\ status (goalState limited_session) = Active) /\
  let ps := [(0, response 20); (0, response 20); (1, response 20); (2, response 20)]%nat in
  deltas (accountedMessages limited_session) ps = [30; 30; 30] /\
  exists n, status (goalState (responses (demo_host false) demo_tape ps limited_session)) = BudgetLimited /\
    tokensUsed (goalState (responses (demo_host false) demo_tape ps limited_session)) = sumZ (fun d => d) (take (S n) [30; 30; 30]).
Proof.
  assert (H : fit (goalState limited_session) /\ status (goalState limited_session) = Active).
  { split; [|vm_compute; reflexivity]. split; [intros _; vm_compute; reflexivity|intros b Hb; vm_compute in Hb; by injection Hb as <-|
      intros _; vm_compute; reflexivity|intros Hc; vm_compute in Hc; discriminate Hc|vm_compute; discriminate]. }
  split; [exact H|]. destruct H as [Hf Ha]. cbv zeta. set (ps := [_; _; _; _]).
  assert (Hd : deltas (accountedMessages limited_session) ps = [30; 30; 30]) by (vm_compute; reflexivity).
  split; [exact Hd|]. pose proof (tokens_counted_once (demo_host false) demo_tape ps limited_session Hf Ha) as H. cbv zeta in H. rewrite Hd in H.
  assert (Hb : tokenBudget (goalState limited_session) = Some 50) by (vm_compute; reflexivity). rewrite Hb in H.
  assert (H0 : tokensUsed (goalState limited_session) = 0) by (vm_compute; reflexivity). rewrite H0 in H.
  destruct H as [(H1 & _)|(n & _ & _ & H3 & H4)]; [vm_compute in H1; discriminate H1|]. exists n. split; [exact H3|exact H4].
Defined.

Lemma continuation_counted_witness :
  sound (goalState limited_session) /\
  exists l s', getGoalContinuationMessages (demo_host false) demo_tape no_text (response 20) false limited_session = (inl l, s') /\ length l = 1%nat.
Proof.
  assert (H : sound (goalState limited_session)).
  { split; [|vm_compute; reflexivity]. exact (proj1 (proj1 tokens_counted_once_witness)). }
  split; [exact H|]. destruct (continuation_counted (demo_host false) demo_tape no_text (response 20) false limited_session H) as (l & s' & Hr & _).
  exists l, s'. split; [exact Hr|]. vm_compute in Hr. by injection Hr as <- _.
Defined.

(** Moving back to an entry before the budget was reached, and then, with a summary, to the branch where it was: the state
    in memory is kept with the larger counters, so the goal is active beyond its budget. *)
Example summary_move_revives :
  let m0 := demo_run [ECommand (js "--budget=50 tidy up") []; EResponse 0 (response 20)] in
  let m1 := (happens (demo_host false) demo_tape no_text (EResponse 1 (response 20)) m0).2 in
  let m2 := (moveTo (demo_host false) demo_tape (leafId (log m0)) m1).2 in
  let m3 := (happens (demo_host false) demo_tape no_text (ESummary (leafId (log m1)) (js "tried") None false None) m2).2 in
  (status (goalState m1), tokensUsed (goalState m1)) = (BudgetLimited, 60) /\
  (status (goalState m2), tokensUsed (goalState m2)) = (Active, 30) /\
  (status (goalState m3), tokensUsed (goalState m3), tokenBudget (goalState m3)) = (Active, 60, Some 50) /\
  status (default emptyGoalState (loadPersistedGoalState (log m3))) = BudgetLimited.
Proof. vm_compute. done. Qed.

(** The parts of seconds between two countings are dropped: four responses count nine
    seconds of ten and a half. *)
Example time_is_lost :
  let s := demo_run [ECommand (js "tidy up") []; EResponse 0 (response 1); EResponse 1 (response 1); EResponse 2 (response 1); EResponse 3 (response 1)] in
  timeUsedSeconds (goalState s) = 9 /\ option_map (fun t => t - default 0 (createdAt (goalState s))) (accountingStartedAt s) = Some 10500.
Proof. vm_compute. done. Qed.

(** A continuation that could not be queued after a compaction is counted all the same; one that could not be queued after
    the children settled is not. *)
Example refused_continuation_counted :
  let run es := goal_run (demo_host true) demo_tape no_text demo_session [] (Some (js "tidy up", None)) es in
  continuationsUsed (goalState (run [EThreshold (response 1)])) = 1 /\ continuationsUsed (goalState (run [])) = 0.
Proof. vm_compute. done. Qed.
