(* ===== verification/StdinBuffer.v ===== *)
(** * Terminal input (packages/tui/src/stdin-buffer.ts)

    What a terminal sends arrives in chunks cut anywhere. The buffer cuts it into keys: single characters, and escape
    sequences, which it waits for until they are whole or a short time has passed; text between the markers of a paste
    is delivered as one paste.

    [extract_exact] says that cutting loses and invents nothing and gives the shortest complete sequences;
    [keys_chunked] that the keys do not depend on how the input was cut into chunks; [paste_delivered] that a paste is
    delivered once and unchanged, however it was cut. *)

(* Source aliases:
   SB = src/packages/tui/src/stdin-buffer.ts *)

From S2P Require Import Prelude JsString JsNumber.
Local Open Scope N_scope.

(** ** Escape sequences *)

(** SB 22-22 ESC. *)
Definition ESC : N := 0x1B.
(** SB 23-23 BRACKETED_PASTE_START. *)
Definition BRACKETED_PASTE_START : jsstr := ESC :: js "[200~".
(** SB 24-24 BRACKETED_PASTE_END. *)
Definition BRACKETED_PASTE_END : jsstr := ESC :: js "[201~".

(** SB 29-29 isCompleteSequence. *)
Inductive sequence_status := CompleteSequence | IncompleteSequence | NotEscape.
#[export] Instance sequence_status_eq_dec : EqDecision sequence_status.
Proof. solve_decision. Defined.
Definition when (b : bool) : sequence_status := if b then CompleteSequence else IncompleteSequence.

Definition is_M (u : N) : bool := (u =? 77) || (u =? 109).
Definition digits1 (s : jsstr) : bool := negb (bool_decide (s = [])) && forallb is_digit s.

(** SB 90-90 isCompleteCsiSequence. The pattern [/^<\d+;\d+;\d+[Mm]$/]. *)
Definition mouse_match (payload : jsstr) : bool :=
  match payload with
  | 60 :: p =>
      let '(d1, r1) := span is_digit p in
      match r1 with
      | 59 :: p2 =>
          let '(d2, r2) := span is_digit p2 in
          match r2 with
          | 59 :: p3 =>
              let '(d3, r3) := span is_digit p3 in
              digits1 d1 && digits1 d2 && digits1 d3 && match r3 with [m] => is_M m | _ => false end
          | _ => false
          end
      | _ => false
      end
  | _ => false
  end.

(** SB 74-108 isCompleteCsiSequence. *)
Definition isCompleteCsiSequence (data : jsstr) : sequence_status :=
  if negb (starts_with [ESC; 91] data) then CompleteSequence
  else if Nat.ltb (length data) 3 then IncompleteSequence
  else
    let payload := drop 2 data in
    let lastChar := default 0 (last payload) in
    if (0x40 <=? lastChar) && (lastChar <=? 0x7E) then
      if starts_with (js "<") payload then
        if mouse_match payload then CompleteSequence
        else if is_M lastChar then
          let parts := split_on 59 (removelast (drop 1 payload)) in
          when (Nat.eqb (length parts) 3 && forallb digits1 parts)
        else IncompleteSequence
      else CompleteSequence
    else IncompleteSequence.

(** SB 114-124 isCompleteOscSequence. *)
Definition isCompleteOscSequence (data : jsstr) : sequence_status :=
  if negb (starts_with [ESC; 93] data) then CompleteSequence else when (ends_with [ESC; 92] data || ends_with [7] data).
(** SB 131-141 isCompleteDcsSequence. *)
Definition isCompleteDcsSequence (data : jsstr) : sequence_status :=
  if negb (starts_with [ESC; 80] data) then CompleteSequence else when (ends_with [ESC; 92] data).
(** SB 148-158 isCompleteApcSequence. *)
Definition isCompleteApcSequence (data : jsstr) : sequence_status :=
  if negb (starts_with [ESC; 95] data) then CompleteSequence else when (ends_with [ESC; 92] data).

(** SB 29-68 isCompleteSequence. *)
Definition isCompleteSequence (data : jsstr) : sequence_status :=
  match data with
  | [] => NotEscape
  | u :: afterEsc =>
      if negb (u =? ESC) then NotEscape
      else match afterEsc with
           | [] => IncompleteSequence
           | c :: more =>
               if c =? 91 then
                 if starts_with (js "M") more then when (Nat.leb 6 (length data)) else isCompleteCsiSequence data
               else if c =? 93 then isCompleteOscSequence data
               else if c =? 80 then isCompleteDcsSequence data
               else if c =? 95 then isCompleteApcSequence data
               else if c =? 79 then when (Nat.leb 2 (length afterEsc))
               else CompleteSequence
           end
  end.

(** SB 163-169 parseUnmodifiedKittyPrintableCodepoint. The pattern: ESC [ and digits, then at most a
    colon with digits or none, at most a colon with digits, and u. *)
Definition parseUnmodifiedKittyPrintableCodepoint (sequence : jsstr) : option Z :=
  if negb (starts_with [ESC; 91] sequence) then None
  else
    let '(ds, r) := span is_digit (drop 2 sequence) in
    let matches :=
      digits1 ds &&
      match r with
      | [117] => true
      | 58 :: r1 => let '(_, r2) := span is_digit r1 in
                    match r2 with
                    | [117] => true
                    | 58 :: r3 => let '(d3, r4) := span is_digit r3 in digits1 d3 && bool_decide (r4 = [117])
                    | _ => false
                    end
      | _ => false
      end in
    if matches then let codepoint := digits_value 10 dec_digit ds in if (codepoint <? 32)%Z then None else Some codepoint else None.

Definition is_break (u : N) : bool := (u =? 13) || (u =? LF).
(** SB 171-175 isRawMultilinePaste. The pattern [/[^\r\n][\r\n]+[^\r\n]/]: text has been read, and breaks after it. *)
Fixpoint text_breaks_text (text_read breaks_read : bool) (s : jsstr) : bool :=
  match s with
  | [] => false
  | u :: s => if is_break u then text_breaks_text text_read text_read s
              else breaks_read || text_breaks_text true false s
  end.
(** SB 171-175 isRawMultilinePaste. *)
Definition isRawMultilinePaste (data : jsstr) : bool :=
  if bool_decide (ESC ∈ data) then false else text_breaks_text false false data.

(** SB 185-201 extractCompleteSequences. The end of the first candidate, from [seqEnd] on, that is not incomplete. *)
Fixpoint sequence_end (fuel : nat) (remaining : jsstr) (seqEnd : nat) : option nat :=
  match fuel with
  | O => None
  | S fuel => if bool_decide (isCompleteSequence (take seqEnd remaining) = IncompleteSequence) then sequence_end fuel remaining (S seqEnd) else Some seqEnd
  end.

(** SB 177-213 extractCompleteSequences. The fuel is the length of the buffer. *)
Fixpoint extract (fuel : nat) (buffer : jsstr) : list jsstr * jsstr :=
  match fuel, buffer with
  | S fuel, u :: rest =>
      if u =? ESC then
        match sequence_end (length buffer) buffer 1 with
        | Some k => let '(sequences, remainder) := extract fuel (drop k buffer) in (take k buffer :: sequences, remainder)
        | None => ([], buffer)
        end
      else let '(sequences, remainder) := extract fuel rest in ([u] :: sequences, remainder)
  | _, _ => ([], buffer)
  end.
Definition extractCompleteSequences (buffer : jsstr) : list jsstr * jsstr := extract (length buffer) buffer.

(** ** The buffer *)

(** SB 232-238 StdinBuffer. [timeout] tells whether the timer runs. *)
Record StdinBuffer := {
  buffer : jsstr; timeout : bool; pasteMode : bool; pasteBuffer : jsstr; pendingKittyPrintableCodepoint : option Z }.
(** SB 240-243 StdinBuffer.constructor. *)
Definition new_buffer : StdinBuffer := {| buffer := []; timeout := false; pasteMode := false; pasteBuffer := []; pendingKittyPrintableCodepoint := None |}.
(** SB 223-226 StdinBufferEventMap. *)
Inductive input := Data (sequence : jsstr) | Paste (content : jsstr).

Definition idle (rest : jsstr) (timer : bool) (pending : option Z) : StdinBuffer :=
  {| buffer := rest; timeout := timer; pasteMode := false; pasteBuffer := []; pendingKittyPrintableCodepoint := pending |}.
Definition pasting (text : jsstr) : StdinBuffer :=
  {| buffer := []; timeout := false; pasteMode := true; pasteBuffer := text; pendingKittyPrintableCodepoint := None |}.

(** SB 354-363 StdinBuffer.emitDataSequence. What is emitted, and the character that is pending then. *)
Definition emitDataSequence (pending : option Z) (sequence : jsstr) : list input * option Z :=
  let duplicate := match sequence with [u] => bool_decide (pending = Some (Z.of_N u)) | _ => false end in
  if duplicate then ([], None) else ([Data sequence], parseUnmodifiedKittyPrintableCodepoint sequence).
Fixpoint emit_all (pending : option Z) (sequences : list jsstr) : list input * option Z :=
  match sequences with
  | [] => ([], pending)
  | s :: rest => let '(es, pending) := emitDataSequence pending s in let '(es', pending) := emit_all pending rest in (es ++ es', pending)
  end.

(** SB 245-352 StdinBuffer.process. For a string; the fuel is one more than the number of its units: a call for the text
    after a paste has less text. *)
Fixpoint process (fuel : nat) (str : jsstr) (b : StdinBuffer) : list input * StdinBuffer :=
  match fuel with
  | O => ([], b)
  | S fuel =>
      let pending := pendingKittyPrintableCodepoint b in
      (* the text of a paste, until its end is found *)
      let paste text pending :=
        match indexOf BRACKETED_PASTE_END text with
        | Some endIndex =>
            let remaining := drop (endIndex + length BRACKETED_PASTE_END) text in
            let '(es, b) := match remaining with [] => ([], idle [] false None) | _ => process fuel remaining (idle [] false None) end in
            (Paste (take endIndex text) :: es, b)
        | None => ([], {| buffer := []; timeout := false; pasteMode := true; pasteBuffer := text; pendingKittyPrintableCodepoint := pending |})
        end in
      if bool_decide (str = []) && bool_decide (buffer b = []) then
        let '(es, pending) := emitDataSequence pending [] in
        (es, {| buffer := []; timeout := false; pasteMode := pasteMode b; pasteBuffer := pasteBuffer b; pendingKittyPrintableCodepoint := pending |})
      else
        let text := buffer b ++ str in
        if pasteMode b then paste (pasteBuffer b ++ text) pending
        else match indexOf BRACKETED_PASTE_START text with
             | Some startIndex =>
                 let '(es, _) := emit_all pending (extractCompleteSequences (take startIndex text)).1 in
                 let '(es', b) := paste (drop (startIndex + length BRACKETED_PASTE_START) text) None in
                 (es ++ es', b)
             | None =>
                 if isRawMultilinePaste text then ([Paste text], idle [] false None)
                 else
                   let '(sequences, remainder) := extractCompleteSequences text in
                   let '(es, pending) := emit_all pending sequences in
                   (es, idle remainder (negb (bool_decide (remainder = []))) pending)
             end
  end.

(** SB 251-263 StdinBuffer.process. What a string or a buffer of bytes stands for. *)
Definition input_text (data : jsstr + list N) : jsstr :=
  match data with
  | inl str => str
  | inr [byte] => if 127 <? byte then [ESC; byte - 128] else buffer_toString [byte]
  | inr bytes => buffer_toString bytes
  end.
(** SB 245-352 StdinBuffer.process. *)
Definition process_data (data : jsstr + list N) (b : StdinBuffer) : list input * StdinBuffer :=
  process (S (length (input_text data))) (input_text data) b.

(** SB 365-379 StdinBuffer.flush. *)
Definition flush (b : StdinBuffer) : list jsstr * StdinBuffer :=
  match buffer b with
  | [] => ([], {| buffer := []; timeout := false; pasteMode := pasteMode b; pasteBuffer := pasteBuffer b; pendingKittyPrintableCodepoint := pendingKittyPrintableCodepoint b |})
  | text => ([text], {| buffer := []; timeout := false; pasteMode := pasteMode b; pasteBuffer := pasteBuffer b; pendingKittyPrintableCodepoint := None |})
  end.
(** SB 343-351 StdinBuffer.process. The timer. *)
Definition on_timeout (b : StdinBuffer) : list input * StdinBuffer :=
  let '(sequences, b) := flush b in
  let '(es, pending) := emit_all (pendingKittyPrintableCodepoint b) sequences in
  (es, {| buffer := buffer b; timeout := timeout b; pasteMode := pasteMode b; pasteBuffer := pasteBuffer b; pendingKittyPrintableCodepoint := pending |}).
(** SB 381-390 StdinBuffer.clear. *)
Definition clear (b : StdinBuffer) : StdinBuffer := idle [] false None.

(** Chunks that arrive one after the other, in time. *)
Fixpoint feed (chunks : list jsstr) (b : StdinBuffer) : list input * StdinBuffer :=
  match chunks with
  | [] => ([], b)
  | c :: rest => let '(es, b) := process_data (inl c) b in let '(es', b) := feed rest b in (es ++ es', b)
  end.

Example keys_ex : feed [js "a" ++ [ESC]; js "[<35;20;5m"; [ESC; 91]; js "Ab"] new_buffer =
  ([Data (js "a"); Data (ESC :: js "[<35;20;5m"); Data (ESC :: js "[A"); Data (js "b")], new_buffer).
Proof. vm_compute. done. Qed.

(** ** Cutting *)

Definition incomplete (s : jsstr) : Prop := isCompleteSequence s = IncompleteSequence.

Lemma sequence_end_spec fuel rem k : (k + fuel = S (length rem))%nat ->
  match sequence_end fuel rem k with
  | Some e => (k <= e <= length rem)%nat /\ ~ incomplete (take e rem) /\ forall j, (k <= j < e)%nat -> incomplete (take j rem)
  | None => forall j, (k <= j <= length rem)%nat -> incomplete (take j rem)
  end.
Proof.
  revert k. induction fuel as [|fuel IH]; intros k Hk; cbn [sequence_end]; [intros; lia|]. case_bool_decide as Hc.
  - specialize (IH (S k) ltac:(lia)). destruct (sequence_end fuel rem (S k)) as [e|].
    + destruct IH as (H1 & H2 & H3). split; [lia|]. split; [done|]. intros j Hj. destruct (decide (j = k)) as [->|]; [exact Hc|]. apply H3. lia.
    + intros j Hj. destruct (decide (j = k)) as [->|]; [exact Hc|]. apply IH. lia.
  - split; [lia|]. split; [done|]. intros; lia.
Qed.

(** A key: a character, or an escape sequence that is complete and has no complete beginning. *)
Definition key (s : jsstr) : Prop :=
  (exists u, s = [u] /\ u <> ESC) \/
  head s = Some ESC /\ ~ incomplete s /\ forall j, (1 <= j < length s)%nat -> incomplete (take j s).
(** What is kept: nothing, or the beginning of an escape sequence. *)
Definition unfinished (r : jsstr) : Prop :=
  r = [] \/ head r = Some ESC /\ forall j, (1 <= j <= length r)%nat -> incomplete (take j r).
Definition cut (b : jsstr) (sequences : list jsstr) (r : jsstr) : Prop := concat sequences ++ r = b /\ Forall key sequences /\ unfinished r.

Lemma extract_cut fuel b : (length b <= fuel)%nat -> cut b (extract fuel b).1 (extract fuel b).2.
Proof.
  revert b. induction fuel as [|fuel IH]; intros b Hf.
  { destruct b; [|simpl in Hf; lia]. split; [done|]. split; [constructor|by left]. }
  destruct b as [|u b]; [split; [done|]; split; [constructor|by left]|]. cbn [extract]. simpl in Hf. destruct (u =? ESC) eqn:Eu.
  - apply N.eqb_eq in Eu as ->. pose proof (sequence_end_spec (length (ESC :: b)) (ESC :: b) 1 ltac:(simpl; lia)) as Hs. destruct (sequence_end _ _ _) as [e|].
    + destruct Hs as (He & Hn & Hi). destruct (IH (drop e (ESC :: b))) as (H1 & H2 & H3); [rewrite length_drop; simpl in *; lia|].
      destruct (extract fuel (drop e (ESC :: b))) as [seqs r]. cbn [fst snd] in *. split; [|split; [|done]].
      * cbn [concat]. by rewrite <- (assoc_L app), H1, take_drop.
      * apply list.Forall_cons. split; [|done]. right. destruct e as [|e]; [lia|]. split; [done|]. split; [done|].
        intros j Hj. rewrite length_take in Hj. rewrite take_take. replace (j `min` S e)%nat with j by lia. apply Hi. lia.
    + split; [done|]. split; [constructor|]. right. split; [done|]. exact Hs.
  - apply N.eqb_neq in Eu. destruct (IH b ltac:(lia)) as (H1 & H2 & H3). destruct (extract fuel b) as [seqs r]. cbn [fst snd] in *.
    split; [cbn; by rewrite H1|]. split; [|done]. apply list.Forall_cons. split; [left; by exists u|done].
Qed.

Lemma key_nonempty s : key s -> s <> [].
Proof. intros [(u & -> & _)|(H & _)]; [done|]. by intros ->. Qed.

(** Two keys at the start of a text are the same, and no key starts what is unfinished. *)
Lemma key_prefix k k' t t' : key k -> key k' -> k ++ t = k' ++ t' -> k = k'.
Proof.
  assert (H : forall k k' t t', key k -> key k' -> k ++ t = k' ++ t' -> (length k <= length k')%nat -> k = k').
  { clear. intros k k' t t' Hk Hk' He Hl. assert (Ht : k = take (length k) k').
    { apply (f_equal (take (length k))) in He. rewrite take_app_length, take_app_le in He by done. done. }
    destruct (decide (length k = length k')) as [E|Hne]; [rewrite Ht, E; by rewrite firstn_all|].
    destruct Hk' as [(u & -> & Hu)|(Hh & _ & Hi)]; [simpl in *; pose proof (key_nonempty k Hk); destruct k; [done|simpl in *; lia]|].
    pose proof (key_nonempty k Hk). assert (0 < length k)%nat by (destruct k; [done|simpl; lia]).
    destruct Hk as [(u & -> & Hu)|(_ & Hn & _)].
    - destruct k' as [|u' k']; [done|]. simpl in *. congruence.
    - exfalso. apply Hn. rewrite Ht. apply Hi. lia. }
  intros Hk Hk' He. destruct (decide (length k <= length k')%nat); [by apply (H k k' t t')|symmetry; apply (H k' k t' t); [done..|lia]].
Qed.
Lemma unfinished_key r k t : unfinished r -> key k -> r <> k ++ t.
Proof.
  intros Hr Hk ->. pose proof (key_nonempty k Hk). destruct Hr as [Hr|(Hh & Hi)]; [by destruct k|].
  specialize (Hi (length k)). rewrite take_app_length in Hi. destruct Hk as [(u & -> & Hu)|(_ & Hn & _)]; [simpl in Hh; congruence|].
  apply Hn, Hi. rewrite length_app. destruct k; [done|simpl; lia].
Qed.

Lemma cut_unique b ks r ks' r' : cut b ks r -> cut b ks' r' -> ks = ks' /\ r = r'.
Proof.
  intros (<- & Hk & Hr) (He & Hk' & Hr'). revert ks' He Hk'. induction Hk as [|k ks Hk Hks IH]; intros ks' He Hk'.
  - destruct Hk' as [|k' ks' Hk' Hks']; [done|]. cbn in He. rewrite <- (assoc_L app) in He. by destruct (unfinished_key r k' (concat ks' ++ r') Hr Hk').
  - cbn in He. rewrite <- (assoc_L app) in He. destruct Hk' as [|k' ks' Hk' Hks'].
    { by destruct (unfinished_key r' k (concat ks ++ r) Hr' Hk). }
    cbn in He. rewrite <- (assoc_L app) in He. assert (k' = k) as -> by by eapply key_prefix. apply app_inv_head in He. destruct (IH ks' He Hks') as [-> ->]. done.
Qed.

Lemma extract_spec b : cut b (extractCompleteSequences b).1 (extractCompleteSequences b).2.
Proof. by apply extract_cut. Qed.

(** Cutting is exact: the keys and the rest make up the text again, every key is a character or the shortest complete
    escape sequence, the rest has no complete beginning; and there is no other way to cut the text like this. *)
Theorem extract_exact (b : jsstr) :
  let '(sequences, remainder) := extractCompleteSequences b in
  cut b sequences remainder /\ forall ks r, cut b ks r -> ks = sequences /\ r = remainder.
Proof.
  pose proof (extract_spec b) as H. destruct (extractCompleteSequences b) as [ks r]. split; [done|]. intros ks' r' H'. by apply (cut_unique b).
Qed.

(** A text can be cut as it arrives. *)
Lemma extract_app a b :
  let '(ks, r) := extractCompleteSequences a in
  extractCompleteSequences (a ++ b) = (ks ++ (extractCompleteSequences (r ++ b)).1, (extractCompleteSequences (r ++ b)).2).
Proof.
  pose proof (extract_spec a) as Ha. destruct (extractCompleteSequences a) as [ks r]. destruct Ha as (Ha & Hks & Hr). cbn [fst snd] in *.
  destruct (extract_spec (r ++ b)) as (H1 & H2 & H3). pose proof (extract_spec (a ++ b)) as Hab.
  assert (Hc : cut (a ++ b) (ks ++ (extractCompleteSequences (r ++ b)).1) (extractCompleteSequences (r ++ b)).2).
  { split; [|split; [by apply Forall_app|done]]. by rewrite concat_app, <- (assoc_L app), H1, (assoc_L app), Ha. }
  destruct (cut_unique _ _ _ _ _ Hab Hc) as [<- <-]. by destruct (extractCompleteSequences (a ++ b)).
Qed.

Lemma emit_all_app p a b : emit_all p (a ++ b) = let '(es, p1) := emit_all p a in let '(es', p2) := emit_all p1 b in (es ++ es', p2).
Proof.
  revert p. induction a as [|s a IH]; intros p; [simpl; by destruct (emit_all p b)|]. cbn [app emit_all]. destruct (emitDataSequence p s) as [es p1].
  rewrite IH. destruct (emit_all p1 a) as [es2 p2]. destruct (emit_all p2 b) as [es3 p3]. by rewrite (assoc_L app).
Qed.

(** ** Keys *)

Lemma tbt_mono tr br tr' br' s : text_breaks_text tr br s = true -> (tr = true -> tr' = true) -> (br = true -> br' = true) -> text_breaks_text tr' br' s = true.
Proof.
  revert tr br tr' br'. induction s as [|u s IH]; intros tr br tr' br'; [done|]. cbn [text_breaks_text]. destruct (is_break u).
  - intros H Ht Hb. by apply (IH tr tr).
  - intros H Ht Hb. destruct br; [by rewrite Hb|]. cbn [orb] in H. rewrite H. by rewrite orb_true_r.
Qed.
Lemma tbt_app tr br s t : text_breaks_text tr br s = true -> text_breaks_text tr br (s ++ t) = true.
Proof.
  revert tr br. induction s as [|u s IH]; intros tr br; [done|]. cbn [app text_breaks_text]. destruct (is_break u); [apply IH|].
  destruct br; [done|]. cbn [orb]. apply IH.
Qed.
Lemma tbt_suffix a s : forall tr br, text_breaks_text false false s = true -> text_breaks_text tr br (a ++ s) = true.
Proof.
  induction a as [|u a IH]; intros tr br H; cbn [app]; [by apply (tbt_mono false false)|]. cbn [text_breaks_text]. destruct (is_break u); [by apply IH|].
  rewrite IH by done. by rewrite orb_true_r.
Qed.

(** A text of keys: it has no start of a paste, and no line breaks between text. *)
Definition keys_only (s : jsstr) : Prop := ~ contains BRACKETED_PASTE_START s /\ text_breaks_text false false s = false.
Lemma keys_only_part a s b : keys_only (a ++ s ++ b) -> keys_only s.
Proof.
  intros [H1 H2]. split.
  - intros (x & y & ->). apply H1. exists (a ++ x), (y ++ b). by rewrite <- !(assoc_L app).
  - destruct (text_breaks_text false false s) eqn:E; [|done]. apply (tbt_app _ _ _ b), (tbt_suffix a _ false false) in E. congruence.
Qed.

Definition keys_of (text : jsstr) (pending : option Z) : list input * StdinBuffer :=
  let '(ks, r) := extractCompleteSequences text in let '(es, p) := emit_all pending ks in (es, idle r (negb (bool_decide (r = []))) p).

Lemma process_keys fuel c r t p : keys_only (r ++ c) -> c <> [] -> process (S fuel) c (idle r t p) = keys_of (r ++ c) p.
Proof.
  intros [Hs Hb] Hc. cbn [process idle buffer pasteMode pasteBuffer pendingKittyPrintableCodepoint]. rewrite (bool_decide_eq_false_2 (c = [])) by done. cbn [andb].
  apply indexOf_None in Hs. rewrite Hs. unfold isRawMultilinePaste. rewrite Hb. by destruct (bool_decide (ESC ∈ _)).
Qed.

(** C40. The keys do not depend on how the input was cut: chunks that arrive in time, of a text of keys, give the keys of
    the whole text, each once and in order, and leave what the whole text would leave. *)
Theorem keys_chunked (chunks : list jsstr) (pending : option Z) (Hne : Forall (fun c => c <> []) chunks) (Hkeys : keys_only (concat chunks)) :
  feed chunks (idle [] false pending) = keys_of (concat chunks) pending.
Proof.
  enough (H : forall r p, extractCompleteSequences r = ([], r) -> keys_only (r ++ concat chunks) -> Forall (fun c => c <> []) chunks ->
    feed chunks (idle r (negb (bool_decide (r = []))) p) = keys_of (r ++ concat chunks) p) by exact (H [] pending eq_refl Hkeys Hne).
  clear. induction chunks as [|c cs IH]; intros r p Hr Hk Hne.
  - cbn [feed concat]. rewrite app_nil_r. unfold keys_of. rewrite Hr. done.
  - apply list.Forall_cons in Hne as [Hc Hne]. cbn [feed concat] in *. unfold process_data. cbn [input_text].
    rewrite process_keys by (done || (apply (keys_only_part [] (r ++ c) (concat cs)); by rewrite <- (assoc_L app))).
    unfold keys_of at 1. pose proof (extract_app (r ++ c) (concat cs)) as Ha. pose proof (extract_spec (r ++ c)) as (Hcut & Hks & Hr'). pose proof (extract_app (r ++ c) []) as Hr2.
    destruct (extractCompleteSequences (r ++ c)) as [ks r1] eqn:E1. cbn [fst snd] in *.
    assert (He : extractCompleteSequences r1 = ([], r1)).
    { rewrite !app_nil_r, E1 in Hr2. injection Hr2 as Hks2 Hr2. rewrite <- (app_nil_r ks) in Hks2 at 1. apply app_inv_head in Hks2.
      destruct (extractCompleteSequences r1) as [k2 r2]. cbn in *. congruence. }
    destruct (emit_all p ks) as [es p1] eqn:Ee. rewrite IH; [|done| |done].
    + unfold keys_of. rewrite (assoc_L app), Ha. destruct (extractCompleteSequences (r1 ++ concat cs)) as [ks2 r2]. cbn [fst snd]. rewrite emit_all_app, Ee.
      by destruct (emit_all p1 ks2).
    + apply (keys_only_part (concat ks) (r1 ++ concat cs) []). by rewrite app_nil_r, (assoc_L app), Hcut, <- (assoc_L app).
Qed.

(** ** Pastes *)

Lemma end_stands p i : ~ contains BRACKETED_PASTE_END p -> stands_at BRACKETED_PASTE_END (p ++ BRACKETED_PASTE_END) i -> i = length p.
Proof.
  intros Hno (a & b & He & <-). pose proof (f_equal length He) as Hlen. rewrite !length_app in Hlen. change (length BRACKETED_PASTE_END) with 6%nat in Hlen.
  destruct (decide (length a = length p)) as [|Hne]; [done|]. exfalso. destruct (decide (length a + 6 <= length p)%nat) as [Hle|Hgt].
  - apply Hno. exists a, (take (length p - length a - 6) b). apply (f_equal (take (length p))) in He. rewrite take_app_length in He. rewrite He at 1.
    rewrite take_app_ge by lia. f_equal. rewrite take_app_ge by (simpl; lia). done.
  - assert (Hx : (p ++ BRACKETED_PASTE_END) !! length p = BRACKETED_PASTE_END !! 0%nat) by (rewrite lookup_app_r by lia; by rewrite Nat.sub_diag). rewrite He in Hx.
    rewrite lookup_app_r in Hx by lia. rewrite lookup_app_l in Hx by (simpl; lia).
    assert (Hk : exists k, (length p - length a = S k /\ k < 5)%nat) by (exists (pred (length p - length a)); lia). destruct Hk as (k & Hk & Hk5). rewrite Hk in Hx.
    destruct k as [|[|[|[|[|k]]]]]; [done..|lia].
Qed.

Lemma end_found p : ~ contains BRACKETED_PASTE_END p -> indexOf BRACKETED_PASTE_END (p ++ BRACKETED_PASTE_END) = Some (length p).
Proof.
  intros Hno. destruct (indexOf_first BRACKETED_PASTE_END p []) as (i & Hi & _). rewrite app_nil_r in Hi. rewrite Hi. f_equal. by apply end_stands, indexOf_Some.
Qed.
Lemma end_not_yet p q z : ~ contains BRACKETED_PASTE_END p -> q ++ z = p ++ BRACKETED_PASTE_END -> z <> [] -> indexOf BRACKETED_PASTE_END q = None.
Proof.
  intros Hno He Hz. apply indexOf_None. intros (a & b & ->). pose proof (f_equal length He) as Hlen. rewrite !length_app in Hlen.
  assert (Ha : length a = length p) by (apply end_stands; [done|]; exists a, (b ++ z); split; [|done]; by rewrite <- He, <- !(assoc_L app)).
  destruct z; [done|]. simpl in Hlen. lia.
Qed.

Definition on_paste (text : jsstr) (pending : option Z) : StdinBuffer :=
  {| buffer := []; timeout := false; pasteMode := true; pasteBuffer := text; pendingKittyPrintableCodepoint := pending |}.

(** The text of a paste so far, from the start of a call. *)
Lemma process_paste fuel c q pend : c <> [] -> process (S fuel) c (on_paste q pend) =
  match indexOf BRACKETED_PASTE_END (q ++ c) with
  | Some i => let remaining := drop (i + 6) (q ++ c) in
              let '(es, b) := match remaining with [] => ([], idle [] false None) | _ => process fuel remaining (idle [] false None) end in
              (Paste (take i (q ++ c)) :: es, b)
  | None => ([], on_paste (q ++ c) pend)
  end.
Proof. intros Hc. cbn [process on_paste buffer pasteMode pasteBuffer pendingKittyPrintableCodepoint]. rewrite (bool_decide_eq_false_2 (c = [])) by done. done. Qed.

Lemma process_start fuel c r t q pend : r ++ c = BRACKETED_PASTE_START ++ q -> c <> [] -> process (S fuel) c (idle r t pend) =
  match indexOf BRACKETED_PASTE_END q with
  | Some i => let remaining := drop (i + 6) q in
              let '(es, b) := match remaining with [] => ([], idle [] false None) | _ => process fuel remaining (idle [] false None) end in
              (Paste (take i q) :: es, b)
  | None => ([], on_paste q None)
  end.
Proof.
  intros He Hc. cbn [process idle buffer pasteMode pasteBuffer pendingKittyPrintableCodepoint]. rewrite (bool_decide_eq_false_2 (c = [])) by done. cbn [andb].
  rewrite He. assert (Hi : indexOf BRACKETED_PASTE_START (BRACKETED_PASTE_START ++ q) = Some 0%nat).
  { destruct (indexOf_first BRACKETED_PASTE_START [] q) as (i & Hi & Hle). cbn [app length] in *. rewrite Hi. f_equal. lia. }
  rewrite Hi. change (drop (0 + length BRACKETED_PASTE_START) (BRACKETED_PASTE_START ++ q)) with q.
  change (extractCompleteSequences (take 0 (BRACKETED_PASTE_START ++ q))) with (@nil jsstr, @nil N). cbn [fst emit_all].
  change (length BRACKETED_PASTE_END) with 6%nat. destruct (indexOf _ q); [|done]. cbv zeta. by destruct (match drop _ q with [] => _ | _ => _ end).
Qed.

Lemma paste_rest p cs : ~ contains BRACKETED_PASTE_END p -> forall q pend, q ++ concat cs = p ++ BRACKETED_PASTE_END -> concat cs <> [] -> Forall (fun c => c <> []) cs ->
  feed cs (on_paste q pend) = ([Paste p], idle [] false None).
Proof.
  intros Hno. induction cs as [|c cs IH]; intros q pend He Hz Hne; [done|]. apply list.Forall_cons in Hne as [Hc Hne]. cbn [feed concat] in *. unfold process_data. cbn [input_text].
  rewrite process_paste by done. rewrite (assoc_L app) in He. destruct (decide (concat cs = [])) as [Hn|Hn].
  - rewrite Hn, app_nil_r in He. rewrite He, end_found by done. cbv zeta. rewrite drop_ge by (rewrite length_app; simpl; lia).
    rewrite take_app_length. destruct cs as [|c' cs]; [done|]. apply list.Forall_cons in Hne as [Hc' _]. by destruct c'.
  - rewrite (end_not_yet p _ _ Hno He Hn). by rewrite (IH _ _ He Hn Hne).
Qed.

Lemma prefix_waits k pend fuel c : (k <= 5)%nat -> (1 <= k)%nat -> forall r t, r ++ c = take k BRACKETED_PASTE_START -> c <> [] ->
  process (S fuel) c (idle r t pend) = ([], idle (take k BRACKETED_PASTE_START) true pend).
Proof.
  intros Hk Hk1 r t He Hc. cbn [process idle buffer pasteMode pasteBuffer pendingKittyPrintableCodepoint]. rewrite (bool_decide_eq_false_2 (c = [])) by done. cbn [andb].
  rewrite He. destruct k as [|[|[|[|[|[|k]]]]]]; [lia|reflexivity..|lia].
Qed.

(** A paste is delivered once, and unchanged, however its markers and its text were cut into chunks. *)
Theorem paste_delivered (chunks : list jsstr) (p : jsstr) (pending : option Z) (Hne : Forall (fun c => c <> []) chunks)
    (Htext : concat chunks = BRACKETED_PASTE_START ++ p ++ BRACKETED_PASTE_END) (Hend : ~ contains BRACKETED_PASTE_END p) :
  feed chunks (idle [] false pending) = ([Paste p], idle [] false None).
Proof.
  enough (H : forall k t, (k <= 5)%nat -> take k BRACKETED_PASTE_START ++ concat chunks = BRACKETED_PASTE_START ++ p ++ BRACKETED_PASTE_END ->
    feed chunks (idle (take k BRACKETED_PASTE_START) t pending) = ([Paste p], idle [] false None)) by by apply (H 0%nat false); [lia|].
  clear Htext. induction chunks as [|c cs IH]; intros k t Hk He.
  { cbn [concat] in He. rewrite app_nil_r in He. apply (f_equal length) in He. rewrite length_take, !length_app in He. simpl in He. lia. }
  apply list.Forall_cons in Hne as [Hc Hne]. cbn [feed concat] in *. unfold process_data. cbn [input_text]. rewrite (assoc_L app) in He.
  set (w := take k BRACKETED_PASTE_START ++ c) in *. assert (Hw : (k < length w)%nat).
  { unfold w. rewrite length_app, length_take. destruct c; [done|]. simpl. lia. }
  destruct (decide (length w <= 5)%nat) as [Hl|Hl].
  - assert (Hwk : w = take (length w) BRACKETED_PASTE_START).
    { apply (f_equal (take (length w))) in He. rewrite take_app_length, take_app_le in He by (simpl; lia). done. }
    rewrite (prefix_waits (length w) pending (length c) c Hl ltac:(lia) _ t Hwk Hc). rewrite Hwk in He. by rewrite (IH Hne (length w) true Hl He).
  - assert (Hq : exists q, w = BRACKETED_PASTE_START ++ q).
    { exists (drop 6 w). apply (f_equal (take 6)) in He. rewrite take_app_le in He by lia. change (take 6 (BRACKETED_PASTE_START ++ _)) with BRACKETED_PASTE_START in He. by rewrite <- He, take_drop. }
    destruct Hq as (q & Hq). rewrite (process_start (length c) c _ t q pending Hq Hc). rewrite Hq, <- (assoc_L app) in He. apply app_inv_head in He.
    destruct (decide (concat cs = [])) as [Hn|Hn].
    + rewrite Hn, app_nil_r in He. rewrite He, end_found by done. cbv zeta. rewrite drop_ge by (rewrite length_app; simpl; lia). rewrite take_app_length.
      destruct cs as [|c' cs]; [done|]. apply list.Forall_cons in Hne as [Hc' _]. by destruct c'.
    + rewrite (end_not_yet p _ _ Hend He Hn). by rewrite (paste_rest p cs Hend _ _ He Hn Hne).
Qed.

(** ** Examples and witnesses *)

Lemma keys_chunked_witness :
  (Forall (fun c => c <> []) [js "a" ++ [ESC]; js "[A"] /\ keys_only (concat [js "a" ++ [ESC]; js "[A"])) /\
  feed [js "a" ++ [ESC]; js "[A"] (idle [] false None) = ([Data (js "a"); Data (ESC :: js "[A")], idle [] false None).
Proof.
  assert (H : Forall (fun c => c <> []) [js "a" ++ [ESC]; js "[A"] /\ keys_only (concat [js "a" ++ [ESC]; js "[A"])).
  { split; [by repeat constructor|]. split; [apply indexOf_None; vm_compute; reflexivity|vm_compute; reflexivity]. }
  split; [exact H|]. destruct H as [H1 H2]. rewrite (keys_chunked _ None H1 H2). vm_compute. reflexivity.
Defined.

Lemma paste_delivered_witness :
  let chunks := [[ESC; 91]; js "200~one"; [LF]; js "two" ++ [ESC]; js "[201~"] in let p := js "one" ++ [LF] ++ js "two" in
  (Forall (fun c => c <> []) chunks /\ concat chunks = BRACKETED_PASTE_START ++ p ++ BRACKETED_PASTE_END /\ ~ contains BRACKETED_PASTE_END p) /\
  feed chunks new_buffer = ([Paste p], new_buffer).
Proof.
  cbv zeta. set (chunks := [_; _; _; _; _]). set (p := js "one" ++ _).
  assert (H : Forall (fun c => c <> []) chunks /\ concat chunks = BRACKETED_PASTE_START ++ p ++ BRACKETED_PASTE_END /\ ~ contains BRACKETED_PASTE_END p).
  { split; [by repeat constructor|]. split; [vm_compute; reflexivity|]. apply indexOf_None. vm_compute. reflexivity. }
  split; [exact H|]. destruct H as (H1 & H2 & H3). exact (paste_delivered chunks p None H1 H2 H3).
Defined.

(** An escape key right before a paste is lost: what is incomplete before the start of a paste is dropped. *)
Example escape_before_paste_lost :
  feed [[ESC]; BRACKETED_PASTE_START ++ js "x" ++ BRACKETED_PASTE_END] new_buffer = ([Paste (js "x")], new_buffer).
Proof. vm_compute. done. Qed.

(** A key that a terminal reports twice, as a sequence and as a character, is delivered once; typed twice as a character, twice. *)
Example kitty_duplicate :
  (feed [ESC :: js "[97u"; js "a"; js "a"] new_buffer).1 = [Data (ESC :: js "[97u"); Data (js "a")].
Proof. vm_compute. done. Qed.
