(* ===== verification/StateError.v ===== *)
(** * Computations on a state that may throw

    A computation changes a state and gives a value or throws; what it changed before it threw stays changed, as in
    the source. [wp] speaks of both ends at once. *)

From S2P Require Import Prelude.

Definition SE (S E A : Type) : Type := S -> (A + E) * S.

Section computations.
Context {S E : Type}.
Implicit Types (s : S) (e : E).

#[global] Instance se_ret : MRet (SE S E) := fun A a s => (inl a, s).
#[global] Instance se_bind : MBind (SE S E) := fun A B f m s =>
  match m s with (inl a, s') => f a s' | (inr e, s') => (inr e, s') end.

#[global] Instance se_fmap : FMap (SE S E) := fun A B f m s => match m s with (inl a, s') => (inl (f a), s') | (inr e, s') => (inr e, s') end.

Definition raise {A} (e : E) : SE S E A := fun s => (inr e, s).
Definition current : SE S E S := fun s => (inl s, s).
Definition update (f : S -> S) : SE S E unit := fun s => (inl tt, f s).
Definition returning {A} (r : A + E) : SE S E A := fun s => (r, s).
Definition catching {A} (m : SE S E A) (h : E -> SE S E A) : SE S E A := fun s =>
  match m s with (inl a, s') => (inl a, s') | (inr e, s') => h e s' end.
(** [try { m } finally { f }]: what [f] throws replaces the result. *)
Definition ensuring {A} (m : SE S E A) (f : SE S E unit) : SE S E A := fun s =>
  let '(r, s') := m s in match f s' with (inl _, s'') => (r, s'') | (inr e, s'') => (inr e, s'') end.
Fixpoint each {A B} (f : A -> SE S E B) (l : list A) : SE S E (list B) :=
  match l with
  | [] => mret []
  | x :: l => y ← f x; ys ← each f l; mret (y :: ys)
  end.

(** After [m], what [Q] says of its value or [R] of its error. *)
Definition after {A} (m : SE S E A) (Q : A -> S -> Prop) (R : E -> S -> Prop) s : Prop :=
  match m s with (inl a, s') => Q a s' | (inr e, s') => R e s' end.

Lemma after_ret {A} (a : A) (Q : A -> S -> Prop) R s : Q a s -> after (mret a) Q R s.
Proof. done. Qed.
Lemma after_bind {A B} (m : SE S E A) (f : A -> SE S E B) Q R s :
  after m (fun a s' => after (f a) Q R s') R s -> after (m ≫= f) Q R s.
Proof. unfold after, mbind, se_bind. by destruct (m s) as [[a|e] s']. Qed.
Lemma after_mono {A} (m : SE S E A) (Q Q' : A -> S -> Prop) (R R' : E -> S -> Prop) s :
  after m Q R s -> (forall a s', Q a s' -> Q' a s') -> (forall e s', R e s' -> R' e s') -> after m Q' R' s.
Proof. unfold after. destruct (m s) as [[a|e] s']; auto. Qed.
Lemma after_ensuring {A} (m : SE S E A) f Q R s :
  after m (fun a s' => after f (fun _ s'' => Q a s'') R s') (fun e s' => after f (fun _ s'' => R e s'') R s') s -> after (ensuring m f) Q R s.
Proof. unfold after, ensuring. destruct (m s) as [[a|e] s']; destruct (f s') as [[[]|e'] s'']; done. Qed.
Lemma after_catching {A} (m : SE S E A) h Q R s : after m Q (fun e s' => after (h e) Q R s') s -> after (catching m h) Q R s.
Proof. unfold after, catching. destruct (m s) as [[a|e] s']; done. Qed.
Lemma after_eq {A B} (m : SE S E A) (f : A -> SE S E B) Q R s a s' : m s = (inl a, s') -> after (f a) Q R s' -> after (m ≫= f) Q R s.
Proof. unfold after, mbind, se_bind. by intros ->. Qed.
Lemma after_returning {A B} (r : A + E) (f : A -> SE S E B) Q R s :
  (forall a, r = inl a -> after (f a) Q R s) -> (forall e, r = inr e -> R e s) -> after (returning r ≫= f) Q R s.
Proof. unfold after, returning, mbind, se_bind. destruct r as [a|e]; intros H1 H2; [by apply H1|by apply H2]. Qed.
(** A loop, with what holds after the elements done so far. *)
Lemma after_each {A B} (f : A -> SE S E B) (J : list A -> list B -> S -> Prop) (R : E -> S -> Prop) l s :
  J [] [] s -> (forall done ys x s, x ∈ l -> J done ys s -> after (f x) (fun y s' => J (done ++ [x]) (ys ++ [y]) s') R s) -> after (each f l) (J l) R s.
Proof.
  intros H0 Hf. enough (H : forall todo done ys s, l = done ++ todo -> J done ys s -> after (each f todo) (fun zs => J l (ys ++ zs)) R s) by exact (H l [] [] s eq_refl H0).
  induction todo as [|x todo IH]; intros done ys s' Hl HJ; cbn [each].
  - apply after_ret. rewrite app_nil_r in *. by subst.
  - apply after_bind. eapply after_mono; [apply (Hf done ys); [rewrite Hl; apply elem_of_app; right; by left|done]| |done]. intros y s1 H1.
    apply after_bind. eapply after_mono; [apply (IH (done ++ [x]) (ys ++ [y])); [by rewrite <- (assoc_L app)|done]| |done].
    intros zs s2 H2. cbn beta in H2. apply after_ret. by rewrite <- (assoc_L app) in H2.
Qed.
Lemma after_run {A} (m : SE S E A) Q R s r s' : after m Q R s -> m s = (r, s') -> match r with inl a => Q a s' | inr e => R e s' end.
Proof. unfold after. intros H E0. rewrite E0 in H. by destruct r. Qed.
End computations.
