(* ===== verification/CronSchedule.v ===== *)
(** * Schedules of jobs (core/cron-jobs.ts)

    When a scheduled job runs next: after a while, at an instant, at an interval, or at the minutes of a cron expression
    in the local time of the machine.

    A time zone is a list of transitions, data of the system; the conversions between instants and wall clock readings,
    and the calendar, are those of the language. [date_of_text], the reading of a free text as a date, is left to the
    implementation of the language and is a parameter.

    [next_run_first] says that a cron expression gives the first minute on the wall clock that matches, and is found
    whenever there is one in a year; [field_values] which values a field of an expression names. *)

(* Source aliases:
   CJ = src/packages/coding-agent/src/core/cron-jobs.ts *)

From S2P Require Import Prelude JsString JsNumber.
Local Open Scope Z_scope.

(** ** Dates *)

(** A date object: milliseconds since 1970, or invalid beyond 100 million days. *)
Definition time_clip (t : Z) : option Z := if Z.abs t <=? 8640000000000000 then Some t else None.

(** The offset of local time, and the instants at which it changes, with the offset from then on. *)
Record zone := { first_offset : Z; transitions : list (Z * Z) }.

Fixpoint offset_from (o : Z) (ts : list (Z * Z)) (t : Z) : Z :=
  match ts with
  | (i, o') :: ts => if t <? i then o else offset_from o' ts t
  | [] => o
  end.
(** The instant of a reading of the wall clock: of a reading that comes twice the first, and of one that is skipped what it
    would be without the transition. *)
Fixpoint utc_from (o : Z) (ts : list (Z * Z)) (l : Z) : Z :=
  match ts with
  | (i, o') :: ts => if l - o <? Z.max i (i + (o' - o)) then l - o else utc_from o' ts l
  | [] => l - o
  end.

(** The calendar of the language, for days since 1970: the year of a day is the last that begins before it. *)
Definition DayFromYear (y : Z) : Z := 365 * (y - 1970) + (y - 1969) / 4 - (y - 1901) / 100 + (y - 1601) / 400.
Definition YearFromDay (day : Z) : Z :=
  let y := 1970 + 400 * day / 146097 in
  if day <? DayFromYear y then y - 1 else if DayFromYear (y + 1) <=? day then y + 1 else y.
Definition month_lengths (y : Z) : list Z :=
  [31; DayFromYear (y + 1) - DayFromYear y - 337; 31; 30; 31; 30; 31; 31; 30; 31; 30; 31].
(** The month, from 0, and the date, from 1, of the day [day] of a year. *)
Fixpoint month_and_date (lengths : list Z) (month day : Z) : Z * Z :=
  match lengths with
  | n :: lengths => if day <? n then (month, day + 1) else month_and_date lengths (month + 1) (day - n)
  | [] => (month, day + 1)
  end.
Definition MonthAndDate (day : Z) : Z * Z := let y := YearFromDay day in month_and_date (month_lengths y) 0 (day - DayFromYear y).

Section time.
Context (z : zone).

Definition local (t : Z) : Z := t + offset_from (first_offset z) (transitions z) t.
Definition utc (l : Z) : Z := utc_from (first_offset z) (transitions z) l.

Definition getMinutes (t : Z) : Z := local t / 60000 mod 60.
Definition getHours (t : Z) : Z := local t / 3600000 mod 24.
Definition getDay (t : Z) : Z := (local t / 86400000 + 4) mod 7.
Definition getDate (t : Z) : Z := (MonthAndDate (local t / 86400000)).2.
Definition getMonth (t : Z) : Z := (MonthAndDate (local t / 86400000)).1.
(** [setSeconds(0, 0)] and [setMinutes(getMinutes() + n)]. *)
Definition setSeconds00 (t : Z) : option Z := time_clip (utc (local t - local t mod 60000)).
Definition addMinutes (n t : Z) : option Z := time_clip (utc (local t + n * 60000)).
End time.

(** ** Cron expressions *)

Local Notation "'ok' x ':=' r 'in' k" := (match r with inl x => k | inr e => inr e end) (at level 200, x name, r at level 100, k at level 200).

(** CJ 107-107 ONE_SECOND_MS. *)
Definition ONE_SECOND_MS : Z := 1000.
(** CJ 108-108 ONE_MINUTE_MS. *)
Definition ONE_MINUTE_MS : Z := 60000.

Definition decimal (s : jsstr) : bool := negb (bool_decide (s = [])) && forallb is_digit s.

(** CJ 1436-1445 parseCronNumber. *)
Definition parseCronNumber (value : option jsstr) (min max : Z) : Z + jsstr :=
  match value with
  | Some v =>
      if negb (decimal v) then inr (js "Invalid cron number: " ++ v)
      else
        let parsed := digits_value 10 dec_digit v in
        if (parsed <? min) || (max <? parsed) then inr (js "Cron number out of range: " ++ v) else inl parsed
  | None => inr (js "Invalid cron number: ")
  end.

(** CJ 1412-1429 parseCronField. The first and the last value a part names. *)
Definition part_range (rangeText : jsstr) (min max : Z) : Z * Z + jsstr :=
  if jseqb rangeText (js "*") then inl (min, max)
  else if includes (js "-") rangeText then
    let ends := split_on 45 rangeText in
    ok start := parseCronNumber (ends !! 0%nat) min max in
    ok stop := parseCronNumber (ends !! 1%nat) min max in
    if stop <? start then inr (js "Invalid cron range: " ++ rangeText) else inl (start, stop)
  else
    ok start := parseCronNumber (Some rangeText) min max in
    inl (start, start).
(** CJ 1430-1432 parseCronField. *)
Definition stepped (start stop step : Z) : list Z := (fun k => start + step * k) <$> seqZ 0 ((stop - start) / step + 1).
(** CJ 1407-1432 parseCronField. One part of a field. *)
Definition parse_part (field part : jsstr) (min max : Z) : list Z + jsstr :=
  if bool_decide (part = []) then inr (js "Invalid cron field: " ++ field)
  else
    let texts := split_on 47 part in
    ok step := match texts !! 1%nat with None => inl 1 | Some stepText => parseCronNumber (Some stepText) 1 max end in
    ok range := part_range (default [] (texts !! 0%nat)) min max in
    inl (stepped range.1 range.2 step).
Fixpoint parse_parts (field : jsstr) (parts : list jsstr) (min max : Z) : list Z + jsstr :=
  match parts with
  | [] => inl []
  | part :: rest =>
      ok values := parse_part field part min max in
      ok others := parse_parts field rest min max in
      inl (values ++ others)
  end.
(** CJ 1405-1434 parseCronField. The set of values as a list. *)
Definition parseCronField (field : jsstr) (min max : Z) : list Z + jsstr := parse_parts field (split_on 44 field) min max.

(** CJ 1397-1403 CronFields. *)
Record CronFields := { minute : list Z; hour : list Z; dayOfMonth : list Z; month : list Z; dayOfWeek : list Z }.

(** [text.split(/\s+/)] of a text without white space at its ends. *)
Fixpoint words (s : jsstr) : list jsstr :=
  match s with
  | [] => [[]]
  | u :: s' =>
      if is_space u then match s' with v :: _ => if is_space v then words s' else [] :: words s' | [] => [[]; []] end
      else match words s' with w :: ws => (u :: w) :: ws | [] => [[u]] end
  end.

(** CJ 1381-1395 parseCronExpression. *)
Definition parseCronExpression (expression : jsstr) : CronFields + jsstr :=
  match words (trim expression) with
  | [p0; p1; p2; p3; p4] =>
      ok f0 := parseCronField p0 0 59 in
      ok f1 := parseCronField p1 0 23 in
      ok f2 := parseCronField p2 1 31 in
      ok f3 := parseCronField p3 1 12 in
      ok f4 := parseCronField p4 0 7 in
      inl {| minute := f0; hour := f1; dayOfMonth := f2; month := f3; dayOfWeek := f4 |}
  | _ => inr (js "Unsupported cron schedule. Use 'in 10m', 'at <ISO date>', @hourly, or five fields: minute hour day month weekday")
  end.

(** ** The next run *)

Section runs.
Context (z : zone).

(** CJ 1447-1457 matchesCronFields. *)
Definition matchesCronFields (date : Z) (fields : CronFields) : bool :=
  let day := getDay z date in
  let dayMatches := bool_decide (day ∈ dayOfWeek fields) || bool_decide (day = 0) && bool_decide (7 ∈ dayOfWeek fields) in
  bool_decide (getMinutes z date ∈ minute fields) && bool_decide (getHours z date ∈ hour fields) &&
  bool_decide (getDate z date ∈ dayOfMonth fields) && bool_decide (getMonth z date + 1 ∈ month fields) && dayMatches.

(** CJ 1371-1377 nextCronRunAfter. The loop. *)
Fixpoint first_match (fuel : nat) (fields : CronFields) (deadline : Z) (candidate : option Z) : option Z :=
  match fuel, candidate with
  | S fuel, Some c =>
      if deadline <? c then None
      else if matchesCronFields c fields then Some c
      else first_match fuel fields deadline (addMinutes z 1 c)
  | _, _ => None
  end.
Definition year_span : Z := 366 * 24 * 60 * ONE_MINUTE_MS.

(** CJ 1365-1379 nextCronRunAfter. The fuel is one turn for each minute up to the deadline. *)
Definition nextCronRunAfter (expression : jsstr) (after : Z) : Z + jsstr :=
  ok fields := parseCronExpression expression in
  let candidate := setSeconds00 z after ≫= addMinutes z 1 in
  match candidate ≫= (fun c => first_match (S (Z.to_nat (366 * 24 * 60))) fields (c + year_span) candidate) with
  | Some t => inl t
  | None => inr (js "Cron schedule did not match within one year: " ++ expression)
  end.

(** ** Schedules *)

(** CJ 9-9 AgentCronScheduleKind. *)
Inductive AgentCronScheduleKind := Once | Cron | Interval.
#[export] Instance AgentCronScheduleKind_eq_dec : EqDecision AgentCronScheduleKind.
Proof. solve_decision. Defined.
(** CJ 21-25 AgentCronSchedule. *)
Record AgentCronSchedule := { s_kind : AgentCronScheduleKind; s_expression : jsstr; intervalMs : option Z }.
#[export] Instance AgentCronSchedule_eq_dec : EqDecision AgentCronSchedule.
Proof. solve_decision. Defined.

(** CJ 1220-1231 nextRunAtForSchedule. [None] for a schedule without a next run; a date may be invalid. *)
Definition nextRunAtForSchedule (schedule : AgentCronSchedule) (after : Z) : option (option Z) + jsstr :=
  match s_kind schedule with
  | Once => inl None
  | Interval =>
      let ms := default 0 (intervalMs schedule) in
      if ms <=? 0 then inr (js "Invalid interval schedule: " ++ s_expression schedule) else inl (Some (time_clip (after + ms)))
  | Cron => ok t := nextCronRunAfter (s_expression schedule) after in inl (Some (Some t))
  end.

(** CJ 1459-1472 normalizeCronAlias. *)
Definition normalizeCronAlias (text : jsstr) : jsstr :=
  if jseqb text (js "@hourly") then js "0 * * * *"
  else if jseqb text (js "@daily") then js "0 0 * * *"
  else if jseqb text (js "@weekly") then js "0 0 * * 0"
  else if jseqb text (js "@monthly") then js "0 0 1 * *"
  else text.

(** CJ 1474-1482 stripMatchingQuotes. *)
Definition stripMatchingQuotes (value : jsstr) : jsstr :=
  let quoted (q : N) := bool_decide (head value = Some q) && bool_decide (last value = Some q) in
  if Nat.leb 2 (length value) && (quoted 34%N || quoted 39%N) then removelast (drop 1 value) else value.

(** What a pattern like [/^in\s+(\d+)\s*(m|min)$/i] reads, for the words that may begin it and the units that may end it. *)
Definition read_amount (keywords units : list jsstr) (text : jsstr) : option (Z * jsstr) :=
  let '(keyword, rest) := span (fun u => negb (is_space u)) text in
  let '(spaces, rest) := span is_space rest in
  let '(ds, rest) := span is_digit rest in
  let unit := lower1 <$> trim_start rest in
  if bool_decide ((lower1 <$> keyword) ∈ keywords) && negb (bool_decide (spaces = [])) && negb (bool_decide (ds = [])) && bool_decide (unit ∈ units)
  then Some (digits_value 10 dec_digit ds, unit) else None.
Definition second_units : list jsstr := js <$> ["s"; "sec"; "secs"; "second"; "seconds"]%string.
Definition minute_units : list jsstr := js <$> ["m"; "min"; "mins"; "minute"; "minutes"]%string.
Definition hour_units : list jsstr := js <$> ["h"; "hr"; "hrs"; "hour"; "hours"]%string.
Definition day_units : list jsstr := js <$> ["d"; "day"; "days"]%string.

Context (date_of_text : jsstr -> option Z).

(** CJ 1070-1130 parseAgentCronSchedule. *)
Definition parseAgentCronSchedule (input : jsstr) (now : Z) : AgentCronSchedule * option Z + jsstr :=
  let text := stripMatchingQuotes (trim input) in
  let once at_ := ({| s_kind := Once; s_expression := text; intervalMs := None |}, at_) in
  if bool_decide (text = []) then inr (js "Cron schedule cannot be empty")
  else match read_amount [js "in"] (minute_units ++ hour_units ++ day_units) text with
  | Some (amount, unit) =>
      let multiplier := if starts_with (js "m") unit then ONE_MINUTE_MS else if starts_with (js "h") unit then 60 * ONE_MINUTE_MS else 24 * 60 * ONE_MINUTE_MS in
      inl (once (time_clip (now + amount * multiplier)))
  | None =>
  match read_amount [js "every"; js "each"] (second_units ++ minute_units ++ hour_units) text with
  | Some (amount, unit) =>
      let multiplier := if starts_with (js "s") unit then ONE_SECOND_MS else if starts_with (js "m") unit then ONE_MINUTE_MS else 60 * ONE_MINUTE_MS in
      let ms := amount * multiplier in
      if ms <? 10 * ONE_SECOND_MS then inr (js "Recurring interval must be at least 10 seconds")
      else inl ({| s_kind := Interval; s_expression := text; intervalMs := Some ms |}, time_clip (now + ms))
  | None =>
      if starts_with (js "at ") (lower1 <$> text) then
        match date_of_text (trim (drop 3 text)) with
        | None => inr (js "Invalid one-shot schedule. Use: at <ISO date>")
        | Some at_ => if at_ <=? now then inr (js "One-shot schedule must be in the future") else inl (once (Some at_))
        end
      else
        let expression := normalizeCronAlias text in
        ok nextRunAt := nextCronRunAfter expression now in
        inl ({| s_kind := Cron; s_expression := expression; intervalMs := None |}, Some nextRunAt)
  end end.
End runs.

(** ** The calendar *)

Lemma YearFromDay_spec day : DayFromYear (YearFromDay day) <= day < DayFromYear (YearFromDay day + 1).
Proof.
  unfold YearFromDay. set (y := 1970 + 400 * day / 146097). assert (Hy : DayFromYear (y - 1) <= day < DayFromYear (y + 2)).
  { unfold DayFromYear, y. split; Z.to_euclidean_division_equations; lia. }
  destruct (Z.ltb_spec day (DayFromYear y)); [by replace (y - 1 + 1) with y by lia; lia|].
  destruct (Z.leb_spec (DayFromYear (y + 1)) day); [replace (y + 1 + 1) with (y + 2) by lia; lia|lia].
Qed.

Example calendar_ex : (YearFromDay 19782, MonthAndDate 19782, MonthAndDate (-1), MonthAndDate 11016) = (2024, (1, 29), (11, 31), (1, 29)).
Proof. reflexivity. Qed.

(** ** Time zones *)

(** Offsets of at most a day and transitions at full minutes, at least four days apart. *)
Definition offset_ok (o : Z) : Prop := Z.abs o <= 86400000 /\ o mod 60000 = 0.
Fixpoint transitions_ok (ts : list (Z * Z)) : Prop :=
  match ts with
  | (i, o) :: ts => i mod 60000 = 0 /\ offset_ok o /\ match ts with (i', _) :: _ => i + 345600000 <= i' | [] => True end /\ transitions_ok ts
  | [] => True
  end.
Definition zone_ok (z : zone) : Prop := offset_ok (first_offset z) /\ transitions_ok (transitions z).

(** The first instant from [t] on at which the wall clock is not set back: it shows a reading for the first time. *)
Fixpoint shown_from (o : Z) (ts : list (Z * Z)) (t : Z) : Z :=
  match ts with
  | (i, o') :: ts => if t <? i then t else if t <? i + (o - o') then i + (o - o') else shown_from o' ts t
  | [] => t
  end.
Definition shown (z : zone) (t : Z) : Z := shown_from (first_offset z) (transitions z) t.

Section zones.
Implicit Types (o i t l : Z) (ts : list (Z * Z)).

Lemma offset_from_ok o ts t : offset_ok o -> transitions_ok ts -> offset_ok (offset_from o ts t).
Proof.
  revert o. induction ts as [|[i o'] ts IH]; intros o Ho Ht; [done|]. destruct Ht as (_ & Ho' & _ & Ht). cbn [offset_from].
  destruct (t <? i); [done|]. by apply IH.
Qed.

(** After a transition the clock is past what it showed at it. *)
Lemma past_transition i o o' ts t : offset_ok o -> transitions_ok ((i, o') :: ts) -> i <= t -> i + (o - o') <= t ->
  Z.max i (i + (o' - o)) <= t + offset_from o' ts t - o.
Proof.
  intros Ho (_ & Ho' & Hgap & Ht) Hi Hr. destruct ts as [|[i2 o2] ts]; [cbn; lia|].
  pose proof (offset_from_ok o' ((i2, o2) :: ts) t Ho' Ht) as [Hb _]. destruct Ho as [Ho _]. destruct Ho' as [Ho' _]. cbn [offset_from] in *. destruct (Z.ltb_spec t i2); lia.
Qed.

Lemma shown_le o ts t : t <= shown_from o ts t.
Proof. revert o. induction ts as [|[i o'] ts IH]; intros o; cbn [shown_from]; [lia|]. destruct (Z.ltb_spec t i); [lia|]. destruct (Z.ltb_spec t (i + (o - o'))); [lia|apply IH]. Qed.

Lemma utc_shown o ts t : offset_ok o -> transitions_ok ts -> shown_from o ts t = t -> utc_from o ts (t + offset_from o ts t) = t.
Proof.
  revert o. induction ts as [|[i o'] ts IH]; intros o Ho Ht Hs; cbn [shown_from utc_from offset_from] in *; [lia|].
  destruct (Z.ltb_spec t i). { rewrite (proj2 (Z.ltb_lt _ _)) by lia. lia. }
  destruct (Z.ltb_spec t (i + (o - o'))); [lia|]. pose proof (past_transition _ _ _ _ _ Ho Ht H H0) as Hp. rewrite (proj2 (Z.ltb_ge _ _)) by lia.
  apply IH; [apply Ht|apply Ht|done].
Qed.

Lemma aligned_lt a b : a mod 60000 = 0 -> b mod 60000 = 0 -> a < b -> a + 60000 <= b.
Proof. intros Ha Hb Hl. apply Z.mod_divide in Ha as [x ->]; [|lia]. apply Z.mod_divide in Hb as [y ->]; [|lia]. lia. Qed.

Lemma cron_before_next i o ts t : transitions_ok ((i, o) :: ts) -> t < i + 345600000 -> offset_from o ts t = o /\ shown_from o ts t = t.
Proof. intros (_ & _ & Hgap & _) Ht. destruct ts as [|[i2 o2] ts]; [done|]. cbn. by rewrite (proj2 (Z.ltb_lt t i2)) by lia. Qed.

Lemma utc_minute o ts t : offset_ok o -> transitions_ok ts -> t mod 60000 = 0 -> shown_from o ts t = t ->
  utc_from o ts (t + offset_from o ts t + 60000) = shown_from o ts (t + 60000).
Proof.
  revert o. induction ts as [|[i o'] ts IH]; intros o Ho Ht Ha Hs; cbn [shown_from utc_from offset_from] in *; [lia|].
  pose proof Ht as (Hai & Ho' & _ & Ht'). destruct (Z.ltb_spec t i) as [Hi|Hi].
  - pose proof (aligned_lt t i Ha Hai Hi). destruct (Z.ltb_spec (t + 60000) i) as [Hn|Hn].
    + rewrite (proj2 (Z.ltb_lt _ _)) by lia. lia.
    + assert (t = i - 60000) as -> by lia. replace (i - 60000 + 60000) with i by lia. destruct Ho as [Hb _]. pose proof (proj1 Ho') as Hb'.
      destruct (cron_before_next i o' ts (i + (o - o')) Ht ltac:(lia)) as [Hf1 Hf2]. pose proof (utc_shown o' ts _ Ho' Ht' Hf2) as Hu. rewrite Hf1 in Hu.
      replace (i - 60000 + o + 60000) with (i + (o - o') + o') by lia. destruct (Z.ltb_spec (i + (o - o') + o' - o) (Z.max i (i + (o' - o)))).
      * rewrite (proj2 (Z.ltb_ge _ _)) by lia. rewrite (proj2 (cron_before_next i o' ts i Ht ltac:(lia))). lia.
      * rewrite Hu. destruct (Z.ltb_spec i (i + (o - o'))); [done|]. assert (o = o') as -> by lia. by rewrite Z.sub_diag, Z.add_0_r in *.
  - destruct (Z.ltb_spec t (i + (o - o'))) as [Hr|Hr]; [lia|]. pose proof (past_transition _ _ _ _ _ Ho Ht Hi Hr).
    rewrite !(proj2 (Z.ltb_ge _ _)) by lia. by apply IH.
Qed.

Lemma shown_between o ts t s : offset_ok o -> transitions_ok ts -> t <= s -> s < shown_from o ts t -> shown_from o ts s = shown_from o ts t.
Proof.
  revert o. induction ts as [|[i o'] ts IH]; intros o Ho Ht Hts Hs; cbn [shown_from] in *; [lia|].
  destruct (Z.ltb_spec t i); [lia|]. rewrite (proj2 (Z.ltb_ge s i)) by lia. destruct (Z.ltb_spec t (i + (o - o'))) as [Hr|Hr].
  - by rewrite (proj2 (Z.ltb_lt _ _)) by lia.
  - rewrite (proj2 (Z.ltb_ge _ _)) by lia. apply IH; [apply Ht|apply Ht|done|done].
Qed.
Lemma shown_idem o ts t : offset_ok o -> transitions_ok ts -> shown_from o ts (shown_from o ts t) = shown_from o ts t.
Proof.
  revert o. induction ts as [|[i o'] ts IH]; intros o Ho Ht; cbn [shown_from] in *; [done|].
  destruct (Z.ltb_spec t i) as [Hi|Hi]; [by rewrite (proj2 (Z.ltb_lt t i))|]. destruct (Z.ltb_spec t (i + (o - o'))) as [Hr|Hr].
  - rewrite (proj2 (Z.ltb_ge _ _)) by lia. rewrite Z.ltb_irrefl. destruct Ho as [Hb _]. pose proof Ht as (_ & [Hb' _] & _). by apply (cron_before_next i o' ts _ Ht); lia.
  - pose proof (shown_le o' ts t). rewrite !(proj2 (Z.ltb_ge _ _)) by lia. apply IH; apply Ht.
Qed.
Lemma shown_aligned o ts t : offset_ok o -> transitions_ok ts -> t mod 60000 = 0 -> shown_from o ts t mod 60000 = 0.
Proof.
  revert o. induction ts as [|[i o'] ts IH]; intros o Ho Ht Ha; cbn [shown_from] in *; [done|]. destruct (t <? i); [done|]. destruct (t <? _); [|apply IH; [apply Ht|apply Ht|done]].
  destruct Ht as (Hi & [_ Ho'] & _). destruct Ho as [_ Ho]. rewrite Z.add_mod, Zminus_mod, Hi, Ho, Ho' by lia. done.
Qed.
Lemma shown_minute o ts t : offset_ok o -> transitions_ok ts -> shown_from o ts t = t ->
  shown_from o ts (t - t mod 60000) = t - t mod 60000 /\ offset_from o ts (t - t mod 60000) = offset_from o ts t.
Proof.
  assert (Hlt : forall i, i mod 60000 = 0 -> i <= t -> i <= t - t mod 60000).
  { intros i Hi Hl. pose proof (Z.div_mod t 60000 ltac:(lia)). apply Z.mod_divide in Hi as [k ->]; [|lia]. assert (k <= t / 60000) by (apply Z.div_le_lower_bound; lia). lia. }
  pose proof (Z.mod_pos_bound t 60000 ltac:(lia)) as Hm.
  revert o. induction ts as [|[i o'] ts IH]; intros o Ho Ht Hs; cbn [shown_from offset_from] in *; [done|].
  pose proof Ht as (Hi & Ho' & _ & Ht'). destruct (Z.ltb_spec t i); [by rewrite (proj2 (Z.ltb_lt (t - t mod 60000) i)) by lia|].
  destruct (Z.ltb_spec t (i + (o - o'))); [lia|]. pose proof (Hlt i Hi ltac:(lia)).
  assert (i + (o - o') <= t - t mod 60000). { apply Hlt; [|lia]. destruct Ho as [_ Ho]. destruct Ho' as [_ Ho']. rewrite Z.add_mod, Zminus_mod, Hi, Ho, Ho' by lia. done. }
  rewrite !(proj2 (Z.ltb_ge _ _)) by lia. by apply IH.
Qed.
End zones.

(** ** The next run of an expression *)

Section next.
Context (z : zone) (Hz : zone_ok z).

(** A minute at which the wall clock shows a reading for the first time. *)
Definition fresh_minute (t : Z) : Prop := t mod 60000 = 0 /\ shown z t = t.

Lemma addMinutes_next c : fresh_minute c -> addMinutes z 1 c = time_clip (shown z (c + 60000)).
Proof. intros [Ha Hs]. destruct Hz as [Ho Ht]. unfold addMinutes, local, utc, shown in *. rewrite Z.mul_1_l. by rewrite utc_minute. Qed.

Lemma next_fresh c : fresh_minute c -> let n := shown z (c + 60000) in fresh_minute n /\ c + 60000 <= n /\ (forall s, c < s < n -> ~ fresh_minute s).
Proof.
  intros [Ha Hs]. cbv zeta. destruct Hz as [Ho Ht]. unfold fresh_minute, shown in *. assert (Hm : (c + 60000) mod 60000 = 0) by (rewrite Z.add_mod, Ha by lia; done).
  split_and!; [by apply shown_aligned|by apply shown_idem|apply shown_le|]. intros s Hsn [Has Hss].
  pose proof (aligned_lt c s Ha Has ltac:(lia)). rewrite (shown_between _ _ (c + 60000) s Ho Ht) in Hss by lia. lia.
Qed.

Lemma minute_before t : shown z t = t -> setSeconds00 z t = time_clip (t - t mod 60000) /\ fresh_minute (t - t mod 60000).
Proof.
  intros Hs. destruct Hz as [Ho Ht]. unfold fresh_minute, setSeconds00, local, utc, shown in *. destruct (shown_minute _ _ t Ho Ht Hs) as [H1 H2].
  pose proof (offset_from_ok _ _ t Ho Ht) as [_ Hoff]. set (o := offset_from _ _ t) in *.
  assert (Hm : (t + o) mod 60000 = t mod 60000) by (rewrite Z.add_mod, Hoff, Z.add_0_r, Z.mod_mod by lia; done).
  rewrite Hm. replace (t + o - t mod 60000) with (t - t mod 60000 + offset_from (first_offset z) (transitions z) (t - t mod 60000)) by lia.
  rewrite utc_shown by done. split; [done|split; [|done]]. rewrite Zminus_mod_idemp_r. by rewrite Z.sub_diag.
Qed.

Lemma shown_near t : shown z t <= t + 172800000.
Proof.
  destruct Hz as [Ho Ht]. unfold shown. revert Ho Ht. generalize (first_offset z) (transitions z). intros o ts. revert o.
  induction ts as [|[i o'] ts IH]; intros o Ho Ht; cbn [shown_from]; [lia|]. destruct (Z.ltb_spec t i); [lia|].
  destruct (Z.ltb_spec t (i + (o - o'))); [|apply IH; apply Ht]. destruct Ho as [Ho _]. destruct Ht as (_ & [Ho' _] & _). lia.
Qed.

Lemma time_clip_ok t : Z.abs t <= 8640000000000000 -> time_clip t = Some t.
Proof. intros H. unfold time_clip. by rewrite (proj2 (Z.leb_le _ _)). Qed.

(** The loop finds the first fresh minute that matches, up to the deadline. *)
Lemma first_match_spec fuel fields deadline c : fresh_minute c -> -8640000000000000 <= c -> deadline + 172860000 <= 8640000000000000 ->
  (deadline < c \/ (deadline - c) / 60000 < Z.of_nat fuel) ->
  match first_match z fuel fields deadline (Some c) with
  | Some t => fresh_minute t /\ c <= t <= deadline /\ matchesCronFields z t fields = true /\
              forall s, c <= s < t -> fresh_minute s -> matchesCronFields z s fields = false
  | None => forall s, c <= s <= deadline -> fresh_minute s -> matchesCronFields z s fields = false
  end.
Proof.
  revert c. induction fuel as [|fuel IH]; intros c Hc Hlo Hhi Hfuel; cbn [first_match].
  { intros s Hs. destruct Hfuel as [?|Hfuel]; [lia|]. pose proof (Z.div_pos (deadline - c) 60000). lia. }
  destruct (Z.ltb_spec deadline c) as [Hd|Hd]; [lia|]. destruct (matchesCronFields z c fields) eqn:Em.
  { split_and!; [done|lia|lia|done|]. intros s Hs. lia. }
  destruct (next_fresh c Hc) as (Hn & Hge & Hnone). set (n := shown z (c + 60000)) in *.
  pose proof (shown_near (c + 60000)) as Hnear. fold n in Hnear. rewrite addMinutes_next, time_clip_ok by (done || (fold n; lia)). fold n.
  assert (Hf' : deadline < n \/ (deadline - n) / 60000 < Z.of_nat fuel).
  { right. destruct Hfuel as [?|Hfuel]; [lia|]. replace (deadline - c) with (deadline - c - 60000 + 1 * 60000) in Hfuel by lia. rewrite Z.div_add in Hfuel by lia.
    pose proof (Z.div_le_mono (deadline - n) (deadline - c - 60000) 60000). lia. }
  specialize (IH n Hn ltac:(lia) Hhi Hf').
  assert (Hgap : forall s, c <= s -> fresh_minute s -> s < n -> matchesCronFields z s fields = false).
  { intros s Hs Hfs Hlt. destruct (decide (s = c)) as [->|]; [done|]. exfalso. apply (Hnone s); [lia|done]. }
  destruct (first_match z fuel fields deadline (Some n)) as [t|].
  - destruct IH as (H1 & H2 & H3 & H4). split_and!; [done|lia|lia|done|]. intros s Hs Hfs. destruct (Z.lt_ge_cases s n); [apply Hgap; [lia|done|done]|apply H4; [lia|done]].
  - intros s Hs Hfs. destruct (Z.lt_ge_cases s n); [apply Hgap; [lia|done|done]|apply IH; [lia|done]].
Qed.

(** Where the search begins, and what it gives. *)
Lemma next_run_search expression after : shown z after = after -> Z.abs after <= 8600000000000000 ->
  exists c, after < c /\ (forall s, after < s < c -> ~ fresh_minute s) /\
    nextCronRunAfter z expression after =
      match parseCronExpression expression with
      | inl fields => match first_match z (S (Z.to_nat (366 * 24 * 60))) fields (c + year_span) (Some c) with
                      | Some t => inl t
                      | None => inr (js "Cron schedule did not match within one year: " ++ expression)
                      end
      | inr e => inr e
      end /\
    forall fields, match first_match z (S (Z.to_nat (366 * 24 * 60))) fields (c + year_span) (Some c) with
      | Some t => fresh_minute t /\ c <= t /\ matchesCronFields z t fields = true /\ forall s, c <= s < t -> fresh_minute s -> matchesCronFields z s fields = false
      | None => forall s, c <= s <= c + year_span -> fresh_minute s -> matchesCronFields z s fields = false
      end.
Proof.
  intros Hshown Hdates. pose proof (minute_before after Hshown) as [Hset H0]. pose proof (Z.mod_pos_bound after 60000 ltac:(lia)) as Hb. set (c0 := after - after mod 60000) in *.
  destruct (next_fresh c0 H0) as (Hn & Hge & Hnone). pose proof (shown_near (c0 + 60000)) as Hnear. set (c := shown z (c0 + 60000)) in *.
  exists c. split_and!; [lia|intros s Hs Hf; apply (Hnone s); [lia|done]| |].
  - unfold nextCronRunAfter. rewrite Hset, time_clip_ok by lia. cbn [mbind option_bind]. rewrite (addMinutes_next c0 H0). fold c. by rewrite time_clip_ok by lia.
  - intros fields. assert (Hfuel : c + year_span < c \/ (c + year_span - c) / 60000 < Z.of_nat (S (Z.to_nat (366 * 24 * 60)))).
    { right. replace (c + year_span - c) with (366 * 24 * 60 * 60000) by (unfold year_span, ONE_MINUTE_MS; lia). rewrite Z.div_mul by lia. lia. }
    pose proof (first_match_spec (S (Z.to_nat (366 * 24 * 60))) fields (c + year_span) c Hn ltac:(lia) ltac:(unfold year_span, ONE_MINUTE_MS; lia) Hfuel) as H.
    destruct (first_match z _ fields _ (Some c)); [|exact H]. destruct H as (H1 & H2 & H3 & H4). split_and!; [done|lia|done|done].
Qed.
Lemma next_run_later expression after t : shown z after = after -> Z.abs after <= 8600000000000000 -> nextCronRunAfter z expression after = inl t -> after < t.
Proof.
  intros Hs Hd H. destruct (next_run_search expression after Hs Hd) as (c & Hc & _ & He & Hf). rewrite He in H.
  destruct (parseCronExpression expression) as [fields|]; [|done]. specialize (Hf fields). destruct (first_match z _ fields _ _); [|done]. injection H as <-. lia.
Qed.
End next.

(** A cron expression runs next at the first minute of the wall clock that its fields name; the search finds it when there
    is one in a year, and the time is later than the one it was asked at. *)
Theorem next_run_first (z : zone) (expression : jsstr) (after : Z) (Hz : zone_ok z) (Hshown : shown z after = after)
    (Hdates : Z.abs after <= 8600000000000000) :
  match nextCronRunAfter z expression after with
  | inl t => exists fields, parseCronExpression expression = inl fields /\ after < t /\ fresh_minute z t /\ matchesCronFields z t fields = true /\
      forall s, after < s < t -> fresh_minute z s -> matchesCronFields z s fields = false
  | inr _ => forall fields, parseCronExpression expression = inl fields ->
      forall s, after < s <= after + year_span -> fresh_minute z s -> matchesCronFields z s fields = false
  end.
Proof.
  destruct (next_run_search z Hz expression after Hshown Hdates) as (c & Hc & Hgap & -> & Hf).
  destruct (parseCronExpression expression) as [fields|e]; [|done]. specialize (Hf fields). destruct (first_match z _ fields _ (Some c)) as [t|].
  - destruct Hf as (H1 & H2 & H3 & H4). exists fields. split_and!; [done|lia|done|done|]. intros s Hs Hfs.
    destruct (Z.lt_ge_cases s c); [exfalso; apply (Hgap s); [lia|done]|apply H4; [lia|done]].
  - intros fields' [= <-] s Hs Hfs. destruct (Z.lt_ge_cases s c); [exfalso; apply (Hgap s); [lia|done]|apply Hf; [lia|done]].
Qed.

(** ** What a field names *)

(** A part of a field as the manual of cron writes it. *)
Inductive cron_range := Every | One (a : Z) | Between (a b : Z).
Definition show_nat (n : Z) : jsstr := show_N (Z.to_N n).
Definition show_range (r : cron_range) : jsstr :=
  match r with Every => js "*" | One a => show_nat a | Between a b => show_nat a ++ js "-" ++ show_nat b end.
Definition show_part (p : cron_range * option Z) : jsstr :=
  show_range p.1 ++ match p.2 with Some step => js "/" ++ show_nat step | None => [] end.
Definition range_ends (min max : Z) (r : cron_range) : Z * Z := match r with Every => (min, max) | One a => (a, a) | Between a b => (a, b) end.
Definition part_ok (min max : Z) (p : cron_range * option Z) : Prop :=
  let '(a, b) := range_ends min max p.1 in min <= a /\ a <= b /\ b <= max /\ match p.2 with Some step => 1 <= step <= max | None => True end.
(** The values a part names: every [step]th one from the first to the last. *)
Definition names (min max : Z) (p : cron_range * option Z) (v : Z) : Prop :=
  let '(a, b) := range_ends min max p.1 in a <= v <= b /\ (v - a) mod default 1 p.2 = 0.

Lemma elem_of_stepped a b step v : 1 <= step -> v ∈ stepped a b step <-> a <= v <= b /\ (v - a) mod step = 0.
Proof.
  intros Hs. unfold stepped. rewrite list_elem_of_fmap. split.
  - intros (k & -> & Hk). apply elem_of_seqZ in Hk. assert (k <= (b - a) / step) by lia.
    pose proof (Z.mul_div_le (b - a) step ltac:(lia)). split; [nia|]. replace (a + step * k - a) with (k * step) by lia. apply Z.mod_mul. lia.
  - intros [Hr Hm]. apply Z.mod_divide in Hm as [k Hk]; [|lia]. exists k. split; [lia|]. apply elem_of_seqZ.
    assert (k <= (b - a) / step) by (apply Z.div_le_lower_bound; nia). nia.
Qed.

Lemma show_nat_digits n : Forall (fun u => is_digit u = true) (show_nat n).
Proof. apply list.Forall_forall. intros u Hu. destruct (show_N_digits (Z.to_N n)) as [_ Hd]. rewrite forallb_forall in Hd. by apply Hd, list_elem_of_In. Qed.
Lemma show_nat_no c n : is_digit c = false -> c ∉ show_nat n.
Proof. intros Hc Hin. pose proof (show_nat_digits n) as H. rewrite list.Forall_forall in H. specialize (H c Hin). congruence. Qed.
Lemma parse_show min max n : 0 <= min -> min <= n <= max -> parseCronNumber (Some (show_nat n)) min max = inl n.
Proof.
  intros H0 Hn. unfold parseCronNumber, decimal, show_nat. destruct (show_N_digits (Z.to_N n)) as [Hne Hd]. rewrite Hd, bool_decide_eq_false_2 by done. cbn [negb andb].
  pose proof (natural_show (Z.to_N n)) as Hv. unfold natural in Hv. destruct (show_N (Z.to_N n)) eqn:E; [done|]. rewrite <- E in *. rewrite Hd in Hv.
  injection Hv as Hv. rewrite Hv, Z2N.id by lia. by rewrite !(proj2 (Z.ltb_ge _ _)) by lia.
Qed.
Lemma includes_unit c s : c ∉ s -> includes [c] s = false.
Proof.
  induction s as [|u s IH]; [done|]. intros Hn. cbn [includes]. rewrite IH by set_solver. rewrite orb_false_r. unfold starts_with. apply bool_decide_eq_false_2.
  cbn. rewrite take_0. intros [= ->]. set_solver.
Qed.

Lemma show_range_no c r : is_digit c = false -> c <> 42%N -> c <> 45%N -> c ∉ show_range r.
Proof.
  intros Hc H1 H2. destruct r; cbn [show_range]; [by apply not_elem_of_cons; split; [|apply not_elem_of_nil]|by apply show_nat_no|].
  rewrite !not_elem_of_app. split_and!; [by apply show_nat_no| |by apply show_nat_no]. by apply not_elem_of_cons; split; [|apply not_elem_of_nil].
Qed.
Lemma show_part_no p : 44%N ∉ show_part p.
Proof.
  unfold show_part. rewrite not_elem_of_app. split; [by apply show_range_no|]. destruct p.2; [|apply not_elem_of_nil]. rewrite not_elem_of_app. split; [|by apply show_nat_no].
  by apply not_elem_of_cons; split; [|apply not_elem_of_nil].
Qed.

Lemma part_range_show min max r : 0 <= min -> part_ok min max (r, None) -> part_range (show_range r) min max = inl (range_ends min max r).
Proof.
  intros H0. unfold part_ok, part_range. destruct r as [|a|a b]; cbn [range_ends fst snd show_range].
  - done.
  - intros (Ha & _ & Hb & _). assert (Hs : jseqb (show_nat a) (js "*") = false).
    { apply bool_decide_eq_false_2. intros He. apply (show_nat_no 42 a eq_refl). rewrite He. by left. }
    rewrite Hs. change (js "-") with [45%N]. rewrite includes_unit by by apply show_nat_no. by rewrite parse_show.
  - intros (Ha & Hab & Hb & _). assert (Hs : jseqb (show_nat a ++ js "-" ++ show_nat b) (js "*") = false).
    { apply bool_decide_eq_false_2. intros He. assert (Hin : 45%N ∈ js "*") by (rewrite <- He; apply elem_of_app; right; by left). by apply list_elem_of_singleton in Hin. }
    rewrite Hs. assert (Hi : includes (js "-") (show_nat a ++ js "-" ++ show_nat b) = true).
    { generalize (show_nat a). intros w. induction w as [|u w IH]; [done|]. cbn [app includes]. rewrite IH. by rewrite orb_true_r. }
    rewrite Hi. change (js "-" ++ show_nat b) with (45%N :: show_nat b). rewrite split_on_app_sep, split_on_plain by by apply show_nat_no. cbn [lookup list_lookup].
    rewrite !parse_show by lia. by rewrite (proj2 (Z.ltb_ge _ _)) by lia.
Qed.

Lemma parse_part_show field min max p : 0 <= min -> part_ok min max p ->
  exists vs, parse_part field (show_part p) min max = inl vs /\ forall v, v ∈ vs <-> names min max p v.
Proof.
  intros H0 Hok. destruct p as [r step]. unfold parse_part, show_part, names. cbn [fst snd].
  assert (Hr : part_ok min max (r, None)) by (unfold part_ok in *; cbn [fst snd] in *; destruct (range_ends min max r); tauto).
  pose proof (part_range_show min max r H0 Hr) as Hrange. assert (Hne : show_range r <> []).
  { destruct r as [|a|a b]; [done|apply (proj1 (show_N_digits _))|]. cbn [show_range]. intros He. apply app_eq_nil in He. exact (proj1 (show_N_digits (Z.to_N a)) (proj1 He)). }
  rewrite bool_decide_eq_false_2 by (intros He; apply app_eq_nil in He; tauto). destruct step as [step|].
  - change (js "/" ++ show_nat step) with (47%N :: show_nat step). rewrite split_on_app_sep by by apply show_range_no. rewrite split_on_plain by by apply show_nat_no.
    cbn [lookup list_lookup from_option id]. unfold part_ok in Hok. cbn [fst snd] in Hok. destruct (range_ends min max r) as [a b]. destruct Hok as (Ha & Hab & Hb & Hstep).
    rewrite parse_show by lia. rewrite Hrange. eexists. split; [done|]. intros v. cbn [fst snd]. apply elem_of_stepped. lia.
  - rewrite app_nil_r, split_on_plain by by apply show_range_no. cbn [lookup list_lookup from_option id]. rewrite Hrange. eexists. split; [done|]. intros v.
    destruct (range_ends min max r) as [a b]. cbn [fst snd from_option id]. apply elem_of_stepped. lia.
Qed.

(** A field written as the manual of cron has it is accepted, and its set holds exactly the values its parts name. *)
Theorem field_values (parts : list (cron_range * option Z)) (min max : Z) (H0 : 0 <= min) (Hne : parts <> []) (Hok : Forall (part_ok min max) parts) :
  exists vs, parseCronField (join [44%N] (show_part <$> parts)) min max = inl vs /\
    forall v, v ∈ vs <-> exists p, p ∈ parts /\ names min max p v.
Proof.
  unfold parseCronField. rewrite split_join; [|by destruct parts|].
  2: { apply list.Forall_forall. intros l Hl. apply list_elem_of_fmap in Hl as (p & -> & _). apply show_part_no. }
  set (field := join _ _). clearbody field. clear Hne. induction Hok as [|p parts Hp _ IH].
  - exists []. split; [done|]. intros v. split; [intros Hv; by apply not_elem_of_nil in Hv|intros (q & Hq & _); by apply not_elem_of_nil in Hq].
  - cbn [fmap list_fmap parse_parts]. destruct (parse_part_show field min max p H0 Hp) as (vs & -> & Hvs). destruct IH as (ws & -> & Hws).
    eexists. split; [done|]. intros v. rewrite elem_of_app, Hvs, Hws. split.
    + intros [Hv|(q & Hq & Hv)]; [exists p; split; [by left|done]|exists q; split; [by right|done]].
    + intros (q & Hq & Hv). apply elem_of_cons in Hq as [->|Hq]; [by left|right; by exists q].
Qed.

(** ** Accepted schedules *)

Lemma digits_value_nonneg ds : forallb is_digit ds = true -> 0 <= digits_value 10 dec_digit ds.
Proof.
  unfold digits_value. assert (H : forall acc, 0 <= acc -> forallb is_digit ds = true -> 0 <= foldl (fun a d => a * 10 + dec_digit d) acc ds); [|apply H; lia].
  induction ds as [|d ds IH]; intros acc Ha; [done|]. cbn [forallb foldl]. intros [Hd Hds]%andb_true_iff. apply IH; [|done]. unfold is_digit in Hd. to_prop. unfold dec_digit. lia.
Qed.
Lemma read_amount_nonneg keywords units text amount unit : read_amount keywords units text = Some (amount, unit) -> 0 <= amount /\ unit ∈ units.
Proof.
  unfold read_amount. destruct (span _ text) as [keyword r1]. destruct (span is_space r1) as [spaces r2]. destruct (span is_digit r2) as [ds r3] eqn:Ed.
  destruct (_ && bool_decide (_ ∈ units)) eqn:E; [|done]. intros [= <- <-]. apply andb_true_iff in E as [_ E%bool_decide_eq_true]. split; [|done].
  apply digits_value_nonneg. clear -Ed. revert ds r3 Ed. induction r2 as [|u r2 IH]; intros ds r3; cbn [span]; [by intros [= <- _]|].
  destruct (is_digit u) eqn:Eu; [|by intros [= <- _]]. destruct (span is_digit r2) as [a b]. intros [= <- _]. cbn [forallb]. rewrite Eu. by apply (IH a b).
Qed.

(** What is accepted as a schedule runs in the future, at the earliest at once, and an interval is at least ten seconds;
    a recurring schedule has a next run after any instant then, or an error tells that it has none in a year. *)
Theorem schedule_future (z : zone) (date_of_text : jsstr -> option Z) (input : jsstr) (now : Z) (Hz : zone_ok z) (Hshown : shown z now = now)
    (Hdates : Z.abs now <= 8600000000000000) :
  match parseAgentCronSchedule z date_of_text input now with
  | inl (schedule, next) =>
      match next with Some t => now <= t /\ (s_kind schedule <> Once -> now < t) | None => s_kind schedule <> Cron end /\
      match s_kind schedule with
      | Once => forall after, nextRunAtForSchedule z schedule after = inl None
      | Interval => exists ms, intervalMs schedule = Some ms /\ 10000 <= ms /\ forall after, nextRunAtForSchedule z schedule after = inl (Some (time_clip (after + ms)))
      | Cron => forall after, nextRunAtForSchedule z schedule after =
                  match nextCronRunAfter z (s_expression schedule) after with inl t => inl (Some (Some t)) | inr e => inr e end
      end
  | inr _ => True
  end.
Proof.
  assert (Hclip : forall t, now <= t -> match time_clip t with Some t' => now <= t' | None => True end).
  { intros t Ht. unfold time_clip. by destruct (_ <=? _). }
  assert (Hclip' : forall t, now < t -> match time_clip t with Some t' => now < t' | None => True end).
  { intros t Ht. unfold time_clip. by destruct (_ <=? _). }
  unfold parseAgentCronSchedule. set (text := stripMatchingQuotes _). destruct (bool_decide (text = [])); [done|].
  destruct (read_amount [js "in"] _ text) as [[amount unit]|] eqn:E1.
  { apply read_amount_nonneg in E1 as [Ha _]. cbn [s_kind]. split; [|done].
    set (m := if starts_with (js "m") unit then _ else _). assert (Hm : 0 < m) by (unfold m, ONE_MINUTE_MS; by destruct (starts_with _ _); [|destruct (starts_with _ _)]).
    specialize (Hclip (now + amount * m) ltac:(nia)). destruct (time_clip _); [by split|done]. }
  destruct (read_amount [js "every"; js "each"] _ text) as [[amount unit]|] eqn:E2.
  { apply read_amount_nonneg in E2 as [Ha _]. set (m := if starts_with (js "s") unit then _ else _). destruct (Z.ltb_spec (amount * m) (10 * ONE_SECOND_MS)) as [|Hms]; [done|].
    unfold ONE_SECOND_MS in Hms. cbn [s_kind intervalMs]. split.
    - specialize (Hclip' (now + amount * m) ltac:(lia)). destruct (time_clip _); [split; [lia|done]|done].
    - exists (amount * m). split_and!; [done|lia|]. intros after. unfold nextRunAtForSchedule. cbn [s_kind intervalMs from_option id].
      by rewrite (proj2 (Z.leb_gt _ _)) by lia. }
  destruct (starts_with (js "at ") _).
  { destruct (date_of_text _) as [t|]; [|done]. destruct (Z.leb_spec t now); [done|]. cbn. split; [split; [lia|done]|done]. }
  destruct (nextCronRunAfter z (normalizeCronAlias text) now) as [t|e] eqn:En; [|done]. cbn [s_kind]. split; [|done].
  apply next_run_later in En; [|done..]. split; [lia|done].
Qed.

(** ** Examples and witnesses *)

(** New York in 2024. *)
Definition new_york : zone := {| first_offset := -18000000; transitions := [(1710054000000, -14400000); (1730613600000, -18000000)] |}.
Lemma new_york_ok : zone_ok new_york.
Proof. by vm_compute. Qed.

Lemma next_run_first_witness :
  (zone_ok new_york /\ shown new_york 1710052200000 = 1710052200000 /\ Z.abs 1710052200000 <= 8600000000000000) /\
  exists t, nextCronRunAfter new_york (js "0 * * * *") 1710052200000 = inl t /\ local new_york t - local new_york 1710052200000 = 90 * 60000 /\ 1710052200000 < t.
Proof.
  assert (H : zone_ok new_york /\ shown new_york 1710052200000 = 1710052200000 /\ Z.abs 1710052200000 <= 8600000000000000) by (split_and!; [exact new_york_ok|done|done]).
  split; [exact H|]. destruct H as (H1 & H2 & H3). pose proof (next_run_first new_york (js "0 * * * *") 1710052200000 H1 H2 H3) as H.
  assert (E : nextCronRunAfter new_york (js "0 * * * *") 1710052200000 = inl 1710054000000) by (vm_compute; reflexivity).
  rewrite E in H. destruct H as (fields & _ & H & _). eexists. split_and!; [exact E|vm_compute; reflexivity|exact H].
Defined.

(** [0-30/10,*/40,7] of the minutes. *)
Lemma field_values_witness :
  let parts := [(Between 0 30, Some 10); (Every, Some 40); (One 7, None)] in
  (0 <= 0 /\ parts <> [] /\ Forall (part_ok 0 59) parts) /\
  parseCronField (js "0-30/10,*/40,7") 0 59 = inl [0; 10; 20; 30; 0; 40; 7] /\ exists vs, parseCronField (js "0-30/10,*/40,7") 0 59 = inl vs /\ 40 ∈ vs.
Proof.
  cbv zeta. set (parts := [_; _; _]). assert (H : 0 <= 0 /\ parts <> [] /\ Forall (part_ok 0 59) parts).
  { split_and!; [done|done|]. repeat apply list.Forall_cons_2; [unfold part_ok; cbn; lia..|apply list.Forall_nil_2]. }
  split; [exact H|]. split; [vm_compute; reflexivity|]. destruct H as (H1 & H2 & H3). destruct (field_values parts 0 59 H1 H2 H3) as (vs & E & Hv).
  assert (Hj : join [44%N] (show_part <$> parts) = js "0-30/10,*/40,7") by (vm_compute; reflexivity). rewrite Hj in E. exists vs. split; [exact E|].
  apply Hv. exists (Every, Some 40). split; [right; left|]. unfold names. cbn. lia.
Defined.

(** In the hour that the wall clock shows twice, the search starts in the first showing: asked in the second one, it gives a time
    that has passed, 59 minutes ago for a job of every minute. *)
Example repeated_hour_in_the_past :
  nextCronRunAfter new_york (js "* * * * *") 1730615420000 = inl 1730611860000 /\ shown new_york 1730615420000 = 1730617200000 /\
  (1730615420000 - 1730611860000) / 60000 = 59.
Proof. vm_compute. done. Qed.

(** A step after a single value changes nothing. *)
Example step_after_number : parseCronField (js "7/2") 0 59 = inl [7].
Proof. reflexivity. Qed.
