(* ===== verification/CronStore.v ===== *)
(** * The store of scheduled jobs (core/cron-jobs.ts)

    Jobs and the dispatches that are being run are kept in JSON files, one for all sessions or one for each; every
    operation reads them, and writes them under a lock, merging what it read with what the files then hold. A file is
    taken as what its JSON says, a replacement of it as a step that happens or not ([AtomicFile] proves that of
    atomic-file.ts); locks are a library's, and may be refused, as may a write.

    [claims_are_exclusive] says that in every run of a store no occurrence of a job is dispatched twice and that a job that
    has ended is not dispatched again, [claim_due_exact] what a claim does ([CronRuns]). *)

(* Source aliases:
   CJ = src/packages/coding-agent/src/core/cron-jobs.ts *)

From stdpp Require Import gmap.
From S2P Require Import Prelude JsString JsMap SummaryText StateError CronSchedule.
Local Open Scope Z_scope.

(** ** Jobs *)

(** A date in a file: an instant, or a text that is no date. *)
Inductive stamp := At (t : Z) | Text (s : jsstr).
#[export] Instance stamp_eq_dec : EqDecision stamp.
Proof. solve_decision. Defined.
Definition parse_stamp (s : stamp) : option Z := match s with At t => Some t | Text _ => None end.

(** CJ 8-8 AgentCronJobStatus. *)
Inductive AgentCronJobStatus := JActive | JPaused | JCompleted | JCancelled.
(** CJ 10-10 AgentCronJobSource. *)
Inductive AgentCronJobSource := FromCron | FromHeartbeat | FromRlmHeartbeat.
(** CJ 11-11 AgentCronJobRuntimeKind. *)
Inductive AgentCronJobRuntimeKind := TopLevel | Subagent.
(** CJ 19-19 AgentHeartbeatDeliveryMode. *)
Inductive AgentHeartbeatDeliveryMode := Steer | FollowUp.
#[export] Instance AgentCronJobStatus_eq_dec : EqDecision AgentCronJobStatus.
Proof. solve_decision. Defined.
#[export] Instance AgentCronJobSource_eq_dec : EqDecision AgentCronJobSource.
Proof. solve_decision. Defined.
#[export] Instance AgentCronJobRuntimeKind_eq_dec : EqDecision AgentCronJobRuntimeKind.
Proof. solve_decision. Defined.
#[export] Instance AgentHeartbeatDeliveryMode_eq_dec : EqDecision AgentHeartbeatDeliveryMode.
Proof. solve_decision. Defined.

(** CJ 27-48 AgentCronJob. *)
Record AgentCronJob := {
  id : jsstr; status : AgentCronJobStatus; source : option AgentCronJobSource; runtimeKind : option AgentCronJobRuntimeKind;
  deliveryMode : option AgentHeartbeatDeliveryMode; activeSessionId : jsstr; sessionId : jsstr; sessionFile : jsstr; cwd : jsstr;
  label : option jsstr; prompt : jsstr; schedule : AgentCronSchedule; createdAt : stamp; updatedAt : stamp; nextRunAt : option stamp;
  lastRunAt : option stamp; lastSkippedAt : option stamp; lastError : option jsstr; runCount : Z }.
#[export] Instance AgentCronJob_eq_dec : EqDecision AgentCronJob.
Proof. solve_decision. Defined.
(** CJ 92-97 AgentCronDispatchRecord. *)
Record AgentCronDispatchRecord := { d_id : jsstr; jobId : jsstr; claimedAt : stamp; scheduledFor : stamp }.
#[export] Instance AgentCronDispatchRecord_eq_dec : EqDecision AgentCronDispatchRecord.
Proof. solve_decision. Defined.
(** CJ 99-102 CronJobsState. *)
Record CronJobsState := { jobs : list AgentCronJob; dispatches : list AgentCronDispatchRecord }.
#[export] Instance CronJobsState_eq_dec : EqDecision CronJobsState.
Proof. solve_decision. Defined.
(** CJ 66-69 AgentCronDispatch. *)
Record AgentCronDispatch := { c_id : jsstr; c_job : AgentCronJob }.

(** Copies of a job with other fields. *)
Definition with_run (st : AgentCronJobStatus) (next : option stamp) (updated : stamp) (j : AgentCronJob) : AgentCronJob :=
  {| id := id j; status := st; source := source j; runtimeKind := runtimeKind j; deliveryMode := deliveryMode j; activeSessionId := activeSessionId j;
     sessionId := sessionId j; sessionFile := sessionFile j; cwd := cwd j; label := label j; prompt := prompt j; schedule := schedule j;
     createdAt := createdAt j; updatedAt := updated; nextRunAt := next; lastRunAt := lastRunAt j; lastSkippedAt := lastSkippedAt j;
     lastError := lastError j; runCount := runCount j |}.
Definition with_results (last skipped : option stamp) (err : option jsstr) (runs : Z) (j : AgentCronJob) : AgentCronJob :=
  {| id := id j; status := status j; source := source j; runtimeKind := runtimeKind j; deliveryMode := deliveryMode j; activeSessionId := activeSessionId j;
     sessionId := sessionId j; sessionFile := sessionFile j; cwd := cwd j; label := label j; prompt := prompt j; schedule := schedule j;
     createdAt := createdAt j; updatedAt := updatedAt j; nextRunAt := nextRunAt j; lastRunAt := last; lastSkippedAt := skipped;
     lastError := err; runCount := runs |}.
Definition with_settings (delivery : option AgentHeartbeatDeliveryMode) (l : option jsstr) (p : jsstr) (s : AgentCronSchedule) (j : AgentCronJob) : AgentCronJob :=
  {| id := id j; status := status j; source := source j; runtimeKind := runtimeKind j; deliveryMode := delivery; activeSessionId := activeSessionId j;
     sessionId := sessionId j; sessionFile := sessionFile j; cwd := cwd j; label := l; prompt := p; schedule := s;
     createdAt := createdAt j; updatedAt := updatedAt j; nextRunAt := nextRunAt j; lastRunAt := lastRunAt j; lastSkippedAt := lastSkippedAt j;
     lastError := lastError j; runCount := runCount j |}.
Definition with_session (active session file dir : jsstr) (j : AgentCronJob) : AgentCronJob :=
  {| id := id j; status := status j; source := source j; runtimeKind := runtimeKind j; deliveryMode := deliveryMode j; activeSessionId := active;
     sessionId := session; sessionFile := file; cwd := dir; label := label j; prompt := prompt j; schedule := schedule j;
     createdAt := createdAt j; updatedAt := updatedAt j; nextRunAt := nextRunAt j; lastRunAt := lastRunAt j; lastSkippedAt := lastSkippedAt j;
     lastError := lastError j; runCount := runCount j |}.
(** CJ 1662-1665 withoutNextRunAt. *)
Definition withoutNextRunAt (j : AgentCronJob) : AgentCronJob := with_run (status j) None (updatedAt j) j.

(** CJ 1338-1340 isHeartbeatCronJob. *)
Definition isHeartbeatCronJob (j : AgentCronJob) : bool := bool_decide (source j = Some FromHeartbeat) || bool_decide (source j = Some FromRlmHeartbeat).
(** CJ 1657-1660 normalizeOptionalLabel. *)
Definition normalizeOptionalLabel (l : option jsstr) : option jsstr :=
  match trim <$> l with Some (u :: t) => Some (u :: t) | _ => None end.
(** CJ 1484-1486 isDueJob. *)
Definition isDueJob (j : AgentCronJob) (now : Z) : bool :=
  bool_decide (status j = JActive) && match nextRunAt j ≫= parse_stamp with Some t => t <=? now | None => false end.
Definition live (j : AgentCronJob) : bool := bool_decide (status j = JActive) || bool_decide (status j = JPaused).

(** CJ 1628-1638 isAtLeastAsFresh. *)
Definition isAtLeastAsFresh (candidate current : AgentCronJob) : bool :=
  match parse_stamp (updatedAt current), parse_stamp (updatedAt candidate) with
  | None, _ => true
  | _, None => false
  | Some currentTime, Some candidateTime => currentTime <=? candidateTime
  end.
Definition by_id (js : list AgentCronJob) : list (jsstr * AgentCronJob) := foldl (fun m j => JsMap.set m (id j) j) [] js.
(** CJ 1614-1626 mergeFreshJobs. *)
Definition mergeFreshJobs (currentJobs nextJobs : list AgentCronJob) : list AgentCronJob :=
  snd <$> foldl (fun merged j => match JsMap.get merged (id j) with
                                 | Some current => if isAtLeastAsFresh j current then JsMap.set merged (id j) j else merged
                                 | None => JsMap.set merged (id j) j
                                 end) (by_id currentJobs) nextJobs.

(** CJ 1640-1651 compareOptionalIso. Whether the first does not come after the second. *)
Definition le_optional_iso (left_ right_ : option stamp) : bool :=
  if bool_decide (left_ = right_) then true
  else match left_, right_ with
  | None, _ => false
  | _, None => true
  | Some l, Some r => match parse_stamp l, parse_stamp r with Some a, Some b => a <=? b | _, _ => true end
  end.

(** ** The files *)

(** How a call outside goes: well; refused; it throws although the file was replaced; or, for a lock, after other
    processes changed the files. *)
Definition content : Type := (CronJobsState + jsstr)%type.
Inductive fate := Fine | Refused (message : jsstr) | Late (message : jsstr) | Meanwhile (others : gmap jsstr content).

(** CJ 161-171 AgentCronJobStore. With the files, what the calls to come will do, the identifiers drawn and the notifications of
    the listeners. A file that is no JSON holds the message of the error. *)
Record world := {
  files : gmap jsstr content; filePath : option jsstr; sessionArtifactMode : bool; sessionArtifactFiles : list (jsstr * jsstr);
  notified : nat; fates : list fate; drawn : nat }.
Definition op (A : Type) : Type := SE world jsstr A.

Definition set_files (d : gmap jsstr content) (w : world) : world :=
  {| files := d; filePath := filePath w; sessionArtifactMode := sessionArtifactMode w; sessionArtifactFiles := sessionArtifactFiles w;
     notified := notified w; fates := fates w; drawn := drawn w |}.
Definition set_counters (n d : nat) (f : list fate) (w : world) : world :=
  {| files := files w; filePath := filePath w; sessionArtifactMode := sessionArtifactMode w; sessionArtifactFiles := sessionArtifactFiles w;
     notified := n; fates := f; drawn := d |}.
Definition set_artifacts (a : list (jsstr * jsstr)) (w : world) : world :=
  {| files := files w; filePath := filePath w; sessionArtifactMode := sessionArtifactMode w; sessionArtifactFiles := a;
     notified := notified w; fates := fates w; drawn := drawn w |}.

Definition next_fate : op fate := fun w =>
  match fates w with [] => (inl Fine, w) | f :: fs => (inl f, set_counters (notified w) (drawn w) fs w) end.
Definition external : op unit :=
  f ← next_fate;
  match f with
  | Fine => mret tt
  | Refused m | Late m => raise m
  | Meanwhile d => update (set_files d)
  end.

(** CJ 1533-1542 readJobsState. *)
Definition readJobsState (path : jsstr) : op CronJobsState :=
  w ← current;
  match files w !! path with
  | None => mret {| jobs := []; dispatches := [] |}
  | Some (inl state) => mret state
  | Some (inr message) => raise message
  end.
(** CJ 1552-1555 writeJobsState. *)
Definition writeJobsState (path : jsstr) (state : CronJobsState) : op unit :=
  f ← next_fate;
  let replace := update (fun w => set_files (<[path := inl state]> (files w)) w) in
  match f with
  | Refused m => raise m
  | Late m => replace ;; raise m
  | _ => replace
  end.
(** CJ 1544-1550 writeJobsFile. *)
Definition writeJobsFile (path : jsstr) (next : list AgentCronJob) (mergeCurrent : bool) : op unit :=
  state ← readJobsState path;
  writeJobsState path {| jobs := if mergeCurrent then mergeFreshJobs (jobs state) next else next; dispatches := dispatches state |}.

Fixpoint release_all (held : nat) : op unit := match held with O => mret tt | S held => external ;; release_all held end.
Fixpoint acquire_all (paths : list jsstr) (held : nat) : op unit :=
  match paths with
  | [] => mret tt
  | _ :: paths => catching external (fun e => release_all held ;; raise e) ;; acquire_all paths (S held)
  end.
(** CJ 1488-1531 withCronJobsStateLocks. The attempts to take a lock are one call, which succeeds or not. *)
Definition withCronJobsStateLocks {A} (paths : list jsstr) (action : op A) : op A :=
  let locked := sort_by str_leb (remove_dups paths) in
  acquire_all locked 0 ;; ensuring action (release_all (length locked)).

(** ** The store *)

Definition store_of_file (path : jsstr) (w : world) : Prop := filePath w = Some path /\ sessionArtifactMode w = false.

(** CJ 879-884 requireFilePath. *)
Definition requireFilePath : op jsstr :=
  w ← current;
  match filePath w with Some (u :: p) => mret (u :: p) | _ => raise (js "Cron job store does not have a legacy file path") end.
(** CJ 794-794 mutateStates. *)
Definition paths_of_store : op (list jsstr) :=
  w ← current;
  if sessionArtifactMode w then mret (snd <$> sessionArtifactFiles w) else p ← requireFilePath; mret [p].
(** CJ 786-791 readStates. *)
Definition readStates : op (list CronJobsState) := paths ← paths_of_store; each readJobsState paths.
(** CJ 782-784 readJobs. *)
Definition readJobs : op (list AgentCronJob) := states ← readStates; mret (states ≫= jobs).

Section store.
Context (z : zone) (date_of_text : jsstr -> option Z).
(** The identifiers drawn, [resolve] and [join] of paths, the order of the locale, the directory of a session. *)
Context (uuid : nat -> jsstr) (resolve : jsstr -> jsstr) (join_path : jsstr -> jsstr -> jsstr) (locale_le : jsstr -> jsstr -> bool)
  (getSessionArtifactPathForFile : jsstr -> jsstr -> jsstr).

(** CJ 138-159 heartbeatCatalogSignature. The fields that do not count are cleared. *)
Definition heartbeatCatalogSignature (js_ : list AgentCronJob) : list AgentCronJob :=
  (fun j => with_results None None None 0 (with_run (status j) None (At 0) j)) <$>
  sort_by (fun a b => locale_le (id a) (id b)) (filter (fun j => isHeartbeatCronJob j && live j = true) js_).

Definition randomUUID : op jsstr := fun w => (inl (uuid (drawn w)), set_counters (notified w) (S (drawn w)) (fates w) w).
(** CJ 873-877 notifyHeartbeatChange. *)
Definition notifyHeartbeatChange : op unit :=
  update (fun w => set_counters (S (notified w)) (drawn w) (fates w) w) ;; external.
Definition notify_if_changed (previous : list AgentCronJob) : op unit :=
  js_ ← readJobs;
  if bool_decide (heartbeatCatalogSignature js_ = previous) then mret tt else notifyHeartbeatChange.

(** CJ 799-807 mutateStates. One file: what the mutator returns, and whether the file was written. *)
Definition mutate_file {B} (mutator : CronJobsState -> op (CronJobsState * list B)) (path : jsstr) : op (list B * bool) :=
  state ← readJobsState path;
  r ← mutator state;
  let '(state', out) := r in
  if bool_decide (state' = state) then mret (out, false) else writeJobsState path state' ;; mret (out, true).
(** CJ 793-814 mutateStates. *)
Definition mutateStates {B} (mutator : CronJobsState -> op (CronJobsState * list B)) : op (list B) :=
  paths ← paths_of_store;
  js_ ← readJobs;
  rs ← withCronJobsStateLocks paths (each (mutate_file mutator) paths);
  (if existsb snd rs then notify_if_changed (heartbeatCatalogSignature js_) else mret tt) ;;
  mret (rs ≫= fst).

(** CJ 832-841 writeJobs. The jobs each session's file shall hold. *)
Definition merged_jobs (next : list AgentCronJob) (sessionId_ : jsstr) (state : CronJobsState) : list AgentCronJob :=
  let incomingById := by_id next in
  let retained := filter (fun j => match JsMap.get incomingById (id j) with Some incoming => jseqb (sessionId incoming) sessionId_ | None => true end = true) (jobs state) in
  mergeFreshJobs retained (filter (fun j => sessionId j = sessionId_) next).
(** CJ 826-864 writeJobs. Under the locks. *)
Definition write_artifacts (artifacts : list (jsstr * jsstr)) (next : list AgentCronJob) : op unit :=
  states ← each (fun a => state ← readJobsState a.2; mret (a.1, a.2, state)) artifacts;
  let merged := (fun s : jsstr * jsstr * CronJobsState => (s.1.1, merged_jobs next s.1.1 s.2)) <$> states in
  let sessionIdByJobId := foldl (fun m p => JsMap.set m p.1 p.2) [] (merged ≫= fun p => (fun j => (id j, p.1)) <$> p.2) in
  let open_dispatches := states ≫= fun s => dispatches s.2 in
  _ ← each (fun s : jsstr * jsstr * CronJobsState =>
    let nextState := {| jobs := merged_jobs next s.1.1 s.2;
                        dispatches := filter (fun d => JsMap.get sessionIdByJobId (jobId d) = Some s.1.1) open_dispatches |} in
    if bool_decide (nextState = s.2) then mret tt else writeJobsState s.1.2 nextState) states;
  mret tt.
(** CJ 816-871 writeJobs. *)
Definition writeJobs (next : list AgentCronJob) : op unit :=
  js_ ← readJobs;
  w ← current;
  let previous := heartbeatCatalogSignature js_ in
  if sessionArtifactMode w then
    match find (fun j => negb (JsMap.has (sessionArtifactFiles w) (sessionId j))) next with
    | Some j => raise (js "Cron job " ++ id j ++ js " targets an unregistered session artifact")
    | None =>
        withCronJobsStateLocks (snd <$> sessionArtifactFiles w) (write_artifacts (sessionArtifactFiles w) next) ;;
        notify_if_changed previous
    end
  else
    path ← requireFilePath;
    withCronJobsStateLocks [path] (writeJobsFile path next true) ;;
    notify_if_changed previous.

(** ** Operations *)

Local Notation "'ok' x ':=' r 'in' k" := (match r with inl x => k | inr e => inr e end) (at level 200, x name, r at level 100, k at level 200).

(** [date.toISOString()]. *)
Definition toISOString (d : option Z) : stamp + jsstr := match d with Some t => inl (At t) | None => inr (js "Invalid time value") end.
Definition next_stamp (s : AgentCronSchedule) (after : Z) : option stamp + jsstr :=
  ok next := nextRunAtForSchedule z s after in
  match next with None => inl None | Some d => ok t := toISOString d in inl (Some t) end.

(** Reading the jobs, changing those for which [f] gives a new one, and writing all of them when one changed; the changed ones. *)
Definition change_jobs (f : AgentCronJob -> option AgentCronJob + jsstr) : op (list AgentCronJob) :=
  js_ ← readJobs;
  rs ← each (fun j => r ← returning (f j); mret (j, r)) js_;
  match omap snd rs with
  | [] => mret []
  | changed => writeJobs ((fun r => default r.1 r.2) <$> rs) ;; mret changed
  end.

(** CJ 183-193 registerSessionArtifact. *)
Definition registerSessionArtifact (sessionId_ artifactDir : jsstr) : op bool :=
  w ← current;
  let path := join_path artifactDir (js "scheduled-jobs.json") in
  if negb (sessionArtifactMode w) || bool_decide (JsMap.get (sessionArtifactFiles w) sessionId_ = Some path) then mret false
  else update (set_artifacts (JsMap.set (sessionArtifactFiles w) sessionId_ path)) ;; mret true.

(** CJ 211-213 list. *)
Definition list_jobs : op (list AgentCronJob) := js_ ← readJobs; mret (sort_by (fun a b => le_optional_iso (nextRunAt a) (nextRunAt b)) js_).

(** CJ 50-62 CreateAgentCronJobInput. *)
Record CreateAgentCronJobInput := {
  i_activeSessionId : jsstr; i_sessionId : jsstr; i_sessionFile : jsstr; i_cwd : jsstr; i_label : option jsstr; i_prompt : jsstr;
  i_scheduleText : jsstr; i_source : option AgentCronJobSource; i_runtimeKind : option AgentCronJobRuntimeKind; i_deliveryMode : option AgentHeartbeatDeliveryMode }.

(** CJ 223-239 create. The new job. *)
Definition new_job (i : CreateAgentCronJobInput) (jid prompt_ : jsstr) (src : AgentCronJobSource) (delivery : option AgentHeartbeatDeliveryMode)
    (s : AgentCronSchedule) (next : stamp) (now : Z) : AgentCronJob :=
  {| id := jid; status := JActive; source := Some src; runtimeKind := i_runtimeKind i; deliveryMode := delivery; activeSessionId := i_activeSessionId i;
     sessionId := i_sessionId i; sessionFile := i_sessionFile i; cwd := i_cwd i; label := normalizeOptionalLabel (i_label i); prompt := prompt_;
     schedule := s; createdAt := At now; updatedAt := At now; nextRunAt := Some next; lastRunAt := None; lastSkippedAt := None; lastError := None; runCount := 0 |}.
(** CJ 217-220 create. A text that must not be empty. *)
Definition trimmed (text message : jsstr) : jsstr + jsstr := if bool_decide (trim text = []) then inr message else inl (trim text).
(** CJ 308-310 createHeartbeat. A schedule that must recur. *)
Definition recurring (s : AgentCronSchedule) (message : jsstr) : unit + jsstr := if bool_decide (s_kind s = Once) then inr message else inl tt.

(** CJ 215-242 create. *)
Definition create (i : CreateAgentCronJobInput) (now : Z) : op AgentCronJob :=
  prompt_ ← returning (trimmed (i_prompt i) (js "Cron job prompt cannot be empty"));
  parsed ← returning (parseAgentCronSchedule z date_of_text (i_scheduleText i) now);
  jid ← randomUUID;
  next ← returning (toISOString parsed.2);
  let job := new_job i jid prompt_ (default FromCron (i_source i)) None parsed.1 next now in
  js_ ← readJobs;
  writeJobs (js_ ++ [job]) ;;
  mret job.

(** CJ 251-285 rebindSessionJobs. *)
Definition rebind_job (activeSessionId_ sessionId_ sessionFile_ cwd_ : jsstr) (j : AgentCronJob) : option AgentCronJob :=
  let target := resolve sessionFile_ in
  if negb (jseqb (activeSessionId j) activeSessionId_) && negb (jseqb (resolve (sessionFile j)) target) then None
  else if jseqb (activeSessionId j) activeSessionId_ && jseqb (sessionId j) sessionId_ && jseqb (resolve (sessionFile j)) target && jseqb (cwd j) cwd_ then None
  else Some (with_session activeSessionId_ sessionId_ sessionFile_ cwd_ j).
(** CJ 251-285 rebindSessionJobs. *)
Definition rebindSessionJobs (activeSessionId_ sessionId_ sessionFile_ cwd_ : jsstr) : op (list AgentCronJob) :=
  change_jobs (fun j => inl (rebind_job activeSessionId_ sessionId_ sessionFile_ cwd_ j)).

(** CJ 287-297 getHeartbeat. *)
Definition newest_first (a b : AgentCronJob) : bool :=
  match parse_stamp (updatedAt a), parse_stamp (updatedAt b) with Some x, Some y => y <=? x | _, _ => true end.
Definition is_heartbeat_of (active : jsstr) (j : AgentCronJob) : bool := jseqb (activeSessionId j) active && bool_decide (source j = Some FromHeartbeat).
Definition getHeartbeat (active : jsstr) : op (option AgentCronJob) :=
  js_ ← readJobs; mret (head (sort_by newest_first (filter (fun j => is_heartbeat_of active j && live j = true) js_))).
(** CJ 299-303 getLatestHeartbeat. *)
Definition getLatestHeartbeat (active : jsstr) : op (option AgentCronJob) :=
  js_ ← readJobs; mret (head (sort_by newest_first (filter (fun j => is_heartbeat_of active j = true) js_))).

(** CJ 305-346 createHeartbeat. *)
Definition replaced_heartbeat (active : jsstr) (now : Z) (j : AgentCronJob) : AgentCronJob :=
  if is_heartbeat_of active j && live j then with_run JCancelled None (At now) j else j.
(** CJ 305-346 createHeartbeat. *)
Definition createHeartbeat (i : CreateAgentCronJobInput) (now : Z) : op AgentCronJob :=
  parsed ← returning (parseAgentCronSchedule z date_of_text (i_scheduleText i) now);
  returning (recurring parsed.1 (js "Heartbeat schedule must be recurring")) ;;
  js_ ← readJobs;
  prompt_ ← returning (trimmed (i_prompt i) (js "Heartbeat instruction cannot be empty"));
  jid ← randomUUID;
  next ← returning (toISOString parsed.2);
  let job := new_job i jid prompt_ FromHeartbeat (Some (default Steer (i_deliveryMode i))) parsed.1 next now in
  writeJobs ((replaced_heartbeat (i_activeSessionId i) now <$> js_) ++ [job]) ;;
  mret job.

(** CJ 348-360 listRlmHeartbeats. *)
Definition is_rlm_of (active : jsstr) (j : AgentCronJob) : bool := jseqb (activeSessionId j) active && bool_decide (source j = Some FromRlmHeartbeat).
Definition listRlmHeartbeats (active : jsstr) (includeInactive : bool) : op (list AgentCronJob) :=
  js_ ← readJobs;
  mret (sort_by (fun a b => le_optional_iso (nextRunAt a) (nextRunAt b)) (filter (fun j => is_rlm_of active j && (includeInactive || live j) = true) js_)).
(** CJ 362-393 createRlmHeartbeat. *)
Definition createRlmHeartbeat (i : CreateAgentCronJobInput) (now : Z) : op AgentCronJob :=
  parsed ← returning (parseAgentCronSchedule z date_of_text (i_scheduleText i) now);
  returning (recurring parsed.1 (js "RLM heartbeat schedule must be recurring")) ;;
  prompt_ ← returning (trimmed (i_prompt i) (js "RLM heartbeat instruction cannot be empty"));
  jid ← randomUUID;
  next ← returning (toISOString parsed.2);
  let job := new_job i jid prompt_ FromRlmHeartbeat (Some (default Steer (i_deliveryMode i))) parsed.1 next now in
  js_ ← readJobs;
  writeJobs (js_ ++ [job]) ;;
  mret job.

(** CJ 14-14 AgentRlmHeartbeatStatusUpdate. *)
Inductive AgentRlmHeartbeatStatusUpdate := RlmPause | RlmResume.
(** CJ 398-405 updateRlmHeartbeat. *)
Record RlmUpdate := { u_label : option jsstr; u_prompt : option jsstr; u_scheduleText : option jsstr;
  u_status : option AgentRlmHeartbeatStatusUpdate; u_deliveryMode : option AgentHeartbeatDeliveryMode }.
(** CJ 418-451 updateRlmHeartbeat. The job of the update. *)
Definition updated_rlm (u : RlmUpdate) (now : Z) (j : AgentCronJob) : AgentCronJob + jsstr :=
  let l := match u_label u with Some l => normalizeOptionalLabel (Some l) | None => label j end in
  let delivery := match u_deliveryMode u with Some d => Some d | None => deliveryMode j end in
  ok p := match u_prompt u with Some p => trimmed p (js "RLM heartbeat instruction cannot be empty") | None => inl (prompt j) end in
  ok j2 := match u_scheduleText u with
           | None => inl (with_settings delivery l p (schedule j) j)
           | Some text =>
               ok parsed := parseAgentCronSchedule z date_of_text text now in
               ok _tt := recurring parsed.1 (js "RLM heartbeat schedule must be recurring") in
               let j1 := with_settings delivery l p parsed.1 j in
               if bool_decide (status j = JPaused) then inl (withoutNextRunAt j1)
               else ok t := toISOString parsed.2 in inl (with_run (status j1) (Some t) (updatedAt j1) j1)
           end in
  ok j3 := match u_status u with
           | Some RlmPause => inl (with_run JPaused None (updatedAt j2) j2)
           | Some RlmResume =>
               ok next := next_stamp (schedule j2) now in
               match next with
               | None => inr (js "RLM heartbeat schedule must be recurring")
               | Some t => inl (with_run JActive (Some t) (updatedAt j2) j2)
               end
           | None => inl j2
           end in
  inl (with_run (status j3) (nextRunAt j3) (At now) j3).
Definition ended (j : AgentCronJob) : bool := bool_decide (status j = JCancelled) || bool_decide (status j = JCompleted).
(** CJ 395-458 updateRlmHeartbeat. *)
Definition updateRlmHeartbeat (active jid : jsstr) (u : RlmUpdate) (now : Z) : op (option AgentCronJob) :=
  last <$> change_jobs (fun j =>
    if negb (jseqb (id j) jid && is_rlm_of active j) || ended j then inl None else ok j' := updated_rlm u now j in inl (Some j')).

Definition cancelled_job (now : Z) (j : AgentCronJob) : AgentCronJob := with_run JCancelled None (At now) j.
(** CJ 460-473 deleteRlmHeartbeat. *)
Definition deleteRlmHeartbeat (active jid : jsstr) (now : Z) : op (option AgentCronJob) :=
  last <$> change_jobs (fun j => inl (if jseqb (id j) jid && is_rlm_of active j then Some (cancelled_job now j) else None)).
(** CJ 475-493 cancelRlmHeartbeatsForSession. *)
Definition cancelRlmHeartbeatsForSession (active : jsstr) (now : Z) : op (list AgentCronJob) :=
  change_jobs (fun j => inl (if is_rlm_of active j && live j then Some (cancelled_job now j) else None)).
(** CJ 495-517 cancelJobsForSession. *)
Definition cancelJobsForSession (active session file : option jsstr) (now : Z) : op (list AgentCronJob) :=
  let target := match file with Some (u :: f) => Some (resolve (u :: f)) | _ => None end in
  change_jobs (fun j =>
    let matches := bool_decide (active = Some (activeSessionId j)) || bool_decide (session = Some (sessionId j)) || bool_decide (target = Some (resolve (sessionFile j))) in
    inl (if matches && live j then Some (cancelled_job now j) else None)).

(** A change of the heartbeat of a session, if it has one. *)
Definition change_heartbeat (active : jsstr) (f : AgentCronJob -> AgentCronJob + jsstr) : op (option AgentCronJob) :=
  found ← getHeartbeat active;
  match found with
  | None => mret None
  | Some found => last <$> change_jobs (fun j => if jseqb (id j) (id found) then ok j' := f j in inl (Some j') else inl None)
  end.
Definition resumed_job (now : Z) (s : AgentCronSchedule) (j : AgentCronJob) : AgentCronJob + jsstr :=
  ok next := next_stamp s now in
  match next with
  | None => inr (js "Heartbeat schedule must be recurring")
  | Some t => inl (with_run JActive (Some t) (At now) j)
  end.
(** CJ 519-534 pauseHeartbeat. *)
Definition pauseHeartbeat (active : jsstr) (now : Z) : op (option AgentCronJob) :=
  change_heartbeat active (fun j => inl (with_run JPaused None (At now) j)).
(** CJ 536-555 resumeHeartbeat. *)
Definition resumeHeartbeat (active : jsstr) (now : Z) : op (option AgentCronJob) :=
  found ← getHeartbeat active;
  match found with
  | None => mret None
  | Some found =>
      _ ← returning (resumed_job now (schedule found) found);
      last <$> change_jobs (fun j => if jseqb (id j) (id found) then ok j' := resumed_job now (schedule found) j in inl (Some j') else inl None)
  end.
(** CJ 557-572 clearHeartbeat. *)
Definition clearHeartbeat (active : jsstr) (now : Z) : op (option AgentCronJob) := change_heartbeat active (fun j => inl (cancelled_job now j)).

(** CJ 13-13 AgentHeartbeatManagementAction. *)
Inductive AgentHeartbeatManagementAction := MPause | MResume | MStop.
(** CJ 574-612 manageHeartbeat. *)
Definition manageHeartbeat (active jid : jsstr) (action : AgentHeartbeatManagementAction) (now : Z) : op (option AgentCronJob) :=
  last <$> change_jobs (fun j =>
    if negb (jseqb (id j) jid && jseqb (activeSessionId j) active && isHeartbeatCronJob j) || ended j then inl None
    else match action with
    | MPause => inl (Some (with_run JPaused None (At now) j))
    | MStop => inl (Some (cancelled_job now j))
    | MResume => ok j' := resumed_job now (schedule j) j in inl (Some j')
    end).
(** CJ 614-627 cancel. *)
Definition cancel (jid : jsstr) (now : Z) : op (option AgentCronJob) :=
  last <$> change_jobs (fun j => inl (if jseqb (id j) jid && negb (bool_decide (status j = JCancelled)) then Some (cancelled_job now j) else None)).

(** CJ 629-662 recordRunResult. *)
Definition recordRunResult (jid : jsstr) (err : option jsstr) (now : Z) : op (option AgentCronJob) :=
  last <$> change_jobs (fun j =>
    if negb (jseqb (id j) jid) then inl None
    else if negb (bool_decide (status j = JActive)) then inl (Some j)
    else
      ok next := match s_kind (schedule j) with Cron => next_stamp (schedule j) (now + 1) | Interval => next_stamp (schedule j) now | Once => inl None end in
      inl (Some (with_results (Some (At now)) (lastSkippedAt j) err (runCount j + 1)
        (with_run (if bool_decide (s_kind (schedule j) = Once) then JCompleted else JActive) next (At now) j)))).
(** CJ 664-688 recordSkipResult. *)
Definition recordSkipResult (jid : jsstr) (now : Z) : op (option AgentCronJob) :=
  last <$> change_jobs (fun j =>
    if negb (jseqb (id j) jid) then inl None
    else if negb (bool_decide (status j = JActive)) then inl (Some j)
    else
      ok next := next_stamp (schedule j) now in
      inl (Some (with_results (lastRunAt j) (Some (At now)) (lastError j) (runCount j) (with_run (status j) next (At now) j)))).

(** CJ 690-692 due. *)
Definition due (now : Z) : op (list AgentCronJob) := js_ ← readJobs; mret (filter (fun j => isDueJob j now = true) js_).
(** CJ 769-771 getDueJob. *)
Definition getDueJob (jid : jsstr) (now : Z) : op (option AgentCronJob) := js_ ← readJobs; mret (find (fun j => jseqb (id j) jid && isDueJob j now) js_).
(** CJ 773-780 nextActiveRunAt. *)
Definition nextActiveRunAt : op (option Z) :=
  js_ ← readJobs;
  mret (head (sort_by Z.leb (omap (fun j => if bool_decide (status j = JActive) then nextRunAt j ≫= parse_stamp else None) js_))).

(** ** Dispatches *)

(** CJ 1560-1581 claimDueInState. One job: as it is then, and the record of its dispatch. *)
Definition claim_job (claimed : list jsstr) (dueAt claimAt : Z) (j : AgentCronJob) : op (AgentCronJob * option AgentCronDispatchRecord) :=
  match (if isDueJob j dueAt then nextRunAt j else None) with
  | None => mret (j, None)
  | Some scheduled =>
      next ← returning (next_stamp (schedule j) claimAt);
      let advanced := with_run (status j) next (At claimAt) j in
      if bool_decide (id j ∈ claimed) then mret (with_results (lastRunAt advanced) (Some (At claimAt)) (lastError advanced) (runCount advanced) advanced, None)
      else
        did ← randomUUID;
        mret (advanced, Some {| d_id := did; jobId := id j; claimedAt := At claimAt; scheduledFor := scheduled |})
  end.
(** CJ 1557-1583 claimDueInState. *)
Definition claimDueInState (dueAt claimAt : Z) (state : CronJobsState) : op (CronJobsState * list AgentCronDispatch) :=
  rs ← each (claim_job (jobId <$> dispatches state) dueAt claimAt) (jobs state);
  mret ({| jobs := fst <$> rs; dispatches := dispatches state ++ omap snd rs |},
        omap (fun r => match r.2 with Some d => Some {| c_id := d_id d; c_job := r.1 |} | None => None end) rs).
(** CJ 694-696 claimDue. *)
Definition claimDue (dueAt claimAt : Z) : op (list AgentCronDispatch) := mutateStates (claimDueInState dueAt claimAt).

(** CJ 698-706 getClaimedJob. *)
Definition getClaimedJob (jid : jsstr) : op (option AgentCronJob) :=
  states ← readStates;
  mret (match find (fun s => existsb (fun d => jseqb (jobId d) jid) (dispatches s)) states with
        | Some s => find (fun j => jseqb (id j) jid && bool_decide (status j = JActive)) (jobs s)
        | None => None
        end).

(** CJ 64-64 AgentCronJobRunResult. *)
Inductive AgentCronJobRunResult := Ran | Skipped.
#[export] Instance AgentCronJobRunResult_eq_dec : EqDecision AgentCronJobRunResult.
Proof. solve_decision. Defined.
(** CJ 721-744 recordDispatchResult. The job of the dispatch. *)
Definition settled_job (outcome : AgentCronJobRunResult) (err : option jsstr) (now : Z) (j : AgentCronJob) : AgentCronJob + jsstr :=
  let st := if bool_decide (s_kind (schedule j) = Once) then JCompleted else status j in
  if bool_decide (outcome = Skipped) && bool_decide (err = None) then
    ok next := next_stamp (schedule j) now in
    inl (with_results (lastRunAt j) (Some (At now)) (lastError j) (runCount j) (with_run st next (At now) j))
  else inl (with_results (Some (At now)) (lastSkippedAt j) err (runCount j + 1) (with_run st (nextRunAt j) (At now) j)).
(** CJ 708-748 recordDispatchResult. *)
Definition settle_in_state (dispatchId : jsstr) (outcome : AgentCronJobRunResult) (err : option jsstr) (now : Z) (state : CronJobsState) :
    op (CronJobsState * list AgentCronJob) :=
  match find (fun d => jseqb (d_id d) dispatchId) (dispatches state) with
  | None => mret (state, [])
  | Some dispatch =>
      rs ← each (fun j => if negb (jseqb (id j) (jobId dispatch)) || negb (bool_decide (status j = JActive)) then mret (j, None)
                          else j' ← returning (settled_job outcome err now j); mret (j', Some j')) (jobs state);
      mret ({| jobs := fst <$> rs; dispatches := filter (fun d => d_id d <> dispatchId) (dispatches state) |}, omap snd rs)
  end.
(** CJ 708-748 recordDispatchResult. *)
Definition recordDispatchResult (dispatchId : jsstr) (outcome : AgentCronJobRunResult) (err : option jsstr) (now : Z) : op (option AgentCronJob) :=
  last <$> mutateStates (settle_in_state dispatchId outcome err now).

(** CJ 1585-1612 recoverInterruptedInState. [None] for every dispatch; the jobs that were interrupted are returned. *)
Definition interrupted_job (now : Z) (j : AgentCronJob) : AgentCronJob :=
  with_results (lastRunAt j) (lastSkippedAt j) (Some (js "Interrupted before scheduled operation completion")) (runCount j)
    (with_run (if bool_decide (s_kind (schedule j) = Once) then JCompleted else status j) (nextRunAt j) (At now) j).
(** CJ 1585-1612 recoverInterruptedInState. *)
Definition recoverInterruptedInState (now : Z) (dispatchIds : option (list jsstr)) (state : CronJobsState) : CronJobsState * list AgentCronJob :=
  let named d := match dispatchIds with Some ids => bool_decide (d_id d ∈ ids) | None => true end in
  let interrupted := filter (fun d => named d = true) (dispatches state) in
  if bool_decide (interrupted = []) then (state, [])
  else
    let hit j := bool_decide (id j ∈ jobId <$> interrupted) && bool_decide (status j = JActive) in
    ({| jobs := (fun j => if hit j then interrupted_job now j else j) <$> jobs state; dispatches := filter (fun d => named d = false) (dispatches state) |},
     interrupted_job now <$> filter (fun j => hit j = true) (jobs state)).
(** CJ 750-757 recoverInterruptedDispatches. *)
Definition recoverInterruptedDispatches (now : Z) : op (list AgentCronJob) := mutateStates (fun s => mret (recoverInterruptedInState now None s)).
(** CJ 759-767 recoverInterruptedDispatchesById. *)
Definition recoverInterruptedDispatchesById (ids : list jsstr) (now : Z) : op (list AgentCronJob) :=
  mutateStates (fun s => mret (recoverInterruptedInState now (Some ids) s)).
(** CJ 195-209 recoverSessionArtifact. *)
Definition recoverSessionArtifact (sessionId_ : jsstr) (now : Z) : op (list AgentCronJob) :=
  w ← current;
  match JsMap.get (sessionArtifactFiles w) sessionId_ with
  | Some (u :: path) =>
      withCronJobsStateLocks [u :: path] (
        state ← readJobsState (u :: path);
        let '(state', recovered) := recoverInterruptedInState now None state in
        (match dispatches state with [] => mret tt | _ => writeJobsState (u :: path) state' end) ;;
        mret recovered)
  | _ => mret []
  end.

(** CJ 887-922 migrateLegacyCronJobsToSessionArtifacts. The files of the jobs, in the order of the first job of each. *)
Definition group_jobs (js_ : list AgentCronJob) : list (jsstr * list AgentCronJob) :=
  foldl (fun m j =>
    let path := join_path (getSessionArtifactPathForFile (resolve (sessionFile j)) (sessionId j)) (js "scheduled-jobs.json") in
    JsMap.set m path (default [] (JsMap.get m path) ++ [j])) [] js_.
(** CJ 887-922 migrateLegacyCronJobsToSessionArtifacts. [clock] is read when the old file is renamed. *)
Definition migrateLegacyCronJobsToSessionArtifacts (file : jsstr) (isSessionOwned : option (AgentCronJob -> bool)) (now clock : Z) : op nat :=
  legacy ← readJobsState file;
  let state := (recoverInterruptedInState now None legacy).1 in
  let js_ := (fun j => match isSessionOwned with
                       | Some owned => if owned j || negb (live j) then j else cancelled_job now j
                       | None => j
                       end) <$> jobs state in
  match js_ with
  | [] => mret 0%nat
  | _ =>
      _ ← each (fun g => writeJobsFile g.1 g.2 true) (group_jobs js_);
      external ;;
      update (fun w => match files w !! file with
                       | Some c => set_files (<[file ++ js ".migrated-" ++ show_Z clock := c]> (delete file (files w))) w
                       | None => w
                       end) ;;
      mret (length js_)
  end.
End store.
