(* ===== verification/CronRuns.v ===== *)
(** * What a store of jobs promises (core/cron-jobs.ts)

    Runs of the store of [CronStore], with calls that are refused or fail late, and what they keep: [sound] of the file,
    [tame] of each job. *)

From stdpp Require Import gmap.
From S2P Require Import Prelude JsString JsMap SummaryText StateError CronSchedule CronStore.
Local Open Scope Z_scope.

(** ** Runs of a store *)

Section runs.
Context (z : zone) (date_of_text : jsstr -> option Z) (uuid : nat -> jsstr) (resolve : jsstr -> jsstr) (locale_le : jsstr -> jsstr -> bool).

(** What happens to a store, at its instant. *)
Inductive event :=
  | ECreate (i : CreateAgentCronJobInput) | ECreateHeartbeat (i : CreateAgentCronJobInput) | ECreateRlm (i : CreateAgentCronJobInput)
  | ERebind (active session file dir : jsstr) | EUpdateRlm (active jid : jsstr) (u : RlmUpdate) | EDeleteRlm (active jid : jsstr)
  | ECancelRlm (active : jsstr) | ECancelSession (active session file : option jsstr)
  | EPause (active : jsstr) | EResume (active : jsstr) | EClear (active : jsstr) | EManage (active jid : jsstr) (a : AgentHeartbeatManagementAction)
  | ECancel (jid : jsstr) | ERecordRun (jid : jsstr) (err : option jsstr) | ERecordSkip (jid : jsstr)
  | EClaim (dueAt : Z) | ESettle (did : jsstr) (outcome : AgentCronJobRunResult) (err : option jsstr)
  | ERecover | ERecoverById (ids : list jsstr).

Definition no_dispatch {A} (m : op A) : op (list AgentCronDispatch) := m ;; mret [].
Definition perform (now : Z) (e : event) : op (list AgentCronDispatch) :=
  match e with
  | ECreate i => no_dispatch (create z date_of_text uuid locale_le i now)
  | ECreateHeartbeat i => no_dispatch (createHeartbeat z date_of_text uuid locale_le i now)
  | ECreateRlm i => no_dispatch (createRlmHeartbeat z date_of_text uuid locale_le i now)
  | ERebind a s f d => no_dispatch (rebindSessionJobs resolve locale_le a s f d)
  | EUpdateRlm a j u => no_dispatch (updateRlmHeartbeat z date_of_text locale_le a j u now)
  | EDeleteRlm a j => no_dispatch (deleteRlmHeartbeat locale_le a j now)
  | ECancelRlm a => no_dispatch (cancelRlmHeartbeatsForSession locale_le a now)
  | ECancelSession a s f => no_dispatch (cancelJobsForSession resolve locale_le a s f now)
  | EPause a => no_dispatch (pauseHeartbeat locale_le a now)
  | EResume a => no_dispatch (resumeHeartbeat z locale_le a now)
  | EClear a => no_dispatch (clearHeartbeat locale_le a now)
  | EManage a j m => no_dispatch (manageHeartbeat z locale_le a j m now)
  | ECancel j => no_dispatch (cancel locale_le j now)
  | ERecordRun j err => no_dispatch (recordRunResult z locale_le j err now)
  | ERecordSkip j => no_dispatch (recordSkipResult z locale_le j now)
  | EClaim dueAt => claimDue z uuid locale_le dueAt now
  | ESettle d o err => no_dispatch (recordDispatchResult z locale_le d o err now)
  | ERecover => no_dispatch (recoverInterruptedDispatches locale_le now)
  | ERecoverById ids => no_dispatch (recoverInterruptedDispatchesById locale_le ids now)
  end.

Context (path : jsstr).
(** The state in the file of the store. *)
Definition stored (w : world) : option CronJobsState :=
  match files w !! path with None => Some {| jobs := []; dispatches := [] |} | Some (inl st) => Some st | Some (inr _) => None end.
(** The occurrences that dispatches stand for, by the records of the file. *)
Definition occurrence (st : CronJobsState) (c : AgentCronDispatch) : jsstr * option stamp :=
  (id (c_job c), scheduledFor <$> find (fun d => jseqb (d_id d) (c_id c)) (dispatches st)).
Fixpoint run (es : list (Z * event)) (w : world) : list (jsstr * option stamp) * world :=
  match es with
  | [] => ([], w)
  | (now, e) :: es =>
      let '(r, w1) := perform now e w in
      let claimed := match r with inl cs => occurrence (default {| jobs := []; dispatches := [] |} (stored w1)) <$> cs | inr _ => [] end in
      let '(claimed', w2) := run es w1 in (claimed ++ claimed', w2)
  end.
End runs.

(** ** What the operations keep *)

(** The file holds [st], in a store with one file; no other process writes it. *)
Record at_ (path : jsstr) (st : CronJobsState) (n : nat) (w : world) : Prop := {
  at_mode : filePath w = Some path /\ path <> [] /\ sessionArtifactMode w = false;
  at_file : stored path w = Some st;
  at_drawn : drawn w = n;
  at_alone : Forall (fun f => match f with Meanwhile _ => False | _ => True end) (fates w) }.

Section calls.
Context (path : jsstr).
Notation at_ := (at_ path).

Definition calm {A} (m : op A) : Prop := forall st n w, at_ st n w -> after m (fun _ => at_ st n) (fun _ => at_ st n) w.

Lemma at_counters st n w k fs : at_ st n w -> Forall (fun f => match f with Meanwhile _ => False | _ => True end) fs -> at_ st n (set_counters k n fs w).
Proof. by intros [? ? ? ?] Hf; constructor. Qed.
Lemma fate_spec st n w : at_ st n w -> after next_fate (fun f w' => at_ st n w' /\ match f with Meanwhile _ => False | _ => True end) (fun _ _ => False) w.
Proof.
  intros H. pose proof H as [? ? Hn Ha]. unfold after, next_fate. destruct (fates w) as [|f fs] eqn:E; [done|]. apply list.Forall_cons in Ha as [Hf Ha].
  split; [|done]. rewrite Hn. by apply at_counters.
Qed.
Lemma calm_external : calm external.
Proof.
  intros st n w H. unfold external. apply after_bind. eapply after_mono; [by apply fate_spec| |done]. intros f w' [Hw Hf]. by destruct f.
Qed.
Lemma calm_bind {A B} (m : op A) (f : A -> op B) : calm m -> (forall a, calm (f a)) -> calm (m ≫= f).
Proof. intros Hm Hf st n w H. apply after_bind. eapply after_mono; [by apply Hm|intros a w' Hw; by apply Hf|done]. Qed.
Lemma calm_ret {A} (a : A) : calm (mret a).
Proof. by intros st n w H. Qed.
Lemma calm_release k : calm (release_all k).
Proof. induction k as [|k IH]; cbn [release_all]; [apply calm_ret|]. apply calm_bind; [apply calm_external|done]. Qed.
Lemma calm_acquire paths k : calm (acquire_all paths k).
Proof.
  revert k. induction paths as [|p paths IH]; intros k; cbn [acquire_all]; [apply calm_ret|]. apply calm_bind; [|done].
  intros st n w H. apply after_catching. eapply after_mono; [by apply calm_external|done|]. intros e w' Hw. apply after_bind.
  eapply after_mono; [exact (calm_release k st n w' Hw)|by intros [] w'' Hw'|done].
Qed.
Lemma calm_notify : calm notifyHeartbeatChange.
Proof.
  apply calm_bind; [|intros; apply calm_external]. intros st n w H. unfold after, update. destruct H as [? ? <- ?]. by constructor.
Qed.

(** The state before, or after, what an operation does to the file. *)
Definition either (st st' : CronJobsState) (n : nat) (w : world) : Prop := at_ st n w \/ at_ st' n w.

Lemma read_eq st n w : at_ st n w -> readJobsState path w = (inl st, w).
Proof. intros [_ Hf _ _]. unfold readJobsState, stored, mbind, se_bind, current in *. by destruct (files w !! path) as [[s|m]|]; simplify_eq. Qed.
Lemma paths_eq st n w : at_ st n w -> paths_of_store w = (inl [path], w).
Proof. intros [(Hp & Hne & Hm) _ _ _]. unfold paths_of_store, requireFilePath, current, mbind, se_bind. rewrite Hm, Hp. by destruct path. Qed.
Lemma readJobs_eq st n w : at_ st n w -> readJobs w = (inl (jobs st), w).
Proof.
  intros H. unfold readJobs, readStates, mbind, se_bind. rewrite (paths_eq st n w H). cbn [each]. unfold mbind, se_bind. rewrite (read_eq st n w H).
  unfold mret, se_ret. cbn. by rewrite app_nil_r.
Qed.

Lemma write_state st n w st' : at_ st n w -> after (writeJobsState path st') (fun _ => at_ st' n) (fun _ => either st st' n) w.
Proof.
  intros H. unfold writeJobsState. apply after_bind. eapply after_mono; [by apply fate_spec| |done]. intros f w' [Hw Hf].
  assert (Hr : at_ st' n (set_files (<[path := inl st']> (files w')) w')).
  { destruct Hw as [? ? ? ?]. constructor; [done| |done|done]. unfold stored. cbn. by rewrite lookup_insert_eq. }
  destruct f; [done|by left|by right|done].
Qed.

Lemma locked {A} (m : op A) (Q : A -> Prop) st st' n n' w : at_ st n w ->
  (forall w, at_ st n w -> after m (fun a w' => at_ st' n' w' /\ Q a) (fun _ w' => at_ st n w' \/ either st st' n' w') w) ->
  after (withCronJobsStateLocks [path] m) (fun a w' => at_ st' n' w' /\ Q a) (fun _ w' => at_ st n w' \/ either st st' n' w') w.
Proof.
  intros H Hm. unfold withCronJobsStateLocks. apply after_bind. eapply after_mono; [by apply calm_acquire| |by left]. intros a1 w1 H1. change (at_ st n w1) in H1.
  apply after_ensuring. eapply after_mono; [by apply Hm| |].
  - intros a w2 [H2 Ha]. eapply after_mono; [by apply calm_release|done|]. intros e w3 H3. right. by right.
  - intros e w2 [H2|[H2|H2]]; (eapply after_mono; [by apply calm_release| |]).
    1,2: by left. 1,2: right; by left. all: right; by right.
Qed.
End calls.

(** ** Jobs and files *)

(** What happens to a job at [now]: its next run is kept, dropped, or later than now, and when it has ended it stays so. *)
Record tame (now : Z) (j j' : AgentCronJob) : Prop := {
  tame_id : id j' = id j;
  tame_updated : updatedAt j' = updatedAt j \/ updatedAt j' = At now;
  tame_next : nextRunAt j' = nextRunAt j \/ nextRunAt j' = None \/ exists t, nextRunAt j' = Some (At t) /\ now < t;
  tame_ended : ended j = true -> ended j' = true }.
Lemma tame_refl now j : tame now j j.
Proof. constructor; auto. Qed.

Section files.
Context (uuid : nat -> jsstr) (Huuid : forall a b, uuid a = uuid b -> a = b).

Definition drawn_before (n : nat) (i : jsstr) : Prop := exists k, (k < n)%nat /\ i = uuid k.
Record job_ok (now : Z) (n : nat) (j : AgentCronJob) : Prop := {
  job_updated : exists t, updatedAt j = At t /\ t <= now;
  job_drawn : drawn_before n (id j) }.
(** A file of the store at [now]: jobs and dispatches have identifiers of their own, and a job has at most one open dispatch. *)
Record fine (now : Z) (n : nat) (st : CronJobsState) : Prop := {
  fine_ids : NoDup (id <$> jobs st);
  fine_jobs : Forall (job_ok now n) (jobs st);
  fine_open : NoDup (jobId <$> dispatches st);
  fine_dispatches : NoDup (d_id <$> dispatches st) /\ Forall (fun d => drawn_before n (d_id d)) (dispatches st) }.

(** The jobs after an operation: each as it was or tame, and new ones behind. *)
Record grown (now : Z) (n n' : nat) (old js_ new_ : list AgentCronJob) : Prop := {
  grown_old : Forall2 (tame now) old js_;
  grown_new : Forall (fun j => updatedAt j = At now /\ exists k, (n <= k < n')%nat /\ id j = uuid k) new_;
  grown_ids : NoDup (id <$> new_) }.
Definition evolves (now : Z) (n n' : nat) (st st' : CronJobsState) : Prop :=
  (n <= n')%nat /\ (exists js_ new_, jobs st' = js_ ++ new_ /\ grown now n n' (jobs st) js_ new_) /\
  NoDup (jobId <$> dispatches st') /\ NoDup (d_id <$> dispatches st') /\ Forall (fun d => drawn_before n' (d_id d)) (dispatches st').

Lemma drawn_mono n n' i : (n <= n')%nat -> drawn_before n i -> drawn_before n' i.
Proof. intros Hn (k & Hk & ->). exists k. split; [lia|done]. Qed.
Lemma grown_same now n old js_ new_ : grown now n n old js_ new_ -> new_ = [].
Proof. intros [_ Hn _]. destruct new_ as [|j new_]; [done|]. apply list.Forall_cons in Hn as [(_ & k & Hk & _) _]. lia. Qed.
Lemma tame_ids now old js_ : Forall2 (tame now) old js_ -> id <$> js_ = id <$> old.
Proof. induction 1 as [|j j' old js_ Ht _ IH]; [done|]. rewrite !fmap_cons, IH. f_equal. apply Ht. Qed.

Lemma evolves_fine now n n' st st' : fine now n st -> evolves now n n' st st' -> fine now n' st'.
Proof.
  intros [H1 H2 H3 [H4 H5]] (Hn & (js_ & new_ & Hj & [G1 G2 G3]) & E1 & E2 & E3). constructor; [| |done|done].
  - rewrite Hj, fmap_app, (tame_ids now (jobs st)) by done. apply NoDup_app. split_and!; [done| |done]. intros i Hi1 Hi2.
    apply list_elem_of_fmap in Hi1 as (j1 & -> & Hj1). apply list_elem_of_fmap in Hi2 as (j2 & Hid & Hj2).
    rewrite list.Forall_forall in H2, G2. destruct (H2 j1 Hj1) as [_ (k & Hk & Hk1)]. destruct (G2 j2 Hj2) as (_ & k2 & Hk2 & Hk3).
    rewrite Hid, Hk3 in Hk1. apply Huuid in Hk1. lia.
  - rewrite Hj. apply list.Forall_app. split.
    + clear Hj. induction G1 as [|j j' old js_ Ht _ IH]; [done|]. apply list.Forall_cons in H2 as [[(t & Ht1 & Ht2) Hd] H2].
      rewrite fmap_cons in H1. apply NoDup_cons in H1 as [_ H1]. apply list.Forall_cons. split; [|by apply IH]. destruct Ht as [Hi Hu _ _]. constructor.
      * destruct Hu as [->| ->]; [by exists t|by exists now].
      * rewrite Hi. by eapply drawn_mono.
    + eapply list.Forall_impl; [exact G2|]. intros j (Hu & k & Hk & Hi). constructor; [by exists now|]. exists k. split; [lia|done].
Qed.
Lemma evolves_refl now n st : fine now n st -> evolves now n n st st.
Proof.
  intros [H1 H2 H3 [H4 H5]]. split; [done|]. split_and!; [|done..]. exists (jobs st), []. rewrite app_nil_r. split; [done|]. constructor; [|done|constructor].
  apply Forall2_same_length_lookup_2; [done|]. intros i x y Hx Hy. simplify_eq. apply tame_refl.
Qed.
Lemma fine_later now now' n st : now <= now' -> fine now n st -> fine now' n st.
Proof.
  intros Hn [H1 H2 H3 H4]. constructor; [done| |done|done]. eapply list.Forall_impl; [exact H2|]. intros j [(t & Ht & Hle) Hd]. constructor; [|done]. exists t. split; [done|lia].
Qed.

(** ** Merging *)

Definition keyed (js_ : list AgentCronJob) : list (jsstr * AgentCronJob) := (fun j => (id j, j)) <$> js_.
Lemma keyed_ids js_ : (keyed js_).*1 = id <$> js_.
Proof. unfold keyed. rewrite <- list_fmap_compose. done. Qed.
Lemma keyed_jobs js_ : (keyed js_).*2 = js_.
Proof. unfold keyed. rewrite <- list_fmap_compose. by rewrite list_fmap_id. Qed.
Lemma by_id_keyed js_ : NoDup (id <$> js_) -> by_id js_ = keyed js_.
Proof.
  intros Hnd. unfold by_id. change (keyed js_) with ([] ++ keyed js_). assert (H : forall pre, NoDup ((id <$> pre) ++ (id <$> js_)) ->
    foldl (fun m j => JsMap.set m (id j) j) (keyed pre) js_ = keyed pre ++ keyed js_); [|by apply (H [])].
  clear Hnd. induction js_ as [|j js_ IH]; intros pre Hnd; [by rewrite app_nil_r|]. cbn [foldl]. rewrite fmap_cons in Hnd.
  assert (Hn : id j ∉ (keyed pre).*1) by (rewrite keyed_ids; apply NoDup_app in Hnd as (_ & Hnd & _); intros Hin; apply (Hnd _ Hin); by left).
  rewrite set_new by done. change (keyed pre ++ [(id j, j)]) with (keyed pre ++ keyed [j]). unfold keyed at 1 2. rewrite <- fmap_app. fold (keyed (pre ++ [j])).
  rewrite IH; [unfold keyed; by rewrite fmap_app, <- (assoc_L app)|]. rewrite fmap_app, <- (assoc_L app). done.
Qed.
Lemma set_middle {V} (pre post : list (jsstr * V)) k v v' : k ∉ pre.*1 -> JsMap.set (pre ++ (k, v) :: post) k v' = pre ++ (k, v') :: post.
Proof.
  induction pre as [|[k1 v1] pre IH]; cbn; [by rewrite decide_True|]. rewrite not_elem_of_cons. intros [Hk Hp]. rewrite decide_False by done. by rewrite IH.
Qed.
Lemma get_middle {V} (pre post : list (jsstr * V)) k v : k ∉ pre.*1 -> JsMap.get (pre ++ (k, v) :: post) k = Some v.
Proof. induction pre as [|[k1 v1] pre IH]; cbn; [by rewrite decide_True|]. rewrite not_elem_of_cons. intros [Hk Hp]. rewrite decide_False by done. by apply IH. Qed.

(** Merging what was read a moment ago, with changes made now, gives the changes. *)
Lemma merge_grown now n n' st js_ new_ : fine now n st -> grown now n n' (jobs st) js_ new_ -> mergeFreshJobs (jobs st) (js_ ++ new_) = js_ ++ new_.
Proof.
  intros Hf [G1 G2 G3]. unfold mergeFreshJobs. rewrite by_id_keyed by apply Hf. set (step := fun merged j => _).
  assert (Hold : forall pre old js1, Forall2 (tame now) old js1 -> NoDup ((id <$> pre) ++ (id <$> old)) -> Forall (job_ok now n) old ->
    foldl step (keyed pre ++ keyed old) js1 = keyed (pre ++ js1)).
  { intros pre old js1 H. revert pre. induction H as [|j j' old js1 Ht _ IH]; intros pre Hnd Hok; [by rewrite !app_nil_r|].
    cbn [foldl]. apply list.Forall_cons in Hok as [[(t & Hu & Hle) _] Hok]. destruct Ht as [Hi Hu' _ _]. rewrite fmap_cons in Hnd.
    assert (Hn : id j ∉ (keyed pre).*1) by (rewrite keyed_ids; apply NoDup_app in Hnd as (_ & Hnd & _); intros Hin; apply (Hnd _ Hin); by left).
    change (keyed (j :: old)) with ((id j, j) :: keyed old). unfold step at 2. rewrite Hi, get_middle by done.
    assert (Hfresh : isAtLeastAsFresh j' j = true).
    { unfold isAtLeastAsFresh. destruct Hu' as [->| ->]; rewrite Hu; cbn; apply Z.leb_le; lia. }
    rewrite Hfresh, set_middle by done. replace (keyed pre ++ (id j, j') :: keyed old) with (keyed (pre ++ [j']) ++ keyed old).
    2: { unfold keyed. rewrite fmap_app, <- (assoc_L app). cbn. by rewrite Hi. }
    rewrite IH; [by rewrite <- (assoc_L app)| |done]. rewrite fmap_app, <- (assoc_L app). cbn. by rewrite Hi. }
  assert (Hnew : forall pre, (forall j, j ∈ new_ -> id j ∉ id <$> pre) -> foldl step (keyed pre) new_ = keyed (pre ++ new_)).
  { clear G2. induction new_ as [|j new_ IH]; intros pre Hd; [by rewrite app_nil_r|]. rewrite fmap_cons in G3. apply NoDup_cons in G3 as [Hj G3]. cbn [foldl].
    assert (Hn : id j ∉ (keyed pre).*1) by (rewrite keyed_ids; apply Hd; by left). unfold step at 2. rewrite (proj2 (get_None (keyed pre) (id j)) Hn), set_new by done.
    change (keyed pre ++ [(id j, j)]) with (keyed pre ++ keyed [j]). unfold keyed at 1 2. rewrite <- fmap_app. fold (keyed (pre ++ [j])). rewrite IH; [by rewrite <- (assoc_L app)|done|].
    intros k Hk. rewrite fmap_app, elem_of_app. intros [Hin|Hin]; [by apply (Hd k); [right|]|]. apply list_elem_of_singleton in Hin. apply Hj. rewrite <- Hin. by apply list_elem_of_fmap_2. }
  rewrite foldl_app. pose proof (Hold [] (jobs st) js_ G1 ltac:(apply Hf) ltac:(apply Hf)) as Ho. cbn [app keyed fmap list_fmap] in Ho. change (keyed [] ++ keyed (jobs st)) with (keyed (jobs st)) in Ho.
  rewrite Ho. rewrite Hnew; [apply keyed_jobs|]. intros j Hj. rewrite (tame_ids now (jobs st)) by done. intros Hin.
  apply list_elem_of_fmap in Hin as (j0 & Hi & Hj0). rewrite list.Forall_forall in G2. destruct (G2 j Hj) as (_ & k & Hk & Hik).
  pose proof (fine_jobs _ _ _ Hf) as Hjobs. rewrite list.Forall_forall in Hjobs. destruct (Hjobs j0 Hj0) as [_ (k0 & Hk0 & Hi0)]. rewrite Hi, Hi0 in Hik. apply Huuid in Hik. lia.
Qed.

(** ** Operations at an instant *)

Context (z : zone) (date_of_text : jsstr -> option Z) (resolve : jsstr -> jsstr) (locale_le : jsstr -> jsstr -> bool) (path : jsstr) (now : Z).
Notation at_ := (at_ path).

Lemma calm_notify_if previous : calm path (notify_if_changed locale_le previous).
Proof.
  intros st n w H. unfold notify_if_changed. eapply after_eq; [by eapply readJobs_eq|]. destruct (bool_decide _); [done|by apply calm_notify].
Qed.

Lemma writeJobs_spec st n n' js_ new_ w : at_ st n' w -> fine now n st -> grown now n n' (jobs st) js_ new_ ->
  let st' := {| jobs := js_ ++ new_; dispatches := dispatches st |} in
  after (writeJobs locale_le (js_ ++ new_)) (fun _ => at_ st' n') (fun _ => either path st st' n') w.
Proof.
  intros H Hf Hg st'. unfold writeJobs. eapply after_eq; [by eapply readJobs_eq|]. eapply after_eq; [done|]. cbv zeta. pose proof (at_mode _ _ _ _ H) as (Hp & Hne & Hm). rewrite Hm.
  assert (Hr : requireFilePath w = (inl path, w)). { unfold requireFilePath, current, mbind, se_bind. rewrite Hp. by destruct path. }
  eapply after_eq; [exact Hr|]. apply after_bind. eapply after_mono.
  - apply (locked path (writeJobsFile path (js_ ++ new_) true) (fun _ => True) st st' n' n'); [done|]. intros w1 H1. unfold writeJobsFile. eapply after_eq; [by eapply read_eq|].
    rewrite (merge_grown now n n' st js_ new_ Hf Hg). eapply after_mono; [by apply write_state|by intros [] w2 H2|]. intros e w2 H2. by right.
  - intros [] w1 [H1 _]. eapply after_mono; [by apply calm_notify_if|done|]. intros e w2 H2. by right.
  - intros e w1 [H1|H1]; [by left|done].
Qed.

(** What an operation leaves in the file is sound again, whether it returns or throws. *)
Definition leaves (n : nat) (st : CronJobsState) (w : world) : Prop := exists st' n', at_ st' n' w /\ evolves now n n' st st'.
Definition sound_after {A} (m : op A) : Prop := forall st n w, at_ st n w -> fine now n st -> after m (fun _ => leaves n st) (fun _ => leaves n st) w.

Lemma evolves_grown n n' st js_ new_ : fine now n st -> (n <= n')%nat -> grown now n n' (jobs st) js_ new_ ->
  evolves now n n' st {| jobs := js_ ++ new_; dispatches := dispatches st |}.
Proof.
  intros [_ _ H3 [H4 H5]] Hn Hg. split; [done|]. split_and!; [by exists js_, new_|done|done|]. eapply list.Forall_impl; [exact H5|]. intros d. by apply drawn_mono.
Qed.
Lemma evolves_drawn n n' st : fine now n st -> (n <= n')%nat -> evolves now n n' st st.
Proof.
  intros Hf Hn. destruct (evolves_refl now n st Hf) as (_ & (js_ & new_ & Hj & Hg) & _). pose proof (grown_same _ _ _ _ _ Hg) as ->. rewrite app_nil_r in Hj.
  destruct st as [js0 ds]. cbn in Hj. subst. pose proof (evolves_grown n n' {| jobs := js_; dispatches := ds |} js_ [] Hf Hn) as H. cbn in H. rewrite app_nil_r in H.
  apply H. destruct Hg as [G1 _ _]. constructor; [done|done|constructor].
Qed.

(** What [f] makes of each job, up to its first error. *)
Fixpoint changes (f : AgentCronJob -> option AgentCronJob + jsstr) (js_ : list AgentCronJob) : list (AgentCronJob * option AgentCronJob) + jsstr :=
  match js_ with
  | [] => inl []
  | j :: js_ => match f j with
                | inl r => match changes f js_ with inl rs => inl ((j, r) :: rs) | inr e => inr e end
                | inr e => inr e
                end
  end.
Lemma each_returning (f : AgentCronJob -> option AgentCronJob + jsstr) js_ (w : world) :
  each (fun j => r ← returning (f j); mret (j, r)) js_ w = (changes f js_, w).
Proof.
  induction js_ as [|j js_ IH]; [done|]. cbn [each changes]. unfold mbind, se_bind, returning, mret, se_ret in *. destruct (f j) as [r|e]; [|done]. rewrite IH. by destruct (changes f js_).
Qed.

(** A change of the jobs, one by one. *)
Lemma change_jobs_at (f : AgentCronJob -> option AgentCronJob + jsstr) st n w : at_ st n w -> fine now n st ->
  (forall j j', j ∈ jobs st -> f j = inl (Some j') -> tame now j j') -> after (change_jobs locale_le f) (fun _ => leaves n st) (fun _ => leaves n st) w.
Proof.
  intros H Hfine Hf. unfold change_jobs. eapply after_eq; [by eapply readJobs_eq|]. apply after_bind. unfold after at 1. rewrite each_returning.
  assert (Hsame : leaves n st w) by (exists st, n; split; [done|by apply evolves_refl]). destruct (changes f (jobs st)) as [rs|e] eqn:Eg; [|done].
  assert (Ht : Forall2 (tame now) (jobs st) ((fun r : AgentCronJob * option AgentCronJob => default r.1 r.2) <$> rs)).
  { clear -Eg Hf. revert rs Eg Hf. induction (jobs st) as [|j js_ IH]; intros rs; cbn; [by intros [= <-]|].
    destruct (f j) as [r|] eqn:Ej; [|done]. destruct (changes f js_) as [rs'|]; [|done]. intros [= <-] Hf. rewrite fmap_cons.
    constructor; [|apply IH; [done|]; intros j1 j2 Hj1; apply Hf; by right]. cbn. destruct r as [j'|]; [by apply Hf; [left|]|apply tame_refl]. }
  destruct (omap snd rs) as [|c cs]; [done|].
  assert (Hg : grown now n n (jobs st) ((fun r : AgentCronJob * option AgentCronJob => default r.1 r.2) <$> rs) []) by (constructor; [done|done|constructor]).
  pose proof (writeJobs_spec st n n _ [] w H Hfine Hg) as Hw. cbv zeta in Hw. rewrite app_nil_r in Hw. pose proof (evolves_grown n n st _ [] Hfine ltac:(lia) Hg) as He. rewrite app_nil_r in He.
  apply after_bind. eapply after_mono; [exact Hw| |]; cbn beta.
  - intros [] w1 H1. by eexists _, _.
  - intros e w1 [H1|H1]; [exists st, n; split; [done|by apply evolves_refl]|by eexists _, _].
Qed.
Lemma change_jobs_sound (f : AgentCronJob -> option AgentCronJob + jsstr) :
  (forall j j', f j = inl (Some j') -> tame now j j') -> sound_after (change_jobs locale_le f).
Proof. intros Hf st n w H Hfine. apply change_jobs_at; [done|done|]. intros j j' _. apply Hf. Qed.
Lemma sound_map {A B} (g : A -> B) (m : op A) : sound_after m -> sound_after (g <$> m).
Proof. intros Hm st n w H Hf. specialize (Hm st n w H Hf). unfold after, fmap, se_fmap in *. by destruct (m w) as [[a|e] w']. Qed.
Lemma sound_ret {A} (a : A) : sound_after (mret a).
Proof. intros st n w H Hf. exists st, n. split; [done|by apply evolves_refl]. Qed.
Lemma sound_nothing {A} (m : op A) : sound_after m -> sound_after (no_dispatch m).
Proof. intros Hm st n w H Hf. apply after_bind. eapply after_mono; [by apply Hm|done|done]. Qed.

(** ** The operations one by one *)

(** Neither [now] nor the millisecond after it comes back on the wall clock. *)
Definition steady (t : Z) : Prop := shown z t = t /\ shown z (t + 1) = t + 1 /\ Z.abs t <= 8500000000000000.
Context (Hz : zone_ok z) (Hnow : steady now).

Lemma next_stamp_later s t n : shown z t = t -> Z.abs t <= 8600000000000000 -> next_stamp z s t = inl (Some n) -> exists u, n = At u /\ t < u.
Proof.
  intros Hs Hb. unfold next_stamp, nextRunAtForSchedule. destruct (s_kind s); [done| |].
  - destruct (nextCronRunAfter z (s_expression s) t) as [u|] eqn:E; [|done]. cbn. intros [= <-]. exists u. split; [done|by apply (next_run_later z Hz (s_expression s))].
  - destruct (Z.leb_spec (default 0 (intervalMs s)) 0); [done|]. unfold time_clip. destruct (_ <=? _); [|done]. cbn. intros [= <-]. eexists. split; [done|lia].
Qed.
Lemma next_stamp_now s n : next_stamp z s now = inl (Some n) -> exists u, n = At u /\ now < u.
Proof. apply next_stamp_later; [apply Hnow|]. destruct Hnow as (_ & _ & H). lia. Qed.

Lemma tame_run st next (j : AgentCronJob) : (st = status j \/ ended j = false \/ st = JCancelled \/ st = JCompleted) ->
  (next = None \/ next = nextRunAt j \/ exists u, next = Some (At u) /\ now < u) -> tame now j (with_run st next (At now) j).
Proof.
  intros Hs Hn. constructor; [done|by right|cbn; naive_solver|]. unfold ended. cbn. intros He. destruct Hs as [->|[Hs|[->| ->]]]; [done|unfold ended in Hs; congruence|done|done].
Qed.
Lemma tame_results last_ skipped err runs j j' : tame now j j' -> tame now j (with_results last_ skipped err runs j').
Proof. by intros [? ? ? ?]; constructor. Qed.
Lemma tame_cancelled j : tame now j (cancelled_job now j).
Proof. apply tame_run; auto. Qed.
Lemma tame_resumed s j j' : ended j = false -> resumed_job z now s j = inl j' -> tame now j j'.
Proof.
  intros He. unfold resumed_job. destruct (next_stamp z s now) as [[n|]|] eqn:E; [|done..]. intros [= <-]. apply next_stamp_now in E as (u & -> & Hu).
  apply tame_run; [auto|right; right; by exists u].
Qed.
Lemma live_not_ended j : live j = true -> ended j = false.
Proof. unfold live, ended. by destruct (status j). Qed.

Lemma parsed_later text parsed t : parseAgentCronSchedule z date_of_text text now = inl parsed -> s_kind parsed.1 <> Once -> parsed.2 = Some t -> now < t.
Proof.
  intros Hp Hk Ht. unfold parseAgentCronSchedule in Hp. set (tx := stripMatchingQuotes _) in Hp. destruct (bool_decide (tx = [])); [done|].
  destruct (read_amount [js "in"] _ tx) as [[a u]|]; [by injection Hp as <-|]. destruct (read_amount _ _ tx) as [[a u]|] eqn:E.
  - apply read_amount_nonneg in E as [Ha _]. set (m := a * _) in Hp. destruct (Z.ltb_spec m (10 * ONE_SECOND_MS)) as [|Hm]; [done|]. injection Hp as <-. cbn in Ht.
    unfold time_clip in Ht. destruct (_ <=? _); [|done]. injection Ht as <-. unfold ONE_SECOND_MS in Hm. lia.
  - destruct (starts_with _ _).
    + destruct (date_of_text _) as [d|]; [|done]. destruct (d <=? now); [done|]. by injection Hp as <-.
    + destruct (nextCronRunAfter z _ now) as [d|] eqn:En; [|done]. injection Hp as <-. injection Ht as <-. destruct Hnow as (Hs & _ & Hb).
      apply (next_run_later z Hz (normalizeCronAlias tx)) in En; [done|done|lia].
Qed.

Lemma tame_updated_rlm u j j' : ended j = false -> updated_rlm z date_of_text u now j = inl j' -> tame now j j'.
Proof.
  intros He. unfold updated_rlm. destruct (match u_prompt u with Some _ => _ | None => _ end) as [p|]; [|done].
  set (l := match u_label u with Some _ => _ | None => _ end). set (d := match u_deliveryMode u with Some _ => _ | None => _ end).
  set (r2 := match u_scheduleText u with Some _ => _ | None => _ end). destruct r2 as [j2|] eqn:E2; [|done].
  assert (H2 : id j2 = id j /\ (nextRunAt j2 = nextRunAt j \/ nextRunAt j2 = None \/ exists t, nextRunAt j2 = Some (At t) /\ now < t)).
  { unfold r2 in E2. destruct (u_scheduleText u) as [text|]; [|injection E2 as <-; cbn; auto]. destruct (parseAgentCronSchedule _ _ text now) as [parsed|] eqn:Ep; [|done].
    unfold recurring in E2. destruct (decide (s_kind parsed.1 = Once)) as [Hk|Hk]; [by rewrite bool_decide_eq_true_2 in E2|]. rewrite bool_decide_eq_false_2 in E2 by done.
    destruct (bool_decide (status j = JPaused)); [injection E2 as <-; cbn; auto|]. destruct parsed.2 as [t|] eqn:Et; [|done]. injection E2 as <-. cbn. split; [done|]. right. right.
    exists t. split; [done|by eapply parsed_later]. }
  destruct H2 as [Hi Hn]. destruct (u_status u) as [[]|].
  - intros [= <-]. constructor; cbn; [done|by right|auto|]. congruence.
  - destruct (next_stamp z (schedule j2) now) as [[n|]|] eqn:En; [|done..]. intros [= <-]. apply next_stamp_now in En as (t & -> & Ht). constructor; cbn; [done|by right| |congruence].
    right. right. by exists t.
  - intros [= <-]. constructor; cbn; [done|by right|done|congruence].
Qed.

Lemma tame_settled outcome err j j' : settled_job z outcome err now j = inl j' -> tame now j j'.
Proof.
  unfold settled_job. set (st := if bool_decide (s_kind (schedule j) = Once) then _ else _).
  assert (Hst : st = status j \/ ended j = false \/ st = JCancelled \/ st = JCompleted) by (unfold st; case_bool_decide; auto).
  destruct (bool_decide (outcome = Skipped) && _).
  - destruct (next_stamp z (schedule j) now) as [n|] eqn:En; [|done]. intros [= <-]. apply tame_results, tame_run; [done|].
    destruct n as [n|]; [|by left]. apply next_stamp_now in En as (t & -> & Ht). right. right. by exists t.
  - intros [= <-]. apply tame_results, tame_run; auto.
Qed.
Lemma tame_interrupted j : tame now j (interrupted_job now j).
Proof. apply tame_results, tame_run; [case_bool_decide; auto|auto]. Qed.

Lemma uuid_spec st n w : at_ st n w -> exists w', randomUUID uuid w = (inl (uuid n), w') /\ at_ st (S n) w'.
Proof.
  intros [? ? <- ?]. eexists. split; [done|]. by constructor.
Qed.
(** A new job behind the jobs of the file, which may be changed with it. *)
Lemma cron_append_sound (g : AgentCronJob -> AgentCronJob) job st n w : at_ st (S n) w -> fine now n st -> (forall j, tame now j (g j)) -> id job = uuid n -> updatedAt job = At now ->
  after (writeJobs locale_le ((g <$> jobs st) ++ [job]) ;; mret job) (fun _ => leaves n st) (fun _ => leaves n st) w.
Proof.
  intros H Hf Hg Hi Hu. assert (G : grown now n (S n) (jobs st) (g <$> jobs st) [job]).
  { constructor; [|apply list.Forall_cons; split; [split; [done|exists n; split; [lia|done]]|done]|apply NoDup_singleton].
    apply Forall2_fmap_r, Forall_Forall2_diag, list.Forall_forall. intros j _. apply Hg. }
  pose proof (evolves_grown n (S n) st _ [job] Hf ltac:(lia) G) as He. apply after_bind. eapply after_mono; [by apply (writeJobs_spec st n (S n))| |]; cbn beta.
  - intros [] w1 H1. by eexists _, _.
  - intros e w1 [H1|H1]; [exists st, (S n); split; [done|apply evolves_drawn; [done|lia]]|by eexists _, _].
Qed.
Lemma leaves_drawn n k st w : at_ st k w -> fine now n st -> (n <= k)%nat -> leaves n st w.
Proof. intros H Hf Hk. exists st, k. split; [done|by apply evolves_drawn]. Qed.

Ltac sum_step := apply after_returning; [intros ? ?|intros ? ?; by eapply leaves_drawn; [done|done|lia]].
Ltac uuid_step H := edestruct uuid_spec as (? & ? & ?); [exact H|]; eapply after_eq; [done|].

Lemma create_sound i : sound_after (create z date_of_text uuid locale_le i now).
Proof.
  intros st n w H Hf. unfold create. sum_step. sum_step. uuid_step H. sum_step. eapply after_eq; [by eapply readJobs_eq|].
  rewrite <- (list_fmap_id (jobs st)). apply cron_append_sound; [done|done|apply tame_refl|done|done].
Qed.
Lemma createHeartbeat_sound i : sound_after (createHeartbeat z date_of_text uuid locale_le i now).
Proof.
  intros st n w H Hf. unfold createHeartbeat. sum_step. sum_step. eapply after_eq; [by eapply readJobs_eq|]. sum_step. uuid_step H. sum_step.
  apply cron_append_sound; [done|done| |done|done]. intros j. unfold replaced_heartbeat. destruct (_ && _); [apply tame_cancelled|apply tame_refl].
Qed.
Lemma createRlmHeartbeat_sound i : sound_after (createRlmHeartbeat z date_of_text uuid locale_le i now).
Proof.
  intros st n w H Hf. unfold createRlmHeartbeat. sum_step. sum_step. sum_step. uuid_step H. sum_step. eapply after_eq; [by eapply readJobs_eq|].
  rewrite <- (list_fmap_id (jobs st)). apply cron_append_sound; [done|done|apply tame_refl|done|done].
Qed.

Lemma heartbeat_found active st n w : at_ st n w -> exists r, getHeartbeat active w = (inl r, w) /\ forall j, r = Some j -> ended j = false /\ j ∈ jobs st.
Proof.
  intros H. eexists. split; [unfold getHeartbeat, mbind, se_bind; by rewrite (readJobs_eq path st n w H)|]. intros j Hj.
  assert (Hin : forall l, head (sort_by newest_first l) = Some j -> j ∈ l).
  { intros l. unfold sort_by. assert (Hins : forall x k, insert_by newest_first x k ≡ₚ x :: k).
    { intros x k. induction k as [|y k IH]; [done|]. cbn. destruct (newest_first x y); [done|]. rewrite IH. apply perm_swap. }
    assert (Hp : foldr (insert_by newest_first) [] l ≡ₚ l) by (induction l as [|x l IH]; [done|]; cbn; by rewrite Hins, IH).
    rewrite head_lookup. intros Hh. rewrite <- Hp. by eapply list_elem_of_lookup_2. }
  apply Hin in Hj. apply list_elem_of_filter in Hj as [Hj Hjs]. apply andb_true_iff in Hj as [_ Hl]. split; [by apply live_not_ended|done].
Qed.

(** Of jobs with different identifiers, the one with that of [found] is [found]. *)
Lemma change_found_sound st n w found (f : AgentCronJob -> AgentCronJob + jsstr) : at_ st n w -> fine now n st -> found ∈ jobs st ->
  (forall j', f found = inl j' -> tame now found j') ->
  after (change_jobs locale_le (fun j => if jseqb (id j) (id found) then match f j with inl j' => inl (Some j') | inr e => inr e end else inl None))
    (fun _ => leaves n st) (fun _ => leaves n st) w.
Proof.
  intros H Hf Hin Ht. apply change_jobs_at; [done|done|]. intros j j' Hj. unfold jseqb. case_bool_decide as Hi; [|done].
  assert (Heq : j = found).
  { pose proof (fine_ids _ _ _ Hf) as Hnd. apply list_elem_of_lookup in Hj as [x Hx], Hin as [y Hy]. assert (x = y) as ->; [|congruence].
    apply (NoDup_lookup _ x y (id j) Hnd); rewrite list_lookup_fmap, ?Hx, ?Hy; [done|cbn; congruence]. }
  subst. destruct (f found) as [j2|]; [|done]. intros [= <-]. by apply Ht.
Qed.

Lemma change_heartbeat_sound active f : (forall j j', ended j = false -> f j = inl j' -> tame now j j') -> sound_after (change_heartbeat locale_le active f).
Proof.
  intros Ht st n w H Hf. unfold change_heartbeat. destruct (heartbeat_found active st n w H) as (r & Hr & Hfound). eapply after_eq; [exact Hr|].
  destruct r as [found|]; [|by apply sound_ret]. destruct (Hfound found eq_refl) as [He Hin].
  pose proof (change_found_sound st n w found f H Hf Hin (fun j' => Ht found j' He)) as Hc. unfold after, fmap, se_fmap in *. by destruct (change_jobs _ _ w) as [[a|e] w'].
Qed.
Lemma resumeHeartbeat_sound active : sound_after (resumeHeartbeat z locale_le active now).
Proof.
  intros st n w H Hf. unfold resumeHeartbeat. destruct (heartbeat_found active st n w H) as (r & Hr & Hfound). eapply after_eq; [exact Hr|].
  destruct r as [found|]; [|by apply sound_ret]. destruct (Hfound found eq_refl) as [He Hin]. sum_step.
  pose proof (change_found_sound st n w found _ H Hf Hin (fun j' => tame_resumed (schedule found) found j' He)) as Hc. unfold after, fmap, se_fmap in *. by destruct (change_jobs _ _ w) as [[a1|e] w'].
Qed.

(** ** Operations under the lock *)

(** An operation that changes the state under the lock, with a result that is as [Q] says. *)
Lemma mutate_sound {B} (mutator : CronJobsState -> op (CronJobsState * list B)) (Q : CronJobsState -> list B -> Prop) st n w : at_ st n w -> fine now n st ->
  (forall w, at_ st n w -> after (mutator st) (fun r w' => exists n', at_ st n' w' /\ evolves now n n' st r.1 /\ Q r.1 r.2) (fun _ w' => exists n', (n <= n')%nat /\ at_ st n' w') w) ->
  after (mutateStates locale_le mutator) (fun out w' => exists st' n', at_ st' n' w' /\ evolves now n n' st st' /\ Q st' out) (fun _ => leaves n st) w.
Proof.
  intros H Hf Hm. unfold mutateStates. eapply after_eq; [by eapply paths_eq|]. eapply after_eq; [by eapply readJobs_eq|].
  set (previous := heartbeatCatalogSignature _ _). clearbody previous.
  assert (Hfile : forall w, at_ st n w -> after (mutate_file mutator path) (fun r w' => exists st' n', at_ st' n' w' /\ evolves now n n' st st' /\ Q st' r.1) (fun _ => leaves n st) w).
  { clear w H. intros w H. unfold mutate_file. eapply after_eq; [by eapply read_eq|]. apply after_bind. eapply after_mono; [by apply Hm| |].
    - intros [st' out] w1 (n' & H1 & He & Hq). cbn in *. case_bool_decide as Hs; [apply after_ret; subst; by exists st, n'|]. apply after_bind. eapply after_mono; [by eapply write_state| |].
      + intros [] w2 H2. apply after_ret. by exists st', n'.
      + intros e w2 [H2|H2]; [eapply leaves_drawn; [done|done|by destruct He]|by eexists _, _].
    - intros e w1 (n' & Hn & H1). by eapply leaves_drawn. }
  assert (Hlocked : after (withCronJobsStateLocks [path] (each (mutate_file mutator) [path]))
    (fun rs w' => exists st' n', at_ st' n' w' /\ evolves now n n' st st' /\ Q st' (rs ≫= fst)) (fun _ => leaves n st) w).
  { unfold withCronJobsStateLocks. apply after_bind. eapply after_mono; [by apply calm_acquire| |intros e w1 H1; exact (leaves_drawn n n st w1 H1 Hf (le_n n))]. intros u w1 H1. change (at_ st n w1) in H1.
    apply after_ensuring. cbn [each]. apply after_bind. eapply after_mono; [by apply Hfile| |].
    - intros r w2 (st' & n' & H2 & He & Hq). unfold mret, se_ret, mbind, se_bind, after at 1. eapply after_mono; [by eapply calm_release| |].
      + intros [] w3 H3. exists st', n'. cbn. by rewrite app_nil_r.
      + intros e w3 H3. by exists st', n'.
    - intros e w2 (st' & n' & H2 & He). eapply after_mono; [by eapply calm_release| |]; intros; by exists st', n'. }
  apply after_bind. eapply after_mono; [exact Hlocked| |done]. cbn beta. intros rs w1 (st' & n' & H1 & He & Hq). apply after_bind.
  eapply (after_mono _ (fun _ => at_ st' n') _ (fun _ => at_ st' n')).
  - destruct (existsb snd rs); [by apply calm_notify_if|done].
  - intros [] w2 H2. apply after_ret. by exists st', n'.
  - intros e w2 H2. by exists st', n'.
Qed.

Lemma NoDup_fmap_filter {A B} (f : A -> B) (P : A -> Prop) `{!forall x, Decision (P x)} l : NoDup (f <$> l) -> NoDup (f <$> filter P l).
Proof.
  induction l as [|x l IH]; [done|]. rewrite fmap_cons, filter_cons. intros [Hx Hl]%NoDup_cons. destruct (decide (P x)); [|by apply IH].
  rewrite fmap_cons. apply NoDup_cons. split; [|by apply IH]. intros Hin. apply Hx. apply list_elem_of_fmap in Hin as (y & -> & Hy).
  apply list_elem_of_filter in Hy as [_ Hy]. by apply list_elem_of_fmap_2.
Qed.
(** Tame changes of the jobs, and no new dispatches. *)
Lemma evolves_fewer n st js_ (P : AgentCronDispatchRecord -> Prop) `{!forall d, Decision (P d)} : fine now n st -> Forall2 (tame now) (jobs st) js_ ->
  evolves now n n st {| jobs := js_; dispatches := filter P (dispatches st) |}.
Proof.
  intros Hf Ht. pose proof Hf as [_ _ H3 [H4 H5]]. split; [done|]. cbn. split_and!.
  - exists js_, []. rewrite app_nil_r. split; [done|]. constructor; [done|done|constructor].
  - by apply NoDup_fmap_filter.
  - by apply NoDup_fmap_filter.
  - apply list.Forall_forall. intros d Hd. apply list_elem_of_filter in Hd as [_ Hd]. rewrite list.Forall_forall in H5. by apply H5.
Qed.

Lemma of_mutate {B} (mutator : CronJobsState -> op (CronJobsState * list B)) : 
  (forall st n w, at_ st n w -> fine now n st -> after (mutator st) (fun r => at_ st n) (fun _ => at_ st n) w /\ forall r w', mutator st w = (inl r, w') -> evolves now n n st r.1) ->
  sound_after (mutateStates locale_le mutator).
Proof.
  intros Hm st n w H Hf. eapply after_mono; [apply (mutate_sound mutator (fun _ _ => True) st n w H Hf)| |done].
  - intros w1 H1. destruct (Hm st n w1 H1 Hf) as [Ha He]. unfold after in *. destruct (mutator st w1) as [[r|e] w2] eqn:E; [|by exists n]. exists n. split_and!; [done|by eapply He|done].
  - intros out w1 (st' & n' & H1 & He & _). by exists st', n'.
Qed.

Lemma settle_sound did outcome err : sound_after (recordDispatchResult z locale_le did outcome err now).
Proof.
  apply sound_map, of_mutate. intros st n w H Hf. unfold settle_in_state. destruct (find _ (dispatches st)) as [d|]; [|split; [done|]; intros r w' [= <- <-]; by apply evolves_refl].
  set (f := fun j : AgentCronJob => _). assert (He : after (each f (jobs st)) (fun rs w' => at_ st n w' /\ Forall2 (fun j r => tame now j r.1) (jobs st) rs) (fun _ => at_ st n) w).
  { apply (after_each f (fun done rs w' => at_ st n w' /\ Forall2 (fun j r => tame now j r.1) done rs)); [done|]. intros done_ rs j w1 _ [H1 HJ]. unfold f.
    destruct (negb _ || _); [apply after_ret; split; [done|]; apply Forall2_app; [done|]; constructor; [apply tame_refl|done]|].
    apply after_returning; [|done]. intros j' Hj. apply after_ret. split; [done|]. apply Forall2_app; [done|]. constructor; [|done]. by eapply tame_settled. }
  split.
  - apply after_bind. eapply after_mono; [exact He| |done]. by intros rs w1 [H1 _].
  - intros r w'. unfold mbind, se_bind, after in *. destruct (each f (jobs st) w) as [[rs|e] w1]; [|done]. intros [= <- <-]. destruct He as [_ Ht]. cbn.
    apply evolves_fewer; [done|]. by apply Forall2_fmap_r.
Qed.
Lemma recover_sound dispatchIds : sound_after (mutateStates locale_le (fun s => mret (recoverInterruptedInState now dispatchIds s))).
Proof.
  apply of_mutate. intros st n w H Hf. split; [done|]. intros r w' [= <- <-]. unfold recoverInterruptedInState. cbv zeta. case_bool_decide; [by apply evolves_refl|].
  cbn [fst]. apply evolves_fewer; [done|]. apply Forall2_fmap_r, Forall2_same_length_lookup_2; [done|]. intros i x y Hx Hy. simplify_eq. change (tame now x (if bool_decide (id x ∈ jobId <$> filter (fun d => match dispatchIds with Some ids => bool_decide (d_id d ∈ ids) | None => true end = true) (dispatches st))
    && bool_decide (status x = JActive) then interrupted_job now x else x)). destruct (bool_decide (id x ∈ _) && _); [apply tame_interrupted|apply tame_refl].
Qed.

(** ** Claims *)

Definition later_run (next : option stamp) : Prop := next = None \/ exists t, next = Some (At t) /\ now < t.
(** What a claim makes of a job: nothing of one that is not due; the next run of a due one is later, and it gets a dispatch for
    its occurrence, or is skipped when one is open. *)
Definition claimed_as (open_ : list jsstr) (dueAt : Z) (j : AgentCronJob) (r : AgentCronJob * option AgentCronDispatchRecord) : Prop :=
  tame now j r.1 /\
  if isDueJob j dueAt
  then later_run (nextRunAt r.1) /\
       match r.2 with
       | Some d => nextRunAt j = Some (scheduledFor d) /\ jobId d = id j /\ id j ∉ open_
       | None => id j ∈ open_ /\ lastSkippedAt r.1 = Some (At now)
       end
  else r = (j, None).
(** Whether the next run of a job can be told, if it is due. *)
Definition computable (dueAt : Z) (j : AgentCronJob) : Prop := isDueJob j dueAt = true -> exists next, next_stamp z (schedule j) now = inl next.
(** What a claim returns, for the state it leaves. *)
Definition claims (dueAt : Z) (st st' : CronJobsState) (out : list AgentCronDispatch) : Prop :=
  exists rs, Forall2 (claimed_as (jobId <$> dispatches st) dueAt) (jobs st) rs /\
    st' = {| jobs := fst <$> rs; dispatches := dispatches st ++ omap snd rs |} /\
    out = omap (fun r => match r.2 with Some d => Some {| c_id := d_id d; c_job := r.1 |} | None => None end) rs.

Lemma due_scheduled j dueAt : isDueJob j dueAt = true -> status j = JActive /\ exists t, nextRunAt j = Some (At t) /\ t <= dueAt.
Proof.
  unfold isDueJob. intros [Hs%bool_decide_eq_true Hn]%andb_true_iff. split; [done|]. destruct (nextRunAt j) as [[t|s]|]; [|done..]. cbn in Hn. to_prop. by exists t.
Qed.

Lemma claim_job_spec open_ dueAt st m w j : at_ st m w ->
  after (claim_job z uuid open_ dueAt now j) (fun r w' => claimed_as open_ dueAt j r /\ computable dueAt j /\ fates w' = fates w /\
      match r.2 with Some d => at_ st (S m) w' /\ d_id d = uuid m | None => at_ st m w' end) (fun _ w' => at_ st m w' /\ fates w' = fates w /\ ~ computable dueAt j) w.
Proof.
  intros H. unfold claim_job, claimed_as, computable. destruct (isDueJob j dueAt) eqn:Ed; [|apply after_ret; split_and!; [apply tame_refl|done|done|done|done]].
  destruct (due_scheduled j dueAt Ed) as (Hs & t0 & Hn0 & _). rewrite Hn0. apply after_returning.
  2: { intros e He. split_and!; [done|done|]. intros Hc. destruct (Hc eq_refl) as [next Hnext]. congruence. }
  intros next Hnext. cbv zeta. assert (Hlater : later_run next).
  { destruct next as [next|]; [|by left]. apply next_stamp_now in Hnext as (t & -> & Ht). right. by exists t. }
  assert (Ht : tame now j (with_run (status j) next (At now) j)) by (apply tame_run; [auto|unfold later_run in Hlater; naive_solver]).
  case_bool_decide as Hin; [apply after_ret; split_and!; [by apply tame_results|done|by split|intros _; by exists next|done|done]|].
  destruct (uuid_spec st m w H) as (w1 & He & H1). eapply after_eq; [exact He|]. apply after_ret. cbn. split_and!; try done; [intros _; by exists next|by injection He as _ <-].
Qed.

Lemma claimed_sublist open_ dueAt js_ rs : Forall2 (claimed_as open_ dueAt) js_ rs -> sublist (jobId <$> omap snd rs) (id <$> js_).
Proof.
  induction 1 as [|j [j' d] js_ rs Hc _ IH]; [constructor|]. rewrite fmap_cons. cbn [omap list_omap snd]. destruct d as [d|]; [|by constructor].
  rewrite fmap_cons. destruct Hc as [_ Hc]. destruct (isDueJob j dueAt); [|done]. destruct Hc as (_ & _ & Hi & _). rewrite Hi. by constructor.
Qed.
Lemma claimed_due open_ dueAt j j' d : claimed_as open_ dueAt j (j', Some d) ->
  tame now j j' /\ isDueJob j dueAt = true /\ nextRunAt j = Some (scheduledFor d) /\ jobId d = id j /\ id j ∉ open_ /\ later_run (nextRunAt j').
Proof. intros [Ht Hc]. destruct (isDueJob j dueAt); [|done]. destruct Hc as (H1 & H2 & H3 & H4). done. Qed.
Lemma claimed_job open_ dueAt js_ rs d : Forall2 (claimed_as open_ dueAt) js_ rs -> d ∈ omap snd rs ->
  exists j j', j ∈ js_ /\ (j', Some d) ∈ rs /\ claimed_as open_ dueAt j (j', Some d).
Proof.
  intros HJ Hd. apply list_elem_of_omap in Hd as ([j' d'] & Hr & Hs). cbn in Hs. subst d'. pose proof Hr as Hx. apply list_elem_of_lookup in Hx as [x Hx].
  destruct (Forall2_lookup_r _ _ _ _ _ HJ Hx) as (j & Hj & Hc). exists j, j'. split_and!; [by eapply list_elem_of_lookup_2|done|done].
Qed.

Lemma claim_state dueAt st n w : at_ st n w -> fine now n st ->
  after (claimDueInState z uuid dueAt now st)
    (fun r w' => exists n', at_ st n' w' /\ evolves now n n' st r.1 /\ claims dueAt st r.1 r.2 /\ fates w' = fates w /\ Forall (computable dueAt) (jobs st))
    (fun _ w' => exists n', (n <= n')%nat /\ at_ st n' w' /\ fates w' = fates w /\ ~ Forall (computable dueAt) (jobs st)) w.
Proof.
  intros H Hf. unfold claimDueInState. set (open_ := jobId <$> dispatches st).
  set (J := fun done_ (rs : list (AgentCronJob * option AgentCronDispatchRecord)) w' => exists m, (n <= m)%nat /\ at_ st m w' /\ Forall2 (claimed_as open_ dueAt) done_ rs /\
    NoDup (d_id <$> omap snd rs) /\ Forall (fun d => exists k, (n <= k < m)%nat /\ d_id d = uuid k) (omap snd rs) /\ fates w' = fates w /\ Forall (computable dueAt) done_).
  apply after_bind. eapply after_mono; [apply (after_each (claim_job z uuid open_ dueAt now) J (fun _ w' => exists n', (n <= n')%nat /\ at_ st n' w' /\ fates w' = fates w /\ ~ Forall (computable dueAt) (jobs st)) (jobs st))| |done].
  - exists n. split_and!; [done|done|done|constructor|done|done|done].
  - intros done_ rs j w1 Hin (m & Hm & H1 & HJ & Hnd & Hk & Hfa & Hco). eapply after_mono; [by apply (claim_job_spec open_ dueAt st m)| |].
    2: { intros e w2 (H2 & Hfa2 & Hno). exists m. split_and!; [done|done|congruence|]. rewrite list.Forall_forall. intros Hall. by apply Hno, Hall. }
    intros [j' d] w2 (Hc & Hcj & Hfa2 & H2). cbn [snd] in H2. rewrite Hfa in Hfa2.
    assert (Hco2 : Forall (computable dueAt) (done_ ++ [j])) by (apply list.Forall_app; split; [done|by apply list.Forall_cons]).
    exists (match d with Some _ => S m | None => m end). assert (Ho : omap snd (rs ++ [(j', d)]) = omap snd rs ++ option_list d) by (rewrite omap_app; by destruct d).
    rewrite Ho. destruct d as [d|].
    + destruct H2 as [H2 Hid]. split_and!; [lia|done|by apply Forall2_app; [|constructor]| | |done|done].
      * rewrite fmap_app. apply NoDup_app. split_and!; [done| |apply NoDup_singleton]. intros i Hi Hd. apply list_elem_of_singleton in Hd. subst i.
        apply list_elem_of_fmap in Hi as (d' & He & Hd'). rewrite list.Forall_forall in Hk. destruct (Hk d' Hd') as (k & Hk1 & Hk2). rewrite <- He, Hid in Hk2. apply Huuid in Hk2. lia.
      * apply list.Forall_app. split; [eapply list.Forall_impl; [exact Hk|]; intros d' (k & Hk1 & Hk2); exists k; split; [lia|done]|]. apply list.Forall_cons. split; [exists m; split; [lia|done]|done].
    + cbn [option_list]. rewrite app_nil_r. split_and!; [done|done|by apply Forall2_app; [|constructor]|done|done|done|done].
  - intros rs w1 (m & Hm & H1 & HJ & Hnd & Hk & Hfa & Hco). apply after_ret. exists m. split_and!; [done| |by exists rs|done|done].
    pose proof Hf as [Hids Hjobs Hopen [Hdn Hdd]]. split; [done|]. cbn. split_and!.
    + exists (fst <$> rs), []. rewrite app_nil_r. split; [done|]. constructor; [|done|constructor]. apply Forall2_fmap_r. eapply Forall2_impl; [exact HJ|]. by intros j r [Ht _].
    + rewrite fmap_app. apply NoDup_app. fold open_. split_and!; [done| |by eapply sublist_NoDup, claimed_sublist].
      intros i Hi Hin. apply list_elem_of_fmap in Hin as (d & -> & Hd). destruct (claimed_job _ _ _ _ _ HJ Hd) as (j & j' & _ & _ & Hc). destruct (claimed_due _ _ _ _ _ Hc) as (_ & _ & _ & Hji & Hno & _). congruence.
    + rewrite fmap_app. apply NoDup_app. split_and!; [done| |done]. intros i Hi Hin. apply list_elem_of_fmap in Hi as (d1 & -> & Hd1). apply list_elem_of_fmap in Hin as (d2 & He & Hd2).
      rewrite list.Forall_forall in Hk, Hdd. destruct (Hk d2 Hd2) as (k & Hk1 & Hk2). destruct (Hdd d1 Hd1) as (k1 & Hk3 & Hk4). rewrite Hk2, Hk4 in He. apply Huuid in He. lia.
    + apply list.Forall_app. split; [eapply list.Forall_impl; [exact Hdd|]; intros d; by apply drawn_mono|]. eapply list.Forall_impl; [exact Hk|]. intros d (k & Hk1 & Hk2). exists k. split; [lia|done].
Qed.

Lemma claim_spec dueAt st n w : at_ st n w -> fine now n st ->
  after (claimDue z uuid locale_le dueAt now) (fun out w' => exists st' n', at_ st' n' w' /\ evolves now n n' st st' /\ claims dueAt st st' out) (fun _ => leaves n st) w.
Proof. intros H Hf. unfold claimDue. apply mutate_sound; [done|done|]. intros w1 H1. eapply after_mono; [by apply claim_state| |].
  - intros r w2 (n' & H2 & He & Hc & _). by exists n'.
  - intros e w2 (n' & Hn & H2 & _). by exists n'.
Qed.

Lemma find_record ds d : NoDup (d_id <$> ds) -> d ∈ ds -> find (fun x => jseqb (d_id x) (d_id d)) ds = Some d.
Proof.
  induction ds as [|x ds IH]; [by intros _ ?%not_elem_of_nil|]. rewrite fmap_cons. intros [Hx Hnd]%NoDup_cons Hin. cbn [find]. unfold jseqb at 1. case_bool_decide as He.
  - apply elem_of_cons in Hin as [->|Hin]; [done|]. exfalso. apply Hx. rewrite He. by apply list_elem_of_fmap_2.
  - apply IH; [done|]. apply elem_of_cons in Hin as [->|Hin]; done.
Qed.

(** The occurrences of what a claim returned are those of due jobs, which are due later then. *)
Lemma claimed_occurrences dueAt st st' out : claims dueAt st st' out -> NoDup (d_id <$> dispatches st') -> NoDup (id <$> jobs st) ->
  exists ds, occurrence st' <$> out = (fun d => (jobId d, Some (scheduledFor d))) <$> ds /\ sublist (jobId <$> ds) (id <$> jobs st) /\
    forall d, d ∈ ds -> exists j, j ∈ jobs st /\ jobId d = id j /\ isDueJob j dueAt = true /\ nextRunAt j = Some (scheduledFor d) /\
      forall j', j' ∈ jobs st' -> id j' = id j -> nextRunAt j' = None \/ exists t, nextRunAt j' = Some (At t) /\ now < t.
Proof.
  intros (rs & HJ & -> & ->) Hnd Hids. exists (omap snd rs). split_and!; [|by eapply claimed_sublist|].
  - assert (H : forall r, r ∈ rs -> forall d, r.2 = Some d -> occurrence {| jobs := fst <$> rs; dispatches := dispatches st ++ omap snd rs |} {| c_id := d_id d; c_job := r.1 |} = (jobId d, Some (scheduledFor d))).
    { intros [j' d'] Hr d Hd. cbn in Hd. subst d'. assert (Hin : d ∈ omap snd rs) by (apply list_elem_of_omap; by exists (j', Some d)).
      unfold occurrence. cbn [c_id c_job dispatches fst] in *. rewrite find_record by (done || by apply elem_of_app; right). cbn. f_equal.
      apply list_elem_of_lookup in Hr as [x Hx]. destruct (Forall2_lookup_r _ _ _ _ _ HJ Hx) as (j & _ & Hc). destruct (claimed_due _ _ _ _ _ Hc) as ([Hti _ _ _] & _ & _ & Hj & _). cbn in *. congruence. }
    revert H. generalize {| jobs := fst <$> rs; dispatches := dispatches st ++ omap snd rs |}. intros s. clear. induction rs as [|[j' [d|]] rs IH]; intros H; [done| |].
    + cbn [omap list_omap snd fmap list_fmap fst]. f_equal; [by apply (H (j', Some d)); [left|]|apply IH; intros r Hr; apply H; by right].
    + cbn [omap list_omap snd]. apply IH. intros r Hr. apply H. by right.
  - intros d Hd. destruct (claimed_job _ _ _ _ _ HJ Hd) as (j & j1 & Hj & Hr & Hc). destruct (claimed_due _ _ _ _ _ Hc) as (_ & Hdue & Hn & Hi & _ & Hnext). exists j. split_and!; [done|done|done|done|].
    intros j' Hj' Hij. apply list_elem_of_fmap in Hj' as ([j2 d2] & -> & Hr2). cbn [fst] in *. apply list_elem_of_lookup in Hr2 as [y Hy].
    destruct (Forall2_lookup_r _ _ _ _ _ HJ Hy) as (jy & Hjy & [Hty _ _ _] & _). cbn [fst] in Hty. clear Hnext Hdue Hn Hr Hj.
    apply list_elem_of_omap in Hd as ([j3 d3] & Hr3 & Hs). cbn in Hs. subst d3. apply list_elem_of_lookup in Hr3 as [x Hx]. destruct (Forall2_lookup_r _ _ _ _ _ HJ Hx) as (jx & Hjx & Hcx). destruct (claimed_due _ _ _ _ _ Hcx) as (_ & _ & _ & Hix & _ & Hnext).
    assert (x = y) as ->; [|rewrite Hx in Hy; by injection Hy as -> _]. apply (NoDup_lookup _ x y (id jx) Hids); rewrite list_lookup_fmap, ?Hjx, ?Hjy; [done|]. cbn. congruence.
Qed.

(** ** The ledger of a run *)

(** Occurrences that were claimed: once each, and the next run of their job is later. *)
Definition ledger_ok (n : nat) (st : CronJobsState) (ledger : list (jsstr * option stamp)) : Prop :=
  NoDup ledger /\ forall i s, (i, s) ∈ ledger -> drawn_before n i /\ exists s0, s = Some (At s0) /\ s0 <= now /\
    forall j, j ∈ jobs st -> id j = i -> forall t, nextRunAt j = Some (At t) -> s0 < t.
(** Jobs that have ended. *)
Definition dead_ok (n : nat) (st : CronJobsState) (dead : list jsstr) : Prop :=
  forall i, i ∈ dead -> drawn_before n i /\ forall j, j ∈ jobs st -> id j = i -> ended j = true.

Lemma evolves_job n n' st st' j' : evolves now n n' st st' -> j' ∈ jobs st' ->
  (exists j, j ∈ jobs st /\ tame now j j') \/ (exists k, (n <= k)%nat /\ id j' = uuid k).
Proof.
  intros (_ & (js_ & new_ & Hj & [G1 G2 _]) & _) Hin. rewrite Hj in Hin. apply elem_of_app in Hin as [Hin|Hin].
  - left. apply list_elem_of_lookup in Hin as [x Hx]. destruct (Forall2_lookup_r _ _ _ _ _ G1 Hx) as (j & Hjx & Ht). exists j. split; [by eapply list_elem_of_lookup_2|done].
  - right. rewrite list.Forall_forall in G2. destruct (G2 j' Hin) as (_ & k & Hk & Hi). exists k. split; [lia|done].
Qed.
Lemma ledger_evolves n n' st st' ledger : evolves now n n' st st' -> ledger_ok n st ledger -> ledger_ok n' st' ledger.
Proof.
  intros He [Hnd Hl]. split; [done|]. intros i s Hin. destruct (Hl i s Hin) as (Hd & s0 & -> & Hs0 & Hj). split; [eapply drawn_mono; [apply He|done]|]. exists s0. split_and!; [done|done|].
  intros j' Hj' Hi t Ht. destruct (evolves_job n n' st st' j' He Hj') as [(j & Hjs & [Hti _ Htn _])|(k & Hk & Hik)].
  - destruct Htn as [Hn|[Hn|(u & Hn & Hu)]]; [apply (Hj j); [done|congruence|congruence]|congruence|]. rewrite Hn in Ht. injection Ht as <-. lia.
  - destruct Hd as (k0 & Hk0 & Hik0). rewrite Hi, Hik0 in Hik. apply Huuid in Hik. lia.
Qed.
Lemma dead_evolves n n' st st' dead : evolves now n n' st st' -> dead_ok n st dead -> dead_ok n' st' dead.
Proof.
  intros He Hd i Hin. destruct (Hd i Hin) as [Hdr Hj]. split; [eapply drawn_mono; [apply He|done]|]. intros j' Hj' Hi.
  destruct (evolves_job n n' st st' j' He Hj') as [(j & Hjs & [Hti _ _ Hte])|(k & Hk & Hik)]; [apply Hte, (Hj j); [done|congruence]|].
  destruct Hdr as (k0 & Hk0 & Hik0). rewrite Hi, Hik0 in Hik. apply Huuid in Hik. lia.
Qed.

(** A claim adds occurrences that are new, of jobs that have not ended. *)
Lemma ledger_claim n n' st st' dueAt out ledger : dueAt <= now -> fine now n st -> evolves now n n' st st' -> claims dueAt st st' out -> ledger_ok n st ledger ->
  ledger_ok n' st' (ledger ++ (occurrence st' <$> out)) /\ forall i s j, (i, s) ∈ occurrence st' <$> out -> j ∈ jobs st -> id j = i -> ended j = false.
Proof.
  intros Hdue Hf He Hc Hl. pose proof (evolves_fine now n n' st st' Hf He) as Hf'. pose proof (fine_ids _ _ _ Hf) as Hids.
  destruct (claimed_occurrences dueAt st st' out Hc ltac:(apply Hf') Hids) as (ds & -> & Hsub & Hds).
  assert (Hsame : forall j1 j2, j1 ∈ jobs st -> j2 ∈ jobs st -> id j1 = id j2 -> j1 = j2).
  { intros j1 j2 [x Hx]%list_elem_of_lookup [y Hy]%list_elem_of_lookup Hi. assert (x = y) as ->; [|congruence].
    apply (NoDup_lookup _ x y (id j1) Hids); rewrite list_lookup_fmap, ?Hx, ?Hy; [done|cbn; congruence]. }
  split.
  - pose proof (ledger_evolves n n' st st' ledger He Hl) as [Hnd Hl']. split.
    + apply NoDup_app. split_and!; [done| |].
      * intros [i s] Hin (d & [= -> ->] & Hd)%list_elem_of_fmap. destruct (Hds d Hd) as (j & Hj & Hi & Hdj & Hn & _). destruct Hl as [_ Hl]. destruct (Hl _ _ Hin) as (_ & s0 & [= Hs] & _ & Hlt).
        rewrite Hs in Hn. specialize (Hlt j Hj (eq_sym Hi) s0 Hn). lia.
      * assert (Hnds : NoDup (jobId <$> ds)) by by eapply sublist_NoDup. clear -Hnds. induction ds as [|d ds IH]; [constructor|]. rewrite fmap_cons in *. apply NoDup_cons in Hnds as [Hd Hnds].
        apply NoDup_cons. split; [|by apply IH]. intros (d' & [= Hi _] & Hd')%list_elem_of_fmap. apply Hd. rewrite Hi. by apply list_elem_of_fmap_2.
    + intros i s [Hin|Hin]%elem_of_app; [by apply Hl'|]. apply list_elem_of_fmap in Hin as (d & [= -> ->] & Hd). destruct (Hds d Hd) as (j & Hj & Hi & Hdj & Hn & Hnext).
      destruct (due_scheduled j dueAt Hdj) as (_ & t0 & Ht0 & Hle). rewrite Ht0 in Hn. injection Hn as Hn. split.
      * rewrite Hi. pose proof (fine_jobs _ _ _ Hf) as Hjobs. rewrite list.Forall_forall in Hjobs. eapply drawn_mono; [apply He|by apply Hjobs].
      * exists t0. split_and!; [by rewrite <- Hn|lia|]. intros j' Hj' Hij t Ht. destruct (Hnext j' Hj' ltac:(congruence)) as [Hnone|(u & Hu & Hlt)]; [congruence|]. rewrite Hu in Ht. injection Ht as <-. lia.
  - intros i s j (d & [= -> ->] & Hd)%list_elem_of_fmap Hj Hi. destruct (Hds d Hd) as (j1 & Hj1 & Hi1 & Hdj & _). assert (j = j1) as -> by (apply Hsame; [done|done|congruence]).
    destruct (due_scheduled j1 dueAt Hdj) as [Hs _]. unfold ended. by rewrite Hs.
Qed.

(** ** Runs *)

Definition event_ok (e : event) : Prop := match e with EClaim dueAt => dueAt <= now | _ => True end.

Lemma cron_perform_spec e st n w : at_ st n w -> fine now n st -> event_ok e ->
  after (perform z date_of_text uuid resolve locale_le now e)
    (fun out w' => exists st' n', at_ st' n' w' /\ evolves now n n' st st' /\ (out = [] \/ exists dueAt, dueAt <= now /\ claims dueAt st st' out)) (fun _ => leaves n st) w.
Proof.
  intros H Hf He. assert (Hquiet : forall A (m : op A), sound_after m -> after (no_dispatch m)
    (fun out w' => exists st' n', at_ st' n' w' /\ evolves now n n' st st' /\ (out = [] \/ exists dueAt, dueAt <= now /\ claims dueAt st st' out)) (fun _ => leaves n st) w).
  { intros A m Hm. apply after_bind. eapply after_mono; [by apply Hm| |done]. intros a w1 (st' & n' & H1 & He1). apply after_ret. exists st', n'. split_and!; [done|done|by left]. }
  assert (Hmap : forall f, (forall j j', f j = inl (Some j') -> tame now j j') -> sound_after (last <$> change_jobs locale_le f)) by (intros f Hfj; by apply sound_map, change_jobs_sound).
  destruct e; cbn [perform]; try apply Hquiet.
  - apply create_sound.
  - apply createHeartbeat_sound.
  - apply createRlmHeartbeat_sound.
  - apply change_jobs_sound. intros j j'. unfold rebind_job. repeat (destruct (_ && _); [done|]). intros [= <-]. constructor; cbn; auto.
  - apply Hmap. intros j j'. destruct (negb _ || ended j) eqn:E; [done|]. apply orb_false_iff in E as [_ E]. destruct (updated_rlm _ _ _ _ j) eqn:Eu; [|done]. intros [= <-]. by eapply tame_updated_rlm.
  - apply Hmap. intros j j'. destruct (_ && _); [|done]. intros [= <-]. apply tame_cancelled.
  - apply change_jobs_sound. intros j j'. destruct (_ && _); [|done]. intros [= <-]. apply tame_cancelled.
  - apply change_jobs_sound. intros j j'. cbv zeta. destruct (_ && live j); [|done]. intros [= <-]. apply tame_cancelled.
  - apply change_heartbeat_sound. intros j j' Hj [= <-]. apply tame_run; auto.
  - apply resumeHeartbeat_sound.
  - apply change_heartbeat_sound. intros j j' Hj [= <-]. apply tame_cancelled.
  - apply Hmap. intros j j'. destruct (negb _ || ended j) eqn:E; [done|]. apply orb_false_iff in E as [_ E]. destruct a.
    + intros [= <-]. apply tame_run; auto.
    + destruct (resumed_job z now (schedule j) j) eqn:Er; [|done]. intros [= <-]. by eapply tame_resumed.
    + intros [= <-]. apply tame_cancelled.
  - apply Hmap. intros j j'. destruct (_ && _); [|done]. intros [= <-]. apply tame_cancelled.
  - apply Hmap. intros j j'. destruct (negb (jseqb _ _)); [done|]. destruct (negb (bool_decide (status j = JActive))) eqn:Ea; [intros [= <-]; apply tame_refl|].
    apply negb_false_iff, bool_decide_eq_true in Ea.
    destruct (match s_kind (schedule j) with Once => _ | Cron => _ | Interval => _ end) as [next|] eqn:En; [|done]. intros [= <-]. apply tame_results, tame_run.
    + case_bool_decide; auto.
    + destruct next as [next|]; [|by left]. right. right. destruct (s_kind (schedule j)); [done| |apply next_stamp_now in En as (t & -> & Ht); by exists t].
      destruct Hnow as (_ & Hs & Hb). apply next_stamp_later in En as (t & -> & Ht); [|done|lia]. exists t. split; [done|lia].
  - apply Hmap. intros j j'. destruct (negb (jseqb _ _)); [done|]. destruct (negb _); [intros [= <-]; apply tame_refl|].
    destruct (next_stamp z (schedule j) now) as [next|] eqn:En; [|done]. intros [= <-]. apply tame_results, tame_run; [auto|]. destruct next as [next|]; [|by left].
    apply next_stamp_now in En as (t & -> & Ht). right. right. by exists t.
  - eapply after_mono; [by apply claim_spec| |done]. intros out w1 (st' & n' & H1 & He1 & Hc). exists st', n'. split_and!; [done|done|right; by eexists].
  - apply settle_sound.
  - apply recover_sound.
  - apply recover_sound.
Qed.

Lemma perform_ledger e st n w ledger dead : at_ st n w -> fine now n st -> event_ok e -> ledger_ok n st ledger -> dead_ok n st dead ->
  let '(r, w1) := perform z date_of_text uuid resolve locale_le now e w in
  let claimed := match r with inl cs => occurrence (default {| jobs := []; dispatches := [] |} (stored path w1)) <$> cs | inr _ => [] end in
  exists st' n', at_ st' n' w1 /\ fine now n' st' /\ ledger_ok n' st' (ledger ++ claimed) /\ dead_ok n' st' dead /\
    (forall i s, (i, s) ∈ claimed -> i ∈ dead -> exists j, j ∈ jobs st /\ id j = i /\ ended j = false).
Proof.
  intros H Hf He Hl Hd. pose proof (cron_perform_spec e st n w H Hf He) as Hp. unfold after in Hp. destruct (perform _ _ _ _ _ now e w) as [[out|err] w1].
  - destruct Hp as (st' & n' & H1 & Hev & Hout). rewrite (at_file _ _ _ _ H1). change (default {| jobs := []; dispatches := [] |} (Some st')) with st'. cbv zeta. exists st', n'.
    assert (Hfine : fine now n' st') by by eapply evolves_fine. destruct Hout as [->|(dueAt & Hdue & Hc)].
    + cbn [fmap list_fmap]. rewrite app_nil_r. split_and!; [done|done|by eapply ledger_evolves|by eapply dead_evolves|]. intros i s Hin. by apply not_elem_of_nil in Hin.
    + destruct (ledger_claim n n' st st' dueAt out ledger Hdue Hf Hev Hc Hl) as [Hl' Hlive]. split_and!; [done|done|exact Hl'|by eapply dead_evolves|].
      intros i s Hin Hi. destruct (claimed_occurrences dueAt st st' out Hc ltac:(apply Hfine) ltac:(apply Hf)) as (ds & Eo & _ & Hds).
      pose proof Hin as Hin'. rewrite Eo in Hin'. apply list_elem_of_fmap in Hin' as (d & [= -> ->] & Hdd).
      destruct (Hds d Hdd) as (j & Hj & Hij & _). exists j. split_and!; [done|done|]. by eapply Hlive.
  - destruct Hp as (st' & n' & H1 & Hev). cbv zeta. rewrite app_nil_r. exists st', n'. split_and!; [done|by eapply evolves_fine|by eapply ledger_evolves|by eapply dead_evolves|].
    intros i s Hin. by apply not_elem_of_nil in Hin.
Qed.
End files.

(** The instants of a run: in order, none of them in the second showing of an hour, and a claim looks for what is due by then. *)
Fixpoint history (z : zone) (clock : Z) (es : list (Z * event)) : Prop :=
  match es with
  | [] => True
  | (now, e) :: es => clock <= now /\ steady z now /\ event_ok now e /\ history z now es
  end.

Lemma ledger_later uuid now now' n st ledger : now <= now' -> ledger_ok uuid now n st ledger -> ledger_ok uuid now' n st ledger.
Proof.
  intros Hle [Hnd Hl]. split; [done|]. intros i s Hin. destruct (Hl i s Hin) as (Hd & s0 & Hs & Hs0 & Hj). split; [done|]. exists s0. split_and!; [done|lia|done].
Qed.

Lemma run_ledger z date_of_text uuid resolve locale_le path es : (forall a b, uuid a = uuid b -> a = b) -> zone_ok z ->
  forall clock w st n ledger dead, at_ path st n w -> fine uuid clock n st -> history z clock es -> ledger_ok uuid clock n st ledger -> dead_ok uuid n st dead ->
    (forall i, i ∈ dead -> i ∉ ledger.*1) ->
    let r := run z date_of_text uuid resolve locale_le path es w in
    NoDup (ledger ++ r.1) /\ (forall i, i ∈ dead -> i ∉ (ledger ++ r.1).*1) /\ exists st' n' clock', at_ path st' n' r.2 /\ fine uuid clock' n' st'.
Proof.
  intros Hu Hz. induction es as [|[now e] es IH]; intros clock w st n ledger dead H Hf Hh Hl Hd Hdl; cbn [run].
  - cbn. rewrite app_nil_r. split_and!; [apply Hl|done|by exists st, n, clock].
  - destruct Hh as (Hnow & Hst & He & Hh). pose proof (perform_ledger uuid Hu z date_of_text resolve locale_le path now Hz Hst e st n w ledger dead H
      (fine_later _ clock now n st Hnow Hf) He (ledger_later _ clock now n st ledger Hnow Hl) Hd) as Hp.
    destruct (perform z date_of_text uuid resolve locale_le now e w) as [r w1]. set (claimed := match r with inl cs => _ | inr _ => [] end) in *. cbv zeta in Hp.
    destruct Hp as (st' & n' & H1 & Hf1 & Hl1 & Hd1 & Hlive). specialize (IH now w1 st' n' (ledger ++ claimed) dead H1 Hf1 Hh Hl1 Hd1).
    destruct (run z date_of_text uuid resolve locale_le path es w1) as [claimed' w2]. cbn [fst snd] in *. rewrite (assoc_L app). apply IH.
    intros i Hi Hin. rewrite fmap_app, elem_of_app in Hin. destruct Hin as [Hin|Hin]; [by apply (Hdl i)|].
    apply list_elem_of_fmap in Hin as ([i' s] & -> & Hin). destruct (Hlive i' s Hin Hi) as (j & Hj & Hji & Hend). destruct (Hd i' Hi) as [_ Hdj]. rewrite (Hdj j Hj Hji) in Hend. done.
Qed.

(** C31. In every run of a store with one file, whatever calls are refused or fail late: no occurrence of a job is dispatched
    twice, a job that has ended is not dispatched again, and the file stays sound, with at most one open dispatch of each
    job. The clock does not go back, the instants are not in the second showing of an hour, and no other process writes. *)
Theorem claims_are_exclusive (z : zone) (date_of_text : jsstr -> option Z) (uuid : nat -> jsstr) (resolve : jsstr -> jsstr) (locale_le : jsstr -> jsstr -> bool)
    (path : jsstr) (clock : Z) (es : list (Z * event)) (w : world) (st : CronJobsState) (n : nat)
    (Huuid : forall a b, uuid a = uuid b -> a = b) (Hz : zone_ok z) (Hat : at_ path st n w) (Hfine : fine uuid clock n st) (Hes : history z clock es) :
  let r := run z date_of_text uuid resolve locale_le path es w in
  NoDup r.1 /\ (forall j, j ∈ jobs st -> ended j = true -> id j ∉ r.1.*1) /\ exists st' n' clock', at_ path st' n' r.2 /\ fine uuid clock' n' st'.
Proof.
  cbv zeta. pose proof (fine_ids _ _ _ _ Hfine) as Hids. set (dead := id <$> filter (fun j => ended j = true) (jobs st)).
  assert (Hd : dead_ok uuid n st dead).
  { intros i (j & -> & [He Hj]%list_elem_of_filter)%list_elem_of_fmap. split; [pose proof (fine_jobs _ _ _ _ Hfine) as Ho; rewrite list.Forall_forall in Ho; by apply Ho|].
    intros j' [x Hx]%list_elem_of_lookup Hi. apply list_elem_of_lookup in Hj as [y Hy]. assert (x = y) as ->; [|congruence].
    apply (NoDup_lookup _ x y (id j') Hids); rewrite list_lookup_fmap, ?Hx, ?Hy; [done|cbn; congruence]. }
  destruct (run_ledger z date_of_text uuid resolve locale_le path es Huuid Hz clock w st n [] dead Hat Hfine Hes) as (H1 & H2 & H3); [|done|intros i _; apply not_elem_of_nil|].
  { split; [constructor|]. intros i s Hin. by apply not_elem_of_nil in Hin. }
  split_and!; [exact H1| |exact H3]. intros j Hj He. apply H2. apply list_elem_of_fmap_2, list_elem_of_filter. done.
Qed.

(** ** A claim without failures *)

Lemma free_external w : fates w = [] -> external w = (inl tt, w).
Proof. intros H. unfold external, next_fate, mbind, se_bind. by rewrite H. Qed.
Lemma free_release k w : fates w = [] -> release_all k w = (inl tt, w).
Proof. intros H. induction k as [|k IH]; [done|]. cbn [release_all]. unfold mbind, se_bind. by rewrite free_external. Qed.
Lemma free_acquire paths k w : fates w = [] -> acquire_all paths k w = (inl tt, w).
Proof. intros H. revert k. induction paths as [|p paths IH]; intros k; [done|]. cbn [acquire_all]. unfold mbind, se_bind, catching in *. by rewrite free_external. Qed.
Lemma free_locked {A} paths (m : op A) Q R w : fates w = [] -> after m (fun a w' => Q a w' /\ fates w' = []) (fun e w' => R e w' /\ fates w' = []) w ->
  after (withCronJobsStateLocks paths m) (fun a w' => Q a w' /\ fates w' = []) (fun e w' => R e w' /\ fates w' = []) w.
Proof.
  intros H Hm. unfold withCronJobsStateLocks. eapply after_eq; [by apply free_acquire|]. apply after_ensuring. eapply after_mono; [exact Hm| |].
  - intros a w' [Ha Hf]. unfold after. by rewrite free_release.
  - intros e w' [Ha Hf]. unfold after. by rewrite free_release.
Qed.
Lemma free_notify locale_le path st n previous w : at_ path st n w -> fates w = [] ->
  after (notify_if_changed locale_le previous) (fun _ w' => at_ path st n w' /\ fates w' = []) (fun _ _ => False) w.
Proof.
  intros H Hf. unfold notify_if_changed. eapply after_eq; [by eapply readJobs_eq|]. destruct (bool_decide _); [by apply after_ret|].
  unfold notifyHeartbeatChange. assert (H1 : at_ path st n (set_counters (S (notified w)) (drawn w) (fates w) w)) by (rewrite (at_drawn _ _ _ _ H); apply at_counters; [done|apply H]).
  eapply after_eq; [done|]. unfold after. by rewrite free_external.
Qed.

(** C32. When no call fails, a claim returns a dispatch of every due job that has no open one, in their order, recorded in the
    file; a due job with an open dispatch is marked as skipped, no other job is touched, and none is due then. But one due
    job whose schedule has no next run makes the whole claim fail, and nothing is claimed. *)
Theorem claim_due_exact (z : zone) (uuid : nat -> jsstr) (locale_le : jsstr -> jsstr -> bool) (path : jsstr) (dueAt now : Z) (st : CronJobsState) (n : nat) (w : world)
    (Huuid : forall a b, uuid a = uuid b -> a = b) (Hz : zone_ok z) (Hnow : steady z now) (Hdue : dueAt <= now)
    (Hat : at_ path st n w) (Hfine : fine uuid now n st) (Hfree : fates w = []) :
  let open_ := jobId <$> dispatches st in
  Forall (computable z now dueAt) (jobs st) /\ (exists out w' st', claimDue z uuid locale_le dueAt now w = (inl out, w') /\ stored path w' = Some st' /\
    (fun c => id (c_job c)) <$> out = id <$> filter (fun j => isDueJob j dueAt = true /\ id j ∉ open_) (jobs st) /\
    (forall c, c ∈ out -> c_job c ∈ jobs st' /\ exists d, d ∈ dispatches st' /\ d_id d = c_id c /\ jobId d = id (c_job c)) /\
    Forall2 (fun j j' => if isDueJob j dueAt then id j' = id j /\ (id j ∈ open_ -> lastSkippedAt j' = Some (At now)) else j' = j) (jobs st) (jobs st') /\
    forall j', j' ∈ jobs st' -> isDueJob j' dueAt = false) \/
  ~ Forall (computable z now dueAt) (jobs st) /\ exists e w', claimDue z uuid locale_le dueAt now w = (inr e, w') /\ stored path w' = Some st.
Proof.
  cbv zeta. set (open_ := jobId <$> dispatches st).
  assert (H : after (claimDue z uuid locale_le dueAt now)
    (fun out w' => exists st' n', at_ path st' n' w' /\ claims now dueAt st st' out /\ Forall (computable z now dueAt) (jobs st))
    (fun _ w' => ~ Forall (computable z now dueAt) (jobs st) /\ stored path w' = Some st) w).
  { unfold claimDue, mutateStates. eapply after_eq; [by eapply paths_eq|]. eapply after_eq; [by eapply readJobs_eq|]. set (previous := heartbeatCatalogSignature _ _). clearbody previous.
    apply after_bind. eapply after_mono; [eapply (free_locked _ _ (fun rs w' => exists st' n', at_ path st' n' w' /\ claims now dueAt st st' (rs ≫= fst) /\ Forall (computable z now dueAt) (jobs st))
      (fun _ w' => ~ Forall (computable z now dueAt) (jobs st) /\ stored path w' = Some st)); [done|]| |].
    - cbn [each]. apply after_bind. unfold mutate_file. eapply after_eq; [by eapply read_eq|]. apply after_bind.
      eapply after_mono; [by apply (claim_state uuid Huuid z (fun _ => None) (fun s => s) locale_le path now Hz Hnow dueAt st n)| |].
      + intros [st' out] w1 (n' & H1 & _ & Hc & Hfa & Hco). cbn [fst snd] in *. rewrite Hfree in Hfa. case_bool_decide as Hs.
        * apply after_ret. unfold after, mret, se_ret, mbind, se_bind. cbn. rewrite app_nil_r. split; [|done]. exists st', n'. by subst.
        * unfold writeJobsState. apply after_bind. unfold after, mbind, se_bind, next_fate. rewrite Hfa. unfold update, mret, se_ret. cbn. rewrite app_nil_r. split; [|done].
          exists st', n'. split_and!; [|done|done]. destruct H1 as [? ? ? ?]. constructor; [done| |done|done]. unfold stored. cbn. by rewrite lookup_insert_eq.
      + intros e w1 (n' & _ & H1 & Hfa & Hno). split; [split; [done|by apply H1]|congruence].
    - intros rs w1 [(st' & n' & H1 & Hc & Hco) Hfa]. apply after_bind. destruct (existsb snd rs).
      + eapply after_mono; [by eapply free_notify| |done]. intros [] w2 [H2 _]. apply after_ret. by exists st', n'.
      + apply after_ret, after_ret. by exists st', n'.
    - by intros e w1 [H1 _]. }
  unfold after in H. destruct (claimDue z uuid locale_le dueAt now w) as [[out|e] w1]; [left|right; split; [apply H|by exists e, w1; split; [|apply H]]].
  destruct H as (st' & n' & H1 & (rs & HJ & Hst' & ->) & Hco). split; [done|]. eexists _, w1, st'. split_and!; [done|by apply H1| | | |].
  - clear -HJ. fold open_ in HJ. induction HJ as [|j [j' d] js_ rs [[Hi _ _ _] Hc] _ IH]; [done|]. rewrite filter_cons. cbn [omap list_omap snd fst] in *. destruct (isDueJob j dueAt) eqn:Ed.
    + destruct Hc as [_ Hc]. destruct d as [d|]; [rewrite decide_True by tauto; rewrite !fmap_cons; cbn [c_job]; rewrite Hi; f_equal; exact IH|rewrite decide_False by tauto; exact IH].
    + injection Hc as -> ->. rewrite decide_False by (intros [? _]; done). exact IH.
  - intros c ([j' d] & Hr & Hc)%list_elem_of_omap. cbn in Hc. destruct d as [d|]; [|done]. injection Hc as <-. cbn. rewrite Hst'. cbn. split; [by apply (list_elem_of_fmap_2 fst rs (j', Some d))|].
    assert (Hd : d ∈ omap snd rs) by (apply list_elem_of_omap; by exists (j', Some d)). exists d. split_and!; [by apply elem_of_app; right|done|].
    destruct (claimed_job _ _ _ _ _ _ HJ Hd) as (j & j1 & _ & _ & _). apply list_elem_of_lookup in Hr as [x Hx]. destruct (Forall2_lookup_r _ _ _ _ _ HJ Hx) as (jx & _ & Hcx).
    destruct (claimed_due _ _ _ _ _ _ Hcx) as ([Hti _ _ _] & _ & _ & Hj & _). congruence.
  - rewrite Hst'. cbn. apply Forall2_fmap_r. eapply Forall2_impl; [exact HJ|]. intros j [j' d] [[Hi _ _ _] Hc]. cbn [fst snd] in *. destruct (isDueJob j dueAt); [|by injection Hc].
    split; [done|]. intros Hin. destruct Hc as [_ Hc]. destruct d; tauto.
  - rewrite Hst'. cbn. intros j' ([j1 d] & -> & [x Hx]%list_elem_of_lookup)%list_elem_of_fmap. destruct (Forall2_lookup_r _ _ _ _ _ HJ Hx) as (j & _ & [_ Hc]). cbn [fst snd] in *.
    destruct (isDueJob j dueAt) eqn:Ed; [|injection Hc as -> _; done]. destruct Hc as [Hl _]. unfold isDueJob. destruct Hl as [->|(t & -> & Ht)]; cbn; [apply andb_false_r|].
    rewrite (proj2 (Z.leb_gt _ _)) by lia. apply andb_false_r.
Qed.

(** ** Examples and witnesses *)

Definition demo_uuid (k : nat) : jsstr := [N.of_nat k].
Lemma demo_uuid_inj a b : demo_uuid a = demo_uuid b -> a = b.
Proof. intros [= H]. lia. Qed.
Definition no_date (_ : jsstr) : option Z := None.
Definition same_path (p : jsstr) : jsstr := p.
Definition demo_world (fs : list fate) : world :=
  {| files := ∅; filePath := Some (js "jobs"); sessionArtifactMode := false; sessionArtifactFiles := []; notified := 0; fates := fs; drawn := 0 |}.
Definition demo_input (text : string) : CreateAgentCronJobInput :=
  {| i_activeSessionId := js "a"; i_sessionId := js "s"; i_sessionFile := js "f"; i_cwd := js "/"; i_label := None; i_prompt := js "look around";
     i_scheduleText := js text; i_source := None; i_runtimeKind := None; i_deliveryMode := None |}.
Definition no_jobs : CronJobsState := {| jobs := []; dispatches := [] |}.
Lemma demo_at fs : Forall (fun f => match f with Meanwhile _ => False | _ => True end) fs -> at_ (js "jobs") no_jobs 0 (demo_world fs).
Proof. intros H. constructor; [done|by vm_compute|done|done]. Qed.
Lemma no_jobs_fine uuid clock : fine uuid clock 0 no_jobs.
Proof. constructor; [constructor|done|constructor|split; [constructor|done]]. Qed.

(** A job of every ten seconds and one of a day ahead; a write that throws after the file was replaced makes a claim fail. *)
Definition demo_events : list (Z * event) :=
  [(1000, ECreate (demo_input "every 10s")); (1000, ECreate (demo_input "in 1d")); (11000, EClaim 11000); (12000, ESettle [2%N] Ran None);
   (22000, EClaim 21500); (33000, EClaim 33000); (86401000, ERecover); (86401000, EClaim 86401000)].
Definition demo_fates : list fate := [Fine; Fine; Fine; Fine; Fine; Fine; Fine; Fine; Fine; Fine; Fine; Fine; Fine; Late (js "fsync")].

Lemma claims_are_exclusive_witness :
  let utc_zone := {| first_offset := 0; transitions := [] |} in
  ((forall a b, demo_uuid a = demo_uuid b -> a = b) /\ zone_ok utc_zone /\ at_ (js "jobs") no_jobs 0 (demo_world demo_fates) /\ fine demo_uuid 0 0 no_jobs /\
   history utc_zone 0 demo_events) /\
  (run utc_zone no_date demo_uuid same_path str_leb (js "jobs") demo_events (demo_world demo_fates)).1 =
    [([0%N], Some (At 11000)); ([0%N], Some (At 43000)); ([1%N], Some (At 86401000))] /\
  NoDup (run utc_zone no_date demo_uuid same_path str_leb (js "jobs") demo_events (demo_world demo_fates)).1.
Proof.
  cbv zeta. set (utc_zone := {| first_offset := 0; transitions := [] |}).
  assert (H : (forall a b, demo_uuid a = demo_uuid b -> a = b) /\ zone_ok utc_zone /\ at_ (js "jobs") no_jobs 0 (demo_world demo_fates) /\ fine demo_uuid 0 0 no_jobs /\ history utc_zone 0 demo_events).
  { split_and!; [exact demo_uuid_inj|done|by apply demo_at; repeat constructor|apply no_jobs_fine|]. unfold demo_events, history, steady, event_ok. by repeat split. }
  split; [exact H|]. destruct H as (H1 & H2 & H3 & H4 & H5). split; [vm_compute; reflexivity|].
  exact (proj1 (claims_are_exclusive utc_zone no_date demo_uuid same_path str_leb (js "jobs") 0 demo_events (demo_world demo_fates) no_jobs 0 H1 H2 H3 H4 H5)).
Defined.

Definition demo_job (jid expression : string) (kind_ : AgentCronScheduleKind) (next : Z) : AgentCronJob :=
  {| id := js jid; status := JActive; source := Some FromHeartbeat; runtimeKind := None; deliveryMode := None; activeSessionId := js "a"; sessionId := js jid;
     sessionFile := js jid; cwd := js "/"; label := None; prompt := js "look"; schedule := {| s_kind := kind_; s_expression := js expression; intervalMs := Some 60000 |};
     createdAt := At 0; updatedAt := At 0; nextRunAt := Some (At next); lastRunAt := None; lastSkippedAt := None; lastError := None; runCount := 0 |}.
Definition utc_zone : zone := {| first_offset := 0; transitions := [] |}.
Definition two_files (j1 j2 : AgentCronJob) : world :=
  {| files := <[js "p1" := inl {| jobs := [j1]; dispatches := [] |}]> (<[js "p2" := inl {| jobs := [j2]; dispatches := [] |}]> ∅); filePath := None;
     sessionArtifactMode := true; sessionArtifactFiles := [(id j1, js "p1"); (id j2, js "p2")]; notified := 0; fates := []; drawn := 0 |}.

Definition one_file (js_ : list AgentCronJob) : world :=
  {| files := {[js "jobs" := inl {| jobs := js_; dispatches := [] |}]}; filePath := Some (js "jobs"); sessionArtifactMode := false; sessionArtifactFiles := [];
     notified := 0; fates := []; drawn := 0 |}.
Lemma claim_due_exact_witness :
  let st := {| jobs := [with_run JActive (Some (At 500)) (At 0) (demo_job "x" "each 1m" Interval 0)]; dispatches := [] |} in
  let w := {| files := {[js "jobs" := inl st]}; filePath := Some (js "jobs"); sessionArtifactMode := false; sessionArtifactFiles := []; notified := 0; fates := []; drawn := 200 |} in
  ((forall a b, demo_uuid a = demo_uuid b -> a = b) /\ zone_ok utc_zone /\ steady utc_zone 1000 /\ 1000 <= 1000 /\ at_ (js "jobs") st 200 w /\ fine demo_uuid 1000 200 st /\ fates w = []) /\
  exists out w', claimDue utc_zone demo_uuid str_leb 1000 1000 w = (inl out, w') /\ (fun c => id (c_job c)) <$> out = [js "x"].
Proof.
  cbv zeta. set (st := {| jobs := [with_run _ _ _ _]; dispatches := [] |}). set (w := {| files := _; filePath := _; sessionArtifactMode := _; sessionArtifactFiles := _; notified := _; fates := _; drawn := _ |}).
  assert (H : (forall a b, demo_uuid a = demo_uuid b -> a = b) /\ zone_ok utc_zone /\ steady utc_zone 1000 /\ 1000 <= 1000 /\ at_ (js "jobs") st 200 w /\ fine demo_uuid 1000 200 st /\ fates w = []).
  { split_and!; [exact demo_uuid_inj|done|done|done| | |done].
    - constructor; [done|by vm_compute|done|by repeat constructor].
    - constructor; [apply NoDup_singleton| |constructor|split; [constructor|done]]. apply list.Forall_cons. split; [|done]. constructor; [by exists 0|]. exists 120%nat. split; [lia|by vm_compute]. }
  split; [exact H|]. destruct H as (H1 & H2 & H3 & H4 & H5 & H6 & H7).
  destruct (claim_due_exact utc_zone demo_uuid str_leb (js "jobs") 1000 1000 st 200 w H1 H2 H3 H4 H5 H6 H7) as [(_ & out & w' & st' & Hc & _ & Hids & _)|(Hno & _)].
  - exists out, w'. split; [exact Hc|]. rewrite Hids. vm_compute. reflexivity.
  - exfalso. apply Hno. apply list.Forall_cons. split; [|done]. intros _. eexists. vm_compute. reflexivity.
Defined.

(** A schedule in one session's file that has no next run makes the claim for all sessions throw. What was claimed before it
    is in the file and was not returned: the dispatch stays open, and the job is skipped from then on, although it never runs. *)
Example claim_lost_with_later_error :
  let w := two_files (demo_job "x" "each 1m" Interval 500) (demo_job "y" "0 0 31 4" Cron 500) in
  let '(r1, w1) := claimDue utc_zone demo_uuid str_leb 1000 1000 w in
  let w1' := set_files (delete (js "p2") (files w1)) w1 in
  let '(r2, w2) := claimDue utc_zone demo_uuid str_leb 61500 61500 w1' in
  match r1, r2, stored (js "p1") w1, stored (js "p1") w2 with
  | inr _, inl [], Some st1, Some st2 => (length (dispatches st1), runCount <$> jobs st2, lastSkippedAt <$> jobs st2) = (1%nat, [0], [Some (At 61500)])
  | _, _, _, _ => False
  end.
Proof. vm_compute. done. Qed.

(** When the clock has gone back, the change of a heartbeat is returned but not kept: it loses against the older state. *)
Example clock_back_change_lost :
  let w := one_file [with_run JActive (Some (At 9000)) (At 5000) (demo_job "x" "each 1m" Interval 0)] in
  let '(r, w') := pauseHeartbeat str_leb (js "a") 4000 w in
  (match r with inl (Some j) => status j = JPaused | _ => False end) /\ (status <$> default [] (jobs <$> stored (js "jobs") w')) = [JActive].
Proof. vm_compute. done. Qed.

(** A session takes over another one's file: both heartbeats are its own then, and both are live. *)
Example rebound_session_has_two_heartbeats :
  let other := with_session (js "b") (js "y") (js "y") (js "/") (demo_job "y" "each 1m" Interval 9000) in
  let w := one_file [demo_job "x" "each 1m" Interval 9000; other] in
  let '(_, w') := rebindSessionJobs same_path str_leb (js "a") (js "y") (js "y") (js "/") w in
  (fun j => (activeSessionId j, live j)) <$> default [] (jobs <$> stored (js "jobs") w') = [(js "a", true); (js "a", true)].
Proof. vm_compute. done. Qed.

(** In the second showing of an hour a job of every minute is due again as soon as it was claimed. *)
Example repeated_hour_fires_again :
  let t := 1730615420000 in
  let w := one_file [demo_job "x" "* * * * *" Cron t] in
  let '(r1, w1) := claimDue new_york demo_uuid str_leb t t w in
  match r1 with
  | inl [c] =>
      let '(_, w2) := recordDispatchResult new_york str_leb (c_id c) Ran None (t + 1) w1 in
      let '(r3, _) := claimDue new_york demo_uuid str_leb (t + 2) (t + 2) w2 in
      match r3 with inl [c'] => id (c_job c') = js "x" | _ => False end
  | _ => False
  end.
Proof. vm_compute. done. Qed.
