(* ===== verification/CronCommands.v ===== *)
(** * Heartbeat commands (core/cron-jobs.ts)

    How the arguments of [/heartbeat] are read, and when a heartbeat is put off because its session is busy. The patterns
    of the source are written out as readers of a text.

    [heartbeat_command_read] says what a command that is read holds, and that nothing else is an error. *)

(* Source aliases:
   CJ = src/packages/coding-agent/src/core/cron-jobs.ts *)

From S2P Require Import Prelude JsString JsNumber CronSchedule CronStore.
Local Open Scope N_scope.

Local Notation "'ok' x ':=' r 'in' k" := (match r with inl x => k | inr e => inr e end) (at level 200, x name, r at level 100, k at level 200).

(** ** Readers *)

(** The rest of a text that begins with a word, in any case. *)
Definition after_prefix (word text : jsstr) : option jsstr :=
  if bool_decide ((lower1 <$> take (length word) text) = word) then Some (drop (length word) text) else None.
Definition not_space (u : N) : bool := negb (is_space u).
Definition is_word (u : N) : bool := is_digit u || ((65 <=? u) && (u <=? 90)) || ((97 <=? u) && (u <=? 122)) || (u =? 95).
(** What may follow an argument: white space or the end. *)
Definition ends_argument (rest : jsstr) : bool := match rest with [] => true | u :: _ => is_space u end.
(** The text before the last word, without the white space between, and the last word, when there is white space before it. *)
Definition split_last (s : jsstr) : option (jsstr * jsstr) :=
  let '(word, before) := span not_space (reverse s) in
  match before with [] => None | _ => Some (trim_end (reverse before), reverse word) end.

Definition heartbeat_units : list jsstr := second_units ++ minute_units ++ hour_units.

(** ** Delivery *)

Definition quote : jsstr := [34%N].
Definition delivery_error : jsstr := js "Heartbeat delivery mode must be " ++ quote ++ js "steer" ++ quote ++ js " or " ++ quote ++ js "follow_up" ++ quote.

(** CJ 1143-1151 normalizeHeartbeatDeliveryMode. A string, or none. *)
Definition normalizeHeartbeatDeliveryMode (value : option jsstr) : option AgentHeartbeatDeliveryMode + jsstr :=
  match value with
  | None => inl None
  | Some v => if jseqb v (js "steer") then inl (Some Steer) else if jseqb v (js "follow_up") then inl (Some FollowUp) else inr delivery_error
  end.

(** The first [-] becomes [_]. *)
Fixpoint replace_dash (s : jsstr) : jsstr := match s with [] => [] | u :: s => if (u =? 45)%N then 95%N :: s else u :: replace_dash s end.
(** CJ 1299-1305 parseDeliveryModeToken. *)
Definition parseDeliveryModeToken (token : jsstr) : AgentHeartbeatDeliveryMode + jsstr :=
  let normalized := replace_dash (lower1 <$> token) in
  if jseqb normalized (js "steer") then inl Steer else if jseqb normalized (js "follow_up") then inl FollowUp else inr delivery_error.

(** CJ 1268-1279 consumeLeadingDeliveryFlag. The token of the flag and the rest. *)
Definition leading_flag (text : jsstr) : option (jsstr * jsstr) :=
  match after_prefix (js "--deliver") text with
  | Some r =>
      let argument r := let '(token, rest) := span not_space r in match token with [] => None | _ => Some (token, trim rest) end in
      match r with
      | u :: r' => if (u =? 61)%N then argument r' else if is_space u then argument (trim_start r) else None
      | [] => None
      end
  | None =>
      let shorthand word := match after_prefix (js "--" ++ word) text with Some rest => if ends_argument rest then Some (word, trim rest) else None | None => None end in
      match shorthand (js "steer"), shorthand (js "follow-up"), shorthand (js "follow_up") with
      | Some r, _, _ | None, Some r, _ | None, None, Some r => Some r
      | None, None, None => None
      end
  end.
(** CJ 1281-1297 consumeTrailingDeliveryFlag. The token of the flag and what is before it. *)
Definition trailing_flag (text : jsstr) : option (jsstr * jsstr) :=
  match split_last text with
  | None => None
  | Some (before, word) =>
      match split_last before with
      | Some (before', flag) => if bool_decide ((lower1 <$> flag) = js "--deliver") then Some (word, before') else None
      | None => None
      end ∪
      match after_prefix (js "--deliver=") word with Some (u :: token) => Some (u :: token, before) | _ => None end ∪
      (if bool_decide ((lower1 <$> word) ∈ [js "--steer"; js "--follow-up"; js "--follow_up"]) then Some (drop 2 word, before) else None)
  end.

(** CJ 1250-1255 consumeDeliveryOption. The flags at the start; each takes units of the text. *)
Fixpoint leading_flags (fuel : nat) (mode : option AgentHeartbeatDeliveryMode) (rest : jsstr) : option AgentHeartbeatDeliveryMode * jsstr + jsstr :=
  match fuel, leading_flag rest with
  | S fuel, Some (token, rest) => ok m := parseDeliveryModeToken token in leading_flags fuel (Some m) rest
  | _, _ => inl (mode, rest)
  end.
(** CJ 1257-1265 consumeDeliveryOption. The flags at the end; the last one counts. *)
Fixpoint trailing_flags (fuel : nat) (mode : option AgentHeartbeatDeliveryMode) (rest : jsstr) : option AgentHeartbeatDeliveryMode * jsstr + jsstr :=
  match fuel, trailing_flag rest with
  | S fuel, Some (token, rest) => ok m := parseDeliveryModeToken token in trailing_flags fuel (Some (default m mode)) (trim rest)
  | _, _ => inl (mode, rest)
  end.
(** CJ 1243-1266 consumeDeliveryOption. *)
Definition consumeDeliveryOption (text : jsstr) : option AgentHeartbeatDeliveryMode * jsstr + jsstr :=
  let rest := trim text in
  let last_word := match split_last rest with Some (_, w) => w | None => rest end in
  if bool_decide ((lower1 <$> last_word) ∈ [js "--deliver"; js "--deliver="]) then inr delivery_error
  else
    ok l := leading_flags (length rest) None rest in
    ok t := trailing_flags (length l.2) None l.2 in
    inl (match t.1 with Some m => Some m | None => l.1 end, t.2).

(** ** Intervals *)

(** CJ 1132-1141 normalizeHeartbeatSchedule. *)
Definition normalizeHeartbeatSchedule (input : option jsstr) : jsstr :=
  match trim <$> input with
  | Some (u :: t) =>
      let text := u :: t in
      let '(ds, rest) := span is_digit text in
      if negb (bool_decide (ds = [])) && bool_decide ((lower1 <$> trim_start rest) ∈ heartbeat_units) then js "every " ++ text else text
  | _ => js "every 5m"
  end.

(** CJ 1309-1311 consumeEveryOption. A quoted text, and what follows it. *)
Definition quoted (q : N) (text : jsstr) : option (jsstr * jsstr) :=
  match text with
  | u :: r =>
      if (u =? q)%N then
        match span (fun v => negb (v =? q)%N) r with
        | (v :: w, _ :: rest) => if ends_argument rest then Some (v :: w, rest) else None
        | _ => None
        end
      else None
  | [] => None
  end.
(** CJ 1309-1311 consumeEveryOption. A number and a unit, with the white space between. *)
Definition amount_and_unit (text : jsstr) : option (jsstr * jsstr) :=
  let '(ds, r) := span is_digit text in
  let '(unit, rest) := span not_space (trim_start r) in
  if negb (bool_decide (ds = [])) && bool_decide ((lower1 <$> unit) ∈ heartbeat_units) then Some (take (length text - length rest)%nat text, rest) else None.
Definition one_word (text : jsstr) : option (jsstr * jsstr) :=
  match span not_space text with ([], _) => None | r => Some r end.
(** CJ 1307-1319 consumeEveryOption. *)
Definition consumeEveryOption (text : jsstr) : option (jsstr * jsstr) :=
  match after_prefix (js "--every") text with
  | Some (u :: r) =>
      let value := if (u =? 61)%N then Some r else if is_space u then Some (trim_start r) else None in
      match value with
      | None => None
      | Some v => (fun p : jsstr * jsstr => (p.1, trim p.2)) <$> (quoted 34 v ∪ quoted 39 v ∪ amount_and_unit v ∪ one_word v)
      end
  | _ => None
  end.

(** CJ 1321-1336 consumeLeadingEverySchedule. *)
Definition consumeLeadingEverySchedule (text : jsstr) : option (jsstr * jsstr) :=
  match after_prefix (js "every") text ∪ after_prefix (js "each") text with
  | None => None
  | Some r =>
      let '(spaces, r) := span is_space r in
      let '(ds, r) := span is_digit r in
      let '(unit, after) := span is_word (trim_start r) in
      if negb (bool_decide (spaces = [])) && negb (bool_decide (ds = [])) && bool_decide ((lower1 <$> unit) ∈ heartbeat_units)
      then
        let trimmed := trim after in
        let rest := match after_prefix (js "--") trimmed with Some r => if ends_argument r then r else trimmed | None => trimmed end in
        Some (take (length text - length after)%nat text, trim rest)
      else None
  end.

(** ** The command *)

(** CJ 112-117 ParsedHeartbeatCommand. *)
Inductive ParsedHeartbeatCommand := HStatus | HPause | HResume | HClear | HSet (schedule instruction : jsstr) (deliveryMode : option AgentHeartbeatDeliveryMode).
Definition usage : jsstr := js "Usage: /heartbeat [--every <interval>] [--steer|--follow-up] <instruction>".
(** The text without the name of the command. *)
Definition without_name (input : jsstr) : jsstr :=
  if starts_with (js "/heartbeat") input then
    let rest := drop 10 input in
    match rest with u :: _ => if is_word u then input else rest | [] => rest end
  else input.
(** CJ 1179-1192 parseHeartbeatCommand. What follows an interval. *)
Definition set_command (interval rest : jsstr) (mode : option AgentHeartbeatDeliveryMode) : ParsedHeartbeatCommand + jsstr :=
  ok trailing := consumeDeliveryOption rest in
  match trailing.2 with
  | [] => inr usage
  | instruction => inl (HSet (normalizeHeartbeatSchedule (Some interval)) instruction (match trailing.1 with Some m => Some m | None => mode end))
  end.
(** CJ 1159-1218 parseHeartbeatCommand. *)
Definition parseHeartbeatCommand (input : jsstr) : ParsedHeartbeatCommand + jsstr :=
  let text := trim (without_name input) in
  if bool_decide (text = []) || jseqb text (js "status") then inl HStatus
  else if jseqb text (js "pause") then inl HPause
  else if jseqb text (js "resume") then inl HResume
  else if jseqb text (js "clear") || jseqb text (js "stop") then inl HClear
  else
    ok leading := consumeDeliveryOption text in
    match consumeEveryOption leading.2 with
    | Some (interval, rest) => set_command interval rest leading.1
    | None =>
        match consumeLeadingEverySchedule leading.2 with
        | Some (interval, rest) => set_command interval rest leading.1
        | None =>
            match trim leading.2 with
            | [] => inr usage
            | instruction => inl (HSet (js "every 5m") instruction leading.1)
            end
        end
    end.

(** ** When a heartbeat is put off *)

(** CJ 78-85 HeartbeatCronSessionActivity. *)
Record HeartbeatCronSessionActivity := {
  isStreaming : bool; isCompacting : option bool; isRetrying : option bool; isBashRunning : bool; hasPendingSessionWork : bool; unfinishedActionCount : Z }.
(** How a heartbeat joins a turn. *)
Inductive streamingBehavior := JoinSteer | JoinFollowUp.
#[export] Instance streamingBehavior_eq_dec : EqDecision streamingBehavior.
Proof. solve_decision. Defined.
(** CJ 1153-1157 resolveHeartbeatStreamingBehavior. *)
Definition resolveHeartbeatStreamingBehavior (mode : option AgentHeartbeatDeliveryMode) : streamingBehavior :=
  match default Steer mode with FollowUp => JoinFollowUp | Steer => JoinSteer end.
(** CJ 1342-1363 shouldDeferHeartbeatCronJob. *)
Definition shouldDeferHeartbeatCronJob (j : AgentCronJob) (a : HeartbeatCronSessionActivity) : bool :=
  if negb (isHeartbeatCronJob j) then false
  else if bool_decide (isCompacting a = Some true) || bool_decide (isRetrying a = Some true) || isBashRunning a || hasPendingSessionWork a
          || (negb (isStreaming a) && (0 <? unfinishedActionCount a)%Z) then true
  else if bool_decide (resolveHeartbeatStreamingBehavior (deliveryMode j) = JoinSteer) then false
  else isStreaming a.

(** ** Commands *)

Example heartbeat_commands :
  parseHeartbeatCommand (js "/heartbeat --follow-up every 10 min -- look at the tests --steer")
    = inl (HSet (js "every 10 min") (js "look at the tests") (Some Steer)) /\
  parseHeartbeatCommand (js "/heartbeat --every=30s  --deliver follow_up go on") = inl (HSet (js "every 30s") (js "go on") (Some FollowUp)) /\
  parseHeartbeatCommand (js "/heartbeat each 5minutes") = inr usage /\
  parseHeartbeatCommand (js "/heartbeat go on --deliver later") = inr delivery_error /\
  parseHeartbeatCommand (js "/heartbeats") = inl (HSet (js "every 5m") (js "/heartbeats") None) /\
  parseHeartbeatCommand (js "/heartbeat  ") = inl HStatus.
Proof. by vm_compute. Qed.

(** *** Readers *)

Lemma span_app p s : s = (span p s).1 ++ (span p s).2.
Proof. induction s as [|u s IH]; [done|]. cbn [span]. destruct (p u); [|done]. destruct (span p s) as [a b]. cbn in *. by f_equal. Qed.
Lemma span_rest p s : match (span p s).2 with u :: _ => p u = false | [] => True end.
Proof. induction s as [|u s IH]; [done|]. cbn [span]. destruct (p u) eqn:E; [|done]. by destruct (span p s). Qed.
Lemma span_length p s : (length (span p s).2 <= length s)%nat.
Proof. rewrite (span_app p s) at 2. rewrite length_app. lia. Qed.
Lemma trim_start_length s : (length (trim_start s) <= length s)%nat.
Proof. destruct (trim_start_split s) as (a & E & _). rewrite E at 2. rewrite length_app. lia. Qed.
Lemma trim_end_length s : (length (trim_end s) <= length s)%nat.
Proof. destruct (trim_end_split s) as (a & E & _). rewrite E at 2. rewrite length_app. lia. Qed.
Lemma trim_length s : (length (trim s) <= length s)%nat.
Proof. unfold trim. etrans; [apply trim_end_length|apply trim_start_length]. Qed.
Lemma after_prefix_spec word text r : after_prefix word text = Some r <-> exists a, text = a ++ r /\ lower1 <$> a = word.
Proof.
  unfold after_prefix. split.
  - case_bool_decide as H; [|done]. intros [= <-]. exists (take (length word) text). by rewrite take_drop.
  - intros (a & -> & <-). rewrite length_fmap, take_app_length, drop_app_length, bool_decide_true by done. done.
Qed.
Lemma after_prefix_length word text r : after_prefix word text = Some r -> (length text = length word + length r)%nat.
Proof. intros (a & -> & <-)%after_prefix_spec. by rewrite length_app, length_fmap. Qed.
Lemma after_prefix_app word text r x : after_prefix word text = Some r -> after_prefix word (text ++ x) = Some (r ++ x).
Proof. intros (a & -> & E)%after_prefix_spec. apply after_prefix_spec. exists a. by rewrite (assoc_L app). Qed.
Lemma split_last_spec s before word : split_last s = Some (before, word) ->
  exists u b, s = before ++ u :: b ++ word /\ Forall (fun u => is_space u = true) (u :: b) /\ trim_end before = before.
Proof.
  unfold split_last. destruct (span not_space (reverse s)) as [w [|v t]] eqn:E; [done|]. intros [= <- <-].
  pose proof (span_app not_space (reverse s)) as Ha. pose proof (span_rest not_space (reverse s)) as Hr. rewrite E in Ha, Hr. cbn in Ha, Hr.
  apply (f_equal reverse) in Ha. rewrite reverse_involutive, reverse_app in Ha.
  destruct (trim_end_split (reverse (v :: t))) as (b & Eb & Hb). destruct b as [|u b].
  - exfalso. rewrite app_nil_r in Eb. unfold trim_end in Eb. rewrite reverse_involutive in Eb. apply (f_equal reverse) in Eb.
    rewrite !reverse_involutive in Eb. cbn [trim_start] in Eb. unfold not_space in Hr. apply negb_false_iff in Hr. rewrite Hr in Eb.
    pose proof (trim_start_length t). rewrite <- Eb in H. cbn in H. lia.
  - exists u, b. split; [|split; [done|apply trim_end_idem]]. rewrite Ha, Eb at 1. by rewrite <- (assoc_L app).
Qed.

(** *** Flags *)

Lemma some_union {A} (a : A) o : Some a ∪ o = Some a.
Proof. by destruct o. Qed.
Lemma none_union {A} (o : option A) : None ∪ o = o.
Proof. by destruct o. Qed.
Lemma trailing_flag_spec text token rest : trailing_flag text = Some (token, rest) ->
  exists u x, text = rest ++ u :: x /\ is_space u = true /\ trim_end rest = rest.
Proof.
  unfold trailing_flag. destruct (split_last text) as [[before word]|] eqn:E; [|done].
  destruct (split_last_spec _ _ _ E) as (u & b & Et & Hub & Hb). intros H.
  assert (Hone : rest = before -> exists u x, text = rest ++ u :: x /\ is_space u = true /\ trim_end rest = rest).
  { intros ->. exists u, (b ++ word). by apply list.Forall_cons in Hub as [? _]. }
  assert (Htwo : forall before' flag, split_last before = Some (before', flag) -> rest = before' ->
    exists u x, text = rest ++ u :: x /\ is_space u = true /\ trim_end rest = rest).
  { intros before' flag E' ->. destruct (split_last_spec _ _ _ E') as (v & c & Eb & Hvc & Hb'). exists v, (c ++ flag ++ u :: b ++ word).
    apply list.Forall_cons in Hvc as [? _]. split; [|done]. rewrite Et, Eb. rewrite <- (assoc_L app). cbn [app]. by rewrite <- (assoc_L app). }
  destruct (split_last before) as [[before' flag]|] eqn:E'.
  1: case_bool_decide; [rewrite !some_union in H; injection H as <- <-; by eapply Htwo|].
  all: rewrite none_union in H; destruct (after_prefix (js "--deliver=") word) as [[|v t]|];
    rewrite ?some_union, ?none_union in H; try (injection H as <- <-; by apply Hone).
  all: case_bool_decide; [injection H as <- <-; by apply Hone|done].
Qed.
Lemma trailing_flag_shorter text token rest : trailing_flag text = Some (token, rest) -> (length rest < length text)%nat.
Proof. intros (u & x & -> & _)%trailing_flag_spec. rewrite length_app. cbn. lia. Qed.

(** The argument of [--deliver]. *)
Lemma argument_app r t tok rest : (let '(token, rest) := span not_space r in match token with [] => None | _ => Some (token, trim rest) end) = Some (tok, rest) ->
  exists y, (let '(token, rest) := span not_space (r ++ t) in match token with [] => None | _ => Some (token, trim rest) end) = Some y.
Proof.
  destruct r as [|u r]; [done|]. cbn [span app]. destruct (not_space u); [|done]. destruct (span not_space r), (span not_space (r ++ t)). eauto.
Qed.
Lemma argument_shorter r tok rest : (let '(token, rest) := span not_space r in match token with [] => None | _ => Some (token, trim rest) end) = Some (tok, rest) ->
  (length rest <= length r)%nat /\ trim rest = rest.
Proof.
  pose proof (span_length not_space r). destruct (span not_space r) as [[|u w] r']; [done|]. intros [= _ <-]. cbn in H.
  split; [|apply trim_idem]. pose proof (trim_length r'). lia.
Qed.
Lemma leading_flag_shorter text tok rest : leading_flag text = Some (tok, rest) -> (length rest < length text)%nat /\ trim rest = rest.
Proof.
  unfold leading_flag. destruct (after_prefix (js "--deliver") text) as [r|] eqn:E.
  - apply after_prefix_length in E. change (length (js "--deliver")) with 9%nat in E. destruct r as [|u r]; [done|]. cbn in E.
    destruct (u =? 61); [intros [??]%argument_shorter; split; [lia|done]|]. destruct (is_space u) eqn:Hu; [|done].
    intros [??]%argument_shorter. split; [|done]. cbn [trim_start] in H. rewrite Hu in H. pose proof (trim_start_length r). lia.
  - assert (Hs : forall w tok rest, match after_prefix (js "--" ++ w) text with Some rest => if ends_argument rest then Some (w, trim rest) else None | None => None end = Some (tok, rest) ->
      (length rest < length text)%nat /\ trim rest = rest).
    { intros w tok' rest'. destruct (after_prefix (js "--" ++ w) text) as [r|] eqn:Er; [|done]. destruct (ends_argument r); [|done]. intros [= _ <-].
      apply after_prefix_length in Er. rewrite length_app in Er. change (length (js "--")) with 2%nat in Er. pose proof (trim_length r).
      split; [lia|apply trim_idem]. }
    do 3 (match goal with |- match ?x with _ => _ end = _ -> _ => destruct x as [[??]|] eqn:?; [intros [= <- <-]; by eapply Hs|] end). done.
Qed.
Lemma after_prefix_other (w w' text r : jsstr) n : after_prefix w text = Some r -> (n < length w)%nat -> w' !! n <> None -> w !! n <> w' !! n -> after_prefix w' text = None.
Proof.
  intros (a & -> & <-)%after_prefix_spec Hn Hs Hne. rewrite length_fmap in Hn. destruct (after_prefix w' (a ++ r)) as [r'|] eqn:E; [|done].
  apply after_prefix_spec in E as (a' & E & <-). destruct Hne. destruct (lookup_lt_is_Some_2 a n Hn) as [x Hx].
  rewrite !list_lookup_fmap in *. destruct (a' !! n) as [y|] eqn:Hy; [|done]. rewrite Hx. cbn. do 2 f_equal.
  apply (f_equal (lookup n)) in E. rewrite !lookup_app_l in E by (try done; by eapply lookup_lt_Some). congruence.
Qed.
(** A text that begins with a flag and goes on after white space still begins with one. *)
Lemma leading_flag_app text u q : is_space u = true -> leading_flag text <> None -> leading_flag (text ++ u :: q) <> None.
Proof.
  intros Hu. destruct (leading_flag text) as [[tok rest]|] eqn:E; [intros _|done]. unfold leading_flag in *.
  destruct (after_prefix (js "--deliver") text) as [r|] eqn:Er.
  - rewrite (after_prefix_app _ _ _ _ Er). destruct r as [|v r]; [done|]. cbn [app]. destruct (v =? 61).
    + by edestruct argument_app as [? ->].
    + destruct (is_space v) eqn:Hv; [|done]. cbn [trim_start] in *. rewrite Hv in *.
      destruct (trim_start_split r) as (a & Ea & Ha). destruct (trim_start r) as [|x t] eqn:Et; [done|].
      assert (Hx : is_space x = false). { pose proof (trim_start_head r) as Hh. by rewrite Et in Hh. }
      assert (trim_start (r ++ u :: q) = (x :: t) ++ u :: q) as ->.
      { rewrite Ea, <- (assoc_L app). clear -Ha Hx. induction Ha as [|y a Hy _ IH]; cbn [app trim_start]; [by rewrite Hx|by rewrite Hy]. }
      by edestruct (argument_app (x :: t)) as [? ->].
  - assert (Hs : forall w r, after_prefix (js "--" ++ w) text = Some r -> w !! 0%nat <> None -> w !! 0%nat <> Some 100 -> after_prefix (js "--deliver") (text ++ u :: q) = None).
    { intros w r Hr Hw Hd. apply (after_prefix_other (js "--" ++ w) _ _ (r ++ u :: q) 2).
      - by apply after_prefix_app.
      - destruct w; [done|]. rewrite length_app. change (length (js "--")) with 2%nat. cbn. lia.
      - done.
      - destruct w; done. }
    assert (Hk : forall w y, match after_prefix (js "--" ++ w) text with Some rest => if ends_argument rest then Some (w, trim rest) else None | None => None end = Some y ->
      exists r, after_prefix (js "--" ++ w) text = Some r /\
        exists y', match after_prefix (js "--" ++ w) (text ++ u :: q) with Some rest => if ends_argument rest then Some (w, trim rest) else None | None => None end = Some y').
    { intros w y. destruct (after_prefix (js "--" ++ w) text) as [r|] eqn:Hr; [|done]. destruct (ends_argument r) eqn:He; [|done]. intros _.
      exists r. split; [done|]. rewrite (after_prefix_app _ _ _ _ Hr). assert (ends_argument (r ++ u :: q) = true) as -> by (by destruct r). eauto. }
    do 3 (match type of E with match ?x with _ => _ end = _ => destruct x as [y|] eqn:Ey end;
      [apply Hk in Ey as (r & Hr & y' & Hy'); rewrite (Hs _ _ Hr) by done; rewrite Hy'; repeat case_match; done|clear Ey]). done.
Qed.
Definition no_flags (rest : jsstr) : Prop := trim rest = rest /\ leading_flag rest = None /\ trailing_flag rest = None.
Lemma mode_token_error token e : parseDeliveryModeToken token = inr e -> e = delivery_error.
Proof. unfold parseDeliveryModeToken. repeat case_match; congruence. Qed.
Lemma leading_flags_spec fuel : forall mode rest, (length rest <= fuel)%nat -> trim rest = rest ->
  match leading_flags fuel mode rest with inl (_, rest') => trim rest' = rest' /\ leading_flag rest' = None | inr e => e = delivery_error end.
Proof.
  induction fuel as [|fuel IH]; intros mode rest Hf Ht; cbn [leading_flags].
  - destruct rest; [done|cbn in Hf; lia].
  - destruct (leading_flag rest) as [[token rest']|] eqn:E; [|done]. destruct (leading_flag_shorter _ _ _ E) as [Hl Ht'].
    destruct (parseDeliveryModeToken token) as [m|e] eqn:Em; [|by eapply mode_token_error]. apply IH; [lia|done].
Qed.
Lemma trailing_flags_spec fuel : forall mode rest, (length rest <= fuel)%nat -> trim rest = rest -> leading_flag rest = None ->
  match trailing_flags fuel mode rest with inl (_, rest') => no_flags rest' | inr e => e = delivery_error end.
Proof.
  induction fuel as [|fuel IH]; intros mode rest Hf Ht Hl; cbn [trailing_flags].
  - destruct rest; [done|cbn in Hf; lia].
  - destruct (trailing_flag rest) as [[token rest']|] eqn:E; [|done].
    destruct (parseDeliveryModeToken token) as [m|e] eqn:Em; [|by eapply mode_token_error].
    pose proof (trailing_flag_shorter _ _ _ E). destruct (trailing_flag_spec _ _ _ E) as (u & x & -> & Hu & He).
    assert (Ht' : trim rest' = rest').
    { unfold trim. assert (trim_start rest' = rest') as ->; [|done]. apply trim_start_idle. destruct rest' as [|v r]; [done|].
      assert (Hv := trim_start_head ((v :: r) ++ u :: x)). rewrite <- Ht in Hv. unfold trim in Hv. rewrite trim_end_head in Hv by apply trim_start_head.
      change (trim_end (trim_start ((v :: r) ++ u :: x))) with (trim ((v :: r) ++ u :: x)) in Hv. by rewrite Ht in Hv. }
    rewrite Ht'. apply IH; [lia|done|]. destruct (leading_flag rest') eqn:El; [|done]. exfalso. eapply leading_flag_app; [done| |done]. by rewrite El.
Qed.
Lemma consumeDeliveryOption_spec text :
  match consumeDeliveryOption text with inl (_, rest) => no_flags rest | inr e => e = delivery_error end.
Proof.
  unfold consumeDeliveryOption. case_bool_decide; [done|]. pose proof (leading_flags_spec (length (trim text)) None (trim text) ltac:(done) (trim_idem text)) as Hl.
  destruct (leading_flags _ _ _) as [[m rest]|e]; [|done]. destruct Hl as [Ht Hl]. cbn [fst snd].
  pose proof (trailing_flags_spec (length rest) None rest ltac:(done) Ht Hl) as H'. by destruct (trailing_flags _ _ _) as [[m' rest']|e].
Qed.
Definition read_command (c : ParsedHeartbeatCommand + jsstr) : Prop :=
  match c with
  | inl (HSet _ instruction _) => instruction <> [] /\ no_flags instruction
  | inl _ => True
  | inr e => e = usage \/ e = delivery_error
  end.
Lemma set_command_read interval rest mode : read_command (set_command interval rest mode).
Proof.
  unfold set_command. pose proof (consumeDeliveryOption_spec rest) as H. destruct (consumeDeliveryOption rest) as [[m [|u i]]|e]; cbn in *; auto.
Qed.

(** A [/heartbeat] command that sets a heartbeat has an instruction, which is not empty, has no white space around it, and
    neither begins nor ends with a delivery option: every one of them was read, at either end, before and after the
    interval. A command that is refused is refused for a missing instruction or for a delivery mode that is none. *)
Theorem heartbeat_command_read (input : jsstr) :
  match parseHeartbeatCommand input with
  | inl (HSet _ instruction _) => instruction <> [] /\ trim instruction = instruction /\ leading_flag instruction = None /\ trailing_flag instruction = None
  | inl _ => True
  | inr e => e = usage \/ e = delivery_error
  end.
Proof.
  change (read_command (parseHeartbeatCommand input)). unfold parseHeartbeatCommand. repeat (match goal with |- context [if ?b then _ else _] => destruct b; [done|] end).
  pose proof (consumeDeliveryOption_spec (trim (without_name input))) as H. destruct (consumeDeliveryOption _) as [[m rest]|e]; [|by right].
  cbn [fst snd]. destruct (consumeEveryOption rest) as [[interval rest']|]; [apply set_command_read|].
  destruct (consumeLeadingEverySchedule rest) as [[interval rest']|]; [apply set_command_read|].
  destruct H as (Ht & Hn). rewrite Ht. destruct rest as [|u r]; [by left|done].
Qed.
