(* ===== verification/CronScheduler.v ===== *)
(** * The scheduler of jobs (core/cron-jobs.ts)

    A timer wakes the scheduler, which claims what is due and runs it: the jobs of one session one after the other, those
    of different sessions side by side. The promises of the source are tasks that wait for the task before them in their
    lane; what may happen next is a step, and the store may be changed by others between steps.

    [sessions_take_turns] says that of the jobs of a session no two run at once, that they run in the order they were
    claimed, and that nothing waits for ever; [dispatches_end_once] that what was begun is ended once; [timer_bounds] that
    the timer can hold its delay. *)

(* Source aliases:
   CJ = src/packages/coding-agent/src/core/cron-jobs.ts *)

From stdpp Require Import gmap.
From S2P Require Import Prelude JsString JsMap SummaryText StateError CronSchedule CronStore CronRuns.
Local Open Scope Z_scope.

(** ** The state *)

Inductive phase := Waiting | Running | Settled.
#[export] Instance phase_eq_dec : EqDecision phase.
Proof. solve_decision. Defined.
(** A dispatch that was queued, and the task it waits for. *)
Record task := { t_dispatch : AgentCronDispatch; t_previous : option nat; t_phase : phase }.
Definition lane_key (t : task) : jsstr := activeSessionId (c_job (t_dispatch t)).
Definition with_phase (p : phase) (t : task) : task := {| t_dispatch := t_dispatch t; t_previous := t_previous t; t_phase := p |}.

(** CJ 924-934 AgentCronScheduler. With the tasks ever queued, in order, and the dispatches begun and ended; [armed] while the
    timer has not fired. *)
Record AgentCronScheduler := {
  timer : option Z; armed : bool; running : bool; stopped : bool; hasStarted : bool; dispatchLanes : list (jsstr * nat);
  tasks : list task; begun : list jsstr; ended : list jsstr; store : world }.
Definition act (A : Type) : Type := SE AgentCronScheduler jsstr A.

Definition set_timer (t : option Z) (s : AgentCronScheduler) : AgentCronScheduler :=
  {| timer := t; armed := bool_decide (is_Some t); running := running s; stopped := stopped s; hasStarted := hasStarted s; dispatchLanes := dispatchLanes s;
     tasks := tasks s; begun := begun s; ended := ended s; store := store s |}.
Definition disarm (s : AgentCronScheduler) : AgentCronScheduler :=
  {| timer := timer s; armed := false; running := running s; stopped := stopped s; hasStarted := hasStarted s; dispatchLanes := dispatchLanes s;
     tasks := tasks s; begun := begun s; ended := ended s; store := store s |}.
Definition set_flags (r st h : bool) (s : AgentCronScheduler) : AgentCronScheduler :=
  {| timer := timer s; armed := armed s; running := r; stopped := st; hasStarted := h; dispatchLanes := dispatchLanes s;
     tasks := tasks s; begun := begun s; ended := ended s; store := store s |}.
Definition set_lanes (l : list (jsstr * nat)) (ts : list task) (s : AgentCronScheduler) : AgentCronScheduler :=
  {| timer := timer s; armed := armed s; running := running s; stopped := stopped s; hasStarted := hasStarted s; dispatchLanes := l;
     tasks := ts; begun := begun s; ended := ended s; store := store s |}.
Definition set_ends (b e : list jsstr) (s : AgentCronScheduler) : AgentCronScheduler :=
  {| timer := timer s; armed := armed s; running := running s; stopped := stopped s; hasStarted := hasStarted s; dispatchLanes := dispatchLanes s;
     tasks := tasks s; begun := b; ended := e; store := store s |}.
Definition set_store (w : world) (s : AgentCronScheduler) : AgentCronScheduler :=
  {| timer := timer s; armed := armed s; running := running s; stopped := stopped s; hasStarted := hasStarted s; dispatchLanes := dispatchLanes s;
     tasks := tasks s; begun := begun s; ended := ended s; store := w |}.

Definition in_store {A} (m : op A) : act A := fun s => let '(r, w) := m (store s) in (r, set_store w s).
Definition begin_all (ds : list AgentCronDispatch) : act unit := update (fun s => set_ends (begun s ++ (c_id <$> ds)) (ended s) s).
Definition end_all (ds : list AgentCronDispatch) : act unit := update (fun s => set_ends (begun s) (ended s ++ (c_id <$> ds)) s).

Definition MAX_TIMEOUT_MS : Z := 2147483647.

(** ** Operations *)

Section scheduler.
Context (z : zone) (uuid : nat -> jsstr) (locale_le : jsstr -> jsstr -> bool).

(** CJ 1039-1063 scheduleNext. *)
Definition scheduleNext (delayMs : option Z) (now : Z) : act unit :=
  update (set_timer None) ;;
  nextDelay ← match delayMs with
              | Some d => mret (Some d)
              | None => next ← in_store nextActiveRunAt; mret ((fun t => Z.max 0 (t - now)) <$> next)
              end;
  match nextDelay with
  | None => mret tt
  | Some d => update (set_timer (Some (Z.min d MAX_TIMEOUT_MS)))
  end.
(** CJ 936-943 start. *)
Definition start (now now' : Z) : act unit :=
  s ← current;
  update (set_flags (running s) false (hasStarted s)) ;;
  (if hasStarted s then mret tt
   else update (set_flags (running s) false true) ;; _ ← in_store (recoverInterruptedDispatches locale_le now); mret tt) ;;
  scheduleNext None now'.
(** CJ 945-951 stop. *)
Definition stop : act unit := update (fun s => set_timer None (set_flags (running s) true (hasStarted s) s)).
(** CJ 953-958 wake. *)
Definition wake (now : Z) : act unit := s ← current; if stopped s then mret tt else scheduleNext (Some 0) now.

(** CJ 997-998 queueDispatch. The end of the lane is the task just queued. *)
Definition enqueue (s : AgentCronScheduler) (d : AgentCronDispatch) : AgentCronScheduler :=
  let key := activeSessionId (c_job d) in
  let t := {| t_dispatch := d; t_previous := JsMap.get (dispatchLanes s) key; t_phase := Waiting |} in
  set_lanes (JsMap.set (dispatchLanes s) key (length (tasks s))) (tasks s ++ [t]) s.
(** CJ 967-981 runDue. What is due is claimed and begun; the hook [beginDispatch] may throw at one of the dispatches. *)
Definition claim_and_begin (now claimAt recoverAt : Z) (begin_fails : option (nat * jsstr)) : act (list AgentCronDispatch) :=
  claimed ← in_store (claimDue z uuid locale_le now claimAt);
  match begin_fails with
  | Some (n, message) =>
      if Nat.ltb n (length claimed) then
        begin_all (take n claimed) ;;
        end_all (take n claimed) ;;
        _ ← in_store (recoverInterruptedDispatchesById locale_le (c_id <$> claimed) recoverAt);
        raise message
      else begin_all claimed ;; mret claimed
  | None => begin_all claimed ;; mret claimed
  end.
(** CJ 982-987 runDue. *)
Definition finish_claim (nextAt : Z) : act unit :=
  update (fun s => set_flags false (stopped s) (hasStarted s) s) ;;
  s ← current;
  if stopped s then mret tt else scheduleNext None nextAt.
(** CJ 960-991 runDue. The instants are those of its calls of [now]; the count it returns when all are done is left out. *)
Definition runDue (now claimAt recoverAt nextAt : Z) (begin_fails : option (nat * jsstr)) : act unit :=
  s ← current;
  if running s || (stopped s && hasStarted s) then mret tt
  else
    update (set_flags true (stopped s) (hasStarted s)) ;;
    dispatches ← ensuring (claim_and_begin now claimAt recoverAt begin_fails) (finish_claim nextAt);
    update (fun s => foldl enqueue s dispatches).

(** CJ 1022-1024 queueDispatch. A task that has ended. *)
Definition settle (k : nat) : act unit :=
  update (fun s => match tasks s !! k with
                   | Some t => set_ends (begun s) (ended s ++ [c_id (t_dispatch t)]) (set_lanes (dispatchLanes s) (<[k := with_phase Settled t]> (tasks s)) s)
                   | None => s
                   end).
(** CJ 999-1007 queueDispatch. A task begins: it looks for its job, and calls the hook when there is one. *)
Definition start_task (k : nat) (now : Z) : act unit :=
  s ← current;
  match tasks s !! k with
  | None => mret tt
  | Some t =>
      catching
        (job ← in_store (getClaimedJob (id (c_job (t_dispatch t))));
         match job with
         | None => _ ← in_store (recordDispatchResult z locale_le (c_id (t_dispatch t)) Skipped None now); settle k
         | Some _ => update (fun s => set_lanes (dispatchLanes s) (<[k := with_phase Running t]> (tasks s)) s)
         end)
        (fun _ => settle k)
  end.
(** CJ 1008-1025 queueDispatch. The hook has returned or thrown; [onError] may throw as well. *)
Definition end_task (k : nat) (result : option AgentCronJobRunResult + jsstr) (onErrorThrows : bool) (now : Z) : act unit :=
  s ← current;
  match tasks s !! k with
  | None => mret tt
  | Some t =>
      catching
        (match result with
         | inr e => if onErrorThrows then raise e else in_store (recordDispatchResult z locale_le (c_id (t_dispatch t)) Ran (Some e) now)
         | inl r => in_store (recordDispatchResult z locale_le (c_id (t_dispatch t)) (if bool_decide (r = Some Skipped) then Skipped else Ran) None now)
         end ;; settle k)
        (fun _ => settle k)
  end.
(** CJ 1026-1035 queueDispatch. A lane that has come to its end is forgotten. *)
Definition forget_lane (k : nat) (s : AgentCronScheduler) : AgentCronScheduler :=
  match tasks s !! k with
  | Some t => if bool_decide (JsMap.get (dispatchLanes s) (lane_key t) = Some k) then set_lanes (JsMap.remove (dispatchLanes s) (lane_key t)) (tasks s) s else s
  | None => s
  end.

(** ** Steps *)

Definition settled (s : AgentCronScheduler) (k : nat) : Prop := exists t, tasks s !! k = Some t /\ t_phase t = Settled.
Definition after_state {A} (m : act A) (s : AgentCronScheduler) : AgentCronScheduler := snd (m s).

Definition succeeds {A} (m : act A) (s : AgentCronScheduler) : bool := match fst (m s) with inl _ => true | inr _ => false end.
(** Whether the timer could be set again after the claim. *)
Definition rescheduled (now claimAt recoverAt nextAt : Z) (fails : option (nat * jsstr)) (s : AgentCronScheduler) : bool :=
  succeeds (finish_claim nextAt) (after_state (claim_and_begin now claimAt recoverAt fails) (set_flags true (stopped s) (hasStarted s) s)).

(** What may happen: a call; the timer fires; a task whose predecessor has ended begins; the hook of a task returns; a lane is
    forgotten; others change the store. A step is calm unless what is due was claimed and the timer could not be set then. *)
Inductive step : AgentCronScheduler -> bool -> AgentCronScheduler -> Prop :=
  | SStart s now now' : step s true (after_state (start now now') s)
  | SStop s : step s true (after_state stop s)
  | SWake s now : step s true (after_state (wake now) s)
  | SRunDue s now claimAt recoverAt nextAt fails :
      step s (rescheduled now claimAt recoverAt nextAt fails s) (after_state (runDue now claimAt recoverAt nextAt fails) s)
  | SFire s now claimAt recoverAt nextAt fails : armed s = true ->
      step s (rescheduled now claimAt recoverAt nextAt fails (disarm s)) (after_state (runDue now claimAt recoverAt nextAt fails) (disarm s))
  | STask s k t now : tasks s !! k = Some t -> t_phase t = Waiting -> (forall j, t_previous t = Some j -> settled s j) ->
      step s true (after_state (start_task k now) s)
  | SReturn s k t result throws now : tasks s !! k = Some t -> t_phase t = Running -> step s true (after_state (end_task k result throws now) s)
  | SForget s k : settled s k -> step s true (forget_lane k s)
  | SStore s w : step s true (set_store w s).
Definition fresh (w : world) : AgentCronScheduler :=
  {| timer := None; armed := false; running := false; stopped := true; hasStarted := false; dispatchLanes := []; tasks := []; begun := []; ended := []; store := w |}.
(** A run, and whether all its steps were calm. *)
Inductive reachable : bool -> AgentCronScheduler -> Prop :=
  | reach_fresh w : reachable true (fresh w)
  | reach_step calm s b s' : reachable calm s -> step s b s' -> reachable (calm && b) s'.

(** ** Lanes *)

Definition same_lane (ts : list task) (j k : nat) : Prop := exists tj tk, ts !! j = Some tj /\ ts !! k = Some tk /\ lane_key tj = lane_key tk.
Definition settled_in (ts : list task) (k : nat) : Prop := exists t, ts !! k = Some t /\ t_phase t = Settled.
(** Every task but the waiting ones comes after settled ones in its lane; a task waits for the one before it in its lane, unless
    all before it are settled; the map of lanes has the last task of each lane that is not settled. *)
Record lanes_ok (lanes : list (jsstr * nat)) (ts : list task) : Prop := {
  lo_phase j k t : (j < k)%nat -> ts !! k = Some t -> t_phase t <> Waiting -> same_lane ts j k -> settled_in ts j;
  lo_previous k t : ts !! k = Some t ->
    (t_previous t = None /\ forall j, (j < k)%nat -> same_lane ts j k -> settled_in ts j) \/
    (exists p, t_previous t = Some p /\ (p < k)%nat /\ same_lane ts p k /\ forall i, (p < i < k)%nat -> ~ same_lane ts i k);
  lo_last key k : JsMap.get lanes key = Some k ->
    exists t, ts !! k = Some t /\ lane_key t = key /\ forall i ti, (k < i)%nat -> ts !! i = Some ti -> lane_key ti <> key;
  lo_none key k t : JsMap.get lanes key = None -> ts !! k = Some t -> lane_key t = key -> t_phase t = Settled }.

Lemma settled_earlier lanes ts k t : lanes_ok lanes ts -> ts !! k = Some t -> (forall p, t_previous t = Some p -> settled_in ts p) ->
  forall j, (j < k)%nat -> same_lane ts j k -> settled_in ts j.
Proof.
  intros L Hk Hp j Hj Hs. destruct (lo_previous _ _ L k t Hk) as [[_ H]|(p & Ep & Hpk & Hps & Hno)]; [by apply H|].
  destruct (Hp _ Ep) as (tp & Htp & Hse). destruct (decide (j = p)) as [->|Hne]; [by exists tp|].
  destruct (decide (j < p)%nat).
  - apply (lo_phase _ _ L j p tp); [done|done|by rewrite Hse|]. destruct Hs as (tj & tk & Htj & Htk & E), Hps as (tp' & tk' & Htp' & Htk' & E').
    exists tj, tp. simplify_eq. split_and!; [done|done|congruence].
  - destruct (Hno j); [lia|done].
Qed.
(** A later phase of one task. *)
Lemma lanes_ok_phase lanes ts k t p : lanes_ok lanes ts -> ts !! k = Some t -> t_phase t <> Settled -> p <> Waiting ->
  (forall j, (j < k)%nat -> same_lane ts j k -> settled_in ts j) -> lanes_ok lanes (<[k := with_phase p t]> ts).
Proof.
  intros L Hk Hns Hp He. set (ts' := <[k := with_phase p t]> ts).
  assert (Hat : forall i ti, ts' !! i = Some ti -> exists ti', ts !! i = Some ti' /\ lane_key ti' = lane_key ti /\ t_previous ti' = t_previous ti /\
    (i <> k -> ti' = ti) /\ (i = k -> t_phase ti = p)).
  { intros i ti. unfold ts'. rewrite list_lookup_insert. destruct (decide _) as [[<- _]|Hn].
    - intros [= <-]. exists t. by rewrite Hk.
    - intros Hi. exists ti. split_and!; try done. intros ->. destruct Hn. split; [done|by eapply lookup_lt_Some]. }
  assert (Hsame : forall i j, same_lane ts' i j -> same_lane ts i j).
  { intros i j (ti & tj & Hi & Hj & E). apply Hat in Hi as (ti' & Hi & Ei & _), Hj as (tj' & Hj & Ej & _). exists ti', tj'. split_and!; congruence. }
  assert (Hsame' : forall i j, same_lane ts i j -> same_lane ts' i j).
  { assert (Hto : forall i ti, ts !! i = Some ti -> exists ti', ts' !! i = Some ti' /\ lane_key ti' = lane_key ti).
    { intros i ti Hi. unfold ts'. rewrite list_lookup_insert. destruct (decide _) as [[<- _]|Hn]; [|by exists ti]. exists (with_phase p t).
      split; [done|]. by simplify_eq. }
    intros i j (ti & tj & Hi & Hj & E). apply Hto in Hi as (ti' & Hi & Ei), Hj as (tj' & Hj & Ej). exists ti', tj'. split_and!; congruence. }
  assert (Hset : forall i, settled_in ts i -> settled_in ts' i).
  { intros i (ti & Hi & E). exists ti. split; [|done]. unfold ts'. rewrite list_lookup_insert_ne; [done|]. intros ->. congruence. }
  split.
  - intros i j tj Hij Hj Hw Hs. apply Hset. apply Hat in Hj as (tj' & Hj & _ & _ & Hne & Heq). destruct (decide (j = k)) as [->|Hjk]; [by apply He, Hsame|].
    specialize (Hne Hjk). subst tj'. by apply (lo_phase _ _ L i j tj); [| | |apply Hsame].
  - intros i ti Hi. apply Hat in Hi as (ti' & Hi & _ & Epr & _). destruct (lo_previous _ _ L i ti' Hi) as [[En H]|(q & Eq & Hqi & Hqs & Hno)].
    + left. split; [congruence|]. intros j Hj Hs. by apply Hset, H, Hsame.
    + right. exists q. rewrite <- Epr. split_and!; [done|done|by apply Hsame'|]. intros j Hj Hs. by apply (Hno j), Hsame.
  - intros key i Hg. destruct (lo_last _ _ L _ _ Hg) as (ti & Hi & Ek & Hno).
    assert (Hx : exists ti', ts' !! i = Some ti' /\ lane_key ti' = key).
    { unfold ts'. rewrite list_lookup_insert. destruct (decide _) as [[<- _]|Hn]; [|by exists ti]. exists (with_phase p t). split; [done|]. by simplify_eq. }
    destruct Hx as (ti' & Hi' & Ek'). exists ti'. split_and!; [done|done|]. intros j tj Hij Hj. apply Hat in Hj as (tj' & Hj & <- & _). by apply (Hno j tj').
  - intros key i ti Hg Hi Ek. apply Hat in Hi as (ti' & Hi & Ek' & _ & Hne & Heq). assert (t_phase ti' = Settled) as Hse.
    { apply (lo_none _ _ L key i ti'); [done|done|congruence]. }
    destruct (decide (i = k)) as [->|Hik]; [congruence|]. by rewrite <- (Hne Hik).
Qed.
Lemma lanes_ok_forget lanes ts k t : lanes_ok lanes ts -> ts !! k = Some t -> t_phase t = Settled -> JsMap.get lanes (lane_key t) = Some k ->
  lanes_ok (JsMap.remove lanes (lane_key t)) ts.
Proof.
  intros L Hk Hse Hg. split; [apply L|apply L| |].
  - intros key i. rewrite JsMap.get_remove. case_decide; [done|]. apply L.
  - intros key i ti. rewrite JsMap.get_remove. case_decide as E; [|apply L]. intros _ Hi Ek.
    destruct (lo_last _ _ L _ _ Hg) as (t' & Ht' & _ & Hno). simplify_eq.
    destruct (decide (k < i)%nat); [destruct (Hno i ti); [done|done|congruence]|]. destruct (decide (i = k)) as [->|]; [congruence|].
    destruct (lo_phase _ _ L i k t) as (ti' & Hi' & H'); [lia|done|by rewrite Hse| |congruence]. exists ti, t. split_and!; congruence.
Qed.
Lemma same_lane_snoc ts t j k : (k < length ts)%nat -> (j < k)%nat -> same_lane (ts ++ [t]) j k <-> same_lane ts j k.
Proof. intros Hk Hj. unfold same_lane. by rewrite !lookup_app_l by lia. Qed.
Lemma settled_snoc ts t j : settled_in ts j -> settled_in (ts ++ [t]) j.
Proof. intros (x & Hx & E). exists x. split; [|done]. by apply lookup_app_l_Some. Qed.
Lemma lookup_snoc_inv {A} (l : list A) x k y : (l ++ [x]) !! k = Some y -> l !! k = Some y \/ k = length l /\ y = x.
Proof. intros [H|[H1 H2]]%lookup_app_Some; [by left|right]. destruct (k - length l)%nat eqn:E; cbn in H2; simplify_eq. split; [lia|done]. Qed.
Lemma lanes_ok_enqueue lanes ts d : lanes_ok lanes ts ->
  let key := activeSessionId (c_job d) in
  lanes_ok (JsMap.set lanes key (length ts)) (ts ++ [{| t_dispatch := d; t_previous := JsMap.get lanes key; t_phase := Waiting |}]).
Proof.
  intros L key. set (t := {| t_dispatch := d; t_previous := JsMap.get lanes key; t_phase := Waiting |}).
  assert (Hnew : (ts ++ [t]) !! length ts = Some t) by (by apply list_lookup_middle).
  split.
  - intros j k tk Hj Hk Hw Hs. apply lookup_snoc_inv in Hk as [Hk|[-> ->]]; [|done]. pose proof (lookup_lt_Some _ _ _ Hk).
    rewrite same_lane_snoc in Hs by lia. by eapply settled_snoc, (lo_phase _ _ L).
  - intros k tk Hk. apply lookup_snoc_inv in Hk as [Hk|[-> ->]].
    + pose proof (lookup_lt_Some _ _ _ Hk). destruct (lo_previous _ _ L k tk Hk) as [[En Ha]|(p & Ep & Hp & Hps & Hno)].
      * left. split; [done|]. intros j Hj Hs. rewrite same_lane_snoc in Hs by lia. by eapply settled_snoc, Ha.
      * right. exists p. split_and!; [done|done|by apply same_lane_snoc; [lia|..]|]. intros i Hi. rewrite same_lane_snoc by lia. by apply Hno.
    + cbn [t_previous t]. destruct (JsMap.get lanes key) as [p|] eqn:Eg.
      * right. destruct (lo_last _ _ L _ _ Eg) as (tp & Hp & Ek & Hno). exists p. pose proof (lookup_lt_Some _ _ _ Hp). split_and!; [done|done| |].
        -- exists tp, t. split_and!; [by apply lookup_app_l_Some|done|done].
        -- intros i Hi (ti & tk & Hti & Htk & E). rewrite Hnew in Htk. injection Htk as <-. rewrite lookup_app_l in Hti by lia.
           apply (Hno i ti); [lia|done|exact E].
      * left. split; [done|]. intros j Hj (tj & tk & Htj & Htk & E). rewrite Hnew in Htk. injection Htk as <-. rewrite lookup_app_l in Htj by lia.
        apply settled_snoc. exists tj. split; [done|]. by apply (lo_none _ _ L key j tj).
  - intros key' k. rewrite JsMap.get_set. case_decide as E.
    + intros [= <-]. exists t. split_and!; [done|done|]. intros i ti Hi Hti. apply lookup_lt_Some in Hti. rewrite length_app in Hti. cbn in Hti. lia.
    + intros Hg. destruct (lo_last _ _ L _ _ Hg) as (tk & Hk & Ek & Hno). exists tk. split_and!; [by apply lookup_app_l_Some|done|].
      intros i ti Hi Hti. apply lookup_snoc_inv in Hti as [Hti|[-> ->]]; [by apply (Hno i)|]. done.
  - intros key' k tk. rewrite JsMap.get_set. case_decide as E; [done|]. intros Hg Hk Ek. apply lookup_snoc_inv in Hk as [Hk|[-> ->]]; [|done].
    by apply (lo_none _ _ L key' k tk).
Qed.

(** ** What every step keeps *)

(** The dispatches of tasks that have not ended. *)
Definition unsettled (ts : list task) : list jsstr := (fun t => c_id (t_dispatch t)) <$> filter (fun t => t_phase t <> Settled) ts.
(** With the dispatches that are begun but not queued yet. *)
Record inv (pending : list jsstr) (s : AgentCronScheduler) : Prop := {
  inv_lanes : lanes_ok (dispatchLanes s) (tasks s);
  inv_ends : begun s ≡ₚ ended s ++ unsettled (tasks s) ++ pending;
  inv_timer : forall d, timer s = Some d -> 0 <= d <= MAX_TIMEOUT_MS;
  inv_armed : armed s = true -> timer s <> None }.
Definition keeps {A} (m : act A) : Prop := forall p s, inv p s -> after m (fun _ s' => inv p s') (fun _ s' => inv p s') s.

Lemma sched_keeps_ret {A} (a : A) : keeps (mret a).
Proof. intros p s H. by apply after_ret. Qed.
Lemma sched_keeps_bind {A B} (m : act A) (f : A -> act B) : keeps m -> (forall a, keeps (f a)) -> keeps (m ≫= f).
Proof. intros Hm Hf p s H. apply after_bind. eapply after_mono; [by apply Hm| |done]. intros a s' H'. by apply Hf. Qed.
Lemma keeps_update f : (forall p s, inv p s -> inv p (f s)) -> keeps (update f).
Proof. intros Hf p s H. by apply Hf. Qed.
Lemma keeps_in_store {A} (m : op A) : keeps (in_store m).
Proof. intros p s H. unfold after, in_store. destruct (m (store s)) as [[a|e] w]; by destruct H. Qed.
Lemma keeps_catching {A} (m : act A) h : keeps m -> (forall e, keeps (h e)) -> keeps (catching m h).
Proof. intros Hm Hh p s H. apply after_catching. eapply after_mono; [by apply Hm|done|]. intros e s' H'. by apply Hh. Qed.
Lemma keeps_raise {A} e : keeps (@raise AgentCronScheduler jsstr A e).
Proof. by intros p s H. Qed.
Lemma keeps_current {B} (f : AgentCronScheduler -> act B) : (forall s, keeps (f s)) -> keeps (s ← current; f s).
Proof. intros Hf p s H. apply after_bind. cbn. by apply Hf. Qed.
Lemma inv_set_timer p s t : (forall d, t = Some d -> 0 <= d <= MAX_TIMEOUT_MS) -> inv p s -> inv p (set_timer t s).
Proof. intros Ht [H1 H2 H3 H4]. split; cbn; [done|done|done|]. by intros [x ->]%bool_decide_eq_true_1. Qed.
Lemma keeps_scheduleNext d now : (forall x, d = Some x -> 0 <= x) -> keeps (scheduleNext d now).
Proof.
  intros Hd. unfold scheduleNext. apply sched_keeps_bind; [apply keeps_update; intros; by apply inv_set_timer|intros _].
  assert (Hset : forall x, 0 <= x -> keeps (update (set_timer (Some (Z.min x MAX_TIMEOUT_MS))))).
  { intros x Hx. apply keeps_update. intros p s H. apply inv_set_timer; [|done]. intros ? [= <-]. unfold MAX_TIMEOUT_MS. lia. }
  destruct d as [x|]; [intros p s H; apply after_bind, after_ret; by apply Hset; [by apply Hd|]|].
  intros p s H. apply after_bind, after_bind. eapply after_mono; [by apply keeps_in_store| |done]. intros [t|] s' H'; apply after_ret; cbn [fmap option_fmap option_map].
  - apply Hset; [lia|done].
  - by apply after_ret.
Qed.
Lemma after_in_store {A} (m : op A) (P : AgentCronScheduler -> Prop) s : (forall w, P (set_store w s)) -> after (in_store m) (fun _ => P) (fun _ => P) s.
Proof. intros HP. unfold after, in_store. by destruct (m (store s)) as [[a|e] w]. Qed.

Lemma unsettled_app ts ts' : unsettled (ts ++ ts') = unsettled ts ++ unsettled ts'.
Proof. unfold unsettled. by rewrite filter_app, fmap_app. Qed.
Lemma unsettled_cons t ts : unsettled (t :: ts) = (if bool_decide (t_phase t = Settled) then [] else [c_id (t_dispatch t)]) ++ unsettled ts.
Proof. unfold unsettled. rewrite filter_cons. destruct (decide (t_phase t <> Settled)); case_bool_decide; try done. Qed.
Lemma unsettled_insert ts k t p : ts !! k = Some t -> t_phase t <> Settled ->
  unsettled ts ≡ₚ (if bool_decide (p = Settled) then [c_id (t_dispatch t)] else []) ++ unsettled (<[k := with_phase p t]> ts).
Proof.
  intros Hk Hns. pose proof (lookup_lt_Some _ _ _ Hk) as Hlt. rewrite (insert_take_drop ts k) by done. rewrite <- (take_drop_middle ts k t Hk) at 1.
  rewrite !unsettled_app, !unsettled_cons. cbn [t_phase with_phase t_dispatch]. rewrite (bool_decide_false (t_phase t = Settled)) by done.
  case_bool_decide; cbn [app]; [|done]. by rewrite Permutation_middle.
Qed.
(** Task [k] goes on from a phase in which everything before it in its lane is settled. *)
Definition may_run (k : nat) (t : task) (s : AgentCronScheduler) : Prop :=
  tasks s !! k = Some t /\ t_phase t <> Settled /\ forall j, (j < k)%nat -> same_lane (tasks s) j k -> settled_in (tasks s) j.
Lemma settle_inv p s k t : inv p s -> may_run k t s -> after (settle k) (fun _ s' => inv p s') (fun _ s' => inv p s') s.
Proof.
  intros [H1 H2 H3 H4] (Hk & Hns & He). unfold after, settle, update. rewrite Hk. split; cbn; [by apply lanes_ok_phase| |done|done].
  rewrite H2, (unsettled_insert _ _ _ Settled Hk Hns). cbn [bool_decide]. rewrite bool_decide_true by done. solve_Permutation.
Qed.
Lemma start_task_inv p s k t now : inv p s -> may_run k t s -> after (start_task k now) (fun _ s' => inv p s') (fun _ s' => inv p s') s.
Proof.
  intros H M. unfold start_task. apply after_bind. cbn. destruct M as (Hk & Hns & He). rewrite Hk.
  assert (Hw : forall w, inv p (set_store w s) /\ may_run k t (set_store w s)) by (intros w; by destruct H).
  apply after_catching, after_bind. eapply after_mono; [apply (after_in_store _ (fun s' => inv p s' /\ may_run k t s')); exact Hw| |].
  2: { intros e s' [H' M']. by eapply settle_inv. }
  intros job s' [H' M']. destruct job as [j|].
  - destruct H' as [H1 H2 H3 H4], M' as (Hk' & _ & He'). split; cbn; [apply lanes_ok_phase; done| |done|done].
    by rewrite H2, (unsettled_insert _ _ _ Running Hk' Hns).
  - assert (Hw' : forall w, inv p (set_store w s') /\ may_run k t (set_store w s')) by (intros w; by destruct H').
    apply after_bind. eapply after_mono; [apply (after_in_store _ (fun s' => inv p s' /\ may_run k t s')); exact Hw'| |].
    all: intros a s'' [H'' M'']; cbn beta; by eapply settle_inv; [|done].
Qed.
Lemma end_task_inv p s k t r throws now : inv p s -> may_run k t s -> after (end_task k r throws now) (fun _ s' => inv p s') (fun _ s' => inv p s') s.
Proof.
  intros H M. unfold end_task. apply after_bind. cbn. pose proof M as (Hk & Hns & He). rewrite Hk.
  assert (Hw : forall w, inv p (set_store w s) /\ may_run k t (set_store w s)) by (intros w; by destruct H).
  apply after_catching, after_bind. apply (after_mono _ (fun _ s' => inv p s' /\ may_run k t s') _ (fun _ s' => inv p s' /\ may_run k t s')).
  - destruct r as [r|e]; [|destruct throws; [done|]]; apply (after_in_store _ (fun s' => inv p s' /\ may_run k t s')); exact Hw.
  - intros a s'' [H'' M'']. by eapply settle_inv.
  - intros a s'' [H'' M'']. by eapply settle_inv.
Qed.
Lemma enqueue_inv p s d : inv (c_id d :: p) s -> inv p (enqueue s d).
Proof.
  intros [H1 H2 H3 H4]. split; [by apply lanes_ok_enqueue| |done|done]. cbn [begun ended tasks enqueue set_lanes].
  rewrite H2, unsettled_app, unsettled_cons. cbn. solve_Permutation.
Qed.
Lemma enqueue_all_inv ds : forall p s, inv ((c_id <$> ds) ++ p) s -> inv p (foldl enqueue s ds).
Proof. induction ds as [|d ds IH]; intros p s H; [done|]. cbn. by apply IH, enqueue_inv. Qed.
Lemma begin_all_inv p s ds : inv p s -> inv ((c_id <$> ds) ++ p) (set_ends (begun s ++ (c_id <$> ds)) (ended s) s).
Proof. intros [H1 H2 H3 H4]. split; cbn; [done| |done|done]. rewrite H2. solve_Permutation. Qed.
Lemma end_all_inv p s ds : inv ((c_id <$> ds) ++ p) s -> inv p (set_ends (begun s) (ended s ++ (c_id <$> ds)) s).
Proof. intros [H1 H2 H3 H4]. split; cbn; [done| |done|done]. rewrite H2. solve_Permutation. Qed.
Lemma keeps_flags r st h : keeps (update (set_flags r st h)).
Proof. apply keeps_update. intros p s []. by split. Qed.
Lemma keeps_if {A} (b : bool) (m m' : act A) : keeps m -> keeps m' -> keeps (if b then m else m').
Proof. by destruct b. Qed.
Lemma claim_and_begin_inv now claimAt recoverAt fails p s : inv p s ->
  after (claim_and_begin now claimAt recoverAt fails) (fun ds s' => inv ((c_id <$> ds) ++ p) s') (fun _ s' => inv p s') s.
Proof.
  intros H. apply after_bind. eapply after_mono; [by apply keeps_in_store| |done]. intros claimed s1 H1. cbn beta in H1.
  assert (Hall : after (begin_all claimed ;; mret claimed) (fun ds s' => inv ((c_id <$> ds) ++ p) s') (fun _ s' => inv p s') s1) by by apply begin_all_inv.
  destruct fails as [[n message]|]; [|done]. destruct (Nat.ltb n (length claimed)); [|done].
  apply after_bind. cbn. apply after_bind. cbn. apply after_bind. eapply after_mono; [apply (keeps_in_store _ p)| |done].
  - by apply (end_all_inv p (set_ends _ _ s1)), begin_all_inv.
  - intros r s2 H2. exact H2.
Qed.
Lemma finish_claim_keeps nextAt : keeps (finish_claim nextAt).
Proof.
  apply sched_keeps_bind; [apply keeps_update; intros q s' []; by split|intros _]. apply keeps_current. intros s'.
  apply keeps_if; [apply sched_keeps_ret|by apply keeps_scheduleNext].
Qed.
(** What is claimed is lost when the timer cannot be set. *)
Lemma runDue_inv now claimAt recoverAt nextAt fails p s : inv p s ->
  exists lost, inv (lost ++ p) (after_state (runDue now claimAt recoverAt nextAt fails) s) /\ (rescheduled now claimAt recoverAt nextAt fails s = true -> lost = []).
Proof.
  intros H. unfold after_state, runDue, rescheduled, succeeds, after_state, mbind, se_bind, current, update, ensuring. cbn beta iota.
  destruct (running s || _); [by exists []|]. set (s1 := set_flags true (stopped s) (hasStarted s) s). cbn beta iota.
  assert (H1 : inv p s1) by by destruct H.
  pose proof (claim_and_begin_inv now claimAt recoverAt fails p s1 H1) as Hc. unfold after in Hc. destruct (claim_and_begin _ _ _ _ s1) as [[ds|e] s2]; cbn [snd fst].
  - pose proof (finish_claim_keeps nextAt _ _ Hc) as Hf. unfold after in Hf. destruct (finish_claim nextAt s2) as [[[]|e] s3]; cbn.
    + exists []. split; [by apply enqueue_all_inv|done].
    + exists (c_id <$> ds). by split.
  - pose proof (finish_claim_keeps nextAt _ _ Hc) as Hf. unfold after in Hf. destruct (finish_claim nextAt s2) as [[[]|e'] s3]; cbn; by exists [].
Qed.

Lemma keeps_after_state {A} (m : act A) p s : keeps m -> inv p s -> inv p (after_state m s).
Proof. intros Hm H. specialize (Hm p s H). unfold after in Hm. unfold after_state. by destruct (m s) as [[a|e] s']. Qed.
Lemma after_after_state {A} (m : act A) (P : AgentCronScheduler -> Prop) s : after m (fun _ => P) (fun _ => P) s -> P (after_state m s).
Proof. unfold after, after_state. by destruct (m s) as [[a|e] s']. Qed.
Lemma step_inv p s b s' : inv p s -> step s b s' -> exists lost, inv (lost ++ p) s' /\ (b = true -> lost = []).
Proof.
  intros H Hs.
  assert (Hkeep : forall {A} (m : act A) s, inv p s -> keeps m -> exists lost, inv (lost ++ p) (after_state m s) /\ (true = true -> lost = [])).
  { intros A m s0 H0 Hm. exists []. split; [by apply keeps_after_state|done]. }
  destruct Hs as [s now now'|s|s now|s now claimAt recoverAt nextAt fails|s now claimAt recoverAt nextAt fails Ha|s k t now Hk Hp Hpre|s k t r throws now Hk Hp|s k Hk|s w].
  - apply Hkeep; [done|]. unfold start. apply keeps_current. intros s0. apply sched_keeps_bind; [apply keeps_flags|intros _].
    apply sched_keeps_bind; [|intros _; by apply keeps_scheduleNext]. apply keeps_if; [apply sched_keeps_ret|]. apply sched_keeps_bind; [apply keeps_flags|intros _].
    apply sched_keeps_bind; [apply keeps_in_store|intros _; apply sched_keeps_ret].
  - apply Hkeep; [done|]. apply keeps_update. intros q s0 H0. apply inv_set_timer; [done|]. by destruct H0.
  - apply Hkeep; [done|]. unfold wake. apply keeps_current. intros s0. apply keeps_if; [apply sched_keeps_ret|]. apply keeps_scheduleNext. by intros ? [= <-].
  - by apply runDue_inv.
  - apply runDue_inv. by destruct H.
  - exists []. split; [|done]. apply (after_after_state _ (inv p)). apply (start_task_inv p s k t); [done|]. split_and!; [done|congruence|].
    apply (settled_earlier _ _ _ _ (inv_lanes _ _ H) Hk). exact Hpre.
  - exists []. split; [|done]. apply (after_after_state _ (inv p)). apply (end_task_inv p s k t); [done|]. split_and!; [done|congruence|].
    intros j Hj. apply (lo_phase _ _ (inv_lanes _ _ H) j k t); [done|done|congruence].
  - exists []. split; [|done]. destruct Hk as (t & Hk & Hp). unfold forget_lane. rewrite Hk. case_bool_decide as Hg; [|done].
    destruct H as [H1 H2 H3 H4]. split; cbn; [by eapply lanes_ok_forget|done..].
  - exists []. split; [by destruct H|done].
Qed.
Lemma reachable_inv calm s : reachable calm s -> exists lost, inv lost s /\ (calm = true -> lost = []).
Proof.
  induction 1 as [w|calm s b s' _ (lost & H & Hl) Hs].
  - exists []. split; [|done]. by split.
  - destruct (step_inv _ _ _ _ H Hs) as (lost' & H' & Hl'). exists (lost' ++ lost). split; [done|]. intros [Hc Hb]%andb_true_iff.
    by rewrite (Hl Hc), (Hl' Hb).
Qed.

(** A task can go on: its hook is running, or what it waits for is settled. *)
Definition can_go_on (s : AgentCronScheduler) (t : task) : Prop :=
  t_phase t = Running \/ t_phase t = Waiting /\ forall j, t_previous t = Some j -> settled s j.
Lemma lane_goes_on lanes s k : lanes_ok lanes (tasks s) -> forall t, tasks s !! k = Some t -> t_phase t <> Settled ->
  exists j tj, tasks s !! j = Some tj /\ lane_key tj = lane_key t /\ can_go_on s tj.
Proof.
  intros L. induction k as [k IH] using lt_wf_ind. intros t Hk Hns. destruct (t_phase t) eqn:Ep; [|by exists k, t; split_and!; [| |left]|done].
  destruct (lo_previous _ _ L k t Hk) as [[En _]|(p & Eq & Hp & (tp & t' & Htp & Ht' & E) & _)].
  - exists k, t. split_and!; [done|done|right]. split; [done|]. by rewrite En.
  - rewrite Hk in Ht'. injection Ht' as <-. destruct (decide (t_phase tp = Settled)) as [Hse|Hse].
    + exists k, t. split_and!; [done|done|right]. split; [done|]. rewrite Eq. intros ? [= <-]. by exists tp.
    + destruct (IH p Hp tp Htp Hse) as (j & tj & Hj & Ej & Hg). exists j, tj. split_and!; [done|congruence|done].
Qed.

(** In whatever way a scheduler is started, stopped, woken and fired, and whatever others do to its store: when a job of a
    session has begun, every job of that session that was claimed before it has ended, so that no two of them run at
    once and they run in the order they were claimed; and while a job of a session has not ended, some job of that session
    is running or may begin. *)
Theorem sessions_take_turns (calm : bool) (s : AgentCronScheduler) (Hs : reachable calm s) :
  (forall j k tj tk, tasks s !! j = Some tj -> tasks s !! k = Some tk -> (j < k)%nat -> lane_key tj = lane_key tk ->
     t_phase tk <> Waiting -> t_phase tj = Settled) /\
  (forall k t, tasks s !! k = Some t -> t_phase t <> Settled ->
     exists j tj, tasks s !! j = Some tj /\ lane_key tj = lane_key t /\ can_go_on s tj).
Proof.
  destruct (reachable_inv _ _ Hs) as (lost & H & _). split.
  - intros j k tj tk Hj Hk Hlt E Hp. destruct (lo_phase _ _ (inv_lanes _ _ H) j k tk Hlt Hk Hp) as (t & Ht & Hse); [by exists tj, tk|congruence].
  - intros k t. eapply lane_goes_on, (inv_lanes _ _ H).
Qed.

(** What a scheduler begins with the hook [beginDispatch] it ends at most once; and if the timer could be set after each claim,
    what is begun and not ended is what the tasks that have not ended are for. *)
Theorem dispatches_end_once (calm : bool) (s : AgentCronScheduler) (Hs : reachable calm s) :
  ended s ⊆+ begun s /\ (calm = true -> begun s ≡ₚ ended s ++ unsettled (tasks s)).
Proof.
  destruct (reachable_inv _ _ Hs) as (lost & H & Hl). split.
  - rewrite (inv_ends _ _ H). by apply submseteq_inserts_r.
  - intros Hc. rewrite (inv_ends _ _ H), (Hl Hc). by rewrite app_nil_r.
Qed.

(** The delay of the timer is one that a timer can hold, whatever the date of the next run. *)
Theorem timer_bounds (calm : bool) (s : AgentCronScheduler) (d : Z) (Hs : reachable calm s) (Ht : timer s = Some d) : 0 <= d <= MAX_TIMEOUT_MS.
Proof. destruct (reachable_inv _ _ Hs) as (lost & H & _). by apply (inv_timer _ _ H). Qed.
End scheduler.

(** ** A scheduler at work *)

Definition demo_step (m : act unit) (s : AgentCronScheduler) : AgentCronScheduler := after_state m s.
Definition demo_claim (now : Z) : act unit := runDue utc_zone demo_uuid str_leb now now now now None.
(** Two jobs of one session are claimed, and the first begins. *)
Definition demo_two : AgentCronScheduler :=
  after_state (start_task utc_zone str_leb 0 1002)
    (after_state (demo_claim 1000)
      (after_state (start str_leb 900 900) (fresh (one_file [demo_job "x" "each 1m" Interval 500; demo_job "y" "each 2m" Interval 400])))).
Lemma demo_two_reachable : reachable utc_zone demo_uuid str_leb true demo_two.
Proof.
  unfold demo_two. match goal with |- reachable _ _ _ _ (after_state _ (after_state _ ?s1)) => set (d1 := s1) end.
  assert (H1 : reachable utc_zone demo_uuid str_leb (true && true) d1) by (eapply reach_step; [apply reach_fresh|apply SStart]).
  set (d2 := after_state (demo_claim 1000) d1).
  assert (H2 : reachable utc_zone demo_uuid str_leb (true && true && true) d2).
  { eapply reach_step; [exact H1|]. assert (rescheduled utc_zone demo_uuid str_leb 1000 1000 1000 1000 None d1 = true) as <- by by vm_compute. apply SRunDue. }
  change true with (true && true && true && true). eapply reach_step; [exact H2|].
  destruct (tasks d2 !! 0%nat) as [t|] eqn:E; [|exfalso; by vm_compute in E].
  apply (STask _ _ _ d2 0 t); [done|..]; vm_compute in E; injection E as <-; [done|]. by intros j [=].
Qed.
Lemma sessions_take_turns_witness :
  reachable utc_zone demo_uuid str_leb true demo_two /\ (t_phase <$> tasks demo_two) = [Running; Waiting] /\
  forall t, tasks demo_two !! 1%nat = Some t -> exists j tj, tasks demo_two !! j = Some tj /\ lane_key tj = lane_key t /\ can_go_on demo_two tj.
Proof.
  split; [exact demo_two_reachable|]. split; [by vm_compute|]. intros t Ht.
  destruct (sessions_take_turns utc_zone demo_uuid str_leb true demo_two demo_two_reachable) as [_ H]. apply (H 1%nat t Ht).
  intros Hp. apply (f_equal (fmap t_phase)) in Ht. cbn [fmap option_fmap option_map] in Ht. rewrite Hp in Ht. by vm_compute in Ht.
Defined.
Lemma dispatches_end_once_witness :
  reachable utc_zone demo_uuid str_leb true demo_two /\ begun demo_two ≡ₚ ended demo_two ++ unsettled (tasks demo_two) /\ length (begun demo_two) = 2%nat.
Proof.
  split; [exact demo_two_reachable|]. split; [|by vm_compute].
  exact (proj2 (dispatches_end_once utc_zone demo_uuid str_leb true demo_two demo_two_reachable) eq_refl).
Defined.
Lemma timer_bounds_witness : reachable utc_zone demo_uuid str_leb true demo_two /\ timer demo_two = Some 60000 /\ 0 <= 60000 <= MAX_TIMEOUT_MS.
Proof.
  assert (timer demo_two = Some 60000) as Ht by by vm_compute.
  split; [exact demo_two_reachable|]. split; [exact Ht|]. exact (timer_bounds utc_zone demo_uuid str_leb true demo_two 60000 demo_two_reachable Ht).
Defined.

Definition unreadable : gmap jsstr content := {[js "jobs" := inr (js "Unexpected token")]}.
(** A file that cannot be read when the timer fires leaves the scheduler without a timer: it does not try again. *)
Example scheduler_falls_silent :
  let s := after_state (start str_leb 900 900) (fresh (one_file [demo_job "x" "each 1m" Interval 1000])) in
  let s' := after_state (demo_claim 1000) (disarm (set_store (set_files unreadable (store s)) s)) in
  timer s = Some 100 /\ stopped s' = false /\ timer s' = None.
Proof. by vm_compute. Qed.
(** When the result of a job cannot be recorded, its dispatch stays open, and the job is skipped from then on. *)
Example job_stays_claimed :
  let s := after_state (start_task utc_zone str_leb 0 1001)
             (after_state (demo_claim 1000) (after_state (start str_leb 900 900) (fresh (one_file [demo_job "x" "each 1m" Interval 1000])))) in
  let refused w := set_counters (notified w) (drawn w) [Refused (js "locked")] w in
  let s' := after_state (end_task utc_zone str_leb 0 (inl (Some Ran)) false 1002) (set_store (refused (store s)) s) in
  let s'' := after_state (demo_claim 61000) (disarm s') in
  (t_phase <$> tasks s') = [Settled] /\ length (tasks s'') = 1%nat /\
  (lastSkippedAt <$> default [] (jobs <$> stored (js "jobs") (store s''))) = [Some (At 61000)].
Proof. by vm_compute. Qed.
(** When the timer cannot be set after a claim, what was begun is neither run nor ended. *)
Example claimed_and_lost :
  let other := with_session (js "b") (js "y") (js "y") (js "/") (demo_job "y" "each 1m" Interval 9000) in
  let s := after_state (start str_leb 900 900) (fresh (one_file [demo_job "x" "each 1m" Interval 1000])) in
  let late w := set_counters (notified w) (drawn w) [Fine; Fine; Meanwhile (files (one_file [other])); Meanwhile unreadable] w in
  let s' := after_state (demo_claim 1000) (set_store (late (store s)) s) in
  length (begun s') = 1%nat /\ ended s' = [] /\ tasks s' = [].
Proof. by vm_compute. Qed.
