(* ===== verification/SemanticEdges.v ===== *)
(** * The edges between model requests (core/semantic-edges.ts)

    A session writes what happens to its requests into a ledger; the edges between the requests are a fold over ledgers.
    An edge is there once its target has finished: a request takes over what is pending in its session, and gives it back
    when it fails.

    [edges_committed] says which events every edge comes from, [ledgers_in_any_order] that ledgers of different sessions do not
    depend on each other, [edges_unique] that a session with one request at a time gets no edge twice. The recorder that writes
    a ledger is in [EdgeRecorder]. *)

(* Source aliases:
   SE = src/packages/coding-agent/src/core/semantic-edges.ts *)

From stdpp Require Import gmap.
From S2P Require Import Prelude JsString.

(** ** Ledgers *)

(** SE 34-34 SemanticEdgeType. *)
Inductive SemanticEdgeType := Continuation | SubagentCall | SubagentReturn | CompactionEdge.
#[export] Instance SemanticEdgeType_eq_dec : EqDecision SemanticEdgeType.
Proof. solve_decision. Defined.
(** SE 35-35 CompactionStatus. *)
Inductive CompactionStatus := CsCompleted | CsFailed | CsCancelled.
#[export] Instance CompactionStatus_eq_dec : EqDecision CompactionStatus.
Proof. solve_decision. Defined.
(** SE 37-89 SemanticEdgeLedgerEvent. *)
Inductive SemanticEdgeLedgerEvent :=
  | SessionRegistered (session_id : jsstr) (parent_session_id spawned_by_request_id : option jsstr)
  | RequestStarted (request_id session_id : jsstr) (compaction_id : option jsstr)
  | RequestFinished (request_id : jsstr)
  | RequestFailed (request_id : jsstr)
  | CompactionBegun (compaction_id session_id : jsstr)
  | CompactionFinished (compaction_id : jsstr) (status : CompactionStatus)
  | ChildReturned (session_id child_session_id request_id : jsstr).
#[export] Instance SemanticEdgeLedgerEvent_eq_dec : EqDecision SemanticEdgeLedgerEvent.
Proof. solve_decision. Defined.
(** SE 91-95 SemanticEdge. *)
Record SemanticEdge := { source_request_id : jsstr; target_request_id : jsstr; edge_type : SemanticEdgeType }.
#[export] Instance SemanticEdge_eq_dec : EqDecision SemanticEdge.
Proof. solve_decision. Defined.

(** ** The fold *)

(** An edge whose target is not known yet. *)
Abbreviation half_edge := (jsstr * SemanticEdgeType)%type.
(** SE 366-371 FoldSession. *)
Record FoldSession := { spawnedByRequestId : option jsstr; spawnClaimed : bool; lastRequestId : option jsstr; pending : list half_edge }.
(** SE 381-384 deriveSemanticEdges. A request that has started and not ended. *)
Record InFlight := { f_sessionId : jsstr; f_summary : bool; f_inbound : list half_edge }.
(** SE 385-385 deriveSemanticEdges. *)
Record OpenCompaction := { k_sessionId : jsstr; summaryRequestIds : gset jsstr }.
(** SE 380-387 deriveSemanticEdges. *)
Record FoldState := {
  sessions : gmap jsstr FoldSession; inFlight : gmap jsstr InFlight; compactions : gmap jsstr OpenCompaction;
  returnedChildren : gset jsstr; edges : list SemanticEdge }.

Definition new_session (spawned : option jsstr) : FoldSession := {| spawnedByRequestId := spawned; spawnClaimed := false; lastRequestId := None; pending := [] |}.
Definition set_pending (p : list half_edge) (s : FoldSession) : FoldSession :=
  {| spawnedByRequestId := spawnedByRequestId s; spawnClaimed := spawnClaimed s; lastRequestId := lastRequestId s; pending := p |}.
Definition set_claimed (s : FoldSession) : FoldSession :=
  {| spawnedByRequestId := spawnedByRequestId s; spawnClaimed := true; lastRequestId := lastRequestId s; pending := pending s |}.
Definition set_last (r : jsstr) (s : FoldSession) : FoldSession :=
  {| spawnedByRequestId := spawnedByRequestId s; spawnClaimed := spawnClaimed s; lastRequestId := Some r; pending := pending s |}.
Definition put_session (id : jsstr) (s : FoldSession) (st : FoldState) : FoldState :=
  {| sessions := <[id := s]> (sessions st); inFlight := inFlight st; compactions := compactions st; returnedChildren := returnedChildren st; edges := edges st |}.
Definition set_inFlight (m : gmap jsstr InFlight) (st : FoldState) : FoldState :=
  {| sessions := sessions st; inFlight := m; compactions := compactions st; returnedChildren := returnedChildren st; edges := edges st |}.
Definition set_compactions (m : gmap jsstr OpenCompaction) (st : FoldState) : FoldState :=
  {| sessions := sessions st; inFlight := inFlight st; compactions := m; returnedChildren := returnedChildren st; edges := edges st |}.
Definition add_child (c : jsstr) (st : FoldState) : FoldState :=
  {| sessions := sessions st; inFlight := inFlight st; compactions := compactions st; returnedChildren := {[c]} ∪ returnedChildren st; edges := edges st |}.
Definition set_edges (es : list SemanticEdge) (st : FoldState) : FoldState :=
  {| sessions := sessions st; inFlight := inFlight st; compactions := compactions st; returnedChildren := returnedChildren st; edges := es |}.

(** SE 389-396 deriveSemanticEdges. The session, made when it is new. *)
Definition session (st : FoldState) (id : jsstr) : FoldSession := default (new_session None) (sessions st !! id).
Definition to_edge (target : jsstr) (h : half_edge) : SemanticEdge := {| source_request_id := h.1; target_request_id := target; edge_type := h.2 |}.

(** SE 410-435 deriveSemanticEdges. What a started request takes over, and its session then. *)
Definition claim (isSummary : bool) (s : FoldSession) : list half_edge * FoldSession :=
  let '(inbound, s1) :=
    if isSummary then ([], s)
    else
      let s0 := set_pending [] s in
      match spawnClaimed s, spawnedByRequestId s with
      | false, Some spawn => (pending s ++ [(spawn, SubagentCall)], set_claimed s0)
      | _, _ => (pending s, s0)
      end in
  match lastRequestId s with
  | Some last => if bool_decide (last ∈ inbound.*1) then (inbound, s1) else (inbound ++ [(last, Continuation)], s1)
  | None => (inbound, s1)
  end.
(** SE 428-434 deriveSemanticEdges. A summary request belongs to its compaction. *)
Definition note_summary (compaction_id request_id session_id : jsstr) (st : FoldState) : FoldState :=
  match compactions st !! compaction_id with
  | Some k => if jseqb (k_sessionId k) session_id
              then set_compactions (<[compaction_id := {| k_sessionId := k_sessionId k; summaryRequestIds := {[request_id]} ∪ summaryRequestIds k |}]> (compactions st)) st
              else st
  | None => st
  end.
(** [edges.splice(edges.findIndex(p), 1)], when there is such an edge. *)
Fixpoint remove_first (p : SemanticEdge -> bool) (es : list SemanticEdge) : list SemanticEdge :=
  match es with [] => [] | e :: es => if p e then es else e :: remove_first p es end.
Definition is_generated (slice source : jsstr) (e : SemanticEdge) : bool :=
  jseqb (source_request_id e) source && jseqb (target_request_id e) slice && bool_decide (edge_type e = Continuation).
(** SE 483-504 deriveSemanticEdges. What is pending goes to the last summary request. *)
Definition flush (slice : jsstr) (p : list half_edge) (es : list SemanticEdge) : list SemanticEdge :=
  foldl (fun es source => remove_first (is_generated slice source) es) es (remove_dups p.*1) ++ (to_edge slice <$> p).
(** SE 398-521 deriveSemanticEdges. One event. *)
Definition step (st : FoldState) (e : SemanticEdgeLedgerEvent) : FoldState :=
  match e with
  | SessionRegistered id _ spawned =>
      match sessions st !! id with None => put_session id (new_session spawned) st | Some _ => st end
  | RequestStarted r id compaction_id =>
      let isSummary := bool_decide (is_Some compaction_id) in
      let '(inbound, s) := claim isSummary (session st id) in
      let st := put_session id s st in
      let st := set_inFlight (<[r := {| f_sessionId := id; f_summary := isSummary; f_inbound := inbound |}]> (inFlight st)) st in
      match compaction_id with Some c => note_summary c r id st | None => st end
  | RequestFinished r =>
      match inFlight st !! r with
      | None => st
      | Some f =>
          let st := set_inFlight (delete r (inFlight st)) st in
          let st := set_edges (edges st ++ (to_edge r <$> f_inbound f)) st in
          put_session (f_sessionId f) (set_last r (session st (f_sessionId f))) st
      end
  | RequestFailed r =>
      match inFlight st !! r with
      | None => st
      | Some f =>
          let st := set_inFlight (delete r (inFlight st)) st in
          if f_summary f then st
          else let s := session st (f_sessionId f) in put_session (f_sessionId f) (set_pending (f_inbound f ++ pending s) s) st
      end
  | CompactionBegun c id => set_compactions (<[c := {| k_sessionId := id; summaryRequestIds := ∅ |}]> (compactions st)) st
  | CompactionFinished c status =>
      let compaction := compactions st !! c in
      let st := set_compactions (delete c (compactions st)) st in
      match status, compaction with
      | CsCompleted, Some k =>
          let s := session st (k_sessionId k) in
          let st := put_session (k_sessionId k) s st in
          match lastRequestId s with
          | Some slice =>
              if bool_decide (slice ∈ summaryRequestIds k)
              then put_session (k_sessionId k) (set_pending [(slice, CompactionEdge)] s) (set_edges (flush slice (pending s) (edges st)) st)
              else st
          | None => st
          end
      | _, _ => st
      end
  | ChildReturned id child r =>
      if bool_decide (child ∈ returnedChildren st) then st
      else
        let st := add_child child st in
        let s := session st id in
        put_session id (set_pending (pending s ++ [(r, SubagentReturn)]) s) st
  end.
Definition empty_fold : FoldState := {| sessions := ∅; inFlight := ∅; compactions := ∅; returnedChildren := ∅; edges := [] |}.
(** SE 379-525 deriveSemanticEdges. *)
Definition deriveSemanticEdges (ledgers : list (list SemanticEdgeLedgerEvent)) : list SemanticEdge := edges (foldl step empty_fold (concat ledgers)).

(** ** What every edge comes from *)

(** The events that let a session have an edge from a source. *)
Definition justified (es : list SemanticEdgeLedgerEvent) (id : jsstr) (h : half_edge) : Prop :=
  match h.2 with
  | Continuation => RequestFinished h.1 ∈ es /\ exists c, RequestStarted h.1 id c ∈ es
  | SubagentCall => exists parent, SessionRegistered id parent (Some h.1) ∈ es
  | SubagentReturn => exists child, ChildReturned id child h.1 ∈ es
  | CompactionEdge => RequestFinished h.1 ∈ es /\ exists c, RequestStarted h.1 id (Some c) ∈ es /\ CompactionFinished c CsCompleted ∈ es
  end.
Definition edge_committed (es : list SemanticEdgeLedgerEvent) (e : SemanticEdge) : Prop :=
  RequestFinished (target_request_id e) ∈ es /\
  exists id c, RequestStarted (target_request_id e) id c ∈ es /\ justified es id (source_request_id e, edge_type e).
(** What the fold has, of the events folded so far. *)
Record session_traced (es : list SemanticEdgeLedgerEvent) (id : jsstr) (s : FoldSession) : Prop := {
  st_spawn sp : spawnedByRequestId s = Some sp -> exists parent, SessionRegistered id parent (Some sp) ∈ es;
  st_last r : lastRequestId s = Some r -> RequestFinished r ∈ es /\ exists c, RequestStarted r id c ∈ es;
  st_pending : Forall (justified es id) (pending s) }.
Record traced (es : list SemanticEdgeLedgerEvent) (st : FoldState) : Prop := {
  tr_sessions id s : sessions st !! id = Some s -> session_traced es id s;
  tr_inFlight r f : inFlight st !! r = Some f -> (exists c, RequestStarted r (f_sessionId f) c ∈ es) /\ Forall (justified es (f_sessionId f)) (f_inbound f);
  tr_compactions c k r : compactions st !! c = Some k -> r ∈ summaryRequestIds k -> RequestStarted r (k_sessionId k) (Some c) ∈ es;
  tr_edges : Forall (edge_committed es) (edges st) }.

Lemma justified_mono es es' id h : es ⊆ es' -> justified es id h -> justified es' id h.
Proof. intros H. unfold justified. destruct h.2; [intros (?&c&?)|intros (?&?)|intros (?&?)|intros (?&c&?&?)]; eauto 10. Qed.
Lemma edge_committed_mono es es' e : es ⊆ es' -> edge_committed es e -> edge_committed es' e.
Proof. intros H (? & id & c & ? & ?). split; [auto|]. exists id, c. split; [auto|by eapply justified_mono]. Qed.
Lemma session_traced_mono es es' id s : es ⊆ es' -> session_traced es id s -> session_traced es' id s.
Proof.
  intros H [H1 H2 H3]. split; [intros sp Hs; destruct (H1 sp Hs); eauto|intros r Hr; destruct (H2 r Hr) as (? & ? & ?); eauto|].
  eapply Forall_impl; [done|]. intros h. by apply justified_mono.
Qed.
Lemma traced_mono es es' st : es ⊆ es' -> traced es st -> traced es' st.
Proof.
  intros H [H1 H2 H3 H4]. split.
  - intros id s Hs. eapply session_traced_mono; eauto.
  - intros r f Hf. destruct (H2 r f Hf) as [[c Hc] Hi]. split; [eauto|]. eapply Forall_impl; [done|]. intros h. by apply justified_mono.
  - eauto.
  - eapply Forall_impl; [done|]. intros e. by apply edge_committed_mono.
Qed.
Lemma session_of es st id : traced es st -> session_traced es id (session st id).
Proof.
  intros H. unfold session. destruct (sessions st !! id) as [s|] eqn:E; [by apply (tr_sessions _ _ H)|]. by split.
Qed.
Lemma traced_put es st id s : traced es st -> session_traced es id s -> traced es (put_session id s st).
Proof.
  intros [H1 H2 H3 H4] Hs. split; [|done..]. intros id' s'. cbn. rewrite lookup_insert_Some. intros [[<- <-]|[_ ?]]; eauto.
Qed.
Lemma claim_traced es id s b inbound s' : session_traced es id s -> claim b s = (inbound, s') ->
  session_traced es id s' /\ Forall (justified es id) inbound.
Proof.
  intros [H1 H2 H3] Hc.
  assert (Hone : forall i t, session_traced es id t -> Forall (justified es id) i ->
    match lastRequestId s with Some last => if bool_decide (last ∈ i.*1) then (i, t) else (i ++ [(last, Continuation)], t) | None => (i, t) end = (inbound, s') ->
    session_traced es id s' /\ Forall (justified es id) inbound).
  { intros i t Ht Hi. destruct (lastRequestId s) as [r|] eqn:El; [|by intros [= <- <-]]. case_bool_decide; intros [= <- <-]; [done|]. split; [done|].
    apply Forall_app_2; [done|]. apply Forall_singleton. exact (H2 r eq_refl). }
  assert (H0 : session_traced es id (set_pending [] s)) by (by split).
  unfold claim in Hc. destruct b; [apply (Hone [] s); [by split|done|exact Hc]|].
  destruct (spawnClaimed s); [by apply (Hone (pending s) (set_pending [] s))|].
  destruct (spawnedByRequestId s) as [sp|] eqn:Es; [|by apply (Hone (pending s) (set_pending [] s))].
  apply (Hone (pending s ++ [(sp, SubagentCall)]) (set_claimed (set_pending [] s))); [split; cbn; [by rewrite Es|done|done]| |exact Hc].
  apply Forall_app_2; [done|]. apply Forall_singleton. exact (H1 sp eq_refl).
Qed.
Lemma remove_first_sub p es : remove_first p es `sublist_of` es.
Proof. induction es as [|e es IH]; [done|]. cbn. destruct (p e); [by apply sublist_cons|by apply sublist_skip]. Qed.
Lemma remove_all_sub slice ps es : foldl (fun es source => remove_first (is_generated slice source) es) es ps `sublist_of` es.
Proof. revert es. induction ps as [|p ps IH]; intros es; [done|]. cbn. etrans; [apply IH|apply remove_first_sub]. Qed.
Lemma Forall_sub {A} (P : A -> Prop) l k : l `sublist_of` k -> Forall P k -> Forall P l.
Proof. rewrite !list.Forall_forall. intros Hs Hk x Hx. apply Hk. by eapply elem_of_sublist. Qed.
Lemma flush_committed es id slice p l : Forall (edge_committed es) l -> RequestFinished slice ∈ es -> (exists c, RequestStarted slice id c ∈ es) ->
  Forall (justified es id) p -> Forall (edge_committed es) (flush slice p l).
Proof.
  intros Hl Hf [c Hc] Hp. apply Forall_app_2; [by eapply Forall_sub; [apply remove_all_sub|]|]. apply Forall_fmap. eapply Forall_impl; [exact Hp|].
  intros [src t] Hj. split; [done|]. by exists id, c.
Qed.
Lemma step_traced es st e : traced es st -> traced (es ++ [e]) (step st e).
Proof.
  intros H0. assert (Hsub : es ⊆ es ++ [e]) by set_solver. assert (He : e ∈ es ++ [e]) by set_solver.
  pose proof (traced_mono _ _ _ Hsub H0) as H. clear H0 Hsub. set (es' := es ++ [e]) in *. clearbody es'. clear es. rename es' into es.
  pose proof (session_of es st) as Hsn. specialize (fun id => Hsn id H). destruct e as [id parent sp|r id c|r|r|c id|c status|id child r]; cbn [step].
  - destruct (sessions st !! id); [done|]. apply traced_put; [done|]. split; cbn; [|done|done]. intros ? ->. eauto.
  - destruct (claim _ _) as [inbound s'] eqn:Ec. destruct (claim_traced es id _ _ _ _ (Hsn id) Ec) as [Hs Hi].
    assert (Ht : traced es (set_inFlight (<[r := {| f_sessionId := id; f_summary := bool_decide (is_Some c); f_inbound := inbound |}]> (inFlight (put_session id s' st))) (put_session id s' st))).
    { destruct (traced_put _ _ _ _ H Hs) as [H1 H2 H3 H4]. split; [done| |done|done]. intros r' f. cbn. rewrite lookup_insert_Some.
      intros [[<- <-]|[_ Hf]]; [cbn; eauto|by apply H2]. }
    destruct c as [c|]; [|done]. unfold note_summary. cbn [compactions set_inFlight put_session]. destruct (compactions st !! c) as [k|] eqn:Ek; [|done].
    destruct (jseqb _ _) eqn:Ej; [|done]. apply bool_decide_eq_true in Ej. destruct Ht as [H1 H2 H3 H4]. split; [done|done| |done]. intros c' k' r'. cbn. rewrite lookup_insert_Some.
    intros [[<- <-]|[_ Hk]]; cbn; [|by eapply (tr_compactions _ _ H)]. rewrite Ej. intros [->%elem_of_singleton|Hr]%elem_of_union; [done|].
    rewrite <- Ej. by eapply (tr_compactions _ _ H).
  - destruct (inFlight st !! r) as [f|] eqn:Ef; [|done]. destruct (tr_inFlight _ _ H r f Ef) as [[c Hc] Hi].
    apply traced_put; [|split; cbn; [apply Hsn|intros ? [= <-]; eauto|apply Hsn]]. destruct H as [H1 H2 H3 H4]. split; [done| |done|].
    + intros r' f'. cbn. rewrite lookup_delete_Some. intros [_ ?]. eauto.
    + cbn. apply Forall_app_2; [done|]. apply Forall_fmap. eapply Forall_impl; [exact Hi|]. intros [src t] Hj. split; [done|]. by exists (f_sessionId f), c.
  - destruct (inFlight st !! r) as [f|] eqn:Ef; [|done]. destruct (tr_inFlight _ _ H r f Ef) as [_ Hi].
    assert (Hd : traced es (set_inFlight (delete r (inFlight st)) st)).
    { destruct H as [H1 H2 H3 H4]. split; [done| |done|done]. intros r' f'. cbn. rewrite lookup_delete_Some. intros [_ ?]. eauto. }
    destruct (f_summary f); [done|]. apply traced_put; [done|]. destruct (Hsn (f_sessionId f)). split; cbn; [done|done|]. by apply Forall_app_2.
  - destruct H as [H1 H2 H3 H4]. split; [done|done| |done]. intros c' k r. cbn. rewrite lookup_insert_Some. intros [[<- <-]|[_ ?]]; [set_solver|eauto].
  - assert (Hd : traced es (set_compactions (delete c (compactions st)) st)).
    { destruct H as [H1 H2 H3 H4]. split; [done|done| |done]. intros c' k r. cbn. rewrite lookup_delete_Some. intros [_ ?]. eauto. }
    destruct status; [|done..]. destruct (compactions st !! c) as [k|] eqn:Ek; [|done].
    change (session (set_compactions _ st) (k_sessionId k)) with (session st (k_sessionId k)). pose proof (Hsn (k_sessionId k)) as Hs.
    destruct (lastRequestId (session st (k_sessionId k))) as [slice|] eqn:El; [|by apply traced_put]. destruct Hs as [Hs1 Hs2 Hs3].
    destruct (Hs2 _ El) as [Hf Hst]. case_bool_decide as Hin; [|by apply traced_put; [|split]].
    apply traced_put; [|split; cbn; [done|by rewrite El in *|]].
    + destruct Hd as [H1 H2 H3 H4]. split; [intros id s; cbn; rewrite lookup_insert_Some; intros [[<- <-]|[_ ?]]; [by split|eauto]|done|done|]. by eapply flush_committed.
    + apply Forall_singleton. split; [done|]. exists c. split; [by eapply (tr_compactions _ _ H)|done].
  - case_bool_decide; [done|]. apply traced_put; [by destruct H|]. destruct (Hsn id). split; cbn; [done|done|]. apply Forall_app_2; [done|].
    apply Forall_singleton. by exists child.
Qed.
Lemma fold_traced es : traced es (foldl step empty_fold es).
Proof.
  induction es as [|e es IH] using rev_ind; [by split|]. rewrite foldl_app. by apply step_traced.
Qed.

(** Whatever ledgers are folded, in whatever order: the target of every edge has started and has finished; a continuation
    comes from a request of the same session that has finished, a subagent call from the request that spawned the session, a
    subagent return from a child that returned to it, and a compaction edge from a summary request that has finished, of
    a compaction that was completed. As this holds of every beginning of a ledger, an edge is there only once its target has
    finished. *)
Theorem edges_committed (ledgers : list (list SemanticEdgeLedgerEvent)) : Forall (edge_committed (concat ledgers)) (deriveSemanticEdges ledgers).
Proof. apply (tr_edges _ _ (fold_traced (concat ledgers))). Qed.

(** ** Ledgers of different sessions *)

(** To which ledger a session, a request, a compaction and a child belong. *)
Record owners := { own_session : jsstr -> nat; own_request : jsstr -> nat; own_compaction : jsstr -> nat; own_child : jsstr -> nat }.

Section owned.
Context (o : owners).

(** An event of ledger [i] names only what belongs to it. *)
Definition event_of (i : nat) (e : SemanticEdgeLedgerEvent) : Prop :=
  match e with
  | SessionRegistered id _ _ => own_session o id = i
  | RequestStarted r id c => own_request o r = i /\ own_session o id = i /\ (forall c', c = Some c' -> own_compaction o c' = i)
  | RequestFinished r | RequestFailed r => own_request o r = i
  | CompactionBegun c id => own_compaction o c = i /\ own_session o id = i
  | CompactionFinished c _ => own_compaction o c = i
  | ChildReturned id child _ => own_session o id = i /\ own_child o child = i
  end.
(** What of a state belongs to ledger [i]. *)
Definition restrict (i : nat) (st : FoldState) : FoldState :=
  {| sessions := filter (fun p => own_session o p.1 = i) (sessions st); inFlight := filter (fun p => own_request o p.1 = i) (inFlight st);
     compactions := filter (fun p => own_compaction o p.1 = i) (compactions st); returnedChildren := filter (fun c => own_child o c = i) (returnedChildren st);
     edges := filter (fun e => own_request o (target_request_id e) = i) (edges st) |}.
(** Requests and compactions belong where their sessions do. *)
Record owned (is_ : list nat) (st : FoldState) : Prop := {
  ow_last id s r : sessions st !! id = Some s -> lastRequestId s = Some r -> own_request o r = own_session o id;
  ow_inFlight r f : inFlight st !! r = Some f -> own_session o (f_sessionId f) = own_request o r;
  ow_compactions c k : compactions st !! c = Some k -> own_session o (k_sessionId k) = own_compaction o c;
  ow_edges : Forall (fun e => own_request o (target_request_id e) ∈ is_) (edges st) }.

Lemma restrict_put_in i id s st : own_session o id = i -> restrict i (put_session id s st) = put_session id s (restrict i st).
Proof. intros H. unfold restrict, put_session. cbn. f_equal. by apply map_filter_insert_True. Qed.
Lemma restrict_put_out i id s st : own_session o id <> i -> restrict i (put_session id s st) = restrict i st.
Proof. intros H. unfold restrict, put_session. cbn. f_equal. by apply map_filter_insert_not. Qed.
Lemma restrict_inFlight i m st : restrict i (set_inFlight m st) = set_inFlight (filter (fun p => own_request o p.1 = i) m) (restrict i st).
Proof. done. Qed.
Lemma restrict_compactions i m st : restrict i (set_compactions m st) = set_compactions (filter (fun p => own_compaction o p.1 = i) m) (restrict i st).
Proof. done. Qed.
Lemma restrict_edges i es st : restrict i (set_edges es st) = set_edges (filter (fun e => own_request o (target_request_id e) = i) es) (restrict i st).
Proof. done. Qed.
Lemma restrict_child_in i c st : own_child o c = i -> restrict i (add_child c st) = add_child c (restrict i st).
Proof. intros H. unfold restrict, add_child. cbn. f_equal. apply set_eq. intros x. rewrite !elem_of_filter, !elem_of_union, elem_of_filter, elem_of_singleton. naive_solver. Qed.
Lemma restrict_child_out i c st : own_child o c <> i -> restrict i (add_child c st) = restrict i st.
Proof. intros H. unfold restrict, add_child. cbn. f_equal. apply set_eq. intros x. rewrite !elem_of_filter, elem_of_union, elem_of_singleton. naive_solver. Qed.
Lemma lookup_in {A} (m : gmap jsstr A) (f : jsstr -> nat) k i : f k = i -> filter (fun p => f p.1 = i) m !! k = m !! k.
Proof.
  intros H. destruct (m !! k) as [x|] eqn:E; [by apply map_lookup_filter_Some|]. apply map_lookup_filter_None. by left.
Qed.
Lemma session_in i id st : own_session o id = i -> session (restrict i st) id = session st id.
Proof. intros H. unfold session. cbn. by rewrite lookup_in. Qed.
Lemma targets_in (r : jsstr) i (hs : list half_edge) : own_request o r = i ->
  filter (fun e => own_request o (target_request_id e) = i) (to_edge r <$> hs) = to_edge r <$> hs.
Proof. intros H. induction hs as [|h hs IH]; [done|]. rewrite fmap_cons, filter_cons_True by done. by rewrite IH. Qed.
Lemma targets_out (r : jsstr) i (hs : list half_edge) : own_request o r <> i ->
  filter (fun e => own_request o (target_request_id e) = i) (to_edge r <$> hs) = [].
Proof. intros H. induction hs as [|h hs IH]; [done|]. by rewrite fmap_cons, filter_cons_False. Qed.
Lemma remove_first_in slice src i es : own_request o slice = i ->
  filter (fun e => own_request o (target_request_id e) = i) (remove_first (is_generated slice src) es) =
  remove_first (is_generated slice src) (filter (fun e => own_request o (target_request_id e) = i) es).
Proof.
  intros H. induction es as [|e es IH]; [done|]. cbn [remove_first]. destruct (is_generated slice src e) eqn:E.
  - rewrite filter_cons_True; [cbn [remove_first]; by rewrite E|]. unfold is_generated in E. apply andb_true_iff in E as [E _]. apply andb_true_iff in E as [_ E].
    apply bool_decide_eq_true in E. by rewrite E.
  - rewrite !filter_cons. destruct (decide _); cbn [remove_first]; [by rewrite E, IH|done].
Qed.
Lemma remove_first_out slice src i es : own_request o slice <> i ->
  filter (fun e => own_request o (target_request_id e) = i) (remove_first (is_generated slice src) es) =
  filter (fun e => own_request o (target_request_id e) = i) es.
Proof.
  intros H. induction es as [|e es IH]; [done|]. cbn [remove_first]. destruct (is_generated slice src e) eqn:E.
  - rewrite filter_cons_False; [done|]. unfold is_generated in E. apply andb_true_iff in E as [E _]. apply andb_true_iff in E as [_ E].
    apply bool_decide_eq_true in E. by rewrite E.
  - rewrite !filter_cons. by rewrite IH.
Qed.
Lemma flush_in slice p i es : own_request o slice = i ->
  filter (fun e => own_request o (target_request_id e) = i) (flush slice p es) = flush slice p (filter (fun e => own_request o (target_request_id e) = i) es).
Proof.
  intros H. unfold flush. rewrite filter_app, targets_in by done. f_equal. generalize (remove_dups p.*1). intros srcs. revert es.
  induction srcs as [|src srcs IH]; intros es; [done|]. cbn. by rewrite IH, remove_first_in.
Qed.
Lemma flush_out slice p i es : own_request o slice <> i ->
  filter (fun e => own_request o (target_request_id e) = i) (flush slice p es) = filter (fun e => own_request o (target_request_id e) = i) es.
Proof.
  intros H. unfold flush. rewrite filter_app, targets_out, app_nil_r by done. generalize (remove_dups p.*1). intros srcs. revert es.
  induction srcs as [|src srcs IH]; intros es; [done|]. cbn. by rewrite IH, remove_first_out.
Qed.
Lemma filter_insert_in {A} (m : gmap jsstr A) (f : jsstr -> nat) k x i : f k = i -> filter (fun p => f p.1 = i) (<[k := x]> m) = <[k := x]> (filter (fun p => f p.1 = i) m).
Proof. intros H. by apply map_filter_insert_True. Qed.
Lemma filter_insert_out {A} (m : gmap jsstr A) (f : jsstr -> nat) k x i : f k <> i -> filter (fun p => f p.1 = i) (<[k := x]> m) = filter (fun p => f p.1 = i) m.
Proof. intros H. by apply map_filter_insert_not. Qed.
Lemma filter_delete_in {A} (m : gmap jsstr A) (f : jsstr -> nat) k i : filter (fun p => f p.1 = i) (delete k m) = delete k (filter (fun p => f p.1 = i) m).
Proof. apply map_filter_delete. Qed.
Lemma filter_delete_out {A} (m : gmap jsstr A) (f : jsstr -> nat) k i : f k <> i -> filter (fun p => f p.1 = i) (delete k m) = filter (fun p => f p.1 = i) m.
Proof. intros H. rewrite map_filter_delete. apply delete_id. apply map_lookup_filter_None. right. intros x _. done. Qed.
Lemma claim_last b s : lastRequestId (claim b s).2 = lastRequestId s.
Proof. unfold claim. destruct b, (spawnClaimed s), (spawnedByRequestId s), (lastRequestId s) eqn:E; cbn; try case_bool_decide; cbn; congruence. Qed.
Lemma owned_put is_ id s st : owned is_ st -> (forall r, lastRequestId s = Some r -> own_request o r = own_session o id) -> owned is_ (put_session id s st).
Proof. intros [H1 H2 H3 H4] Hs. split; [|done..]. intros id' s' r. cbn. rewrite lookup_insert_Some. intros [[<- <-]|[_ ?]]; eauto. Qed.
Lemma owned_last is_ st id r : owned is_ st -> lastRequestId (session st id) = Some r -> own_request o r = own_session o id.
Proof. intros H. unfold session. destruct (sessions st !! id) eqn:E; [by apply (ow_last _ _ H)|done]. Qed.
Lemma owned_delete_inFlight is_ st r : owned is_ st -> owned is_ (set_inFlight (delete r (inFlight st)) st).
Proof. intros [H1 H2 H3 H4]. split; [done| |done|done]. intros r' f. cbn. rewrite lookup_delete_Some. intros [_ ?]. eauto. Qed.
Lemma owned_delete_compaction is_ st c : owned is_ st -> owned is_ (set_compactions (delete c (compactions st)) st).
Proof. intros [H1 H2 H3 H4]. split; [done|done| |done]. intros c' k. cbn. rewrite lookup_delete_Some. intros [_ ?]. eauto. Qed.

Lemma step_owned is_ i st e : owned is_ st -> event_of i e -> i ∈ is_ -> owned is_ (step st e).
Proof.
  intros H He Hi. destruct e as [id parent sp|r id c|r|r|c id|c status|id child r]; cbn [step event_of] in *.
  - destruct (sessions st !! id); [done|]. by apply owned_put.
  - destruct He as (Hr & Hid & Hc). pose proof (claim_last (bool_decide (is_Some c)) (session st id)) as Hl. destruct (claim _ _) as [inbound s']. cbn in Hl.
    assert (Ht : owned is_ (set_inFlight (<[r := {| f_sessionId := id; f_summary := bool_decide (is_Some c); f_inbound := inbound |}]> (inFlight (put_session id s' st))) (put_session id s' st))).
    { assert (Hp : owned is_ (put_session id s' st)) by (apply owned_put; [done|]; intros x; rewrite Hl; by eapply owned_last).
      destruct Hp as [H1 H2 H3 H4]. split; [done| |done|done]. intros r' f. cbn. rewrite lookup_insert_Some. intros [[<- <-]|[_ ?]]; [cbn; congruence|by apply H2]. }
    destruct c as [c|]; [|done]. unfold note_summary. cbn [compactions set_inFlight put_session]. destruct (compactions st !! c) as [k|] eqn:Ek; [|done].
    destruct (jseqb _ _); [|done]. destruct Ht as [H1 H2 H3 H4]. split; [done|done| |done]. intros c' k'. cbn. rewrite lookup_insert_Some.
    intros [[<- <-]|[_ ?]]; [exact (ow_compactions _ _ H c k Ek)|by apply H3].
  - destruct (inFlight st !! r) as [f|] eqn:Ef; [|done]. pose proof (ow_inFlight _ _ H r f Ef) as Hf. apply owned_put; [|cbn; intros ? [= <-]; done].
    destruct (owned_delete_inFlight is_ st r H) as [H1 H2 H3 H4]. split; [done|done|done|]. cbn. apply Forall_app_2; [done|]. apply Forall_fmap, Forall_true. intros h. cbn. by subst.
  - destruct (inFlight st !! r) as [f|] eqn:Ef; [|done]. pose proof (owned_delete_inFlight is_ st r H) as Hd. destruct (f_summary f); [done|].
    apply owned_put; [done|]. cbn. intros x. by apply (owned_last is_).
  - destruct He as [Hc Hid]. destruct H as [H1 H2 H3 H4]. split; [done|done| |done]. intros c' k. cbn. rewrite lookup_insert_Some. intros [[<- <-]|[_ ?]]; [cbn; congruence|eauto].
  - pose proof (owned_delete_compaction is_ st c H) as Hd. destruct status; [|done..]. destruct (compactions st !! c) as [k|] eqn:Ek; [|done].
    change (session (set_compactions _ st) (k_sessionId k)) with (session st (k_sessionId k)). pose proof (ow_compactions _ _ H c k Ek) as Hk.
    destruct (lastRequestId (session st (k_sessionId k))) as [slice|] eqn:El; [|apply owned_put; [done|]; rewrite El; by intros ? [=]].
    pose proof (owned_last _ _ _ _ H El) as Hs. case_bool_decide; [|apply owned_put; [done|]; rewrite El; by intros ? [= <-]].
    apply owned_put; [|cbn; rewrite El; by intros ? [= <-]].
    assert (Hp : owned is_ (put_session (k_sessionId k) (session st (k_sessionId k)) (set_compactions (delete c (compactions st)) st))).
    { apply owned_put; [done|]. rewrite El. by intros ? [= <-]. }
    destruct Hp as [H1 H2 H3 H4]. split; [done|done|done|]. cbn. apply Forall_app_2; [by eapply Forall_sub; [apply remove_all_sub|]|].
    apply Forall_fmap, Forall_true. intros h. cbn. by rewrite Hs, Hk, He.
  - destruct He as [Hid Hch]. case_bool_decide; [done|]. apply owned_put; [by destruct H|]. intros x. exact (owned_last is_ st id x H).
Qed.
Lemma restrict_delete_compaction i c st : own_compaction o c = i ->
  restrict i (set_compactions (delete c (compactions st)) st) = set_compactions (delete c (compactions (restrict i st))) (restrict i st).
Proof. intros H. rewrite restrict_compactions. f_equal. apply (filter_delete_in (compactions st)). Qed.
Lemma restrict_delete_inFlight i r st : restrict i (set_inFlight (delete r (inFlight st)) st) = set_inFlight (delete r (inFlight (restrict i st))) (restrict i st).
Proof. rewrite restrict_inFlight. f_equal. apply (filter_delete_in (inFlight st)). Qed.
Lemma step_in is_ i st e : owned is_ st -> event_of i e -> restrict i (step st e) = step (restrict i st) e.
Proof.
  intros H He. destruct e as [id parent sp|r id c|r|r|c id|c status|id child r]; cbn [step event_of] in *.
  - cbn [sessions restrict]. rewrite lookup_in by done. destruct (sessions st !! id); [done|by apply restrict_put_in].
  - destruct He as (Hr & Hid & Hc). rewrite session_in by done. destruct (claim _ _) as [inbound s'].
    set (f := {| f_sessionId := id; f_summary := bool_decide (is_Some c); f_inbound := inbound |}).
    assert (Ht : restrict i (set_inFlight (<[r := f]> (inFlight (put_session id s' st))) (put_session id s' st)) =
      set_inFlight (<[r := f]> (inFlight (put_session id s' (restrict i st)))) (put_session id s' (restrict i st))).
    { rewrite restrict_inFlight, restrict_put_in by done. f_equal. by apply (filter_insert_in (inFlight st)). }
    destruct c as [c|]; [|exact Ht]. unfold note_summary. rewrite <- Ht. cbn [compactions restrict set_inFlight put_session].
    rewrite lookup_in by by apply Hc. destruct (compactions st !! c) as [k|]; [|done]. destruct (jseqb _ _); [|done].
    rewrite restrict_compactions. f_equal. apply (filter_insert_in (compactions st)). by apply Hc.
  - cbn [inFlight restrict]. rewrite lookup_in by done. destruct (inFlight st !! r) as [f|] eqn:Ef; [|done].
    pose proof (ow_inFlight _ _ H r f Ef) as Hf. rewrite He in Hf.
    set (t := set_inFlight (delete r (inFlight st)) st). assert (Ht : restrict i t = set_inFlight (delete r (filter (fun p => own_request o p.1 = i) (inFlight st))) (restrict i st)) by apply restrict_delete_inFlight.
    rewrite restrict_put_in, restrict_edges, filter_app, targets_in, Ht by done. f_equal. f_equal.
    change (session (set_edges ?a ?b) (f_sessionId f)) with (session st (f_sessionId f)) at 1. change (session (set_edges ?a (set_inFlight ?b ?c)) (f_sessionId f)) with (session c (f_sessionId f)).
    by rewrite session_in.
  - cbn [inFlight restrict]. rewrite lookup_in by done. destruct (inFlight st !! r) as [f|] eqn:Ef; [|done].
    pose proof (ow_inFlight _ _ H r f Ef) as Hf. rewrite He in Hf.
    pose proof (restrict_delete_inFlight i r st) as Ht. cbn [inFlight restrict] in Ht. rewrite <- Ht. destruct (f_summary f); [done|].
    rewrite restrict_put_in by done. rewrite Ht. change (session (set_inFlight ?b ?c) (f_sessionId f)) with (session c (f_sessionId f)). by rewrite session_in.
  - destruct He as [Hc Hid]. rewrite restrict_compactions. f_equal. by apply (filter_insert_in (compactions st)).
  - rewrite <- (restrict_delete_compaction i c st He). cbn [compactions restrict]. rewrite lookup_in by done.
    destruct status; [|done..]. destruct (compactions st !! c) as [k|] eqn:Ek; [|done]. pose proof (ow_compactions _ _ H c k Ek) as Hk. rewrite He in Hk.
    rewrite (restrict_delete_compaction i c st He). change (session (set_compactions ?b ?c) (k_sessionId k)) with (session c (k_sessionId k)).
    rewrite session_in by done. pose proof (owned_last is_ st (k_sessionId k)) as Hl. destruct (lastRequestId (session st (k_sessionId k))) as [slice|].
    + specialize (Hl slice H eq_refl). rewrite Hk in Hl. case_bool_decide.
      * rewrite restrict_put_in, restrict_edges, restrict_put_in, restrict_delete_compaction by done. cbn [edges set_compactions]. by rewrite flush_in.
      * by rewrite restrict_put_in, restrict_delete_compaction.
    + by rewrite restrict_put_in, restrict_delete_compaction.
  - destruct He as [Hid Hch]. cbn [returnedChildren restrict]. rewrite (bool_decide_ext (child ∈ filter _ _) (child ∈ returnedChildren st)).
    2: { rewrite elem_of_filter. naive_solver. }
    case_bool_decide; [done|]. rewrite restrict_put_in, restrict_child_in by done. f_equal.
    change (session (add_child ?b ?c) id) with (session c id). by rewrite session_in.
Qed.
Lemma restrict_out i st st' : sessions (restrict i st') = sessions (restrict i st) -> inFlight (restrict i st') = inFlight (restrict i st) ->
  compactions (restrict i st') = compactions (restrict i st) -> returnedChildren (restrict i st') = returnedChildren (restrict i st) ->
  edges (restrict i st') = edges (restrict i st) -> restrict i st' = restrict i st.
Proof. destruct (restrict i st), (restrict i st'). cbn. by intros -> -> -> -> ->. Qed.
Lemma step_out is_ i j st e : owned is_ st -> event_of i e -> i <> j -> restrict j (step st e) = restrict j st.
Proof.
  intros H He Hij. assert (Hne : forall (f : jsstr -> nat) x, f x = i -> f x <> j) by congruence.
  assert (Hdel : forall c, own_compaction o c = i -> restrict j (set_compactions (delete c (compactions st)) st) = restrict j st).
  { intros c Hc. apply restrict_out; try done. apply (filter_delete_out (compactions st)). by apply Hne. }
  assert (Hdr : forall r, own_request o r = i -> restrict j (set_inFlight (delete r (inFlight st)) st) = restrict j st).
  { intros r Hr. apply restrict_out; try done. apply (filter_delete_out (inFlight st)). by apply Hne. }
  destruct e as [id parent sp|r id c|r|r|c id|c status|id child r]; cbn [step event_of] in *.
  - destruct (sessions st !! id); [done|]. apply restrict_put_out. by apply Hne.
  - destruct He as (Hr & Hid & Hc). destruct (claim _ _) as [inbound s']. set (f := {| f_sessionId := id; f_summary := bool_decide (is_Some c); f_inbound := inbound |}).
    assert (Ht : restrict j (set_inFlight (<[r := f]> (inFlight (put_session id s' st))) (put_session id s' st)) = restrict j st).
    { rewrite <- (restrict_put_out j id s' st) by by apply Hne. apply restrict_out; try done. apply (filter_insert_out (inFlight st)). by apply Hne. }
    destruct c as [c|]; [|exact Ht]. unfold note_summary. rewrite <- Ht. destruct (compactions _ !! c) as [k|]; [|done]. destruct (jseqb _ _); [|done].
    apply restrict_out; try done. apply (filter_insert_out (compactions st)). apply Hne. by apply Hc.
  - destruct (inFlight st !! r) as [f|] eqn:Ef; [|done]. pose proof (ow_inFlight _ _ H r f Ef) as Hf. rewrite He in Hf.
    rewrite restrict_put_out by by apply Hne. rewrite <- (Hdr r He). apply restrict_out; try done. cbn [edges restrict set_edges].
    rewrite filter_app, targets_out, app_nil_r by by apply Hne. done.
  - destruct (inFlight st !! r) as [f|] eqn:Ef; [|done]. pose proof (ow_inFlight _ _ H r f Ef) as Hf. rewrite He in Hf.
    rewrite <- (Hdr r He). destruct (f_summary f); [done|]. apply restrict_put_out. by apply Hne.
  - destruct He as [Hc Hid]. apply restrict_out; try done. apply (filter_insert_out (compactions st)). by apply Hne.
  - rewrite <- (Hdel c He). destruct status; [|done..]. destruct (compactions st !! c) as [k|] eqn:Ek; [|done].
    pose proof (ow_compactions _ _ H c k Ek) as Hk. rewrite He in Hk. change (session (set_compactions ?b ?c) (k_sessionId k)) with (session c (k_sessionId k)).
    pose proof (owned_last is_ st (k_sessionId k)) as Hl. destruct (lastRequestId (session st (k_sessionId k))) as [slice|].
    + specialize (Hl slice H eq_refl). rewrite Hk in Hl. case_bool_decide; [|apply restrict_put_out; by apply Hne].
      rewrite restrict_put_out by by apply Hne.
      rewrite <- (restrict_put_out j (k_sessionId k) (session st (k_sessionId k)) (set_compactions _ _)) at 1 by by apply Hne.
      apply restrict_out; try done. cbn [edges restrict set_edges put_session set_compactions]. apply flush_out. by apply Hne.
    + apply restrict_put_out. by apply Hne.
  - destruct He as [Hid Hch]. case_bool_decide; [done|]. rewrite restrict_put_out by by apply Hne. apply restrict_child_out. by apply Hne.
Qed.

(** The fold over a ledger of [i], in a state it shares with other ledgers. *)
Lemma fold_in is_ i es : Forall (event_of i) es -> i ∈ is_ -> forall st, owned is_ st ->
  owned is_ (foldl step st es) /\ restrict i (foldl step st es) = foldl step (restrict i st) es /\
  forall j, i <> j -> restrict j (foldl step st es) = restrict j st.
Proof.
  intros Hes Hi. induction Hes as [|e es He _ IH]; intros st H; [done|]. cbn. destruct (IH (step st e)) as (H1 & H2 & H3); [by eapply step_owned|].
  split_and!; [done|by rewrite H2, (step_in is_)|]. intros j Hj. rewrite H3 by done. by eapply step_out.
Qed.
Lemma restrict_empty i : restrict i empty_fold = empty_fold.
Proof. done. Qed.
Lemma fold_parts (parts : list (nat * list SemanticEdgeLedgerEvent)) : NoDup parts.*1 -> Forall (fun p => Forall (event_of p.1) p.2) parts ->
  let st := foldl step empty_fold (concat parts.*2) in
  owned parts.*1 st /\ (forall p, p ∈ parts -> edges (restrict p.1 st) = deriveSemanticEdges [p.2]).
Proof.
  intros Hnd Hall. cbv zeta. set (is_ := parts.*1). assert (Hsub : forall p, p ∈ parts -> p.1 ∈ is_) by (intros p Hp; by apply list_elem_of_fmap_2).
  assert (H : forall rest st, NoDup rest.*1 -> rest ⊆ parts -> owned is_ st -> (forall p, p ∈ rest -> restrict p.1 st = empty_fold) ->
    owned is_ (foldl step st (concat rest.*2)) /\ (forall j, j ∉ rest.*1 -> restrict j (foldl step st (concat rest.*2)) = restrict j st) /\
    forall p, p ∈ rest -> restrict p.1 (foldl step st (concat rest.*2)) = foldl step empty_fold p.2).
  { induction rest as [|[i es] rest IH]; intros st Hr Hs Hst He; [split_and!; [done|done|intros p Hp; by apply elem_of_nil in Hp]|].
    cbn [fmap list_fmap concat fst snd] in *. apply NoDup_cons in Hr as [Hi Hr]. rewrite foldl_app.
    assert (Hev : Forall (event_of i) es). { rewrite list.Forall_forall in Hall. apply (Hall (i, es)). apply Hs. by left. }
    destruct (fold_in is_ i es Hev (Hsub (i, es) (Hs _ ltac:(by left))) st Hst) as (H1 & H2 & H3).
    destruct (IH (foldl step st es) Hr ltac:(intros x Hx; apply Hs; by right) H1) as (H4 & H5 & H6).
    { intros p Hp. rewrite H3; [by apply He; right|]. intros ->. apply Hi. by apply list_elem_of_fmap_2. }
    split_and!; [done| |].
    - intros j Hj. apply not_elem_of_cons in Hj as [Hj1 Hj2]. rewrite H5 by done. by apply H3.
    - intros p [->|Hp]%elem_of_cons; [|by apply H6]. cbn [fst snd]. rewrite H5, H2 by done. pose proof (He (i, es) ltac:(by left)) as Hi0. cbn [fst] in Hi0. by rewrite Hi0. }
  destruct (H parts empty_fold Hnd (fun _ H => H)) as (H1 & _ & H3); [by split|done|]. split; [done|]. intros p Hp.
  rewrite H3 by done. unfold deriveSemanticEdges. cbn. by rewrite app_nil_r.
Qed.
End owned.

Lemma partition_by {A} (f : A -> nat) (l : list A) is_ : NoDup is_ -> Forall (fun x => f x ∈ is_) l -> l ≡ₚ is_ ≫= fun i => filter (fun x => f x = i) l.
Proof.
  intros Hnd Hl. induction Hl as [|x l Hx _ IH].
  - clear. induction is_ as [|i is_ IH]; [done|]. cbn. done.
  - assert (Hin : forall js_, NoDup js_ -> f x ∈ js_ -> js_ ≫= (fun i => filter (fun y => f y = i) (x :: l)) ≡ₚ x :: (js_ ≫= fun i => filter (fun y => f y = i) l)).
    { assert (Hout : forall js_, f x ∉ js_ -> js_ ≫= (fun i => filter (fun y => f y = i) (x :: l)) = js_ ≫= fun i => filter (fun y => f y = i) l).
      { induction js_ as [|j js_ IHj]; [done|]. intros [Hj Hjs]%not_elem_of_cons. rewrite !bind_cons, filter_cons_False by done. by rewrite IHj. }
      induction js_ as [|j js_ IHj]; [by intros _ ?%elem_of_nil|]. intros [Hj Hjs]%NoDup_cons [Hx'|Hf]%elem_of_cons; rewrite !bind_cons.
      - rewrite filter_cons_True by done. by rewrite Hout by by rewrite Hx'.
      - rewrite filter_cons_False by (by intros Heq; apply Hj; rewrite <- Heq). rewrite IHj by done. by rewrite Permutation_middle. }
    rewrite (Hin is_ Hnd Hx). by apply perm_skip.
Qed.

(** Ledgers of different agents, which share no session, request, compaction or returned child, may be folded in any order: the
    edges are those that each ledger gives alone. *)
Theorem ledgers_in_any_order (o : owners) (parts parts' : list (nat * list SemanticEdgeLedgerEvent)) (Hnd : NoDup parts.*1)
    (Howned : Forall (fun p => Forall (event_of o p.1) p.2) parts) (Hperm : parts' ≡ₚ parts) :
  deriveSemanticEdges parts'.*2 ≡ₚ parts.*2 ≫= fun ledger => deriveSemanticEdges [ledger].
Proof.
  assert (Hnd' : NoDup parts'.*1) by by rewrite Hperm. assert (Ho' : Forall (fun p => Forall (event_of o p.1) p.2) parts') by by rewrite Hperm.
  destruct (fold_parts o parts' Hnd' Ho') as [H1 H2]. rewrite <- Hperm. unfold deriveSemanticEdges at 1.
  rewrite (partition_by (fun e => own_request o (target_request_id e)) _ _ Hnd' (ow_edges _ _ _ H1)).
  apply reflexive_eq. revert H2. generalize (foldl step empty_fold (concat parts'.*2)). clear. intros st H2.
  assert (H : forall l, (forall p, p ∈ l -> edges (restrict o p.1 st) = deriveSemanticEdges [p.2]) ->
    l.*1 ≫= (fun i => filter (fun e => own_request o (target_request_id e) = i) (edges st)) = l.*2 ≫= fun ledger => deriveSemanticEdges [ledger]).
  { induction l as [|p l IH]; intros Hl; [done|]. rewrite !fmap_cons, !bind_cons, IH by (intros q Hq; apply Hl; by right). f_equal.
    exact (Hl p ltac:(by left)). }
  by apply H.
Qed.

(** ** A session with one request at a time *)

(** What a ledger said so far: its turn and summary requests, those that finished, the requests of other sessions it names, its
    returned children, the turn request and the compaction that are going on. *)
Record discipline := { turns : list jsstr; summaries : list jsstr; finished : list jsstr; foreign : list jsstr; children : list jsstr;
  current_turn : option jsstr; open_compaction : option jsstr }.
Definition with_turns t s f (d : discipline) : discipline := {| turns := t; summaries := s; finished := f; foreign := foreign d; children := children d; current_turn := current_turn d; open_compaction := open_compaction d |}.
Definition with_open c k (d : discipline) : discipline := {| turns := turns d; summaries := summaries d; finished := finished d; foreign := foreign d; children := children d; current_turn := c; open_compaction := k |}.
Definition with_child q child (d : discipline) : discipline := {| turns := turns d; summaries := summaries d; finished := finished d; foreign := q :: foreign d; children := child :: children d; current_turn := current_turn d; open_compaction := open_compaction d |}.
(** The next event of a session with one turn or one compaction at a time: a request starts again only as the retry of a turn that has not
    finished; what is cut off by a new turn or compaction never ends. *)
Definition orderly_step (id : jsstr) (d : discipline) (e : SemanticEdgeLedgerEvent) : option discipline :=
  match e with
  | SessionRegistered s _ _ => if bool_decide (s = id) then Some d else None
  | RequestStarted r s None =>
      if bool_decide (s = id /\ r ∉ summaries d /\ r ∉ finished d /\ r ∉ foreign d)
      then Some (with_open (Some r) None (with_turns (r :: turns d) (summaries d) (finished d) d)) else None
  | RequestStarted r s (Some c) =>
      if bool_decide (s = id /\ r ∉ turns d /\ r ∉ summaries d /\ r ∉ foreign d /\ open_compaction d = Some c)
      then Some (with_turns (turns d) (r :: summaries d) (finished d) d) else None
  | RequestFinished r =>
      if bool_decide (current_turn d = Some r) then Some (with_open None (open_compaction d) (with_turns (turns d) (summaries d) (r :: finished d) d))
      else if bool_decide (r ∈ summaries d) then Some (with_turns (turns d) (summaries d) (r :: finished d) d) else None
  | RequestFailed r =>
      if bool_decide (current_turn d = Some r) then Some (with_open None (open_compaction d) d)
      else if bool_decide (r ∈ summaries d) then Some d else None
  | CompactionBegun c s => if bool_decide (s = id) then Some (with_open None (Some c) d) else None
  | CompactionFinished c _ => if bool_decide (open_compaction d = Some c) then Some (with_open None None d) else None
  | ChildReturned s child q =>
      if negb (bool_decide (s = id)) then None
      else if bool_decide (child ∈ children d) then Some d
      else if bool_decide (q ∉ turns d /\ q ∉ summaries d /\ q ∉ foreign d) then Some (with_child q child d) else None
  end.
Fixpoint orderly_from (id : jsstr) (d : discipline) (es : list SemanticEdgeLedgerEvent) : bool :=
  match es with [] => true | e :: es => match orderly_step id d e with Some d => orderly_from id d es | None => false end end.
Definition first_discipline (spawned : option jsstr) : discipline :=
  {| turns := []; summaries := []; finished := []; foreign := option_list spawned; children := []; current_turn := None; open_compaction := None |}.
Definition orderly (ledger : list SemanticEdgeLedgerEvent) : bool :=
  match ledger with SessionRegistered id _ spawned :: es => orderly_from id (first_discipline spawned) es | _ => false end.

Definition ends (e : SemanticEdge) : jsstr * jsstr := (source_request_id e, target_request_id e).
Definition known (d : discipline) (x : jsstr) : Prop := x ∈ foreign d \/ x ∈ finished d.
(** The half edges that may still be given out: pending ones, and those of the turn that is going on. *)
Definition reserve (d : discipline) (st : FoldState) (id : jsstr) : list half_edge :=
  pending (session st id) ++ match current_turn d ≫= fun r => inFlight st !! r with Some f => f_inbound f | None => [] end.
Record in_order (id : jsstr) (d : discipline) (st : FoldState) : Prop := {
  io_ends : NoDup (ends <$> edges st);
  io_targets : Forall (fun e => target_request_id e ∈ finished d) (edges st);
  io_session : is_Some (sessions st !! id);
  io_last r : lastRequestId (session st id) = Some r -> r ∈ finished d;
  io_spawn sp : spawnClaimed (session st id) = false -> spawnedByRequestId (session st id) = Some sp -> sp ∈ foreign d /\ sp ∉ (reserve d st id).*1;
  io_reserve : NoDup (reserve d st id).*1;
  io_known : Forall (known d) (reserve d st id).*1;
  io_current r : current_turn d = Some r -> open_compaction d = None /\ r ∈ turns d /\ r ∉ finished d /\ exists f, inFlight st !! r = Some f /\ f_summary f = false;
  io_inFlight r f : inFlight st !! r = Some f -> f_sessionId f = id /\ NoDup (f_inbound f).*1 /\ r ∉ finished d;
  io_summary r f : inFlight st !! r = Some f -> f_summary f = true -> r ∈ summaries d /\ Forall (fun h => h.2 = Continuation) (f_inbound f);
  io_kind r f : inFlight st !! r = Some f -> f_summary f = false -> r ∈ turns d;
  io_open c k r e : open_compaction d = Some c -> compactions st !! c = Some k -> r ∈ summaryRequestIds k ->
    e ∈ edges st -> target_request_id e = r -> edge_type e = Continuation;
  io_members c k r : open_compaction d = Some c -> compactions st !! c = Some k -> r ∈ summaryRequestIds k -> r ∈ summaries d;
  io_compaction c k : compactions st !! c = Some k -> k_sessionId k = id;
  io_apart r : r ∈ turns d -> r ∉ summaries d;
  io_foreign r : r ∈ foreign d -> r ∉ turns d /\ r ∉ summaries d;
  io_finished r : r ∈ finished d -> r ∈ turns d \/ r ∈ summaries d;
  io_children c : c ∈ returnedChildren st <-> c ∈ children d }.
Lemma session_put id s st : session (put_session id s st) id = s.
Proof. unfold session. cbn. by rewrite lookup_insert_eq. Qed.
Lemma pending_reserve id d st : (pending (session st id)).*1 `sublist_of` (reserve d st id).*1.
Proof. unfold reserve. rewrite fmap_app. apply sublist_inserts_r. done. Qed.
Lemma io_pending id d st : in_order id d st -> NoDup (pending (session st id)).*1 /\ Forall (known d) (pending (session st id)).*1.
Proof.
  intros H. split; [eapply sublist_NoDup; [apply (io_reserve _ _ _ H)|]|eapply Forall_sub; [|apply (io_known _ _ _ H)]]; apply pending_reserve.
Qed.
Lemma claim_turn id d st inbound s' : in_order id d st -> claim false (session st id) = (inbound, s') ->
  pending s' = [] /\ lastRequestId s' = lastRequestId (session st id) /\ (spawnClaimed s' = false -> spawnedByRequestId s' = None) /\
  NoDup inbound.*1 /\ Forall (known d) inbound.*1.
Proof.
  intros H. set (s := session st id). destruct (io_pending _ _ _ H) as [Hnd Hk]. fold s in Hnd, Hk.
  assert (Hone : forall i t, NoDup i.*1 -> Forall (known d) i.*1 ->
    match lastRequestId s with Some last => if bool_decide (last ∈ i.*1) then (i, t) else (i ++ [(last, Continuation)], t) | None => (i, t) end = (inbound, s') ->
    t = s' /\ NoDup inbound.*1 /\ Forall (known d) inbound.*1).
  { intros i t Hi Hki. destruct (lastRequestId s) as [r|] eqn:El; [|by intros [= <- <-]]. case_bool_decide; intros [= <- <-]; [done|]. split; [done|].
    rewrite fmap_app. cbn. split; [apply NoDup_app; split_and!; [done|intros x Hx ->%list_elem_of_singleton; done|apply NoDup_singleton]|].
    apply Forall_app_2; [done|]. apply Forall_singleton. right. by apply (io_last _ _ _ H). }
  unfold claim. fold s. destruct (spawnClaimed s) eqn:Ec.
  - intros E. destruct (Hone (pending s) (set_pending [] s) Hnd Hk E) as (<- & H1 & H2). cbn. by rewrite Ec.
  - destruct (spawnedByRequestId s) as [sp|] eqn:Es.
    + destruct (io_spawn _ _ _ H sp Ec Es) as [Hf Hsp]. assert (Hp : sp ∉ (pending s).*1).
      { intros Hx. apply Hsp. eapply elem_of_sublist; [exact Hx|apply pending_reserve]. }
      intros E. destruct (Hone (pending s ++ [(sp, SubagentCall)]) (set_claimed (set_pending [] s))) as (<- & H1 & H2); [| |exact E|done].
      * rewrite fmap_app. cbn. apply NoDup_app. split_and!; [done|intros x Hx ->%list_elem_of_singleton; done|apply NoDup_singleton].
      * rewrite fmap_app. apply Forall_app_2; [done|]. apply Forall_singleton. by left.
    + intros E. destruct (Hone (pending s) (set_pending [] s) Hnd Hk E) as (<- & H1 & H2). cbn. by rewrite Es.
Qed.
Lemma start_turn id d st r : in_order id d st -> r ∉ summaries d -> r ∉ finished d -> r ∉ foreign d ->
  in_order id (with_open (Some r) None (with_turns (r :: turns d) (summaries d) (finished d) d)) (step st (RequestStarted r id None)).
Proof.
  intros H Hs Hf Hfo. cbn [step]. rewrite bool_decide_false by by intros [? ?]. destruct (claim false (session st id)) as [inbound s'] eqn:Ec.
  destruct (claim_turn _ _ _ _ _ H Ec) as (Hp & Hl & Hsp & Hnd & Hk).
  set (f := {| f_sessionId := id; f_summary := false; f_inbound := inbound |}). set (st' := set_inFlight _ _).
  assert (Hse : session st' id = s') by apply session_put. assert (Hfl : inFlight st' = <[r := f]> (inFlight st)) by done.
  set (d' := with_open _ _ _). assert (Hre : reserve d' st' id = inbound).
  { unfold reserve. rewrite Hse, Hp, Hfl. cbn. by rewrite lookup_insert_eq. }
  destruct H. split; try done; rewrite ?Hse, ?Hre; try done.
  - cbn. rewrite lookup_insert_eq. eauto.
  - rewrite Hl. done.
  - intros sp Hc Hx. rewrite Hsp in Hx by done. done.
  - intros x [= <-]. split_and!; [done|by left|done|]. exists f. by rewrite Hfl, lookup_insert_eq.
  - intros r' f'. rewrite Hfl, lookup_insert_Some. intros [[<- <-]|[_ Hx]]; [done|]. by apply io_inFlight0.
  - intros r' f'. rewrite Hfl, lookup_insert_Some. intros [[<- <-]|[_ Hx]]; [done|]. by apply io_summary0.
  - intros r' f'. rewrite Hfl, lookup_insert_Some. intros [[<- <-]|[_ Hx]]; [by left|]. right. by eapply io_kind0.
  - cbn. intros x [->|Hx]%elem_of_cons; [done|by apply io_apart0].
  - cbn. intros x Hx. destruct (io_foreign0 x Hx) as [H1 H2]. split; [|done]. intros [->|?]%elem_of_cons; done.
  - cbn. intros x Hx. destruct (io_finished0 x Hx); [left; by right|by right].
Qed.
(** [reserve] looks at the session and at the turn that is going on. *)
Lemma reserve_eq d d' st st' id : pending (session st' id) = pending (session st id) -> current_turn d' = current_turn d ->
  (forall r, current_turn d = Some r -> inFlight st' !! r = inFlight st !! r) -> reserve d' st' id = reserve d st id.
Proof. intros Hs Hc Hf. unfold reserve. rewrite Hs, Hc. destruct (current_turn d) as [r|]; [|done]. cbn. by rewrite Hf. Qed.
Lemma reserve_idle d st id : current_turn d = None -> reserve d st id = pending (session st id).
Proof. unfold reserve. intros ->. cbn. by rewrite app_nil_r. Qed.
Lemma session_same id st s : session (put_session id s st) id = s.
Proof. apply session_put. Qed.

Lemma claim_summary s : exists inbound, claim true s = (inbound, s) /\ NoDup inbound.*1 /\ Forall (fun h => h.2 = Continuation) inbound.
Proof.
  unfold claim. destruct (lastRequestId s) as [r|]; cbn.
  - rewrite bool_decide_false by (intros Hx; by apply elem_of_nil in Hx). eexists. split; [done|]. split; [apply NoDup_singleton|by apply Forall_singleton].
  - eexists. split; [done|]. split; [constructor|done].
Qed.
Lemma start_summary id d st r c : in_order id d st -> r ∉ turns d -> r ∉ summaries d -> r ∉ foreign d -> open_compaction d = Some c ->
  in_order id (with_turns (turns d) (r :: summaries d) (finished d) d) (step st (RequestStarted r id (Some c))).
Proof.
  intros H Ht Hs Hfo Ho. cbn [step]. rewrite bool_decide_true by done. destruct (claim_summary (session st id)) as (inbound & -> & Hnd & Hco).
  set (f := {| f_sessionId := id; f_summary := true; f_inbound := inbound |}).
  set (d' := with_turns _ _ _ d). set (st1 := set_inFlight _ _).
  assert (Hrf : r ∉ finished d) by (intros [?|?]%(io_finished _ _ _ H); done).
  assert (Hcur : forall x, current_turn d = Some x -> x <> r) by (intros x Hx ->; by destruct (io_current _ _ _ H _ Hx) as (_ & ? & _)).
  assert (Hst : in_order id d' st1).
  { assert (Hse : session st1 id = session st id) by apply session_put. assert (Hfl : inFlight st1 = <[r := f]> (inFlight st)) by done.
    assert (Hre : reserve d' st1 id = reserve d st id).
    { apply reserve_eq; [by rewrite Hse|done|]. intros x Hx. rewrite Hfl, lookup_insert_ne; [done|]. intros <-. by apply (Hcur r). }
    destruct H. split; try done; rewrite ?Hse, ?Hre; try done.
    - cbn. rewrite lookup_insert_eq. eauto.
    - intros x Hx. destruct (io_current0 x Hx) as (H1 & H2 & H3 & f' & Hf' & Hs'). split_and!; [done|done|done|]. exists f'. split; [|done].
      rewrite Hfl, lookup_insert_ne; [done|]. intros <-. by apply (Hcur r).
    - intros r' f'. rewrite Hfl, lookup_insert_Some. intros [[<- <-]|[_ Hx]]; [done|]. by apply io_inFlight0.
    - intros r' f'. rewrite Hfl, lookup_insert_Some. intros [[<- <-]|[_ Hx]] Hsum; [split; [by left|done]|]. destruct (io_summary0 r' f' Hx Hsum). split; [by right|done].
    - intros r' f'. rewrite Hfl, lookup_insert_Some. intros [[<- <-]|[_ Hx]]; [done|]. by apply io_kind0.
    - intros c' k r' Hc Hk Hm. right. by eapply io_members0.
    - cbn. intros x Hx [->|Hy]%elem_of_cons; [done|by apply (io_apart0 x)].
    - cbn. intros x Hx. destruct (io_foreign0 x Hx) as [H1 H2]. split; [done|]. intros [->|?]%elem_of_cons; done.
    - cbn. intros x Hx. destruct (io_finished0 x Hx); [by left|right; by right]. }
  unfold note_summary. destruct (compactions st1 !! c) as [k|] eqn:Ek; [|done]. destruct (jseqb _ _); [|done].
  set (st2 := set_compactions _ _). assert (Hk2 : compactions st2 = <[c := {| k_sessionId := k_sessionId k; summaryRequestIds := {[r]} ∪ summaryRequestIds k |}]> (compactions st1)) by done.
  assert (Hfresh : forall e, e ∈ edges st -> target_request_id e <> r).
  { intros e He <-. pose proof (io_targets _ _ _ H) as Hall. rewrite list.Forall_forall in Hall. by apply Hrf, Hall. }
  destruct Hst. split; try done.
  - intros c' k' r' e Hc. rewrite Hk2, lookup_insert_Some. intros [[<- <-]|[_ Hx]] Hm He Et; [|by eapply io_open0].
    cbn in Hm. apply elem_of_union in Hm as [->%elem_of_singleton|Hm]; [|by eapply io_open0]. by destruct (Hfresh e He).
  - intros c' k' r' Hc. rewrite Hk2, lookup_insert_Some. intros [[<- <-]|[_ Hx]] Hm; [|by eapply io_members0].
    cbn in Hm. apply elem_of_union in Hm as [->%elem_of_singleton|Hm]; [by left|by eapply io_members0].
  - intros c' k'. rewrite Hk2, lookup_insert_Some. intros [[<- <-]|[_ Hx]]; [cbn; by eapply io_compaction0|by eapply io_compaction0].
Qed.
Lemma ends_target r hs : ends <$> (to_edge r <$> hs) = (fun x => (x, r)) <$> hs.*1.
Proof. rewrite <- !list_fmap_compose. done. Qed.
Lemma ends_app es r (hs : list half_edge) : NoDup (ends <$> es) -> NoDup hs.*1 -> (forall x, x ∈ hs.*1 -> (x, r) ∉ ends <$> es) -> NoDup (ends <$> es ++ (to_edge r <$> hs)).
Proof.
  intros H1 H2 H3. rewrite fmap_app, ends_target. apply NoDup_app. split_and!; [done| |apply NoDup_fmap_2; [by intros ?? [=]|done]].
  intros p Hp (x & -> & Hx)%list_elem_of_fmap. by apply (H3 x).
Qed.
Lemma not_target_ends es r x : Forall (fun e => target_request_id e <> r) es -> (x, r) ∉ ends <$> es.
Proof. intros H (e & [= -> ->] & He)%list_elem_of_fmap. rewrite list.Forall_forall in H. by apply (H e). Qed.
Lemma finish_in_flight id d st r f : in_order id d st -> inFlight st !! r = Some f -> (current_turn d = Some r \/ f_summary f = true) ->
  in_order id (with_open (if decide (current_turn d = Some r) then None else current_turn d) (open_compaction d) (with_turns (turns d) (summaries d) (r :: finished d) d))
    (step st (RequestFinished r)).
Proof.
  intros H Ef Hkind. cbn [step]. rewrite Ef. destruct (io_inFlight _ _ _ H r f Ef) as (Hid & Hnd & Hrf). rewrite Hid. set (st' := put_session _ _ _).
  set (d' := with_open _ _ _).
  assert (Hse : session st' id = set_last r (session st id)) by apply session_put.
  assert (Hfl : inFlight st' = delete r (inFlight st)) by done.
  assert (Hed : edges st' = edges st ++ (to_edge r <$> f_inbound f)) by done.
  assert (Hre : (reserve d' st' id).*1 `sublist_of` (reserve d st id).*1).
  { unfold reserve. rewrite Hse. cbn [pending set_last current_turn d' with_open]. case_decide as Hc.
    - cbn. rewrite app_nil_r. apply pending_reserve.
    - destruct (current_turn d) as [x|]; [|done]. cbn [mbind option_bind]. rewrite Hfl, lookup_delete_ne by congruence. done. }
  assert (Hsp0 : forall x, x ∉ (reserve d st id).*1 -> x ∉ (reserve d' st' id).*1) by (intros x Hx Hy; apply Hx; by eapply elem_of_sublist).
  destruct H. split; rewrite ?Hse, ?Hed; try done.
  - apply ends_app; [done|done|]. intros x _. apply not_target_ends. eapply Forall_impl; [exact io_targets0|]. intros e He Heq. congruence.
  - apply Forall_app_2; [eapply Forall_impl; [exact io_targets0|]; intros e He; by right|]. apply Forall_fmap, Forall_true. intros h. by left.
  - subst st'. cbn. rewrite lookup_insert_eq. eauto.
  - cbn. intros ? [= <-]. by left.
  - intros sp Hc Hs. destruct (io_spawn0 sp Hc Hs). auto.
  - eapply sublist_NoDup; [exact io_reserve0|exact Hre].
  - eapply Forall_sub; [exact Hre|]. eapply Forall_impl; [exact io_known0|]. intros x [?|?]; [by left|right; by right].
  - intros x. cbn [current_turn d' with_open]. case_decide as Hc; [done|]. intros Hx. destruct (io_current0 x Hx) as (H1 & H2 & H3 & f' & Hf' & Hs').
    split_and!; [done|done| |].
    + intros [->|?]%elem_of_cons; [|done]. done.
    + exists f'. by rewrite Hfl, lookup_delete_ne by congruence.
  - intros r' f'. rewrite Hfl, lookup_delete_Some. intros [Hn Hx]. destruct (io_inFlight0 _ _ Hx) as (? & ? & ?). split_and!; [done|done|].
    intros [->|?]%elem_of_cons; done.
  - intros r' f'. rewrite Hfl, lookup_delete_Some. intros [Hn Hx]. by apply io_summary0.
  - intros r' f'. rewrite Hfl, lookup_delete_Some. intros [Hn Hx]. by apply io_kind0.
  - intros c k r' e Hc Hk Hm [He|He]%elem_of_app Ht; [by eapply io_open0|]. apply list_elem_of_fmap in He as (h & -> & Hh). cbn in Ht. subst r'.
    destruct Hkind as [Hcur|Hsum].
    + destruct (io_current0 _ Hcur) as (Ho & _). change (open_compaction d = Some c) in Hc. congruence.
    + destruct (io_summary0 _ _ Ef Hsum) as [_ Hall]. rewrite list.Forall_forall in Hall. by apply Hall.
  - cbn. intros x [->|Hx]%elem_of_cons; [|by apply io_finished0]. destruct (f_summary f) eqn:Es; [right; by eapply io_summary0|left; by eapply io_kind0].
Qed.
Lemma finish_late id d st r : in_order id d st -> inFlight st !! r = None -> r ∈ summaries d ->
  in_order id (with_turns (turns d) (summaries d) (r :: finished d) d) st.
Proof.
  intros H Ef Hs. destruct H. split; try done.
  - eapply Forall_impl; [exact io_targets0|]. intros e He. by right.
  - intros x Hx. right. by apply io_last0.
  - eapply Forall_impl; [exact io_known0|]. intros x [?|?]; [by left|right; by right].
  - intros x Hx. destruct (io_current0 x Hx) as (H1 & H2 & H3 & H4). split_and!; [done|done| |done]. intros [->|?]%elem_of_cons; [|done].
    by apply (io_apart0 r).
  - intros r' f Hx. destruct (io_inFlight0 r' f Hx) as (H1 & H2 & H3). split_and!; [done|done|]. intros [->|?]%elem_of_cons; [congruence|done].
  - cbn. intros x [->|Hx]%elem_of_cons; [by right|by apply io_finished0].
Qed.
Lemma fail_turn id d st r : in_order id d st -> current_turn d = Some r -> in_order id (with_open None (open_compaction d) d) (step st (RequestFailed r)).
Proof.
  intros H Hc. destruct (io_current _ _ _ H r Hc) as (Ho & Ht & Hrf & f & Ef & Hs). cbn [step]. rewrite Ef, Hs. destruct (io_inFlight _ _ _ H r f Ef) as (Hid & _). rewrite Hid.
  change (session (set_inFlight ?a ?b) id) with (session b id). set (st' := put_session _ _ _).
  assert (Hse : session st' id = set_pending (f_inbound f ++ pending (session st id)) (session st id)) by apply session_put.
  assert (Hfl : inFlight st' = delete r (inFlight st)) by done.
  assert (Hre : (reserve (with_open None (open_compaction d) d) st' id).*1 ≡ₚ (reserve d st id).*1).
  { unfold reserve. rewrite Hse, Hc. cbn. rewrite Ef. rewrite app_nil_r. by rewrite (Permutation_app_comm (f_inbound f)). }
  destruct H. split; rewrite ?Hse; try done.
  - subst st'. cbn. rewrite lookup_insert_eq. eauto.
  - intros sp Hcl Hx. rewrite Hre. by apply io_spawn0.
  - by rewrite Hre.
  - by rewrite Hre.
  - intros r' f'. rewrite Hfl, lookup_delete_Some. intros [_ Hx]. by apply io_inFlight0.
  - intros r' f'. rewrite Hfl, lookup_delete_Some. intros [_ Hx]. by apply io_summary0.
  - intros r' f'. rewrite Hfl, lookup_delete_Some. intros [_ Hx]. by apply io_kind0.
Qed.
Lemma fail_summary id d st r : in_order id d st -> r ∈ summaries d -> in_order id d (step st (RequestFailed r)).
Proof.
  intros H Hs. cbn [step]. destruct (inFlight st !! r) as [f|] eqn:Ef; [|done].
  assert (Hsum : f_summary f = true). { destruct (f_summary f) eqn:E; [done|]. exfalso. by apply (io_apart _ _ _ H r (io_kind _ _ _ H r f Ef E)). }
  rewrite Hsum. set (st' := set_inFlight _ _). assert (Hfl : inFlight st' = delete r (inFlight st)) by done.
  assert (Hcur : forall x, current_turn d = Some x -> x <> r).
  { intros x Hx ->. destruct (io_current _ _ _ H _ Hx) as (_ & Ht & _). by apply (io_apart _ _ _ H r). }
  assert (Hre : reserve d st' id = reserve d st id).
  { apply reserve_eq; [done|done|]. intros x Hx. rewrite Hfl, lookup_delete_ne; [done|]. intros <-. by apply (Hcur r). }
  destruct H. split; rewrite ?Hre; try done.
  - intros x Hx. destruct (io_current0 x Hx) as (H1 & H2 & H3 & f' & Hf' & Hs'). split_and!; [done..|]. exists f'. rewrite Hfl, lookup_delete_ne; [done|]. intros <-. by apply (Hcur r).
  - intros r' f'. rewrite Hfl, lookup_delete_Some. intros [_ Hx]. by apply io_inFlight0.
  - intros r' f'. rewrite Hfl, lookup_delete_Some. intros [_ Hx]. by apply io_summary0.
  - intros r' f'. rewrite Hfl, lookup_delete_Some. intros [_ Hx]. by apply io_kind0.
Qed.
Lemma begin_compaction id d st c : in_order id d st -> in_order id (with_open None (Some c) d) (step st (CompactionBegun c id)).
Proof.
  intros H. cbn [step]. set (st' := set_compactions _ _). set (d' := with_open _ _ _).
  assert (Hk : compactions st' = <[c := {| k_sessionId := id; summaryRequestIds := ∅ |}]> (compactions st)) by done.
  assert (Hre : reserve d' st' id = pending (session st id)) by by rewrite reserve_idle.
  destruct (io_pending _ _ _ H) as [Hnd Hkn]. assert (Hsub : forall x, x ∉ (reserve d st id).*1 -> x ∉ (pending (session st id)).*1).
  { intros x Hx Hy. apply Hx. eapply elem_of_sublist; [exact Hy|apply pending_reserve]. }
  destruct H. split; rewrite ?Hre; try done.
  - intros sp Hc Hs. destruct (io_spawn0 sp Hc Hs). auto.
  - intros c' k r e [= <-]. rewrite Hk, lookup_insert_eq. intros [= <-] Hm. by apply elem_of_empty in Hm.
  - intros c' k r [= <-]. rewrite Hk, lookup_insert_eq. intros [= <-] Hm. by apply elem_of_empty in Hm.
  - intros c' k. rewrite Hk, lookup_insert_Some. intros [[<- <-]|[_ Hx]]; [done|by eapply io_compaction0].
Qed.
(** Removing the generated continuations leaves no edge from what is flushed. *)
Lemma remove_first_gone slice src es : NoDup (ends <$> es) -> (forall e, e ∈ es -> target_request_id e = slice -> edge_type e = Continuation) ->
  (src, slice) ∉ ends <$> remove_first (is_generated slice src) es.
Proof.
  intros Hnd Ht. induction es as [|e es IH]; [by intros ?%elem_of_nil|]. cbn [remove_first]. rewrite fmap_cons in Hnd. apply NoDup_cons in Hnd as [Hn Hnd].
  destruct (is_generated slice src e) eqn:E; unfold is_generated in E.
  - apply andb_true_iff in E as [E _]. apply andb_true_iff in E as [E1 E2]. apply bool_decide_eq_true in E1, E2. unfold ends in Hn at 1. by rewrite E1, E2 in Hn.
  - rewrite fmap_cons. intros [Hx|Hx]%elem_of_cons; [|apply IH; [done|intros x Hx'; apply Ht; by right|done]]. unfold ends in Hx. injection Hx as Hs Hsl.
    rewrite !andb_false_iff in E. unfold jseqb in E. rewrite !bool_decide_eq_false in E. destruct E as [[E|E]|E]; [congruence|congruence|]. apply E, Ht; [by left|congruence].
Qed.
Lemma remove_all_gone slice srcs es : NoDup (ends <$> es) -> (forall e, e ∈ es -> target_request_id e = slice -> edge_type e = Continuation) ->
  forall src, src ∈ srcs -> (src, slice) ∉ ends <$> foldl (fun es source => remove_first (is_generated slice source) es) es srcs.
Proof.
  revert es. induction srcs as [|s srcs IH]; intros es Hnd Ht src; [by intros ?%elem_of_nil|]. intros Hsrc. cbn.
  assert (Hnd' : NoDup (ends <$> remove_first (is_generated slice s) es)) by (eapply sublist_NoDup; [exact Hnd|apply fmap_sublist, remove_first_sub]).
  assert (Ht' : forall e, e ∈ remove_first (is_generated slice s) es -> target_request_id e = slice -> edge_type e = Continuation).
  { intros e He. apply Ht. eapply elem_of_sublist; [exact He|apply remove_first_sub]. }
  apply elem_of_cons in Hsrc as [->|Hsrc]; [|by apply IH]. intros Hx. apply (remove_first_gone slice s es Hnd Ht).
  eapply elem_of_sublist; [exact Hx|]. apply fmap_sublist, remove_all_sub.
Qed.
Lemma finish_compaction id d st c status : in_order id d st -> open_compaction d = Some c -> in_order id (with_open None None d) (step st (CompactionFinished c status)).
Proof.
  intros H Ho. set (d' := with_open None None d). set (st0 := set_compactions (delete c (compactions st)) st).
  assert (Hk : forall c' k, compactions st0 !! c' = Some k -> compactions st !! c' = Some k) by (intros c' k; cbn; rewrite lookup_delete_Some; by intros [_ ?]).
  destruct (io_pending _ _ _ H) as [Hnd Hkn]. assert (Hsub : forall x, x ∉ (reserve d st id).*1 -> x ∉ (pending (session st id)).*1).
  { intros x Hx Hy. apply Hx. eapply elem_of_sublist; [exact Hy|apply pending_reserve]. }
  assert (H0 : in_order id d' st0).
  { assert (Hre : reserve d' st0 id = pending (session st id)) by by rewrite reserve_idle. destruct H. split; rewrite ?Hre; try done.
    - intros sp Hc Hs. destruct (io_spawn0 sp Hc Hs). auto.
    - intros c' k Hx. apply (io_compaction0 c'). by apply Hk. }
  cbn [step]. fold st0. destruct status; [|done..]. destruct (compactions st !! c) as [k|] eqn:Ek; [|done].
  rewrite (io_compaction _ _ _ H c k Ek). set (s := session st0 id).
  assert (Hput : in_order id d' (put_session id s st0)).
  { assert (Hse : session (put_session id s st0) id = session st0 id) by apply session_put.
    assert (Hre : reserve d' (put_session id s st0) id = reserve d' st0 id) by by apply reserve_eq; rewrite ?Hse.
    destruct H0. split; rewrite ?Hse, ?Hre; try done. cbn. rewrite lookup_insert_eq. eauto. }
  destruct (lastRequestId s) as [slice|] eqn:El; [|done]. case_bool_decide as Hin; [|done].
  assert (Hfin : slice ∈ finished d) by by apply (io_last _ _ _ H).
  assert (Hcont : forall e, e ∈ edges st -> target_request_id e = slice -> edge_type e = Continuation) by (intros e; by eapply (io_open _ _ _ H)).
  set (st2 := put_session id _ _). assert (Hse : session st2 id = set_pending [(slice, CompactionEdge)] s) by apply session_put.
  assert (Hed : edges st2 = flush slice (pending s) (edges st)) by done.
  assert (Hre : reserve d' st2 id = [(slice, CompactionEdge)]) by (rewrite reserve_idle by done; by rewrite Hse).
  pose proof (io_targets _ _ _ H) as Htar. pose proof (io_ends _ _ _ H) as Hends. pose proof (io_foreign _ _ _ H) as Hfor. pose proof (io_finished _ _ _ H) as Hfd.
  destruct H0. split; rewrite ?Hse, ?Hre, ?Hed; try done.
  - apply ends_app; [eapply sublist_NoDup; [exact Hends|apply fmap_sublist, remove_all_sub]|exact Hnd|]. intros x Hx. apply remove_all_gone; [done|done|].
    by apply elem_of_remove_dups.
  - apply Forall_app_2; [by eapply Forall_sub; [apply remove_all_sub|]|]. apply Forall_fmap, Forall_true. done.
  - subst st2. cbn. rewrite lookup_insert_eq. eauto.
  - intros sp Hc Hs. destruct (io_spawn0 sp Hc Hs) as [Hf _]. split; [done|]. cbn. intros ->%list_elem_of_singleton. destruct (Hfor _ Hf). by destruct (Hfd _ Hfin).
  - apply NoDup_singleton.
  - apply Forall_singleton. by right.
Qed.
Lemma child_returned id d st child q : in_order id d st -> child ∉ children d -> q ∉ turns d -> q ∉ summaries d -> q ∉ foreign d ->
  in_order id (with_child q child d) (step st (ChildReturned id child q)).
Proof.
  intros H Hc Ht Hs Hf. cbn [step]. rewrite bool_decide_false by by rewrite (io_children _ _ _ H). change (session (add_child child st) id) with (session st id).
  set (st' := put_session _ _ _). set (d' := with_child q child d).
  assert (Hse : session st' id = set_pending (pending (session st id) ++ [(q, SubagentReturn)]) (session st id)) by apply session_put.
  assert (Hre : (reserve d' st' id).*1 ≡ₚ q :: (reserve d st id).*1).
  { unfold reserve. rewrite Hse. cbn [pending set_pending]. change (current_turn d') with (current_turn d). change (inFlight st') with (inFlight st).
    rewrite <- (assoc_L app), fmap_app. cbn [app]. rewrite fmap_cons, <- Permutation_middle. by rewrite fmap_app. }
  assert (Hq : q ∉ (reserve d st id).*1).
  { intros Hx. pose proof (io_known _ _ _ H) as Hk. rewrite list.Forall_forall in Hk. destruct (Hk q Hx) as [?|[?|?]%(io_finished _ _ _ H)]; done. }
  destruct H. split; rewrite ?Hse; try done.
  - subst st'. cbn. rewrite lookup_insert_eq. eauto.
  - intros sp Hcl Hx. destruct (io_spawn0 sp Hcl Hx) as [Hsf Hsr]. split; [by right|]. rewrite Hre. intros [->|?]%elem_of_cons; done.
  - rewrite Hre. apply NoDup_cons. done.
  - rewrite Hre. apply list.Forall_cons. split; [left; by left|]. eapply Forall_impl; [exact io_known0|]. intros x [?|?]; [left; by right|by right].
  - cbn. intros x [->|Hx]%elem_of_cons; [done|by apply io_foreign0].
  - intros c. subst st'. cbn. rewrite elem_of_union, elem_of_singleton, elem_of_cons. by rewrite io_children0.
Qed.
Lemma orderly_step_in_order id d st e d' : in_order id d st -> orderly_step id d e = Some d' -> in_order id d' (step st e).
Proof.
  intros H. unfold orderly_step. destruct e as [s parent sp|r s [c|]|r|r|c s|c status|s child q].
  - case_bool_decide as Hs; [|done]. intros [= <-]. subst s. cbn [step]. by destruct (io_session _ _ _ H) as [x ->].
  - case_bool_decide as Hx; [|done]. intros [= <-]. destruct Hx as (-> & ? & ? & ? & ?). by apply start_summary.
  - case_bool_decide as Hx; [|done]. intros [= <-]. destruct Hx as (-> & ? & ? & ?). by apply start_turn.
  - case_bool_decide as Hc.
    + intros [= <-]. destruct (io_current _ _ _ H r Hc) as (_ & _ & _ & f & Ef & _). pose proof (finish_in_flight id d st r f H Ef (or_introl Hc)) as Hf.
      by rewrite decide_True in Hf.
    + case_bool_decide as Hs; [|done]. intros [= <-]. destruct (inFlight st !! r) as [f|] eqn:Ef.
      * assert (Hsum : f_summary f = true). { destruct (f_summary f) eqn:E; [done|]. exfalso. by apply (io_apart _ _ _ H r (io_kind _ _ _ H r f Ef E)). }
        pose proof (finish_in_flight id d st r f H Ef (or_intror Hsum)) as Hf. rewrite decide_False in Hf by done. by destruct d.
      * cbn [step]. rewrite Ef. by apply finish_late.
  - case_bool_decide as Hc; [intros [= <-]; by apply fail_turn|]. case_bool_decide as Hs; [|done]. intros [= <-]. by apply fail_summary.
  - case_bool_decide as Hs; [|done]. intros [= <-]. subst s. by apply begin_compaction.
  - case_bool_decide as Hs; [|done]. intros [= <-]. by apply finish_compaction.
  - destruct (negb _) eqn:Hn; [done|]. apply negb_false_iff, bool_decide_eq_true in Hn. subst s. case_bool_decide as Hc.
    + intros [= <-]. cbn [step]. rewrite bool_decide_true by by apply (io_children _ _ _ H). done.
    + case_bool_decide as Hx; [|done]. intros [= <-]. destruct Hx as (? & ? & ?). by apply child_returned.
Qed.
Lemma orderly_from_in_order id es : forall d st, in_order id d st -> orderly_from id d es = true -> exists d', in_order id d' (foldl step st es).
Proof.
  induction es as [|e es IH]; intros d st H; cbn; [by exists d|]. destruct (orderly_step id d e) as [d'|] eqn:E; [|done]. apply IH. by eapply orderly_step_in_order.
Qed.

(** C35. A session that makes one request at a time, whatever requests fail, are retried or are cut off by the end of a process, whatever children
    return and however its compactions end, gets no edge twice: no two edges go from the same request to the same request. *)
Theorem edges_unique (ledger : list SemanticEdgeLedgerEvent) (Hledger : orderly ledger = true) : NoDup (ends <$> deriveSemanticEdges [ledger]).
Proof.
  unfold orderly in Hledger. destruct ledger as [|[id parent sp| | | | | |] es]; try done. unfold deriveSemanticEdges. cbn [concat]. rewrite app_nil_r. cbn [foldl].
  destruct (orderly_from_in_order id es (first_discipline sp) (step empty_fold (SessionRegistered id parent sp))) as [d H]; [|done|exact (io_ends _ _ _ H)].
  change (step empty_fold (SessionRegistered id parent sp)) with (put_session id (new_session sp) empty_fold).
  assert (Hse : session (put_session id (new_session sp) empty_fold) id = new_session sp) by apply session_put.
  split; rewrite ?reserve_idle, ?Hse by done; try done; try (by constructor).
  - cbn. rewrite lookup_insert_eq. eauto.
  - intros x _. cbn. intros ->. split; [by left|by intros ?%elem_of_nil].
  - intros x Hx. by apply elem_of_nil in Hx.
  - intros x _. split; by apply not_elem_of_nil.
  - intros c. cbn. rewrite elem_of_empty, elem_of_nil. done.
Qed.

(** ** Ledgers *)

(** A turn, a compaction with two summary requests that takes over a child's return, and a retried turn. *)
Definition demo_ledger : list SemanticEdgeLedgerEvent :=
  [SessionRegistered (js "s") None (Some (js "p")); RequestStarted (js "1") (js "s") None; RequestFinished (js "1");
   ChildReturned (js "s") (js "child") (js "c"); CompactionBegun (js "k") (js "s"); RequestStarted (js "2") (js "s") (Some (js "k"));
   RequestStarted (js "3") (js "s") (Some (js "k")); RequestFinished (js "3"); RequestFinished (js "2"); CompactionFinished (js "k") CsCompleted;
   RequestStarted (js "4") (js "s") None; RequestFailed (js "4"); RequestStarted (js "4") (js "s") None; RequestFinished (js "4")].
Definition demo_edge (source target : string) (t : SemanticEdgeType) : SemanticEdge := {| source_request_id := js source; target_request_id := js target; edge_type := t |}.
Example demo_edges : deriveSemanticEdges [demo_ledger] =
  [demo_edge "p" "1" SubagentCall; demo_edge "1" "3" Continuation; demo_edge "1" "2" Continuation; demo_edge "c" "2" SubagentReturn; demo_edge "2" "4" CompactionEdge].
Proof. by vm_compute. Qed.
Lemma edges_unique_witness : orderly demo_ledger = true /\ NoDup (ends <$> deriveSemanticEdges [demo_ledger]).
Proof. assert (H : orderly demo_ledger = true) by by vm_compute. split; [exact H|exact (edges_unique demo_ledger H)]. Defined.

(** The child of the session above, in a ledger of its own. *)
Definition demo_child : list SemanticEdgeLedgerEvent := [SessionRegistered (js "child") (Some (js "s")) (Some (js "1")); RequestStarted (js "c") (js "child") None; RequestFinished (js "c")].
Definition demo_owners : owners :=
  let among (l : list jsstr) x := if bool_decide (x ∈ l) then 1%nat else 0%nat in
  {| own_session := among [js "child"]; own_request := among [js "c"]; own_compaction := fun _ => 0%nat; own_child := fun _ => 0%nat |}.
Definition demo_parts : list (nat * list SemanticEdgeLedgerEvent) := [(0%nat, demo_ledger); (1%nat, demo_child)].
Lemma demo_owned : Forall (fun p => Forall (event_of demo_owners p.1) p.2) demo_parts.
Proof. repeat (apply list.Forall_cons; split); try apply Forall_nil_2; cbn; repeat split; try (by vm_compute); intros ? [= <-]; by vm_compute. Qed.
Lemma ledgers_in_any_order_witness :
  (NoDup demo_parts.*1 /\ Forall (fun p => Forall (event_of demo_owners p.1) p.2) demo_parts /\ reverse demo_parts ≡ₚ demo_parts) /\
  deriveSemanticEdges (reverse demo_parts).*2 ≡ₚ demo_parts.*2 ≫= (fun ledger => deriveSemanticEdges [ledger]).
Proof.
  assert (H : NoDup demo_parts.*1) by (repeat constructor; set_solver). assert (Hp : reverse demo_parts ≡ₚ demo_parts) by apply reverse_Permutation.
  split; [split_and!; [exact H|exact demo_owned|exact Hp]|]. exact (ledgers_in_any_order demo_owners demo_parts (reverse demo_parts) H demo_owned Hp).
Defined.

(** Two requests of a session at once, both failing, leave the same continuation pending twice: the next request gets it twice. *)
Example overlapping_turns_duplicate :
  deriveSemanticEdges [[SessionRegistered (js "s") None None; RequestStarted (js "1") (js "s") None; RequestFinished (js "1");
    RequestStarted (js "2") (js "s") None; RequestStarted (js "3") (js "s") None; RequestFailed (js "2"); RequestFailed (js "3");
    RequestStarted (js "4") (js "s") None; RequestFinished (js "4")]] = [demo_edge "1" "4" Continuation; demo_edge "1" "4" Continuation].
Proof. by vm_compute. Qed.
(** What a request took over is gone when its process ends before the request does: the return of the child gives no edge. *)
Example crash_loses_return :
  deriveSemanticEdges [[SessionRegistered (js "s") None None; RequestStarted (js "1") (js "s") None; RequestFinished (js "1");
    ChildReturned (js "s") (js "child") (js "c"); RequestStarted (js "2") (js "s") None;
    RequestStarted (js "3") (js "s") None; RequestFinished (js "3")]] = [demo_edge "1" "3" Continuation].
Proof. by vm_compute. Qed.
