(* ===== verification/EdgeRecorder.v ===== *)
(** * The recorder of a session's requests (core/semantic-edges.ts)

    A recorder writes the events of a session into its ledger ([EventLog]) before they take effect, and mints the ids of the
    requests. When the ledger cannot be written it is given up, and requests go without an id. A new process
    reads the ledger and goes on.

    [recorder_follows_ledger] says that what a recorder knows is what its ledger says, and that no id is given out that is not
    in the ledger, however writes are cut short; [retry_same_body] that an id is used again only for the same body. *)

(* Source aliases:
   SE = src/packages/coding-agent/src/core/semantic-edges.ts *)

From stdpp Require Import gmap.
From S2P Require Import Prelude JsString JsMap Messages Json FileLog EventLog SemanticEdges.

(** ** Events as JSON *)

Definition field (k : string) (v : jsstr) : jsstr * json := (js k, JStr v).
Definition opt_field (k : string) (v : option jsstr) : list (jsstr * json) := match v with Some v => [field k v] | None => [] end.
Definition status_text (s : CompactionStatus) : jsstr := match s with CsCompleted => js "completed" | CsFailed => js "failed" | CsCancelled => js "cancelled" end.
(** The objects of [SemanticEdgeLedgerEvent]; what is undefined is left out. *)
Definition encode (e : SemanticEdgeLedgerEvent) : json :=
  match e with
  | SessionRegistered id parent spawned =>
      JObj ([field "type" (js "session_registered"); field "session_id" id] ++ opt_field "parent_session_id" parent ++ opt_field "spawned_by_request_id" spawned)
  | RequestStarted r id c => JObj ([field "type" (js "request_started"); field "request_id" r; field "session_id" id] ++ opt_field "compaction_id" c)
  | RequestFinished r => JObj [field "type" (js "request_finished"); field "request_id" r]
  | RequestFailed r => JObj [field "type" (js "request_failed"); field "request_id" r]
  | CompactionBegun c id => JObj [field "type" (js "compaction_begun"); field "compaction_id" c; field "session_id" id]
  | CompactionFinished c s => JObj [field "type" (js "compaction_finished"); field "compaction_id" c; field "status" (status_text s)]
  | ChildReturned id child r => JObj [field "type" (js "child_returned"); field "session_id" id; field "child_session_id" child; field "request_id" r]
  end.
(** [event.key], for a string. *)
Definition text_of (v : json) (k : string) : option jsstr :=
  match v with JObj fs => match JsMap.get fs (js k) with Some (JStr s) => Some s | _ => None end | _ => None end.
Definition read_status (s : jsstr) : option CompactionStatus :=
  if jseqb s (js "completed") then Some CsCompleted else if jseqb s (js "failed") then Some CsFailed else if jseqb s (js "cancelled") then Some CsCancelled else None.
(** The event of a line; what is none of the events is ignored by every reader. *)
Definition decode (v : json) : option SemanticEdgeLedgerEvent :=
  match text_of v "type" with
  | None => None
  | Some t =>
      let request := text_of v "request_id" in
      let id := text_of v "session_id" in
      let c := text_of v "compaction_id" in
      if jseqb t (js "session_registered") then id ← id; Some (SessionRegistered id (text_of v "parent_session_id") (text_of v "spawned_by_request_id"))
      else if jseqb t (js "request_started") then r ← request; id ← id; Some (RequestStarted r id c)
      else if jseqb t (js "request_finished") then r ← request; Some (RequestFinished r)
      else if jseqb t (js "request_failed") then r ← request; Some (RequestFailed r)
      else if jseqb t (js "compaction_begun") then c ← c; id ← id; Some (CompactionBegun c id)
      else if jseqb t (js "compaction_finished") then c ← c; s ← text_of v "status" ≫= read_status; Some (CompactionFinished c s)
      else if jseqb t (js "child_returned") then id ← id; child ← text_of v "child_session_id"; r ← request; Some (ChildReturned id child r)
      else None
  end.

(** SE 353-359 parseSemanticEdgeLine. *)
Definition parseSemanticEdgeLine (line : jsstr) (_ : nat) : option (option SemanticEdgeLedgerEvent) :=
  match JSON_parse line with Some v => Some (decode v) | None => None end.
(** SE 361-364 readSemanticEdgeLedger. *)
Definition readSemanticEdgeLedger (f : file) : list SemanticEdgeLedgerEvent + log_error := replaySync unbounded parseSemanticEdgeLine true f.

(** ** The recorder *)

(** The last turn request. *)
Record turn := { t_requestId : jsstr; t_epoch : nat; t_bodyHash : option jsstr }.
(** SE 158-168 SemanticEdgeRecorder. *)
Record recorder := { disabled : bool; epoch : nat; lastTurn : option turn; parkedRetry : option turn; lastCommittedRequestId : option jsstr; openCompactions : gset jsstr }.
Definition fresh_recorder : recorder := {| disabled := false; epoch := 0; lastTurn := None; parkedRetry := None; lastCommittedRequestId := None; openCompactions := ∅ |}.
(** SE 207-213 SemanticEdgeRecorder._disable. *)
Definition set_disabled (r : recorder) : recorder :=
  {| disabled := true; epoch := epoch r; lastTurn := lastTurn r; parkedRetry := parkedRetry r; lastCommittedRequestId := lastCommittedRequestId r; openCompactions := openCompactions r |}.
Definition set_turn (t : option turn) (r : recorder) : recorder :=
  {| disabled := disabled r; epoch := epoch r; lastTurn := t; parkedRetry := parkedRetry r; lastCommittedRequestId := lastCommittedRequestId r; openCompactions := openCompactions r |}.
Definition set_parked (t : option turn) (r : recorder) : recorder :=
  {| disabled := disabled r; epoch := epoch r; lastTurn := lastTurn r; parkedRetry := t; lastCommittedRequestId := lastCommittedRequestId r; openCompactions := openCompactions r |}.
Definition set_committed (id : jsstr) (r : recorder) : recorder :=
  {| disabled := disabled r; epoch := epoch r; lastTurn := lastTurn r; parkedRetry := parkedRetry r; lastCommittedRequestId := Some id; openCompactions := openCompactions r |}.
Definition set_compactions (n : nat) (o : gset jsstr) (r : recorder) : recorder :=
  {| disabled := disabled r; epoch := n; lastTurn := lastTurn r; parkedRetry := parkedRetry r; lastCommittedRequestId := lastCommittedRequestId r; openCompactions := o |}.

(** What an append does: it gets some bytes into the file, or throws before. *)
Inductive append_fate := Written (n : nat) | NotOpened.
(** A recorder, its ledger ([None] for a recorder without one), the ids minted, and what the appends to come will do (a whole write when there
    is no more). *)
Record rec_world := { rec : recorder; ledger : option file; minted : nat; fates : list append_fate }.
Definition set_rec (r : recorder) (w : rec_world) : rec_world := {| rec := r; ledger := ledger w; minted := minted w; fates := fates w |}.
Definition set_ledger (f : file) (fs : list append_fate) (w : rec_world) : rec_world := {| rec := rec w; ledger := Some f; minted := minted w; fates := fs |}.

Section recorder.
(** The identifiers drawn, and the session. *)
Context (uuid : nat -> jsstr) (sessionId : jsstr).

(** SE 307-332 SemanticEdgeRecorder._replay. *)
Definition replay (r : recorder) (e : SemanticEdgeLedgerEvent) : recorder :=
  match e with
  | RequestStarted id s None => if bool_decide (s = sessionId) then set_turn (Some {| t_requestId := id; t_epoch := epoch r; t_bodyHash := None |}) r else r
  | RequestFinished id => set_committed id r
  | CompactionBegun c s => if bool_decide (s = sessionId) then set_compactions (epoch r) ({[c]} ∪ openCompactions r) r else r
  | CompactionFinished c status =>
      if bool_decide (c ∈ openCompactions r)
      then set_compactions (if bool_decide (status = CsCompleted) then S (epoch r) else epoch r) (openCompactions r ∖ {[c]}) r else r
  | _ => r
  end.
(** SE 336-350 SemanticEdgeRecorder._append. *)
Definition append (e : SemanticEdgeLedgerEvent) (w : rec_world) : bool * rec_world :=
  if disabled (rec w) then (false, w)
  else match ledger w with
  | None => (true, set_rec (replay (rec w) e) w)
  | Some f =>
      let fs := tail (fates w) in
      match default (Written (length (line_bytes (encode e)))) (head (fates w)) with
      | NotOpened => (false, set_rec (set_disabled (rec w)) (set_ledger f fs w))
      | Written n =>
          match appendSync unbounded [encode e] [] true n f with
          | (Some _, f') => (false, set_rec (set_disabled (rec w)) (set_ledger f' fs w))
          | (None, f') => (true, set_rec (replay (rec w) e) (set_ledger f' fs w))
          end
      end
  end.
(** SE 169-203 SemanticEdgeRecorder.constructor. *)
Definition new_recorder (parent spawned : option jsstr) (w : rec_world) : rec_world :=
  let w := set_rec fresh_recorder w in
  match match ledger w with Some f => replaySync unbounded parseSemanticEdgeLine false f | None => inl [] end with
  | inr _ => set_rec (set_disabled (rec w)) w
  | inl existing =>
      if existsb (fun e => match e with SessionRegistered id _ _ => jseqb id sessionId | _ => false end) existing
      then set_rec (foldl replay (rec w) existing) w
      else (append (SessionRegistered sessionId parent spawned) w).2
  end.
Definition mint (w : rec_world) : jsstr * rec_world := (uuid (minted w), {| rec := rec w; ledger := ledger w; minted := S (minted w); fates := fates w |}).

(** SE 230-249 SemanticEdgeRecorder.startTurnRequest. *)
Definition startTurnRequest (bodyHash : option jsstr) (w : rec_world) : option jsstr * rec_world :=
  let parked := parkedRetry (rec w) in
  let reuse := match parked with
               | Some p => if bool_decide (t_epoch p = epoch (rec w)) && bool_decide (is_Some (t_bodyHash p)) && bool_decide (t_bodyHash p = bodyHash) then Some (t_requestId p) else None
               | None => None
               end in
  let '(requestId, w) := match reuse with Some id => (id, w) | None => mint w end in
  let w := if bool_decide (Some requestId = t_requestId <$> parked) then set_rec (set_parked None (rec w)) w else w in
  let '(recorded, w) := append (RequestStarted requestId sessionId None) w in
  if negb recorded then (None, w)
  else (Some requestId, set_rec (set_turn (Some {| t_requestId := requestId; t_epoch := epoch (rec w); t_bodyHash := bodyHash |}) (rec w)) w).
(** SE 252-254 SemanticEdgeRecorder.prepareTurnRetry. *)
Definition prepareTurnRetry (w : rec_world) : rec_world := set_rec (set_parked (lastTurn (rec w)) (rec w)) w.
(** SE 256-258 SemanticEdgeRecorder.clearTurnRetry. *)
Definition clearTurnRetry (w : rec_world) : rec_world := set_rec (set_parked None (rec w)) w.
(** SE 260-263 SemanticEdgeRecorder.finishRequest. *)
Definition finishRequest (requestId : option jsstr) (w : rec_world) : rec_world :=
  match requestId with None => w | Some id => (append (RequestFinished id) w).2 end.
(** SE 265-268 SemanticEdgeRecorder.failRequest. *)
Definition failRequest (requestId : option jsstr) (w : rec_world) : rec_world :=
  match requestId with None => w | Some id => (append (RequestFailed id) w).2 end.
(** SE 270-274 SemanticEdgeRecorder.beginCompaction. *)
Definition beginCompaction (w : rec_world) : jsstr * rec_world :=
  let '(c, w) := mint w in (c, (append (CompactionBegun c sessionId) w).2).
(** SE 277-286 SemanticEdgeRecorder.startCompactionRequest. *)
Definition startCompactionRequest (compactionId : jsstr) (w : rec_world) : option jsstr * rec_world :=
  let '(id, w) := mint w in
  let '(recorded, w) := append (RequestStarted id sessionId (Some compactionId)) w in
  (if recorded then Some id else None, w).
(** SE 288-294 SemanticEdgeRecorder.finishCompaction. [None] when it throws. *)
Definition finishCompaction (compactionId : jsstr) (status : CompactionStatus) (w : rec_world) : option rec_world :=
  if disabled (rec w) then Some w
  else if negb (bool_decide (compactionId ∈ openCompactions (rec w))) then None
  else Some (append (CompactionFinished compactionId status) w).2.
(** SE 297-305 SemanticEdgeRecorder.recordChildReturned. *)
Definition recordChildReturned (child : jsstr) (childLast : option jsstr) (w : rec_world) : rec_world :=
  match childLast with None => w | Some r => (append (ChildReturned sessionId child r) w).2 end.

(** How the call of the model ends: it throws or its promise is rejected, or its stream ends with a message. *)
Inductive call_end := CallFails | StreamEnds (stopReason : StopReason) | StreamFails.
(** SE 541-572 wrapStreamFnWithSemanticEdges. The end of a call that was made with an id, or without one. *)
Definition end_call (requestId : option jsstr) (e : call_end) (w : rec_world) : rec_world :=
  match requestId with
  | None => w
  | Some _ =>
      match e with
      | StreamEnds Error | StreamEnds Aborted | StreamFails | CallFails => failRequest requestId w
      | StreamEnds _ => finishRequest requestId w
      end
  end.

(** ** Runs *)

(** What happens to a recorder; [PRestart] is a new process over the same ledger. *)
Inductive rec_op :=
  | PRestart (parent spawned : option jsstr) | PStart (bodyHash : option jsstr) | PPrepareRetry | PClearRetry
  | PFinish (id : option jsstr) | PFail (id : option jsstr) | PEnd (id : option jsstr) (e : call_end)
  | PBeginCompaction | PStartSummary (c : jsstr) | PFinishCompaction (c : jsstr) (status : CompactionStatus)
  | PChild (child : jsstr) (last : option jsstr).
(** An id that goes to the provider, with the body and the epoch of its request. *)
Record given_id := { g_id : jsstr; g_body : option jsstr; g_epoch : nat }.
Definition do_op (op : rec_op) (w : rec_world) : option given_id * rec_world :=
  match op with
  | PRestart parent spawned => (None, new_recorder parent spawned w)
  | PStart h => let '(r, w) := startTurnRequest h w in ((fun id => {| g_id := id; g_body := h; g_epoch := epoch (rec w) |}) <$> r, w)
  | PPrepareRetry => (None, prepareTurnRetry w)
  | PClearRetry => (None, clearTurnRetry w)
  | PFinish id => (None, finishRequest id w)
  | PFail id => (None, failRequest id w)
  | PEnd id e => (None, end_call id e w)
  | PBeginCompaction => (None, (beginCompaction w).2)
  | PStartSummary c => let '(r, w) := startCompactionRequest c w in ((fun id => {| g_id := id; g_body := None; g_epoch := epoch (rec w) |}) <$> r, w)
  | PFinishCompaction c status => (None, default w (finishCompaction c status w))
  | PChild child last => (None, recordChildReturned child last w)
  end.
Fixpoint do_ops (ops : list rec_op) (w : rec_world) : list given_id * rec_world :=
  match ops with
  | [] => ([], w)
  | op :: ops => let '(g, w) := do_op op w in let '(gs, w) := do_ops ops w in (option_list g ++ gs, w)
  end.

(** ** Reading back *)

Definition texts (e : SemanticEdgeLedgerEvent) : list jsstr :=
  match e with
  | SessionRegistered id parent spawned => id :: option_list parent ++ option_list spawned
  | RequestStarted r id c => r :: id :: option_list c
  | RequestFinished r | RequestFailed r => [r]
  | CompactionBegun c id => [c; id]
  | CompactionFinished c _ => [c]
  | ChildReturned id child r => [id; child; r]
  end.
Definition event_ok (e : SemanticEdgeLedgerEvent) : Prop := Forall js_wf (texts e).
Lemma decode_encode e : decode (encode e) = Some e.
Proof. destruct e as [id [|] [|]|r id [|]|r|r|c id|c []|id child r]; reflexivity. Qed.
Lemma encode_ok e : event_ok e -> json_ok (encode e) /\ is_obj (encode e) = true.
Proof.
  assert (Hobj : forall fs : list (jsstr * jsstr), NoDup fs.*1 -> Forall js_wf fs.*1 -> Forall js_wf fs.*2 -> json_ok (JObj ((fun p => (p.1, JStr p.2)) <$> fs))).
  { intros fs H1 H2 H3. apply ok_obj; [by rewrite <- list_fmap_compose|by rewrite <- list_fmap_compose|]. apply Forall_fmap. apply (Forall_fmap snd) in H3.
    eapply Forall_impl; [exact H3|]. intros [k v] Hv. by apply ok_str. }
  intros H. split; [|by destruct e]. unfold event_ok in H.
  assert (Hk : forall fs, encode e = JObj ((fun p => (p.1, JStr p.2)) <$> fs) -> bool_decide (NoDup fs.*1) = true -> forallb (fun k => forallb (fun u => (u <? 0x10000)%N) k) fs.*1 = true -> Forall js_wf fs.*2 -> json_ok (encode e)).
  { intros fs -> Hn Hw Hv. apply Hobj; [by apply bool_decide_eq_true in Hn| |done]. apply list.Forall_forall. intros k Hin. rewrite forallb_forall in Hw.
    apply js_wf_check. apply Hw. by apply list_elem_of_In. }
  destruct e as [id parent spawned|r id c|r|r|c id|c status|id child r].
  - apply (Hk ([(js "type", js "session_registered"); (js "session_id", id)] ++ match parent with Some p => [(js "parent_session_id", p)] | None => [] end
      ++ match spawned with Some p => [(js "spawned_by_request_id", p)] | None => [] end)); destruct parent, spawned; try reflexivity; cbn in *; (constructor; [by apply js_wf_check|]); by repeat (apply list.Forall_cons in H as [? H]; constructor; [done|]).
  - apply (Hk ([(js "type", js "request_started"); (js "request_id", r); (js "session_id", id)] ++ match c with Some p => [(js "compaction_id", p)] | None => [] end));
      destruct c; try reflexivity; cbn in *; (constructor; [by apply js_wf_check|]); by repeat (apply list.Forall_cons in H as [? H]; constructor; [done|]).
  - apply (Hk [(js "type", js "request_finished"); (js "request_id", r)]); try reflexivity. constructor; [by apply js_wf_check|done].
  - apply (Hk [(js "type", js "request_failed"); (js "request_id", r)]); try reflexivity. constructor; [by apply js_wf_check|done].
  - apply (Hk [(js "type", js "compaction_begun"); (js "compaction_id", c); (js "session_id", id)]); try reflexivity. constructor; [by apply js_wf_check|done].
  - apply (Hk [(js "type", js "compaction_finished"); (js "compaction_id", c); (js "status", status_text status)]); try reflexivity. constructor; [by apply js_wf_check|].
    cbn in H. apply list.Forall_cons in H as [Hc _]. constructor; [done|]. constructor; [|done]. destruct status; by apply js_wf_check.
  - apply (Hk [(js "type", js "child_returned"); (js "session_id", id); (js "child_session_id", child); (js "request_id", r)]); try reflexivity.
    constructor; [by apply js_wf_check|done].
Qed.
Lemma encoded_objects evs : Forall event_ok evs -> objects (encode <$> evs).
Proof. intros H. apply Forall_fmap. eapply Forall_impl; [exact H|]. intros e. by apply encode_ok. Qed.

(** What the recorder reads is the events of the values in the log. *)
Lemma parsed_loop nl lines : forall i n acc,
  replay_loop unbounded parseSemanticEdgeLine nl lines i n (omap decode acc) =
  match replay_loop unbounded parse_json nl lines i n acc with inl vs => inl (omap decode vs) | inr e => inr e end.
Proof.
  induction lines as [|raw rest IH]; intros i n acc; [done|]. cbn [replay_loop]. destruct (trim raw) as [|u t]; [apply IH|].
  destruct (_ && _); [apply IH|]. cbn [over maxRecords unbounded]. unfold parseSemanticEdgeLine at 1, parse_json at 1. destruct (JSON_parse (u :: t)) as [v|]; [|done].
  rewrite <- IH, omap_app. cbn [omap list_omap]. destruct (decode v); [done|by rewrite app_nil_r].
Qed.
Lemma omap_decode (evs : list SemanticEdgeLedgerEvent) : omap decode (encode <$> evs) = evs.
Proof. induction evs as [|e evs IH]; [done|]. cbn. rewrite decode_encode. cbn. by f_equal. Qed.
(** A ledger and the events in it; a torn line at its end is none. *)
Definition ledger_has (f : file) (evs : list SemanticEdgeLedgerEvent) : Prop :=
  match f with Some bytes => holds bytes (encode <$> evs) | None => evs = [] end.
Lemma ledger_read f evs : ledger_has f evs -> Forall event_ok evs -> replaySync unbounded parseSemanticEdgeLine false f = inl evs.
Proof.
  intros Hf Hok. destruct f as [bytes|]; [|by cbn in Hf; subst]. pose proof (replay_holds bytes _ Hf (encoded_objects _ Hok)) as Hr.
  unfold replaySync in *. destruct (readAllSync unbounded bytes) as [b|]; [|done]. pose proof (parsed_loop (ends_with_LF (buffer_toString b)) (lines_of (buffer_toString b)) 0 0 []) as Hp.
  cbn [omap list_omap] in Hp. rewrite Hp, Hr. by rewrite omap_decode.
Qed.

(** ** What a recorder knows *)

(** The same knowledge, but for what is known of the bodies of requests. *)
Definition turn_of (t : option turn) : option (jsstr * nat) := (fun t => (t_requestId t, t_epoch t)) <$> t.
Record knows_same (r r' : recorder) : Prop := {
  ks_epoch : epoch r = epoch r'; ks_turn : turn_of (lastTurn r) = turn_of (lastTurn r');
  ks_committed : lastCommittedRequestId r = lastCommittedRequestId r'; ks_open : openCompactions r = openCompactions r' }.
Lemma replay_same r r' e : knows_same r r' -> knows_same (replay r e) (replay r' e).
Proof.
  intros [H1 H2 H3 H4]. destruct e as [id parent spawned|id s [c|]|id|id|c s|c status|s child id]; cbn; try done.
  - case_bool_decide; [|done]. split; cbn; rewrite ?H1; done.
  - case_bool_decide; [|done]. split; cbn; rewrite ?H4; done.
  - rewrite H4. case_bool_decide; [|done]. split; cbn; rewrite ?H1; done.
Qed.
Lemma replay_disabled r e : disabled (replay r e) = disabled r.
Proof. destruct e as [id parent spawned|id s [c|]|id|id|c s|c status|s child id]; cbn; try done; by case_bool_decide. Qed.
Definition knowledge (evs : list SemanticEdgeLedgerEvent) : recorder := foldl replay fresh_recorder evs.
Definition registered (evs : list SemanticEdgeLedgerEvent) : Prop := exists parent spawned, SessionRegistered sessionId parent spawned ∈ evs.
(** The ledger, the recorder, and the events that are in both. *)
Record follows (evs : list SemanticEdgeLedgerEvent) (w : rec_world) : Prop := {
  fo_ledger : exists f, ledger w = Some f /\ ledger_has f evs;
  fo_ok : Forall event_ok evs;
  fo_knows : knows_same (rec w) (knowledge evs);
  fo_empty : evs = [] \/ registered evs;
  fo_live : disabled (rec w) = false -> registered evs;
  fo_parked t : parkedRetry (rec w) = Some t -> js_wf (t_requestId t) }.
Lemma replay_parked r e : parkedRetry (replay r e) = parkedRetry r.
Proof. destruct e as [id parent spawned|id s [c|]|id|id|c s|c status|s child id]; cbn; try done; by case_bool_decide. Qed.
Lemma foldl_parked r evs : parkedRetry (foldl replay r evs) = parkedRetry r.
Proof. revert r. induction evs as [|e evs IH]; intros r; [done|]. cbn. by rewrite IH, replay_parked. Qed.

(** An append of one event: the line is whole, or nothing of it counts. *)
Lemma append_one f evs e n : ledger_has f evs -> Forall event_ok evs -> event_ok e ->
  let '(err, f') := appendSync unbounded [encode e] [] true n f in ledger_has f' (if err then evs else evs ++ [e]).
Proof.
  intros Hf Hok He. pose proof (encode_ok e He) as [Hj Ho].
  set (a := {| a_events := [encode e]; a_onCreate := []; a_written := n |}).
  assert (Hg : good_append a) by (split; [by apply Forall_singleton|apply Forall_nil_2]).
  destruct (append_holds a f (encode <$> evs) Hg (encoded_objects _ Hok)) as (bytes & Hb & Hh). { destruct f; [done|]. cbn in Hf. by subst. }
  change (appendSync unbounded (a_events a) (a_onCreate a) true (a_written a) f) with (appendSync unbounded [encode e] [] true n f) in Hb.
  assert (He' : (appendSync unbounded [encode e] [] true n f).1 = if Nat.ltb n (length (line_bytes (encode e))) then Some (ShortWrite (Z.of_nat n) (Z.of_nat (length (line_bytes (encode e))))) else None).
  { assert (Hbuf : buffer_from (concat ([serializeLine (encode e)])) = line_bytes (encode e)) by (unfold line_bytes, serializeLine; cbn [concat]; by rewrite app_nil_r).
    unfold appendSync. destruct f as [b|].
    - rewrite (repair_spec b (encode <$> evs) Hf (objects_ok _ (encoded_objects _ Hok))). cbn [fmap list_fmap app fst]. by rewrite Hbuf.
    - cbn [fmap list_fmap app fst]. by rewrite Hbuf. }
  destruct (appendSync unbounded [encode e] [] true n f) as [err f'] eqn:Ea. cbn [fst snd] in *. subst f'. cbn [ledger_has].
  assert (Hw : whole n ((if f then [] else []) ++ [encode e]) = if Nat.ltb n (length (line_bytes (encode e))) then [] else [encode e]).
  { assert ((if f then [] else []) ++ [encode e] = [encode e]) as -> by by destruct f. cbn [whole]. destruct (Nat.ltb n _) eqn:E; to_prop.
    - rewrite (proj2 (Nat.leb_gt _ _)); [done|lia].
    - rewrite (proj2 (Nat.leb_le _ _)); [done|lia]. }
  cbn [a_written a_onCreate a_events a] in Hh. rewrite Hw in Hh. subst err. destruct (Nat.ltb n _); [by rewrite app_nil_r in Hh|by rewrite fmap_app].
Qed.
(** An append that is recorded is in the ledger and in memory; one that is not leaves both alone and ends the recording. *)
Lemma edge_append_spec evs w f e : ledger w = Some f -> ledger_has f evs -> Forall event_ok evs -> knows_same (rec w) (knowledge evs) -> event_ok e ->
  let '(ok, w') := append e w in
  minted w' = minted w /\
  if ok then disabled (rec w) = false /\ rec w' = replay (rec w) e /\ exists f', ledger w' = Some f' /\ ledger_has f' (evs ++ [e])
  else disabled (rec w') = true /\ (rec w' = rec w \/ rec w' = set_disabled (rec w)) /\ exists f', ledger w' = Some f' /\ ledger_has f' evs.
Proof.
  intros Hl Hf Hok Hk He. unfold append. destruct (disabled (rec w)) eqn:Ed; [by eauto 10|]. rewrite Hl.
  destruct (default _ _) as [n|].
  - pose proof (append_one f evs e n Hf Hok He) as Ha. destruct (appendSync _ _ _ _ _ _) as [[err|] f']; cbn; (split; [done|]); split_and!; eauto.
  - cbn. split_and!; eauto.
Qed.
Lemma append_follows evs w e : follows evs w -> event_ok e ->
  let '(ok, w') := append e w in minted w' = minted w /\
    (if ok then follows (evs ++ [e]) w' /\ rec w' = replay (rec w) e else follows evs w').
Proof.
  intros H He. destruct (fo_ledger _ _ H) as (f & Hl & Hf). pose proof (edge_append_spec evs w f e Hl Hf (fo_ok _ _ H) (fo_knows _ _ H) He) as Hs.
  destruct (append e w) as [[|] w']; destruct Hs as [Hm Hs]; (split; [done|]).
  - destruct Hs as (Hd & Hr & Hf'). pose proof (fo_live _ _ H Hd) as (p & s & Hreg). split; [|done].
    assert (Hreg' : registered (evs ++ [e])) by (exists p, s; apply elem_of_app; by left).
    split; [done|apply Forall_app_2; [apply H|by apply Forall_singleton]| |by right|done|rewrite Hr, replay_parked; apply H].
    rewrite Hr. unfold knowledge. rewrite foldl_app. apply replay_same, H.
  - destruct Hs as (Hd & Hr & Hf'). destruct H. split; [done|done| |done|by rewrite Hd|by destruct Hr as [->| ->]]. destruct Hr as [->| ->]; [done|by destruct fo_knows0; split].
Qed.
Lemma set_rec_follows evs w r : follows evs w -> disabled r = disabled (rec w) -> knows_same r (rec w) ->
  (forall t, parkedRetry r = Some t -> js_wf (t_requestId t)) -> follows evs (set_rec r w).
Proof.
  intros [H1 H2 H3 H4 H5 H6] Hd Hk Hp. split; cbn; [done|done| |done|by rewrite Hd|done]. destruct H3, Hk. split; congruence.
Qed.
Lemma append_effect evs w e : follows evs w -> event_ok e -> exists evs', follows evs' (append e w).2 /\ evs `prefix_of` evs' /\ minted (append e w).2 = minted w.
Proof.
  intros H He. pose proof (append_follows evs w e H He) as Ha. destruct (append e w) as [[|] w']; destruct Ha as [Hm Ha].
  - destruct Ha as [Ha _]. exists (evs ++ [e]). split_and!; [done|by apply prefix_app_r|done].
  - exists evs. split_and!; done.
Qed.

(** ** Runs *)

(** The texts an operation brings from outside. *)
Definition op_texts (op : rec_op) : list jsstr :=
  match op with
  | PRestart parent spawned => option_list parent ++ option_list spawned
  | PFinish id | PFail id | PEnd id _ => option_list id
  | PStartSummary c | PFinishCompaction c _ => [c]
  | PChild child last => child :: option_list last
  | _ => []
  end.
Definition op_ok (op : rec_op) : Prop := Forall js_wf (op_texts op).
Context (Huuid : forall n, js_wf (uuid n)) (Hsession : js_wf sessionId).

(** A new process knows what the ledger says. *)
Lemma restart_follows evs w f parent spawned : ledger w = Some f -> ledger_has f evs -> Forall event_ok evs -> (evs = [] \/ registered evs) ->
  Forall js_wf (option_list parent ++ option_list spawned) ->
  exists evs', follows evs' (new_recorder parent spawned w) /\ evs `prefix_of` evs' /\ minted (new_recorder parent spawned w) = minted w.
Proof.
  intros Hl Hf Hok Hr Ht. unfold new_recorder. cbn [ledger set_rec]. rewrite Hl, (ledger_read f evs Hf Hok).
  destruct (existsb _ evs) eqn:Ee.
  - exists evs. split_and!; [|done|done]. apply existsb_exists in Ee as (e & He & Hm). destruct e as [id p s| | | | | |]; try done. apply bool_decide_eq_true in Hm. subst id.
    assert (registered evs) by (exists p, s; by apply list_elem_of_In). split; cbn; [by exists f|done|done|by right|done|by rewrite foldl_parked].
  - assert (evs = []) as ->.
    { destruct Hr as [->|(p & s & Hin)]; [done|]. exfalso.  apply not_true_iff_false in Ee. apply Ee. apply existsb_exists.
      exists (SessionRegistered sessionId p s). split; [by apply list_elem_of_In|by apply bool_decide_eq_true]. }
    assert (He : event_ok (SessionRegistered sessionId parent spawned)) by (by constructor).
    pose proof (edge_append_spec [] (set_rec fresh_recorder w) f _ Hl Hf Hok ltac:(done) He) as Ha.
    destruct (append _ _) as [[|] w']; destruct Ha as [Hm Ha]; cbn [snd].
    + destruct Ha as (_ & Hrec & Hf'). exists [SessionRegistered sessionId parent spawned]. split_and!; [|by apply prefix_nil|done].
      assert (registered [SessionRegistered sessionId parent spawned]) by (exists parent, spawned; by left).
      split; [done|by apply Forall_singleton|by rewrite Hrec|by right|done|by rewrite Hrec].
    + destruct Ha as (Hd & Hrec & Hf'). exists []. split_and!; [|done|done]. split; [done|done| |by left|by rewrite Hd|by destruct Hrec as [->| ->]]. by destruct Hrec as [->| ->].
Qed.
Definition in_ledger (evs : list SemanticEdgeLedgerEvent) (g : given_id) : Prop := exists c, RequestStarted (g_id g) sessionId c ∈ evs.
Lemma mint_follows evs w : follows evs w -> follows evs (mint w).2.
Proof. intros [H1 H2 H3 H4 H5 H6]. by split. Qed.
(** A request id that is returned was recorded. *)
Lemma started_recorded evs w id c (r : recorder -> recorder) : follows evs w -> js_wf id -> Forall js_wf (option_list c) ->
  (forall x, disabled (r x) = disabled x /\ parkedRetry (r x) = parkedRetry x /\ (forall y, x = replay y (RequestStarted id sessionId c) -> knows_same (r x) x)) ->
  let '(ok, w') := append (RequestStarted id sessionId c) w in
  exists evs', evs `prefix_of` evs' /\ if ok then follows evs' (set_rec (r (rec w')) w') /\ RequestStarted id sessionId c ∈ evs' else follows evs' w'.
Proof.
  intros H Hid Hc Hr. assert (He : event_ok (RequestStarted id sessionId c)) by (by repeat constructor).
  pose proof (append_follows evs w _ H He) as Ha. destruct (append _ w) as [[|] w']; destruct Ha as [_ Ha].
  - destruct Ha as [Ha Hrec]. exists (evs ++ [RequestStarted id sessionId c]). split; [by apply prefix_app_r|]. split; [|apply elem_of_app; right; by left].
    destruct (Hr (rec w')) as (H1 & H2 & H3). apply set_rec_follows; [done|done|by apply (H3 (rec w))|]. rewrite H2. apply Ha.
  - exists evs. done.
Qed.

Definition goes_on (evs : list SemanticEdgeLedgerEvent) (r : option given_id * rec_world) : Prop :=
  exists evs', evs `prefix_of` evs' /\ follows evs' r.2 /\ forall g, r.1 = Some g -> in_ledger evs' g.
Lemma goes_on_append evs w e : follows evs w -> event_ok e -> goes_on evs (None, (append e w).2).
Proof. intros H He. destruct (append_effect evs w e H He) as (evs' & H1 & H2 & _). by exists evs'. Qed.
Lemma goes_on_same evs w : follows evs w -> goes_on evs (None, w).
Proof. intros H. by exists evs. Qed.
Lemma knowledge_turn evs t : Forall event_ok evs -> lastTurn (knowledge evs) = Some t -> js_wf (t_requestId t).
Proof.
  intros Hok. unfold knowledge. induction evs as [|e evs IH] using rev_ind; [done|]. apply list.Forall_app in Hok as [Hok He]. apply list.Forall_cons in He as [He _].
  rewrite foldl_app. cbn [foldl]. specialize (IH Hok). destruct e as [id parent spawned|id s [c|]|id|id|c s|c status|s child id]; cbn; try done; case_bool_decide; try done.
  intros [= <-]. cbn. unfold event_ok in He. cbn in He. by apply list.Forall_cons in He as [? _].
Qed.
Lemma follows_turn evs w t : follows evs w -> lastTurn (rec w) = Some t -> js_wf (t_requestId t).
Proof.
  intros H Ht. pose proof (ks_turn _ _ (fo_knows _ _ H)) as Hk. rewrite Ht in Hk. destruct (lastTurn (knowledge evs)) as [t'|] eqn:E; [|done].
  injection Hk as Hid _. rewrite Hid. eapply knowledge_turn; [apply H|done].
Qed.
Lemma start_turn_follows evs w h : follows evs w -> goes_on evs (let '(r, w) := startTurnRequest h w in ((fun id => {| g_id := id; g_body := h; g_epoch := epoch (rec w) |}) <$> r, w)).
Proof.
  intros H. unfold startTurnRequest. set (reuse := match parkedRetry (rec w) with Some p => _ | None => None end).
  assert (Hre : forall id, reuse = Some id -> js_wf id).
  { intros id. unfold reuse. destruct (parkedRetry (rec w)) as [p|] eqn:E; [|done]. destruct (_ && _); [|done]. intros [= <-]. by apply (fo_parked _ _ H). }
  assert (Hw : exists id w1, (match reuse with Some id => (id, w) | None => mint w end) = (id, w1) /\ js_wf id /\ follows evs w1).
  { destruct reuse as [id|]; [exists id, w; split_and!; [done|by apply Hre|done]|]. exists (uuid (minted w)), (mint w).2. split_and!; [done|apply Huuid|by apply mint_follows]. }
  destruct Hw as (id & w1 & -> & Hid & H1). set (w2 := if bool_decide _ then _ else w1).
  assert (H2 : follows evs w2). { unfold w2. case_bool_decide; [|done]. by apply set_rec_follows. }
  pose proof (started_recorded evs w2 id None (fun x => set_turn (Some {| t_requestId := id; t_epoch := epoch x; t_bodyHash := h |}) x) H2 Hid (Forall_nil_2 _)) as Hs.
  destruct (append _ w2) as [ok w'].
  destruct Hs as (evs' & Hpre & Hs). { intros x. split_and!; [done|done|]. intros y ->. cbn. rewrite bool_decide_true by done. by split. }
  destruct ok; cbn.
  - destruct Hs as [Hf Hin]. exists evs'. split_and!; [done|done|]. intros g [= <-]. by exists None.
  - exists evs'. split_and!; [done|done|]. by intros g.
Qed.
Lemma do_op_follows evs w op : follows evs w -> op_ok op -> goes_on evs (do_op op w).
Proof.
  intros H Hop. unfold op_ok in Hop. destruct op as [parent spawned|h| | |id|id|id e| |c|c status|child last]; cbn [do_op op_texts] in *.
  - destruct (fo_ledger _ _ H) as (f & Hl & Hf). destruct (restart_follows evs w f parent spawned Hl Hf (fo_ok _ _ H) (fo_empty _ _ H) Hop) as (evs' & H1 & H2 & _). by exists evs'.
  - by apply start_turn_follows.
  - apply goes_on_same. apply set_rec_follows; [done|done|by split|]. cbn. intros t. by apply (follows_turn evs).
  - apply goes_on_same. by apply set_rec_follows.
  - destruct id as [id|]; [|by apply goes_on_same]. by apply goes_on_append.
  - destruct id as [id|]; [|by apply goes_on_same]. by apply goes_on_append.
  - destruct id as [id|]; [|by apply goes_on_same]. cbn. destruct e as [|[]|]; by apply goes_on_append.
  - unfold beginCompaction. cbn. apply (goes_on_append evs (mint w).2); [by apply mint_follows|]. constructor; [apply Huuid|by constructor].
  - unfold startCompactionRequest. cbn [mint]. pose proof (started_recorded evs (mint w).2 (uuid (minted w)) (Some c) (fun x => x) (mint_follows _ _ H) (Huuid _) Hop) as Hs.
    cbn [mint snd] in Hs. destruct (append _ _) as [ok w']. destruct Hs as (evs' & Hpre & Hs). { intros x. split_and!; [done|done|]. intros y ->. by split. }
    destruct ok; cbn.
    + destruct Hs as [Hf Hin]. exists evs'. split_and!; [done|by destruct w'|]. intros g [= <-]. by exists (Some c).
    + exists evs'. split_and!; [done|done|]. by intros g.
  - unfold finishCompaction. destruct (disabled (rec w)); [by apply goes_on_same|]. destruct (negb _); [by apply goes_on_same|]. by apply goes_on_append.
  - destruct last as [r|]; [|by apply goes_on_same]. apply goes_on_append; [done|]. apply list.Forall_cons in Hop as [Hc Hr]. constructor; [done|by constructor].
Qed.
Lemma do_ops_follow ops : forall evs w, follows evs w -> Forall op_ok ops ->
  exists evs', evs `prefix_of` evs' /\ follows evs' (do_ops ops w).2 /\ Forall (in_ledger evs') (do_ops ops w).1.
Proof.
  induction ops as [|op ops IH]; intros evs w H Hok; [by exists evs|]. apply list.Forall_cons in Hok as [Hop Hok]. cbn [do_ops].
  destruct (do_op_follows evs w op H Hop) as (evs1 & Hp1 & H1 & Hg). destruct (do_op op w) as [g w1]. cbn [fst snd] in *.
  destruct (IH evs1 w1 H1 Hok) as (evs2 & Hp2 & H2 & Hgs). destruct (do_ops ops w1) as [gs w2]. cbn [fst snd] in *.
  exists evs2. split_and!; [by etrans|done|]. apply Forall_app_2; [|done]. destruct g as [g|]; [|constructor]. constructor; [|constructor].
  destruct (Hg g eq_refl) as [c Hc]. exists c. destruct Hp2 as [k ->]. apply elem_of_app. by left.
Qed.
(** A recorder over a new ledger. *)
Definition first_world (fs : list append_fate) : rec_world := {| rec := fresh_recorder; ledger := Some None; minted := 0; fates := fs |}.

(** C34. In every run of a recorder over a ledger, whatever appends are refused or cut short at any byte, and however often its process is
    restarted: what a reader finds in the ledger is what the recorder knows — the last turn, the last finished request, the compactions that are
    open and how many were completed — and every request id that was given out has been recorded there as started. *)
Theorem recorder_follows_ledger (parent spawned : option jsstr) (ops : list rec_op) (fs : list append_fate)
    (Hops : Forall op_ok (PRestart parent spawned :: ops)) :
  let '(given, w) := do_ops (PRestart parent spawned :: ops) (first_world fs) in
  exists f evs, ledger w = Some f /\ replaySync unbounded parseSemanticEdgeLine false f = inl evs /\ knows_same (rec w) (knowledge evs) /\
    Forall (in_ledger evs) given.
Proof.
  apply list.Forall_cons in Hops as [Hop Hops]. cbn [do_ops do_op].
  destruct (restart_follows [] (first_world fs) None parent spawned eq_refl eq_refl (Forall_nil_2 _) (or_introl eq_refl) Hop) as (evs0 & H0 & _).
  destruct (do_ops_follow ops evs0 _ H0 Hops) as (evs & _ & H & Hg). destruct (do_ops ops _) as [given w]. cbn [fst snd] in *.
  destruct (fo_ledger _ _ H) as (f & Hl & Hf). exists f, evs. split_and!; [done|by apply ledger_read; [|apply H]|apply H|done].
Qed.
End recorder.

(** ** Ids used again *)

Section reuse.
Context (uuid : nat -> jsstr) (sessionId : jsstr) (Hinj : forall a b, uuid a = uuid b -> a = b).
(** An id with a known body that may be used again was given out with it. *)
Definition was_given (given : list given_id) (t : option turn) : Prop :=
  forall p h, t = Some p -> t_bodyHash p = Some h -> {| g_id := t_requestId p; g_body := Some h; g_epoch := t_epoch p |} ∈ given.
Record accounted (given : list given_id) (w : rec_world) : Prop := {
  ac_last : was_given given (lastTurn (rec w));
  ac_parked : was_given given (parkedRetry (rec w));
  ac_minted : Forall (fun g => exists k, (k < minted w)%nat /\ g_id g = uuid k) given;
  ac_same i j gi gj : given !! i = Some gi -> given !! j = Some gj -> i <> j -> g_id gi = g_id gj -> gi = gj /\ is_Some (g_body gi) }.
Lemma replay_was_given given r e : was_given given (lastTurn r) -> was_given given (lastTurn (replay sessionId r e)).
Proof. destruct e as [id parent spawned|id s [c|]|id|id|c s|c status|s child id]; cbn; try done; case_bool_decide; try done. intros _ p h. cbn. by intros [= <-]. Qed.
Lemma append_cases e w : minted (append sessionId e w).2 = minted w /\
  (rec (append sessionId e w).2 = replay sessionId (rec w) e \/ rec (append sessionId e w).2 = rec w \/ rec (append sessionId e w).2 = set_disabled (rec w)).
Proof.
  unfold append. destruct (disabled (rec w)); [by eauto|]. destruct (ledger w); [|by cbn; eauto]. destruct (default _ _); [|by cbn; eauto].
  destruct (appendSync _ _ _ _ _ _) as [[|] ?]; cbn; eauto.
Qed.
Lemma append_epoch e w : match e with RequestStarted _ _ _ => epoch (rec (append sessionId e w).2) = epoch (rec w) | _ => True end.
Proof.
  destruct (append_cases e w) as [_ H]. destruct e; try done. destruct H as [H|[H|H]]; rewrite H; [|done..].
  destruct compaction_id; cbn; [done|by case_bool_decide].
Qed.
Lemma replay_keeps_parked r e : parkedRetry (replay sessionId r e) = parkedRetry r.
Proof. destruct e as [id parent spawned|id s [c|]|id|id|c s|c status|s child id]; cbn; try done; by case_bool_decide. Qed.
Lemma accounted_append given e w : accounted given w -> accounted given (append sessionId e w).2.
Proof.
  intros [H1 H2 H3 H4]. destruct (append_cases e w) as [Hm [H|[H|H]]]; split; rewrite ?Hm, ?H; try done; [by apply replay_was_given|by rewrite replay_keeps_parked].
Qed.
Lemma accounted_rec given w r : accounted given w -> was_given given (lastTurn r) -> was_given given (parkedRetry r) -> accounted given (set_rec r w).
Proof. intros [H1 H2 H3 H4] Hl Hp. by split. Qed.
Lemma accounted_mint given w : accounted given w -> accounted given (mint uuid w).2.
Proof.
  intros [H1 H2 H3 H4]. split; cbn; try done. eapply Forall_impl; [exact H3|]. intros g (k & Hk & E). exists k. split; [lia|done].
Qed.
Lemma was_given_more given g t : was_given given t -> was_given (given ++ [g]) t.
Proof. intros H p h Hp Hh. apply elem_of_app. left. by apply H. Qed.
(** A new id, or one that was given out with the same body in the same epoch. *)
Lemma accounted_give given w g : accounted given w -> (exists k, (k < minted w)%nat /\ g_id g = uuid k) ->
  (g_id g ∉ g_id <$> given \/ g ∈ given /\ is_Some (g_body g)) -> accounted (given ++ [g]) w.
Proof.
  intros [H1 H2 H3 H4] Hk Hg. split; [by apply was_given_more|by apply was_given_more|apply Forall_app_2; [done|by apply Forall_singleton]|].
  assert (Hold : forall i gi, given !! i = Some gi -> g_id gi = g_id g -> gi = g /\ is_Some (g_body g)).
  { intros i gi Hi E. destruct Hg as [Hno|[Hin Hb]].
    - destruct Hno. rewrite <- E. apply list_elem_of_fmap_2. by eapply list_elem_of_lookup_2.
    - split; [|done]. apply list_elem_of_lookup in Hin as [j Hj]. destruct (decide (i = j)) as [->|Hne]; [congruence|]. by apply (H4 i j gi g). }
  intros i j gi gj Hi Hj Hne E. apply lookup_app_Some in Hi as [Hi|[Hli Hi]], Hj as [Hj|[Hlj Hj]].
  - by apply (H4 i j).
  - assert (gj = g) as -> by (destruct (j - length given)%nat; cbn in Hj; by simplify_eq). destruct (Hold i gi Hi E) as [-> ?]. done.
  - assert (gi = g) as -> by (destruct (i - length given)%nat; cbn in Hi; by simplify_eq). destruct (Hold j gj Hj (eq_sym E)) as [-> ?]. done.
  - destruct (i - length given)%nat eqn:Ei; [|done]. destruct (j - length given)%nat eqn:Ej; [|done]. lia.
Qed.
Lemma minted_fresh given w : accounted given w -> uuid (minted w) ∉ g_id <$> given.
Proof.
  intros [_ _ H3 _] (g & E & Hg)%list_elem_of_fmap. rewrite list.Forall_forall in H3. destruct (H3 g Hg) as (k & Hk & E'). rewrite E' in E. apply Hinj in E. lia.
Qed.
Definition given_by (given : list given_id) (r : option given_id * rec_world) : Prop := accounted (given ++ option_list r.1) r.2.
Lemma given_nothing given w : accounted given w -> given_by given (None, w).
Proof. unfold given_by. cbn. by rewrite app_nil_r. Qed.
Lemma start_turn_given given w h : accounted given w -> given_by given (do_op uuid sessionId (PStart h) w).
Proof.
  intros H. cbn [do_op]. unfold startTurnRequest. set (reuse := match parkedRetry (rec w) with Some p => _ | None => None end).
  assert (Hw : exists id w1, (match reuse with Some id => (id, w) | None => mint uuid w end) = (id, w1) /\ accounted given w1 /\ epoch (rec w1) = epoch (rec w) /\
    parkedRetry (rec w1) = parkedRetry (rec w) /\ (exists k, (k < minted w1)%nat /\ id = uuid k) /\
    (id ∉ g_id <$> given \/ {| g_id := id; g_body := h; g_epoch := epoch (rec w) |} ∈ given /\ is_Some h)).
  { destruct reuse as [id|] eqn:Er.
    - unfold reuse in Er. destruct (parkedRetry (rec w)) as [p|] eqn:Ep; [|done]. destruct (_ && _) eqn:Eb; [|done]. injection Er as <-.
      apply andb_true_iff in Eb as [Eb E3]. apply andb_true_iff in Eb as [E1 E2]. apply bool_decide_eq_true in E1, E2, E3. destruct E2 as [b Hb].
      assert (Hin : {| g_id := t_requestId p; g_body := h; g_epoch := epoch (rec w) |} ∈ given).
      { rewrite <- E1, <- E3, Hb. by apply (ac_parked _ _ H). }
      exists (t_requestId p), w. split_and!; try done.
      + pose proof (ac_minted _ _ H) as Hm. rewrite list.Forall_forall in Hm. exact (Hm _ Hin).
      + right. split; [done|]. rewrite <- E3. by exists b.
    - exists (uuid (minted w)), (mint uuid w).2. split_and!; try done; [by apply accounted_mint| |left; by apply minted_fresh]. exists (minted w). split; [cbn; lia|done]. }
  destruct Hw as (id & w1 & -> & H1 & He1 & Hp1 & Hid & Hgiven). set (w2 := if bool_decide _ then _ else w1).
  assert (H2 : accounted given w2 /\ minted w2 = minted w1 /\ epoch (rec w2) = epoch (rec w1)).
  { unfold w2. case_bool_decide; [|done]. split_and!; [|done|done]. by apply accounted_rec; [|apply H1|]. }
  destruct H2 as (H2 & Hm2 & He2). pose proof (accounted_append given (RequestStarted id sessionId None) w2 H2) as H3.
  pose proof (append_epoch (RequestStarted id sessionId None) w2) as He3. pose proof (append_cases (RequestStarted id sessionId None) w2) as [Hm3 _].
  destruct (append sessionId _ w2) as [[|] w']; cbn [fst snd negb] in *; [|by apply given_nothing]. unfold given_by. cbn [fst snd fmap option_fmap option_map option_list epoch set_rec set_turn].
  set (g := {| g_id := id; g_body := h; g_epoch := epoch (rec w') |}).
  assert (Hg : g = {| g_id := id; g_body := h; g_epoch := epoch (rec w) |}) by (unfold g; congruence).
  assert (H4 : accounted (given ++ [g]) w').
  { apply accounted_give; [done| |].
    - destruct Hid as (k & Hk & ->). exists k. split; [cbn in Hm3; lia|done].
    - rewrite Hg. by destruct Hgiven as [?|[? ?]]; [left|right]. }
  apply accounted_rec; [done| |apply H4]. intros p b [= <-]. cbn. intros ->. apply elem_of_app. right. by left.
Qed.
Lemma do_op_given given w op : accounted given w -> given_by given (do_op uuid sessionId op w).
Proof.
  intros H. destruct op as [parent spawned|h| | |id|id|id e| |c|c status|child last]; [|by apply start_turn_given|..]; cbn [do_op].
  - apply given_nothing. unfold new_recorder.
    assert (H0 : accounted given (set_rec fresh_recorder w)) by by apply accounted_rec.
    destruct (match ledger _ with Some f => _ | None => _ end) as [existing|]; [|by apply accounted_rec]. destruct (existsb _ _); [|by apply accounted_append].
    apply accounted_rec; [done| |].
    + assert (Hf : forall r, was_given given (lastTurn r) -> was_given given (lastTurn (foldl (replay sessionId) r existing))); [|by apply Hf].
      induction existing as [|e es IH]; intros r Hr; [done|]. apply IH. by apply replay_was_given.
    + assert (Hf : forall r, was_given given (parkedRetry r) -> was_given given (parkedRetry (foldl (replay sessionId) r existing))); [|by apply Hf].
      induction existing as [|e es IH]; intros r Hr; [done|]. apply IH. by rewrite replay_keeps_parked.
  - apply given_nothing. apply accounted_rec; [done|apply H|apply H].
  - apply given_nothing. apply accounted_rec; [done|apply H|done].
  - apply given_nothing. destruct id; [by apply accounted_append|done].
  - apply given_nothing. destruct id; [by apply accounted_append|done].
  - apply given_nothing. destruct id; [|done]. destruct e as [|[]|]; by apply accounted_append.
  - apply given_nothing. unfold beginCompaction. cbn. by apply (accounted_append given _ (mint uuid w).2), accounted_mint.
  - unfold startCompactionRequest. cbn [mint]. pose proof (accounted_append given (RequestStarted (uuid (minted w)) sessionId (Some c)) _ (accounted_mint _ _ H)) as Ha.
    pose proof (append_cases (RequestStarted (uuid (minted w)) sessionId (Some c)) (mint uuid w).2) as [Hm _]. cbn [mint snd] in Ha, Hm.
    destruct (append sessionId _ _) as [[|] w']; [|by apply given_nothing]. cbn [fst snd] in *. unfold given_by. cbn [fst snd fmap option_fmap option_map option_list].
    apply accounted_give; [done| |left; by apply minted_fresh]. exists (minted w). split; [cbn in Hm; lia|done].
  - apply given_nothing. unfold finishCompaction. destruct (disabled _); [done|]. destruct (negb _); [done|]. by apply accounted_append.
  - apply given_nothing. destruct last; [by apply accounted_append|done].
Qed.
Lemma do_ops_given ops : forall given w, accounted given w -> accounted (given ++ (do_ops uuid sessionId ops w).1) (do_ops uuid sessionId ops w).2.
Proof.
  induction ops as [|op ops IH]; intros given w H; [by rewrite app_nil_r|]. cbn [do_ops]. pose proof (do_op_given given w op H) as Hg. unfold given_by in Hg.
  destruct (do_op uuid sessionId op w) as [g w1]. cbn [fst snd] in Hg. specialize (IH _ _ Hg). destruct (do_ops uuid sessionId ops w1) as [gs w2]. cbn [fst snd] in *.
  by rewrite (assoc_L app).
Qed.

(** An id that is given out twice — a request and its retry — was given out for the same known body both times, with no compaction completed in
    between, whatever happens to the ledger and to the process: under one idempotency key the provider never gets two different
    requests. *)
Theorem retry_same_body (ops : list rec_op) (fs : list append_fate) (i j : nat) (gi gj : given_id)
    (Hi : (do_ops uuid sessionId ops (first_world fs)).1 !! i = Some gi) (Hj : (do_ops uuid sessionId ops (first_world fs)).1 !! j = Some gj)
    (Hij : i <> j) (Hid : g_id gi = g_id gj) : is_Some (g_body gi) /\ g_body gi = g_body gj /\ g_epoch gi = g_epoch gj.
Proof.
  assert (H0 : accounted [] (first_world fs)) by (split; try done; by intros ?).
  pose proof (do_ops_given ops [] (first_world fs) H0) as H. cbn [app] in H. by destruct (ac_same _ _ H i j gi gj Hi Hj Hij Hid) as [-> ?].
Qed.
End reuse.

(** ** A recorder at work *)

Definition edge_uuid (n : nat) : jsstr := repeat 97%N n.
Lemma edge_uuid_wf n : js_wf (edge_uuid n).
Proof. unfold edge_uuid. induction n; cbn; constructor; [lia|done]. Qed.
Lemma edge_uuid_inj a b : edge_uuid a = edge_uuid b -> a = b.
Proof. intros H. apply (f_equal length) in H. unfold edge_uuid in H. by rewrite !repeat_length in H. Qed.
(** A request fails and is retried; the record of a third start is cut short, and the process starts again. *)
Definition demo_rec_ops : list rec_op :=
  [PStart (Some (js "h")); PFail (Some []); PPrepareRetry; PStart (Some (js "h")); PFinish (Some []); PStart (Some (js "i")); PRestart None None; PStart (Some (js "i"))].
Definition demo_fates : list append_fate := [Written 1000; Written 1000; Written 1000; Written 1000; Written 1000; Written 20].
Lemma recorder_follows_ledger_witness :
  Forall op_ok (PRestart None None :: demo_rec_ops) /\
  let '(given, w) := do_ops edge_uuid (js "s") (PRestart None None :: demo_rec_ops) (first_world demo_fates) in
  (g_id <$> given) = [edge_uuid 0; edge_uuid 0; edge_uuid 2] /\
  exists f evs, ledger w = Some f /\ replaySync unbounded parseSemanticEdgeLine false f = inl evs /\ length evs = 6%nat /\ Forall (in_ledger (js "s") evs) given.
Proof.
  assert (H : Forall op_ok (PRestart None None :: demo_rec_ops)).
  { repeat (apply list.Forall_cons; split); try apply Forall_nil_2; unfold op_ok, op_texts; cbn; try apply Forall_nil_2; repeat constructor. }
  split; [exact H|].
  pose proof (recorder_follows_ledger edge_uuid (js "s") edge_uuid_wf ltac:(by apply js_wf_check) None None demo_rec_ops demo_fates H) as Hr.
  assert (Hc : (fun r => (g_id <$> r.1, match ledger r.2 with Some f => match replaySync unbounded parseSemanticEdgeLine false f with inl evs => length evs | inr _ => 0%nat end | None => 0%nat end))
    (do_ops edge_uuid (js "s") (PRestart None None :: demo_rec_ops) (first_world demo_fates)) = ([edge_uuid 0; edge_uuid 0; edge_uuid 2], 6%nat)) by (vm_compute; reflexivity).
  destruct (do_ops edge_uuid _ _ _) as [given w]. cbn [fst snd] in Hc. injection Hc as Hg Hn. split; [exact Hg|]. destruct Hr as (f & evs & Hl & Hf & _ & Hin).
  exists f, evs. rewrite Hl, Hf in Hn. by split_and!.
Defined.
Lemma retry_same_body_witness :
  let given := (do_ops edge_uuid (js "s") demo_rec_ops (first_world [])).1 in
  exists gi gj, given !! 0%nat = Some gi /\ given !! 1%nat = Some gj /\ g_id gi = g_id gj /\ g_body gi = Some (js "h") /\ g_body gi = g_body gj.
Proof.
  cbv zeta. set (given := (do_ops edge_uuid (js "s") demo_rec_ops (first_world [])).1).
  set (g := {| g_id := edge_uuid 0; g_body := Some (js "h"); g_epoch := 0 |}).
  assert (H0 : given !! 0%nat = Some g) by (vm_compute; reflexivity). assert (H1 : given !! 1%nat = Some g) by (vm_compute; reflexivity).
  exists g, g. split_and!; [exact H0|exact H1|done|done|].
  exact (proj1 (proj2 (retry_same_body edge_uuid (js "s") edge_uuid_inj demo_rec_ops [] 0 1 g g H0 H1 ltac:(done) eq_refl))).
Defined.
