(* ===== verification/Autonomous.v ===== *)
(** * Autonomous mode (core/autonomous.ts)

    Without a user, a run is continued by messages of the program's own, within limits of continuations, turns, tokens and time.
    Quality gates, commands given by the user, decide whether the work is done: a gate that fails is reported, and is not run
    again while the files are as they were.

    [continue_spec] says that a continuation is made within the limits and counted, [gates_outcome] what the gates tell of the
    commands that were run, [gate_output_collected] what is kept of their output. *)

(* Source aliases:
   AU = src/packages/coding-agent/src/core/autonomous.ts *)

From Stdlib Require Import QArith.
From S2P Require Import Prelude JsString JsNumber JsMap Messages SummaryText StateError CronSchedule.
Local Open Scope Z_scope.

(** ** Configuration *)

(** AU 26-30 AgentAutonomousGateConfig. *)
Record AgentAutonomousGateConfig := { cg_commands : option (list jsstr); cg_maxRetries : option num; cg_timeoutMs : option num }.
(** AU 9-24 AgentAutonomousConfig. *)
Record AgentAutonomousConfig := {
  c_enabled : option bool; c_maxContinuations : option num; c_maxTurns : option num; c_maxTokens : option num; c_timeoutMs : option num;
  c_continuationPrompt : option jsstr; c_gates : option AgentAutonomousGateConfig; c_subagentKeepAliveMs : option num }.
(** AU 32-37 AgentAutonomousGateFailure. *)
Record AgentAutonomousGateFailure := { gf_command : jsstr; attempt : Z; exitText : jsstr; output : jsstr }.
(** AU 106-106 AutonomousRuntimeState. *)
Record Limits := { maxContinuations : num; maxTurns : num; maxTokens : num; timeoutMs : num }.
(** AU 143-146 AutonomousLimitDefaults. *)
Record LimitDefaults := { d_maxContinuations : option num; d_maxTurns : option num; d_maxTokens : option num; d_timeoutMs : option num }.
(** AU 108-108 AutonomousRuntimeState. *)
Record Gates := { commands : list jsstr; maxRetries : Z; gateTimeoutMs : Z }.
(** AU 130-134 GitWorktreeSnapshot. *)
Record GitWorktreeSnapshot := { sn_status : jsstr; sn_diff : jsstr; untrackedHash : jsstr }.
#[export] Instance GitWorktreeSnapshot_eq_dec : EqDecision GitWorktreeSnapshot.
Proof. solve_decision. Defined.
(** AU 101-115 AutonomousRuntimeState. *)
Record AutonomousRuntimeState := {
  enabled : bool; continuationsUsed : Z; turnsUsed : Z; tokensUsed : Z; startedAt : option Z; limits : Limits; continuationPrompt : jsstr; gates : Gates;
  gateAttempts : list (jsstr * Z); lastGateFailure : option AgentAutonomousGateFailure; lastGateFailureSnapshot : option GitWorktreeSnapshot;
  subagentKeepAliveMs : Z }.
(** AU 117-117 AutonomousLimitReason. *)
Inductive AutonomousLimitReason := RMaxContinuations | RMaxTurns | RMaxTokens | RTimeoutMs.
(** AU 118-118 AutonomousGateResult. *)
Inductive AutonomousGateResult := Passed | Failed | RetryExhausted.
(** AU 125-128 AutonomousDecision. *)
Inductive AutonomousReason := MissingTerminalEvidence | GateFailed | NotNeeded | LimitReached.
(** AU 125-128 AutonomousDecision. *)
Record AutonomousDecision := { shouldContinue : bool; reason : AutonomousReason }.

(** AU 56-63 DEFAULT_AUTONOMOUS_LIMITS. *)
Definition DEFAULT_AUTONOMOUS_LIMITS : Limits :=
  {| maxContinuations := num_Z 3; maxTurns := num_Z 12; maxTokens := num_Z 80000; timeoutMs := num_Z (30 * 60 * 1000) |}.
(** AU 65-69 DEFAULT_AUTONOMOUS_GATES. *)
Definition DEFAULT_AUTONOMOUS_GATES : Gates := {| commands := []; maxRetries := 3; gateTimeoutMs := 5 * 60 * 1000 |}.
(** AU 79-79 DEFAULT_AUTONOMOUS_SUBAGENT_KEEP_ALIVE_MS. *)
Definition DEFAULT_AUTONOMOUS_SUBAGENT_KEEP_ALIVE_MS : Z := 25 * 60 * 1000.
(** AU 85-85 MAX_SUBAGENT_KEEP_ALIVE_MS. *)
Definition MAX_SUBAGENT_KEEP_ALIVE_MS : Z := 2147483647.
(** AU 53-54 DEFAULT_AUTONOMOUS_CONTINUATION_PROMPT. *)
Definition DEFAULT_AUTONOMOUS_CONTINUATION_PROMPT : jsstr := js
  "No human input is available in autonomous mode. Continue working until the host evaluator, verifier, or configured autonomous limits stop the run. If you were asking the user a question, make a reasonable assumption and verify it. If you believe you are blocked, prove it with host-observable evidence, preserve that evidence, and keep looking for safe progress while budget remains. Do not end the session yourself; the verifier/evaluator decides completion when configured gates pass.".
(** AU 92-96 isUnlimitedAutonomousLimit. *)
Definition isUnlimitedAutonomousLimit (value : num) : bool := num_le (num_Z (2 ^ 53 - 1)) value.

(** AU 752-757 normalizeLimit. The fallback is a number of whatever kind the caller keeps. *)
Definition normalizeLimit {A} (of_Z : Z -> A) (value : option num) (fallback : A) : A :=
  match value with
  | Some (Fin q) => if Qle_bool q 0 then fallback else of_Z (Qfloor q)
  | _ => fallback
  end.
(** AU 191-196 normalizeSubagentKeepAliveMs. *)
Definition normalizeSubagentKeepAliveMs (value : option num) : Z :=
  match value with
  | Some (Fin q) => if Qeq_bool q 0 then 0 else Z.min (normalizeLimit (fun z => z) value DEFAULT_AUTONOMOUS_SUBAGENT_KEEP_ALIVE_MS) MAX_SUBAGENT_KEEP_ALIVE_MS
  | _ => Z.min (normalizeLimit (fun z => z) value DEFAULT_AUTONOMOUS_SUBAGENT_KEEP_ALIVE_MS) MAX_SUBAGENT_KEEP_ALIVE_MS
  end.
(** A prompt that is not only white space. *)
Definition given_prompt (p : option jsstr) : option jsstr := match trim <$> p with Some (u :: t) => Some (u :: t) | _ => None end.
Definition gate_settings (g : option AgentAutonomousGateConfig) (base : Gates) : Gates :=
  {| commands := default (commands base) (g ≫= cg_commands); maxRetries := normalizeLimit (fun z => z) (g ≫= cg_maxRetries) (maxRetries base);
     gateTimeoutMs := normalizeLimit (fun z => z) (g ≫= cg_timeoutMs) (gateTimeoutMs base) |}.
Definition limit_settings (c : option AgentAutonomousConfig) (base : Limits) : Limits :=
  {| maxContinuations := normalizeLimit num_Z (c ≫= c_maxContinuations) (maxContinuations base); maxTurns := normalizeLimit num_Z (c ≫= c_maxTurns) (maxTurns base);
     maxTokens := normalizeLimit num_Z (c ≫= c_maxTokens) (maxTokens base); timeoutMs := normalizeLimit num_Z (c ≫= c_timeoutMs) (timeoutMs base) |}.
(** AU 148-185 createAutonomousRuntimeState. [now] is read when the mode is on. *)
Definition createAutonomousRuntimeState (config : option AgentAutonomousConfig) (defaultLimits : option LimitDefaults) (now : Z) : AutonomousRuntimeState :=
  let defaults := {| maxContinuations := default (maxContinuations DEFAULT_AUTONOMOUS_LIMITS) (defaultLimits ≫= d_maxContinuations);
                     maxTurns := default (maxTurns DEFAULT_AUTONOMOUS_LIMITS) (defaultLimits ≫= d_maxTurns);
                     maxTokens := default (maxTokens DEFAULT_AUTONOMOUS_LIMITS) (defaultLimits ≫= d_maxTokens);
                     timeoutMs := default (timeoutMs DEFAULT_AUTONOMOUS_LIMITS) (defaultLimits ≫= d_timeoutMs) |} in
  let on := bool_decide (config ≫= c_enabled = Some true) in
  {| enabled := on; continuationsUsed := 0; turnsUsed := 0; tokensUsed := 0; startedAt := if on then Some now else None; limits := limit_settings config defaults;
     continuationPrompt := default DEFAULT_AUTONOMOUS_CONTINUATION_PROMPT (given_prompt (config ≫= c_continuationPrompt));
     gates := gate_settings (config ≫= c_gates) DEFAULT_AUTONOMOUS_GATES; gateAttempts := []; lastGateFailure := None; lastGateFailureSnapshot := None;
     subagentKeepAliveMs := normalizeSubagentKeepAliveMs (config ≫= c_subagentKeepAliveMs) |}.

Definition with_counts (c t k : Z) (s : AutonomousRuntimeState) : AutonomousRuntimeState :=
  {| enabled := enabled s; continuationsUsed := c; turnsUsed := t; tokensUsed := k; startedAt := startedAt s; limits := limits s; continuationPrompt := continuationPrompt s;
     gates := gates s; gateAttempts := gateAttempts s; lastGateFailure := lastGateFailure s; lastGateFailureSnapshot := lastGateFailureSnapshot s;
     subagentKeepAliveMs := subagentKeepAliveMs s |}.
Definition with_gates (a : list (jsstr * Z)) (f : option AgentAutonomousGateFailure) (sn : option GitWorktreeSnapshot) (s : AutonomousRuntimeState) : AutonomousRuntimeState :=
  {| enabled := enabled s; continuationsUsed := continuationsUsed s; turnsUsed := turnsUsed s; tokensUsed := tokensUsed s; startedAt := startedAt s; limits := limits s;
     continuationPrompt := continuationPrompt s; gates := gates s; gateAttempts := a; lastGateFailure := f; lastGateFailureSnapshot := sn;
     subagentKeepAliveMs := subagentKeepAliveMs s |}.
Definition with_mode (on : bool) (at_ : option Z) (s : AutonomousRuntimeState) : AutonomousRuntimeState :=
  {| enabled := on; continuationsUsed := continuationsUsed s; turnsUsed := turnsUsed s; tokensUsed := tokensUsed s; startedAt := at_; limits := limits s;
     continuationPrompt := continuationPrompt s; gates := gates s; gateAttempts := []; lastGateFailure := None; lastGateFailureSnapshot := None;
     subagentKeepAliveMs := subagentKeepAliveMs s |}.
(** AU 198-218 setAutonomousEnabled. *)
Definition setAutonomousEnabled (on : bool) (now : Z) (s : AutonomousRuntimeState) : AutonomousRuntimeState :=
  if on then with_mode true (Some now) (with_counts 0 0 0 s) else with_mode false None s.
(** AU 225-246 setAutonomousLimits. *)
Definition setAutonomousLimits (config : option AgentAutonomousConfig) (s : AutonomousRuntimeState) : AutonomousRuntimeState :=
  match config with
  | None => s
  | Some c =>
      {| enabled := enabled s; continuationsUsed := continuationsUsed s; turnsUsed := turnsUsed s; tokensUsed := tokensUsed s; startedAt := startedAt s;
         limits := limit_settings config (limits s); continuationPrompt := default (continuationPrompt s) (given_prompt (c_continuationPrompt c));
         gates := gate_settings (c_gates c) (gates s); gateAttempts := gateAttempts s; lastGateFailure := lastGateFailure s;
         lastGateFailureSnapshot := lastGateFailureSnapshot s;
         subagentKeepAliveMs := match c_subagentKeepAliveMs c with Some v => normalizeSubagentKeepAliveMs (Some v) | None => subagentKeepAliveMs s end |}
  end.
(** AU 278-286 autonomousTokenDelta. *)
Definition autonomousTokenDelta (usage : option Usage) : Z := match usage with Some u => input u + Messages.output u + cacheWrite u | None => 0 end.
(** AU 263-269 addAutonomousUsage. *)
Definition addAutonomousUsage (usage : option Usage) (s : AutonomousRuntimeState) : AutonomousRuntimeState :=
  if enabled s then with_counts (continuationsUsed s) (turnsUsed s + 1) (tokensUsed s + autonomousTokenDelta usage) s else s.
(** AU 271-276 addAutonomousContinuation. *)
Definition addAutonomousContinuation (s : AutonomousRuntimeState) : AutonomousRuntimeState :=
  if enabled s then with_counts (continuationsUsed s + 1) (turnsUsed s) (tokensUsed s) s else s.
(** AU 417-434 autonomousLimitReason. *)
Definition autonomousLimitReason (s : AutonomousRuntimeState) (now : Z) : option AutonomousLimitReason :=
  if num_le (maxContinuations (limits s)) (num_Z (continuationsUsed s)) then Some RMaxContinuations
  else if num_le (maxTurns (limits s)) (num_Z (turnsUsed s)) then Some RMaxTurns
  else if num_le (maxTokens (limits s)) (num_Z (tokensUsed s)) then Some RMaxTokens
  else match startedAt s with
       | Some t => if num_le (timeoutMs (limits s)) (num_Z (now - t)) then Some RTimeoutMs else None
       | None => None
       end.

(** ** Child processes *)

(** AU 98-98 MAX_GATE_OUTPUT_CHARS. *)
Definition MAX_GATE_OUTPUT_CHARS : Z := 6000.
(** AU 99-99 MAX_CHILD_PROCESS_OUTPUT_CHARS. *)
Definition MAX_CHILD_PROCESS_OUTPUT_CHARS : Z := 1024 * 1024.
(** What a process is started with, and what it does: its output chunk by chunk ([true] for standard output) and its end. *)
Record ProcessRequest := { p_command : jsstr; p_args : list jsstr; p_cwd : jsstr; p_shell : bool; p_timeoutMs : Z }.
Record ProcessEnd := { pe_status : option Z; pe_signal : option jsstr; pe_chunks : list (bool * jsstr); pe_error : option jsstr; pe_timedOut : bool }.
(** AU 635-643 ChildProcessResult. *)
Record ChildProcessResult := { r_status : option Z; r_signal : option jsstr; stdout : jsstr; stderr : jsstr; r_error : option jsstr; timedOut : bool; outputTruncated : bool }.

(** AU 711-717 runChildProcess. One chunk of a stream. *)
Definition take_chunk (maxOutputChars : Z) (kept chunk : jsstr) : jsstr * bool :=
  let remaining := maxOutputChars - Z.of_nat (length kept) in
  (if 0 <? remaining then kept ++ slice_to remaining chunk else kept, remaining <? Z.of_nat (length chunk)).
(** AU 711-724 runChildProcess. The chunks of both streams. *)
Definition take_chunks (maxOutputChars : Z) (chunks : list (bool * jsstr)) : jsstr * jsstr * bool :=
  foldl (fun acc c =>
    let '(out, err, truncated) := acc in
    let '(kept, over) := take_chunk maxOutputChars (if c.1 : bool then out else err) c.2 in
    (if c.1 : bool then kept else out, if c.1 : bool then err else kept, truncated || over)) ([], [], false) chunks.
(** AU 674-687 runChildProcess. The result of a process. *)
Definition process_result (maxOutputChars : Z) (e : ProcessEnd) : ChildProcessResult :=
  let '(out, err, truncated) := take_chunks maxOutputChars (pe_chunks e) in
  {| r_status := pe_status e; r_signal := pe_signal e; stdout := out; stderr := err; r_error := pe_error e; timedOut := pe_timedOut e; outputTruncated := truncated |}.
(** AU 735-743 formatProcessExit. *)
Definition formatProcessExit (r : ChildProcessResult) : jsstr :=
  if timedOut r then js "timed out"
  else match r_error r with
  | Some message => message
  | None =>
      match r_signal r with
      | Some (u :: s) => js "terminated by " ++ u :: s
      | _ => js "exited " ++ match r_status r with Some n => show_Z n | None => js "unknown" end
      end
  end.
(** AU 745-750 truncateGateOutput. *)
Definition truncateGateOutput (out : jsstr) (alreadyTruncated : bool) : jsstr :=
  if (Z.of_nat (length out) <=? MAX_GATE_OUTPUT_CHARS) && negb alreadyTruncated then out else slice_to MAX_GATE_OUTPUT_CHARS out ++ LF :: js "... [truncated]".
(** [[a, b].filter(Boolean).join("\n")]. *)
Definition both_outputs (r : ChildProcessResult) : jsstr :=
  match stdout r, stderr r with [], e => e | o, [] => o | o, e => o ++ LF :: e end.

(** ** Messages *)

(** [new Date(t).toISOString()] of an instant that is valid. *)
Definition pad (width : nat) (n : Z) : jsstr := let s := show_Z n in replicate (width - length s) 48%N ++ s.
Definition iso_text (t : Z) : jsstr :=
  let day := t / 86400000 in
  let ms := t mod 86400000 in
  let year := YearFromDay day in
  let '(month, date) := MonthAndDate day in
  (if (0 <=? year) && (year <=? 9999) then pad 4 year else if 0 <=? year then js "+" ++ pad 6 year else js "-" ++ pad 6 (- year))
  ++ js "-" ++ pad 2 (month + 1) ++ js "-" ++ pad 2 date ++ js "T" ++ pad 2 (ms / 3600000) ++ js ":" ++ pad 2 (ms / 60000 mod 60) ++ js ":"
  ++ pad 2 (ms / 1000 mod 60) ++ js "." ++ pad 3 (ms mod 1000) ++ js "Z".
Definition tick : jsstr := [96%N].
(** AU 513-524 buildAutonomousGateFailureContinuation. *)
Definition buildAutonomousGateFailureContinuation (f : AgentAutonomousGateFailure) (retries timestamp : Z) : jsstr :=
  js "[autonomous-continuation: gate-failed]" ++ [LF; LF] ++
  js "Autonomous quality gate failed (attempt " ++ show_Z (attempt f) ++ js "/" ++ show_Z retries ++ js "): " ++ tick ++ gf_command f ++ tick ++ js " " ++ exitText f ++ js "." ++ [LF] ++
  match output f with [] => [LF] | out => LF :: js "Output:" ++ LF :: out ++ [LF] end ++
  LF :: js "Continue working. Fix the failure, then produce terminal evidence. Timestamp: " ++ iso_text timestamp ++ js ".".
(** AU 526-532 buildGateFailureContinuation. *)
Definition buildGateFailureContinuation (s : AutonomousRuntimeState) (timestamp : Z) : option jsstr :=
  (fun f => buildAutonomousGateFailureContinuation f (maxRetries (gates s)) timestamp) <$> lastGateFailure s.
Definition text_message (text : jsstr) (timestamp : Z) : UserMessage := {| u_content := CParts [PText (mkText text)]; u_timestamp := timestamp |}.
Definition continuation_text (s : AutonomousRuntimeState) : jsstr := js "[autonomous-continuation]" ++ [LF; LF] ++ continuationPrompt s.
(** AU 323-336 createAutonomousContinuationMessage. *)
Definition createAutonomousContinuationMessage (s : AutonomousRuntimeState) (timestamp : Z) : UserMessage := text_message (continuation_text s) timestamp.
(** AU 343-361 createAutonomousGateFailureContinuationMessage. *)
Definition createAutonomousGateFailureContinuationMessage (s : AutonomousRuntimeState) (timestamp : Z) : option UserMessage :=
  (fun text => text_message text timestamp) <$> buildGateFailureContinuation s timestamp.
(** AU 368-388 createAutonomousSubagentKeepAliveMessage. The quotient is at most 2^31 / 60000, so that rounding it as a double does not matter. *)
Definition createAutonomousSubagentKeepAliveMessage (s : AutonomousRuntimeState) (timestamp : Z) : UserMessage :=
  let minutes := Z.max 1 ((subagentKeepAliveMs s + 30000) / 60000) in
  text_message (js "[autonomous-continuation: subagent-keep-alive]" ++ [LF; LF] ++
    js "Subagents have been running for at least " ++ show_Z minutes ++ js " minute" ++ (if minutes =? 1 then [] else js "s") ++
    js " without a reply or exit being delivered. Check their status (for example agent_observe, rlm.list_subagents, or process inspection) and cancel or unblock any that are hung; then continue working.")
    timestamp.

(** ** The world outside *)

(** What [lstat], [readlink] and reading say of a path: the target of a link, the numbers of what is no file, the contents, or an error. *)
Inductive PathState := Link (target : jsstr) | Other (text : jsstr) | Contents (bytes : list N) | PathError (message : jsstr).
(** Processes, paths and hashes, over a world [X] that also knows whether the signal is aborted. *)
Record Outside (X : Type) := {
  aborted : X -> bool; spawn : ProcessRequest -> X -> ProcessEnd * X; look_at : jsstr -> X -> PathState * X;
  sha256 : list N -> jsstr; resolve : jsstr -> jsstr -> jsstr }.
#[global] Arguments aborted {X}.
#[global] Arguments spawn {X}.
#[global] Arguments look_at {X}.
#[global] Arguments sha256 {X}.
#[global] Arguments resolve {X}.

Section autonomous.
Context {X : Type} (O : Outside X).

(** The only thing thrown is the abort of the signal. *)
Definition auto (A : Type) : Type := SE (X * AutonomousRuntimeState) unit A.
Definition throwIfAborted : auto unit := fun s => if aborted O s.1 then (inr tt, s) else (inl tt, s).
Definition outside {A} (f : X -> A * X) : auto A := fun s => let '(a, x) := f s.1 in (inl a, (x, s.2)).
Definition state : auto AutonomousRuntimeState := fun s => (inl s.2, s).
Definition change (f : AutonomousRuntimeState -> AutonomousRuntimeState) : auto unit := fun s => (inl tt, (s.1, f s.2)).

(** AU 645-733 runChildProcess. *)
Definition runChildProcess (r : ProcessRequest) (maxOutputChars : Z) : auto ChildProcessResult :=
  throwIfAborted ;; process_result maxOutputChars <$> outside (spawn O r).

(** AU 610-633 hashUntrackedPath. *)
Definition hashUntrackedPath (path : jsstr) : auto jsstr :=
  throwIfAborted ;;
  st ← outside (look_at O path);
  throwIfAborted ;;
  mret (match st with
        | Link target => js "symlink:" ++ target
        | Other text => js "other:" ++ text
        | Contents bytes => js "file:" ++ sha256 O bytes
        | PathError message => js "error:" ++ message
        end).
(** AU 589-595 untrackedPathsFromStatus. *)
Definition untrackedPathsFromStatus (st : jsstr) : list jsstr := sort_by str_leb (drop 3 <$> filter (fun e => starts_with (js "?? ") e = true) (split_on 0 st)).
(** AU 597-608 hashUntrackedFiles. *)
Definition hashUntrackedFiles (cwd st : jsstr) : auto jsstr :=
  parts ← each (fun path => throwIfAborted ;; h ← hashUntrackedPath (resolve O cwd path); mret (buffer_from path ++ [0%N] ++ buffer_from h ++ [0%N])) (untrackedPathsFromStatus st);
  throwIfAborted ;;
  mret (sha256 O (concat parts)).
(** AU 546-555 captureGitWorktreeSnapshot. *)
Definition pathspec : list jsstr := js <$>
  ["--"; "."; ":(exclude)verification"; ":(exclude)target"; ":(exclude).vf-prime-agent"; ":(exclude)Cargo.lock"; ":(exclude)submission.tar.gz"; ":(exclude)runner_args.log"]%string.
Definition git (cwd : jsstr) (args : list string) : ProcessRequest :=
  {| p_command := js "git"; p_args := (js <$> args) ++ pathspec; p_cwd := cwd; p_shell := false; p_timeoutMs := 10000 |}.
Definition whole_success (r : ChildProcessResult) : bool :=
  bool_decide (r_status r = Some 0) && bool_decide (r_error r = None) && negb (timedOut r) && negb (outputTruncated r).
(** AU 538-587 captureGitWorktreeSnapshot. *)
Definition captureGitWorktreeSnapshot (cwd : option jsstr) : auto (option GitWorktreeSnapshot) :=
  throwIfAborted ;;
  match cwd with
  | Some (u :: dir) =>
      let cwd := u :: dir in
      st ← runChildProcess (git cwd ["--no-optional-locks"; "status"; "--porcelain=v1"; "-z"; "-uall"; "--no-renames"]%string) MAX_CHILD_PROCESS_OUTPUT_CHARS;
      throwIfAborted ;;
      if negb (whole_success st) then mret None
      else
        df ← runChildProcess (git cwd ["--no-optional-locks"; "diff"; "--no-ext-diff"; "--binary"; "HEAD"]%string) MAX_CHILD_PROCESS_OUTPUT_CHARS;
        throwIfAborted ;;
        if negb (whole_success df) then mret None
        else h ← hashUntrackedFiles cwd (stdout st); mret (Some {| sn_status := stdout st; sn_diff := stdout df; untrackedHash := h |})
  | _ => mret None
  end.
(** AU 534-536 gitWorktreeSnapshotsEqual. *)
Definition gitWorktreeSnapshotsEqual (a b : option GitWorktreeSnapshot) : bool := bool_decide (is_Some a) && bool_decide (is_Some b) && bool_decide (a = b).

(** ** Gates *)

Definition attempts (s : AutonomousRuntimeState) (command : jsstr) : option Z := JsMap.get (gateAttempts s) command.
Definition verdict (s : AutonomousRuntimeState) (n : Z) : AutonomousGateResult := if maxRetries (gates s) <? n then RetryExhausted else Failed.
Definition unchanged_text : jsstr := js
  "The autonomous gate was not rerun because the workspace has not changed since this failure. Edit source files, tests, or a blocker artifact before attempting to finish again.".
(** AU 459-463 runAutonomousQualityGates. The gate that failed last, when the files are as they were then. *)
Definition unchanged_failure (command : jsstr) (current : option GitWorktreeSnapshot) (s : AutonomousRuntimeState) : option AgentAutonomousGateFailure :=
  match lastGateFailure s with
  | Some f => if jseqb (gf_command f) command && gitWorktreeSnapshotsEqual current (lastGateFailureSnapshot s) then Some f else None
  | None => None
  end.
(** AU 464-472 runAutonomousQualityGates. *)
Definition count_unchanged (command : jsstr) (f : AgentAutonomousGateFailure) (s : AutonomousRuntimeState) : AutonomousRuntimeState :=
  let n := default (attempt f) (attempts s command) + 1 in
  with_gates (JsMap.set (gateAttempts s) command n)
    (Some {| gf_command := gf_command f; attempt := n; exitText := js "not rerun: workspace unchanged since previous failed gate"; output := unchanged_text |}) (lastGateFailureSnapshot s) s.
Definition gate_passed (r : ChildProcessResult) : bool := bool_decide (r_status r = Some 0) && bool_decide (r_error r = None) && negb (timedOut r).
(** AU 486-491 runAutonomousQualityGates. *)
Definition count_success (command : jsstr) (s : AutonomousRuntimeState) : AutonomousRuntimeState :=
  let a := JsMap.set (gateAttempts s) command 0 in
  if bool_decide (gf_command <$> lastGateFailure s = Some command) then with_gates a None None s else with_gates a (lastGateFailure s) (lastGateFailureSnapshot s) s.
(** AU 493-505 runAutonomousQualityGates. *)
Definition count_failure (command : jsstr) (r : ChildProcessResult) (sn : option GitWorktreeSnapshot) (s : AutonomousRuntimeState) : AutonomousRuntimeState :=
  let n := default 0 (attempts s command) + 1 in
  with_gates (JsMap.set (gateAttempts s) command n)
    (Some {| gf_command := command; attempt := n; exitText := formatProcessExit r; output := truncateGateOutput (trim (both_outputs r)) (outputTruncated r) |}) sn s.
(** AU 456-510 runAutonomousQualityGates. The commands from here on. *)
Fixpoint run_gates (cwd : jsstr) (cs : list jsstr) : auto AutonomousGateResult :=
  match cs with
  | [] => change (fun s => with_gates (gateAttempts s) None None s) ;; mret Passed
  | command :: rest =>
      current_ ← captureGitWorktreeSnapshot (Some cwd);
      throwIfAborted ;;
      s ← state;
      match unchanged_failure command current_ s with
      | Some f =>
          change (count_unchanged command f) ;;
          mret (verdict s (default (attempt f) (attempts s command) + 1))
      | None =>
          r ← runChildProcess {| p_command := command; p_args := []; p_cwd := cwd; p_shell := true; p_timeoutMs := gateTimeoutMs (gates s) |} MAX_GATE_OUTPUT_CHARS;
          throwIfAborted ;;
          post ← captureGitWorktreeSnapshot (Some cwd);
          throwIfAborted ;;
          if gate_passed r then change (count_success command) ;; run_gates cwd rest
          else
            change (count_failure command r post) ;;
            mret (verdict s (default 0 (attempts s command) + 1))
      end
  end.
(** AU 447-511 runAutonomousQualityGates. *)
Definition runAutonomousQualityGates (cwd : option jsstr) : auto AutonomousGateResult :=
  throwIfAborted ;;
  match cwd with
  | Some (u :: dir) => s ← state; run_gates (u :: dir) (commands (gates s))
  | _ => mret Failed
  end.
(** AU 436-445 refreshAutonomousQualityGates. *)
Definition refreshAutonomousQualityGates (cwd : option jsstr) : auto (option AutonomousGateResult) :=
  throwIfAborted ;;
  s ← state;
  if negb (enabled s) || bool_decide (commands (gates s) = []) then mret None else Some <$> runAutonomousQualityGates cwd.

(** ** Continuing *)

(** AU 390-415 shouldAutonomouslyContinue. *)
Definition shouldAutonomouslyContinue (stop : StopReason) (cwd : option jsstr) (now : Z) : auto AutonomousDecision :=
  throwIfAborted ;;
  s ← state;
  if negb (enabled s) || bool_decide (stop = Error) || bool_decide (stop = Aborted) then mret {| shouldContinue := false; reason := NotNeeded |}
  else
    gateResult ← refreshAutonomousQualityGates cwd;
    throwIfAborted ;;
    s ← state;
    let limited := bool_decide (is_Some (autonomousLimitReason s now)) in
    mret (match gateResult with
          | Some Passed => {| shouldContinue := false; reason := NotNeeded |}
          | Some RetryExhausted => {| shouldContinue := false; reason := LimitReached |}
          | Some Failed => if limited then {| shouldContinue := false; reason := LimitReached |} else {| shouldContinue := true; reason := GateFailed |}
          | None => if limited then {| shouldContinue := false; reason := LimitReached |} else {| shouldContinue := true; reason := MissingTerminalEvidence |}
          end).
(** AU 288-315 nextAutonomousContinuation. *)
Definition nextAutonomousContinuation (stop : StopReason) (cwd : option jsstr) (now : Z) : auto (option UserMessage) :=
  throwIfAborted ;;
  s ← state;
  if negb (enabled s) then mret None
  else
    decision ← shouldAutonomouslyContinue stop cwd now;
    throwIfAborted ;;
    if negb (shouldContinue decision) then mret None
    else
      change (fun s => with_counts (continuationsUsed s + 1) (turnsUsed s) (tokensUsed s) s) ;;
      s ← state;
      mret (Some (text_message (match reason decision with
                                | GateFailed => default (continuation_text s) (buildGateFailureContinuation s now)
                                | _ => continuation_text s
                                end) now)).
End autonomous.

(** ** The output that is kept *)

Definition stream (b : bool) (chunks : list (bool * jsstr)) : jsstr := concat (snd <$> filter (fun c => c.1 = b) chunks).
Lemma stream_snoc b chunks c : stream b (chunks ++ [c]) = stream b chunks ++ (if decide (c.1 = b) then c.2 else []).
Proof.
  unfold stream. rewrite filter_app, fmap_app, concat_app. f_equal. rewrite filter_cons, filter_nil. destruct (decide _); cbn; [by rewrite app_nil_r|done].
Qed.
Lemma take_chunk_spec max whole chunk : 0 <= max ->
  take_chunk max (take (Z.to_nat max) whole) chunk =
  (take (Z.to_nat max) (whole ++ chunk), (max <? Z.of_nat (length (whole ++ chunk))) && (negb (max <? Z.of_nat (length whole)) || bool_decide (chunk <> []))).
Proof.
  intros Hm. unfold take_chunk. rewrite length_take, length_app. f_equal.
  - destruct (0 <? max - Z.of_nat (Z.to_nat max `min` length whole)) eqn:E; to_prop.
    + rewrite (take_ge whole) by lia. rewrite take_app, (take_ge whole) by lia. f_equal. unfold slice_to. destruct (_ <? 0) eqn:E2; to_prop; [lia|]. f_equal. lia.
    + rewrite take_app_le by lia. done.
  - destruct (max <? Z.of_nat (length whole)) eqn:E; to_prop; cbn [negb orb].
    + destruct chunk as [|u c]; cbn; [rewrite andb_false_r; apply Z.ltb_ge; lia|]. rewrite andb_true_r. apply eq_trans with true; [apply Z.ltb_lt; lia|symmetry; apply Z.ltb_lt; lia].
    + rewrite andb_true_r. destruct (max <? _) eqn:E2; to_prop; [apply Z.ltb_lt; lia|apply Z.ltb_ge; lia].
Qed.
Lemma truncated_more max (whole chunk : jsstr) o :
  (max <? Z.of_nat (length whole)) || o || ((max <? Z.of_nat (length (whole ++ chunk))) && (negb (max <? Z.of_nat (length whole)) || bool_decide (chunk <> []))) =
  (max <? Z.of_nat (length (whole ++ chunk))) || o.
Proof.
  rewrite length_app. destruct chunk as [|u c].
  - rewrite bool_decide_false by (intros H; by apply H). cbn [length]. rewrite Nat.add_0_r. by destruct (max <? _), o.
  - rewrite bool_decide_true by done. rewrite orb_true_r, andb_true_r. destruct (max <? Z.of_nat (length whole)) eqn:E; to_prop; cbn [orb].
    + rewrite (proj2 (Z.ltb_lt max (Z.of_nat (length whole + length (u :: c))))); [done|lia].
    + apply orb_comm.
Qed.
(** Of each of the two streams of a process the beginning is kept, up to the bound, however the stream is cut into chunks; and the output counts as
    truncated exactly if one of the streams was longer than that. *)
Theorem gate_output_collected (max : Z) (chunks : list (bool * jsstr)) (Hmax : 0 <= max) :
  take_chunks max chunks =
  (take (Z.to_nat max) (stream true chunks), take (Z.to_nat max) (stream false chunks),
   (max <? Z.of_nat (length (stream true chunks))) || (max <? Z.of_nat (length (stream false chunks)))).
Proof.
  induction chunks as [|[b c] chunks IH] using rev_ind; [cbn; rewrite !take_nil; by destruct max|].
  unfold take_chunks in *. rewrite foldl_app, IH. cbn [foldl fst snd]. rewrite !stream_snoc. cbn [fst snd].
  destruct b; rewrite take_chunk_spec by done.
  - rewrite decide_True, decide_False, app_nil_r by done. f_equal. apply truncated_more.
  - rewrite decide_False, decide_True, app_nil_r by done. f_equal. rewrite (orb_comm (max <? Z.of_nat (length (stream true chunks)))), truncated_more. apply orb_comm.
Qed.

(** ** Limits over a run *)

(** Computations that leave a view of the world and the state as it is. *)
Definition same {X V A : Type} (v : X * AutonomousRuntimeState -> V) (m : auto (X:=X) A) : Prop := forall s, v (m s).2 = v s.
Section same.
Context {X V : Type} (O : Outside X) (v : X * AutonomousRuntimeState -> V).
Lemma same_ret {A} (a : A) : same v (mret a).
Proof. by intros s. Qed.
Lemma same_bind {A B} (m : auto (X:=X) A) (f : A -> auto (X:=X) B) : same v m -> (forall a, same v (f a)) -> same v (m ≫= f).
Proof. intros Hm Hf s. unfold mbind, se_bind. specialize (Hm s). destruct (m s) as [[a|e] s']; [|done]. cbn in Hm. by rewrite Hf. Qed.
Lemma same_fmap {A B} (f : A -> B) (m : auto (X:=X) A) : same v m -> same v (f <$> m).
Proof. intros Hm s. unfold fmap, se_fmap. specialize (Hm s). by destruct (m s) as [[a|e] s']. Qed.
Lemma same_abort : same v (throwIfAborted O).
Proof. intros s. unfold throwIfAborted. by destruct (aborted O s.1). Qed.
Lemma same_outside {A} (f : X -> A * X) : (forall x t, v ((f x).2, t) = v (x, t)) -> same v (outside f).
Proof. intros Hf [x t]. unfold outside. cbn. specialize (Hf x t). by destruct (f x). Qed.
Lemma same_state : same v state.
Proof. by intros s. Qed.
Lemma same_change f : (forall x t, v (x, f t) = v (x, t)) -> same v (change f).
Proof. intros Hf [x t]. apply Hf. Qed.
Lemma same_each {A B} (f : A -> auto (X:=X) B) l : (forall a, same v (f a)) -> same v (each f l).
Proof. intros Hf. induction l as [|a l IH]; cbn; [apply same_ret|]. apply same_bind; [done|]. intros b. apply same_bind; [done|]. intros bs. apply same_ret. Qed.
Lemma after_same {A} (m : auto (X:=X) A) s : same v m -> after m (fun _ s' => v s' = v s) (fun _ s' => v s' = v s) s.
Proof. intros Hm. unfold after. specialize (Hm s). by destruct (m s) as [[a|e] s']. Qed.
End same.
Create HintDb same discriminated.
#[export] Hint Resolve same_ret same_abort same_outside same_state same_change : same.
Ltac same := repeat (intros; match goal with
  | |- same _ (_ ≫= _) => apply same_bind
  | |- same _ (_ <$> _) => apply same_fmap
  | |- same _ (each _ _) => apply same_each
  | |- same _ (match ?x with _ => _ end) => destruct x
  | |- same _ _ => solve [auto with same]
  end).

(** What the limits look at. *)
Definition counts (s : AutonomousRuntimeState) := (enabled s, continuationsUsed s, turnsUsed s, tokensUsed s, startedAt s, limits s, continuationPrompt s, gates s).
Abbreviation uncounted := (same (fun s => counts s.2)).

Section runs.
Context {X : Type} (O : Outside X).
Implicit Types (s : X * AutonomousRuntimeState).

Lemma uncounted_process r max : uncounted (runChildProcess O r max).
Proof. unfold runChildProcess. same. Qed.
Lemma uncounted_hash cwd st : uncounted (hashUntrackedFiles O cwd st).
Proof. unfold hashUntrackedFiles, hashUntrackedPath. same. Qed.
Lemma uncounted_snapshot cwd : uncounted (captureGitWorktreeSnapshot O cwd).
Proof. unfold captureGitWorktreeSnapshot. pose proof uncounted_process. pose proof uncounted_hash. same. Qed.
Lemma uncounted_gates cwd cs : uncounted (run_gates O cwd cs).
Proof.
  pose proof uncounted_process. pose proof uncounted_snapshot.
  assert (Hsuccess : forall c (x : X) (t : AutonomousRuntimeState), counts (x, count_success c t).2 = counts (x, t).2) by (intros c x t; cbn; unfold count_success; by case_bool_decide).
  induction cs as [|c cs IH]; cbn [run_gates]; same.
Qed.
Lemma uncounted_refresh cwd : uncounted (refreshAutonomousQualityGates O cwd).
Proof. unfold refreshAutonomousQualityGates, runAutonomousQualityGates. pose proof uncounted_gates. same. Qed.
Lemma limit_of_counts (a b : AutonomousRuntimeState) now : counts a = counts b -> autonomousLimitReason a now = autonomousLimitReason b now.
Proof. unfold counts, autonomousLimitReason. intros [= _ -> -> -> -> -> _ _]. done. Qed.
Lemma decision_spec stop cwd now s :
  after (shouldAutonomouslyContinue O stop cwd now)
    (fun d s' => counts s'.2 = counts s.2 /\ (shouldContinue d = true -> enabled s.2 = true /\ stop <> Error /\ stop <> Aborted /\ autonomousLimitReason s.2 now = None))
    (fun _ s' => counts s'.2 = counts s.2) s.
Proof.
  unfold shouldAutonomouslyContinue. apply after_bind. eapply after_mono; [apply (after_same (fun s => counts s.2)), same_abort| |done]. intros [] s1 H1. cbn beta in H1.
  apply after_bind. cbn [after state]. change (after ?m ?Q ?R s1) with (after m Q R s1).
  assert (Hen : enabled s1.2 = enabled s.2) by (unfold counts in H1; congruence).
  destruct (negb (enabled s1.2) || _ || _) eqn:Eg; [by split|]. apply orb_false_iff in Eg as [Eg Ea]. apply orb_false_iff in Eg as [En Ee].
  apply negb_false_iff in En. apply bool_decide_eq_false in Ee, Ea.
  apply after_bind. eapply after_mono; [apply (after_same (fun s => counts s.2)), uncounted_refresh| |intros e s2 H2; cbn beta in H2; congruence]. intros g s2 H2. cbn beta in H2.
  apply after_bind. eapply after_mono; [apply (after_same (fun s => counts s.2)), same_abort| |intros e s3 H3; cbn beta in H3; congruence]. intros [] s3 H3. cbn beta in H3.
  apply after_bind. unfold after at 1, state. apply after_ret. assert (Hc : counts s3.2 = counts s.2) by congruence. split; [done|].
  rewrite (limit_of_counts s3.2 s.2 now Hc). rewrite Hen in En. destruct (autonomousLimitReason s.2 now) as [l|].
  - rewrite bool_decide_true by done. by destruct g as [[| |]|].
  - by destruct g as [[| |]|].
Qed.
(** A continuation is made only while the mode is on, after a turn that did not fail, and with no limit reached, of continuations,
    turns, tokens or time; it is counted once. Nothing else is counted, whatever the gates, the files and the signal do. *)
Lemma continue_spec stop cwd now s :
  after (nextAutonomousContinuation O stop cwd now)
    (fun m s' => match m with
      | Some _ => enabled s.2 = true /\ stop <> Error /\ stop <> Aborted /\ autonomousLimitReason s.2 now = None /\
          counts s'.2 = counts (with_counts (continuationsUsed s.2 + 1) (turnsUsed s.2) (tokensUsed s.2) s.2)
      | None => counts s'.2 = counts s.2 end)
    (fun _ s' => counts s'.2 = counts s.2) s.
Proof.
  unfold nextAutonomousContinuation. apply after_bind. eapply after_mono; [apply (after_same (fun s => counts s.2)), same_abort| |done]. intros [] s1 H1. cbn beta in H1.
  apply after_bind. unfold after at 1, state. destruct (negb (enabled s1.2)); [by apply after_ret|].
  apply after_bind. eapply after_mono; [apply decision_spec| |intros e s2 H2; cbn beta in H2; congruence]. intros d s2 [H2 Hd].
  apply after_bind. eapply after_mono; [apply (after_same (fun s => counts s.2)), same_abort| |intros e s3 H3; cbn beta in H3; congruence]. intros [] s3 H3. cbn beta in H3.
  destruct (shouldContinue d); cbn [negb]; [|apply after_ret; congruence]. destruct (Hd eq_refl) as (He & Hs1 & Hs2 & Hl). apply after_bind. unfold after at 1, change.
  apply after_bind. unfold after at 1, state. apply after_ret. rewrite (limit_of_counts s1.2 s.2 now H1) in Hl.
  assert (Hc : counts s3.2 = counts s.2) by congruence. unfold counts in *. injection Hc as E1 E2 E3 E4 E5 E6 E7 E8. split_and!; [congruence|done|done|done|]. cbn. congruence.
Qed.
End runs.

(** ** What the gates tell *)

Definition ended_well (e : ProcessEnd) : bool := bool_decide (pe_status e = Some 0) && bool_decide (pe_error e = None) && negb (pe_timedOut e).
Lemma gate_passed_result max e : gate_passed (process_result max e) = ended_well e.
Proof. unfold process_result. by destruct (take_chunks _ _) as [[out err] t]. Qed.
(** The failures of a command counted before its run, when the commands [before] have just passed. *)
Definition prior (before : list jsstr) (c : jsstr) (s : AutonomousRuntimeState) : Z := if decide (c ∈ before) then 0 else default 0 (attempts s c).
(** A round of gates that stopped at the command [c]: what ran, and the failure that is recorded. *)
Definition stopped_at (cs : list jsstr) (s : AutonomousRuntimeState) (ran : list (jsstr * ProcessEnd)) (g : AutonomousGateResult) (s' : AutonomousRuntimeState) : Prop :=
  exists before c after f, cs = before ++ c :: after /\ lastGateFailure s' = Some f /\ gf_command f = c /\ attempts s' c = Some (attempt f) /\
    g = verdict s (attempt f) /\
    ((exists passed e, ran = passed ++ [(c, e)] /\ passed.*1 = before /\ Forall (fun r => ended_well r.2 = true) passed /\ ended_well e = false /\ attempt f = prior before c s + 1)
     \/ (ran.*1 = before /\ Forall (fun r => ended_well r.2 = true) ran /\ exists f0, lastGateFailure s = Some f0 /\ gf_command f0 = c)).
Lemma prior_after_success c0 before c s : prior before c (count_success c0 s) = prior (c0 :: before) c s.
Proof.
  unfold prior. assert (Ha : attempts (count_success c0 s) c = if decide (c0 = c) then Some 0 else attempts s c).
  { unfold attempts, count_success. destruct (bool_decide _); cbn; apply get_set. }
  rewrite Ha. destruct (decide (c ∈ before)); [rewrite decide_True by (by right); done|]. destruct (decide (c0 = c)) as [->|Hn].
  - by rewrite decide_True by left.
  - rewrite decide_False; [done|]. intros [->|]%elem_of_cons; done.
Qed.
Lemma failure_after_success c0 s f : lastGateFailure (count_success c0 s) = Some f -> lastGateFailure s = Some f.
Proof. unfold count_success. by destruct (bool_decide _). Qed.
Lemma stopped_cons c0 e0 cs s s1 ran g s' : ended_well e0 = true -> s1 = count_success c0 s -> stopped_at cs s1 ran g s' -> stopped_at (c0 :: cs) s ((c0, e0) :: ran) g s'.
Proof.
  intros He -> (before & c & aft & f & -> & Hf & Hc & Ha & -> & Hcase). exists (c0 :: before), c, aft, f. split_and!; try done.
  { unfold verdict, count_success. by destruct (bool_decide _). }
  destruct Hcase as [(passed & e & -> & <- & Hp & Hbad & Hat)|(Hb & Hp & f0 & Hf0 & Hc0)].
  - left. exists ((c0, e0) :: passed), e. split_and!; [done|done|by constructor|done|]. by rewrite <- prior_after_success.
  - right. split_and!; [cbn; by rewrite Hb|by constructor|]. exists f0. split; [|done]. by apply failure_after_success in Hf0.
Qed.

Section outcome.
Context {X : Type} (O : Outside X) (log : X -> list (jsstr * ProcessEnd)).
(** The log has the commands that were run by a shell, with their ends. *)
Hypothesis Hspawn : forall r x, log (spawn O r x).2 = log x ++ (if p_shell r then [(p_command r, (spawn O r x).1)] else []).
Hypothesis Hlook : forall p x, log (look_at O p x).2 = log x.
Implicit Types (s : X * AutonomousRuntimeState).
Abbreviation unlogged := (same (fun s => (log s.1, s.2))).

Lemma unlogged_git cwd args max : unlogged (runChildProcess O (git cwd args) max).
Proof.
  unfold runChildProcess. assert (forall x (t : AutonomousRuntimeState), (log (spawn O (git cwd args) x).2, t) = (log x, t)) by (intros x t; by rewrite Hspawn, app_nil_r). same.
Qed.
Lemma unlogged_hash cwd st : unlogged (hashUntrackedFiles O cwd st).
Proof.
  unfold hashUntrackedFiles, hashUntrackedPath. assert (forall p, unlogged (outside (look_at O p))) by (intros p; apply same_outside; intros x t; cbn; by rewrite Hlook). same.
Qed.
Lemma unlogged_snapshot cwd : unlogged (captureGitWorktreeSnapshot O cwd).
Proof. unfold captureGitWorktreeSnapshot. pose proof unlogged_git. pose proof unlogged_hash. same. Qed.
(** A step that logs nothing, in front of others. *)
Lemma after_unlogged {A B} (m : auto (X:=X) A) (f : A -> auto (X:=X) B) (Q : B -> _ -> Prop) (R : unit -> _ -> Prop) s :
  unlogged m -> (forall a s1, log s1.1 = log s.1 -> s1.2 = s.2 -> after (f a) Q R s1) -> (forall e s1, log s1.1 = log s.1 -> R e s1) -> after (m ≫= f) Q R s.
Proof.
  intros Hm Hf HR. apply after_bind. eapply after_mono; [apply (after_same (fun s => (log s.1, s.2))), Hm| |]; cbn beta.
  - intros a s1 [= H1 H2]. by apply Hf.
  - intros e s1 [= H1 _]. by apply HR.
Qed.

Definition outcome (cs : list jsstr) s (g : AutonomousGateResult) s' : Prop :=
  exists ran, log s'.1 = log s.1 ++ ran /\
    match g with
    | Passed => ran.*1 = cs /\ Forall (fun r => ended_well r.2 = true) ran /\ lastGateFailure s'.2 = None
    | _ => stopped_at cs s.2 ran g s'.2
    end.
Definition broken_off (cs : list jsstr) s s' : Prop := exists ran, log s'.1 = log s.1 ++ ran /\ ran.*1 `prefix_of` cs.
Lemma run_gates_outcome cwd cs s : after (run_gates O cwd cs) (outcome cs s) (fun _ => broken_off cs s) s.
Proof.
  revert s. induction cs as [|c cs IH]; intros s; cbn [run_gates].
  { apply after_bind. unfold after at 1, change. apply after_ret. exists []. cbn. by rewrite app_nil_r. }
  assert (Hnone : forall (e : unit) s1, log s1.1 = log s.1 -> broken_off (c :: cs) s s1) by (intros e s1 H1; exists []; rewrite app_nil_r; split; [done|apply prefix_nil]).
  apply after_unlogged; [apply unlogged_snapshot| |done]. intros current s1 L1 E1.
  apply after_unlogged; [apply same_abort| |intros e s2 L2; apply Hnone; [done|congruence]]. intros [] s2 L2 E2.
  apply after_bind. unfold after at 1, state. assert (El : log s2.1 = log s.1) by congruence. assert (Es : s2.2 = s.2) by congruence. clear s1 L1 E1 L2 E2.
  destruct (unchanged_failure c current s2.2) as [f|] eqn:Eu.
  - apply after_bind. unfold after at 1, change. apply after_ret. rewrite Es in *. unfold unchanged_failure in Eu.
    destruct (lastGateFailure s.2) as [f0|] eqn:Ef; [|done]. destruct (jseqb _ _ && _) eqn:Ec; [|done]. injection Eu as ->. apply andb_true_iff in Ec as [Ec _]. unfold jseqb in Ec; to_prop.
    exists []. rewrite app_nil_r. cbn [fst snd]. split; [done|]. set (n := default (attempt f) (attempts s.2 c) + 1).
    assert (Hstop : stopped_at (c :: cs) s.2 [] (verdict s.2 n) (count_unchanged c f s.2)).
    { exists [], c, cs. eexists. split_and!; [done|reflexivity|done|cbn; unfold attempts; cbn; by rewrite get_set, decide_True|done|]. right. split_and!; [done|constructor|]. by exists f. }
    clear -Hstop. unfold verdict in *. by destruct (_ <? _).
  - set (r := {| p_command := c; p_args := []; p_cwd := cwd; p_shell := true; p_timeoutMs := gateTimeoutMs (gates s2.2) |}).
    unfold runChildProcess. apply after_bind. apply after_unlogged; [apply same_abort| |intros e s3 L3; apply (Hnone e); congruence]. intros [] s3 L3 E3.
    unfold after at 1, fmap, se_fmap, outside. pose proof (Hspawn r s3.1) as Hlog. destruct (spawn O r s3.1) as [e x] eqn:Esp. cbn [fst snd] in *. change (p_shell r) with true in Hlog. cbn iota in Hlog.
    assert (Hone : forall (u : unit) s4, log s4.1 = log x -> broken_off (c :: cs) s s4) by (intros u s4 H4; exists [(c, e)]; split; [rewrite H4, Hlog; by rewrite L3, El|apply prefix_cons, prefix_nil]).
    apply after_unlogged; [apply same_abort| |done]. intros [] s4 L4 E4. apply after_unlogged; [apply unlogged_snapshot| |intros u s5 L5; apply (Hone u); cbn in *; congruence]. intros post s5 L5 E5.
    apply after_unlogged; [apply same_abort| |intros u s6 L6; apply (Hone u); cbn in *; congruence]. intros [] s6 L6 E6. cbn [fst snd] in *.
    assert (El6 : log s6.1 = log s.1 ++ [(c, e)]) by (rewrite L6, L5, L4, Hlog; by rewrite L3, El). assert (Es6 : s6.2 = s.2) by congruence.
    rewrite gate_passed_result. destruct (ended_well e) eqn:Ee.
    + apply after_bind. unfold after at 1, change. eapply after_mono; [apply IH| |].
      * intros g s' (ran & Hran & Hg). cbn [fst snd] in *. exists ((c, e) :: ran). rewrite Hran, El6, <- app_assoc. split; [done|]. rewrite Es6 in Hg.
        destruct g; [|by eapply stopped_cons..]. destruct Hg as (Hr & Hall & Hl). split_and!; [cbn; by rewrite Hr|by constructor|done].
      * intros u s' (ran & Hran & Hp). cbn [fst snd] in *. exists ((c, e) :: ran). rewrite Hran, El6, <- app_assoc. split; [done|]. by apply prefix_cons.
    + apply after_bind. unfold after at 1, change. apply after_ret. exists [(c, e)]. cbn [fst snd]. split; [done|]. rewrite Es6, Es. set (n := default 0 (attempts s.2 c) + 1).
      assert (Hstop : stopped_at (c :: cs) s.2 [(c, e)] (verdict s.2 n) (count_failure c (process_result MAX_GATE_OUTPUT_CHARS e) post s.2)).
      { exists [], c, cs. eexists. split_and!; [done|reflexivity|done|cbn; unfold attempts; cbn; by rewrite get_set, decide_True|done|]. left. exists [], e. split_and!; [done|done|constructor|done|].
        cbn. unfold prior. by rewrite decide_False by (apply not_elem_of_nil). }
      clear -Hstop. unfold verdict in *. by destruct (_ <? _).
Qed.
(** What a round of gates tells of the commands: [Passed] means that every command was run, in the order given, and ended well, and no failure is
    recorded. Otherwise the round stopped at one command: those before it were run and ended well, and none behind it was run. It was itself run and failed,
    or it is the one that failed last and was not run again; its failure is recorded with its attempt, one more than the failures before if it was run, and
    the retries are exhausted exactly if the attempt is above their number. A round that is aborted has run the first of the commands. *)
Theorem gates_outcome (u : N) (dir : jsstr) (s : X * AutonomousRuntimeState) :
  match runAutonomousQualityGates O (Some (u :: dir)) s with
  | (inl g, s') => outcome (commands (gates s.2)) s g s'
  | (inr _, s') => broken_off (commands (gates s.2)) s s'
  end.
Proof.
  assert (H : after (runAutonomousQualityGates O (Some (u :: dir))) (outcome (commands (gates s.2)) s) (fun _ => broken_off (commands (gates s.2)) s) s).
  { unfold runAutonomousQualityGates. apply after_unlogged; [apply same_abort| |intros e s1 H1; exists []; rewrite app_nil_r; split; [done|apply prefix_nil]].
    intros [] s1 L1 E1. apply after_bind. unfold after at 1, state. rewrite E1.
    eapply after_mono; [apply run_gates_outcome| |]; unfold outcome, broken_off; by rewrite L1, ?E1. }
  unfold after in H. by destruct (runAutonomousQualityGates O _ s) as [[g|e] s'].
Qed.
End outcome.

(** A world outside any repository, where the command [true] ends well and all others do not; it is the log of the commands. *)
Definition demo_end (ok : bool) : ProcessEnd := {| pe_status := Some (if ok then 0 else 1); pe_signal := None; pe_chunks := []; pe_error := None; pe_timedOut := false |}.
Definition demo_world : Outside (list (jsstr * ProcessEnd)) :=
  {| aborted := fun _ => false;
     spawn := fun r x => let e := demo_end (jseqb (p_command r) (js "true")) in (e, x ++ if p_shell r then [(p_command r, e)] else []);
     look_at := fun _ x => (PathError (js "ENOENT"), x); sha256 := fun _ => []; resolve := fun _ p => p |}.
Definition demo_state : AutonomousRuntimeState :=
  createAutonomousRuntimeState (Some {| c_enabled := Some true; c_maxContinuations := None; c_maxTurns := None; c_maxTokens := None; c_timeoutMs := None; c_continuationPrompt := None;
    c_gates := Some {| cg_commands := Some [js "true"; js "make"; js "last"]; cg_maxRetries := None; cg_timeoutMs := None |}; c_subagentKeepAliveMs := None |}) None 0.
Lemma gates_outcome_witness :
  match runAutonomousQualityGates demo_world (Some (js "/w")) ([], demo_state) with
  | (inl g, s') => outcome (fun x => x) [js "true"; js "make"; js "last"] ([], demo_state) g s'
  | (inr _, s') => False
  end /\ (runAutonomousQualityGates demo_world (Some (js "/w")) ([], demo_state)).2.1 = [(js "true", demo_end true); (js "make", demo_end false)].
Proof.
  split; [|by vm_compute].
  exact (gates_outcome demo_world (fun x => x) (fun r x => eq_refl) (fun p x => eq_refl) 47%N (js "w") ([], demo_state)).
Defined.

(** A gate that failed because of what was not committed is not run again after a commit that leaves nothing else changed: what is compared are the changes
    against the last commit, and not the commit. Here the world is the text of the last commit, [1] when the gate runs and [2] afterwards. *)
Definition commit_world : Outside (list N) :=
  {| aborted := fun _ => false; spawn := fun r x => (if p_shell r then demo_end (bool_decide (x = [2%N])) else demo_end true, x);
     look_at := fun _ x => (PathError [], x); sha256 := fun b => b; resolve := fun _ p => p |}.
Definition one_gate : AutonomousRuntimeState := setAutonomousLimits (Some {| c_enabled := None; c_maxContinuations := None; c_maxTurns := None; c_maxTokens := None;
  c_timeoutMs := None; c_continuationPrompt := None; c_gates := Some {| cg_commands := Some [js "make"]; cg_maxRetries := None; cg_timeoutMs := None |}; c_subagentKeepAliveMs := None |}) demo_state.
Example committed_fix_not_rerun :
  let '(r1, (x1, s1)) := runAutonomousQualityGates commit_world (Some (js "/w")) ([1%N], one_gate) in
  let '(r2, (x2, s2)) := runAutonomousQualityGates commit_world (Some (js "/w")) ([2%N], s1) in
  r1 = inl Failed /\ r2 = inl Failed /\ (exitText <$> lastGateFailure s2) = Some (js "not rerun: workspace unchanged since previous failed gate") /\
  fst (runAutonomousQualityGates commit_world (Some (js "/w")) ([2%N], one_gate)) = inl Passed.
Proof. by vm_compute. Qed.
(** A limit between 0 and 1 is not below or at 0, so it is rounded down to 0: a mode that has such a limit never continues, a gate with such a time has none. *)
Example fraction_limit_is_zero : normalizeLimit (fun z => z) (Some (Fin (1 # 2))) 300000 = 0.
Proof. done. Qed.
