(* ===== verification/Replay.v ===== *)
(** * Replaying a transcript to a model (packages/ai/src/providers/transform-messages.ts)

    Before a transcript is sent, it is adapted to the model it is sent to, which need not be the one that wrote it: images a model
    cannot see, thinking of another model, identifiers of calls another provider would refuse. Then turns that failed are left out,
    and calls that have no result get one. [transform_replayable] is what the providers rely on, [history_kept] says that nothing else
    is changed. *)

(* Source aliases:
   TM = src/packages/ai/src/providers/transform-messages.ts *)

From Stdlib Require Import QArith.
From S2P Require Import Prelude JsString JsMap Messages.
Local Open Scope Z_scope.

(** The model that is sent to, as far as messages depend on it. *)
Record Model := { m_provider : jsstr; m_api : jsstr; m_id : jsstr; m_images : bool; m_reasoning : bool }.

(** ** Images *)

(** TM 12-12 NON_VISION_USER_IMAGE_PLACEHOLDER. *)
Definition NON_VISION_USER_IMAGE_PLACEHOLDER : jsstr := js "(image omitted: model does not support images)".
(** TM 13-13 NON_VISION_TOOL_IMAGE_PLACEHOLDER. *)
Definition NON_VISION_TOOL_IMAGE_PLACEHOLDER : jsstr := js "(tool image omitted: model does not support images)".
(** TM 19-30 replaceImagesWithPlaceholder. The loop, with [previousWasPlaceholder]. *)
Fixpoint replace_images (placeholder : jsstr) (previous : bool) (content : list Part) : list Part :=
  match content with
  | [] => []
  | PImage _ :: rest => (if previous then [] else [PText (mkText placeholder)]) ++ replace_images placeholder true rest
  | PText t :: rest => PText t :: replace_images placeholder (bool_decide (text t = placeholder)) rest
  end.
(** TM 15-33 replaceImagesWithPlaceholder. *)
Definition replaceImagesWithPlaceholder (content : list Part) (placeholder : jsstr) : list Part := replace_images placeholder false content.
Definition with_parts (ps : list Part) (r : ToolResultMessage) : ToolResultMessage :=
  {| toolCallId := toolCallId r; toolName := toolName r; t_content := ps; details := details r; isError := isError r; t_timestamp := t_timestamp r |}.
(** TM 40-56 downgradeUnsupportedImages. One message. *)
Definition downgrade (msg : Message) : Message :=
  match msg with
  | LUser {| u_content := CParts ps; u_timestamp := t |} =>
      LUser {| u_content := CParts (replaceImagesWithPlaceholder ps NON_VISION_USER_IMAGE_PLACEHOLDER); u_timestamp := t |}
  | LToolResult r => LToolResult (with_parts (replaceImagesWithPlaceholder (t_content r) NON_VISION_TOOL_IMAGE_PLACEHOLDER) r)
  | _ => msg
  end.
(** TM 35-57 downgradeUnsupportedImages. *)
Definition downgradeUnsupportedImages (messages : list Message) (model : Model) : list Message := if m_images model then messages else downgrade <$> messages.

(** ** Assistant messages of another model *)

Definition with_content (ps : list AssistantPart) (a : AssistantMessage) : AssistantMessage :=
  {| a_content := ps; api := api a; provider := provider a; model := model a; usage := usage a; stopReason := stopReason a; errorMessage := errorMessage a;
     a_timestamp := a_timestamp a |}.
Definition with_id (i : jsstr) (c : ToolCall) : ToolCall := {| id := i; name := name c; arguments := arguments c; thoughtSignature := thoughtSignature c |}.
Definition unsigned (c : ToolCall) : ToolCall := {| id := id c; name := name c; arguments := arguments c; thoughtSignature := None |}.
Definition answer_to (i : jsstr) (r : ToolResultMessage) : ToolResultMessage :=
  {| toolCallId := i; toolName := toolName r; t_content := t_content r; details := details r; isError := isError r; t_timestamp := t_timestamp r |}.
(** A string that is there and not empty. *)
Definition truthy (s : option jsstr) : bool := match s with Some (_ :: _) => true | _ => false end.

Section transform.
Variables (to : Model) (normalizeToolCallId : option (jsstr -> AssistantMessage -> jsstr)) (now : Z).
Notation ids := (list (jsstr * jsstr)).

(** TM 87-90 transformMessages. *)
Definition isSameModel (a : AssistantMessage) : bool :=
  bool_decide (provider a = m_provider to) && bool_decide (api a = m_api to) && bool_decide (model a = m_id to).
(** TM 92-140 transformMessages. One block, with the identifiers that were changed so far. *)
Definition transform_block (a : AssistantMessage) (toolCallIdMap : ids) (block : AssistantPart) : list AssistantPart * ids :=
  let same := isSameModel a in
  match block with
  | AThinking t =>
      (if default false (redacted t) then if same then [block] else []
       else if same && truthy (thinkingSignature t) then [block]
       else match trim (thinking t) with
            | [] => []
            | _ => if same then [block] else [AText (mkText (thinking t))]
            end, toolCallIdMap)
  | AText t => (if same then [block] else [AText (mkText (text t))], toolCallIdMap)
  | AToolCall toolCall =>
      let normalizedToolCall := if negb same && truthy (thoughtSignature toolCall) then unsigned toolCall else toolCall in
      match normalizeToolCallId with
      | Some normalize =>
          if negb same then
            let normalizedId := normalize (id toolCall) a in
            if bool_decide (normalizedId = id toolCall) then ([AToolCall normalizedToolCall], toolCallIdMap)
            else ([AToolCall (with_id normalizedId normalizedToolCall)], JsMap.set toolCallIdMap (id toolCall) normalizedId)
          else ([AToolCall normalizedToolCall], toolCallIdMap)
      | None => ([AToolCall normalizedToolCall], toolCallIdMap)
      end
  end.
(** TM 92-141 transformMessages. The blocks of a message. *)
Fixpoint transform_blocks (a : AssistantMessage) (m : ids) (blocks : list AssistantPart) : list AssistantPart * ids :=
  match blocks with
  | [] => ([], m)
  | block :: rest => let '(out, m) := transform_block a m block in let '(outs, m) := transform_blocks a m rest in (out ++ outs, m)
  end.
(** TM 72-151 transformMessages. One message. *)
Definition transform_message (m : ids) (msg : Message) : Message * ids :=
  match msg with
  | LUser _ => (msg, m)
  | LToolResult r =>
      (match JsMap.get m (toolCallId r) with
       | Some (u :: i) => if bool_decide (u :: i = toolCallId r) then msg else LToolResult (answer_to (u :: i) r)
       | _ => msg
       end, m)
  | LAssistant a => let '(content, m) := transform_blocks a m (a_content a) in (LAssistant (with_content content a), m)
  end.
(** TM 72-151 transformMessages. All of them, in order. *)
Fixpoint transform_all (m : ids) (msgs : list Message) : list Message :=
  match msgs with [] => [] | msg :: rest => let '(out, m) := transform_message m msg in out :: transform_all m rest end.

(** ** Turns that failed, calls without a result *)

Definition tool_calls (a : AssistantMessage) : list ToolCall := omap (fun b => match b with AToolCall c => Some c | _ => None end) (a_content a).
Definition call_ids (a : AssistantMessage) : list jsstr := id <$> tool_calls a.
(** TM 158-165 transformMessages. *)
Definition synthetic (c : ToolCall) : ToolResultMessage :=
  {| toolCallId := id c; toolName := name c; t_content := [PText (mkText (js "No result provided"))]; details := None; isError := true; t_timestamp := now |}.
(** TM 154-171 transformMessages. What [insertSyntheticToolResults] pushes. *)
Definition insertSyntheticToolResults (pendingToolCalls : list ToolCall) (existingToolResultIds : list jsstr) : list Message :=
  LToolResult ∘ synthetic <$> filter (fun c => id c ∉ existingToolResultIds) pendingToolCalls.
Definition is_failed (a : AssistantMessage) : bool := bool_decide (stopReason a = Error) || bool_decide (stopReason a = Aborted).
(** TM 150-212 transformMessages. What is pushed for the messages from here on; [insertSyntheticToolResults] leaves no pending call, and the set is only added
    to while there is one. *)
Fixpoint settle (pendingToolCalls : list ToolCall) (existingToolResultIds : list jsstr) (msgs : list Message) : list Message :=
  match msgs with
  | [] => insertSyntheticToolResults pendingToolCalls existingToolResultIds
  | LAssistant a :: rest =>
      insertSyntheticToolResults pendingToolCalls existingToolResultIds ++
      if is_failed a then settle [] [] rest else LAssistant a :: settle (tool_calls a) [] rest
  | LToolResult r :: rest =>
      if bool_decide (toolCallId r ∈ id <$> pendingToolCalls) then LToolResult r :: settle pendingToolCalls (toolCallId r :: existingToolResultIds) rest
      else settle pendingToolCalls existingToolResultIds rest
  | LUser u :: rest => insertSyntheticToolResults pendingToolCalls existingToolResultIds ++ LUser u :: settle [] [] rest
  end.
(** TM 64-213 transformMessages. *)
Definition transformMessages (messages : list Message) : list Message := settle [] [] (transform_all [] (downgradeUnsupportedImages messages to)).

(** ** What providers rely on *)

Abbreviation results rs := (LToolResult <$> rs).
(** Results stand behind the message whose calls they answer, and nowhere else, and every call is answered. *)
Inductive replayable : list Message -> Prop :=
| rp_nil : replayable []
| rp_user u ms : replayable ms -> replayable (LUser u :: ms)
| rp_assistant a rs ms : is_failed a = false -> Forall (fun r => toolCallId r ∈ call_ids a) rs -> Forall (fun i => i ∈ toolCallId <$> rs) (call_ids a) -> replayable ms ->
    replayable (LAssistant a :: results rs ++ ms).

Lemma insert_results p e : exists rs, insertSyntheticToolResults p e = results rs /\ Forall (fun r => toolCallId r ∈ id <$> p) rs /\
  Forall (fun c => id c ∈ e \/ id c ∈ toolCallId <$> rs) p.
Proof.
  exists (synthetic <$> filter (fun c => id c ∉ e) p). unfold insertSyntheticToolResults. split_and!.
  - by rewrite <- list_fmap_compose.
  - apply list.Forall_forall. intros r (c & -> & [_ Hc]%list_elem_of_filter)%list_elem_of_fmap. cbn. by apply (list_elem_of_fmap_2 id).
  - apply list.Forall_forall. intros c Hc. destruct (decide (id c ∈ e)) as [He|He]; [by left|right].
    apply list_elem_of_fmap. exists (synthetic c). split; [done|]. apply list_elem_of_fmap_2. by apply list_elem_of_filter.
Qed.
(** The output from a point on: answers to what is pending, and then messages that can be replayed. *)
Lemma settle_spec p e msgs : exists rs ms, settle p e msgs = results rs ++ ms /\ Forall (fun r => toolCallId r ∈ id <$> p) rs /\
  Forall (fun c => id c ∈ e \/ id c ∈ toolCallId <$> rs) p /\ replayable ms.
Proof.
  revert p e. induction msgs as [|msg msgs IH]; intros p e; cbn [settle].
  - destruct (insert_results p e) as (rs & -> & H1 & H2). exists rs, []. split_and!; [by rewrite app_nil_r|done|done|constructor].
  - assert (Hnext : forall ms, replayable ms -> exists rs ms', insertSyntheticToolResults p e ++ ms = results rs ++ ms' /\ Forall (fun r => toolCallId r ∈ id <$> p) rs /\
      Forall (fun c => id c ∈ e \/ id c ∈ toolCallId <$> rs) p /\ replayable ms').
    { intros ms Hms. destruct (insert_results p e) as (rs & -> & H1 & H2). by exists rs, ms. }
    destruct msg as [u|a|r].
    + destruct (IH [] []) as (rs & ms & -> & Hrs & _ & Hms). apply Hnext. destruct rs as [|r rs]; [by constructor|]. inversion Hrs; set_solver.
    + destruct (is_failed a) eqn:Ef; apply Hnext.
      * destruct (IH [] []) as (rs & ms & -> & Hrs & _ & Hms). destruct rs as [|r rs]; [done|]. inversion Hrs; set_solver.
      * destruct (IH (tool_calls a) []) as (rs & ms & -> & Hrs & Hp & Hms). constructor; [done|done| |done].
        unfold call_ids. apply list.Forall_fmap. eapply list.Forall_impl; [exact Hp|]. intros c [H|H]; [set_solver|done].
    + case_bool_decide as Hr; [|apply IH]. destruct (IH p (toolCallId r :: e)) as (rs & ms & -> & Hrs & Hp & Hms). exists (r :: rs), ms.
      split_and!; [done|by constructor| |done]. eapply list.Forall_impl; [exact Hp|]. intros c. set_solver.
Qed.
(** C6. Whatever the transcript, what is sent of it can be replayed: no response that failed or was aborted is in it, a result stands only behind the response
    with the call it answers, with no message between but other results, and every call has a result. *)
Theorem transform_replayable (messages : list Message) : replayable (transformMessages messages).
Proof.
  unfold transformMessages. destruct (settle_spec [] [] (transform_all [] (downgradeUnsupportedImages messages to))) as (rs & ms & -> & Hrs & _ & Hms).
  destruct rs as [|r rs]; [done|]. inversion Hrs; set_solver.
Qed.

(** ** What is sent of a history *)

(** The identifier of a call of [a] as it is sent. *)
Definition sent_id (a : AssistantMessage) (i : jsstr) : jsstr :=
  match normalizeToolCallId with Some normalize => if isSameModel a then i else normalize i a | None => i end.
Definition sent_call (a : AssistantMessage) (c : ToolCall) : ToolCall :=
  with_id (sent_id a (id c)) (if negb (isSameModel a) && truthy (thoughtSignature c) then unsigned c else c).
Definition sent_block (a : AssistantMessage) (b : AssistantPart) : list AssistantPart :=
  match b with
  | AText t => [AText (if isSameModel a then t else mkText (text t))]
  | AThinking t =>
      if isSameModel a then if default false (redacted t) || truthy (thinkingSignature t) || bool_decide (trim (thinking t) <> []) then [b] else []
      else if default false (redacted t) || bool_decide (trim (thinking t) = []) then [] else [AText (mkText (thinking t))]
  | AToolCall c => [AToolCall (sent_call a c)]
  end.
Definition see (msg : Message) : Message := if m_images to then msg else downgrade msg.
(** How a message of a history is sent; a result under the identifier of its call. *)
Definition sent_as (history : list Message) (msg out : Message) : Prop :=
  match msg with
  | LUser _ => out = see msg
  | LAssistant a => out = LAssistant (with_content (a_content a ≫= sent_block a) a)
  | LToolResult r => exists a r', LAssistant a ∈ history /\ toolCallId r ∈ call_ids a /\ see msg = LToolResult r' /\ out = LToolResult (answer_to (sent_id a (toolCallId r)) r')
  end.
(** A transcript of turns that are complete or failed, and what is kept of it. *)
Inductive history : list Message -> list Message -> Prop :=
| hi_nil : history [] []
| hi_user u ms kept : history ms kept -> history (LUser u :: ms) (LUser u :: kept)
| hi_turn a rs ms kept : is_failed a = false -> Forall (fun r => toolCallId r ∈ call_ids a) rs -> Forall (fun i => i ∈ toolCallId <$> rs) (call_ids a) -> history ms kept ->
    history (LAssistant a :: results rs ++ ms) (LAssistant a :: results rs ++ kept)
| hi_failed a rs ms kept : is_failed a = true -> history ms kept -> history (LAssistant a :: results rs ++ ms) kept.
Definition all_calls (ms : list Message) : list jsstr := ms ≫= (fun m => match m with LAssistant a => call_ids a | _ => [] end).

Lemma with_id_same c : with_id (id c) c = c.
Proof. by destruct c. Qed.
Lemma transform_block_out a m b : (transform_block a m b).1 = sent_block a b.
Proof.
  destruct b as [t|t|c]; cbn [transform_block sent_block fst].
  - by destruct (isSameModel a).
  - destruct (default false (redacted t)), (isSameModel a), (truthy (thinkingSignature t)); cbn; try done; by destruct (trim (thinking t)).
  - unfold sent_call, sent_id. destruct normalizeToolCallId as [f|]; [|by destruct (_ && _); cbn; rewrite ?with_id_same; try destruct c].
    destruct (isSameModel a); cbn [negb andb]; [by rewrite with_id_same|]. case_bool_decide as E; cbn [fst]; [|done]. rewrite E. by destruct (truthy _), c.
Qed.
Lemma transform_blocks_out a m bs : (transform_blocks a m bs).1 = bs ≫= sent_block a.
Proof.
  revert m. induction bs as [|b bs IH]; intros m; [done|]. cbn [transform_blocks]. pose proof (transform_block_out a m b) as Hb.
  destruct (transform_block a m b) as [out m1]. specialize (IH m1). destruct (transform_blocks a m1 bs) as [outs m2]. cbn in *. by rewrite Hb, IH.
Qed.
Definition block_ids (bs : list AssistantPart) : list jsstr := id <$> omap (fun b => match b with AToolCall c => Some c | _ => None end) bs.
Lemma transform_blocks_ids a m bs i :
  JsMap.get (transform_blocks a m bs).2 i = if decide (i ∈ block_ids bs /\ sent_id a i <> i) then Some (sent_id a i) else JsMap.get m i.
Proof.
  revert m. induction bs as [|b bs IH]; intros m; cbn [transform_blocks].
  { rewrite decide_False; [done|]. intros [[]%not_elem_of_nil _]. }
  assert (Hb : JsMap.get (transform_block a m b).2 i = if decide (i ∈ block_ids [b] /\ sent_id a i <> i) then Some (sent_id a i) else JsMap.get m i).
  { destruct b as [t|t|c]; cbn [transform_block snd]; try (rewrite decide_False; [done|intros [[]%not_elem_of_nil _]]).
    change (block_ids [AToolCall c]) with [id c]. unfold sent_id. destruct normalizeToolCallId as [f|]; [|rewrite decide_False; [done|by intros [_ []]]].
    destruct (isSameModel a); cbn [negb snd]; [rewrite decide_False; [done|by intros [_ []]]|]. case_bool_decide as E; cbn [snd].
    - rewrite decide_False; [done|]. intros [->%list_elem_of_singleton Hn]. done.
    - rewrite get_set. destruct (decide (id c = i)) as [<-|Hn]; [rewrite decide_True; [done|split; [by left|done]]|]. rewrite decide_False; [done|]. by intros [->%list_elem_of_singleton _]. }
  destruct (transform_block a m b) as [out m1]. specialize (IH m1). destruct (transform_blocks a m1 bs) as [outs m2]. cbn [fst snd] in *. rewrite IH, Hb.
  assert (Hids : block_ids (b :: bs) = block_ids [b] ++ block_ids bs) by (by destruct b). rewrite Hids. clear.
  destruct (decide (_ /\ _)) as [H|H]; [rewrite decide_True by set_solver; done|]. destruct (decide (_ /\ _)) as [H'|H']; [by rewrite decide_True by set_solver|].
  rewrite decide_False; [done|]. set_solver.
Qed.
Lemma sent_call_ids a : call_ids (with_content (a_content a ≫= sent_block a) a) = sent_id a <$> call_ids a.
Proof.
  unfold call_ids, tool_calls. cbn [a_content with_content]. induction (a_content a) as [|b bs IH]; [done|]. rewrite bind_cons, omap_app, fmap_app, IH.
  destruct b as [t|t|c]; [done| |done]. cbn [sent_block]. by destruct (isSameModel a), (_ || _).
Qed.
Lemma call_ids_blocks a : call_ids a = block_ids (a_content a).
Proof. done. Qed.

Lemma transform_all_results m rs rest : transform_all m (results rs ++ rest) = ((fun r => (transform_message m (LToolResult r)).1) <$> rs) ++ transform_all m rest.
Proof.
  induction rs as [|r rs IH]; [done|]. rewrite !fmap_cons, <- !app_comm_cons, <- IH. done.
Qed.

Lemma insert_none p e : Forall (fun c => id c ∈ e) p -> insertSyntheticToolResults p e = [].
Proof. intros Hp. unfold insertSyntheticToolResults. induction Hp as [|c p Hc _ IH]; [done|]. rewrite filter_cons_False by (intros H; by apply H). done. Qed.
(** Results of the calls that are pending go through, results of others are dropped. *)
Lemma settle_results p e rs rest : Forall (fun r => toolCallId r ∈ id <$> p) rs -> settle p e (results rs ++ rest) = results rs ++ settle p (reverse (toolCallId <$> rs) ++ e) rest.
Proof.
  intros Hrs. revert e. induction Hrs as [|r rs Hr _ IH]; intros e; [done|]. rewrite !fmap_cons, <- !app_comm_cons. cbn [settle]. rewrite bool_decide_true by done.
  rewrite IH, reverse_cons, <- app_assoc. done.
Qed.
Lemma settle_dropped rs rest : settle [] [] (results rs ++ rest) = settle [] [] rest.
Proof. induction rs as [|r rs IH]; [done|]. rewrite fmap_cons, <- app_comm_cons. cbn [settle]. rewrite bool_decide_false by (apply not_elem_of_nil). done. Qed.
(** Where a turn begins, nothing that was answered leaves a trace. *)
Definition begins (ms : list Message) : Prop := match ms with LToolResult _ :: _ => False | _ => True end.
Lemma settle_answered p e ms : begins ms -> Forall (fun c => id c ∈ e) p -> settle p e ms = settle [] [] ms.
Proof. intros Hb Hp. destruct ms as [|[u|a|r] ms]; cbn [settle]; [by rewrite (insert_none p e Hp)..|done]. Qed.
Lemma history_begins ms kept : history ms kept -> begins ms.
Proof. by destruct 1. Qed.
Lemma transform_begins m ms : begins ms -> begins (transform_all m ms).
Proof. destruct ms as [|[u|a|r] ms]; cbn; [done|done| |done]. intros _. by destruct (transform_blocks _ _ _). Qed.

Lemma sent_result m a rs : (forall i, i ∈ call_ids a -> JsMap.get m i = if decide (sent_id a i <> i) then Some (sent_id a i) else None) ->
  (forall i, i ∈ call_ids a -> sent_id a i <> []) -> Forall (fun r => toolCallId r ∈ call_ids a) rs ->
  (fun r => (transform_message m (LToolResult r)).1) <$> rs = results ((fun r => answer_to (sent_id a (toolCallId r)) r) <$> rs).
Proof.
  intros Hm Hne. induction 1 as [|r rs Hr _ IH]; [done|]. rewrite !fmap_cons, IH. f_equal. cbn [transform_message fst].
  specialize (Hm (toolCallId r) Hr). specialize (Hne (toolCallId r) Hr). revert Hm. case_decide as E; intros ->.
  - destruct (sent_id a (toolCallId r)) as [|u i]; [done|]. by rewrite bool_decide_false.
  - rewrite E. by destruct r.
Qed.
Definition seen (r : ToolResultMessage) : ToolResultMessage :=
  if m_images to then r else with_parts (replaceImagesWithPlaceholder (t_content r) NON_VISION_TOOL_IMAGE_PLACEHOLDER) r.
Lemma see_results (rs : list ToolResultMessage) : see <$> results rs = results (seen <$> rs).
Proof. rewrite <- !list_fmap_compose. apply list_fmap_ext. intros _ r _. unfold see, seen. cbn. by destruct (m_images to). Qed.
Lemma seen_id r : toolCallId (seen r) = toolCallId r.
Proof. unfold seen. by destruct (m_images to). Qed.
Lemma see_all ms : downgradeUnsupportedImages ms to = see <$> ms.
Proof. unfold downgradeUnsupportedImages, see. destruct (m_images to); [by rewrite list_fmap_id|done]. Qed.
Lemma see_assistant a : see (LAssistant a) = LAssistant a.
Proof. unfold see. by destruct (m_images to). Qed.

Lemma see_begins ms : begins ms -> begins (see <$> ms).
Proof. unfold see. destruct ms as [|[[[s|ps] t]|b|r] ms]; cbn; destruct (m_images to); done. Qed.
Lemma all_calls_turn a (rs : list ToolResultMessage) ms : all_calls (LAssistant a :: results rs ++ ms) = call_ids a ++ all_calls ms.
Proof. unfold all_calls. rewrite bind_cons, bind_app. f_equal. induction rs as [|r rs IHr]; [done|]. by rewrite fmap_cons, bind_cons. Qed.
Lemma history_sent (L ms kept : list Message) m : history ms kept -> NoDup (all_calls ms) -> (forall i, i ∈ all_calls ms -> JsMap.get m i = None) ->
  (forall msg, msg ∈ ms -> msg ∈ L) -> (forall a i, LAssistant a ∈ L -> i ∈ call_ids a -> sent_id a i <> []) ->
  Forall2 (sent_as L) kept (settle [] [] (transform_all m (see <$> ms))).
Proof.
  intros Hh. revert m. induction Hh as [|u ms kept Hh IH|a rs ms kept Ef Hrs Hall Hh IH|a rs ms kept Ef Hh IH]; intros m Hnd Hm HL Hne.
  - constructor.
  - rewrite fmap_cons. assert (Hsee : exists u', see (LUser u) = LUser u').
    { unfold see. destruct (m_images to); [by eexists|]. destruct u as [[s|ps] t]; by eexists. }
    destruct Hsee as [u' Hu]. rewrite Hu. cbn. constructor; [exact (eq_sym Hu)|]. apply IH; [done|done| |done]. intros msg Hmsg. apply HL. by right.
  - rewrite fmap_cons, fmap_app, see_assistant, see_results. cbn [transform_all transform_message].
    set (rs' := seen <$> rs). pose proof (transform_blocks_out a m (a_content a)) as Hout. pose proof (transform_blocks_ids a m (a_content a)) as Hids.
    destruct (transform_blocks a m (a_content a)) as [content m1]. cbn [fst snd] in Hout, Hids. subst content.
    rewrite all_calls_turn in Hnd, Hm. apply NoDup_app in Hnd as (_ & Hdisj & Hnd).
    assert (Hin : LAssistant a ∈ L) by (apply HL; by left).
    assert (Hrs' : Forall (fun r => toolCallId r ∈ call_ids a) rs').
    { apply list.Forall_fmap. eapply list.Forall_impl; [exact Hrs|]. intros r. cbn. by rewrite seen_id. }
    cbn [settle]. change (is_failed (with_content _ a)) with (is_failed a). rewrite Ef. change (insertSyntheticToolResults [] [] ++ ?l) with l. constructor; [done|].
    rewrite transform_all_results, (sent_result m1 a); [|intros i Hi; rewrite Hids; destruct (decide (sent_id a i <> i)); [by rewrite decide_True|rewrite decide_False by tauto; apply Hm; by apply elem_of_app; left]
      |by intros i Hi; apply Hne|done].
    rewrite settle_results.
    2:{ change (id <$> tool_calls ?x) with (call_ids x). rewrite sent_call_ids. apply list.Forall_fmap. eapply list.Forall_impl; [exact Hrs'|]. intros r Hr. cbn. by apply list_elem_of_fmap_2. }
    apply Forall2_app.
    + unfold rs'. apply Forall2_fmap_l. do 3 apply Forall2_fmap_r. apply Forall_Forall2_diag. eapply list.Forall_impl; [exact Hrs|]. intros r Hr. cbn.
      exists a, (seen r). split_and!; [done|done|unfold see, seen; by destruct (m_images to)|by rewrite seen_id].
    + rewrite settle_answered.
      * apply IH; [done| | |done].
        -- intros i Hi. rewrite Hids, decide_False; [apply Hm; by apply elem_of_app; right|]. intros [Hi' _]. by apply (Hdisj i).
        -- intros msg Hmsg. apply HL. right. by apply elem_of_app; right.
      * by apply transform_begins, see_begins, (history_begins _ kept).
      * apply list.Forall_forall. intros c Hc. apply elem_of_app. left. apply elem_of_reverse.
        assert (Hi : id c ∈ call_ids (with_content (a_content a ≫= sent_block a) a)) by (by apply list_elem_of_fmap_2).
        rewrite sent_call_ids in Hi. apply list_elem_of_fmap in Hi as (i & -> & Hi). rewrite list.Forall_forall in Hall. apply Hall in Hi. apply list_elem_of_fmap in Hi as (r & -> & Hr).
        unfold rs'. rewrite <- !list_fmap_compose. apply list_elem_of_fmap. exists r. split; [|done]. cbn. by rewrite seen_id.
  - rewrite fmap_cons, fmap_app, see_assistant, see_results. cbn [transform_all transform_message].
    pose proof (transform_blocks_ids a m (a_content a)) as Hids. destruct (transform_blocks a m (a_content a)) as [content m1]. cbn [fst snd] in Hids.
    rewrite all_calls_turn in Hnd, Hm. apply NoDup_app in Hnd as (_ & Hdisj & Hnd).
    cbn [settle]. change (is_failed (with_content _ a)) with (is_failed a). rewrite Ef. change (insertSyntheticToolResults [] [] ++ ?l) with l. rewrite transform_all_results.
    set (out := _ <$> (seen <$> rs)). assert (Ho : exists rs', out = results rs').
    { unfold out. clear. induction rs as [|r rs [rs' IHr]]; [by exists []|]. rewrite !fmap_cons, IHr. cbn. destruct (JsMap.get _ _) as [[|x i]|]; try case_bool_decide; by eexists (_ :: _). }
    destruct Ho as [rs' ->]. rewrite settle_dropped. apply IH; [done| | |done].
    + intros i Hi. rewrite Hids, decide_False; [apply Hm; by apply elem_of_app; right|]. intros [Hi' _]. by apply (Hdisj i).
    + intros msg Hmsg. apply HL. right. by apply elem_of_app; right.
Qed.
(** C7. Of a transcript whose turns are complete or failed exactly the complete ones are sent, message for message and in order, with nothing made up: of a response
    every block but the thinking another model cannot use, its calls in order, and each result under the identifier its call is sent under; provided that
    no identifier of a call is used twice, and none is sent as an empty one. *)
Theorem history_kept (ms kept : list Message) (Hh : history ms kept) (Hnd : NoDup (all_calls ms))
  (Hne : forall a i, LAssistant a ∈ ms -> i ∈ call_ids a -> sent_id a i <> []) :
  Forall2 (sent_as ms) kept (transformMessages ms).
Proof. unfold transformMessages. rewrite see_all. by apply history_sent. Qed.
End transform.

(** ** What the conversions to the interfaces share *)

Lemma replayable_begins ms : replayable ms -> begins ms.
Proof. by destruct 1. Qed.
(** The results a message is followed by, and the loop over a transcript that skips them. *)
Fixpoint following (msgs : list Message) : list ToolResultMessage := match msgs with LToolResult r :: rest => r :: following rest | _ => [] end.
Lemma following_results (rs : list ToolResultMessage) rest : begins rest -> following ((LToolResult <$> rs) ++ rest) = rs.
Proof. intros Hb. induction rs as [|r rs IH]; cbn; [by destruct rest as [|[]]|by rewrite IH]. Qed.
(** [/[^a-zA-Z0-9_-]/g] replaced by an underscore, cut to a length. *)
Definition id_unit (u : N) : bool := ((65 <=? u) && (u <=? 90) || (97 <=? u) && (u <=? 122) || (48 <=? u) && (u <=? 57) || (u =? 95) || (u =? 45))%N.
Definition clean_id (length : nat) (i : jsstr) : jsstr := take length ((fun u => if id_unit u then u else 95%N) <$> i).
Lemma clean_id_accepted n i : Forall (fun u => id_unit u = true) (clean_id n i) /\ (length (clean_id n i) <= n)%nat.
Proof. unfold clean_id. split; [|rewrite length_take; lia]. apply Forall_take, list.Forall_fmap, list.Forall_true. intros u. cbn. by destruct (id_unit u) eqn:E. Qed.

(** ** Examples *)

Definition demo_usage : Usage := {| input := 0; output := 0; cacheRead := 0; cacheWrite := 0; totalTokens := 0; cost := {| cost_input := 0%Q; cost_output := 0%Q; cost_cacheRead := 0%Q; cost_cacheWrite := 0%Q; cost_total := 0%Q |} |}.
Definition demo_call (i : string) : ToolCall := {| id := js i; name := js "bash"; arguments := []; thoughtSignature := Some (js "sig") |}.
Definition demo_assistant (who : string) (stop : StopReason) (blocks : list AssistantPart) : AssistantMessage :=
  {| a_content := blocks; api := js "api"; provider := js who; model := js "m"; usage := demo_usage; stopReason := stop; errorMessage := None; a_timestamp := 0 |}.
Definition demo_result (i : string) : ToolResultMessage := {| toolCallId := js i; toolName := js "bash"; t_content := []; details := None; isError := false; t_timestamp := 0 |}.
Definition demo_model : Model := {| m_provider := js "here"; m_api := js "api"; m_id := js "m"; m_images := false; m_reasoning := true |}.
(** Bars become underscores, as for Anthropic. *)
Definition demo_normalize (i : jsstr) (_ : AssistantMessage) : jsstr := (fun u => if (u =? 124)%N then 95%N else u) <$> i.
Definition demo_history : list Message :=
  [LUser {| u_content := CString (js "hi"); u_timestamp := 1 |};
   LAssistant (demo_assistant "there" ToolUse [AThinking {| thinking := js "hm"; thinkingSignature := None; redacted := None |}; AToolCall (demo_call "a|1"); AToolCall (demo_call "a|2")]);
   LToolResult (demo_result "a|2"); LToolResult (demo_result "a|1");
   LAssistant (demo_assistant "there" Aborted [AToolCall (demo_call "b")]); LToolResult (demo_result "b");
   LAssistant (demo_assistant "here" Stop [AText (mkText (js "done"))])].
Definition demo_kept : list Message := take 4 demo_history ++ drop 6 demo_history.
Lemma demo_history_kept : history demo_history demo_kept.
Proof.
  constructor. apply (hi_turn _ [demo_result "a|2"; demo_result "a|1"]); [done| | |].
  1,2: apply (bool_decide_unpack _); by vm_compute.
  apply (hi_failed _ [demo_result "b"]); [done|]. apply (hi_turn _ []); [done|constructor|constructor|constructor].
Qed.
Example demo_sent : transformMessages demo_model (Some demo_normalize) 9 demo_history =
  [LUser {| u_content := CString (js "hi"); u_timestamp := 1 |};
   LAssistant (demo_assistant "there" ToolUse [AText (mkText (js "hm")); AToolCall (unsigned (demo_call "a_1")); AToolCall (unsigned (demo_call "a_2"))]);
   LToolResult (demo_result "a_2"); LToolResult (demo_result "a_1");
   LAssistant (demo_assistant "here" Stop [AText (mkText (js "done"))])].
Proof. by vm_compute. Qed.
Lemma history_kept_witness : Forall2 (sent_as demo_model (Some demo_normalize) demo_history) demo_kept (transformMessages demo_model (Some demo_normalize) 9 demo_history).
Proof.
  apply (history_kept demo_model (Some demo_normalize) 9 demo_history demo_kept demo_history_kept).
  - apply (bool_decide_unpack _). by vm_compute.
  - intros a i Ha Hi. unfold sent_id. destruct (isSameModel demo_model a); [|unfold demo_normalize; intros H%fmap_nil_inv; subst i]; [intros ->|].
    all: revert Hi; repeat (apply elem_of_cons in Ha as [Ha|Ha]; [first [discriminate Ha | injection Ha as ->; apply (bool_decide_unpack _); by vm_compute]|]); by apply not_elem_of_nil in Ha.
Defined.
(** An identifier that was changed for another model's call is changed for a later call of this model too, in the result only: the result is lost. *)
Example reused_id_loses_result :
  let call := demo_assistant "here" ToolUse [AToolCall (demo_call "a|1")] in
  transformMessages demo_model (Some demo_normalize) 9 (take 4 demo_history ++ [LAssistant call; LToolResult (demo_result "a|1")]) =
  transformMessages demo_model (Some demo_normalize) 9 (take 4 demo_history) ++ [LAssistant call; LToolResult (synthetic 9 (demo_call "a|1"))].
Proof. by vm_compute. Qed.
(** Runs of images are one placeholder, unless a text with the words of the placeholder stands before them: then there is none. *)
Example images_replaced : let i := PImage {| data := []; mimeType := [] |} in let p := PText (mkText (js "x")) in
  replaceImagesWithPlaceholder [i; i; PText (mkText (js "a")); i] (js "x") = [p; PText (mkText (js "a")); p] /\ replaceImagesWithPlaceholder [p; i] (js "x") = [p].
Proof. done. Qed.
