(* ===== verification/Sanitize.v ===== *)
(** * Text that can be sent (packages/ai/src/utils/sanitize-unicode.ts)

    Strings of the language may hold halves of surrogate pairs, which no encoding of Unicode can carry. Every text sent to a
    provider goes through [sanitizeSurrogates]. *)

(* Source aliases:
   SU = src/packages/ai/src/utils/sanitize-unicode.ts *)

From S2P Require Import Prelude JsString.
Local Open Scope N_scope.

Definition is_high_opt (u : option N) : bool := match u with Some u => is_high u | None => false end.
(** SU 21-25 sanitizeSurrogates. The two alternatives of the pattern, at a unit with its neighbours in the original text. *)
Definition unpaired (before : option N) (u : N) (behind : jsstr) : bool :=
  (is_high u && negb match behind with v :: _ => is_low v | [] => false end) || (is_low u && negb (is_high_opt before)).
Fixpoint sanitize_from (before : option N) (text : jsstr) : jsstr :=
  match text with
  | [] => []
  | u :: rest => if unpaired before u rest then sanitize_from (Some u) rest else u :: sanitize_from (Some u) rest
  end.
(** SU 21-25 sanitizeSurrogates. *)
Definition sanitizeSurrogates (text : jsstr) : jsstr := sanitize_from None text.

(** A string in which every surrogate is half of a pair. *)
Fixpoint well_paired (s : jsstr) : bool :=
  match s with
  | [] => true
  | u :: rest =>
      if is_high u then match rest with v :: rest' => is_low v && well_paired rest' | [] => false end
      else negb (is_low u) && well_paired rest
  end.
(** The reference: reading from the left, pairs are kept, and what is left of surrogates is not. *)
Fixpoint keep_pairs (s : jsstr) : jsstr :=
  match s with
  | [] => []
  | u :: rest =>
      if is_high u then match rest with v :: rest' => if is_low v then u :: v :: keep_pairs rest' else keep_pairs rest | [] => [] end
      else if is_low u then keep_pairs rest else u :: keep_pairs rest
  end.
Lemma high_not_low u : is_high u = true -> is_low u = false.
Proof. unfold is_high, is_low. intros H. to_prop. apply andb_false_iff. left. apply N.leb_gt. lia. Qed.
Lemma sanitize_cons before u s : sanitize_from before (u :: s) = if unpaired before u s then sanitize_from (Some u) s else u :: sanitize_from (Some u) s.
Proof. done. Qed.
Lemma keep_cons u s : keep_pairs (u :: s) =
  if is_high u then match s with v :: s' => if is_low v then u :: v :: keep_pairs s' else keep_pairs s | [] => [] end else if is_low u then keep_pairs s else u :: keep_pairs s.
Proof. done. Qed.
Lemma well_cons u s : well_paired (u :: s) = if is_high u then match s with v :: s' => is_low v && well_paired s' | [] => false end else negb (is_low u) && well_paired s.
Proof. done. Qed.
Lemma sanitize_keeps s before : is_high_opt before = false \/ match s with v :: _ => is_low v = false | [] => True end -> sanitize_from before s = keep_pairs s.
Proof.
  revert before. induction s as [| u | u v s IH1 IH2] using units_ind; intros before Hb; [done| |]; rewrite sanitize_cons, keep_cons; unfold unpaired.
  - destruct (is_high u) eqn:Eh; [done|]. destruct (is_low u) eqn:El; [|done]. destruct Hb as [->|Hb]; [done|congruence].
  - destruct (is_high u) eqn:Eh.
    + rewrite (high_not_low u) by done. cbn [andb]. rewrite orb_false_r. destruct (is_low v) eqn:El; cbn [negb].
      * assert (Eh' : is_high v = false) by (destruct (is_high v) eqn:E; [apply high_not_low in E; congruence|done]).
        rewrite sanitize_cons. unfold unpaired. cbn [is_high_opt]. rewrite El, Eh', Eh. cbn [andb negb orb]. do 2 f_equal. apply IH1. by left.
      * apply IH2. by right.
    + destruct (is_low u) eqn:El; cbn [andb orb].
      * destruct Hb as [->|Hb]; [|congruence]. apply IH2. by left.
      * f_equal. apply IH2. by left.
Qed.
Lemma keep_pairs_well s : well_paired (keep_pairs s) = true.
Proof.
  induction s as [| u | u v s IH1 IH2] using units_ind; [done| |]; rewrite keep_cons.
  - destruct (is_high u) eqn:Eh; [done|]. destruct (is_low u) eqn:El; [done|]. rewrite well_cons. by rewrite Eh, El.
  - destruct (is_high u) eqn:Eh.
    + destruct (is_low v) eqn:El; [|done]. rewrite well_cons. by rewrite Eh, El.
    + destruct (is_low u) eqn:El; [done|]. rewrite well_cons. by rewrite Eh, El, IH2.
Qed.
Lemma keep_pairs_same s : well_paired s = true -> keep_pairs s = s.
Proof.
  induction s as [| u | u v s IH1 IH2] using units_ind; [done| |]; rewrite keep_cons, well_cons.
  - by destruct (is_high u), (is_low u).
  - destruct (is_high u) eqn:Eh.
    + intros H. to_prop. by rewrite H, IH1.
    + intros H. to_prop. by rewrite H, IH2.
Qed.
(** What is sent holds pairs only, the pairs of the text in order; a text of pairs only is sent as it is. *)
Theorem sanitize_pairs (s : jsstr) :
  sanitizeSurrogates s = keep_pairs s /\ well_paired (sanitizeSurrogates s) = true /\ (well_paired s = true -> sanitizeSurrogates s = s).
Proof.
  unfold sanitizeSurrogates. rewrite sanitize_keeps by (by left). split_and!; [done|apply keep_pairs_well|apply keep_pairs_same].
Qed.
Lemma sanitize_idem s : sanitizeSurrogates (sanitizeSurrogates s) = sanitizeSurrogates s.
Proof. pose proof (sanitize_pairs s) as (_ & H & _). by apply sanitize_pairs. Qed.
