(* ===== verification/AnthropicMessages.v ===== *)
(** * Messages for the Anthropic interface (packages/ai/src/providers/anthropic.ts)

    The conversion of a transcript that was made fit for replay ([Replay]) to the messages of the interface: content blocks, results
    gathered in one user message, a mark for the cache. [anthropic_accepts] is the rule the interface has for tool calls. *)

(* Source aliases:
   AP = src/packages/ai/src/providers/anthropic.ts *)

From S2P Require Import Prelude JsString JsMap Messages Replay Sanitize.
Local Open Scope Z_scope.

(** ** Messages of the interface *)

Record CacheControlEphemeral := { ttl : option jsstr }.
(** AP 125-137 convertContentBlocks. The parts of a result. *)
Inductive result_part := RText (s : jsstr) | RImage (media_type data : jsstr).
(** AP 125-137 convertContentBlocks. *)
Inductive result_content := RString (s : jsstr) | RParts (ps : list result_part).
Inductive block :=
| BText (s : jsstr)
| BImage (media_type data : jsstr)
| BThinking (s signature : jsstr)
| BRedacted (data : option jsstr)
| BToolUse (i name : jsstr) (input : json)
| BToolResult (tool_use_id : jsstr) (content : result_content) (is_error : bool).
Record ContentBlockParam := { blk : block; cache_control : option CacheControlEphemeral }.
Inductive param_content := PString (s : jsstr) | PBlocks (bs : list ContentBlockParam).
Inductive role := RoleUser | RoleAssistant.
Record MessageParam := { p_role : role; p_content : param_content }.
Definition plain (b : block) : ContentBlockParam := {| blk := b; cache_control := None |}.

(** ** Conversion *)

(** AP 90-108 claudeCodeTools. *)
Definition claudeCodeTools : list jsstr := js <$>
  ["Read"; "Write"; "Edit"; "Bash"; "Grep"; "Glob"; "AskUserQuestion"; "EnterPlanMode"; "ExitPlanMode"; "KillShell"; "NotebookEdit"; "Skill"; "Task"; "TaskOutput"; "TodoWrite";
   "WebFetch"; "WebSearch"]%string.
(** [toLowerCase], of names. *)
Definition lower (s : jsstr) : jsstr := lower1 <$> s.
(** AP 110-112 toClaudeCodeName. [ccToolLookup] maps the lower case names, which differ. *)
Definition toClaudeCodeName (n : jsstr) : jsstr := default n (list_find (fun t => lower t = lower n) claudeCodeTools ≫= fun it => Some it.2).
(** AP 113-120 fromClaudeCodeName. *)
Definition fromClaudeCodeName (n : jsstr) (tools : list jsstr) : jsstr := default n (list_find (fun t => lower t = lower n) tools ≫= fun it => Some it.2).
(** AP 138-140 convertContentBlocks. *)
Definition is_image (p : Part) : bool := match p with PImage _ => true | PText _ => false end.
Definition part_text (p : Part) : option jsstr := match p with PText t => Some (text t) | PImage _ => None end.
(** AP 143-158 convertContentBlocks. *)
Definition result_part_of (p : Part) : result_part := match p with PText t => RText (sanitizeSurrogates (text t)) | PImage i => RImage (mimeType i) (data i) end.
(** AP 125-169 convertContentBlocks. *)
Definition convertContentBlocks (content : list Part) : result_content :=
  if negb (existsb is_image content) then RString (sanitizeSurrogates (join [LF] (omap part_text content)))
  else
    let blocks := result_part_of <$> content in
    RParts (if existsb (fun p => negb (is_image p)) content then blocks else RText (js "(see attached image)") :: blocks).
(** AP 1076-1078 normalizeToolCallId. *)
Definition normalizeToolCallId (i : jsstr) : jsstr := clean_id 64 i.
(** Nothing but white space. *)
Definition blank (s : jsstr) : bool := bool_decide (trim s = []).

(** AP 1102-1118 convertMessages. *)
Definition user_block (p : Part) : block := match p with PText t => BText (sanitizeSurrogates (text t)) | PImage i => BImage (mimeType i) (data i) end.
(** AP 1119-1124 convertMessages. *)
Definition kept_block (b : block) : bool := match b with BText s => negb (blank s) | _ => true end.
(** AP 1093-1130 convertMessages. *)
Definition convert_user (u : UserMessage) : list MessageParam :=
  match u_content u with
  | CString s => if blank s then [] else [{| p_role := RoleUser; p_content := PString (sanitizeSurrogates s) |}]
  | CParts ps =>
      match filter (fun b => kept_block b = true) (user_block <$> ps) with
      | [] => []
      | bs => [{| p_role := RoleUser; p_content := PBlocks (plain <$> bs) |}]
      end
  end.

Section convert.
Variables (to : Model) (isOAuthToken : bool).
(** AP 1134-1174 convertMessages. *)
Definition assistant_block (b : AssistantPart) : list block :=
  match b with
  | AText t => if blank (text t) then [] else [BText (sanitizeSurrogates (text t))]
  | AThinking t =>
      if default false (redacted t) then [BRedacted (thinkingSignature t)]
      else if blank (thinking t) then []
      else match thinkingSignature t with
           | Some s => if blank s then [BText (sanitizeSurrogates (thinking t))] else [BThinking (sanitizeSurrogates (thinking t)) s]
           | None => [BText (sanitizeSurrogates (thinking t))]
           end
  | AToolCall c => [BToolUse (id c) (if isOAuthToken then toClaudeCodeName (name c) else name c) (JObj (arguments c))]
  end.
(** AP 1131-1179 convertMessages. *)
Definition convert_assistant (a : AssistantMessage) : list MessageParam :=
  match a_content a ≫= assistant_block with
  | [] => []
  | bs => [{| p_role := RoleAssistant; p_content := PBlocks (plain <$> bs) |}]
  end.
(** AP 1184-1189 convertMessages. *)
Definition result_block (r : ToolResultMessage) : block := BToolResult (toolCallId r) (convertContentBlocks (t_content r)) (isError r).
(** AP 1090-1210 convertMessages. The loop, with the number of messages that [i = j - 1] skips. *)
Fixpoint convert_from (skip : nat) (msgs : list Message) : list MessageParam :=
  match msgs with
  | [] => []
  | msg :: rest =>
      match skip with
      | S skip => convert_from skip rest
      | O =>
          match msg with
          | LUser u => convert_user u ++ convert_from 0 rest
          | LAssistant a => convert_assistant a ++ convert_from 0 rest
          | LToolResult r =>
              let more := following rest in
              {| p_role := RoleUser; p_content := PBlocks (plain ∘ result_block <$> r :: more) |} :: convert_from (length more) rest
          end
      end
  end.
(** AP 1217-1223 convertMessages. *)
Definition can_be_cached (b : block) : bool := match b with BText _ | BImage _ _ | BToolResult _ _ _ => true | _ => false end.
Definition cache_last (c : CacheControlEphemeral) (bs : list ContentBlockParam) : list ContentBlockParam :=
  match last bs with
  | Some b => if can_be_cached (blk b) then take (length bs - 1) bs ++ [{| blk := blk b; cache_control := Some c |}] else bs
  | None => bs
  end.
(** AP 1213-1234 convertMessages. *)
Definition cache_message (c : CacheControlEphemeral) (m : MessageParam) : MessageParam :=
  match p_role m with
  | RoleUser =>
      {| p_role := RoleUser;
         p_content := match p_content m with PBlocks bs => PBlocks (cache_last c bs) | PString s => PBlocks [{| blk := BText s; cache_control := Some c |}] end |}
  | RoleAssistant => m
  end.
(** AP 1080-1237 convertMessages. *)
Definition convertMessages (messages : list Message) (now : Z) (cacheControl : option CacheControlEphemeral) : list MessageParam :=
  let params := convert_from 0 (transformMessages to (Some (fun i _ => normalizeToolCallId i)) now messages) in
  match cacheControl, last params with
  | Some c, Some m => take (length params - 1) params ++ [cache_message c m]
  | _, _ => params
  end.

(** ** What the interface accepts *)

Definition blocks_of (m : MessageParam) : list block := match p_content m with PString s => [BText s] | PBlocks bs => blk <$> bs end.
Definition uses (m : MessageParam) : list jsstr := omap (fun b => match b with BToolUse i _ _ => Some i | _ => None end) (blocks_of m).
Definition answered_ids (m : MessageParam) : list jsstr := omap (fun b => match b with BToolResult i _ _ => Some i | _ => None end) (blocks_of m).
(** Messages have a block at least. Calls are made by the assistant, and are answered, all of them and no others, in the user message that follows; results stand
    nowhere else. *)
Inductive accepted : list MessageParam -> Prop :=
| ac_nil : accepted []
| ac_plain m ms : blocks_of m <> [] -> uses m = [] -> answered_ids m = [] -> accepted ms -> accepted (m :: ms)
| ac_calls a u ms : p_role a = RoleAssistant -> p_role u = RoleUser -> uses a <> [] -> answered_ids a = [] -> uses u = [] ->
    Forall (fun b => exists i c e, b = BToolResult i c e) (blocks_of u) -> uses a ⊆ answered_ids u -> answered_ids u ⊆ uses a ->
    accepted ms -> accepted (a :: u :: ms).

Lemma plain_blocks (bs : list block) : blk <$> (plain <$> bs) = bs.
Proof. rewrite <- list_fmap_compose. rewrite (list_fmap_ext _ (fun b => b)); [apply list_fmap_id|done]. Qed.
Lemma anthropic_user u ms : accepted ms -> accepted (convert_user u ++ ms).
Proof.
  intros Hms. unfold convert_user. destruct (u_content u) as [s|ps]; [destruct (blank s); [done|by constructor]|].
  assert (Hno : forall b, b ∈ filter (fun b => kept_block b = true) (user_block <$> ps) -> exists s m d, b = BText s \/ b = BImage m d).
  { intros b [_ ([t|i] & -> & _)%list_elem_of_fmap]%list_elem_of_filter; cbn; [exists (sanitizeSurrogates (text t)), [], []; by left|exists [], (mimeType i), (data i); by right]. }
  destruct (filter _ _) as [|b bs]; [done|]. constructor; [done| | |done].
  all: unfold uses, answered_ids, blocks_of; cbn [p_content]; rewrite plain_blocks; clear -Hno; revert Hno; generalize (b :: bs) as l; clear.
  all: intros l; induction l as [|b l IH]; intros Hno; [done|]; destruct (Hno b (list_elem_of_here _ _)) as (s & m & d & [-> | ->]); cbn; apply IH; intros b' Hb'; apply Hno; by right.
Qed.
Lemma assistant_uses (bs : list AssistantPart) : omap (fun b => match b with BToolUse i _ _ => Some i | _ => None end) (bs ≫= assistant_block) = block_ids bs.
Proof.
  induction bs as [|b bs IH]; [done|]. rewrite bind_cons, omap_app, IH. destruct b as [t|t|c]; cbn [assistant_block]; [by destruct (blank _)| |done].
  destruct (default false (redacted t)); [done|]. destruct (blank (thinking t)); [done|]. destruct (thinkingSignature t) as [s|]; [|done]. by destruct (blank s).
Qed.
Lemma assistant_answers (bs : list AssistantPart) : omap (fun b => match b with BToolResult i _ _ => Some i | _ => None end) (bs ≫= assistant_block) = [].
Proof.
  induction bs as [|b bs IH]; [done|]. rewrite bind_cons, omap_app, IH, app_nil_r. destruct b as [t|t|c]; cbn [assistant_block]; [by destruct (blank _)| |done].
  destruct (default false (redacted t)); [done|]. destruct (blank (thinking t)); [done|]. destruct (thinkingSignature t) as [s|]; [|done]. by destruct (blank s).
Qed.
Lemma anthropic_skip (rs : list ToolResultMessage) rest : convert_from (length rs) ((LToolResult <$> rs) ++ rest) = convert_from 0 rest.
Proof. induction rs as [|r rs IH]; [done|]. cbn. apply IH. Qed.
Lemma results_blocks (rs : list ToolResultMessage) : omap (fun b => match b with BToolResult i _ _ => Some i | _ => None end) (result_block <$> rs) = toolCallId <$> rs.
Proof. induction rs as [|r rs IH]; [done|]. cbn. by rewrite IH. Qed.
Lemma anthropic_turns ms : replayable ms -> accepted (convert_from 0 ms).
Proof.
  induction 1 as [|u ms _ IH|a rs ms Hok Hrs Hall Hms IH]; cbn [convert_from]; [constructor|by apply anthropic_user|].
  pose proof (assistant_uses (a_content a)) as Huse. pose proof (assistant_answers (a_content a)) as Hans. change (block_ids (a_content a)) with (call_ids a) in Huse.
  unfold convert_assistant. destruct rs as [|r rs].
  - assert (Hnone : call_ids a = []) by (destruct (call_ids a) as [|i l]; [done|]; inversion Hall; set_solver).
    destruct (a_content a ≫= assistant_block) as [|b bs]; [done|]. constructor; [done| | |done]; unfold uses, answered_ids, blocks_of; cbn [p_content]; rewrite plain_blocks; [by rewrite Huse|done].
  - assert (Hsome : toolCallId r ∈ call_ids a) by (by inversion Hrs).
    destruct (a_content a ≫= assistant_block) as [|b bs] eqn:Eb; [rewrite <- Huse in Hsome; by apply not_elem_of_nil in Hsome|].
    change ((LToolResult <$> r :: rs) ++ ms) with (LToolResult r :: (LToolResult <$> rs) ++ ms). cbn [app convert_from]. rewrite following_results by (by apply replayable_begins). rewrite anthropic_skip.
    assert (Hblocks : blk <$> (plain ∘ result_block <$> r :: rs) = result_block <$> r :: rs) by (by rewrite list_fmap_compose, plain_blocks).
    apply ac_calls; unfold uses, answered_ids, blocks_of; cbn [p_content p_role]; rewrite ?plain_blocks, ?Hblocks, ?results_blocks, ?Huse; try done.
    + intros Hn. rewrite Hn in Hsome. by apply not_elem_of_nil in Hsome.
    + clear. induction (r :: rs) as [|x l IH]; [done|]. cbn. apply IH.
    + apply list.Forall_fmap, list.Forall_true. intros x. by do 3 eexists.
    + intros i Hi. rewrite list.Forall_forall in Hall. by apply Hall.
    + intros i (x & -> & Hx)%list_elem_of_fmap. rewrite list.Forall_forall in Hrs. by apply Hrs.
Qed.

Definition same_message (m m' : MessageParam) : Prop := p_role m = p_role m' /\ blocks_of m = blocks_of m'.
Lemma accepted_same ps ps' : Forall2 same_message ps ps' -> accepted ps -> accepted ps'.
Proof.
  intros H Ha. revert ps' H. induction Ha as [|m ms H1 H2 H3 _ IH|a u ms H1 H2 H3 H4 H5 H6 H7 H8 _ IH]; intros ps' H; inversion H as [|? m' ? ms' [Hr Hb] Hms]; subst; [constructor| |].
  - constructor; unfold uses, answered_ids in *; rewrite <- ?Hb; try done. by apply IH.
  - inversion Hms as [|? u' ? ms'' [Hr' Hb'] Hms']; subst. apply ac_calls; unfold uses, answered_ids in *; rewrite <- ?Hb, <- ?Hb', <- ?Hr, <- ?Hr'; try done. by apply IH.
Qed.
Lemma cache_same c m : same_message m (cache_message c m).
Proof.
  unfold same_message, cache_message. destruct (p_role m) eqn:Er; [|by rewrite Er]. split; [done|]. unfold blocks_of. cbn [p_content]. destruct (p_content m) as [s|bs]; [done|].
  unfold cache_last. destruct (last bs) as [b|] eqn:El; [|done]. destruct (can_be_cached _); [|done]. apply last_Some in El as [l ->].
  rewrite length_app. cbn [length]. replace (length l + 1 - 1)%nat with (length l) by lia. rewrite take_app_length, !fmap_app. done.
Qed.
(** C8. Whatever the transcript, the model and the cache setting: the messages that are sent keep the rule of the interface for calls. Every message has a block,
    every message with calls is followed by a user message of results, which answer exactly its calls, and no result stands anywhere else. *)
Theorem anthropic_accepts (messages : list Message) (now : Z) (cacheControl : option CacheControlEphemeral) : accepted (convertMessages messages now cacheControl).
Proof.
  unfold convertMessages. set (params := convert_from 0 _).
  assert (Hp : accepted params) by (apply anthropic_turns, transform_replayable).
  destruct cacheControl as [c|]; [|done]. destruct (last params) as [m|] eqn:El; [|done]. apply last_Some in El as [l El].
  rewrite El in *. rewrite length_app. cbn [length]. replace (length l + 1 - 1)%nat with (length l) by lia. rewrite take_app_length.
  eapply accepted_same; [|exact Hp]. apply Forall2_app; [|by constructor; [apply cache_same|constructor]]. clear. induction l as [|x l IH]; by constructor.
Qed.
End convert.

(** Two identifiers may become one: the result of one call then answers both. *)
Example normalized_ids_collide : normalizeToolCallId (js "a|1") = normalizeToolCallId (js "a.1").
Proof. done. Qed.
(** A text of nothing but halves of surrogate pairs is not blank, but is sent as an empty text, which the interface refuses. *)
Example lone_surrogate_sends_empty_text :
  let u := LUser {| u_content := CString [0xD83D%N]; u_timestamp := 0 |} in
  convertMessages demo_model false [u] 0 None = [{| p_role := RoleUser; p_content := PString [] |}] /\
  convert_assistant false (demo_assistant "here" Stop [AText (mkText [0xD83D%N])]) = [{| p_role := RoleAssistant; p_content := PBlocks [plain (BText [])] |}].
Proof. done. Qed.
Example claude_code_names : toClaudeCodeName (js "bash") = js "Bash" /\ toClaudeCodeName (js "ipython") = js "ipython" /\ fromClaudeCodeName (js "Bash") [js "edit"; js "bash"] = js "bash".
Proof. by vm_compute. Qed.
