(* ===== verification/CompletionsMessages.v ===== *)
(** * Messages for the OpenAI completions interface (packages/ai/src/providers/openai-completions.ts)

    The conversion of a transcript that was made fit for replay ([Replay]): one message for each result, reasoning put back where the
    provider had it, images of results in a user message of their own, and a message of the assistant in between for providers that
    want one. [completions_accepts] is the rule for calls, and that no user speaks right after a result where that is not allowed. *)

(* Source aliases:
   OC = src/packages/ai/src/providers/openai-completions.ts *)

From Stdlib Require Import QArith.
From S2P Require Import Prelude JsString JsNumber JsMap Messages Json Replay Sanitize.
Local Open Scope Z_scope.

(** ** Messages of the interface *)

(** What the conversion asks of [ResolvedOpenAICompletionsCompat]. *)
Record Compat := {
  requiresAssistantAfterToolResult : bool; requiresToolResultName : bool; requiresThinkingAsText : bool; requiresReasoningContentOnAssistantMessages : bool;
  supportsDeveloperRole : bool }.
Inductive chat_part := CText (s : jsstr) | CImage (url : jsstr).
Inductive chat_content := CtString (s : jsstr) | CtParts (ps : list chat_part).
Record chat_call := { cc_id : jsstr; cc_name : jsstr; cc_arguments : jsstr }.
(** [ac_field] is the property the reasoning is sent in, [reasoning_details] is absent when empty, and so is [tool_calls]. *)
Record assistant_param := { ac_content : option chat_content; ac_details : list json; ac_field : option (jsstr * jsstr); tool_calls_param : list chat_call }.
Inductive chat_message :=
| System (developer : bool) (content : jsstr)
| ChatUser (content : chat_content)
| ChatAssistant (a : assistant_param)
| Tool (tool_call_id : jsstr) (content : jsstr) (tool_name : option jsstr).

(** ** Reasoning details *)

(** OC 80-80 REASONING_DETAILS_SIGNATURE_TYPE. *)
Definition REASONING_DETAILS_SIGNATURE_TYPE : jsstr := js "openai-completions.reasoning_details.v1".
(** OC 87-89 encodeReasoningDetails. *)
Definition encodeReasoningDetails (details : list json) : jsstr := stringify (JObj [(js "type", JStr REASONING_DETAILS_SIGNATURE_TYPE); (js "details", JArr details)]).
Definition is_object (v : json) : bool := match v with JObj _ => true | _ => false end.
(** OC 91-103 decodeReasoningDetails. *)
Definition decodeReasoningDetails (signature : option jsstr) : option (list json) :=
  match signature with
  | None => None
  | Some s =>
      if negb (starts_with (js "{") s) then None
      else match JSON_parse s with
           | Some (JObj fs) =>
               match JsMap.get fs (js "type"), JsMap.get fs (js "details") with
               | Some (JStr t), Some (JArr details) => if jseqb t REASONING_DETAILS_SIGNATURE_TYPE && forallb is_object details then Some details else None
               | _, _ => None
               end
           | _ => None
           end
  end.

(** ** Conversion *)

Section convert.
Variables (to : Model) (compat : Compat).
(** OC 822-835 convertMessages. *)
Definition normalizeCallId (i : jsstr) : jsstr :=
  if includes (js "|") i then clean_id 40 (default [] (head (split_on 124 i)))
  else if jseqb (m_provider to) (js "openai") then (if (40 <? length i)%nat then take 40 i else i) else i.

Definition thinking_blocks (a : AssistantMessage) : list ThinkingContent := omap (fun b => match b with AThinking t => Some t | _ => None end) (a_content a).
Definition texts (a : AssistantMessage) : list TextContent := omap (fun b => match b with AText t => Some t | _ => None end) (a_content a).
Definition nonblank (s : jsstr) : bool := negb (bool_decide (trim s = [])).
(** What [filter(Boolean)] keeps of the values [JSON.parse] gives. *)
Definition is_truthy (v : json) : bool :=
  match v with
  | JNull => false | JBool b => b | JStr s => negb (bool_decide (s = []))
  | JNum t => match Number t with Fin q => negb (Qeq_bool q 0) | _ => true end
  | JArr _ | JObj _ => true
  end.
(** OC 971-980 convertMessages. *)
Definition call_details (calls : list ToolCall) : list json :=
  filter (fun v => is_truthy v = true) (omap (fun c => match thoughtSignature c with Some ((_ :: _) as s) => JSON_parse s | _ => None end) calls).
Definition no_content : option chat_content := if requiresAssistantAfterToolResult compat then Some (CtString []) else None.
(** OC 888-959 convertMessages. The content and the field for the reasoning. *)
Definition assistant_text (a : AssistantMessage) : option chat_content * option (jsstr * jsstr) :=
  let assistantTextParts := (fun t => sanitizeSurrogates (text t)) <$> filter (fun t => nonblank (text t) = true) (texts a) in
  let assistantText := concat assistantTextParts in
  let nonEmptyThinkingBlocks := filter (fun t => nonblank (thinking t) = true) (filter (fun t => decodeReasoningDetails (thinkingSignature t) = None) (thinking_blocks a)) in
  let thoughts := (fun t => sanitizeSurrogates (thinking t)) <$> nonEmptyThinkingBlocks in
  let with_text := match assistantText with [] => no_content | _ => Some (CtString assistantText) end in
  match nonEmptyThinkingBlocks with
  | first :: _ =>
      if requiresThinkingAsText compat then (Some (CtParts (CText (join [LF; LF] thoughts) :: (CText <$> assistantTextParts))), None)
      else
        let reasoningText := join [LF] thoughts in
        let reasoningField := if requiresReasoningContentOnAssistantMessages compat then Some (js "reasoning_content")
                              else match thinkingSignature first with Some ((_ :: _) as f) => Some f | _ => None end in
        match reasoningField with
        | Some f => (with_text, Some (f, reasoningText))
        | None => (Some (CtString match assistantText with [] => reasoningText | _ => reasoningText ++ [LF; LF] ++ assistantText end), None)
        end
  | [] => (with_text, None)
  end.
Definition chat_call_of (c : ToolCall) : chat_call := {| cc_id := id c; cc_name := name c; cc_arguments := stringify (JObj (arguments c)) |}.
(** OC 886-1007 convertMessages. The message of an assistant's, when there is anything in it. A reasoning field that is named like another property of the
    message is not considered: the fields providers stream their reasoning in are not. *)
Definition convert_assistant (a : AssistantMessage) : option assistant_param :=
  let replayReasoningDetails := thinking_blocks a ≫= (fun t => default [] (decodeReasoningDetails (thinkingSignature t))) in
  let '(content, field) := assistant_text a in
  let calls := tool_calls a in
  let details := match replayReasoningDetails with [] => call_details calls | _ => replayReasoningDetails end in
  let field := if requiresReasoningContentOnAssistantMessages compat && m_reasoning to && bool_decide (field = None) then Some (js "reasoning_content", []) else field in
  let content := match replayReasoningDetails, content, calls with _ :: _, None, [] => Some (CtString []) | _, _, _ => content end in
  let hasContent := match content with Some (CtString (_ :: _)) | Some (CtParts (_ :: _)) => true | _ => false end in
  if negb hasContent && bool_decide (calls = []) && bool_decide (replayReasoningDetails = []) then None
  else Some {| ac_content := content; ac_details := details; ac_field := field; tool_calls_param := chat_call_of <$> calls |}.

(** OC 1036-1041 convertMessages. *)
Definition image_url (i : ImageContent) : jsstr := js "data:" ++ mimeType i ++ js ";base64," ++ data i.
(** OC 1015-1018 convertMessages. *)
Definition part_texts (ps : list Part) : list jsstr := omap (fun p => match p with PText t => Some (text t) | _ => None end) ps.
(** OC 1034-1035 convertMessages. *)
Definition part_images (ps : list Part) : list ImageContent := omap (fun p => match p with PImage i => Some i | _ => None end) ps.
(** OC 1015-1030 convertMessages. *)
Definition tool_message (r : ToolResultMessage) : chat_message :=
  let textResult := join [LF] (part_texts (t_content r)) in
  Tool (toolCallId r)
    (sanitizeSurrogates match textResult, part_images (t_content r) with [], _ :: _ => js "(see attached image)" | [], [] => [] | _, _ => textResult end)
    (if requiresToolResultName compat then match toolName r with [] => None | n => Some n end else None).
(** OC 1033-1044 convertMessages. *)
Definition images_of (rs : list ToolResultMessage) : list chat_part :=
  if m_images to then rs ≫= (fun r => (fun i => CImage (image_url i)) <$> part_images (t_content r)) else [].
(** OC 1051-1054 convertMessages. The message of the assistant's that stands between. *)
Definition bridge : chat_message :=
  ChatAssistant {| ac_content := Some (CtString (js "I have processed the tool results.")); ac_details := []; ac_field := None; tool_calls_param := [] |}.
(** OC 845-845 convertMessages. What [lastRole] can be. *)
Inductive last_role := LastNone | LastUser | LastAssistant | LastTool.
(** OC 864-879 convertMessages. *)
Definition user_part (p : Part) : chat_part := match p with PText t => CText (sanitizeSurrogates (text t)) | PImage i => CImage (image_url i) end.
(** OC 845-1075 convertMessages. The loop, with the number of messages that [i = j - 1] skips and the role that was last. *)
Fixpoint convert_from (skip : nat) (lastRole : last_role) (msgs : list Message) : list chat_message :=
  match msgs with
  | [] => []
  | msg :: rest =>
      match skip with
      | S skip => convert_from skip lastRole rest
      | O =>
          match msg with
          | LUser u =>
              let bridges := if requiresAssistantAfterToolResult compat then match lastRole with LastTool => [bridge] | _ => [] end else [] in
              bridges ++
              match u_content u with
              | CString s => ChatUser (CtString (sanitizeSurrogates s)) :: convert_from 0 LastUser rest
              | CParts [] => convert_from 0 lastRole rest
              | CParts ps => ChatUser (CtParts (user_part <$> ps)) :: convert_from 0 LastUser rest
              end
          | LAssistant a =>
              match convert_assistant a with
              | Some p => ChatAssistant p :: convert_from 0 LastAssistant rest
              | None => convert_from 0 lastRole rest
              end
          | LToolResult r =>
              let rs := r :: following rest in
              (tool_message <$> rs) ++
              match images_of rs with
              | [] => convert_from (length rs - 1) LastTool rest
              | images =>
                  (if requiresAssistantAfterToolResult compat then [bridge] else []) ++
                  ChatUser (CtParts (CText (js "Attached image(s) from tool result:") :: images)) :: convert_from (length rs - 1) LastUser rest
              end
          end
      end
  end.
(** OC 815-1078 convertMessages. *)
Definition convertMessages (messages : list Message) (systemPrompt : option jsstr) (now : Z) : list chat_message :=
  match systemPrompt with
  | Some ((_ :: _) as s) => [System (m_reasoning to && supportsDeveloperRole compat) (sanitizeSurrogates s)]
  | _ => []
  end ++ convert_from 0 LastNone (transformMessages to (Some (fun i _ => normalizeCallId i)) now messages).
End convert.

(** ** What the interface accepts *)

Definition calls_of (m : chat_message) : list jsstr := match m with ChatAssistant a => cc_id <$> tool_calls_param a | _ => [] end.
Definition is_tool (m : chat_message) : bool := match m with Tool _ _ _ => true | _ => false end.
Definition is_user (m : chat_message) : bool := match m with ChatUser _ => true | _ => false end.
Definition answer_id (m : chat_message) : option jsstr := match m with Tool i _ _ => Some i | _ => None end.
(** Every message with calls is followed at once by results, which answer exactly its calls; results stand nowhere else. *)
Inductive accepted : list chat_message -> Prop :=
| ac_nil : accepted []
| ac_plain m ms : is_tool m = false -> calls_of m = [] -> accepted ms -> accepted (m :: ms)
| ac_calls a answers ms : calls_of a <> [] -> Forall (fun m => is_tool m = true) answers -> calls_of a ⊆ omap answer_id answers -> omap answer_id answers ⊆ calls_of a ->
    accepted ms -> accepted (a :: answers ++ ms).
(** No user message stands right behind a result. *)
Definition bridged (ms : list chat_message) : Prop := forall l m m' r, ms = l ++ m :: m' :: r -> is_tool m = true -> is_user m' = false.

Section proofs.
Variables (to : Model) (compat : Compat).
Abbreviation convert := (convert_from to compat).

Lemma completions_skip (rs : list ToolResultMessage) last rest : convert (length rs) last ((LToolResult <$> rs) ++ rest) = convert 0 last rest.
Proof. induction rs as [|r rs IH]; [done|]. cbn. apply IH. Qed.
(** The results of a turn, and what comes behind them. *)
Definition behind_results (rs : list ToolResultMessage) (rest : list Message) : list chat_message :=
  match images_of to rs with
  | [] => convert 0 LastTool rest
  | images => (if requiresAssistantAfterToolResult compat then [bridge] else []) ++ ChatUser (CtParts (CText (js "Attached image(s) from tool result:") :: images)) :: convert 0 LastUser rest
  end.
Lemma completions_results r rs rest last : begins rest ->
  convert 0 last ((LToolResult <$> r :: rs) ++ rest) = (tool_message compat <$> r :: rs) ++ behind_results (r :: rs) rest.
Proof.
  intros Hb. change ((LToolResult <$> r :: rs) ++ rest) with (LToolResult r :: (LToolResult <$> rs) ++ rest). cbn [convert_from]. rewrite following_results by done. f_equal.
  unfold behind_results. cbn [length]. rewrite Nat.sub_succ, Nat.sub_0_r. destruct (images_of to (r :: rs)); by rewrite completions_skip.
Qed.
Lemma convert_assistant_calls a : match convert_assistant to compat a with
  | Some p => cc_id <$> tool_calls_param p = call_ids a
  | None => call_ids a = [] end.
Proof.
  unfold convert_assistant. destruct (assistant_text compat a) as [content field]. case_bool_decide as Ec; cbn [tool_calls_param].
  - unfold call_ids. rewrite Ec, andb_true_r. by destruct (_ && _).
  - rewrite andb_false_r, andb_false_l. cbn [tool_calls_param]. rewrite <- list_fmap_compose. done.
Qed.
Lemma tool_messages rs : Forall (fun m => is_tool m = true) (tool_message compat <$> rs) /\ omap answer_id (tool_message compat <$> rs) = toolCallId <$> rs.
Proof. split; [by apply list.Forall_fmap, list.Forall_true|]. induction rs as [|r rs IH]; [done|]. cbn. by rewrite IH. Qed.
Lemma behind_accepted rs rest : accepted (convert 0 LastTool rest) -> accepted (convert 0 LastUser rest) -> accepted (behind_results rs rest).
Proof.
  intros H1 H2. unfold behind_results. destruct (images_of to rs); [done|]. destruct (requiresAssistantAfterToolResult compat); cbn [app]; repeat (apply ac_plain; [done|done|]); done.
Qed.
Lemma completions_turns ms last : replayable ms -> accepted (convert 0 last ms).
Proof.
  intros H. revert last. induction H as [|u ms _ IH|a rs ms Hok Hrs Hall Hms IH]; intros last; [constructor| |].
  - cbn [convert_from]. set (bs := if requiresAssistantAfterToolResult compat then _ else _). assert (Hb : bs = [] \/ bs = [bridge]) by (unfold bs; destruct (requiresAssistantAfterToolResult compat), last; auto).
    assert (Hin : forall l, accepted l -> accepted (bs ++ l)) by (intros l Hl; destruct Hb as [-> | ->]; [done|]; by apply ac_plain). apply Hin.
    destruct (u_content u) as [s|[|p ps]]; [by apply ac_plain|done|by apply ac_plain].
  - pose proof (convert_assistant_calls a) as Hcalls. cbn [convert_from]. destruct (convert_assistant to compat a) as [p|].
    + destruct rs as [|r rs].
      * apply ac_plain; [done| |apply IH]. cbn. rewrite Hcalls. destruct (call_ids a) as [|i l]; [done|]. inversion Hall; set_solver.
      * rewrite completions_results by (by apply replayable_begins). destruct (tool_messages (r :: rs)) as [Ht Hi]. apply ac_calls; cbn [calls_of]; rewrite ?Hcalls, ?Hi; [|done| | |by apply behind_accepted].
        -- intros Hn. inversion Hrs as [|? ? Hr]. rewrite Hn in Hr. by apply not_elem_of_nil in Hr.
        -- intros i Hin. rewrite list.Forall_forall in Hall. by apply Hall.
        -- intros i (x & -> & Hx)%list_elem_of_fmap. rewrite list.Forall_forall in Hrs. by apply Hrs.
    + destruct rs as [|r rs]; [apply IH|]. inversion Hrs as [|? ? Hr]. rewrite Hcalls in Hr. by apply not_elem_of_nil in Hr.
Qed.

Lemma bridged_nil : bridged [].
Proof. by intros [|] ? ? ? H. Qed.
Lemma bridged_cons m ms : bridged ms -> (is_tool m = true -> match ms with m' :: _ => is_user m' = false | [] => True end) -> bridged (m :: ms).
Proof.
  intros Hms Hm [|x l] m1 m2 r; cbn; intros [= -> ->] Ht; [by apply Hm|]. by eapply Hms.
Qed.
Lemma bridged_results rs ms : bridged ms -> match ms with m' :: _ => is_user m' = false | [] => True end -> bridged ((tool_message compat <$> rs) ++ ms).
Proof.
  intros Hms Hm. induction rs as [|r rs IH]; [done|]. rewrite fmap_cons, <- app_comm_cons. apply bridged_cons; [done|]. intros _. by destruct rs.
Qed.
Lemma convert_bridged ms last : requiresAssistantAfterToolResult compat = true -> replayable ms ->
  bridged (convert 0 last ms) /\ (last = LastTool -> match convert 0 last ms with m :: _ => is_user m = false | [] => True end).
Proof.
  intros Hr H. revert last. induction H as [|u ms _ IH|a rs ms Hok Hrs Hall Hms IH]; intros last; [split; [apply bridged_nil|done]| |].
  - cbn [convert_from]. rewrite Hr. destruct (u_content u) as [s|[|p ps]].
    + assert (Hb : bridged (ChatUser (CtString (sanitizeSurrogates s)) :: convert 0 LastUser ms)) by (apply bridged_cons; [apply IH|done]).
      destruct last; cbn [app]; (split; [first [exact Hb | by apply bridged_cons]|done]).
    + destruct (IH last) as [Hb Hl]. destruct last; cbn [app]; (split; [first [exact Hb | by apply bridged_cons]|done]).
    + assert (Hb : bridged (ChatUser (CtParts (user_part <$> p :: ps)) :: convert 0 LastUser ms)) by (apply bridged_cons; [apply IH|done]).
      destruct last; cbn [app]; (split; [first [exact Hb | by apply bridged_cons]|done]).
  - assert (Hrest : forall last, bridged (convert 0 last ((LToolResult <$> rs) ++ ms)) /\ (last = LastTool -> match convert 0 last ((LToolResult <$> rs) ++ ms) with m :: _ => is_user m = false | [] => True end)).
    { intros l. destruct rs as [|r rs]; [apply IH|]. rewrite completions_results by (by apply replayable_begins). split; [|done]. unfold behind_results.
      destruct (images_of to (r :: rs)) as [|im ims]; [apply bridged_results; by apply IH|]. rewrite Hr. apply bridged_results; [|done]. cbn [app].
      do 2 (apply bridged_cons; [|done]). apply IH. }
    cbn [convert_from]. destruct (convert_assistant to compat a) as [p|]; [|apply Hrest]. split; [|done]. apply bridged_cons; [apply Hrest|done].
Qed.
(** C9. Whatever the transcript, the model and the provider's peculiarities: in what is sent, every message with calls is followed at once by results, which
    answer exactly its calls, and no result stands anywhere else; and for a provider that wants a message of the assistant's behind results, no user message
    stands right behind one. *)
Theorem completions_accepts (messages : list Message) (systemPrompt : option jsstr) (now : Z) :
  accepted (convertMessages to compat messages systemPrompt now) /\
  (requiresAssistantAfterToolResult compat = true -> bridged (convertMessages to compat messages systemPrompt now)).
Proof.
  unfold convertMessages. pose proof (transform_replayable to (Some (fun i _ => normalizeCallId to i)) now messages) as H. set (ms := transformMessages _ _ _ _) in *.
  assert (Hs : forall l, accepted l /\ (requiresAssistantAfterToolResult compat = true -> bridged l) ->
    forall x, accepted (System (m_reasoning to && supportsDeveloperRole compat) x :: l) /\ (requiresAssistantAfterToolResult compat = true -> bridged (System (m_reasoning to && supportsDeveloperRole compat) x :: l))).
  { intros l [Ha Hb] x. split; [by apply ac_plain|]. intros Hr. by apply bridged_cons; [apply Hb|]. }
  assert (Hc : accepted (convert 0 LastNone ms) /\ (requiresAssistantAfterToolResult compat = true -> bridged (convert 0 LastNone ms))).
  { split; [by apply completions_turns|]. intros Hr. by apply convert_bridged. }
  destruct systemPrompt as [[|u s]|]; [done| |done]. by apply Hs.
Qed.
End proofs.

(** ** Reasoning details *)

(** Reasoning details that were stored as a signature are read back as they were. *)
Theorem reasoning_details_round_trip (details : list json) (Hok : Forall json_ok details) (Hobj : forallb is_object details = true) :
  decodeReasoningDetails (Some (encodeReasoningDetails details)) = Some details.
Proof.
  unfold decodeReasoningDetails, encodeReasoningDetails. rewrite JSON_parse_stringify.
  - assert (Hs : starts_with (js "{") (stringify (JObj [(js "type", JStr REASONING_DETAILS_SIGNATURE_TYPE); (js "details", JArr details)])) = true).
    { rewrite stringify_obj. unfold starts_with. by apply bool_decide_eq_true. }
    rewrite Hs. cbn [negb]. change (JsMap.get _ (js "type")) with (Some (JStr REASONING_DETAILS_SIGNATURE_TYPE)).
    change (JsMap.get _ (js "details")) with (Some (JArr details)). unfold jseqb. by rewrite bool_decide_true, Hobj.
  - constructor; [apply (bool_decide_unpack _); by vm_compute| |].
    + apply (bool_decide_unpack _). by vm_compute.
    + apply list.Forall_cons. split; [constructor; apply (bool_decide_unpack _); by vm_compute|]. apply list.Forall_cons. split; [by constructor|apply list.Forall_nil; exact I].
Qed.

(** ** Examples *)

Definition demo_compat (bridge : bool) : Compat :=
  {| requiresAssistantAfterToolResult := bridge; requiresToolResultName := true; requiresThinkingAsText := false; requiresReasoningContentOnAssistantMessages := false;
     supportsDeveloperRole := true |}.
Definition demo_user (s : string) : Message := LUser {| u_content := CString (js s); u_timestamp := 0 |}.
Example demo_chat :
  convertMessages demo_model (demo_compat true) [LAssistant (demo_assistant "here" ToolUse [AToolCall (demo_call "a")]); LToolResult (demo_result "a"); demo_user "go"] (Some (js "be good")) 0 =
  [System true (js "be good");
   ChatAssistant {| ac_content := Some (CtString []); ac_details := []; ac_field := None; tool_calls_param := [{| cc_id := js "a"; cc_name := js "bash"; cc_arguments := js "{}" |}] |};
   Tool (js "a") [] (Some (js "bash")); bridge; ChatUser (CtString (js "go"))].
Proof. by vm_compute. Qed.
(** A user message without parts is not sent, but the message in front of it is, and once more in front of the next. *)
Example empty_user_bridged_twice :
  let turn := [LAssistant (demo_assistant "here" ToolUse [AToolCall (demo_call "a")]); LToolResult (demo_result "a"); LUser {| u_content := CParts []; u_timestamp := 0 |}; demo_user "go"] in
  drop 2 (convertMessages demo_model (demo_compat true) turn None 0) = [bridge; bridge; ChatUser (CtString (js "go"))].
Proof. by vm_compute. Qed.
