(* ===== verification/GoogleMessages.v ===== *)
(** * Messages for the Google interfaces (packages/ai/src/providers/google-shared.ts)

    The conversion of a transcript that was made fit for replay ([Replay]) to contents. The interface wants all the responses to the
    calls of one content in the one content that follows; [google_turns] says when they are, and [images_split_responses] shows what
    happens otherwise. *)

(* Source aliases:
   GS = src/packages/ai/src/providers/google-shared.ts *)

From S2P Require Import Prelude JsString JsNumber JsMap Messages Replay Sanitize.
Local Open Scope Z_scope.

(** ** Contents of the interface *)

Record call_response := { fr_name : jsstr; fr_error : bool; fr_value : jsstr; fr_parts : list ImageContent; fr_id : option jsstr }.
Inductive gpart :=
| GText (s : jsstr) (thought : bool) (signature : option jsstr)
| GInline (i : ImageContent)
| GCall (call_name : jsstr) (args : json) (call_id : option jsstr) (signature : option jsstr)
| GResponse (r : call_response).
Inductive grole := GUser | GModel.
Record content := { g_role : grole; parts : list gpart }.

(** ** Signatures *)

(** GS 67-70 retainThoughtSignature. *)
Definition retainThoughtSignature (existing incoming : option jsstr) : option jsstr := if truthy incoming then incoming else existing.
(** A unit of the alphabet. *)
Definition base64_unit (u : N) : bool := ((65 <=? u) && (u <=? 90) || (97 <=? u) && (u <=? 122) || (48 <=? u) && (u <=? 57) || (u =? 43) || (u =? 47))%N.
(** GS 73-73 base64SignaturePattern. One unit of the alphabet at least, then up to two equals signs; the pattern's [$] is the end of the text. *)
Definition base64_pattern (s : jsstr) : bool :=
  existsb (fun pad => (pad <? length s)%nat && forallb base64_unit (take (length s - pad) s) && bool_decide (drop (length s - pad) s = replicate pad 61%N)) [0; 1; 2]%nat.
(** GS 75-79 isValidThoughtSignature. *)
Definition isValidThoughtSignature (s : jsstr) : bool := bool_decide (s <> []) && (length s mod 4 =? 0)%nat && base64_pattern s.
(** GS 82-84 resolveThoughtSignature. *)
Definition resolveThoughtSignature (isSameProviderAndModel : bool) (signature : option jsstr) : option jsstr :=
  match signature with Some s => if isSameProviderAndModel && isValidThoughtSignature s then Some s else None | None => None end.

(** ** Models *)

(** GS 87-89 requiresToolCallId. *)
Definition requiresToolCallId (modelId : jsstr) : bool := starts_with (js "claude-") modelId || starts_with (js "gpt-oss-") modelId.
(** GS 91-95 getGeminiMajorVersion. *)
Definition getGeminiMajorVersion (modelId : jsstr) : option Z :=
  let digits_behind (p : jsstr) := fun s => if starts_with p s then match (span is_digit (drop (length p) s)).1 with [] => None | ds => Some (digits_value 10 dec_digit ds) end else None in
  let s := lower1 <$> modelId in
  match digits_behind (js "gemini-live-") s with Some v => Some v | None => digits_behind (js "gemini-") s end.
(** GS 97-103 supportsMultimodalFunctionResponse. *)
Definition supportsMultimodalFunctionResponse (modelId : jsstr) : bool := match getGeminiMajorVersion modelId with Some v => 3 <=? v | None => true end.

(** ** Conversion *)

Definition inline (i : ImageContent) : gpart := GInline i.
(** GS 123-134 convertMessages. *)
Definition user_part (p : Part) : gpart := match p with PText t => GText (sanitizeSurrogates (text t)) false None | PImage i => inline i end.
(** GS 116-140 convertMessages. *)
Definition convert_user (u : UserMessage) : list content :=
  match u_content u with
  | CString s => [{| g_role := GUser; parts := [GText (sanitizeSurrogates s) false None] |}]
  | CParts [] => []
  | CParts ps => [{| g_role := GUser; parts := user_part <$> ps |}]
  end.

Section convert.
Variable to : Model.
(** GS 145-181 convertMessages. *)
Definition assistant_parts (same : bool) (b : AssistantPart) : list gpart :=
  match b with
  | AText t => match trim (text t) with [] => [] | _ => [GText (sanitizeSurrogates (text t)) false (resolveThoughtSignature same (textSignature t))] end
  | AThinking t =>
      match trim (thinking t) with
      | [] => []
      | _ => if same then [GText (sanitizeSurrogates (thinking t)) true (resolveThoughtSignature same (thinkingSignature t))] else [GText (sanitizeSurrogates (thinking t)) false None]
      end
  | AToolCall c => [GCall (name c) (JObj (arguments c)) (if requiresToolCallId (m_id to) then Some (id c) else None) (resolveThoughtSignature same (thoughtSignature c))]
  end.
(** GS 141-187 convertMessages. *)
Definition convert_assistant (a : AssistantMessage) : list content :=
  let isSameProviderAndModel := bool_decide (provider a = m_provider to) && bool_decide (model a = m_id to) in
  match a_content a ≫= assistant_parts isSameProviderAndModel with [] => [] | ps => [{| g_role := GModel; parts := ps |}] end.
Definition seen_images (r : ToolResultMessage) : list ImageContent :=
  if m_images to then omap (fun p => match p with PImage i => Some i | _ => None end) (t_content r) else [].
(** GS 189-222 convertMessages. *)
Definition response_part (r : ToolResultMessage) : gpart :=
  let textResult := join [LF] (omap (fun p => match p with PText t => Some (text t) | _ => None end) (t_content r)) in
  let imageContent := seen_images r in
  let responseValue := match textResult, imageContent with [], [] => [] | [], _ => js "(see attached image)" | _, _ => sanitizeSurrogates textResult end in
  GResponse {| fr_name := toolName r; fr_error := isError r; fr_value := responseValue;
    fr_parts := if supportsMultimodalFunctionResponse (m_id to) then imageContent else [];
    fr_id := if requiresToolCallId (m_id to) then Some (toolCallId r) else None |}.
Definition is_response (p : gpart) : bool := match p with GResponse _ => true | _ => false end.
(** GS 225-233 convertMessages. The response joins the last content if that is a user's with responses. *)
Definition push_response (p : gpart) (contents : list content) : list content :=
  match last contents with
  | Some {| g_role := GUser; parts := ps |} =>
      if existsb is_response ps then take (length contents - 1) contents ++ [{| g_role := GUser; parts := ps ++ [p] |}] else contents ++ [{| g_role := GUser; parts := [p] |}]
  | _ => contents ++ [{| g_role := GUser; parts := [p] |}]
  end.
(** GS 188-242 convertMessages. *)
Definition push_result (r : ToolResultMessage) (contents : list content) : list content :=
  let contents := push_response (response_part r) contents in
  match seen_images r with
  | [] => contents
  | images => if supportsMultimodalFunctionResponse (m_id to) then contents
              else contents ++ [{| g_role := GUser; parts := GText (js "Tool result image:") false None :: (inline <$> images) |}]
  end.
(** GS 115-243 convertMessages. One message. *)
Definition push_message (contents : list content) (msg : Message) : list content :=
  match msg with
  | LUser u => contents ++ convert_user u
  | LAssistant a => contents ++ convert_assistant a
  | LToolResult r => push_result r contents
  end.
(** GS 108-111 convertMessages. *)
Definition normalizeToolCallId (i : jsstr) : jsstr := if requiresToolCallId (m_id to) then clean_id 64 i else i.
(** GS 106-246 convertMessages. *)
Definition convertMessages (messages : list Message) (now : Z) : list content :=
  foldl push_message [] (transformMessages to (Some (fun i _ => normalizeToolCallId i)) now messages).

(** ** Turns *)

(** A transcript and its contents: the responses to the calls of a content are one content, the next. *)
Inductive google_turns : list Message -> list content -> Prop :=
| gt_nil : google_turns [] []
| gt_user u ms cs : google_turns ms cs -> google_turns (LUser u :: ms) (convert_user u ++ cs)
| gt_plain a ms cs : call_ids a = [] -> google_turns ms cs -> google_turns (LAssistant a :: ms) (convert_assistant a ++ cs)
| gt_calls a rs ms ps cs : call_ids a <> [] -> convert_assistant a = [{| g_role := GModel; parts := ps |}] -> rs <> [] -> google_turns ms cs ->
    google_turns (LAssistant a :: (LToolResult <$> rs) ++ ms) ({| g_role := GModel; parts := ps |} :: {| g_role := GUser; parts := response_part <$> rs |} :: cs).
(** Images of results go into the response, or there are none. *)
Definition images_inside (r : ToolResultMessage) : Prop := supportsMultimodalFunctionResponse (m_id to) = true \/ seen_images r = [].
Lemma push_inside r contents : images_inside r -> push_result r contents = push_response (response_part r) contents.
Proof. intros [H|H]; unfold push_result; rewrite H; by destruct (seen_images r). Qed.
Lemma response_is p : exists r, response_part p = GResponse r.
Proof. by eexists. Qed.
Lemma push_first r front c : existsb is_response (parts c) = false \/ g_role c = GModel -> push_response (response_part r) (front ++ [c]) = front ++ [c; {| g_role := GUser; parts := [response_part r] |}].
Proof.
  intros H. unfold push_response. rewrite last_snoc. destruct c as [[] ps]; cbn in H; [|by rewrite <- app_assoc]. destruct H as [H|H]; [|done]. by rewrite H, <- app_assoc.
Qed.
Lemma push_next r ps front : existsb is_response ps = true -> push_response (response_part r) (front ++ [{| g_role := GUser; parts := ps |}]) = front ++ [{| g_role := GUser; parts := ps ++ [response_part r] |}].
Proof. intros H. unfold push_response. rewrite last_snoc, H, length_app. cbn [length]. replace (length front + 1 - 1)%nat with (length front) by lia. by rewrite take_app_length. Qed.
Lemma push_more rs front ps : existsb is_response ps = true -> Forall images_inside rs ->
  foldl push_message (front ++ [{| g_role := GUser; parts := ps |}]) (LToolResult <$> rs) = front ++ [{| g_role := GUser; parts := ps ++ (response_part <$> rs) |}].
Proof.
  intros Hps H. revert ps Hps. induction H as [|r rs Hr _ IH]; intros ps Hps; [by rewrite app_nil_r|]. rewrite fmap_cons. cbn [foldl push_message].
  rewrite push_inside, push_next by done. rewrite IH; [by rewrite <- app_assoc|]. rewrite existsb_app, Hps. done.
Qed.
Lemma assistant_content a c : c ∈ tool_calls a -> exists ps, convert_assistant a = [{| g_role := GModel; parts := ps |}].
Proof.
  intros Hc. unfold convert_assistant. set (same := bool_decide _ && _). destruct (a_content a ≫= assistant_parts same) as [|p ps] eqn:E; [|by eexists].
  unfold tool_calls in Hc. revert E Hc. induction (a_content a) as [|b bs IH]; [by intros _ ?%not_elem_of_nil|]. rewrite bind_cons. intros [E1 E2]%app_eq_nil. destruct b; [by apply IH..|done].
Qed.
Lemma push_appends ms contents : replayable ms -> (forall r, LToolResult r ∈ ms -> images_inside r) ->
  exists cs, foldl push_message contents ms = contents ++ cs /\ google_turns ms cs.
Proof.
  intros H. revert contents. induction H as [|u ms _ IH|a rs ms Hok Hrs Hall Hms IH]; intros contents Hin.
  - exists []. rewrite app_nil_r. split; [done|constructor].
  - cbn [foldl push_message]. destruct (IH (contents ++ convert_user u)) as (cs & -> & Hcs); [intros r Hr; apply Hin; by right|]. eexists. rewrite <- app_assoc. split; [done|by constructor].
  - cbn [foldl push_message]. rewrite foldl_app. destruct rs as [|r rs].
    + destruct (IH (contents ++ convert_assistant a)) as (cs & Heq & Hcs); [intros r Hr; apply Hin; by right|]. cbn [fmap list_fmap foldl app]. rewrite Heq. eexists. rewrite <- app_assoc. split; [done|]. apply gt_plain; [|done].
      destruct (call_ids a) as [|i l]; [done|]. inversion Hall; set_solver.
    + assert (Hr : toolCallId r ∈ call_ids a) by (by inversion Hrs). destruct (proj1 (list_elem_of_fmap _ _ _) Hr) as (c & _ & Hc). destruct (assistant_content a c Hc) as [ps Hps]. rewrite Hps.
      assert (Himg : Forall images_inside (r :: rs)).
      { apply list.Forall_forall. intros x Hx. apply Hin. right. apply elem_of_app. left. by apply list_elem_of_fmap_2. }
      rewrite fmap_cons. cbn [foldl push_message]. rewrite push_inside by (by inversion Himg). rewrite push_first by (by right).
      replace (contents ++ [{| g_role := GModel; parts := ps |}; {| g_role := GUser; parts := [response_part r] |}]) with
        ((contents ++ [{| g_role := GModel; parts := ps |}]) ++ [{| g_role := GUser; parts := [response_part r] |}]) by (by rewrite <- app_assoc).
      rewrite push_more; [|done|by inversion Himg].
      destruct (IH ((contents ++ [{| g_role := GModel; parts := ps |}]) ++ [{| g_role := GUser; parts := [response_part r] ++ (response_part <$> rs) |}])) as (cs & -> & Hcs).
      { intros x Hx. apply Hin. right. apply elem_of_app. by right. }
      eexists. rewrite <- !app_assoc. split; [done|]. apply (gt_calls a (r :: rs)); [|done..]. intros Hn. rewrite Hn in Hr. by apply not_elem_of_nil in Hr.
Qed.
(** Unless images of results have to be sent apart, the calls of a content are answered by the one content behind it, which has nothing else, whatever
    the transcript. *)
Theorem google_accepts (messages : list Message) (now : Z)
  (Himages : supportsMultimodalFunctionResponse (m_id to) = true \/ m_images to = false) :
  google_turns (transformMessages to (Some (fun i _ => normalizeToolCallId i)) now messages) (convertMessages messages now).
Proof.
  unfold convertMessages. destruct (push_appends _ [] (transform_replayable to (Some (fun i _ => normalizeToolCallId i)) now messages)) as (cs & -> & Hcs); [|done].
  intros r _. destruct Himages as [H|H]; [by left|]. right. unfold seen_images. by rewrite H.
Qed.
End convert.

Definition gemini (model_id : string) : Model := {| m_provider := js "google"; m_api := js "google"; m_id := js model_id; m_images := true; m_reasoning := true |}.
Definition image_result (i : string) : ToolResultMessage :=
  {| toolCallId := js i; toolName := js "look"; t_content := [PImage {| data := js "AA"; mimeType := js "image/png" |}]; details := None; isError := false; t_timestamp := 0 |}.
Definition two_images : list Message := [LAssistant (demo_assistant "there" ToolUse [AToolCall (demo_call "1"); AToolCall (demo_call "2")]); LToolResult (image_result "1"); LToolResult (image_result "2")].
Lemma google_accepts_witness : google_turns (gemini "gemini-3-pro") (transformMessages (gemini "gemini-3-pro") (Some (fun i _ => i)) 0 two_images) (convertMessages (gemini "gemini-3-pro") two_images 0).
Proof. apply (google_accepts (gemini "gemini-3-pro") two_images 0). left. by vm_compute. Defined.
(** A model before Gemini 3 gets the responses to two calls in two contents, with the first image between them. *)
Example images_split_responses :
  (fun c => (g_role c, existsb is_response (parts c))) <$> convertMessages (gemini "gemini-2.5-pro") two_images 0 =
  [(GModel, false); (GUser, true); (GUser, false); (GUser, true); (GUser, false)].
Proof. by vm_compute. Qed.
Example gemini_versions : getGeminiMajorVersion (js "gemini-live-2.5") = Some 2 /\ getGeminiMajorVersion (js "Gemini-3-pro") = Some 3 /\ getGeminiMajorVersion (js "claude-3") = None.
Proof. by vm_compute. Qed.
Example signatures : isValidThoughtSignature (js "QUI=") = true /\ isValidThoughtSignature (js "QUI") = false /\ isValidThoughtSignature (js "====") = false.
Proof. by vm_compute. Qed.
