(* ===== verification/ResponsesMessages.v ===== *)
(** * Messages for the OpenAI responses interface (packages/ai/src/providers/openai-responses-shared.ts)

    The conversion of a transcript that was made fit for replay ([Replay]) to the flat list of items the interface takes: texts, reasoning,
    calls and outputs stand side by side. [responses_accept] is the rule for calls; the conversion fails when a signature is no JSON. *)

(* Source aliases:
   RS = src/packages/ai/src/providers/openai-responses-shared.ts
   HA = src/packages/ai/src/utils/hash.ts *)

From Stdlib Require Import QArith.
From S2P Require Import Prelude JsString JsNumber JsMap Messages Json Replay Sanitize.
Local Open Scope Z_scope.

(** ** Hashes *)

(** [Math.imul], modulo 2^32; numbers of 32 bits are their unsigned values. *)
Definition imul (a b : N) : N := (a * b mod 2 ^ 32)%N.
Definition base36_digit (d : N) : N := (if d <? 10 then 48 + d else 87 + d)%N.
(** [n.toString(36)] of 32 bits, which are seven digits at most. *)
Fixpoint base36_from (fuel : nat) (n : N) (acc : jsstr) : jsstr :=
  match fuel with
  | O => acc
  | S fuel => let acc := base36_digit (n mod 36) :: acc in if (n <? 36)%N then acc else base36_from fuel (n / 36) acc
  end.
Definition base36 (n : N) : jsstr := base36_from 7 n [].
(** HA 2-8 shortHash. *)
Definition hash_units (str : jsstr) : N * N :=
  foldl (fun h ch => (imul (N.lxor h.1 ch) 2654435761, imul (N.lxor h.2 ch) 1597334677)) (0xdeadbeef, 0x41c6ce57)%N str.
(** HA 1-12 shortHash. *)
Definition shortHash (str : jsstr) : jsstr :=
  let '(h1, h2) := hash_units str in
  let mix a b := N.lxor (imul (N.lxor a (N.shiftr a 16)) 2246822507) (imul (N.lxor b (N.shiftr b 13)) 3266489909) in
  let h1 := mix h1 h2 in
  let h2 := mix h2 h1 in
  base36 h2 ++ base36 h1.

(** ** Items of the interface *)

Inductive input_part := InText (s : jsstr) | InImage (url : jsstr).
Inductive call_output := OutText (s : jsstr) | OutParts (ps : list input_part).
Inductive item :=
| Instructions (developer : bool) (s : jsstr)
| UserItem (ps : list input_part)
| OutputText (s item_id : jsstr) (phase : option jsstr)
| Reasoning (v : json)
| FunctionCall (item_id : option jsstr) (call_id call_name arguments : jsstr)
| FunctionOutput (call_id : jsstr) (out : call_output).

(** RS 43-61 parseTextSignature. *)
Definition parseTextSignature (signature : option jsstr) : option (jsstr * option jsstr) :=
  match signature with
  | Some ((_ :: _) as s) =>
      if starts_with (js "{") s then
        match JSON_parse s with
        | Some (JObj fs) =>
            match JsMap.get fs (js "v"), JsMap.get fs (js "id") with
            | Some (JNum v), Some (JStr i) =>
                if match Number v with Fin q => Qeq_bool q 1 | _ => false end then
                  match JsMap.get fs (js "phase") with
                  | Some (JStr p) => Some (i, if jseqb p (js "commentary") || jseqb p (js "final_answer") then Some p else None)
                  | _ => Some (i, None)
                  end
                else Some (s, None)
            | _, _ => Some (s, None)
            end
        | _ => Some (s, None)
        end
      else Some (s, None)
  | _ => None
  end.
(** RS 37-41 encodeTextSignatureV1. *)
Definition encodeTextSignatureV1 (i : jsstr) (phase : option jsstr) : jsstr :=
  stringify (JObj ([(js "v", JNum (js "1")); (js "id", JStr i)] ++ match phase with Some ((_ :: _) as p) => [(js "phase", JStr p)] | _ => [] end)).

(** ** Identifiers *)

(** [/_+$/] replaced by nothing. *)
Fixpoint strip_underscores (s : jsstr) : jsstr :=
  match s with
  | [] => []
  | u :: rest => match strip_underscores rest with [] => if (u =? 95)%N then [] else [u] | rest' => u :: rest' end
  end.
(** RS 91-95 convertResponsesMessages. *)
Definition normalizeIdPart (part : jsstr) : jsstr := strip_underscores (clean_id 64 part).
(** RS 97-100 convertResponsesMessages. *)
Definition buildForeignResponsesItemId (itemId : jsstr) : jsstr := take 64 (js "fc_" ++ shortHash itemId).
(** [const [a, b] = id.split("|")]. *)
Definition id_parts (i : jsstr) : jsstr * option jsstr := match split_on 124 i with a :: b :: _ => (a, Some b) | [a] => (a, None) | [] => ([], None) end.
Definition call_id_of (i : jsstr) : jsstr := (id_parts i).1.

Section convert.
Variables (to : Model) (allowedToolCallProviders : list jsstr).
(** RS 102-114 convertResponsesMessages. *)
Definition normalizeToolCallId (i : jsstr) (source : AssistantMessage) : jsstr :=
  if negb (bool_decide (m_provider to ∈ allowedToolCallProviders)) then normalizeIdPart i
  else if negb (includes (js "|") i) then normalizeIdPart i
  else
    let '(callId, itemId) := id_parts i in
    let itemId := default [] itemId in
    let isForeignToolCall := negb (bool_decide (provider source = m_provider to) && bool_decide (api source = m_api to)) in
    let normalizedItemId := if isForeignToolCall then buildForeignResponsesItemId itemId else normalizeIdPart itemId in
    let normalizedItemId := if starts_with (js "fc_") normalizedItemId then normalizedItemId else normalizeIdPart (js "fc_" ++ normalizedItemId) in
    normalizeIdPart callId ++ js "|" ++ normalizedItemId.

(** ** Conversion *)

Definition image_url (i : ImageContent) : jsstr := js "data:" ++ mimeType i ++ js ";base64," ++ data i.
(** RS 136-148 convertResponsesMessages. *)
Definition input_part_of (p : Part) : input_part := match p with PText t => InText (sanitizeSurrogates (text t)) | PImage i => InImage (image_url i) end.
Definition delete_status (v : json) : option json :=
  match v with JNull => None | JObj fs => Some (JObj (JsMap.remove fs (js "status"))) | _ => Some v end.
(** RS 163-208 convertResponsesMessages. One block; nothing when a signature is no JSON, which throws, as deleting a property of [null] does. *)
Definition block_items (isDifferentModel : bool) (msgIndex : Z) (b : AssistantPart) : option (list item) :=
  match b with
  | AThinking t =>
      match thinkingSignature t with
      | Some ((_ :: _) as s) => v ← JSON_parse s; v ← (if jseqb (m_provider to) (js "xai") then delete_status v else Some v); Some [Reasoning v]
      | _ => Some []
      end
  | AText t =>
      let '(msgId, phase) := match parseTextSignature (textSignature t) with
                             | Some ((_ :: _) as i, p) => (if (64 <? length i)%nat then js "msg_" ++ shortHash i else i, p)
                             | Some ([], p) => (js "msg_" ++ show_Z msgIndex, p)
                             | None => (js "msg_" ++ show_Z msgIndex, None)
                             end in
      Some [OutputText (sanitizeSurrogates (text t)) msgId phase]
  | AToolCall c =>
      let '(callId, itemIdRaw) := id_parts (id c) in
      let itemId := match itemIdRaw with Some i => if isDifferentModel && starts_with (js "fc_") i then None else Some i | None => None end in
      Some [FunctionCall itemId callId (name c) (stringify (JObj (arguments c)))]
  end.
Fixpoint blocks_items (isDifferentModel : bool) (msgIndex : Z) (bs : list AssistantPart) : option (list item) :=
  match bs with
  | [] => Some []
  | b :: bs => out ← block_items isDifferentModel msgIndex b; outs ← blocks_items isDifferentModel msgIndex bs; Some (out ++ outs)
  end.
(** RS 155-210 convertResponsesMessages. *)
Definition assistant_items (msgIndex : Z) (a : AssistantMessage) : option (list item) :=
  let isDifferentModel := negb (bool_decide (model a = m_id to)) && bool_decide (provider a = m_provider to) && bool_decide (api a = m_api to) in
  blocks_items isDifferentModel msgIndex (a_content a).
(** RS 211-251 convertResponsesMessages. *)
Definition result_item (r : ToolResultMessage) : item :=
  let textResult := join [LF] (omap (fun p => match p with PText t => Some (text t) | _ => None end) (t_content r)) in
  let images := omap (fun p => match p with PImage i => Some i | _ => None end) (t_content r) in
  FunctionOutput (call_id_of (toolCallId r))
    match images with
    | _ :: _ =>
        if m_images to then OutParts (match textResult with [] => [] | _ => [InText (sanitizeSurrogates textResult)] end ++ ((fun i => InImage (image_url i)) <$> images))
        else OutText (sanitizeSurrogates match textResult with [] => js "(see attached image)" | _ => textResult end)
    | [] => OutText (sanitizeSurrogates textResult)
    end.
(** RS 127-253 convertResponsesMessages. The loop; [msgIndex] is not counted on for a message that is skipped. *)
Fixpoint convert_from (msgIndex : Z) (msgs : list Message) : option (list item) :=
  match msgs with
  | [] => Some []
  | LUser u :: rest =>
      match u_content u with
      | CParts [] => convert_from msgIndex rest
      | CParts ps => cons (UserItem (input_part_of <$> ps)) <$> convert_from (msgIndex + 1) rest
      | CString s => cons (UserItem [InText (sanitizeSurrogates s)]) <$> convert_from (msgIndex + 1) rest
      end
  | LAssistant a :: rest =>
      out ← assistant_items msgIndex a;
      match out with [] => convert_from msgIndex rest | _ => app out <$> convert_from (msgIndex + 1) rest end
  | LToolResult r :: rest => cons (result_item r) <$> convert_from (msgIndex + 1) rest
  end.
(** RS 83-256 convertResponsesMessages. *)
Definition convertResponsesMessages (messages : list Message) (systemPrompt : option jsstr) (includeSystemPrompt : bool) (now : Z) : option (list item) :=
  app match systemPrompt with
      | Some ((_ :: _) as s) => if includeSystemPrompt then [Instructions (m_reasoning to) (sanitizeSurrogates s)] else []
      | _ => []
      end <$> convert_from 0 (transformMessages to (Some normalizeToolCallId) now messages).

(** ** What the interface accepts *)

Definition call_of (i : item) : option jsstr := match i with FunctionCall _ c _ _ => Some c | _ => None end.
Definition output_of (i : item) : option jsstr := match i with FunctionOutput c _ => Some c | _ => None end.
(** Items without calls and outputs, and turns: the items of a response, and then the outputs of its calls, for each call one at least. *)
Inductive accepted : list item -> Prop :=
| ac_nil : accepted []
| ac_plain i is_ : call_of i = None -> output_of i = None -> accepted is_ -> accepted (i :: is_)
| ac_turn out outputs is_ : omap output_of out = [] -> Forall (fun i => is_Some (output_of i)) outputs -> omap call_of out ⊆ omap output_of outputs ->
    omap output_of outputs ⊆ omap call_of out -> accepted is_ -> accepted (out ++ outputs ++ is_).
Lemma block_items_calls d n b out : block_items d n b = Some out -> omap output_of out = [] /\ omap call_of out = call_id_of <$> block_ids [b].
Proof.
  unfold block_items. destruct b as [t|t|c].
  - destruct (match parseTextSignature (textSignature t) with Some _ => _ | None => _ end) as [i p]. by intros [= <-].
  - destruct (thinkingSignature t) as [[|u s]|]; [by intros [= <-]| |by intros [= <-]]. cbn. destruct (JSON_parse (u :: s)) as [v|]; [|done]. cbn.
    destruct (if jseqb _ _ then _ else _); [|done]. by intros [= <-].
  - unfold call_id_of. cbn. destruct (id_parts (id c)) as [callId i]. by intros [= <-].
Qed.
Lemma blocks_items_calls d n bs out : blocks_items d n bs = Some out -> omap output_of out = [] /\ omap call_of out = call_id_of <$> block_ids bs.
Proof.
  revert out. induction bs as [|b bs IH]; intros out; cbn [blocks_items]; [by intros [= <-]|].
  destruct (block_items d n b) as [o|] eqn:E; [|done]. destruct (blocks_items d n bs) as [os|]; [|done]. cbn. intros [= <-].
  apply block_items_calls in E as [E1 E2]. destruct (IH os eq_refl) as [H1 H2]. rewrite !omap_app, E1, E2, H1, H2. split; [done|]. rewrite <- fmap_app. f_equal. by destruct b.
Qed.
Lemma responses_results (rs : list ToolResultMessage) rest n : convert_from n ((LToolResult <$> rs) ++ rest) = app (result_item <$> rs) <$> convert_from (n + Z.of_nat (length rs)) rest.
Proof.
  revert n. induction rs as [|r rs IH]; intros n; [cbn; rewrite Z.add_0_r; by destruct (convert_from n rest)|].
  change ((LToolResult <$> r :: rs) ++ rest) with (LToolResult r :: (LToolResult <$> rs) ++ rest). cbn [convert_from]. rewrite IH. cbn [length].
  replace (n + 1 + Z.of_nat (length rs)) with (n + Z.of_nat (S (length rs))) by lia. by destruct (convert_from _ rest).
Qed.
Lemma result_outputs rs : Forall (fun i => is_Some (output_of i)) (result_item <$> rs) /\ omap output_of (result_item <$> rs) = call_id_of <$> (toolCallId <$> rs).
Proof.
  split; [apply list.Forall_fmap, list.Forall_true; intros r; by eexists|]. induction rs as [|r rs IH]; [done|]. cbn. by rewrite IH.
Qed.
Lemma responses_turns ms n items : replayable ms -> convert_from n ms = Some items -> accepted items.
Proof.
  intros H. revert n items. induction H as [|u ms _ IH|a rs ms Hok Hrs Hall Hms IH]; intros n items; cbn [convert_from].
  - intros [= <-]. constructor.
  - destruct (u_content u) as [s|[|p ps]]; [|by apply IH|]; destruct (convert_from _ ms) as [l|] eqn:E; try done; intros [= <-]; apply ac_plain; try done; by eapply IH.
  - destruct (assistant_items n a) as [out|] eqn:Ea; [|done]. cbn. apply blocks_items_calls in Ea as [Ho Hc]. change (block_ids (a_content a)) with (call_ids a) in Hc.
    assert (Hturn : forall k l, convert_from k ((LToolResult <$> rs) ++ ms) = Some l -> accepted (out ++ l)).
    { intros k l. rewrite responses_results. destruct (convert_from _ ms) as [l'|] eqn:E; [|done]. intros [= <-]. destruct (result_outputs rs) as [H1 H2].
      apply ac_turn; rewrite ?H2, ?Hc; [done|done| | |by eapply IH].
      - intros i (j & -> & Hj)%list_elem_of_fmap. apply list_elem_of_fmap_2. rewrite list.Forall_forall in Hall. by apply Hall.
      - intros i (j & -> & (x & -> & Hx)%list_elem_of_fmap)%list_elem_of_fmap. apply list_elem_of_fmap_2. rewrite list.Forall_forall in Hrs. by apply Hrs. }
    destruct out as [|i out]; [apply (Hturn n items)|]. destruct (convert_from (n + 1) _) as [l|] eqn:E; [|done]. intros [= <-]. by apply (Hturn _ _ E).
Qed.
(** Whatever the transcript: in the items, if there are any to send, the outputs behind a response are for its calls, one at least for each, and there are no
    others. *)
Theorem responses_accept (messages : list Message) (systemPrompt : option jsstr) (includeSystemPrompt : bool) (now : Z) :
  match convertResponsesMessages messages systemPrompt includeSystemPrompt now with Some items => accepted items | None => True end.
Proof.
  unfold convertResponsesMessages. destruct (convert_from 0 _) as [items|] eqn:E; [|done]. apply responses_turns in E; [|apply transform_replayable]. cbn.
  destruct systemPrompt as [[|u s]|]; [done| |done]. destruct includeSystemPrompt; [|done]. by apply ac_plain.
Qed.
End convert.

(** A signature that was made for an item gives back its identifier and phase. *)
Theorem text_signature_round_trip (i : jsstr) (phase : option jsstr) (Hi : js_wf i) (Hp : phase = None \/ phase = Some (js "commentary") \/ phase = Some (js "final_answer")) :
  parseTextSignature (Some (encodeTextSignatureV1 i phase)) = Some (i, phase).
Proof.
  unfold encodeTextSignatureV1. set (fs := _ ++ _).
  assert (Hok : json_ok (JObj fs)).
  { assert (Hwf : forall s, forallb (fun u => (u <? 0x10000)%N) s = true -> js_wf s) by (intros s Hs; apply list.Forall_forall; intros u Hu; rewrite forallb_forall in Hs; apply N.ltb_lt, Hs; by apply list_elem_of_In).
    assert (H1 : json_ok (JNum (js "1"))) by (constructor; [done|apply (bool_decide_unpack _); by vm_compute]).
    constructor.
    - apply (bool_decide_unpack _). unfold fs. by destruct Hp as [-> | [-> | ->]]; vm_compute.
    - unfold fs. destruct Hp as [-> | [-> | ->]]; cbn -[js]; repeat constructor; by apply Hwf.
    - unfold fs. destruct Hp as [-> | [-> | ->]]; cbn -[js]; repeat (apply list.Forall_cons; split); try (apply list.Forall_nil; exact I); first [exact H1 | by constructor | by constructor; apply Hwf]. }
  assert (Hs : exists t, stringify (JObj fs) = 123%N :: t) by (rewrite stringify_obj; by eexists). destruct Hs as [t Ht].
  unfold parseTextSignature. rewrite Ht. assert (Hst : starts_with (js "{") (123%N :: t) = true) by done. rewrite Hst, <- Ht, JSON_parse_stringify by done.
  unfold fs. destruct Hp as [-> | [-> | ->]]; done.
Qed.

(** ** Examples *)

(** Thinking of another model is sent as a text in front of the text: the two have the same identifier. *)
Example texts_of_one_message_share_an_id :
  let a := demo_assistant "there" Stop [AThinking {| thinking := js "hm"; thinkingSignature := None; redacted := None |}; AText (mkText (js "done"))] in
  convertResponsesMessages demo_model [] [LAssistant a] None true 0 = Some [OutputText (js "hm") (js "msg_0") None; OutputText (js "done") (js "msg_0") None].
Proof. by vm_compute. Qed.
Definition openai : Model := {| m_provider := js "openai"; m_api := js "api"; m_id := js "m"; m_images := false; m_reasoning := true |}.
(** A call of another provider keeps the first part of its identifier; the second is hashed. *)
Example foreign_call : normalizeToolCallId openai [js "openai"] (js "call_1|x+/=") (demo_assistant "there" ToolUse []) = js "call_1|fc_" ++ shortHash (js "x+/=").
Proof. by vm_compute. Qed.
Example hashes : shortHash [] = js "k4n83c7h0j2b" /\ shortHash (js "abc") = js "y0biex7f9bbh".
Proof. by vm_compute. Qed.
