(* ===== verification/ActionStore.v ===== *)
(** * The action store of a session (core/session-action-store.ts)

    What a user, an agent or the program itself asks of a session becomes an action: a turn or a command. Actions wait in two lanes, and
    each has a life cycle. Actions are objects that the session changes in place while they are in the store, so the model has a heap;
    an action is a reference into it.

    [actions_conserved] says that no action is lost, doubled or left without its ticket, [queue_order] in which order actions are taken,
    [terminal_forever] that what has ended stays so and what is dispatched waits again only with a proof that it was not delivered. At the end are the rules
    by which sessions and their workers may be put away. *)

(* Source aliases:
   ST = src/packages/coding-agent/src/core/session-action-store.ts
   AS = src/packages/coding-agent/src/core/agent-session.ts *)

From stdpp Require Import gmap sorting.
From Stdlib Require Import QArith Sorted.
From S2P Require Import Prelude JsString JsNumber JsMap StateError.
Local Open Scope Z_scope.

(** ** Actions *)

(** ST 7-7 DeliveryPolicy. *)
Inductive DeliveryPolicy := NextTurnBoundary | WhenRunIdle.
#[export] Instance DeliveryPolicy_eq_dec : EqDecision DeliveryPolicy.
Proof. solve_decision. Defined.
(** ST 11-11 SessionActionPriority. *)
Inductive SessionActionPriority := Pinned | ByUser | Background.
(** ST 12-12 SessionActionPlacement. *)
Inductive SessionActionPlacement := AtPriority | AtTail | AtFront.
(** ST 14-14 PRIORITY_RANK. *)
Definition PRIORITY_RANK (p : SessionActionPriority) : Z := match p with Pinned => 2 | ByUser => 1 | Background => 0 end.
(** ST 16-20 queuedMessageLaneDeliveryPolicy. [true] is the steering lane. *)
Definition queuedMessageLaneDeliveryPolicy (steering : bool) : DeliveryPolicy := if steering then NextTurnBoundary else WhenRunIdle.
(** ST 39-46 DeliveryRecord. Messages are compared as objects; [d_message] is the object. *)
Inductive record_role := Primary | Prefix | NextTurn.
#[export] Instance record_role_eq_dec : EqDecision record_role.
Proof. solve_decision. Defined.
(** ST 39-46 DeliveryRecord. *)
Record DeliveryRecord := { d_role : record_role; d_message : nat; started : bool; durable : bool }.
(** ST 48-61 SessionActionPayload. *)
Inductive SessionActionPayload :=
| Turn (records : list DeliveryRecord) (t_text : jsstr) (preview : option jsstr)
| SessionCommand (c_text : jsstr).
(** ST 63-71 ActionLifecycle. *)
Inductive ActionLifecycle :=
| Queued | Selected | Preparing | Committing | Running (agent_turn : bool) | Completed | FailedWith (e : jsstr) | Cancelled.
(** ST 73-84 SessionAction. What the store does not read is left out. *)
Record SessionAction := {
  a_id : jsstr; delivery : DeliveryPolicy; priority : SessionActionPriority; payload : SessionActionPayload; lifecycle : ActionLifecycle }.
(** ST 86-89 RollbackProof. *)
Record RollbackProof := { dispatchSettled : bool; proof_transcript : list nat }.
(** The states, without what they carry. *)
Inductive tag := TQueued | TSelected | TPreparing | TCommitting | TRunning | TCompleted | TFailed | TCancelled.
#[export] Instance tag_eq_dec : EqDecision tag.
Proof. solve_decision. Defined.
Definition tag_of (l : ActionLifecycle) : tag :=
  match l with
  | Queued => TQueued | Selected => TSelected | Preparing => TPreparing | Committing => TCommitting | Running _ => TRunning | Completed => TCompleted | FailedWith _ => TFailed
  | Cancelled => TCancelled
  end.
Definition state_of (a : SessionAction) : tag := tag_of (lifecycle a).
(** ST 91-91 TERMINAL_STATES. *)
Definition TERMINAL_STATES : list tag := [TCompleted; TFailed; TCancelled].
(** ST 92-92 ACTIVE_STATES. *)
Definition ACTIVE_STATES : list tag := [TSelected; TPreparing; TCommitting; TRunning].
(** ST 93-93 CLEARABLE_STATES. *)
Definition CLEARABLE_STATES : list tag := [TQueued; TSelected; TPreparing].
(** ST 95-97 isClearable. *)
Definition isClearable (a : SessionAction) : bool := bool_decide (state_of a ∈ CLEARABLE_STATES).
(** ST 270-270 ActionStore.queuedActions. The test of the state. *)
Definition isQueued (a : SessionAction) : bool := bool_decide (state_of a = TQueued).
(** ST 282-282 ActionStore.unfinishedActions. The test of the state, as in [releaseTerminal]. *)
Definition isTerminal (a : SessionAction) : bool := bool_decide (state_of a ∈ TERMINAL_STATES).
(** ST 286-286 ActionStore.activeActions. The test of the state. *)
Definition isActive (a : SessionAction) : bool := bool_decide (state_of a ∈ ACTIVE_STATES).
(** ST 99-108 LEGAL_TRANSITIONS. *)
Definition LEGAL_TRANSITIONS (from : tag) : list tag :=
  match from with
  | TQueued => [TSelected; TFailed; TCancelled]
  | TSelected => [TQueued; TPreparing; TRunning; TFailed; TCancelled]
  | TPreparing => [TQueued; TCommitting; TFailed; TCancelled]
  | TCommitting => [TQueued; TRunning; TFailed; TCancelled]
  | TRunning => [TCompleted; TFailed; TCancelled]
  | TCompleted | TFailed | TCancelled => []
  end.
(** ST 110-112 primaryRecords. *)
Definition primaryRecords (a : SessionAction) : list DeliveryRecord :=
  match payload a with Turn records _ _ => filter (fun r => d_role r = Primary) records | SessionCommand _ => [] end.
(** ST 133-133 transitionSessionAction. The assignment. *)
Definition with_lifecycle (l : ActionLifecycle) (a : SessionAction) : SessionAction :=
  {| a_id := a_id a; delivery := delivery a; priority := priority a; payload := payload a; lifecycle := l |}.
(** ST 262-262 ActionStore.moveQueued. The assignment. *)
Definition with_delivery (d : DeliveryPolicy) (a : SessionAction) : SessionAction :=
  {| a_id := a_id a; delivery := d; priority := priority a; payload := payload a; lifecycle := lifecycle a |}.

(** What is thrown. *)
Inductive action_error :=
| IllegalTransition (from to : tag) | NoSettledDispatch | PrimaryDurable | NotQueued | DuplicateId (i : jsstr) | NotSwappable | NotOwned (i : jsstr) | NotTerminal (i : jsstr).
(** ST 114-134 transitionSessionAction. The new action, or what is thrown. *)
Definition transition (a : SessionAction) (next : ActionLifecycle) (proof : option RollbackProof) : SessionAction + action_error :=
  let previous := state_of a in
  if negb (bool_decide (tag_of next ∈ LEGAL_TRANSITIONS previous)) then inr (IllegalTransition previous (tag_of next))
  else if bool_decide (previous = TCommitting) && bool_decide (tag_of next = TQueued) then
    match proof with
    | Some p =>
        if negb (dispatchSettled p) then inr NoSettledDispatch
        else if existsb (fun r => bool_decide (d_message r ∈ proof_transcript p)) (primaryRecords a) then inr PrimaryDurable
        else inl (with_lifecycle next a)
    | None => inr NoSettledDispatch
    end
  else inl (with_lifecycle next a).

(** ** Tickets *)

(** ST 136-141 SubmissionOutcome. *)
Inductive SubmissionOutcome := Accepted (actionId : jsstr) (starts_when_admitted : bool) | Coalesced (existingActionId : jsstr) | HandledWithoutTurn | ExtensionCommand.
(** ST 142-142 DeliveryOutcome. *)
Inductive DeliveryOutcome := Delivered | NotApplicable.
(** ST 151-181 createDeferred. A promise is pending, or settled for good. *)
Definition Deferred (T : Type) : Type := option (T + jsstr).
(** ST 166-181 createDeferred. *)
Definition settle {T} (r : T + jsstr) (d : Deferred T) : bool * Deferred T := match d with Some _ => (false, d) | None => (true, Some r) end.
(** ST 183-187 ActionTicketController. *)
Record ActionTicketController := { accepted : Deferred SubmissionOutcome; delivered : Deferred DeliveryOutcome; completed : Deferred unit }.
(** ST 189-196 ActionTicketController. *)
Definition new_ticket : ActionTicketController := {| accepted := None; delivered := None; completed := None |}.
(** ST 198-200 ActionTicketController.settleAccepted. *)
Definition settleAccepted (o : SubmissionOutcome) (t : ActionTicketController) : bool * ActionTicketController :=
  let '(b, d) := settle (inl o) (accepted t) in (b, {| accepted := d; delivered := delivered t; completed := completed t |}).
(** ST 202-208 ActionTicketController.settleDelivered. And [rejectDelivered], with an error. *)
Definition settleDelivered (o : DeliveryOutcome + jsstr) (t : ActionTicketController) : bool * ActionTicketController :=
  let '(b, d) := settle o (delivered t) in (b, {| accepted := accepted t; delivered := d; completed := completed t |}).
(** ST 210-212 ActionTicketController.settleCompleted. *)
Definition settleCompleted (e : option jsstr) (t : ActionTicketController) : bool * ActionTicketController :=
  let '(b, d) := settle (match e with Some e => inr e | None => inl tt end) (completed t) in (b, {| accepted := accepted t; delivered := delivered t; completed := d |}).

(** ** The store *)

(** ST 215-218 ActionStore. With the heap of actions; a reference is its place there. *)
Record world := { heap : gmap nat SessionAction; nextTurnBoundary : list nat; whenRunIdle : list nat; tickets : list (jsstr * ActionTicketController) }.
(** Assignments to its fields. *)
Definition set_heap h (w : world) : world := {| heap := h; nextTurnBoundary := nextTurnBoundary w; whenRunIdle := whenRunIdle w; tickets := tickets w |}.
Definition set_tickets t (w : world) : world := {| heap := heap w; nextTurnBoundary := nextTurnBoundary w; whenRunIdle := whenRunIdle w; tickets := t |}.
(** ST 347-349 ActionStore.list. *)
Definition lane (p : DeliveryPolicy) (w : world) : list nat := match p with NextTurnBoundary => nextTurnBoundary w | WhenRunIdle => whenRunIdle w end.
(** The lane is changed in place. *)
Definition set_lane (p : DeliveryPolicy) (l : list nat) (w : world) : world :=
  {| heap := heap w; nextTurnBoundary := match p with NextTurnBoundary => l | WhenRunIdle => nextTurnBoundary w end;
     whenRunIdle := match p with NextTurnBoundary => whenRunIdle w | WhenRunIdle => l end; tickets := tickets w |}.
(** ST 342-345 ActionStore.actions. *)
Definition actions (policy : option DeliveryPolicy) (w : world) : list nat :=
  match policy with Some p => lane p w | None => nextTurnBoundary w ++ whenRunIdle w end.
(** A property of the object a reference leads to. *)
Definition test (w : world) (p : SessionAction -> bool) (r : nat) : bool := match heap w !! r with Some a => p a | None => false end.
Definition those (p : SessionAction -> bool) (policy : option DeliveryPolicy) (w : world) : list nat := filter (fun r => test w p r = true) (actions policy w).
(** ST 269-271 ActionStore.queuedActions. *)
Definition queuedActions := those isQueued.
(** ST 273-275 ActionStore.clearableActions. *)
Definition clearableActions := those isClearable.
(** ST 277-279 ActionStore.snapshotActions. *)
Definition snapshotActions := queuedActions None.
(** ST 281-283 ActionStore.unfinishedActions. *)
Definition unfinishedActions := those (fun a => negb (isTerminal a)).
(** ST 285-287 ActionStore.activeActions. *)
Definition activeActions := those isActive.
(** ST 301-303 ActionStore.ownedActions. *)
Definition ownedActions := actions None.
(** ST 289-293 ActionStore.queuePreview. *)
Definition queuePreview (policy : DeliveryPolicy) (w : world) : list jsstr :=
  omap (fun r => a ← heap w !! r; Some (match payload a with Turn _ t preview => default t preview | SessionCommand t => t end)) (queuedActions (Some policy) w).
(** ST 305-310 ActionStore.actionsForMessage. *)
Definition actionsForMessage (message : nat) (w : world) : list nat :=
  filter (fun r => test w (fun a => match payload a with Turn records _ _ => existsb (fun d => bool_decide (d_message d = message)) records | SessionCommand _ => false end) r = true) (actions None w).

Abbreviation M := (SE world action_error).
(** Looking at an object; there are no references to what is no object, so that the error does not arise. *)
Definition deref (r : nat) : M SessionAction := fun w => match heap w !! r with Some a => (inl a, w) | None => (inr (NotOwned []), w) end.
Definition assign (r : nat) (a : SessionAction) : M unit := update (fun w => set_heap (<[r := a]> (heap w)) w).
(** ST 114-134 transitionSessionAction. *)
Definition transitionSessionAction (r : nat) (next : ActionLifecycle) (proof : option RollbackProof) : M unit :=
  a ← deref r; a' ← returning (transition a next proof); assign r a'.

(** [Array.prototype.indexOf] of a reference. *)
Fixpoint index_of (r : nat) (l : list nat) : option nat :=
  match l with [] => None | x :: l => if decide (x = r) then Some 0%nat else S <$> index_of r l end.
(** [splice(index, 0, r)] and [splice(index, 1)]. *)
Definition insert_at (i : nat) (r : nat) (l : list nat) : list nat := take i l ++ r :: drop i l.
Definition delete_at (i : nat) (l : list nat) : list nat := take i l ++ drop (S i) l.

(** ST 332-339 ActionStore.insertionIndex. The loop from the end: how many actions the new one goes in front of. *)
Fixpoint passed (w : world) (rank : Z) (reversed : list nat) : nat :=
  match reversed with
  | r :: rest => if test w (fun item => isQueued item && (PRIORITY_RANK (priority item) <? rank)) r then S (passed w rank rest) else 0%nat
  | [] => 0%nat
  end.
(** ST 322-340 ActionStore.insertionIndex. *)
Definition insertionIndex (w : world) (l : list nat) (a : SessionAction) (placement : SessionActionPlacement) : nat :=
  match placement with
  | AtTail => length l
  | AtFront => match list_find (fun r => test w isQueued r = true) l with Some (i, _) => i | None => length l end
  | AtPriority => (length l - passed w (PRIORITY_RANK (priority a)) (reverse l))%nat
  end.
(** ST 351-354 ActionStore.assertNewAction. *)
Definition assertNewAction (a : SessionAction) : M unit := fun w =>
  if negb (isQueued a) then (inr NotQueued, w) else if JsMap.has (tickets w) (a_id a) then (inr (DuplicateId (a_id a)), w) else (inl tt, w).
(** ST 220-225 ActionStore.enqueue. *)
Definition enqueue (r : nat) (placement : SessionActionPlacement) : M unit :=
  a ← deref r;
  assertNewAction a ;;
  update (fun w => let list := lane (delivery a) w in
                   set_tickets (JsMap.set (tickets w) (a_id a) new_ticket) (set_lane (delivery a) (insert_at (insertionIndex w list a placement) r list) w)).
(** ST 227-233 ActionStore.selectFirst. *)
Definition first_queued (w : world) : option nat := head (queuedActions (Some NextTurnBoundary) w ++ queuedActions (Some WhenRunIdle) w).
(** ST 227-233 ActionStore.selectFirst. *)
Definition selectFirst : M (option nat) :=
  w ← current;
  match first_queued w with
  | Some r => transitionSessionAction r Selected None ;; mret (Some r)
  | None => mret None
  end.
(** ST 235-239 ActionStore.remove. *)
Definition remove (predicate : SessionAction -> bool) (candidates : option (list nat)) : M (list nat) :=
  w ← current;
  let removed := filter (fun r => test w predicate r = true) (default (clearableActions None w) candidates) in
  each (fun r => transitionSessionAction r Cancelled None) removed ;;
  mret removed.
(** ST 241-243 ActionStore.rollback. *)
Definition rollback (r : nat) (proof : option RollbackProof) : M unit := transitionSessionAction r Queued proof.
(** ST 245-254 ActionStore.swapQueued. *)
Definition swapQueued (left right : nat) : M unit :=
  l ← deref left; r ← deref right;
  if negb (isQueued l) || negb (isQueued r) || negb (bool_decide (delivery l = delivery r)) then raise NotSwappable
  else
    w ← current;
    let list := lane (delivery l) w in
    match index_of left list, index_of right list with
    | Some i, Some j => update (set_lane (delivery l) (<[j := left]> (<[i := right]> list)))
    | _, _ => raise (NotOwned [])
    end.
(** ST 256-267 ActionStore.moveQueued. *)
Definition moveQueued (r : nat) (policy : DeliveryPolicy) (index : Z) : M unit :=
  a ← deref r;
  if negb (isQueued a) then raise NotQueued
  else
    w ← current;
    match index_of r (lane (delivery a) w) with
    | None => raise (NotOwned (a_id a))
    | Some sourceIndex =>
        update (fun w => set_lane (delivery a) (delete_at sourceIndex (lane (delivery a) w)) w) ;;
        assign r (with_delivery policy a) ;;
        update (fun w =>
          let target := lane policy w in
          let queued := filter (fun r => test w isQueued r = true) target in
          let before := queued !! Z.to_nat (Z.max 0 (Z.min index (Z.of_nat (length queued)))) in
          set_lane policy (insert_at (match before with Some b => default (length target) (index_of b target) | None => length target end) r target) w)
    end.
(** ST 295-299 ActionStore.ticketFor. *)
Definition ticketFor (r : nat) : M ActionTicketController :=
  a ← deref r; w ← current;
  match JsMap.get (tickets w) (a_id a) with Some t => mret t | None => raise (NotOwned (a_id a)) end.
(** ST 312-320 ActionStore.releaseTerminal. *)
Definition releaseTerminal (r : nat) : M unit :=
  a ← deref r;
  if negb (isTerminal a) then raise (NotTerminal (a_id a))
  else
    update (fun w => match index_of r (lane (delivery a) w) with Some i => set_lane (delivery a) (delete_at i (lane (delivery a) w)) w | None => w end) ;;
    update (fun w => set_tickets (JsMap.remove (tickets w) (a_id a)) w).

(** ** What the operations change *)

(** Nothing but life cycles and payloads: who is where, under which identifier. *)
Definition face (a : SessionAction) : jsstr * DeliveryPolicy * SessionActionPriority := (a_id a, delivery a, priority a).
Record kept (w w' : world) : Prop := {
  kept_next : nextTurnBoundary w' = nextTurnBoundary w; kept_idle : whenRunIdle w' = whenRunIdle w; kept_tickets : (tickets w').*1 = (tickets w).*1;
  kept_face : forall r, face <$> heap w' !! r = face <$> heap w !! r }.
Lemma kept_refl w : kept w w.
Proof. done. Qed.
Lemma kept_trans w1 w2 w3 : kept w1 w2 -> kept w2 w3 -> kept w1 w3.
Proof. intros [H1 H2 H3 H4] [K1 K2 K3 K4]. split; [congruence|congruence|congruence|]. intros r. by rewrite K4. Qed.
Lemma kept_lane p w w' : kept w w' -> lane p w' = lane p w.
Proof. intros [H1 H2 _ _]. by destruct p. Qed.
Lemma kept_actions w w' : kept w w' -> actions None w' = actions None w.
Proof. intros [H1 H2 _ _]. cbn. by rewrite H1, H2. Qed.
Lemma transition_face a next proof a' : transition a next proof = inl a' -> a' = with_lifecycle next a.
Proof.
  unfold transition. destruct (negb _); [done|]. destruct (_ && _); [|by intros [= <-]]. destruct proof as [p|]; [|done]. destruct (negb _); [done|]. destruct (existsb _ _); [done|]. by intros [= <-].
Qed.
Lemma transition_legal a next proof a' : transition a next proof = inl a' -> tag_of next ∈ LEGAL_TRANSITIONS (state_of a).
Proof. unfold transition. destruct (bool_decide (tag_of next ∈ _)) eqn:E; [|done]. intros _. by apply bool_decide_eq_true in E. Qed.
Lemma assign_kept r a a' w : heap w !! r = Some a -> face a' = face a -> kept w (set_heap (<[r := a']> (heap w)) w).
Proof.
  intros Ha Hf. split; try done. intros r'. cbn. destruct (decide (r = r')) as [<-|Hn]; [rewrite lookup_insert_eq, Ha; cbn; by rewrite Hf|by rewrite lookup_insert_ne].
Qed.
(** A transition changes one action, legally, or nothing. *)
Lemma transition_after r next proof w :
  after (transitionSessionAction r next proof)
    (fun _ w' => exists a, heap w !! r = Some a /\ transition a next proof = inl (with_lifecycle next a) /\ w' = set_heap (<[r := with_lifecycle next a]> (heap w)) w)
    (fun _ w' => w' = w) w.
Proof.
  unfold transitionSessionAction, deref. apply after_bind. unfold after at 1. destruct (heap w !! r) as [a|] eqn:Ea; [|done].
  apply after_returning; [|done]. intros a' Ht. pose proof (transition_face _ _ _ _ Ht) as ->. by exists a.
Qed.
Lemma transition_kept r next proof w : kept w (transitionSessionAction r next proof w).2.
Proof.
  pose proof (transition_after r next proof w) as H. unfold after in H. destruct (transitionSessionAction r next proof w) as [[[]|e] w']; cbn; [|by subst].
  destruct H as (a & Ha & _ & ->). by eapply assign_kept.
Qed.
Lemma each_transition_kept next l w : kept w (each (fun r => transitionSessionAction r next None) l w).2.
Proof.
  revert w. induction l as [|r l IH]; intros w; [done|]. cbn [each]. unfold mbind, se_bind. pose proof (transition_kept r next None w) as H.
  destruct (transitionSessionAction r next None w) as [[[]|e] w1]; [|done]. specialize (IH w1). destruct (each _ l w1) as [[us|e] w2]; cbn in *; by eapply kept_trans.
Qed.
Lemma remove_kept p cs w : kept w (remove p cs w).2.
Proof.
  unfold remove. unfold mbind at 1, se_bind at 1, current. set (l := filter _ _). pose proof (each_transition_kept Cancelled l w) as H. unfold mbind, se_bind.
  by destruct (each _ l w) as [[us|e] w'].
Qed.
Lemma selectFirst_kept w : kept w (selectFirst w).2.
Proof.
  unfold selectFirst. unfold mbind at 1, se_bind at 1, current. destruct (first_queued w) as [r|]; [|done]. pose proof (transition_kept r Selected None w) as H. unfold mbind, se_bind.
  by destruct (transitionSessionAction r Selected None w) as [[[]|e] w'].
Qed.

(** ** The store holds each action once, with its ticket *)

Definition id_at (w : world) (r : nat) : option jsstr := a_id <$> heap w !! r.
Definition ids (w : world) : list jsstr := omap (id_at w) (actions None w).
Record wf (w : world) : Prop := {
  wf_once : NoDup (actions None w);
  wf_lane : forall p r, r ∈ lane p w -> exists a, heap w !! r = Some a /\ delivery a = p;
  wf_tickets : (tickets w).*1 ≡ₚ ids w;
  wf_ids : NoDup (ids w) }.
Lemma kept_id w w' r : kept w w' -> id_at w' r = id_at w r.
Proof. intros [_ _ _ H]. specialize (H r). unfold id_at. destruct (heap w' !! r), (heap w !! r); try done. unfold face in H. cbn in *. congruence. Qed.
Lemma ids_kept w w' : kept w w' -> ids w' = ids w.
Proof. intros H. unfold ids. rewrite (kept_actions _ _ H). induction (actions None w) as [|r l IH]; [done|]. cbn. by rewrite (kept_id _ _ _ H), IH. Qed.
Lemma kept_wf w w' : kept w w' -> wf w -> wf w'.
Proof.
  intros H [H1 H2 H3 H4]. split.
  - by rewrite (kept_actions _ _ H).
  - intros p r. rewrite (kept_lane _ _ _ H). intros (a & Ha & Hd)%H2. destruct H as [_ _ _ Hf]. specialize (Hf r). rewrite Ha in Hf. destruct (heap w' !! r) as [a'|]; [|done].
    exists a'. split; [done|]. unfold face in Hf. cbn in Hf. congruence.
  - rewrite (kept_tickets _ _ H). by rewrite (ids_kept _ _ H).
  - by rewrite (ids_kept _ _ H).
Qed.
Lemma elem_lane_actions p r w : r ∈ lane p w -> r ∈ actions None w.
Proof. intros H. cbn. apply elem_of_app. destruct p; auto. Qed.
Lemma elem_actions_lane r w : r ∈ actions None w -> exists p, r ∈ lane p w.
Proof. cbn. intros [H|H]%elem_of_app; [by exists NextTurnBoundary|by exists WhenRunIdle]. Qed.
Lemma elem_ids w r a : r ∈ actions None w -> heap w !! r = Some a -> a_id a ∈ ids w.
Proof. intros Hr Ha. unfold ids. apply list_elem_of_omap. exists r. split; [done|]. unfold id_at. by rewrite Ha. Qed.
Lemma insert_at_perm i r l : insert_at i r l ≡ₚ r :: l.
Proof. unfold insert_at. rewrite <- Permutation_middle, take_drop. done. Qed.
Lemma index_of_Some r l i : index_of r l = Some i -> l = take i l ++ r :: drop (S i) l.
Proof.
  revert i. induction l as [|x l IH]; intros i; cbn; [done|]. destruct (decide (x = r)) as [->|Hn]; [by intros [= <-]|].
  destruct (index_of r l) as [j|]; [|done]. intros [= <-]. cbn. f_equal. by apply IH.
Qed.
Lemma index_of_None r l : index_of r l = None <-> r ∉ l.
Proof.
  induction l as [|x l IH]; cbn; [split; [intros _; apply not_elem_of_nil|done]|]. rewrite not_elem_of_cons. destruct (decide (x = r)) as [->|Hn]; [split; [done|intros [[] _]; done]|].
  destruct (index_of r l); cbn; split; try done; [intros [_ H]; by apply IH in H|intros _; split; [done|by apply IH]].
Qed.
Lemma delete_at_perm r l i : index_of r l = Some i -> l ≡ₚ r :: delete_at i l.
Proof. intros H%index_of_Some. unfold delete_at. rewrite H at 1. by rewrite <- Permutation_middle. Qed.
Lemma insert_cons_perm (l : list nat) i x y : l !! i = Some x -> x :: <[i := y]> l ≡ₚ y :: l.
Proof.
  intros H. apply take_drop_middle in H as Hl. assert (Hi : (i < length l)%nat) by (by eapply lookup_lt_Some). rewrite <- Hl at 2. rewrite insert_take_drop by done.
  rewrite <- !Permutation_middle. apply Permutation_swap.
Qed.
Lemma swap_perm (l : list nat) i j x y : l !! i = Some x -> l !! j = Some y -> <[j := x]> (<[i := y]> l) ≡ₚ l.
Proof.
  intros Hx Hy. apply (Permutation_cons_inv (a := y)). rewrite (insert_cons_perm (<[i := y]> l) j y x); [by apply insert_cons_perm|].
  destruct (decide (i = j)) as [<-|Hn]; [apply list_lookup_insert_eq; by eapply lookup_lt_Some|by rewrite list_lookup_insert_ne].
Qed.
Lemma index_of_lookup r l i : index_of r l = Some i -> l !! i = Some r.
Proof.
  revert i. induction l as [|x l IH]; intros i; cbn; [done|]. destruct (decide (x = r)) as [->|Hn]; [by intros [= <-]|]. destruct (index_of r l) as [j|]; [|done]. intros [= <-]. by apply IH.
Qed.
Lemma lane_set_lane p q l w : lane p (set_lane q l w) = if decide (p = q) then l else lane p w.
Proof. by destruct p, q. Qed.
Lemma actions_lane p w : actions None w ≡ₚ lane p w ++ lane match p with NextTurnBoundary => WhenRunIdle | WhenRunIdle => NextTurnBoundary end w.
Proof. destruct p; cbn; [done|]. by rewrite Permutation_app_comm. Qed.
(** A lane is replaced by what is the same up to order, or has one reference more. *)
Lemma actions_set_lane p l w : actions None (set_lane p l w) ≡ₚ l ++ lane match p with NextTurnBoundary => WhenRunIdle | WhenRunIdle => NextTurnBoundary end w.
Proof. rewrite (actions_lane p). rewrite lane_set_lane, decide_True by done. by destruct p. Qed.
Lemma omap_perm {A B} (f : A -> option B) (l k : list A) : l ≡ₚ k -> omap f l ≡ₚ omap f k.
Proof. induction 1 as [|x l k _ IH|x y l|l k m _ IH1 _ IH2]; cbn; [done| | |by etrans]; [by destruct (f x); [constructor|]|]. destruct (f x), (f y); try done. apply Permutation_swap. Qed.
Lemma wf_reorder p l w : l ≡ₚ lane p w -> wf w -> wf (set_lane p l w) /\ actions None (set_lane p l w) ≡ₚ actions None w.
Proof.
  intros Hl [H1 H2 H3 H4]. assert (Hp : actions None (set_lane p l w) ≡ₚ actions None w) by (by rewrite actions_set_lane, Hl, <- actions_lane).
  split; [|done]. assert (Hids : ids (set_lane p l w) ≡ₚ ids w) by (unfold ids; by apply omap_perm). split; [by rewrite Hp| |by rewrite Hids|by rewrite Hids].
  intros q r. rewrite lane_set_lane. destruct (decide (q = p)) as [->|Hn]; [rewrite Hl|]; apply H2.
Qed.

(** What the session does with its actions: it makes them, edits their payloads, settles their tickets, and calls the store. *)
Inductive op :=
| Create (r : nat) (a : SessionAction) | Edit (r : nat) (p : SessionActionPayload) | Settle (i : jsstr) (f : ActionTicketController -> ActionTicketController)
| Enqueue (r : nat) (placement : SessionActionPlacement) | Select | Remove (p : SessionAction -> bool) (candidates : option (list nat))
| Transition (r : nat) (next : ActionLifecycle) (proof : option RollbackProof) | Swap (l r : nat) | Move (r : nat) (policy : DeliveryPolicy) (index : Z) | Release (r : nat).
Definition with_payload (p : SessionActionPayload) (a : SessionAction) : SessionAction :=
  {| a_id := a_id a; delivery := delivery a; priority := priority a; payload := p; lifecycle := lifecycle a |}.
Definition settle_ticket (i : jsstr) (f : ActionTicketController -> ActionTicketController) (w : world) : world :=
  set_tickets ((fun kv => if decide (kv.1 = i) then (kv.1, f kv.2) else kv) <$> tickets w) w.
Definition exec (o : op) : M unit :=
  match o with
  | Create r a => assign r a
  | Edit r p => a ← deref r; assign r (with_payload p a)
  | Settle i f => update (settle_ticket i f)
  | Enqueue r placement => enqueue r placement
  | Select => selectFirst ;; mret tt
  | Remove p cs => remove p cs ;; mret tt
  | Transition r next proof => transitionSessionAction r next proof
  | Swap l r => swapQueued l r
  | Move r p i => moveQueued r p i
  | Release r => releaseTerminal r
  end.
(** A new object is at a new place, and an action is released while it is in the store, or has an identifier that none there has. *)
Definition allowed (o : op) (w : world) : Prop :=
  match o with
  | Create r _ => heap w !! r = None
  | Release r => r ∈ actions None w \/ (forall a, heap w !! r = Some a -> a_id a ∉ ids w)
  | _ => True
  end.
(** The references an operation puts into the store and takes from it. *)
Definition entering (o : op) (w : world) : list nat := match o, (exec o w).1 with Enqueue r _, inl _ => [r] | _, _ => [] end.
Definition leaving (o : op) (w : world) : list nat := match o, (exec o w).1 with Release r, inl _ => if decide (r ∈ actions None w) then [r] else [] | _, _ => [] end.
Definition conserved (o : op) (w : world) : Prop := let w' := (exec o w).2 in wf w' /\ actions None w' ++ leaving o w ≡ₚ actions None w ++ entering o w.

Lemma conserved_kept o w : kept w (exec o w).2 -> entering o w = [] -> leaving o w = [] -> wf w -> conserved o w.
Proof. intros Hk He Hl Hw. unfold conserved. rewrite He, Hl, (kept_actions _ _ Hk). split; [by eapply kept_wf|done]. Qed.
Lemma create_conserved r a w : heap w !! r = None -> wf w -> conserved (Create r a) w.
Proof.
  intros Hr Hw. unfold conserved. cbn. split; [|done]. assert (Hne : forall r', r' ∈ actions None w -> r' <> r).
  { intros r' (p & Hp)%elem_actions_lane ->. apply (wf_lane w Hw) in Hp as (b & Hb & _). congruence. }
  assert (Hids : ids (set_heap (<[r := a]> (heap w)) w) = ids w).
  { unfold ids. change (actions None (set_heap _ w)) with (actions None w). revert Hne. generalize (actions None w) as l. induction l as [|x l IH]; intros Hne; [done|]. cbn.
    rewrite IH by (intros r' Hr'; apply Hne; by right). unfold id_at. cbn. rewrite lookup_insert_ne; [done|]. intros ->. by apply (Hne x (list_elem_of_here _ _)). }
  destruct Hw as [H1 H2 H3 H4]. split; [done| |by rewrite Hids|by rewrite Hids]. intros p x Hx. cbn. rewrite lookup_insert_ne; [by apply H2; destruct p|].
  intros <-. apply (Hne r); [|done]. by apply (elem_lane_actions p).
Qed.
Lemma enqueue_after r placement w :
  after (enqueue r placement)
    (fun _ w' => exists a, heap w !! r = Some a /\ isQueued a = true /\ a_id a ∉ (tickets w).*1 /\
       w' = set_tickets (tickets w ++ [(a_id a, new_ticket)]) (set_lane (delivery a) (insert_at (insertionIndex w (lane (delivery a) w) a placement) r (lane (delivery a) w)) w))
    (fun _ w' => w' = w) w.
Proof.
  unfold enqueue. apply after_bind. unfold after at 1, deref. destruct (heap w !! r) as [a|] eqn:Ea; [|done]. apply after_bind. unfold after at 1, assertNewAction.
  destruct (isQueued a) eqn:Eq; cbn [negb]; [|done]. unfold JsMap.has. case_bool_decide as Eh; [done|]. unfold after, update. exists a. split_and!; try done.
  - apply get_None. destruct (JsMap.get (tickets w) (a_id a)); [|done]. exfalso. apply Eh. by eexists.
  - f_equal. apply set_new. apply get_None. destruct (JsMap.get (tickets w) (a_id a)); [|done]. exfalso. apply Eh. by eexists.
Qed.
Lemma enqueue_conserved r placement w : wf w -> conserved (Enqueue r placement) w.
Proof.
  intros Hw. unfold conserved, entering, leaving. pose proof (enqueue_after r placement w) as H. unfold after in H. cbn [exec]. destruct (enqueue r placement w) as [[[]|e] w']; cbn [fst snd].
  2:{ subst w'. split; [done|done]. }
  destruct H as (a & Ha & Hq & Hid & ->). set (l := insert_at _ r _). assert (Hl : l ≡ₚ r :: lane (delivery a) w) by apply insert_at_perm.
  destruct Hw as [H1 H2 H3 H4]. assert (Hr : r ∉ actions None w). { intros Hr. apply Hid. rewrite H3. by eapply elem_ids. }
  assert (Hp : actions None (set_tickets (tickets w ++ [(a_id a, new_ticket)]) (set_lane (delivery a) l w)) ≡ₚ r :: actions None w).
  { change (actions None (set_tickets ?t ?x)) with (actions None x). rewrite actions_set_lane, Hl, (actions_lane (delivery a) w). done. }
  assert (Hids : ids (set_tickets (tickets w ++ [(a_id a, new_ticket)]) (set_lane (delivery a) l w)) ≡ₚ a_id a :: ids w).
  { unfold ids at 1. change (id_at (set_tickets ?t (set_lane ?p ?x w))) with (id_at w). rewrite (omap_perm _ _ _ Hp). cbn [omap list_omap]. unfold id_at at 1. by rewrite Ha. }
  split; [|by rewrite Hp, app_nil_r, Permutation_app_comm]. split.
  - rewrite Hp. by constructor.
  - intros p x. change (lane p (set_tickets ?t ?x)) with (lane p x). rewrite lane_set_lane. destruct (decide (p = delivery a)) as [->|Hn]; [|by apply H2]. rewrite Hl.
    intros [->|Hx]%elem_of_cons; [by exists a|by apply H2].
  - rewrite Hids. cbn. rewrite fmap_app. cbn. by rewrite Permutation_app_comm, H3.
  - rewrite Hids. constructor; [|done]. by rewrite <- H3.
Qed.
Lemma swap_conserved l r w : wf w -> conserved (Swap l r) w.
Proof.
  intros Hw. unfold conserved, entering, leaving. cbn [exec]. rewrite !app_nil_r.
  assert (H : after (swapQueued l r) (fun _ w' => exists p x, x ≡ₚ lane p w /\ w' = set_lane p x w) (fun _ w' => w' = w) w).
  { unfold swapQueued. apply after_bind. unfold after at 1, deref. destruct (heap w !! l) as [a|]; [|done]. apply after_bind. unfold after at 1. destruct (heap w !! r) as [b|]; [|done].
    destruct (_ || _); [done|]. apply after_bind. unfold after at 1, current. destruct (index_of l _) as [i|] eqn:Ei; [|done]. destruct (index_of r _) as [j|] eqn:Ej; [|done].
    unfold after, update. eexists _, _. split; [|done]. apply swap_perm; by apply index_of_lookup. }
  unfold after in H. destruct (swapQueued l r w) as [[[]|e] w']; cbn [fst snd]; [|by subst]. destruct H as (p & x & Hx & ->). by apply wf_reorder.
Qed.
Lemma delete_lane r p i w : index_of r (lane p w) = Some i -> actions None w ≡ₚ r :: actions None (set_lane p (delete_at i (lane p w)) w).
Proof. intros H%delete_at_perm. rewrite actions_set_lane, (actions_lane p w). by rewrite H at 1. Qed.
Lemma ids_same w w' : (forall r, id_at w' r = id_at w r) -> actions None w' ≡ₚ actions None w -> ids w' ≡ₚ ids w.
Proof.
  intros Hid Hp. unfold ids. rewrite (omap_perm _ _ _ Hp). apply reflexive_eq. clear Hp. induction (actions None w) as [|x l IH]; [done|]. cbn. by rewrite Hid, IH.
Qed.
Lemma move_after r policy index w :
  after (moveQueued r policy index)
    (fun _ w' => exists a i k, heap w !! r = Some a /\ index_of r (lane (delivery a) w) = Some i /\
       let w1 := set_lane (delivery a) (delete_at i (lane (delivery a) w)) w in let w2 := set_heap (<[r := with_delivery policy a]> (heap w1)) w1 in
       w' = set_lane policy (insert_at k r (lane policy w2)) w2)
    (fun _ w' => w' = w) w.
Proof.
  unfold moveQueued. apply after_bind. unfold after at 1, deref. destruct (heap w !! r) as [a|] eqn:Ea; [|done]. destruct (negb (isQueued a)); [done|].
  apply after_bind. unfold after at 1, current. destruct (index_of r (lane (delivery a) w)) as [i|] eqn:Ei; [|done].
  apply after_bind. unfold after at 1, update. apply after_bind. unfold after at 1, assign, update. unfold after. by eexists a, i, _.
Qed.
Lemma move_conserved r policy index w : wf w -> conserved (Move r policy index) w.
Proof.
  intros Hw. unfold conserved, entering, leaving. cbn [exec]. rewrite !app_nil_r. pose proof (move_after r policy index w) as H. unfold after in H.
  destruct (moveQueued r policy index w) as [[[]|e] w']; cbn [fst snd]; [|by subst]. destruct H as (a & i & k & Ea & Ei & ->).
  set (w1 := set_lane (delivery a) (delete_at i (lane (delivery a) w)) w). set (w2 := set_heap (<[r := with_delivery policy a]> (heap w1)) w1).
  set (w3 := set_lane policy _ w2). pose proof (delete_lane r (delivery a) i w Ei) as Hdel. fold w1 in Hdel.
  assert (Hp : actions None w3 ≡ₚ actions None w).
  { unfold w3. rewrite actions_set_lane, insert_at_perm, Hdel. cbn [app]. change (actions None w1) with (actions None w2). by rewrite (actions_lane policy w2). }
  destruct Hw as [H1 H2 H3 H4]. assert (Hids : ids w3 ≡ₚ ids w).
  { apply ids_same; [|done]. intros x. unfold id_at. cbn. destruct (decide (r = x)) as [<-|Hn]; [by rewrite lookup_insert_eq, Ea|by rewrite lookup_insert_ne]. }
  split; [|done]. split; [by rewrite Hp| |by rewrite Hids|by rewrite Hids]. intros p x. unfold w3. rewrite lane_set_lane. change (heap (set_lane ?q ?l w2)) with (heap w2).
  assert (Hold : x ∈ lane p w1 -> exists b, heap w2 !! x = Some b /\ delivery b = p).
  { intros Hx. assert (Hne : r <> x). { intros <-. rewrite Hdel in H1. apply NoDup_cons in H1 as [Hr _]. apply Hr. by eapply (elem_lane_actions p). }
    cbn. rewrite lookup_insert_ne by done. apply H2. unfold w1 in Hx. rewrite lane_set_lane in Hx. destruct (decide (p = delivery a)) as [->|]; [|done].
    rewrite (delete_at_perm _ _ _ Ei). by right. }
  destruct (decide (p = policy)) as [->|Hn]; [|exact Hold]. rewrite insert_at_perm. intros [->|Hx]%elem_of_cons; [|by apply Hold]. exists (with_delivery policy a). split; [|done]. cbn. by rewrite lookup_insert_eq.
Qed.
Lemma filter_whole {A} (P : A -> Prop) `{forall x, Decision (P x)} (l : list A) : (forall x, x ∈ l -> P x) -> filter P l = l.
Proof. induction l as [|x l IH]; intros Hl; [done|]. rewrite filter_cons_True by (apply Hl; by left). f_equal. apply IH. intros y Hy. apply Hl. by right. Qed.
Lemma remove_keys_perm (t : list (jsstr * ActionTicketController)) k l : t.*1 ≡ₚ k :: l -> NoDup (k :: l) -> (JsMap.remove t k).*1 ≡ₚ l.
Proof.
  intros Hp [Hk Hl]%NoDup_cons. assert (Hf : (JsMap.remove t k).*1 = filter (fun x => x <> k) t.*1).
  { unfold JsMap.remove. clear. induction t as [|[k' v] t IH]; [done|]. rewrite filter_cons. cbn [fst]. rewrite fmap_cons. cbn [fst]. rewrite filter_cons. destruct (decide _); cbn; [by rewrite IH|done]. }
  rewrite Hf, Hp, filter_cons_False by (intros H; by apply H). apply reflexive_eq. apply filter_whole. intros x Hx. by intros ->.
Qed.
Lemma remove_keys_absent (t : list (jsstr * ActionTicketController)) k : k ∉ t.*1 -> JsMap.remove t k = t.
Proof. intros Hk. unfold JsMap.remove. apply filter_whole. intros [k' v] Hx. cbn. intros ->. apply Hk. by apply (list_elem_of_fmap_2 fst) in Hx. Qed.
Lemma release_conserved r w : r ∈ actions None w \/ (forall a, heap w !! r = Some a -> a_id a ∉ ids w) -> wf w -> conserved (Release r) w.
Proof.
  intros Hr Hw. unfold conserved, entering, leaving. cbn [exec]. unfold releaseTerminal, mbind, se_bind, deref. destruct (heap w !! r) as [a|] eqn:Ea; [|done].
  destruct (negb (isTerminal a)); [done|]. unfold update. cbn [fst snd]. rewrite app_nil_r.
  destruct (index_of r (lane (delivery a) w)) as [i|] eqn:Ei.
  - pose proof (delete_lane r (delivery a) i w Ei) as Hdel. set (w1 := set_lane _ _ w) in *. assert (Hin : r ∈ actions None w) by (rewrite Hdel; by left). rewrite decide_True by done.
    destruct Hw as [H1 H2 H3 H4]. assert (Hids : ids w ≡ₚ a_id a :: ids w1). { unfold ids. rewrite (omap_perm _ _ _ Hdel). cbn. unfold id_at at 1. by rewrite Ea. }
    rewrite Hids in H3, H4. rewrite Hdel in H1. split.
    + split.
      * by apply NoDup_cons in H1 as [_ ?].
      * intros p x. change (lane p (set_tickets ?t w1)) with (lane p w1). unfold w1. rewrite lane_set_lane. destruct (decide (p = delivery a)) as [->|Hn]; [|apply H2]. intros Hx. apply H2.
        rewrite (delete_at_perm _ _ _ Ei). by right.
      * change (ids (set_tickets ?t w1)) with (ids w1). by apply remove_keys_perm.
      * by apply NoDup_cons in H4 as [_ ?].
    + change (actions None (set_tickets ?t w1)) with (actions None w1). rewrite Hdel. by rewrite Permutation_app_comm.
  - assert (Hnot : r ∉ actions None w). { intros (p & Hp)%elem_actions_lane. destruct (wf_lane w Hw p r Hp) as (b & Hb & Hd). rewrite Ea in Hb. injection Hb as ->. rewrite Hd in Ei. by apply index_of_None in Ei. }
    rewrite decide_False, app_nil_r by done. destruct Hr as [Hr|Hr]; [done|]. specialize (Hr a eq_refl). rewrite remove_keys_absent by (by rewrite (wf_tickets w Hw)).
    assert (He : set_tickets (tickets w) w = w) by (by destruct w). by rewrite He.
Qed.
Lemma settle_kept i f w : kept w (settle_ticket i f w).
Proof. split; try done. cbn. rewrite <- list_fmap_compose. apply list_fmap_ext. intros _ kv _. cbn. by destruct (decide _). Qed.
Lemma exec_conserved o w : allowed o w -> wf w -> conserved o w.
Proof.
  intros Ho Hw. destruct o as [r a|r p|i f|r placement| |p cs|r next proof|l r|r policy index|r].
  - by apply create_conserved.
  - apply conserved_kept; try done. cbn. unfold mbind, se_bind, deref. destruct (heap w !! r) as [a|] eqn:Ea; [|done]. by apply (assign_kept r a).
  - apply conserved_kept; try done. apply settle_kept.
  - by apply enqueue_conserved.
  - apply conserved_kept; try done. cbn [exec]. pose proof (selectFirst_kept w) as H. unfold mbind, se_bind. by destruct (selectFirst w) as [[x|e] w'].
  - apply conserved_kept; try done. cbn [exec]. pose proof (remove_kept p cs w) as H. unfold mbind, se_bind. by destruct (remove p cs w) as [[x|e] w'].
  - apply conserved_kept; try done. apply transition_kept.
  - by apply swap_conserved.
  - by apply move_conserved.
  - by apply release_conserved.
Qed.

(** A run: every operation is executed, whatever the ones before it threw. *)
Fixpoint run (os : list op) (w : world) : world := match os with [] => w | o :: os => run os (exec o w).2 end.
Fixpoint all_allowed (os : list op) (w : world) : Prop := match os with [] => True | o :: os => allowed o w /\ all_allowed os (exec o w).2 end.
Fixpoint entered (os : list op) (w : world) : list nat := match os with [] => [] | o :: os => entering o w ++ entered os (exec o w).2 end.
Fixpoint left_ (os : list op) (w : world) : list nat := match os with [] => [] | o :: os => leaving o w ++ left_ os (exec o w).2 end.
Definition empty_world : world := {| heap := ∅; nextTurnBoundary := []; whenRunIdle := []; tickets := [] |}.
Lemma empty_store_wf : wf empty_world.
Proof. split; [constructor| |done|constructor]. by intros [] r ?%not_elem_of_nil. Qed.
Lemma balance (A A1 A' L R E E' : list nat) : A1 ++ L ≡ₚ A ++ E -> A' ++ R ≡ₚ A1 ++ E' -> A' ++ L ++ R ≡ₚ A ++ E ++ E'.
Proof.
  intros Hp Hq. rewrite (Permutation_app_comm L R), (assoc_L (++)), Hq, <- (assoc_L (++)), (Permutation_app_comm E' L), (assoc_L (++)), Hp. by rewrite <- (assoc_L (++)).
Qed.
Lemma run_conserved os w : all_allowed os w -> wf w -> wf (run os w) /\ actions None (run os w) ++ left_ os w ≡ₚ actions None w ++ entered os w.
Proof.
  revert w. induction os as [|o os IH]; intros w Hall Hw; cbn; [done|]. destruct Hall as [Ho Hall]. destruct (exec_conserved o w Ho Hw) as [Hw' Hp]. destruct (IH _ Hall Hw') as [Hwf Hq].
  split; [done|]. by eapply balance.
Qed.
(** C16. In every run of the store, with actions edited and settled from outside and whatever is refused: the actions in the store are those that were taken in and not
    released, each once and in the lane of its delivery; and the tickets are those of the actions in the store, one for each. *)
Theorem actions_conserved (os : list op) (Hos : all_allowed os empty_world) :
  let w := run os empty_world in
  actions None w ++ left_ os empty_world ≡ₚ entered os empty_world /\ NoDup (actions None w) /\ (tickets w).*1 ≡ₚ ids w /\ NoDup (ids w) /\
  (forall p r, r ∈ lane p w -> exists a, heap w !! r = Some a /\ delivery a = p).
Proof. destruct (run_conserved os empty_world Hos empty_store_wf) as [[H1 H2 H3 H4] Hp]. done. Qed.

(** ** Life cycles *)

(** What one operation does to an action: nothing, or one legal transition; and back from the dispatch only with a proof. *)
Definition moved (o : op) (a a' : SessionAction) : Prop :=
  (lifecycle a' = lifecycle a \/ state_of a' ∈ LEGAL_TRANSITIONS (state_of a)) /\
  (state_of a = TCommitting -> state_of a' = TQueued ->
     exists r next p, o = Transition r next (Some p) /\ dispatchSettled p = true /\ Forall (fun d => d_message d ∉ proof_transcript p) (primaryRecords a)).
Lemma moved_same o a a' : lifecycle a' = lifecycle a -> moved o a a'.
Proof. intros H. split; [by left|]. unfold state_of. rewrite H. congruence. Qed.
Lemma transition_moved r a next proof a' : transition a next proof = inl a' -> moved (Transition r next proof) a a'.
Proof.
  intros H. pose proof (transition_face _ _ _ _ H) as ->. pose proof (transition_legal _ _ _ _ H) as Hl. split; [by right|].
  intros Hc Hq. unfold transition in H. destruct (negb _); [done|]. rewrite Hc in H. cbn in Hq. change (state_of (with_lifecycle next a)) with (tag_of next) in Hq. rewrite Hq in H. cbn in H.
  destruct proof as [p|]; [|done]. exists r, next, p. split; [done|]. destruct (dispatchSettled p); [|done]. cbn in H. split; [done|].
  destruct (existsb _ _) eqn:E; [done|]. apply list.Forall_forall. intros d Hd Hin. assert (true = false); [|done]. rewrite <- E. symmetry. apply existsb_exists. exists d. split; [by apply list_elem_of_In|]. by apply bool_decide_eq_true.
Qed.
Lemma not_queued_moved o a next proof a' : transition a next proof = inl a' -> tag_of next <> TQueued -> moved o a a'.
Proof.
  intros H Hn. pose proof (transition_face _ _ _ _ H) as ->. split; [right; by apply (transition_legal _ _ _ _ H)|]. intros _ Hq. by change (state_of (with_lifecycle next a)) with (tag_of next) in Hq.
Qed.
(** All actions of the heap stay there. *)
Definition heap_moved (m : SessionAction -> SessionAction -> Prop) (w w' : world) : Prop := forall r a, heap w !! r = Some a -> exists a', heap w' !! r = Some a' /\ m a a'.
Lemma heap_moved_assign (m : SessionAction -> SessionAction -> Prop) r a a' w : (forall b, m b b) -> heap w !! r = Some a -> m a a' -> heap_moved m w (set_heap (<[r := a']> (heap w)) w).
Proof.
  intros Hrefl Ha Hm r' b Hb. cbn. destruct (decide (r = r')) as [<-|Hn]; [rewrite lookup_insert_eq; exists a'; split; [done|]; by assert (b = a) as -> by congruence|].
  rewrite lookup_insert_ne by done. by exists b.
Qed.
Lemma heap_moved_same (m : SessionAction -> SessionAction -> Prop) w w' : (forall b, m b b) -> heap w' = heap w -> heap_moved m w w'.
Proof. intros Hm H r a Ha. rewrite H. by exists a. Qed.
Lemma each_cancel_moved l w : heap_moved (fun a a' => a' = a \/ exists proof, transition a Cancelled proof = inl a') w (each (fun r => transitionSessionAction r Cancelled None) l w).2.
Proof.
  revert w. induction l as [|x l IH]; intros w; [by apply heap_moved_same; [left|]|]. cbn [each]. unfold mbind, se_bind. pose proof (transition_after x Cancelled None w) as H. unfold after in H.
  destruct (transitionSessionAction x Cancelled None w) as [[[]|e] w1]; cbn [snd]; [|subst w1; by apply heap_moved_same; [left|]]. destruct H as (b & Hb & Ht & Hw1).
  specialize (IH w1). assert (Hcomp : forall w2, heap_moved (fun a a' => a' = a \/ exists proof, transition a Cancelled proof = inl a') w1 w2 -> heap_moved (fun a a' => a' = a \/ exists proof, transition a Cancelled proof = inl a') w w2).
  { intros w2 H12 r a Ha. assert (Hmid : exists a1, heap w1 !! r = Some a1 /\ (a1 = a \/ (a1 = with_lifecycle Cancelled a /\ transition a Cancelled None = inl a1))).
    { rewrite Hw1. cbn. destruct (decide (x = r)) as [<-|Hn]; [rewrite lookup_insert_eq|rewrite lookup_insert_ne by done; exists a; auto]. assert (b = a) as -> by congruence. eexists. split; [done|]. by right. }
    destruct Hmid as (a1 & Ha1 & Hcase). destruct (H12 r a1 Ha1) as (a2 & Ha2 & Hm). exists a2. split; [done|].
    destruct Hcase as [->|[-> Ht1]]; [done|]. destruct Hm as [->|[proof Hm]]; [right; by exists None|]. apply transition_legal in Hm. by apply not_elem_of_nil in Hm. }
  destruct (each _ l w1) as [[us|e] w2]; cbn in *; by apply Hcomp.
Qed.
Lemma moved_edit o r a a' w : heap w !! r = Some a -> lifecycle a' = lifecycle a -> heap_moved (moved o) w (set_heap (<[r := a']> (heap w)) w).
Proof. intros Ha Hl. apply (heap_moved_assign _ r a); [by intros b; apply moved_same|done|by apply moved_same]. Qed.
Lemma exec_moved o w : allowed o w -> heap_moved (moved o) w (exec o w).2.
Proof.
  intros Ho. assert (Hrefl : forall b, moved o b b) by (intros b; by apply moved_same).
  destruct o as [r a|r p|i f|r placement| |p cs|r next proof|l r|r policy index|r]; cbn [exec].
  - intros r' b Hb. cbn. rewrite lookup_insert_ne by (intros <-; cbn in Ho; congruence). by exists b.
  - unfold mbind, se_bind, deref. destruct (heap w !! r) as [a|] eqn:Ea; [|by apply heap_moved_same]. by apply (moved_edit _ r a).
  - by apply heap_moved_same.
  - pose proof (enqueue_after r placement w) as H. unfold after in H. destruct (enqueue r placement w) as [[[]|e] w']; cbn; [|subst; by apply heap_moved_same].
    destruct H as (a & _ & _ & _ & ->). by apply heap_moved_same.
  - unfold selectFirst, mbind, se_bind, current. destruct (first_queued w) as [r|]; [|by apply heap_moved_same].
    pose proof (transition_after r Selected None w) as H. unfold after in H. destruct (transitionSessionAction r Selected None w) as [[[]|e] w']; cbn; [|subst; by apply heap_moved_same].
    destruct H as (a & Ha & Ht & ->). apply (heap_moved_assign _ r a); [done|done|]. by apply (not_queued_moved _ _ _ _ _ Ht).
  - unfold remove, mbind at 1, se_bind at 1, current. unfold mbind at 1, se_bind at 1. unfold mbind at 1, se_bind at 1. set (l := filter _ _). pose proof (each_cancel_moved l w) as H.
    assert (Hm : heap_moved (moved (Remove p cs)) w (each (fun r => transitionSessionAction r Cancelled None) l w).2).
    { intros r a Ha. destruct (H r a Ha) as (a' & Ha' & Hc). exists a'. split; [done|]. destruct Hc as [->|[proof Ht]]; [done|]. by apply (not_queued_moved _ _ _ _ _ Ht). }
    by destruct (each _ l w) as [[us|e] w'].
  - pose proof (transition_after r next proof w) as H. unfold after in H. destruct (transitionSessionAction r next proof w) as [[[]|e] w']; cbn; [|subst; by apply heap_moved_same].
    destruct H as (a & Ha & Ht & ->). apply (heap_moved_assign _ r a); [done|done|]. by apply transition_moved.
  - unfold swapQueued, mbind, se_bind, deref. destruct (heap w !! l) as [a|]; [|by apply heap_moved_same]. destruct (heap w !! r) as [b|]; [|by apply heap_moved_same].
    destruct (_ || _); [by apply heap_moved_same|]. unfold current. destruct (index_of l _); [|by apply heap_moved_same]. destruct (index_of r _); by apply heap_moved_same.
  - pose proof (move_after r policy index w) as H. unfold after in H. destruct (moveQueued r policy index w) as [[[]|e] w']; cbn; [|subst; by apply heap_moved_same].
    destruct H as (a & i & k & Ha & _ & ->). cbn zeta. intros r' b Hb. destruct (moved_edit (Move r policy index) r a (with_delivery policy a) w Ha eq_refl r' b Hb) as (b' & Hb' & Hm). by exists b'.
  - unfold releaseTerminal, mbind, se_bind, deref. destruct (heap w !! r) as [a|]; [|by apply heap_moved_same]. destruct (negb (isTerminal a)); [by apply heap_moved_same|].
    unfold update. cbn. apply heap_moved_same; [done|]. by destruct (index_of r _).
Qed.
(** C18. Life cycles over every run of the store: an action that has ended stays as it ended; and an action leaves the dispatch to wait again only by a rollback with the proof
    that the dispatch has settled and that none of its primary messages is in the transcript. *)
Theorem terminal_forever (os : list op) (o : op) (w : world) (r : nat) (a : SessionAction) (Hos : all_allowed (o :: os) w) (Ha : heap w !! r = Some a) :
  (isTerminal a = true -> exists a', heap (run (o :: os) w) !! r = Some a' /\ lifecycle a' = lifecycle a) /\
  (state_of a = TCommitting -> forall a', heap (exec o w).2 !! r = Some a' -> state_of a' = TQueued ->
     exists r' next p, o = Transition r' next (Some p) /\ dispatchSettled p = true /\ Forall (fun d => d_message d ∉ proof_transcript p) (primaryRecords a)).
Proof.
  split.
  - generalize (o :: os), Hos. clear o os Hos. intros os Hos. revert w a Hos Ha. induction os as [|o os IH]; intros w a Hos Ha Hterm; [by exists a|]. destruct Hos as [Ho Hos]. cbn [run].
    destruct (exec_moved o w Ho r a Ha) as (a1 & Ha1 & [[Hl|Hl] _]).
    + destruct (IH _ a1 Hos Ha1) as (a2 & Ha2 & Hl2); [unfold isTerminal, state_of; by rewrite Hl|]. exists a2. split; [done|congruence].
    + unfold isTerminal in Hterm. apply bool_decide_eq_true in Hterm. exfalso. unfold TERMINAL_STATES in Hterm. destruct (state_of a); try (by apply not_elem_of_nil in Hl); set_solver.
  - intros Hc a' Ha' Hq. destruct Hos as [Ho _]. destruct (exec_moved o w Ho r a Ha) as (a1 & Ha1 & _ & Hm). rewrite Ha' in Ha1. injection Ha1 as <-. by apply Hm.
Qed.

(** ** The order in which actions are taken *)

(** Actions are made, edited, taken in by priority, selected, moved on in their life, cancelled where they can be and released; none is put back or moved by hand. *)
Inductive qop :=
| QCreate (r : nat) (a : SessionAction) | QEdit (r : nat) (p : SessionActionPayload) | QEnqueue (r : nat) | QSelect | QAdvance (r : nat) (next : ActionLifecycle)
| QCancel (p : SessionAction -> bool) | QRelease (r : nat).
(** AS 2334-2334 AgentSession._cancelSessionActions. The session cancels what can be cleared, and releases it at once; what has been dispatched can not be cleared.
    Tickets and messages are left out. *)
Definition cancel (p : SessionAction -> bool) : M unit := removed ← remove p None; each releaseTerminal removed ;; mret tt.
(** One step of such a run; what it needs; what comes in. *)
Definition exec_q (o : qop) : M unit :=
  match o with
  | QCreate r a => exec (Create r a) | QEdit r p => exec (Edit r p) | QEnqueue r => enqueue r AtPriority | QSelect => exec Select
  | QAdvance r next => transitionSessionAction r next None | QCancel p => cancel p | QRelease r => releaseTerminal r
  end.
Definition allowed_q (o : qop) (w : world) : Prop :=
  match o with
  | QCreate r _ => heap w !! r = None
  | QAdvance r next => test w isQueued r = false /\ tag_of next <> TQueued
  | QRelease r => r ∈ actions None w \/ (forall a, heap w !! r = Some a -> a_id a ∉ ids w)
  | _ => True
  end.
Definition arriving (o : qop) (w : world) : list nat := match o, (exec_q o w).1 with QEnqueue r, inl _ => [r] | _, _ => [] end.
Definition rank (w : world) (r : nat) : Z := match heap w !! r with Some a => PRIORITY_RANK (priority a) | None => 0 end.
(** The higher priority first, and what came first among equals; [arrived] is the order of arrival. *)
Definition before (w : world) (arrived : list nat) (r r' : nat) : Prop := rank w r' < rank w r \/ (rank w r = rank w r' /\ [r; r'] `sublist_of` arrived).
(** A lane: what is no longer queued, and then what is queued, in order. *)
Definition ordered (w : world) (arrived : list nat) (p : DeliveryPolicy) : Prop := exists front q,
  lane p w = front ++ q /\ Forall (fun r => test w isQueued r = false) front /\ Forall (fun r => test w isQueued r = true) q /\ StronglySorted (before w arrived) q /\
  (forall r, r ∈ q -> r ∈ arrived).
Lemma rank_kept w w' r : kept w w' -> rank w' r = rank w r.
Proof. intros [_ _ _ H]. specialize (H r). unfold rank. destruct (heap w' !! r), (heap w !! r); try done. unfold face in H. cbn in H. by injection H as _ _ ->. Qed.
Lemma before_rank w arrived r r' : before w arrived r r' -> rank w r' <= rank w r.
Proof. unfold before. lia. Qed.
Lemma sorted_mono w w' l l' q : (forall r, r ∈ q -> rank w' r = rank w r) -> l `sublist_of` l' -> StronglySorted (before w l) q -> StronglySorted (before w' l') q.
Proof.
  intros Hr Hl Hs. induction Hs as [|r q _ IH Hf]; constructor; [apply IH; intros x Hx; apply Hr; by right|]. rewrite list.Forall_forall in Hf |- *. intros r' Hx. unfold before.
  rewrite !Hr by (try (by left); by right). destruct (Hf r' Hx) as [H|[H1 H2]]; [by left|right; split; [done|by etrans]].
Qed.
(** The lanes stay, and so does who is queued in them. *)
Lemma ordered_same w w' l p : lane p w' = lane p w -> (forall r, r ∈ lane p w -> rank w' r = rank w r /\ test w' isQueued r = test w isQueued r) -> ordered w l p -> ordered w' l p.
Proof.
  intros Hlane Ht (front & q & Hl & Hf & Hq & Hs & Hin). exists front, q. rewrite Hlane. rewrite Hl in Ht. split_and!; [done| | | |done].
  - rewrite list.Forall_forall in Hf |- *. intros r Hx. destruct (Ht r) as [_ ->]; [set_solver|by apply Hf].
  - rewrite list.Forall_forall in Hq |- *. intros r Hx. destruct (Ht r) as [_ ->]; [set_solver|by apply Hq].
  - apply (sorted_mono w _ l l); [|done|done]. intros r Hx. apply Ht. set_solver.
Qed.
Lemma test_insert w p r a r' : test (set_heap (<[r := a]> (heap w)) w) p r' = if decide (r = r') then p a else test w p r'.
Proof. unfold test. cbn. destruct (decide (r = r')) as [<-|Hn]; [by rewrite lookup_insert_eq|by rewrite lookup_insert_ne]. Qed.

(** Where an action is inserted. *)
Lemma passed_split w k l : exists a b, l = a ++ b /\ passed w k l = length a /\ Forall (fun r => test w isQueued r = true /\ rank w r < k) a /\
  match b with r :: _ => test w isQueued r = true -> k <= rank w r | [] => True end.
Proof.
  induction l as [|r l IH]; [by exists [], []|]. cbn [passed]. destruct (test w _ r) eqn:E.
  - destruct IH as (a & b & -> & -> & Ha & Hb). exists (r :: a), b. split_and!; [done|done| |done]. constructor; [|done]. unfold test, rank in *. destruct (heap w !! r) as [x|]; [|done]. to_prop. auto.
  - exists [], (r :: l). split_and!; [done|done|constructor|]. unfold test, rank in *. destruct (heap w !! r) as [x|]; [|done]. intros Hq. rewrite Hq in E. cbn [andb] in E. to_prop. lia.
Qed.
Lemma enqueue_ordered w w' arrived p r a : heap w !! r = Some a -> isQueued a = true ->
  (forall x, heap w' !! x = heap w !! x) -> lane p w' = (if decide (p = delivery a) then insert_at (insertionIndex w (lane p w) a AtPriority) r (lane p w) else lane p w) ->
  ordered w arrived p -> ordered w' (arrived ++ [r]) p.
Proof.
  intros Ha Hq Hheap Hlane (front & q & Hl & Hf & Hqs & Hs & Hin).
  assert (Hrank : forall x, rank w' x = rank w x) by (intros x; unfold rank; by rewrite Hheap). assert (Htest : forall f x, test w' f x = test w f x) by (intros f x; unfold test; by rewrite Hheap).
  assert (Hq' : Forall (fun r => test w' isQueued r = true) q) by (eapply list.Forall_impl; [exact Hqs|]; intros x; by rewrite Htest).
  assert (Hf' : Forall (fun r => test w' isQueued r = false) front) by (eapply list.Forall_impl; [exact Hf|]; intros x; by rewrite Htest).
  assert (Hsub : arrived `sublist_of` arrived ++ [r]) by apply sublist_inserts_r, (reflexivity _).
  destruct (decide (p = delivery a)) as [Hp|Hn].
  2:{ exists front, q. rewrite Hlane. split_and!; [done|done|done|by apply (sorted_mono w _ arrived)|]. intros x Hx. apply elem_of_app. left. by apply Hin. }
  destruct (passed_split w (PRIORITY_RANK (priority a)) (reverse (lane p w))) as (y & x & Hyx & Hpass & Hy & Hx).
  assert (Hlxy : lane p w = reverse x ++ reverse y) by (by rewrite <- reverse_app, <- Hyx, reverse_involutive).
  assert (Hins : lane p w' = reverse x ++ r :: reverse y).
  { rewrite Hlane. unfold insertionIndex, insert_at. rewrite Hpass, Hlxy, length_app, !length_reverse. replace (length x + length y - length y)%nat with (length x) by lia.
    rewrite <- (length_reverse x). by rewrite take_app_length, drop_app_length. }
  assert (Hsplit : exists q1, q = q1 ++ reverse y /\ reverse x = front ++ q1).
  { rewrite Hl in Hlxy. apply app_eq_app in Hlxy as (k & [[H1 H2]|[H1 H2]]).
    - destruct k as [|z k]; [exists []; rewrite app_nil_r in H1; by rewrite H1, app_nil_r|]. exfalso. rewrite list.Forall_forall in Hf. assert (Hz : test w isQueued z = false) by (apply Hf; rewrite H1; set_solver).
      rewrite list.Forall_forall in Hy. destruct (Hy z) as [Hz' _]; [|congruence]. apply elem_of_reverse. rewrite H2. by left.
    - by exists k. }
  destruct Hsplit as (q1 & -> & Hrx). exists front, (q1 ++ r :: reverse y). rewrite Hins, Hrx, <- (assoc_L (++)).
  assert (Hrr : rank w r = PRIORITY_RANK (priority a)) by (unfold rank; by rewrite Ha).
  assert (Hrt : test w isQueued r = true) by (unfold test; by rewrite Ha).
  split_and!; [done|done| | |].
  - apply Forall_app in Hq' as [H1 H2]. apply Forall_app. split; [done|]. constructor; [by rewrite Htest|done].
  - apply (sorted_mono w _ (arrived ++ [r])); [done|done|]. apply (sorted_mono w w _ (arrived ++ [r])) in Hs; [|done|done]. apply StronglySorted_app in Hs as (Hc & H1 & H2). apply StronglySorted_app. split_and!.
    + intros x1 x2 Hx1 [->|Hx2]%elem_of_cons; [|by apply Hc]. assert (Hge : rank w r <= rank w x1).
      { destruct q1 as [|z q1'] using rev_ind; [by apply not_elem_of_nil in Hx1|]. clear IHq1'. rewrite (assoc_L (++)) in Hrx.
        assert (Hrev : x = z :: reverse (front ++ q1')) by (rewrite <- (reverse_involutive x), Hrx, reverse_snoc; done). rewrite Hrev in Hx. rewrite Hrr.
        assert (Hz : PRIORITY_RANK (priority a) <= rank w z). { apply Hx. rewrite list.Forall_forall in Hqs. apply Hqs. set_solver. }
        apply elem_of_app in Hx1 as [Hx1|Hx1%list_elem_of_singleton]; [|by subst]. apply StronglySorted_app in H1 as (H1 & _ & _). specialize (H1 x1 z Hx1 ltac:(by left)). apply before_rank in H1. lia. }
      destruct (decide (rank w r = rank w x1)) as [He|He]; [right|left; lia]. split; [done|]. change [x1; r] with ([x1] ++ [r]). apply sublist_app; [|done]. apply singleton_sublist_l. apply Hin. apply elem_of_app. by left.
    + done.
    + constructor; [done|]. apply list.Forall_forall. intros x2 Hx2. left. rewrite list.Forall_forall in Hy. destruct (Hy x2) as [_ Hlt]; [by apply elem_of_reverse|]. by rewrite Hrr.
  - intros z [Hz|[->|Hz]%elem_of_cons]%elem_of_app; apply elem_of_app; [left; apply Hin, elem_of_app; by left|right; by left|left; apply Hin, elem_of_app; by right].
Qed.

(** One action goes on from the front of its lane. *)
Lemma delete_at_filter i r l : NoDup l -> index_of r l = Some i -> delete_at i l = filter (fun x => x <> r) l.
Proof.
  intros Hnd H%index_of_Some. unfold delete_at. rewrite H in Hnd. apply NoDup_app in Hnd as (_ & Hd & Hnd). apply NoDup_cons in Hnd as [Hr _]. rewrite H at 3.
  rewrite filter_app, filter_cons_False by (intros Hc; by apply Hc). rewrite !filter_whole; [done| |]; intros x Hx ->; [done|]. apply (Hd r Hx). by left.
Qed.
Lemma lane_NoDup p w : wf w -> NoDup (lane p w).
Proof. intros Hw. pose proof (wf_once w Hw) as H. rewrite (actions_lane p) in H. by apply NoDup_app in H as [H _]. Qed.
Lemma lanes_apart p p' r w : wf w -> r ∈ lane p w -> r ∈ lane p' w -> p = p'.
Proof. intros Hw (a & Ha & Hd)%(wf_lane w Hw) (b & Hb & Hd')%(wf_lane w Hw). congruence. Qed.
Lemma queued_of_split w front q : Forall (fun r => test w isQueued r = false) front -> Forall (fun r => test w isQueued r = true) q ->
  filter (fun r => test w isQueued r = true) (front ++ q) = q.
Proof.
  intros Hf Hq. rewrite filter_app. rewrite list.Forall_forall in Hf, Hq. rewrite (filter_whole _ q) by done.
  assert (He : filter (fun r => test w isQueued r = true) front = []); [|by rewrite He]. clear Hq. induction front as [|x front IH]; [done|]. rewrite filter_cons_False by (rewrite (Hf x) by (by left); done).
  apply IH. intros y Hy. apply Hf. by right.
Qed.
Lemma rank_assign w r a a' x : heap w !! r = Some a -> priority a' = priority a -> rank (set_heap (<[r := a']> (heap w)) w) x = rank w x.
Proof. intros Ha Hp. unfold rank. cbn. destruct (decide (r = x)) as [<-|Hn]; [by rewrite lookup_insert_eq, Ha, Hp|by rewrite lookup_insert_ne]. Qed.
(** An action that is not queued may change if it stays so; the first that is queued may be selected. *)
Lemma advance_ordered w r a a' l p : heap w !! r = Some a -> face a' = face a -> isQueued a' = isQueued a -> ordered w l p -> ordered (set_heap (<[r := a']> (heap w)) w) l p.
Proof.
  intros Ha Hf Hq. apply ordered_same; [done|]. intros x _. split; [apply (rank_assign _ _ a); [done|unfold face in Hf; congruence]|]. rewrite test_insert. destruct (decide (r = x)) as [<-|]; [|done]. unfold test. by rewrite Ha.
Qed.
Lemma select_ordered w r a l p p' q0 : wf w -> heap w !! r = Some a -> queuedActions (Some p') w = r :: q0 -> ordered w l p -> ordered (set_heap (<[r := with_lifecycle Selected a]> (heap w)) w) l p.
Proof.
  intros Hw Ha Hr Ho. set (w' := set_heap _ w). assert (Hrank : forall x, rank w' x = rank w x) by (intros x; by apply (rank_assign _ _ a)).
  assert (Hrl : r ∈ lane p' w) by (eapply list_elem_of_filter with (P := fun r => test w isQueued r = true); change (r ∈ queuedActions (Some p') w); rewrite Hr; by left).
  destruct (decide (p = p')) as [<-|Hn].
  2:{ apply (ordered_same w); [done| |done]. intros x Hx. split; [apply Hrank|]. unfold w'. rewrite test_insert, decide_False; [done|]. intros <-. apply Hn. by apply (lanes_apart _ _ r w). }
  destruct Ho as (front & q & Hl & Hf & Hq & Hs & Hin). unfold queuedActions, those in Hr. cbn [actions] in Hr. rewrite Hl, queued_of_split in Hr by done. subst q.
  pose proof (lane_NoDup p w Hw) as Hnd. rewrite Hl in Hnd. apply NoDup_app in Hnd as (_ & Hd & Hnd). apply NoDup_cons in Hnd as [Hnot _].
  exists (front ++ [r]), q0. change (lane p w') with (lane p w). rewrite Hl, <- (assoc_L (++)). split_and!; [done| | | |].
  - apply Forall_app. split; [|constructor; [|done]; unfold w'; by rewrite test_insert, decide_True]. rewrite list.Forall_forall in Hf |- *. intros x Hx. unfold w'. rewrite test_insert, decide_False; [by apply Hf|].
    intros <-. apply (Hd r Hx). by left.
  - apply Forall_cons in Hq as [_ Hq]. rewrite list.Forall_forall in Hq |- *. intros x Hx. unfold w'. rewrite test_insert, decide_False; [by apply Hq|]. by intros <-.
  - inversion Hs; subst. by apply (sorted_mono w _ l l).
  - intros x Hx. apply Hin. by right.
Qed.

(** Cancelling, and what is released. *)
Lemma StronglySorted_sublist {A} (R : A -> A -> Prop) l k : l `sublist_of` k -> StronglySorted R k -> StronglySorted R l.
Proof.
  induction 1 as [|x l k Hl IH|x l k _ IH]; intros Hk; [done| |]; inversion Hk as [|? ? Hk' Hf]; subst; [|by apply IH]. constructor; [by apply IH|].
  rewrite list.Forall_forall in Hf |- *. intros y Hy. apply Hf. by eapply elem_of_sublist.
Qed.
Lemma filter_ordered w l p (P : nat -> Prop) `{forall x, Decision (P x)} w' : ordered w l p -> lane p w' = filter P (lane p w) ->
  (forall x, P x -> rank w' x = rank w x /\ test w' isQueued x = test w isQueued x) -> ordered w' l p.
Proof.
  intros (front & q & Hl & Hf & Hq & Hs & Hin) Hlane Ht. exists (filter P front), (filter P q). rewrite Hlane, Hl, filter_app. rewrite list.Forall_forall in Hf, Hq. split_and!; [done| | | |].
  - apply list.Forall_forall. intros x [HP Hx]%list_elem_of_filter. destruct (Ht x HP) as [_ ->]. by apply Hf.
  - apply list.Forall_forall. intros x [HP Hx]%list_elem_of_filter. destruct (Ht x HP) as [_ ->]. by apply Hq.
  - apply (sorted_mono w _ l l); [|done|]; [intros x [HP _]%list_elem_of_filter; by apply Ht|]. apply (StronglySorted_sublist _ _ q); [|done]. apply sublist_filter.
  - intros x [_ Hx]%list_elem_of_filter. by apply Hin.
Qed.
Lemma clearable_cancel a : isClearable a = true -> transition a Cancelled None = inl (with_lifecycle Cancelled a).
Proof. unfold isClearable, transition. rewrite bool_decide_eq_true. unfold CLEARABLE_STATES. intros H. repeat apply elem_of_cons in H as [->|H]; try done. by apply not_elem_of_nil in H. Qed.
Lemma test_Some w p r : test w p r = true -> exists a, heap w !! r = Some a /\ p a = true.
Proof. unfold test. destruct (heap w !! r) as [a|]; [|done]. by exists a. Qed.
Lemma bind_eq {A B} (m : M A) (f : A -> M B) w w' x : m w = (inl x, w') -> (m ≫= f) w = f x w'.
Proof. unfold mbind, se_bind. by intros ->. Qed.
Lemma each_cancel_all l w : NoDup l -> (forall r, r ∈ l -> test w isClearable r = true) -> exists us w',
  each (fun r => transitionSessionAction r Cancelled None) l w = (inl us, w') /\ (forall x, heap w' !! x = (if decide (x ∈ l) then with_lifecycle Cancelled <$> heap w !! x else heap w !! x)).
Proof.
  revert w. induction l as [|r l IH]; intros w Hnd Hl; [by eexists _, _|]. apply NoDup_cons in Hnd as [Hr Hnd]. destruct (test_Some w isClearable r) as (a & Ha & Hc); [apply Hl; by left|].
  set (w1 := set_heap (<[r := with_lifecycle Cancelled a]> (heap w)) w).
  assert (H1 : transitionSessionAction r Cancelled None w = (inl tt, w1)) by (unfold transitionSessionAction, mbind, se_bind, deref, returning; by rewrite Ha, clearable_cancel).
  destruct (IH w1 Hnd) as (us & w' & Heq & Hh). { intros x Hx. unfold w1. rewrite test_insert, decide_False by (by intros ->). apply Hl. by right. }
  cbn [each]. rewrite (bind_eq _ _ _ _ _ H1), (bind_eq _ _ _ _ _ Heq). eexists _, w'. split; [done|]. intros x. rewrite Hh. unfold w1. cbn. destruct (decide (x = r)) as [->|Hn].
  - rewrite decide_False, decide_True, lookup_insert_eq, Ha by (try done; by left). done.
  - rewrite lookup_insert_ne by done. destruct (decide (x ∈ l)) as [Hx|Hx]; [by rewrite decide_True by (by right)|]. rewrite decide_False; [done|]. by intros [?|?]%elem_of_cons.
Qed.
Lemma release_one w r a : wf w -> heap w !! r = Some a -> isTerminal a = true -> exists w',
  releaseTerminal r w = (inl tt, w') /\ heap w' = heap w /\ forall p, lane p w' = filter (fun x => x <> r) (lane p w).
Proof.
  intros Hw Ha Ht. unfold releaseTerminal, mbind, se_bind, deref. rewrite Ha, Ht. cbn [negb]. unfold update. eexists. split; [done|]. split; [by destruct (index_of r _)|].
  intros p. change (lane p (set_tickets ?t ?x)) with (lane p x). assert (Hother : p <> delivery a -> lane p w = filter (fun x => x <> r) (lane p w)).
  { intros Hn. symmetry. apply filter_whole. intros x Hx ->. apply (wf_lane w Hw) in Hx as (b & Hb & Hd). congruence. }
  destruct (index_of r (lane (delivery a) w)) as [i|] eqn:Ei.
  - rewrite lane_set_lane. destruct (decide (p = delivery a)) as [->|Hn]; [|by apply Hother]. apply delete_at_filter; [by apply lane_NoDup|done].
  - destruct (decide (p = delivery a)) as [->|Hn]; [|by apply Hother]. symmetry. apply filter_whole. intros x Hx ->. by apply index_of_None in Ei.
Qed.
Lemma release_all l w : wf w -> NoDup l -> (forall r, r ∈ l -> r ∈ actions None w /\ test w isTerminal r = true) -> exists us w',
  each releaseTerminal l w = (inl us, w') /\ wf w' /\ heap w' = heap w /\ forall p, lane p w' = filter (fun x => x ∉ l) (lane p w).
Proof.
  revert w. induction l as [|r l IH]; intros w Hw Hnd Hl.
  - eexists _, w. split_and!; [done|done|done|]. intros p. symmetry. apply filter_whole. intros x _. apply not_elem_of_nil.
  - apply NoDup_cons in Hnd as [Hr Hnd]. destruct (Hl r) as [Hin Ht]; [by left|]. apply test_Some in Ht as (a & Ha & Ht). destruct (release_one w r a Hw Ha Ht) as (w1 & He & Hh & Hlane).
    assert (Hw1 : wf w1). { destruct (release_conserved r w) as [Hw1 _]; [by left|done|]. cbn [exec] in Hw1. by rewrite He in Hw1. }
    destruct (IH w1 Hw1 Hnd) as (us & w' & He' & Hw' & Hh' & Hlane').
    { intros x Hx. destruct (Hl x) as [Hxin Hxt]; [by right|]. split; [|unfold test; by rewrite Hh]. apply elem_actions_lane in Hxin as (p & Hp). apply (elem_lane_actions p). rewrite Hlane.
      apply list_elem_of_filter. split; [by intros ->|done]. }
    cbn [each]. rewrite (bind_eq _ _ _ _ _ He), (bind_eq _ _ _ _ _ He'). eexists _, w'. split_and!; [done|done|by rewrite Hh', Hh|]. intros p.
    rewrite Hlane', Hlane, list_filter_filter. apply list_filter_iff. intros x. rewrite not_elem_of_cons. tauto.
Qed.
Lemma cancel_spec f w : wf w -> exists us w1, cancel f w = (inl us, w1) /\ wf w1 /\
  let gone := filter (fun r => test w f r = true) (clearableActions None w) in
  (forall p, lane p w1 = filter (fun x => x ∉ gone) (lane p w)) /\ (forall x, x ∉ gone -> heap w1 !! x = heap w !! x).
Proof.
  intros Hw. set (gone := filter _ _). assert (Hgone : forall x, x ∈ gone -> x ∈ actions None w /\ test w isClearable x = true).
  { intros x [_ Hx]%list_elem_of_filter. by apply list_elem_of_filter in Hx as [Hc Hx]. }
  assert (Hnd : NoDup gone) by (apply NoDup_filter, NoDup_filter, (wf_once w Hw)).
  destruct (each_cancel_all gone w Hnd) as (us & w1 & He & Hh); [intros x Hx; by apply Hgone|].
  assert (Hk : kept w w1) by (pose proof (each_transition_kept Cancelled gone w) as H; by rewrite He in H).
  destruct (release_all gone w1 (kept_wf _ _ Hk Hw) Hnd) as (us' & w2 & He' & Hw2 & Hh2 & Hlane).
  { intros x Hx. destruct (Hgone x Hx) as [Hin Hc]. rewrite (kept_actions _ _ Hk). split; [done|]. apply test_Some in Hc as (a & Ha & _). unfold test. by rewrite Hh, decide_True, Ha by done. }
  assert (Hrem : remove f None w = (inl gone, w1)). { unfold remove. unfold mbind at 1, se_bind at 1, current. unfold default. fold gone. by rewrite (bind_eq _ _ _ _ _ He). }
  unfold cancel. exists tt, w2. rewrite (bind_eq _ _ _ _ _ Hrem), (bind_eq _ _ _ _ _ He'). split; [done|]. split; [done|]. cbn zeta. fold gone. split.
  - intros p. by rewrite Hlane, (kept_lane _ _ _ Hk).
  - intros x Hx. by rewrite Hh2, Hh, decide_False.
Qed.

(** What every run keeps. *)
Definition in_order (w : world) (arrived : list nat) : Prop := wf w /\ forall p, ordered w arrived p.
Lemma same_heap_test w w' f x : heap w' !! x = heap w !! x -> rank w' x = rank w x /\ test w' f x = test w f x.
Proof. intros H. unfold rank, test. by rewrite H. Qed.
Lemma exec_op_in_order o w l : allowed o w -> entering o w = [] -> in_order w l -> (forall p, ordered (exec o w).2 l p) -> in_order (exec o w).2 (l ++ []).
Proof. intros Ho _ [Hw _] Hp. rewrite app_nil_r. split; [by apply exec_conserved|done]. Qed.
Lemma enqueue_in_order r w l : in_order w l -> in_order (enqueue r AtPriority w).2 (l ++ arriving (QEnqueue r) w).
Proof.
  intros [Hw Ho]. destruct (enqueue_conserved r AtPriority w Hw) as [Hw' _]. cbn [exec] in Hw'. pose proof (enqueue_after r AtPriority w) as H. unfold after in H. unfold arriving. cbn [exec_q].
  destruct (enqueue r AtPriority w) as [[[]|e] w']; cbn [fst snd] in *; [|subst; by rewrite app_nil_r]. split; [done|]. intros p. destruct H as (a & Ha & Hq & _ & ->).
  apply (enqueue_ordered w _ _ _ _ a); try done. change (lane p (set_tickets ?t ?x)) with (lane p x). rewrite lane_set_lane. by destruct (decide (p = delivery a)) as [->|].
Qed.
Lemma advance_in_order r next w l : test w isQueued r = false -> tag_of next <> TQueued -> in_order w l -> in_order (transitionSessionAction r next None w).2 l.
Proof.
  intros Hr Hn [Hw Ho]. split; [by apply (kept_wf w _ (transition_kept r next None w))|]. intros p. pose proof (transition_after r next None w) as H. unfold after in H.
  destruct (transitionSessionAction r next None w) as [[[]|e] w']; cbn [snd]; [|by subst]. destruct H as (a & Ha & _ & ->). apply (advance_ordered w r a); [done|done| |done].
  unfold test in Hr. rewrite Ha in Hr. rewrite Hr. unfold isQueued, state_of. cbn. by rewrite bool_decide_eq_false_2.
Qed.
Lemma first_queued_spec w r : first_queued w = Some r -> exists p q, queuedActions (Some p) w = r :: q /\ (p = WhenRunIdle -> queuedActions (Some NextTurnBoundary) w = []).
Proof.
  unfold first_queued. destruct (queuedActions (Some NextTurnBoundary) w) as [|x q] eqn:E, (queuedActions (Some WhenRunIdle) w) as [|y q'] eqn:E'; intros H; try done; injection H as ->.
  - by exists WhenRunIdle, q'.
  - by exists NextTurnBoundary, q.
  - by exists NextTurnBoundary, q.
Qed.
Lemma select_in_order w l : in_order w l -> in_order (selectFirst w).2 l.
Proof.
  intros [Hw Ho]. split; [by apply (kept_wf w _ (selectFirst_kept w))|]. intros p. unfold selectFirst. unfold mbind at 1, se_bind at 1, current. destruct (first_queued w) as [r|] eqn:Er; [|by apply Ho].
  apply first_queued_spec in Er as (p' & q & Hq & _). pose proof (transition_after r Selected None w) as H. unfold after in H. unfold mbind, se_bind.
  destruct (transitionSessionAction r Selected None w) as [[[]|e] w']; cbn [snd]; [|subst; apply Ho]. destruct H as (a & Ha & _ & ->). by apply (select_ordered w r a l p p' q).
Qed.
Lemma cancel_in_order f w l : in_order w l -> in_order (cancel f w).2 l.
Proof.
  intros [Hw Ho]. destruct (cancel_spec f w Hw) as (us & w' & -> & Hw' & Hlane & Hh). cbn [snd]. split; [done|]. intros p. eapply filter_ordered; [apply Ho|apply Hlane|].
  intros x Hx. apply same_heap_test. by apply Hh.
Qed.
Lemma release_in_order r w l : allowed_q (QRelease r) w -> in_order w l -> in_order (releaseTerminal r w).2 l.
Proof.
  intros Hr [Hw Ho]. destruct (release_conserved r w Hr Hw) as [Hw' _]. cbn [exec] in Hw'. split; [done|]. intros p. destruct (heap w !! r) as [a|] eqn:Ea.
  2:{ unfold releaseTerminal, mbind, se_bind, deref. rewrite Ea. apply Ho. }
  destruct (isTerminal a) eqn:Et; [|unfold releaseTerminal, mbind, se_bind, deref; rewrite Ea, Et; apply Ho].
  destruct (release_one w r a Hw Ea Et) as (w1 & -> & Hh & Hlane). cbn [snd]. apply (filter_ordered w _ _ _ _ (Ho p) (Hlane p)). intros x _. apply same_heap_test. by rewrite Hh.
Qed.
Lemma exec_q_in_order o w l : allowed_q o w -> in_order w l -> in_order (exec_q o w).2 (l ++ arriving o w).
Proof.
  intros Ho H. destruct o as [r a|r p|r| |r next|f|r]; cbn [exec_q].
  3: by apply enqueue_in_order.
  all: rewrite app_nil_r.
  - split; [apply create_conserved; [done|apply H]|]. intros p. destruct H as [Hw H]. apply (ordered_same w); [done| |apply H]. intros x (b & Hb & _)%(wf_lane w Hw). apply same_heap_test.
    cbn. rewrite lookup_insert_ne; [done|]. cbn in Ho. congruence.
  - destruct H as [Hw H]. assert (Hk : kept w (exec (Edit r p) w).2). { cbn. unfold mbind, se_bind, deref. destruct (heap w !! r) as [a|] eqn:Ea; [|done]. by apply (assign_kept r a). }
    split; [by apply (kept_wf w)|]. intros p'. cbn. unfold mbind, se_bind, deref. destruct (heap w !! r) as [a|] eqn:Ea; [|apply H]. by apply (advance_ordered w r a).
  - pose proof (select_in_order w l H) as Hs. cbn. unfold mbind, se_bind. by destruct (selectFirst w) as [[x|e] w'].
  - destruct Ho. by apply advance_in_order.
  - by apply cancel_in_order.
  - by apply release_in_order.
Qed.
Fixpoint run_q (os : list qop) (w : world) : world := match os with [] => w | o :: os => run_q os (exec_q o w).2 end.
Fixpoint all_allowed_q (os : list qop) (w : world) : Prop := match os with [] => True | o :: os => allowed_q o w /\ all_allowed_q os (exec_q o w).2 end.
Fixpoint arrivals (os : list qop) (w : world) : list nat := match os with [] => [] | o :: os => arriving o w ++ arrivals os (exec_q o w).2 end.
Lemma run_q_in_order os w l : all_allowed_q os w -> in_order w l -> in_order (run_q os w) (l ++ arrivals os w).
Proof.
  revert w l. induction os as [|o os IH]; intros w l Hall H; cbn; [by rewrite app_nil_r|]. destruct Hall as [Ho Hall]. rewrite (assoc_L (++)). apply IH; [done|]. by apply exec_q_in_order.
Qed.
(** C17. In which order actions are taken, over every run in which actions come by priority, are selected, go on, are cancelled and released. In each lane those that wait stand behind
    those that do not, the higher priority first, and in the order of arrival among equals; and what [selectFirst] takes comes before all that waits in its lane, and from the idle lane only
    when nothing waits in the other. *)
Theorem queue_order (os : list qop) (Hos : all_allowed_q os empty_world) :
  let w := run_q os empty_world in let arrived := arrivals os empty_world in
  (forall p, StronglySorted (before w arrived) (queuedActions (Some p) w) /\ exists front, lane p w = front ++ queuedActions (Some p) w) /\
  match (selectFirst w).1 with
  | inl (Some r) => exists p, r ∈ lane p w /\ (forall r', r' ∈ queuedActions (Some p) w -> r' = r \/ before w arrived r r') /\ (p = WhenRunIdle -> queuedActions (Some NextTurnBoundary) w = [])
  | inl None => queuedActions None w = []
  | inr _ => False
  end.
Proof.
  intros w arrived. destruct (run_q_in_order os empty_world [] Hos) as [Hw Ho]; [split; [apply empty_store_wf|]; intros p; exists [], []; split_and!; [by destruct p|constructor|constructor|constructor|by intros r ?%not_elem_of_nil]|].
  fold w in Hw, Ho. cbn [app] in Ho. fold arrived in Ho.
  assert (Hp : forall p, StronglySorted (before w arrived) (queuedActions (Some p) w) /\ exists front, lane p w = front ++ queuedActions (Some p) w).
  { intros p. destruct (Ho p) as (front & q & Hl & Hf & Hq & Hs & _). assert (Heq : queuedActions (Some p) w = q) by (unfold queuedActions, those; cbn [actions]; rewrite Hl; by apply queued_of_split).
    rewrite Heq. split; [done|]. by exists front. }
  split; [exact Hp|]. unfold selectFirst. unfold mbind at 1, se_bind at 1, current. destruct (first_queued w) as [r|] eqn:Er.
  - apply first_queued_spec in Er as (p & q & Hq & Hidle). destruct (Hp p) as [Hs _]. rewrite Hq in Hs. inversion Hs as [|? ? _ Hf]; subst.
    assert (Hr : r ∈ queuedActions (Some p) w) by (rewrite Hq; by left). apply list_elem_of_filter in Hr as [Hr Hin]. apply test_Some in Hr as (a & Ha & Hqa).
    assert (Ht : transitionSessionAction r Selected None w = (inl tt, set_heap (<[r := with_lifecycle Selected a]> (heap w)) w)).
    { unfold transitionSessionAction, mbind, se_bind, deref, returning. rewrite Ha. unfold isQueued in Hqa. apply bool_decide_eq_true in Hqa. unfold transition. by rewrite Hqa. }
    rewrite (bind_eq _ _ _ _ _ Ht). unfold mret, se_ret. cbn [fst]. exists p. split_and!; [done| |done]. rewrite Hq. rewrite list.Forall_forall in Hf. intros r' [->|Hr']%elem_of_cons; [by left|right; by apply Hf].
  - unfold mret, se_ret. cbn [fst]. unfold first_queued, queuedActions, those in Er. unfold queuedActions, those. cbn [actions lane] in *. rewrite filter_app. by destruct (_ ++ _).
Qed.

(** Two actions of one lane, the second of a higher priority; a third that is rolled back stands before both. *)
Definition an_action (i : N) (p : SessionActionPriority) (d : DeliveryPolicy) : SessionAction :=
  {| a_id := [i]; delivery := d; priority := p; payload := Turn [{| d_role := Primary; d_message := 0; started := false; durable := false |}] [] None; lifecycle := Queued |}.
Definition a_run : list op :=
  [Create 0 (an_action 1 Background WhenRunIdle); Enqueue 0 AtPriority; Create 1 (an_action 2 ByUser WhenRunIdle); Enqueue 1 AtPriority; Select; Transition 1 Preparing None;
   Transition 1 Committing None; Enqueue 1 AtTail; Transition 1 (Running true) None; Transition 1 Completed None; Release 1].
Lemma actions_conserved_witness : left_ a_run empty_world = [1%nat] /\
  actions None (run a_run empty_world) ++ left_ a_run empty_world ≡ₚ entered a_run empty_world.
Proof. split; [vm_compute; reflexivity|]. destruct (actions_conserved a_run) as [H _]; [|exact H].
  do 10 (split; [vm_compute; exact I || reflexivity|]). split; [left; vm_compute; left|exact I].
Defined.
Lemma terminal_forever_witness : exists a', heap (run [Select; Transition 0 Queued None] (run a_run empty_world)) !! 1%nat = Some a' /\ lifecycle a' = Completed.
Proof.
  assert (H : exists a, heap (run a_run empty_world) !! 1%nat = Some a /\ lifecycle a = Completed) by (eexists; split; vm_compute; reflexivity). destruct H as (a & Ha & Hl).
  destruct (terminal_forever [Transition 0 Queued None] Select (run a_run empty_world) 1 a) as [H _]; [repeat split; vm_compute; exact I|exact Ha|].
  destruct H as (a' & Ha' & Hl'); [unfold isTerminal, state_of; rewrite Hl; reflexivity|]. exists a'. split; [exact Ha'|]. rewrite Hl'. exact Hl.
Defined.
Definition a_queue : list qop :=
  [QCreate 0 (an_action 1 Background WhenRunIdle); QEnqueue 0; QCreate 1 (an_action 2 ByUser WhenRunIdle); QEnqueue 1; QCreate 2 (an_action 3 ByUser WhenRunIdle); QEnqueue 2;
   QCreate 3 (an_action 4 Background WhenRunIdle); QEnqueue 3; QSelect; QAdvance 1 (Running true); QCancel (fun a => bool_decide (a_id a = [3%N]))].
Lemma queue_order_witness : queuedActions (Some WhenRunIdle) (run_q a_queue empty_world) = [0; 3]%nat /\
  StronglySorted (before (run_q a_queue empty_world) (arrivals a_queue empty_world)) (queuedActions (Some WhenRunIdle) (run_q a_queue empty_world)).
Proof. split; [vm_compute; reflexivity|]. destruct (queue_order a_queue) as [H _]; [|apply (H WhenRunIdle)].
  do 9 (split; [vm_compute; exact I || reflexivity|]). split; [split; [vm_compute; reflexivity|discriminate]|]. split; [exact I|exact I].
Defined.
(** An action of the background that is selected and rolled back stays where it is, and a message of the user that came in between waits behind it. *)
Example rolled_back_stays_first :
  let w := run [Create 0 (an_action 1 Background WhenRunIdle); Enqueue 0 AtPriority; Select; Create 1 (an_action 2 ByUser WhenRunIdle); Enqueue 1 AtPriority; Transition 0 Queued None] empty_world in
  queuedActions None w = [0; 1]%nat.
Proof. vm_compute. reflexivity. Qed.

(** ** When a session may start its next action, and when it may be put away *)

(** ST 357-366 RuntimeActivity. *)
Record RuntimeActivity := {
  lowerAgentRun : bool; compaction_ : bool; retry_ : bool; bash : bool; refinementApply : bool; branchMutation : bool; schedulerPauseCount : Z; disposing : bool }.
(** ST 444-455 canSelectSessionAction. *)
Definition canSelectSessionAction (activity : RuntimeActivity) : bool :=
  negb (lowerAgentRun activity) && negb (compaction_ activity) && negb (retry_ activity) && negb (bash activity) && negb (refinementApply activity) &&
  negb (branchMutation activity) && (schedulerPauseCount activity =? 0) && negb (disposing activity).
(** ST 370-375 SessionEvictionSnapshot. *)
Record SessionEvictionSnapshot := { isSessionActive : bool; attachedClients : Z; hasRegisteredCronJob : bool; lastActivityAt : num }.
(** ST 393-408 isIdleEvictionThresholdMet. [None] is [off]; [now] is a time, a finite number. *)
Definition isIdleEvictionThresholdMet (session : SessionEvictionSnapshot) (idleEvictionMinutes : option num) (now : Q) : bool :=
  match idleEvictionMinutes with
  | Some (Fin minutes) =>
      if Qle_bool minutes 0 then false
      else negb (isSessionActive session) && (attachedClients session =? 0) && negb (hasRegisteredCronJob session) &&
           match lastActivityAt session with Fin last => num_le (to_num (minutes * inject_Z 60000)) (to_num (now - last)) | _ => false end
  | _ => false
  end.
(** ST 377-381 SessionPassivationSnapshot. *)
Record SessionPassivationSnapshot := { p_session : SessionEvictionSnapshot; hasParent : bool; hasNonPassiveDescendants : bool; isHydrating : bool }.
(** ST 410-422 canPassivateSession. *)
Definition canPassivateSession (session : SessionPassivationSnapshot) (idleEvictionMinutes : option num) (now : Q) : bool :=
  hasParent session && negb (hasNonPassiveDescendants session) && negb (isHydrating session) && isIdleEvictionThresholdMet (p_session session) idleEvictionMinutes now.
(** ST 383-391 WorkerEvictionSnapshot. *)
Inductive worker_lifecycle := Starting | Ready | Recovering | Stopping | Failed_.
#[export] Instance worker_lifecycle_eq_dec : EqDecision worker_lifecycle.
Proof. solve_decision. Defined.
(** ST 383-391 WorkerEvictionSnapshot. *)
Record WorkerEvictionSnapshot := {
  w_lifecycle : worker_lifecycle; isConnected : bool; isStopping : bool; hasOwnerClient : bool; isPreparingUpdateRestart : bool; hasWakeBlindSchedule : bool; sessions : list SessionEvictionSnapshot }.
(** ST 424-442 canEvictWorker. *)
Definition canEvictWorker (worker : WorkerEvictionSnapshot) (idleEvictionMinutes : option num) (now : Q) : bool :=
  if negb (bool_decide (w_lifecycle worker = Ready)) || negb (isConnected worker) || isStopping worker || hasOwnerClient worker || isPreparingUpdateRestart worker || hasWakeBlindSchedule worker ||
     bool_decide (sessions worker = []) then false
  else forallb (fun session => isIdleEvictionThresholdMet session idleEvictionMinutes now) (sessions worker).
(** A session is put away from the minute on, not before; a worker not while one of its sessions has a client. *)
Definition idle_since (last : Q) (clients : Z) : SessionEvictionSnapshot := {| isSessionActive := false; attachedClients := clients; hasRegisteredCronJob := false; lastActivityAt := Fin last |}.
Example idle_threshold : isIdleEvictionThresholdMet (idle_since 0 0) (Some (Fin (1 # 2))) 30000 = true /\ isIdleEvictionThresholdMet (idle_since 0 0) (Some (Fin (1 # 2))) 29999 = false /\
  isIdleEvictionThresholdMet (idle_since 0 0) (Some (Inf false)) 30000 = false.
Proof. vm_compute. auto. Qed.
Example attached_worker_stays : let worker s := {| w_lifecycle := Ready; isConnected := true; isStopping := false; hasOwnerClient := false; isPreparingUpdateRestart := false; hasWakeBlindSchedule := false; sessions := s |} in
  canEvictWorker (worker [idle_since 0 0; idle_since 0 0]) (Some (Fin 1)) 60000 = true /\ canEvictWorker (worker [idle_since 0 0; idle_since 0 1]) (Some (Fin 1)) 60000 = false /\
  canEvictWorker (worker []) (Some (Fin 1)) 60000 = false.
Proof. vm_compute. auto. Qed.
