(* ===== verification/JsonRepair.v ===== *)
(** * Reading the JSON that models write (ai/src/utils/json-parse.ts)

    Models write strings with raw control characters and with backslashes that begin no escape. [repairJson] mends such strings, and
    [parseStreamingJson] reads even a text that is not whole.

    [repair_reads_intended] says that a text whose strings are careless in these ways is read as the value it means, [repair_valid] that text
    that is JSON is never changed, [repair_idempotent] that there is nothing left to mend. *)

(* Source aliases:
   JP = src/packages/ai/src/utils/json-parse.ts *)

From S2P Require Import Prelude JsString JsNumber JsMap Messages Json.
Local Open Scope N_scope.

(** ** Definitions *)

(** JP 3-3 VALID_JSON_ESCAPES. *)
Definition VALID_JSON_ESCAPES : list N := [34; 92; 47; 98; 102; 110; 114; 116; 117].
Definition valid_escape (u : N) : bool := bool_decide (u ∈ VALID_JSON_ESCAPES).
(** JP 5-8 isControlCharacter. Of one code unit. *)
Definition isControlCharacter (u : N) : bool := u <=? 0x1f.
(** JP 10-25 escapeControlCharacter. *)
Definition escapeControlCharacter (u : N) : jsstr :=
  if u =? 8 then js "\b" else if u =? 12 then js "\f" else if u =? 10 then js "\n" else if u =? 13 then js "\r" else if u =? 9 then js "\t"
  else js "\u" ++ hex4 u.
(** JP 62-62 repairJson. The pattern of four hexadecimal digits. *)
Definition is_hex (u : N) : bool := match hex_value u with Some _ => true | None => false end.
(** JP 36-80 repairJson. The loop: what is to come, inside of a string or not. *)
Fixpoint repair (inString : bool) (s : jsstr) : jsstr :=
  match s with
  | [] => []
  | u :: s' =>
      if negb inString then u :: repair (u =? 34) s'
      else if u =? 34 then u :: repair false s'
      else if u =? 92 then
        match s' with
        | [] => js "\\"
        | e :: s'' =>
            let rest := if valid_escape e then 92 :: e :: repair true s'' else js "\\" ++ repair true s' in
            if e =? 117 then
              match s'' with
              | a :: b :: c :: d :: r => if is_hex a && is_hex b && is_hex c && is_hex d then js "\u" ++ [a; b; c; d] ++ repair true r else rest
              | _ => rest
              end
            else rest
        end
      else (if isControlCharacter u then escapeControlCharacter u else [u]) ++ repair true s'
  end.
(** JP 32-83 repairJson. *)
Definition repairJson (json : jsstr) : jsstr := repair false json.
(** JP 85-95 parseJsonWithRepair. [None] is an exception. *)
Definition parseJsonWithRepair (text : jsstr) : option json :=
  match JSON_parse text with
  | Some v => Some v
  | None => let repairedJson := repairJson text in if negb (jseqb repairedJson text) then JSON_parse repairedJson else None
  end.

Section streaming.
(** The parser of the package partial-json, which completes what is missing; [JNull] is also no value, [None] an exception. *)
Variable partialParse : jsstr -> option json.
(** JP 114-114 parseStreamingJson. [result ?? {}]. *)
Definition or_empty (v : json) : json := match v with JNull => JObj [] | _ => v end.
(** JP 104-124 parseStreamingJson. *)
Definition parseStreamingJson (partialJson : option jsstr) : json :=
  match partialJson with
  | None | Some [] => JObj []
  | Some text =>
      match trim text with
      | [] => JObj []
      | _ =>
          match parseJsonWithRepair text with
          | Some v => v
          | None =>
              match partialParse text with
              | Some result => or_empty result
              | None => match partialParse (repairJson text) with Some result => or_empty result | None => JObj [] end
              end
          end
      end
  end.
End streaming.

Definition q (s : string) : jsstr := [34] ++ js s ++ [34].
Example repair_path : parseJsonWithRepair (q "C:\Users\me") = Some (JStr (js "C:\Users\me")).
Proof. vm_compute. reflexivity. Qed.
(** A line break that is typed is read as one; a path whose parts begin with an escape letter is not what was meant. *)
Example repair_newline : parseJsonWithRepair ([34] ++ js "a" ++ [10] ++ js "b" ++ [34]) = Some (JStr (js "a" ++ [10] ++ js "b")).
Proof. vm_compute. reflexivity. Qed.
(** [\u] that begins no escape passes for one: the repaired text is no JSON. *)
Example unicode_escape_unrepaired : repairJson (q "C:\up") = q "C:\up" /\ parseJsonWithRepair (q "C:\up") = None.
Proof. vm_compute. auto. Qed.
(** The text of no object is not made one. *)
Example streaming_null partialParse : parseStreamingJson partialParse (Some (js "null")) = JNull /\ parseStreamingJson partialParse (Some (js "[1]")) = JArr [JNum (js "1")].
Proof. vm_compute. auto. Qed.

(** ** Text that needs no repair *)

(** [p] is left as it is, from one state of the loop to the other, whatever follows. *)
Definition untouched (a b : bool) (p : jsstr) : Prop := forall t, repair a (p ++ t) = p ++ repair b t.
Lemma untouched_nil a : untouched a a [].
Proof. done. Qed.
Lemma untouched_app a b c p p' : untouched a b p -> untouched b c p' -> untouched a c (p ++ p').
Proof. intros H1 H2 t. by rewrite <- !(assoc_L (++)), H1, H2. Qed.
Lemma untouched_plain p : Forall (fun u => u <> 34) p -> untouched false false p.
Proof. intros H t. induction H as [|u p Hu _ IH]; [done|]. cbn [app repair negb]. rewrite (proj2 (N.eqb_neq u 34)) by done. by rewrite IH. Qed.
Lemma untouched_cons u p c : u <> 34 -> untouched false c p -> untouched false c (u :: p).
Proof. intros Hu H. change (u :: p) with ([u] ++ p). apply (untouched_app _ false); [by apply untouched_plain; repeat constructor|done]. Qed.
Lemma untouched_open p c : untouched true c p -> untouched false c (34 :: p).
Proof. intros H t. cbn. by rewrite H. Qed.

Lemma hex_is a v : hex_value a = Some v -> is_hex a = true.
Proof. unfold is_hex. by intros ->. Qed.
Lemma simple_escape_valid e x : simple_escape e = Some x -> e <> 117 /\ valid_escape e = true.
Proof.
  unfold simple_escape. intros H. split; [by intros ->|]. unfold valid_escape. apply bool_decide_eq_true. unfold VALID_JSON_ESCAPES.
  repeat match type of H with (if ?b then _ else _) = _ => let E := fresh in destruct b eqn:E; [repeat (apply orb_true_iff in E as [E|E]); apply N.eqb_eq in E; subst; set_solver|] end. done.
Qed.
Lemma valid_escape_simple e : valid_escape e = true -> e <> 117 -> exists x, simple_escape e = Some x.
Proof. unfold valid_escape. intros H%bool_decide_eq_true Hu. unfold VALID_JSON_ESCAPES in H. repeat (apply elem_of_cons in H as [->|H]; [first [done|eexists; reflexivity]|]). by apply not_elem_of_nil in H. Qed.
Lemma repair_escape e s : e <> 117 -> valid_escape e = true -> repair true (92 :: e :: s) = 92 :: e :: repair true s.
Proof. intros He Hv. cbn [repair negb]. change (92 =? 34) with false. change (92 =? 92) with true. cbv iota. rewrite Hv. by rewrite (proj2 (N.eqb_neq e 117)). Qed.
Lemma repair_unicode a b c d s : is_hex a && is_hex b && is_hex c && is_hex d = true -> repair true (92 :: 117 :: a :: b :: c :: d :: s) = 92 :: 117 :: a :: b :: c :: d :: repair true s.
Proof. intros H. cbn [repair negb]. change (92 =? 34) with false. change (92 =? 92) with true. change (117 =? 117) with true. cbv iota. by rewrite H. Qed.
Lemma parse_chars_untouched s t r : parse_chars s = Some (t, r) -> exists p, s = p ++ r /\ untouched true false p.
Proof.
  revert t r. remember (length s) as n eqn:Hn. revert s Hn. induction n as [n IH] using lt_wf_ind. intros s -> t r. destruct s as [|u s]; [done|]. cbn [parse_chars].
  destruct (u =? 34) eqn:Eq; to_prop; [intros [= <- <-]; subst; exists [34]; split; [done|]; intros t; done|]. destruct (u =? 92) eqn:Eb; to_prop.
  - subst u. destruct s as [|e s]; [done|]. destruct (e =? 117) eqn:Eu; to_prop.
    + subst e. destruct s as [|a [|b [|c [|d s]]]]; try done. destruct (hex_value a) eqn:Ha, (hex_value b) eqn:Hb, (hex_value c) eqn:Hc, (hex_value d) eqn:Hd; try done.
      destruct (parse_chars s) as [[t' r']|] eqn:E; [|done]. intros [= <- <-]. destruct (IH (length s) ltac:(cbn; lia) s eq_refl t' r' E) as (p & -> & Hp).
      exists (92 :: 117 :: a :: b :: c :: d :: p). split; [done|]. intros x. cbn [app]. rewrite repair_unicode by (by rewrite (hex_is _ _ Ha), (hex_is _ _ Hb), (hex_is _ _ Hc), (hex_is _ _ Hd)).
      by rewrite Hp.
    + destruct (simple_escape e) as [x|] eqn:Ex; [|done]. destruct (parse_chars s) as [[t' r']|] eqn:E; [|done]. intros [= <- <-].
      destruct (IH (length s) ltac:(cbn; lia) s eq_refl t' r' E) as (p & -> & Hp). exists (92 :: e :: p). split; [done|]. intros y. cbn [app].
      rewrite repair_escape by (by apply simple_escape_valid in Ex as []). by rewrite Hp.
  - destruct (u <? 32) eqn:Ec; [done|]. destruct (parse_chars s) as [[t' r']|] eqn:E; [|done]. intros [= <- <-]. destruct (IH (length s) ltac:(cbn; lia) s eq_refl t' r' E) as (p & -> & Hp).
    exists (u :: p). split; [done|]. intros x. cbn [app repair negb]. to_prop. rewrite (proj2 (N.eqb_neq u 34)), (proj2 (N.eqb_neq u 92)) by done. unfold isControlCharacter.
    rewrite (proj2 (N.leb_gt u 31)) by lia. cbn [app]. by rewrite Hp.
Qed.
Lemma skip_ws_split s : exists p, s = p ++ skip_ws s /\ untouched false false p.
Proof.
  induction s as [|u s IH]; [by exists []|]. cbn. destruct (is_ws u) eqn:E; [|by exists []]. destruct IH as (p & Hs & Hp). exists (u :: p). split; [cbn; by f_equal|].
  apply untouched_cons; [|done]. intros ->. done.
Qed.

(** What a reader takes from the text holds no quote. *)
Definition takes_plain (f : jsstr -> option (jsstr * jsstr)) : Prop := forall s a r, f s = Some (a, r) -> s = a ++ r /\ Forall (fun u => u <> 34) a.
Lemma span_digits s : s = (span is_digit s).1 ++ (span is_digit s).2 /\ Forall (fun u => u <> 34) (span is_digit s).1.
Proof.
  induction s as [|u s [IH1 IH2]]; [done|]. cbn. destruct (is_digit u) eqn:E; [|done]. destruct (span is_digit s) as [a b]. cbn in *. split; [by f_equal|]. constructor; [|done]. by intros ->.
Qed.
Lemma digits_plain : takes_plain digits.
Proof. intros s a r. unfold digits. destruct (span_digits s) as [H1 H2]. destruct (span is_digit s) as [[|d ds] b]; [done|]. intros [= <- <-]. done. Qed.
Lemma fraction_plain : takes_plain fraction.
Proof.
  intros s a r. destruct s as [|u s]; cbn; [by intros [= <- <-]|]. destruct (u =? 46) eqn:E; [|by intros [= <- <-]]. destruct (digits s) as [[d r']|] eqn:Ed; [|done]. intros [= <- <-].
  apply digits_plain in Ed as [-> Hd]. split; [done|]. constructor; [by intros ->|done].
Qed.
Lemma exponent_plain : takes_plain exponent.
Proof.
  intros s a r. destruct s as [|u s]; cbn; [by intros [= <- <-]|]. destruct (_ || _) eqn:E; [|by intros [= <- <-]]. assert (Hu : u <> 34) by (by intros ->). destruct s as [|v s]; [done|].
  destruct ((v =? 43) || _) eqn:Ev; [assert (Hv : v <> 34) by (by intros ->)|]; (destruct (digits _) as [[d r']|] eqn:Ed; [|done]); intros [= <- <-]; apply digits_plain in Ed as [Hs Hd].
  - rewrite Hs. split; [done|]. by repeat constructor.
  - rewrite Hs. split; [done|]. by constructor.
Qed.
Lemma integer_plain : takes_plain integer.
Proof. intros s a r. destruct s as [|u s]; [done|]. unfold integer. destruct (u =? 48) eqn:E; [|by apply digits_plain]. intros [= <- <-]. split; [done|]. constructor; [by intros ->|done]. Qed.
Lemma unsigned_plain : takes_plain unsigned.
Proof.
  intros s a r. unfold unsigned. destruct (integer s) as [[i r1]|] eqn:E1; [|done]. destruct (fraction r1) as [[f r2]|] eqn:E2; [|done]. destruct (exponent r2) as [[e r3]|] eqn:E3; [|done]. intros [= <- <-].
  apply integer_plain in E1 as [-> H1]. apply fraction_plain in E2 as [-> H2]. apply exponent_plain in E3 as [-> H3]. split; [by rewrite <- !(assoc_L (++))|]. by rewrite !Forall_app.
Qed.
Lemma parse_number_plain : takes_plain parse_number.
Proof.
  intros s a r. unfold parse_number. destruct s as [|u s]; [done|]. destruct (u =? 45) eqn:E; [|by apply unsigned_plain]. destruct (unsigned s) as [[t r']|] eqn:Eu; [|done]. intros [= <- <-].
  apply unsigned_plain in Eu as [-> H]. split; [done|]. constructor; [by intros ->|done].
Qed.
Lemma keyword_untouched w v s x r : Forall (fun u => u <> 34) w -> keyword w v s = Some (x, r) -> exists p, s = p ++ r /\ untouched false false p.
Proof.
  unfold keyword, starts_with. intros Hw. case_bool_decide as H; [|done]. intros [= <- <-]. exists w. split; [|by apply untouched_plain]. rewrite H at 1. by rewrite take_drop.
Qed.
Definition text_untouched (s r : jsstr) : Prop := exists p, s = p ++ r /\ untouched false false p.
Lemma text_untouched_trans s s' r : text_untouched s s' -> text_untouched s' r -> text_untouched s r.
Proof. intros (p & -> & Hp) (p' & -> & Hp'). exists (p ++ p'). split; [by rewrite (assoc_L (++))|by eapply untouched_app]. Qed.
Lemma text_untouched_ws s r : text_untouched (skip_ws s) r -> text_untouched s r.
Proof. apply text_untouched_trans. destruct (skip_ws_split s) as (p & H & Hp). by exists p. Qed.
Lemma text_untouched_cons u s r : u <> 34 -> text_untouched s r -> text_untouched (u :: s) r.
Proof. intros Hu. apply text_untouched_trans. exists [u]. split; [done|]. apply untouched_plain. by constructor. Qed.
Lemma text_untouched_refl s : text_untouched s s.
Proof. by exists []. Qed.
Lemma text_untouched_string s t r : parse_chars s = Some (t, r) -> text_untouched (34 :: s) r.
Proof. intros (p & -> & Hp)%parse_chars_untouched. exists (34 :: p). split; [done|by apply untouched_open]. Qed.
Create HintDb untouched discriminated.
#[local] Hint Resolve text_untouched_refl text_untouched_string : untouched.
Lemma parse_untouched n :
  (forall s v r, parse_value n s = Some (v, r) -> text_untouched s r) /\
  (forall s l r, parse_items n s = Some (l, r) -> text_untouched s r) /\
  (forall acc s fs r, parse_fields n acc s = Some (fs, r) -> text_untouched s r).
Proof.
  induction n as [|n (IHv & IHi & IHf)]; [by split_and!|]. split_and!.
  - intros s v r. cbn [parse_value]. intros H. apply text_untouched_ws. destruct (skip_ws s) as [|u s']; [done|]. destruct (u =? 34) eqn:E1; to_prop.
    { subst u. destruct (parse_chars s') as [[t r']|] eqn:E; [|done]. injection H as _ <-. eauto with untouched. }
    destruct (u =? 91) eqn:E2; to_prop; [|destruct (u =? 123) eqn:E3; to_prop].
    + apply text_untouched_cons, text_untouched_ws; [done|]. destruct (skip_ws s') as [|w s2]; [done|]. destruct (w =? 93) eqn:E; to_prop.
      * injection H as _ <-. subst w. apply text_untouched_cons; [done|]. apply text_untouched_refl.
      * destruct (parse_items n (w :: s2)) as [[l r']|] eqn:Ei; [|done]. injection H as _ <-. by eapply IHi.
    + apply text_untouched_cons, text_untouched_ws; [done|]. destruct (skip_ws s') as [|w s2]; [done|]. destruct (w =? 125) eqn:E; to_prop.
      * injection H as _ <-. subst w. apply text_untouched_cons; [done|]. apply text_untouched_refl.
      * destruct (parse_fields n [] (w :: s2)) as [[l r']|] eqn:Ei; [|done]. injection H as _ <-. by eapply IHf.
    + destruct (u =? 110); [eapply keyword_untouched; [|exact H]; by repeat constructor|]. destruct (u =? 116); [eapply keyword_untouched; [|exact H]; by repeat constructor|].
      destruct (u =? 102); [eapply keyword_untouched; [|exact H]; by repeat constructor|]. destruct (parse_number (u :: s')) as [[t r']|] eqn:E; [|done]. injection H as _ <-.
      apply parse_number_plain in E as [Hs Hp]. exists t. split; [done|by apply untouched_plain].
  - intros s l r. cbn [parse_items]. destruct (parse_value n s) as [[v r1]|] eqn:E; [|done]. intros H. apply (text_untouched_trans _ r1); [by eapply IHv|]. apply text_untouched_ws.
    destruct (skip_ws r1) as [|u r2]; [done|]. destruct (u =? 93) eqn:E1; to_prop; [injection H as _ <-; apply text_untouched_cons; [by subst|apply text_untouched_refl]|].
    destruct (u =? 44) eqn:E2; to_prop; [|done]. destruct (parse_items n r2) as [[l' r3]|] eqn:Ei; [|done]. injection H as _ <-. apply text_untouched_cons; [by subst|by eapply IHi].
  - intros acc s fs r. cbn [parse_fields]. intros H. apply text_untouched_ws. destruct (skip_ws s) as [|u s']; [done|]. destruct (u =? 34) eqn:E1; to_prop; [subst u|done].
    destruct (parse_chars s') as [[k r1]|] eqn:E; [|done]. apply (text_untouched_trans _ r1); [by eapply text_untouched_string|]. apply text_untouched_ws. destruct (skip_ws r1) as [|c r2]; [done|].
    destruct (c =? 58) eqn:E2; to_prop; [|done]. apply text_untouched_cons; [by subst|]. destruct (parse_value n r2) as [[v r3]|] eqn:Ev; [|done]. apply (text_untouched_trans _ r3); [by eapply IHv|].
    apply text_untouched_ws. destruct (skip_ws r3) as [|w r4]; [done|]. destruct (w =? 125) eqn:E3; to_prop; [injection H as _ <-; apply text_untouched_cons; [by subst|apply text_untouched_refl]|].
    destruct (w =? 44) eqn:E4; to_prop; [|done]. apply text_untouched_cons; [by subst|]. by eapply IHf.
Qed.
(** Text that is JSON is left as it is. *)
Theorem repair_valid (text : jsstr) (v : json) (Hv : JSON_parse text = Some v) : repairJson text = text.
Proof.
  unfold JSON_parse in Hv. destruct (parse_value _ text) as [[w r]|] eqn:E; [|done]. apply (proj1 (parse_untouched _)) in E. destruct (skip_ws r) as [|] eqn:Er; [|done].
  assert (H : text_untouched text []); [|destruct H as (p & -> & Hp); unfold repairJson; by rewrite Hp].
  apply (text_untouched_trans _ r); [done|]. apply text_untouched_ws. rewrite Er. apply text_untouched_refl.
Qed.

(** ** Text that is mended *)

Lemma is_hex_digit u : is_hex (hex_digit (u mod 16)) = true.
Proof. unfold is_hex. rewrite hex_value_digit; [done|]. apply N.mod_lt. lia. Qed.
Lemma repair_hex4 u s : repair true (js "\u" ++ hex4 u ++ s) = js "\u" ++ hex4 u ++ repair true s.
Proof. change (js "\u") with [92; 117]. unfold hex4. cbn [app]. apply repair_unicode. by rewrite !is_hex_digit. Qed.
Lemma repair_ordinary u s : u <> 34 -> u <> 92 -> isControlCharacter u = false -> repair true (u :: s) = u :: repair true s.
Proof. intros H1 H2 H3. cbn [repair negb]. rewrite (proj2 (N.eqb_neq u 34)), (proj2 (N.eqb_neq u 92)), H3 by done. done. Qed.
Lemma repair_control u s : isControlCharacter u = true -> repair true (u :: s) = escapeControlCharacter u ++ repair true s.
Proof. intros H. cbn [repair negb]. rewrite H. unfold isControlCharacter in H. to_prop. by rewrite (proj2 (N.eqb_neq u 34)), (proj2 (N.eqb_neq u 92)) by lia. Qed.
(** The escapes of [JSON.stringify] are those of the repair, and stay. *)
Lemma escape1_control u : isControlCharacter u = true -> escape1 u = escapeControlCharacter u.
Proof.
  unfold isControlCharacter, escape1, escapeControlCharacter. intros H. to_prop. rewrite (proj2 (N.eqb_neq u 34)), (proj2 (N.eqb_neq u 92)) by lia.
  destruct (u =? 8) eqn:E1; [done|]. destruct (u =? 9) eqn:E2; to_prop; [by subst|]. destruct (u =? 10) eqn:E3; to_prop; [by subst|]. destruct (u =? 12) eqn:E4; [done|].
  destruct (u =? 13); [done|]. by rewrite (proj2 (N.ltb_lt u 32)) by lia.
Qed.
Lemma repair_escape1 u s : repair true (escape1 u ++ s) = escape1 u ++ repair true s.
Proof.
  destruct (u =? 34) eqn:E1; [apply N.eqb_eq in E1 as ->; by apply repair_escape|]. destruct (u =? 92) eqn:E2; [apply N.eqb_eq in E2 as ->; by apply repair_escape|].
  unfold escape1. rewrite E1, E2. to_prop.
  repeat match goal with |- context [if ?b then _ else _] => destruct b eqn:?; [first [by apply repair_escape|rewrite <- !(assoc_L (++)); apply repair_hex4]|] end.
  to_prop. cbn [app]. apply repair_ordinary; [done|done|]. apply N.leb_gt. lia.
Qed.
Lemma repair_escaped_control u s : isControlCharacter u = true -> repair true (escapeControlCharacter u ++ s) = escapeControlCharacter u ++ repair true s.
Proof. intros H. rewrite <- escape1_control by done. apply repair_escape1. Qed.
Lemma repair_bad_escape c s : valid_escape c = false -> repair true (92 :: c :: s) = 92 :: 92 :: repair true (c :: s).
Proof.
  intros Hc. cbn [repair negb]. change (92 =? 34) with false. change (92 =? 92) with true. cbv iota. rewrite Hc. destruct (c =? 117) eqn:E; [|done]. to_prop. subst c. done.
Qed.

(** ** The texts of a value

    JSON with white space between the tokens, any escapes and repeated keys, over the texts [chars] that the characters of a string may have. *)

Definition spaces (w : jsstr) : Prop := Forall (fun u => is_ws u = true) w.
Section grammar.
Variable chars : jsstr -> jsstr -> Prop.
Inductive json_core : json -> jsstr -> Prop :=
| jc_null : json_core JNull (js "null")
| jc_bool (b : bool) : json_core (JBool b) (if b then js "true" else js "false")
| jc_num t : parse_number t = Some (t, []) -> json_core (JNum t) t
| jc_str s t : chars s t -> json_core (JStr s) (34 :: t ++ [34])
| jc_empty_arr w : spaces w -> json_core (JArr []) (91 :: w ++ [93])
| jc_arr l ts : l <> [] -> Forall2 (fun v t => exists w1 c w2, t = w1 ++ c ++ w2 /\ spaces w1 /\ spaces w2 /\ json_core v c) l ts ->
    json_core (JArr l) (91 :: join [44] ts ++ [93])
| jc_empty_obj w : spaces w -> json_core (JObj []) (123 :: w ++ [125])
| jc_obj fs ts : fs <> [] -> Forall2 (fun f t => exists w1 k w2 w3 c w4, t = w1 ++ 34 :: k ++ 34 :: w2 ++ 58 :: w3 ++ c ++ w4 /\
      spaces w1 /\ spaces w2 /\ spaces w3 /\ spaces w4 /\ chars f.1 k /\ json_core f.2 c) fs ts ->
    json_core (JObj (foldl (fun acc f => set acc f.1 f.2) [] fs)) (123 :: join [44] ts ++ [125]).
Definition json_item (v : json) (t : jsstr) : Prop := exists w1 c w2, t = w1 ++ c ++ w2 /\ spaces w1 /\ spaces w2 /\ json_core v c.
Definition json_field (f : jsstr * json) (t : jsstr) : Prop := exists w1 k w2 w3 c w4, t = w1 ++ 34 :: k ++ 34 :: w2 ++ 58 :: w3 ++ c ++ w4 /\
  spaces w1 /\ spaces w2 /\ spaces w3 /\ spaces w4 /\ chars f.1 k /\ json_core f.2 c.
End grammar.

(** The texts JSON gives the characters of a string: themselves, the short escapes, and escapes of any code unit. *)
Inductive proper : jsstr -> jsstr -> Prop :=
| proper_nil : proper [] []
| proper_raw u s t : u <> 34 -> u <> 92 -> isControlCharacter u = false -> proper s t -> proper (u :: s) (u :: t)
| proper_escape e x s t : simple_escape e = Some x -> proper s t -> proper (x :: s) (92 :: e :: t)
| proper_unicode a b c d va vb vc vd s t : hex_value a = Some va -> hex_value b = Some vb -> hex_value c = Some vc -> hex_value d = Some vd ->
    proper s t -> proper ((va * 0x1000 + vb * 0x100 + vc * 0x10 + vd) :: s) (92 :: 117 :: a :: b :: c :: d :: t).
(** Careless texts: beside these, a control character stands for itself, and so does a backslash that what follows it does not make an escape. *)
Inductive careless : jsstr -> jsstr -> Prop :=
| careless_nil : careless [] []
| careless_raw u s t : u <> 34 -> u <> 92 -> careless s t -> careless (u :: s) (u :: t)
| careless_escape e x s t : simple_escape e = Some x -> careless s t -> careless (x :: s) (92 :: e :: t)
| careless_unicode a b c d va vb vc vd s t : hex_value a = Some va -> hex_value b = Some vb -> hex_value c = Some vc -> hex_value d = Some vd ->
    careless s t -> careless ((va * 0x1000 + vb * 0x100 + vc * 0x10 + vd) :: s) (92 :: 117 :: a :: b :: c :: d :: t)
| careless_backslash c s t : valid_escape c = false -> careless s (c :: t) -> careless (92 :: s) (92 :: c :: t).
(** A careless text of a value, with white space around it. *)
Definition careless_json : json -> jsstr -> Prop := json_item careless.

(** ** Reading a proper text *)

Lemma spaces_skip w s : spaces w -> skip_ws (w ++ s) = skip_ws s.
Proof. induction 1 as [|u w Hu _ IH]; [done|]. cbn. by rewrite Hu. Qed.
Lemma skip_ws_twice s : skip_ws (skip_ws s) = skip_ws s.
Proof. induction s as [|u s IH]; [done|]. cbn. destruct (is_ws u) eqn:E; [done|]. cbn. by rewrite E. Qed.
Lemma parse_value_skip n s : parse_value n (skip_ws s) = parse_value n s.
Proof. destruct n as [|n]; [done|]. cbn [parse_value]. by rewrite skip_ws_twice. Qed.
Lemma parse_items_skip n s : parse_items n (skip_ws s) = parse_items n s.
Proof. destruct n as [|n]; [done|]. cbn [parse_items]. by rewrite parse_value_skip. Qed.
Lemma parse_fields_skip n acc s : parse_fields n acc (skip_ws s) = parse_fields n acc s.
Proof. destruct n as [|n]; [done|]. cbn [parse_fields]. by rewrite skip_ws_twice. Qed.
Lemma parse_value_spaces n w s : spaces w -> parse_value n (w ++ s) = parse_value n s.
Proof. intros Hw. by rewrite <- parse_value_skip, spaces_skip, parse_value_skip. Qed.
Lemma spaces_delim w r : spaces w -> delim r -> delim (w ++ r).
Proof. intros Hw Hr. destruct Hw as [|u w Hu _]; [done|]. cbn. unfold is_ws, is_digit in *. lia. Qed.

Lemma proper_read s t r : proper s t -> parse_chars (t ++ 34 :: r) = Some (s, r).
Proof.
  induction 1 as [|u s t H1 H2 H3 _ IH|e x s t He _ IH|a b c d va vb vc vd s t Ha Hb Hc Hd _ IH]; cbn [app parse_chars].
  - done.
  - unfold isControlCharacter in H3. to_prop. rewrite (proj2 (N.eqb_neq u 34)), (proj2 (N.eqb_neq u 92)), (proj2 (N.ltb_ge u 32)) by lia. by rewrite IH.
  - change (92 =? 34) with false. change (92 =? 92) with true. cbv iota. rewrite (proj2 (N.eqb_neq e 117)) by (by apply simple_escape_valid in He as []). by rewrite He, IH.
  - change (92 =? 34) with false. change (92 =? 92) with true. change (117 =? 117) with true. cbv iota. by rewrite Ha, Hb, Hc, Hd, IH.
Qed.

Lemma core_head chars v c : json_core chars v c -> exists u t, c = u :: t /\ is_ws u = false /\ u <> 93.
Proof.
  destruct 1 as [|[]|t Ht| | | | |]; try (by eexists _, _); try (by eexists (js "null"), _).
  destruct t as [|u t]; [done|]. exists u, t. apply parse_number_start in Ht. unfold is_num_start, is_digit, is_ws in *. split; [done|]. lia.
Qed.

(** What is read of a text, with the fuel its length gives. *)
Definition reads (v : json) (t : jsstr) : Prop := forall n r, (2 * length t <= n)%nat -> (is_number v = true -> delim r) ->
  parse_value n (t ++ r) = Some (v, r).
Definition item_reads (v : json) (t : jsstr) : Prop := exists w1 c w2, t = w1 ++ c ++ w2 /\ spaces w1 /\ spaces w2 /\ reads v c.
Definition field_reads (f : jsstr * json) (t : jsstr) : Prop := exists w1 k w2 w3 c w4, t = w1 ++ 34 :: k ++ 34 :: w2 ++ 58 :: w3 ++ c ++ w4 /\
  spaces w1 /\ spaces w2 /\ spaces w3 /\ spaces w4 /\ proper f.1 k /\ reads f.2 c.

Lemma items_read l ts r n : l <> [] -> Forall2 item_reads l ts -> (2 * length (join COMMA ts) + 1 <= n)%nat ->
  parse_items n (join COMMA ts ++ 93 :: r) = Some (l, r).
Proof.
  intros Hl H. revert n Hl. induction H as [|v t l ts Hv Hts IH]; intros n Hl Hn; [done|]. destruct n as [|n]; [lia|].
  unfold COMMA in *. rewrite join_length_cons in Hn. destruct Hv as (w1 & c & w2 & -> & Hw1 & Hw2 & Hc). rewrite !length_app in Hn. cbn [parse_items].
  destruct Hts as [|v' t' l ts Hv' Hts].
  - cbn [join]. rewrite <- !(assoc_L (++)), parse_value_spaces, Hc by (done || lia || (intros _; by apply spaces_delim)).
    rewrite spaces_skip by done. done.
  - rewrite join_cons by done. rewrite <- !(assoc_L (++)), parse_value_spaces, Hc by (done || lia || (intros _; by apply spaces_delim)).
    rewrite spaces_skip by done. cbn [app skip_ws]. change (is_ws 44) with false. change (44 =? 93) with false. change (44 =? 44) with true. cbv iota.
    rewrite IH by (done || lia). done.
Qed.

Lemma field_text_app w1 kt w2 w3 c w4 (X : jsstr) : (w1 ++ 34 :: kt ++ 34 :: w2 ++ 58 :: w3 ++ c ++ w4) ++ X = w1 ++ 34 :: kt ++ 34 :: w2 ++ 58 :: w3 ++ c ++ w4 ++ X.
Proof. repeat (rewrite <- (assoc_L (++)) || cbn [app]). done. Qed.
Lemma fields_read fs ts acc r n : fs <> [] -> Forall2 field_reads fs ts -> (2 * length (join COMMA ts) + 1 <= n)%nat ->
  parse_fields n acc (join COMMA ts ++ 125 :: r) = Some (foldl (fun acc f => set acc f.1 f.2) acc fs, r).
Proof.
  intros Hl H. revert n acc Hl. induction H as [|[k v] t fs ts Hv Hts IH]; intros n acc Hl Hn; [done|]. destruct n as [|n]; [lia|].
  unfold COMMA in *. rewrite join_length_cons in Hn. destruct Hv as (w1 & kt & w2 & w3 & c & w4 & -> & Hw1 & Hw2 & Hw3 & Hw4 & Hk & Hc). cbn [fst snd] in *.
  repeat (rewrite length_app in Hn || cbn [length] in Hn). cbn [parse_fields foldl fst snd].
  assert (Hone : forall X, delim X -> match skip_ws ((w1 ++ 34 :: kt ++ 34 :: w2 ++ 58 :: w3 ++ c ++ w4) ++ X) with
    | q :: s' => q = 34 /\ exists r, parse_chars s' = Some (k, r) /\ exists r1, skip_ws r = 58 :: r1 /\ exists r2, parse_value n r1 = Some (v, r2) /\ skip_ws r2 = skip_ws X
    | [] => False end).
  { intros X HX. rewrite field_text_app, spaces_skip by done. cbn [skip_ws]. change (is_ws 34) with false. cbv iota. split; [done|]. eexists. split; [by apply proper_read|].
    eexists. split; [rewrite spaces_skip by done; done|]. eexists. split; [rewrite parse_value_spaces by done; apply Hc; [lia|intros _; by apply spaces_delim]|].
    by rewrite spaces_skip. }
  destruct Hts as [|f' t' fs ts Hf' Hts].
  - cbn [join] in *. specialize (Hone (125 :: r) ltac:(done)). revert Hone. destruct (skip_ws _) as [|q' s']; [done|]. intros (-> & r0 & -> & r1 & -> & r2 & -> & Hr2).
    change (34 =? 34) with true. change (58 =? 58) with true. cbv iota. rewrite Hr2. done.
  - rewrite join_cons by done. specialize (Hone ([44] ++ join [44] (t' :: ts) ++ 125 :: r) ltac:(done)). rewrite <- (assoc_L (++) (w1 ++ _)), <- (assoc_L (++) [44]). revert Hone. destruct (skip_ws _) as [|q' s']; [done|]. intros (-> & r0 & -> & r1 & -> & r2 & -> & Hr2).
    change (34 =? 34) with true. change (58 =? 58) with true. cbv iota. rewrite Hr2. cbn [app skip_ws]. change (is_ws 44) with false. change (44 =? 125) with false. change (44 =? 44) with true. cbv iota.
    apply IH; [done|lia].
Qed.

Lemma core_nonempty chars v c : json_core chars v c -> (0 < length c)%nat.
Proof. intros (u & t & -> & _)%core_head. cbn. lia. Qed.
Lemma join_part (t : jsstr) ts : t ∈ ts -> (length t <= length (join COMMA ts))%nat.
Proof.
  induction ts as [|t' ts IH]; [by intros ?%elem_of_nil|]. unfold COMMA in *. rewrite join_length_cons. intros [->|H]%elem_of_cons; [lia|].
  destruct ts; [by apply elem_of_nil in H|]. specialize (IH H). lia.
Qed.
Lemma Forall2_parts {A} (P Q : A -> jsstr -> Prop) l ts : (forall v t, t ∈ ts -> P v t -> Q v t) -> Forall2 P l ts -> Forall2 Q l ts.
Proof.
  intros H HP. induction HP as [|v t l ts Hv _ IH]; [constructor|]. constructor; [apply H; [by left|done]|]. apply IH. intros v' t' Ht. apply H. by right.
Qed.

(** A proper text is read as its value. *)
Lemma core_reads v t : json_core proper v t -> reads v t.
Proof.
  remember (length t) as len eqn:Hlen. revert v t Hlen. induction len as [len IH] using lt_wf_ind. intros v t -> H n r Hn Hd.
  destruct n as [|n]; [apply core_nonempty in H; lia|].
  destruct H as [|[]|t Ht|s t Ht|w Hw|l ts Hl Hts|w Hw|fs ts Hfs Hts].
  - done.
  - done.
  - done.
  - pose proof (parse_number_extends _ r _ _ Ht (or_intror (Hd eq_refl))) as Hp.
    destruct t as [|u t]; [done|]. pose proof (parse_number_start _ _ _ _ Ht) as Hu. cbn [parse_value app skip_ws] in *.
    unfold is_num_start, is_digit in Hu. assert (Hw : is_ws u = false) by (unfold is_ws; lia). rewrite Hw.
    rewrite !(proj2 (N.eqb_neq u _)) by lia. by rewrite Hp.
  - cbn [app parse_value skip_ws]. change (is_ws 34) with false. change (34 =? 34) with true. cbv iota. rewrite <- (assoc_L (++)). cbn [app]. by rewrite (proper_read s).
  - cbn [app parse_value skip_ws]. change (is_ws 91) with false. change (91 =? 34) with false. change (91 =? 91) with true. cbv iota.
    rewrite <- (assoc_L (++)), spaces_skip by done. done.
  - assert (Hi : parse_items n (join COMMA ts ++ 93 :: r) = Some (l, r)).
    { cbn [length] in Hn. rewrite length_app in Hn. cbn [length] in Hn. unfold COMMA. apply items_read; [done| |unfold COMMA; lia]. eapply Forall2_parts; [|exact Hts].
      intros v t Ht (w1 & c & w2 & -> & H1 & H2 & Hc). exists w1, c, w2. split_and!; try done. apply (IH (length c)); [|done|done].
      apply join_part in Ht. unfold COMMA in Ht. rewrite !length_app in Ht. cbn [length]. rewrite length_app. lia. }
    cbn [app parse_value skip_ws]. change (is_ws 91) with false. change (91 =? 34) with false. change (91 =? 91) with true. cbv iota.
    rewrite <- (assoc_L (++)). rewrite <- parse_items_skip in Hi. unfold COMMA in Hi. cbn [app] in Hi |- *.
    destruct Hts as [|v t l ts Hv Hts]; [done|]. destruct Hv as (w1 & c & w2 & -> & H1 & _ & (u & c' & -> & Hw & Hu)%core_head).
    assert (Hhead : exists X, skip_ws (join [44] ((w1 ++ (u :: c') ++ w2) :: ts) ++ 93 :: r) = u :: X).
    { destruct ts as [|t' ts]; [cbn [join]|rewrite join_cons by done]; rewrite <- !(assoc_L (++)), spaces_skip by done; cbn [app skip_ws]; rewrite Hw; by eexists. }
    destruct Hhead as [X HX]. rewrite HX in Hi |- *. rewrite (proj2 (N.eqb_neq u 93)) by done. by rewrite Hi.
  - cbn [app parse_value skip_ws]. change (is_ws 123) with false. change (123 =? 34) with false. change (123 =? 91) with false. change (123 =? 123) with true. cbv iota.
    rewrite <- (assoc_L (++)), spaces_skip by done. done.
  - assert (Hi : parse_fields n [] (join COMMA ts ++ 125 :: r) = Some (foldl (fun acc f => set acc f.1 f.2) [] fs, r)).
    { cbn [length] in Hn. rewrite length_app in Hn. cbn [length] in Hn. apply fields_read; [done| |unfold COMMA; lia]. eapply Forall2_parts; [|exact Hts].
      intros f t Ht (w1 & k & w2 & w3 & c & w4 & -> & H1 & H2 & H3 & H4 & Hk & Hc). exists w1, k, w2, w3, c, w4. split_and!; try done. apply (IH (length c)); [|done|done].
      apply join_part in Ht. unfold COMMA in Ht. repeat (rewrite length_app in Ht || cbn [length] in Ht). cbn [length]. rewrite length_app. lia. }
    cbn [app parse_value skip_ws]. change (is_ws 123) with false. change (123 =? 34) with false. change (123 =? 91) with false. change (123 =? 123) with true. cbv iota.
    rewrite <- (assoc_L (++)). rewrite <- parse_fields_skip in Hi. unfold COMMA in Hi. cbn [app] in Hi |- *.
    destruct Hts as [|f t fs ts Hv Hts]; [done|]. destruct Hv as (w1 & k & w2 & w3 & c & w4 & -> & H1 & _).
    assert (Hhead : exists X, skip_ws (join [44] ((w1 ++ 34 :: k ++ 34 :: w2 ++ 58 :: w3 ++ c ++ w4) :: ts) ++ 125 :: r) = 34 :: X).
    { destruct ts as [|t' ts]; [cbn [join]|rewrite join_cons by done; rewrite <- (assoc_L (++) (w1 ++ _))]; rewrite field_text_app, spaces_skip by done; by eexists. }
    destruct Hhead as [X HX]. rewrite HX in Hi |- *. change (34 =? 125) with false. cbv iota. by rewrite Hi.
Qed.
Lemma item_read v t : json_item proper v t -> JSON_parse t = Some v.
Proof.
  intros (w1 & c & w2 & -> & H1 & H2 & Hc). unfold JSON_parse. rewrite parse_value_spaces by done.
  rewrite (core_reads v c Hc) by (rewrite ?length_app; lia || (intros _; rewrite <- (app_nil_r w2); by apply spaces_delim)).
  rewrite <- (app_nil_r w2), spaces_skip by done. done.
Qed.

(** ** Mending a careless text *)

(** Outside of strings, [t] is mended to [u], whatever follows. *)
Definition mends (t u : jsstr) : Prop := forall x, repair false (t ++ x) = u ++ repair false x.
Lemma mends_app t u t' u' : mends t u -> mends t' u' -> mends (t ++ t') (u ++ u').
Proof. intros H1 H2 x. by rewrite <- !(assoc_L (++)), H1, H2. Qed.
Lemma mends_plain t : Forall (fun u => u <> 34) t -> mends t t.
Proof. intros H x. by apply untouched_plain. Qed.
Lemma mends_spaces w : spaces w -> mends w w.
Proof. intros H. apply mends_plain. eapply Forall_impl; [exact H|]. intros u Hu ->. done. Qed.
Lemma mends_cons c t u : c <> 34 -> mends t u -> mends (c :: t) (c :: u).
Proof. intros Hc. apply (mends_app [c] [c]), mends_plain. by constructor. Qed.
Lemma mends_join ts us : Forall2 mends ts us -> mends (join [44] ts) (join [44] us).
Proof.
  induction 1 as [|t u ts us Ht Hts IH]; [done|]. destruct Hts as [|t' u' ts us Ht' Hts]; [done|]. rewrite (join_cons _ t), (join_cons _ u) by done.
  apply mends_app; [done|]. by apply (mends_cons 44).
Qed.

Lemma proper_control u s t : isControlCharacter u = true -> proper s t -> proper (u :: s) (escapeControlCharacter u ++ t).
Proof.
  intros Hc H. unfold escapeControlCharacter.
  repeat match goal with |- context [if u =? ?k then _ else _] => destruct (N.eqb_spec u k) as [->|?]; [by apply proper_escape|] end.
  unfold isControlCharacter in Hc. to_prop. rewrite <- (assoc_L (++)). change (js "\u") with [92; 117]. unfold hex4. cbn [app].
  replace u with (u / 0x1000 mod 16 * 0x1000 + u / 0x100 mod 16 * 0x100 + u / 0x10 mod 16 * 0x10 + u mod 16) at 1.
  - apply proper_unicode; [apply hex_value_digit, N.mod_lt; lia..|done].
  - rewrite (N.div_small u 0x1000), (N.div_small u 0x100) by lia. rewrite !N.mod_0_l by lia. rewrite (N.mod_small (u / 16)) by (apply N.Div0.div_lt_upper_bound; lia).
    pose proof (N.div_mod u 16 ltac:(lia)). lia.
Qed.
(** The text of a string is mended to a proper one. *)
Lemma careless_mended s t : careless s t -> exists t', proper s t' /\ forall x, repair true (t ++ 34 :: x) = t' ++ 34 :: repair false x.
Proof.
  induction 1 as [|u s t H1 H2 _ (t' & Hp & IH)|e x s t He _ (t' & Hp & IH)|a b c d va vb vc vd s t Ha Hb Hc Hd _ (t' & Hp & IH)|c s t Hc _ (t' & Hp & IH)].
  - exists []. split; [constructor|done].
  - destruct (isControlCharacter u) eqn:E.
    + exists (escapeControlCharacter u ++ t'). split; [by apply proper_control|]. intros x. cbn [app]. by rewrite repair_control, IH, (assoc_L (++)).
    + exists (u :: t'). split; [by apply proper_raw|]. intros x. cbn [app]. by rewrite repair_ordinary, IH.
  - exists (92 :: e :: t'). split; [by apply proper_escape|]. intros y. apply simple_escape_valid in He as [H1 H2]. cbn [app]. by rewrite repair_escape, IH.
  - exists (92 :: 117 :: a :: b :: c :: d :: t'). split; [by apply proper_unicode|]. intros y. cbn [app].
    by rewrite repair_unicode, IH by (by rewrite (hex_is _ _ Ha), (hex_is _ _ Hb), (hex_is _ _ Hc), (hex_is _ _ Hd)).
  - exists (92 :: 92 :: t'). split; [by apply (proper_escape 92 92)|]. intros x. cbn [app]. rewrite repair_bad_escape by done. cbn [app] in IH. by rewrite IH.
Qed.
Lemma mends_string s t : careless s t -> exists t', proper s t' /\ mends (34 :: t ++ [34]) (34 :: t' ++ [34]).
Proof.
  intros (t' & Hp & H)%careless_mended. exists t'. split; [done|]. intros x. cbn [app repair negb]. change (34 =? 34) with true. cbv iota.
  rewrite <- !(assoc_L (++)). cbn [app]. by rewrite H.
Qed.

Lemma Forall2_mended {A} (P Q : A -> jsstr -> Prop) l ts :
  (forall v t, t ∈ ts -> P v t -> exists u, mends t u /\ Q v u) -> Forall2 P l ts -> exists us, Forall2 mends ts us /\ Forall2 Q l us.
Proof.
  intros H HP. induction HP as [|v t l ts Hv _ IH]; [by exists []|]. destruct (H v t ltac:(by left) Hv) as (u & Hu & Hq).
  destruct IH as (us & Hus & Hqs); [intros v' t' Ht; apply H; by right|]. exists (u :: us). split; by constructor.
Qed.

Lemma core_mended v t : json_core careless v t -> exists u, mends t u /\ json_core proper v u.
Proof.
  remember (length t) as len eqn:Hlen. revert v t Hlen. induction len as [len IH] using lt_wf_ind. intros v t -> H.
  destruct H as [|b|t Ht|s t Ht|w Hw|l ts Hl Hts|w Hw|fs ts Hfs Hts].
  - exists (js "null"). split; [by apply mends_plain; repeat constructor|constructor].
  - exists (if b then js "true" else js "false"). split; [destruct b; by apply mends_plain; repeat constructor|constructor].
  - exists t. split; [|by constructor]. apply mends_plain. by apply parse_number_plain in Ht as [_ Ht].
  - apply mends_string in Ht as (t' & Hp & Hm). eexists. split; [exact Hm|by constructor].
  - exists (91 :: w ++ [93]). split; [|by constructor]. apply mends_cons; [done|]. apply mends_app; [by apply mends_spaces|by apply mends_plain; repeat constructor].
  - destruct (Forall2_mended (json_item careless) (json_item proper) l ts) as (us & Hus & Hqs); [|exact Hts|].
    { intros v t Ht (w1 & c & w2 & -> & H1 & H2 & Hc). assert (Hlt : (length c < length (91%N :: join COMMA ts ++ [93%N]))%nat).
      { apply join_part in Ht. unfold COMMA in *. rewrite !length_app in Ht. cbn [length]. rewrite length_app. lia. }
      destruct (IH _ Hlt v c eq_refl Hc) as (u & Hu & Hq).
      exists (w1 ++ u ++ w2). split; [repeat apply mends_app; try done; by apply mends_spaces|by exists w1, u, w2]. }
    eexists. split; [|by apply jc_arr]. apply mends_cons; [done|]. apply mends_app; [by apply mends_join|by apply mends_plain; repeat constructor].
  - exists (123 :: w ++ [125]). split; [|by constructor]. apply mends_cons; [done|]. apply mends_app; [by apply mends_spaces|by apply mends_plain; repeat constructor].
  - destruct (Forall2_mended (json_field careless) (json_field proper) fs ts) as (us & Hus & Hqs); [|exact Hts|].
    { intros f t Ht (w1 & k & w2 & w3 & c & w4 & -> & H1 & H2 & H3 & H4 & Hk & Hc). assert (Hlt : (length c < length (123%N :: join COMMA ts ++ [125%N]))%nat).
      { apply join_part in Ht. unfold COMMA in *. repeat (rewrite length_app in Ht || cbn [length] in Ht). cbn [length]. rewrite length_app. lia. }
      destruct (IH _ Hlt f.2 c eq_refl Hc) as (u & Hu & Hq).
      apply mends_string in Hk as (k' & Hk & Hm). exists (w1 ++ 34 :: k' ++ 34 :: w2 ++ 58 :: w3 ++ u ++ w4). split; [|by exists w1, k', w2, w3, u, w4].
      assert (Hs : forall k w : jsstr, 34 :: k ++ 34 :: w = (34 :: k ++ [34]) ++ w) by (intros; cbn [app]; by rewrite <- (assoc_L (++))).
      rewrite (Hs k), (Hs k'). apply mends_app; [by apply mends_spaces|]. apply mends_app; [done|]. apply mends_app; [by apply mends_spaces|].
      apply mends_cons; [done|]. repeat apply mends_app; try done; by apply mends_spaces. }
    eexists. split; [|by apply jc_obj]. apply mends_cons; [done|]. apply mends_app; [by apply mends_join|by apply mends_plain; repeat constructor].
Qed.


(** A path with raw backslashes and a line break, after an escaped one and among white space. *)
Definition careless_path : jsstr := js " { " ++ q "path" ++ [10] ++ js ": " ++ [34] ++ js "C:\dir" ++ [10] ++ js "\z\/\u0041" ++ [34] ++ js " }".

(** ** Nothing is left to mend *)

Fixpoint hexes (k : nat) (s : jsstr) : bool := match k, s with O, _ => true | S k, u :: s => is_hex u && hexes k s | S _, [] => false end.
Lemma hex_ordinary u : is_hex u = true -> u <> 34 /\ u <> 92 /\ isControlCharacter u = false.
Proof.
  unfold is_hex, hex_value, isControlCharacter. intros H. destruct ((48 <=? u) && (u <=? 57)) eqn:E1; [|destruct ((97 <=? u) && (u <=? 102)) eqn:E2; [|destruct ((65 <=? u) && (u <=? 70)) eqn:E3; [|done]]];
    to_prop; repeat split; try lia; apply N.leb_gt; lia.
Qed.
Lemma repair_head u s : is_hex u = false -> exists w t, repair true (u :: s) = w :: t /\ is_hex w = false.
Proof.
  intros Hu. destruct (u =? 34) eqn:E1; [apply N.eqb_eq in E1 as ->; by eexists 34, _|]. destruct (u =? 92) eqn:E2; [apply N.eqb_eq in E2 as ->|].
  - cbn [repair negb]. change (92 =? 34) with false. change (92 =? 92) with true. cbv iota. destruct s as [|e s]; [by eexists 92, _|].
    assert (Hr : exists t, (if valid_escape e then 92 :: e :: repair true s else js "\\" ++ repair true (e :: s)) = 92 :: t) by (destruct (valid_escape e); by eexists).
    destruct Hr as [t Hr]. cbn zeta. rewrite Hr. destruct (e =? 117); [|by eexists 92, _]. destruct s as [|a [|b [|c [|d s]]]]; try by eexists 92, _. destruct (_ && _); by eexists 92, _.
  - to_prop. destruct (isControlCharacter u) eqn:Ec; [|rewrite repair_ordinary by done; by eexists _, _]. rewrite repair_control by done. unfold escapeControlCharacter.
    repeat match goal with |- context [if ?b then _ else _] => destruct b; [by eexists 92, _|] end. by eexists 92, _.
Qed.
Lemma hexes_repair k s : hexes k (repair true s) = hexes k s.
Proof.
  revert s. induction k as [|k IH]; intros s; [done|]. destruct s as [|u s]; [done|]. destruct (is_hex u) eqn:E.
  - destruct (hex_ordinary u E) as (H1 & H2 & H3). rewrite repair_ordinary by done. cbn [hexes]. by rewrite IH.
  - destruct (repair_head u s E) as (w & t & -> & Hw). cbn [hexes]. by rewrite E, Hw.
Qed.
Lemma repair_bare_u s : hexes 4 s = false -> repair true (92 :: 117 :: s) = 92 :: 117 :: repair true s.
Proof.
  intros H. cbn [repair negb]. change (92 =? 34) with false. change (92 =? 92) with true. change (117 =? 117) with true. cbv iota. change (valid_escape 117) with true. cbv iota.
  destruct s as [|a [|b [|c [|d s]]]]; try done. cbn [hexes] in H. rewrite andb_true_r in H. by rewrite <- !andb_assoc, H.
Qed.
Theorem repair_idempotent (text : jsstr) : repairJson (repairJson text) = repairJson text.
Proof.
  unfold repairJson. generalize false. remember (length text) as n eqn:Hn. revert text Hn. induction n as [n IH] using lt_wf_ind. intros s -> b. destruct s as [|u s]; [done|].
  assert (IHs : forall c, repair c (repair c s) = repair c s) by (intros c; apply (IH (length s)); cbn; [lia|done]).
  destruct b; [|cbn [repair negb]; by rewrite IHs]. destruct (u =? 34) eqn:E1; [apply N.eqb_eq in E1 as ->; cbn; by rewrite IHs|]. destruct (u =? 92) eqn:E2; to_prop.
  - subst u. destruct s as [|e s]; [done|]. destruct (valid_escape e) eqn:Ev; [|rewrite repair_bad_escape, repair_escape, IHs by done; done].
    assert (IHe : forall c, repair c (repair c s) = repair c s) by (intros c; apply (IH (length s)); cbn; [lia|done]).
    destruct (decide (e = 117)) as [->|He]; [|rewrite !repair_escape, IHe by done; done]. destruct (hexes 4 s) eqn:Eh.
    + destruct s as [|a [|b [|c [|d s]]]]; try (cbn in Eh; rewrite ?andb_false_r in Eh; discriminate).
      assert (Hh : is_hex a && is_hex b && is_hex c && is_hex d = true) by (cbn [hexes] in Eh; rewrite andb_true_r in Eh; by rewrite <- !andb_assoc). rewrite !repair_unicode by done.
      rewrite (IH (length s)); [done|cbn; lia|done].
    + rewrite !repair_bare_u by (by rewrite ?hexes_repair). by rewrite IHe.
  - destruct (isControlCharacter u) eqn:Ec; [rewrite repair_control, repair_escaped_control, IHs by done; done|]. rewrite !repair_ordinary by done. by rewrite IHs.
Qed.
