(* ===== verification/StreamFailure.v ===== *)
(** * Failures of a provider's stream (ai/src/utils/stream-failure.ts)

    The kind of a failure by what the provider calls it and by the status, and the message the user sees. The extraction of those two from
    the errors of client libraries is left out. *)

(* Source aliases:
   SF = src/packages/ai/src/utils/stream-failure.ts *)

From S2P Require Import Prelude JsString.
Local Open Scope Z_scope.

(** SF 11-21 StreamFailureKind. *)
Inductive StreamFailureKind := Refusal | Safety | Overloaded | RateLimit | ServerError | Auth | Permission | InvalidRequest | MalformedResponse | Unknown.
#[export] Instance StreamFailureKind_eq_dec : EqDecision StreamFailureKind.
Proof. solve_decision. Defined.
(** SF 23-33 StreamFailureInfo. *)
Record StreamFailureInfo := { kind : StreamFailureKind; providerErrorType : option jsstr; status : option Z; requestId : option jsstr; raw : option jsstr }.
(** SF 45-56 KIND_MESSAGES. *)
Definition KIND_MESSAGES (k : StreamFailureKind) : jsstr :=
  match k with
  | Refusal => js "Model refused to respond"
  | Safety => js "Response blocked by provider safety filters"
  | Overloaded => js "Provider overloaded"
  | RateLimit => js "Provider rate limit exceeded"
  | ServerError => js "Provider server error"
  | Auth => js "Provider authentication failed"
  | Permission => js "Provider denied access to the requested resource"
  | InvalidRequest => js "Provider rejected the request"
  | MalformedResponse => js "Provider returned a malformed response"
  | Unknown => js "Provider stream failed"
  end.
(** A string that is there and not empty. *)
Definition some_text (o : option jsstr) : option jsstr := match o with Some [] | None => None | Some s => Some s end.
(** SF 58-68 streamFailureMessage. *)
Definition streamFailureMessage (info : StreamFailureInfo) (detail : option jsstr) : jsstr :=
  let qualifiers := join (js ", ") (omap some_text [providerErrorType info; show_Z <$> status info]) in
  KIND_MESSAGES (kind info) ++
  (match qualifiers with [] => [] | _ => js " (" ++ qualifiers ++ js ")" end) ++
  (match some_text detail with Some d => js ": " ++ d | None => [] end) ++
  (match some_text (requestId info) with Some r => js " [request_id: " ++ r ++ js "]" | None => [] end).

(** A pattern [a.?b]: [.] is not a line terminator. *)
Definition gap_at (a b s : jsstr) : bool :=
  starts_with a s &&
  (let rest := drop (length a) s in
   starts_with b rest || match rest with u :: rest => negb (bool_decide (u ∈ [10; 13; 0x2028; 0x2029]%N)) && starts_with b rest | [] => false end).
Fixpoint includes_gap (a b s : jsstr) : bool := gap_at a b s || match s with [] => false | _ :: s => includes_gap a b s end.
Definition any_of (needles : list jsstr) (s : jsstr) : bool := existsb (fun n => includes n s) needles.
Definition status_is (status : option Z) (l : list Z) : bool := match status with Some n => bool_decide (n ∈ l) | None => false end.
(** SF 70-97 classifyStreamFailure. *)
Definition classifyStreamFailure (providerErrorType : option jsstr) (status : option Z) : StreamFailureKind :=
  let type := default [] ((fun s : jsstr => lower1 <$> s) <$> providerErrorType) in
  if jseqb type (js "refusal") then Refusal
  else if any_of [js "sensitive"; js "safety"; js "prohibited_content"; js "blocklist"; js "spii"; js "recitation"; js "guardrail"; js "flagged"] type ||
          includes_gap (js "content") (js "filter") type then Safety
  else if includes (js "overloaded") type || status_is status [529] then Overloaded
  else if any_of [js "rate_limit"; js "usage_limit"; js "usage_not_included"; js "throttl"] type || status_is status [429] then RateLimit
  else if any_of [js "authentication"; js "unauthorized"] type || status_is status [401] then Auth
  else if any_of [js "permission"; js "forbidden"] type || includes_gap (js "access") (js "denied") type || status_is status [403] then Permission
  else if any_of [js "invalid_request"; js "not_found_error"] type || status_is status [400; 404] then InvalidRequest
  else if includes (js "malformed") type then MalformedResponse
  else if any_of [js "api_error"; js "server_error"; js "unavailable"] type || match status with Some n => 500 <=? n | None => false end then ServerError
  else Unknown.
(** SF 35-43 StreamFailureError. *)
Record StreamFailureError := { sf_message : jsstr; sf_info : StreamFailureInfo }.
(** SF 104-118 streamFailureFromStopReason. *)
Definition streamFailureFromStopReason (rawStopReason : option jsstr) (requestId : option jsstr) : StreamFailureError :=
  let kind := match some_text rawStopReason with Some r => classifyStreamFailure (Some r) None | None => Unknown end in
  let kind := if bool_decide (kind = Unknown) && includes (js "malformed") (lower1 <$> default [] rawStopReason) then MalformedResponse else kind in
  let info := {| kind := kind; providerErrorType := rawStopReason; status := None; requestId := requestId; raw := None |} in
  {| sf_message := match some_text rawStopReason with
                   | Some _ => streamFailureMessage info None
                   | None => streamFailureMessage info (Some (js "stream ended with an error and no stop reason"))
                   end;
     sf_info := info |}.
(** SF 120-120 MAX_RAW_LENGTH. *)
Definition MAX_RAW_LENGTH : nat := 2000.
(** SF 122-124 truncateRawPayload. *)
Definition truncateRawPayload (raw : jsstr) : jsstr := if (MAX_RAW_LENGTH <? length raw)%nat then take MAX_RAW_LENGTH raw ++ [0x2026%N] else raw.

Example overloaded_message : streamFailureMessage {| kind := classifyStreamFailure (Some (js "overloaded_error")) (Some 529); providerErrorType := Some (js "overloaded_error"); status := Some 529;
  requestId := Some (js "req_abc"); raw := None |} None = js "Provider overloaded (overloaded_error, 529) [request_id: req_abc]".
Proof. vm_compute. reflexivity. Qed.
(** A filter's name decides before the status does. *)
Example filter_before_status : classifyStreamFailure (Some (js "Content_Filter")) (Some 429) = Safety /\ classifyStreamFailure None (Some 503) = ServerError.
Proof. vm_compute. auto. Qed.

(** ** What reaches the user *)

(** What is thrown: a failure of this kind; an error of the language without fields of its own; an error of a client library, given by the message that is made of it. *)
Inductive thrown := StreamFailure (e : StreamFailureError) | PlainError (name message : jsstr) | Foreign (formatted : jsstr).
(** SF 126-185 extractStreamFailureParts. Of an error without fields of its own. *)
Definition plain_info (name message : jsstr) : StreamFailureInfo :=
  let providerErrorType := if jseqb name (js "Error") || jseqb name (js "StreamFailureError") then None else Some name in
  let kind := classifyStreamFailure (Some (default message providerErrorType)) None in
  let kind := if (bool_decide (kind = Auth) || bool_decide (kind = Permission)) && bool_decide (providerErrorType = None) then classifyStreamFailure None None else kind in
  {| kind := kind; providerErrorType := providerErrorType; status := None; requestId := None; raw := None |}.
(** SF 228-235 formatStreamFailureMessage. *)
Definition formatStreamFailureMessage (error : thrown) : jsstr :=
  match error with
  | StreamFailure e => sf_message e
  | PlainError name message => let info := plain_info name message in if bool_decide (kind info = Unknown) then message else streamFailureMessage info None
  | Foreign formatted => formatted
  end.
(** The message of an abort is kept; one that only speaks of permissions is not taken for a refusal of access. *)
Example plain_messages : formatStreamFailureMessage (PlainError (js "Error") (js "Request was aborted")) = js "Request was aborted" /\
  formatStreamFailureMessage (PlainError (js "Error") (js "permission denied")) = js "permission denied".
Proof. vm_compute. auto. Qed.
