(* ===== verification/AnthropicStream.v ===== *)
(** * Reading a response of the Anthropic interface (ai/src/providers/anthropic.ts)

    The bytes of a body become lines, the lines server-sent events, their data the events of a message; and these build the message and
    the events that the agent sees.

    [sse_any_chunks] says that the events do not depend on how the bytes are cut, as long as no cut is behind a carriage return
    ([crlf_cut_splits_event] shows what happens then). [stream_settles] says how every response ends, [updates_tell_content] that the events
    pushed tell all that is in the message. *)

(* Source aliases:
   AN = src/packages/ai/src/providers/anthropic.ts
   MO = src/packages/ai/src/models.ts
   CP = src/packages/ai/src/cache-pricing.ts *)

From Stdlib Require Import QArith Qabs.
From S2P Require Import Prelude JsString JsNumber JsMap Messages Json JsonRepair StreamFailure.
From S2P Require OutputAccumulator AnthropicMessages.
Local Open Scope N_scope.

(** ** Lines and server-sent events *)

(** AN 240-244 ServerSentEvent. *)
Record ServerSentEvent := { e_event : option jsstr; e_data : jsstr; e_raw : list jsstr }.
(** AN 246-250 SseDecoderState. *)
Record SseDecoderState := { s_event : option jsstr; s_data : list jsstr; s_raw : list jsstr }.
(** AN 338-338 iterateSseMessages. *)
Definition sse_start : SseDecoderState := {| s_event := None; s_data := []; s_raw := [] |}.
(** AN 252-259 ANTHROPIC_MESSAGE_EVENTS. *)
Definition ANTHROPIC_MESSAGE_EVENTS : list jsstr :=
  [js "message_start"; js "message_delta"; js "message_stop"; js "content_block_start"; js "content_block_delta"; js "content_block_stop"].
(** AN 261-275 flushSseEvent. *)
Definition flushSseEvent (state : SseDecoderState) : option ServerSentEvent * SseDecoderState :=
  match some_text (s_event state), s_data state with
  | None, [] => (None, state)
  | _, _ => (Some {| e_event := s_event state; e_data := join [LF] (s_data state); e_raw := s_raw state |}, sse_start)
  end.
(** Characters. *)
Definition CR : N := 13.
Definition COLON : N := 58.
(** AN 277-301 decodeSseLine. *)
Definition decodeSseLine (line : jsstr) (state : SseDecoderState) : option ServerSentEvent * SseDecoderState :=
  match line with
  | [] => flushSseEvent state
  | _ =>
      let state := {| s_event := s_event state; s_data := s_data state; s_raw := s_raw state ++ [line] |} in
      if starts_with [COLON] line then (None, state)
      else
        let '(fieldName, value) := match indexOf [COLON] line with Some i => (take i line, drop (S i) line) | None => (line, []) end in
        let value := if starts_with [32] value then drop 1 value else value in
        (None,
         if jseqb fieldName (js "event") then {| s_event := Some value; s_data := s_data state; s_raw := s_raw state |}
         else if jseqb fieldName (js "data") then {| s_event := s_event state; s_data := s_data state ++ [value]; s_raw := s_raw state |}
         else state)
  end.
(** AN 303-313 nextLineBreakIndex. *)
Definition nextLineBreakIndex (text : jsstr) : option nat :=
  match indexOf [CR] text, indexOf [LF] text with
  | None, newline => newline
  | carriage, None => carriage
  | Some carriage, Some newline => Some (Nat.min carriage newline)
  end.
(** AN 315-330 consumeLine. *)
Definition consumeLine (text : jsstr) : option (jsstr * jsstr) :=
  match nextLineBreakIndex text with
  | None => None
  | Some i =>
      let nextIndex := match drop i text with u :: v :: _ => if (u =? CR) && (v =? LF) then (i + 2)%nat else (i + 1)%nat | _ => (i + 1)%nat end in
      Some (take i text, drop nextIndex text)
  end.
(** AN 353-361 iterateSseMessages. The loop over the lines that are whole, with the length of the text as fuel: each line takes its break. *)
Fixpoint consume_lines (fuel : nat) (text : jsstr) (state : SseDecoderState) : list ServerSentEvent * jsstr * SseDecoderState :=
  match fuel with
  | O => ([], text, state)
  | S fuel =>
      match consumeLine text with
      | None => ([], text, state)
      | Some (line, rest) =>
          let '(event, state) := decodeSseLine line state in
          let '(events, buffer, state) := consume_lines fuel rest state in
          (option_list event ++ events, buffer, state)
      end
  end.
(** AN 353-361 iterateSseMessages. *)
Definition consume (text : jsstr) (state : SseDecoderState) := consume_lines (length text) text state.
(** AN 364-385 iterateSseMessages. The end of the body. *)
Definition sse_finish (text : jsstr) (state : SseDecoderState) : list ServerSentEvent :=
  let '(events, buffer, state) := consume text state in
  let '(last, state) := match buffer with [] => (None, state) | _ => decodeSseLine buffer state end in
  events ++ option_list last ++ option_list (flushSseEvent state).1.

(** What reading the body gives, and whether the signal is aborted by then. *)
Inductive ReadResult := Value (bytes : list N) | EndOfBody | ReadRejected (e : thrown).
Record read := { aborted : bool; result : ReadResult }.
(** How the events end: with the body, by a throw, or not (yet). *)
Inductive sse_end := SseDone | SseThrew (e : thrown) | SsePending.
Definition ABORTED : thrown := PlainError (js "Error") (js "Request was aborted").
(** AN 332-389 iterateSseMessages. *)
Fixpoint iterate (reads : list read) (decoder : OutputAccumulator.TextDecoder) (buffer : jsstr) (state : SseDecoderState) : list ServerSentEvent * sse_end :=
  match reads with
  | [] => ([], SsePending)
  | r :: reads =>
      if aborted r then ([], SseThrew ABORTED)
      else
        match result r with
        | ReadRejected e => ([], SseThrew e)
        | EndOfBody => (sse_finish (buffer ++ OutputAccumulator.decode_flush decoder) state, SseDone)
        | Value bytes =>
            let '(text, decoder) := OutputAccumulator.decode_stream bytes decoder in
            let '(events, buffer, state) := consume (buffer ++ text) state in
            let '(more, last) := iterate reads decoder buffer state in
            (events ++ more, last)
        end
  end.
(** AN 332-389 iterateSseMessages. *)
Definition iterateSseMessages (reads : list read) : list ServerSentEvent * sse_end :=
  iterate reads {| OutputAccumulator.state := DStart; OutputAccumulator.started := false |} [] sse_start.

(** ** Events of a message *)

(** What the code reads of the event types of the client library. *)
Record RawUsage := { input_tokens : option Z; output_tokens : option Z; cache_read_input_tokens : option Z; cache_creation_input_tokens : option Z; cache_creation : option (Z * Z) }.
Inductive RawBlock := RText | RThinking | RRedacted (data : jsstr) | RToolUse (id name : jsstr) (input : option json) | ROther.
Inductive RawDelta := DText (text : jsstr) | DThinking (thinking : jsstr) | DInputJson (partial_json : jsstr) | DSignature (signature : jsstr) | DOther.
Inductive RawEvent :=
| MessageStart (id : jsstr) (u : RawUsage) | ContentBlockStart (index : Z) (b : RawBlock) | ContentBlockDelta (index : Z) (d : RawDelta) | ContentBlockStop (index : Z)
| MessageDelta (stop_reason : option jsstr) (u : RawUsage) | MessageStop | OtherEvent.
Definition is_start (e : RawEvent) : bool := match e with MessageStart _ _ => true | _ => false end.
Definition is_stop (e : RawEvent) : bool := match e with MessageStop => true | _ => false end.

(** *** The message and the updates *)

(** AN 536-537 streamAnthropic. The blocks with the fields that are there while they are streamed. *)
Inductive Block :=
| BText (text : jsstr) (index : option Z)
| BThinking (thinking thinkingSignature : jsstr) (redacted : bool) (index : option Z)
| BToolCall (id name : jsstr) (arguments : json) (partialJson : option jsstr) (index : option Z).
(** AN 467-483 streamAnthropic. What changes of the message, and the cost of writing to the cache. *)
Record Output := { content : list Block; o_usage : Usage; o_stop : StopReason; stopReasonRaw : option jsstr; responseId : option jsstr; o_error : option jsstr; cacheWriteCost : option Q }.
(** Assignments to its fields. *)
Definition set_content c o := {| content := c; o_usage := o_usage o; o_stop := o_stop o; stopReasonRaw := stopReasonRaw o; responseId := responseId o; o_error := o_error o; cacheWriteCost := cacheWriteCost o |}.
Definition set_usage u c o := {| content := content o; o_usage := u; o_stop := o_stop o; stopReasonRaw := stopReasonRaw o; responseId := responseId o; o_error := o_error o; cacheWriteCost := c |}.
Definition set_stop s raw o := {| content := content o; o_usage := o_usage o; o_stop := s; stopReasonRaw := raw; responseId := responseId o; o_error := o_error o; cacheWriteCost := cacheWriteCost o |}.
Definition set_id i o := {| content := content o; o_usage := o_usage o; o_stop := o_stop o; stopReasonRaw := stopReasonRaw o; responseId := Some i; o_error := o_error o; cacheWriteCost := cacheWriteCost o |}.
Definition set_error e o := {| content := content o; o_usage := o_usage o; o_stop := o_stop o; stopReasonRaw := stopReasonRaw o; responseId := responseId o; o_error := Some e; cacheWriteCost := cacheWriteCost o |}.
(** The events between start and end, without the message they carry. *)
Inductive update :=
| text_start (i : nat) | text_delta (i : nat) (delta : jsstr) | text_end (i : nat) (t : jsstr)
| thinking_start (i : nat) | thinking_delta (i : nat) (delta : jsstr) | thinking_end (i : nat) (t : jsstr)
| toolcall_start (i : nat) | toolcall_delta (i : nat) (delta : jsstr) | toolcall_end (i : nat) (toolCall : Block).
(** What is pushed, with the message at that moment. *)
Inductive push := PStart | PUpdate (u : update) (partial : list Block) | PDone (reason : StopReason) (m : Output) | PError (reason : StopReason) (m : Output).

Definition block_index (b : Block) : option Z := match b with BText _ i | BThinking _ _ _ i | BToolCall _ _ _ _ i => i end.
(** AN 606-607 streamAnthropic. [blocks.findIndex((b) => b.index === event.index)]. *)
Definition find_block (index : Z) (blocks : list Block) : option (nat * Block) := list_find (fun b => block_index b = Some index) blocks.
(** AN 654-654 streamAnthropic. [delete block.index]. *)
Definition drop_index (b : Block) : Block :=
  match b with BText t _ => BText t None | BThinking t s r _ => BThinking t s r None | BToolCall i n a p _ => BToolCall i n a p None end.
(** AN 735-737 streamAnthropic. Without the fields of streaming. *)
Definition strip (b : Block) : Block := match drop_index b with BToolCall i n a _ x => BToolCall i n a None x | b => b end.

(** *** Costs *)

Record ModelCost := { c_input : Q; c_output : Q; c_cacheRead : Q; c_cacheWrite : Q }.
Record Model := { model_id : jsstr; model_provider : jsstr; model_cost : ModelCost }.
Local Open Scope Q_scope.
(** MO 52-63 calculateCost. *)
Definition calculateCost (c : ModelCost) (u : Usage) (cacheWrite : option Q) : Usage :=
  let per price tokens := rnd (rnd (price / 1000000) * inject_Z tokens) in
  let ci := per (c_input c) (input u) in let co := per (c_output c) (output u) in let cr := per (c_cacheRead c) (cacheRead u) in
  let cw := per (default (c_cacheWrite c) cacheWrite) (Messages.cacheWrite u) in
  {| input := input u; output := output u; cacheRead := cacheRead u; Messages.cacheWrite := Messages.cacheWrite u; totalTokens := totalTokens u;
     cost := {| cost_input := ci; cost_output := co; cost_cacheRead := cr; cost_cacheWrite := cw; cost_total := rnd (rnd (rnd (ci + co) + cr) + cw) |} |}.
(** CP 10-12 ANTHROPIC_FIVE_MINUTE_CACHE_WRITE_COST_MULTIPLIER. *)
Definition FIVE_MINUTES : Q := 5 # 4.
(** CP 10-12 ANTHROPIC_ONE_HOUR_CACHE_WRITE_COST_MULTIPLIER. *)
Definition ONE_HOUR : Q := 2.
(** [Math.max]. *)
Definition Qmax (a b : Q) : Q := if Qle_bool a b then b else a.
(** CP 14-25 hasStandardAnthropicCachePricing. *)
Definition hasStandardAnthropicCachePricing (m : Model) : bool :=
  let modelId : jsstr := lower1 <$> model_id m in
  if negb (jseqb (model_provider m) (js "anthropic") || starts_with (js "anthropic/") modelId || starts_with (js "claude-") modelId) then false
  else
    let expected := rnd (c_input (model_cost m) * FIVE_MINUTES) in
    let tolerance := rnd ((1 # (2 ^ 52)) * Qmax (Qmax 1 (c_cacheWrite (model_cost m))) expected) in
    Qle_bool (Qabs (rnd (c_cacheWrite (model_cost m) - expected))) tolerance.
(** CP 27-39 getAnthropicCacheCosts. The cost of a write. *)
Definition cache_write_cost (inputCost : Q) (one_hour : bool) : Q := rnd (inputCost * if one_hour then ONE_HOUR else FIVE_MINUTES).
(** CP 41-63 getAnthropicCacheWriteCost. *)
Definition getAnthropicCacheWriteCost (inputCost : Q) (one_hour : bool) (cacheCreation : option (Z * Z)) : Q :=
  match cacheCreation with
  | None => cache_write_cost inputCost one_hour
  | Some (five, hour) =>
      if (five + hour =? 0)%Z then cache_write_cost inputCost one_hour
      else rnd (rnd (inputCost * rnd (rnd (inject_Z five * FIVE_MINUTES) + rnd (inject_Z hour * ONE_HOUR))) / inject_Z (five + hour))
  end.
Close Scope Q_scope.
Local Open Scope Z_scope.
(** AN 1268-1288 mapStopReason. *)
Definition mapStopReason (reason : jsstr) : StopReason + thrown :=
  if jseqb reason (js "end_turn") then inl Stop
  else if jseqb reason (js "max_tokens") then inl Length
  else if jseqb reason (js "tool_use") then inl ToolUse
  else if jseqb reason (js "refusal") then inl Error
  else if jseqb reason (js "pause_turn") then inl Stop
  else if jseqb reason (js "stop_sequence") then inl Stop
  else if jseqb reason (js "sensitive") then inl Error
  else inr (PlainError (js "Error") (js "Unhandled stop reason: " ++ reason)).

Section response.
(** The parser of partial-json; what the value of an event is to the types of the client library; what the engine says of text that is no JSON. *)
Variable partialParse : jsstr -> option json.
Variable view : json -> RawEvent.
Variable syntax_message : jsstr -> jsstr.
Variable requestId : option jsstr.
Abbreviation parse_arguments text := (parseStreamingJson partialParse (Some text)).

(** *** From server-sent events to events *)

Definition failure_info (k : StreamFailureKind) (type : option jsstr) (id : option jsstr) (payload : option jsstr) : StreamFailureInfo :=
  {| kind := k; providerErrorType := type; status := None; StreamFailure.requestId := id; raw := payload |}.
Definition text_field (k : jsstr) (v : json) : option jsstr := match v with JObj fs => match JsMap.get fs k with Some (JStr s) => Some s | _ => None end | _ => None end.
(** AN 392-411 anthropicSseError. Types and messages are strings where they are there; the value of no JSON object has none of the fields. *)
Definition anthropicSseError (data : jsstr) : thrown :=
  let '(errorType, detail, id) :=
    match parseJsonWithRepair data with
    | None | Some JNull => (None, Some data, requestId)
    | Some parsed =>
        let error := match parsed with JObj fs => default JNull (JsMap.get fs (js "error")) | _ => JNull end in
        (text_field (js "type") error, text_field (js "message") error, match requestId with Some i => Some i | None => text_field (js "request_id") parsed end)
    end in
  let info := failure_info (classifyStreamFailure errorType None) errorType id (Some (truncateRawPayload data)) in
  StreamFailure {| sf_message := streamFailureMessage info detail; sf_info := info |}.
(** AN 443-447 iterateAnthropicEvents. *)
Definition malformed (sse : ServerSentEvent) (message : jsstr) : thrown :=
  StreamFailure {| sf_message := js "Could not parse Anthropic SSE event " ++ default (js "null") (e_event sse) ++ js ": " ++ message ++ js "; data=" ++ e_data sse ++ js "; raw=" ++ join (js "\n") (e_raw sse);
                   sf_info := failure_info MalformedResponse None requestId (Some (truncateRawPayload (e_data sse))) |}.
(** AN 452-455 iterateAnthropicEvents. *)
Definition ended_early : thrown := StreamFailure {| sf_message := js "Anthropic stream ended before message_stop"; sf_info := failure_info MalformedResponse None requestId None |}.
(** AN 425-456 iterateAnthropicEvents. *)
Fixpoint anthropic_events (sses : list ServerSentEvent) (last : sse_end) (sawMessageStart sawMessageEnd : bool) : list RawEvent * sse_end :=
  match sses with
  | [] =>
      match last with
      | SseDone => if sawMessageStart && negb sawMessageEnd then ([], SseThrew ended_early) else ([], SseDone)
      | _ => ([], last)
      end
  | sse :: sses =>
      if bool_decide (e_event sse = Some (js "error")) then ([], SseThrew (anthropicSseError (e_data sse)))
      else if negb (bool_decide (default [] (e_event sse) ∈ ANTHROPIC_MESSAGE_EVENTS)) then anthropic_events sses last sawMessageStart sawMessageEnd
      else
        match parseJsonWithRepair (e_data sse) with
        | None => ([], SseThrew (malformed sse (syntax_message (e_data sse))))
        | Some JNull => ([], SseThrew (malformed sse (js "Cannot read properties of null (reading 'type')")))
        | Some v =>
            let event := view v in
            let '(events, last) := anthropic_events sses last (sawMessageStart || is_start event) (sawMessageEnd || is_stop event) in
            (event :: events, last)
        end
  end.
(** AN 413-457 iterateAnthropicEvents. The body is there. *)
Definition iterateAnthropicEvents (reads : list read) : list RawEvent * sse_end :=
  let '(sses, last) := iterateSseMessages reads in anthropic_events sses last false false.

(** *** From events to the message *)

Variable model : Model.
Variable isOAuth : bool.
Variable tool_names : list jsstr.
(** The cache control of the request, and whether its duration is an hour. *)
Variable cacheControl : option bool.
(** AN 517-521 streamAnthropic. *)
Definition usesAnthropicCachePricing : bool := hasStandardAnthropicCachePricing model.
(** AN 550-556 streamAnthropic. And the same before and in a message_delta. *)
Definition write_cost (creation : option (Z * Z)) : option Q :=
  match cacheControl with
  | Some one_hour => if usesAnthropicCachePricing then Some (getAnthropicCacheWriteCost (c_input (model_cost model)) one_hour creation) else None
  | None => None
  end.
(** AN 467-483 streamAnthropic. *)
Definition output_start : Output := {| content := []; o_usage := emptyUsage; o_stop := Stop; stopReasonRaw := None; responseId := None; o_error := None; cacheWriteCost := write_cost None |}.
(** AN 548-561 streamAnthropic. The total and the costs. *)
Definition priced (u : Usage) (cost : option Q) (o : Output) : Output :=
  let total := {| input := input u; output := output u; cacheRead := cacheRead u; cacheWrite := cacheWrite u; totalTokens := input u + output u + cacheRead u + cacheWrite u; Messages.cost := Messages.cost u |} in
  set_usage (calculateCost (model_cost model) total cost) cost o.
(** AN 563-603 streamAnthropic. The block of a content_block_start, and the update that tells it. *)
Definition started_block (index : Z) (b : RawBlock) (i : nat) : option (Block * update) :=
  match b with
  | RText => Some (BText [] (Some index), text_start i)
  | RThinking => Some (BThinking [] [] false (Some index), thinking_start i)
  | RRedacted data => Some (BThinking (js "[Reasoning redacted]") data true (Some index), thinking_start i)
  | RToolUse id name input => Some (BToolCall id (if isOAuth then AnthropicMessages.fromClaudeCodeName name tool_names else name) (or_empty (default JNull input)) (Some []) (Some index), toolcall_start i)
  | ROther => None
  end.
(** AN 605-649 streamAnthropic. What a delta does to the block it is for. *)
Definition apply_delta (b : Block) (d : RawDelta) (i : nat) : option (Block * option update) :=
  match d, b with
  | DText t, BText t0 x => Some (BText (t0 ++ t) x, Some (text_delta i t))
  | DThinking t, BThinking t0 s r x => Some (BThinking (t0 ++ t) s r x, Some (thinking_delta i t))
  | DInputJson p, BToolCall id n _ p0 x => Some (BToolCall id n (parse_arguments (default (js "undefined") p0 ++ p)) (Some (default (js "undefined") p0 ++ p)) x, Some (toolcall_delta i p))
  | DSignature s, BThinking t s0 r x => Some (BThinking t (s0 ++ s) r x, None)
  | _, _ => None
  end.
(** AN 653-681 streamAnthropic. The block that stops. *)
Definition stopped (b : Block) (i : nat) : Block * update :=
  match drop_index b with
  | BText t x => (BText t x, text_end i t)
  | BThinking t s r x => (BThinking t s r x, thinking_end i t)
  | BToolCall id n a p x => let b := BToolCall id n (parseStreamingJson partialParse p) None x in (b, toolcall_end i b)
  end.
(** AN 540-720 streamAnthropic. One event; a throw leaves what has been changed before. *)
Definition process (event : RawEvent) (o : Output) : option update * Output * option thrown :=
  match event with
  | MessageStart id u =>
      let usage := {| input := default 0 (input_tokens u); output := default 0 (output_tokens u); cacheRead := default 0 (cache_read_input_tokens u);
                      cacheWrite := default 0 (cache_creation_input_tokens u); totalTokens := 0; Messages.cost := Messages.cost (o_usage o) |} in
      let cost := match cacheControl with Some _ => if usesAnthropicCachePricing then write_cost (cache_creation u) else cacheWriteCost o | None => cacheWriteCost o end in
      (None, priced usage cost (set_id id o), None)
  | ContentBlockStart index b =>
      match started_block index b (length (content o)) with
      | Some (block, u) => (Some u, set_content (content o ++ [block]) o, None)
      | None => (None, o, None)
      end
  | ContentBlockDelta index d =>
      match find_block index (content o) with
      | Some (i, block) => match apply_delta block d i with Some (block, u) => (u, set_content (<[i := block]> (content o)) o, None) | None => (None, o, None) end
      | None => (None, o, None)
      end
  | ContentBlockStop index =>
      match find_block index (content o) with
      | Some (i, block) => let '(block, u) := stopped block i in (Some u, set_content (<[i := block]> (content o)) o, None)
      | None => (None, o, None)
      end
  | MessageDelta stop_reason u =>
      let stop := match some_text stop_reason with
                  | Some r => match mapStopReason r with inl s => inl (set_stop s (if bool_decide (s = Error) then Some r else stopReasonRaw o) o) | inr e => inr e end
                  | None => inl o
                  end in
      match stop with
      | inr e => (None, o, Some e)
      | inl o =>
          let old := o_usage o in
          let usage := {| input := default (input old) (input_tokens u); output := default (output old) (output_tokens u); cacheRead := default (cacheRead old) (cache_read_input_tokens u);
                          cacheWrite := default (cacheWrite old) (cache_creation_input_tokens u); totalTokens := 0; Messages.cost := Messages.cost old |} in
          let cost := match cache_creation u with
                      | Some c => match cacheControl with Some _ => if usesAnthropicCachePricing then write_cost (Some c) else cacheWriteCost o | None => cacheWriteCost o end
                      | None => cacheWriteCost o
                      end in
          (None, priced usage cost o, None)
      end
  | MessageStop | OtherEvent => (None, o, None)
  end.
(** AN 539-721 streamAnthropic. The loop over the events. *)
Fixpoint process_all (events : list RawEvent) (last : sse_end) (o : Output) : list push * Output * sse_end :=
  match events with
  | [] => ([], o, last)
  | event :: events =>
      match process event o with
      | (_, o, Some e) => ([], o, SseThrew e)
      | (u, o, None) =>
          let '(pushes, o', last) := process_all events last o in
          ((match u with Some u => [PUpdate u (content o)] | None => [] end) ++ pushes, o', last)
      end
  end.
(** AN 733-744 streamAnthropic. The catch: what is left of streaming is removed. Diagnostics are left out. *)
Definition fail (aborted : bool) (e : thrown) (o : Output) : push :=
  let reason := if aborted then Aborted else Error in
  PError reason (set_error (formatStreamFailureMessage e) (set_stop reason (stopReasonRaw o) (set_content (strip <$> content o) o))).
(** AN 723-732 streamAnthropic. The end of the response, with the signal at that time. *)
Definition settle_response (aborted : bool) (last : sse_end) (o : Output) : list push :=
  match last with
  | SsePending => []
  | SseThrew e => [fail aborted e o]
  | SseDone =>
      if aborted then [fail aborted ABORTED o]
      else if bool_decide (o_stop o = Aborted) || bool_decide (o_stop o = Error) then [fail aborted (StreamFailure (streamFailureFromStopReason (stopReasonRaw o) requestId)) o]
      else [PDone (o_stop o) o]
  end.
(** AN 459-748 streamAnthropic. [request] is what the request throws, if it does. *)
Definition streamAnthropic (request : option thrown) (reads : list read) (aborted : bool) : list push :=
  match request with
  | Some e => [fail aborted e output_start]
  | None =>
      let '(events, last) := iterateAnthropicEvents reads in
      let '(pushes, o, last) := process_all events last output_start in
      PStart :: pushes ++ settle_response aborted last o
  end.
End response.

(** ** Events do not depend on the cuts *)

Local Open Scope N_scope.
Lemma indexOf_here c a b : c ∉ a -> indexOf [c] (a ++ c :: b) = Some (length a).
Proof.
  induction a as [|x a IH]; intros Hc; cbn [app indexOf]; unfold starts_with; cbn [length take].
  - by rewrite bool_decide_true.
  - apply not_elem_of_cons in Hc as [Hx Hc]. rewrite bool_decide_false by congruence. by rewrite IH.
Qed.
Lemma indexOf_absent c s : c ∉ s -> indexOf [c] s = None.
Proof.
  induction s as [|x s IH]; intros Hc; cbn [indexOf]; unfold starts_with; cbn [length take]; [done|]. apply not_elem_of_cons in Hc as [Hx Hc]. rewrite bool_decide_false by congruence. by rewrite IH.
Qed.
Definition is_break (u : N) : bool := (u =? CR) || (u =? LF).
Definition unbroken (s : jsstr) : Prop := Forall (fun u => is_break u = false) s.
Lemma unbroken_not s : unbroken s -> CR ∉ s /\ LF ∉ s.
Proof. unfold unbroken. rewrite Forall_forall. intros H. split; intros Hin; by apply H in Hin. Qed.
(** The breaks, and what they have to be followed by. *)
Definition broken_by (brk rest : jsstr) : Prop := brk = [LF] \/ brk = [CR; LF] \/ (brk = [CR] /\ head rest <> Some LF).
Lemma first_break text : unbroken text \/ exists line brk rest, text = line ++ brk ++ rest /\ unbroken line /\ broken_by brk rest.
Proof.
  induction text as [|u text IH]; [by left; constructor|]. destruct (is_break u) eqn:E.
  - right. exists []. unfold is_break in E. destruct (u =? LF) eqn:El; to_prop; [subst; exists [LF], text; split_and!; [done|constructor|by left]|]. rewrite orb_false_r in E. to_prop. subst u.
    destruct text as [|v text]; [exists [CR], []; split_and!; [done|constructor|by right; right]|]. destruct (decide (v = LF)) as [->|Hv].
    + exists [CR; LF], text. split_and!; [done|constructor|by right; left].
    + exists [CR], (v :: text). split_and!; [done|constructor|right; right; split; [done|cbn; congruence]].
  - destruct IH as [IH|(line & brk & rest & -> & Hl & Hb)]; [left; by constructor|]. right. exists (u :: line), brk, rest. split_and!; [done|by constructor|done].
Qed.
Lemma consumeLine_none text : unbroken text -> consumeLine text = None.
Proof. intros [H1 H2]%unbroken_not. unfold consumeLine, nextLineBreakIndex. by rewrite !indexOf_absent. Qed.
Lemma consumeLine_some line brk rest : unbroken line -> broken_by brk rest -> consumeLine (line ++ brk ++ rest) = Some (line, rest).
Proof.
  intros [H1 H2]%unbroken_not Hb. assert (Hi : nextLineBreakIndex (line ++ brk ++ rest) = Some (length line)).
  { unfold nextLineBreakIndex. destruct Hb as [->|[->|[-> Hr]]]; cbn [app].
    - rewrite (indexOf_here LF) by done. destruct (indexOf [CR] _) as [c|] eqn:E; [|done]. f_equal. apply indexOf_Some in E as (a & b & Hab & <-).
      destruct (decide (length a < length line)%nat) as [Hlt|]; [|lia]. exfalso. apply H1. apply list_elem_of_lookup. exists (length a).
      rewrite <- (lookup_app_l line (LF :: rest)) by done. rewrite Hab. rewrite lookup_app_r by done. by rewrite Nat.sub_diag.
    - rewrite (indexOf_here CR) by done. assert (Hl : (line ++ CR :: LF :: rest : jsstr) = (line ++ [CR]) ++ LF :: rest) by (by rewrite <- (assoc_L (++))). rewrite Hl, (indexOf_here LF).
      2:{ rewrite not_elem_of_app. split; [done|]. by apply not_elem_of_cons; split; [|apply not_elem_of_nil]. }
      f_equal. rewrite length_app. lia.
    - rewrite (indexOf_here CR) by done. destruct (indexOf [LF] _) as [c|] eqn:E; [|done]. f_equal. apply indexOf_Some in E as (a & b & Hab & <-).
      destruct (decide (length a < length line)%nat) as [Hlt|]; [|lia]. exfalso. apply H2. apply list_elem_of_lookup. exists (length a).
      rewrite <- (lookup_app_l line (CR :: rest)) by done. rewrite Hab. rewrite lookup_app_r by done. by rewrite Nat.sub_diag. }
  unfold consumeLine. rewrite Hi, take_app_length, drop_app_length. destruct Hb as [->|[->|[-> Hr]]]; cbn [app].
  - assert (Hd : drop (length line + 1) (line ++ LF :: rest) = rest) by (rewrite <- drop_drop, drop_app_length; done). destruct rest as [|v rest]; [by rewrite Hd|]. change (LF =? CR) with false. cbn [andb]. by rewrite Hd.
  - change (CR =? CR) with true. change (LF =? LF) with true. cbn [andb]. by rewrite <- drop_drop, drop_app_length.
  - assert (Hd : drop (length line + 1) (line ++ CR :: rest) = rest) by (rewrite <- drop_drop, drop_app_length; done). destruct rest as [|v rest]; [by rewrite Hd|].
    rewrite (proj2 (N.eqb_neq v LF)) by (cbn in Hr; congruence). rewrite andb_false_r. by rewrite Hd.
Qed.
Lemma consume_fuel n text st : (length text <= n)%nat -> consume_lines n text st = consume text st.
Proof.
  unfold consume. remember (length text) as k eqn:Hk. revert n text st Hk. induction k as [k IH] using lt_wf_ind. intros n text st -> Hn.
  destruct (first_break text) as [H|(line & brk & rest & -> & Hl & Hb)]; [destruct n, (length text); cbn [consume_lines]; rewrite ?consumeLine_none by done; done|].
  assert (Hlen : (length rest < length (line ++ brk ++ rest))%nat) by (rewrite !length_app; destruct Hb as [->|[->|[-> _]]]; cbn; lia). remember (length (line ++ brk ++ rest)) as m eqn:Hm.
  destruct n as [|n]; [lia|]. destruct m as [|m]; [lia|]. cbn [consume_lines]. rewrite consumeLine_some by done. destruct (decodeSseLine line st) as [e st'].
  rewrite (IH (length rest)), (IH (length rest) ltac:(lia) m) by (done || lia). done.
Qed.
Lemma consume_none text st : unbroken text -> consume text st = ([], text, st).
Proof. intros H. unfold consume. destruct (length text) as [|n]; [done|]. cbn [consume_lines]. by rewrite consumeLine_none. Qed.
Lemma consume_some line brk rest st : unbroken line -> broken_by brk rest ->
  consume (line ++ brk ++ rest) st = let '(e, st1) := decodeSseLine line st in let '(es, b, st2) := consume rest st1 in (option_list e ++ es, b, st2).
Proof.
  intros Hl Hb. assert (Hlen : (length rest < length (line ++ brk ++ rest))%nat) by (rewrite !length_app; destruct Hb as [->|[->|[-> _]]]; cbn; lia).
  unfold consume at 1. destruct (length (line ++ brk ++ rest)) as [|n]; [lia|]. cbn [consume_lines]. rewrite consumeLine_some by done. destruct (decodeSseLine line st) as [e st']. by rewrite consume_fuel by lia.
Qed.
(** What is left has no break. *)
Lemma consume_left text st : unbroken (consume text st).1.2.
Proof.
  remember (length text) as k eqn:Hk. revert text st Hk. induction k as [k IH] using lt_wf_ind. intros text st ->. destruct (first_break text) as [H|(line & brk & rest & -> & Hl & Hb)]; [by rewrite consume_none|].
  assert (Hlen : (length rest < length (line ++ brk ++ rest))%nat) by (rewrite !length_app; destruct Hb as [->|[->|[-> _]]]; cbn; lia).
  rewrite consume_some by done. destruct (decodeSseLine line st) as [e st']. specialize (IH _ Hlen rest st' eq_refl). by destruct (consume rest st') as [[es b] st2].
Qed.
(** More text behind, unless a line feed follows a carriage return. *)
Lemma consume_app text more st : (last text = Some CR -> head more <> Some LF) ->
  consume (text ++ more) st = let '(es, b, st1) := consume text st in let '(es2, b2, st2) := consume (b ++ more) st1 in (es ++ es2, b2, st2).
Proof.
  remember (length text) as k eqn:Hk. revert text st Hk. induction k as [k IH] using lt_wf_ind. intros text st -> Hm.
  destruct (first_break text) as [H|(line & brk & rest & -> & Hl & Hb)]; [rewrite (consume_none text) by done; by destruct (consume (text ++ more) st) as [[es b] st1]|].
  assert (Hlen : (length rest < length (line ++ brk ++ rest))%nat) by (rewrite !length_app; destruct Hb as [->|[->|[-> _]]]; cbn; lia).
  assert (Hb' : broken_by brk (rest ++ more)).
  { destruct Hb as [->|[->|[-> Hr]]]; [by left|by right; left|]. right; right. split; [done|]. destruct rest as [|v rest]; [|done]. apply Hm. rewrite app_nil_r. by rewrite last_snoc. }
  rewrite consume_some by done. rewrite <- !(assoc_L (++)). rewrite consume_some by done. destruct (decodeSseLine line st) as [e st']. rewrite (IH _ Hlen rest st' eq_refl).
  - destruct (consume rest st') as [[es b] st1]. destruct (consume (b ++ more) st1) as [[es2 b2] st2]. by rewrite (assoc_L (++)).
  - intros Hr. apply Hm. destruct rest as [|v rest _] using rev_ind; [done|]. rewrite last_snoc in Hr. rewrite !(assoc_L (++)), last_snoc. done.
Qed.

(** *** The decoder *)

Import OutputAccumulator (TextDecoder, decode_stream, decode_flush, decoded, drop_bom).
(** A character of more than one byte is not a line break. *)
Definition far (st : dstate) : Prop :=
  match st with
  | DStart => True
  | DCont n cp lo hi => 0x80 <= lo /\ match n with O | S O => lo = 0x80 /\ 1 <= cp | _ => 1 <= cp * 0x40 + (lo - 0x80) end
  end.
Lemma start_byte_far b : far (start_byte b).2.
Proof.
  unfold start_byte. repeat match goal with |- context [if ?x then _ else _] => destruct x eqn:?; to_prop end; cbn; try done; repeat split; try lia.
Qed.
Lemma start_byte_out b : (start_byte b).1 = [b] \/ (start_byte b).1 = [replacement] \/ ((start_byte b).1 = [] /\ (start_byte b).2 <> DStart).
Proof. unfold start_byte. repeat match goal with |- context [if ?x then _ else _] => destruct x eqn:?; to_prop end; cbn; auto. Qed.
Lemma cont_far n cp lo hi b : far (DCont (S (S n)) cp lo hi) -> (lo <=? b) && (b <=? hi) = true -> far (DCont (S n) (cp * 0x40 + (b - 0x80)) 0x80 0xBF).
Proof. cbn. intros [H1 H2] Hb. to_prop. split; [done|]. destruct n; [split; [done|]|]; lia. Qed.
Lemma decode_chunk_far st bytes : far st -> far (decode_chunk st bytes).2.
Proof.
  revert st. induction bytes as [|b bytes IH]; intros st Hst; [done|]. destruct st as [|n cp lo hi]; cbn [decode_chunk].
  - pose proof (start_byte_far b) as H. destruct (start_byte b) as [out st']. specialize (IH st' H). by destruct (decode_chunk st' bytes).
  - destruct (_ && _) eqn:E.
    + destruct n as [|[|n]]; [| |by apply IH, (cont_far _ _ lo hi)]; specialize (IH DStart I); by destruct (decode_chunk DStart bytes).
    + pose proof (start_byte_far b) as H. destruct (start_byte b) as [out st']. specialize (IH st' H). by destruct (decode_chunk st' bytes).
Qed.
Lemma decoded_head_far st bytes : far st -> st <> DStart -> head (utf8_decode_from st bytes) <> Some LF.
Proof.
  revert st. induction bytes as [|b bytes IH]; intros st Hst Hn; (destruct st as [|n cp lo hi]; [done|]); cbn [utf8_decode_from]; [done|]. destruct (_ && _) eqn:E.
  - destruct n as [|[|n]]; [| |apply IH; [by apply (cont_far _ _ lo hi)|done]]; cbn in Hst |- *; destruct Hst as [_ [-> Hcp]]; intros [= H]; unfold LF in H; to_prop; lia.
  - by destruct (start_byte b) as [out st'].
Qed.
Lemma last_pair {A} (l : list A) a b : last (l ++ [a; b]) = Some b.
Proof. change [a; b] with ([a] ++ [b]). by rewrite (assoc_L (++)), last_snoc. Qed.
Lemma decode_last st bytes : far st -> last (decode_chunk st bytes).1 = Some CR -> last bytes = Some CR \/ (decode_chunk st bytes).2 <> DStart.
Proof.
  intros Hst. destruct bytes as [|x bytes _] using rev_ind; [done|]. rewrite OutputAccumulator.decode_chunk_chunks, last_snoc. cbn [fst snd]. pose proof (decode_chunk_far st bytes Hst) as Hf.
  destruct (decode_chunk st bytes) as [o st0]. cbn [fst snd] in *. destruct st0 as [|n cp lo hi]; cbn [decode_chunk].
  - destruct (start_byte_out x) as [H|[H|[H1 H2]]]; destruct (start_byte x) as [out st']; cbn [fst snd app] in *; subst out; cbn [fst snd app]; [rewrite last_snoc; intros [= ->]; by left|by rewrite last_snoc|by right].
  - destruct (_ && _) eqn:E.
    + destruct n as [|[|n]]; cbn [fst snd]; [| |by right]; cbn in Hf; destruct Hf as [_ [-> Hcp]]; rewrite last_snoc; intros [= H]; unfold CR in H; to_prop; lia.
    + destruct (start_byte_out x) as [H|[H|[H1 H2]]]; destruct (start_byte x) as [out st']; cbn [fst snd app] in *; subst out; cbn [fst snd app]; [|by rewrite last_pair|by right]. rewrite last_pair. intros [= ->]. by left.
Qed.
Lemma utf16_head cps : head (utf16_encode cps) = Some LF -> head cps = Some LF.
Proof.
  destruct cps as [|c cps]; [done|]. unfold utf16_encode. cbn [mbind list_bind]. unfold utf16_encode1. destruct (c <? 0x10000); [by intros [= ->]|]. cbn. intros [= H]. unfold LF in H. lia.
Qed.
Lemma utf16_last cps : last (utf16_encode cps) = Some CR -> last cps = Some CR.
Proof.
  destruct cps as [|c cps _] using rev_ind; [done|]. rewrite utf16_encode_app, last_snoc. unfold utf16_encode. cbn [mbind list_bind]. rewrite app_nil_r. unfold utf16_encode1. destruct (c <? 0x10000); [by rewrite last_snoc|].
  rewrite last_pair. intros [= H]. unfold CR in H. lia.
Qed.
Lemma drop_bom_last cps : last (drop_bom cps) = Some CR -> last cps = Some CR.
Proof. destruct cps as [|c cps]; [done|]. cbn [drop_bom]. destruct (c =? 0xFEFF); [|done]. destruct cps; done. Qed.
(** The text of the bytes to come. *)
Definition text_of (d : TextDecoder) (bytes : list N) : jsstr := utf16_encode (decoded d (utf8_decode_from (OutputAccumulator.state d) bytes)).
Lemma text_of_nil d : text_of d [] = decode_flush d.
Proof. done. Qed.
Lemma text_of_app d a b : text_of d (a ++ b) = (decode_stream a d).1 ++ text_of (decode_stream a d).2 b.
Proof.
  unfold text_of, decode_stream. rewrite decode_chunk_app. destruct (decode_chunk (OutputAccumulator.state d) a) as [o st]. cbn [fst snd OutputAccumulator.state]. rewrite <- utf16_encode_app. f_equal.
  unfold decoded. cbn [OutputAccumulator.started]. destruct (OutputAccumulator.started d); [done|]. cbn [orb]. destruct o as [|c o]; [done|]. rewrite bool_decide_true by done. cbn [app drop_bom]. by destruct (c =? 0xFEFF).
Qed.
(** A cut that is not behind a carriage return separates none from its line feed. *)
Lemma cut_apart d a b : far (OutputAccumulator.state d) -> last a <> Some CR -> last (decode_stream a d).1 = Some CR -> head (text_of (decode_stream a d).2 b) <> Some LF.
Proof.
  intros Hd Ha. unfold decode_stream, text_of. destruct (decode_chunk (OutputAccumulator.state d) a) as [o st] eqn:E. cbn [fst snd OutputAccumulator.state]. intros Hl%utf16_last Hh%utf16_head.
  assert (Ho : last o = Some CR) by (unfold decoded in Hl; destruct (OutputAccumulator.started d); [done|by apply drop_bom_last]).
  destruct (decode_last _ a Hd) as [H|H]; [by rewrite E|done|]. rewrite E in H. cbn [snd] in H. pose proof (decode_chunk_far _ a Hd) as Hf. rewrite E in Hf. cbn [snd] in Hf.
  unfold decoded in Hh. cbn [OutputAccumulator.started] in Hh. rewrite bool_decide_true, orb_true_r in Hh by (by intros ->). by apply (decoded_head_far st b) in Hh.
Qed.
Definition chunk (b : list N) : read := {| aborted := false; result := Value b |}.
Definition body_end : read := {| aborted := false; result := EndOfBody |}.
Lemma iterate_chunks cuts d buffer st : Forall (fun b => last b <> Some CR) cuts -> far (OutputAccumulator.state d) -> unbroken buffer ->
  iterate ((chunk <$> cuts) ++ [body_end]) d buffer st = (sse_finish (buffer ++ text_of d (concat cuts)) st, SseDone).
Proof.
  intros Hc. revert d buffer st. induction Hc as [|b cuts Hb _ IH]; intros d buffer st Hd Hu; [by rewrite text_of_nil|]. rewrite fmap_cons. cbn [app iterate chunk aborted result concat].
  rewrite text_of_app. pose proof (cut_apart d b (concat cuts) Hd Hb) as Hcut. assert (Hd' : far (OutputAccumulator.state (decode_stream b d).2)).
  { unfold decode_stream. pose proof (decode_chunk_far _ b Hd) as H. by destruct (decode_chunk (OutputAccumulator.state d) b). }
  destruct (decode_stream b d) as [t d']. cbn [fst snd] in *. pose proof (consume_left (buffer ++ t) st) as Hleft. unfold sse_finish. rewrite (assoc_L (++)), (consume_app (buffer ++ t)).
  - destruct (consume (buffer ++ t) st) as [[es buf] st1]. cbn [fst snd] in Hleft. rewrite IH by done. unfold sse_finish. destruct (consume (buf ++ text_of d' (concat cuts)) st1) as [[es2 b2] st2].
    destruct (match b2 with [] => (None, st2) | _ :: _ => decodeSseLine b2 st2 end) as [l st3]. by rewrite <- !(assoc_L (++)).
  - intros Hl. apply Hcut. destruct t as [|u t _] using rev_ind; [|by rewrite (assoc_L (++)), last_snoc in Hl; rewrite last_snoc]. rewrite app_nil_r in Hl. exfalso.
    apply unbroken_not in Hu as [Hu _]. apply Hu. apply last_Some in Hl as [l' ->]. apply elem_of_app. right. by left.
Qed.
(** C12. However the bytes of a body are cut, except behind a carriage return, the events are those of the body decoded and split at once. *)
Theorem sse_any_chunks (cuts : list (list N)) (Hcuts : Forall (fun b => last b <> Some CR) cuts) :
  iterateSseMessages ((chunk <$> cuts) ++ [body_end]) = (sse_finish (utf16_encode (drop_bom (utf8_decode_from DStart (concat cuts)))) sse_start, SseDone).
Proof. apply (iterate_chunks cuts {| OutputAccumulator.state := DStart; OutputAccumulator.started := false |} [] sse_start Hcuts I). constructor. Qed.
Lemma sse_any_chunks_witness : exists es, iterateSseMessages ((chunk <$> [js "event: pi"; js "ng" ++ [LF] ++ js "data: 1" ++ [LF]; [LF; 226]; [130; 172]]) ++ [body_end]) = (es, SseDone) /\ e_data <$> es = [js "1"].
Proof.
  eexists. split.
  - apply sse_any_chunks. repeat (constructor; [discriminate|]). constructor.
  - vm_compute. reflexivity.
Defined.
(** A cut between a carriage return and its line feed: the line feed is taken for an empty line, which ends the event before its data. *)
Example crlf_cut_splits_event :
  let crlf := [CR; LF] in let body := js "event: ping" ++ crlf ++ js "data: 1" ++ crlf ++ crlf in
  let events cuts := (fun e => (e_event e, e_data e)) <$> (iterateSseMessages ((chunk <$> cuts) ++ [body_end])).1 in
  events [body] = [(Some (js "ping"), js "1")] /\
  events [js "event: ping" ++ [CR]; [LF] ++ js "data: 1" ++ crlf ++ crlf] = [(Some (js "ping"), []); (None, js "1")].
Proof. vm_compute. auto. Qed.

(** ** How a response ends *)

Section response_facts.
Context (partialParse : jsstr -> option json) (view : json -> RawEvent) (syntax_message : jsstr -> jsstr) (requestId : option jsstr).
Context (model : Model) (isOAuth : bool) (tool_names : list jsstr) (cacheControl : option bool).
Abbreviation events_of := (anthropic_events view syntax_message requestId).
Abbreviation reading := (iterateAnthropicEvents view syntax_message requestId).
Abbreviation step := (process partialParse model isOAuth tool_names cacheControl).
Abbreviation steps := (process_all partialParse model isOAuth tool_names cacheControl).
Abbreviation beginning := (output_start model cacheControl).
Abbreviation response := (streamAnthropic partialParse view syntax_message requestId model isOAuth tool_names cacheControl).

Definition is_update (p : push) : bool := match p with PUpdate _ _ => true | _ => false end.
(** What happens to the reading in the end. *)
Definition ends (r : read) : bool := aborted r || match result r with Value _ => false | _ => true end.
(** The counts add up, and nothing is a failure yet. *)
Definition in_progress (o : Output) : Prop :=
  totalTokens (o_usage o) = (input (o_usage o) + output (o_usage o) + cacheRead (o_usage o) + cacheWrite (o_usage o))%Z /\ o_error o = None /\ o_stop o <> Aborted.
Definition stripped (b : Block) : Prop := block_index b = None /\ match b with BToolCall _ _ _ p _ => p = None | _ => True end.
Lemma strip_stripped b : stripped (strip b).
Proof. by destruct b. Qed.

Lemma iterate_ends reads d b st : existsb ends reads = true -> (iterate reads d b st).2 <> SsePending.
Proof.
  revert d b st. induction reads as [|r reads IH]; intros d b st H; [done|]. cbn [iterate existsb] in *. unfold ends at 1 in H. destruct (aborted r); [done|]. cbn [orb] in H.
  destruct (result r) as [bytes| |e]; try done. cbn [orb] in H. destruct (decode_stream bytes d) as [t d']. destruct (consume (b ++ t) st) as [[es b'] st']. specialize (IH d' b' st' H). by destruct (iterate reads d' b' st').
Qed.
Lemma anthropic_events_end sses last a b : let '(events, last') := events_of sses last a b in
  (last <> SsePending -> last' <> SsePending) /\ (last' = SseDone -> a || existsb is_start events = true -> b || existsb is_stop events = true).
Proof.
  revert a b. induction sses as [|sse sses IH]; intros a b; cbn [AnthropicStream.anthropic_events].
  - destruct last as [|e|]; try done. destruct a, b; cbn; split; done.
  - destruct (bool_decide _); [done|]. destruct (negb _); [apply IH|]. destruct (parseJsonWithRepair (e_data sse)) as [v|]; [|done]. destruct v; [done| | | | |].
    all: set (event := view _); specialize (IH (a || is_start event) (b || is_stop event)); destruct (events_of sses last _ _) as [events last']; cbn [existsb]; destruct IH as [H1 H2]; split; [exact H1|];
      intros Hl Hs; rewrite orb_assoc in *; apply H2; done.
Qed.
Lemma priced_progress u c o : in_progress o -> in_progress (priced model u c o).
Proof. intros (_ & H1 & H2). done. Qed.
Lemma mapStopReason_not_aborted r s : mapStopReason r = inl s -> s <> Aborted.
Proof. unfold mapStopReason. repeat (destruct (jseqb r _); [by intros [= <-]|]). done. Qed.
Lemma process_progress event o u o' e : step event o = (u, o', e) -> in_progress o -> in_progress o'.
Proof.
  intros H Ho. destruct event as [i r|i b|i d|i|reason r| |]; cbn [AnthropicStream.process] in H.
  - injection H as _ <- _. apply priced_progress. by destruct Ho as (H1 & H2 & H3).
  - destruct (started_block _ _ _ _ _) as [[block v]|]; injection H as _ <- _; done.
  - destruct (find_block i (content o)) as [[k block]|]; [|by injection H as _ <- _]. destruct (apply_delta _ block d k) as [[block' v]|]; injection H as _ <- _; done.
  - destruct (find_block i (content o)) as [[k block]|]; [|by injection H as _ <- _]. destruct (stopped _ block k) as [block' v]; injection H as _ <- _; done.
  - destruct (some_text reason) as [t|]; [|injection H as _ <- _; by apply priced_progress]. destruct (mapStopReason t) as [s|x] eqn:E; [|by injection H as _ <- _]. injection H as _ <- _. apply priced_progress.
    destruct Ho as (H1 & H2 & H3). split_and!; [done|done|]. by apply (mapStopReason_not_aborted t).
  - by injection H as _ <- _.
  - by injection H as _ <- _.
Qed.
Lemma process_all_spec events last o : in_progress o -> let '(pushes, o', last') := steps events last o in
  in_progress o' /\ Forall (fun p => is_update p = true) pushes /\ (last <> SsePending -> last' <> SsePending) /\ (last' = SseDone -> last = SseDone).
Proof.
  revert o. induction events as [|event events IH]; intros o Ho; cbn [AnthropicStream.process_all]; [done|]. destruct (step event o) as [[u o1] [e|]] eqn:E; [split_and!; [by eapply process_progress|constructor|done|done]|].
  specialize (IH o1 (process_progress _ _ _ _ _ E Ho)). destruct (steps events last o1) as [[pushes o'] last']. destruct IH as (H1 & H2 & H3 & H4). split_and!; [done| |done|done].
  destruct u; [by constructor|done].
Qed.
(** C10. Every response ends once, with the last event: a success that was neither aborted nor refused, with its end if it had a beginning; or a failure whose message
    holds no field of the streaming. *)
Theorem stream_settles (request : option thrown) (reads : list read) (signal : bool) (Hend : request <> None \/ existsb ends reads = true) :
  exists updates last, response request reads signal = (match request with None => [PStart] | Some _ => [] end) ++ updates ++ [last] /\ Forall (fun p => is_update p = true) updates /\
    match last with
    | PDone reason m =>
        signal = false /\ reason = o_stop m /\ reason ∈ [Stop; Length; ToolUse] /\ o_error m = None /\ in_progress m /\ (reading reads).2 = SseDone /\
        (existsb is_start (reading reads).1 = true -> existsb is_stop (reading reads).1 = true)
    | PError reason m => reason = (if signal then Aborted else Error) /\ o_stop m = reason /\ Forall stripped (content m) /\ o_error m <> None
    | _ => False
    end.
Proof.
  assert (Hfail : forall e o, match fail signal e o with
     | PError reason m => reason = (if signal then Aborted else Error) /\ o_stop m = reason /\ Forall stripped (content m) /\ o_error m <> None | _ => False end).
  { intros e o. unfold fail. split_and!; [done|done| |done]. cbn. apply Forall_fmap, Forall_true. intros b. apply strip_stripped. }
  unfold streamAnthropic. destruct request as [e|]; [exists [], (fail signal e beginning); (split; [done|split; [constructor|apply Hfail]])|].
  destruct Hend as [|Hend]; [done|]. pose proof (anthropic_events_end (iterateSseMessages reads).1 (iterateSseMessages reads).2 false false) as Hev.
  pose proof (iterate_ends reads {| OutputAccumulator.state := DStart; OutputAccumulator.started := false |} [] sse_start Hend) as Hp. fold (iterateSseMessages reads) in Hp.
  unfold AnthropicStream.iterateAnthropicEvents in *. destruct (iterateSseMessages reads) as [sses last]. cbn [fst snd] in *. destruct (events_of sses last false false) as [events last1]. destruct Hev as [H1 H2].
  assert (Hstart : in_progress beginning) by done. pose proof (process_all_spec events last1 beginning Hstart) as Hall. destruct (steps events last1 beginning) as [[pushes o] last2].
  destruct Hall as (Ho & Hu & H3 & H4). destruct last2 as [|e|]; [| |by destruct (H3 (H1 Hp))].
  - cbn [settle_response]. destruct signal; [eexists pushes, _; (split; [done|split; [done|apply Hfail]])|]. destruct (bool_decide (o_stop o = Aborted) || bool_decide (o_stop o = Error)) eqn:E; [eexists pushes, _; (split; [done|split; [done|apply Hfail]])|].
    exists pushes, (PDone (o_stop o) o). split_and!; try done; [|apply Ho|by apply H4|apply (H2 (H4 eq_refl))]. to_prop. destruct (o_stop o); try done; set_solver.
  - cbn [settle_response]. eexists pushes, _. (split; [done|split; [done|apply Hfail]]).
Qed.
End response_facts.

(** ** Some responses *)

(** A reading of some events, for the examples. *)
Definition field (k : string) (v : json) : json := match v with JObj fs => default JNull (JsMap.get fs (js k)) | _ => JNull end.
Definition as_text (v : json) : jsstr := match v with JStr s => s | _ => [] end.
Definition as_int (v : json) : Z := match v with JNum [d] => Z.of_N (d - 48) | _ => 0%Z end.
Definition no_usage : RawUsage := {| input_tokens := Some 3%Z; output_tokens := None; cache_read_input_tokens := None; cache_creation_input_tokens := None; cache_creation := None |}.
Definition ex_view (v : json) : RawEvent :=
  let t := as_text (field "type" v) in let i := as_int (field "index" v) in let b := field "block" v in
  if jseqb t (js "message_start") then MessageStart (js "m") no_usage
  else if jseqb t (js "content_block_start") then
    ContentBlockStart i (if jseqb (as_text (field "type" b)) (js "text") then RText else RToolUse (js "c") (as_text (field "name" b)) (Some (field "input" b)))
  else if jseqb t (js "content_block_delta") then ContentBlockDelta i (DText (as_text (field "text" v)))
  else if jseqb t (js "content_block_stop") then ContentBlockStop i
  else if jseqb t (js "message_delta") then MessageDelta (Some (as_text (field "stop_reason" v))) no_usage
  else if jseqb t (js "message_stop") then MessageStop else OtherEvent.
Definition ex_model : Model := {| model_id := js "claude-x"; model_provider := js "anthropic"; model_cost := {| c_input := 3; c_output := 15; c_cacheRead := 3 # 10; c_cacheWrite := 15 # 4 |} |}.
Definition ex_stream (cuts : list jsstr) : list push := streamAnthropic (fun _ => None) ex_view (fun _ => js "syntax") None ex_model false [] (Some false) None ((chunk <$> cuts) ++ [body_end]) false.
(** An event with fields that are strings or numbers. *)
Definition sse (t : string) (fields : list (string * json)) : jsstr :=
  js "event: " ++ js t ++ [LF] ++ js "data: " ++ stringify (JObj ((js "type", JStr (js t)) :: ((fun f => (js f.1, f.2)) <$> fields))) ++ [LF; LF].
Definition ex_body : jsstr :=
  sse "message_start" [] ++ sse "content_block_start" [("index"%string, JNum (js "0")); ("block"%string, JObj [(js "type", JStr (js "text"))])] ++
  sse "content_block_delta" [("index"%string, JNum (js "0")); ("text"%string, JStr (js "Hi"))] ++ js ": ping" ++ [LF; LF] ++
  sse "content_block_stop" [("index"%string, JNum (js "0"))] ++ sse "message_delta" [("stop_reason"%string, JStr (js "end_turn"))] ++ sse "message_stop" [].
Definition last_push (ps : list push) : option (StopReason * list Block) := match last ps with Some (PDone r m) | Some (PError r m) => Some (r, content m) | _ => None end.
Example text_response : last_push (ex_stream [take 70 ex_body; drop 70 ex_body]) = Some (Stop, [BText (js "Hi") None]).
Proof. vm_compute. reflexivity. Qed.
(** A body that ends before the message does is a failure; an empty body is an answer without content. *)
Example early_end : last_push (ex_stream [take 200 ex_body]) = Some (Error, [BText [] None]) /\ last_push (ex_stream []) = Some (Stop, []).
Proof. vm_compute. auto. Qed.
(** Arguments that come with the start of a call are replaced by the empty text of its deltas. *)
Example arguments_at_start_lost :
  let body := sse "message_start" [] ++
    sse "content_block_start" [("index"%string, JNum (js "0")); ("block"%string, JObj [(js "type", JStr (js "tool_use")); (js "name", JStr (js "edit")); (js "input", JObj [(js "path", JStr (js "a"))])])] ++
    sse "content_block_stop" [("index"%string, JNum (js "0"))] ++ sse "message_stop" [] in
  last_push (ex_stream [body]) = Some (Stop, [BToolCall (js "c") (js "edit") (JObj []) None None]).
Proof. vm_compute. reflexivity. Qed.
Lemma stream_settles_witness : exists updates last, ex_stream [ex_body] = [PStart] ++ updates ++ [last] /\ Forall (fun p => is_update p = true) updates.
Proof.
  destruct (stream_settles (fun _ => None) ex_view (fun _ => js "syntax") None ex_model false [] (Some false) None ((chunk <$> [ex_body]) ++ [body_end]) false) as (us & l & H & Hu & _); [right; reflexivity|].
  exists us, l. split; [exact H|exact Hu].
Defined.
