(* ===== verification/CompactStream.v ===== *)
(** * The compact stream of a response (modes/daemon/compact-session-stream.ts)

    While a message is streamed, the daemon sends its clients what is new instead of the message so far, and a client puts the message
    together again.

    [client_follows] says that it comes to the same: whatever the provider sends, and however late the daemon looks at the message it is sent with,
    every delta is understood, and the client's blocks are those of the message, but for signatures and what is still open.

    The client changes the blocks of its message in place, and the updates it has made before share them; here an update is the content at its moment. *)

(* Source aliases:
   CS = src/packages/coding-agent/src/modes/daemon/compact-session-stream.ts *)

From S2P Require Import Prelude JsString JsNumber JsMap Messages Json JsonRepair StreamFailure AnthropicStream.
Local Open Scope N_scope.

(** ** The deltas *)

(** CS 9-16 CompactAssistantDelta. Sequence numbers are left out. *)
Record CompactAssistantDelta := { activeSessionId : jsstr; assistantMessageEvent : update; contentStart : option Block; toolCallArguments : option json }.
(** [if (v)]. *)
Definition truthy_json (v : json) : bool :=
  match v with JNull => false | JBool b => b | JNum t => negb (jseqb t (js "0") || jseqb t (js "-0")) | JStr s => bool_decide (s <> []) | JArr _ | JObj _ => true end.
(** CS 41-50 compactToolCallArguments. *)
Definition compactToolCallArguments (message : list Block) (event : update) : option json :=
  match event with
  | toolcall_delta i _ => match message !! i with Some (BToolCall _ _ a _ _) => Some a | _ => None end
  | _ => None
  end.
(** CS 52-70 compactContentStart. *)
Definition compactContentStart (message : list Block) (event : update) : option Block :=
  match event with
  | text_start i => match message !! i with Some (BText _ x) => Some (BText [] x) | _ => None end
  | thinking_start i => match message !! i with Some (BThinking _ s r x) => Some (BThinking [] s r x) | _ => None end
  | toolcall_start i => match message !! i with Some (BToolCall id n _ p x) => Some (BToolCall id n (JObj []) p x) | _ => None end
  | _ => None
  end.
(** CS 18-39 createCompactAssistantDelta. Of an update of an assistant message; [message] is its content when the daemon looks at it. *)
Definition createCompactAssistantDelta (session : jsstr) (message : list Block) (event : update) : CompactAssistantDelta :=
  {| activeSessionId := session; assistantMessageEvent := event; contentStart := compactContentStart message event;
     toolCallArguments := match compactToolCallArguments message event with Some a => if truthy_json a then Some a else None | None => None end |}.

(** ** The client *)

(** The content of a message; an array that is assigned behind its end has holes. *)
Abbreviation slots := (list (option Block)).
Definition get_slot (i : nat) (c : slots) : option Block := mjoin (c !! i).
Definition set_slot (i : nat) (b : Block) (c : slots) : slots :=
  if (i <? length c)%nat then <[i := Some b]> c else c ++ replicate (i - length c) None ++ [Some b].
(** CS 72-74 CompactAssistantStreamReconstructor. *)
Record Reconstructor := { partialMessages : jsmap jsstr slots; toolCallJson : jsmap jsstr jsstr }.
Definition new_reconstructor : Reconstructor := {| partialMessages := []; toolCallJson := [] |}.
(** CS 197-199 CompactAssistantStreamReconstructor.toolCallKey. *)
Definition toolCallKey (session : jsstr) (i : nat) : jsstr := session ++ js ":" ++ show_N (N.of_nat i).
(** CS 188-195 CompactAssistantStreamReconstructor.clear. *)
Definition clear (session : jsstr) (r : Reconstructor) : Reconstructor :=
  {| partialMessages := JsMap.remove (partialMessages r) session; toolCallJson := filter (fun kv => starts_with (session ++ js ":") kv.1 = false) (toolCallJson r) |}.
(** CS 76-78 CompactAssistantStreamReconstructor.seed. *)
Definition seed (session : jsstr) (message : slots) (r : Reconstructor) : Reconstructor :=
  {| partialMessages := JsMap.set (partialMessages r) session message; toolCallJson := toolCallJson r |}.
(** What the client observes: a message begins or ends, a session is replaced, something else. *)
Inductive outbound := MessageStarts (session : jsstr) (assistant : bool) (message : slots) | MessageEnds (session : jsstr) | SessionGone (session : jsstr) | OtherOutbound.
(** CS 80-98 CompactAssistantStreamReconstructor.observe. *)
Definition observe (m : outbound) (r : Reconstructor) : Reconstructor :=
  match m with
  | SessionGone s => clear s r
  | MessageStarts s true message => seed s message r
  | MessageEnds s => clear s r
  | _ => r
  end.
(** The texts change. *)
Definition set_json (j : jsmap jsstr jsstr) (r : Reconstructor) : Reconstructor := {| partialMessages := partialMessages r; toolCallJson := j |}.

Section client.
Variable partialParse : jsstr -> option json.
(** CS 105-175 CompactAssistantStreamReconstructor.reconstruct. The content after the delta, with the texts of arguments; [None] where the delta is dropped. What is
    changed before is the content of an entry that is there, so that nothing is when the delta is dropped. *)
Definition apply_event (delta : CompactAssistantDelta) (c : slots) (texts : jsmap jsstr jsstr) : option (slots * jsmap jsstr jsstr) :=
  let key i := toolCallKey (activeSessionId delta) i in
  match assistantMessageEvent delta with
  | text_start i => Some (set_slot i (default (BText [] None) (contentStart delta)) c, texts)
  | text_delta i d => match get_slot i c with Some (BText t x) => Some (set_slot i (BText (t ++ d) x) c, texts) | _ => None end
  | text_end i t => match get_slot i c with Some (BText _ x) => Some (set_slot i (BText t x) c, texts) | _ => None end
  | thinking_start i => Some (set_slot i (default (BThinking [] [] false None) (contentStart delta)) c, texts)
  | thinking_delta i d => match get_slot i c with Some (BThinking t s r x) => Some (set_slot i (BThinking (t ++ d) s r x) c, texts) | _ => None end
  | thinking_end i t => match get_slot i c with Some (BThinking _ s r x) => Some (set_slot i (BThinking t s r x) c, texts) | _ => None end
  | toolcall_start i => match contentStart delta with Some (BToolCall _ _ _ _ _ as b) => Some (set_slot i b c, JsMap.set texts (key i) []) | _ => None end
  | toolcall_delta i d =>
      match get_slot i c with
      | Some (BToolCall id n _ p x) =>
          match toolCallArguments delta with
          | Some a => Some (set_slot i (BToolCall id n a p x) c, texts)
          | None =>
              let partialJson := default [] (JsMap.get texts (key i)) ++ d in
              Some (set_slot i (BToolCall id n (parseStreamingJson partialParse (Some partialJson)) p x) c, JsMap.set texts (key i) partialJson)
          end
      | _ => None
      end
  | toolcall_end i b => Some (set_slot i b c, JsMap.remove texts (key i))
  end.
(** CS 100-186 CompactAssistantStreamReconstructor.reconstruct. The content of the update that is made. *)
Definition reconstruct (delta : CompactAssistantDelta) (r : Reconstructor) : option slots * Reconstructor :=
  match JsMap.get (partialMessages r) (activeSessionId delta) with
  | None => (None, r)
  | Some c =>
      match apply_event delta c (toolCallJson r) with
      | None => (None, r)
      | Some (c, texts) => (Some c, {| partialMessages := JsMap.set (partialMessages r) (activeSessionId delta) c; toolCallJson := texts |})
      end
  end.
(** The deltas of a response, one after the other, and what the client makes of each. *)
Fixpoint follow (deltas : list CompactAssistantDelta) (r : Reconstructor) : list (option slots) * Reconstructor :=
  match deltas with
  | [] => ([], r)
  | delta :: deltas => let '(m, r) := reconstruct delta r in let '(ms, r) := follow deltas r in (m :: ms, r)
  end.
End client.

(** ** The client follows *)

Lemma get_set_here i b c : get_slot i (set_slot i b c) = Some b.
Proof.
  unfold get_slot, set_slot. destruct (i <? length c)%nat eqn:E; to_prop; [by rewrite list_lookup_insert_eq|]. rewrite lookup_app_r by lia. rewrite lookup_app_r by (rewrite length_replicate; lia).
  rewrite length_replicate. by replace (i - length c - (i - length c))%nat with 0%nat by lia.
Qed.
Lemma get_set_other i j b c : i <> j -> get_slot j (set_slot i b c) = get_slot j c.
Proof.
  intros Hn. unfold get_slot, set_slot. destruct (i <? length c)%nat eqn:E; to_prop; [by rewrite list_lookup_insert_ne|]. destruct (decide (j < length c)%nat) as [Hj|Hj]; [by rewrite lookup_app_l|].
  rewrite lookup_app_r by lia. rewrite (lookup_ge_None_2 c j) by lia. destruct (decide (j - length c < i - length c)%nat) as [Hl|Hl].
  - rewrite lookup_app_l by (by rewrite length_replicate). rewrite lookup_replicate_2 by lia. done.
  - rewrite lookup_app_r by (rewrite length_replicate; lia). rewrite length_replicate. by rewrite lookup_ge_None_2 by (cbn; lia).
Qed.

(** What stays of a block: its kind, and for a call its identifier and name. *)
Definition face (b : Block) : nat * jsstr * jsstr * bool :=
  match b with BText _ _ => (0%nat, [], [], false) | BThinking _ _ r _ => (1%nat, [], [], r) | BToolCall id n _ _ _ => (2%nat, id, n, false) end.
(** The message at some later time. *)
Definition later (c s : list Block) : Prop := forall i b, c !! i = Some b -> exists b', s !! i = Some b' /\ face b' = face b.
Lemma later_refl c : later c c.
Proof. intros i b H. by exists b. Qed.
Lemma later_trans c c1 c2 : later c c1 -> later c1 c2 -> later c c2.
Proof. intros H1 H2 i b Hb. destruct (H1 i b Hb) as (b1 & Hb1 & Hf1). destruct (H2 i b1 Hb1) as (b2 & Hb2 & Hf2). exists b2. split; [done|congruence]. Qed.
Lemma later_snoc c b : later c (c ++ [b]).
Proof. intros i x Hx. exists x. split; [by apply lookup_app_l_Some|done]. Qed.
Lemma later_insert c i b b' : c !! i = Some b -> face b' = face b -> later c (<[i := b']> c).
Proof.
  intros Hb Hf j x Hx. destruct (decide (i = j)) as [<-|Hn]; [|exists x; by rewrite list_lookup_insert_ne]. exists b'. rewrite list_lookup_insert_eq by (by eapply lookup_lt_Some). split; [done|congruence].
Qed.

(** What the client has of a block: everything but signatures, the text of reasoning that is hidden and the arguments of a call, which may differ while the block is open. *)
Definition shows (b b' : Block) : Prop :=
  match b, b' with
  | BText t _, BText t' _ => t' = t
  | BThinking t _ r x, BThinking t' _ r' _ => r' = r /\ (t' = t \/ (r = true /\ x <> None /\ t = js "[Reasoning redacted]" ++ t'))
  | BToolCall id n a _ x, BToolCall id' n' a' _ _ => id' = id /\ n' = n /\ (x = None -> a' = a)
  | _, _ => False
  end.
Definition follows (c : list Block) (k : slots) : Prop := forall i b, c !! i = Some b -> exists b', get_slot i k = Some b' /\ shows b b'.
Lemma follows_insert c k i b b' : follows c k -> shows b b' -> follows (<[i := b]> c) (set_slot i b' k).
Proof.
  intros H Hb j x Hx. destruct (decide (i = j)) as [<-|Hn].
  - apply list_lookup_insert_Some in Hx as [(_ & <- & _)|[]]; [|done]. exists b'. by rewrite get_set_here.
  - rewrite list_lookup_insert_ne in Hx by done. rewrite get_set_other by done. by apply H.
Qed.
Lemma follows_snoc c k b b' : follows c k -> shows b b' -> follows (c ++ [b]) (set_slot (length c) b' k).
Proof.
  intros H Hb j x Hx. apply lookup_app_Some in Hx as [Hx|[Hl Hx]].
  - rewrite get_set_other by (apply lookup_lt_Some in Hx; lia). by apply H.
  - destruct (j - length c)%nat as [|m] eqn:E; [|done]. injection Hx as <-. replace j with (length c) by lia. exists b'. by rewrite get_set_here.
Qed.

Section following.
Context (partialParse : jsstr -> option json) (model : Model) (isOAuth : bool) (tool_names : list jsstr) (cacheControl : option bool).
Abbreviation step := (process partialParse model isOAuth tool_names cacheControl).
Abbreviation steps := (process_all partialParse model isOAuth tool_names cacheControl).
Abbreviation put_together := (apply_event partialParse).
Abbreviation client_makes := (reconstruct partialParse).
Abbreviation client_all := (follow partialParse).

Lemma find_block_spec index c i b : find_block index c = Some (i, b) -> c !! i = Some b /\ block_index b = Some index.
Proof. intros (H1 & H2 & _)%list_find_Some. done. Qed.
Lemma process_later event o u o' e : step event o = (u, o', e) -> later (content o) (content o').
Proof.
  intros H. destruct event as [i r|i b|i d|i|reason r| |]; cbn [AnthropicStream.process] in H.
  - injection H as _ <- _. apply later_refl.
  - destruct (started_block _ _ _ _ _) as [[block v]|]; injection H as _ <- _; [apply later_snoc|apply later_refl].
  - destruct (find_block i (content o)) as [[k block]|] eqn:Ef; [|injection H as _ <- _; apply later_refl]. apply find_block_spec in Ef as [Hk _].
    destruct (apply_delta _ block d k) as [[block' v]|] eqn:Ed; injection H as _ <- _; [|apply later_refl]. apply (later_insert _ _ block); [done|]. destruct d, block; cbn in Ed; try done; by injection Ed as <- _.
  - destruct (find_block i (content o)) as [[k block]|] eqn:Ef; [|injection H as _ <- _; apply later_refl]. apply find_block_spec in Ef as [Hk _].
    destruct (stopped _ block k) as [block' v] eqn:Es. injection H as _ <- _. apply (later_insert _ _ block); [done|]. unfold stopped in Es. by destruct block; cbn in Es; injection Es as <- _.
  - destruct (some_text reason) as [t|]; [|injection H as _ <- _; apply later_refl]. destruct (mapStopReason t) as [s|x]; injection H as _ <- _; apply later_refl.
  - injection H as _ <- _; apply later_refl.
  - injection H as _ <- _; apply later_refl.
Qed.
(** One event of the provider. *)
Lemma process_follows event o u o' session s k texts : step event o = (u, o', None) -> follows (content o) k -> later (content o') s ->
  match u with
  | None => follows (content o') k
  | Some u => exists k' texts', put_together (createCompactAssistantDelta session s u) k texts = Some (k', texts') /\ follows (content o') k'
  end.
Proof.
  intros H Hk Hs. destruct event as [i r|i b|i d|i|reason r| |]; cbn [AnthropicStream.process] in H.
  - by injection H as <- <-.
  - destruct (started_block _ _ i b (length (content o))) as [[block v]|] eqn:Eb; injection H as <- <-; [|done]. cbn [content set_content] in *.
    destruct (Hs (length (content o)) block) as (b' & Hb' & Hf); [by rewrite lookup_app_r, Nat.sub_diag by lia|].
    destruct b; cbn in Eb; try done; injection Eb as <- <-; cbn in Hf; destruct b'; cbn in Hf; try done; unfold CompactStream.apply_event; cbn; rewrite Hb'; eexists _, _; (split; [done|]); apply follows_snoc; try done.
    + cbn. injection Hf as ->. split; [done|by left].
    + cbn. injection Hf as ->. split; [done|]. right. done.
    + cbn. injection Hf as -> ->. done.
  - destruct (find_block i (content o)) as [[j block]|] eqn:Ef; [|by injection H as <- <-]. apply find_block_spec in Ef as [Hj Hx]. destruct (Hk j block Hj) as (b' & Hb' & Hsh).
    destruct (apply_delta _ block d j) as [[block' v]|] eqn:Ed; injection H as <- <-; [|done]. cbn [content set_content] in *.
    destruct d, block; cbn in Ed; try done; injection Ed as <- <-; destruct b'; cbn in Hsh; try done; cbn in Hx.
    + subst. unfold CompactStream.apply_event. cbn [assistantMessageEvent createCompactAssistantDelta]. rewrite Hb'. eexists _, _. split; [done|]. by apply follows_insert.
    + destruct Hsh as [-> Hsh]. unfold CompactStream.apply_event. cbn [assistantMessageEvent createCompactAssistantDelta]. rewrite Hb'. eexists _, _. split; [done|]. apply follows_insert; [done|].
      cbn. split; [done|]. destruct Hsh as [->|(-> & Hn & ->)]; [by left|right; split_and!; [done|done|by rewrite (assoc_L (++))]].
    + destruct Hsh as (-> & -> & Hsh). unfold CompactStream.apply_event. cbn [assistantMessageEvent createCompactAssistantDelta]. rewrite Hb'. subst.
      destruct (toolCallArguments _); eexists _, _; (split; [done|]); by apply follows_insert.
    + destruct Hsh as [-> Hsh]. intros n x Hn. destruct (decide (n = j)) as [->|Hne]; [|rewrite list_lookup_insert_ne in Hn by done; by apply Hk].
      rewrite list_lookup_insert_eq in Hn by (by eapply lookup_lt_Some). injection Hn as <-. eexists. split; [exact Hb'|]. done.
  - destruct (find_block i (content o)) as [[j block]|] eqn:Ef; [|by injection H as <- <-]. apply find_block_spec in Ef as [Hj Hx]. destruct (Hk j block Hj) as (b' & Hb' & Hsh).
    destruct (stopped _ block j) as [block' v] eqn:Es. injection H as <- <-. cbn [content set_content] in *. unfold stopped in Es.
    destruct block; cbn in Es; injection Es as <- <-; destruct b'; cbn in Hsh; try done; unfold CompactStream.apply_event; cbn [assistantMessageEvent createCompactAssistantDelta]; rewrite ?Hb'; eexists _, _; (split; [done|]); apply follows_insert; try done.
    destruct Hsh as [-> _]. cbn. split; [done|by left].
  - destruct (some_text reason) as [t|]; [|by injection H as <- <-]. destruct (mapStopReason t) as [r'|x]; [|done]. by injection H as <- <-.
  - by injection H as <- <-.
  - by injection H as <- <-.
Qed.

(** An update that is pushed, and the message when the daemon looks at it. *)
Definition seen (p : push) (s : list Block) : Prop := match p with PUpdate _ c => later c s | _ => False end.
Definition delta_of (session : jsstr) (p : push) (s : list Block) : list CompactAssistantDelta :=
  match p with PUpdate u _ => [createCompactAssistantDelta session s u] | _ => [] end.
Definition deltas (session : jsstr) (pushes : list push) (snapshots : list (list Block)) : list CompactAssistantDelta := concat (zip_with (delta_of session) pushes snapshots).
(** The client has understood an update. *)
Definition understood (p : push) (m : option slots) : Prop := match p, m with PUpdate _ c, Some k => follows c k | _, _ => False end.
Lemma process_throw event o u o' e : step event o = (u, o', Some e) -> content o' = content o.
Proof.
  intros H. destruct event as [i r|i b|i d|i|reason r| |]; cbn [AnthropicStream.process] in H; try done.
  - by destruct (started_block _ _ _ _ _) as [[block v]|].
  - destruct (find_block i (content o)) as [[k block]|]; [|done]. by destruct (apply_delta _ block d k) as [[block' v]|].
  - destruct (find_block i (content o)) as [[k block]|]; [|done]. by destruct (stopped _ block k).
  - destruct (some_text reason) as [t|]; [|done]. destruct (mapStopReason t); [done|]. by injection H as _ <- _.
Qed.
Lemma follow_process events last o pushes o' last' snapshots session k r : steps events last o = (pushes, o', last') -> Forall2 seen pushes snapshots ->
  JsMap.get (partialMessages r) session = Some k -> follows (content o) k ->
  let '(shown, r') := client_all (deltas session pushes snapshots) r in Forall2 understood pushes shown /\ exists k', JsMap.get (partialMessages r') session = Some k' /\ follows (content o') k'.
Proof.
  revert o pushes snapshots k r. induction events as [|event events IH]; intros o pushes snapshots k r H Hs Hr Hk; cbn [AnthropicStream.process_all] in H.
  - injection H as <- <- <-. inversion Hs. cbn. split; [constructor|]. by exists k.
  - destruct (step event o) as [[u o1] [e|]] eqn:E; [injection H as <- <- <-; inversion Hs; cbn; split; [constructor|exists k; by rewrite (process_throw _ _ _ _ _ E)]|].
    destruct (steps events last o1) as [[pushes1 o2] last2] eqn:Eall. injection H as <- <- <-. pose proof (process_follows event o u o1 session) as Hstep.
    destruct u as [u|]; cbn [app] in Hs.
    + inversion Hs as [|? s ? snaps Hlater Hs']; subst. cbn [seen] in Hlater. destruct (Hstep s k (toolCallJson r) E Hk Hlater) as (k' & texts' & Hev & Hk'). cbn [deltas zip_with concat delta_of app CompactStream.follow].
      unfold CompactStream.reconstruct at 1. cbn [activeSessionId createCompactAssistantDelta] in Hev |- *. rewrite Hr, Hev. set (r1 := {| partialMessages := _; toolCallJson := _ |}).
      specialize (IH o1 pushes1 snaps k' r1 Eall Hs'). fold (deltas session pushes1 snaps). destruct (client_all (deltas session pushes1 snaps) r1) as [shown r']. destruct IH as [H1 H2]; [cbn; by rewrite get_set, decide_True|done|].
      split; [by constructor|done].
    + apply (IH o1 pushes1 snapshots k r Eall Hs Hr). exact (Hstep (content o1) k [] E Hk (later_refl _)).
Qed.
(** What a block says when it is whole. *)
Definition plain (b : Block) : nat * jsstr * jsstr * bool * json :=
  (face b, match b with BText t _ | BThinking t _ _ _ => JStr t | BToolCall _ _ a _ _ => a end).
Lemma shows_plain b b' : shows b b' -> block_index b = None -> plain b' = plain b.
Proof.
  destruct b as [t x|t s r x|id n a p x], b' as [t' x'|t' s' r' x'|id' n' a' p' x']; cbn; try done.
  - by intros ->.
  - intros [-> [->|(_ & Hx & _)]] Hn; [done|congruence].
  - intros (-> & -> & Ha) Hn. by rewrite Ha.
Qed.
(** C11. A client that was told of the beginning of a message makes a message of every delta of a response, whatever the events of the provider and whatever message, of that moment or later,
    the deltas were made with. After each the client's blocks follow those of the message, and what is whole in the end says the same. *)
Theorem client_follows (events : list RawEvent) (last last' : sse_end) (pushes : list push) (o : Output) (snapshots : list (list Block)) (session : jsstr) (begun : slots) (r : Reconstructor)
    (Hp : steps events last (output_start model cacheControl) = (pushes, o, last')) (Hs : Forall2 seen pushes snapshots) :
  let '(shown, r') := client_all (deltas session pushes snapshots) (observe (MessageStarts session true begun) r) in
  Forall2 understood pushes shown /\
  exists k, JsMap.get (partialMessages r') session = Some k /\
    forall i b, content o !! i = Some b -> exists b', get_slot i k = Some b' /\ shows b b' /\ (block_index b = None -> plain b' = plain b).
Proof.
  pose proof (follow_process events last (output_start model cacheControl) pushes o last' snapshots session begun (observe (MessageStarts session true begun) r) Hp Hs) as H.
  destruct (client_all _ _) as [shown r']. destruct H as [H1 (k & Hk & Hf)]; [cbn; by rewrite get_set, decide_True|by intros i b Hb|]. split; [done|]. exists k. split; [done|].
  intros i b Hb. destruct (Hf i b Hb) as (b' & Hb' & Hsh). exists b'. split_and!; [done|done|]. by apply shows_plain.
Qed.
End following.

(** ** Examples *)

Definition ex_events : list RawEvent :=
  [MessageStart (js "m") no_usage; ContentBlockStart 0 (RRedacted (js "x")); ContentBlockStop 0; ContentBlockStart 1 RText; ContentBlockDelta 1 (DText (js "Hi")); ContentBlockStop 1;
   ContentBlockStart 2 (RToolUse (js "c") (js "edit") None); ContentBlockDelta 2 (DInputJson (js "{}")); ContentBlockStop 2].
Definition ex_run := process_all (fun _ => None) ex_model false [] (Some false) ex_events SseDone (output_start ex_model (Some false)).
(** The last message, at which the daemon looks every time. *)
Definition ex_snapshots : list (list Block) := (fun _ => content ex_run.1.2) <$> ex_run.1.1.
(** Every push is an update, and the last message has all its blocks. *)
Lemma seen_check (pushes : list push) (s : list Block) :
  forallb (fun p => match p with PUpdate _ c => bool_decide (face <$> c = take (length c) (face <$> s)) | _ => false end) pushes = true -> Forall2 seen pushes ((fun _ => s) <$> pushes).
Proof.
  induction pushes as [|p ps IH]; [constructor|]. cbn [forallb]. intros [Hp Hps]%andb_true_iff. rewrite fmap_cons. constructor; [|by apply IH]. destruct p as [|u c| |]; try done.
  apply bool_decide_eq_true in Hp. intros i b Hb. assert (Hi : (face <$> s) !! i = Some (face b)).
  { rewrite <- (lookup_take_lt _ (length c)) by (by eapply lookup_lt_Some). rewrite <- Hp. rewrite list_lookup_fmap. by rewrite Hb. }
  rewrite list_lookup_fmap in Hi. destruct (s !! i) as [b'|]; [|done]. exists b'. split; [done|]. by injection Hi.
Qed.
Definition ex_new : Reconstructor := observe (MessageStarts (js "s") true []) new_reconstructor.
Lemma client_follows_witness : exists k, JsMap.get (partialMessages (follow (fun _ => None) (deltas (js "s") ex_run.1.1 ex_snapshots) ex_new).2) (js "s") = Some k /\
  get_slot 1 k = Some (BText (js "Hi") None).
Proof.
  pose proof (client_follows (fun _ => None) ex_model false [] (Some false) ex_events SseDone ex_run.2 ex_run.1.1 ex_run.1.2 ex_snapshots (js "s") [] new_reconstructor) as H.
  destruct H as [_ (k & Hk & _)].
  - vm_compute. reflexivity.
  - apply seen_check. vm_compute. reflexivity.
  - exists k. split; [exact Hk|]. vm_compute in Hk. injection Hk as <-. vm_compute. reflexivity.
Defined.
(** Reasoning that is hidden is shown as empty until it ends. *)
Example redacted_shown_late : forall shown, shown = (follow (fun _ => None) (deltas (js "s") ex_run.1.1 ex_snapshots) ex_new).1 ->
  (fun m => from_option (get_slot 0) None m) <$> take 2 shown = [Some (BThinking [] (js "x") true None); Some (BThinking (js "[Reasoning redacted]") (js "x") true None)].
Proof. intros shown ->. vm_compute. reflexivity. Qed.
(** A delta of a session whose message the client has not seen begin is dropped. *)
Example unknown_session_dropped : (reconstruct (fun _ => None) (createCompactAssistantDelta (js "s") [] (text_start 0)) new_reconstructor).1 = None.
Proof. reflexivity. Qed.
