(* ===== verification/SpawnLedger.v ===== *)
(** * The ledger of spawned sessions (modes/daemon/rlm-ledger.ts)

    One append-only log per sessions directory says which session spawned
    which, at which depth and under which name; renames and tombstones follow
    the spawns. The family of the directory is read back from the log alone.
    The file is an [EventLog]; its edges are cached behind the file's stat. *)

(* Source aliases:
   RL = src/packages/coding-agent/src/modes/daemon/rlm-ledger.ts
   SL = src/packages/coding-agent/src/core/session-lease.ts *)

From S2P Require Import Prelude JsString JsNumber JsMap Messages Json FileLog IntegerText CommandJournal EventLog.
Local Open Scope Z_scope.

(** ** Records *)

(** RL 41-42 RLM_LEDGER_MAX_BYTES. *)
Definition RLM_LEDGER_MAX_BYTES : Z := 32 * 1024 * 1024.
Definition RLM_LEDGER_MAX_RECORDS : Z := 100000.
Definition LEDGER_OPTIONS : EventLogOptions := {| maxBytes := Some RLM_LEDGER_MAX_BYTES; maxRecords := Some RLM_LEDGER_MAX_RECORDS |}.

(** RL 45-45 RlmLedgerDeleteReason. *)
Inductive delete_reason := DUser | DParentTeardown | DRevoked | DGc.
Definition reason_text (r : delete_reason) : jsstr :=
  match r with DUser => js "user" | DParentTeardown => js "parent-teardown" | DRevoked => js "revoked" | DGc => js "gc" end.

(** RL 47-83 RlmLedgerRecord. Every record has [v: 1] and [at]. *)
Inductive ledger_record :=
| RMeta (at_ sessionsDir : jsstr)
| RSpawn (at_ childId parent child : jsstr) (depth : Z) (name : jsstr)
| RRename (at_ childId child name : jsstr)
| RDelete (at_ childId child : jsstr) (reason : delete_reason).

(** RL 86-93 RlmLedgerEdge. *)
Record edge := { e_childId : jsstr; e_parent : jsstr; e_child : jsstr; e_depth : Z; e_name : jsstr; e_deleted : option delete_reason }.

(** RL 365-372 appendRename. The record as it is written, its keys in the order of the object literals. *)
Definition record_json (r : ledger_record) : json :=
  JObj ((js "v", JNum (show_Z 1)) :: match r with
    | RMeta at_ dir => [(js "op", JStr (js "meta")); (js "at", JStr at_); (js "sessionsDir", JStr dir)]
    | RSpawn at_ childId parent child depth name =>
        [(js "op", JStr (js "spawn")); (js "at", JStr at_); (js "childId", JStr childId); (js "parent", JStr parent); (js "child", JStr child);
         (js "depth", JNum (show_Z depth)); (js "name", JStr name)]
    | RRename at_ childId child name =>
        [(js "op", JStr (js "rename")); (js "at", JStr at_); (js "childId", JStr childId); (js "child", JStr child); (js "name", JStr name)]
    | RDelete at_ childId child reason =>
        [(js "op", JStr (js "delete")); (js "at", JStr at_); (js "childId", JStr childId); (js "child", JStr child); (js "reason", JStr (reason_text reason))]
    end).

(** RL 216-218 isDeleteReason. *)
Definition isDeleteReason (v : option json) : option delete_reason :=
  if is_text "user" v then Some DUser else if is_text "parent-teardown" v then Some DParentTeardown
  else if is_text "revoked" v then Some DRevoked else if is_text "gc" v then Some DGc else None.

(** RL 261-269 parseLedgerLine. The checks of [spawn]'s depth. *)
Definition spawn_depth (v : option json) : option Z :=
  match v with
  | Some (JNum t) => match safe_integer (Number t) with Some d => if d <? 1 then None else Some d | None => None end
  | _ => None
  end.

(** RL 237-288 parseLedgerLine. What follows [JSON.parse]; [None] throws, [Some None] is an unknown operation. *)
Definition parse_record (record : json) : option (option ledger_record) :=
  if negb (is_one (prop record "v")) then None
  else match prop record "at" with
  | Some (JStr at_) =>
      let op := prop record "op" in
      if is_text "meta" op then
        match prop record "sessionsDir" with Some (JStr dir) => Some (Some (RMeta at_ dir)) | _ => None end
      else if is_text "spawn" op then
        match prop record "childId", prop record "parent", prop record "child", prop record "name", spawn_depth (prop record "depth") with
        | Some (JStr childId), Some (JStr parent), Some (JStr child), Some (JStr name), Some depth =>
            Some (Some (RSpawn at_ childId parent child depth name))
        | _, _, _, _, _ => None
        end
      else if is_text "rename" op then
        match prop record "childId", prop record "child", prop record "name" with
        | Some (JStr childId), Some (JStr child), Some (JStr name) => Some (Some (RRename at_ childId child name))
        | _, _, _ => None
        end
      else if is_text "delete" op then
        match prop record "childId", prop record "child", isDeleteReason (prop record "reason") with
        | Some (JStr childId), Some (JStr child), Some reason => Some (Some (RDelete at_ childId child reason))
        | _, _, _ => None
        end
      else Some None
  | _ => None
  end.
(** RL 228-236 parseLedgerLine. *)
Definition parseLedgerLine (line : jsstr) (_ : nat) : option (option ledger_record) :=
  match JSON_parse line with None => None | Some parsed => parse_record parsed end.

(** ** Paths *)

Section paths.
(** Node's [path] and [fs.realpathSync]; a path that does not resolve is an error there. *)
Variables (resolve dirname basename : jsstr -> jsstr) (join_path : jsstr -> jsstr -> jsstr) (realpathSync : jsstr -> option jsstr).

(** SL 73-84 canonicalSessionPath. *)
Definition canonicalSessionPath (sessionPath : jsstr) : jsstr :=
  let resolvedPath := resolve sessionPath in
  match realpathSync resolvedPath with
  | Some real => real
  | None => match realpathSync (dirname resolvedPath) with Some dir => join_path dir (basename resolvedPath) | None => resolvedPath end
  end.

(** RL 197-204 canonicalizeDirPath. *)
Definition canonicalizeDirPath (dir : jsstr) : jsstr := let resolved := resolve dir in default resolved (realpathSync resolved).

(** RL 206-210 rlmLedgerPath. [sha256] is the hash in hexadecimal digits. *)
Definition rlmLedgerPath (sha256 : jsstr -> jsstr) (agentDir sessionsDir : jsstr) : jsstr :=
  join_path (join_path agentDir (js "rlm-ledger")) (take 16 (sha256 (canonicalizeDirPath sessionsDir)) ++ js ".jsonl").

(** What Node documents: resolved and real paths are absolute and normal, and a real path has no links in it. *)
Record path_laws := {
  resolve_idem p : resolve (resolve p) = resolve p;
  real_resolved p r : realpathSync p = Some r -> resolve r = r;
  real_idem p r : realpathSync p = Some r -> realpathSync r = Some r;
  join_resolved d b : resolve d = d -> resolve (join_path d b) = join_path d b;
  join_parts p d : realpathSync p = None -> realpathSync (dirname p) = Some d ->
    dirname (join_path d (basename p)) = d /\ basename (join_path d (basename p)) = basename p /\ realpathSync (join_path d (basename p)) = None;
}.

Lemma canonical_idem (L : path_laws) p : canonicalSessionPath (canonicalSessionPath p) = canonicalSessionPath p.
Proof.
  unfold canonicalSessionPath at 2 3. destruct (realpathSync (resolve p)) as [r|] eqn:Er.
  - unfold canonicalSessionPath. by rewrite (real_resolved L _ _ Er), (real_idem L _ _ Er).
  - destruct (realpathSync (dirname (resolve p))) as [d|] eqn:Ed.
    + destruct (join_parts L _ _ Er Ed) as (Hd & Hb & Hn). unfold canonicalSessionPath.
      rewrite (join_resolved L) by apply (real_resolved L _ _ Ed). by rewrite Hn, Hd, (real_idem L _ _ Ed), Hb.
    + unfold canonicalSessionPath. by rewrite (resolve_idem L), Er, Ed.
Qed.
End paths.

(** ** The cache of canonical paths *)

(** RL 290-292 canonicalSessionPathCache. *)
Definition CANONICAL_SESSION_PATH_CACHE_LIMIT : Z := 4096.
Definition CANONICAL_SESSION_PATH_CACHE_TTL_MS : Z := 60000.
Record cached_path := { cp_value : jsstr; expiresAt : Z }.

(** RL 297-315 cachedCanonicalSessionPath. [canon] is [canonicalSessionPath] at this moment, [key] is the resolved path. *)
Definition cachedCanonicalSessionPath (canon : jsstr -> jsstr) (now : Z) (key : jsstr) (cache : jsmap jsstr cached_path) : jsstr * jsmap jsstr cached_path :=
  let fill (cache : jsmap jsstr cached_path) :=
    let value := canon key in
    let cache := if CANONICAL_SESSION_PATH_CACHE_LIMIT <=? Z.of_nat (length cache)
                 then match cache with (oldestKey, _) :: _ => remove cache oldestKey | [] => cache end else cache in
    (value, set cache key {| cp_value := value; expiresAt := now + CANONICAL_SESSION_PATH_CACHE_TTL_MS |}) in
  match get cache key with
  | Some cached =>
      let cache := remove cache key in
      if now <? expiresAt cached then (cp_value cached, set cache key cached) else fill cache
  | None => fill cache
  end.

(** ** Edges *)

Section ledger.
(** [canonicalSessionPath], and the canonical sessions directory. *)
Variables (canon : jsstr -> jsstr) (canonicalSessionsDir : jsstr).

(** RL 317-320 edgeKey. *)
Definition edgeKey (childId child : jsstr) : jsstr := childId ++ [0%N] ++ canon child.

(** The edges in the order of their keys, and the fields that are assigned. *)
Definition edge_map := jsmap jsstr edge.
Definition with_name (name : jsstr) (e : edge) : edge :=
  {| e_childId := e_childId e; e_parent := e_parent e; e_child := e_child e; e_depth := e_depth e; e_name := name; e_deleted := e_deleted e |}.
Definition with_deleted (reason : delete_reason) (e : edge) : edge :=
  {| e_childId := e_childId e; e_parent := e_parent e; e_child := e_child e; e_depth := e_depth e; e_name := e_name e; e_deleted := Some reason |}.
Definition is_live (e : edge) : bool := match e_deleted e with None => true | Some _ => false end.

(** RL 889-899 edgeForKey. The only edge with the id; the position of an edge is its key. *)
Fixpoint sole_edge (edges : edge_map) (childId : jsstr) (sole : option jsstr) : option jsstr :=
  match edges with
  | [] => sole
  | (k, e) :: rest =>
      if negb (jseqb (e_childId e) childId) then sole_edge rest childId sole
      else match sole with Some _ => None | None => sole_edge rest childId (Some k) end
  end.
Definition edgeForKey (edges : edge_map) (key childId : jsstr) : option jsstr :=
  if has edges key then Some key else sole_edge edges childId None.

(** The assignment to a field of an edge of the map. *)
Definition assign (f : edge -> edge) (edges : edge_map) (k : option jsstr) : edge_map :=
  match k with Some k => (fun p => if decide (p.1 = k) then (p.1, f p.2) else p) <$> edges | None => edges end.

(** RL 852-876 replaySync. One record. *)
Definition apply_record (edges : edge_map) (record : ledger_record) : edge_map :=
  match record with
  | RMeta _ _ => edges
  | RSpawn _ childId parent child depth name =>
      set edges (edgeKey childId child)
        {| e_childId := childId; e_parent := parent; e_child := child; e_depth := depth; e_name := name; e_deleted := None |}
  | RRename _ childId child name => assign (with_name name) edges (edgeForKey edges (edgeKey childId child) childId)
  | RDelete _ childId child reason => assign (with_deleted reason) edges (edgeForKey edges (edgeKey childId child) childId)
  end.
Definition replay_edges (records : list ledger_record) : edge_map := foldl apply_record [] records.

(** What an operation throws. *)
Inductive ledger_error :=
| LogError (e : log_error)
| InvalidSpawn (childId : jsstr)
| DuplicateChild (childPath childId : jsstr).

(** RL 843-878 replaySync. *)
Definition replaySync (f : file) : edge_map + ledger_error :=
  match EventLog.replaySync LEDGER_OPTIONS parseLedgerLine false f with inl records => inl (replay_edges records) | inr e => inr (LogError e) end.

(** ** The ledger *)

(** A file and what [stat] tells of it. *)
Record disk := { d_file : file; d_mtime : Z; d_ino : Z }.
Record file_stat := { size : Z; mtimeMs : Z; ino : Z }.
#[global] Instance file_stat_eq : EqDecision file_stat.
Proof. solve_decision. Defined.
Definition statSync (d : disk) : option file_stat :=
  match d_file d with Some bytes => Some {| size := Z.of_nat (length bytes); mtimeMs := d_mtime d; ino := d_ino d |} | None => None end.

(** RL 328-353 RlmSpawnLedger. *)
Record ledger := { l_disk : disk; seedAttempted : bool; edgeCache : option (file_stat * edge_map) }.
(** Updates. *)
Definition set_disk (d : disk) (l : ledger) : ledger := {| l_disk := d; seedAttempted := seedAttempted l; edgeCache := edgeCache l |}.
Definition set_cache (c : option (file_stat * edge_map)) (l : ledger) : ledger := {| l_disk := l_disk l; seedAttempted := seedAttempted l; edgeCache := c |}.

(** RL 818-841 replaySyncCached. *)
Definition replaySyncCached (l : ledger) : (edge_map + ledger_error) * ledger :=
  let snapshot := statSync (l_disk l) in
  let fresh :=
    match replaySync (d_file (l_disk l)) with
    | inl edges => (inl edges, match snapshot with Some st => set_cache (Some (st, edges)) l | None => l end)
    | inr e => (inr e, l)
    end in
  match snapshot, edgeCache l with
  | Some st, Some (cst, edges) => if decide (cst = st) then (inl edges, l) else fresh
  | _, _ => fresh
  end.

(** What an append finds: the time, whether a rival is writing, how many bytes the write gets out, and the file's stat after. *)
Record tick := { t_at : jsstr; t_stable : bool; t_written : nat; t_mtime : Z; t_ino : Z }.

(** The file after a write: its inode is new when the file is. *)
Definition touch (t : tick) (f : file) (d : disk) : disk :=
  if decide (f = d_file d) then d
  else {| d_file := f; d_mtime := t_mtime t; d_ino := match d_file d with Some _ => d_ino d | None => t_ino t end |}.

(** RL 798-808 appendRecord. *)
Definition appendRecord (t : tick) (record : ledger_record) (l : ledger) : option ledger_error * ledger :=
  let '(e, f) := appendSync LEDGER_OPTIONS [record_json record] [record_json (RMeta (t_at t) canonicalSessionsDir)]
                   (t_stable t) (t_written t) (d_file (l_disk l)) in
  let l := set_disk (touch t f (l_disk l)) l in
  match e with Some e => (Some (LogError e), l) | None => (None, set_cache None l) end.

(** RL 359-361 appendSpawn. Its argument; the depth is any number. *)
Record spawn_input := { in_childId : jsstr; in_parent : jsstr; in_child : jsstr; in_depth : num; in_name : jsstr }.
(** A string that is truthy. *)
Definition nonempty (s : jsstr) : bool := match s with [] => false | _ => true end.

(** RL 521-525 appendSpawnUnlocked. The live edge that holds the path under another id. *)
Definition holder (edges : edge_map) (childPath childId : jsstr) : option edge :=
  head (filter (fun e => is_live e && jseqb (canon (e_child e)) childPath && negb (jseqb (e_childId e) childId)) edges.*2).

(** RL 503-536 appendSpawnUnlocked. *)
Definition appendSpawn (t : tick) (input : spawn_input) (l : ledger) : option ledger_error * ledger :=
  match nonempty (in_childId input) && nonempty (in_parent input) && nonempty (in_child input), safe_integer (in_depth input) with
  | true, Some depth =>
      if depth <? 1 then (Some (InvalidSpawn (in_childId input)), l)
      else
        let childPath := canon (in_child input) in
        match replaySyncCached l with
        | (inr e, l) => (Some e, l)
        | (inl edges, l) =>
            match holder edges childPath (in_childId input) with
            | Some e => (Some (DuplicateChild childPath (e_childId e)), l)
            | None => appendRecord t (RSpawn (t_at t) (in_childId input) (canon (in_parent input)) childPath depth (in_name input)) l
            end
        end
  | _, _ => (Some (InvalidSpawn (in_childId input)), l)
  end.

(** RL 363-374 appendRename. *)
Definition appendRename (t : tick) (childId child name : jsstr) (l : ledger) : option ledger_error * ledger :=
  appendRecord t (RRename (t_at t) childId (canon child) name) l.

(** RL 388-399 appendDelete. *)
Definition appendDelete (t : tick) (childId child : jsstr) (reason : delete_reason) (l : ledger) : option ledger_error * ledger :=
  appendRecord t (RDelete (t_at t) childId (canon child) reason) l.

(** One append after another, each at its own moment; the first error ends it. *)
Fixpoint append_all (ts : nat -> tick) (records : list (tick -> ledger_record)) (l : ledger) : option ledger_error * ledger :=
  match records with
  | r :: rs => match appendRecord (ts 0%nat) (r (ts 0%nat)) l with (None, l) => append_all (fun k => ts (S k)) rs l | failed => failed end
  | [] => (None, l)
  end.

(** RL 377-386 appendRenameByChildPath. *)
Definition appendRenameByChildPath (ts : nat -> tick) (child name : jsstr) (l : ledger) : option ledger_error * ledger :=
  let target := canon child in
  match replaySyncCached l with
  | (inr e, l) => (Some e, l)
  | (inl edges, l) =>
      append_all ts ((fun e t => RRename (t_at t) (e_childId e) target name) <$>
        filter (fun e => is_live e && jseqb (canon (e_child e)) target) edges.*2) l
  end.

(** RL 412-416 edges. *)
Definition edges (includeDeleted : bool) (l : ledger) : (list edge + ledger_error) * ledger :=
  match replaySyncCached l with
  | (inl m, l) => (inl (filter (fun e => includeDeleted || is_live e) m.*2), l)
  | (inr e, l) => (inr e, l)
  end.

(** RL 943-965 tombstoneSavedSessionDelete. [known] is the kind of the session if a summary is known, [header] what
    its file says of a parent and a depth, if it can be read. Its queued operations run one after another. *)
Definition tombstoneSavedSessionDelete (ts : nat -> tick) (sessionPath : jsstr) (known : option bool) (header : option (bool * Z)) (l : ledger)
    : (option edge + ledger_error) * ledger :=
  let deletedPath := canon sessionPath in
  let knownChild := bool_decide (known = Some true) || match header with Some (parented, depth) => parented || (0 <? depth) | None => false end in
  let positivelyTopLevel := negb knownChild && (match known with Some _ => true | None => false end || match header with Some _ => true | None => false end) in
  if positivelyTopLevel then (inl None, l)
  else match edges false l with
  | (inr e, l) => (inr e, l)
  | (inl es, l) =>
      let matching := filter (fun e => jseqb (canon (e_child e)) deletedPath) es in
      match append_all ts ((fun e t => RDelete (t_at t) (e_childId e) (canon (e_child e)) DUser) <$> matching) l with
      | (Some e, l) => (inr e, l)
      | (None, l) => (inl (head matching), l)
      end
  end.

(** ** Operations of several processes *)

(** Each process has a ledger of its own over the one file. *)
Record world := { w_disk : disk; w_cache : nat -> option (file_stat * edge_map) }.
Definition ledger_of (i : nat) (w : world) : ledger := {| l_disk := w_disk w; seedAttempted := true; edgeCache := w_cache w i |}.
Definition after (i : nat) (l : ledger) (w : world) : world :=
  {| w_disk := l_disk l; w_cache := fun j => if Nat.eqb j i then edgeCache l else w_cache w j |}.

Inductive op :=
| OSpawn (t : tick) (input : spawn_input)
| ORename (t : tick) (childId child name : jsstr)
| ORenamePath (ts : nat -> tick) (child name : jsstr)
| ODelete (t : tick) (childId child : jsstr) (reason : delete_reason)
| OTombstone (ts : nat -> tick) (sessionPath : jsstr) (known : option bool) (header : option (bool * Z)).

Definition run_op (o : op) (l : ledger) : option ledger_error * ledger :=
  match o with
  | OSpawn t input => appendSpawn t input l
  | ORename t childId child name => appendRename t childId child name l
  | ORenamePath ts child name => appendRenameByChildPath ts child name l
  | ODelete t childId child reason => appendDelete t childId child reason l
  | OTombstone ts path known header =>
      match tombstoneSavedSessionDelete ts path known header l with (inl _, l) => (None, l) | (inr e, l) => (Some e, l) end
  end.
Definition run (i : nat) (o : op) (w : world) : option ledger_error * world :=
  let '(e, l) := run_op o (ledger_of i w) in (e, after i l w).

(** ** What an operation promises *)

Definition live_at (path : jsstr) (m : edge_map) : list edge := filter (fun e => is_live e && jseqb (canon (e_child e)) path) m.*2.
Definition at_ticks (ts : nat -> tick) (rs : list (tick -> ledger_record)) : list ledger_record := imap (fun k r => r (ts k)) rs.

(** The records an operation writes when the edges are [m], or its error. *)
Definition decide_op (o : op) (m : edge_map) : ledger_error + list ledger_record :=
  match o with
  | OSpawn t input =>
      match nonempty (in_childId input) && nonempty (in_parent input) && nonempty (in_child input), safe_integer (in_depth input) with
      | true, Some depth =>
          if depth <? 1 then inl (InvalidSpawn (in_childId input))
          else match holder m (canon (in_child input)) (in_childId input) with
               | Some e => inl (DuplicateChild (canon (in_child input)) (e_childId e))
               | None => inr [RSpawn (t_at t) (in_childId input) (canon (in_parent input)) (canon (in_child input)) depth (in_name input)]
               end
      | _, _ => inl (InvalidSpawn (in_childId input))
      end
  | ORename t childId child name => inr [RRename (t_at t) childId (canon child) name]
  | ORenamePath ts child name =>
      inr (at_ticks ts ((fun e t => RRename (t_at t) (e_childId e) (canon child) name) <$> live_at (canon child) m))
  | ODelete t childId child reason => inr [RDelete (t_at t) childId (canon child) reason]
  | OTombstone ts path known header =>
      let child := bool_decide (known = Some true) || match header with Some (parented, depth) => parented || (0 <? depth) | None => false end in
      if negb child && (match known with Some _ => true | None => false end || match header with Some _ => true | None => false end)
      then inr []
      else inr (at_ticks ts ((fun e t => RDelete (t_at t) (e_childId e) (canon (e_child e)) DUser) <$> live_at (canon path) m))
  end.
Definition op_tick (o : op) (k : nat) : tick :=
  match o with OSpawn t _ | ORename t _ _ _ | ODelete t _ _ _ => t | ORenamePath ts _ _ | OTombstone ts _ _ _ => ts k end.

(** ** Records are read as they were written *)

Definition record_ok (r : ledger_record) : Prop :=
  match r with
  | RMeta a d => js_wf a /\ js_wf d
  | RSpawn a i p c d n => js_wf a /\ js_wf i /\ js_wf p /\ js_wf c /\ 1 <= d <= MAX_SAFE_INTEGER /\ js_wf n
  | RRename a i c n => js_wf a /\ js_wf i /\ js_wf c /\ js_wf n
  | RDelete a i c _ => js_wf a /\ js_wf i /\ js_wf c
  end.

Lemma is_text_refl s t : is_text s (Some (JStr t)) = jseqb t (js s).
Proof. done. Qed.

Lemma record_object r : record_ok r -> json_ok (record_json r) /\ is_obj (record_json r) = true.
Proof.
  intros H. split; [|done]. assert (H1 : json_ok (JNum (show_Z 1))) by apply (show_N_ok 1).
  assert (Hw : forall s, forallb (fun u => (u <? 0x10000)%N) (js s) = true -> js_wf (js s)) by (intros; by apply js_wf_check).
  destruct r as [a d|a i p c d n|a i c n|a i c r]; cbn in H; destruct_and?.
  all: apply ok_obj; [apply (bool_decide_unpack _); vm_compute; done|repeat (apply Forall_cons; split; [by apply js_wf_check|]); apply Forall_nil_2|].
  all: repeat (apply Forall_cons; split; [cbn [snd]; (exact H1 || (apply ok_str; (done || by apply js_wf_check)) || idtac)|]); try apply Forall_nil_2.
  - unfold show_Z. replace (d <? 0) with false by lia. apply show_N_ok.
  - apply ok_str. destruct r; by apply js_wf_check.
Qed.

Lemma parse_record_json r : record_ok r -> parse_record (record_json r) = Some (Some r).
Proof.
  intros H. destruct r as [a d|a i p c d n|a i c n|a i c r]; try reflexivity.
  - cbn in H. destruct_and?. unfold parse_record. assert (Hd : spawn_depth (prop (record_json (RSpawn a i p c d n)) "depth") = Some d).
    { change (prop _ "depth") with (Some (JNum (show_Z d))). unfold spawn_depth. rewrite Number_show by (unfold MAX_SAFE_INTEGER in *; lia).
      by replace (d <? 1) with false by lia. }
    rewrite Hd. reflexivity.
  - by destruct r.
Qed.

Lemma parse_written r k : record_ok r -> parseLedgerLine (stringify (record_json r)) k = Some (Some r).
Proof. intros H. unfold parseLedgerLine. rewrite JSON_parse_stringify by by apply record_object. by apply parse_record_json. Qed.

(** ** What the file holds *)

Definition stored (f : file) (rs : list ledger_record) : Prop :=
  Forall record_ok rs /\
  match f with
  | Some bytes => holds bytes (record_json <$> rs) /\ Z.of_nat (length bytes) <= RLM_LEDGER_MAX_BYTES /\ Z.of_nat (length rs) <= RLM_LEDGER_MAX_RECORDS
  | None => rs = []
  end.
Definition line_count (f : file) : nat := match f with Some bytes => length (filter (fun b => b = LF) bytes) | None => 0 end.
Definition file_size (f : file) : nat := match f with Some bytes => length bytes | None => 0 end.
Definition lead (f : file) (t : tick) : list ledger_record := match f with Some _ => [] | None => [RMeta (t_at t) canonicalSessionsDir] end.
Definition text_size (rs : list ledger_record) : nat := length (log_bytes (record_json <$> rs)).
(** There is room for the records, and the file can be read again. *)
Definition room (f : file) (t : tick) (rs : list ledger_record) : Prop :=
  Z.of_nat (file_size f + text_size (lead f t ++ rs)) <= RLM_LEDGER_MAX_BYTES /\
  Z.of_nat (line_count f + length (lead f t ++ rs)) <= RLM_LEDGER_MAX_RECORDS.

Lemma records_objects rs : Forall record_ok rs -> objects (record_json <$> rs).
Proof. intros H. apply Forall_fmap. eapply Forall_impl; [exact H|]. intros r Hr. by apply record_object. Qed.

Lemma lines_of_bytes vs tail : Forall json_ok vs -> LF ∉ tail -> length (filter (fun b => b = LF) (log_bytes vs ++ tail)) = length vs.
Proof.
  intros Hv Ht. assert (Hno : forall l : list N, LF ∉ l -> filter (fun b => b = LF) l = []).
  { induction l as [|b l IH]; [done|]. intros [Hb Hl]%not_elem_of_cons. rewrite filter_cons_False by auto. auto. }
  rewrite list.filter_app, (Hno tail Ht), app_nil_r. induction Hv as [|v vs Hv _ IH]; [done|].
  unfold log_bytes. rewrite bind_cons, list.filter_app, length_app. fold (log_bytes vs). rewrite IH, line_bytes_app by done.
  rewrite list.filter_app, Hno by apply LF_of_buffer, line_text_LF, line_text_stringify, Hv. done.
Qed.
Lemma stored_lines f rs : stored f rs -> line_count f = length rs.
Proof.
  intros [Hok Hf]. destruct f as [bytes|]; [|by subst]. destruct Hf as ((tail & -> & Ht) & _). cbn.
  rewrite lines_of_bytes by (done || by apply objects_ok, records_objects). by rewrite length_fmap.
Qed.

Lemma stored_read f rs : stored f rs -> replaySync f = inl (replay_edges rs).
Proof.
  intros [Hok Hf]. unfold replaySync. destruct f as [bytes|]; [|by subst]. destruct Hf as (Hh & Hb & Hn).
  rewrite (replay_reads LEDGER_OPTIONS parseLedgerLine (fun v => default None (parse_record v)) bytes _ Hh (records_objects _ Hok)).
  - f_equal. f_equal. clear Hh Hn. induction Hok as [|r rs Hr _ IH]; [done|]. rewrite fmap_cons. cbn [omap list_omap].
    rewrite parse_record_json by done. cbn [default from_option id]. by f_equal.
  - intros v k Hv. apply list_elem_of_fmap in Hv as (r & -> & Hr). rewrite Forall_forall in Hok. rewrite parse_written by by apply Hok.
    rewrite parse_record_json by by apply Hok. done.
  - cbn. lia.
  - cbn. rewrite length_fmap. lia.
Qed.

Lemma whole_take w vs : Forall json_ok vs -> exists n, whole w vs = take n vs /\ (length (log_bytes (take n vs)) <= w)%nat.
Proof.
  intros Hok. assert (Hp : exists n, whole w vs = take n vs).
  { clear Hok. revert w. induction vs as [|v vs IH]; intros w; [by exists 0%nat|]. cbn. destruct (Nat.leb _ _); [|by exists 0%nat].
    destruct (IH (w - length (line_bytes v))%nat) as [n Hn]. exists (S n). cbn. by rewrite Hn. }
  destruct Hp as [n Hn]. exists n. split; [done|]. destruct (torn_write vs w Hok) as (tail & Ht & _). rewrite <- Hn.
  apply (f_equal length) in Ht. rewrite length_take, length_app in Ht. lia.
Qed.

Definition not_meta (r : ledger_record) : bool := match r with RMeta _ _ => false | _ => true end.
Lemma replay_not_meta new m : foldl apply_record m new = foldl apply_record m (filter (fun r => not_meta r) new).
Proof. revert m. induction new as [|r new IH]; intros m; [done|]. rewrite filter_cons. by destruct r; cbn; rewrite IH. Qed.

(** An append that reports no error stores its record; one that does stores nothing that matters. *)
Lemma append_stored t r f rs : stored f rs -> record_ok r -> not_meta r = true -> js_wf (t_at t) -> js_wf canonicalSessionsDir -> t_stable t = true -> room f t [r] ->
  exists e f' new, appendSync LEDGER_OPTIONS [record_json r] [record_json (RMeta (t_at t) canonicalSessionsDir)] (t_stable t) (t_written t) f = (e, Some f') /\
    stored (Some f') (rs ++ new) /\ filter (fun r => not_meta r) new = (match e with None => [r] | Some _ => [] end) /\
    (file_size (Some f') <= file_size f + text_size (lead f t ++ [r]))%nat /\ (length new <= length (lead f t ++ [r]))%nat /\
    ((text_size (lead f t ++ [r]) <= t_written t)%nat -> e = None).
Proof.
  intros Hst Hr Hm Hat Hdir Hs [Hroom Hlines]. pose proof (stored_lines _ _ Hst) as Hl. destruct Hst as [Hok Hf].
  set (a := {| a_events := [record_json r]; a_onCreate := [record_json (RMeta (t_at t) canonicalSessionsDir)]; a_written := t_written t |}).
  assert (Hmeta : record_ok (RMeta (t_at t) canonicalSessionsDir)) by done.
  assert (Hlead : Forall record_ok (lead f t ++ [r])) by (apply Forall_app; split; [destruct f; by repeat constructor|by repeat constructor]).
  assert (Hnew : (if f then [] else a_onCreate a) ++ a_events a = record_json <$> (lead f t ++ [r])) by by destruct f.
  assert (Hga : good_append a) by (split; apply (records_objects [_]); by repeat constructor).
  destruct (append_in_bounds LEDGER_OPTIONS a f (record_json <$> rs) Hga (records_objects _ Hok)) as (f' & He & Hh & Hb).
  { destruct f as [bytes|]; [|by subst]. destruct Hf as (Hf & Hf2 & _). split; [done|]. cbn. lia. }
  rewrite Hnew in He, Hh, Hb. rewrite Hs. cbn [a_events a_onCreate a_written a] in He. do 2 eexists.
  destruct (whole_take (t_written t) (record_json <$> (lead f t ++ [r]))) as (n & Hn & Hw); [by apply objects_ok, records_objects|].
  cbn [a_written a] in Hh, Hb. rewrite Hn, <- fmap_take, <- fmap_app in Hh. exists (take n (lead f t ++ [r])). split; [exact He|].
  assert (Hsize : (length f' <= file_size f + text_size (lead f t ++ [r]))%nat).
  { rewrite Hb, length_app, length_take. unfold text_size. enough (length (log_bytes (record_json <$> rs)) <= file_size f)%nat by lia.
    destruct f as [bytes|]; [|by subst]. destruct Hf as ((tail & -> & _) & _). cbn. rewrite length_app. lia. }
  assert (Hlen : (length (take n (lead f t ++ [r])) <= length (lead f t ++ [r]))%nat) by (rewrite length_take; lia).
  split; [|split; [|split; [exact Hsize|split; [exact Hlen|]]]].
  - split; [apply Forall_app; split; [done|by apply Forall_take]|]. split; [done|]. rewrite length_app. lia.
  - rewrite <- fmap_take in Hw. fold (text_size (take n (lead f t ++ [r]))) in Hw. fold (text_size (lead f t ++ [r])).
    assert (Hfl : filter (fun r => not_meta r) (lead f t) = []) by by destruct f.
    destruct (Nat.ltb_spec (t_written t) (text_size (lead f t ++ [r]))) as [Hlt|Hge].
    + destruct (decide (n <= length (lead f t))%nat) as [Hn2|Hn2].
      * rewrite take_app_le by done. assert (Hsub : forall k, filter (fun r => not_meta r) (take k (lead f t)) = []) by (intros [|k]; by destruct f; cbn; rewrite ?take_nil).
        apply Hsub.
      * rewrite take_ge in Hw by (rewrite length_app; cbn; lia). lia.
    + rewrite <- (fmap_take record_json), whole_all in Hn by done. apply (f_equal length) in Hn. rewrite !length_fmap in Hn.
      rewrite (take_ge _ n) by (rewrite length_take in Hn; lia). rewrite list.filter_app, Hfl. rewrite filter_cons_True by by rewrite Hm. done.
  - intros Hall. fold (text_size (lead f t ++ [r])). by rewrite (proj2 (Nat.ltb_ge _ _)).
Qed.

(** ** Ledgers over one file *)

(** A cached reading is the reading of every file that has its stat. *)
Definition cache_ok (d : disk) (c : option (file_stat * edge_map)) : Prop :=
  match c with
  | Some (st, m) => mtimeMs st <= d_mtime d /\ (statSync d = Some st -> replaySync (d_file d) = inl m)
  | None => True
  end.
Definition keeps_caches (d d' : disk) : Prop := d_mtime d <= d_mtime d' /\ forall c, cache_ok d c -> cache_ok d' c.
Definition good (l : ledger) (rs : list ledger_record) : Prop := stored (d_file (l_disk l)) rs /\ cache_ok (l_disk l) (edgeCache l).

Lemma keeps_refl d : keeps_caches d d.
Proof. split; [lia|done]. Qed.
Lemma keeps_trans a b c : keeps_caches a b -> keeps_caches b c -> keeps_caches a c.
Proof. intros [H1 H2] [H3 H4]. split; [lia|auto]. Qed.
Lemma touch_keeps t f d : d_mtime d < t_mtime t -> keeps_caches d (touch t f d).
Proof.
  intros Ht. unfold touch. destruct (decide _); [apply keeps_refl|]. split; [cbn; lia|]. intros [[st m]|]; [|done]. intros [Hm _]. split; [cbn; lia|].
  unfold statSync. cbn [d_file d_mtime]. destruct f; [|done]. intros [= <-]. cbn in Hm. lia.
Qed.
Lemma touch_file t f d : d_file (touch t f d) = f.
Proof. unfold touch. by destruct (decide _) as [->|]. Qed.

(** Reading through the cache is reading the file. *)
Lemma read_good l rs : good l rs -> exists l', replaySyncCached l = (inl (replay_edges rs), l') /\ good l' rs /\ l_disk l' = l_disk l.
Proof.
  intros [Hs Hc]. pose proof (stored_read _ _ Hs) as Hr. unfold replaySyncCached. rewrite Hr.
  assert (Hfresh : exists l', (inl (A := edge_map) (B := ledger_error) (replay_edges rs),
      match statSync (l_disk l) with Some st => set_cache (Some (st, replay_edges rs)) l | None => l end) = (inl (replay_edges rs), l') /\ good l' rs /\ l_disk l' = l_disk l).
  { eexists. split; [done|]. destruct (statSync (l_disk l)) as [st|] eqn:Est; [|done]. split; [|done]. split; [done|]. cbn. split; [|done].
    unfold statSync in Est. destruct (d_file (l_disk l)); [|done]. injection Est as <-. cbn. lia. }
  destruct (statSync (l_disk l)) as [st|] eqn:Est; [|done]. destruct (edgeCache l) as [[cst m]|] eqn:Ec; [|done].
  destruct (decide (cst = st)) as [->|]; [|done]. exists l. destruct Hc as [Hm Hcm]. rewrite (Hcm Est) in Hr. injection Hr as ->.
  split; [done|]. split; [|done]. split; [done|]. rewrite Ec. split; [done|]. intros _. by apply Hcm.
Qed.

Definition tick_ok (d : disk) (t : tick) : Prop := js_wf (t_at t) /\ t_stable t = true /\ d_mtime d < t_mtime t.
Definition whole_write (f : file) (t : tick) (r : ledger_record) : Prop := (text_size (lead f t ++ [r]) <= t_written t)%nat.

Lemma append_good t r l rs : good l rs -> record_ok r -> not_meta r = true -> js_wf canonicalSessionsDir -> tick_ok (l_disk l) t -> room (d_file (l_disk l)) t [r] ->
  exists e l' new, appendRecord t r l = (e, l') /\ good l' (rs ++ new) /\ keeps_caches (l_disk l) (l_disk l') /\
    filter (fun r => not_meta r) new = (match e with None => [r] | Some _ => [] end) /\
    d_file (l_disk l') <> None /\ d_mtime (l_disk l') <= t_mtime t /\
    (file_size (d_file (l_disk l')) <= file_size (d_file (l_disk l)) + text_size (lead (d_file (l_disk l)) t ++ [r]))%nat /\
    line_count (d_file (l_disk l')) = (line_count (d_file (l_disk l)) + length new)%nat /\
    (length new <= length (lead (d_file (l_disk l)) t ++ [r]))%nat /\
    (whole_write (d_file (l_disk l)) t r -> e = None).
Proof.
  intros [Hs Hc] Hr Hm Hdir (Hat & Hst & Ht) Hroom.
  destruct (append_stored t r _ rs Hs Hr Hm Hat Hdir Hst Hroom) as (e & f' & new & He & Hs' & Hf & Hsz & Hnl & Hw).
  unfold appendRecord. rewrite He. pose proof (touch_keeps t (Some f') _ Ht) as Hk.
  assert (Hg : forall c, cache_ok (touch t (Some f') (l_disk l)) c -> good {| l_disk := touch t (Some f') (l_disk l); seedAttempted := seedAttempted l; edgeCache := c |} (rs ++ new)).
  { intros c Hcc. split; [|done]. cbn [l_disk]. by rewrite touch_file. }
  assert (Hmt : d_mtime (touch t (Some f') (l_disk l)) <= t_mtime t) by (unfold touch; destruct (decide _); cbn; lia).
  assert (Hlines : line_count (Some f') = (line_count (d_file (l_disk l)) + length new)%nat).
  { rewrite (stored_lines _ _ Hs'), (stored_lines _ _ Hs). apply length_app. }
  destruct e as [e|]; do 3 eexists; (split; [done|]); cbn [set_disk set_cache l_disk]; rewrite touch_file.
  - split; [apply Hg; by apply Hk|]. repeat (split; [done|]). intros H. by specialize (Hw H).
  - split; [by apply Hg|]. repeat (split; [done|]). done.
Qed.

(** The environment of the records that an operation writes. *)
Definition env (d : disk) (ts : nat -> tick) (rs : list ledger_record) : Prop :=
  Forall record_ok rs /\ room (d_file d) (ts 0%nat) rs /\
  (forall k, (k < length rs)%nat -> tick_ok d (ts k)) /\ (forall k, (S k < length rs)%nat -> t_mtime (ts k) < t_mtime (ts (S k))).

(** No write is cut short. *)
Definition writes_whole (d : disk) (ts : nat -> tick) (rs : list ledger_record) : Prop :=
  forall k, (k < length rs)%nat -> (text_size (lead (d_file d) (ts 0%nat) ++ rs) <= t_written (ts k))%nat.

Lemma text_size_app a b : text_size (a ++ b) = (text_size a + text_size b)%nat.
Proof. unfold text_size. by rewrite fmap_app, log_bytes_app, length_app. Qed.

Lemma at_ticks_cons ts r recs : at_ticks ts (r :: recs) = r (ts 0%nat) :: at_ticks (fun k => ts (S k)) recs.
Proof. done. Qed.

(** The records of an operation are stored one after another, up to the first error. *)
Lemma append_all_good recs : forall ts l rs, good l rs -> js_wf canonicalSessionsDir -> Forall (fun r => not_meta r = true) (at_ticks ts recs) ->
  env (l_disk l) ts (at_ticks ts recs) ->
  exists e l' new, append_all ts recs l = (e, l') /\ good l' (rs ++ new) /\ keeps_caches (l_disk l) (l_disk l') /\
    filter (fun r => not_meta r) new `prefix_of` at_ticks ts recs /\ (e = None -> filter (fun r => not_meta r) new = at_ticks ts recs) /\
    (writes_whole (l_disk l) ts (at_ticks ts recs) -> e = None).
Proof.
  induction recs as [|r recs IH]; intros ts l rs Hg Hdir Hm Henv.
  { exists None, l, []. rewrite app_nil_r. repeat (split; [done || apply keeps_refl|]). done. }
  unfold writes_whole in *. rewrite at_ticks_cons in *. destruct Henv as (Hok & [Hroom Hlc] & Ht & Hmono). apply Forall_cons in Hok as [Hr Hok]. apply Forall_cons in Hm as [Hm Hms].
  rewrite cons_middle, app_assoc, text_size_app in Hroom. rewrite cons_middle, app_assoc, length_app in Hlc.
  destruct (append_good (ts 0%nat) (r (ts 0%nat)) l rs Hg Hr Hm Hdir) as (e & l1 & new & He & Hg1 & Hk & Hf & Hfile & Hmt & Hsz & Hlines & Hnl & Hww).
  { apply Ht. cbn. lia. } { split; lia. }
  cbn [append_all]. rewrite He. destruct e as [e|].
  { exists (Some e), l1, new. rewrite Hf. repeat (split; [done || apply prefix_nil|]). intros Hall. apply Hww.
    specialize (Hall 0%nat ltac:(cbn; lia)). rewrite cons_middle, app_assoc, text_size_app in Hall. unfold whole_write. lia. }
  destruct (IH (fun k => ts (S k)) l1 (rs ++ new) Hg1 Hdir Hms) as (e & l2 & new2 & He2 & Hg2 & Hk2 & Hp & Hall & Hwr).
  { rewrite length_app in Hlc. cbn [length] in Hlc. rewrite length_app in Hnl. cbn [length] in Hnl.
    split; [done|]. split; [|split].
    - destruct (d_file (l_disk l1)) as [f1|] eqn:Ef; [|done]. split; cbn [lead app]; [lia|]. rewrite Hlines. lia.
    - intros k Hk3. destruct (Ht (S k)) as (H1 & H2 & H3); [cbn; lia|]. split; [done|]. split; [done|].
      apply Z.le_lt_trans with (t_mtime (ts 0%nat)); [done|]. clear -Hk3 Hmono. induction k as [|k IHk]; [apply Hmono; cbn; lia|].
      etransitivity; [apply IHk; lia|]. apply Hmono. cbn. lia.
    - intros k Hk3. apply Hmono. cbn. lia. }
  exists e, l2, (new ++ new2). rewrite (assoc_L app). split; [done|]. split; [done|]. split; [by eapply keeps_trans|].
  rewrite list.filter_app, Hf. cbn [app]. split; [by apply prefix_cons|]. split; [intros ->; by rewrite Hall|].
  intros Hw. apply Hwr. intros k Hk3. destruct (d_file (l_disk l1)) as [f1|] eqn:Ef; [|done]. cbn [lead app].
  specialize (Hw (S k) ltac:(cbn; lia)). rewrite cons_middle, app_assoc, text_size_app in Hw. lia.
Qed.

(** The world: the file holds the records, and every process's cache is good. *)
Definition represents (w : world) (m : edge_map) : Prop :=
  exists rs, stored (d_file (w_disk w)) rs /\ m = replay_edges rs /\ forall i, cache_ok (w_disk w) (w_cache w i).
(** What an operation of a process needs: clocks that go on, no rival in the middle of a line, and room in the file. *)
Definition env_ok (o : op) (w : world) : Prop :=
  js_wf canonicalSessionsDir /\ forall m rs, replaySync (d_file (w_disk w)) = inl m -> decide_op o m = inr rs -> env (w_disk w) (op_tick o) rs.

Lemma represents_read w m : represents w m -> replaySync (d_file (w_disk w)) = inl m.
Proof. intros (rs & Hs & -> & _). by apply stored_read. Qed.

Lemma replay_app rs new : replay_edges (rs ++ new) = foldl apply_record (replay_edges rs) (filter (fun r => not_meta r) new).
Proof. unfold replay_edges. by rewrite foldl_app, replay_not_meta. Qed.

(** Back from a process's ledger to the world. *)
Lemma represents_after i w l rs : good l rs -> keeps_caches (w_disk w) (l_disk l) -> (forall j, cache_ok (w_disk w) (w_cache w j)) ->
  represents (after i l w) (replay_edges rs).
Proof.
  intros [Hs Hc] [_ Hk] Hw. exists rs. split; [done|]. split; [done|]. intros j. cbn. destruct (Nat.eqb j i); [done|]. by apply Hk.
Qed.

Lemma decide_not_meta o m rs : decide_op o m = inr rs -> Forall (fun r => not_meta r = true) rs.
Proof.
  assert (Ht : forall ts f (l : list edge), (forall e t, not_meta (f e t) = true) -> Forall (fun r => not_meta r = true) (at_ticks ts (f <$> l))).
  { intros ts f l Hf. revert ts. induction l as [|e l IH]; intros ts; [constructor|]. rewrite fmap_cons, at_ticks_cons. constructor; [apply Hf|apply IH]. }
  destruct o; cbn; repeat case_match; intros [= <-]; try (apply Ht; done); repeat constructor.
Qed.

Definition apply_all (m : edge_map) (rs : list ledger_record) : edge_map := foldl apply_record m rs.

(** One record, then the world. *)
Lemma one_record t r l rs : good l rs -> not_meta r = true -> js_wf canonicalSessionsDir -> env (l_disk l) (fun _ => t) [r] ->
  exists e l' new, appendRecord t r l = (e, l') /\ good l' (rs ++ new) /\ keeps_caches (l_disk l) (l_disk l') /\
    filter (fun r => not_meta r) new `prefix_of` [r] /\ (e = None -> filter (fun r => not_meta r) new = [r]) /\
    (writes_whole (l_disk l) (fun _ => t) [r] -> e = None).
Proof.
  intros Hg Hm Hdir Henv. destruct (append_all_good [fun _ => r] (fun _ => t) l rs Hg Hdir) as (e & l' & new & He & H); [by repeat constructor|done|].
  exists e, l', new. split; [|done]. cbn in He. by destruct (appendRecord t r l) as [[?|] ?].
Qed.

(** The operations of a process on its ledger do what [decide_op] says. *)
Lemma run_op_good o l rs : good l rs -> js_wf canonicalSessionsDir ->
  (forall new, decide_op o (replay_edges rs) = inr new -> env (l_disk l) (op_tick o) new) ->
  exists e l' new, run_op o l = (e, l') /\ good l' (rs ++ new) /\ keeps_caches (l_disk l) (l_disk l') /\
    match decide_op o (replay_edges rs) with
    | inl err => e = Some err /\ new = []
    | inr todo => filter (fun r => not_meta r) new `prefix_of` todo /\ (e = None -> filter (fun r => not_meta r) new = todo) /\
        (writes_whole (l_disk l) (op_tick o) todo -> e = None)
    end.
Proof.
  intros Hg Hdir Henv. pose proof (decide_not_meta o (replay_edges rs)) as Hnm.
  assert (Hstay : forall (e : ledger_error) l', l_disk l' = l_disk l -> good l' rs -> exists e' l'' new, (Some e, l') = (e' : option ledger_error, l'') /\ good l'' (rs ++ new) /\
    keeps_caches (l_disk l) (l_disk l'') /\ e' = Some e /\ new = []).
  { intros e l' Hd Hg'. exists (Some e), l', []. rewrite app_nil_r, Hd. repeat (split; [done || apply keeps_refl|]). done. }
  destruct o as [t input|t i c n|ts c n|t i c r|ts p known header]; cbn [run_op op_tick decide_op] in *.
  - unfold appendSpawn. destruct (nonempty _ && nonempty _ && nonempty _); [|by apply Hstay].
    destruct (safe_integer (in_depth input)) as [depth|]; [|by apply Hstay]. destruct (depth <? 1); [by apply Hstay|].
    destruct (read_good l rs Hg) as (l1 & -> & Hg1 & Hd1). destruct (holder _ _ _); [by apply Hstay|].
    rewrite <- Hd1 in Henv |- *. apply one_record; [done|done|done|]. by apply Henv.
  - unfold appendRename. apply one_record; [done|done|done|]. by apply Henv.
  - unfold appendRenameByChildPath. destruct (read_good l rs Hg) as (l1 & -> & Hg1 & Hd1). rewrite <- Hd1 in Henv |- *.
    apply append_all_good; [done|done|by apply Hnm|by apply Henv].
  - unfold appendDelete. apply one_record; [done|done|done|]. by apply Henv.
  - unfold tombstoneSavedSessionDelete. destruct (negb _ && _).
    { exists None, l, []. rewrite app_nil_r. repeat (split; [done || apply keeps_refl|]). done. }
    unfold edges. destruct (read_good l rs Hg) as (l1 & -> & Hg1 & Hd1). rewrite <- Hd1 in Henv |- *.
    assert (Hm : filter (fun e => jseqb (canon (e_child e)) (canon p)) (filter (fun e => false || is_live e) (replay_edges rs).*2) = live_at (canon p) (replay_edges rs)).
    { unfold live_at. rewrite list_filter_filter. apply list_filter_iff. intros e. cbn [orb]. rewrite andb_True. naive_solver. }
    rewrite Hm. destruct (append_all_good ((fun e t => RDelete (t_at t) (e_childId e) (canon (e_child e)) DUser) <$> live_at (canon p) (replay_edges rs)) ts l1 rs)
      as (e & l' & new & -> & Hrest); [done|done|by apply Hnm|by apply Henv|].
    exists e, l', new. split; [by destruct e|done].
Qed.

(** C20. The file is the ledger. Several processes spawn, rename and delete over one file, one operation at a time.
    The edges any of them reads then, through its cache or not, are the edges before with the records of the operation
    applied: all of them when it reports no error, as it does when its writes are whole, and a beginning of them when a write is torn. *)
Theorem ledger_refines (i : nat) (o : op) (w : world) (m : edge_map) (Hw : represents w m) (Henv : env_ok o w) :
  let '(e, w') := run i o w in
  exists done, represents w' (apply_all m done) /\ (forall j, (replaySyncCached (ledger_of j w')).1 = inl (apply_all m done)) /\
    match decide_op o m with
    | inl err => e = Some err /\ done = []
    | inr todo => done `prefix_of` todo /\ (e = None -> done = todo) /\ (writes_whole (w_disk w) (op_tick o) todo -> e = None)
    end.
Proof.
  destruct Hw as (rs & Hs & -> & Hc). destruct Henv as [Hdir Henv].
  destruct (run_op_good o (ledger_of i w) rs) as (e & l' & new & He & Hg & Hk & Hdone); [split; [done|apply Hc]|done|by intros; eapply Henv; [apply stored_read|]|].
  unfold run. rewrite He. exists (filter (fun r => not_meta r) new). unfold apply_all. rewrite <- replay_app.
  pose proof (represents_after i w l' _ Hg Hk Hc) as Hrep. split; [done|]. split.
  - intros j. destruct Hrep as (rs' & Hs' & -> & Hc'). destruct (read_good (ledger_of j (after i l' w)) rs') as (l2 & Hl2 & _); [split; [done|apply Hc']|by rewrite Hl2].
  - destruct (decide_op o (replay_edges rs)); [|done]. by destruct Hdone as [-> ->].
Qed.

(** ** Edges of one process at a time *)

(** Keys are those of their edges, paths are canonical, and live edges have distinct children. *)
Definition well_formed (m : edge_map) : Prop :=
  NoDup m.*1 /\ Forall (fun p => p.1 = edgeKey (e_childId p.2) (e_child p.2) /\ canon (e_child p.2) = e_child p.2) m.
Definition one_live (m : edge_map) : Prop :=
  forall p q, p ∈ m -> q ∈ m -> is_live p.2 = true -> is_live q.2 = true -> e_child p.2 = e_child q.2 -> p = q.

Lemma assign_keys f m k : (assign f m k).*1 = m.*1.
Proof. destruct k as [k|]; [|done]. cbn. rewrite <- list_fmap_compose. apply list_fmap_ext. intros _ p _. unfold compose. by destruct (decide _). Qed.
Lemma assign_elem f m k p : p ∈ assign f m k -> exists q, q ∈ m /\ p.1 = q.1 /\ (p.2 = q.2 \/ p.2 = f q.2).
Proof.
  destruct k as [k|]; [|intros; exists p; auto]. intros (q & -> & Hq)%list_elem_of_fmap. exists q. split; [done|]. destruct (decide _); cbn; auto.
Qed.
Lemma assign_ok f m k : (forall e, e_childId (f e) = e_childId e /\ e_child (f e) = e_child e /\ (is_live (f e) = true -> is_live e = true)) ->
  well_formed m /\ one_live m -> well_formed (assign f m k) /\ one_live (assign f m k).
Proof.
  intros Hf [[Hnd Hall] Hone]. rewrite Forall_forall in Hall.
  assert (Hsame : forall p, p ∈ assign f m k -> exists q, q ∈ m /\ p.1 = q.1 /\ e_childId p.2 = e_childId q.2 /\ e_child p.2 = e_child q.2 /\ (is_live p.2 = true -> is_live q.2 = true)).
  { intros p (q & Hq & H1 & H2)%assign_elem. exists q. destruct (Hf q.2) as (Ha & Hb & Hc). destruct H2 as [->| ->]; auto. }
  split; [split|].
  - by rewrite assign_keys.
  - apply Forall_forall. intros p (q & Hq & H1 & H2 & H3 & _)%Hsame. rewrite H1, H2, H3. by apply Hall.
  - intros p q Hp Hq Lp Lq Hpq. destruct (Hsame p Hp) as (p' & Hp' & P1 & _ & P3 & P4), (Hsame q Hq) as (q' & Hq' & Q1 & _ & Q3 & Q4).
    assert (p' = q') as <- by (apply Hone; auto; congruence). rewrite <- (assign_keys f m k) in Hnd.
    destruct p as [kp ep], q as [kq eq]. cbn in *. subst kp kq. f_equal.
    apply (get_nodup _ _ _ Hnd) in Hp, Hq. congruence.
Qed.

Hypothesis canon_idem : forall p, canon (canon p) = canon p.

Lemma elem_of_set (m : edge_map) k v p : NoDup m.*1 -> p ∈ set m k v -> p = (k, v) \/ (p ∈ m /\ p.1 <> k).
Proof.
  destruct p as [kp vp]. intros Hnd Hp. apply (get_nodup _ _ _ (set_nodup _ k v Hnd)) in Hp. rewrite get_set in Hp.
  destruct (decide (k = kp)) as [->|Hne]; [injection Hp as ->; by left|]. right. split; [by apply get_elem|]. cbn. congruence.
Qed.
Lemma holder_None m path id q : holder m path id = None -> q ∈ m -> is_live q.2 = true -> canon (e_child q.2) = path -> e_childId q.2 = id.
Proof.
  unfold holder. intros Hh Hq Hl Hc. destruct (filter _ _) as [|e l] eqn:E; [|done]. apply dec_stable. intros Hid.
  assert (Hin : q.2 ∈ filter (fun e => is_live e && jseqb (canon (e_child e)) path && negb (jseqb (e_childId e) id)) m.*2).
  { apply list_elem_of_filter. split; [|apply list_elem_of_fmap; by exists q]. rewrite Hl, Hc. unfold jseqb.
    by rewrite bool_decide_true, bool_decide_false by done. }
  rewrite E in Hin. by apply elem_of_nil in Hin.
Qed.

Lemma spawn_ok m at_ id p c d n : well_formed m /\ one_live m -> holder m c id = None -> canon c = c ->
  well_formed (apply_record m (RSpawn at_ id p c d n)) /\ one_live (apply_record m (RSpawn at_ id p c d n)).
Proof.
  intros [[Hnd Hall] Hone] Hh Hc. cbn [apply_record]. set (e := {| e_childId := id |}).
  assert (Hnew : forall q, q ∈ m -> q.1 <> edgeKey id c -> is_live q.2 = true -> e_child q.2 <> c).
  { intros q Hq Hk Hl <-. rewrite Forall_forall in Hall. destruct (Hall q Hq) as [Hqk Hqc]. apply Hk. rewrite Hqk. f_equal.
    by apply (holder_None m (e_child q.2) id q). }
  split; [split; [by apply set_nodup|apply Forall_set; done]|]. intros x y Hx Hy Lx Ly Hxy.
  destruct (elem_of_set _ _ _ _ Hnd Hx) as [->|[Hx' Hkx]], (elem_of_set _ _ _ _ Hnd Hy) as [->|[Hy' Hky]]; [done| | |by apply Hone].
  - exfalso. by apply (Hnew y).
  - exfalso. by apply (Hnew x).
Qed.

Lemma apply_all_ok m o done : well_formed m /\ one_live m ->
  match decide_op o m with inl _ => done = [] | inr todo => done `prefix_of` todo end ->
  well_formed (apply_all m done) /\ one_live (apply_all m done).
Proof.
  intros Hm Hd.
  assert (Hassign : forall rs m, well_formed m /\ one_live m -> Forall (fun r => match r with RSpawn _ _ _ _ _ _ => false | _ => true end = true) rs ->
    well_formed (apply_all m rs) /\ one_live (apply_all m rs)).
  { intros rs. induction rs as [|r rs IH]; intros m' Hm' Hrs; [done|]. apply Forall_cons in Hrs as [Hr Hrs]. cbn. apply IH; [|done].
    destruct r; [done|done| |]; cbn [apply_record]; by apply assign_ok. }
  assert (Hticks : forall ts f (l : list edge), (forall e t, match f e t with RSpawn _ _ _ _ _ _ => false | _ => true end = true) ->
    forall rs, rs `prefix_of` at_ticks ts (f <$> l) -> Forall (fun r => match r with RSpawn _ _ _ _ _ _ => false | _ => true end = true) rs).
  { intros ts f l Hf rs [rest Hrs]. enough (Forall (fun r => match r with RSpawn _ _ _ _ _ _ => false | _ => true end = true) (at_ticks ts (f <$> l))) as Hx.
    { rewrite Hrs in Hx. by apply Forall_app in Hx as [Hx _]. }
    clear rest Hrs. revert ts. induction l as [|e l IH]; intros ts; [constructor|]. rewrite fmap_cons, at_ticks_cons. constructor; [apply Hf|apply IH]. }
  assert (Hone : forall (r : ledger_record) rs, rs `prefix_of` [r] -> rs = [] \/ rs = [r]).
  { intros r rs [rest H]. destruct rs as [|r' rs]; [by left|]. injection H as -> H. symmetry in H. apply app_nil in H as [-> _]. by right. }
  destruct o as [t input|t i c n|ts c n|t i c r|ts p known header]; cbn [decide_op] in Hd.
  - destruct (nonempty _ && nonempty _ && nonempty _); [|by subst]. destruct (safe_integer (in_depth input)); [|by subst]. destruct (_ <? 1); [by subst|].
    destruct (holder _ _ _) eqn:Eh; [by subst|]. apply Hone in Hd as [->| ->]; [done|]. by apply spawn_ok.
  - apply Hassign; [done|]. apply Hone in Hd as [->| ->]; repeat constructor.
  - apply Hassign; [done|]. eapply Hticks; [|exact Hd]. done.
  - apply Hassign; [done|]. apply Hone in Hd as [->| ->]; repeat constructor.
  - apply Hassign; [done|]. destruct (negb _ && _); [destruct Hd as [rest Hd]; symmetry in Hd; apply app_nil in Hd as [-> _]; constructor|].
    eapply Hticks; [|exact Hd]. done.
Qed.

(** The worlds that the processes can get to from no file. *)
Inductive reachable : world -> Prop :=
| reach_start mtime inode : reachable {| w_disk := {| d_file := None; d_mtime := mtime; d_ino := inode |}; w_cache := fun _ => None |}
| reach_step i o w : reachable w -> env_ok o w -> reachable (run i o w).2.

Lemma reachable_ok w : reachable w -> exists m, represents w m /\ well_formed m /\ one_live m.
Proof.
  induction 1 as [mtime inode|i o w _ (m & Hr & Hm) Henv].
  - exists []. split; [exists []; repeat split; constructor|]. split; [split; constructor|]. intros p q Hp. by apply elem_of_nil in Hp.
  - pose proof (ledger_refines i o w m Hr Henv) as H. destruct (run i o w) as [e w']. destruct H as (dn & Hrep & _ & Hdone). exists (apply_all m dn).
    split; [exact Hrep|]. apply apply_all_ok with o; [done|]. destruct (decide_op o m); [by destruct Hdone|by destruct Hdone as [? _]].
Qed.

Lemma edges_read b w m j : represents w m -> (edges b (ledger_of j w)).1 = inl (filter (fun e => b || is_live e) m.*2).
Proof.
  intros (rs & Hs & -> & Hc). unfold edges. destruct (read_good (ledger_of j w) rs) as (l' & Hl & _); [split; [done|apply Hc]|by rewrite Hl].
Qed.

Lemma live_children m : well_formed m -> one_live m -> NoDup (e_child <$> filter (fun e => is_live e) m.*2).
Proof.
  intros [Hnd _] Hone. induction m as [|[k e] m IH]; [constructor|]. cbn in Hnd. apply list.NoDup_cons in Hnd as [Hk Hnd].
  assert (Hone' : one_live m) by (intros p q Hp Hq; apply Hone; by apply list_elem_of_further).
  change ((k, e) :: m).*2 with (e :: m.*2). rewrite filter_cons. destruct (decide _) as [Hl|]; [|by apply IH]. rewrite fmap_cons. apply list.NoDup_cons. split; [|by apply IH].
  intros (e' & He & Hin)%list_elem_of_fmap. apply list_elem_of_filter in Hin as [Hl' (q & -> & Hq)%list_elem_of_fmap].
  assert (Heq : (k, e) = q) by (apply Hone; [apply list_elem_of_here|by apply list_elem_of_further|by apply Is_true_true|by apply Is_true_true|done]).
  apply Hk. apply list_elem_of_fmap. subst q. by exists (k, e).
Qed.

(** C21. One session, one parent. However several processes spawn, rename and delete, an operation at a time and
    whatever writes are torn, no two live edges lead to the same session file. *)
Theorem unique_live_children (w : world) (Hw : reachable w) (j : nat) :
  exists es, (edges false (ledger_of j w)).1 = inl es /\ NoDup (e_child <$> es) /\ Forall (fun e => canon (e_child e) = e_child e) es.
Proof.
  destruct (reachable_ok w Hw) as (m & Hr & Hm & Hone). exists (filter (fun e => is_live e) m.*2). split; [by apply edges_read|]. split; [by apply live_children|].
  apply Forall_forall. intros e [_ (q & -> & Hq)%list_elem_of_fmap]%list_elem_of_filter. destruct Hm as [_ Hall]. rewrite Forall_forall in Hall. by apply Hall.
Qed.

(** Tombstones written for edges of the map mark these edges, and no other. *)
Lemma tombstones m (dels : list (jsstr * edge)) : forall ts, NoDup m.*1 -> (forall q, q ∈ dels -> q.1 = edgeKey (e_childId q.2) (e_child q.2) /\ canon (e_child q.2) = e_child q.2 /\ q.1 ∈ m.*1) ->
  apply_all m (at_ticks ts ((fun q t => RDelete (t_at t) (e_childId q.2) (canon (e_child q.2)) DUser) <$> dels)) =
  (fun p => if decide (p.1 ∈ dels.*1) then (p.1, with_deleted DUser p.2) else p) <$> m.
Proof.
  revert m. induction dels as [|q dels IH]; intros m ts Hnd Hq.
  { change (m = (fun p : jsstr * edge => if decide (p.1 ∈ ([] : list jsstr)) then (p.1, with_deleted DUser p.2) else p) <$> m). clear. induction m as [|p m IH]; [done|]. by rewrite fmap_cons, <- IH. }
  rewrite fmap_cons, at_ticks_cons. cbn [apply_all foldl]. destruct (Hq q) as (Hk & Hc & Hin); [apply list_elem_of_here|].
  assert (He : apply_record m (RDelete (t_at (ts 0%nat)) (e_childId q.2) (canon (e_child q.2)) DUser) = assign (with_deleted DUser) m (Some q.1)).
  { cbn [apply_record]. rewrite Hc. unfold edgeForKey. rewrite <- Hk. unfold has. rewrite bool_decide_true; [done|].
    destruct (get m q.1) eqn:Eg; [done|]. by apply get_None in Eg. }
  rewrite He. specialize (IH (assign (with_deleted DUser) m (Some q.1)) (fun k => ts (S k))). unfold apply_all in IH. rewrite IH.
  - cbn [assign]. rewrite <- list_fmap_compose. apply list_fmap_ext. intros _ p _. unfold compose. cbn [fmap list_fmap].
    destruct (decide (p.1 = q.1)) as [Hpq|Hpq]; cbn [fst snd].
    + rewrite (decide_True (P := p.1 ∈ q.1 :: dels.*1)) by (rewrite Hpq; apply list_elem_of_here). by destruct (decide _).
    + destruct (decide (p.1 ∈ dels.*1)) as [Hd|Hd]; [by rewrite decide_True by by apply list_elem_of_further|]. rewrite decide_False; [done|]. by intros [|]%elem_of_cons.
  - by rewrite assign_keys.
  - intros q' Hq'. rewrite assign_keys. apply Hq. by apply list_elem_of_further.
Qed.

Definition top_level (known : option bool) (header : option (bool * Z)) : bool :=
  negb (bool_decide (known = Some true) || match header with Some (parented, depth) => parented || (0 <? depth) | None => false end) &&
  (match known with Some _ => true | None => false end || match header with Some _ => true | None => false end).

(** C22. A deleted session stays deleted. Deleting a saved session that is not known to be on top ends every live edge
    to its file, and every process then reads exactly the other live edges. *)
Theorem tombstone_ends_path (i : nat) (ts : nat -> tick) (path : jsstr) (known : option bool) (header : option (bool * Z)) (w : world)
    (Hw : reachable w) (Henv : env_ok (OTombstone ts path known header) w) (Htop : top_level known header = false)
    (He : (run i (OTombstone ts path known header) w).1 = None) (j : nat) :
  exists es, (edges false (ledger_of j w)).1 = inl es /\
    (edges false (ledger_of j (run i (OTombstone ts path known header) w).2)).1 = inl (filter (fun e => e_child e <> canon path) es).
Proof.
  destruct (reachable_ok w Hw) as (m & Hr & [Hnd Hall] & _). pose proof (ledger_refines i _ w m Hr Henv) as H.
  destruct (run i _ w) as [e w']. cbn [fst snd] in *. subst e. destruct H as (dn & Hrep & _ & Hdone). cbn [decide_op] in Hdone.
  fold (top_level known header) in Hdone. rewrite Htop in Hdone. destruct Hdone as (_ & Hd & _). specialize (Hd eq_refl).
  exists (filter (fun e => false || is_live e) m.*2). split; [by apply edges_read|]. rewrite (edges_read _ _ _ _ Hrep). f_equal.
  set (hit := fun p : jsstr * edge => is_live p.2 && jseqb (canon (e_child p.2)) (canon path)). set (dels := filter (fun p => hit p) m).
  assert (Hlive : live_at (canon path) m = dels.*2).
  { unfold live_at, dels. clear. induction m as [|p m IH]; [done|]. change ((p :: m).*2) with (p.2 :: m.*2). rewrite filter_cons, (filter_cons (fun p => Is_true (hit p))).
    change (is_live p.2 && jseqb (canon (e_child p.2)) (canon path)) with (hit p). destruct (decide (Is_true (hit p))); [rewrite fmap_cons; by f_equal|done]. }
  assert (Hmap : apply_all m dn = (fun p => if hit p then (p.1, with_deleted DUser p.2) else p) <$> m).
  { rewrite Hd, Hlive, <- list_fmap_compose. rewrite Forall_forall in Hall. etrans; [apply (tombstones m dels ts Hnd)|].
    - intros q [_ Hq]%list_elem_of_filter. destruct (Hall q Hq) as [H1 H2]. split; [done|]. split; [done|]. apply list_elem_of_fmap. by exists q.
    - apply list_fmap_ext. intros k p Hp. apply list_elem_of_lookup_2 in Hp. destruct (hit p) eqn:Eh.
      + rewrite decide_True; [done|]. apply list_elem_of_fmap. exists p. split; [done|]. apply list_elem_of_filter. by rewrite Eh.
      + rewrite decide_False; [done|]. intros (q & Hpq & [Hh Hq]%list_elem_of_filter)%list_elem_of_fmap. destruct p as [k1 e1], q as [k2 e2]. cbn in Hpq. subst k2.
        apply (get_nodup _ _ _ Hnd) in Hp, Hq. assert (e1 = e2) as -> by congruence. by rewrite Eh in Hh. }
  rewrite Hmap. clear -Hall. induction Hall as [|p m [_ Hc] _ IH]; [done|]. rewrite !fmap_cons. cbn [orb] in *.
  assert (Hhit : hit p = is_live p.2 && bool_decide (e_child p.2 = canon path)) by (unfold hit; by rewrite Hc).
  destruct (is_live p.2) eqn:El; cbn [andb] in Hhit.
  - rewrite (filter_cons_True _ p.2) by by rewrite El. case_bool_decide as Hp; rewrite Hhit; cbn [fst snd].
    + rewrite (filter_cons_False _ (with_deleted DUser p.2)) by (by intros []). rewrite filter_cons_False by auto. exact IH.
    + rewrite (filter_cons_True _ p.2) by by rewrite El. rewrite filter_cons_True by done. f_equal. exact IH.
  - rewrite Hhit. rewrite !(filter_cons_False _ p.2) by (rewrite El; by intros []). exact IH.
Qed.

End ledger.

(** ** An example *)

(** A link to a session file. *)
Definition ex_canon (p : jsstr) : jsstr := if jseqb p (js "/alias") then js "/real" else p.
Definition ex_dir : jsstr := js "/s".
Definition ex_tick (at_ : string) (mtime : Z) (written : nat) : tick := {| t_at := js at_; t_stable := true; t_written := written; t_mtime := mtime; t_ino := 7 |}.
Definition ex_start : world := {| w_disk := {| d_file := None; d_mtime := 0; d_ino := 0 |}; w_cache := fun _ => None |}.
Definition ex_spawn (id child : string) (mtime : Z) (written : nat) : op :=
  OSpawn (ex_tick "t" mtime written) {| in_childId := js id; in_parent := js "/s/p.jsonl"; in_child := js child; in_depth := num_Z 1; in_name := js "n" |}.
Definition ex_delete : op := OTombstone (fun _ => ex_tick "u" 9 1000) (js "/alias") None None.
Definition ex_edge (id child : string) : edge :=
  {| e_childId := js id; e_parent := js "/s/p.jsonl"; e_child := js child; e_depth := 1; e_name := js "n"; e_deleted := None |}.
Definition ex_one : world := (run ex_canon ex_dir 0 (ex_spawn "c1" "/alias" 1 1000) ex_start).2.
Definition ex_two : world := (run ex_canon ex_dir 1 (ex_spawn "c2" "/other" 2 1000) ex_one).2.

Lemma ex_canon_idem p : ex_canon (ex_canon p) = ex_canon p.
Proof. unfold ex_canon, jseqb. destruct (decide (p = js "/alias")) as [->|H]; [reflexivity|]. by rewrite !(bool_decide_false (p = js "/alias")) by done. Qed.

Ltac compute_env :=
  split; [by apply js_wf_check|]; intros m rs Hm Hrs; vm_compute in Hm; injection Hm as <-; vm_compute in Hrs; injection Hrs as <-;
  split; [repeat (apply Forall_cons; split); try apply Forall_nil_2; repeat split; (by apply js_wf_check) || (vm_compute; discriminate)|];
  split; [split; vm_compute; discriminate|];
  split; [intros [|k] Hk; [split; [by apply js_wf_check|]; split; [done|]; vm_compute; reflexivity|cbn in Hk; lia]|intros k Hk; cbn in Hk; lia].

Lemma ex_env_1 written : env_ok ex_canon ex_dir (ex_spawn "c1" "/alias" 1 written) ex_start.
Proof. compute_env. Qed.
Lemma ex_env_2 : env_ok ex_canon ex_dir (ex_spawn "c2" "/other" 2 1000) ex_one.
Proof. compute_env. Qed.
Lemma ex_env_3 : env_ok ex_canon ex_dir ex_delete ex_two.
Proof. compute_env. Qed.
Lemma ex_reachable : reachable ex_canon ex_dir ex_two.
Proof. apply reach_step; [apply reach_step; [apply reach_start|apply ex_env_1]|apply ex_env_2]. Qed.

(** The spawn is read by the other process. *)
Lemma ledger_refines_witness :
  represents ex_canon ex_start [] /\ (replaySyncCached ex_canon (ledger_of 1 ex_one)).1 = inl [(edgeKey ex_canon (js "c1") (js "/real"), ex_edge "c1" "/real")].
Proof.
  assert (H : represents ex_canon ex_start []) by (exists []; repeat split; constructor). split; [exact H|].
  pose proof (ledger_refines ex_canon ex_dir 0 (ex_spawn "c1" "/alias" 1 1000) ex_start [] H (ex_env_1 1000)) as Hr.
  unfold ex_one. destruct (run ex_canon ex_dir 0 (ex_spawn "c1" "/alias" 1 1000) ex_start) as [e w'] eqn:Er. destruct Hr as (dn & _ & Hread & Hd). rewrite Hread.
  destruct Hd as (_ & Hd & Hw). rewrite Hd; [vm_compute; reflexivity|]. apply Hw. intros k Hk. destruct k as [|k]; [|vm_compute in Hk; lia]. apply Nat.leb_le. vm_compute. reflexivity.
Defined.

Lemma unique_live_children_witness :
  reachable ex_canon ex_dir ex_two /\ exists es, (edges ex_canon false (ledger_of 0 ex_two)).1 = inl es /\ NoDup (e_child <$> es).
Proof.
  split; [exact ex_reachable|]. destruct (unique_live_children ex_canon ex_dir ex_canon_idem ex_two ex_reachable 0) as (es & H1 & H2 & _). exists es. exact (conj H1 H2).
Defined.

(** The session is deleted through the link. *)
Lemma tombstone_ends_path_witness :
  reachable ex_canon ex_dir ex_two /\ (run ex_canon ex_dir 0 ex_delete ex_two).1 = None /\
  (edges ex_canon false (ledger_of 1 (run ex_canon ex_dir 0 ex_delete ex_two).2)).1 = inl [ex_edge "c2" "/other"].
Proof.
  assert (He : (run ex_canon ex_dir 0 ex_delete ex_two).1 = None) by (vm_compute; reflexivity).
  split; [exact ex_reachable|]. split; [exact He|].
  destruct (tombstone_ends_path ex_canon ex_dir ex_canon_idem 0 (fun _ => ex_tick "u" 9 1000) (js "/alias") None None ex_two ex_reachable ex_env_3 eq_refl He 1)
    as (es & H1 & H2).
  assert (Hes : (edges ex_canon false (ledger_of 1 ex_two)).1 = inl [ex_edge "c1" "/real"; ex_edge "c2" "/other"]) by (vm_compute; reflexivity).
  rewrite Hes in H1. injection H1 as <-. unfold ex_delete. rewrite H2. vm_compute. reflexivity.
Defined.

(** A spawn whose line is torn is no edge, and the next append cuts its piece off. *)
Example torn_spawn : let w := (run ex_canon ex_dir 0 (ex_spawn "c1" "/alias" 1 100) ex_start).2 in
  (edges ex_canon false (ledger_of 1 w)).1 = inl [] /\
  (edges ex_canon false (ledger_of 1 (run ex_canon ex_dir 1 (ex_spawn "c2" "/other" 2 1000) w).2)).1 = inl [ex_edge "c2" "/other"].
Proof. vm_compute. split; reflexivity. Qed.

(** The same session under another id is refused, unless another process spawns it between the reading and the writing. *)
Example double_admission :
  (run ex_canon ex_dir 1 (ex_spawn "c2" "/real" 2 1000) ex_one).1 = Some (DuplicateChild (js "/real") (js "c1")) /\
  let raced := set_disk (w_disk ex_one) (ledger_of 1 ex_start) in
  (edges ex_canon false (appendRecord ex_dir (ex_tick "t" 2 1000) (RSpawn (js "t") (js "c2") (js "/s/p.jsonl") (js "/real") 1 (js "n")) raced).2).1 =
    inl [ex_edge "c1" "/real"; ex_edge "c2" "/real"].
Proof. vm_compute. split; reflexivity. Qed.

(** A tombstone written when a link led elsewhere finds its edge by the id, if only one has it. *)
Example retargeted_link :
  let spawned := [RSpawn (js "t") (js "c1") (js "/p") (js "/alias") 1 (js "n"); RDelete (js "t") (js "c1") (js "/old") DUser] in
  (fun p : jsstr * edge => e_deleted p.2) <$> replay_edges ex_canon spawned = [Some DUser].
Proof. vm_compute. reflexivity. Qed.
