(* ===== verification/SpawnFamily.v ===== *)
(** * Families of spawned sessions (modes/daemon/rlm-ledger.ts)

    What is read from the ledger: the rows of a directory's family, a
    session's siblings, the passive descendants of a catalog; and how a ledger
    that is missing is seeded from the registries of older sessions. *)

(* Source aliases:
   RL = src/packages/coding-agent/src/modes/daemon/rlm-ledger.ts *)

From S2P Require Import Prelude JsString JsNumber JsMap Messages Json FileLog IntegerText CommandJournal EventLog SummaryText FileLines SpawnLedger.
Local Open Scope Z_scope.

(** ** Rows *)

(** RL 43-43 SESSION_HEADER_PROBE_MAX_BYTES. *)
Definition SESSION_HEADER_PROBE_MAX_BYTES : Z := 1024 * 1024.

(** A row of the catalog, with what is only displayed of it. *)
Record SessionInfo (D : Type) := {
  si_path : jsstr; si_id : jsstr; si_cwd : jsstr; si_name : option jsstr; si_parent : option jsstr; si_depth : Z; si_display : D }.
Arguments si_path {D}. Arguments si_id {D}. Arguments si_cwd {D}. Arguments si_name {D}. Arguments si_parent {D}. Arguments si_depth {D}. Arguments si_display {D}.
Arguments Build_SessionInfo {D}.

(** A string that is there and not empty. *)
Definition text (o : option jsstr) : option jsstr := match o with Some [] => None | o => o end.

Section family.
Context {D : Type}.
(** [canonicalSessionPath]; the read-side cache returns the same while the links stand. *)
Variable canon : jsstr -> jsstr.
Variables (canonicalSessionsDir : jsstr) (join_path : jsstr -> jsstr -> jsstr) (basename : jsstr -> jsstr).
(** The disk: what [stat] says is a file, the names of a directory, the first megabyte of a file in lines, whether a session has an
    artifact; and the transcript of a session, as far as it can be read. *)
Variables (isFile : jsstr -> bool) (readdir : jsstr -> option (list jsstr)) (header_lines : jsstr -> list (list N)).
Variables (hasArtifact : jsstr -> jsstr -> jsstr -> bool) (readSessionInfo : jsstr -> option (SessionInfo D)) (no_display : D).

(** RL 642-659 sessionRow. The probe of the header: the id it names, and whether to load the transcript. *)
Fixpoint probe (path artifact : jsstr) (lines : list (list N)) (bytesRead : Z) (id : jsstr) : jsstr * bool :=
  match lines with
  | [] => (id, true)
  | line :: rest =>
      let bytesRead := bytesRead + Z.of_nat (length line) + 1 in
      if SESSION_HEADER_PROBE_MAX_BYTES <=? bytesRead then (id, true)
      else match trim (buffer_toString line) with
      | [] => probe path artifact rest bytesRead id
      | text =>
          match JSON_parse text with
          | None => probe path artifact rest bytesRead id
          | Some header =>
              let id := match prop header "id" with Some (JStr i) => if is_text "session" (prop header "type") then i else id | _ => id end in
              (id, hasArtifact path id artifact)
          end
      end
  end.

(** RL 628-694 sessionRow. *)
Definition sessionRow (path : jsstr) (depth : Z) (parentPath name metadataArtifact : option jsstr) : SessionInfo D :=
  let id := basename path in
  let '(id, loadMetadata) := match metadataArtifact with Some artifact => probe path artifact (header_lines path) 0 id | None => (id, true) end in
  match (if loadMetadata then readSessionInfo path else None) with
  | Some info =>
      {| si_path := si_path info; si_id := si_id info; si_cwd := si_cwd info; si_name := match text name with Some n => Some n | None => si_name info end;
         si_parent := text parentPath; si_depth := depth; si_display := si_display info |}
  | None =>
      {| si_path := path; si_id := id; si_cwd := []; si_name := text name; si_parent := text parentPath; si_depth := depth; si_display := no_display |}
  end.

(** RL 543-569 liveEdgesUnlocked. *)
Definition liveEdges (edges : list edge) : list edge :=
  filter (fun e => isFile (canon (e_child e)) && isFile (canon (e_parent e))) edges.

(** RL 574-577 familyUnlocked. The last edge to each child. *)
Definition by_child (alive : list edge) : jsmap jsstr edge := foldl (fun m e => set m (canon (e_child e)) e) [] alive.

(** RL 578-590 familyUnlocked. *)
Definition rootPaths (alive : list edge) : list jsstr :=
  let rootEntries := sort_by str_leb (filter (fun name => ends_with (js ".jsonl") name) (default [] (readdir canonicalSessionsDir))) in
  filter (fun path => negb (has (by_child alive) path)) ((fun entry => canon (join_path canonicalSessionsDir entry)) <$> rootEntries).

(** RL 596-609 familyUnlocked. The depth agrees with the parent's, if the ledger knows that. *)
Definition consistent (alive : list edge) (e : edge) : bool :=
  match get (foldl (fun m e => set m (canon (e_child e)) (e_depth e)) [] alive) (canon (e_parent e)) with
  | Some parentDepth => e_depth e =? parentDepth + 1
  | None => true
  end.

(** RL 571-626 familyUnlocked. *)
Definition family (alive : list edge) (metadataArtifact : option jsstr) : list (SessionInfo D) :=
  ((fun rootPath => sessionRow rootPath 0 None None metadataArtifact) <$> rootPaths alive) ++
  ((fun e => sessionRow (canon (e_child e)) (e_depth e) (Some (canon (e_parent e))) (Some (e_name e)) metadataArtifact) <$>
     filter (fun e => consistent alive e) alive).

(** RL 442-485 siblingsUnlocked. [edges] are the live edges of the ledger, [alive] those whose files are there. *)
Definition siblings (sessionPath : jsstr) (alive edges : list edge) : list (SessionInfo D) :=
  let target := canon sessionPath in
  let rows := family alive None in
  let parentByChild := foldl (fun m e => set m (canon (e_child e)) (canon (e_parent e))) [] edges in
  let alone := if isFile target then [sessionRow target 0 None None None] else [] in
  let is_target := fun row : SessionInfo D => jseqb (canon (si_path row)) target in
  match get parentByChild target with
  | Some parent =>
      let rows := filter (fun row => bool_decide (get parentByChild (canon (si_path row)) = Some parent)) rows in
      if negb (existsb is_target rows) && isFile target then alone else rows
  | None =>
      let roots := filter (fun row => si_depth row =? 0) rows in
      if existsb is_target roots then roots else alone
  end.

(** RL 905-938 withPassiveRlmDescendantInfos. [same_dir] compares two resolved directories. *)
Definition add_descendants (cwd : option jsstr) (same_dir : jsstr -> jsstr -> bool) (alive : list edge) (savedSessions : list (SessionInfo D)) : list (SessionInfo D) :=
  (foldl (fun '(sessions, seen) e =>
     let childPath := canon (e_child e) in
     if bool_decide (childPath ∈ seen) then (sessions, seen)
     else
       let seen := childPath :: seen in
       match readSessionInfo childPath with
       | None => (sessions, seen)
       | Some info =>
           if match cwd with Some c => negb (nonempty (si_cwd info)) || negb (same_dir (si_cwd info) c) | None => false end then (sessions, seen)
           else (sessions ++ [{| si_path := si_path info; si_id := si_id info; si_cwd := si_cwd info; si_name := si_name info;
                                 si_parent := Some (e_parent e); si_depth := e_depth e; si_display := si_display info |}], seen)
       end) (savedSessions, (fun i => canon (si_path i)) <$> savedSessions) alive).1.
Definition withPassiveRlmDescendantInfos (liveEdges : list edge + ledger_error) (cwd : option jsstr) (same_dir : jsstr -> jsstr -> bool)
    (savedSessions : list (SessionInfo D)) : list (SessionInfo D) :=
  match liveEdges with inr _ => savedSessions | inl alive => add_descendants cwd same_dir alive savedSessions end.
End family.

(** ** Registries of older sessions *)

(** RL 101-101 RlmLedgerSeedRegistryEntry. The status. *)
Inductive entry_status := SRunning | SCompleted | SDeleted.
(** RL 96-116 LegacyRlmSubagentRegistryEntry. With the whole object. *)
Record registry_entry := { r_childId : jsstr; r_sessionName : jsstr; r_sessionFile : jsstr; r_rlmDepth : option Z; r_status : entry_status;
                           r_sessionDir : jsstr; r_maxDepth : option Z; r_object : json }.
(** The status of an entry, if it has one of the three. *)
Definition entry_status_of (v : option json) : option entry_status :=
  if is_text "running" v then Some SRunning else if is_text "completed" v then Some SCompleted else if is_text "deleted" v then Some SDeleted else None.
(** A safe integer that is not negative. *)
Definition natural_depth (v : option json) : option Z :=
  match v with Some (JNum t) => match safe_integer (Number t) with Some d => if d <? 0 then None else Some d | None => None end | _ => None end.

(** RL 144-165 readLegacyRlmSubagentRegistry. One parsed line; [None] skips it. *)
Definition registry_line (dirname : jsstr -> jsstr) (entry : json) : option registry_entry :=
  if negb (is_text "rlm_subagent" (prop entry "type")) then None
  else match prop entry "childId", prop entry "sessionName", prop entry "sessionFile", entry_status_of (prop entry "status"),
             (match prop entry "rlmDepth" with None => Some None | v => Some <$> natural_depth v end) with
  | Some (JStr childId), Some (JStr sessionName), Some (JStr sessionFile), Some status, Some depth =>
      Some {| r_childId := childId; r_sessionName := sessionName; r_sessionFile := sessionFile; r_rlmDepth := depth; r_status := status;
              r_sessionDir := match prop entry "sessionDir" with Some (JStr d) => d | _ => dirname sessionFile end;
              r_maxDepth := natural_depth (prop entry "rlmMaxDepth"); r_object := entry |}
  | _, _, _, _, _ => None
  end.

(** [contents.split(/\r?\n/)]. *)
Definition split_crlf (contents : jsstr) : list jsstr :=
  let ls := lines_of contents in (strip_CR <$> removelast ls) ++ match last ls with Some l => [l] | None => [] end.

(** RL 139-172 readLegacyRlmSubagentRegistry. The last entry of each child, where the first stood. *)
Definition parse_registry (dirname : jsstr -> jsstr) (contents : jsstr) : list registry_entry :=
  (foldl (fun latest line =>
     match trim line with
     | [] => latest
     | trimmed =>
         match JSON_parse trimmed ≫= registry_line dirname with Some entry => set latest (r_childId entry) entry | None => latest end
     end) [] (split_crlf contents)).*2.

(** What reading a file comes to. *)
Inductive file_reading := Contents (s : jsstr) | NotFound | Unreadable.
(** RL 122-138 readLegacyRlmSubagentRegistry. A file that cannot be read has no entries, or throws when it is there and the caller asks. *)
Definition readLegacyRlmSubagentRegistry (dirname : jsstr -> jsstr) (throwOnReadError : bool) (f : file_reading) : option (list registry_entry) :=
  match f with
  | Contents s => Some (parse_registry dirname s)
  | NotFound => Some []
  | Unreadable => if throwOnReadError then None else Some []
  end.

(** RL 175-194 createRlmLedgerRegistrySeedSource. [firstLine] is the first line of the session's file, [None] if that throws;
    [registry] is the registry among the artifacts of the session with the id. *)
Definition readRegistryForSessionFile (dirname : jsstr -> jsstr) (firstLine : option (option jsstr)) (registry : jsstr -> file_reading) : list registry_entry :=
  match firstLine with
  | Some (Some (_ :: _ as line)) =>
      match JSON_parse line ≫= (fun header => prop header "id") with
      | Some (JStr (_ :: _ as headerId)) => default [] (readLegacyRlmSubagentRegistry dirname false (registry headerId))
      | _ => []
      end
  | _ => []
  end.

(** ** Seeding *)

Section seed.
Variables (canon : jsstr -> jsstr) (canonicalSessionsDir : jsstr) (join_path : jsstr -> jsstr -> jsstr).
(** The registries, and the clock at each record. *)
Variables (registry : jsstr -> list registry_entry) (nowIso : nat -> jsstr).

(** The state of the walk: what is queued, what was seen, and the records. *)
Record walk := { w_queue : list (jsstr * Z); w_visited : list jsstr; w_records : list ledger_record }.

(** RL 719-742 seed. One entry of a session's registry. *)
Definition seed_entry (sessionFile : jsstr) (depth : Z) (w : walk) (entry : registry_entry) : walk :=
  match r_status entry with
  | SDeleted => w
  | _ =>
      let childPath := canon (r_sessionFile entry) in
      if bool_decide (childPath ∈ w_visited w) then w
      else
        let visited := childPath :: w_visited w in
        let childDepth := match r_rlmDepth entry with Some d => if 1 <=? d then d else depth + 1 | None => depth + 1 end in
        if negb (nonempty (r_childId entry)) then {| w_queue := w_queue w; w_visited := visited; w_records := w_records w |}
        else {| w_queue := w_queue w ++ [(r_sessionFile entry, childDepth)]; w_visited := visited;
                w_records := w_records w ++ [RSpawn (nowIso (length (w_records w))) (r_childId entry) (canon sessionFile) childPath childDepth (r_sessionName entry)] |}
  end.

(** RL 716-744 seed. The walk over the queue. *)
Fixpoint seed_walk (fuel : nat) (w : walk) : option walk :=
  match w_queue w, fuel with
  | [], _ => Some w
  | (sessionFile, depth) :: rest, S fuel =>
      seed_walk fuel (foldl (seed_entry sessionFile depth) {| w_queue := rest; w_visited := w_visited w; w_records := w_records w |} (registry sessionFile))
  | _, O => None
  end.

(** RL 710-715 seed. *)
Definition seed_start (rootEntries : list jsstr) : walk :=
  let queue := (fun name => (join_path canonicalSessionsDir name, 0)) <$> sort_by str_leb (filter (fun name => ends_with (js ".jsonl") name) rootEntries) in
  {| w_queue := queue; w_visited := (fun item => canon item.1) <$> queue; w_records := [] |}.

(** RL 745-760 seed. What is to be published; [None] when there is nothing, or more than a reader would read. *)
Definition seed_payload (records : list ledger_record) : option (list N) :=
  match records with
  | [] => None
  | _ =>
      let payload := log_bytes (record_json <$> RMeta (nowIso (length records)) canonicalSessionsDir :: records) in
      if (RLM_LEDGER_MAX_RECORDS <? Z.of_nat (length records) + 1) || (RLM_LEDGER_MAX_BYTES <? Z.of_nat (length payload)) then None else Some payload
  end.

(** RL 761-796 publishSeedFile. The temporary file gets [written] bytes; [linked] tells whether the file system can link. The link fails when the
    file is there by now, and a write that is cut short is not noticed. *)
Definition publish (written : nat) (linked : bool) (payload : list N) (f : file) : file :=
  match f with
  | Some _ => f
  | None => if linked then Some (take written payload) else None
  end.

(** RL 696-776 seed. [before] and [now_] are the ledger's file at the start and at the time of the link. *)
Definition seed (fuel : nat) (hasSource : bool) (readdir : option (list jsstr)) (written : nat) (linked : bool) (before now_ : file) : option file :=
  if negb hasSource || match before with Some _ => true | None => false end then Some now_
  else match readdir with
  | None => Some now_
  | Some rootEntries =>
      w ← seed_walk fuel (seed_start rootEntries);
      Some match seed_payload (w_records w) with Some payload => publish written linked payload now_ | None => now_ end
  end.

(** RL 487-501 enqueue. The first operation of a process seeds; a seed that fails leaves the file. *)
Definition enqueue {A} (seed_file : file -> file) (t : tick) (fn : ledger -> A * ledger) (l : ledger) : A * ledger :=
  fn (if seedAttempted l then l
      else {| l_disk := touch t (seed_file (d_file (l_disk l))) (l_disk l); seedAttempted := true; edgeCache := edgeCache l |}).
End seed.

(** ** What families are *)

Lemma get_index {A B} (f : A -> jsstr) (g : A -> B) l k : get (foldl (fun m e => set m (f e) (g e)) [] l) k = g <$> last (filter (fun e => f e = k) l).
Proof.
  induction l as [|e l IH] using rev_ind; [done|]. rewrite foldl_app, list.filter_app. cbn [foldl]. rewrite get_set, filter_cons. cbn [filter list_filter].
  destruct (decide (f e = k)) as [_|Hk]; [by rewrite last_snoc|]. by rewrite app_nil_r.
Qed.
Lemma filter_none {A} (P : A -> Prop) `{!forall x, Decision (P x)} (l : list A) : (forall x, x ∈ l -> ~ P x) -> filter P l = [].
Proof.
  induction l as [|x l IH]; [done|]. intros Hno. rewrite filter_cons_False by apply Hno, list_elem_of_here. apply IH. intros y Hy. apply Hno. by apply list_elem_of_further.
Qed.
Lemma get_index_unique {A B} (f : A -> jsstr) (g : A -> B) l e : NoDup (f <$> l) -> e ∈ l -> get (foldl (fun m e => set m (f e) (g e)) [] l) (f e) = Some (g e).
Proof.
  intros Hnd He. rewrite get_index. apply list_elem_of_split in He as (a & b & ->). rewrite fmap_app, fmap_cons in Hnd.
  apply NoDup_app in Hnd as (_ & Ha & [Hb _]%list.NoDup_cons).
  assert (Hno : forall l', f e ∉ f <$> l' -> filter (fun x => f x = f e) l' = []).
  { intros l' Hl'. apply filter_none. intros x Hx Hfx. apply Hl'. apply list_elem_of_fmap. by exists x. }
  rewrite list.filter_app, filter_cons_True by done. rewrite (Hno b Hb), (Hno a); [done|]. intros Hin. apply (Ha _ Hin). apply list_elem_of_here.
Qed.
Lemma get_index_None {A B} (f : A -> jsstr) (g : A -> B) l k : get (foldl (fun m e => set m (f e) (g e)) [] l) k = None <-> k ∉ f <$> l.
Proof.
  rewrite get_index, fmap_None, last_None, list_elem_of_fmap. split.
  - intros H (e & -> & He). by apply (filter_nil_not_elem_of _ _ e H).
  - intros H. apply filter_none. intros e He Hk. apply H. by exists e.
Qed.

Section family_facts.
Context {D : Type}.
Variables (canon : jsstr -> jsstr) (canonicalSessionsDir : jsstr) (join_path : jsstr -> jsstr -> jsstr) (basename : jsstr -> jsstr).
Variables (readdir : jsstr -> option (list jsstr)) (header_lines : jsstr -> list (list N)).
Variables (hasArtifact : jsstr -> jsstr -> jsstr -> bool) (readSessionInfo : jsstr -> option (SessionInfo D)) (no_display : D).
(** A transcript is read under the path it is asked for. *)
Hypothesis info_path : forall p i, readSessionInfo p = Some i -> si_path i = p.

Let row := sessionRow basename header_lines hasArtifact readSessionInfo no_display.
Let roots := rootPaths canon canonicalSessionsDir join_path readdir.
Let rows := family canon canonicalSessionsDir join_path basename readdir header_lines hasArtifact readSessionInfo no_display.

Lemma row_topology p d parent name art : si_path (row p d parent name art) = p /\ si_depth (row p d parent name art) = d /\ si_parent (row p d parent name art) = text parent.
Proof.
  unfold row, sessionRow. destruct (match art with Some _ => _ | None => _ end) as [id []]; [|done]. destruct (readSessionInfo p) as [i|] eqn:E; [|done].
  cbn. by rewrite (info_path _ _ E).
Qed.

Lemma roots_not_children alive p : p ∈ roots alive -> p ∉ (fun e => canon (e_child e)) <$> alive.
Proof.
  intros [Hp _]%list_elem_of_filter. unfold has, by_child in Hp. rewrite <- (get_index_None (fun e => canon (e_child e)) (fun e => e)).
  destruct (get _ p); [by rewrite bool_decide_true in Hp|done].
Qed.

(** C23. The family is a forest of rows. For live edges with distinct children and entries that are distinct files: no
    session has two rows; a row is a file of the directory that no live edge leads to, at depth 0 and without a
    parent, or the child of a live edge, at the edge's depth and under its parent; and below a parent that is a
    child itself the depth is one more. Every edge that agrees with its parent's has its row. *)
Theorem family_rows (alive : list edge) (artifact : option jsstr) (Hnd : NoDup ((fun e => canon (e_child e)) <$> alive)) (Hroots : NoDup (roots alive)) :
  NoDup (si_path <$> rows alive artifact) /\
  (forall r, r ∈ rows alive artifact ->
     (si_path r ∈ roots alive /\ si_depth r = 0 /\ si_parent r = None) \/
     exists e, e ∈ alive /\ si_path r = canon (e_child e) /\ si_depth r = e_depth e /\ si_parent r = text (Some (canon (e_parent e))) /\
       forall e', e' ∈ alive -> canon (e_child e') = canon (e_parent e) -> e_depth e = e_depth e' + 1) /\
  (forall p, p ∈ roots alive -> p ∈ si_path <$> rows alive artifact) /\
  (forall e, e ∈ alive -> (forall e', e' ∈ alive -> canon (e_child e') = canon (e_parent e) -> e_depth e = e_depth e' + 1) ->
     canon (e_child e) ∈ si_path <$> rows alive artifact).
Proof.
  assert (Hpaths : si_path <$> rows alive artifact = roots alive ++ ((fun e => canon (e_child e)) <$> filter (fun e => consistent canon alive e) alive)).
  { unfold rows, family. rewrite fmap_app, <- !list_fmap_compose. f_equal.
    - etransitivity; [|apply list_fmap_id]. apply list_fmap_ext. intros _ p _. unfold compose. apply row_topology.
    - apply list_fmap_ext. intros _ e _. unfold compose. apply row_topology. }
  assert (Hcons : forall e, consistent canon alive e = true <-> forall e', e' ∈ alive -> canon (e_child e') = canon (e_parent e) -> e_depth e = e_depth e' + 1).
  { intros e. unfold consistent. destruct (get _ (canon (e_parent e))) as [d|] eqn:E.
    - split.
      + intros Hd e' He' Hp. rewrite <- Hp, (get_index_unique (fun e => canon (e_child e)) e_depth) in E by done. injection E as <-. lia.
      + intros H. rewrite (get_index (fun e => canon (e_child e)) e_depth) in E. destruct (last _) as [e'|] eqn:El; [|done]. injection E as <-.
        apply last_Some_elem_of, list_elem_of_filter in El as [Hp He']. specialize (H e' He' Hp). lia.
    - split; [|done]. intros _ e' He' Hp. apply (get_index_None (fun e => canon (e_child e)) e_depth) in E. exfalso. apply E. rewrite <- Hp.
      apply list_elem_of_fmap. by exists e'. }
  rewrite Hpaths. split; [|split; [|split]].
  - apply NoDup_app. split; [done|]. split.
    + intros p Hp Hin. apply (roots_not_children alive p Hp). apply list_elem_of_fmap in Hin as (e & -> & [_ He]%list_elem_of_filter). apply list_elem_of_fmap. by exists e.
    + eapply sublist_NoDup; [exact Hnd|]. apply (fmap_sublist (fun e => canon (e_child e))), sublist_filter.
  - unfold rows, family. fold row. intros r [(p & -> & Hp)%list_elem_of_fmap|(e & -> & [He Hin]%list_elem_of_filter)%list_elem_of_fmap]%elem_of_app.
    + left. destruct (row_topology p 0 None None artifact) as (-> & -> & ->). done.
    + right. exists e. destruct (row_topology (canon (e_child e)) (e_depth e) (Some (canon (e_parent e))) (Some (e_name e)) artifact) as (-> & -> & ->).
      split; [done|]. split; [done|]. split; [done|]. split; [done|]. by apply Hcons, Is_true_true.
  - intros p Hp. apply elem_of_app. by left.
  - intros e He H. apply elem_of_app. right. apply list_elem_of_fmap. exists e. split; [done|]. apply list_elem_of_filter. split; [|done]. by apply Is_true_true, Hcons.
Qed.

Variable isFile : jsstr -> bool.
Hypothesis canon_idem : forall p, canon (canon p) = canon p.
Let sibs := siblings canon canonicalSessionsDir join_path basename isFile readdir header_lines hasArtifact readSessionInfo no_display.

(** A session that is a file is among its siblings. *)
Theorem sibling_of_itself (sessionPath : jsstr) (alive es : list edge) (Hfile : isFile (canon sessionPath) = true) :
  exists r, r ∈ sibs sessionPath alive es /\ canon (si_path r) = canon sessionPath.
Proof.
  set (target := canon sessionPath).
  assert (Halone : exists r, r ∈ [row target 0 None None None] /\ canon (si_path r) = target).
  { eexists. split; [apply list_elem_of_here|]. destruct (row_topology target 0 None None None) as (-> & _). apply canon_idem. }
  assert (Hex : forall l, existsb (fun r : SessionInfo D => jseqb (canon (si_path r)) target) l = true -> exists r, r ∈ l /\ canon (si_path r) = target).
  { intros l (r & Hr & Ht)%existsb_exists. exists r. split; [by apply list_elem_of_In|]. by apply bool_decide_eq_true in Ht. }
  unfold sibs, siblings. rewrite Hfile. fold target row. destruct (get _ target).
  - destruct (existsb _ _) eqn:E; [|exact Halone]. by apply Hex.
  - destruct (existsb _ _) eqn:E; [|exact Halone]. by apply Hex.
Qed.
End family_facts.

(** ** What a seed is *)

Section seed_facts.
Variables (canon : jsstr -> jsstr) (canonicalSessionsDir : jsstr) (join_path : jsstr -> jsstr -> jsstr).
Variables (registry : jsstr -> list registry_entry) (nowIso : nat -> jsstr).
Hypothesis canon_idem : forall p, canon (canon p) = canon p.

Definition child_of (r : ledger_record) : list jsstr := match r with RSpawn _ _ _ c _ _ => [c] | _ => [] end.
Definition children (rs : list ledger_record) : list jsstr := rs ≫= child_of.
(** Every record spawns, at a depth of at least one, a session that is no root and no earlier child, from one that is. *)
Definition forest (roots : list jsstr) (rs : list ledger_record) : Prop :=
  forall pre r post, rs = pre ++ r :: post -> exists at_ id p c d n, r = RSpawn at_ id p c d n /\
    p ∈ roots ++ children pre /\ c ∉ roots ++ children pre /\ 1 <= d /\ id <> [] /\ canon c = c.

Lemma children_snoc rs r : children (rs ++ [r]) = children rs ++ child_of r.
Proof. unfold children. rewrite bind_app. cbn. by rewrite app_nil_r. Qed.

Lemma forest_snoc roots rs r : forest roots rs -> (exists at_ id p c d n, r = RSpawn at_ id p c d n /\
    p ∈ roots ++ children rs /\ c ∉ roots ++ children rs /\ 1 <= d /\ id <> [] /\ canon c = c) -> forest roots (rs ++ [r]).
Proof.
  intros Hf Hr pre r' post H. destruct post as [|x post _] using rev_ind.
  - apply app_inj_tail in H as [<- <-]. exact Hr.
  - rewrite app_comm_cons, (assoc_L app) in H. apply app_inj_tail in H as [H _]. by apply (Hf pre r' post).
Qed.

(** The key of an edge has its id up to the first NUL. *)
Definition plain_id (r : ledger_record) : Prop := match r with RSpawn _ i _ _ _ _ => 0%N ∉ i | _ => True end.
Definition walk_ok (roots : list jsstr) (w : walk) : Prop :=
  forest roots (w_records w) /\ Forall plain_id (w_records w) /\ (forall p, p ∈ roots ++ children (w_records w) -> p ∈ w_visited w) /\
  Forall (fun item => canon item.1 ∈ roots ++ children (w_records w) /\ 0 <= item.2) (w_queue w).

Lemma seed_entry_ok roots sessionFile depth w entry : walk_ok roots w -> canon sessionFile ∈ roots ++ children (w_records w) -> 0 <= depth -> 0%N ∉ r_childId entry ->
  walk_ok roots (seed_entry canon nowIso sessionFile depth w entry) /\
  canon sessionFile ∈ roots ++ children (w_records (seed_entry canon nowIso sessionFile depth w entry)).
Proof.
  intros (Hf & Hpl & Hv & Hq) Hs Hd Hnul. unfold seed_entry. assert (Hstay : walk_ok roots w /\ canon sessionFile ∈ roots ++ children (w_records w)) by done.
  destruct (r_status entry); try done; (case_bool_decide as Hin; [done|]); set (d' := match r_rlmDepth entry with Some _ => _ | None => _ end);
    assert (Hd' : 1 <= d') by (unfold d'; destruct (r_rlmDepth entry) as [d0|]; [destruct (1 <=? d0) eqn:E; lia|lia]);
    (destruct (negb (nonempty (r_childId entry))) eqn:Eid; [split; [|done]; split; [done|]; split; [done|]; split; [|done]; intros p Hp; apply list_elem_of_further; by apply Hv|]);
    assert (Hid : r_childId entry <> []) by (by destruct (r_childId entry));
    assert (Hsub : forall p, p ∈ roots ++ children (w_records w) -> p ∈ roots ++ children (w_records w) ++ [canon (r_sessionFile entry)]) by set_solver;
    unfold walk_ok; cbn [w_records w_visited w_queue]; rewrite children_snoc; cbn [child_of]; (split; [|by apply Hsub]).
  all: split; [|split; [apply Forall_app; split; [done|by repeat constructor]|split]].
  all: try (intros p; rewrite (assoc_L app), elem_of_app, list_elem_of_singleton; intros [Hp| ->]; [apply list_elem_of_further; by apply Hv|apply list_elem_of_here]).
  all: try (apply Forall_app; split; [eapply Forall_impl; [exact Hq|]; intros item [H1 H2]; split; [by apply Hsub|done]|];
            repeat constructor; cbn; [set_solver|lia]).
  all: apply forest_snoc; [done|]; do 6 eexists; split; [done|]; split; [done|]; split; [intros Hp; by apply Hin, Hv|]; split; [done|]; split; [done|apply canon_idem].
Qed.

Lemma seed_entries_ok roots sessionFile depth entries : forall w, walk_ok roots w -> canon sessionFile ∈ roots ++ children (w_records w) -> 0 <= depth ->
  Forall (fun e => 0%N ∉ r_childId e) entries -> walk_ok roots (foldl (seed_entry canon nowIso sessionFile depth) w entries).
Proof.
  induction entries as [|e es IH]; intros w Hw Hs Hd Hn; [done|]. apply Forall_cons in Hn as [He Hn]. cbn [foldl].
  destruct (seed_entry_ok roots sessionFile depth w e Hw Hs Hd He) as [H1 H2]. by apply IH.
Qed.

Lemma seed_walk_ok roots fuel : (forall s, Forall (fun e => 0%N ∉ r_childId e) (registry s)) -> forall w w', walk_ok roots w -> seed_walk canon registry nowIso fuel w = Some w' -> walk_ok roots w'.
Proof.
  intros Hnul. induction fuel as [|fuel IH]; intros w w' Hw; cbn [seed_walk]; destruct (w_queue w) as [|[s d] rest] eqn:Eq; try done; try (intros [= <-]; done).
  intros H. destruct Hw as (Hf & Hpl & Hv & Hq). rewrite Eq in Hq. apply Forall_cons in Hq as [[Hs Hd] Hq]. eapply IH; [|exact H].
  apply seed_entries_ok; [done|exact Hs|exact Hd|apply Hnul].
Qed.

(** *** The walk ends *)

(** What is queued, and what of a finite set of paths has not been seen. *)
Definition measure (U : list jsstr) (w : walk) : nat := length (w_queue w) + length (filter (fun u => u ∉ w_visited w) U).

Lemma unseen_less (U visited : list jsstr) u : u ∈ U -> u ∉ visited ->
  (length (filter (fun x => x ∉ u :: visited) U) < length (filter (fun x => x ∉ visited) U))%nat.
Proof.
  intros Hu Hn. assert (Hle : forall l : list jsstr, (length (filter (fun x => x ∉ u :: visited) l) <= length (filter (fun x => x ∉ visited) l))%nat).
  { induction l as [|x l IH]; [done|]. rewrite !filter_cons. repeat destruct (decide _); cbn; try lia. exfalso. set_solver. }
  apply list_elem_of_split in Hu as (a & b & ->). rewrite !list.filter_app, !length_app, filter_cons_False, filter_cons_True by set_solver.
  pose proof (Hle a). pose proof (Hle b). cbn. lia.
Qed.

Lemma seed_entry_measure U sessionFile depth w entry : canon (r_sessionFile entry) ∈ U ->
  (measure U (seed_entry canon nowIso sessionFile depth w entry) <= measure U w)%nat.
Proof.
  intros Hu. unfold seed_entry. destruct (r_status entry); try done; (case_bool_decide as Hin; [done|]);
    pose proof (unseen_less U (w_visited w) _ Hu Hin); destruct (negb _); unfold measure; cbn [w_queue w_visited]; rewrite ?length_app; cbn [length]; lia.
Qed.

Lemma seed_walk_ends U fuel : forall w, (forall s, Forall (fun e => canon (r_sessionFile e) ∈ U) (registry s)) -> (measure U w <= fuel)%nat ->
  exists w', seed_walk canon registry nowIso fuel w = Some w' /\ w_queue w' = [].
Proof.
  induction fuel as [|fuel IH]; intros w HU Hm; cbn [seed_walk]; destruct (w_queue w) as [|[s d] rest] eqn:Eq.
  - by exists w.
  - unfold measure in Hm. rewrite Eq in Hm. cbn in Hm. lia.
  - by exists w.
  - apply IH; [done|]. assert (Hfold : forall es w0, Forall (fun e => canon (r_sessionFile e) ∈ U) es ->
      (measure U (foldl (seed_entry canon nowIso s d) w0 es) <= measure U w0)%nat).
    { induction es as [|e es IHes]; intros w0 Hes; [done|]. apply Forall_cons in Hes as [He Hes]. cbn [foldl].
      etransitivity; [by apply IHes|by apply seed_entry_measure]. }
    pose proof (Hfold (registry s) {| w_queue := rest; w_visited := w_visited w; w_records := w_records w |} (HU s)) as Hle.
    unfold measure in Hm, Hle. rewrite Eq in Hm. cbn [w_queue w_visited length] in *. unfold measure. lia.
Qed.

(** *** What is published is read *)

(** The edge of a record. *)
Definition edge_of (r : ledger_record) : list edge :=
  match r with RSpawn _ i p c d n => [{| e_childId := i; e_parent := p; e_child := c; e_depth := d; e_name := n; e_deleted := None |}] | _ => [] end.

Lemma split_at_NUL (a b c d : jsstr) : 0%N ∉ a -> 0%N ∉ b -> a ++ [0%N] ++ c = b ++ [0%N] ++ d -> a = b /\ c = d.
Proof.
  revert b. induction a as [|x a IH]; intros [|y b] Ha Hb H; cbn in H; [by injection H as ->|injection H as <- _; set_solver|injection H as -> _; set_solver|].
  injection H as <- H. destruct (IH b) as [-> ->]; [set_solver|set_solver|done|done].
Qed.

Lemma forest_edges roots rs : forest roots rs -> Forall plain_id rs ->
  (replay_edges canon rs).*2 = rs ≫= edge_of /\ (forall k, k ∈ (replay_edges canon rs).*1 -> exists i c, k = edgeKey canon i c /\ 0%N ∉ i /\ c ∈ children rs /\ canon c = c).
Proof.
  induction rs as [|r rs IH] using rev_ind; intros Hf Hn; [split; [done|]; intros k Hk; by apply elem_of_nil in Hk|].
  assert (Hf' : forest roots rs) by (intros pre x post ->; apply (Hf pre x (post ++ [r])); by rewrite <- (assoc_L app)).
  apply Forall_app in Hn as [Hn Hr]. apply Forall_cons in Hr as [Hr _]. destruct (IH Hf' Hn) as [He Hk].
  destruct (Hf rs r [] eq_refl) as (at_ & id & p & c & d & n & -> & _ & Hc & _ & _ & Hcc).
  unfold replay_edges. rewrite foldl_app. fold (replay_edges canon rs). cbn [foldl apply_record]. rewrite set_new.
  - rewrite !fmap_app, bind_app, He. cbn. split; [done|]. intros k [H|H%list_elem_of_singleton]%elem_of_app.
    + destruct (Hk k H) as (i & c' & -> & Hi & Hc' & Hcc'). exists i, c'. split; [done|]. split; [done|]. split; [|done].
      rewrite children_snoc. apply elem_of_app. by left.
    + subst k. exists id, c. split; [done|]. split; [done|]. split; [|done]. rewrite children_snoc. apply elem_of_app. right. apply list_elem_of_here.
  - intros H. destruct (Hk _ H) as (i & c' & Hkey & Hi & Hc' & Hcc'). apply split_at_NUL in Hkey as [_ Hkey]; [|done|done].
    apply Hc. rewrite <- Hcc, Hkey, Hcc'. apply elem_of_app. by right.
Qed.

Lemma seed_payload_Some rs payload : seed_payload canonicalSessionsDir nowIso rs = Some payload ->
  payload = log_bytes (record_json <$> RMeta (nowIso (length rs)) canonicalSessionsDir :: rs) /\
  Z.of_nat (length payload) <= RLM_LEDGER_MAX_BYTES /\ Z.of_nat (length rs) + 1 <= RLM_LEDGER_MAX_RECORDS.
Proof.
  unfold seed_payload. destruct rs as [|r rs]; [done|]. destruct (_ || _) eqn:Eb; [done|]. intros [= <-]. apply orb_false_iff in Eb as [Eb1 Eb2]. apply Z.ltb_ge in Eb1, Eb2.
  split; [done|]. split; [exact Eb2|exact Eb1].
Qed.

(** C24. A missing ledger is seeded from the registries. When these name finitely many sessions the walk over them ends;
    its records are a forest over the sessions of the directory; and when they are published whole, the ledger is read as
    exactly their edges, in their order. *)
Theorem seeded_ledger (U : list jsstr) (rootEntries : list jsstr)
    (HU : forall s, Forall (fun e => canon (r_sessionFile e) ∈ U /\ 0%N ∉ r_childId e) (registry s)) :
  let w0 := seed_start canon canonicalSessionsDir join_path rootEntries in
  exists w, seed_walk canon registry nowIso (measure U w0) w0 = Some w /\ forest ((fun item => canon item.1) <$> w_queue w0) (w_records w) /\
    forall payload, Forall record_ok (w_records w) -> js_wf canonicalSessionsDir -> js_wf (nowIso (length (w_records w))) ->
      seed_payload canonicalSessionsDir nowIso (w_records w) = Some payload ->
      exists m, replaySync canon (publish (length payload) true payload None) = inl m /\ m.*2 = w_records w ≫= edge_of.
Proof.
  intros w0. destruct (seed_walk_ends U (measure U w0) w0) as (w & Hw & _); [|done|].
  { intros s. eapply Forall_impl; [apply HU|]. by intros e [H _]. }
  exists w. split; [exact Hw|]. set (roots := (fun item => canon item.1) <$> w_queue w0).
  assert (H0 : walk_ok roots w0).
  { split; [intros pre r post H; by destruct pre|]. split; [constructor|]. split.
    - intros p Hp. cbn in Hp. rewrite app_nil_r in Hp. exact Hp.
    - apply Forall_forall. intros item Hi. split; [apply elem_of_app; left; apply list_elem_of_fmap; by exists item|].
      cbn [w0 seed_start w_queue] in Hi. apply list_elem_of_fmap in Hi as (name & -> & _). cbn. lia. }
  destruct (seed_walk_ok roots (measure U w0)) with (w := w0) (w' := w) as (Hf & Hpl & _); [|done|done|].
  { intros s. eapply Forall_impl; [apply HU|]. by intros e [_ H]. }
  split; [exact Hf|]. intros payload Hok Hdir Hnow Hp. unfold publish. rewrite firstn_all. apply seed_payload_Some in Hp as (-> & Hb & Hn).
  set (meta := RMeta (nowIso (length (w_records w))) canonicalSessionsDir) in *. exists (replay_edges canon (meta :: w_records w)).
  rewrite (stored_read canon _ (meta :: w_records w)).
  - split; [done|]. change (replay_edges canon (meta :: w_records w)) with (replay_edges canon (w_records w)). by apply (forest_edges roots).
  - split; [by constructor|]. split; [exists []; rewrite app_nil_r; split; [done|apply not_elem_of_nil]|]. cbn [length]. lia.
Qed.
End seed_facts.

(** ** Examples *)

Definition ex_join (dir name : jsstr) : jsstr := dir ++ js "/" ++ name.
Definition ex_names (_ : jsstr) : option (list jsstr) := Some [js "b.jsonl"; js "x.txt"; js "a.jsonl"].
Definition ex_child (parent child : string) (depth : Z) : edge :=
  {| e_childId := js child; e_parent := js parent; e_child := js child; e_depth := depth; e_name := js "n"; e_deleted := None |}.
Definition ex_alive : list edge := [ex_child "/s/a.jsonl" "/k1" 1; ex_child "/k1" "/k2" 2].
Definition ex_family : list edge -> option jsstr -> list (SessionInfo unit) :=
  family (fun p => p) (js "/s") ex_join (fun p => p) ex_names (fun _ => []) (fun _ _ _ => false) (fun _ => None) ().

Lemma family_rows_witness :
  NoDup ((fun e => e_child e) <$> ex_alive) /\ NoDup (si_path <$> ex_family ex_alive None) /\
  si_path <$> ex_family ex_alive None = [js "/s/a.jsonl"; js "/s/b.jsonl"; js "/k1"; js "/k2"].
Proof.
  assert (H0 : forall (p : jsstr) (i : SessionInfo unit), None = Some i -> si_path i = p) by done.
  assert (H1 : NoDup ((fun e => e_child e) <$> ex_alive)) by (apply (bool_decide_unpack _); vm_compute; exact I).
  assert (H2 : NoDup (rootPaths (fun p => p) (js "/s") ex_join ex_names ex_alive)) by (apply (bool_decide_unpack _); vm_compute; exact I).
  split; [exact H1|]. split; [|vm_compute; reflexivity].
  destruct (family_rows (D := unit) (fun p => p) (js "/s") ex_join (fun p => p) ex_names (fun _ => []) (fun _ _ _ => false) (fun _ => None) ()
    H0 ex_alive None H1 H2) as [H _].
  exact H.
Defined.

(** A child in the directory whose edge contradicts its parent's depth has no row at all: it is no root, for an edge leads to it,
    and the edge is dropped. *)
Example contradictory_edge_vanishes :
  si_path <$> ex_family [ex_child "/s/a.jsonl" "/k1" 1; ex_child "/k1" "/s/b.jsonl" 5] None = [js "/s/a.jsonl"; js "/k1"].
Proof. vm_compute. reflexivity. Qed.

Definition ex_entry (child file : string) (status : entry_status) : registry_entry :=
  {| r_childId := js child; r_sessionName := js "n"; r_sessionFile := js file; r_rlmDepth := None; r_status := status;
     r_sessionDir := js "/"; r_maxDepth := None; r_object := JNull |}.
(** The first child of [a] is a parent itself, and names [a] as its child. *)
Definition ex_registry (s : jsstr) : list registry_entry :=
  if jseqb s (js "/s/a.jsonl") then [ex_entry "k1" "/k1" SRunning; ex_entry "d" "/d" SDeleted]
  else if jseqb s (js "/k1") then [ex_entry "a" "/s/a.jsonl" SRunning; ex_entry "k2" "/k2" SCompleted] else [].
Definition ex_universe : list jsstr := [js "/k1"; js "/k2"; js "/d"; js "/s/a.jsonl"].
Definition ex_seed_start : walk := seed_start (fun p => p) (js "/s") ex_join [js "b.jsonl"; js "a.jsonl"].

Lemma seeded_ledger_witness :
  Forall (fun e => r_sessionFile e ∈ ex_universe) (ex_registry (js "/k1")) /\
  exists w payload m, seed_walk (fun p => p) ex_registry (fun _ => js "t") (measure ex_universe ex_seed_start) ex_seed_start = Some w /\
    seed_payload (js "/s") (fun _ => js "t") (w_records w) = Some payload /\
    replaySync (fun p => p) (publish (length payload) true payload None) = inl m /\ (fun e => (e_child e, e_depth e)) <$> m.*2 = [(js "/k1", 1); (js "/k2", 2)].
Proof.
  assert (HU : forall s, Forall (fun e => r_sessionFile e ∈ ex_universe /\ 0%N ∉ r_childId e) (ex_registry s)).
  { intros s. unfold ex_registry. repeat destruct (jseqb _ _); apply (bool_decide_unpack _); vm_compute; exact I. }
  split; [apply (bool_decide_unpack _); vm_compute; exact I|].
  destruct (seeded_ledger (fun p => p) (js "/s") ex_join ex_registry (fun _ => js "t") (fun p => eq_refl) ex_universe [js "b.jsonl"; js "a.jsonl"] HU) as (w & Hw & _ & H).
  fold ex_seed_start in Hw. destruct (seed_payload (js "/s") (fun _ => js "t") (w_records w)) as [payload|] eqn:Ep.
  - exists w, payload. assert (Hw' := Hw). vm_compute in Hw'. injection Hw' as Hw'.
    destruct (H payload) as (m & Hm & He); [|by apply js_wf_check|by apply js_wf_check|done|].
    + rewrite <- Hw'. cbn [w_records]. repeat (apply Forall_cons; split); try apply Forall_nil_2; repeat split; (by apply js_wf_check) || (vm_compute; discriminate).
    + exists m. split; [exact Hw|]. split; [exact Ep|]. split; [exact Hm|]. rewrite He, <- Hw'. vm_compute. reflexivity.
  - exfalso. vm_compute in Hw. injection Hw as <-. vm_compute in Ep. discriminate.
Defined.

(** A short write of the seed is published all the same: the ledger is there, so that it is never seeded again, and has lost its end. *)
Example short_seed_published :
  let rs := [RSpawn (js "t") (js "k1") (js "/s/a.jsonl") (js "/k1") 1 (js "n"); RSpawn (js "t") (js "k2") (js "/k1") (js "/k2") 2 (js "n")] in
  match seed_payload (js "/s") (fun _ => js "t") rs with
  | Some payload =>
      match replaySync (fun p => p) (publish 200 true payload None) with inl m => e_child <$> m.*2 = [js "/k1"] | inr _ => False end
  | None => False
  end.
Proof. vm_compute. reflexivity. Qed.
