(* ===== verification/SnapshotCache.v ===== *)
(** * Snapshot transcripts (modes/daemon/snapshot-transcript-cache.ts)

    The daemon sends the messages of a session in chunks of lines, and the
    supervisor keeps the chunks of a snapshot while clients read them: in
    memory up to a limit, on disk beyond it. Clients may ask for chunks that
    are still to come, and hold on to a transcript that is to be disposed of. *)

(* Source aliases:
   TC = src/packages/coding-agent/src/modes/daemon/snapshot-transcript-cache.ts *)

From S2P Require Import Prelude JsString JsNumber JsMap Messages Json FileLog IntegerText.
Local Open Scope Z_scope.

(** TC 5-6 SNAPSHOT_TARGET_CHUNK_BYTES. *)
Definition SNAPSHOT_TARGET_CHUNK_BYTES : Z := 512 * 1024.
Definition SNAPSHOT_MEMORY_CACHE_BYTES : Z := 4 * 1024 * 1024.

(** ** Chunks of messages *)

Section chunks.
Variables (activeSessionId snapshotId : jsstr) (targetChunkBytes : Z).
(** Whether the signal is aborted when it is looked at for the [k]th time. *)
Variable aborted : nat -> bool.

(** TC 46-49 createSnapshotTranscriptChunks. One line, with the messages as they were serialized. *)
Definition chunk_line (index : Z) (serializedMessages : list jsstr) : jsstr :=
  let key (k : string) := json_quote (js k) ++ js ":" in
  js "{" ++ key "type"%string ++ json_quote (js "session_snapshot_chunk") ++ js "," ++ key "activeSessionId"%string ++ json_quote activeSessionId ++ js "," ++
  key "snapshotId"%string ++ json_quote snapshotId ++ js "," ++ key "index"%string ++ show_Z index ++ js "," ++ key "messages"%string ++ js "[" ++
  join [44%N] serializedMessages ++ js "]}" ++ [LF].

(** The variables of the generator, and what it has yielded. *)
Record writer := { serializedMessages : list jsstr; serializedBytes : Z; index : Z; yielded : list (list N) }.
(** TC 42-54 createSnapshotTranscriptChunks. *)
Definition flush (w : writer) : writer :=
  match serializedMessages w with
  | [] => w
  | ms => {| serializedMessages := []; serializedBytes := 0; index := index w + 1; yielded := yielded w ++ [buffer_from (chunk_line (index w) ms)] |}
  end.
(** TC 58-65 createSnapshotTranscriptChunks. One message. *)
Definition add_message (w : writer) (message : json) : writer :=
  let serialized := stringify message in
  let some := match serializedMessages w with [] => false | _ => true end in
  let bytes := byteLength serialized + (if some then 1 else 0) in
  let w := if some && (targetChunkBytes <? serializedBytes w + bytes) then flush w else w in
  {| serializedMessages := serializedMessages w ++ [serialized]; serializedBytes := serializedBytes w + bytes; index := index w; yielded := yielded w |}.
(** TC 56-69 createSnapshotTranscriptChunks. The messages; [true] when the signal ended it. *)
Fixpoint add_messages (k : nat) (w : writer) (messages : list json) : bool * writer :=
  match messages with
  | [] => if aborted k then (true, w) else (false, flush w)
  | m :: rest => if aborted k then (true, w) else add_messages (S k) (add_message w m) rest
  end.
(** TC 27-72 createSnapshotTranscriptChunks. *)
Definition createSnapshotTranscriptChunks (messages : list json) : bool * list (list N) :=
  let start := {| serializedMessages := []; serializedBytes := 0; index := 0; yielded := [] |} in
  if aborted 0 then (true, []) else let '(threw, w) := add_messages 1 start messages in (threw, yielded w).

(** ** What a chunk says *)

Definition chunk_json (i : Z) (messages : list json) : json :=
  JObj [(js "type", JStr (js "session_snapshot_chunk")); (js "activeSessionId", JStr activeSessionId); (js "snapshotId", JStr snapshotId);
        (js "index", JNum (show_Z i)); (js "messages", JArr messages)].
(** The bytes of the messages, with their commas. *)
Definition message_bytes (messages : list json) : Z := byteLength (join [44%N] (stringify <$> messages)).

Lemma chunk_line_json i messages : chunk_line i (stringify <$> messages) = stringify (chunk_json i messages) ++ [LF].
Proof.
  unfold chunk_line, chunk_json. rewrite stringify_obj. cbn [fmap list_fmap join]. unfold field_text. cbn [fst snd]. rewrite stringify_arr.
  change (stringify (JNum (show_Z i))) with (show_Z i). do 14 (cbn [app]; rewrite <- ?(assoc_L app)). reflexivity.
Qed.

(** The index of a chunk is not negative. *)
Lemma chunk_json_ok i messages : 0 <= i -> js_wf activeSessionId -> js_wf snapshotId -> Forall json_ok messages -> json_ok (chunk_json i messages).
Proof.
  intros Hi Ha Hs Hm. apply ok_obj; [apply (bool_decide_unpack _); vm_compute; exact I|repeat (apply Forall_cons; split; [by apply js_wf_check|]); apply Forall_nil_2|].
  repeat (apply Forall_cons; split; [cbn [snd]|]); try apply Forall_nil_2.
  - apply ok_str. by apply js_wf_check.
  - by apply ok_str.
  - by apply ok_str.
  - unfold show_Z. replace (i <? 0) with false by lia. apply show_N_ok.
  - by apply ok_arr.
Qed.

Lemma parse_with_LF v : json_ok v -> JSON_parse (stringify v ++ [LF]) = Some v.
Proof. intros H. unfold JSON_parse. rewrite (value_reads_back v H) by (rewrite ?length_app; lia || done). done. Qed.

(** A chunk is read as what it says. *)
Definition says (bytes : list N) (i : Z) (messages : list json) : Prop := JSON_parse (buffer_toString bytes) = Some (chunk_json i messages).

Lemma line_says i messages : 0 <= i -> js_wf activeSessionId -> js_wf snapshotId -> Forall json_ok messages -> says (buffer_from (chunk_line i (stringify <$> messages))) i messages.
Proof.
  intros Hi Ha Hs Hm. pose proof (chunk_json_ok i messages Hi Ha Hs Hm) as Hok. unfold says. rewrite chunk_line_json, utf8_round_trip.
  - by apply parse_with_LF.
  - apply Forall_app. split; [by apply line_text_wf, line_text_stringify|]. repeat constructor.
  - by apply paired_line, line_text_stringify.
Qed.

Lemma byteLength_join (ls : list jsstr) s : ls <> [] -> Forall (fun l => paired l) ls ->
  byteLength (join [44%N] (ls ++ [s])) = byteLength (join [44%N] ls) + 1 + byteLength s.
Proof.
  intros Hne Hp. assert (Hj : forall l : list jsstr, l <> [] -> join [44%N] (l ++ [s]) = join [44%N] l ++ [44%N] ++ s).
  { induction l as [|a l IH]; [done|]. intros _. destruct l as [|b l]; [done|]. change (join [44%N] ((a :: b :: l) ++ [s])) with (a ++ [44%N] ++ join [44%N] ((b :: l) ++ [s])).
    rewrite IH by done. change (join [44%N] (a :: b :: l)) with (a ++ [44%N] ++ join [44%N] (b :: l)). by rewrite <- !(assoc_L app). }
  assert (Hpj : forall l : list jsstr, Forall paired l -> paired (join [44%N] l)).
  { intros l H. induction H as [|a l Ha Hl IH]; [constructor|]. destruct l as [|b l]; [done|]. change (join [44%N] (a :: b :: l)) with (a ++ [44%N] ++ join [44%N] (b :: l)).
    apply paired_app; [done|]. apply paired_app; [apply paired_ascii; repeat constructor|done]. }
  rewrite Hj by done. unfold byteLength. rewrite buffer_from_app by by apply Hpj. rewrite (buffer_from_app [44%N]) by (apply paired_ascii; repeat constructor).
  rewrite !length_app. change (length (buffer_from [44%N])) with 1%nat. lia.
Qed.

(** A group of messages that makes a chunk: the target is only exceeded by a single message. *)
Definition fits (g : list json) : Prop := g <> [] /\ (length g = 1%nat \/ message_bytes g <= targetChunkBytes).
Definition lines_of_groups (gs : list (list json)) : list (list N) := imap (fun i g => buffer_from (chunk_line (Z.of_nat i) (stringify <$> g))) gs.

(** The generator has closed the groups [gs] and is filling [g]. *)
Definition filling (w : writer) (gs : list (list json)) (g : list json) : Prop :=
  serializedMessages w = stringify <$> g /\ index w = Z.of_nat (length gs) /\ yielded w = lines_of_groups gs /\ Forall fits gs /\
  message_bytes g <= serializedBytes w /\ ((length g <= 1)%nat \/ serializedBytes w <= targetChunkBytes).

Lemma flush_filling w gs g : filling w gs g -> filling (flush w) (match g with [] => gs | _ => gs ++ [g] end) [].
Proof.
  intros (Hm & Hi & Hy & Hf & Hb & Ht). unfold flush. rewrite Hm. destruct g as [|m g]; [by repeat split|]. rewrite fmap_cons.
  split; [done|]. cbn [serializedMessages serializedBytes index yielded]. split; [rewrite length_app; cbn; lia|]. split; [|split; [|split; [done|left; cbn; lia]]].
  - rewrite Hy. unfold lines_of_groups. rewrite imap_app. cbn [imap]. rewrite Nat.add_0_r, Hi. done.
  - apply Forall_app. split; [done|]. apply Forall_cons. split; [|apply Forall_nil_2]. split; [done|]. destruct Ht as [Ht|Ht]; [left; cbn in *; lia|right; lia].
Qed.

Lemma add_filling w gs g m : filling w gs g -> Forall json_ok (g ++ [m]) -> exists gs' g', filling (add_message w m) gs' g' /\ concat gs' ++ g' = (concat gs ++ g) ++ [m].
Proof.
  intros Hw Hok. pose proof Hw as (Hm & Hi & Hy & Hf & Hb & Ht).
  assert (Hsome : match serializedMessages w with [] => false | _ => true end = match g with [] => false | _ => true end) by (rewrite Hm; by destruct g).
  assert (Hpair : Forall (fun l => paired l) (stringify <$> g)).
  { apply Forall_fmap. apply Forall_app in Hok as [Hok _]. eapply Forall_impl; [exact Hok|]. intros v Hv. cbn. by apply line_text_stringify. }
  unfold add_message. rewrite Hsome. set (bytes := byteLength (stringify m) + _).
  assert (Hbytes : bytes = byteLength (stringify m) + match g with [] => 0 | _ => 1 end) by (unfold bytes; by destruct g). clearbody bytes.
  assert (Hnil : message_bytes [] = 0) by done.
  destruct (_ && _) eqn:E.
  - destruct g as [|m0 g0]; [done|]. apply flush_filling in Hw. destruct Hw as (Hm' & Hi' & Hy' & Hf' & Hb' & _). exists (gs ++ [m0 :: g0]), [m]. split.
    + split; [cbn [serializedMessages]; by rewrite Hm'|]. split; [done|]. split; [done|]. split; [done|]. split; [|left; cbn; lia].
      cbn [serializedBytes]. change (message_bytes [m]) with (byteLength (stringify m)). lia.
    + rewrite concat_app. cbn [concat]. by rewrite app_nil_r.
  - exists gs, (g ++ [m]). split; [|by rewrite (assoc_L app)]. split; [cbn; by rewrite Hm, fmap_app|]. split; [done|]. split; [done|]. split; [done|]. cbn [serializedBytes].
    destruct g as [|m0 g0]; [split; [change (message_bytes ([] ++ [m])) with (byteLength (stringify m)); lia|left; cbn; lia]|].
    assert (Hj : message_bytes ((m0 :: g0) ++ [m]) = message_bytes (m0 :: g0) + 1 + byteLength (stringify m)).
    { unfold message_bytes. rewrite fmap_app. by apply byteLength_join. }
    cbn [andb] in E. rewrite Hj. split; [lia|right; lia].
Qed.

Lemma add_messages_filling messages : (forall k, aborted k = false) -> forall k w gs g, filling w gs g -> Forall json_ok (concat gs ++ g ++ messages) ->
  exists w' groups, add_messages k w messages = (false, w') /\ yielded w' = lines_of_groups groups /\ Forall fits groups /\ concat groups = concat gs ++ g ++ messages.
Proof.
  intros Ha. induction messages as [|m rest IH]; intros k w gs g Hw Hok; cbn [add_messages]; rewrite Ha.
  - exists (flush w), (match g with [] => gs | _ => gs ++ [g] end). destruct (flush_filling _ _ _ Hw) as (_ & _ & Hy & Hf & _). split; [done|]. split; [done|]. split; [done|].
    rewrite app_nil_r. destruct g; [by rewrite app_nil_r|]. rewrite concat_app. cbn [concat]. by rewrite app_nil_r.
  - rewrite (cons_middle m g rest), !(assoc_L app) in Hok |- *.
    destruct (add_filling w gs g m Hw) as (gs' & g' & Hw' & Hc).
    { apply Forall_app in Hok as [Hok _]. rewrite <- (assoc_L app) in Hok. by apply Forall_app in Hok as [_ Hok]. }
    rewrite <- Hc, <- (assoc_L app) in Hok |- *. by apply IH.
Qed.

(** Chunks carry the messages. Read back, the chunks of a transcript are its messages in their order, numbered from
    zero; none is empty, and only a chunk of one message is larger than the target. *)
Theorem chunks_carry_messages (messages : list json) (Hmessages : Forall json_ok messages) (Hids : js_wf activeSessionId /\ js_wf snapshotId)
    (Hsignal : forall k, aborted k = false) :
  exists chunks groups, createSnapshotTranscriptChunks messages = (false, chunks) /\ concat groups = messages /\ length chunks = length groups /\
    forall i g, groups !! i = Some g -> exists bytes, chunks !! i = Some bytes /\ says bytes (Z.of_nat i) g /\ fits g.
Proof.
  unfold createSnapshotTranscriptChunks. rewrite Hsignal.
  destruct (add_messages_filling messages Hsignal 1 {| serializedMessages := []; serializedBytes := 0; index := 0; yielded := [] |} [] []) as (w & gs & Hw & Hy & Hf & Hc).
  { split; [done|]. split; [done|]. split; [done|]. split; [constructor|]. split; [done|left; cbn; lia]. }
  { done. }
  rewrite Hw, Hy. exists (lines_of_groups gs), gs. split; [done|]. split; [exact Hc|]. split; [apply length_imap|]. intros i g Hg.
  exists (buffer_from (chunk_line (Z.of_nat i) (stringify <$> g))). split; [|split].
  - unfold lines_of_groups. rewrite list_lookup_imap, Hg. done.
  - destruct Hids. apply line_says; [lia|done|done|]. cbn in Hc. apply list_elem_of_lookup_2 in Hg. rewrite Forall_forall in Hmessages |- *. intros v Hv. apply Hmessages. rewrite <- Hc.
    apply list_elem_of_In, in_concat. exists g. split; by apply list_elem_of_In.
  - apply list_elem_of_lookup_2 in Hg. rewrite Forall_forall in Hf. by apply Hf.
Qed.

End chunks.

(** ** The cache *)

Section cache.
Variables (options_activeSessionId options_snapshotId cacheRoot : jsstr) (memoryLimit : Z) (join_path : jsstr -> jsstr -> jsstr).

(** TC 8-11 SnapshotTranscriptChunk. *)
Inductive stored_chunk := InMemory (buffer : list N) | OnDisk (path : jsstr).
(** What a promise of a chunk comes to. *)
Inductive outcome := GotChunk (buffer : list N) | NoMore | Failed (error : jsstr) | Aborted.

(** TC 74-101 SnapshotTranscriptCache. With the files of the disk, the promises in the order they were made by the index they ask for,
    what they came to, and the readers that retain the transcript. *)
Record cache := {
  tc_chunks : list stored_chunk; cacheDirectory : option jsstr; totalBytes : Z; completed : bool; disposeRequested : bool; disposed : bool;
  failure : option jsstr; chunkWaiters : jsmap nat (list nat);
  files : jsmap jsstr (list N); promises : list nat; settled : list (nat * outcome); tokens : list bool; readers : Z }.
Definition fresh (fs : jsmap jsstr (list N)) : cache :=
  {| tc_chunks := []; cacheDirectory := None; totalBytes := 0; completed := false; disposeRequested := false; disposed := false; failure := None;
     chunkWaiters := []; files := fs; promises := []; settled := []; tokens := []; readers := 0 |}.

(** Assignments. *)
Definition with_store (chunks : list stored_chunk) (dir : option jsstr) (total : Z) (fs : jsmap jsstr (list N)) (c : cache) : cache :=
  {| tc_chunks := chunks; cacheDirectory := dir; totalBytes := total; completed := completed c; disposeRequested := disposeRequested c; disposed := disposed c;
     failure := failure c; chunkWaiters := chunkWaiters c; files := fs; promises := promises c; settled := settled c; tokens := tokens c; readers := readers c |}.
Definition with_waiters (ws : jsmap nat (list nat)) (ps : list nat) (st : list (nat * outcome)) (c : cache) : cache :=
  {| tc_chunks := tc_chunks c; cacheDirectory := cacheDirectory c; totalBytes := totalBytes c; completed := completed c; disposeRequested := disposeRequested c;
     disposed := disposed c; failure := failure c; chunkWaiters := ws; files := files c; promises := ps; settled := st; tokens := tokens c; readers := readers c |}.
Definition with_flags (comp req disp : bool) (fail : option jsstr) (c : cache) : cache :=
  {| tc_chunks := tc_chunks c; cacheDirectory := cacheDirectory c; totalBytes := totalBytes c; completed := comp; disposeRequested := req; disposed := disp;
     failure := fail; chunkWaiters := chunkWaiters c; files := files c; promises := promises c; settled := settled c; tokens := tokens c; readers := readers c |}.
Definition with_readers (ts : list bool) (n : Z) (c : cache) : cache :=
  {| tc_chunks := tc_chunks c; cacheDirectory := cacheDirectory c; totalBytes := totalBytes c; completed := completed c; disposeRequested := disposeRequested c;
     disposed := disposed c; failure := failure c; chunkWaiters := chunkWaiters c; files := files c; promises := promises c; settled := settled c; tokens := ts; readers := n |}.

(** TC 103-105 chunkCount. *)
Definition chunkCount (c : cache) : nat := length (tc_chunks c).
(** TC 107-109 complete. *)
Definition complete (c : cache) : bool := completed c && match failure c with None => true | Some _ => false end && negb (disposed c).
(** TC 115-117 fileBacked. *)
Definition fileBacked (c : cache) : bool := match cacheDirectory c with Some _ => true | None => false end.

(** TC 119-131 readChunk. [None] throws. *)
Definition readChunk (i : nat) (c : cache) : option (list N) :=
  match tc_chunks c !! i with
  | Some (InMemory b) => Some b
  | Some (OnDisk path) => JsMap.get (files c) path
  | None => None
  end.

(** TC 250-257 storeChunk. The names in the cache's root and in its directory. *)
Definition safe_char (u : N) : N :=
  if ((48 <=? u) && (u <=? 57) || (65 <=? u) && (u <=? 90) || (97 <=? u) && (u <=? 122) || (u =? 95) || (u =? 45))%N then u else 95%N.
Definition directory_name : jsstr := join_path cacheRoot (safe_char <$> options_snapshotId).
Definition chunk_path (dir : jsstr) (i : nat) : jsstr := join_path dir (show_N (N.of_nat i) ++ js ".jsonl").

(** TC 252-260 storeChunk. The chunks in memory go to disk; [write k] tells whether the [k]th write succeeds, and the first that does not ends it. *)
Fixpoint spill (write : nat -> bool) (dir : jsstr) (k i : nat) (chunks : list stored_chunk) (fs : jsmap jsstr (list N)) : bool * list stored_chunk * jsmap jsstr (list N) :=
  match chunks with
  | [] => (true, [], fs)
  | InMemory b :: rest =>
      if write k then
        let '(ok, rest, fs) := spill write dir (S k) (S i) rest (JsMap.set fs (chunk_path dir i) b) in (ok, OnDisk (chunk_path dir i) :: rest, fs)
      else (false, chunks, fs)
  | OnDisk path :: rest => let '(ok, rest, fs) := spill write dir k (S i) rest fs in (ok, OnDisk path :: rest, fs)
  end.

(** TC 270-278 storeChunk. The waiters for the chunk that was stored; reading it back may throw. *)
Definition wake (c : cache) : bool * cache :=
  let i := (length (tc_chunks c) - 1)%nat in
  match JsMap.get (chunkWaiters c) i with
  | None => (true, c)
  | Some ws =>
      match readChunk i c with
      | None => (false, c)
      | Some stored => (true, with_waiters (JsMap.remove (chunkWaiters c) i) (promises c) (settled c ++ ((fun w => (w, GotChunk stored)) <$> ws)) c)
      end
  end.

(** TC 246-279 storeChunk. [mkdir] and [write] tell what the file system does; [false] throws. *)
Definition storeChunk (mkdir : bool) (write : nat -> bool) (buffer : list N) (c : cache) : bool * cache :=
  let total := totalBytes c + Z.of_nat (length buffer) in
  let '(ok, chunks, dir, fs) :=
    match cacheDirectory c with
    | None =>
        if memoryLimit <? total then
          if mkdir then let '(ok, chunks, fs) := spill write directory_name 1 0 (tc_chunks c) (files c) in (ok, chunks, Some directory_name, fs)
          else (false, tc_chunks c, Some directory_name, files c)
        else (true, tc_chunks c, None, files c)
    | Some dir => (true, tc_chunks c, Some dir, files c)
    end in
  let c := with_store chunks dir total fs c in
  if negb ok then (false, c)
  else match dir with
  | Some dir =>
      let path := chunk_path dir (length chunks) in
      if write 0%nat then wake (with_store (chunks ++ [OnDisk path]) (Some dir) total (JsMap.set fs path buffer) c) else (false, c)
  | None => wake (with_store (chunks ++ [InMemory buffer]) None total fs c)
  end.

(** TC 139-144 appendEncodedChunk. *)
Definition appendEncodedChunk (mkdir : bool) (write : nat -> bool) (buffer : list N) (c : cache) : bool * cache :=
  if completed c || match failure c with Some _ => true | None => false end || disposed c then (false, c) else storeChunk mkdir write buffer c.

(** TC 146-163 markComplete. The waiters beyond the last chunk get nothing. *)
Definition markComplete (c : cache) : bool * cache :=
  if completed c then (true, c)
  else if match failure c with Some _ => true | None => false end || disposed c then (false, c)
  else
    let beyond := filter (fun p => ~ (p.1 < length (tc_chunks c))%nat) (chunkWaiters c) in
    let here := filter (fun p => (p.1 < length (tc_chunks c))%nat) (chunkWaiters c) in
    (true, with_waiters here (promises c) (settled c ++ (beyond ≫= fun p => (fun w => (w, NoMore)) <$> p.2)) (with_flags true (disposeRequested c) (disposed c) (failure c) c)).

(** TC 165-176 markFailed. *)
Definition markFailed (error : jsstr) (c : cache) : cache :=
  match failure c with
  | Some _ => c
  | None => with_waiters [] (promises c) (settled c ++ (chunkWaiters c ≫= fun p => (fun w => (w, Failed error)) <$> p.2))
              (with_flags (completed c) (disposeRequested c) (disposed c) (Some error) c)
  end.

(** TC 178-210 waitForChunk. The promise is the next one; it throws when the chunk cannot be read. *)
Definition waitForChunk (i : nat) (aborted : bool) (c : cache) : bool * cache :=
  let p := length (promises c) in
  let settle o := (true, with_waiters (chunkWaiters c) (promises c ++ [i]) (settled c ++ [(p, o)]) c) in
  if aborted then settle Aborted
  else match failure c with
  | Some e => settle (Failed e)
  | None =>
      if Nat.ltb i (length (tc_chunks c)) then match readChunk i c with Some b => settle (GotChunk b) | None => (false, c) end
      else if completed c then settle NoMore
      else (true, with_waiters (JsMap.set (chunkWaiters c) i (default [] (JsMap.get (chunkWaiters c) i) ++ [p])) (promises c ++ [i]) (settled c) c)
  end.

(** TC 191-195 waitForChunk. The signal of a waiter aborts; the listener of a promise that is settled is gone. *)
Definition abortWait (p : nat) (c : cache) : cache :=
  match promises c !! p with
  | None => c
  | Some i =>
      match JsMap.get (chunkWaiters c) i with
      | Some ws =>
          if bool_decide (p ∈ ws) then
            let ws' := filter (fun w => w <> p) ws in
            with_waiters (match ws' with [] => JsMap.remove (chunkWaiters c) i | _ => JsMap.set (chunkWaiters c) i ws' end) (promises c) (settled c ++ [(p, Aborted)]) c
          else c
      | None => c
      end
  end.

(** TC 235-244 disposeNow. [rmSync] removes what is in the directory. *)
Definition disposeNow (disposed_message : jsstr) (c : cache) : cache :=
  if disposed c then c
  else
    let c := markFailed disposed_message (with_flags (completed c) (disposeRequested c) true (failure c) c) in
    with_store [] None (totalBytes c)
      (match cacheDirectory c with Some dir => filter (fun f => f.1 ∉ (chunk_path dir <$> seq 0 (S (length (tc_chunks c))))) (files c) | None => files c end) c.

(** TC 212-226 retain. [false] throws; the token is the place of the reader. *)
Definition retain (c : cache) : bool * cache := if disposed c then (false, c) else (true, with_readers (tokens c ++ [true]) (readers c + 1) c).
(** TC 218-225 retain. The function that releases. *)
Definition release (message : jsstr) (t : nat) (c : cache) : cache :=
  match tokens c !! t with
  | Some true =>
      let c := with_readers (<[t := false]> (tokens c)) (readers c - 1) c in
      if (readers c =? 0) && disposeRequested c then disposeNow message c else c
  | _ => c
  end.
(** TC 228-233 dispose. *)
Definition dispose (message : jsstr) (c : cache) : cache :=
  if disposed c || disposeRequested c then c
  else
    let c := with_flags (completed c) true (disposed c) (failure c) c in
    if 0 <? readers c then c else disposeNow message c.

(** ** Operations *)

Inductive cop :=
| CAppend (mkdir : bool) (write : nat -> bool) (buffer : list N)
| CComplete | CFail (error : jsstr) | CWait (i : nat) (aborted : bool) | CAbort (p : nat) | CRetain | CRelease (t : nat) | CDispose.
(** The message of the error of a disposal. *)
Variable disposed_message : jsstr.
Definition step (o : cop) (c : cache) : bool * cache :=
  match o with
  | CAppend mkdir write b => appendEncodedChunk mkdir write b c
  | CComplete => markComplete c
  | CFail e => (true, markFailed e c)
  | CWait i aborted => waitForChunk i aborted c
  | CAbort p => (true, abortWait p c)
  | CRetain => retain c
  | CRelease t => (true, release disposed_message t c)
  | CDispose => (true, dispose disposed_message c)
  end.
(** The chunks whose appends did not throw, and the cache. *)
Fixpoint run_ops (ops : list cop) (xs : list (list N)) (c : cache) : list (list N) * cache :=
  match ops with
  | [] => (xs, c)
  | o :: rest => let '(ok, c') := step o c in run_ops rest (match o with CAppend _ _ b => if ok then xs ++ [b] else xs | _ => xs end) c'
  end.

(** ** What a cache is *)

Hypothesis join_inj : forall d a b, join_path d a = join_path d b -> a = b.
Hypothesis limit_ok : 0 <= memoryLimit.

Lemma chunk_path_inj d i j : chunk_path d i = chunk_path d j -> i = j.
Proof.
  intros H. apply join_inj in H. apply app_inv_tail in H. pose proof (natural_show (N.of_nat i)) as Hi. rewrite H, natural_show in Hi. injection Hi as Hi. lia.
Qed.

Fixpoint mem_bytes (chunks : list stored_chunk) : Z :=
  match chunks with [] => 0 | InMemory b :: rest => Z.of_nat (length b) + mem_bytes rest | OnDisk _ :: rest => mem_bytes rest end.
Definition read_of (fs : jsmap jsstr (list N)) (s : stored_chunk) : option (list N) := match s with InMemory b => Some b | OnDisk path => JsMap.get fs path end.
Definition on_disk_at (d : option jsstr) (i : nat) (s : stored_chunk) : Prop := match s with InMemory _ => True | OnDisk path => d = Some directory_name /\ path = chunk_path directory_name i end.

(** The chunks that are stored. *)
Record storage (xs : list (list N)) (chunks : list stored_chunk) (dir : option jsstr) (fs : jsmap jsstr (list N)) : Prop := {
  st_read : (read_of fs) <$> chunks = Some <$> xs;
  st_disk : forall i s, chunks !! i = Some s -> on_disk_at dir i s;
  st_dir : dir = None \/ dir = Some directory_name;
  st_mem : mem_bytes chunks <= memoryLimit }.
Definition storage_ok (xs : list (list N)) (c : cache) : Prop :=
  if disposed c then tc_chunks c = [] /\ cacheDirectory c = None
  else storage xs (tc_chunks c) (cacheDirectory c) (files c) /\ (cacheDirectory c = None -> mem_bytes (tc_chunks c) = totalBytes c).

(** The promises: each is settled or waits, and what it came to is so. *)
Definition outcome_ok (xs : list (list N)) (c : cache) (i : nat) (o : outcome) : Prop :=
  match o with
  | GotChunk b => xs !! i = Some b
  | NoMore => completed c = true /\ (length xs <= i)%nat
  | Failed e => failure c = Some e
  | Aborted => True
  end.
Record promises_ok (xs : list (list N)) (c : cache) : Prop := {
  pr_perm : (settled c).*1 ++ (chunkWaiters c ≫= snd) ≡ₚ seq 0 (length (promises c));
  pr_keys : NoDup (chunkWaiters c).*1;
  pr_at : forall i ws, (i, ws) ∈ chunkWaiters c -> (length xs <= i)%nat /\ forall p, p ∈ ws -> promises c !! p = Some i;
  pr_closed : completed c = true \/ failure c <> None -> chunkWaiters c = [];
  pr_out : forall p o, (p, o) ∈ settled c -> exists i, promises c !! p = Some i /\ outcome_ok xs c i o }.

(** The readers. *)
Fixpoint held (ts : list bool) : Z := match ts with [] => 0 | t :: rest => (if t then 1 else 0) + held rest end.
Definition readers_ok (c : cache) : Prop := readers c = held (tokens c) /\ (disposed c = true -> failure c <> None /\ readers c = 0).

Definition cache_ok (xs : list (list N)) (c : cache) : Prop := storage_ok xs c /\ promises_ok xs c /\ readers_ok c.

(** *** Lists of waiters *)

Lemma waiters_remove (m : jsmap nat (list nat)) k ws : NoDup m.*1 -> JsMap.get m k = Some ws -> m ≫= snd ≡ₚ ws ++ (JsMap.remove m k ≫= snd).
Proof.
  intros Hnd Hg. induction m as [|[k1 v1] m IH]; [done|]. cbn in Hnd. apply list.NoDup_cons in Hnd as [Hk Hnd]. cbn [JsMap.get] in Hg. unfold JsMap.remove.
  rewrite filter_cons. cbn [fst]. destruct (decide (k1 = k)) as [->|Hne].
  - injection Hg as ->. rewrite decide_False by (by intros []). rewrite bind_cons. cbn [snd].
    assert (Hr : filter (fun p : nat * list nat => p.1 <> k) m = m).
    { clear -Hk. induction m as [|[k2 v2] m IH]; [done|]. cbn in Hk. apply not_elem_of_cons in Hk as [H1 H2]. rewrite filter_cons_True by (cbn; congruence). by rewrite IH. }
    by rewrite Hr.
  - rewrite decide_True by done. rewrite !bind_cons. cbn [snd]. specialize (IH Hnd Hg). unfold JsMap.remove in IH. rewrite IH. rewrite !(assoc_L app). f_equiv. apply Permutation_app_comm.
Qed.
Lemma waiters_set (m : jsmap nat (list nat)) k ws : NoDup m.*1 -> JsMap.set m k ws ≫= snd ≡ₚ ws ++ (JsMap.remove m k ≫= snd).
Proof.
  intros Hnd. etrans; [apply (waiters_remove _ k ws); [by apply set_nodup|by rewrite get_set, decide_True]|]. f_equiv.
  assert (Hr : JsMap.remove (JsMap.set m k ws) k = JsMap.remove m k).
  { clear. unfold JsMap.remove. induction m as [|[k1 v1] m IH]; cbn [JsMap.set]; [by rewrite filter_cons_False by (by intros [])|].
    destruct (decide (k1 = k)) as [->|Hne]; [by rewrite !filter_cons_False by (by intros [])|]. rewrite !filter_cons_True by done. by rewrite IH. }
  by rewrite Hr.
Qed.
Lemma remove_elem (m : jsmap nat (list nat)) k p : p ∈ JsMap.remove m k -> p ∈ m /\ p.1 <> k.
Proof. intros [H1 H2]%list_elem_of_filter. done. Qed.

Lemma ids_of (ws : list nat) (o : outcome) : ((fun w => (w, o)) <$> ws).*1 = ws.
Proof. rewrite <- list_fmap_compose. etransitivity; [|apply list_fmap_id]. by apply list_fmap_ext. Qed.

(** *** Storage *)

Lemma mem_bytes_app a b : mem_bytes (a ++ b) = mem_bytes a + mem_bytes b.
Proof. induction a as [|[x|x] a IH]; cbn; lia. Qed.
Lemma mem_bytes_nonneg a : 0 <= mem_bytes a.
Proof. induction a as [|[] a IH]; cbn; lia. Qed.

(** Spilling keeps what is read, and leaves nothing in memory when it ends. *)
Lemma spill_ok write chunks : forall k i fs xs, read_of fs <$> chunks = Some <$> xs ->
  (forall j s, chunks !! j = Some s -> on_disk_at (Some directory_name) (i + j) s) ->
  let '(ok, chunks', fs') := spill write directory_name k i chunks fs in
  read_of fs' <$> chunks' = Some <$> xs /\ (forall j s, chunks' !! j = Some s -> on_disk_at (Some directory_name) (i + j) s) /\
  mem_bytes chunks' <= mem_bytes chunks /\ (ok = true -> mem_bytes chunks' = 0) /\
  (forall j, (j < i)%nat -> JsMap.get fs' (chunk_path directory_name j) = JsMap.get fs (chunk_path directory_name j)).
Proof.
  induction chunks as [|s chunks IH]; intros k i fs xs Hr Hd; cbn [spill]; [split; [done|]; split; [done|]; split; [done|]; by split|].
  destruct xs as [|x xs]; [done|]. injection Hr as Hs Hr. change (read_of fs <$> chunks = Some <$> xs) in Hr.
  assert (Htail : forall fs1, (forall j, (i < j)%nat -> JsMap.get fs1 (chunk_path directory_name j) = JsMap.get fs (chunk_path directory_name j)) -> read_of fs1 <$> chunks = Some <$> xs).
  { intros fs1 Hf. rewrite <- Hr. apply list_fmap_ext. intros j s' Hj. specialize (Hd (S j) s' Hj). destruct s' as [b|path]; [done|]. destruct Hd as [_ ->]. apply Hf. lia. }
  assert (Hd' : forall j s', chunks !! j = Some s' -> on_disk_at (Some directory_name) (S i + j) s').
  { intros j s' Hj. replace (S i + j)%nat with (i + S j)%nat by lia. by apply Hd. }
  destruct s as [b|path].
  - injection Hs as ->. destruct (write k).
    + set (fs1 := JsMap.set fs (chunk_path directory_name i) x).
      assert (Hfs1 : forall j, j <> i -> JsMap.get fs1 (chunk_path directory_name j) = JsMap.get fs (chunk_path directory_name j)).
      { intros j Hj. unfold fs1. rewrite get_set, decide_False; [done|]. intros He. apply chunk_path_inj in He. congruence. }
      specialize (IH (S k) (S i) fs1 xs (Htail fs1 ltac:(intros; apply Hfs1; lia)) Hd'). destruct (spill write directory_name (S k) (S i) chunks fs1) as [[ok rest] fs']. destruct IH as (H1 & H2 & H3 & H4 & H5).
      cbn [fmap list_fmap mem_bytes read_of]. rewrite H5 by lia. unfold fs1 at 1. rewrite get_set, decide_True by done. split; [by f_equal|]. split; [|split; [lia|split; [done|]]].
      * intros [|j] s' Hj; [injection Hj as <-; rewrite Nat.add_0_r; done|]. replace (i + S j)%nat with (S i + j)%nat by lia. by apply H2.
      * intros j Hj. rewrite H5 by lia. apply Hfs1. lia.
    + cbn [fmap list_fmap read_of]. split; [by f_equal|]. split; [exact Hd|]. split; [done|]. split; done.
  - specialize (IH k (S i) fs xs Hr Hd'). destruct (spill write directory_name k (S i) chunks fs) as [[ok rest] fs']. destruct IH as (H1 & H2 & H3 & H4 & H5).
    cbn [fmap list_fmap mem_bytes read_of]. pose proof (Hd 0%nat (OnDisk path) eq_refl) as [_ Hp]. rewrite Nat.add_0_r in Hp. subst path.
    cbn [read_of] in Hs. rewrite H5, Hs by lia. split; [by f_equal|]. split; [|split; [done|split; [done|]]].
    + intros [|j] s' Hj; [injection Hj as <-; rewrite Nat.add_0_r; done|]. replace (i + S j)%nat with (S i + j)%nat by lia. by apply H2.
    + intros j Hj. apply H5. lia.
Qed.

Lemma storage_length xs chunks dir fs : storage xs chunks dir fs -> length chunks = length xs.
Proof. intros H. pose proof (f_equal length (st_read _ _ _ _ H)) as Hl. by rewrite !length_fmap in Hl. Qed.
Lemma storage_read xs c i : storage xs (tc_chunks c) (cacheDirectory c) (files c) -> readChunk i c = xs !! i.
Proof.
  intros H. pose proof (f_equal (fun l => l !! i) (st_read _ _ _ _ H)) as Hl. cbn in Hl. rewrite !list_lookup_fmap in Hl. unfold readChunk.
  destruct (tc_chunks c !! i) as [[b|path]|], (xs !! i) as [x|]; cbn in Hl; congruence.
Qed.

(** A chunk more, in memory or on disk. *)
Lemma storage_push_memory xs chunks fs b : storage xs chunks None fs -> mem_bytes chunks + Z.of_nat (length b) <= memoryLimit ->
  storage (xs ++ [b]) (chunks ++ [InMemory b]) None fs.
Proof.
  intros [Hr Hd Hdir Hm] Hb. split; [by rewrite !fmap_app, Hr| |done|rewrite mem_bytes_app; cbn; lia].
  intros i s Hs. apply lookup_app_Some in Hs as [Hs|[_ Hs]]; [by apply Hd|]. destruct (i - length chunks)%nat as [|n]; [by injection Hs as <-|done].
Qed.
Lemma storage_push_disk xs chunks fs b : storage xs chunks (Some directory_name) fs ->
  storage (xs ++ [b]) (chunks ++ [OnDisk (chunk_path directory_name (length chunks))]) (Some directory_name) (JsMap.set fs (chunk_path directory_name (length chunks)) b).
Proof.
  intros [Hr Hd Hdir Hm]. split; [| |by right|rewrite mem_bytes_app; cbn; lia].
  - rewrite !fmap_app. f_equal; [|cbn; by rewrite get_set, decide_True]. rewrite <- Hr. apply list_fmap_ext. intros i s Hs. destruct s as [x|path]; [done|].
    destruct (Hd i _ Hs) as [_ ->]. cbn. rewrite get_set, decide_False; [done|]. intros He. apply chunk_path_inj in He. apply lookup_lt_Some in Hs. lia.
  - intros i s Hs. apply lookup_app_Some in Hs as [Hs|[Hl Hs]]; [by apply Hd|]. destruct (i - length chunks)%nat as [|n] eqn:En; [|done]. injection Hs as <-.
    split; [done|]. f_equal. lia.
Qed.

(** *** Promises *)

Lemma promises_same xs c c' : completed c' = completed c -> failure c' = failure c -> chunkWaiters c' = chunkWaiters c -> promises c' = promises c -> settled c' = settled c ->
  promises_ok xs c -> promises_ok xs c'.
Proof.
  intros H1 H2 H3 H4 H5 [P1 P2 P3 P4 P5]. split; rewrite ?H1, ?H2, ?H3, ?H4, ?H5; try done.
  intros p o Hp. destruct (P5 p o Hp) as (i & Hi & Ho). exists i. split; [done|]. destruct o; cbn in *; by rewrite ?H1, ?H2.
Qed.

(** The chunk [b] is stored: its waiters get it. *)
Lemma wake_ok xs b c : completed c = false -> failure c = None -> promises_ok xs c -> length (tc_chunks c) = S (length xs) -> readChunk (length xs) c = Some b ->
  exists c', wake c = (true, c') /\ promises_ok (xs ++ [b]) c' /\ tc_chunks c' = tc_chunks c /\ cacheDirectory c' = cacheDirectory c /\ files c' = files c /\
    totalBytes c' = totalBytes c /\ disposed c' = disposed c /\ failure c' = failure c /\ tokens c' = tokens c /\ readers c' = readers c.
Proof.
  intros Hc Hf [P1 P2 P3 P4 P5] Hl Hr. unfold wake. rewrite Hl. replace (S (length xs) - 1)%nat with (length xs) by lia.
  assert (Hout : forall p o, (p, o) ∈ settled c -> exists i, promises c !! p = Some i /\ outcome_ok (xs ++ [b]) c i o).
  { intros p o Hp. destruct (P5 p o Hp) as (i & Hi & Ho). exists i. split; [done|]. destruct o; cbn in *; [by apply lookup_app_l_Some|destruct Ho; congruence|done|done]. }
  destruct (JsMap.get (chunkWaiters c) (length xs)) as [ws|] eqn:Eg.
  - rewrite Hr. eexists. split; [done|]. split; [|done]. destruct (P3 _ _ (get_elem _ _ _ Eg)) as [_ Hws].
    split; cbn [with_waiters settled chunkWaiters promises completed failure].
    + rewrite fmap_app, ids_of, <- P1, (waiters_remove _ _ _ P2 Eg). by rewrite <- (assoc_L app).
    + by apply remove_nodup.
    + intros i ws' [Hin Hne]%remove_elem. cbn in Hne. destruct (P3 i ws' Hin) as [Hi Hp]. split; [|done]. rewrite length_app. cbn. lia.
    + intros [H|H]; congruence.
    + intros p o [Hp|(w & [= -> ->] & Hw)%list_elem_of_fmap]%elem_of_app.
      * destruct (Hout p o Hp) as (i & Hi & Ho). exists i. split; [done|]. destruct o; exact Ho.
      * exists (length xs). split; [by apply Hws|]. cbn. rewrite lookup_app_r, Nat.sub_diag by done. done.
  - exists c. split; [done|]. split; [|done]. split; [done|done| |done|exact Hout].
    intros i ws Hin. destruct (P3 i ws Hin) as [Hi Hp]. split; [|done]. rewrite length_app. cbn. enough (i <> length xs) by lia. intros ->.
    apply get_None in Eg. apply Eg. apply list_elem_of_fmap. by exists (length xs, ws).
Qed.

(** *** Operations keep the cache *)

Lemma store_ok mkdir write b xs c : cache_ok xs c -> completed c = false -> failure c = None -> disposed c = false ->
  let '(ok, c') := storeChunk mkdir write b c in cache_ok (if ok then xs ++ [b] else xs) c'.
Proof.
  intros (Hst & Hp & Hrd) Hc Hf Hd. unfold storage_ok in Hst. rewrite Hd in Hst. destruct Hst as [Hst Hmem].
  set (total := totalBytes c + Z.of_nat (length b)).
  assert (Hkeep : forall chunks dir fs, storage xs chunks dir fs -> (dir = None -> mem_bytes chunks = total) -> cache_ok xs (with_store chunks dir total fs c)).
  { intros chunks dir fs Hs Hm. split; [unfold storage_ok; cbn; rewrite Hd; by split|]. split; [by apply (promises_same xs c)|exact Hrd]. }
  assert (Hpush : forall chunks dir fs chunks' fs', storage xs chunks dir fs -> storage (xs ++ [b]) chunks' dir fs' -> (dir = None -> mem_bytes chunks' = total) ->
    let '(ok, c') := wake (with_store chunks' dir total fs' (with_store chunks dir total fs c)) in cache_ok (if ok then xs ++ [b] else xs) c').
  { intros chunks dir fs chunks' fs' Hs Hs' Hm.
    destruct (wake_ok xs b (with_store chunks' dir total fs' (with_store chunks dir total fs c)) Hc Hf) as (c' & -> & Hpr & Ec & Ed & Ef & Et & Edi & Efa & Eto & Ere).
    - by apply (promises_same xs c).
    - cbn. rewrite (storage_length _ _ _ _ Hs'), length_app. cbn. lia.
    - rewrite (storage_read (xs ++ [b])) by exact Hs'. rewrite lookup_app_r, Nat.sub_diag by done. done.
    - split; [|split; [done|]].
      + unfold storage_ok. rewrite Edi, Ec, Ed, Ef, Et. cbn. rewrite Hd. by split.
      + destruct Hrd as [R1 R2]. split; [by rewrite Ere, Eto|]. rewrite Edi. cbn. congruence. }
  unfold storeChunk. fold total. destruct (cacheDirectory c) as [dir|] eqn:Edir.
  - destruct (st_dir _ _ _ _ Hst) as [|[= ->]]; [done|]. cbn [negb]. destruct (write 0%nat).
    + eapply Hpush; [exact Hst|by apply storage_push_disk|done].
    + by apply Hkeep.
  - specialize (Hmem eq_refl). destruct (memoryLimit <? total) eqn:El.
    + destruct Hst as [Hr Hdk Hdr Hm]. assert (Hdk' : forall j s, tc_chunks c !! j = Some s -> on_disk_at (Some directory_name) (0 + j) s).
      { intros j s Hj. specialize (Hdk j s Hj). destruct s; [done|]. destruct Hdk; congruence. }
      destruct mkdir.
      * pose proof (spill_ok write (tc_chunks c) 1 0 (files c) xs Hr Hdk') as Hsp. destruct (spill _ _ _ _ _ _) as [[ok chunks] fs]. destruct Hsp as (S1 & S2 & S3 & S4 & _).
        assert (Hs1 : storage xs chunks (Some directory_name) fs) by (split; [done|done|by right|lia]).
        destruct ok; cbn [negb]; [|by apply Hkeep]. destruct (write 0%nat); [|by apply Hkeep]. eapply Hpush; [exact Hs1|by apply storage_push_disk|done].
      * apply Hkeep; [|done]. split; [done|done|by right|done].
    + cbn [negb]. eapply Hpush; [exact Hst|apply storage_push_memory; [done|lia]|]. intros _. rewrite mem_bytes_app. cbn. lia.
Qed.

(** All that wait are settled in the same way. *)
Lemma settle_all_ok xs c c' o : promises_ok xs c -> chunkWaiters c' = [] -> promises c' = promises c ->
  settled c' = settled c ++ (chunkWaiters c ≫= fun p => (fun w => (w, o)) <$> p.2) ->
  (forall i, (length xs <= i)%nat -> chunkWaiters c <> [] -> outcome_ok xs c' i o) -> (forall i o', outcome_ok xs c i o' -> outcome_ok xs c' i o') -> promises_ok xs c'.
Proof.
  intros [P1 P2 P3 P4 P5] Hw Hp Hs Ho Hold. split; rewrite ?Hw, ?Hp, ?Hs.
  - cbn [mbind list_bind]. rewrite app_nil_r, fmap_app, <- P1. f_equiv. clear. induction (chunkWaiters c) as [|[i ws] m IH]; [done|].
    rewrite !bind_cons, fmap_app. f_equiv; [|exact IH]. cbn [snd]. by rewrite ids_of.
  - constructor.
  - intros i ws Hin. by apply elem_of_nil in Hin.
  - done.
  - intros p o' [Hin|Hin]%elem_of_app.
    + destruct (P5 p o' Hin) as (i & Hi & Hoi). exists i. split; [done|by apply Hold].
    + apply list_elem_of_bind in Hin as ([i ws] & Hin & Hm). cbn in Hin. apply list_elem_of_fmap in Hin as (w & [= -> ->] & Hwi). destruct (P3 i ws Hm) as [Hi Hps].
      exists i. split; [by apply Hps|]. apply Ho; [done|]. intros He. rewrite He in Hm. by apply elem_of_nil in Hm.
Qed.

Lemma complete_ok xs c : cache_ok xs c -> cache_ok xs (markComplete c).2.
Proof.
  intros (Hst & Hp & Hrd). unfold markComplete. destruct (completed c) eqn:Ec; [done|]. destruct (_ || disposed c) eqn:E; [done|]. cbn [snd].
  apply orb_false_iff in E as [Ef Ed]. assert (Hf : failure c = None) by by destruct (failure c). unfold storage_ok in Hst. rewrite Ed in Hst.
  pose proof (storage_length _ _ _ _ (proj1 Hst)) as Hlen. pose proof Hp as Hp'. destruct Hp as [P1 P2 P3 P4 P5].
  assert (Hhere : filter (fun p : nat * list nat => (p.1 < length (tc_chunks c))%nat) (chunkWaiters c) = []).
  { assert (Hall : forall p, p ∈ chunkWaiters c -> ~ (p.1 < length (tc_chunks c))%nat) by (intros [i ws] Hin; destruct (P3 i ws Hin) as [Hi _]; cbn; lia).
    clear -Hall. induction (chunkWaiters c) as [|p m IH]; [done|]. rewrite filter_cons_False by apply Hall, list_elem_of_here. apply IH. intros q Hq. apply Hall. by apply list_elem_of_further. }
  assert (Hbeyond : filter (fun p : nat * list nat => ~ (p.1 < length (tc_chunks c))%nat) (chunkWaiters c) = chunkWaiters c).
  { assert (Hall : forall p, p ∈ chunkWaiters c -> ~ (p.1 < length (tc_chunks c))%nat) by (intros [i ws] Hin; destruct (P3 i ws Hin) as [Hi _]; cbn; lia).
    clear -Hall. induction (chunkWaiters c) as [|p m IH]; [done|]. rewrite filter_cons_True by apply Hall, list_elem_of_here. f_equal. apply IH. intros q Hq. apply Hall. by apply list_elem_of_further. }
  rewrite Hhere, Hbeyond. split; [unfold storage_ok; cbn; by rewrite Ed|]. split; [|exact Hrd].
  apply (settle_all_ok xs c _ NoMore Hp'); [done|done|done|by intros|]. intros i o. destruct o; cbn; [done| |done|done]. intros [_ H]. by split.
Qed.

Lemma markFailed_ok xs e c : promises_ok xs c -> promises_ok xs (markFailed e c).
Proof.
  intros Hp. unfold markFailed. destruct (failure c) eqn:Ef; [done|].
  apply (settle_all_ok xs c _ (Failed e) Hp); [done|done|done|done|]. intros i o. destruct o; cbn; [done|done|congruence|done].
Qed.
Lemma markFailed_fields e c : tc_chunks (markFailed e c) = tc_chunks c /\ cacheDirectory (markFailed e c) = cacheDirectory c /\ files (markFailed e c) = files c /\
  totalBytes (markFailed e c) = totalBytes c /\ disposed (markFailed e c) = disposed c /\ tokens (markFailed e c) = tokens c /\ readers (markFailed e c) = readers c /\ failure (markFailed e c) <> None.
Proof. unfold markFailed. by destruct (failure c) eqn:E; repeat split; rewrite ?E. Qed.

Lemma fail_ok xs e c : cache_ok xs c -> cache_ok xs (markFailed e c).
Proof.
  intros (Hst & Hp & R1 & R2). destruct (markFailed_fields e c) as (E1 & E2 & E3 & E4 & E5 & E6 & E7 & E8).
  split; [unfold storage_ok; by rewrite E1, E2, E3, E4, E5|]. split; [by apply markFailed_ok|]. split; [by rewrite E6, E7|]. rewrite E5, E7. intros Hd. split; [done|]. by apply R2.
Qed.

(** A promise more. *)
Lemma promise_settled xs c i o : promises_ok xs c -> outcome_ok xs c i o ->
  promises_ok xs (with_waiters (chunkWaiters c) (promises c ++ [i]) (settled c ++ [(length (promises c), o)]) c).
Proof.
  intros [P1 P2 P3 P4 P5] Ho. split; cbn [with_waiters settled chunkWaiters promises completed failure].
  - rewrite length_app, seq_app, <- P1, fmap_app. cbn. rewrite <- !(assoc_L app). f_equiv. apply Permutation_app_comm.
  - done.
  - intros j ws Hin. destruct (P3 j ws Hin) as [H1 H2]. split; [done|]. intros p Hp. apply lookup_app_l_Some. by apply H2.
  - done.
  - intros p o' [Hp|Hp]%elem_of_app.
    + destruct (P5 p o' Hp) as (j & Hj & Hoj). exists j. split; [by apply lookup_app_l_Some|]. destruct o'; exact Hoj.
    + apply list_elem_of_singleton in Hp. injection Hp as -> ->. exists i. split; [by rewrite lookup_app_r, Nat.sub_diag|]. destruct o; exact Ho.
Qed.

Lemma wait_ok xs i aborted c : cache_ok xs c -> cache_ok xs (waitForChunk i aborted c).2.
Proof.
  intros (Hst & Hp & Hrd). assert (Hsettle : forall o, outcome_ok xs c i o ->
    cache_ok xs (with_waiters (chunkWaiters c) (promises c ++ [i]) (settled c ++ [(length (promises c), o)]) c)).
  { intros o Ho. split; [exact Hst|]. split; [by apply promise_settled|exact Hrd]. }
  unfold waitForChunk. destruct aborted; [by apply Hsettle|]. destruct (failure c) as [e|] eqn:Ef; [by apply Hsettle|].
  assert (Hd : disposed c = false) by (destruct (disposed c) eqn:E; [|done]; destruct Hrd as [_ R2]; destruct (R2 E); congruence).
  pose proof Hst as Hst'. unfold storage_ok in Hst'. rewrite Hd in Hst'. destruct Hst' as [Hs _]. pose proof (storage_length _ _ _ _ Hs) as Hl.
  destruct (Nat.ltb_spec i (length (tc_chunks c))) as [Hi|Hi].
  { destruct (readChunk i c) as [b|] eqn:Er; [|done]. apply Hsettle. cbn. rewrite <- Er. symmetry. by apply storage_read. }
  destruct (completed c) eqn:Ec; [apply Hsettle; cbn; split; [done|lia]|]. cbn [snd]. split; [exact Hst|]. split; [|exact Hrd].
  destruct Hp as [P1 P2 P3 P4 P5]. set (ws := default [] (JsMap.get (chunkWaiters c) i)).
  assert (Hws : forall p, p ∈ ws -> promises c !! p = Some i).
  { unfold ws. destruct (JsMap.get (chunkWaiters c) i) as [ws0|] eqn:Eg; [|by intros p Hp%elem_of_nil]. apply (P3 i ws0), get_elem, Eg. }
  split; cbn [with_waiters settled chunkWaiters promises completed failure].
  - rewrite length_app, seq_app, <- P1. cbn. rewrite (waiters_set _ _ _ P2). unfold ws. destruct (JsMap.get (chunkWaiters c) i) as [ws0|] eqn:Eg.
    + rewrite (waiters_remove _ _ _ P2 Eg). cbn. rewrite <- !(assoc_L app). f_equiv. f_equiv. apply Permutation_app_comm.
    + cbn. assert (Hr : JsMap.remove (chunkWaiters c) i = chunkWaiters c).
      { apply get_None in Eg. clear -Eg. unfold JsMap.remove. induction (chunkWaiters c) as [|[k v] m IH]; [done|]. cbn in Eg. apply not_elem_of_cons in Eg as [H1 H2].
        rewrite filter_cons_True by (cbn; congruence). by rewrite IH. }
      rewrite Hr. rewrite <- (assoc_L app). f_equiv. apply Permutation_cons_append.
  - by apply set_nodup.
  - intros j ws' Hin. apply (get_nodup _ _ _ (set_nodup _ _ _ P2)) in Hin. rewrite get_set in Hin. destruct (decide (i = j)) as [<-|Hne].
    + injection Hin as <-. split; [lia|]. intros p [Hp|Hp]%elem_of_app; [apply lookup_app_l_Some; by apply Hws|]. apply list_elem_of_singleton in Hp. subst p. by rewrite lookup_app_r, Nat.sub_diag.
    + apply get_elem in Hin. destruct (P3 j ws' Hin) as [H1 H2]. split; [done|]. intros p Hp. apply lookup_app_l_Some. by apply H2.
  - intros [H|H]; congruence.
  - intros p o Hp. destruct (P5 p o Hp) as (j & Hj & Ho). exists j. split; [by apply lookup_app_l_Some|]. destruct o; exact Ho.
Qed.

Lemma take_out (ws : list nat) p : NoDup ws -> p ∈ ws -> ws ≡ₚ p :: filter (fun w => w <> p) ws.
Proof.
  intros Hnd Hp. induction ws as [|w ws IH]; [by apply elem_of_nil in Hp|]. apply list.NoDup_cons in Hnd as [Hw Hnd]. destruct (decide (w = p)) as [->|Hne].
  - rewrite filter_cons_False by (by intros []). f_equiv. assert (Hr : filter (fun w => w <> p) ws = ws); [|by rewrite Hr]. clear -Hw. induction ws as [|w ws IH]; [done|].
    apply not_elem_of_cons in Hw as [H1 H2]. rewrite filter_cons_True by congruence. f_equal. by apply IH.
  - rewrite filter_cons_True by done. apply elem_of_cons in Hp as [->|Hp]; [done|]. rewrite (IH Hnd Hp) at 1. apply perm_swap.
Qed.

Lemma abort_ok xs p c : cache_ok xs c -> cache_ok xs (abortWait p c).
Proof.
  intros Hok. pose proof Hok as (Hst & [P1 P2 P3 P4 P5] & Hrd). unfold abortWait. destruct (promises c !! p) as [i|] eqn:Ep; [|done].
  destruct (JsMap.get (chunkWaiters c) i) as [ws|] eqn:Eg; [|done]. case_bool_decide as Hp; [|done].
  set (ws' := filter (fun w => w <> p) ws). split; [exact Hst|]. split; [|exact Hrd].
  assert (Hnd : NoDup ws).
  { assert (H : NoDup ((settled c).*1 ++ (chunkWaiters c ≫= snd))) by (rewrite P1; apply NoDup_seq). rewrite (waiters_remove _ _ _ P2 Eg) in H.
    apply NoDup_app in H as (_ & _ & H). by apply NoDup_app in H as (H & _). }
  set (m' := match ws' with [] => _ | _ => _ end).
  assert (Hbind : m' ≫= snd ≡ₚ ws' ++ (JsMap.remove (chunkWaiters c) i ≫= snd)) by (unfold m'; destruct ws'; [done|by apply waiters_set]).
  assert (Helem : forall j v, (j, v) ∈ m' -> (j, v) ∈ chunkWaiters c \/ (j = i /\ v = ws')).
  { intros j v Hin. unfold m' in Hin. destruct ws' as [|w0 w1] eqn:Ew; [left; by apply remove_elem in Hin as [H _]|].
    apply (get_nodup _ _ _ (set_nodup _ _ _ P2)) in Hin. rewrite get_set in Hin. destruct (decide (i = j)) as [<-|]; [right; split; [done|congruence]|left; by apply get_elem]. }
  destruct (P3 i ws (get_elem _ _ _ Eg)) as [Hi Hps].
  split; cbn [with_waiters settled chunkWaiters promises completed failure].
  - rewrite fmap_app, Hbind, <- P1, (waiters_remove _ _ _ P2 Eg), (take_out ws p Hnd Hp). fold ws'. cbn. by rewrite <- (assoc_L app).
  - unfold m'. destruct ws'; [by apply remove_nodup|by apply set_nodup].
  - intros j v Hin. destruct (Helem j v Hin) as [Hin'|[-> ->]]; [by apply P3|]. split; [done|]. intros q [_ Hq]%list_elem_of_filter. by apply Hps.
  - intros H. rewrite (P4 H) in Eg. done.
  - intros q o [Hq|Hq]%elem_of_app; [by apply P5|]. apply list_elem_of_singleton in Hq. injection Hq as -> ->. by exists i.
Qed.

Lemma held_nonneg ts : 0 <= held ts.
Proof. induction ts as [|[] ts IH]; cbn; lia. Qed.
Lemma held_app a b : held (a ++ b) = held a + held b.
Proof. induction a as [|[] a IH]; cbn; lia. Qed.
Lemma held_release ts t : ts !! t = Some true -> held (<[t := false]> ts) = held ts - 1.
Proof. revert t. induction ts as [|x ts IH]; intros [|t] H; cbn in *; [done|done|injection H as ->; lia|]. rewrite IH by done. lia. Qed.

Lemma disposeNow_ok xs c : cache_ok xs c -> readers c = 0 -> cache_ok xs (disposeNow disposed_message c).
Proof.
  intros Hok Hr. unfold disposeNow. destruct (disposed c) eqn:Ed; [done|]. destruct Hok as (_ & Hp & R1 & _).
  set (c1 := with_flags _ _ _ _ c). destruct (markFailed_fields disposed_message c1) as (E1 & E2 & E3 & E4 & E5 & E6 & E7 & E8).
  split; [unfold storage_ok; cbn [with_store disposed]; by rewrite E5|]. split.
  - apply (promises_same xs (markFailed disposed_message c1)); [done..|]. apply markFailed_ok. by apply (promises_same xs c).
  - split; cbn [with_store readers tokens disposed failure]; [by rewrite E6, E7|]. rewrite E7. intros _. by split.
Qed.

Lemma flags_ok xs req c : cache_ok xs c -> cache_ok xs (with_flags (completed c) req (disposed c) (failure c) c).
Proof. intros (Hst & Hp & Hrd). split; [exact Hst|]. split; [by apply (promises_same xs c)|exact Hrd]. Qed.

Lemma step_ok o xs c : cache_ok xs c ->
  let '(ok, c') := step o c in cache_ok (match o with CAppend _ _ b => if ok then xs ++ [b] else xs | _ => xs end) c'.
Proof.
  intros Hok. destruct o as [mkdir write b| |e|i ab|p| |t|]; cbn [step].
  - unfold appendEncodedChunk. destruct (_ || disposed c) eqn:E; [done|]. apply orb_false_iff in E as [E Ed]. apply orb_false_iff in E as [Ec Ef].
    apply (store_ok mkdir write b xs c Hok Ec); [by destruct (failure c)|done].
  - pose proof (complete_ok xs c Hok) as H. by destruct (markComplete c).
  - by apply fail_ok.
  - pose proof (wait_ok xs i ab c Hok) as H. by destruct (waitForChunk i ab c).
  - by apply abort_ok.
  - unfold retain. destruct (disposed c) eqn:Ed; [done|]. destruct Hok as (Hst & Hp & R1 & R2). split; [exact Hst|]. split; [by apply (promises_same xs c)|].
    split; cbn [with_readers readers tokens disposed]; [rewrite held_app, R1; cbn; lia|congruence].
  - unfold release. destruct (tokens c !! t) as [[]|] eqn:Et; [|done|done]. set (c1 := with_readers _ _ c).
    assert (H1 : cache_ok xs c1).
    { destruct Hok as (Hst & Hp & R1 & R2). split; [exact Hst|]. split; [by apply (promises_same xs c)|]. pose proof (held_release _ _ Et) as Hh. pose proof (held_nonneg (<[t := false]> (tokens c))).
      split; cbn [c1 with_readers readers tokens disposed failure]; [lia|]. intros Hd. destruct (R2 Hd). lia. }
    destruct (_ && disposeRequested c1) eqn:E; [|exact H1]. apply andb_true_iff in E as [E _]. apply disposeNow_ok; [exact H1|lia].
  - unfold dispose. destruct (_ || _); [done|]. pose proof (flags_ok xs true c Hok) as H1. destruct (0 <? _) eqn:E; [exact H1|]. apply disposeNow_ok; [exact H1|].
    destruct H1 as (_ & _ & R1 & _). pose proof (held_nonneg (tokens c)). cbn in *. lia.
Qed.

Lemma run_ops_ok ops : forall xs c, cache_ok xs c -> let '(xs', c') := run_ops ops xs c in cache_ok xs' c'.
Proof.
  induction ops as [|o ops IH]; intros xs c Hok; [done|]. cbn [run_ops]. pose proof (step_ok o xs c Hok) as H. destruct (step o c) as [ok c']. by apply IH.
Qed.

Lemma fresh_ok fs : cache_ok [] (fresh fs).
Proof.
  split; [|split].
  - split; [|done]. split; [done|done|by left|exact limit_ok].
  - split; cbn; [done|constructor|intros i ws H; by apply elem_of_nil in H|done|intros p o H; by apply elem_of_nil in H].
  - by split.
Qed.

(** A transcript that is being received can be read. However chunks are appended, with writes that fail at any point, and
    awaited, aborted, completed, failed, retained and disposed of: a transcript that is not disposed of has exactly the
    chunks whose appends succeeded, and memory holds no more of them than its limit. A promise settles once; one for a
    chunk that is there has settled, with that chunk unless it failed or was aborted; all have when the transcript is
    complete or failed. No transcript is disposed of while a reader holds it. *)
Theorem transcript_served (ops : list cop) (fs : jsmap jsstr (list N)) :
  let '(xs, c) := run_ops ops [] (fresh fs) in
  (disposed c = false -> chunkCount c = length xs /\ forall i, readChunk i c = xs !! i) /\ mem_bytes (tc_chunks c) <= memoryLimit /\
  NoDup (settled c).*1 /\ (forall p o, (p, o) ∈ settled c -> exists i, promises c !! p = Some i /\ outcome_ok xs c i o) /\
  (forall p i, promises c !! p = Some i -> (i < length xs)%nat \/ completed c = true \/ failure c <> None -> p ∈ (settled c).*1) /\
  (0 < held (tokens c) -> disposed c = false).
Proof.
  pose proof (run_ops_ok ops [] (fresh fs) (fresh_ok fs)) as Hok. destruct (run_ops ops [] (fresh fs)) as [xs c].
  destruct Hok as (Hst & [P1 P2 P3 P4 P5] & R1 & R2). split; [|split; [|split; [|split; [exact P5|split]]]].
  - intros Hd. unfold storage_ok in Hst. rewrite Hd in Hst. destruct Hst as [Hs _]. split; [by apply (storage_length _ _ _ _ Hs)|]. intros i. by apply storage_read.
  - unfold storage_ok in Hst. destruct (disposed c); [destruct Hst as [-> _]; exact limit_ok|]. by destruct Hst as [[] _].
  - assert (H : NoDup ((settled c).*1 ++ (chunkWaiters c ≫= snd))) by (rewrite P1; apply NoDup_seq). by apply NoDup_app in H as (H & _).
  - intros p i Hp Hwhy. assert (Hin : p ∈ (settled c).*1 ++ (chunkWaiters c ≫= snd)) by (rewrite P1; apply elem_of_seq; apply lookup_lt_Some in Hp; lia).
    apply elem_of_app in Hin as [Hin|Hin]; [done|]. apply list_elem_of_bind in Hin as ([j ws] & Hpw & Hm). cbn in Hpw. exfalso. destruct Hwhy as [Hi|Hwhy].
    + destruct (P3 j ws Hm) as [Hj Hall]. rewrite (Hall p Hpw) in Hp. injection Hp as ->. lia.
    + rewrite (P4 Hwhy) in Hm. by apply elem_of_nil in Hm.
  - intros Hh. destruct (disposed c); [|done]. destruct (R2 eq_refl) as [_ H0]. lia.
Qed.
End cache.

(** ** Examples *)

Definition ex_messages : list json := [JStr (js "aa"); JStr (js "bbbb"); JStr (js "c"); JStr (js "d")].

Lemma ex_messages_ok : Forall json_ok ex_messages.
Proof. repeat (apply Forall_cons; split; [apply ok_str; by apply js_wf_check|]). apply Forall_nil_2. Qed.

(** With a target of ten bytes, four messages make three chunks. *)
Lemma chunks_carry_messages_witness :
  Forall json_ok ex_messages /\ exists chunks groups, createSnapshotTranscriptChunks (js "s") (js "i") 10 (fun _ => false) ex_messages = (false, chunks) /\
    concat groups = ex_messages /\ length chunks = 3%nat.
Proof.
  split; [exact ex_messages_ok|].
  destruct (chunks_carry_messages (js "s") (js "i") 10 (fun _ => false) ex_messages ex_messages_ok (conj (js_wf_check (js "s") eq_refl) (js_wf_check (js "i") eq_refl)) (fun _ => eq_refl))
    as (chunks & groups & H1 & H2 & H3 & _).
  exists chunks, groups. split; [exact H1|]. split; [exact H2|]. vm_compute in H1. injection H1 as <-. reflexivity.
Defined.

Definition ex_join (d n : jsstr) : jsstr := d ++ js "/" ++ n.
Lemma ex_join_inj d a b : ex_join d a = ex_join d b -> a = b.
Proof. unfold ex_join. intros H. apply app_inv_head in H. by apply app_inv_head in H. Qed.
Definition all_well (_ : nat) : bool := true.
(** The second chunk exceeds the limit; a reader holds the transcript while it is to be disposed of. *)
Definition ex_ops : list cop :=
  [CWait 1 false; CAppend true all_well [1; 2; 3]%N; CRetain; CAppend true all_well [4; 5; 6]%N; CWait 7 false; CDispose; CWait 0 false; CComplete].
Definition ex_run (ops : list cop) : list (list N) * cache := run_ops (js "a:b") (js "/c") 5 ex_join (js "disposed") ops [] (fresh []).

Lemma transcript_served_witness :
  (forall d a b, ex_join d a = ex_join d b -> a = b) /\ disposed (ex_run ex_ops).2 = false /\ mem_bytes (tc_chunks (ex_run ex_ops).2) <= 5 /\
  readChunk 0 (ex_run ex_ops).2 = Some [1; 2; 3]%N /\ settled (ex_run ex_ops).2 = [(0%nat, GotChunk [4; 5; 6]%N); (2%nat, GotChunk [1; 2; 3]%N); (1%nat, NoMore)].
Proof.
  split; [exact ex_join_inj|]. unfold ex_run.
  pose proof (transcript_served (js "a:b") (js "/c") 5 ex_join (js "disposed") ex_join_inj ltac:(lia) ex_ops []) as H.
  destruct (run_ops _ _ _ _ _ ex_ops [] _) as [xs c] eqn:E. destruct H as (Hread & Hmem & _ & _ & _ & Hheld). vm_compute in E. injection E as <- <-. cbn [snd].
  split; [apply Hheld; vm_compute; reflexivity|]. split; [exact Hmem|]. split; [|reflexivity].
  destruct (Hread eq_refl) as [_ H]. rewrite H. reflexivity.
Defined.

(** The last reader disposes of the transcript; its files go, and a promise that waited fails. *)
Example last_reader_disposes :
  let c := (ex_run [CAppend true all_well [1; 2; 3; 4; 5; 6]%N; CRetain; CWait 1 false; CDispose; CRelease 0; CRelease 0]).2 in
  disposed c = true /\ files c = [] /\ settled c = [(0%nat, Failed (js "disposed"))].
Proof. vm_compute. by repeat split. Qed.

(** A write that fails in the middle of the spilling leaves every chunk readable. *)
Example spill_fails :
  let c := (ex_run [CAppend true all_well [1]%N; CAppend true all_well [2]%N; CAppend true (fun k => Nat.ltb k 2) [3; 4; 5; 6]%N]).2 in
  readChunk 0 c = Some [1]%N /\ readChunk 1 c = Some [2]%N /\ chunkCount c = 2%nat /\ length (files c) = 1%nat.
Proof. vm_compute. by repeat split. Qed.

(** The names of directories are not those of snapshots: two snapshots may share one. *)
Example directories_collide : directory_name (js "a:b") (js "/c") ex_join = directory_name (js "a_b") (js "/c") ex_join.
Proof. vm_compute. reflexivity. Qed.
